(* ===== verification/_CoqProject ===== *)
-Q . S2P
Prelude.v
Text.v
Containers.v
Values.v
Lru.v
Serde.v
F64.v
Instances.v
XdrDecode.v
XdrCursor.v
Wasm.v
Limbs.v
Spec.v
Enrich.v
Encode.v
RoundTrip.v
Call.v
Diff.v
Codegen.v
CodegenSafety.v
UrlValidation.v
Store.v
Convert.v
Cursor.v
Poller.v
PollerSafety.v
Pagination.v
Limits.v
Sanitize.v
Crypto.v
CallCache.v
RateLimit.v
ApiError.v
KeyCache.v
Auth.v
Specs.v
SdkRoute.v
ReadRoute.v
History.v
Retention.v
Dispatcher.v
Delivery.v
WebhookRoutes.v
Backfill.v
DeepBackfill.v
Reenrich.v
RpcClient.v
RpcFailover.v
LedgerReads.v
StateIndex.v
Stream.v
Models.v
EventRoutes.v
StatsRoute.v
ContractRoutes.v
RefreshRoute.v
GraphqlRoute.v
ProxyRoute.v
Health.v
Metrics.v
McpLimiter.v
McpTools.v
McpServer.v
