(* ===== verification/Prelude.v ===== *)
(** * Lumenqraph: a verification library for the contract-event indexer

    Lumenqraph indexes the events of Soroban contracts.  An indexer polls a
    Stellar RPC node, decodes the events and stores them in Postgres; an API
    serves the store and simulates contract calls; a webhook service fans new
    events out to subscribers.  A core crate holds what they share: decoding,
    contract interfaces, typed call encoding, interface diffs, signatures.

    ** The files and the source they model

    Generic libraries
    - [Prelude]: [Result] and [?], tactics, list and option lemmas.
    - [Text]: [String] as bytes, [chars], numerals and their round trips.
    - [Containers]: [BTreeMap], stable sort.  [Lru], [Serde], [F64]: the
      [lru] crate, [serde_json]'s printer (interfaces with instances), [f64].
    - [Values]: [Json], [ScVal] and the other data of [stellar_xdr]; the class
      [Stellar] of the external functions.  [Instances]: a concrete [Stellar].

    The core crate ([src/crates/lumenqraph-core/src])
    - [XdrDecode]: [xdr.rs], and [XdrCursor]: its byte-level reader.
    - [Wasm], [Spec], [Enrich]: [spec.rs].
    - [Limbs], [Encode], [Call]: [read.rs].  [RoundTrip]: both directions.
    - [Diff]: [diff.rs].  [UrlValidation]: [url_validation.rs].
      [Sanitize]: [sanitize.rs].  [Crypto]: [crypto.rs].
    - [Codegen], [CodegenSafety]: [codegen.rs].

    The indexer ([src/crates/lumenqraph-indexer/src])
    - [Convert]: [convert.rs], [keys.rs].  [Store]: [store.rs].
      [Cursor]: [cursor.rs].  [Poller], [PollerSafety]: [poller.rs].
      [History]: [specs.rs].  [Retention]: [retention.rs].
    - [Backfill]: [recover_gaps] of [poller.rs], [backfill.rs].
      [DeepBackfill]: [deep_backfill.rs].  [Reenrich]: [reenrich.rs].
    - [RpcClient]: [rpc_client.rs]; [RpcFailover] and [LedgerReads] hold the
      theorems on its calls and on its batches.  [StateIndex]: [state.rs].

    The API ([src/crates/lumenqraph-api/src])
    - [Pagination]: [pagination.rs], [routes/transfers.rs].
    - [Limits]: [concurrency_limit.rs].  [RateLimit]: [rate_limit.rs].
    - [ApiError]: [error.rs].  [KeyCache]: [key_cache.rs].  [Auth]: [auth.rs].
    - [CallCache]: [call_cache.rs].  [Specs]: [specs.rs].
      [ReadRoute]: [routes/read.rs], [read_cost_limit.rs], [rpc.rs] (simulate).
      [SdkRoute]: [routes/sdk.rs].  [WebhookRoutes]: [routes/webhooks.rs].
      [Stream]: [routes/stream.rs].
    - [Models]: the rows the lists read.  [EventRoutes]: [extract.rs],
      [routes/events.rs], [swaps.rs], [nfts.rs], [liquidity.rs].
      [StatsRoute]: [routes/stats.rs].  [ContractRoutes], [RefreshRoute]:
      [routes/contracts.rs].  [GraphqlRoute]: [graphql.rs].
    - [ProxyRoute]: [routes/proxy.rs].  [Health]: [routes/health.rs] and
      [schema.rs] of the core crate.  [Metrics]: [metrics_middleware.rs],
      [metrics.rs].

    The webhook service ([src/crates/lumenqraph-webhooks/src])
    - [Dispatcher]: [dispatcher.rs], stage 1 (enqueue).
      [Delivery]: [dispatcher.rs], stage 2 (claim, send, retry), [prune.rs].

    The MCP server ([src/crates/lumenqraph-mcp/src])
    - [McpLimiter]: the budget of [rpc.rs].  [McpTools]: [tools.rs], the
      simulation of [rpc.rs].  [McpServer]: [main.rs].

    ** How the parts meet

    [XdrDecode] turns an [ScVal] into JSON; [Enrich] renames its parts with the
    interface [Spec] parsed from the module [Wasm] found; [Encode] goes the
    other way.  [Convert] applies the decoder to RPC events, [Store] inserts
    what it gives, [Poller] drives both and [Cursor]; [Backfill] and
    [DeepBackfill] feed the same tables, [Reenrich] rewrites them.  The poller's
    environment answers what a call of [RpcClient] may answer; [StateIndex] runs
    on [RpcClient] itself, with the upgrade watch of [History].  [ReadRoute] composes
    [Specs], [CallCache], [Call] and [Sanitize] behind the guards of [Auth],
    which itself composes [KeyCache], [Limits] and [RateLimit] through the
    class [Limiter].  [Dispatcher] reads the rows [Store] writes, the
    subscriptions [WebhookRoutes] manages and the interface versions [History] writes; [Delivery] reads its queue and signs
    with [Crypto] to the addresses [UrlValidation] admits; [Stream] broadcasts
    and polls the rows of [Store]; [Retention] deletes from the tables of all
    of them.  The lists ([EventRoutes], [GraphqlRoute], [ContractRoutes]) page
    over the rows of [Models] with the keyset library of [Pagination];
    [RefreshRoute] drops a contract from [Specs] and [CallCache] and writes the tables of
    [History]; [ProxyRoute] forwards to an upstream the client that [Auth]
    resolved.  [McpTools] reads the same tables, encodes calls with [Call],
    diffs with [Diff] and sanitises with [Sanitize] under the budget of
    [McpLimiter]; [McpServer] dispatches to it over two transports.

    ** How code is translated

    Pure functions are functions.  [Result] is [Result A E], a panic is [None]
    of an option around the result.  Integers are [Z] with the wrap-around,
    check or saturation of the source written out.  A SQL statement is a
    function on a record of tables, following the migrations; a transaction
    that fails returns the tables it started from.  What the outside decides
    (RPC answers, failing statements, clocks, cancellation, other requests)
    is an argument the theorems quantify over.  Crates are parameters or
    classes whose laws state their documentation; each class has an instance,
    and witnesses compute with it.

    ** What the theorems show

    - Values: a value of a declared type survives decoding, enrichment and
      re-encoding ([RoundTrip]); the encoder accepts only values of the
      declared type; 256-bit decimals parse and print back ([Limbs]); the
      section walk finds exactly the custom section ([Wasm]); the byte-level
      reader inverts the wire format, fails exactly beyond its depth limit and
      never looks past the bytes it consumes ([XdrCursor]).
    - Interfaces: the [Diff] severity is breaking exactly when a client of the
      old interface can break; the version history is a chain ([History]).
    - Ingestion: under every schedule of failures no event is passed over
      unless its range is recorded, if all close times parse ([PollerSafety]); inserts are idempotent and
      the projections follow the events ([Store]); the cursor is an optimistic
      lock ([Cursor]); retention deletes only what is out of window
      ([Retention]).
    - Catching up: a recovered range has all its events stored before it is
      marked, a backfill checkpoints what it stored ([Backfill]); an archive is
      read back as it was written and, if its lines are dated, a restarted run
      ends as one run ([DeepBackfill]); re-enrichment is a map over the rows ([Reenrich]).
    - RPC: a call goes through the endpoints in order, at most three attempts
      each, sends nothing to an unverified one and repeats only transient
      failures; it answers if an endpoint it may reach does ([RpcFailover]); a
      batch attributes no entry to another key ([LedgerReads]).
    - State: snapshots only append, batching changes nothing but the number of
      requests, and a key's first value is the only one recorded ([StateIndex]).
    - Webhooks: at most one delivery per event and subscription, and every
      match that is not committed behind the watermark gets one ([Dispatcher]);
      the life cycle of a delivery without outcomes recorded past its lease,
      termination of a pass, bounds of the backoff ([Delivery]); what a sender signs a
      receiver accepts ([Crypto]); only public addresses ([UrlValidation]);
      which routes keep to the caller's subscriptions, what they leave valid,
      and that redriving drains ([WebhookRoutes]).
    - API: a handler runs only for a caller that authentication, scopes and
      limits admit ([Auth]); limits never exceed their number ([Limits]),
      nor does a burst against the buckets in memory, while the Redis script
      counts seconds, not requests ([RateLimit]); pages partition the rows ([Pagination]); caches refine
      the lookups they stand for, up to their TTL ([CallCache], [KeyCache],
      [Specs]); errors shown to clients carry no address ([Sanitize]).
    - Lists: following the cursors of a list gives every row its filters keep,
      once and in order ([EventRoutes], [ContractRoutes], [GraphqlRoute]);
      statistics are the counts of their range, and bounded ([StatsRoute]); an
      interface diff is that of the two recorded versions; a refresh drops
      the cached interface and call results and writes what the indexer's load
      would ([RefreshRoute]).
    - Operation: the proxy is transparent within its limits, and the upstream
      sees the client it limited ([ProxyRoute]); the schema check is exact and
      readiness is what it says ([Health]); counters and histograms are the
      numbers of requests, and labels cannot run together ([Metrics]).
    - Streams: a stream's events only move forward; polling delivers the whole
      backlog page by page, a reconnecting client resumes at the next row, and
      live delivery agrees with polling while the watermark and the cursor
      agree; examples show what a stream misses when they do not ([Stream]).
    - Clients: whatever names and documentation a contract chooses, the
      generated Python and Rust hold them only as identifiers, quoted literals
      and one-line comments; TypeScript does for interfaces whose type names are
      identifiers, and an example shows it does not otherwise ([Codegen]).
    - MCP: what is listed is what is dispatched, with the arguments its schema
      requires; each tool's rows, order and limits ([McpTools]); at most the
      budget is sent in any minute ([McpLimiter]); a tool runs only for an
      authenticated client with a session, sessions are what the replies said,
      and both transports answer alike ([McpServer]).

    ** Fuel and bounds

    Recursion that is not structural carries fuel that a theorem shows is
    enough: 256-bit printing takes 5 chunks of 18 or 19 digits; [relabel] and
    [json_to_scval] take the depth of the JSON; the WASM walk takes the length
    plus one, since each section consumes a byte; the poll loops take the
    number of pages plus one; reading all pages, claiming, pruning and the
    listener's catch-up take the number of rows plus one, since every round
    removes one;
    [trim_start_matches] and [replace] take the length of the text.  A call of
    the RPC client takes as many rounds as there are endpoints, which its
    refinement shows are never used up before the last endpoint.

    ** Not modelled

    - Input and output with no logic of its own: the HTTP exchange, connection
      pools, start-up, the reading of environment variables (their values are
      arguments), the route table, the health and metrics pages of the indexer
      and of the webhook service.
    - Other languages: the SDKs, the explorer and the migrations, which the
      tables here follow. *)
From stdpp Require Export base tactics option list numbers strings gmap sorting.
From Stdlib Require Export ZArith Lia.

(** ** Results: Rust's [Result<T, E>] and its [?] operator *)

Inductive result (E A : Type) : Type :=
  | Ok (a : A)
  | Err (e : E).
Arguments Ok {E A} a.
Arguments Err {E A} e.

#[export] Instance result_ret E : MRet (result E) := fun A a => Ok a.
#[export] Instance result_bind E : MBind (result E) := fun A B f r =>
  match r with Ok a => f a | Err e => Err e end.
#[export] Instance result_fmap E : FMap (result E) := fun A B f r =>
  match r with Ok a => Ok (f a) | Err e => Err e end.

Lemma bind_ok_inv {E A B} (r : result E A) (f : A → result E B) b :
  (r ≫= f) = Ok b → ∃ a, r = Ok a ∧ f a = Ok b.
Proof. destruct r as [a|]; [|done]. by exists a. Qed.

Definition map_err {E F A} (f : E → F) (r : result E A) : result F A :=
  match r with Ok a => Ok a | Err e => Err (f e) end.

Definition ok_or {E A} (e : E) (o : option A) : result E A :=
  match o with Some a => Ok a | None => Err e end.

Definition is_ok {E A} (r : result E A) : bool :=
  match r with Ok _ => true | Err _ => false end.

(** [Iterator::map(f).collect::<Result<Vec<_>, _>>()]: left to right, stops at
    the first error.  The function stays outside the fixpoint so that a
    recursive caller passes the guard checker. *)
Definition collect_r {E A B} (f : A → result E B) : list A → result E (list B) :=
  fix go l :=
    match l with
    | [] => Ok []
    | x :: l' => match f x with
                 | Err e => Err e
                 | Ok y => match go l' with Err e => Err e | Ok ys => Ok (y :: ys) end
                 end
    end.

(** The same over two lists walked in step ([a.iter().zip(b)]): the recursion
    is on the first list. *)
Definition collect_r2 {E A B C} (f : A → B → result E C) :
    list A → list B → result E (list C) :=
  fix go l k :=
    match l, k with
    | x :: l', y :: k' =>
        match f x y with
        | Err e => Err e
        | Ok z => match go l' k' with Err e => Err e | Ok zs => Ok (z :: zs) end
        end
    | _, _ => Ok []
    end.

Definition zip_map {A B C} (f : A → B → C) : list A → list B → list C :=
  fix go l k :=
    match l, k with
    | x :: l', y :: k' => f x y :: go l' k'
    | _, _ => []
    end.

(** [a.iter().zip(b).all(f)]. *)
Fixpoint zip_all {A B} (f : A → B → bool) (l : list A) (k : list B) : bool :=
  match l, k with
  | x :: l', y :: k' => f x y && zip_all f l' k'
  | _, _ => true
  end.

(** ** Total orders: what Rust's [Ord] promises *)

Class TotalOrder (A : Type) := {
  tcmp : A → A → comparison;
  tcmp_eq x y : tcmp x y = Eq ↔ x = y;
  tcmp_antisym x y : tcmp y x = CompOpp (tcmp x y);
  tcmp_trans x y z : tcmp x y = Lt → tcmp y z = Lt → tcmp x z = Lt;
}.

Definition tlt {A} `{TotalOrder A} (x y : A) : Prop := tcmp x y = Lt.

(** ** Fixed-width integers *)

(** [z as uW] and [z as iW]. *)
Definition wrap (w z : Z) : Z := (z mod 2 ^ w)%Z.
Definition as_signed (w z : Z) : Z :=
  let u := wrap w z in if (u <? 2 ^ (w - 1))%Z then u else (u - 2 ^ w)%Z.

Definition in_u (w z : Z) : bool := ((0 <=? z) && (z <? 2 ^ w))%Z.
Definition in_i (w z : Z) : bool := ((- 2 ^ (w - 1) <=? z) && (z <? 2 ^ (w - 1)))%Z.

(** ** Automation *)

Create HintDb lq.
Create Rewrite HintDb lqr.

(** Split the boolean tests of the code into facts for [lia]. *)
Ltac bool_facts :=
  repeat match goal with
  | H : context [(_ && _)%bool = true] |- _ => rewrite andb_true_iff in H
  | H : context [(_ || _)%bool = true] |- _ => rewrite orb_true_iff in H
  | H : (_ && _)%bool = false |- _ => apply andb_false_iff in H
  | H : (_ || _)%bool = false |- _ => apply orb_false_iff in H
  | H : negb _ = true |- _ => apply negb_true_iff in H
  | H : negb _ = false |- _ => apply negb_false_iff in H
  | H : (_ <? _)%Z = true |- _ => apply Z.ltb_lt in H
  | H : (_ <? _)%Z = false |- _ => apply Z.ltb_ge in H
  | H : (_ <=? _)%Z = true |- _ => apply Z.leb_le in H
  | H : (_ <=? _)%Z = false |- _ => apply Z.leb_gt in H
  | H : (_ =? _)%Z = true |- _ => apply Z.eqb_eq in H
  | H : (_ =? _)%Z = false |- _ => apply Z.eqb_neq in H
  | H : (_ <? _)%nat = true |- _ => apply Nat.ltb_lt in H
  | H : (_ <? _)%nat = false |- _ => apply Nat.ltb_ge in H
  | H : (_ <=? _)%nat = true |- _ => apply Nat.leb_le in H
  | H : (_ <=? _)%nat = false |- _ => apply Nat.leb_gt in H
  | H : (_ =? _)%nat = true |- _ => apply Nat.eqb_eq in H
  | H : (_ =? _)%nat = false |- _ => apply Nat.eqb_neq in H
  | H : _ ∧ _ |- _ => destruct H
  end.

(** State every [Forall] pointwise. *)
Ltac pointwise :=
  repeat match goal with
  | H : Forall _ _ |- _ => rewrite Forall_forall in H
  | |- Forall _ _ => rewrite Forall_forall
  end.

(** Invert every "returned Ok" hypothesis along its matches and binds. *)
Ltac inv_ok :=
  repeat match goal with
  | H : Ok _ = Ok _ |- _ => injection H as H; subst
  | H : Err _ = Err _ |- _ => injection H as H; subst
  | H : Some _ = Some _ |- _ => injection H as H; subst
  | H : Err _ = Ok _ |- _ => discriminate H
  | H : Ok _ = Err _ |- _ => discriminate H
  | H : None = Some _ |- _ => discriminate H
  | H : Some _ = None |- _ => discriminate H
  | H : mbind _ _ = _ |- _ => unfold mbind, result_bind, option_bind in H
  | H : match ?x with _ => _ end = Ok _ |- _ => destruct x eqn:?
  | H : match ?x with _ => _ end = Some _ |- _ => destruct x eqn:?
  end.

(** ** Lemmas *)

Section orders.
Context `{TotalOrder A}.

Lemma tcmp_refl x : tcmp x x = Eq.
Proof. by apply tcmp_eq. Qed.

Lemma tcmp_gt_lt x y : tcmp x y = Gt ↔ tcmp y x = Lt.
Proof. rewrite (tcmp_antisym x y). destruct (tcmp x y); simpl; split; congruence. Qed.

Lemma tlt_irrefl x : ¬ tlt x x.
Proof. unfold tlt. rewrite tcmp_refl. discriminate. Qed.

#[export] Instance tlt_trans : Transitive (tlt (A:=A)).
Proof. intros x y z. apply tcmp_trans. Qed.
End orders.

#[export] Hint Rewrite @tcmp_refl : lqr.

Lemma collect_r_Ok {E A B} (f : A → result E B) l ys :
  collect_r f l = Ok ys ↔ Forall2 (λ x y, f x = Ok y) l ys.
Proof.
  split.
  - revert ys; induction l as [|x l IH]; intros ys Hl; simpl in Hl; inv_ok; auto.
  - induction 1 as [|x y l ys Hx _ IH]; [done|]; simpl. by rewrite Hx, IH.
Qed.

Lemma collect_r2_Ok {E A B C} (f : A → B → result E C) l k zs :
  length l = length k →
  collect_r2 f l k = Ok zs ↔ Forall2 (λ p z, f p.1 p.2 = Ok z) (zip l k) zs.
Proof.
  revert k zs; induction l as [|x l IH]; intros [|y k] zs Hlen; simplify_eq/=.
  - split; [intros [= <-]; constructor | by inversion 1].
  - split.
    + intros Hc; inv_ok. constructor; [done|]. by apply IH.
    + inversion 1 as [|? z ? zs' Hx Hr]; simplify_eq/=. apply IH in Hr; [|done].
      by rewrite Hx, Hr.
Qed.

Lemma collect_r_length {E A B} (f : A → result E B) l ys :
  collect_r f l = Ok ys → length ys = length l.
Proof. intros ?%collect_r_Ok. symmetry. by eapply Forall2_length. Qed.

Lemma collect_r_ext {E A B} (f g : A → result E B) l :
  (∀ x, x ∈ l → f x = g x) → collect_r f l = collect_r g l.
Proof.
  induction l as [|x l IH]; intros Hfg; [done|]; simpl.
  rewrite Hfg by set_solver. rewrite IH; [done|]. set_solver.
Qed.

Lemma collect_r2_ext {E A B C} (f g : A → B → result E C) l k :
  (∀ x y, x ∈ l → f x y = g x y) → collect_r2 f l k = collect_r2 g l k.
Proof.
  revert k; induction l as [|x l IH]; intros [|y k] Hfg; [done..|]; simpl.
  rewrite Hfg by set_solver. rewrite IH; [done|]. set_solver.
Qed.

Lemma collect_r2_ext_in {E A B C} (f g : A → B → result E C) l k :
  (∀ x y, x ∈ l → y ∈ k → f x y = g x y) → collect_r2 f l k = collect_r2 g l k.
Proof.
  revert k; induction l as [|x l IH]; intros [|y k] Hfg; [done..|]; simpl.
  rewrite Hfg by (constructor || constructor). rewrite IH; [done|].
  intros. apply Hfg; by constructor.
Qed.

Lemma zip_map_length {A B C} (f : A → B → C) l k :
  length l = length k → length (zip_map f l k) = length l.
Proof.
  revert k; induction l as [|x l IH]; intros [|y k] Hlen; simplify_eq/=; [done|].
  by rewrite IH.
Qed.

Lemma Forall2_impl_l {A B} (P Q : A → B → Prop) l k :
  Forall2 P l k → (∀ x y, x ∈ l → P x y → Q x y) → Forall2 Q l k.
Proof.
  induction 1 as [|x y l k Hxy _ IH]; intros HPQ; constructor.
  - apply HPQ; [constructor|done].
  - apply IH. intros. apply HPQ; [by constructor|done].
Qed.

(** Collecting over two lists relates the results to the second, or to the
    first, list. *)
Lemma collect_r2_zip_r {E A B C} (f : A → B → result E C) (P : C → B → bool) l k zs :
  length l = length k → collect_r2 f l k = Ok zs →
  (∀ x y z, x ∈ l → y ∈ k → f x y = Ok z → P z y = true) →
  length zs = length k ∧ zip_all P zs k = true.
Proof.
  revert k zs; induction l as [|x l IH]; intros [|y k] zs Hlen Hc HP; simplify_eq/=.
  { done. }
  inv_ok. edestruct (IH k) as [Hl Hz]; [done|done| |].
  { intros. eapply HP; [by constructor|by constructor|done]. }
  cbn. rewrite Hl, Hz, andb_true_r. split; [done|].
  eapply HP; [constructor|constructor|done].
Qed.

Lemma collect_r2_zip_l {E A B C} (f : A → B → result E C) (P : C → A → bool) l k zs :
  length l = length k → collect_r2 f l k = Ok zs →
  (∀ x y z, x ∈ l → y ∈ k → f x y = Ok z → P z x = true) →
  length zs = length l ∧ zip_all P zs l = true.
Proof.
  revert k zs; induction l as [|x l IH]; intros [|y k] zs Hlen Hc HP; simplify_eq/=.
  { done. }
  inv_ok. edestruct (IH k) as [Hl Hz]; [done|done| |].
  { intros. eapply HP; [by constructor|by constructor|done]. }
  cbn. rewrite Hl, Hz, andb_true_r. split; [done|].
  eapply HP; [constructor|constructor|done].
Qed.

Lemma in_u_spec w z : in_u w z = true ↔ (0 ≤ z < 2 ^ w)%Z.
Proof. unfold in_u. rewrite andb_true_iff, Z.leb_le, Z.ltb_lt. done. Qed.

Lemma in_i_spec w z : in_i w z = true ↔ (- 2 ^ (w - 1) ≤ z < 2 ^ (w - 1))%Z.
Proof. unfold in_i. rewrite andb_true_iff, Z.leb_le, Z.ltb_lt. done. Qed.

Lemma wrap_small w z : (0 ≤ z < 2 ^ w)%Z → wrap w z = z.
Proof. apply Z.mod_small. Qed.

Lemma wrap_range w z : (0 ≤ w)%Z → (0 ≤ wrap w z < 2 ^ w)%Z.
Proof. intros. apply Z.mod_pos_bound. by apply Z.pow_pos_nonneg. Qed.

Lemma as_signed_range w z : (0 < w)%Z → (- 2 ^ (w - 1) ≤ as_signed w z < 2 ^ (w - 1))%Z.
Proof.
  intros Hw. unfold as_signed. pose proof (wrap_range w z ltac:(lia)).
  assert (2 ^ w = 2 * 2 ^ (w - 1))%Z.
  { rewrite <- Z.pow_succ_r by lia. f_equal; lia. }
  destruct (Z.ltb_spec (wrap w z) (2 ^ (w - 1))); lia.
Qed.

Lemma as_signed_small w z :
  (0 < w)%Z → (- 2 ^ (w - 1) ≤ z < 2 ^ (w - 1))%Z → as_signed w z = z.
Proof.
  intros Hw Hz. unfold as_signed, wrap.
  assert (2 ^ w = 2 * 2 ^ (w - 1))%Z as Hpow.
  { rewrite <- Z.pow_succ_r by lia. f_equal; lia. }
  destruct (decide (0 ≤ z)%Z).
  - rewrite Z.mod_small by lia. destruct (Z.ltb_spec z (2 ^ (w - 1))); lia.
  - assert (z mod 2 ^ w = z + 2 ^ w)%Z as ->.
    { rewrite <- (Z.mod_small (z + 2 ^ w) (2 ^ w)) by lia.
      rewrite <- (Z_mod_plus_full z 1 (2 ^ w)). f_equal; lia. }
    destruct (Z.ltb_spec (z + 2 ^ w) (2 ^ (w - 1))); lia.
Qed.

#[export] Hint Resolve wrap_range as_signed_range : lq.

(** ** Hash maps filled by a loop *)

(** [map.entry(k).or_insert(v)]. *)
Definition or_insert `{Countable K} {V} (k : K) (v : V) (m : gmap K V) : gmap K V :=
  match m !! k with Some _ => m | None => <[k := v]> m end.

(** [iter().enumerate()]. *)
Definition enumerate {A} (l : list A) : list (nat * A) := imap pair l.

(** [iter().position(f)]. *)
Fixpoint position {A} (f : A → bool) (l : list A) : option nat :=
  match l with
  | [] => None
  | x :: l' => if f x then Some O else S <$> position f l'
  end.

(** Filters that agree on a list, or keep all of it. *)
Lemma filter_ext_in {A} (P Q : A → Prop) `{∀ x, Decision (P x)} `{∀ x, Decision (Q x)} (l : list A) :
  (∀ x, x ∈ l → P x ↔ Q x) → base.filter P l = base.filter Q l.
Proof.
  induction l as [|x l IH]; intros Hpq; [done|]. rewrite !filter_cons.
  rewrite (decide_ext (P x) (Q x)) by (apply Hpq; by left). rewrite IH; [done|]. intros y Hy. apply Hpq. by right.
Qed.

Lemma filter_all {A} (P : A → Prop) `{∀ x, Decision (P x)} l : Forall P l → base.filter P l = l.
Proof. induction 1 as [|x l Hx _ IH]; [done|]. by rewrite filter_cons_True, IH. Qed.

Lemma position_find {A} (f : A → bool) l :
  match position f l with
  | Some i => l !! i = List.find f l ∧ is_Some (l !! i)
  | None => List.find f l = None
  end.
Proof.
  induction l as [|x l IH]; simpl; [done|]. destruct (f x); [done|].
  by destruct (position f l).
Qed.

Lemma position_bind_find {A} (f : A → bool) l : (i ← position f l; l !! i) = List.find f l.
Proof.
  pose proof (position_find f l) as Hp.
  destruct (position f l); cbn; [by destruct Hp|done].
Qed.

Section hash_loops.
Context `{Countable K} {A V : Type} (key : A → K).

Let off_enum (off : nat) (l : list A) : list (nat * A) := imap (λ i e, (off + i, e)) l.

Lemma off_enum_cons off x l :
  off_enum off (x :: l) = (off, x) :: off_enum (S off) l.
Proof.
  unfold off_enum. rewrite imap_cons. rewrite Nat.add_0_r. f_equal.
  apply imap_ext. intros i y _. cbn. by rewrite Nat.add_succ_r.
Qed.

(** First declaration wins. *)
Lemma or_insert_loop (val : nat → V) l m k :
  foldl (λ m '(i, e), or_insert (key e) (val i) m) m (enumerate l) !! k
  = match m !! k with
    | Some v => Some v
    | None => val <$> position (λ e, bool_decide (key e = k)) l
    end.
Proof.
  change (enumerate l) with (off_enum 0 l).
  assert (∀ off, foldl (λ m '(i, e), or_insert (key e) (val i) m) m (off_enum off l) !! k
    = match m !! k with
      | Some v => Some v
      | None => (λ i, val (off + i)) <$> position (λ e, bool_decide (key e = k)) l
      end) as Hoff; [|apply Hoff].
  revert m; induction l as [|x l IH]; intros m off; [cbn; by destruct (m !! k)|].
  rewrite off_enum_cons. cbn [foldl position]. rewrite IH. unfold or_insert.
  case_bool_decide as Hk.
  - subst. destruct (m !! key x) eqn:E; [by rewrite E|].
    rewrite lookup_insert_eq. cbn. by rewrite Nat.add_0_r.
  - assert ((match m !! key x with Some _ => m | None => <[key x:=val off]> m end) !! k
            = m !! k) as ->.
    { destruct (m !! key x); [done|]. by apply lookup_insert_ne. }
    destruct (m !! k); [done|]. destruct (position _ l); [|done].
    cbn. by rewrite Nat.add_succ_r.
Qed.

(** Last declaration wins; [key] may be absent. *)
Lemma insert_loop (okey : A → option K) (val : A → V) (l : list A) (m : gmap K V) k :
  foldl (λ m e, match okey e with Some j => <[j := val e]> m | None => m end) m l !! k
  = match List.find (λ e, bool_decide (okey e = Some k)) (rev l) with
    | Some e => Some (val e)
    | None => m !! k
    end.
Proof.
  induction l as [|x l IH] using rev_ind; [done|].
  rewrite foldl_app, rev_app_distr. cbn [foldl rev app List.find].
  case_bool_decide as Hk.
  - rewrite Hk. by rewrite lookup_insert_eq.
  - destruct (okey x) as [j|]; [|done]. rewrite lookup_insert_ne; [done|congruence].
Qed.
End hash_loops.

(** ** The row with a name *)

Lemma find_name {A} (name : A → string) l x :
  NoDup (name <$> l) → x ∈ l → List.find (λ y, String.eqb (name y) (name x)) l = Some x.
Proof.
  induction l as [|y l IH]; intros Hnd Hin; [by apply elem_of_nil in Hin|].
  cbn in Hnd |- *. apply NoDup_cons in Hnd as [Hy Hnd].
  apply elem_of_cons in Hin as [->|Hin]; [by rewrite String.eqb_refl|].
  destruct (String.eqb_spec (name y) (name x)) as [E|]; [|by apply IH].
  exfalso. apply Hy. rewrite E. by apply list_elem_of_fmap_2.
Qed.

