(* ===== verification/Text.v ===== *)
(** * Text: Rust strings, UTF-8, and decimal and hexadecimal numerals

    A Rust [String] is a Rocq [string] of bytes.  [chars] is the view of its
    Unicode scalar values ([str::chars]); the operations of the standard
    library that the source uses are here, with the numeral round trips that
    the decoders, the cursors and the signature header rest on. *)
From S2P Require Import Prelude.
From Stdlib Require Import Ascii.
From Stdlib Require String Wf_nat.

Local Open Scope Z_scope.

(** ** Bytes *)

Definition byte_val (a : ascii) : Z := Z.of_N (N_of_ascii a).
Definition byte_of (z : Z) : ascii := ascii_of_N (Z.to_N z).

Definition bytes (s : string) : list ascii := String.list_ascii_of_string s.
Definition of_bytes (l : list ascii) : string := String.string_of_list_ascii l.

(** ** UTF-8 *)

Definition is_scalar (c : Z) : bool :=
  ((0 <=? c) && (c <? 55296)) || ((57344 <=? c) && (c <? 1114112)).

Definition cont (a : ascii) : option Z :=
  let x := byte_val a in if (128 <=? x) && (x <? 192) then Some (x - 128) else None.

(** [str::from_utf8] together with [str::chars]: [None] on an ill-formed
    sequence (overlong forms, surrogates and values above U+10FFFF included). *)
Fixpoint utf8_decode (l : list ascii) : option (list Z) :=
  match l with
  | [] => Some []
  | b0 :: l1 =>
      let x0 := byte_val b0 in
      if x0 <? 128 then cons x0 <$> utf8_decode l1
      else match l1 with
      | [] => None
      | b1 :: l2 =>
          match cont b1 with
          | None => None
          | Some y1 =>
              if (192 <=? x0) && (x0 <? 224) then
                let c := (x0 - 192) * 64 + y1 in
                if 128 <=? c then cons c <$> utf8_decode l2 else None
              else match l2 with
              | [] => None
              | b2 :: l3 =>
                  match cont b2 with
                  | None => None
                  | Some y2 =>
                      if (224 <=? x0) && (x0 <? 240) then
                        let c := (x0 - 224) * 4096 + y1 * 64 + y2 in
                        if (2048 <=? c) && is_scalar c then cons c <$> utf8_decode l3
                        else None
                      else match l3 with
                      | [] => None
                      | b3 :: l4 =>
                          match cont b3 with
                          | None => None
                          | Some y3 =>
                              if (240 <=? x0) && (x0 <? 248) then
                                let c := (x0 - 240) * 262144 + y1 * 4096 + y2 * 64 + y3 in
                                if (65536 <=? c) && is_scalar c
                                then cons c <$> utf8_decode l4 else None
                              else None
                          end
                      end
                  end
              end
          end
      end
  end.

(** [char::encode_utf8]. *)
Definition utf8_encode (c : Z) : list ascii :=
  if c <? 128 then [byte_of c]
  else if c <? 2048 then [byte_of (192 + c / 64); byte_of (128 + c mod 64)]
  else if c <? 65536 then
    [byte_of (224 + c / 4096); byte_of (128 + (c / 64) mod 64); byte_of (128 + c mod 64)]
  else [byte_of (240 + c / 262144); byte_of (128 + (c / 4096) mod 64);
        byte_of (128 + (c / 64) mod 64); byte_of (128 + c mod 64)].

Definition utf8_valid (s : string) : bool :=
  match utf8_decode (bytes s) with Some _ => true | None => false end.

(** [s.chars()].  A Rust [String] is always valid; the default only makes the
    function total. *)
Definition chars (s : string) : list Z := default [] (utf8_decode (bytes s)).

(** [chars.collect::<String>()]. *)
Definition of_chars (l : list Z) : string := of_bytes (l ≫= utf8_encode).

(** ** Character classes *)

Definition c_in (lo hi c : Z) : bool := (lo <=? c) && (c <=? hi).

Definition is_ascii_digit (c : Z) : bool := c_in 48 57 c.
Definition is_ascii_uppercase (c : Z) : bool := c_in 65 90 c.
Definition is_ascii_lowercase (c : Z) : bool := c_in 97 122 c.
Definition is_ascii_alphabetic (c : Z) : bool := is_ascii_uppercase c || is_ascii_lowercase c.
Definition is_ascii_alphanumeric (c : Z) : bool := is_ascii_alphabetic c || is_ascii_digit c.

(** [char::is_control]: general category Cc. *)
Definition is_control (c : Z) : bool := c_in 0 31 c || c_in 127 159 c.

(** [char::is_whitespace]: the Unicode White_Space property. *)
Definition is_whitespace (c : Z) : bool :=
  c_in 9 13 c || (c =? 32) || (c =? 133) || (c =? 160) || (c =? 5760)
  || c_in 8192 8202 c || (c =? 8232) || (c =? 8233) || (c =? 8239) || (c =? 8287)
  || (c =? 12288).

(** ** Slices of a string *)

Fixpoint strip_prefix (p s : string) : option string :=
  match p, s with
  | EmptyString, _ => Some s
  | String a p', String b s' => if Ascii.eqb a b then strip_prefix p' s' else None
  | String _ _, EmptyString => None
  end.

Definition starts_with (p s : string) : bool :=
  match strip_prefix p s with Some _ => true | None => false end.

(** [s.split_once(c)] for an ASCII separator. *)
Fixpoint split_once (c : ascii) (s : string) : option (string * string) :=
  match s with
  | EmptyString => None
  | String a s' =>
      if Ascii.eqb a c then Some (EmptyString, s')
      else match split_once c s' with
           | Some (l, r) => Some (String a l, r)
           | None => None
           end
  end.

(** [s.split(c)]: always at least one piece. *)
Fixpoint split_on (c : ascii) (s : string) : list string :=
  match s with
  | EmptyString => [EmptyString]
  | String a s' =>
      if Ascii.eqb a c then EmptyString :: split_on c s'
      else match split_on c s' with
           | [] => [String a EmptyString]
           | p :: ps => String a p :: ps
           end
  end.

(** [s.find(p)] followed by slicing after the match: what follows the first
    occurrence of [p]. *)
Fixpoint after_first (p s : string) : option string :=
  match strip_prefix p s with
  | Some r => Some r
  | None => match s with EmptyString => None | String _ s' => after_first p s' end
  end.

Definition contains_str (p s : string) : bool :=
  match after_first p s with Some _ => true | None => false end.

(** [pieces.join(sep)]. *)
Fixpoint join (sep : string) (l : list string) : string :=
  match l with
  | [] => EmptyString
  | [x] => x
  | x :: l' => x +:+ sep +:+ join sep l'
  end.

Fixpoint drop_while {A} (f : A → bool) (l : list A) : list A :=
  match l with
  | [] => []
  | x :: l' => if f x then drop_while f l' else l
  end.

Fixpoint take_while {A} (f : A → bool) (l : list A) : list A :=
  match l with
  | [] => []
  | x :: l' => if f x then x :: take_while f l' else []
  end.

Definition trim_end_chars (l : list Z) : list Z := rev (drop_while is_whitespace (rev l)).
Definition trim_chars (l : list Z) : list Z := trim_end_chars (drop_while is_whitespace l).

(** [str::trim]. *)
Definition trim (s : string) : string := of_chars (trim_chars (chars s)).

(** ** Decimal numerals *)

Definition digit_char (d : Z) : ascii := byte_of (48 + d).

(** Digits, least significant first. *)
Fixpoint digits_fuel (f : nat) (n : Z) : list Z :=
  match f with
  | O => []
  | S f' => if n <? 10 then [n] else n mod 10 :: digits_fuel f' (n / 10)
  end.

Definition digits_rev (n : Z) : list Z := digits_fuel (S (Z.to_nat (Z.log2 n))) n.

Definition string_of_digits (l : list Z) : string := of_bytes (digit_char <$> rev l).

(** [n.to_string()] of an unsigned and of a signed integer. *)
Definition show_u (n : Z) : string := string_of_digits (digits_rev n).
Definition show_i (n : Z) : string :=
  if n <? 0 then String "-" (show_u (- n)) else show_u n.

(** [format!("{n:0k}")] of an unsigned integer. *)
Definition show_pad (k : nat) (n : Z) : string :=
  of_bytes (replicate (k - String.length (show_u n)) "0"%char) +:+ show_u n.

Definition digit_val (a : ascii) : option Z :=
  let x := byte_val a - 48 in if (0 <=? x) && (x <=? 9) then Some x else None.

Fixpoint horner (l : list ascii) (acc : Z) : option Z :=
  match l with
  | [] => Some acc
  | a :: l' => match digit_val a with
               | Some d => horner l' (acc * 10 + d)
               | None => None
               end
  end.

Definition parse_digits10 (s : string) : option Z :=
  match s with EmptyString => None | _ => horner (bytes s) 0 end.

Definition strip_char (c : ascii) (s : string) : option string :=
  match s with
  | String a s' => if Ascii.eqb a c then Some s' else None
  | EmptyString => None
  end.

(** [s.parse::<uW>()] and [s.parse::<iW>()]: an optional ['+'] (or ['-'] when
    signed), at least one digit, and the value in range. *)
Definition parse_uint (w : Z) (s : string) : option Z :=
  let body := default s (strip_char "+" s) in
  match parse_digits10 body with
  | Some n => if in_u w n then Some n else None
  | None => None
  end.

Definition parse_int (w : Z) (s : string) : option Z :=
  match strip_char "-" s with
  | Some body =>
      match parse_digits10 body with
      | Some n => if in_i w (- n) then Some (- n) else None
      | None => None
      end
  | None =>
      let body := default s (strip_char "+" s) in
      match parse_digits10 body with
      | Some n => if in_i w n then Some n else None
      | None => None
      end
  end.

(** [str::to_ascii_lowercase] and [str::eq_ignore_ascii_case]. *)
Definition ascii_lower (a : ascii) : ascii :=
  if is_ascii_uppercase (byte_val a) then byte_of (byte_val a + 32) else a.

Definition to_ascii_lowercase (s : string) : string := of_bytes (ascii_lower <$> bytes s).

Definition eq_ignore_ascii_case (s t : string) : bool :=
  bool_decide (ascii_lower <$> bytes s = ascii_lower <$> bytes t).

(** ** Hexadecimal *)

Definition hex_digit (d : Z) : ascii := if d <? 10 then byte_of (48 + d) else byte_of (87 + d).

(** [format!("{b:02x}")] over a byte slice. *)
Definition hex_string (l : list ascii) : string :=
  of_bytes (l ≫= λ b, [hex_digit (byte_val b / 16); hex_digit (byte_val b mod 16)]).

(** ** Lemmas: bytes *)

Lemma byte_val_range a : 0 ≤ byte_val a < 256.
Proof. unfold byte_val. pose proof (N_ascii_bounded a). lia. Qed.

Lemma byte_val_of z : 0 ≤ z < 256 → byte_val (byte_of z) = z.
Proof. intros. unfold byte_val, byte_of. rewrite N_ascii_embedding; lia. Qed.

Lemma byte_of_val a : byte_of (byte_val a) = a.
Proof. unfold byte_of, byte_val. rewrite N2Z.id. apply ascii_N_embedding. Qed.

Lemma byte_val_inj a b : byte_val a = byte_val b → a = b.
Proof. intros H. by rewrite <- (byte_of_val a), H, byte_of_val. Qed.

Lemma bytes_of_bytes l : bytes (of_bytes l) = l.
Proof. apply String.list_ascii_of_string_of_list_ascii. Qed.

Lemma of_bytes_bytes s : of_bytes (bytes s) = s.
Proof. apply String.string_of_list_ascii_of_string. Qed.

Lemma bytes_app s t : bytes (s +:+ t) = (bytes s ++ bytes t)%list.
Proof. induction s as [|a s IH]; [done|]. exact (f_equal (cons a) IH). Qed.

Lemma of_bytes_app l k : of_bytes (l ++ k) = of_bytes l +:+ of_bytes k.
Proof. induction l as [|a l IH]; [done|]. exact (f_equal (String a) IH). Qed.

Lemma bytes_inj s t : bytes s = bytes t → s = t.
Proof. intros H. by rewrite <- (of_bytes_bytes s), H, of_bytes_bytes. Qed.

Lemma of_bytes_inj l k : of_bytes l = of_bytes k → l = k.
Proof. intros E. by rewrite <- (bytes_of_bytes l), E, bytes_of_bytes. Qed.

Lemma length_bytes s : length (bytes s) = String.length s.
Proof. induction s as [|a s IH]; [done|]. exact (f_equal S IH). Qed.

Lemma string_app_nil_r s : s +:+ "" = s.
Proof. induction s as [|a s IH]; [done|]. exact (f_equal (String a) IH). Qed.

Lemma string_app_assoc s t u : (s +:+ t) +:+ u = s +:+ t +:+ u.
Proof. induction s as [|a s IH]; [done|]. exact (f_equal (String a) IH). Qed.

#[export] Hint Resolve byte_val_range : lq.
#[export] Hint Rewrite bytes_of_bytes of_bytes_bytes bytes_app byte_of_val
  string_app_nil_r string_app_assoc : lqr.

(** ** Lemmas: UTF-8 round trips *)

Lemma cont_byte_of c : 0 ≤ c < 64 → cont (byte_of (128 + c)) = Some c.
Proof.
  intros Hc. unfold cont. rewrite byte_val_of by lia.
  destruct (Z.leb_spec 128 (128 + c)); [|lia].
  destruct (Z.ltb_spec (128 + c) 192); [|lia]. simpl. f_equal. lia.
Qed.

Lemma cont_Some a y : cont a = Some y → 0 ≤ y < 64 ∧ byte_val a = 128 + y.
Proof.
  unfold cont. destruct (_ && _) eqn:E; [|done]. intros [= <-]. bool_facts. lia.
Qed.

Lemma is_scalar_spec c :
  is_scalar c = true ↔ (0 ≤ c < 55296 ∨ 57344 ≤ c < 1114112).
Proof. unfold is_scalar. rewrite orb_true_iff, !andb_true_iff, !Z.leb_le, !Z.ltb_lt. done. Qed.

Ltac zdiv := Z.div_mod_to_equations; lia.

(** Replace every integer test whose outcome [lia] decides. *)
Ltac ztest :=
  repeat match goal with
  | |- context [Z.leb ?a ?b] =>
      (replace (Z.leb a b) with true by (symmetry; apply Z.leb_le; zdiv))
      || (replace (Z.leb a b) with false by (symmetry; apply Z.leb_gt; zdiv))
  | |- context [Z.ltb ?a ?b] =>
      (replace (Z.ltb a b) with true by (symmetry; apply Z.ltb_lt; zdiv))
      || (replace (Z.ltb a b) with false by (symmetry; apply Z.ltb_ge; zdiv))
  | |- context [Z.eqb ?a ?b] =>
      (replace (Z.eqb a b) with true by (symmetry; apply Z.eqb_eq; zdiv))
      || (replace (Z.eqb a b) with false by (symmetry; apply Z.eqb_neq; zdiv))
  end; cbn [andb orb negb].

Lemma utf8_decode_encode c l :
  is_scalar c = true →
  utf8_decode (utf8_encode c ++ l) = cons c <$> utf8_decode l.
Proof.
  intros Hs. pose proof Hs as Hr. apply is_scalar_spec in Hr. unfold utf8_encode.
  destruct (Z.ltb_spec c 128); [|destruct (Z.ltb_spec c 2048);
    [|destruct (Z.ltb_spec c 65536)]]; cbn [app utf8_decode];
    rewrite ?byte_val_of by zdiv; rewrite ?cont_byte_of by zdiv.
  - by ztest.
  - ztest. replace ((192 + c / 64 - 192) * 64 + c mod 64) with c by zdiv. by ztest.
  - ztest. replace ((224 + c / 4096 - 224) * 4096 + (c / 64) mod 64 * 64 + c mod 64)
      with c by zdiv. by rewrite Hs; ztest.
  - ztest. replace ((240 + c / 262144 - 240) * 262144 + (c / 4096) mod 64 * 4096
      + (c / 64) mod 64 * 64 + c mod 64) with c by zdiv. by rewrite Hs; ztest.
Qed.

Lemma utf8_decode_encode_all l :
  Forall (λ c, is_scalar c = true) l → utf8_decode (l ≫= utf8_encode) = Some l.
Proof.
  induction 1 as [|c l Hc _ IH]; [done|].
  cbn. rewrite utf8_decode_encode by done. by rewrite IH.
Qed.

Lemma chars_of_chars l : Forall (λ c, is_scalar c = true) l → chars (of_chars l) = l.
Proof.
  intros Hl. unfold chars, of_chars. rewrite bytes_of_bytes.
  by rewrite utf8_decode_encode_all.
Qed.

(** Case analysis along the tests of the decoder. *)
Ltac decode_cases H :=
  repeat (match type of H with
  | context [if ?b then _ else _] => destruct b eqn:?
  | context [match ?x with _ => _ end] => destruct x eqn:?
  end; try discriminate H; simpl in H).

Lemma utf8_decode_sound l cs :
  utf8_decode l = Some cs →
  cs ≫= utf8_encode = l ∧ Forall (λ c, is_scalar c = true) cs.
Proof.
  revert cs. induction l as [l IH] using (Wf_nat.induction_ltof1 _ (@length _)); intros cs Hd.
  unfold Wf_nat.ltof in IH.
  destruct l as [|b0 l1]; cbn [utf8_decode] in Hd; [by injection Hd as <-|].
  decode_cases Hd;
    (apply fmap_Some in Hd as (cs' & Hd & ->); apply IH in Hd as [<- Hsc]; [|simpl; lia]);
    repeat match goal with
    | H : cont _ = Some _ |- _ => apply cont_Some in H as [??]
    | H : is_scalar _ = true |- _ => apply is_scalar_spec in H
    | H : (_ && _)%bool = true |- _ => apply andb_true_iff in H as [??]
    end;
    pose proof (byte_val_range b0); bool_facts;
    (split; [|constructor; [apply is_scalar_spec; lia|done]]);
    cbn [mbind list_bind]; unfold utf8_encode; ztest; cbn [app];
    repeat f_equal; apply byte_val_inj; rewrite byte_val_of; zdiv.
Qed.

Lemma of_chars_chars s : utf8_valid s = true → of_chars (chars s) = s.
Proof.
  unfold utf8_valid, of_chars, chars. destruct (utf8_decode (bytes s)) as [cs|] eqn:E; [|done].
  intros _. apply utf8_decode_sound in E as [E _]. simpl. rewrite E. apply of_bytes_bytes.
Qed.

Lemma chars_scalar s : Forall (λ c, is_scalar c = true) (chars s).
Proof.
  unfold chars. destruct (utf8_decode (bytes s)) as [cs|] eqn:E; simpl; [|constructor].
  by apply utf8_decode_sound in E as [_ ?].
Qed.

Lemma of_chars_valid l : Forall (λ c, is_scalar c = true) l → utf8_valid (of_chars l) = true.
Proof.
  intros Hl. unfold utf8_valid, of_chars. rewrite bytes_of_bytes.
  by rewrite utf8_decode_encode_all.
Qed.

(** ** Lemmas: decimal numerals *)

Fixpoint digits_value (l : list Z) : Z :=
  match l with [] => 0 | d :: l' => d + 10 * digits_value l' end.

Definition is_digit (d : Z) : Prop := 0 ≤ d < 10.

Lemma digits_fuel_enough f g n :
  0 ≤ n → n < 2 ^ Z.of_nat f → n < 2 ^ Z.of_nat g → f ≠ O → g ≠ O →
  digits_fuel f n = digits_fuel g n.
Proof.
  revert g n; induction f as [|f IH]; intros [|g] n Hn Hf Hg Hf0 Hg0; [done..|].
  cbn [digits_fuel]. destruct (Z.ltb_spec n 10); [done|]. f_equal.
  rewrite Nat2Z.inj_succ, Z.pow_succ_r in Hf, Hg by lia.
  destruct f as [|f]; [simpl in Hf; lia|]. destruct g as [|g]; [simpl in Hg; lia|].
  apply IH; try done; zdiv.
Qed.

Lemma digits_rev_eq n :
  0 ≤ n → digits_rev n = if n <? 10 then [n] else n mod 10 :: digits_rev (n / 10).
Proof.
  intros Hn. unfold digits_rev at 1. cbn [digits_fuel].
  destruct (Z.ltb_spec n 10); [done|]. f_equal.
  assert (Hlog : n < 2 ^ (Z.log2 n + 1)) by (apply Z.log2_spec; lia).
  rewrite Z.pow_add_r in Hlog by (try apply Z.log2_nonneg; lia).
  pose proof (Z.log2_nonneg n).
  assert (Hq : n / 10 < 2 ^ (Z.log2 (n / 10) + 1)) by (apply Z.log2_spec; zdiv).
  apply digits_fuel_enough; [zdiv| | | |done].
  - rewrite Z2Nat.id by done. change (2 ^ 1) with 2 in Hlog. zdiv.
  - rewrite Nat2Z.inj_succ, Z2Nat.id by apply Z.log2_nonneg. exact Hq.
  - assert (0 < Z.log2 n) by (apply Z.log2_pos; lia). lia.
Qed.


Lemma digits_rev_spec n :
  0 ≤ n → digits_value (digits_rev n) = n ∧ Forall is_digit (digits_rev n).
Proof.
  intros Hn. pattern n. apply Zlt_0_ind; [|done]. clear n Hn. intros n IH Hn.
  rewrite digits_rev_eq by done. destruct (Z.ltb_spec n 10).
  - split; [simpl; lia|]. repeat constructor; lia.
  - destruct (IH (n / 10)) as [Hv Hd]; [zdiv|]. split.
    + simpl. rewrite Hv. zdiv.
    + constructor; [unfold is_digit; zdiv|done].
Qed.

Lemma digits_rev_not_nil n : 0 ≤ n → digits_rev n ≠ [].
Proof. intros Hn. rewrite digits_rev_eq by done. by destruct (n <? 10). Qed.

Lemma digit_val_char d : is_digit d → digit_val (digit_char d) = Some d.
Proof.
  unfold is_digit, digit_val, digit_char. intros Hd. rewrite byte_val_of by lia.
  replace (48 + d - 48) with d by lia. by ztest.
Qed.

Lemma horner_app l k acc :
  horner (l ++ k) acc = (a ← horner l acc; horner k a).
Proof.
  revert acc; induction l as [|a l IH]; intros acc; [done|]; cbn [app horner].
  destruct (digit_val a); [apply IH|done].
Qed.

Lemma horner_digits l :
  Forall is_digit l → horner (digit_char <$> rev l) 0 = Some (digits_value l).
Proof.
  induction 1 as [|d l Hd _ IH]; [done|]. cbn [rev digits_value].
  rewrite fmap_app, horner_app, IH. cbn. rewrite digit_val_char by done. f_equal. lia.
Qed.

Lemma parse_show_u n : 0 ≤ n → parse_digits10 (show_u n) = Some n.
Proof.
  intros Hn. destruct (digits_rev_spec n Hn) as [Hv Hd].
  assert (Hb : bytes (show_u n) = digit_char <$> rev (digits_rev n))
    by apply bytes_of_bytes.
  unfold parse_digits10. destruct (show_u n) as [|a s] eqn:E.
  - apply (f_equal length) in Hb. rewrite length_fmap, length_rev in Hb.
    pose proof (digits_rev_not_nil n Hn). by destruct (digits_rev n).
  - rewrite Hb, horner_digits by done. by rewrite Hv.
Qed.

Lemma horner_shift l acc n m :
  horner l 0 = Some n → horner l acc = Some m → m = acc * 10 ^ Z.of_nat (length l) + n.
Proof.
  revert acc n m. induction l as [|a l IH] using rev_ind; intros acc n m; simpl.
  { intros [= <-] [= <-]. lia. }
  rewrite !horner_app. intros Hn Hm.
  destruct (horner l 0) as [n'|] eqn:E1; [|done]. destruct (horner l acc) as [m'|] eqn:E2; [|done].
  cbn in Hn, Hm. destruct (digit_val a) as [d|]; simplify_eq.
  rewrite (IH acc n' m') by done. rewrite length_app, Nat2Z.inj_add, Z.pow_add_r by lia.
  simpl. lia.
Qed.

Lemma bytes_show_u n : bytes (show_u n) = digit_char <$> rev (digits_rev n).
Proof. apply bytes_of_bytes. Qed.

(** A decimal numeral is split at any width: the leading part followed by the
    zero-padded remainder. *)
Fixpoint low_digits (k : nat) (n : Z) : list Z :=
  match k with O => [] | S k' => n mod 10 :: low_digits k' (n / 10) end.

Lemma digits_rev_split k a b :
  0 < a → 0 ≤ b < 10 ^ Z.of_nat k →
  digits_rev (a * 10 ^ Z.of_nat k + b) = (low_digits k b ++ digits_rev a)%list.
Proof.
  revert b; induction k as [|k IH]; intros b Ha Hb.
  { simpl. f_equal. simpl in Hb. lia. }
  rewrite Nat2Z.inj_succ, Z.pow_succ_r in * by lia.
  assert (0 < 10 ^ Z.of_nat k) by (apply Z.pow_pos_nonneg; lia).
  rewrite digits_rev_eq by nia. destruct (Z.ltb_spec (a * (10 * 10 ^ Z.of_nat k) + b) 10); [nia|].
  cbn [low_digits app]. f_equal.
  - rewrite Z.add_comm, Z.mul_assoc, (Z.mul_comm a 10), <- Z.mul_assoc, Z.mul_comm.
    by rewrite Z_mod_plus_full.
  - rewrite <- IH; [|done|zdiv]. f_equal.
    replace (a * (10 * 10 ^ Z.of_nat k) + b) with (b + (a * 10 ^ Z.of_nat k) * 10) by lia.
    rewrite Z_div_plus_full by done. lia.
Qed.

Lemma low_digits_rev k n :
  0 ≤ n < 10 ^ Z.of_nat k → k ≠ O →
  low_digits k n = (digits_rev n ++ replicate (k - length (digits_rev n)) 0)%list.
Proof.
  revert n; induction k as [|k IH]; intros n Hn Hk; [done|].
  rewrite Nat2Z.inj_succ, Z.pow_succ_r in Hn by lia.
  rewrite digits_rev_eq by lia. cbn [low_digits]. destruct (Z.ltb_spec n 10).
  - rewrite Z.mod_small by lia. rewrite Z.div_small by lia. cbn. f_equal.
    rewrite Nat.sub_0_r. clear. induction k as [|k IH]; [done|]; cbn. by f_equal.
  - assert (k ≠ O) by (intros ->; simpl in Hn; lia).
    rewrite IH by (try done; zdiv). done.
Qed.

Lemma show_pad_digits k n :
  0 ≤ n < 10 ^ Z.of_nat k → k ≠ O → bytes (show_pad k n) = digit_char <$> rev (low_digits k n).
Proof.
  intros Hn Hk. unfold show_pad. rewrite bytes_app, bytes_of_bytes, bytes_show_u.
  rewrite low_digits_rev, rev_app_distr, fmap_app by done. f_equal.
  rewrite <- length_bytes, bytes_show_u, length_fmap, length_rev.
  rewrite rev_alt. fold (reverse (replicate (k - length (digits_rev n)) 0)).
  rewrite reverse_replicate, fmap_replicate.
  reflexivity.
Qed.

Lemma show_u_split k a b :
  0 < a → 0 ≤ b < 10 ^ Z.of_nat k → k ≠ O →
  show_u (a * 10 ^ Z.of_nat k + b) = show_u a +:+ show_pad k b.
Proof.
  intros Ha Hb Hk. apply bytes_inj.
  rewrite bytes_app, !bytes_show_u, show_pad_digits, digits_rev_split by done.
  by rewrite rev_app_distr, fmap_app.
Qed.

Lemma show_u_digits n :
  0 ≤ n → Forall (λ a, digit_val a ≠ None) (bytes (show_u n)).
Proof.
  intros Hn. rewrite bytes_show_u. apply Forall_fmap, Forall_rev.
  destruct (digits_rev_spec n Hn) as [_ Hd]. eapply Forall_impl; [exact Hd|].
  intros d Hd'. simpl. by rewrite digit_val_char.
Qed.

(** A byte that is no digit does not occur in a numeral. *)
Lemma show_u_no_byte c n : 0 ≤ n → digit_val c = None → c ∉ bytes (show_u n).
Proof.
  intros Hn Hc Hin. pose proof (show_u_digits n Hn) as Hd.
  rewrite Forall_forall in Hd. by apply (Hd c).
Qed.

Lemma strip_char_Some c s t : strip_char c s = Some t ↔ s = String c t.
Proof.
  destruct s as [|a s]; simpl; [done|]. destruct (Ascii.eqb_spec a c); split; congruence.
Qed.

Lemma strip_char_None c s : c ∉ bytes s → strip_char c s = None.
Proof.
  intros Hin. destruct (strip_char c s) as [t|] eqn:E; [|done].
  apply strip_char_Some in E as ->. exfalso. apply Hin. simpl. constructor.
Qed.

Lemma parse_uint_show w n : 0 ≤ n < 2 ^ w → parse_uint w (show_u n) = Some n.
Proof.
  intros Hn. unfold parse_uint. rewrite strip_char_None; simpl.
  - rewrite parse_show_u by lia. apply in_u_spec in Hn. by rewrite Hn.
  - apply show_u_no_byte; [lia|done].
Qed.

Lemma parse_int_show w n :
  - 2 ^ (w - 1) ≤ n < 2 ^ (w - 1) → parse_int w (show_i n) = Some n.
Proof.
  intros Hn. unfold parse_int, show_i. apply in_i_spec in Hn as Hi.
  destruct (Z.ltb_spec n 0).
  - simpl. rewrite parse_show_u by lia. replace (- - n) with n by lia. by rewrite Hi.
  - rewrite !strip_char_None by (apply show_u_no_byte; [lia|done]). simpl.
    rewrite parse_show_u by lia. by rewrite Hi.
Qed.

Lemma show_i_no_byte c n : digit_val c = None → c ≠ "-"%char → c ∉ bytes (show_i n).
Proof.
  intros Hc Hm. unfold show_i. destruct (Z.ltb_spec n 0); [|by apply show_u_no_byte].
  intros Hin. simpl in Hin. apply elem_of_cons in Hin as [?|Hin]; [done|].
  by apply (show_u_no_byte c (- n)) in Hin; [|lia|].
Qed.

(** ** Lemmas: splitting *)

Lemma split_once_app c s t : c ∉ bytes s → split_once c (s +:+ String c t) = Some (s, t).
Proof.
  induction s as [|a s IH]; intros Hin; simpl.
  - by rewrite Ascii.eqb_refl.
  - cbn in Hin. apply not_elem_of_cons in Hin as [Hne Hin].
    destruct (Ascii.eqb_spec a c); [congruence|].
    change (String a s +:+ String c t) with (String a (s +:+ String c t)).
    rewrite IH; done.
Qed.

Lemma strip_prefix_app p s : strip_prefix p (p +:+ s) = Some s.
Proof.
  induction p as [|a p IH]; [done|].
  change (String a p +:+ s) with (String a (p +:+ s)). cbn [strip_prefix].
  by rewrite Ascii.eqb_refl.
Qed.

Lemma strip_prefix_Some p s r : strip_prefix p s = Some r ↔ s = p +:+ r.
Proof.
  split; [|intros ->; apply strip_prefix_app].
  revert s; induction p as [|a p IH]; intros s; [by intros [= ->]|].
  destruct s as [|b s]; [done|]. cbn [strip_prefix].
  destruct (Ascii.eqb_spec a b) as [->|]; [|done]. intros ->%IH. done.
Qed.

Lemma split_on_no_sep c s : c ∉ bytes s → split_on c s = [s].
Proof.
  induction s as [|a s IH]; intros Hin; [done|]. cbn in Hin.
  apply not_elem_of_cons in Hin as [Hne Hin]. cbn [split_on].
  destruct (Ascii.eqb_spec a c); [congruence|]. by rewrite IH.
Qed.

Lemma split_on_app c s t : c ∉ bytes s → split_on c (s +:+ String c t) = s :: split_on c t.
Proof.
  induction s as [|a s IH]; intros Hin.
  - change ("" +:+ String c t) with (String c t). cbn [split_on].
    by rewrite Ascii.eqb_refl.
  - cbn in Hin. apply not_elem_of_cons in Hin as [Hne Hin].
    change (String a s +:+ String c t) with (String a (s +:+ String c t)). cbn [split_on].
    destruct (Ascii.eqb_spec a c); [congruence|]. by rewrite IH.
Qed.

#[export] Hint Resolve show_u_no_byte show_i_no_byte : lq.

(** ** Lemmas: ASCII text is valid UTF-8 *)

Definition ascii_only (s : string) : Prop := Forall (λ a, byte_val a < 128) (bytes s).

Lemma ascii_only_utf8 s : ascii_only s → utf8_valid s = true.
Proof.
  unfold ascii_only, utf8_valid. intros Hs.
  enough (∃ cs, utf8_decode (bytes s) = Some cs) as [cs ->] by done.
  induction Hs as [|a l Ha _ [cs IH]]; [by exists []|].
  cbn [utf8_decode]. pose proof (byte_val_range a). ztest. rewrite IH. by eexists.
Qed.

Lemma ascii_only_app s t : ascii_only s → ascii_only t → ascii_only (s +:+ t).
Proof. unfold ascii_only. rewrite bytes_app. apply Forall_app_2. Qed.

Lemma ascii_only_hex l : ascii_only (hex_string l).
Proof.
  unfold ascii_only, hex_string. rewrite bytes_of_bytes. apply Forall_bind, Forall_true.
  intros a. pose proof (byte_val_range a).
  assert (∀ d, 0 ≤ d < 16 → byte_val (hex_digit d) < 128) as Hd.
  { intros d Hd. unfold hex_digit. destruct (Z.ltb_spec d 10); rewrite byte_val_of; lia. }
  repeat constructor; apply Hd; zdiv.
Qed.

Lemma ascii_only_show_u n : 0 ≤ n → ascii_only (show_u n).
Proof.
  intros Hn. unfold ascii_only. pose proof (show_u_digits n Hn) as Hd.
  rewrite Forall_forall in Hd |- *. intros a Ha. specialize (Hd a Ha). clear Ha.
  rename Hd into Ha. cbn in Ha. unfold digit_val in Ha.
  destruct (_ && _) eqn:E in Ha; [bool_facts; lia|done].
Qed.

Lemma ascii_only_show_i n : ascii_only (show_i n).
Proof.
  unfold show_i. destruct (Z.ltb_spec n 0); [|by apply ascii_only_show_u].
  constructor; [done|]. apply ascii_only_show_u. lia.
Qed.

#[export] Hint Resolve ascii_only_hex ascii_only_show_u ascii_only_show_i ascii_only_app
  ascii_only_utf8 : lq.

(** ** Lemmas: trimming *)

Lemma chars_ascii s : ascii_only s → chars s = byte_val <$> bytes s.
Proof.
  unfold ascii_only, chars. intros Hs.
  enough (utf8_decode (bytes s) = Some (byte_val <$> bytes s)) as -> by done.
  induction Hs as [|a l Ha _ IH]; [done|].
  cbn [utf8_decode fmap list_fmap]. pose proof (byte_val_range a). ztest. by rewrite IH.
Qed.

Lemma drop_while_none {A} (f : A → bool) l : Forall (λ x, f x = false) l → drop_while f l = l.
Proof. intros Hl. destruct Hl as [|x l Hx _]; [done|]. cbn. by rewrite Hx. Qed.

Lemma trim_id s :
  ascii_only s → Forall (λ a, is_whitespace (byte_val a) = false) (bytes s) → trim s = s.
Proof.
  intros Ha Hw. unfold trim, trim_chars, trim_end_chars.
  assert (Forall (λ c, is_whitespace c = false) (chars s)) as Hc.
  { rewrite chars_ascii by done. by apply Forall_fmap. }
  rewrite (drop_while_none _ (chars s)) by done.
  rewrite drop_while_none by by apply Forall_rev.
  rewrite rev_involutive. apply of_chars_chars. by apply ascii_only_utf8.
Qed.

Lemma trim_show_i n : trim (show_i n) = show_i n.
Proof.
  apply trim_id; [apply ascii_only_show_i|].
  assert (∀ m, 0 ≤ m → Forall (λ a, is_whitespace (byte_val a) = false) (bytes (show_u m))) as Hu.
  { intros m Hm. pose proof (show_u_digits m Hm) as Hd. rewrite Forall_forall in Hd |- *.
    intros a Ha. specialize (Hd a Ha). unfold digit_val in Hd.
    destruct (_ && _) eqn:E in Hd; [|done]. bool_facts.
    unfold is_whitespace, c_in. by ztest. }
  unfold show_i. destruct (Z.ltb_spec n 0); [|by apply Hu].
  constructor; [done|]. apply Hu. lia.
Qed.
