(* ===== verification/Containers.v ===== *)
(** * Containers: Rust's ordered maps

    [BTreeMap<K, V>] is a list of pairs strictly sorted by key.  It is used for
    the interface signatures of the diff and for the objects of [serde_json]
    (whose [Map] is a [BTreeMap] in the feature set the workspace builds
    with).  [sort_by] is the standard library's stable sort. *)
From S2P Require Import Prelude Text.
From Stdlib Require Import Ascii.
From Stdlib Require String.

(** ** Definitions *)

Section btree.
Context `{TotalOrder K} {V : Type}.

Fixpoint bt_get (k : K) (m : list (K * V)) : option V :=
  match m with
  | [] => None
  | (k', v) :: m' => match tcmp k k' with Eq => Some v | _ => bt_get k m' end
  end.

(** [map.insert(k, v)]: replaces the value of a present key. *)
Fixpoint bt_insert (k : K) (v : V) (m : list (K * V)) : list (K * V) :=
  match m with
  | [] => [(k, v)]
  | (k', v') :: m' =>
      match tcmp k k' with
      | Lt => (k, v) :: m
      | Eq => (k, v) :: m'
      | Gt => (k', v') :: bt_insert k v m'
      end
  end.

(** [iter.collect::<BTreeMap<_, _>>()]: the last value of a key wins. *)
Definition bt_of_list (l : list (K * V)) : list (K * V) :=
  foldl (λ m p, bt_insert p.1 p.2 m) [] l.

Definition bt_sorted (m : list (K * V)) : Prop := StronglySorted tlt m.*1.
End btree.

(** [old.keys().chain(new.keys()).collect::<BTreeSet<_>>()]. *)
Definition bt_keys_union {K V W} `{TotalOrder K} (m : list (K * V)) (n : list (K * W)) : list K :=
  (bt_of_list ((λ k, (k, tt)) <$> m.*1 ++ n.*1)).*1.

(** [slice.sort_by(f)]: stable. *)
Fixpoint insert_by {A} (f : A → A → comparison) (x : A) (l : list A) : list A :=
  match l with
  | [] => [x]
  | y :: l' => match f x y with Gt => y :: insert_by f x l' | _ => x :: l end
  end.

Definition sort_by {A} (f : A → A → comparison) (l : list A) : list A :=
  foldr (insert_by f) [] l.

(** ** The order of strings: bytewise, as [Ord for str] *)

Lemma ascii_compare_val a b : Ascii.compare a b = Z.compare (byte_val a) (byte_val b).
Proof.
  unfold Ascii.compare, byte_val. by rewrite N2Z.inj_compare.
Qed.

Lemma string_compare_refl s : String.compare s s = Eq.
Proof.
  induction s as [|a s IH]; [done|]; cbn [String.compare].
  by rewrite ascii_compare_val, Z.compare_refl.
Qed.

Lemma string_compare_trans s t u :
  String.compare s t = Lt → String.compare t u = Lt → String.compare s u = Lt.
Proof.
  revert t u; induction s as [|a s IH]; intros [|b t] [|c u]; try done.
  cbn [String.compare]. rewrite !ascii_compare_val.
  destruct (Z.compare_spec (byte_val a) (byte_val b)), (Z.compare_spec (byte_val b) (byte_val c)),
    (Z.compare_spec (byte_val a) (byte_val c)); try done; try lia. apply IH.
Qed.

#[export] Program Instance string_order : TotalOrder string := {| tcmp := String.compare |}.
Next Obligation.
  intros x y; split; [apply String.compare_eq_iff|intros ->; apply string_compare_refl].
Qed.
Next Obligation. intros x y. apply String.compare_antisym. Qed.
Next Obligation. apply string_compare_trans. Qed.

(** ** Orders of rows: [ORDER BY a, b], ascending or descending *)

Definition Z_asc : TotalOrder Z.
Proof.
  refine {| tcmp := Z.compare |}.
  - intros x y. apply Z.compare_eq_iff.
  - intros x y. apply Z.compare_antisym.
  - intros x y z. rewrite !Z.compare_lt_iff. lia.
Defined.

Definition flip_order {A} (o : TotalOrder A) : TotalOrder A.
Proof.
  refine {| tcmp x y := @tcmp A o y x |}.
  - intros x y. rewrite (@tcmp_eq A o). naive_solver.
  - intros x y. apply (@tcmp_antisym A o).
  - intros x y z Hxy Hyz. by eapply (@tcmp_trans A o).
Defined.

Definition lex_order {A B} (oa : TotalOrder A) (ob : TotalOrder B) : TotalOrder (A * B).
Proof.
  refine {| tcmp x y := match @tcmp A oa x.1 y.1 with Eq => @tcmp B ob x.2 y.2 | c => c end |}.
  - intros [a b] [c d]. cbn. destruct (@tcmp A oa a c) eqn:E.
    + apply (@tcmp_eq A oa) in E as ->. rewrite (@tcmp_eq B ob). naive_solver.
    + split; [done|]. intros [= -> ->]. by rewrite (proj2 (@tcmp_eq A oa c c) eq_refl) in E.
    + split; [done|]. intros [= -> ->]. by rewrite (proj2 (@tcmp_eq A oa c c) eq_refl) in E.
  - intros [a b] [c d]. cbn. rewrite (@tcmp_antisym A oa a c).
    destruct (@tcmp A oa a c); cbn; [apply (@tcmp_antisym B ob)|done|done].
  - intros [a b] [c d] [e f]. cbn.
    destruct (@tcmp A oa a c) eqn:E1, (@tcmp A oa c e) eqn:E2; try done; intros H1 H2.
    + apply (@tcmp_eq A oa) in E1 as ->. rewrite E2. by eapply (@tcmp_trans B ob).
    + apply (@tcmp_eq A oa) in E1 as ->. by rewrite E2.
    + apply (@tcmp_eq A oa) in E2 as ->. by rewrite E1.
    + by rewrite (@tcmp_trans A oa a c e E1 E2).
Defined.

(** An order given by its own comparison, which computes as [o]'s. *)
Definition order_as {A} (o : TotalOrder A) (cmp : A → A → comparison) (same : ∀ x y, cmp x y = @tcmp A o x y)
    : TotalOrder A.
Proof.
  refine {| tcmp := cmp |}.
  - intros x y. rewrite same. apply (@tcmp_eq A o).
  - intros x y. rewrite !same. apply (@tcmp_antisym A o).
  - intros x y z. rewrite !same. apply (@tcmp_trans A o).
Defined.

(** ** Lemmas: ordered maps *)

Section btree_lemmas.
Context `{TotalOrder K} {V : Type}.
Implicit Types m : list (K * V).

Lemma bt_get_cons k k' v m :
  bt_get k ((k', v) :: m) = match tcmp k k' with Eq => Some v | _ => bt_get k m end.
Proof. done. Qed.

Lemma bt_get_insert_eq k v m : bt_get k (bt_insert k v m) = Some v.
Proof.
  induction m as [|[k' v'] m IH]; simpl; [by rewrite tcmp_refl|].
  destruct (tcmp k k') eqn:E; simpl; rewrite ?tcmp_refl, ?E; done.
Qed.

Lemma bt_get_insert_ne k j v m : j ≠ k → bt_get j (bt_insert k v m) = bt_get j m.
Proof.
  intros Hne. induction m as [|[k' v'] m IH]; simpl.
  - destruct (tcmp j k) eqn:E; [|done..]. by apply tcmp_eq in E.
  - destruct (tcmp k k') eqn:E; simpl.
    + apply tcmp_eq in E as <-. destruct (tcmp j k) eqn:E'; [|done..]. by apply tcmp_eq in E'.
    + destruct (tcmp j k) eqn:E'; [by apply tcmp_eq in E'|done..].
    + by rewrite IH.
Qed.

Lemma bt_insert_keys k (v : V) m j : j ∈ (bt_insert k v m).*1 ↔ j = k ∨ j ∈ m.*1.
Proof.
  induction m as [|[k' v'] m IH]; simpl; [by rewrite elem_of_cons|].
  destruct (tcmp k k') eqn:E; simpl; [apply tcmp_eq in E as <-|..];
    rewrite ?elem_of_cons, ?IH; tauto.
Qed.

Lemma bt_sorted_insert k (v : V) m : bt_sorted m → bt_sorted (bt_insert k v m).
Proof.
  unfold bt_sorted. induction m as [|[k' v'] m IH]; simpl; [repeat constructor|].
  inversion 1 as [|?? Hs Hall]; subst. destruct (tcmp k k') eqn:E; simpl.
  - apply tcmp_eq in E as ->. by constructor.
  - constructor; [done|]. constructor; [done|].
    eapply Forall_impl; [exact Hall|]. intros x Hx. by transitivity k'.
  - constructor; [by apply IH|]. apply Forall_forall. intros x.
    rewrite bt_insert_keys. intros [->|Hx]; [by apply tcmp_gt_lt|].
    rewrite Forall_forall in Hall. by apply Hall.
Qed.

Lemma bt_of_list_snoc (l : list (K * V)) k v : bt_of_list (l ++ [(k, v)]) = bt_insert k v (bt_of_list l).
Proof. unfold bt_of_list. by rewrite foldl_app. Qed.

Lemma bt_sorted_of_list (l : list (K * V)) : bt_sorted (bt_of_list l).
Proof.
  induction l as [|[k v] l IH] using rev_ind; [constructor|].
  rewrite bt_of_list_snoc. by apply bt_sorted_insert.
Qed.

Lemma bt_of_list_keys (l : list (K * V)) k : k ∈ (bt_of_list l).*1 ↔ k ∈ l.*1.
Proof.
  induction l as [|[j v] l IH] using rev_ind; [done|].
  rewrite bt_of_list_snoc, bt_insert_keys, fmap_app, elem_of_app, IH. cbn.
  rewrite list_elem_of_singleton. tauto.
Qed.

Lemma bt_get_None k m : bt_get k m = None ↔ k ∉ m.*1.
Proof.
  induction m as [|[k' v'] m IH]; simpl;
    [split; [intros _; apply not_elem_of_nil|done]|].
  rewrite elem_of_cons. destruct (tcmp k k') eqn:E.
  - apply tcmp_eq in E as ->. naive_solver.
  - rewrite IH. assert (k ≠ k') by (intros ->; by rewrite tcmp_refl in E). tauto.
  - rewrite IH. assert (k ≠ k') by (intros ->; by rewrite tcmp_refl in E). tauto.
Qed.

Lemma bt_get_Some_in k v m : bt_get k m = Some v → (k, v) ∈ m.
Proof.
  induction m as [|[k' v'] m IH]; simpl; [done|].
  destruct (tcmp k k') eqn:E; [|intros ?%IH; by constructor..].
  apply tcmp_eq in E as ->. intros [= ->]. constructor.
Qed.

Lemma bt_sorted_NoDup m : bt_sorted m → NoDup m.*1.
Proof.
  unfold bt_sorted. induction m.*1 as [|k l IH]; [constructor|].
  inversion 1 as [|?? Hs Hall]; subst. constructor; [|by apply IH].
  intros Hin. rewrite Forall_forall in Hall. by apply Hall, tlt_irrefl in Hin.
Qed.

Lemma bt_get_in k v m : bt_sorted m → (k, v) ∈ m → bt_get k m = Some v.
Proof.
  intros Hs Hin. apply bt_sorted_NoDup in Hs. induction m as [|[k' v'] m IH]; [by apply elem_of_nil in Hin|].
  simpl in *. apply NoDup_cons in Hs as [Hnin Hs].
  apply elem_of_cons in Hin as [[= -> ->]|Hin]; [by rewrite tcmp_refl|].
  destruct (tcmp k k') eqn:E; [|by apply IH..]. apply tcmp_eq in E as ->.
  exfalso. apply Hnin, list_elem_of_fmap. by exists (k', v).
Qed.

(** Two sorted maps with the same lookups are the same list. *)
Lemma bt_ext m n : bt_sorted m → bt_sorted n → (∀ k, bt_get k m = bt_get k n) → m = n.
Proof.
  revert n; induction m as [|[k v] m IH]; intros [|[j w] n] Hm Hn Hext; [done| | |].
  - specialize (Hext j). simpl in Hext. by rewrite tcmp_refl in Hext.
  - specialize (Hext k). simpl in Hext. by rewrite tcmp_refl in Hext.
  - inversion Hm as [|?? Hm' Hkm]; inversion Hn as [|?? Hn' Hjn]; subst.
    assert (tcmp k j = Eq) as Hkj.
    { pose proof (Hext k) as Hk; pose proof (Hext j) as Hj. simpl in Hk, Hj.
      rewrite tcmp_refl in Hk, Hj. rewrite (tcmp_antisym k j) in Hj.
      destruct (tcmp k j) eqn:E; [done| |]; exfalso; simpl in Hj.
      - symmetry in Hk. apply bt_get_Some_in, (list_elem_of_fmap_2 fst) in Hk. simpl in Hk.
        rewrite Forall_forall in Hjn. apply Hjn in Hk. apply (tlt_irrefl k).
        by transitivity j.
      - apply bt_get_Some_in, (list_elem_of_fmap_2 fst) in Hj. simpl in Hj.
        rewrite Forall_forall in Hkm. apply Hkm in Hj. apply tcmp_gt_lt in E.
        apply (tlt_irrefl j). by transitivity k. }
    apply tcmp_eq in Hkj as ->. pose proof (Hext j) as Hj. simpl in Hj.
    rewrite tcmp_refl in Hj. injection Hj as ->. f_equal. apply IH; [done..|].
    intros i. specialize (Hext i). simpl in Hext. destruct (tcmp i j) eqn:E; [|done..].
    apply tcmp_eq in E as ->.
    assert (Hnone : ∀ l : list (K * V), Forall (tlt j) l.*1 → bt_get j l = None).
    { intros l Hl. apply bt_get_None. intros Hin. rewrite Forall_forall in Hl.
      by apply Hl, tlt_irrefl in Hin. }
    by rewrite !Hnone.
Qed.
End btree_lemmas.

Lemma bt_insert_in `{TotalOrder K} {V} (k : K) (v : V) m p :
  p ∈ bt_insert k v m → p = (k, v) ∨ p ∈ m.
Proof.
  induction m as [|[k' v'] m IH]; simpl.
  - intros ?%list_elem_of_singleton. by left.
  - destruct (tcmp k k'); rewrite ?elem_of_cons; naive_solver.
Qed.

Lemma bt_of_list_in `{TotalOrder K} {V} (l : list (K * V)) p : p ∈ bt_of_list l → p ∈ l.
Proof.
  induction l as [|[k v] l IH] using rev_ind; [done|].
  rewrite bt_of_list_snoc, elem_of_app, list_elem_of_singleton.
  intros [->|Hin]%bt_insert_in; auto.
Qed.

Lemma bt_of_list_Forall `{TotalOrder K} {V} (P : K * V → Prop) l :
  Forall P l → Forall P (bt_of_list l).
Proof. rewrite !Forall_forall. intros Hl p Hp. by apply Hl, bt_of_list_in. Qed.

(** The value a list of insertions leaves at [k]: the last one. *)
Lemma bt_get_of_list `{TotalOrder K} {V} (l : list (K * V)) k v :
  bt_get k (bt_of_list (l ++ [(k, v)])) = Some v.
Proof. rewrite bt_of_list_snoc. apply bt_get_insert_eq. Qed.

(** ** Lemmas: the stable sort *)

Lemma insert_by_perm {A} (f : A → A → comparison) x l : insert_by f x l ≡ₚ x :: l.
Proof.
  induction l as [|y l IH]; [done|]; simpl. destruct (f x y); [done..|].
  rewrite IH. by constructor.
Qed.

Lemma sort_by_perm {A} (f : A → A → comparison) l : sort_by f l ≡ₚ l.
Proof.
  induction l as [|x l IH]; [done|]; simpl. by rewrite insert_by_perm, IH.
Qed.

(** Comparing by a totally ordered key: the result ascends weakly. *)
Definition key_le {A K} `{TotalOrder K} (g : A → K) (x y : A) : Prop := tcmp (g x) (g y) ≠ Gt.

Lemma key_le_trans {A K} `{TotalOrder K} (g : A → K) x y z :
  key_le g x y → key_le g y z → key_le g x z.
Proof.
  unfold key_le. intros Hxy Hyz Hxz. apply tcmp_gt_lt in Hxz.
  destruct (tcmp (g x) (g y)) eqn:E1; [|destruct (tcmp (g y) (g z)) eqn:E2|]; try done.
  - apply tcmp_eq in E1. rewrite E1 in Hxz. apply tcmp_gt_lt in Hxz. done.
  - apply tcmp_eq in E2. rewrite E2 in E1. apply (tlt_irrefl (g x)).
    unfold tlt. eapply tcmp_trans; eauto.
  - apply (tlt_irrefl (g x)). eapply tcmp_trans; [exact E1|].
    eapply tcmp_trans; eauto.
Qed.

Lemma sort_by_sorted {A K} `{TotalOrder K} (g : A → K) l :
  StronglySorted (key_le g) (sort_by (λ x y, tcmp (g x) (g y)) l).
Proof.
  induction l as [|x l IH]; simpl; [constructor|].
  induction IH as [|y k Hk IHk Hall]; simpl; [repeat constructor|].
  destruct (tcmp (g x) (g y)) eqn:E.
  - constructor; [by constructor|]. constructor; [by unfold key_le; rewrite E|].
    eapply Forall_impl; [exact Hall|]. intros z Hz. eapply key_le_trans; [|exact Hz].
    by unfold key_le; rewrite E.
  - constructor; [by constructor|]. constructor; [by unfold key_le; rewrite E|].
    eapply Forall_impl; [exact Hall|]. intros z Hz. eapply key_le_trans; [|exact Hz].
    by unfold key_le; rewrite E.
  - constructor; [done|]. rewrite insert_by_perm. constructor; [|done].
    unfold key_le. apply tcmp_gt_lt in E. by rewrite E.
Qed.

#[export] Hint Resolve bt_sorted_insert bt_sorted_of_list : lq.
#[export] Hint Rewrite @bt_get_insert_eq : lqr.

(** ** Lemmas: maps and sorts of distinct keys *)

Lemma bt_insert_perm `{TotalOrder K} {V} (k : K) (v : V) m :
  k ∉ m.*1 → bt_insert k v m ≡ₚ (k, v) :: m.
Proof.
  induction m as [|[k' v'] m IH]; intros Hk; [done|]. cbn [fmap list_fmap fst] in Hk.
  apply not_elem_of_cons in Hk as [Hne Hk]. cbn [bt_insert].
  destruct (tcmp k k') eqn:E; [by apply tcmp_eq in E|done|].
  rewrite IH by done. by constructor.
Qed.

Lemma bt_of_list_perm `{TotalOrder K} {V} (l : list (K * V)) :
  NoDup l.*1 → bt_of_list l ≡ₚ l.
Proof.
  induction l as [|[k v] l IH] using rev_ind; intros Hnd; [done|].
  rewrite fmap_app in Hnd. apply NoDup_app in Hnd as (Hl & Hdis & _).
  rewrite bt_of_list_snoc, bt_insert_perm.
  - rewrite IH by done. apply Permutation_cons_append.
  - rewrite bt_of_list_keys. intros Hin. eapply Hdis; [done|]. by constructor.
Qed.

Lemma bt_get_NoDup `{TotalOrder K} {V} (l : list (K * V)) k v :
  NoDup l.*1 → (k, v) ∈ l → bt_get k (bt_of_list l) = Some v.
Proof.
  intros Hnd Hin. apply bt_get_in; [apply bt_sorted_of_list|].
  by rewrite bt_of_list_perm.
Qed.

(** A strictly sorted list is what sorting any permutation of it gives. *)
Lemma sort_by_unique {A K} `{TotalOrder K} (g : A → K) l m :
  StronglySorted tlt (g <$> m) → l ≡ₚ m → sort_by (λ x y, tcmp (g x) (g y)) l = m.
Proof.
  intros Hm Hperm. apply (StronglySorted_unique_strong (key_le g)).
  - intros x y Hx Hy Hxy Hyx. rewrite sort_by_perm, Hperm in Hx.
    assert (g x = g y) as Hg.
    { unfold key_le in *. rewrite (tcmp_antisym (g x) (g y)) in Hyx.
      apply tcmp_eq. destruct (tcmp (g x) (g y)); done. }
    clear -Hm Hx Hy Hg. induction m as [|z m IH]; [by apply elem_of_nil in Hx|].
    cbn in Hm. apply StronglySorted_cons in Hm as [Hall Hm]. rewrite Forall_fmap in Hall.
    rewrite Forall_forall in Hall.
    apply elem_of_cons in Hx as [->|Hx], Hy as [->|Hy]; [done| | |by apply IH].
    + specialize (Hall _ Hy). cbn in Hall. rewrite Hg in Hall. by apply tlt_irrefl in Hall.
    + specialize (Hall _ Hx). cbn in Hall. rewrite <- Hg in Hall. by apply tlt_irrefl in Hall.
  - apply sort_by_sorted.
  - clear Hperm. induction m as [|z m IH]; [constructor|].
    cbn in Hm. apply StronglySorted_cons in Hm as [Hall Hm].
    constructor; [by apply IH|]. rewrite Forall_fmap in Hall.
    rewrite Forall_forall in Hall |- *. intros x Hx. specialize (Hall x Hx).
    cbn in Hall. unfold key_le, tlt in *. by rewrite Hall.
  - by rewrite sort_by_perm.
Qed.

(** Collecting over a permutation of the inputs. *)
Lemma collect_r_perm {E A B C} (f : A → result E B) (g : C → A) (h : C → B) l m :
  l ≡ₚ g <$> m → (∀ x, x ∈ m → f (g x) = Ok (h x)) →
  ∃ m', collect_r f l = Ok (h <$> m') ∧ m' ≡ₚ m.
Proof.
  intros Hperm Hf. apply Permutation_map_inv in Hperm as (m' & -> & Hm).
  exists m'. split; [|by symmetry].
  apply collect_r_Ok. apply Forall2_fmap, Forall_Forall2_diag, Forall_forall.
  intros x Hx. apply Hf. by rewrite Hm.
Qed.
