(* ===== verification/Values.v ===== *)
(** * Values: the data shared by the decoders, the encoder and the interface

    [Json] is [serde_json::Value].  [ScVal], [ScAddress], [ScSpecTypeDef] and
    [ScSpecEntry] are the data of the [stellar_xdr] crate, with the variants
    the source matches on; the functions of that crate and of
    [stellar_strkey] are not translated: the ones the source calls are the
    fields of the class [Stellar], with their documented laws. *)
From S2P Require Import Prelude Text Containers.
From Stdlib Require Import Ascii.

Local Open Scope Z_scope.

(** ** JSON *)

(** A number keeps whether it is an integer ([is_i64 || is_u64]) or a float;
    the text of a float is opaque. *)
Inductive Json : Type :=
  | JNull
  | JBool (b : bool)
  | JInt (z : Z)
  | JFloat (text : string)
  | JStr (s : string)
  | JArr (l : list Json)
  | JObj (m : list (string * Json)).

(** [json!({ k: v, .. })] and [Map::new] with [insert]s. *)
Definition mk_obj (l : list (string * Json)) : Json := JObj (bt_of_list l).

Definition as_str (v : Json) : option string := match v with JStr s => Some s | _ => None end.
Definition as_bool (v : Json) : option bool := match v with JBool b => Some b | _ => None end.
Definition as_array (v : Json) : option (list Json) := match v with JArr l => Some l | _ => None end.
Definition as_object (v : Json) : option (list (string * Json)) :=
  match v with JObj m => Some m | _ => None end.
Definition is_null (v : Json) : bool := match v with JNull => true | _ => false end.
Definition as_u64 (v : Json) : option Z :=
  match v with JInt z => if in_u 64 z then Some z else None | _ => None end.

(** [v.get("k")]: [None] unless [v] is an object. *)
Definition json_get (k : string) (v : Json) : option Json :=
  match v with JObj m => bt_get k m | _ => None end.

(** Nesting depth: 0 for a scalar. *)
Fixpoint jdepth (v : Json) : nat :=
  match v with
  | JArr l => S (max_list (jdepth <$> l))
  | JObj m => S (max_list ((λ p, jdepth p.2) <$> m))
  | _ => 0
  end.

(** ** Stellar data *)

(** [ScAddress]; the payloads are 32-byte keys and hashes. *)
Inductive ScAddress : Type :=
  | AddrAccount (ed25519 : list ascii)
  | AddrContract (hash : list ascii)
  | AddrMuxedAccount (id : Z) (ed25519 : list ascii)
  | AddrClaimableBalance (hash : list ascii)
  | AddrLiquidityPool (hash : list ascii).

Inductive ScError : Type :=
  | ErrContract (code : Z)
  | ErrHost (ty code : Z).

Inductive ContractExecutable : Type :=
  | ExecWasm (hash : list ascii)
  | ExecStellarAsset.

(** Four big-endian 64-bit limbs: [UInt256Parts] and [Int256Parts] (whose first
    limb is signed). *)
Record Parts256 := { hi_hi : Z; hi_lo : Z; lo_hi : Z; lo_lo : Z }.

Inductive ScVal : Type :=
  | ScvBool (b : bool)
  | ScvVoid
  | ScvError (e : ScError)
  | ScvU32 (n : Z)
  | ScvI32 (n : Z)
  | ScvU64 (n : Z)
  | ScvI64 (n : Z)
  | ScvTimepoint (n : Z)
  | ScvDuration (n : Z)
  | ScvU128 (hi lo : Z)
  | ScvI128 (hi lo : Z)
  | ScvU256 (p : Parts256)
  | ScvI256 (p : Parts256)
  | ScvBytes (b : list ascii)
  | ScvString (b : list ascii)
  | ScvSymbol (b : list ascii)
  | ScvVec (o : option (list ScVal))
  | ScvMap (o : option (list (ScVal * ScVal)))
  | ScvAddress (a : ScAddress)
  | ScvLedgerKeyContractInstance
  | ScvLedgerKeyNonce (nonce : Z)
  | ScvContractInstance (e : ContractExecutable) (storage : option (list (ScVal * ScVal))).

Inductive ScSpecTypeDef : Type :=
  | TVal | TBool | TVoid | TError | TU32 | TI32 | TU64 | TI64 | TTimepoint | TDuration
  | TU128 | TI128 | TU256 | TI256 | TBytes | TString | TSymbol | TAddress | TMuxedAddress
  | TOption (value_type : ScSpecTypeDef)
  | TResult (ok_type error_type : ScSpecTypeDef)
  | TVec (element_type : ScSpecTypeDef)
  | TMap (key_type value_type : ScSpecTypeDef)
  | TTuple (value_types : list ScSpecTypeDef)
  | TBytesN (n : Z)
  | TUdt (name : string).

(** ** The functions of [stellar_xdr] and [stellar_strkey] the source calls *)

(** The strkey variants: the five the decoder renders, and the rest. *)
Inductive Strkey : Type :=
  | SkPublicKeyEd25519 (ed25519 : list ascii)
  | SkContract (hash : list ascii)
  | SkMuxedAccountEd25519 (id : Z) (ed25519 : list ascii)
  | SkClaimableBalanceV0 (hash : list ascii)
  | SkLiquidityPool (hash : list ascii)
  | SkOther (kind : Z) (payload : list ascii).

Definition strkey_of_address (a : ScAddress) : Strkey :=
  match a with
  | AddrAccount k => SkPublicKeyEd25519 k
  | AddrContract h => SkContract h
  | AddrMuxedAccount i k => SkMuxedAccountEd25519 i k
  | AddrClaimableBalance h => SkClaimableBalanceV0 h
  | AddrLiquidityPool h => SkLiquidityPool h
  end.

Definition address_wf (a : ScAddress) : bool :=
  match a with
  | AddrAccount k | AddrContract k | AddrClaimableBalance k | AddrLiquidityPool k =>
      (length k =? 32)%nat
  | AddrMuxedAccount i k => in_u 64 i && (length k =? 32)%nat
  end.

Class Stellar := {
  (** [Strkey::to_string] and [Strkey::from_string]. *)
  strkey_to_string : Strkey → string;
  strkey_from_string : string → option Strkey;
  (** [ScAddress::from_str]. *)
  sc_address_from_str : string → option ScAddress;
  (** [hex::decode]. *)
  hex_decode : string → option (list ascii);
  (** [StringM::to_utf8_string_lossy]. *)
  to_utf8_string_lossy : string → string;
  (** The order derived for [ScVal]. *)
  scval_cmp : ScVal → ScVal → comparison;
  strkey_roundtrip a : address_wf a = true →
    strkey_from_string (strkey_to_string (strkey_of_address a)) = Some (strkey_of_address a);
  address_roundtrip a : address_wf a = true →
    sc_address_from_str (strkey_to_string (strkey_of_address a)) = Some a;
  address_parsed_wf s a : sc_address_from_str s = Some a → address_wf a = true;
  hex_decode_show b : hex_decode (hex_string b) = Some b;
  (** Muxed accounts, and only they, are written with a leading [M]. *)
  strkey_muxed a :
    starts_with "M" (strkey_to_string (strkey_of_address a))
    = match a with AddrMuxedAccount _ _ => true | _ => false end;
  address_parsed_muxed s i k :
    sc_address_from_str s = Some (AddrMuxedAccount i k) → starts_with "M" s = true;
  strkey_muxed_wf s i k :
    strkey_from_string s = Some (SkMuxedAccountEd25519 i k) → length k = 32%nat;
  address_utf8 a : utf8_valid (strkey_to_string (strkey_of_address a)) = true;
  lossy_valid s : utf8_valid s = true → to_utf8_string_lossy s = s;
  scval_cmp_eq x y : scval_cmp x y = Eq ↔ x = y;
  scval_cmp_antisym x y : scval_cmp y x = CompOpp (scval_cmp x y);
  scval_cmp_trans x y z : scval_cmp x y = Lt → scval_cmp y z = Lt → scval_cmp x z = Lt;
  scval_cmp_symbols a b :
    scval_cmp (ScvSymbol a) (ScvSymbol b) = tcmp (of_bytes a) (of_bytes b);
}.

(** [ScAddress::to_string]. *)
Definition sc_address_to_string `{Stellar} (a : ScAddress) : string :=
  strkey_to_string (strkey_of_address a).

#[export] Instance scval_order `{Stellar} : TotalOrder ScVal := {|
  tcmp := scval_cmp;
  tcmp_eq := scval_cmp_eq;
  tcmp_antisym := scval_cmp_antisym;
  tcmp_trans := scval_cmp_trans;
|}.

(** Capacity of the XDR containers: [VecM], [StringM<32>], [StringM<u32::MAX>]. *)
Definition U32_MAX : Z := 2 ^ 32 - 1.

(** ** Induction over the nested data *)

Section json_induction.
Variable P : Json → Prop.
Hypothesis Hnull : P JNull.
Hypothesis Hbool : ∀ b, P (JBool b).
Hypothesis Hint : ∀ z, P (JInt z).
Hypothesis Hfloat : ∀ s, P (JFloat s).
Hypothesis Hstr : ∀ s, P (JStr s).
Hypothesis Harr : ∀ l, Forall P l → P (JArr l).
Hypothesis Hobj : ∀ m, Forall (λ p, P p.2) m → P (JObj m).

Fixpoint json_ind_strong (v : Json) : P v :=
  match v with
  | JNull => Hnull
  | JBool b => Hbool b
  | JInt z => Hint z
  | JFloat s => Hfloat s
  | JStr s => Hstr s
  | JArr l => Harr l
      ((fix go l := match l return Forall P l with
        | [] => Forall_nil_2 P
        | x :: l' => Forall_cons_2 P x l' (json_ind_strong x) (go l')
        end) l)
  | JObj m => Hobj m
      ((fix go m := match m return Forall (λ p, P p.2) m with
        | [] => Forall_nil_2 _
        | x :: m' => Forall_cons_2 (λ p, P p.2) x m' (json_ind_strong x.2) (go m')
        end) m)
  end.
End json_induction.

Definition forall_opt {A} (P : A → Prop) (o : option A) : Prop :=
  match o with Some x => P x | None => True end.

Section scval_induction.
Variable P : ScVal → Prop.
Hypothesis Hatom : ∀ v,
  match v with ScvVec _ | ScvMap _ | ScvContractInstance _ _ => False | _ => True end → P v.
Hypothesis Hvec : ∀ o, forall_opt (Forall P) o → P (ScvVec o).
Hypothesis Hmap : ∀ o, forall_opt (Forall (λ p, P p.1 ∧ P p.2)) o → P (ScvMap o).
Hypothesis Hinst : ∀ e o,
  forall_opt (Forall (λ p, P p.1 ∧ P p.2)) o → P (ScvContractInstance e o).

Fixpoint scval_ind_strong (v : ScVal) : P v :=
  let go := fix go l := match l return Forall P l with
    | [] => Forall_nil_2 P
    | x :: l' => Forall_cons_2 P x l' (scval_ind_strong x) (go l')
    end in
  let go2 := fix go2 m := match m return Forall (λ p : ScVal * ScVal, P p.1 ∧ P p.2) m with
    | [] => Forall_nil_2 _
    | x :: m' => Forall_cons_2 (λ p : ScVal * ScVal, P p.1 ∧ P p.2) x m'
                   (conj (scval_ind_strong x.1) (scval_ind_strong x.2)) (go2 m')
    end in
  match v with
  | ScvVec o => Hvec o (match o return forall_opt (Forall P) o with
                        | Some l => go l | None => I end)
  | ScvMap o => Hmap o (match o return forall_opt (Forall _) o with
                        | Some m => go2 m | None => I end)
  | ScvContractInstance e o =>
      Hinst e o (match o return forall_opt (Forall _) o with
                 | Some m => go2 m | None => I end)
  | v' => Hatom v' I
  end.
End scval_induction.

Section typedef_induction.
Variable P : ScSpecTypeDef → Prop.
Hypothesis Hatom : ∀ t,
  match t with
  | TOption _ | TResult _ _ | TVec _ | TMap _ _ | TTuple _ => False | _ => True end → P t.
Hypothesis Hoption : ∀ t, P t → P (TOption t).
Hypothesis Hresult : ∀ t e, P t → P e → P (TResult t e).
Hypothesis Hvec : ∀ t, P t → P (TVec t).
Hypothesis Hmap : ∀ k v, P k → P v → P (TMap k v).
Hypothesis Htuple : ∀ l, Forall P l → P (TTuple l).

Fixpoint typedef_ind_strong (t : ScSpecTypeDef) : P t :=
  match t with
  | TOption u => Hoption u (typedef_ind_strong u)
  | TResult u e => Hresult u e (typedef_ind_strong u) (typedef_ind_strong e)
  | TVec u => Hvec u (typedef_ind_strong u)
  | TMap k v => Hmap k v (typedef_ind_strong k) (typedef_ind_strong v)
  | TTuple l => Htuple l
      ((fix go l := match l return Forall P l with
        | [] => Forall_nil_2 P
        | x :: l' => Forall_cons_2 P x l' (typedef_ind_strong x) (go l')
        end) l)
  | t' => Hatom t' I
  end.
End typedef_induction.

(** ** Well-formed JSON: what a [serde_json::Value] can be

    Numbers fit [i64] or [u64], strings are UTF-8, the keys of an object are
    strictly increasing. *)
Inductive json_wf : Json → Prop :=
  | wf_null : json_wf JNull
  | wf_bool b : json_wf (JBool b)
  | wf_int z : in_i 64 z || in_u 64 z = true → json_wf (JInt z)
  | wf_float s : json_wf (JFloat s)
  | wf_str s : utf8_valid s = true → json_wf (JStr s)
  | wf_arr l : Forall json_wf l → json_wf (JArr l)
  | wf_obj m :
      bt_sorted m → Forall (λ p, utf8_valid p.1 = true) m → Forall (λ p, json_wf p.2) m →
      json_wf (JObj m).

(** ** Lemmas *)

Lemma max_list_elem (l : list nat) n : n ∈ l → (n ≤ max_list l)%nat.
Proof. apply max_list_elem_of_le. Qed.

Lemma jdepth_arr_elem l v : v ∈ l → (jdepth v < jdepth (JArr l))%nat.
Proof.
  intros Hin. simpl. apply Nat.lt_succ_r, max_list_elem_of_le. by apply list_elem_of_fmap_2.
Qed.

Lemma jdepth_obj_elem m k v : (k, v) ∈ m → (jdepth v < jdepth (JObj m))%nat.
Proof.
  intros Hin. simpl. apply Nat.lt_succ_r, max_list_elem_of_le.
  apply list_elem_of_fmap. by exists (k, v).
Qed.

#[export] Hint Resolve jdepth_arr_elem jdepth_obj_elem : lq.

Lemma mk_obj_wf l :
  Forall (λ p, utf8_valid p.1 = true ∧ json_wf p.2) l → json_wf (mk_obj l).
Proof.
  intros Hl. unfold mk_obj.
  assert (Forall (λ p, utf8_valid p.1 = true ∧ json_wf p.2) (bt_of_list l)) as Hall.
  { by apply bt_of_list_Forall. }
  constructor; [apply bt_sorted_of_list|..];
    (eapply Forall_impl; [exact Hall|by intros ? []]).
Qed.

#[export] Hint Constructors json_wf : lq.
#[export] Hint Resolve mk_obj_wf : lq.
