(* ===== verification/Lru.v ===== *)
(** * Lru: the interface of a bounded least-recently-used map

    The caches of the services are [LruCache]s of the [lru] crate, which is not
    part of the repository.  [LruCache K V] states what its documentation
    promises of the operations the source calls, in terms of the entries in
    [iter] order (most recently used first); the caches are proved against it,
    and [list_lru] shows that the laws can be met. *)
From S2P Require Import Prelude.

Section assoc.
Context {K V : Type} `{EqDecision K}.
Implicit Types l : list (K * V).

Fixpoint assoc (k : K) l : option V :=
  match l with
  | [] => None
  | (k', v) :: l' => if decide (k = k') then Some v else assoc k l'
  end.

Definition without (k : K) l : list (K * V) := filter (λ p, p.1 ≠ k) l.

(** The entry of [k] becomes the most recently used one, its value [f v]. *)
Definition promote (f : V → V) (k : K) l : list (K * V) :=
  match assoc k l with
  | Some v => (k, f v) :: without k l
  | None => l
  end.
End assoc.

(** What [push] hands back: the entry it replaced or evicted. *)
Definition displaced {K V} `{EqDecision K} (k : K) (cap : nat) (l : list (K * V))
    : option (K * V) :=
  match assoc k l with
  | Some v => Some (k, v)
  | None => if (length l <? cap)%nat then None else last l
  end.

(** ** The interface *)

Class LruCache (K V : Type) `{EqDecision K} := {
  lru : Type;
  lru_new : nat → lru;
  lru_entries : lru → list (K * V);
  lru_cap : lru → nat;
  lru_get : K → lru → option V * lru;
  lru_put : K → V → lru → option V * lru;
  lru_push : K → V → lru → option (K * V) * lru;
  lru_pop : K → lru → option V * lru;
  (** A write through the reference [get_mut] returns. *)
  lru_modify : K → (V → V) → lru → lru;
  entries_new n : lru_entries (lru_new n) = [];
  cap_new n : lru_cap (lru_new n) = n;
  get_result k c : (lru_get k c).1 = assoc k (lru_entries c);
  entries_get k c : lru_entries (lru_get k c).2 = promote id k (lru_entries c);
  cap_get k c : lru_cap (lru_get k c).2 = lru_cap c;
  put_result k v c : (lru_put k v c).1 = assoc k (lru_entries c);
  entries_put k v c :
    lru_entries (lru_put k v c).2 = take (lru_cap c) ((k, v) :: without k (lru_entries c));
  cap_put k v c : lru_cap (lru_put k v c).2 = lru_cap c;
  push_result k v c : (lru_push k v c).1 = displaced k (lru_cap c) (lru_entries c);
  entries_push k v c :
    lru_entries (lru_push k v c).2 = take (lru_cap c) ((k, v) :: without k (lru_entries c));
  cap_push k v c : lru_cap (lru_push k v c).2 = lru_cap c;
  pop_result k c : (lru_pop k c).1 = assoc k (lru_entries c);
  entries_pop k c : lru_entries (lru_pop k c).2 = without k (lru_entries c);
  cap_pop k c : lru_cap (lru_pop k c).2 = lru_cap c;
  entries_modify k f c : lru_entries (lru_modify k f c) = promote f k (lru_entries c);
  cap_modify k f c : lru_cap (lru_modify k f c) = lru_cap c;
}.

(** [contains] and [len]. *)
Definition lru_contains `{LruCache K V} (k : K) (c : lru) : bool :=
  match assoc k (lru_entries c) with Some _ => true | None => false end.
Definition lru_len `{LruCache K V} (c : lru) : nat := length (lru_entries c).

(** The cache as a partial map. *)
Definition lru_view `{LruCache K V} (c : lru) (k : K) : option V := assoc k (lru_entries c).

(** No key twice, and no more entries than the capacity. *)
Definition lru_ok `{LruCache K V} (c : lru) : Prop :=
  NoDup (lru_entries c).*1 ∧ (lru_len c ≤ lru_cap c)%nat.

(** ** Lemmas: association lists *)

Section assoc_lemmas.
Context {K V : Type} `{EqDecision K}.
Implicit Types l : list (K * V).

Lemma assoc_without k k' l : assoc k' (without k l) = if decide (k' = k) then None else assoc k' l.
Proof.
  unfold without. induction l as [|[j v] l IH]; cbn [assoc]; [by case_decide|].
  rewrite filter_cons. cbn [fst].
  destruct (decide (j = k)) as [->|Hj].
  - rewrite decide_False by auto. rewrite IH. repeat case_decide; congruence.
  - rewrite decide_True by done. cbn [assoc]. rewrite IH. repeat case_decide; congruence.
Qed.

Lemma assoc_promote f k k' l :
  assoc k' (promote f k l) = if decide (k' = k) then f <$> assoc k l else assoc k' l.
Proof.
  unfold promote. destruct (assoc k l) as [v|] eqn:E; cbn [assoc].
  - rewrite assoc_without. by repeat case_decide.
  - case_decide; subst; by rewrite ?E.
Qed.

Lemma assoc_take n k v l : assoc k (take n l) = Some v → assoc k l = Some v.
Proof.
  revert n. induction l as [|[j w] l IH]; intros [|n]; cbn [take assoc]; try done.
  case_decide; [done|]. apply IH.
Qed.

Lemma assoc_Some_elem k v l : assoc k l = Some v → (k, v) ∈ l.
Proof.
  induction l as [|[j w] l IH]; cbn [assoc]; [done|].
  case_decide; [intros [= ->]; subst; left|intros; right; auto].
Qed.

Lemma assoc_None k l : assoc k l = None ↔ k ∉ l.*1.
Proof.
  induction l as [|[j w] l IH]; cbn [assoc fmap list_fmap fst].
  - split; [intros _; apply not_elem_of_nil|done].
  - rewrite not_elem_of_cons. case_decide; naive_solver.
Qed.

Lemma keys_without k l : (without k l).*1 = filter (λ j, j ≠ k) l.*1.
Proof.
  unfold without. induction l as [|[j w] l IH]; [done|]. cbn [fmap list_fmap fst].
  rewrite !filter_cons. cbn [fst]. case_decide; cbn [fmap list_fmap fst]; by rewrite IH.
Qed.

Lemma keys_without_notin k l : k ∉ (without k l).*1.
Proof. rewrite keys_without, list_elem_of_filter. tauto. Qed.

Lemma nodup_without k l : NoDup l.*1 → NoDup (without k l).*1.
Proof. rewrite keys_without. apply NoDup_filter. Qed.

Lemma without_notin k l : k ∉ l.*1 → without k l = l.
Proof.
  unfold without. induction l as [|[j w] l IH]; [done|]. cbn [fmap list_fmap fst].
  rewrite not_elem_of_cons. intros [Hj Hk]. rewrite filter_cons. cbn [fst].
  rewrite decide_True by auto. by rewrite IH.
Qed.

Lemma length_without k v l : NoDup l.*1 → assoc k l = Some v → S (length (without k l)) = length l.
Proof.
  induction l as [|[j w] l IH]; cbn [assoc fmap list_fmap fst]; [done|].
  rewrite NoDup_cons. intros [Hj Hnd]. unfold without. rewrite filter_cons. cbn [fst].
  case_decide; subst.
  - intros [= ->]. rewrite decide_False by auto. cbn [length].
    change (filter (λ p : K * V, p.1 ≠ j) l) with (without j l). by rewrite without_notin.
  - intros Hk. rewrite decide_True by auto. cbn [length]. f_equal. by apply IH.
Qed.

Lemma length_without_le k l : (length (without k l) ≤ length l)%nat.
Proof. unfold without. induction l as [|x l IH]; [done|]. rewrite filter_cons. case_decide; cbn [length]; lia. Qed.

Lemma nodup_promote f k l : NoDup l.*1 → NoDup (promote f k l).*1.
Proof.
  intros Hnd. unfold promote. destruct (assoc k l); [|done]. cbn [fmap list_fmap fst].
  constructor; [apply keys_without_notin|by apply nodup_without].
Qed.

Lemma length_promote f k l : NoDup l.*1 → length (promote f k l) = length l.
Proof.
  intros Hnd. unfold promote. destruct (assoc k l) eqn:E; [|done]. cbn [length].
  by eapply length_without.
Qed.

Lemma nodup_take n l : NoDup l.*1 → NoDup (take n l).*1.
Proof. rewrite <- (take_drop n l) at 1. rewrite fmap_app, NoDup_app. tauto. Qed.
End assoc_lemmas.

(** ** Lemmas: recency *)

(** Only keys of [T] were used since [k] was. *)
Definition recent {K V} (T : list K) (k : K) (v : V) (l : list (K * V)) : Prop :=
  ∃ pre post, l = pre ++ (k, v) :: post ∧ k ∉ pre.*1 ∧ pre.*1 ⊆ T.

Section recency.
Context {K V : Type} `{EqDecision K}.
Implicit Types (l : list (K * V)) (T : list K).

Lemma recent_assoc T k v l : recent T k v l → assoc k l = Some v.
Proof.
  intros (pre & post & -> & Hk & _). induction pre as [|[j w] pre IH]; cbn [app assoc].
  - by rewrite decide_True.
  - cbn [fmap list_fmap fst] in Hk. apply not_elem_of_cons in Hk as [Hne Hk].
    rewrite decide_False by done. by apply IH.
Qed.

Lemma recent_weaken T T' k v l : T ⊆ T' → recent T k v l → recent T' k v l.
Proof. intros HT (pre & post & -> & Hk & Hpre). exists pre, post. set_solver. Qed.

Lemma recent_without T j k v l : j ≠ k → recent T k v l → recent T k v (without j l).
Proof.
  intros Hj (pre & post & -> & Hk & Hpre). exists (without j pre), (without j post).
  unfold without. rewrite filter_app, filter_cons. cbn [fst]. rewrite decide_True by auto.
  split; [done|]. fold (without j pre). rewrite keys_without.
  split; intros; [rewrite list_elem_of_filter; tauto|]. intros x. rewrite list_elem_of_filter. set_solver.
Qed.

Lemma recent_cons T j w k v l : j ≠ k → recent T k v l → recent (j :: T) k v ((j, w) :: l).
Proof.
  intros Hj (pre & post & -> & Hk & Hpre). exists ((j, w) :: pre), post. cbn [fmap list_fmap fst].
  split; [done|]. split; [by apply not_elem_of_cons|]. set_solver.
Qed.

Lemma recent_promote T f j k v l : j ≠ k → recent T k v l → recent (j :: T) k v (promote f j l).
Proof.
  intros Hj Hr. unfold promote. destruct (assoc j l).
  - by apply recent_cons, recent_without.
  - eapply recent_weaken; [|done]. set_solver.
Qed.

Lemma recent_promote_same T f k v l : recent T k v l → recent [] k (f v) (promote f k l).
Proof.
  intros Hr. unfold promote. rewrite (recent_assoc _ _ _ _ Hr).
  exists [], (without k l). split; [done|]. cbn. split; [apply not_elem_of_nil|done].
Qed.

Lemma NoDup_subset_length (l T : list K) : NoDup l → l ⊆ T → (length l ≤ length (remove_dups T))%nat.
Proof.
  intros Hnd Hsub. apply submseteq_length, NoDup_submseteq; [done|].
  intros x Hx. apply elem_of_remove_dups. by apply Hsub.
Qed.

(** An entry survives while no more keys than the capacity were used. *)
Lemma recent_take T k v cap l : NoDup l.*1 → recent T k v l →
  (length (remove_dups (k :: T)) ≤ cap)%nat → recent T k v (take cap l).
Proof.
  intros Hnd (pre & post & -> & Hk & Hpre) Hcap. rewrite fmap_app in Hnd.
  apply NoDup_app in Hnd as (Hnd & _ & _).
  assert (length (k :: pre.*1) ≤ length (remove_dups (k :: T)))%nat as Hlen.
  { apply NoDup_subset_length; [by constructor|set_solver]. }
  cbn [length] in Hlen. rewrite length_fmap in Hlen.
  exists pre, (take (cap - S (length pre)) post). split; [|done].
  replace cap with (length pre + S (cap - S (length pre)))%nat at 1 by lia.
  rewrite take_app_add. done.
Qed.
End recency.

(** ** Lemmas: any cache *)

Section lru_lemmas.
Context `{LruCache K V}.
Implicit Types c : lru.

Lemma view_new n k : lru_view (lru_new n) k = None.
Proof. unfold lru_view. by rewrite entries_new. Qed.

Lemma view_get k c k' : lru_view (lru_get k c).2 k' = lru_view c k'.
Proof.
  unfold lru_view. rewrite entries_get, assoc_promote. case_decide; [subst|done].
  by destruct (assoc k _).
Qed.

Lemma view_modify f k c k' :
  lru_view (lru_modify k f c) k' = if decide (k' = k) then f <$> lru_view c k else lru_view c k'.
Proof. unfold lru_view. by rewrite entries_modify, assoc_promote. Qed.

Lemma view_pop k c k' :
  lru_view (lru_pop k c).2 k' = if decide (k' = k) then None else lru_view c k'.
Proof. unfold lru_view. by rewrite entries_pop, assoc_without. Qed.

Lemma view_put_same k v c : (0 < lru_cap c)%nat → lru_view (lru_put k v c).2 k = Some v.
Proof.
  intros Hcap. unfold lru_view. rewrite entries_put. destruct (lru_cap c); [lia|].
  cbn [take assoc]. by rewrite decide_True.
Qed.

(** Nothing appears by an insertion but the inserted entry. *)
Lemma view_put_Some k v c k' w :
  lru_view (lru_put k v c).2 k' = Some w →
  (k' = k ∧ w = v) ∨ (k' ≠ k ∧ lru_view c k' = Some w).
Proof.
  unfold lru_view. rewrite entries_put. intros Hw%assoc_take. cbn [assoc] in Hw.
  case_decide; [left; split; congruence|right]. rewrite assoc_without in Hw.
  rewrite decide_False in Hw by done. done.
Qed.

(** An insertion evicts only when the cache is full. *)
Lemma view_put_room k v c k' : lru_ok c → (lru_len c < lru_cap c)%nat → k' ≠ k →
  lru_view (lru_put k v c).2 k' = lru_view c k'.
Proof.
  unfold lru_view, lru_len. intros [Hnd _] Hroom Hk. rewrite entries_put.
  rewrite take_ge by (cbn [length]; pose proof (length_without_le k (lru_entries c)); lia).
  cbn [assoc]. rewrite decide_False by done. rewrite assoc_without. by rewrite decide_False.
Qed.

Lemma view_put_present k v w c k' : lru_ok c → lru_view c k = Some w → k' ≠ k →
  lru_view (lru_put k v c).2 k' = lru_view c k'.
Proof.
  unfold lru_view. intros [Hnd Hlen] Hw Hk. unfold lru_len in Hlen. rewrite entries_put.
  rewrite take_ge by (cbn [length]; rewrite (length_without k w) by done; lia).
  cbn [assoc]. rewrite decide_False by done. rewrite assoc_without. by rewrite decide_False.
Qed.

Lemma ok_new n : lru_ok (lru_new n).
Proof. unfold lru_ok, lru_len. rewrite entries_new. split; [constructor|cbn; lia]. Qed.

Lemma ok_get k c : lru_ok c → lru_ok (lru_get k c).2.
Proof.
  unfold lru_ok, lru_len. intros [Hnd Hlen]. rewrite entries_get, cap_get, length_promote by done.
  split; [by apply nodup_promote|done].
Qed.

Lemma ok_modify f k c : lru_ok c → lru_ok (lru_modify k f c).
Proof.
  unfold lru_ok, lru_len. intros [Hnd Hlen]. rewrite entries_modify, cap_modify, length_promote by done.
  split; [by apply nodup_promote|done].
Qed.

Lemma ok_pop k c : lru_ok c → lru_ok (lru_pop k c).2.
Proof.
  unfold lru_ok, lru_len. intros [Hnd Hlen]. rewrite entries_pop, cap_pop.
  split; [by apply nodup_without|]. pose proof (length_without_le k (lru_entries c)). lia.
Qed.

Lemma ok_put k v c : lru_ok c → lru_ok (lru_put k v c).2.
Proof.
  unfold lru_ok, lru_len. intros [Hnd Hlen]. rewrite entries_put, cap_put. split.
  - apply nodup_take. cbn [fmap list_fmap fst].
    constructor; [apply keys_without_notin|by apply nodup_without].
  - rewrite length_take. lia.
Qed.

(** [push] leaves the cache [put] leaves. *)
Lemma view_push k v c k' : lru_view (lru_push k v c).2 k' = lru_view (lru_put k v c).2 k'.
Proof. unfold lru_view. by rewrite entries_push, entries_put. Qed.

Lemma ok_push k v c : lru_ok c → lru_ok (lru_push k v c).2.
Proof.
  intros Hok%(ok_put k v). unfold lru_ok, lru_len in *. rewrite entries_push, cap_push.
  by rewrite entries_put, cap_put in Hok.
Qed.
End lru_lemmas.

(** ** An implementation: the entries and the capacity *)

Section list_lru.
Context {K V : Type} `{EqDecision K}.

Record ListLru := { ll_entries : list (K * V); ll_cap : nat }.

Definition ll_put (k : K) (v : V) (c : ListLru) : ListLru :=
  {| ll_entries := take (ll_cap c) ((k, v) :: without k (ll_entries c)); ll_cap := ll_cap c |}.

Definition ll_with (l : list (K * V)) (c : ListLru) : ListLru :=
  {| ll_entries := l; ll_cap := ll_cap c |}.

Program Definition list_lru : LruCache K V := {|
  lru := ListLru;
  lru_new n := {| ll_entries := []; ll_cap := n |};
  lru_entries := ll_entries;
  lru_cap := ll_cap;
  lru_get k c := (assoc k (ll_entries c), ll_with (promote id k (ll_entries c)) c);
  lru_put k v c := (assoc k (ll_entries c), ll_put k v c);
  lru_push k v c := (displaced k (ll_cap c) (ll_entries c), ll_put k v c);
  lru_pop k c := (assoc k (ll_entries c), ll_with (without k (ll_entries c)) c);
  lru_modify k f c := ll_with (promote f k (ll_entries c)) c;
|}.
Solve All Obligations with done.
End list_lru.
