(* ===== verification/Serde.v ===== *)
(** * Serde: the text [serde_json] prints for a value

    The crate is not part of the repository.  [SerdeJson] states what its
    documentation promises of [serde_json::to_string] for the scalars (compact
    JSON text: a literal, a number or a quoted string, so that one text is not
    the beginning of another up to a delimiter); [plain_serde] shows that the
    laws can be met. *)
From S2P Require Import Prelude Text Containers Values.
From Stdlib Require Import Ascii.

Local Open Scope Z_scope.

Definition is_scalar_json (v : Json) : bool :=
  match v with JArr _ | JObj _ => false | _ => true end.

(** What may follow a value inside a JSON text. *)
Definition json_end (s : string) : bool :=
  match s with
  | EmptyString => true
  | String c _ => bool_decide (c ∈ [","; "]"; "}"]%char)
  end.

(** The bytes of number texts. *)
Definition num_byte (c : ascii) : bool :=
  is_ascii_digit (byte_val c) || bool_decide (c ∈ ["."; "-"; "+"; "e"; "E"]%char).
Definition float_mark (c : ascii) : bool := bool_decide (c ∈ ["."; "e"; "E"]%char).
Definition num_head (l : list ascii) : bool :=
  match l with c :: _ => is_ascii_digit (byte_val c) || bool_decide (c = "-"%char) | [] => false end.

(** The text of a float: a number with a fraction or an exponent. *)
Definition float_text (s : string) : bool :=
  num_head (bytes s) && forallb num_byte (bytes s) && existsb float_mark (bytes s).

Definition scalar_ok (v : Json) : bool :=
  match v with JFloat t => float_text t | JArr _ | JObj _ => false | _ => true end.

Class SerdeJson := {
  serde_to_string : Json → string;
  scalar_prefix v w r s : scalar_ok v = true → scalar_ok w = true →
    json_end r = true → json_end s = true →
    serde_to_string v +:+ r = serde_to_string w +:+ s → v = w ∧ r = s;
  scalar_head v : scalar_ok v = true →
    ∃ a t, serde_to_string v = String a t ∧ a ∉ ["["; "{"; "]"; "}"; ","]%char;
}.

(** ** An implementation *)

Definition dquote : ascii := "034"%char.

(** The escapes of [serde_json] in a string. *)
Definition esc (c : ascii) : list ascii :=
  let n := byte_val c in
  if n =? 34 then ["\"; dquote]%char
  else if n =? 92 then ["\"; "\"]%char
  else if n =? 8 then ["\"; "b"]%char
  else if n =? 9 then ["\"; "t"]%char
  else if n =? 10 then ["\"; "n"]%char
  else if n =? 12 then ["\"; "f"]%char
  else if n =? 13 then ["\"; "r"]%char
  else if n <? 32 then ["\"; "u"; "0"; "0"; hex_digit (n / 16); hex_digit (n mod 16)]%char
  else [c].

Definition json_string (s : string) : string :=
  of_bytes (dquote :: (bytes s ≫= esc) ++ [dquote]).

Definition plain_scalar (v : Json) : string :=
  match v with
  | JNull => "null"
  | JBool true => "true"
  | JBool false => "false"
  | JInt z => show_i z
  | JFloat t => t
  | JStr s => json_string s
  | _ => ""
  end.

Fixpoint plain_to_string (v : Json) : string :=
  match v with
  | JArr l => "[" +:+ join "," (plain_to_string <$> l) +:+ "]"
  | JObj m => "{" +:+ join "," ((λ p, json_string p.1 +:+ ":" +:+ plain_to_string p.2) <$> m) +:+ "}"
  | _ => plain_scalar v
  end.

(** ** Lemmas: number texts *)

Lemma span_unique (P : ascii → bool) (a b r s : list ascii) :
  forallb P a = true → forallb P b = true →
  match r with c :: _ => P c = false | [] => True end →
  match s with c :: _ => P c = false | [] => True end →
  a ++ r = b ++ s → a = b ∧ r = s.
Proof.
  revert b. induction a as [|x a IH]; intros [|y b]; simpl; intros Ha Hb Hr Hs Heq; subst.
  - done.
  - apply andb_true_iff in Hb as [Hy _]. congruence.
  - apply andb_true_iff in Ha as [Hx _]. congruence.
  - apply andb_true_iff in Ha as [_ Ha], Hb as [_ Hb]. injection Heq as -> Heq.
    destruct (IH b) as [-> ->]; done.
Qed.

Lemma digit_char_byte d : 0 ≤ d < 10 → is_ascii_digit (byte_val (digit_char d)) = true.
Proof.
  intros Hd. unfold digit_char. rewrite byte_val_of by lia. unfold is_ascii_digit, c_in. lia.
Qed.

Lemma show_u_bytes n : 0 ≤ n →
  Forall (λ c, is_ascii_digit (byte_val c) = true) (bytes (show_u n)) ∧ bytes (show_u n) ≠ [].
Proof.
  intros Hn. rewrite bytes_show_u. split.
  - apply Forall_fmap, List.Forall_rev. destruct (digits_rev_spec n Hn) as [_ Hd].
    eapply Forall_impl; [exact Hd|]. intros d ?. by apply digit_char_byte.
  - intros Hnil. apply fmap_nil_inv in Hnil. apply (digits_rev_not_nil n Hn).
    by rewrite <- (rev_involutive (digits_rev n)), Hnil.
Qed.

Lemma show_i_inj m n : show_i m = show_i n → m = n.
Proof.
  intros Heq. set (w := 1 + Z.max (Z.abs m) (Z.abs n)).
  assert (2 ^ w = 2 * 2 ^ (w - 1)) as Hw.
  { replace w with (Z.succ (w - 1)) at 1 by lia. apply Z.pow_succ_r. lia. }
  assert (w - 1 < 2 ^ (w - 1)) as Hlt by (apply Z.pow_gt_lin_r; lia).
  pose proof (parse_int_show w m ltac:(lia)) as Hm. rewrite Heq, parse_int_show in Hm by lia. congruence.
Qed.

Definition int_byte (c : ascii) : bool := is_ascii_digit (byte_val c) || bool_decide (c = "-"%char).

Lemma show_i_bytes n : forallb int_byte (bytes (show_i n)) = true ∧ num_head (bytes (show_i n)) = true.
Proof.
  assert (∀ m, 0 ≤ m → forallb int_byte (bytes (show_u m)) = true ∧ num_head (bytes (show_u m)) = true) as Hu.
  { intros m Hm. destruct (show_u_bytes m Hm) as [Hd Hne]. split.
    - apply forallb_forall. intros c Hc%list_elem_of_In. rewrite Forall_forall in Hd.
      unfold int_byte. by rewrite Hd.
    - destruct (bytes (show_u m)) as [|c l]; [done|]. inversion Hd as [|? ? Hc]; subst.
      cbn. by rewrite Hc. }
  unfold show_i. destruct (Z.ltb_spec n 0); [|by apply Hu].
  destruct (Hu (- n)) as [Hb _]; [lia|]. split; [|done].
  change (bytes (String "-" (show_u (- n)))) with ("-"%char :: bytes (show_u (- n))).
  cbn [forallb]. by rewrite Hb.
Qed.

(** The number texts: an integer's or a float's. *)
Definition is_num (v : Json) : bool := match v with JInt _ | JFloat _ => true | _ => false end.

Lemma int_byte_num c : int_byte c = true → num_byte c = true.
Proof.
  unfold int_byte, num_byte. intros Hc. apply orb_true_iff in Hc as [->|Hc]; [done|].
  apply bool_decide_eq_true in Hc. by subst.
Qed.

Lemma num_text v : is_num v = true → scalar_ok v = true →
  forallb num_byte (bytes (plain_scalar v)) = true ∧ num_head (bytes (plain_scalar v)) = true.
Proof.
  destruct v as [| |z|t| | |]; try done; cbn [plain_scalar scalar_ok]; intros _ Hok.
  - destruct (show_i_bytes z) as [Hb Hh]. split; [|done]. apply forallb_forall. intros c Hc.
    rewrite forallb_forall in Hb. by apply int_byte_num, Hb.
  - unfold float_text in Hok. apply andb_true_iff in Hok as [[Hh Hb]%andb_true_iff _]. done.
Qed.

Lemma num_inj v w : is_num v = true → is_num w = true → scalar_ok v = true → scalar_ok w = true →
  plain_scalar v = plain_scalar w → v = w.
Proof.
  assert (∀ z t, float_text t = true → show_i z = t → False) as Hmix.
  { intros z t Ht <-. unfold float_text in Ht. apply andb_true_iff in Ht as [_ Hex].
    apply existsb_exists in Hex as (c & Hc & Hm). destruct (show_i_bytes z) as [Hb _].
    rewrite forallb_forall in Hb. specialize (Hb c Hc). unfold float_mark in Hm.
    apply bool_decide_eq_true in Hm. unfold int_byte in Hb.
    repeat (apply elem_of_cons in Hm as [->|Hm]; [by vm_compute in Hb|]). by apply elem_of_nil in Hm. }
  destruct v as [| |y|t| | |], w as [| |z|u| | |]; try done; cbn [plain_scalar scalar_ok];
    intros _ _ Hv Hw Heq.
  - f_equal. by apply show_i_inj.
  - exfalso. by eapply Hmix.
  - exfalso. symmetry in Heq. by eapply Hmix.
  - by subst.
Qed.

Lemma json_end_num s : json_end s = true →
  match bytes s with c :: _ => num_byte c = false | [] => True end.
Proof.
  destruct s as [|c s]; [done|]. cbn [json_end bytes String.list_ascii_of_string].
  intros Hc%bool_decide_eq_true.
  repeat (apply elem_of_cons in Hc as [->|Hc]; [by vm_compute|]). by apply elem_of_nil in Hc.
Qed.

(** ** Lemmas: quoted strings *)

(** No escape is the beginning of another character's, or a closing quote;
    checked for every pair of bytes. *)
Fixpoint is_prefix (l k : list ascii) : bool :=
  match l, k with
  | [], _ => true
  | a :: l', b :: k' => Ascii.eqb a b && is_prefix l' k'
  | _, [] => false
  end.

Definition all_bytes : list ascii := (λ n, byte_of (Z.of_nat n)) <$> seq 0 256.

Lemma all_bytes_in c : c ∈ all_bytes.
Proof.
  unfold all_bytes. apply list_elem_of_fmap. exists (Z.to_nat (byte_val c)).
  pose proof (byte_val_range c). rewrite Z2Nat.id by lia. rewrite byte_of_val.
  split; [done|]. apply elem_of_seq. lia.
Qed.

Lemma esc_table : forallb (λ c, forallb (λ d, Ascii.eqb c d || negb (is_prefix (esc c) (esc d))) all_bytes
                               && negb (is_prefix [dquote] (esc c)) && negb (bool_decide (esc c = []))) all_bytes = true.
Proof. vm_compute. reflexivity. Qed.

Lemma is_prefix_app l k x y : l ++ x = k ++ y → is_prefix l k = true ∨ is_prefix k l = true.
Proof.
  revert k. induction l as [|a l IH]; intros [|b k]; cbn; auto.
  intros [= -> Heq]. rewrite Ascii.eqb_refl. by apply IH.
Qed.

Lemma esc_row c : forallb (λ d, Ascii.eqb c d || negb (is_prefix (esc c) (esc d))) all_bytes = true
  ∧ is_prefix [dquote] (esc c) = false ∧ esc c ≠ [].
Proof.
  pose proof esc_table as Ht. rewrite forallb_forall in Ht.
  specialize (Ht c (proj1 (list_elem_of_In _ _) (all_bytes_in c))).
  apply andb_true_iff in Ht as [[H1 H2]%andb_true_iff H3]. split; [done|].
  split; [by apply negb_true_iff|]. apply negb_true_iff, bool_decide_eq_false in H3. done.
Qed.

Lemma esc_prefix c d : is_prefix (esc c) (esc d) = true → c = d.
Proof.
  intros Hp. destruct (esc_row c) as [Hr _]. rewrite forallb_forall in Hr.
  specialize (Hr d (proj1 (list_elem_of_In _ _) (all_bytes_in d))).
  rewrite Hp, orb_false_r in Hr. by apply Ascii.eqb_eq.
Qed.

Lemma esc_not_quote c l x : esc c ++ l = dquote :: x → False.
Proof.
  destruct (esc_row c) as (_ & Hq & Hne). destruct (esc c) as [|a k]; [done|].
  intros [= -> _]. cbn in Hq. done.
Qed.

Lemma esc_string_inj l k r s :
  (l ≫= esc) ++ dquote :: r = (k ≫= esc) ++ dquote :: s → l = k ∧ r = s.
Proof.
  revert k. induction l as [|c l IH]; intros [|d k]; cbn [mbind list_bind].
  - intros [= ->]. done.
  - intros Heq. symmetry in Heq. cbn in Heq. rewrite <- app_assoc in Heq. by apply esc_not_quote in Heq.
  - intros Heq. cbn in Heq. rewrite <- app_assoc in Heq. by apply esc_not_quote in Heq.
  - rewrite <- !app_assoc. intros Heq. assert (c = d) as <-.
    { destruct (is_prefix_app _ _ _ _ Heq) as [Hp|Hp]; apply esc_prefix in Hp; congruence. }
    apply app_inv_head in Heq. destruct (IH k Heq) as [-> ->]. done.
Qed.

(** ** Lemmas: the implementation meets the interface *)

Lemma json_string_bytes s : bytes (json_string s) = dquote :: (bytes s ≫= esc) ++ [dquote].
Proof. unfold json_string. by rewrite bytes_of_bytes. Qed.

(** The first byte tells the kind. *)
Definition kind_of (v : Json) : nat :=
  match v with JNull => 0 | JBool true => 1 | JBool false => 2 | JStr _ => 3 | _ => 4 end.
Definition kind_byte (c : ascii) : nat :=
  if bool_decide (c = "n"%char) then 0 else if bool_decide (c = "t"%char) then 1
  else if bool_decide (c = "f"%char) then 2 else if bool_decide (c = dquote) then 3 else 4.

Lemma num_head_kind l : num_head l = true →
  ∃ c k, l = c :: k ∧ kind_byte c = 4%nat ∧ c ∉ ["["; "{"; "]"; "}"; ","]%char.
Proof.
  destruct l as [|c k]; [done|]. cbn [num_head]. intros Hc. exists c, k. split; [done|].
  assert (∀ d, is_ascii_digit (byte_val d) || bool_decide (d = "-"%char) = false → c ≠ d) as Hne
    by (intros d Hd ->; congruence).
  split.
  - unfold kind_byte. rewrite !bool_decide_eq_false_2; [done|..]; by apply Hne.
  - rewrite !not_elem_of_cons. repeat split; try (by apply Hne). apply not_elem_of_nil.
Qed.

Lemma plain_scalar_head v : scalar_ok v = true →
  ∃ c k, bytes (plain_scalar v) = c :: k ∧ kind_byte c = kind_of v ∧ c ∉ ["["; "{"; "]"; "}"; ","]%char.
Proof.
  intros Hok. destruct (is_num v) eqn:Hn.
  - destruct (num_text v Hn Hok) as [_ Hh]. apply num_head_kind in Hh as (c & k & -> & Hk & Hin).
    exists c, k. split; [done|]. split; [|done]. by destruct v.
  - destruct v as [|[]| | |s| |]; try done; try (eexists _, _; split; [reflexivity|]; split; [reflexivity|];
      by apply (bool_decide_unpack _)).
Qed.

Lemma plain_scalar_prefix v w r s : scalar_ok v = true → scalar_ok w = true →
  json_end r = true → json_end s = true →
  bytes (plain_scalar v) ++ bytes r = bytes (plain_scalar w) ++ bytes s → v = w ∧ r = s.
Proof.
  intros Hv Hw Hr Hs Heq.
  assert (kind_of v = kind_of w) as Hk.
  { destruct (plain_scalar_head v Hv) as (c & k & Hc & <- & _), (plain_scalar_head w Hw) as (d & m & Hd & <- & _).
    rewrite Hc, Hd in Heq. by injection Heq as -> _. }
  destruct (is_num v) eqn:Hnv.
  - assert (is_num w = true) as Hnw by (destruct v as [|[]| | | | |], w as [|[]| | | | |]; done).
    destruct (span_unique num_byte (bytes (plain_scalar v)) (bytes (plain_scalar w)) (bytes r) (bytes s))
      as [Ht Hrs]; [by apply num_text|by apply num_text|by apply json_end_num|by apply json_end_num|done|].
    split; [apply num_inj; try done; by apply bytes_inj|by apply bytes_inj].
  - destruct v as [|[]| | |x| |], w as [|[]| | |y| |]; try done;
      try (split; [done|]; cbn in Heq; apply bytes_inj; congruence).
    cbn [plain_scalar] in Heq. rewrite !json_string_bytes in Heq. cbn [app] in Heq.
    injection Heq as Heq. rewrite <- !app_assoc in Heq. cbn [app] in Heq.
    apply esc_string_inj in Heq as [Hx Hrs]. split; [f_equal|]; by apply bytes_inj.
Qed.

Lemma plain_to_string_scalar v : scalar_ok v = true → plain_to_string v = plain_scalar v.
Proof. by destruct v. Qed.

Program Definition plain_serde : SerdeJson := {| serde_to_string := plain_to_string |}.
Next Obligation.
  intros v w r s Hv Hw Hr Hs Heq. rewrite !plain_to_string_scalar in Heq by done.
  apply (f_equal bytes) in Heq. rewrite !bytes_app in Heq. by apply plain_scalar_prefix.
Qed.
Next Obligation.
  intros v Hv. rewrite plain_to_string_scalar by done.
  destruct (plain_scalar_head v Hv) as (c & k & Hc & _ & Hin). exists c, (of_bytes k).
  split; [|done]. apply bytes_inj. rewrite Hc. cbn. by rewrite String.list_ascii_of_string_of_list_ascii.
Qed.
