(* ===== verification/F64.v ===== *)
(** * F64: [f64] arithmetic

    [f64] is the binary64 format of IEEE 754: the standard library's executable
    model [SpecFloat] at precision 53, exponent bound 1024, with the
    conversions of Rust ([as] saturates, [as_secs_f64], [floor], [ceil]).  The
    lemmas say that on integers below [2^53] the operations the rate limiter
    uses are exact. *)
From S2P Require Import Prelude.
From Stdlib Require Import SpecFloat.

Local Open Scope Z_scope.

Definition f64 : Type := spec_float.

(** [n as f64]. *)
Definition of_Z (n : Z) : f64 := binary_normalize 53 1024 n 0 false.

Definition f_add (x y : f64) : f64 := SFadd 53 1024 x y.
Definition f_sub (x y : f64) : f64 := SFsub 53 1024 x y.
Definition f_mul (x y : f64) : f64 := SFmul 53 1024 x y.
Definition f_div (x y : f64) : f64 := SFdiv 53 1024 x y.

(** [x.min(y)] of two numbers (a NaN is ignored). *)
Definition f_min (x y : f64) : f64 :=
  match x, y with
  | S754_nan, _ => y
  | _, S754_nan => x
  | _, _ => if SFltb x y then x else y
  end.

(** The integer part towards minus infinity of a finite number. *)
Definition floor_Z (x : f64) : Z :=
  match x with
  | S754_finite s m e => Z.shiftl (cond_Zopp s (Zpos m)) e
  | _ => 0
  end.

Definition saturate (lo hi z : Z) : Z := Z.max lo (Z.min hi z).

(** [x.floor() as i32] and [x.ceil() as u64]. *)
Definition floor_i32 (x : f64) : Z :=
  match x with
  | S754_infinity s => if s then - 2 ^ 31 else 2 ^ 31 - 1
  | _ => saturate (- 2 ^ 31) (2 ^ 31 - 1) (floor_Z x)
  end.
Definition ceil_u64 (x : f64) : Z :=
  match x with
  | S754_infinity s => if s then 0 else 2 ^ 64 - 1
  | _ => saturate 0 (2 ^ 64 - 1) (- floor_Z (SFopp x))
  end.

(** [Duration::as_secs_f64] of a duration in nanoseconds. *)
Definition as_secs_f64 (ns : Z) : f64 :=
  f_add (of_Z (ns / 10 ^ 9)) (f_div (of_Z (ns mod 10 ^ 9)) (of_Z (10 ^ 9))).

(** ** Lemmas: digits and shifts *)

Lemma digits2_pos_bounds p :
  2 ^ (Zpos (digits2_pos p) - 1) ≤ Zpos p < 2 ^ Zpos (digits2_pos p).
Proof.
  induction p as [p IH|p IH|]; cbn [digits2_pos]; [| |by vm_compute].
  all: rewrite Pos2Z.inj_succ; replace (Z.succ (Zpos (digits2_pos p)) - 1) with (Zpos (digits2_pos p)) by lia;
    rewrite Z.pow_succ_r by lia; replace (Zpos (digits2_pos p)) with (Z.succ (Zpos (digits2_pos p) - 1)) at 1 by lia;
    rewrite Z.pow_succ_r by lia; lia.
Qed.

Lemma digits_unique n d : 0 < d → 2 ^ (d - 1) ≤ n < 2 ^ d → Zdigits2 n = d.
Proof.
  intros Hd Hn. assert (0 < 2 ^ (d - 1)) by (apply Z.pow_pos_nonneg; lia).
  destruct n as [|p|p]; [lia| |lia]. cbn [Zdigits2]. pose proof (digits2_pos_bounds p) as Hp.
  assert (Zpos (digits2_pos p) - 1 < d) by (apply (Z.pow_lt_mono_r_iff 2); lia).
  assert (d - 1 < Zpos (digits2_pos p)) by (apply (Z.pow_lt_mono_r_iff 2); lia).
  lia.
Qed.

Lemma digits_range n : 0 < n → 0 < Zdigits2 n ∧ 2 ^ (Zdigits2 n - 1) ≤ n < 2 ^ Zdigits2 n.
Proof. destruct n as [|p|p]; [lia| |lia]. intros _. split; [done|]. apply digits2_pos_bounds. Qed.

Lemma digits_shift n k : 0 < n → 0 ≤ k → Zdigits2 (n * 2 ^ k) = Zdigits2 n + k.
Proof.
  intros Hn Hk. destruct (digits_range n Hn) as [Hd Hr]. apply digits_unique; [lia|].
  replace (Zdigits2 n + k - 1) with ((Zdigits2 n - 1) + k) by lia. rewrite !Z.pow_add_r by lia.
  assert (0 < 2 ^ k) by (apply Z.pow_pos_nonneg; lia). nia.
Qed.

Lemma digits_le n d : 0 < n → 0 ≤ d → n < 2 ^ d → Zdigits2 n ≤ d.
Proof.
  intros Hn Hd Hlt. destruct (digits_range n Hn) as [? Hr].
  assert (Zdigits2 n - 1 < d); [|lia]. apply (Z.pow_lt_mono_r_iff 2); lia.
Qed.

Lemma iter_xO m p : Zpos (Pos.iter xO m p) = Zpos m * 2 ^ Zpos p.
Proof.
  revert m. induction p as [|p IH] using Pos.peano_ind; intros m.
  - cbn. lia.
  - rewrite Pos.iter_succ, Pos2Z.inj_succ, Z.pow_succ_r by lia.
    change (Zpos (xO (Pos.iter xO m p))) with (2 * Zpos (Pos.iter xO m p)). rewrite IH. lia.
Qed.

Lemma shl_align_eq m e e' : e' ≤ e →
  Zpos (fst (shl_align m e e')) = Zpos m * 2 ^ (e - e') ∧ snd (shl_align m e e') = e'.
Proof.
  intros He. unfold shl_align. destruct (e' - e) as [|p|p] eqn:E; [|lia|].
  - replace (e - e') with 0 by lia. cbn. lia.
  - cbn [fst snd]. rewrite iter_xO. replace (e - e') with (Zpos p) by lia. done.
Qed.

Lemma shl_align_id m e e' : e ≤ e' → shl_align m e e' = (m, e).
Proof. intros He. unfold shl_align. destruct (e' - e) eqn:E; [done..|lia]. Qed.

(** Shifting out zeros loses nothing. *)
Lemma shr_zeros p m :
  iter_pos shr_1 p {| shr_m := m * 2 ^ Zpos p; shr_r := false; shr_s := false |}
  = {| shr_m := m; shr_r := false; shr_s := false |}.
Proof.
  assert (∀ k, shr_1 {| shr_m := 2 * k; shr_r := false; shr_s := false |}
               = {| shr_m := k; shr_r := false; shr_s := false |}) as H1 by by intros [|k|k].
  revert m. induction p as [p IH|p IH|]; intros m; cbn [iter_pos].
  - replace (m * 2 ^ Zpos (xI p)) with (2 * ((m * 2 ^ Zpos p) * 2 ^ Zpos p)).
    + rewrite H1. by rewrite !IH.
    + replace (Zpos (xI p)) with (1 + Zpos p + Zpos p) by lia. rewrite !Z.pow_add_r by lia. lia.
  - replace (m * 2 ^ Zpos (xO p)) with ((m * 2 ^ Zpos p) * 2 ^ Zpos p).
    + by rewrite !IH.
    + replace (Zpos (xO p)) with (Zpos p + Zpos p) by lia. rewrite !Z.pow_add_r by lia. lia.
  - replace (m * 2 ^ 1) with (2 * m) by lia. apply H1.
Qed.

(** ** Lemmas: integers are exact *)

(** The float of an integer [0 < n < 2^53]: a 53-bit mantissa. *)
Definition canon (n : Z) : f64 :=
  S754_finite false (Z.to_pos (n * 2 ^ (53 - Zdigits2 n))) (Zdigits2 n - 53).

Definition small (n : Z) : Prop := 0 < n < 2 ^ 53.

Lemma small_digits n : small n → 0 < Zdigits2 n ≤ 53.
Proof. intros [Hn Hlt]. split; [by apply digits_range|apply digits_le; lia]. Qed.

Lemma canon_mantissa n : small n →
  Zpos (Z.to_pos (n * 2 ^ (53 - Zdigits2 n))) = n * 2 ^ (53 - Zdigits2 n)
  ∧ Zdigits2 (n * 2 ^ (53 - Zdigits2 n)) = 53.
Proof.
  intros Hn. pose proof (small_digits n Hn). destruct Hn as [Hn _].
  assert (0 < 2 ^ (53 - Zdigits2 n)) by (apply Z.pow_pos_nonneg; lia).
  split; [apply Z2Pos.id; nia|]. rewrite digits_shift by lia. lia.
Qed.

Lemma shr_fexp_exact m k e : 0 < m → 0 ≤ k → fexp 53 1024 (Zdigits2 m + k + e) = e + k →
  shr_fexp 53 1024 (m * 2 ^ k) e loc_Exact
  = ({| shr_m := m; shr_r := false; shr_s := false |}, e + k).
Proof.
  intros Hm Hk Hf. unfold shr_fexp. rewrite digits_shift, Hf by lia.
  replace (e + k - e) with k by lia. cbn [shr_record_of_loc]. unfold shr.
  destruct k as [|p|p]; [|by rewrite shr_zeros|lia].
  rewrite Z.pow_0_r, Z.mul_1_r, Z.add_0_r. done.
Qed.

Lemma round_aux_exact m k e : 0 < m → 0 ≤ k → Zdigits2 m = 53 → - 1074 ≤ e + k ≤ 971 →
  binary_round_aux 53 1024 false (m * 2 ^ k) e loc_Exact = S754_finite false (Z.to_pos m) (e + k).
Proof.
  intros Hm Hk Hd He. unfold binary_round_aux.
  assert (∀ j, j = e + k → fexp 53 1024 (53 + j) = e + k) as Hf
    by (intros j ->; unfold fexp, emin; lia).
  rewrite shr_fexp_exact by (try lia; rewrite Hd; replace (53 + k + e) with (53 + (e + k)) by lia; by apply Hf).
  cbn [shr_m loc_of_shr_record round_nearest_even].
  replace m with (m * 2 ^ 0) at 1 by lia.
  rewrite shr_fexp_exact by (try lia; rewrite Hd, Z.add_0_r, Z.add_0_r; by apply Hf).
  cbn [shr_m]. destruct m as [|p|p]; [lia| |lia]. rewrite Z.add_0_r.
  assert (e + k <=? 1024 - 53 = true) as -> by lia. done.
Qed.

Lemma round_exact n j p : small n → 0 ≤ j → Zpos p = n * 2 ^ j →
  binary_round 53 1024 false p (- j) = canon n.
Proof.
  intros Hn Hj Hp. pose proof (small_digits n Hn) as Hd.
  destruct (canon_mantissa n Hn) as [Hm Hdm]. unfold binary_round.
  assert (Zpos (digits2_pos p) = Zdigits2 n + j) as Hdp.
  { change (Zdigits2 (Zpos p) = Zdigits2 n + j). rewrite Hp. apply digits_shift; [by destruct Hn|done]. }
  rewrite Hdp.
  assert (fexp 53 1024 (Zdigits2 n + j + - j) = Zdigits2 n - 53) as -> by (unfold fexp, emin; lia).
  set (m := n * 2 ^ (53 - Zdigits2 n)) in *. assert (0 < m) by lia.
  destruct (Z.le_ge_cases (Zdigits2 n - 53) (- j)) as [Hle|Hge].
  - destruct (shl_align_eq p (- j) (Zdigits2 n - 53) Hle) as [H1 H2].
    destruct (shl_align p (- j) (Zdigits2 n - 53)) as [mz ez]. cbn [fst snd] in H1, H2. subst ez.
    assert (Zpos mz = m * 2 ^ 0) as ->.
    { rewrite H1, Hp. unfold m. rewrite Z.pow_0_r, Z.mul_1_r, <- Z.mul_assoc, <- Z.pow_add_r by lia.
      f_equal. f_equal. lia. }
    rewrite round_aux_exact by lia. by rewrite Z.add_0_r.
  - rewrite shl_align_id by lia. rewrite Hp.
    replace (n * 2 ^ j) with (m * 2 ^ (j - (53 - Zdigits2 n))).
    + rewrite round_aux_exact by lia. unfold canon. f_equal. lia.
    + unfold m. rewrite <- Z.mul_assoc, <- Z.pow_add_r by lia. f_equal. f_equal. lia.
Qed.

Lemma of_Z_canon n : small n → of_Z n = canon n.
Proof.
  intros Hn. unfold of_Z. destruct n as [|p|p]; [destruct Hn; lia| |destruct Hn; lia].
  cbn [binary_normalize]. change 0 with (- 0). apply round_exact; [done|lia|lia].
Qed.

Lemma of_Z_0 : of_Z 0 = S754_zero false.
Proof. done. Qed.

(** [n - 1] of a positive integer is exact. *)
Lemma sub_one n : small n → f_sub (of_Z n) (of_Z 1) = of_Z (n - 1).
Proof.
  intros Hn. pose proof (small_digits n Hn) as Hd. destruct (canon_mantissa n Hn) as [Hm _].
  rewrite (of_Z_canon n) by done. unfold f_sub, canon. change (of_Z 1) with (S754_finite false (Z.to_pos (2 ^ 52)) (- 52)).
  cbn [SFsub cond_Zopp]. replace (Z.min (Zdigits2 n - 53) (- 52)) with (- 52) by lia.
  destruct (shl_align_eq (Z.to_pos (n * 2 ^ (53 - Zdigits2 n))) (Zdigits2 n - 53) (- 52)) as [-> _]; [lia|].
  rewrite Hm. destruct (shl_align_eq (Z.to_pos (2 ^ 52)) (- 52) (- 52)) as [-> _]; [lia|].
  rewrite Z2Pos.id by lia. rewrite <- Z.mul_assoc, <- Z.pow_add_r by lia.
  replace (53 - Zdigits2 n + (Zdigits2 n - 53 - - 52)) with 52 by lia.
  replace (n * 2 ^ 52 - 2 ^ 52 * 2 ^ (- 52 - - 52)) with ((n - 1) * 2 ^ 52) by lia.
  destruct (decide (n = 1)) as [->|Hne]; [done|].
  assert (small (n - 1)) as Hn' by (destruct Hn; split; lia).
  rewrite (of_Z_canon (n - 1)) by done.
  destruct ((n - 1) * 2 ^ 52) as [|p|p] eqn:E; [destruct Hn'; lia| |destruct Hn'; lia].
  cbn [binary_normalize]. apply (round_exact (n - 1) 52); [done|lia|by rewrite E].
Qed.

Lemma canon_compare a b : small a → small b → SFcompare (canon a) (canon b) = Some (a ?= b).
Proof.
  intros Ha Hb. pose proof (small_digits a Ha) as Hda. pose proof (small_digits b Hb) as Hdb.
  destruct (canon_mantissa a Ha) as [Hma _], (canon_mantissa b Hb) as [Hmb _].
  destruct Ha as [Ha _], Hb as [Hb _].
  destruct (digits_range a Ha) as [_ Hra], (digits_range b Hb) as [_ Hrb].
  unfold canon. cbn [SFcompare]. f_equal.
  assert (∀ x y, Zdigits2 x < Zdigits2 y → 0 < Zdigits2 x → x < 2 ^ Zdigits2 x → 2 ^ (Zdigits2 y - 1) ≤ y → x < y) as Hlt.
  { intros x y Hxy Hx0 Hx Hy. assert (2 ^ Zdigits2 x ≤ 2 ^ (Zdigits2 y - 1)) by (apply Z.pow_le_mono_r; lia). lia. }
  destruct (Z.compare_spec (Zdigits2 a - 53) (Zdigits2 b - 53)) as [Heq|Hab|Hba].
  - assert (Zdigits2 a = Zdigits2 b) as Hd by lia. rewrite Hd in Hma |- *.
    change (Pos.compare_cont Eq ?p ?q) with (Zpos p ?= Zpos q). rewrite Hma, Hmb. symmetry. apply Zmult_compare_compat_r.
    apply Z.lt_gt, Z.pow_pos_nonneg; lia.
  - symmetry. apply Z.compare_lt_iff. apply Hlt; lia.
  - symmetry. apply Z.compare_gt_iff. apply Hlt; lia.
Qed.

Lemma of_Z_leb a b : small a → small b → SFleb (of_Z a) (of_Z b) = (a <=? b).
Proof.
  intros Ha Hb. rewrite !of_Z_canon by done. unfold SFleb. rewrite canon_compare by done.
  unfold Z.leb. by destruct (a ?= b).
Qed.

Lemma of_Z_min a b : small a → small b → f_min (of_Z a) (of_Z b) = of_Z (Z.min a b).
Proof.
  intros Ha Hb. rewrite (of_Z_canon a), (of_Z_canon b) by done. unfold f_min, SFltb.
  change (match canon a with S754_nan => canon b | _ => match canon b with S754_nan => canon a
          | _ => if match SFcompare (canon a) (canon b) with Some Lt => true | _ => false end
                 then canon a else canon b end end = of_Z (Z.min a b)).
  cbn [canon]. fold (canon a). fold (canon b). rewrite canon_compare by done.
  unfold Z.min. destruct (Z.compare_spec a b); subst; by rewrite of_Z_canon.
Qed.

Lemma floor_of_Z n : 0 ≤ n < 2 ^ 31 → floor_i32 (of_Z n) = n.
Proof.
  intros Hn. destruct (decide (n = 0)) as [->|Hne]; [done|].
  assert (small n) as Hs by (split; lia). pose proof (small_digits n Hs) as Hd.
  rewrite of_Z_canon by done. unfold canon, floor_i32, floor_Z. cbn [cond_Zopp].
  destruct (canon_mantissa n Hs) as [-> _].
  replace (Zdigits2 n - 53) with (- (53 - Zdigits2 n)) by lia.
  rewrite Z.shiftl_opp_r, Z.shiftr_div_pow2 by lia.
  rewrite Z.div_mul by (apply Z.pow_nonzero; lia). unfold saturate. lia.
Qed.

(** ** Lemmas: quotients of integers are finite *)

Definition finite_nonneg (x : f64) : Prop :=
  match x with S754_zero s | S754_finite s _ _ => s = false | _ => False end.

Lemma shr_1_bound r : 0 ≤ shr_m r → 0 ≤ shr_m (shr_1 r) ≤ shr_m r.
Proof. destruct r as [[|[p|p|]|p] rb sb]; cbn; lia. Qed.

Lemma iter_shr_bound p r : 0 ≤ shr_m r → 0 ≤ shr_m (iter_pos shr_1 p r) ≤ shr_m r.
Proof.
  revert r. induction p as [p IH|p IH|]; intros r Hr; cbn [iter_pos].
  - pose proof (shr_1_bound r Hr). pose proof (IH (shr_1 r)). pose proof (IH (iter_pos shr_1 p (shr_1 r))). lia.
  - pose proof (IH r). pose proof (IH (iter_pos shr_1 p r)). lia.
  - by apply shr_1_bound.
Qed.

Lemma shr_fexp_bound m e l : 0 ≤ m →
  0 ≤ shr_m (shr_fexp 53 1024 m e l).1 ≤ m
  ∧ (shr_fexp 53 1024 m e l).2 = Z.max e (fexp 53 1024 (Zdigits2 m + e)).
Proof.
  intros Hm. unfold shr_fexp, shr.
  assert (shr_m (shr_record_of_loc m l) = m) as Hrec by by destruct l as [|[]].
  set (d := fexp 53 1024 (Zdigits2 m + e)). destruct (d - e) as [|p|p] eqn:E; cbn [fst snd].
  - rewrite Hrec. lia.
  - pose proof (iter_shr_bound p (shr_record_of_loc m l)) as Hb. rewrite Hrec in Hb. lia.
  - rewrite Hrec. lia.
Qed.

Lemma digits_nonneg_le n d : 0 ≤ n → 0 ≤ d → n < 2 ^ d → Zdigits2 n ≤ d.
Proof. intros Hn Hd Hlt. destruct (decide (n = 0)) as [->|]; [done|]. apply digits_le; lia. Qed.

Lemma round_aux_finite q e l : 0 ≤ q < 2 ^ 99 → e ≤ 100 →
  finite_nonneg (binary_round_aux 53 1024 false q e l).
Proof.
  intros Hq He. unfold binary_round_aux.
  destruct (shr_fexp_bound q e l) as [Hm1 He1]; [lia|].
  destruct (shr_fexp 53 1024 q e l) as [r1 e1]. cbn [fst snd] in Hm1, He1.
  set (m := round_nearest_even (shr_m r1) (loc_of_shr_record r1)).
  assert (0 ≤ m < 2 ^ 100) as Hm.
  { assert (m = shr_m r1 ∨ m = shr_m r1 + 1) as [->| ->]; [|lia|lia].
    unfold m, round_nearest_even. destruct (loc_of_shr_record r1) as [|[]]; auto. destruct (Z.even _); auto. }
  destruct (shr_fexp_bound m e1 loc_Exact) as [Hm2 He2]; [lia|].
  destruct (shr_fexp 53 1024 m e1 loc_Exact) as [r2 e2]. cbn [fst snd] in Hm2, He2.
  assert (Zdigits2 q ≤ 99) by (apply digits_nonneg_le; lia).
  assert (Zdigits2 m ≤ 100) by (apply digits_nonneg_le; lia).
  unfold fexp, emin in *. destruct (shr_m r2) as [|p|p]; [done| |lia].
  assert (e2 <=? 1024 - 53 = true) as -> by lia. done.
Qed.

Lemma div_finite a b : small a → small b → finite_nonneg (f_div (of_Z a) (of_Z b)).
Proof.
  intros Ha Hb. pose proof (small_digits a Ha) as Hda. pose proof (small_digits b Hb) as Hdb.
  destruct (canon_mantissa a Ha) as [Hma Hdma], (canon_mantissa b Hb) as [Hmb Hdmb].
  rewrite !of_Z_canon by done. unfold f_div, canon, SFdiv, SFdiv_core_binary. rewrite Hma, Hmb, Hdma, Hdmb.
  set (ma := a * 2 ^ (53 - Zdigits2 a)) in *. set (mb := b * 2 ^ (53 - Zdigits2 b)) in *.
  set (da := Zdigits2 a) in *. set (db := Zdigits2 b) in *.
  replace (Z.min (fexp 53 1024 (53 + (da - 53) - (53 + (db - 53)))) (da - 53 - (db - 53))) with (da - db - 53)
    by (unfold fexp, emin; lia).
  replace (da - 53 - (db - 53) - (da - db - 53)) with 53 by lia.
  rewrite Z.shiftl_mul_pow2 by lia.
  assert (0 < ma < 2 ^ 53) as Hra by (split; [lia|]; rewrite <- Hdma; apply digits_range; lia).
  assert (2 ^ 52 ≤ mb) as Hrb.
  { replace 52 with (Zdigits2 mb - 1) by lia. apply digits_range. lia. }
  pose proof (Z_div_mod (ma * 2 ^ 53) mb ltac:(lia)) as Hdiv.
  destruct (Z.div_eucl (ma * 2 ^ 53) mb) as [q r]. destruct Hdiv as [Hq Hr].
  cbn [xorb]. apply round_aux_finite; [|lia].
  assert (0 ≤ q) by nia. split; [done|]. nia.
Qed.

Lemma zero_times x : finite_nonneg x → f_mul (S754_zero false) x = S754_zero false.
Proof. by destruct x as [s|s| |s m e]; try done; intros ->. Qed.
