(* ===== verification/Instances.v ===== *)
(** * Instances: a concrete model of the external Stellar functions

    The theorems about decoding and encoding hold for every [Stellar]; this
    file builds one, so that the hypotheses the class states are seen to hold
    together and the witnesses have something to compute with.  A strkey is
    rendered as its version letter followed by the payload in hex. *)
From S2P Require Import Prelude Text Containers Values.
From Stdlib Require Import Ascii.
From stdpp Require Import countable.

Local Open Scope Z_scope.

(** ** Hex *)

Definition unhex_digit (a : ascii) : option Z :=
  let x := byte_val a in
  if (48 <=? x) && (x <=? 57) then Some (x - 48)
  else if (97 <=? x) && (x <=? 102) then Some (x - 87)
  else None.

Fixpoint unhex (l : list ascii) : option (list ascii) :=
  match l with
  | [] => Some []
  | [_] => None
  | a :: b :: l' =>
      match unhex_digit a, unhex_digit b, unhex l' with
      | Some x, Some y, Some r => Some (byte_of (16 * x + y) :: r)
      | _, _, _ => None
      end
  end.

Lemma unhex_hex_digit d : 0 ≤ d < 16 → unhex_digit (hex_digit d) = Some d.
Proof.
  intros Hd. unfold hex_digit, unhex_digit. destruct (Z.ltb_spec d 10);
    rewrite byte_val_of by lia; ztest; f_equal; lia.
Qed.

Lemma unhex_hex_string l : unhex (bytes (hex_string l)) = Some l.
Proof.
  unfold hex_string. rewrite bytes_of_bytes.
  induction l as [|a l IH]; [done|]. rewrite bind_cons. cbn [app unhex].
  pose proof (byte_val_range a).
  rewrite !unhex_hex_digit by zdiv. rewrite IH.
  replace (16 * (byte_val a / 16) + byte_val a mod 16) with (byte_val a) by zdiv.
  by rewrite byte_of_val.
Qed.

(** ** Strkeys *)

Definition sample_to_string (k : Strkey) : string :=
  match k with
  | SkPublicKeyEd25519 p => String "G" (hex_string p)
  | SkContract p => String "C" (hex_string p)
  | SkMuxedAccountEd25519 i p => String "M" (show_u (wrap 64 i) +:+ String "." (hex_string p))
  | SkClaimableBalanceV0 p => String "B" (hex_string p)
  | SkLiquidityPool p => String "L" (hex_string p)
  | SkOther _ p => String "X" (hex_string p)
  end.

Definition payload32 (s : string) : option (list ascii) :=
  p ← unhex (bytes s); if (length p =? 32)%nat then Some p else None.

Definition sample_from_string (s : string) : option Strkey :=
  match s with
  | String "G" r => SkPublicKeyEd25519 <$> payload32 r
  | String "C" r => SkContract <$> payload32 r
  | String "M" r =>
      '(i, h) ← split_once "." r;
      n ← parse_uint 64 i;
      SkMuxedAccountEd25519 n <$> payload32 h
  | String "B" r => SkClaimableBalanceV0 <$> payload32 r
  | String "L" r => SkLiquidityPool <$> payload32 r
  | _ => None
  end.

Definition address_of_strkey (k : Strkey) : option ScAddress :=
  match k with
  | SkPublicKeyEd25519 p => Some (AddrAccount p)
  | SkContract p => Some (AddrContract p)
  | SkMuxedAccountEd25519 i p => Some (AddrMuxedAccount i p)
  | SkClaimableBalanceV0 p => Some (AddrClaimableBalance p)
  | SkLiquidityPool p => Some (AddrLiquidityPool p)
  | SkOther _ _ => None
  end.

Definition sample_address_from_str (s : string) : option ScAddress :=
  k ← sample_from_string s; a ← address_of_strkey k;
  if address_wf a then Some a else None.

Lemma payload32_hex p : (length p =? 32)%nat = true → payload32 (hex_string p) = Some p.
Proof. intros Hp. unfold payload32. rewrite unhex_hex_string. cbn. by rewrite Hp. Qed.

Lemma sample_roundtrip a :
  address_wf a = true →
  sample_from_string (sample_to_string (strkey_of_address a)) = Some (strkey_of_address a).
Proof.
  destruct a; cbn [address_wf strkey_of_address sample_to_string sample_from_string]; intros Hwf;
    try by rewrite payload32_hex.
  apply andb_true_iff in Hwf as [Hi Hp]. apply in_u_spec in Hi.
  rewrite wrap_small by done. rewrite split_once_app by (apply show_u_no_byte; [lia|done]).
  cbn [mbind option_bind]. rewrite parse_uint_show by done.
  cbn [mbind option_bind]. by rewrite payload32_hex.
Qed.

Lemma sample_utf8 k : utf8_valid (sample_to_string k) = true.
Proof.
  apply ascii_only_utf8. destruct k; (constructor; [done|]);
    try apply ascii_only_hex.
  apply ascii_only_app; [apply ascii_only_show_u, wrap_range; lia|].
  constructor; [done|]. apply ascii_only_hex.
Qed.

(** ** A total order on values *)

Definition enc_address (a : ScAddress) : gen_tree (Z + list ascii) :=
  match a with
  | AddrAccount k => GenNode 0 [GenLeaf (inr k)]
  | AddrContract h => GenNode 1 [GenLeaf (inr h)]
  | AddrMuxedAccount i k => GenNode 2 [GenLeaf (inl i); GenLeaf (inr k)]
  | AddrClaimableBalance h => GenNode 3 [GenLeaf (inr h)]
  | AddrLiquidityPool h => GenNode 4 [GenLeaf (inr h)]
  end.

Fixpoint enc_scval (v : ScVal) : gen_tree (Z + list ascii) :=
  let z n := GenLeaf (inl n) in
  let parts p := [z (hi_hi p); z (hi_lo p); z (lo_hi p); z (lo_lo p)] in
  let pair p := GenNode 0 [enc_scval p.1; enc_scval p.2] in
  match v with
  | ScvBool b => GenNode (if b then 0 else 1) []
  | ScvVoid => GenNode 2 []
  | ScvError (ErrContract c) => GenNode 3 [z c]
  | ScvError (ErrHost t c) => GenNode 4 [z t; z c]
  | ScvU32 n => GenNode 5 [z n]
  | ScvI32 n => GenNode 6 [z n]
  | ScvU64 n => GenNode 7 [z n]
  | ScvI64 n => GenNode 8 [z n]
  | ScvTimepoint n => GenNode 9 [z n]
  | ScvDuration n => GenNode 10 [z n]
  | ScvU128 h l => GenNode 11 [z h; z l]
  | ScvI128 h l => GenNode 12 [z h; z l]
  | ScvU256 p => GenNode 13 (parts p)
  | ScvI256 p => GenNode 14 (parts p)
  | ScvBytes b => GenNode 15 [GenLeaf (inr b)]
  | ScvString b => GenNode 16 [GenLeaf (inr b)]
  | ScvSymbol b => GenNode 17 [GenLeaf (inr b)]
  | ScvVec None => GenNode 18 []
  | ScvVec (Some l) => GenNode 19 (enc_scval <$> l)
  | ScvMap None => GenNode 20 []
  | ScvMap (Some m) => GenNode 21 (pair <$> m)
  | ScvAddress a => GenNode 22 [enc_address a]
  | ScvLedgerKeyContractInstance => GenNode 23 []
  | ScvLedgerKeyNonce n => GenNode 24 [z n]
  | ScvContractInstance (ExecWasm h) None => GenNode 25 [GenLeaf (inr h)]
  | ScvContractInstance (ExecWasm h) (Some m) => GenNode 26 (GenLeaf (inr h) :: (pair <$> m))
  | ScvContractInstance ExecStellarAsset None => GenNode 27 []
  | ScvContractInstance ExecStellarAsset (Some m) => GenNode 28 (pair <$> m)
  end.

Lemma enc_address_inj a b : enc_address a = enc_address b → a = b.
Proof. destruct a, b; simpl; congruence. Qed.

Lemma enc_list_inj (l : list ScVal) :
  Forall (λ v, ∀ w, enc_scval v = enc_scval w → v = w) l →
  ∀ k, enc_scval <$> l = enc_scval <$> k → l = k.
Proof.
  induction 1 as [|v l Hv _ IH]; intros [|w k] Heq; simplify_eq/=; [done|].
  f_equal; [by apply Hv|by apply IH].
Qed.

Lemma enc_pairs_inj (l : list (ScVal * ScVal)) :
  Forall (λ p, (∀ w, enc_scval p.1 = enc_scval w → p.1 = w)
               ∧ (∀ w, enc_scval p.2 = enc_scval w → p.2 = w)) l →
  ∀ k, (λ p, GenNode 0 [enc_scval p.1; enc_scval p.2]) <$> l
       = (λ p, GenNode 0 [enc_scval p.1; enc_scval p.2]) <$> k → l = k.
Proof.
  induction 1 as [|[v v'] l [Hv Hv'] _ IH]; intros [|[w w'] k] Heq; simplify_eq/=; [done|].
  f_equal; [|by apply IH]. f_equal; [by apply Hv|by apply Hv'].
Qed.

Lemma enc_scval_inj v : ∀ w, enc_scval v = enc_scval w → v = w.
Proof.
  induction v as [v Hv|[l|] Hl|[m|] Hm|[h|] [m|] Hm] using scval_ind_strong;
    cbn in Hl || cbn in Hm || idtac;
    intros w Heq.
  - destruct v as [[]| |[]| | | | | | | | |[]|[]| | | | | | | | |];
      try done;
      destruct w as [[]| |[]| | | | | | | | |[]|[]| | | |[]|[]| | | |[] []]; simpl in Heq;
      try congruence.
    injection Heq as Heq. f_equal. by apply enc_address_inj.
  - destruct w as [[]| |[]| | | | | | | | |[]|[]| | | |[]|[]| | | |[] []]; simpl in Heq;
      try discriminate.
    injection Heq as Heq. do 2 f_equal. by apply enc_list_inj.
  - by destruct w as [[]| |[]| | | | | | | | |[]|[]| | | |[]|[]| | | |[] []].
  - destruct w as [[]| |[]| | | | | | | | |[]|[]| | | |[]|[]| | | |[] []]; simpl in Heq;
      try discriminate.
    injection Heq as Heq. do 2 f_equal. by apply enc_pairs_inj.
  - by destruct w as [[]| |[]| | | | | | | | |[]|[]| | | |[]|[]| | | |[] []].
  - destruct w as [[]| |[]| | | | | | | | |[]|[]| | | |[]|[]| | | |[] []]; simpl in Heq;
      try discriminate.
    injection Heq as -> Heq. do 2 f_equal. by apply enc_pairs_inj.
  - destruct w as [[]| |[]| | | | | | | | |[]|[]| | | |[]|[]| | | |[] []]; simpl in Heq;
      try discriminate. congruence.
  - destruct w as [[]| |[]| | | | | | | | |[]|[]| | | |[]|[]| | | |[] []]; simpl in Heq;
      try discriminate.
    injection Heq as Heq. do 2 f_equal. by apply enc_pairs_inj.
  - by destruct w as [[]| |[]| | | | | | | | |[]|[]| | | |[]|[]| | | |[] []].
Qed.

(** Symbols first, in byte order; the others by their codes. *)
Definition code (v : ScVal) : positive := encode (enc_scval v).

Lemma code_inj v w : code v = code w → v = w.
Proof. intros Heq. apply enc_scval_inj. by apply (inj encode) in Heq. Qed.

Definition sample_cmp (x y : ScVal) : comparison :=
  match x, y with
  | ScvSymbol a, ScvSymbol b => tcmp (of_bytes a) (of_bytes b)
  | ScvSymbol _, _ => Lt
  | _, ScvSymbol _ => Gt
  | _, _ => Pos.compare (code x) (code y)
  end.

Definition is_symbol (v : ScVal) : bool := match v with ScvSymbol _ => true | _ => false end.

Lemma sample_cmp_others x y :
  is_symbol x = false → is_symbol y = false → sample_cmp x y = Pos.compare (code x) (code y).
Proof. destruct x; try discriminate; destruct y; try discriminate; done. Qed.

Lemma sample_cmp_first x y : is_symbol x = true → is_symbol y = false →
  sample_cmp x y = Lt ∧ sample_cmp y x = Gt.
Proof. destruct x; try discriminate; destruct y; try discriminate; done. Qed.

Lemma is_symbol_true v : is_symbol v = true → ∃ b, v = ScvSymbol b.
Proof. destruct v; try discriminate. by eexists. Qed.

Ltac by_symbol x :=
  let E := fresh "E" in
  destruct (is_symbol x) eqn:E; [apply is_symbol_true in E as [? ->]|].

Lemma sample_cmp_eq x y : sample_cmp x y = Eq ↔ x = y.
Proof.
  by_symbol x; by_symbol y.
  - cbn [sample_cmp]. rewrite tcmp_eq. split; [|by intros [= ->]].
    intros Hb. f_equal. by rewrite <- (bytes_of_bytes x0), Hb, bytes_of_bytes.
  - destruct (sample_cmp_first (ScvSymbol x0) y) as [-> _]; [done|done|].
    split; [done|]. by intros <-.
  - destruct (sample_cmp_first (ScvSymbol x0) x) as [_ ->]; [done|done|].
    split; [done|]. by intros ->.
  - rewrite sample_cmp_others by done. rewrite Pos.compare_eq_iff.
    split; [apply code_inj|by intros ->].
Qed.

Lemma sample_cmp_antisym x y : sample_cmp y x = CompOpp (sample_cmp x y).
Proof.
  by_symbol x; by_symbol y.
  - apply (tcmp_antisym (A:=string)).
  - by destruct (sample_cmp_first (ScvSymbol x0) y) as [-> ->].
  - by destruct (sample_cmp_first (ScvSymbol x0) x) as [-> ->].
  - rewrite !sample_cmp_others by done. apply Pos.compare_antisym.
Qed.

Lemma sample_cmp_lt x y :
  sample_cmp x y = Lt → is_symbol y = true → is_symbol x = true.
Proof.
  intros Hlt Hy. destruct (is_symbol x) eqn:Hx; [done|].
  apply (sample_cmp_first y x Hy) in Hx as [_ Hgt]. congruence.
Qed.

Lemma sample_cmp_trans x y z :
  sample_cmp x y = Lt → sample_cmp y z = Lt → sample_cmp x z = Lt.
Proof.
  intros Hxy Hyz. destruct (is_symbol z) eqn:Ez.
  - assert (is_symbol y = true) as Ey by eauto using sample_cmp_lt.
    assert (is_symbol x = true) as Ex by eauto using sample_cmp_lt.
    apply is_symbol_true in Ex as [? ->], Ey as [? ->], Ez as [? ->].
    revert Hxy Hyz. apply (tcmp_trans (A:=string)).
  - destruct (is_symbol x) eqn:Ex; [by apply sample_cmp_first|].
    destruct (is_symbol y) eqn:Ey.
    + by rewrite (sample_cmp_lt x y) in Ex.
    + rewrite sample_cmp_others in Hxy, Hyz |- * by done. by eapply Pos.lt_trans.
Qed.

(** Only [M] strkeys denote muxed accounts. *)
Lemma sample_muxed s i k :
  sample_from_string s = Some (SkMuxedAccountEd25519 i k) →
  starts_with "M" s = true ∧ length k = 32%nat.
Proof.
  destruct s as [|[[] [] [] [] [] [] [] []] s]; try discriminate; cbn [sample_from_string];
    intros Hs; try (destruct (payload32 s); discriminate).
  split; [done|]. inv_ok. destruct (payload32 _) as [q|] eqn:E; [|discriminate].
  injection Hs as _ <-. unfold payload32 in E. inv_ok. by apply Nat.eqb_eq.
Qed.

Lemma sample_address_roundtrip a :
  address_wf a = true →
  sample_address_from_str (sample_to_string (strkey_of_address a)) = Some a.
Proof.
  intros Ha. unfold sample_address_from_str. rewrite sample_roundtrip by done.
  destruct a; cbn [mbind option_bind strkey_of_address address_of_strkey]; by rewrite Ha.
Qed.

Lemma sample_parsed s a :
  sample_address_from_str s = Some a → address_wf a = true
  ∧ ∃ k, sample_from_string s = Some k ∧ address_of_strkey k = Some a.
Proof. unfold sample_address_from_str. intros Hs. inv_ok. eauto. Qed.

Program Definition sample_stellar : Stellar := {|
  strkey_to_string := sample_to_string;
  strkey_from_string := sample_from_string;
  sc_address_from_str := sample_address_from_str;
  hex_decode := λ s, unhex (bytes s);
  to_utf8_string_lossy := λ s, s;
  scval_cmp := sample_cmp;
  strkey_roundtrip := sample_roundtrip;
  address_roundtrip := sample_address_roundtrip;
  address_parsed_wf s a Hs := proj1 (sample_parsed s a Hs);
  hex_decode_show := unhex_hex_string;
  strkey_muxed_wf s i k Hs := proj2 (sample_muxed s i k Hs);
  address_utf8 a := sample_utf8 (strkey_of_address a);
  scval_cmp_eq := sample_cmp_eq;
  scval_cmp_antisym := sample_cmp_antisym;
  scval_cmp_trans := sample_cmp_trans;
|}.
Next Obligation. by intros []. Qed.
Next Obligation.
  intros s i k (_ & sk & Hs & Hk)%sample_parsed. destruct sk; try discriminate.
  injection Hk as -> ->. by apply sample_muxed in Hs as [? _].
Qed.
Next Obligation. done. Qed.
Next Obligation. done. Qed.
