(* ===== verification/XdrDecode.v ===== *)
(** * XdrDecode: the typed decoder of [lumenqraph-core/src/xdr.rs]

    [ScVal] to JSON, 256-bit integers as decimal strings, event names, and the
    [CONTRACT_IDS] parser. *)
From S2P Require Import Prelude Text Containers Values Instances.
From Stdlib Require Import Ascii.

Local Open Scope Z_scope.

(** ** 256-bit integers in decimal *)

(** The largest power of ten that fits a [u64]. *)
Definition CHUNK : Z := 10000000000000000000.

(** One pass of the inner [for limb in limbs.iter_mut()]: divides in place and
    returns the remainder. *)
Fixpoint div_limbs (limbs : list Z) (rem : Z) : list Z * Z :=
  match limbs with
  | [] => ([], rem)
  | limb :: rest =>
      let cur := Z.lor (Z.shiftl rem 64) limb in
      let '(rest', r) := div_limbs rest (cur mod CHUNK) in
      (wrap 64 (cur / CHUNK) :: rest', r)
  end.

(** The outer [loop]: the chunks in the order they are pushed. *)
Fixpoint chunk_loop (fuel : nat) (limbs : list Z) : list Z :=
  match fuel with
  | O => []
  | S fuel' =>
      let '(limbs', rem) := div_limbs limbs 0 in
      rem :: (if forallb (Z.eqb 0) limbs' then [] else chunk_loop fuel' limbs')
  end.

(** Popping the chunks: the last one plain, the others zero-padded to 19. *)
Definition chunks_to_string (chunks : list Z) : string :=
  match rev chunks with
  | [] => show_u 0
  | c :: cs => foldl (λ s c, s +:+ show_pad 19 c) (show_u c) cs
  end.

Definition limbs_of (p : Parts256) : list Z := [hi_hi p; hi_lo p; lo_hi p; lo_lo p].

(** Five chunks hold every 256-bit value. *)
Definition u256_limbs_to_decimal (limbs : list Z) : string :=
  chunks_to_string (chunk_loop 5 limbs).

Definition u256_to_decimal (p : Parts256) : string := u256_limbs_to_decimal (limbs_of p).

(** [for limb in limbs.iter_mut().rev() { sum = limb + carry; .. }]: the carry
    enters at the least significant limb. *)
Fixpoint add_carry (limbs : list Z) (carry : Z) : list Z * Z :=
  match limbs with
  | [] => ([], carry)
  | limb :: rest =>
      let '(rest', c) := add_carry rest carry in
      (wrap 64 (limb + c) :: rest', Z.shiftr (limb + c) 64)
  end.

(** [!limb] on a [u64]. *)
Definition not64 (z : Z) : Z := wrap 64 (Z.lnot z).

(** The first limb of [Int256Parts] is signed; the digits are those of its
    64-bit pattern. *)
Definition i256_to_decimal (p : Parts256) : string :=
  let limbs := [wrap 64 (hi_hi p); hi_lo p; lo_hi p; lo_lo p] in
  if negb (as_signed 64 (hi_hi p) <? 0) then u256_limbs_to_decimal limbs
  else "-" +:+ u256_limbs_to_decimal (add_carry (not64 <$> limbs) 1).1.

(** ** [decode_scval] *)

Definition hex (b : list ascii) : string := hex_string b.

(** Bytes of a [String] or [Symbol]: text when valid UTF-8, else hex. *)
Definition text_or_hex (b : list ascii) : Json :=
  if utf8_valid (of_bytes b) then JStr (of_bytes b) else JStr ("0x" +:+ hex b).

(** The loop over the entries of an [ScMap], from the decoded keys and values:
    the object, the pairs and [all_stringy]. *)
Definition map_entry_step (st : list (string * Json) * list Json * bool) (kv : Json * Json) :=
  let '(obj, pairs, all_stringy) := st in
  let '(obj', stringy) := match kv.1 with
                          | JStr s => (bt_insert s kv.2 obj, all_stringy)
                          | _ => (obj, false)
                          end in
  (obj', (pairs ++ [mk_obj [("key", kv.1); ("val", kv.2)]])%list, stringy).

Definition render_map (kvs : list (Json * Json)) : Json :=
  let '(obj, pairs, all_stringy) := foldl map_entry_step ([], [], true) kvs in
  if all_stringy then JObj obj else JArr pairs.

Section decode.
Context `{Stellar}.

Fixpoint decode_scval (sv : ScVal) : Json :=
  match sv with
  | ScvBool b => JBool b
  | ScvVoid => JNull
  | ScvError _ => mk_obj [("_error", JBool true)]
  | ScvU32 n => JInt n
  | ScvI32 n => JInt n
  | ScvU64 n => JStr (show_u n)
  | ScvI64 n => JStr (show_i n)
  | ScvTimepoint t => JStr (show_u t)
  | ScvDuration d => JStr (show_u d)
  | ScvU128 hi lo => JStr (show_u (Z.lor (Z.shiftl hi 64) lo))
  | ScvI128 hi lo => JStr (show_i (Z.lor (Z.shiftl hi 64) lo))
  | ScvU256 p => JStr (u256_to_decimal p)
  | ScvI256 p => JStr (i256_to_decimal p)
  | ScvBytes b => JStr ("0x" +:+ hex b)
  | ScvString s => text_or_hex s
  | ScvSymbol s => text_or_hex s
  | ScvVec None => JArr []
  | ScvVec (Some v) => JArr (decode_scval <$> v)
  | ScvMap None => JObj []
  | ScvMap (Some m) => render_map ((λ p, (decode_scval p.1, decode_scval p.2)) <$> m)
  | ScvAddress a => JStr (sc_address_to_string a)
  | ScvLedgerKeyContractInstance => mk_obj [("_type", JStr "LedgerKeyContractInstance")]
  | ScvLedgerKeyNonce n => mk_obj [("_type", JStr "LedgerKeyNonce"); ("nonce", JInt n)]
  | ScvContractInstance e _ =>
      match e with
      | ExecWasm h => mk_obj [("_type", JStr "ContractInstance"); ("wasm_hash", JStr (hex h))]
      | ExecStellarAsset =>
          mk_obj [("_type", JStr "ContractInstance"); ("stellar_asset", JBool true)]
      end
  end.

(** The base64 alphabet and [ScVal::read_xdr] (the value and the bytes left
    in [limited.inner]) come from the [base64] and [stellar_xdr] crates. *)
Variable base64_decode : string → option (list ascii).
Variable read_xdr_scval : list ascii → option (ScVal * list ascii).

Definition decode_fallback (b64 : string) : Json :=
  mk_obj [("_type", JStr "unknown"); ("xdr", JStr b64)].

Definition decode_scval_base64 (b64 : string) : Json :=
  match base64_decode b64 with
  | None => decode_fallback b64
  | Some bytes =>
      match read_xdr_scval bytes with
      | Some (sv, []) => decode_scval sv
      | _ => decode_fallback b64
      end
  end.

Definition decode_topics (topics : list string) : list Json := decode_scval_base64 <$> topics.

Definition utf8_text (b : list ascii) : option string :=
  if utf8_valid (of_bytes b) then Some (of_bytes b) else None.

Definition event_name_from_topic (topic_b64 : string) : option string :=
  bytes ← base64_decode topic_b64;
  '(sv, rest) ← read_xdr_scval bytes;
  match rest with
  | [] => match sv with
          | ScvSymbol s => utf8_text s
          | ScvString s => utf8_text s
          | _ => None
          end
  | _ :: _ => None
  end.
End decode.

(** ** Contract ids *)

(** 5 filters x 5 ids per filter. *)
Definition MAX_CONTRACT_IDS : nat := 25.

Inductive ContractIdsError : Type :=
  | InvalidContractId (id : string)
  | TooManyContractIds (unique : nat).

Section contract_ids.
Context `{Stellar}.

(** [Contract::from_string(s).is_ok()]. *)
Definition is_valid_contract_id (s : string) : bool :=
  match strkey_from_string s with Some (SkContract _) => true | _ => false end.

Definition split_entries (raw : string) : list string :=
  filter (λ s, s ≠ EmptyString) (trim <$> split_on "," raw).

(** [HashSet::insert] returns whether the id is new. *)
Fixpoint dedup_first (seen : gset string) (entries : list string) : list string :=
  match entries with
  | [] => []
  | id :: rest =>
      if decide (id ∈ seen) then dedup_first seen rest
      else id :: dedup_first ({[id]} ∪ seen) rest
  end.

Definition parse_contract_ids (raw : string) : result ContractIdsError (list string) :=
  let entries := split_entries raw in
  match List.find (λ id, negb (is_valid_contract_id id)) entries with
  | Some id => Err (InvalidContractId id)
  | None =>
      let ids := dedup_first ∅ entries in
      if (MAX_CONTRACT_IDS <? length ids)%nat then Err (TooManyContractIds (length ids))
      else Ok ids
  end.
End contract_ids.

(** ** Lemmas: limbs *)

(** The value of big-endian limbs. *)
Fixpoint limbs_value (limbs : list Z) : Z :=
  match limbs with
  | [] => 0
  | x :: rest => x * 2 ^ (64 * Z.of_nat (length rest)) + limbs_value rest
  end.

Definition u256_value (p : Parts256) : Z := limbs_value (limbs_of p).

Definition is_limb (x : Z) : Prop := 0 ≤ x < 2 ^ 64.

Definition u256_wf (p : Parts256) : Prop := Forall is_limb (limbs_of p).
Definition i256_wf (p : Parts256) : Prop :=
  - 2 ^ 63 ≤ hi_hi p < 2 ^ 63 ∧ is_limb (hi_lo p) ∧ is_limb (lo_hi p) ∧ is_limb (lo_lo p).

(** [(hi << 64) | lo]. *)
Lemma lor_shiftl_add hi lo : 0 ≤ lo < 2 ^ 64 → Z.lor (Z.shiftl hi 64) lo = hi * 2 ^ 64 + lo.
Proof.
  intros Hlo. rewrite Z.shiftl_mul_pow2 by lia.
  assert (Z.land (hi * 2 ^ 64) lo = 0) as Hand.
  { apply Z.bits_inj'. intros n Hn. rewrite Z.land_spec, Z.bits_0.
    destruct (Z.ltb_spec n 64); [by rewrite Z.mul_pow2_bits_low by lia|].
    rewrite (Z.bits_above_log2 lo n), andb_false_r; [done|lia|].
    destruct (decide (lo = 0)) as [->|]; [simpl; lia|].
    apply Z.log2_lt_pow2; [lia|].
    assert (2 ^ 64 ≤ 2 ^ n) by (apply Z.pow_le_mono_r; lia). lia. }
  pose proof (Z.add_lor_land (hi * 2 ^ 64) lo). lia.
Qed.

Lemma pow64_S n : 2 ^ (64 * Z.of_nat (S n)) = 2 ^ 64 * 2 ^ (64 * Z.of_nat n).
Proof. rewrite Nat2Z.inj_succ, Z.mul_succ_r, Z.pow_add_r by lia. lia. Qed.

Lemma limbs_value_range l :
  Forall is_limb l → 0 ≤ limbs_value l < 2 ^ (64 * Z.of_nat (length l)).
Proof.
  induction 1 as [|x l Hx _ IH]; [simpl; lia|].
  unfold is_limb in Hx. cbn [limbs_value length]. rewrite pow64_S.
  set (P := 2 ^ (64 * Z.of_nat (length l))) in *. set (B := 2 ^ 64) in *. nia.
Qed.

Lemma limbs_value_zero l :
  Forall is_limb l → limbs_value l = 0 ↔ forallb (Z.eqb 0) l = true.
Proof.
  induction 1 as [|x l Hx Hl IH]; [done|].
  cbn [limbs_value forallb]. pose proof (limbs_value_range l Hl). unfold is_limb in Hx.
  assert (0 < 2 ^ (64 * Z.of_nat (length l))) by (apply Z.pow_pos_nonneg; lia).
  rewrite andb_true_iff, <- IH, Z.eqb_eq. split; intros; nia.
Qed.

Lemma div_limbs_spec l rem l' r :
  Forall is_limb l → 0 ≤ rem < CHUNK → div_limbs l rem = (l', r) →
  limbs_value l' * CHUNK + r = rem * 2 ^ (64 * Z.of_nat (length l)) + limbs_value l
  ∧ 0 ≤ r < CHUNK ∧ Forall is_limb l' ∧ length l' = length l.
Proof.
  intros Hl. revert rem l' r. induction Hl as [|x l Hx Hl IH]; intros rem l' r Hrem Hd.
  - cbn [div_limbs] in Hd. injection Hd as <- <-. cbn [limbs_value length].
    rewrite Z.mul_0_r, Z.pow_0_r. split_and!; [lia..|constructor|done].
  - cbn [div_limbs] in Hd. rewrite lor_shiftl_add in Hd by done. unfold is_limb in Hx.
    set (cur := rem * 2 ^ 64 + x) in *.
    destruct (div_limbs l (cur mod CHUNK)) as [l'' r'] eqn:E. injection Hd as <- <-.
    assert (Hcur : 0 ≤ cur < CHUNK * 2 ^ 64) by (unfold CHUNK in *; lia).
    assert (Hmod : 0 ≤ cur mod CHUNK < CHUNK) by (apply Z.mod_pos_bound; unfold CHUNK; lia).
    destruct (IH _ _ _ Hmod E) as (Hv & Hr & Hf & Hlen).
    assert (Hq : 0 ≤ cur / CHUNK < 2 ^ 64).
    { split; [apply Z.div_pos; unfold CHUNK in *; lia|].
      apply Z.div_lt_upper_bound; unfold CHUNK in *; lia. }
    rewrite wrap_small by done. cbn [limbs_value length]. rewrite pow64_S, Hlen.
    pose proof (Z_div_mod_eq_full cur CHUNK) as Hdm.
    split_and!; [|lia|lia|by constructor|done].
    set (P := 2 ^ (64 * Z.of_nat (length l))) in *.
    assert (cur * P = CHUNK * (cur / CHUNK) * P + cur mod CHUNK * P) as Hc
      by (rewrite Hdm at 1; ring).
    transitivity (cur * P + limbs_value l); [|unfold cur; ring].
    rewrite Hc. lia.
Qed.

Lemma chunks_to_string_cons c cs :
  cs ≠ [] → chunks_to_string (c :: cs) = chunks_to_string cs +:+ show_pad 19 c.
Proof.
  intros Hcs. unfold chunks_to_string. cbn [rev].
  destruct (rev cs) as [|d ds] eqn:E.
  - destruct Hcs. by rewrite <- (rev_involutive cs), E.
  - cbn [app]. by rewrite foldl_snoc.
Qed.

Lemma chunk_loop_not_nil fuel l : fuel ≠ O → chunk_loop fuel l ≠ [].
Proof. destruct fuel; [done|]. intros _. cbn [chunk_loop]. by destruct (div_limbs l 0). Qed.

Lemma chunk_loop_correct fuel l :
  Forall is_limb l → limbs_value l < CHUNK ^ Z.of_nat fuel → fuel ≠ O →
  chunks_to_string (chunk_loop fuel l) = show_u (limbs_value l).
Proof.
  revert l; induction fuel as [|fuel IH]; intros l Hl Hv Hf; [done|]. cbn [chunk_loop].
  destruct (div_limbs l 0) as [l' r] eqn:E.
  apply div_limbs_spec in E as (Heq & Hr & Hl' & _); [|done|unfold CHUNK; lia].
  rewrite Z.mul_0_l, Z.add_0_l in Heq. pose proof (limbs_value_range l' Hl') as Hpos.
  destruct (forallb (Z.eqb 0) l') eqn:E0.
  - apply limbs_value_zero in E0; [|done]. rewrite <- Heq, E0. done.
  - assert (limbs_value l' ≠ 0) as Hne.
    { intros Hz%limbs_value_zero; [congruence|done]. }
    rewrite Nat2Z.inj_succ, Z.pow_succ_r in Hv by lia.
    assert (limbs_value l' < CHUNK ^ Z.of_nat fuel) as Hlt by (unfold CHUNK in *; nia).
    assert (fuel ≠ O) as Hf' by (intros ->; simpl in Hlt; lia).
    rewrite chunks_to_string_cons by by apply chunk_loop_not_nil.
    rewrite IH by done. rewrite <- Heq. symmetry.
    change CHUNK with (10 ^ Z.of_nat 19). apply show_u_split; [lia| |done].
    change (10 ^ Z.of_nat 19) with CHUNK. lia.
Qed.

Lemma u256_limbs_correct l :
  Forall is_limb l → length l = 4%nat → u256_limbs_to_decimal l = show_u (limbs_value l).
Proof.
  intros Hl Hlen. apply chunk_loop_correct; [done| |done].
  pose proof (limbs_value_range l Hl) as Hr. rewrite Hlen in Hr.
  eapply Z.lt_trans; [apply Hr|]. vm_compute. done.
Qed.

Lemma add_carry_spec l c l' c' :
  Forall is_limb l → 0 ≤ c ≤ 1 → add_carry l c = (l', c') →
  c' * 2 ^ (64 * Z.of_nat (length l)) + limbs_value l' = limbs_value l + c
  ∧ 0 ≤ c' ≤ 1 ∧ Forall is_limb l' ∧ length l' = length l.
Proof.
  intros Hl. revert l' c'. induction Hl as [|x l Hx Hl IH]; intros l' c' Hc Hadd.
  - cbn [add_carry] in Hadd. injection Hadd as <- <-. cbn [limbs_value length].
    rewrite Z.mul_0_r, Z.pow_0_r. split_and!; [lia..|constructor|done].
  - cbn [add_carry] in Hadd. destruct (add_carry l c) as [l'' c''] eqn:E.
    injection Hadd as <- <-. destruct (IH _ _ Hc eq_refl) as (Hv & Hc'' & Hf & Hlen).
    unfold is_limb in Hx. rewrite Z.shiftr_div_pow2 by lia. cbn [limbs_value length].
    rewrite pow64_S, Hlen. unfold wrap.
    pose proof (Z_div_mod_eq_full (x + c'') (2 ^ 64)) as Hdm.
    assert (0 ≤ (x + c'') mod 2 ^ 64 < 2 ^ 64) by (apply Z.mod_pos_bound; lia).
    assert (0 ≤ (x + c'') / 2 ^ 64 ≤ 1) by lia.
    split_and!; [nia|lia|lia|by constructor|done].
Qed.

Lemma not64_limb x : is_limb x → not64 x = 2 ^ 64 - 1 - x.
Proof.
  unfold is_limb, not64. intros Hx.
  replace (Z.lnot x) with (- x - 1) by (pose proof (Z.opp_lnot x); lia).
  unfold wrap. rewrite <- (Z.mod_small (2 ^ 64 - 1 - x) (2 ^ 64)) by lia.
  replace (- x - 1) with (2 ^ 64 - 1 - x + (-1) * 2 ^ 64) by lia. by rewrite Z_mod_plus_full.
Qed.

Lemma not64_limbs l :
  Forall is_limb l →
  Forall is_limb (not64 <$> l)
  ∧ limbs_value (not64 <$> l) = 2 ^ (64 * Z.of_nat (length l)) - 1 - limbs_value l.
Proof.
  induction 1 as [|x l Hx _ [IHf IHv]]; [done|].
  cbn [fmap list_fmap limbs_value length] in *. rewrite length_fmap, pow64_S.
  rewrite not64_limb by done. unfold is_limb in *.
  split; [constructor; [lia|done]|]. rewrite IHv. lia.
Qed.

(** Two's complement negation of a non-zero magnitude. *)
Lemma negate_limbs l :
  Forall is_limb l → 0 < limbs_value l →
  let l' := (add_carry (not64 <$> l) 1).1 in
  Forall is_limb l' ∧ length l' = length l
  ∧ limbs_value l' = 2 ^ (64 * Z.of_nat (length l)) - limbs_value l.
Proof.
  intros Hl Hpos. destruct (add_carry (not64 <$> l) 1) as [l' c] eqn:E. cbn [fst].
  destruct (not64_limbs l Hl) as [Hf Hv].
  apply add_carry_spec in E as (Heq & Hc & Hf' & Hlen); [|done|lia].
  rewrite length_fmap in *. rewrite Hv in Heq.
  pose proof (limbs_value_range l' Hf') as Hr. rewrite Hlen in Hr.
  split_and!; [done|done|]. pose proof (limbs_value_range l Hl).
  assert (c = 0 ∨ c = 1) as [-> | ->] by lia; lia.
Qed.

(** ** Theorems: integers *)

Definition i256_value (p : Parts256) : Z :=
  limbs_value [hi_hi p; hi_lo p; lo_hi p; lo_lo p].

Lemma u256_decimal p : u256_wf p → u256_to_decimal p = show_u (u256_value p).
Proof. intros Hp. by apply u256_limbs_correct. Qed.

Lemma i256_decimal p : i256_wf p → i256_to_decimal p = show_i (i256_value p).
Proof.
  intros (Hhi & H1 & H2 & H3). unfold i256_to_decimal. rewrite as_signed_small by lia.
  set (low := [hi_lo p; lo_hi p; lo_lo p]).
  assert (Forall is_limb low) as Hlow by (unfold low; auto using Forall_cons_2, Forall_nil_2).
  assert (0 ≤ limbs_value low < 2 ^ 192) as Hr by exact (limbs_value_range low Hlow).
  assert (i256_value p = hi_hi p * 2 ^ 192 + limbs_value low) as Hval by done.
  assert (limbs_value (wrap 64 (hi_hi p) :: low)
          = wrap 64 (hi_hi p) * 2 ^ 192 + limbs_value low) as Hu by done.
  fold low. unfold show_i.
  destruct (Z.ltb_spec (hi_hi p) 0); cbn [negb].
  - assert (wrap 64 (hi_hi p) = hi_hi p + 2 ^ 64) as Hw.
    { unfold wrap. rewrite <- (Z.mod_small (hi_hi p + 2 ^ 64) (2 ^ 64)) by lia.
      rewrite <- (Z_mod_plus_full (hi_hi p) 1 (2 ^ 64)). f_equal; lia. }
    rewrite Hw in *.
    assert (Forall is_limb (hi_hi p + 2 ^ 64 :: low)) as Hl.
    { constructor; [unfold is_limb; lia|done]. }
    destruct (negate_limbs _ Hl) as (Hf & Hlen & Hv); [lia|].
    rewrite u256_limbs_correct by (done || by rewrite Hlen).
    change (2 ^ 192) with (2 ^ 64 * (2 ^ 64 * 2 ^ 64)) in *.
    rewrite Hv, Hu. destruct (Z.ltb_spec (i256_value p) 0); [|nia].
    change ("-" +:+ ?s) with (String "-" s). do 2 f_equal. rewrite Hval.
    change (2 ^ (64 * Z.of_nat (length (hi_hi p + 2 ^ 64 :: low))))
      with (2 ^ 64 * (2 ^ 64 * (2 ^ 64 * 2 ^ 64))). ring.
  - rewrite wrap_small in * by lia.
    rewrite u256_limbs_correct; [|constructor; [unfold is_limb; lia|done]|done].
    rewrite Hu, <- Hval. change (2 ^ 192) with (2 ^ 64 * (2 ^ 64 * 2 ^ 64)) in *.
    destruct (Z.ltb_spec (i256_value p) 0); [nia|done].
Qed.

(** The mathematical value of an integer variant. *)
Definition scv_int (sv : ScVal) : option Z :=
  match sv with
  | ScvU32 n | ScvI32 n | ScvU64 n | ScvI64 n | ScvTimepoint n | ScvDuration n => Some n
  | ScvU128 hi lo | ScvI128 hi lo => Some (hi * 2 ^ 64 + lo)
  | ScvU256 p => Some (u256_value p)
  | ScvI256 p => Some (i256_value p)
  | _ => None
  end.

(** The fields of an integer variant fit the width the XDR type gives them. *)
Definition scv_int_wf (sv : ScVal) : Prop :=
  match sv with
  | ScvU32 n => 0 ≤ n < 2 ^ 32
  | ScvI32 n => - 2 ^ 31 ≤ n < 2 ^ 31
  | ScvU64 n | ScvTimepoint n | ScvDuration n => is_limb n
  | ScvI64 n | ScvLedgerKeyNonce n => - 2 ^ 63 ≤ n < 2 ^ 63
  | ScvU128 hi lo => is_limb hi ∧ is_limb lo
  | ScvI128 hi lo => - 2 ^ 63 ≤ hi < 2 ^ 63 ∧ is_limb lo
  | ScvU256 p => u256_wf p
  | ScvI256 p => i256_wf p
  | _ => True
  end.

Lemma show_i_nonneg n : 0 ≤ n → show_i n = show_u n.
Proof. intros Hn. unfold show_i. by destruct (Z.ltb_spec n 0); [lia|]. Qed.

Lemma u256_value_nonneg p : u256_wf p → 0 ≤ u256_value p.
Proof. intros Hp. by apply limbs_value_range in Hp as [? _]. Qed.

(** Every integer variant of [ScVal], whatever its width and sign, decodes
    to its exact mathematical value: 32-bit values as JSON numbers, the wider
    ones (the 128-bit halves and the four 256-bit limbs included) as the decimal
    numeral of the value. *)
Theorem decode_scval_integer `{Stellar} sv z :
  scv_int_wf sv → scv_int sv = Some z →
  decode_scval sv =
    match sv with ScvU32 _ | ScvI32 _ => JInt z | _ => JStr (show_i z) end.
Proof.
  intros Hwf Hint. destruct sv; cbn in Hwf, Hint |- *; try discriminate;
    injection Hint as <-; try done; unfold is_limb in *; f_equal.
  all: try (symmetry; apply show_i_nonneg; lia).
  - rewrite lor_shiftl_add by lia. symmetry; apply show_i_nonneg. lia.
  - by rewrite lor_shiftl_add by lia.
  - rewrite u256_decimal, show_i_nonneg; [done|by apply u256_value_nonneg|done].
  - by apply i256_decimal.
Qed.

Lemma decode_scval_integer_witness :
  @decode_scval sample_stellar
    (ScvI256 {| hi_hi := -1; hi_lo := 2 ^ 64 - 1; lo_hi := 2 ^ 64 - 1; lo_lo := 2 ^ 64 - 10 ^ 18 |})
  = JStr "-1000000000000000000".
Proof.
  etransitivity; [apply (@decode_scval_integer sample_stellar _ (- 10 ^ 18))|].
  - cbn. unfold i256_wf, is_limb. cbn. lia.
  - reflexivity.
  - reflexivity.
Defined.

(** ** Theorems: maps *)

Definition stringy (v : Json) : bool := match v with JStr _ => true | _ => false end.

Definition string_entry (kv : Json * Json) : option (string * Json) :=
  match kv.1 with JStr s => Some (s, kv.2) | _ => None end.

Definition pair_obj (kv : Json * Json) : Json := mk_obj [("key", kv.1); ("val", kv.2)].

Lemma map_entry_fold kvs obj pairs b :
  foldl map_entry_step (obj, pairs, b) kvs
  = (foldl (λ m p, bt_insert p.1 p.2 m) obj (omap string_entry kvs),
     (pairs ++ (pair_obj <$> kvs))%list, b && forallb (λ kv, stringy kv.1) kvs).
Proof.
  revert obj pairs b; induction kvs as [|[k v] kvs IH]; intros obj pairs b.
  - by rewrite app_nil_r, andb_true_r.
  - cbn [foldl map_entry_step omap list_omap fmap list_fmap forallb].
    unfold string_entry at 2. cbn [fst snd].
    destruct k; rewrite IH, <- app_assoc; cbn; by rewrite ?andb_false_r.
Qed.

Lemma render_map_eq kvs :
  render_map kvs = if forallb (λ kv, stringy kv.1) kvs
                   then JObj (bt_of_list (omap string_entry kvs)) else JArr (pair_obj <$> kvs).
Proof. unfold render_map. by rewrite map_entry_fold. Qed.

(** The value of the last entry whose key is the string [k]. *)
Fixpoint last_entry (k : string) (kvs : list (Json * Json)) : option Json :=
  match kvs with
  | [] => None
  | kv :: kvs' =>
      match last_entry k kvs' with
      | Some v => Some v
      | None => match kv.1 with
                | JStr s => if decide (s = k) then Some kv.2 else None
                | _ => None
                end
      end
  end.

Lemma last_entry_snoc k kvs kv :
  last_entry k (kvs ++ [kv]) =
    match kv.1 with
    | JStr s => if decide (s = k) then Some kv.2 else last_entry k kvs
    | _ => last_entry k kvs
    end.
Proof.
  induction kvs as [|kv' kvs IH]; cbn [app last_entry].
  - by destruct kv.1.
  - rewrite IH. destruct kv.1; try done. by case_decide.
Qed.

Lemma bt_get_string_entries k kvs :
  bt_get k (bt_of_list (omap string_entry kvs)) = last_entry k kvs.
Proof.
  induction kvs as [|kv kvs IH] using rev_ind; [done|].
  rewrite last_entry_snoc, omap_app. cbn [omap list_omap]. unfold string_entry at 2.
  destruct kv.1; cbn; rewrite ?app_nil_r, <- ?IH; try done.
  rewrite bt_of_list_snoc. case_decide as Hk; subst; [apply bt_get_insert_eq|].
  by apply bt_get_insert_ne.
Qed.

(** A map whose decoded keys are all strings becomes an object with strictly
    increasing keys in which each key carries the value of its last entry (so
    equal keys collapse); any other map becomes the array of all its
    key/value pairs, in order. *)
Theorem render_map_correct kvs :
  match render_map kvs with
  | JObj m => forallb (λ kv, stringy kv.1) kvs = true ∧ bt_sorted m
              ∧ ∀ k, bt_get k m = last_entry k kvs
  | JArr l => forallb (λ kv, stringy kv.1) kvs = false
              ∧ l = (λ kv, mk_obj [("key", kv.1); ("val", kv.2)]) <$> kvs
  | _ => False
  end.
Proof.
  rewrite render_map_eq. destruct (forallb _ kvs); [|done].
  split_and!; [done|apply bt_sorted_of_list|]. intros k. apply bt_get_string_entries.
Qed.

(** ** Theorems: the decoder returns well-formed JSON *)

Definition is_container (v : ScVal) : bool :=
  match v with ScvVec (Some _) | ScvMap (Some _) => true | _ => false end.

(** Values the XDR types can hold. *)
Inductive scval_wf : ScVal → Prop :=
  | wf_atom v : is_container v = false → scv_int_wf v → scval_wf v
  | wf_vec l : Forall scval_wf l → scval_wf (ScvVec (Some l))
  | wf_map m : Forall (λ p, scval_wf p.1) m → Forall (λ p, scval_wf p.2) m →
      scval_wf (ScvMap (Some m)).

Lemma text_or_hex_wf b : json_wf (text_or_hex b).
Proof.
  unfold text_or_hex. destruct (utf8_valid _) eqn:E; constructor; [done|].
  apply ascii_only_utf8, ascii_only_app; [by repeat constructor|apply ascii_only_hex].
Qed.

Lemma render_map_wf kvs :
  Forall (λ kv, json_wf kv.1) kvs → Forall (λ kv, json_wf kv.2) kvs → json_wf (render_map kvs).
Proof.
  intros Hk Hv. rewrite render_map_eq. destruct (forallb _ kvs).
  - apply mk_obj_wf. pointwise.
    intros [s v] Hin. apply list_elem_of_omap in Hin as ([k v'] & Hin & He).
    specialize (Hk _ Hin). specialize (Hv _ Hin). unfold string_entry in He. cbn in *.
    destruct k; try discriminate. injection He as -> ->. by inversion Hk.
  - constructor. apply Forall_fmap. pointwise.
    intros kv Hin. apply mk_obj_wf. repeat constructor; cbn; auto.
Qed.

(** The decoder turns every value the XDR types can hold into a well-formed
    JSON value: numbers in range, text valid UTF-8 (invalid text goes to hex)
    and object keys strictly increasing. *)
Theorem decode_scval_wf `{Stellar} sv : scval_wf sv → json_wf (decode_scval sv).
Proof.
  induction sv as [v Hv|[l|] Hl|[m|] Hm|e o Ho] using scval_ind_strong; cbn in *; intros Hwf.
  - inversion Hwf as [? _ Hint| |]; subst; try done.
    destruct (scv_int v) as [z|] eqn:Ez.
    + rewrite (decode_scval_integer v z) by done.
      destruct v; try discriminate; constructor; cbn in Hint; injection Ez as <-;
        eauto with lq; apply orb_true_iff; left; apply in_i_spec; lia.
    + destruct v; try discriminate; try done; cbn; auto using text_or_hex_wf with lq.
      * apply mk_obj_wf. repeat constructor.
      * constructor. apply ascii_only_utf8, ascii_only_app; [by repeat constructor|].
        apply ascii_only_hex.
      * constructor. apply address_utf8.
      * apply mk_obj_wf. repeat constructor.
      * apply mk_obj_wf. repeat constructor. cbn in Hint. cbn.
        apply orb_true_iff. left. by apply in_i_spec.
  - inversion Hwf as [? Hc _|? Hwl|]; subst; [done|]. constructor. apply Forall_fmap.
    pointwise. auto.
  - repeat constructor.
  - inversion Hwf as [? Hc _| |? Hk Hv]; subst; [done|]. apply render_map_wf; apply Forall_fmap;
      pointwise; intros p Hp; destruct (Hm p Hp); apply H0 || apply H1; auto.
  - repeat constructor.
  - destruct e; apply mk_obj_wf; repeat constructor.
    cbn. apply ascii_only_utf8, ascii_only_hex.
Qed.

Lemma decode_scval_wf_witness :
  json_wf (@decode_scval sample_stellar
             (ScvMap (Some [(ScvSymbol (bytes "a"), ScvU64 (2 ^ 64 - 1));
                            (ScvSymbol [byte_of 255], ScvVec (Some [ScvI32 (-1)]))]))).
Proof.
  apply (@decode_scval_wf sample_stellar). apply wf_map; cbn.
  - apply Forall_cons_2; [by apply wf_atom|]. apply Forall_cons_2; [by apply wf_atom|].
    apply Forall_nil_2.
  - apply Forall_cons_2; [apply wf_atom; [done|cbn; unfold is_limb; lia]|].
    apply Forall_cons_2; [|apply Forall_nil_2]. apply wf_vec.
    apply Forall_cons_2; [|apply Forall_nil_2]. apply wf_atom; [done|cbn; lia].
Defined.

(** ** Theorems: event names *)

Section event_names.
Context `{Stellar} (base64_decode : string → option (list ascii))
  (read_xdr_scval : list ascii → option (ScVal * list ascii)).

(** An event has a name exactly when its first topic is base64 of one
    whole [Symbol] or [String] value holding UTF-8 text (trailing bytes, other
    variants and invalid text give none), and then the decoded topic is that
    same text. *)
Theorem event_name_from_topic_spec b64 name :
  event_name_from_topic base64_decode read_xdr_scval b64 = Some name ↔
  decode_scval_base64 base64_decode read_xdr_scval b64 = JStr name
  ∧ utf8_valid name = true
  ∧ ∃ raw sv, base64_decode b64 = Some raw ∧ read_xdr_scval raw = Some (sv, [])
            ∧ (sv = ScvSymbol (bytes name) ∨ sv = ScvString (bytes name)).
Proof.
  unfold event_name_from_topic, decode_scval_base64.
  destruct (base64_decode b64) as [raw|] eqn:Eb; cbn; [|naive_solver].
  destruct (read_xdr_scval raw) as [[sv rest]|] eqn:Er; cbn; [|naive_solver].
  destruct rest as [|]; [|naive_solver].
  assert (∀ b, utf8_text b = Some name ↔
               text_or_hex b = JStr name ∧ utf8_valid name = true ∧ b = bytes name) as Htext.
  { intros b. unfold utf8_text, text_or_hex. destruct (utf8_valid (of_bytes b)) eqn:E.
    - split; [|by intros (_ & _ & ->); rewrite of_bytes_bytes].
      intros Hb. injection Hb as <-. by rewrite bytes_of_bytes.
    - split; [done|]. intros (_ & Hv & ->). rewrite of_bytes_bytes in E. congruence. }
  split.
  - destruct sv; intros Hm; try discriminate Hm;
      apply Htext in Hm as (Ht & Hv & ->); (split_and!; [exact Ht|exact Hv|]);
      (eexists raw, _; split_and!; [reflexivity|exact Er|auto]).
  - intros (Ht & Hv & raw' & sv' & Hraw & Hsv & Hor).
    assert (raw = raw') as <- by congruence. assert (sv = sv') as <- by congruence.
    destruct Hor as [-> | ->]; by apply Htext.
Qed.
End event_names.

(** ** Theorems: contract ids *)

Section contract_id_theorems.
Context `{Stellar}.

Lemma dedup_first_in seen l id : id ∈ dedup_first seen l ↔ id ∈ l ∧ id ∉ seen.
Proof.
  revert seen; induction l as [|x l IH]; intros seen; cbn.
  { split; [intros []%not_elem_of_nil|intros [[]%not_elem_of_nil _]]. }
  case_decide as Hx; rewrite ?elem_of_cons, IH, ?not_elem_of_union, ?not_elem_of_singleton.
  - split; [tauto|]. intros [[->|?] ?]; tauto.
  - destruct (decide (id = x)) as [->|]; tauto.
Qed.

Lemma dedup_first_NoDup seen l : NoDup (dedup_first seen l).
Proof.
  revert seen; induction l as [|x l IH]; intros seen; cbn; [constructor|].
  case_decide; [apply IH|]. constructor; [|apply IH].
  rewrite dedup_first_in, not_elem_of_union, not_elem_of_singleton. tauto.
Qed.

Lemma dedup_first_order seen l l1 a l2 :
  dedup_first seen l = l1 ++ a :: l2 →
  ∃ e1 e2, l = e1 ++ a :: e2 ∧ ∀ b, b ∈ a :: l2 → b ∉ e1.
Proof.
  revert seen l1; induction l as [|x l IH]; intros seen l1 Hd; cbn in Hd.
  { by destruct l1. }
  assert (∀ seen' l1', x ∈ seen' → dedup_first seen' l = l1' ++ a :: l2 →
    ∃ e1 e2, x :: l = e1 ++ a :: e2 ∧ ∀ b, b ∈ a :: l2 → b ∉ e1) as Hlater.
  { intros seen' l1' Hx Hd'. destruct (IH _ _ Hd') as (e1 & e2 & -> & He).
    exists (x :: e1), e2. split; [done|]. intros b Hb.
    assert (b ∈ dedup_first seen' (e1 ++ a :: e2)) as [_ Hbs]%dedup_first_in.
    { rewrite Hd', elem_of_app. by right. }
    rewrite elem_of_cons. intros [->|Hin]; [done|]. by eapply He. }
  case_decide; [by eapply Hlater|].
  destruct l1 as [|y l1]; simplify_eq/=.
  - exists [], l. split; [done|]. intros. apply not_elem_of_nil.
  - eapply Hlater; [|done]. by apply elem_of_union_l, elem_of_singleton.
Qed.

Lemma find_first {A} (f : A → bool) l :
  match List.find f l with
  | Some x => f x = true ∧ ∃ l1 l2, l = l1 ++ x :: l2 ∧ Forall (λ y, f y = false) l1
  | None => Forall (λ y, f y = false) l
  end.
Proof.
  induction l as [|x l IH]; cbn; [constructor|]. destruct (f x) eqn:E.
  - split; [done|]. by exists [], l.
  - destruct (List.find f l) as [y|]; [|by constructor].
    destruct IH as (Hy & l1 & l2 & -> & Hl). split; [done|].
    exists (x :: l1), l2. split; [done|]. by constructor.
Qed.

(** [parse_contract_ids] succeeds exactly on lists of valid contract ids
    with at most 25 distinct ones, and returns the distinct ids in the order
    in which each first appears; an error names the first invalid entry or the
    number of distinct ids. *)
Theorem parse_contract_ids_correct raw :
  let entries := split_entries raw in
  match parse_contract_ids raw with
  | Ok ids =>
      Forall (λ id, is_valid_contract_id id = true) entries
      ∧ NoDup ids ∧ (length ids ≤ 25)%nat ∧ (∀ id, id ∈ ids ↔ id ∈ entries)
      ∧ ∀ l1 a l2, ids = l1 ++ a :: l2 →
          ∃ e1 e2, entries = e1 ++ a :: e2 ∧ ∀ b, b ∈ a :: l2 → b ∉ e1
  | Err (InvalidContractId id) =>
      is_valid_contract_id id = false
      ∧ ∃ l1 l2, entries = l1 ++ id :: l2
               ∧ Forall (λ id, is_valid_contract_id id = true) l1
  | Err (TooManyContractIds n) =>
      Forall (λ id, is_valid_contract_id id = true) entries
      ∧ n = size (list_to_set entries : gset string) ∧ (25 < n)%nat
  end.
Proof.
  cbn. unfold parse_contract_ids.
  set (entries := split_entries raw).
  pose proof (find_first (λ id, negb (is_valid_contract_id id)) entries) as Hf.
  assert (∀ l, Forall (λ id, negb (is_valid_contract_id id) = false) l →
               Forall (λ id, is_valid_contract_id id = true) l) as Hneg.
  { intros l Hl. pointwise. intros id Hid. apply negb_false_iff. by apply Hl. }
  destruct (List.find _ entries) as [id|].
  { destruct Hf as (Hid%negb_true_iff & l1 & l2 & Heq & Hl). eauto 6. }
  destruct (Nat.ltb_spec MAX_CONTRACT_IDS (length (dedup_first ∅ entries))) as [Hgt|Hle].
  - split_and!; [auto| |done].
    rewrite <- (size_list_to_set (C:=gset string)) by apply dedup_first_NoDup.
    f_equal. apply set_eq. intros id.
    rewrite !elem_of_list_to_set, dedup_first_in. set_solver.
  - split_and!; [auto|apply dedup_first_NoDup|done| |].
    + intros id. rewrite dedup_first_in. set_solver.
    + intros l1 a l2. apply dedup_first_order.
Qed.
End contract_id_theorems.
