(* ===== verification/XdrCursor.v ===== *)
(** * XdrCursor: the byte-level reader of [lumenqraph-core/src/xdr.rs]

    [Cursor] reads the XDR wire format itself, without the [stellar_xdr]
    crate: a bounds-checked position in a byte slice, and [read_scval] with its
    depth limit.  [wire] is the wire format of Stellar's XDR (RFC 4506 and the
    [ScVal] union), the reference the reader is compared with; [dialect] is
    the JSON the reader gives each value, from the table in the module's
    documentation. *)
From S2P Require Import Prelude Text Containers Values Instances XdrDecode.
From Stdlib Require Import Ascii.

Local Open Scope Z_scope.

(** ** The cursor *)

Record Cursor := { buf : list ascii; pos : Z }.

Definition cursor_len (c : Cursor) : Z := Z.of_nat (length (buf c)).

(** A method of [Cursor] that returns an [Option]: every [?] leaves the
    enclosing decode, so the position after a failure is never looked at. *)
Definition reader (A : Type) : Type := Cursor → option (A * Cursor).

#[export] Instance reader_ret : MRet reader := λ A a c, Some (a, c).
#[export] Instance reader_bind : MBind reader := λ A B f m c,
  match m c with Some (a, c') => f a c' | None => None end.

Definition malformed {A} : reader A := λ _, None.

Definition cursor_new (b : list ascii) : Cursor := {| buf := b; pos := 0 |}.

(** [take]: [checked_add] on a 64-bit [usize], the bounds check, the slice. *)
Definition cursor_take (n : Z) : reader (list ascii) := λ c,
  let end_ := pos c + n in
  if 2 ^ 64 <=? end_ then None
  else if cursor_len c <? end_ then None
  else Some (take (Z.to_nat n) (drop (Z.to_nat (pos c)) (buf c)), {| buf := buf c; pos := end_ |}).

(** [from_be_bytes]. *)
Definition from_be (l : list ascii) : Z := foldl (λ acc b, acc * 256 + byte_val b) 0 l.

Definition read_u32 : reader Z := b ← cursor_take 4; mret (from_be b).
Definition read_i32 : reader Z := b ← cursor_take 4; mret (as_signed 32 (from_be b)).
Definition read_u64 : reader Z := b ← cursor_take 8; mret (from_be b).
Definition read_i64 : reader Z := b ← cursor_take 8; mret (as_signed 64 (from_be b)).

Definition var_bytes : reader (list ascii) :=
  len ← read_u32;
  data ← cursor_take len;
  _ ← cursor_take ((4 - len mod 4) mod 4);
  mret data.

(** [for _ in 0..len { items.push(m()?) }]. *)
Fixpoint read_n {A} (m : reader A) (n : nat) : reader (list A) :=
  match n with
  | O => mret []
  | S n' => x ← m; xs ← read_n m n'; mret (x :: xs)
  end.

(** ** Values *)

Definition SCV_BOOL : Z := 0.
Definition SCV_VOID : Z := 1.
Definition SCV_ERROR : Z := 2.
Definition SCV_U32 : Z := 3.
Definition SCV_I32 : Z := 4.
Definition SCV_U64 : Z := 5.
Definition SCV_I64 : Z := 6.
Definition SCV_TIMEPOINT : Z := 7.
Definition SCV_DURATION : Z := 8.
Definition SCV_U128 : Z := 9.
Definition SCV_I128 : Z := 10.
Definition SCV_U256 : Z := 11.
Definition SCV_I256 : Z := 12.
Definition SCV_BYTES : Z := 13.
Definition SCV_STRING : Z := 14.
Definition SCV_SYMBOL : Z := 15.
Definition SCV_VEC : Z := 16.
Definition SCV_MAP : Z := 17.
Definition SCV_ADDRESS : Z := 18.
Definition SCV_CONTRACT_INSTANCE : Z := 19.
Definition SCV_LEDGER_KEY_CONTRACT_INSTANCE : Z := 20.
Definition SCV_LEDGER_KEY_NONCE : Z := 21.

Definition SC_ADDRESS_ACCOUNT : Z := 0.
Definition SC_ADDRESS_CONTRACT : Z := 1.
Definition SC_ADDRESS_MUXED_ACCOUNT : Z := 2.
Definition SC_ADDRESS_CLAIMABLE_BALANCE : Z := 3.
Definition SC_ADDRESS_LIQUIDITY_POOL : Z := 4.

(** Nesting allowed below the top-level value. *)
Definition MAX_DEPTH : Z := 256.

Definition error_type_name (error_type : Z) : string :=
  match error_type with
  | 0 => "Contract" | 1 => "WasmVm" | 2 => "Context" | 3 => "Storage" | 4 => "Object"
  | 5 => "Crypto" | 6 => "Events" | 7 => "Budget" | 8 => "Value" | 9 => "Auth"
  | _ => "Unknown"
  end.

Definition error_code_name (code : Z) : string :=
  match code with
  | 0 => "ArithDomain" | 1 => "IndexBounds" | 2 => "InvalidInput" | 3 => "MissingValue"
  | 4 => "ExistingValue" | 5 => "ExceededLimit" | 6 => "InvalidAction" | 7 => "InternalError"
  | 8 => "UnexpectedType" | 9 => "UnexpectedSize"
  | _ => "Unknown"
  end.

Definition error_json (error_type code : Z) : Json :=
  mk_obj [("error", mk_obj
    [("type", JStr (error_type_name error_type));
     ("code", if error_type =? 0 then JInt code else JStr (error_code_name code))])].

(** [json!({ "_xdr_tag": tag })]. *)
Definition tag_json (tag : Z) : Json := mk_obj [("_xdr_tag", JInt tag)].

Definition read_bool : reader Json :=
  raw ← read_u32;
  if raw =? 0 then mret (JBool false)
  else if raw =? 1 then mret (JBool true)
  else malformed.

Definition read_error : reader Json :=
  error_type ← read_u32; code ← read_u32; mret (error_json error_type code).

(** The loop of [read_map]: the object, the pairs, [all_stringy] and
    [has_collision]. *)
Definition MapState : Type := list (string * Json) * list Json * bool * bool.

Definition read_map_entry (st : MapState) (k v : Json) : MapState :=
  let '(obj, pairs, all_stringy, has_collision) := st in
  let '(obj', stringy, collision) :=
    match k with
    | JStr s => (bt_insert s v obj, all_stringy,
                 match bt_get s obj with Some _ => true | None => has_collision end)
    | _ => (obj, false, has_collision)
    end in
  (obj', (pairs ++ [mk_obj [("key", k); ("val", v)]])%list, stringy, collision).

Fixpoint map_loop (read : reader Json) (len : nat) (st : MapState) : reader MapState :=
  match len with
  | O => mret st
  | S len' =>
      k ← read; v ← read; map_loop read len' (read_map_entry st k v)
  end.

Definition read_map (read : reader Json) (len : Z) : reader Json :=
  '(obj, pairs, all_stringy, has_collision) ← map_loop read (Z.to_nat len) ([], [], true, false);
  mret (if all_stringy && negb has_collision then JObj obj else JArr pairs).

(** The two reads of every pair, their results dropped. *)
Definition skip_contract_instance_payload (read : reader Json) : reader () :=
  exec_kind ← read_u32;
  _ ← (if exec_kind =? 0 then _ ← cursor_take 32; mret ()
       else if exec_kind =? 1 then mret () else malformed);
  present ← read_u32;
  if present =? 0 then mret ()
  else
    len ← read_u32;
    _ ← read_n (_ ← read; read) (Z.to_nat len);
    mret ().

Section read.
Context `{Stellar}.

(** The strkeys are written by [stellar_strkey]. *)
Definition read_address : reader string :=
  kind ← read_u32;
  if kind =? SC_ADDRESS_ACCOUNT then
    _ ← read_u32;
    raw ← cursor_take 32;
    mret (strkey_to_string (SkPublicKeyEd25519 raw))
  else if kind =? SC_ADDRESS_CONTRACT then
    raw ← cursor_take 32;
    mret (strkey_to_string (SkContract raw))
  else if kind =? SC_ADDRESS_MUXED_ACCOUNT then
    id ← read_u64;
    raw ← cursor_take 32;
    mret (strkey_to_string (SkMuxedAccountEd25519 id raw))
  else if kind =? SC_ADDRESS_CLAIMABLE_BALANCE then
    version ← read_u32;
    if negb (version =? 0) then malformed
    else raw ← cursor_take 32; mret (strkey_to_string (SkClaimableBalanceV0 raw))
  else if kind =? SC_ADDRESS_LIQUIDITY_POOL then
    raw ← cursor_take 32;
    mret (strkey_to_string (SkLiquidityPool raw))
  else malformed.

(** The [match tag]; [read] is [self.read_scval(depth + 1)]. *)
Definition read_tagged (read : reader Json) (tag : Z) : reader Json :=
  if tag =? SCV_BOOL then read_bool
  else if tag =? SCV_VOID then mret JNull
  else if tag =? SCV_ERROR then read_error
  else if tag =? SCV_U32 then n ← read_u32; mret (JInt n)
  else if tag =? SCV_I32 then n ← read_i32; mret (JInt n)
  else if tag =? SCV_U64 then n ← read_u64; mret (JStr (show_u n))
  else if tag =? SCV_I64 then n ← read_i64; mret (JStr (show_i n))
  else if tag =? SCV_TIMEPOINT then n ← read_u64; mret (JStr (show_u n))
  else if tag =? SCV_DURATION then n ← read_u64; mret (JStr (show_u n))
  else if tag =? SCV_U128 then
    hi ← read_u64; lo ← read_u64; mret (JStr (show_u (Z.lor (Z.shiftl hi 64) lo)))
  else if tag =? SCV_I128 then
    hi ← read_i64; lo ← read_u64; mret (JStr (show_i (Z.lor (Z.shiftl hi 64) lo)))
  else if (tag =? SCV_U256) || (tag =? SCV_I256) then
    raw ← cursor_take 32; mret (mk_obj [("_u256_hex", JStr (hex raw))])
  else if tag =? SCV_BYTES then b ← var_bytes; mret (JStr ("0x" +:+ hex b))
  else if tag =? SCV_STRING then b ← var_bytes; mret (text_or_hex b)
  else if tag =? SCV_SYMBOL then b ← var_bytes; mret (text_or_hex b)
  else if tag =? SCV_VEC then
    present ← read_u32;
    if present =? 0 then mret (JArr [])
    else len ← read_u32; items ← read_n read (Z.to_nat len); mret (JArr items)
  else if tag =? SCV_MAP then
    present ← read_u32;
    if present =? 0 then mret (JObj [])
    else len ← read_u32; read_map read len
  else if tag =? SCV_ADDRESS then a ← read_address; mret (JStr a)
  else if tag =? SCV_CONTRACT_INSTANCE then
    _ ← skip_contract_instance_payload read; mret (tag_json SCV_CONTRACT_INSTANCE)
  else if tag =? SCV_LEDGER_KEY_CONTRACT_INSTANCE then
    mret (tag_json SCV_LEDGER_KEY_CONTRACT_INSTANCE)
  else if tag =? SCV_LEDGER_KEY_NONCE then
    _ ← read_i64; mret (tag_json SCV_LEDGER_KEY_NONCE)
  else malformed.

(** The recursion goes one level down with every [depth + 1], and stops above
    [MAX_DEPTH]: the levels left are its measure. *)
Fixpoint read_levels (levels : nat) : reader Json :=
  match levels with
  | O => malformed
  | S deeper => tag ← read_u32; read_tagged (read_levels deeper) tag
  end.

Definition read_scval (depth : Z) : reader Json := read_levels (Z.to_nat (MAX_DEPTH + 1 - depth)).

(** The code's own recursion. *)
Lemma read_scval_eq depth :
  0 ≤ depth →
  read_scval depth =
    if MAX_DEPTH <? depth then malformed
    else tag ← read_u32; read_tagged (read_scval (depth + 1)) tag.
Proof.
  intros Hd. unfold read_scval. destruct (Z.ltb_spec MAX_DEPTH depth).
  - by replace (Z.to_nat (MAX_DEPTH + 1 - depth)) with 0%nat by lia.
  - replace (Z.to_nat (MAX_DEPTH + 1 - depth))
      with (S (Z.to_nat (MAX_DEPTH + 1 - (depth + 1)))) by lia. done.
Qed.
End read.

(** ** The reader stays inside its buffer *)

(** Every success of [m] consumed at least [k] bytes of the buffer, and depends
    on no byte beyond those it consumed. *)
Definition framed {A} (k : Z) (m : reader A) : Prop :=
  ∀ c a c', 0 ≤ pos c ≤ cursor_len c → m c = Some (a, c') →
    buf c' = buf c ∧ pos c + k ≤ pos c' ≤ cursor_len c
    ∧ ∀ b, take (Z.to_nat (pos c')) b = take (Z.to_nat (pos c')) (buf c) →
        m {| buf := b; pos := pos c |} = Some (a, {| buf := b; pos := pos c' |}).

Lemma framed_weaken {A} k k' (m : reader A) : k' ≤ k → framed k m → framed k' m.
Proof.
  intros Hk Hm c a c' Hc He. destruct (Hm c a c' Hc He) as (? & ? & ?).
  split_and!; auto with lia.
Qed.

Lemma framed_ret {A} (a : A) : framed 0 (mret a).
Proof.
  intros c x c' Hc He. injection He as <- <-. split_and!; [done|lia|lia|]. by intros.
Qed.

Lemma framed_malformed {A} k : framed k (@malformed A).
Proof. intros c a c' _ He. discriminate He. Qed.

(** What [m] returns. *)
Definition returns {A} (P : A → Prop) (m : reader A) : Prop := ∀ c a c', m c = Some (a, c') → P a.

Lemma framed_bind_post {A B} (P : A → Prop) k k' (m : reader A) (f : A → reader B) :
  0 ≤ k → 0 ≤ k' → framed k m → returns P m → (∀ a, P a → framed k' (f a)) →
  framed (k + k') (m ≫= f).
Proof.
  intros Hk Hk' Hm HP Hf c b c2 Hc He. unfold mbind, reader_bind in He.
  destruct (m c) as [[a c1]|] eqn:E1; [|discriminate].
  destruct (Hm c a c1 Hc E1) as (Hb1 & Hp1 & Hs1).
  assert (Hc1 : 0 ≤ pos c1 ≤ cursor_len c1) by (unfold cursor_len in *; rewrite Hb1; lia).
  destruct (Hf a (HP _ _ _ E1) c1 b c2 Hc1 He) as (Hb2 & Hp2 & Hs2).
  unfold cursor_len in *. rewrite Hb1 in *. split_and!; [done|lia|lia|].
  intros b' Hpre. unfold mbind, reader_bind. rewrite Hs1; [by apply Hs2|].
  apply (f_equal (take (Z.to_nat (pos c1)))) in Hpre.
  rewrite !take_take, !Nat.min_l in Hpre by lia. done.
Qed.

Lemma framed_bind {A B} k k' (m : reader A) (f : A → reader B) :
  0 ≤ k → 0 ≤ k' → framed k m → (∀ a, framed k' (f a)) → framed (k + k') (m ≫= f).
Proof. intros Hk Hk' Hm Hf. apply framed_bind_post with (P := λ _, True); [done..|]. auto. Qed.

(** The reads after the first need not be counted. *)
Lemma framed_bind_l {A B} k (m : reader A) (f : A → reader B) :
  0 ≤ k → framed k m → (∀ a, framed 0 (f a)) → framed k (m ≫= f).
Proof.
  intros Hk Hm Hf. replace k with (k + 0) by lia. by apply framed_bind.
Qed.

Lemma framed_take n : 0 ≤ n → framed n (cursor_take n).
Proof.
  intros Hn c a c' Hc He. unfold cursor_take in *.
  destruct (Z.leb_spec (2 ^ 64) (pos c + n)) as [|Hsmall]; [discriminate|].
  destruct (Z.ltb_spec (cursor_len c) (pos c + n)) as [|Hlen]; [discriminate|].
  injection He as <- <-. cbn [buf pos] in *. split_and!; [done|lia|lia|].
  intros b Hpre. pose proof (f_equal length Hpre) as Hl.
  unfold cursor_len in *. rewrite !length_take in Hl. cbn [buf].
  destruct (Z.leb_spec (2 ^ 64) (pos c + n)); [lia|].
  destruct (Z.ltb_spec (Z.of_nat (length b)) (pos c + n)); [lia|].
  do 2 f_equal. apply (f_equal (drop (Z.to_nat (pos c)))) in Hpre.
  rewrite !skipn_firstn_comm in Hpre.
  by replace (Z.to_nat (pos c + n) - Z.to_nat (pos c))%nat with (Z.to_nat n) in Hpre by lia.
Qed.

Lemma from_be_nonneg l : 0 ≤ from_be l.
Proof.
  unfold from_be. assert (∀ acc, 0 ≤ acc → 0 ≤ foldl (λ acc b, acc * 256 + byte_val b) acc l)
    as Hgen; [|by apply Hgen].
  induction l as [|b l IH]; intros acc Hacc; [done|]. cbn [foldl].
  apply IH. pose proof (byte_val_range b). lia.
Qed.

Lemma framed_u32 : framed 4 read_u32.
Proof. apply framed_bind_l; [lia|by apply framed_take|]. intros. apply framed_ret. Qed.

Lemma framed_i32 : framed 4 read_i32.
Proof. apply framed_bind_l; [lia|by apply framed_take|]. intros. apply framed_ret. Qed.

Lemma framed_u64 : framed 8 read_u64.
Proof. apply framed_bind_l; [lia|by apply framed_take|]. intros. apply framed_ret. Qed.

Lemma framed_i64 : framed 8 read_i64.
Proof. apply framed_bind_l; [lia|by apply framed_take|]. intros. apply framed_ret. Qed.

Lemma returns_u32 : returns (λ n, 0 ≤ n) read_u32.
Proof.
  intros c n c' He. unfold read_u32, mbind, reader_bind in He.
  destruct (cursor_take 4 c) as [[b c1]|]; [|discriminate]. injection He as <- <-.
  apply from_be_nonneg.
Qed.

Lemma framed_var_bytes : framed 4 var_bytes.
Proof.
  replace 4 with (4 + 0) by lia.
  apply framed_bind_post with (P := λ n, 0 ≤ n); [done..|apply framed_u32|apply returns_u32|].
  intros len Hlen. apply framed_weaken with len; [done|].
  apply framed_bind_l; [done|by apply framed_take|]. intros data.
  apply framed_weaken with ((4 - len mod 4) mod 4); [apply Z.mod_pos_bound; lia|].
  apply framed_bind_l; [apply Z.mod_pos_bound; lia|apply framed_take, Z.mod_pos_bound; lia|].
  intros. apply framed_ret.
Qed.

(** [n] reads of at least [k] bytes each. *)
Lemma framed_read_n {A} k (m : reader A) n :
  0 ≤ k → framed k m → framed (Z.of_nat n * k) (read_n m n).
Proof.
  intros Hk Hm. induction n as [|n IH]; cbn [read_n]; [apply framed_ret|].
  replace (Z.of_nat (S n) * k) with (k + Z.of_nat n * k) by lia.
  apply framed_bind; [done|lia|done|]. intros x.
  apply framed_bind_l; [lia|done|]. intros. apply framed_ret.
Qed.

Lemma framed_map_loop k (m : reader Json) n st :
  0 ≤ k → framed k m → framed (Z.of_nat n * (2 * k)) (map_loop m n st).
Proof.
  intros Hk Hm. revert st; induction n as [|n IH]; intros st; cbn [map_loop]; [apply framed_ret|].
  replace (Z.of_nat (S n) * (2 * k)) with (k + (k + Z.of_nat n * (2 * k))) by lia.
  apply framed_bind; [lia|lia|done|]. intros x. apply framed_bind; auto with lia.
Qed.

(** Where the bytes consumed need not be counted. *)
Lemma framed_bind_0 {A B} k (m : reader A) (f : A → reader B) :
  0 ≤ k → framed k m → (∀ a, framed 0 (f a)) → framed 0 (m ≫= f).
Proof. intros Hk Hm Hf. apply framed_weaken with k; [done|]. by apply framed_bind_l. Qed.

Ltac frame :=
  repeat match goal with
  | |- ∀ _, _ => intros ?
  | |- framed _ (mret _) => apply framed_ret
  | |- framed _ malformed => apply framed_malformed
  | |- framed 0 (read_u32 ≫= _) => apply (framed_bind_0 4); [lia|apply framed_u32|]
  | |- framed 0 (read_i32 ≫= _) => apply (framed_bind_0 4); [lia|apply framed_i32|]
  | |- framed 0 (read_u64 ≫= _) => apply (framed_bind_0 8); [lia|apply framed_u64|]
  | |- framed 0 (read_i64 ≫= _) => apply (framed_bind_0 8); [lia|apply framed_i64|]
  | |- framed 0 (var_bytes ≫= _) => apply (framed_bind_0 4); [lia|apply framed_var_bytes|]
  | |- framed 0 (cursor_take ?n ≫= _) => apply (framed_bind_0 n); [lia|by apply framed_take|]
  | |- framed 0 (if ?b then _ else _) => destruct b
  end.

Lemma framed_read_map read len :
  framed 4 read → framed 0 (read_map read len).
Proof.
  intros Hr. unfold read_map. apply framed_weaken with (Z.of_nat (Z.to_nat len) * (2 * 4)); [lia|].
  apply framed_bind_l; [lia|by apply framed_map_loop|]. intros [[[? ?] ?] ?]. frame.
Qed.

Lemma framed_skip read : framed 4 read → framed 0 (skip_contract_instance_payload read).
Proof.
  intros Hr. unfold skip_contract_instance_payload. frame.
  apply (framed_bind_0 0); [done|by frame|]. frame.
  apply (framed_bind_0 (Z.of_nat (Z.to_nat a2) * 8)); [lia| |by frame].
  apply framed_read_n; [done|]. replace 8 with (4 + 4) by lia. by apply framed_bind.
Qed.

Section framed.
Context `{Stellar}.

Lemma framed_address : framed 0 read_address.
Proof. unfold read_address. frame. Qed.

Lemma framed_tagged read tag : framed 4 read → framed 0 (read_tagged read tag).
Proof.
  intros Hr. unfold read_tagged, read_bool, read_error. frame.
  - apply (framed_bind_0 (Z.of_nat (Z.to_nat a0) * 4)); [lia|by apply framed_read_n|by frame].
  - by apply framed_read_map.
  - apply (framed_bind_0 0); [done|apply framed_address|by frame].
  - apply (framed_bind_0 0); [done|by apply framed_skip|by frame].
Qed.

Lemma framed_levels levels : framed 4 (read_levels levels).
Proof.
  induction levels as [|levels IH]; cbn [read_levels]; [apply framed_malformed|].
  apply framed_bind_l; [lia|apply framed_u32|]. intros tag. by apply framed_tagged.
Qed.

(** Whatever the bytes are, the reader stays inside them: a value it returns
    took at least the four bytes of its tag, ended inside the buffer, and
    would be the same with any other bytes after it; and a sequence of [n]
    values is only read from at least [4 n] bytes, whatever length its header
    claims. *)
Theorem read_scval_bounded depth c v c' :
  0 ≤ pos c ≤ cursor_len c → read_scval depth c = Some (v, c') →
  buf c' = buf c ∧ pos c + 4 ≤ pos c' ≤ cursor_len c
  ∧ ∀ b, take (Z.to_nat (pos c')) b = take (Z.to_nat (pos c')) (buf c) →
      read_scval depth {| buf := b; pos := pos c |} = Some (v, {| buf := b; pos := pos c' |}).
Proof. intros Hc He. by apply framed_levels. Qed.

Theorem read_items_bounded depth c n vs c' :
  0 ≤ pos c ≤ cursor_len c → read_n (read_scval depth) n c = Some (vs, c') →
  4 * Z.of_nat n ≤ cursor_len c - pos c.
Proof.
  intros Hc He. pose proof (framed_read_n 4 (read_scval depth) n) as Hf.
  destruct (Hf ltac:(lia) (framed_levels _) c vs c' Hc He) as (_ & Hp & _). lia.
Qed.
End framed.

(** ** The wire format *)

(** [n] bytes of [z], most significant first. *)
Fixpoint be_bytes (n : nat) (z : Z) : list ascii :=
  match n with
  | O => []
  | S n' => byte_of ((z / 2 ^ (8 * Z.of_nat n')) mod 256) :: be_bytes n' z
  end.

Definition u32_bytes (z : Z) : list ascii := be_bytes 4 z.
Definition u64_bytes (z : Z) : list ascii := be_bytes 8 z.

(** Variable opaque data: the length, the bytes, zeros to a multiple of four. *)
Definition opaque_bytes (b : list ascii) : list ascii :=
  u32_bytes (Z.of_nat (length b)) ++ b
  ++ repeat (byte_of 0) (Z.to_nat ((4 - Z.of_nat (length b) mod 4) mod 4)).

Definition limb_bytes (p : Parts256) : list ascii := limbs_of p ≫= u64_bytes.

Definition address_bytes (a : ScAddress) : list ascii :=
  match a with
  | AddrAccount k => u32_bytes 0 ++ u32_bytes 0 ++ k
  | AddrContract h => u32_bytes 1 ++ h
  | AddrMuxedAccount i k => u32_bytes 2 ++ u64_bytes i ++ k
  | AddrClaimableBalance h => u32_bytes 3 ++ u32_bytes 0 ++ h
  | AddrLiquidityPool h => u32_bytes 4 ++ h
  end.

Definition exec_bytes (e : ContractExecutable) : list ascii :=
  match e with ExecWasm h => u32_bytes 0 ++ h | ExecStellarAsset => u32_bytes 1 end.

(** The [ScVal] union: its tag, then the payload of the variant; an option is a
    presence flag, an array its length and its elements. *)
Fixpoint wire (v : ScVal) : list ascii :=
  let seq l := u32_bytes (Z.of_nat (length l)) ++ (l ≫= wire) in
  let entries m := u32_bytes (Z.of_nat (length m)) ++ (m ≫= λ p, wire p.1 ++ wire p.2) in
  let opt {A} (f : A → list ascii) (o : option A) :=
    match o with None => u32_bytes 0 | Some x => u32_bytes 1 ++ f x end in
  match v with
  | ScvBool b => u32_bytes 0 ++ u32_bytes (if b then 1 else 0)
  | ScvVoid => u32_bytes 1
  | ScvError (ErrContract code) => u32_bytes 2 ++ u32_bytes 0 ++ u32_bytes code
  | ScvError (ErrHost ty code) => u32_bytes 2 ++ u32_bytes ty ++ u32_bytes code
  | ScvU32 n => u32_bytes 3 ++ u32_bytes n
  | ScvI32 n => u32_bytes 4 ++ u32_bytes n
  | ScvU64 n => u32_bytes 5 ++ u64_bytes n
  | ScvI64 n => u32_bytes 6 ++ u64_bytes n
  | ScvTimepoint n => u32_bytes 7 ++ u64_bytes n
  | ScvDuration n => u32_bytes 8 ++ u64_bytes n
  | ScvU128 hi lo => u32_bytes 9 ++ u64_bytes hi ++ u64_bytes lo
  | ScvI128 hi lo => u32_bytes 10 ++ u64_bytes hi ++ u64_bytes lo
  | ScvU256 p => u32_bytes 11 ++ limb_bytes p
  | ScvI256 p => u32_bytes 12 ++ limb_bytes p
  | ScvBytes b => u32_bytes 13 ++ opaque_bytes b
  | ScvString b => u32_bytes 14 ++ opaque_bytes b
  | ScvSymbol b => u32_bytes 15 ++ opaque_bytes b
  | ScvVec o => u32_bytes 16 ++ opt seq o
  | ScvMap o => u32_bytes 17 ++ opt entries o
  | ScvAddress a => u32_bytes 18 ++ address_bytes a
  | ScvContractInstance e o => u32_bytes 19 ++ exec_bytes e ++ opt entries o
  | ScvLedgerKeyContractInstance => u32_bytes 20
  | ScvLedgerKeyNonce n => u32_bytes 21 ++ u64_bytes n
  end.

(** How deep values nest below the top-level one. *)
Fixpoint vdepth (v : ScVal) : nat :=
  let entries m := max_list ((λ p, S (vdepth p.1) `max` S (vdepth p.2))%nat <$> m) in
  match v with
  | ScvVec (Some l) => max_list ((λ x, S (vdepth x)) <$> l)
  | ScvMap (Some m) => entries m
  | ScvContractInstance _ (Some m) => entries m
  | _ => 0
  end.

Definition fits {A} (l : list A) : bool := in_u 32 (Z.of_nat (length l)).

(** What the XDR types can hold. *)
Fixpoint wire_ok (v : ScVal) : bool :=
  let entries m := fits m && forallb (λ p, wire_ok p.1 && wire_ok p.2) m in
  match v with
  | ScvError (ErrContract code) => in_u 32 code
  | ScvError (ErrHost ty code) => c_in 1 9 ty && in_u 32 code
  | ScvU32 n => in_u 32 n
  | ScvI32 n => in_i 32 n
  | ScvU64 n | ScvTimepoint n | ScvDuration n => in_u 64 n
  | ScvI64 n | ScvLedgerKeyNonce n => in_i 64 n
  | ScvU128 hi lo => in_u 64 hi && in_u 64 lo
  | ScvI128 hi lo => in_i 64 hi && in_u 64 lo
  | ScvU256 p => forallb (in_u 64) (limbs_of p)
  | ScvI256 p => in_i 64 (hi_hi p) && forallb (in_u 64) [hi_lo p; lo_hi p; lo_lo p]
  | ScvBytes b | ScvString b | ScvSymbol b => fits b
  | ScvVec (Some l) => fits l && forallb wire_ok l
  | ScvMap (Some m) => entries m
  | ScvAddress a => address_wf a
  | ScvContractInstance e o =>
      match e with ExecWasm h => (length h =? 32)%nat | ExecStellarAsset => true end
      && match o with Some m => entries m | None => true end
  | _ => true
  end.

Definition string_keys (kvs : list (Json * Json)) : list string := (omap string_entry kvs).*1.

(** An object when the keys are texts and differ, else the pairs. *)
Definition dialect_map (kvs : list (Json * Json)) : Json :=
  if forallb (λ kv, stringy kv.1) kvs && bool_decide (NoDup (string_keys kvs))
  then JObj (bt_of_list (omap string_entry kvs))
  else JArr (pair_obj <$> kvs).

Section dialect.
Context `{Stellar}.

(** The JSON of the reader. *)
Fixpoint dialect (v : ScVal) : Json :=
  match v with
  | ScvError (ErrContract code) => error_json 0 code
  | ScvError (ErrHost ty code) => error_json ty code
  | ScvU256 p | ScvI256 p => mk_obj [("_u256_hex", JStr (hex (limb_bytes p)))]
  | ScvVec (Some l) => JArr (dialect <$> l)
  | ScvMap (Some m) => dialect_map ((λ p, (dialect p.1, dialect p.2)) <$> m)
  | ScvContractInstance _ _ => tag_json 19
  | ScvLedgerKeyContractInstance => tag_json 20
  | ScvLedgerKeyNonce _ => tag_json 21
  | _ => decode_scval v
  end.
End dialect.

(** [m] reads exactly [bs], wherever they are in a buffer: with the answer [r],
    or, for [None], it fails there. *)
Definition reads {A} (m : reader A) (bs : list ascii) (r : option A) : Prop :=
  ∀ pre rest, Z.of_nat (length (pre ++ bs ++ rest)) < 2 ^ 63 →
    m {| buf := pre ++ bs ++ rest; pos := Z.of_nat (length pre) |}
    = (λ a, (a, {| buf := pre ++ bs ++ rest; pos := Z.of_nat (length pre + length bs) |})) <$> r.

Lemma reads_ret {A} (a : A) : reads (mret a) [] (Some a).
Proof. intros pre rest _. cbn. by rewrite Nat.add_0_r. Qed.

Lemma reads_bind {A B} (m : reader A) (f : A → reader B) bs bs' a r :
  reads m bs (Some a) → reads (f a) bs' r → reads (m ≫= f) (bs ++ bs') r.
Proof.
  intros Hm Hf pre rest Hlen. unfold mbind, reader_bind.
  rewrite <- (app_assoc bs) in Hlen |- *. rewrite (Hm pre (bs' ++ rest)) by done. cbn.
  specialize (Hf (pre ++ bs) rest). rewrite <- (app_assoc pre bs) in Hf.
  rewrite (length_app pre bs) in Hf. rewrite Hf by done.
  destruct r; cbn; [|done]. rewrite length_app. by rewrite Nat.add_assoc.
Qed.

Lemma reads_bind_None {A B} (m : reader A) (f : A → reader B) bs bs' :
  reads m bs None → reads (m ≫= f) (bs ++ bs') None.
Proof.
  intros Hm pre rest Hlen. unfold mbind, reader_bind.
  rewrite <- (app_assoc bs) in Hlen |- *. by rewrite (Hm pre (bs' ++ rest)).
Qed.

(** The last read of a sequence. *)
Lemma reads_last {A B} (m : reader A) (f : A → reader B) bs a r :
  reads m bs (Some a) → reads (f a) [] r → reads (m ≫= f) bs r.
Proof. intros Hm Hf. rewrite <- (app_nil_r bs). by eapply reads_bind. Qed.

Lemma reads_take bs n : n = Z.of_nat (length bs) → reads (cursor_take n) bs (Some bs).
Proof.
  intros -> pre rest Hlen. unfold cursor_take, cursor_len. cbn [buf pos].
  rewrite !length_app in *.
  destruct (Z.leb_spec (2 ^ 64) (Z.of_nat (length pre) + Z.of_nat (length bs))); [lia|].
  destruct (Z.ltb_spec (Z.of_nat (length pre + (length bs + length rest)))
              (Z.of_nat (length pre) + Z.of_nat (length bs))); [lia|].
  rewrite !Nat2Z.id, drop_app_length, take_app_length. cbn. do 3 f_equal. lia.
Qed.

Lemma reads_malformed {A} bs : reads (@malformed A) bs None.
Proof. by intros pre rest _. Qed.

Lemma length_be_bytes n z : length (be_bytes n z) = n.
Proof. induction n as [|n IH]; [done|]. cbn. by rewrite IH. Qed.

Lemma from_be_bytes n z : from_be (be_bytes n z) = z mod 2 ^ (8 * Z.of_nat n).
Proof.
  unfold from_be. assert (∀ acc, foldl (λ acc b, acc * 256 + byte_val b) acc (be_bytes n z)
    = acc * 2 ^ (8 * Z.of_nat n) + z mod 2 ^ (8 * Z.of_nat n)) as Hgen; [|by rewrite Hgen].
  induction n as [|n IH]; intros acc; cbn [be_bytes foldl].
  { rewrite Z.mul_0_r, Z.pow_0_r, Z.mod_1_r. lia. }
  rewrite IH, byte_val_of by (apply Z.mod_pos_bound; lia).
  replace (8 * Z.of_nat (S n)) with (8 * Z.of_nat n + 8) by lia.
  rewrite Z.pow_add_r by lia. change (2 ^ 8) with 256.
  assert (0 < 2 ^ (8 * Z.of_nat n)) by (apply Z.pow_pos_nonneg; lia).
  rewrite Z.rem_mul_r by lia. ring.
Qed.

Lemma reads_u32 z : in_u 32 z = true → reads read_u32 (u32_bytes z) (Some z).
Proof.
  intros Hz%in_u_spec. unfold read_u32. eapply reads_last.
  - apply reads_take. unfold u32_bytes. by rewrite length_be_bytes.
  - unfold u32_bytes. rewrite from_be_bytes, Z.mod_small by done. apply reads_ret.
Qed.

Lemma reads_u64 z : in_u 64 z = true → reads read_u64 (u64_bytes z) (Some z).
Proof.
  intros Hz%in_u_spec. unfold read_u64. eapply reads_last.
  - apply reads_take. unfold u64_bytes. by rewrite length_be_bytes.
  - unfold u64_bytes. rewrite from_be_bytes, Z.mod_small by done. apply reads_ret.
Qed.

(** Two's complement. *)
Lemma as_signed_mod w z : 0 < w → in_i w z = true → as_signed w (z mod 2 ^ w) = z.
Proof.
  intros Hw Hz%in_i_spec. rewrite <- (as_signed_small w z) at 2 by lia.
  unfold as_signed, wrap. rewrite Z.mod_mod by (pose proof (Z.pow_pos_nonneg 2 w); lia). done.
Qed.

Lemma reads_i32 z : in_i 32 z = true → reads read_i32 (u32_bytes z) (Some z).
Proof.
  intros Hz. unfold read_i32. eapply reads_last.
  - apply reads_take. unfold u32_bytes. by rewrite length_be_bytes.
  - unfold u32_bytes. rewrite from_be_bytes. change (8 * Z.of_nat 4) with 32.
    rewrite as_signed_mod by done. apply reads_ret.
Qed.

Lemma reads_i64 z : in_i 64 z = true → reads read_i64 (u64_bytes z) (Some z).
Proof.
  intros Hz. unfold read_i64. eapply reads_last.
  - apply reads_take. unfold u64_bytes. by rewrite length_be_bytes.
  - unfold u64_bytes. rewrite from_be_bytes. change (8 * Z.of_nat 8) with 64.
    rewrite as_signed_mod by done. apply reads_ret.
Qed.

Lemma reads_opaque b : fits b = true → reads var_bytes (opaque_bytes b) (Some b).
Proof.
  intros Hb. unfold var_bytes, opaque_bytes. eapply reads_bind; [by apply reads_u32|].
  eapply reads_bind; [by apply reads_take|]. eapply reads_last; [|apply reads_ret].
  apply reads_take. rewrite repeat_length.
  pose proof (Z.mod_pos_bound (4 - Z.of_nat (length b) mod 4) 4). lia.
Qed.

Lemma reads_payload k : (length k =? 32)%nat = true → reads (cursor_take 32) k (Some k).
Proof. intros Hk%Nat.eqb_eq. apply reads_take. by rewrite Hk. Qed.

Lemma reads_address `{Stellar} a :
  address_wf a = true → reads read_address (address_bytes a) (Some (sc_address_to_string a)).
Proof.
  intros Ha. unfold read_address, address_bytes.
  destruct a; cbn [address_wf] in Ha; try apply andb_true_iff in Ha as [Hi Ha];
    (eapply reads_bind; [by apply reads_u32|]); cbn [Z.eqb Pos.eqb negb];
    try (eapply reads_bind; [by (apply reads_u32 || apply reads_u64)|]);
    cbn [Z.eqb Pos.eqb negb];
    (eapply reads_last; [by apply reads_payload|apply reads_ret]).
Qed.

(** A sequence is read element by element, and fails where an element does. *)
Lemma reads_n {X A} (enc : X → list ascii) (val : X → option A) (m : reader A) l :
  Forall (λ x, reads m (enc x) (val x)) l →
  reads (read_n m (length l)) (l ≫= enc) (mapM val l).
Proof.
  induction 1 as [|x l Hx _ IH]; cbn [read_n length mapM]; [apply reads_ret|].
  rewrite bind_cons. destruct (val x) as [a|]; cbn [mbind option_bind].
  - eapply reads_bind; [done|]. destruct (mapM val l) as [xs|]; cbn.
    + eapply reads_last; [done|apply reads_ret].
    + rewrite <- (app_nil_r (l ≫= enc)). by apply reads_bind_None.
  - by apply reads_bind_None.
Qed.

Lemma reads_map_loop {X} (enc : X → list ascii) (val : X → option Json) (m : reader Json) l st :
  Forall (λ p, reads m (enc p.1) (val p.1) ∧ reads m (enc p.2) (val p.2)) l →
  reads (map_loop m (length l) st) (l ≫= λ p, enc p.1 ++ enc p.2)
    ((λ kvs, foldl (λ st kv, read_map_entry st kv.1 kv.2) st kvs)
     <$> mapM (λ p, k ← val p.1; v ← val p.2; Some (k, v)) l).
Proof.
  intros Hl. revert st. induction Hl as [|[x y] l [Hx Hy] _ IH]; intros st;
    cbn [map_loop length mapM]; [apply reads_ret|].
  rewrite bind_cons, <- app_assoc. cbn [fst snd] in *.
  destruct (val x) as [k|]; cbn [mbind option_bind fmap option_fmap option_map];
    [|by apply reads_bind_None].
  eapply reads_bind; [done|].
  destruct (val y) as [v|]; cbn; [|by apply reads_bind_None].
  eapply reads_bind; [done|]. specialize (IH (read_map_entry st k v)).
  destruct (mapM _ l); exact IH.
Qed.

(** ** The reader inverts the wire format *)

Lemma string_keys_snoc kvs kv :
  string_keys (kvs ++ [kv]) =
    (string_keys kvs ++ match kv.1 with JStr s => [s] | _ => [] end)%list.
Proof.
  unfold string_keys. rewrite omap_app, fmap_app. f_equal. cbn [omap list_omap].
  unfold string_entry. by destruct kv.1.
Qed.

Lemma read_map_fold kvs :
  foldl (λ st kv, read_map_entry st kv.1 kv.2) ([], [], true, false) kvs
  = (bt_of_list (omap string_entry kvs), pair_obj <$> kvs,
     forallb (λ kv, stringy kv.1) kvs, negb (bool_decide (NoDup (string_keys kvs)))).
Proof.
  induction kvs as [|[k v] kvs IH] using rev_ind; [done|].
  rewrite foldl_app, IH, fmap_app, forallb_app, omap_app, string_keys_snoc.
  cbn [foldl fst snd read_map_entry omap list_omap forallb].
  destruct k as [| | | |s| |]; cbn [string_entry fst snd stringy read_map_entry fmap list_fmap];
    rewrite ?app_nil_r, ?andb_false_r, ?andb_true_r; try done.
  rewrite bt_of_list_snoc. f_equal.
  assert (bt_get s (bt_of_list (omap string_entry kvs)) = None ↔ s ∉ string_keys kvs) as Hget.
  { rewrite bt_get_None, bt_of_list_keys. done. }
  destruct (bt_get s _) as [w|].
  - assert (s ∈ string_keys kvs) as Hin by (apply dec_stable; intros Hn; by apply Hget in Hn).
    rewrite bool_decide_eq_false_2; [done|]. intros (_ & Hd & _)%NoDup_app.
    apply (Hd s Hin). by apply list_elem_of_singleton.
  - pose proof (proj1 Hget eq_refl) as Hs. f_equal. apply bool_decide_ext.
    rewrite NoDup_app. split; [|by intros (? & _)].
    intros Hnd. split_and!; [done| |apply NoDup_singleton].
    intros x Hx ->%list_elem_of_singleton. done.
Qed.

Section exact.
Context `{Stellar}.

(** What the reader gives a value with so many levels left. *)
Definition value_at (levels : nat) (v : ScVal) : option Json :=
  if (vdepth v <? levels)%nat then Some (dialect v) else None.

Lemma max_list_lt n l : (max_list l <? S n)%nat = forallb (λ x, x <? S n)%nat l.
Proof.
  induction l as [|x l IH]; [done|]. cbn [max_list_with id forallb]. rewrite <- IH.
  apply eq_true_iff_eq. rewrite andb_true_iff, !Nat.ltb_lt. unfold id. lia.
Qed.

(** All the elements are read, or one is too deep. *)
Lemma mapM_value_at levels l :
  mapM (value_at levels) l
  = if forallb (λ v, vdepth v <? levels)%nat l then Some (dialect <$> l) else None.
Proof.
  induction l as [|v l IH]; [done|]. cbn [mapM forallb]. rewrite IH. unfold value_at.
  destruct (vdepth v <? levels)%nat; [|done]. cbn. by destruct (forallb _ l).
Qed.

Lemma mapM_value_at_pairs {B} (f : Json → Json → B) levels (m : list (ScVal * ScVal)) :
  mapM (λ p, k ← value_at levels p.1; v ← value_at levels p.2; Some (f k v)) m
  = if forallb (λ p, (vdepth p.1 <? levels) && (vdepth p.2 <? levels))%nat m
    then Some ((λ p, f (dialect p.1) (dialect p.2)) <$> m) else None.
Proof.
  induction m as [|[x y] m IH]; [done|]. cbn [mapM forallb fst snd]. rewrite IH. unfold value_at.
  destruct (vdepth x <? levels)%nat; [|done]. cbn [mbind option_bind andb].
  destruct (vdepth y <? levels)%nat; [|done]. cbn [mbind option_bind andb].
  by destruct (forallb _ m).
Qed.

Lemma vdepth_vec levels l :
  (vdepth (ScvVec (Some l)) <? S levels)%nat = forallb (λ v, vdepth v <? levels)%nat l.
Proof.
  cbn [vdepth]. rewrite max_list_lt. induction l as [|v l IH]; [done|].
  cbn [fmap list_fmap forallb]. by rewrite <- IH.
Qed.

Lemma depth_entries levels (m : list (ScVal * ScVal)) :
  (max_list ((λ p, S (vdepth p.1) `max` S (vdepth p.2))%nat <$> m) <? S levels)%nat
  = forallb (λ p, (vdepth p.1 <? levels) && (vdepth p.2 <? levels))%nat m.
Proof.
  rewrite max_list_lt. induction m as [|[x y] m IH]; [done|].
  cbn [fmap list_fmap forallb fst snd]. rewrite <- IH. f_equal.
  apply eq_true_iff_eq. rewrite andb_true_iff, !Nat.ltb_lt. lia.
Qed.

(** A presence flag and an array of pairs, and what reads them. *)
Definition entry_bytes (m : list (ScVal * ScVal)) : list ascii :=
  u32_bytes (Z.of_nat (length m)) ++ (m ≫= λ p, wire p.1 ++ wire p.2).

Lemma reads_entries levels m :
  fits m = true →
  Forall (λ p, reads (read_levels levels) (wire p.1) (value_at levels p.1)
             ∧ reads (read_levels levels) (wire p.2) (value_at levels p.2)) m →
  reads (len ← read_u32; read_map (read_levels levels) len) (entry_bytes m)
    (value_at (S levels) (ScvMap (Some m))).
Proof.
  intros Hfit Hm. unfold entry_bytes, read_map, value_at. cbn [vdepth dialect].
  rewrite depth_entries. eapply reads_bind; [by apply reads_u32|].
  rewrite Nat2Z.id. pose proof (reads_map_loop wire (value_at levels) _ m ([], [], true, false) Hm) as Hl.
  rewrite mapM_value_at_pairs in Hl. destruct (forallb _ m).
  - cbn [fmap option_fmap option_map] in Hl. rewrite read_map_fold in Hl.
    eapply reads_last; [exact Hl|]. cbn. unfold dialect_map. rewrite negb_involutive.
    apply reads_ret.
  - rewrite <- (app_nil_r (m ≫= _)). by apply reads_bind_None.
Qed.

Lemma reads_skip levels e o :
  match e with ExecWasm h => (length h =? 32)%nat | ExecStellarAsset => true end = true →
  match o with Some m => fits m | None => true end = true →
  forall_opt (Forall (λ p, reads (read_levels levels) (wire p.1) (value_at levels p.1)
             ∧ reads (read_levels levels) (wire p.2) (value_at levels p.2))) o →
  reads (skip_contract_instance_payload (read_levels levels))
    (exec_bytes e ++ match o with None => u32_bytes 0 | Some m => u32_bytes 1 ++ entry_bytes m end)
    (if (vdepth (ScvContractInstance e o) <? S levels)%nat then Some () else None).
Proof.
  intros He Hfit Ho. unfold skip_contract_instance_payload.
  assert (∀ r (f : Z → reader ()) bs,
    (∀ k, k = 0 ∨ k = 1 → reads (f k) bs r) →
    reads (exec_kind ← read_u32;
           _ ← (if exec_kind =? 0 then _ ← cursor_take 32; mret ()
                else if exec_kind =? 1 then mret () else malformed);
           f exec_kind) (exec_bytes e ++ bs) r) as Hexec.
  { intros r f bs Hf. destruct e as [h|]; unfold exec_bytes.
    - rewrite <- app_assoc. eapply reads_bind; [by apply reads_u32|]. cbn [Z.eqb].
      eapply reads_bind; [|apply Hf; by left].
      eapply reads_last; [by apply reads_payload|apply reads_ret].
    - eapply reads_bind; [by apply reads_u32|]. cbn [Z.eqb Pos.eqb].
      change bs with ([] ++ bs)%list. eapply reads_bind; [apply reads_ret|]. apply Hf. by right. }
  apply (Hexec _ (λ _, _)). intros _ _. destruct o as [m|]; cbn [forall_opt vdepth] in *.
  - eapply reads_bind; [by apply reads_u32|]. cbn [Z.eqb].
    unfold entry_bytes. eapply reads_bind; [by apply reads_u32|]. rewrite Nat2Z.id, depth_entries.
    assert (reads (read_n (_ ← read_levels levels; read_levels levels) (length m))
      (m ≫= λ p, wire p.1 ++ wire p.2)
      (mapM (λ p, k ← value_at levels p.1; v ← value_at levels p.2; Some v) m)) as Hn.
    { apply reads_n. eapply Forall_impl; [exact Ho|]. intros [x y] [Hx Hy]. cbn [fst snd] in *.
      destruct (value_at levels x) as [k|]; cbn; [|by apply reads_bind_None].
      eapply reads_bind; [exact Hx|]. by destruct (value_at levels y). }
    rewrite (mapM_value_at_pairs (λ _ v, v)) in Hn. destruct (forallb _ m).
    + eapply reads_last; [exact Hn|apply reads_ret].
    + rewrite <- (app_nil_r (m ≫= _)). by apply reads_bind_None.
  - eapply reads_last; [by apply reads_u32|]. apply reads_ret.
Qed.
Lemma length_limb_bytes p : length (limb_bytes p) = 32%nat.
Proof. by destruct p. Qed.

(** One variant after its tag. *)
Ltac read_tag :=
  eapply reads_bind; [apply reads_u32; reflexivity|];
  unfold read_tagged, SCV_BOOL, SCV_VOID, SCV_ERROR, SCV_U32, SCV_I32, SCV_U64, SCV_I64,
    SCV_TIMEPOINT, SCV_DURATION, SCV_U128, SCV_I128, SCV_U256, SCV_I256, SCV_BYTES, SCV_STRING,
    SCV_SYMBOL, SCV_VEC, SCV_MAP, SCV_ADDRESS, SCV_CONTRACT_INSTANCE,
    SCV_LEDGER_KEY_CONTRACT_INSTANCE, SCV_LEDGER_KEY_NONCE;
  cbn [Z.eqb Pos.eqb orb].

Ltac read_head :=
  lazymatch goal with
  | |- reads read_u32 _ _ => apply reads_u32; assumption || reflexivity
  | |- reads read_i32 _ _ => apply reads_i32; assumption
  | |- reads read_u64 _ _ => apply reads_u64; assumption
  | |- reads read_i64 _ _ => apply reads_i64; assumption
  | |- reads var_bytes _ _ => apply reads_opaque; assumption
  | |- reads read_address _ _ => apply reads_address; assumption
  | |- reads (cursor_take 32) _ _ => apply reads_take; rewrite length_limb_bytes; reflexivity
  end.

Ltac read_field :=
  lazymatch goal with
  | |- reads (mret _) [] _ => apply reads_ret
  | |- reads (_ ≫= _) (_ ++ _) _ => eapply reads_bind; [read_head|]; cbv beta
  | |- reads (_ ≫= _) _ _ => eapply reads_last; [read_head|]; cbv beta
  end.

Lemma reads_atom levels v :
  match v with ScvVec _ | ScvMap _ | ScvContractInstance _ _ => False | _ => True end →
  wire_ok v = true → reads (read_levels (S levels)) (wire v) (Some (dialect v)).
Proof.
  intros Ha Hok. cbn [read_levels].
  destruct v as [b| |[code|ty code]| | | | | | | | |p|p|b|b|b| | |a| | |]; try done;
    cbn [wire_ok] in Hok; cbn [wire];
    repeat match goal with Hok : _ && _ = true |- _ => apply andb_true_iff in Hok as [? ?] end;
    try (rewrite <- (app_nil_r (u32_bytes _)); read_tag; apply reads_ret);
    read_tag; unfold read_bool, read_error; repeat read_field.
  - destruct b; read_field; apply reads_ret.
  - assert (in_u 32 ty = true) by (unfold c_in in *; apply in_u_spec; lia). repeat read_field.
Qed.
Lemma forall_entries levels (m : list (ScVal * ScVal)) :
  Forall (λ p, (∀ levels, wire_ok p.1 = true → reads (read_levels levels) (wire p.1) (value_at levels p.1))
             ∧ ∀ levels, wire_ok p.2 = true → reads (read_levels levels) (wire p.2) (value_at levels p.2)) m →
  forallb (λ p, wire_ok p.1 && wire_ok p.2) m = true →
  Forall (λ p, reads (read_levels levels) (wire p.1) (value_at levels p.1)
             ∧ reads (read_levels levels) (wire p.2) (value_at levels p.2)) m.
Proof.
  intros Hm Hok. rewrite Forall_forall in *. intros p Hp. destruct (Hm p Hp) as [Hx Hy].
  apply forallb_forall with (x := p) in Hok; [|by apply list_elem_of_In].
  apply andb_true_iff in Hok as [? ?]. auto.
Qed.

Lemma value_at_atom levels v :
  match v with ScvVec _ | ScvMap _ | ScvContractInstance _ _ => False | _ => True end →
  value_at (S levels) v = Some (dialect v).
Proof. by destruct v as [| | | | | | | | | | | | | | | | | | | | |]. Qed.

Lemma reads_levels levels v :
  wire_ok v = true → reads (read_levels levels) (wire v) (value_at levels v).
Proof.
  revert levels. induction v as [v Ha|o Hl|o Hm|e o Hm] using scval_ind_strong;
    intros [|levels] Hok; try apply reads_malformed.
  - rewrite value_at_atom by done. by apply reads_atom.
  - cbn [read_levels wire]. read_tag. destruct o as [l|].
    + cbn [wire_ok] in Hok. apply andb_true_iff in Hok as [Hfit Hok].
      eapply reads_bind; [apply reads_u32; reflexivity|]. cbn [Z.eqb Pos.eqb].
      eapply reads_bind; [by apply reads_u32|]. rewrite Nat2Z.id.
      unfold value_at. rewrite vdepth_vec.
      assert (reads (read_n (read_levels levels) (length l)) (l ≫= wire)
                (mapM (value_at levels) l)) as Hn.
      { apply reads_n, Forall_forall. intros x Hx. cbn [forall_opt] in Hl.
        rewrite Forall_forall in Hl. apply Hl; [done|].
        by apply forallb_forall with (x := x) in Hok; [|apply list_elem_of_In]. }
      rewrite mapM_value_at in Hn. clear Hok. destruct (forallb _ l).
      * eapply reads_last; [exact Hn|]. apply reads_ret.
      * rewrite <- (app_nil_r (l ≫= wire)). by apply reads_bind_None.
    + eapply reads_last; [apply reads_u32; reflexivity|]. apply reads_ret.
  - cbn [read_levels wire]. read_tag. destruct o as [m|].
    + eapply reads_bind; [apply reads_u32; reflexivity|]. cbn [Z.eqb Pos.eqb].
      cbn [wire_ok] in Hok. apply andb_true_iff in Hok as [Hfit Hok].
      apply reads_entries; [done|]. by apply forall_entries.
    + eapply reads_last; [apply reads_u32; reflexivity|]. apply reads_ret.
  - cbn [read_levels wire]. read_tag. cbn [wire_ok] in Hok. apply andb_true_iff in Hok as [He Hok].
    assert (reads (skip_contract_instance_payload (read_levels levels))
      (exec_bytes e ++ match o with None => u32_bytes 0 | Some m => u32_bytes 1 ++ entry_bytes m end)
      (if (vdepth (ScvContractInstance e o) <? S levels)%nat then Some () else None)) as Hs.
    { destruct o as [m|]; [|exact (reads_skip levels e None He eq_refl I)].
      apply andb_true_iff in Hok as [Hfit Hok].
      exact (reads_skip levels e (Some m) He Hfit (forall_entries _ _ Hm Hok)). }
    unfold value_at. destruct (_ <? _)%nat.
    + eapply reads_last; [exact Hs|]. apply reads_ret.
    + rewrite <- (app_nil_r (exec_bytes e ++ _)). by apply reads_bind_None.
Qed.
End exact.

(** ** Theorems *)

Section theorems.
Context `{Stellar}.

(** The reader inverts the wire format, and its depth limit is exact: where the
    bytes of a value stand in a buffer, whatever is around them, it returns the
    value's JSON and stops at the end of those bytes if the value nests no
    deeper than [MAX_DEPTH], and fails otherwise. *)
Theorem read_scval_wire depth v pre rest :
  0 ≤ depth ≤ MAX_DEPTH → wire_ok v = true →
  Z.of_nat (length (pre ++ wire v ++ rest)) < 2 ^ 63 →
  read_scval depth {| buf := pre ++ wire v ++ rest; pos := Z.of_nat (length pre) |}
  = if depth + Z.of_nat (vdepth v) <=? MAX_DEPTH
    then Some (dialect v, {| buf := pre ++ wire v ++ rest;
                             pos := Z.of_nat (length pre + length (wire v)) |})
    else None.
Proof.
  intros Hd Hok Hlen. unfold read_scval. rewrite reads_levels by done. unfold value_at.
  destruct (Nat.ltb_spec (vdepth v) (Z.to_nat (MAX_DEPTH + 1 - depth)));
    destruct (Z.leb_spec (depth + Z.of_nat (vdepth v)) MAX_DEPTH); (done || lia).
Qed.

(** Values both decoders render alike: no errors, 256-bit integers, contract
    instances or ledger keys, and no map with two keys of one text. *)
Fixpoint shared_dialect (v : ScVal) : bool :=
  match v with
  | ScvError _ | ScvU256 _ | ScvI256 _ | ScvContractInstance _ _
  | ScvLedgerKeyContractInstance | ScvLedgerKeyNonce _ => false
  | ScvVec (Some l) => forallb shared_dialect l
  | ScvMap (Some m) =>
      let kvs := (λ p, (decode_scval p.1, decode_scval p.2)) <$> m in
      forallb (λ p, shared_dialect p.1 && shared_dialect p.2) m
      && (negb (forallb (λ kv, stringy kv.1) kvs) || bool_decide (NoDup (string_keys kvs)))
  | _ => true
  end.

Lemma dialect_shared v : shared_dialect v = true → dialect v = decode_scval v.
Proof.
  induction v as [v Ha|[l|] Hl|[m|] Hm|e o Hm] using scval_ind_strong;
    cbn [forall_opt shared_dialect dialect decode_scval] in *; intros Hs; try done.
  - destruct v; try done.
  - f_equal. apply list_fmap_ext. intros i x Hx%list_elem_of_lookup_2.
    rewrite Forall_forall in Hl. apply Hl; [done|].
    by apply forallb_forall with (x := x) in Hs; [|apply list_elem_of_In].
  - apply andb_true_iff in Hs as [Hs Hk].
    assert ((λ p, (dialect p.1, dialect p.2)) <$> m
            = (λ p, (decode_scval p.1, decode_scval p.2)) <$> m) as ->.
    { apply list_fmap_ext. intros i p Hp%list_elem_of_lookup_2.
      rewrite Forall_forall in Hm. destruct (Hm p Hp) as [Hx Hy].
      apply forallb_forall with (x := p) in Hs; [|by apply list_elem_of_In].
      apply andb_true_iff in Hs as [? ?]. by rewrite Hx, Hy. }
    rewrite render_map_eq. unfold dialect_map.
    destruct (forallb _ (_ <$> m)); [|done]. cbn [negb orb] in Hk. by rewrite Hk.
Qed.

(** On those, reading a whole buffer byte by byte is [decode_scval] of the value
    it holds. *)
Theorem decoders_agree v :
  wire_ok v = true → shared_dialect v = true → Z.of_nat (vdepth v) ≤ MAX_DEPTH →
  Z.of_nat (length (wire v)) < 2 ^ 63 →
  fst <$> read_scval 0 (cursor_new (wire v)) = Some (decode_scval v).
Proof.
  intros Hok Hs Hd Hlen. pose proof (read_scval_wire 0 v [] []) as Hr.
  cbn [app] in Hr. rewrite app_nil_r in Hr. unfold cursor_new.
  change 0 with (Z.of_nat (length (@nil ascii))) at 2.
  rewrite Hr by (unfold MAX_DEPTH; done || lia).
  destruct (Z.leb_spec (0 + Z.of_nat (vdepth v)) MAX_DEPTH); [|lia].
  cbn. by rewrite dialect_shared.
Qed.
End theorems.

Definition sample_value : ScVal :=
  ScvVec (Some [ScvMap (Some [(ScvSymbol (bytes "a"), ScvI128 (-1) (2 ^ 64 - 1))]); ScvBool true;
                ScvAddress (AddrMuxedAccount 7 (repeat (byte_of 9) 32))]).

Lemma read_scval_wire_witness :
  @read_scval sample_stellar 1
    {| buf := bytes "head" ++ wire sample_value ++ bytes "tail"; pos := 4 |}
  = Some (@dialect sample_stellar sample_value,
          {| buf := bytes "head" ++ wire sample_value ++ bytes "tail";
             pos := Z.of_nat (4 + length (wire sample_value)) |}).
Proof.
  etransitivity; [apply (@read_scval_wire sample_stellar 1 sample_value (bytes "head") (bytes "tail"))|];
    [by unfold MAX_DEPTH|by vm_compute..].
Defined.

Lemma decoders_agree_witness :
  fst <$> @read_scval sample_stellar 0 (cursor_new (wire sample_value))
  = Some (@decode_scval sample_stellar sample_value).
Proof. apply (@decoders_agree sample_stellar); by vm_compute. Defined.

(** A value nested [n] vectors deep. *)
Definition nested (n : nat) : ScVal := Nat.iter n (λ v, ScvVec (Some [v])) ScvVoid.

(** The limit itself, and one level more. *)
Example depth_limit :
  is_Some (@read_scval sample_stellar 0 (cursor_new (wire (nested 256))))
  ∧ @read_scval sample_stellar 0 (cursor_new (wire (nested 257))) = None.
Proof. split; [apply not_eq_None_Some; by vm_compute|by vm_compute]. Qed.

Definition repeated_key : ScVal :=
  ScvMap (Some [(ScvSymbol (bytes "a"), ScvU32 1); (ScvSymbol (bytes "a"), ScvU32 2)]).

(** The two decoders of the module differ on errors, on repeated keys and on
    ledger keys; there the documented table is what the reader does. *)
Example decoders_differ :
  let read v := fst <$> @read_scval sample_stellar 0 (cursor_new (wire v)) in
  let typed := @decode_scval sample_stellar in
  read (ScvError (ErrContract 7)) = Some (error_json 0 7)
  ∧ typed (ScvError (ErrContract 7)) = mk_obj [("_error", JBool true)]
  ∧ typed repeated_key = mk_obj [("a", JInt 2)]
  ∧ read repeated_key
    = Some (JArr [mk_obj [("key", JStr "a"); ("val", JInt 1)];
                  mk_obj [("key", JStr "a"); ("val", JInt 2)]])
  ∧ read (ScvLedgerKeyNonce 5) = Some (tag_json 21).
Proof. by vm_compute. Qed.

(** Malformed bytes: a boolean of 2, an unknown tag, a length past the end. *)
Example malformed_inputs :
  let read b := @read_scval sample_stellar 0 (cursor_new b) in
  read (u32_bytes 0 ++ u32_bytes 2) = None ∧ read (u32_bytes 99) = None
  ∧ read (u32_bytes 13 ++ u32_bytes (2 ^ 32 - 1) ++ bytes "abcd") = None.
Proof. by vm_compute. Qed.
