(* ===== verification/Wasm.v ===== *)
(** * Wasm: finding the interface section of a contract module

    The byte reader and the section walk of [lumenqraph-core/src/spec.rs]. *)
From S2P Require Import Prelude Text.
From Stdlib Require Import Ascii.

Local Open Scope Z_scope.

(** ** The reader *)

Record Reader := { buf : list ascii; pos : Z }.

Definition buf_len (c : Reader) : Z := Z.of_nat (length (buf c)).

Definition set_pos (p : Z) (c : Reader) : Reader := {| buf := buf c; pos := p |}.

(** [buf.get(a..b)]. *)
Definition slice (a b : Z) (l : list ascii) : option (list ascii) :=
  if (0 <=? a) && (a <=? b) && (b <=? Z.of_nat (length l))
  then Some (take (Z.to_nat (b - a)) (drop (Z.to_nat a) l)) else None.

(** [usize::checked_add] on a 64-bit target. *)
Definition checked_add (a b : Z) : option Z :=
  if a + b <? 2 ^ 64 then Some (a + b) else None.

Definition byte (c : Reader) : option (Z * Reader) :=
  if (0 <=? pos c) && (pos c <? buf_len c)
  then b ← buf c !! Z.to_nat (pos c); Some (byte_val b, set_pos (pos c + 1) c)
  else None.

Definition take_bytes (n : Z) (c : Reader) : option (list ascii * Reader) :=
  stop ← checked_add (pos c) n;
  s ← slice (pos c) stop (buf c);
  Some (s, set_pos stop c).

(** [for _ in 0..5]: the payload bits are shifted into a [u32]. *)
Fixpoint leb_loop (rounds : nat) (result shift : Z) (c : Reader) : option (Z * Reader) :=
  match rounds with
  | O => None
  | S rounds' =>
      '(b, c') ← byte c;
      let result' := Z.lor result (wrap 32 (Z.shiftl (Z.land b 127) shift)) in
      if Z.land b 128 =? 0 then Some (result', c') else leb_loop rounds' result' (shift + 7) c'
  end.

Definition leb_u32 (c : Reader) : option (Z * Reader) := leb_loop 5 0 0 c.

(** ** The section walk *)

Definition wasm_magic : list ascii := [byte_of 0; "a"; "s"; "m"]%char.

(** What one turn of the [while] loop decides. *)
Inductive Walk : Type :=
  | Return (r : option (list ascii))
  | Next (c : Reader).

Definition walk_section (want : string) (c : Reader) : option Walk :=
  '(id, c1) ← byte c;
  '(size, c2) ← leb_u32 c1;
  let body_start := pos c2 in
  body_end ← checked_add body_start size;
  if buf_len c <? body_end then Some (Return None)
  else if id =? 0 then
    '(name_len, c3) ← leb_u32 c2;
    '(name_bytes, c4) ← take_bytes name_len c3;
    if decide (name_bytes = bytes want) then Some (Return (slice (pos c4) body_end (buf c)))
    else Some (Next (set_pos body_end c4))
  else Some (Next (set_pos body_end c2)).

(** The outer [None] is exhaustion of the fuel, which [find_section_total]
    excludes for one turn per byte. *)
Fixpoint find_section (fuel : nat) (want : string) (c : Reader) : option (option (list ascii)) :=
  match fuel with
  | O => None
  | S fuel' =>
      if pos c <? buf_len c then
        match walk_section want c with
        | None => Some None
        | Some (Return r) => Some r
        | Some (Next c') => find_section fuel' want c'
        end
      else Some None
  end.

Definition wasm_custom_section (wasm : list ascii) (want : string) : option (list ascii) :=
  '(magic, c1) ← take_bytes 4 {| buf := wasm; pos := 0 |};
  if decide (magic = wasm_magic) then
    '(_, c2) ← take_bytes 4 c1;
    default None (find_section (S (length wasm)) want c2)
  else None.

Definition spec_section_of (wasm : list ascii) : option (list ascii) :=
  wasm_custom_section wasm "contractspecv0".

(** ** A writer, as the reference *)

(** Unsigned LEB128 of a value below [2 ^ (7 * k)]. *)
Fixpoint leb_encode (k : nat) (n : Z) : list ascii :=
  match k with
  | O => []
  | S k' => if n <? 128 then [byte_of n] else byte_of (n mod 128 + 128) :: leb_encode k' (n / 128)
  end.

Definition leb (n : Z) : list ascii := leb_encode 5 n.

Definition zlen (l : list ascii) : Z := Z.of_nat (length l).

Inductive Section_ : Type :=
  | Custom (name : string) (content : list ascii)
  | Other (id : Z) (payload : list ascii).

Definition payload_of (s : Section_) : list ascii :=
  match s with
  | Custom n c => leb (zlen (bytes n)) ++ bytes n ++ c
  | Other _ p => p
  end.

Definition id_of (s : Section_) : Z := match s with Custom _ _ => 0 | Other i _ => i end.

Definition section_bytes (s : Section_) : list ascii :=
  byte_of (id_of s) :: leb (zlen (payload_of s)) ++ payload_of s.

Definition module_bytes (version : list ascii) (ss : list Section_) : list ascii :=
  wasm_magic ++ version ++ (ss ≫= section_bytes).

Definition section_wf (s : Section_) : Prop :=
  0 ≤ id_of s < 256 ∧ zlen (payload_of s) < 2 ^ 32
  ∧ match s with Other i _ => i ≠ 0 | _ => True end.

Fixpoint first_custom (want : string) (ss : list Section_) : option (list ascii) :=
  match ss with
  | [] => None
  | Custom n c :: ss' => if decide (n = want) then Some c else first_custom want ss'
  | Other _ _ :: ss' => first_custom want ss'
  end.

(** ** Lemmas: the reader on a split buffer *)

(** A reader that has consumed [done] and has [rest] ahead. *)
Definition at_ (done rest : list ascii) : Reader := {| buf := done ++ rest; pos := zlen done |}.

Lemma at_shift a b rest : at_ (a ++ b) rest = {| buf := a ++ b ++ rest; pos := zlen a + zlen b |}.
Proof.
  unfold at_, zlen. rewrite <- app_assoc, length_app. f_equal. lia.
Qed.

Lemma byte_at a b rest : byte (at_ a (b :: rest)) = Some (byte_val b, at_ (a ++ [b]) rest).
Proof.
  unfold byte, at_, buf_len, zlen, set_pos; cbn [buf pos].
  rewrite length_app; cbn [length]. ztest. rewrite Nat2Z.id, lookup_app_r, Nat.sub_diag by lia.
  cbn. rewrite <- app_assoc, length_app. cbn. do 3 f_equal. lia.
Qed.

Lemma slice_app a b c : slice (zlen a) (zlen a + zlen b) (a ++ b ++ c) = Some b.
Proof.
  unfold slice, zlen. rewrite !length_app. ztest. f_equal.
  rewrite Nat2Z.id, drop_app_length.
  replace (Z.to_nat (Z.of_nat (length a) + Z.of_nat (length b) - Z.of_nat (length a)))
    with (length b) by lia.
  apply take_app_length.
Qed.

Lemma take_at a b rest :
  zlen (a ++ b) < 2 ^ 64 → take_bytes (zlen b) (at_ a (b ++ rest)) = Some (b, at_ (a ++ b) rest).
Proof.
  intros Hlen. unfold take_bytes, checked_add, at_; cbn [buf pos].
  assert (zlen (a ++ b) = zlen a + zlen b) as Hz by (unfold zlen; rewrite length_app; lia).
  rewrite Hz in Hlen |- *. ztest. cbn [mbind option_bind]. rewrite slice_app.
  cbn [mbind option_bind]. unfold set_pos; cbn [buf]. by rewrite <- app_assoc.
Qed.

Lemma leb_loop_at k j a n rest acc :
  0 ≤ n < 2 ^ (7 * Z.of_nat k) → n * 2 ^ (7 * Z.of_nat j) < 2 ^ 32 → k ≠ O →
  0 ≤ acc < 2 ^ (7 * Z.of_nat j) →
  leb_loop k acc (7 * Z.of_nat j) (at_ a (leb_encode k n ++ rest))
  = Some (acc + n * 2 ^ (7 * Z.of_nat j), at_ (a ++ leb_encode k n) rest).
Proof.
  revert j a n acc. induction k as [|k IH]; intros j a n acc Hn Hbits Hk Hacc; [done|].
  set (P := 2 ^ (7 * Z.of_nat j)) in *.
  assert (0 < P) as HP by (apply Z.pow_pos_nonneg; lia).
  assert (∀ m, 0 ≤ m → m * P < 2 ^ 32 →
            Z.lor acc (wrap 32 (Z.shiftl m (7 * Z.of_nat j))) = acc + m * P) as Hor.
  { intros m Hm Hlt. rewrite Z.shiftl_mul_pow2 by lia. fold P. rewrite wrap_small by nia.
    assert (Z.land acc (m * P) = 0) as Hand.
    { apply Z.bits_inj'. intros i Hi. rewrite Z.land_spec, Z.bits_0.
      destruct (Z.ltb_spec i (7 * Z.of_nat j)).
      - unfold P. by rewrite Z.mul_pow2_bits_low, andb_false_r by lia.
      - destruct (decide (acc = 0)) as [->|]; [by rewrite Z.bits_0|].
        rewrite (Z.bits_above_log2 acc i); [done|lia|].
        apply Z.log2_lt_pow2; [lia|]. eapply Z.lt_le_trans; [apply Hacc|].
        apply Z.pow_le_mono_r; lia. }
    pose proof (Z.add_lor_land acc (m * P)). lia. }
  cbn [leb_loop leb_encode]. destruct (Z.ltb_spec n 128).
  - cbn [app]. rewrite byte_at. cbn [mbind option_bind]. rewrite byte_val_of by lia.
    replace (Z.land n 127) with n.
    2:{ change 127 with (Z.ones 7). rewrite Z.land_ones by lia. symmetry. apply Z.mod_small. lia. }
    replace (Z.land n 128) with 0.
    2:{ symmetry. apply Z.bits_inj'. intros i Hi. rewrite Z.land_spec, Z.bits_0.
        change 128 with (2 ^ 7). rewrite Z.pow2_bits_eqb by lia.
        destruct (Z.eqb_spec 7 i) as [<-|]; [|by rewrite andb_false_r].
        rewrite andb_true_r. apply Z.bits_above_log2; [lia|].
        destruct (decide (n = 0)) as [->|]; [simpl; lia|]. apply Z.log2_lt_pow2; lia. }
    cbn. by rewrite Hor by lia.
  - cbn [app]. rewrite byte_at. cbn [mbind option_bind].
    rewrite byte_val_of by zdiv.
    assert (Z.land (n mod 128 + 128) 127 = n mod 128) as ->.
    { change 127 with (Z.ones 7). rewrite Z.land_ones by lia. change (2 ^ 7) with 128.
      replace (n mod 128 + 128) with (n mod 128 + 1 * 128) by lia.
      rewrite Z_mod_plus_full. apply Zmod_mod. }
    assert (Z.land (n mod 128 + 128) 128 ≠ 0) as Hcont.
    { intros Hz. assert (Z.testbit (Z.land (n mod 128 + 128) 128) 7 = true) as Hb.
      { rewrite Z.land_spec. change 128 with (2 ^ 7) at 3.
        rewrite Z.pow2_bits_true by lia. rewrite andb_true_r.
        rewrite Z.testbit_true by lia. change (2 ^ 7) with 128. zdiv. }
      rewrite Hz in Hb. done. }
    destruct (Z.eqb_spec (Z.land (n mod 128 + 128) 128) 0); [done|].
    assert (n = 128 * (n / 128) + n mod 128 ∧ 0 ≤ n mod 128 < 128 ∧ 0 < n / 128)
      as (Hdiv & Hm & Hq) by zdiv.
    rewrite Hor by nia.
    assert (2 ^ (7 * Z.of_nat (S j)) = 128 * P) as HPS.
    { unfold P. replace (7 * Z.of_nat (S j)) with (7 + 7 * Z.of_nat j) by lia.
      by rewrite Z.pow_add_r by lia. }
    assert (2 ^ (7 * Z.of_nat (S k)) = 128 * 2 ^ (7 * Z.of_nat k)) as HkS.
    { replace (7 * Z.of_nat (S k)) with (7 + 7 * Z.of_nat k) by lia.
      by rewrite Z.pow_add_r by lia. }
    rewrite HkS in Hn.
    replace (7 * Z.of_nat j + 7) with (7 * Z.of_nat (S j)) by lia.
    rewrite IH; rewrite ?HPS.
    + rewrite <- app_assoc. cbn [app]. do 2 f_equal. nia.
    + nia.
    + nia.
    + intros ->. simpl in Hn. lia.
    + nia.
Qed.

Lemma leb_at a n rest :
  0 ≤ n < 2 ^ 32 → leb_u32 (at_ a (leb n ++ rest)) = Some (n, at_ (a ++ leb n) rest).
Proof.
  intros Hn. unfold leb_u32, leb.
  pose proof (leb_loop_at 5 0 a n rest 0) as Hl. cbn [Z.of_nat] in Hl.
  rewrite Z.mul_0_r, Z.pow_0_r, Z.mul_1_r, Z.add_0_l in Hl.
  apply Hl; [|lia|done|lia]. change (7 * Z.of_nat 5) with 35. lia.
Qed.

(** ** Lemmas: one section *)

Lemma zlen_app a b : zlen (a ++ b) = zlen a + zlen b.
Proof. unfold zlen. rewrite length_app. lia. Qed.

Lemma zlen_nonneg a : 0 ≤ zlen a.
Proof. unfold zlen. lia. Qed.

#[export] Hint Resolve zlen_nonneg : lq.

Lemma set_pos_at a b rest : set_pos (zlen a + zlen b) (at_ a (b ++ rest)) = at_ (a ++ b) rest.
Proof. by rewrite at_shift. Qed.

Lemma walk_section_at want a s rest :
  section_wf s → zlen (a ++ section_bytes s ++ rest) < 2 ^ 64 →
  walk_section want (at_ a (section_bytes s ++ rest))
  = Some (match s with
          | Custom n c => if decide (n = want) then Return (Some c)
                          else Next (at_ (a ++ section_bytes s) rest)
          | Other _ _ => Next (at_ (a ++ section_bytes s) rest)
          end).
Proof.
  intros (Hid & Hsize & Hoth) Hlen. unfold section_bytes in *.
  set (p := payload_of s) in *. set (hd := byte_of (id_of s)) in *.
  set (a1 := a ++ [hd]). set (a2 := a1 ++ leb (zlen p)).
  pose proof (zlen_nonneg p). pose proof (zlen_nonneg rest). pose proof (zlen_nonneg a2).
  assert (zlen a2 + zlen p + zlen rest < 2 ^ 64) as Hlen'.
  { unfold a2, a1. rewrite !zlen_app in Hlen |- *.
    change (zlen (hd :: leb (zlen p) ++ p)) with (zlen ([hd] ++ leb (zlen p) ++ p)) in Hlen.
    rewrite !zlen_app in Hlen. lia. }
  unfold walk_section. cbn [app]. rewrite byte_at. fold a1. cbn [mbind option_bind].
  rewrite <- app_assoc, leb_at by lia. fold a2. cbn [mbind option_bind].
  change (pos (at_ a2 (p ++ rest))) with (zlen a2).
  unfold checked_add at 1. destruct (Z.ltb_spec (zlen a2 + zlen p) (2 ^ 64)); [|lia].
  cbn [mbind option_bind].
  assert (a ++ hd :: leb (zlen p) ++ p ++ rest = a2 ++ p ++ rest) as Hbuf.
  { unfold a2, a1. by rewrite <- !app_assoc. }
  assert (buf_len (at_ a (hd :: leb (zlen p) ++ p ++ rest)) = zlen a2 + zlen p + zlen rest) as ->.
  { unfold buf_len, at_; cbn [buf]. rewrite Hbuf. fold (zlen (a2 ++ p ++ rest)).
    rewrite !zlen_app. lia. }
  destruct (Z.ltb_spec (zlen a2 + zlen p + zlen rest) (zlen a2 + zlen p)); [lia|].
  assert (a ++ hd :: leb (zlen p) ++ p = a2 ++ p) as ->.
  { unfold a2, a1. by rewrite <- !app_assoc. }
  unfold hd at 1. rewrite byte_val_of by lia. destruct s as [n c|i q]; cbn [id_of] in *.
  - cbn [Z.eqb].
    assert (p = leb (zlen (bytes n)) ++ bytes n ++ c) as Hp by done.
    rewrite Hp, !zlen_app in Hsize, Hlen'.
    pose proof (zlen_nonneg (leb (zlen (bytes n)))). pose proof (zlen_nonneg (bytes n)).
    pose proof (zlen_nonneg c).
    assert (at_ a2 (p ++ rest) = at_ a2 (leb (zlen (bytes n)) ++ bytes n ++ c ++ rest)) as ->
      by (rewrite Hp, <- !app_assoc; done).
    rewrite leb_at by lia. cbn [mbind option_bind]. rewrite take_at.
    2:{ rewrite !zlen_app. lia. }
    cbn [mbind option_bind]. set (a4 := (a2 ++ leb (zlen (bytes n))) ++ bytes n).
    assert (zlen a2 + zlen p = zlen a4 + zlen c) as Hend.
    { unfold a4. rewrite Hp, !zlen_app. lia. }
    destruct (decide (bytes n = bytes want)) as [->%bytes_inj|Hne].
    + rewrite decide_True by done. do 2 f_equal. rewrite Hend.
      change (pos (at_ a4 (c ++ rest))) with (zlen a4).
      unfold at_; cbn [buf]. rewrite Hbuf.
      replace (a2 ++ p ++ rest) with (a4 ++ c ++ rest)
        by (unfold a4; rewrite Hp; by rewrite <- !app_assoc).
      apply slice_app.
    + rewrite decide_False by congruence. do 2 f_equal. rewrite Hend, set_pos_at.
      unfold a4. rewrite Hp. by rewrite <- !app_assoc.
  - destruct (Z.eqb_spec i 0); [done|]. do 2 f_equal. apply set_pos_at.
Qed.

Lemma find_section_at fuel want a ss :
  (length ss < fuel)%nat → Forall section_wf ss →
  zlen (a ++ (ss ≫= section_bytes)) < 2 ^ 64 →
  find_section fuel want (at_ a (ss ≫= section_bytes)) = Some (first_custom want ss).
Proof.
  revert fuel a; induction ss as [|s ss IH]; intros [|fuel] a Hfuel Hwf Hlen;
    cbn [length] in Hfuel; try lia; cbn [find_section].
  - change ([] ≫= section_bytes) with (@nil ascii).
    assert (buf_len (at_ a []) = zlen a) as -> by (unfold buf_len, at_; cbn; by rewrite app_nil_r).
    cbn. by rewrite Z.ltb_irrefl.
  - apply Forall_cons in Hwf as [Hs Hss]. rewrite bind_cons in Hlen |- *.
    assert (buf_len (at_ a (section_bytes s ++ (ss ≫= section_bytes)))
            = zlen a + zlen (section_bytes s ++ (ss ≫= section_bytes))) as ->.
    { rewrite <- zlen_app. done. }
    assert (0 < zlen (section_bytes s ++ (ss ≫= section_bytes))) as Hpos.
    { unfold section_bytes at 1, zlen. cbn [app length]. lia. }
    change (pos (at_ a _)) with (zlen a).
    destruct (Z.ltb_spec (zlen a) (zlen a + zlen (section_bytes s ++ (ss ≫= section_bytes))));
      [|lia].
    rewrite walk_section_at by done.
    assert (find_section fuel want (at_ (a ++ section_bytes s) (ss ≫= section_bytes))
            = Some (first_custom want ss)) as Hrest.
    { apply IH; [lia|done|]. by rewrite <- app_assoc. }
    destruct s as [n c|i p]; cbn [first_custom]; [|done]. by case_decide.
Qed.

(** On any module whose sections are each encoded in fewer than [2 ^ 32]
    bytes, the walk returns the content of the first custom section with the
    wanted name, and nothing when there is none; whatever the other sections
    hold. *)
Theorem wasm_custom_section_correct version ss want :
  length version = 4%nat → Forall section_wf ss → zlen (module_bytes version ss) < 2 ^ 64 →
  wasm_custom_section (module_bytes version ss) want = first_custom want ss.
Proof.
  intros Hv Hwf Hlen. unfold wasm_custom_section, module_bytes in *.
  change {| buf := ?b; pos := 0 |} with (at_ [] b).
  rewrite !zlen_app in Hlen. pose proof (zlen_nonneg version).
  pose proof (zlen_nonneg wasm_magic). pose proof (zlen_nonneg (ss ≫= section_bytes)).
  assert (∀ a b rest, length b = 4%nat → zlen (a ++ b) < 2 ^ 64 →
    take_bytes 4 (at_ a (b ++ rest)) = Some (b, at_ (a ++ b) rest)) as Htake.
  { intros a b rest Hb Hab. rewrite <- (take_at a b rest) by done.
    unfold zlen. by rewrite Hb. }
  rewrite (Htake [] wasm_magic) by (done || (cbn [app]; lia)).
  cbn [mbind option_bind app]. rewrite decide_True by done.
  rewrite Htake by (done || (rewrite zlen_app; lia)). cbn [mbind option_bind].
  rewrite find_section_at; [done| |done|rewrite !zlen_app; lia].
  rewrite !length_app. assert (length ss ≤ length (ss ≫= section_bytes))%nat; [|lia].
  clear. induction ss as [|s ss IH]; [done|]. rewrite bind_cons, length_app.
  unfold section_bytes at 1. cbn [length]. lia.
Qed.

Lemma wasm_custom_section_correct_witness :
  wasm_custom_section
    (module_bytes (replicate 4 (byte_of 1))
       [Other 1 (replicate 200 "x"%char); Custom "name" []; Custom "contractspecv0" (bytes "abc")])
    "contractspecv0" = Some (bytes "abc").
Proof.
  rewrite (wasm_custom_section_correct (replicate 4 (byte_of 1))); [done|done| |done].
  repeat constructor; cbn; lia.
Defined.

(** ** Lemmas: any input *)

Lemma byte_inv c b c' :
  byte c = Some (b, c') → buf c' = buf c ∧ pos c' = pos c + 1 ∧ 0 ≤ pos c < buf_len c.
Proof. unfold byte. destruct (_ && _) eqn:E; [|done]. intros Hb. inv_ok. bool_facts. cbn. split_and!; (done || lia). Qed.

Lemma leb_inv rounds r s c n c' :
  leb_loop rounds r s c = Some (n, c') → buf c' = buf c ∧ pos c < pos c'.
Proof.
  revert r s c; induction rounds as [|k IH]; intros r s c Hl; cbn in Hl; [done|].
  destruct (byte c) as [[b c1]|] eqn:Eb; cbn in Hl; [|done].
  apply byte_inv in Eb as (Hb & Hp & _). destruct (_ =? _).
  - injection Hl as <- <-. rewrite Hb. split; [done|lia].
  - apply IH in Hl as [Hb' Hp']. rewrite Hb' , Hb. split; [done|lia].
Qed.

Lemma take_bytes_inv n c s c' : take_bytes n c = Some (s, c') → buf c' = buf c.
Proof. unfold take_bytes. intros. inv_ok. done. Qed.

Lemma slice_inv a b l s : slice a b l = Some s → ∃ p q, l = p ++ s ++ q.
Proof.
  unfold slice. destruct (_ && _); [|done]. intros [= <-].
  exists (take (Z.to_nat a) l), (drop (Z.to_nat (b - a)) (drop (Z.to_nat a) l)).
  by rewrite !take_drop.
Qed.

Lemma leb_loop_nonneg rounds r s c n c' :
  leb_loop rounds r s c = Some (n, c') → 0 ≤ r → 0 ≤ n.
Proof.
  revert r s c; induction rounds as [|k IH]; intros r s c Hl Hr; cbn in Hl; [done|].
  destruct (byte c) as [[b c1]|]; cbn in Hl; [|done].
  assert (0 ≤ Z.lor r (wrap 32 (Z.shiftl (Z.land b 127) s))).
  { apply Z.lor_nonneg. split; [done|]. apply wrap_range. lia. }
  destruct (_ =? _); [by injection Hl as <- <-|by eapply IH].
Qed.

(** A turn of the loop moves forward and keeps the buffer. *)
Lemma walk_section_inv want c w :
  walk_section want c = Some w → 0 ≤ pos c →
  match w with
  | Return None => True
  | Return (Some s) => ∃ p q, buf c = p ++ s ++ q
  | Next c' => buf c' = buf c ∧ pos c < pos c'
  end.
Proof.
  unfold walk_section, checked_add. intros Hw Hc.
  destruct (byte c) as [[id c1]|] eqn:Eb; cbn [mbind option_bind] in Hw; [|done]. apply byte_inv in Eb as (B1 & P1 & _).
  destruct (leb_u32 c1) as [[size c2]|] eqn:El; cbn [mbind option_bind] in Hw; [|done].
  pose proof (leb_loop_nonneg _ _ _ _ _ _ El ltac:(lia)).
  apply leb_inv in El as (B2 & P2). rewrite B1 in B2.
  destruct (_ <? 2 ^ 64); cbn [mbind option_bind] in Hw; [|done].
  destruct (_ <? _); [by injection Hw as <-|].
  destruct (id =? 0).
  2:{ injection Hw as <-. cbn. split; [done|lia]. }
  destruct (leb_u32 c2) as [[nl c3]|] eqn:En; cbn [mbind option_bind] in Hw; [|done].
  apply leb_inv in En as (B3 & _).
  destruct (take_bytes nl c3) as [[nb c4]|] eqn:Et; cbn [mbind option_bind] in Hw; [|done].
  apply take_bytes_inv in Et as B4. case_decide; injection Hw as <-.
  - destruct (slice _ _ _) as [s|] eqn:Es; [|done]. by apply slice_inv in Es.
  - cbn. split; [congruence|lia].
Qed.

Lemma find_section_inv fuel want c r :
  0 ≤ pos c → buf_len c < pos c + Z.of_nat fuel → (0 < fuel)%nat →
  find_section fuel want c = r →
  match r with
  | None => False
  | Some None => True
  | Some (Some s) => ∃ p q, buf c = p ++ s ++ q
  end.
Proof.
  revert c; induction fuel as [|fuel IH]; intros c Hc Hf Hpos Hr; [lia|]. cbn [find_section] in Hr.
  destruct (Z.ltb_spec (pos c) (buf_len c)); [|by subst].
  destruct (walk_section want c) as [[s|c']|] eqn:Ew; [| |by subst].
  - subst. apply walk_section_inv in Ew; [|done]. destruct s; done.
  - apply walk_section_inv in Ew as [Hb Hp]; [|done].
    unfold buf_len in *. rewrite <- Hb. apply IH; try lia; [|done].
    rewrite Hb. lia.
Qed.

(** On arbitrary bytes the walk ends (each turn moves the position forward,
    so one turn per byte of fuel is enough) and whatever it returns is a
    contiguous slice of the module: nothing is read out of bounds. *)
Theorem wasm_custom_section_safe wasm want :
  (∀ c, 0 ≤ pos c → buf c = wasm → find_section (S (length wasm)) want c ≠ None)
  ∧ (∀ s, wasm_custom_section wasm want = Some s → ∃ p q, wasm = p ++ s ++ q).
Proof.
  split.
  - intros c Hc Hb Hnone.
    apply (find_section_inv (S (length wasm)) want c None); [done| |lia|done].
    unfold buf_len. rewrite Hb. lia.
  - intros s Hs. unfold wasm_custom_section in Hs.
    destruct (take_bytes 4 _) as [[magic c1]|] eqn:E1; cbn [mbind option_bind] in Hs; [|done].
    case_decide; [|done].
    destruct (take_bytes 4 c1) as [[v c2]|] eqn:E2; cbn [mbind option_bind] in Hs; [|done].
    assert (buf c2 = wasm ∧ 0 ≤ pos c2) as [Hb Hp].
    { apply take_bytes_inv in E1 as B1. apply take_bytes_inv in E2 as B2.
      split; [by rewrite B2, B1|]. unfold take_bytes, slice, checked_add in E1, E2. inv_ok.
      cbn. bool_facts. lia. }
    destruct (find_section (S (length wasm)) want c2) as [r|] eqn:Ef; [|done].
    change (r = Some s) in Hs. subst r. apply find_section_inv in Ef; [by rewrite Hb in Ef|done| |lia].
    unfold buf_len. rewrite Hb. lia.
Qed.
