(* ===== verification/Limbs.v ===== *)
(** * Limbs: argument errors and 256-bit decimal arguments

    The integer helpers of [lumenqraph-core/src/read.rs]: parsing of 256-bit
    decimals into four big-endian 64-bit limbs, and the width-checked parsing of
    the narrower integers. *)
From S2P Require Import Prelude Text Containers Values XdrDecode.
From Stdlib Require Import Ascii.

Local Open Scope Z_scope.

(** ** Errors *)

(** The [msg] of [BadArgument]: a fixed text, or a format string with its
    arguments. *)
Inductive ArgMsg : Type :=
  | Fixed (s : string)
  | ExpectedBytes (n : Z)
  | ExpectedTuple (n : nat)
  | UnknownType (udt : string)
  | TupleStructArray (struct_ : string)
  | TupleStructArity (expected : nat) (struct_ : string) (got : nat)
  | StructObject (struct_ : string)
  | MissingField (field struct_ : string)
  | FieldNotSymbol (field : string)
  | EnumUnknownCase (case enum : string) (cases : string)
  | EnumOutOfRange (n : Z) (enum : string)
  | EnumUndeclared (n : Z) (enum : string) (cases : string)
  | EnumExpected (enum : string) (cases : string)
  | CaseNotSymbol (case : string)
  | UnionCarries (case union : string) (n : nat)
  | UnionUnknownCase (case union : string) (cases : string)
  | UnionExpected (union : string) (cases : string)
  | UnionOneKey (union : string) (keys : nat)
  | UnionNoValue (case union : string)
  | CaseArray (n : nat) (case : string)
  | CaseArity (case union : string) (expected got : nat).

(** [suggestion] is the candidate of "did you mean". *)
Inductive EncodeError : Type :=
  | FunctionNotFound (function : string)
  | MissingArgument (name : string)
  | UnknownArgument (name : string) (suggestion : option string)
  | WrongArity (expected got : nat)
  | BadArgument (name : string) (msg : ArgMsg)
  | UnsupportedType (name ty : string)
  | Build (msg : string).

(** ** Small helpers *)

Definition str_of (v : Json) (name : string) : result EncodeError string :=
  ok_or (BadArgument name (Fixed "expected a string")) (as_str v).

(** [Value::to_string] of an integral number. *)
Definition int_text (v : Json) : option string :=
  match v with JStr s => Some s | JInt z => Some (show_i z) | _ => None end.

(** [int::<T>]: [parse] is [T::from_str]. *)
Definition int (parse : string → option Z) (v : Json) (name : string) : result EncodeError Z :=
  s ← ok_or (BadArgument name (Fixed "expected an integer (as a number or decimal string)"))
        (int_text v);
  ok_or (BadArgument name (Fixed "integer out of range for this type")) (parse s).

(** [hi] and [lo] of the 128-bit parts, from [to_be_bytes] and from shifts. *)
Definition i128_parts (n : Z) : Z * Z := (as_signed 64 (Z.shiftr n 64), wrap 64 n).
Definition u128_parts (n : Z) : Z * Z := (wrap 64 (Z.shiftr n 64), wrap 64 n).

(** ** 256-bit integers *)

(** The loop [for i in (0..4).rev()]: the carry enters at the least significant
    limb. *)
Fixpoint mul10_loop (limbs : list Z) (carry : Z) : list Z * Z :=
  match limbs with
  | [] => ([], carry)
  | x :: rest =>
      let '(rest', c) := mul10_loop rest carry in
      let acc := x * 10 + c in
      (wrap 64 acc :: rest', Z.shiftr acc 64)
  end.

Definition mul10_add (limbs : list Z) (digit : Z) : option (list Z) :=
  let '(out, carry) := mul10_loop limbs digit in
  if carry =? 0 then Some out else None.

(** The loop stops ([break]) once the carry is 0. *)
Fixpoint negate_loop (limbs : list Z) : list Z * Z :=
  match limbs with
  | [] => ([], 1)
  | x :: rest =>
      let '(rest', c) := negate_loop rest in
      if c =? 0 then (x :: rest', 0)
      else let acc := x + c in (wrap 64 acc :: rest', Z.shiftr acc 64)
  end.

Definition negate (limbs : list Z) : list Z := (negate_loop (not64 <$> limbs)).1.

Fixpoint digits_loop (name : string) (s : list ascii) (limbs : list Z) :
    result EncodeError (list Z) :=
  match s with
  | [] => Ok limbs
  | b :: s' =>
      match mul10_add limbs (byte_val b - 48) with
      | Some limbs' => digits_loop name s' limbs'
      | None => Err (BadArgument name (Fixed "integer out of range for 256 bits"))
      end
  end.

Definition parse_digits (s : string) (name : string) : result EncodeError (list Z) :=
  if bool_decide (s = EmptyString) || negb (forallb (λ b, is_ascii_digit (byte_val b)) (bytes s))
  then Err (BadArgument name (Fixed "expected a decimal integer"))
  else digits_loop name (bytes s) [0; 0; 0; 0].

Definition text_of_int (v : Json) (name : string) : result EncodeError string :=
  match v with
  | JStr s => Ok (trim s)
  | JInt z => Ok (show_i z)
  | _ => Err (BadArgument name (Fixed "expected a 256-bit integer as a decimal string"))
  end.

Definition parse_u256 (v : Json) (name : string) : result EncodeError (list Z) :=
  s ← text_of_int v name;
  if starts_with "-" s then Err (BadArgument name (Fixed "expected an unsigned integer"))
  else parse_digits (default s (strip_char "+" s)) name.

Definition parse_i256 (v : Json) (name : string) : result EncodeError (list Z) :=
  s ← text_of_int v name;
  let negative := starts_with "-" s in
  let digits := match strip_char "-" s with
                | Some d => d
                | None => default s (strip_char "+" s)
                end in
  limbs ← parse_digits digits name;
  let l0 := default 0 (limbs !! 0%nat) in
  let top := negb (Z.land l0 (Z.shiftl 1 63) =? 0) in
  let is_min := top && bool_decide (drop 1 limbs = [0; 0; 0]) && (l0 =? Z.shiftl 1 63) in
  match negative, top, is_min with
  | false, true, _ => Err (BadArgument name (Fixed "integer out of range for i256"))
  | true, true, false => Err (BadArgument name (Fixed "integer out of range for i256"))
  | true, _, _ => Ok (negate limbs)
  | _, _, _ => Ok limbs
  end.

(** [l[0]], .. on a [[u64; 4]]. *)
Definition limb (i : nat) (l : list Z) : Z := default 0 (l !! i).

Definition u256_parts (l : list Z) : Parts256 :=
  {| hi_hi := limb 0 l; hi_lo := limb 1 l; lo_hi := limb 2 l; lo_lo := limb 3 l |}.

Definition i256_parts (l : list Z) : Parts256 :=
  {| hi_hi := as_signed 64 (limb 0 l); hi_lo := limb 1 l; lo_hi := limb 2 l; lo_lo := limb 3 l |}.

(** ** Lemmas *)

Lemma limbs_value_inj l k :
  Forall is_limb l → Forall is_limb k → length l = length k →
  limbs_value l = limbs_value k → l = k.
Proof.
  intros Hl. revert k; induction Hl as [|x l Hx Hl IH]; intros k Hk Hlen Hv;
    destruct Hk as [|y k Hy Hk]; simplify_eq/=; [done|].
  pose proof (limbs_value_range l Hl) as Rl. pose proof (limbs_value_range k Hk) as Rk.
  rewrite Hlen in *. set (P := 2 ^ (64 * Z.of_nat (length k))) in *.
  assert (x = y) as -> by nia. f_equal. apply IH; [done|done|lia].
Qed.

Lemma mul10_loop_spec l c l' c' :
  Forall is_limb l → 0 ≤ c < 10 → mul10_loop l c = (l', c') →
  c' * 2 ^ (64 * Z.of_nat (length l)) + limbs_value l' = limbs_value l * 10 + c
  ∧ 0 ≤ c' < 10 ∧ Forall is_limb l' ∧ length l' = length l.
Proof.
  intros Hl. revert l' c'. induction Hl as [|x l Hx Hl IH]; intros l' c' Hc Hm.
  - cbn [mul10_loop] in Hm. injection Hm as <- <-. cbn [limbs_value length].
    rewrite Z.mul_0_r, Z.pow_0_r. split_and!; [lia..|constructor|done].
  - cbn [mul10_loop] in Hm. destruct (mul10_loop l c) as [l'' c''] eqn:E.
    injection Hm as <- <-. destruct (IH _ _ Hc eq_refl) as (Hv & Hc'' & Hf & Hlen).
    unfold is_limb in Hx. rewrite Z.shiftr_div_pow2 by lia. cbn [limbs_value length].
    rewrite pow64_S, Hlen. unfold wrap.
    pose proof (Z_div_mod_eq_full (x * 10 + c'') (2 ^ 64)) as Hdm.
    assert (0 ≤ (x * 10 + c'') mod 2 ^ 64 < 2 ^ 64) by (apply Z.mod_pos_bound; lia).
    assert (0 ≤ (x * 10 + c'') / 2 ^ 64 < 10) by lia.
    set (P := 2 ^ (64 * Z.of_nat (length l))) in *.
    split_and!; [|lia|lia|by constructor|done].
    set (y := x * 10 + c'') in *.
    assert (y * P = 2 ^ 64 * (y / 2 ^ 64) * P + y mod 2 ^ 64 * P) as Hy by (rewrite Hdm at 1; ring).
    transitivity (y * P + limbs_value l''); [rewrite Hy|unfold y]; lia.
Qed.

Lemma mul10_add_spec l d :
  Forall is_limb l → 0 ≤ d < 10 →
  match mul10_add l d with
  | Some l' => limbs_value l' = limbs_value l * 10 + d ∧ Forall is_limb l' ∧ length l' = length l
  | None => 2 ^ (64 * Z.of_nat (length l)) ≤ limbs_value l * 10 + d
  end.
Proof.
  intros Hl Hd. unfold mul10_add. destruct (mul10_loop l d) as [l' c] eqn:E.
  apply mul10_loop_spec in E as (Hv & Hc & Hf & Hlen); [|done|done].
  destruct (Z.eqb_spec c 0) as [->|].
  - split_and!; [lia|done|done].
  - pose proof (limbs_value_range l' Hf). nia.
Qed.

Lemma digit_val_digit b :
  is_ascii_digit (byte_val b) = true → digit_val b = Some (byte_val b - 48)
                                       ∧ 0 ≤ byte_val b - 48 < 10.
Proof.
  unfold is_ascii_digit, c_in, digit_val. intros Hb. bool_facts.
  split; [|lia]. by ztest.
Qed.

Lemma horner_ge s acc n :
  Forall (λ b, is_ascii_digit (byte_val b) = true) s → 0 ≤ acc →
  horner s acc = Some n → acc ≤ n.
Proof.
  intros Hs. revert acc n; induction Hs as [|b s Hb _ IH]; intros acc n Hacc Hh; cbn in Hh.
  - by injection Hh as <-.
  - apply digit_val_digit in Hb as [Hd Hr]. rewrite Hd in Hh. apply IH in Hh; lia.
Qed.

Lemma digits_loop_spec name s l :
  Forall (λ b, is_ascii_digit (byte_val b) = true) s → Forall is_limb l → length l = 4%nat →
  ∃ n, horner s (limbs_value l) = Some n ∧
    match digits_loop name s l with
    | Ok l' => limbs_value l' = n ∧ Forall is_limb l' ∧ length l' = 4%nat
    | Err e => e = BadArgument name (Fixed "integer out of range for 256 bits") ∧ 2 ^ 256 ≤ n
    end.
Proof.
  intros Hs. revert l; induction Hs as [|b s Hb Hs IH]; intros l Hl Hlen; cbn [horner digits_loop].
  { by eexists. }
  apply digit_val_digit in Hb as [Hd Hr]. rewrite Hd.
  pose proof (mul10_add_spec l _ Hl Hr) as Hm. rewrite Hlen in Hm.
  destruct (mul10_add l (byte_val b - 48)) as [l'|].
  - destruct Hm as (Hv & Hf & Hlen'). replace (limbs_value l * 10 + (byte_val b - 48))
      with (limbs_value l') by lia. by apply IH.
  - change (64 * Z.of_nat 4) with 256 in Hm. pose proof (limbs_value_range l Hl).
    assert (∃ n, horner s (limbs_value l * 10 + (byte_val b - 48)) = Some n) as [n Hn].
    { clear -Hs. generalize (limbs_value l * 10 + (byte_val b - 48)).
      induction Hs as [|c s Hc _ IH]; intros a; cbn; [by eexists|].
      apply digit_val_digit in Hc as [-> _]. apply IH. }
    exists n. split; [done|]. split; [done|]. apply horner_ge in Hn; [lia|done|lia].
Qed.

Lemma horner_digits_only s acc n :
  horner s acc = Some n → Forall (λ b, is_ascii_digit (byte_val b) = true) s.
Proof.
  revert acc; induction s as [|b s IH]; intros acc Hh; [constructor|]. cbn in Hh.
  destruct (digit_val b) as [d|] eqn:E; [|done]. constructor; [|by eapply IH].
  unfold digit_val in E. destruct (_ && _) eqn:Eb in E; [|done].
  unfold is_ascii_digit, c_in. bool_facts. by ztest.
Qed.

Lemma parse_digits_spec s name :
  match parse_digits s name with
  | Ok l => parse_digits10 s = Some (limbs_value l) ∧ Forall is_limb l ∧ length l = 4%nat
  | Err _ => ∀ n, parse_digits10 s = Some n → 2 ^ 256 ≤ n
  end.
Proof.
  unfold parse_digits. case_bool_decide as Hs; cbn [orb]; [by subst|].
  assert (parse_digits10 s = horner (bytes s) 0) as -> by by destruct s.
  destruct (forallb _ _) eqn:E; cbn [negb].
  - rewrite forallb_forall in E.
    assert (Forall (λ b, is_ascii_digit (byte_val b) = true) (bytes s)) as Hd.
    { pointwise. intros b Hb. apply list_elem_of_In in Hb. by apply E. }
    destruct (digits_loop_spec name (bytes s) [0; 0; 0; 0] Hd) as (n & Hn & Hr);
      [repeat apply Forall_cons_2; [unfold is_limb; lia..|constructor]|done|].
    change (limbs_value [0; 0; 0; 0]) with 0 in Hn. rewrite Hn.
    destruct (digits_loop _ _ _) as [l|e].
    + destruct Hr as (-> & ? & ?). done.
    + destruct Hr as [_ Hr]. by intros ? [= <-].
  - intros n Hn. apply horner_digits_only in Hn.
    assert (forallb (λ b, is_ascii_digit (byte_val b)) (bytes s) = true); [|congruence].
    apply forallb_forall. intros b Hb. apply list_elem_of_In in Hb. pointwise. by apply Hn.
Qed.

Lemma negate_loop_add_carry l :
  Forall is_limb l → negate_loop l = add_carry l 1.
Proof.
  induction 1 as [|x l Hx Hl IH]; [done|]. cbn [negate_loop add_carry]. rewrite IH.
  destruct (add_carry l 1) as [l' c]. destruct (Z.eqb_spec c 0) as [->|]; [|done].
  unfold is_limb in Hx. rewrite Z.add_0_r, wrap_small by done. f_equal.
  rewrite Z.shiftr_div_pow2 by lia. by rewrite Z.div_small.
Qed.

Lemma negate_spec l :
  Forall is_limb l → length l = 4%nat →
  Forall is_limb (negate l) ∧ length (negate l) = 4%nat
  ∧ limbs_value (negate l) = if limbs_value l =? 0 then 0 else 2 ^ 256 - limbs_value l.
Proof.
  intros Hl Hlen. unfold negate. destruct (not64_limbs l Hl) as [Hf _].
  rewrite negate_loop_add_carry by done. destruct (Z.eqb_spec (limbs_value l) 0) as [Hz|].
  - assert (Forall is_limb [0; 0; 0; 0]) as H0.
    { repeat apply Forall_cons_2; try apply Forall_nil_2; unfold is_limb; lia. }
    assert (l = [0; 0; 0; 0]) as -> by by apply limbs_value_inj.
    assert ((add_carry (not64 <$> [0; 0; 0; 0]) 1).1 = [0; 0; 0; 0]) as ->
      by (vm_compute; reflexivity).
    done.
  - pose proof (limbs_value_range l Hl).
    destruct (negate_limbs l Hl ltac:(lia)) as (? & Hl' & Hv). rewrite Hlen in *.
    split_and!; [done|done|]. rewrite Hv. done.
Qed.

Lemma top_bit x : is_limb x → negb (Z.land x (Z.shiftl 1 63) =? 0) = (2 ^ 63 <=? x).
Proof.
  unfold is_limb. intros Hx. change (Z.shiftl 1 63) with (2 ^ 63).
  assert (Z.land x (2 ^ 63) = if Z.testbit x 63 then 2 ^ 63 else 0) as ->.
  { apply Z.bits_inj'. intros i Hi. rewrite Z.land_spec, Z.pow2_bits_eqb by lia.
    destruct (Z.eqb_spec 63 i) as [<-|]; [|destruct (Z.testbit x 63)].
    - rewrite andb_true_r. destruct (Z.testbit x 63) eqn:E; [by rewrite Z.pow2_bits_true|].
      by rewrite Z.bits_0.
    - rewrite andb_false_r, Z.pow2_bits_false by lia. done.
    - by rewrite andb_false_r, Z.bits_0. }
  destruct (Z.leb_spec (2 ^ 63) x).
  - replace (Z.testbit x 63) with true; [done|]. symmetry. rewrite Z.testbit_true by lia.
    replace (x / 2 ^ 63) with 1; [done|]. apply Z.div_unique with (x - 2 ^ 63); lia.
  - replace (Z.testbit x 63) with false; [done|]. symmetry. rewrite Z.testbit_false by lia.
    rewrite Z.div_small by lia. done.
Qed.

Lemma i256_parts_spec l :
  Forall is_limb l → length l = 4%nat →
  i256_wf (i256_parts l)
  ∧ i256_value (i256_parts l)
    = if 2 ^ 63 <=? limb 0 l then limbs_value l - 2 ^ 256 else limbs_value l.
Proof.
  intros Hl Hlen. destruct l as [|a [|b [|c [|d [|]]]]]; simplify_eq/=.
  repeat match goal with H : Forall _ (_ :: _) |- _ => apply Forall_cons in H as [? H] end.
  unfold i256_wf, i256_value, i256_parts, limb, is_limb in *.
  cbn [hi_hi hi_lo lo_hi lo_lo lookup list_lookup default from_option id].
  split; [pose proof (as_signed_range 64 a ltac:(lia)); split_and!; lia|].
  unfold as_signed. rewrite wrap_small by done. change (64 - 1) with 63.
  destruct (Z.ltb_spec a (2 ^ 63)), (Z.leb_spec (2 ^ 63) a); try lia.
  all: cbn [limbs_value length]; change (2 ^ 256) with (2 ^ 64 * 2 ^ 192);
    change (64 * Z.of_nat 3) with 192; ring.
Qed.

(** The signed numeral [parse_i256] reads: one optional sign, then digits. *)
Definition signed_numeral (s : string) : option Z :=
  match strip_char "-" s with
  | Some d => Z.opp <$> parse_digits10 d
  | None => parse_digits10 (default s (strip_char "+" s))
  end.

Lemma starts_with_strip c s :
  starts_with (String c EmptyString) s = match strip_char c s with Some _ => true | None => false end.
Proof.
  unfold starts_with. destruct s as [|a s]; cbn; [done|].
  rewrite Ascii.eqb_sym. by destruct (Ascii.eqb a c).
Qed.

Lemma limb0_bound l :
  Forall is_limb l → length l = 4%nat →
  is_limb (limb 0 l) ∧ (2 ^ 63 ≤ limb 0 l ↔ 2 ^ 255 ≤ limbs_value l)
  ∧ (limb 0 l = 2 ^ 63 ∧ drop 1 l = [0; 0; 0] ↔ limbs_value l = 2 ^ 255).
Proof.
  intros Hl Hlen. destruct l as [|a l]; [done|].
  apply Forall_cons in Hl as [Ha Hl]. injection Hlen as Hlen.
  change (limb 0 (a :: l)) with a. change (drop 1 (a :: l)) with l. cbn [limbs_value].
  rewrite Hlen. change (64 * Z.of_nat 3) with 192.
  pose proof (limbs_value_range l Hl) as Hr. rewrite Hlen in Hr.
  change (64 * Z.of_nat 3) with 192 in Hr. unfold is_limb in *.
  change (2 ^ 255) with (2 ^ 63 * 2 ^ 192).
  split_and!; [lia|lia|nia|]. split.
  - intros [-> ->]. done.
  - intros Hv. assert (a = 2 ^ 63 ∧ limbs_value l = 0) as [-> Hz] by lia. split; [done|].
    apply limbs_value_inj; [done| |done|done].
    repeat apply Forall_cons_2; try apply Forall_nil_2; unfold is_limb; lia.
Qed.

(** A 256-bit signed argument given as text is accepted exactly when it is a
    decimal numeral (one optional sign) of the two's complement range
    [-2^255 .. 2^255-1], and then the limbs it becomes denote that number. *)
Theorem parse_i256_correct s name :
  match parse_i256 (JStr s) name with
  | Ok l => ∃ z, signed_numeral (trim s) = Some z
             ∧ i256_wf (i256_parts l) ∧ i256_value (i256_parts l) = z
  | Err _ => ∀ z, signed_numeral (trim s) = Some z → z < - 2 ^ 255 ∨ 2 ^ 255 ≤ z
  end.
Proof.
  unfold parse_i256, signed_numeral. cbn [text_of_int]. set (t := trim s).
  cbn [mbind result_bind]. rewrite starts_with_strip.
  remember (match strip_char "-" t with Some d => d | None => default t (strip_char "+" t) end)
    as d eqn:Hdef.
  pose proof (parse_digits_spec d name) as Hd.
  destruct (parse_digits d name) as [l|e].
  2:{ intros z Hz. destruct (strip_char "-" t) as [d'|]; subst d; [|right].
      - destruct (parse_digits10 d') as [n|] eqn:En; [|done]. injection Hz as <-.
        specialize (Hd n eq_refl). left. lia.
      - specialize (Hd z Hz). lia. }
  destruct Hd as (Hn & Hl & Hlen). destruct (limb0_bound l Hl Hlen) as (Hl0 & Htop & Hmin).
  destruct (i256_parts_spec l Hl Hlen) as [Hwf Hval].
  pose proof (limbs_value_range l Hl) as Hr. rewrite Hlen in Hr.
  change (64 * Z.of_nat 4) with 256 in Hr. cbn [mbind result_bind]. cbv zeta.
  fold (limb 0 l). rewrite top_bit by done.
  destruct (strip_char "-" t) as [d'|]; subst d.
  - destruct (Z.leb_spec (2 ^ 63) (limb 0 l)) as [Hge|Hlt]; cbn [andb].
    + destruct (_ && _) eqn:Em.
      * apply andb_true_iff in Em as [Hdrop%bool_decide_eq_true_1 H0%Z.eqb_eq].
        assert (limbs_value l = 2 ^ 255) as Hv by by apply Hmin.
        destruct (negate_spec l Hl Hlen) as (Nl & Nlen & Nv).
        destruct (i256_parts_spec _ Nl Nlen) as [Nwf Nval].
        exists (- 2 ^ 255). split; [by rewrite Hn, <- Hv|]. split; [done|]. rewrite Nval.
        rewrite Hv in Nv. assert (limbs_value (negate l) = 2 ^ 255) as Nv' by by rewrite Nv.
        destruct (limb0_bound _ Nl Nlen) as (_ & Ht & _).
        destruct (Z.leb_spec (2 ^ 63) (limb 0 (negate l))); [rewrite Nv'; done|]. lia.
      * intros z. rewrite Hn. intros [= <-].
        assert (limbs_value l ≠ 2 ^ 255) as Hne.
        { intros [H0 Hdrop]%Hmin. rewrite bool_decide_eq_true_2 in Em by done.
          apply Z.eqb_neq in Em. by rewrite H0 in Em. }
        apply Htop in Hge. lia.
    + destruct (negate_spec l Hl Hlen) as (Nl & Nlen & Nv).
      destruct (i256_parts_spec _ Nl Nlen) as [Nwf Nval].
      exists (- limbs_value l). split; [by rewrite Hn|]. split; [done|]. rewrite Nval.
      destruct (limb0_bound _ Nl Nlen) as (_ & Ht & _).
      destruct (Z.eqb_spec (limbs_value l) 0) as [Hz|Hnz]; rewrite Nv in *;
        destruct (Z.leb_spec (2 ^ 63) (limb 0 (negate l))); lia.
  - destruct (Z.leb_spec (2 ^ 63) (limb 0 l)) as [Hge|Hlt].
    + intros z. rewrite Hn. intros [= <-]. right. by apply Htop.
    + by exists (limbs_value l).
Qed.

Lemma parse_i256_correct_witness :
  ∃ l, parse_i256 (JStr "-42") "x" = Ok l ∧ i256_value (i256_parts l) = -42.
Proof.
  pose proof (parse_i256_correct "-42" "x") as Hp.
  destruct (parse_i256 (JStr "-42") "x") as [l|e] eqn:E; [|discriminate E].
  exists l. split; [reflexivity|]. destruct Hp as (z & Hz & _ & Hv). rewrite Hv.
  vm_compute in Hz. congruence.
Defined.

Lemma signed_numeral_show z : signed_numeral (show_i z) = Some z.
Proof.
  unfold signed_numeral, show_i. destruct (Z.ltb_spec z 0).
  - cbn [strip_char]. rewrite Ascii.eqb_refl, parse_show_u by lia. cbn. f_equal. lia.
  - rewrite !strip_char_None by (apply show_u_no_byte; [lia|done]).
    cbn. apply parse_show_u. lia.
Qed.

Lemma u256_parts_limbs p : u256_parts (limbs_of p) = p.
Proof. by destruct p. Qed.

Lemma i256_value_inj p q : i256_wf p → i256_wf q → i256_value p = i256_value q → p = q.
Proof.
  destruct p as [a b c d], q as [a' b' c' d'].
  unfold i256_wf, i256_value, is_limb; cbn [hi_hi hi_lo lo_hi lo_lo limbs_value length].
  change (64 * Z.of_nat 3) with (64 + (64 + 64)). change (64 * Z.of_nat 2) with (64 + 64).
  change (64 * Z.of_nat 1) with 64. change (64 * Z.of_nat 0) with 0.
  rewrite !Z.pow_add_r, Z.pow_0_r by lia. set (B := 2 ^ 64) in *.
  intros (A1 & A2 & A3 & A4) (B1 & B2 & B3 & B4) Hv.
  assert (∀ x y u v, 0 ≤ u < B → 0 ≤ v < B → x * B + u = y * B + v → x = y ∧ u = v) as Hdiv.
  { intros x y u v Hu Hw Heq. assert (x = y) by nia. subst. lia. }
  destruct (Hdiv ((a * B + b) * B + c) ((a' * B + b') * B + c') d d') as [E3 ->]; [lia..|].
  destruct (Hdiv (a * B + b) (a' * B + b') c c') as [E2 ->]; [lia..|].
  destruct (Hdiv a a' b b') as [-> ->]; [lia..|]. done.
Qed.

(** The two 256-bit dialects are inverse: the decimal text the decoder
    renders for any [U256] or [I256] value is accepted by the argument parser
    and gives back exactly that value. *)
Theorem decimal256_roundtrip p name :
  (u256_wf p → u256_parts <$> parse_u256 (JStr (u256_to_decimal p)) name = Ok p)
  ∧ (i256_wf p → i256_parts <$> parse_i256 (JStr (i256_to_decimal p)) name = Ok p).
Proof.
  split; intros Hp.
  - rewrite u256_decimal by done. pose proof (u256_value_nonneg p Hp) as Hnn.
    unfold parse_u256. cbn [text_of_int mbind result_bind].
    rewrite <- show_i_nonneg by done. rewrite trim_show_i, show_i_nonneg by done.
    rewrite starts_with_strip, !strip_char_None by (apply show_u_no_byte; done). cbn [default].
    pose proof (parse_digits_spec (show_u (u256_value p)) name) as Hd.
    rewrite parse_show_u in Hd by done. unfold u256_value in *.
    pose proof (limbs_value_range _ Hp) as Hr. change (64 * Z.of_nat _) with 256 in Hr.
    destruct (parse_digits _ name) as [l|e].
    + destruct Hd as ([= Hv] & Hl & Hlen). cbn. f_equal. rewrite <- (u256_parts_limbs p).
      f_equal. symmetry. by apply limbs_value_inj.
    + specialize (Hd _ eq_refl). lia.
  - rewrite i256_decimal by done.
    pose proof (parse_i256_correct (show_i (i256_value p)) name) as Hd.
    rewrite trim_show_i, signed_numeral_show in Hd.
    destruct (parse_i256 _ name) as [l|e].
    + destruct Hd as (z & [= <-] & Hwf & Hv). cbn. f_equal. by apply i256_value_inj.
    + specialize (Hd _ eq_refl).
      assert (- 2 ^ 255 ≤ i256_value p < 2 ^ 255); [|lia]. clear Hd.
      destruct Hp as (H1 & H2 & H3 & H4). unfold i256_value, is_limb in *.
      cbn [limbs_value length].
      change (64 * Z.of_nat 3) with 192. change (64 * Z.of_nat 2) with 128.
      change (64 * Z.of_nat 1) with 64. change (64 * Z.of_nat 0) with 0. lia.
Qed.

Lemma decimal256_roundtrip_witness :
  let p := {| hi_hi := -1; hi_lo := 2 ^ 64 - 1; lo_hi := 2 ^ 64 - 1; lo_lo := 2 ^ 64 - 42 |} in
  i256_parts <$> parse_i256 (JStr (i256_to_decimal p)) "x" = Ok p.
Proof.
  intros p. apply decimal256_roundtrip. unfold i256_wf, is_limb. cbn. lia.
Defined.
