(* ===== verification/Spec.v ===== *)
(** * Spec: the parsed interface of a contract

    [lumenqraph-core/src/spec.rs]: the [ContractSpec] built from the entries of
    the [contractspecv0] section, its name indexes, event enrichment and the
    relabelling of decoded values with their declared types. *)
From S2P Require Import Prelude Text Containers Values Wasm.

From Stdlib Require Import Ascii.

Local Open Scope Z_scope.

(** ** The entries of the section: data of [stellar_xdr] *)

Record ScSpecFunctionInputV0 := { in_name : string; in_type : ScSpecTypeDef }.
Record ScSpecFunctionV0 := {
  fn_doc : string;
  fn_name : string;
  fn_inputs : list ScSpecFunctionInputV0;
  fn_outputs : list ScSpecTypeDef;
}.
Record ScSpecUdtStructFieldV0 := { sf_name : string; sf_type : ScSpecTypeDef }.
Inductive ScSpecUdtUnionCaseV0 : Type :=
  | VoidV0 (name : string)
  | TupleV0 (name : string) (types : list ScSpecTypeDef).
Record ScSpecUdtEnumCaseV0 := { ec_name : string; ec_value : Z }.
Record ScSpecUdtErrorEnumCaseV0 := { xc_doc : string; xc_name : string; xc_value : Z }.
Inductive ScSpecEventParamLocationV0 : Type := LocData | LocTopicList.
Inductive ScSpecEventDataFormat : Type := SingleValue | DataVec | DataMap.
Record ScSpecEventParamV0 := {
  ep_name : string;
  ep_type : ScSpecTypeDef;
  ep_location : ScSpecEventParamLocationV0;
}.
Record ScSpecEventV0 := {
  ev_doc : string;
  ev_name : string;
  ev_prefix_topics : list string;
  ev_params : list ScSpecEventParamV0;
  ev_data_format : ScSpecEventDataFormat;
}.

Inductive ScSpecEntry : Type :=
  | FunctionV0 (f : ScSpecFunctionV0)
  | UdtStructV0 (name : string) (fields : list ScSpecUdtStructFieldV0)
  | UdtUnionV0 (name : string) (cases : list ScSpecUdtUnionCaseV0)
  | UdtEnumV0 (name : string) (cases : list ScSpecUdtEnumCaseV0)
  | UdtErrorEnumV0 (doc name : string) (cases : list ScSpecUdtErrorEnumCaseV0)
  | EventV0 (e : ScSpecEventV0).

(** ** The parsed interface *)

Record Field := { f_name : string; f_type_name : string; f_ty : ScSpecTypeDef }.

Record FunctionSpec := {
  fs_name : string;
  fs_doc : string;
  fs_inputs : list Field;
  fs_outputs : list string;
  fs_output_tys : list ScSpecTypeDef;
}.

Record EventParam := {
  p_name : string;
  p_type_name : string;
  p_location : string;
  p_ty : ScSpecTypeDef;
}.

Record EventSpec := {
  e_name : string;
  e_doc : string;
  e_prefix_topics : list string;
  e_params : list EventParam;
  e_data_format : string;
}.

Record UdtStruct := { s_name : string; s_fields : list Field }.

Record UnionCase := { c_name : string; c_type_names : list string; c_tys : list ScSpecTypeDef }.

Record UdtUnion := { u_name : string; u_cases : list UnionCase }.

Record UdtEnum := { n_name : string; n_cases : list (string * Z) }.

Record ErrorCase := { x_name : string; x_code : Z; x_doc : string }.

Record UdtErrorEnum := { xe_name : string; xe_doc : string; xe_cases : list ErrorCase }.

Inductive UdtRef : Type := RefEnum (i : nat) | RefUnion (i : nat) | RefStruct (i : nat).

Inductive UdtDef : Type := DefEnum (e : UdtEnum) | DefUnion (u : UdtUnion) | DefStruct (s : UdtStruct).

Record ContractSpec := {
  functions : list FunctionSpec;
  events : list EventSpec;
  structs : list UdtStruct;
  unions : list UdtUnion;
  enums : list UdtEnum;
  error_enums : list UdtErrorEnum;
  errors : list UdtErrorEnum;
  events_by_name : gmap string nat;
  events_by_prefix : gmap (list string) nat;
  functions_by_name : gmap string nat;
  udts_by_name : gmap string UdtRef;
  enum_cases : list (gmap Z string);
  error_code_index : gmap Z (string * string);
}.

Definition default_spec : ContractSpec := {|
  functions := []; events := []; structs := []; unions := []; enums := [];
  error_enums := []; errors := [];
  events_by_name := ∅; events_by_prefix := ∅; functions_by_name := ∅; udts_by_name := ∅;
  enum_cases := []; error_code_index := ∅;
|}.

Record ParsedSpec := {
  spec : ContractSpec;
  complete : bool;
  skipped_entries : nat;
  error : option string;
}.

(** ** Type names *)

Section spec.
Context `{Stellar}.

Definition string_of (s : string) : string := to_utf8_string_lossy s.

Fixpoint type_name (t : ScSpecTypeDef) : string :=
  match t with
  | TVal => "Val"
  | TBool => "bool"
  | TVoid => "void"
  | TError => "Error"
  | TU32 => "u32"
  | TI32 => "i32"
  | TU64 => "u64"
  | TI64 => "i64"
  | TTimepoint => "Timepoint"
  | TDuration => "Duration"
  | TU128 => "u128"
  | TI128 => "i128"
  | TU256 => "u256"
  | TI256 => "i256"
  | TBytes => "Bytes"
  | TString => "String"
  | TSymbol => "Symbol"
  | TAddress => "Address"
  | TMuxedAddress => "MuxedAddress"
  | TOption o => "Option<" +:+ type_name o +:+ ">"
  | TResult ok e => "Result<" +:+ type_name ok +:+ ", " +:+ type_name e +:+ ">"
  | TVec v => "Vec<" +:+ type_name v +:+ ">"
  | TMap k v => "Map<" +:+ type_name k +:+ ", " +:+ type_name v +:+ ">"
  | TTuple l => "(" +:+ join ", " (type_name <$> l) +:+ ")"
  | TBytesN n => "BytesN<" +:+ show_u n +:+ ">"
  | TUdt name => to_utf8_string_lossy name
  end.

(** ** Building the interface *)

Definition mk_field (name : string) (t : ScSpecTypeDef) : Field :=
  {| f_name := string_of name; f_type_name := type_name t; f_ty := t |}.

Definition mk_case (c : ScSpecUdtUnionCaseV0) : UnionCase :=
  match c with
  | VoidV0 name => {| c_name := string_of name; c_type_names := []; c_tys := [] |}
  | TupleV0 name types =>
      {| c_name := string_of name; c_type_names := type_name <$> types; c_tys := types |}
  end.

Definition mk_param (p : ScSpecEventParamV0) : EventParam := {|
  p_name := string_of (ep_name p);
  p_type_name := type_name (ep_type p);
  p_location := match ep_location p with LocTopicList => "topic" | LocData => "data" end;
  p_ty := ep_type p;
|}.

Definition mk_function (f : ScSpecFunctionV0) : FunctionSpec := {|
  fs_name := to_utf8_string_lossy (fn_name f);
  fs_doc := string_of (fn_doc f);
  fs_inputs := (λ i, mk_field (in_name i) (in_type i)) <$> fn_inputs f;
  fs_outputs := type_name <$> fn_outputs f;
  fs_output_tys := fn_outputs f;
|}.

Definition mk_event (ev : ScSpecEventV0) : EventSpec := {|
  e_name := to_utf8_string_lossy (ev_name ev);
  e_doc := string_of (ev_doc ev);
  e_prefix_topics := to_utf8_string_lossy <$> ev_prefix_topics ev;
  e_params := mk_param <$> ev_params ev;
  e_data_format := match ev_data_format ev with
                   | SingleValue => "single" | DataVec => "vec" | DataMap => "map"
                   end;
|}.

Definition mk_error_enum (doc name : string) (cases : list ScSpecUdtErrorEnumCaseV0) : UdtErrorEnum := {|
  xe_name := string_of name;
  xe_doc := string_of doc;
  xe_cases := (λ c, {| x_name := string_of (xc_name c); x_code := xc_value c;
                       x_doc := string_of (xc_doc c) |}) <$> cases;
|}.

(** Replacing one public field ([self.functions.push(..)]). *)
Definition with_lists (s : ContractSpec) fs evs sts us es xes xs : ContractSpec := {|
  functions := fs; events := evs; structs := sts; unions := us; enums := es;
  error_enums := xes; errors := xs;
  events_by_name := events_by_name s; events_by_prefix := events_by_prefix s;
  functions_by_name := functions_by_name s; udts_by_name := udts_by_name s;
  enum_cases := enum_cases s; error_code_index := error_code_index s;
|}.

Definition push_entry (s : ContractSpec) (entry : ScSpecEntry) : ContractSpec :=
  let '(Build_ContractSpec fs evs sts us es xes xs _ _ _ _ _ _) := s in
  match entry with
  | FunctionV0 f => with_lists s (fs ++ [mk_function f]) evs sts us es xes xs
  | UdtStructV0 name fields =>
      with_lists s fs evs
        (sts ++ [{| s_name := string_of name;
                    s_fields := (λ f, mk_field (sf_name f) (sf_type f)) <$> fields |}])
        us es xes xs
  | UdtUnionV0 name cases =>
      with_lists s fs evs sts
        (us ++ [{| u_name := string_of name; u_cases := mk_case <$> cases |}]) es xes xs
  | UdtEnumV0 name cases =>
      with_lists s fs evs sts us
        (es ++ [{| n_name := string_of name;
                   n_cases := (λ c, (string_of (ec_name c), ec_value c)) <$> cases |}])
        xes xs
  | EventV0 ev => with_lists s fs (evs ++ [mk_event ev]) sts us es xes xs
  | UdtErrorEnumV0 doc name cases =>
      with_lists s fs evs sts us es
        (xes ++ [mk_error_enum doc name cases]) (xs ++ [mk_error_enum doc name cases])
  end.

Definition is_empty {A} (l : list A) : bool := match l with [] => true | _ => false end.

Definition spec_is_empty (s : ContractSpec) : bool :=
  is_empty (functions s) && is_empty (events s) && is_empty (structs s)
  && is_empty (unions s) && is_empty (enums s) && is_empty (error_enums s)
  && is_empty (errors s).

(** *** The name indexes *)

Definition index_events_by_prefix (evs : list EventSpec) : gmap (list string) nat :=
  foldl (λ m '(i, e),
    match e_prefix_topics e with [] => m | _ => <[e_prefix_topics e := i]> m end)
    ∅ (enumerate evs).

Definition index_events_by_name (evs : list EventSpec) : gmap string nat :=
  let m := foldl (λ m '(i, e), or_insert (e_name e) i m) ∅ (enumerate evs) in
  foldl (λ m '(i, e),
    match e_prefix_topics e with [] => m | first :: _ => <[first := i]> m end)
    m (enumerate evs).

Definition index_functions (fs : list FunctionSpec) : gmap string nat :=
  foldl (λ m '(i, f), or_insert (fs_name f) i m) ∅ (enumerate fs).

Definition index_udts (s : ContractSpec) : gmap string UdtRef :=
  let m1 := foldl (λ m '(i, e), or_insert (n_name e) (RefEnum i) m) ∅ (enumerate (enums s)) in
  let m2 := foldl (λ m '(i, u), or_insert (u_name u) (RefUnion i) m) m1 (enumerate (unions s)) in
  foldl (λ m '(i, t), or_insert (s_name t) (RefStruct i) m) m2 (enumerate (structs s)).

Definition index_enum_cases (es : list UdtEnum) : list (gmap Z string) :=
  (λ e, foldl (λ m '(name, value), <[value := name]> m) ∅ (n_cases e)) <$> es.

Definition index_error_codes (xes : list UdtErrorEnum) : gmap Z (string * string) :=
  foldl (λ m xe, foldl (λ m c, <[x_code c := (x_name c, x_doc c)]> m) m (xe_cases xe)) ∅ xes.

Definition reindex (s : ContractSpec) : ContractSpec := {|
  functions := functions s; events := events s; structs := structs s; unions := unions s;
  enums := enums s; error_enums := error_enums s; errors := errors s;
  events_by_prefix := index_events_by_prefix (events s);
  events_by_name := index_events_by_name (events s);
  functions_by_name := index_functions (functions s);
  udts_by_name := index_udts s;
  enum_cases := index_enum_cases (enums s);
  error_code_index := index_error_codes (error_enums s);
|}.

(** *** Parsing *)

(** [ScSpecEntry::read_xdr_iter] under limits [depth] and [len]: the entries and
    errors the [stellar_xdr] iterator yields; an error is its text. *)
Variable read_xdr_iter : Z → Z → list ascii → list (result string ScSpecEntry).

Fixpoint entries_loop (entries : list (result string ScSpecEntry)) (p : ParsedSpec) : ParsedSpec :=
  match entries with
  | [] => p
  | Ok e :: rest =>
      entries_loop rest {| spec := push_entry (spec p) e; complete := complete p;
                           skipped_entries := skipped_entries p; error := error p |}
  | Err e :: rest =>
      let p' := {| spec := spec p; complete := false;
                   skipped_entries := S (skipped_entries p);
                   error := match error p with None => Some e | o => o end |} in
      if contains_str "ExceededLimit" e then p' else entries_loop rest p'
  end.

Definition from_spec_xdr (bs : list ascii) : option ParsedSpec :=
  let entries := read_xdr_iter 500 (Z.max (zlen bs) 1) bs in
  let p := entries_loop entries
             {| spec := default_spec; complete := true; skipped_entries := 0; error := None |} in
  if spec_is_empty (spec p) then None
  else Some {| spec := reindex (spec p); complete := complete p;
               skipped_entries := skipped_entries p; error := error p |}.

Definition from_spec_xdr_simple (bs : list ascii) : option ContractSpec :=
  spec <$> from_spec_xdr bs.

Definition from_wasm (wasm : list ascii) : option ParsedSpec :=
  section ← spec_section_of wasm; from_spec_xdr section.

Definition from_wasm_simple (wasm : list ascii) : option ContractSpec := spec <$> from_wasm wasm.

(** *** Lookups *)

Definition function (s : ContractSpec) (name : string) : option FunctionSpec :=
  i ← functions_by_name s !! name; functions s !! i.

Definition udt_def (s : ContractSpec) (name : string) : option UdtDef :=
  r ← udts_by_name s !! name;
  match r with
  | RefEnum i => DefEnum <$> enums s !! i
  | RefUnion i => DefUnion <$> unions s !! i
  | RefStruct i => DefStruct <$> structs s !! i
  end.

Definition resolve_error_code (s : ContractSpec) (code : Z) : option (string * string) :=
  error_code_index s !! code.

Definition has_events (s : ContractSpec) : bool := negb (is_empty (events s)).
End spec.

(** ** The interface as JSON, through the derived [Serialize] *)

Definition field_json (f : Field) : Json :=
  mk_obj [("name", JStr (f_name f)); ("type", JStr (f_type_name f))].

Definition function_json (f : FunctionSpec) : Json := mk_obj [
  ("name", JStr (fs_name f)); ("doc", JStr (fs_doc f));
  ("inputs", JArr (field_json <$> fs_inputs f)); ("outputs", JArr (JStr <$> fs_outputs f))].

Definition event_json (e : EventSpec) : Json := mk_obj [
  ("name", JStr (e_name e)); ("doc", JStr (e_doc e));
  ("prefix_topics", JArr (JStr <$> e_prefix_topics e));
  ("params", JArr ((λ p, mk_obj [("name", JStr (p_name p)); ("type", JStr (p_type_name p));
                                 ("location", JStr (p_location p))]) <$> e_params e));
  ("data_format", JStr (e_data_format e))].

Definition struct_json (s : UdtStruct) : Json :=
  mk_obj [("name", JStr (s_name s)); ("fields", JArr (field_json <$> s_fields s))].

Definition union_json (u : UdtUnion) : Json := mk_obj [
  ("name", JStr (u_name u));
  ("cases", JArr ((λ c, mk_obj [("name", JStr (c_name c)); ("types", JArr (JStr <$> c_type_names c))])
                  <$> u_cases u))].

Definition enum_json (e : UdtEnum) : Json := mk_obj [
  ("name", JStr (n_name e));
  ("cases", JArr ((λ c, JArr [JStr c.1; JInt c.2]) <$> n_cases e))].

Definition error_enum_json (e : UdtErrorEnum) : Json := mk_obj [
  ("name", JStr (xe_name e)); ("doc", JStr (xe_doc e));
  ("cases", JArr ((λ c, mk_obj [("name", JStr (x_name c)); ("code", JInt (x_code c));
                                ("doc", JStr (x_doc c))]) <$> xe_cases e))].

Definition to_interface_json (s : ContractSpec) : Json := mk_obj [
  ("functions", JArr (function_json <$> functions s));
  ("events", JArr (event_json <$> events s));
  ("structs", JArr (struct_json <$> structs s));
  ("unions", JArr (union_json <$> unions s));
  ("enums", JArr (enum_json <$> enums s));
  ("errors", JArr (error_enum_json <$> errors s))].

(** ** Theorems: the indexes *)

Section index_theorems.
Context `{Stellar}.

Lemma index_functions_lookup fs name :
  index_functions fs !! name = position (λ f, bool_decide (fs_name f = name)) fs.
Proof.
  unfold index_functions. rewrite (or_insert_loop fs_name (λ i, i)), lookup_empty.
  by destruct (position _ _).
Qed.

Lemma index_udts_lookup s name :
  index_udts s !! name =
    match position (λ e, bool_decide (n_name e = name)) (enums s) with
    | Some i => Some (RefEnum i)
    | None =>
        match position (λ u, bool_decide (u_name u = name)) (unions s) with
        | Some i => Some (RefUnion i)
        | None => RefStruct <$> position (λ t, bool_decide (s_name t = name)) (structs s)
        end
    end.
Proof.
  unfold index_udts.
  rewrite (or_insert_loop s_name RefStruct), (or_insert_loop u_name RefUnion),
    (or_insert_loop n_name RefEnum), lookup_empty.
  by destruct (position _ (enums s)), (position _ (unions s)).
Qed.

Lemma index_error_codes_lookup xes code :
  index_error_codes xes !! code
  = (λ c, (x_name c, x_doc c)) <$>
      List.find (λ c, bool_decide (Some (x_code c) = Some code)) (rev (xes ≫= xe_cases)).
Proof.
  unfold index_error_codes.
  assert (∀ m : gmap Z (string * string), foldl (λ m xe, foldl (λ m c, <[x_code c := (x_name c, x_doc c)]> m) m (xe_cases xe))
                 m xes
          = foldl (λ m c, <[x_code c := (x_name c, x_doc c)]> m) m (xes ≫= xe_cases)) as Hflat.
  { induction xes as [|xe xes IH]; intros m; [done|].
    rewrite bind_cons, foldl_app. apply IH. }
  rewrite Hflat.
  rewrite (insert_loop (λ c, Some (x_code c)) (λ c, (x_name c, x_doc c)) (xes ≫= xe_cases) ∅ code),
    lookup_empty.
  by destruct (List.find _ _).
Qed.

Lemma enum_case_lookup (e : UdtEnum) n :
  foldl (λ m '(name, value), <[value := name]> m) (∅ : gmap Z string) (n_cases e) !! n
  = fst <$> List.find (λ c, bool_decide (Some c.2 = Some n)) (rev (n_cases e)).
Proof.
  assert (∀ l (m : gmap Z string),
    foldl (λ m '(name, value), <[value := name]> m) m l
    = foldl (λ m c, match Some c.2 with Some j => <[j := c.1]> m | None => m end) m l) as ->.
  { intros l. induction l as [|[a b] l IH]; intros m; [done|]. apply IH. }
  rewrite (insert_loop (λ c : string * Z, Some c.2) fst), lookup_empty.
  by destruct (List.find _ _).
Qed.

(** After [reindex], every lookup through a hash index gives what a scan of
    the declarations gives: a function resolves to its first declaration, a
    type name to the first enum, else the first union, else the first struct,
    and an error code to its last declared case.  Every stored index is in
    bounds, so no lookup panics. *)
Theorem reindex_lookups s :
  let r := reindex s in
  (∀ name, function r name = List.find (λ f, bool_decide (fs_name f = name)) (functions s))
  ∧ (∀ name, udt_def r name =
      match List.find (λ e, bool_decide (n_name e = name)) (enums s) with
      | Some e => Some (DefEnum e)
      | None =>
          match List.find (λ u, bool_decide (u_name u = name)) (unions s) with
          | Some u => Some (DefUnion u)
          | None => DefStruct <$> List.find (λ t, bool_decide (s_name t = name)) (structs s)
          end
      end)
  ∧ (∀ code, resolve_error_code r code =
      (λ c, (x_name c, x_doc c)) <$>
        List.find (λ c, bool_decide (Some (x_code c) = Some code))
          (rev (error_enums s ≫= xe_cases)))
  ∧ (∀ name r', udts_by_name r !! name = Some r' →
      match r' with
      | RefEnum i => is_Some (enums s !! i)
      | RefUnion i => is_Some (unions s !! i)
      | RefStruct i => is_Some (structs s !! i)
      end).
Proof.
  cbn zeta. split_and!.
  - intros name. unfold function; cbn [functions_by_name functions reindex].
    rewrite index_functions_lookup. apply position_bind_find.
  - intros name. unfold udt_def; cbn [udts_by_name enums unions structs reindex].
    rewrite index_udts_lookup.
    pose proof (position_find (λ e, bool_decide (n_name e = name)) (enums s)) as He.
    pose proof (position_find (λ u, bool_decide (u_name u = name)) (unions s)) as Hu.
    pose proof (position_find (λ t, bool_decide (s_name t = name)) (structs s)) as Ht.
    destruct (position _ (enums s)) as [i|];
      [destruct He as [Hf [e He]]; rewrite <- Hf; cbn; by rewrite He|rewrite He].
    destruct (position _ (unions s)) as [i|];
      [destruct Hu as [Hf [u Hu]]; rewrite <- Hf; cbn; by rewrite Hu|rewrite Hu].
    destruct (position _ (structs s)) as [i|];
      [destruct Ht as [Hf _]; rewrite <- Hf; done|by rewrite Ht].
  - intros code. apply index_error_codes_lookup.
  - intros name r'. cbn [udts_by_name reindex]. rewrite index_udts_lookup.
    pose proof (position_find (λ e, bool_decide (n_name e = name)) (enums s)) as He.
    pose proof (position_find (λ u, bool_decide (u_name u = name)) (unions s)) as Hu.
    pose proof (position_find (λ t, bool_decide (s_name t = name)) (structs s)) as Ht.
    destruct (position _ (enums s)) as [i|]; [intros Hr; injection Hr as <-; by destruct He|].
    destruct (position _ (unions s)) as [i|]; [intros Hr; injection Hr as <-; by destruct Hu|].
    destruct (position _ (structs s)) as [i|]; [intros Hr; injection Hr as <-; by destruct Ht|].
    discriminate.
Qed.
End index_theorems.
