(* ===== verification/Enrich.v ===== *)
(** * Enrich: naming decoded values with the contract's declared types

    [relabel], [relabel_udt] and [enrich_event] of
    [lumenqraph-core/src/spec.rs]. *)
From S2P Require Import Prelude Text Containers Values Instances Spec.

Local Open Scope Z_scope.

(** ** Relabelling *)

Section relabel.
Context `{Stellar} (sp : ContractSpec).

(** The body of [relabel_udt]; [rec] is [relabel] on the parts of the value. *)
Definition relabel_udt_with (rec : Json → ScSpecTypeDef → Json) (v : Json) (udt_name : string) : Json :=
  match udts_by_name sp !! udt_name with
  | Some (RefEnum i) =>
      match as_u64 v, enum_cases sp !! i with
      | Some n, Some cases =>
          match (if in_u 32 n then cases !! n else None) with
          | Some case => JStr case
          | None => v
          end
      | _, _ => v
      end
  | Some (RefUnion i) =>
      match unions sp !! i, v with
      | Some u, JArr (JStr case_name :: values) =>
          match List.find (λ c, String.eqb (c_name c) case_name) (u_cases u) with
          | Some case =>
              if is_empty (c_tys case) then JStr (c_name case)
              else if (length values =? length (c_tys case))%nat
              then mk_obj [(c_name case, JArr (zip_map rec values (c_tys case)))]
              else v
          | None => v
          end
      | _, _ => v
      end
  | Some (RefStruct i) =>
      match structs sp !! i, v with
      | Some s, JObj o =>
          mk_obj ((λ p, (p.1,
            match List.find (λ f, String.eqb (f_name f) p.1) (s_fields s) with
            | Some f => rec p.2 (f_ty f)
            | None => p.2
            end)) <$> o)
      | Some s, JArr a =>
          if (length a =? length (s_fields s))%nat
          then JArr (zip_map (λ el f, rec el (f_ty f)) a (s_fields s))
          else v
      | _, _ => v
      end
  | None => v
  end.

(** Recursion is on the declared type; [rec] is [relabel] again, for the parts of
    a value whose type is a name. *)
Definition relabel_go (rec : Json → ScSpecTypeDef → Json) : Json → ScSpecTypeDef → Json :=
  fix go (v : Json) (ty : ScSpecTypeDef) {struct ty} : Json :=
    match ty with
    | TOption inner => if is_null v then v else go v inner
    | TVec inner => match v with JArr a => JArr ((λ el, go el inner) <$> a) | _ => v end
    | TTuple types =>
        match v with
        | JArr a =>
            if (length a =? length types)%nat
            then JArr (zip_map (λ et el, go el et) types a) else v
        | _ => v
        end
    | TMap key_type value_type =>
        match v with
        | JObj o => mk_obj ((λ p, (p.1, go p.2 value_type)) <$> o)
        | JArr a =>
            JArr ((λ item,
              match json_get "key" item, json_get "val" item with
              | Some k, Some val_v =>
                  mk_obj [("key", go k key_type); ("val", go val_v value_type)]
              | _, _ => item
              end) <$> a)
        | _ => v
        end
    | TResult ok_type error_type =>
        match json_get "Ok" v with
        | Some ok_val => mk_obj [("Ok", go ok_val ok_type)]
        | None =>
            match json_get "Err" v with
            | Some err_val => mk_obj [("Err", go err_val error_type)]
            | None => v
            end
        end
    | TUdt name => relabel_udt_with rec v (to_utf8_string_lossy name)
    | _ => v
    end.

(** Each expansion of a type name descends into the value, so the depth of the
    value is enough fuel ([relabel_eq]). *)
Fixpoint relabel_f (fuel : nat) : Json → ScSpecTypeDef → Json :=
  relabel_go (match fuel with O => λ v _, v | S fuel' => relabel_f fuel' end).

Definition relabel (v : Json) (ty : ScSpecTypeDef) : Json := relabel_f (jdepth v) v ty.

Definition relabel_udt (v : Json) (udt_name : string) : Json := relabel_udt_with relabel v udt_name.

Definition relabel_value (v : Json) (ty : ScSpecTypeDef) : Json := relabel v ty.

(** ** Event enrichment *)

(** [decoded_topics.iter().map_while(as_str)]. *)
Fixpoint leading_strings (topics : list Json) : list string :=
  match topics with
  | JStr s :: rest => s :: leading_strings rest
  | _ => []
  end.

(** The [for (prefix, &idx) in &self.events_by_prefix] loop, in the order the
    hash map yields its entries. *)
Fixpoint best_prefix (topic_strings : list string) (entries : list (list string * nat))
    (best : option nat) (best_len : nat) : option nat :=
  match entries with
  | [] => best
  | (prefix, idx) :: rest =>
      let plen := length prefix in
      if ((0 <? plen) && (plen <=? length topic_strings))%nat
         && bool_decide (take plen topic_strings = prefix) && (best_len <=? plen)%nat
      then best_prefix topic_strings rest (Some idx) plen
      else best_prefix topic_strings rest best best_len
  end.

(** One turn of the loop over the declared parameters: the topics and the data
    elements not consumed yet, and the parameters bound so far. *)
Definition bind_param (data_format : string) (decoded_value : Json)
    (st : list Json * list Json * list (string * Json)) (p : EventParam) :=
  let '(topics, data, params) := st in
  let '(value, topics', data') :=
    if String.eqb (p_location p) "topic" then (default JNull (head topics), tail topics, data)
    else if String.eqb data_format "map"
    then (default JNull (json_get (p_name p) decoded_value), topics, data)
    else if String.eqb data_format "vec" then (default JNull (head data), topics, tail data)
    else (decoded_value, topics, data)
  in
  (topics', data',
   bt_insert (p_name p)
     (mk_obj [("type", JStr (p_type_name p)); ("value", relabel value (p_ty p))]) params).

(** [order] lists the entries of a hash map in its iteration order. *)
Definition enrich_event (order : gmap (list string) nat → list (list string * nat))
    (event_name : string) (decoded_topics : list Json) (decoded_value : Json) : option Json :=
  let topic_strings := leading_strings decoded_topics in
  let best := best_prefix topic_strings (order (events_by_prefix sp)) None 0 in
  spec_idx ← match best with Some i => Some i | None => events_by_name sp !! event_name end;
  spec ← events sp !! spec_idx;
  let skip := Nat.max (length (e_prefix_topics spec)) 1 in
  let topic_vals := drop skip decoded_topics in
  let data_array :=
    match decoded_value with
    | JArr a => if String.eqb (e_data_format spec) "vec" then a else []
    | _ => []
    end in
  let '(_, _, params) :=
    foldl (bind_param (e_data_format spec) decoded_value) (topic_vals, data_array, []) (e_params spec) in
  Some (mk_obj [("event", JStr (e_name spec)); ("params", JObj params)]).
End relabel.

(** ** Lemmas: the fuel of [relabel] *)

Lemma zip_map_ext_in {A B C} (f g : A → B → C) l k :
  (∀ x y, x ∈ l → f x y = g x y) → zip_map f l k = zip_map g l k.
Proof.
  revert k; induction l as [|x l IH]; intros [|y k] Hfg; simpl; try done.
  f_equal; [apply Hfg; constructor|]. apply IH. intros. apply Hfg. by constructor.
Qed.

Lemma zip_map_ext_in_r {A B C} (f g : A → B → C) l k :
  (∀ x y, x ∈ l → y ∈ k → f x y = g x y) → zip_map f l k = zip_map g l k.
Proof.
  revert k; induction l as [|x l IH]; intros [|y k] Hfg; simpl; try done.
  f_equal; [apply Hfg; constructor|]. apply IH. intros. apply Hfg; by constructor.
Qed.

Lemma fmap_ext_in {A B} (f g : A → B) (l : list A) :
  (∀ x, x ∈ l → f x = g x) → f <$> l = g <$> l.
Proof.
  intros Hfg. apply list_fmap_ext. intros i x Hx. apply Hfg. by eapply list_elem_of_lookup_2.
Qed.

Lemma json_get_depth k v w : json_get k v = Some w → (jdepth w < jdepth v)%nat.
Proof. destruct v; try done. cbn [json_get]. intros ?%bt_get_Some_in. by eapply jdepth_obj_elem. Qed.

Section relabel_lemmas.
Context `{Stellar} (sp : ContractSpec).

Lemma relabel_udt_with_ext rec1 rec2 v name :
  (∀ w t, (jdepth w < jdepth v)%nat → rec1 w t = rec2 w t) →
  relabel_udt_with sp rec1 v name = relabel_udt_with sp rec2 v name.
Proof.
  intros Hrec. unfold relabel_udt_with. destruct (udts_by_name sp !! name) as [[i|i|i]|]; [done| | |done].
  - destruct (unions sp !! i) as [u|]; [|done]. destruct v as [| | | | |a|]; try done.
    destruct a as [|x values]; [done|]. destruct x; try done.
    destruct (List.find _ _) as [c|]; [|done]. destruct (is_empty _); [done|].
    destruct (_ =? _)%nat; [|done]. do 4 f_equal. apply zip_map_ext_in.
    intros w t Hw. apply Hrec, jdepth_arr_elem. by constructor.
  - destruct (structs sp !! i) as [s|]; [|done]. destruct v as [| | | | |a|o]; try done.
    + destruct (_ =? _)%nat; [|done]. f_equal. apply zip_map_ext_in.
      intros w f Hw. by apply Hrec, jdepth_arr_elem.
    + f_equal. apply fmap_ext_in. intros [k w] Hkw. cbn.
      destruct (List.find _ _); [|done]. f_equal. apply Hrec. by eapply jdepth_obj_elem.
Qed.

Lemma relabel_go_ext rec1 rec2 ty v :
  (∀ w t, (jdepth w < jdepth v)%nat → rec1 w t = rec2 w t) →
  relabel_go sp rec1 v ty = relabel_go sp rec2 v ty.
Proof.
  revert v. induction ty as [t Ht|t IH|t e IHt IHe|t IH|k t IHk IHt|l IH] using typedef_ind_strong;
    intros v Hrec.
  - destruct t; try done. by apply relabel_udt_with_ext.
  - cbn. destruct (is_null v); [done|]. by apply IH.
  - cbn. destruct (json_get "Ok" v) as [w|] eqn:Eo.
    { do 3 f_equal. apply IHt. intros. apply json_get_depth in Eo. apply Hrec. lia. }
    destruct (json_get "Err" v) as [w|] eqn:Ee; [|done].
    do 3 f_equal. apply IHe. intros. apply json_get_depth in Ee. apply Hrec. lia.
  - cbn. destruct v as [| | | | |a|o]; try done. f_equal. apply fmap_ext_in.
    intros w Hw%jdepth_arr_elem. apply IH. intros. apply Hrec. lia.
  - cbn. destruct v as [| | | | |a|o]; try done; f_equal; apply fmap_ext_in.
    + intros w Hw%jdepth_arr_elem.
      destruct (json_get "key" w) as [x|] eqn:Ek; [|done].
      destruct (json_get "val" w) as [y|] eqn:Ev; [|done].
      apply json_get_depth in Ek, Ev.
      rewrite (IHk x), (IHt y); [done|intros; apply Hrec; lia..].
    + intros [j w] Hw%jdepth_obj_elem. cbn. f_equal. apply IHt. intros. apply Hrec. lia.
  - cbn. destruct v as [| | | | |a|o]; try done. destruct (_ =? _)%nat; [|done]. f_equal.
    apply zip_map_ext_in_r. intros t w Ht Hw%jdepth_arr_elem. pointwise.
    apply IH; [done|]. intros. apply Hrec. lia.
Qed.

Lemma relabel_f_enough n m v ty :
  (jdepth v ≤ n)%nat → (jdepth v ≤ m)%nat → relabel_f sp n v ty = relabel_f sp m v ty.
Proof.
  revert m v ty. induction n as [|n IH]; intros m v ty Hn Hm; destruct m as [|m];
    try done; cbn [relabel_f]; apply relabel_go_ext; intros w t Hw; try lia.
  apply IH; lia.
Qed.

(** The equation of the source: the fuel is never exhausted. *)
Lemma relabel_eq v ty : relabel sp v ty = relabel_go sp (relabel sp) v ty.
Proof.
  unfold relabel at 1. destruct (jdepth v) as [|n] eqn:E; cbn [relabel_f];
    apply relabel_go_ext; intros w t Hw; rewrite E in Hw; [lia|].
  apply relabel_f_enough; lia.
Qed.
End relabel_lemmas.

(** ** Lemmas: the longest prefix *)

(** The reference: try the longest leading tuple of topics first. *)
Fixpoint longest_prefix (m : gmap (list string) nat) (ts : list string) (k : nat) : option nat :=
  match k with
  | O => None
  | S k' => match m !! take k ts with Some i => Some i | None => longest_prefix m ts k' end
  end.

Definition prefix_matches (ts p : list string) : Prop :=
  (0 < length p ≤ length ts)%nat ∧ take (length p) ts = p.

Lemma best_prefix_cons ts p i rest best n :
  best_prefix ts ((p, i) :: rest) best n
  = if decide (prefix_matches ts p ∧ (n ≤ length p)%nat)
    then best_prefix ts rest (Some i) (length p) else best_prefix ts rest best n.
Proof.
  cbn [best_prefix]. unfold prefix_matches. destruct (_ && _) eqn:E; bool_facts.
  - rewrite decide_True; [done|].
    match goal with Hb : bool_decide _ = true |- _ => apply bool_decide_eq_true_1 in Hb end.
    repeat split; try done; lia.
  - rewrite decide_False; [done|]. intros [[Hlen Htake] Hn].
    destruct E as [E|E]; [|apply Nat.leb_gt in E; lia].
    apply andb_false_iff in E as [E|E].
    { apply andb_false_iff in E as [E|E]; bool_facts; lia. }
    by apply bool_decide_eq_false_1 in E.
Qed.

Lemma best_prefix_spec ts entries best n :
  (∃ p i, (p, i) ∈ entries ∧ prefix_matches ts p ∧ (n ≤ length p)%nat
     ∧ best_prefix ts entries best n = Some i
     ∧ ∀ p' i', (p', i') ∈ entries → prefix_matches ts p' → (length p' ≤ length p)%nat)
  ∨ (best_prefix ts entries best n = best
     ∧ ∀ p' i', (p', i') ∈ entries → prefix_matches ts p' → (length p' < n)%nat).
Proof.
  revert best n. induction entries as [|[p i] rest IH]; intros best n.
  { right. split; [done|]. intros p' i' []%not_elem_of_nil. }
  rewrite best_prefix_cons. case_decide as Hd.
  - left. destruct Hd as [Hm Hn].
    destruct (IH (Some i) (length p)) as [(q & j & Hin & Hq & Hle & Hr & Hmax)|[Hr Hmax]].
    + exists q, j. split_and!; [by apply elem_of_cons; right|done|lia|done|].
      intros p' i' [[= -> ->]|Hin']%elem_of_cons Hm'; [done|by eapply Hmax].
    + exists p, i. split_and!; [by apply elem_of_cons; left|done|done|done|].
      intros p' i' [[= -> ->]|Hin']%elem_of_cons Hm'; [done|]. apply Nat.lt_le_incl. by eapply Hmax.
  - destruct (IH best n) as [(q & j & Hin & Hq & Hle & Hr & Hmax)|[Hr Hmax]].
    + left. exists q, j. split_and!; [by apply elem_of_cons; right|done|done|done|].
      intros p' i' [[= -> ->]|Hin']%elem_of_cons Hm'; [|by eapply Hmax].
      destruct (decide (n ≤ length p)%nat); [naive_solver|lia].
    + right. split; [done|].
      intros p' i' [[= -> ->]|Hin']%elem_of_cons Hm'; [|by eapply Hmax].
      destruct (decide (n ≤ length p)%nat); [naive_solver|lia].
Qed.

Lemma longest_prefix_None m ts k :
  (∀ p i, m !! p = Some i → prefix_matches ts p → False) →
  (k ≤ length ts)%nat → longest_prefix m ts k = None.
Proof.
  intros Hno. induction k as [|k IH]; intros Hk; [done|]. cbn [longest_prefix].
  destruct (m !! take (S k) ts) as [i|] eqn:E; [|apply IH; lia].
  exfalso. apply (Hno _ _ E). unfold prefix_matches. rewrite length_take.
  replace (S k `min` length ts)%nat with (S k) by lia. split; [lia|done].
Qed.

Lemma longest_prefix_Some m ts k p i :
  m !! p = Some i → prefix_matches ts p → (length p ≤ k ≤ length ts)%nat →
  (∀ p' i', m !! p' = Some i' → prefix_matches ts p' → (length p' ≤ length p)%nat) →
  longest_prefix m ts k = Some i.
Proof.
  intros Hp [Hlen Htake] Hk Hmax. induction k as [|k IH]; [lia|]. cbn [longest_prefix].
  destruct (decide (length p = S k)) as [Heq|Hne]; [by rewrite <- Heq, Htake, Hp|].
  destruct (m !! take (S k) ts) as [j|] eqn:E; [|apply IH; lia].
  assert (length (take (S k) ts) = S k) as Hl by (rewrite length_take; lia).
  exfalso. assert (length (take (S k) ts) ≤ length p)%nat; [|lia].
  eapply Hmax; [done|]. split; rewrite Hl; [lia|done].
Qed.

Lemma best_prefix_longest m ts entries :
  entries ≡ₚ map_to_list m →
  best_prefix ts entries None 0 = longest_prefix m ts (length ts).
Proof.
  intros Hperm.
  assert (∀ p i, (p, i) ∈ entries ↔ m !! p = Some i) as Hin.
  { intros p i. rewrite Hperm. apply elem_of_map_to_list. }
  destruct (best_prefix_spec ts entries None 0)
    as [(p & i & Hp & Hm & _ & -> & Hmax)|[-> Hno]].
  - symmetry. apply (longest_prefix_Some _ _ _ p i); [by apply Hin|done|destruct Hm; lia|].
    intros p' i' Hp'%Hin. by eapply Hmax.
  - symmetry. apply longest_prefix_None; [|done]. intros p i Hp%Hin Hm.
    specialize (Hno p i Hp Hm). lia.
Qed.

(** ** Lemmas: binding the parameters *)

Definition is_topic (p : EventParam) : bool := String.eqb (p_location p) "topic".

Definition count {A} (f : A → bool) (l : list A) : nat := length (List.filter f l).

(** Position of parameter [i] among the topic and the data parameters. *)
Definition topic_pos (ps : list EventParam) (i : nat) : nat := count is_topic (take i ps).
Definition data_pos (ps : list EventParam) (i : nat) : nat :=
  count (λ p, negb (is_topic p)) (take i ps).

Section bind_lemmas.
Context `{Stellar} (sp : ContractSpec) (fmt : string) (v : Json).

Definition bound (ts ds : list Json) (ps : list EventParam) (i : nat) (p : EventParam) : Json :=
  if is_topic p then default JNull (ts !! topic_pos ps i)
  else if String.eqb fmt "map" then default JNull (json_get (p_name p) v)
  else if String.eqb fmt "vec" then default JNull (ds !! data_pos ps i)
  else v.

Definition param_json (value : Json) (p : EventParam) : Json :=
  mk_obj [("type", JStr (p_type_name p)); ("value", relabel sp value (p_ty p))].

Lemma head_drop {A} n (l : list A) : head (drop n l) = l !! n.
Proof. revert n; induction l as [|x l IH]; intros [|n]; cbn; first [done | apply IH]. Qed.

Lemma tail_drop {A} n (l : list A) : tail (drop n l) = drop (S n) l.
Proof. revert n; induction l as [|x l IH]; intros [|n]; cbn; first [done | apply IH]. Qed.

Lemma count_app {A} (f : A → bool) l k : count f (l ++ k) = (count f l + count f k)%nat.
Proof. unfold count. by rewrite List.filter_app, length_app. Qed.

Lemma bind_params_eq ts ds acc ps :
  foldl (bind_param sp fmt v) (ts, ds, acc) ps
  = (drop (count is_topic ps) ts,
     drop (if String.eqb fmt "map" then 0 else if String.eqb fmt "vec"
           then count (λ p, negb (is_topic p)) ps else 0)%nat ds,
     foldl (λ m p, bt_insert p.1 p.2 m) acc
       (imap (λ i p, (p_name p, param_json (bound ts ds ps i p) p)) ps)).
Proof.
  induction ps as [|p ps IH] using rev_ind.
  { cbn. by destruct (String.eqb fmt "map"), (String.eqb fmt "vec"). }
  rewrite foldl_app, IH. cbn [foldl]. rewrite imap_app, foldl_app. cbn [imap foldl fst snd].
  assert (imap (λ i q, (p_name q, param_json (bound ts ds (ps ++ [p]) i q) q)) ps
          = imap (λ i q, (p_name q, param_json (bound ts ds ps i q) q)) ps) as ->.
  { apply imap_ext. intros i q Hi%lookup_lt_Some. do 2 f_equal.
    unfold bound, topic_pos, data_pos. by rewrite take_app_le by lia. }
  set (m := foldl _ acc _). rewrite !count_app. unfold bind_param, bound, topic_pos, data_pos.
  rewrite Nat.add_0_r, take_app_length.
  assert (∀ f, count f [p] = if f p then 1 else 0)%nat as Hone
    by (intros f; unfold count; cbn; by destruct (f p)).
  fold (is_topic p). rewrite !Hone.
  destruct (is_topic p); cbn [negb].
  - rewrite head_drop, tail_drop, Nat.add_1_r, Nat.add_0_r. done.
  - destruct (String.eqb fmt "map"); [by rewrite Nat.add_0_r|].
    destruct (String.eqb fmt "vec"); rewrite ?head_drop, ?tail_drop, ?Nat.add_1_r, ?Nat.add_0_r;
      done.
Qed.
End bind_lemmas.

(** ** Theorem *)

Section enrich_theorem.
Context `{Stellar} (sp : ContractSpec).

(** The value a declared parameter gets: the topics after the prefix in order,
    and the data by name, by position, or whole. *)
Definition bound_value (e : EventSpec) (topics : list Json) (v : Json) (i : nat) (p : EventParam) : Json :=
  if is_topic p
  then default JNull (topics !! (Nat.max (length (e_prefix_topics e)) 1 + topic_pos (e_params e) i)%nat)
  else if String.eqb (e_data_format e) "map" then default JNull (json_get (p_name p) v)
  else if String.eqb (e_data_format e) "vec"
  then match v with JArr a => default JNull (a !! data_pos (e_params e) i) | _ => JNull end
  else v.

(** C9: an event is enriched with the declaration whose prefix topics are the
    longest leading tuple of its string topics, in whatever order the hash map
    of prefixes is iterated (only without any match does its name decide), and
    each declared parameter then carries its own type and its own value:
    topic parameters the topics after the prefix in order, data parameters the
    body by name, by position or whole, relabelled with the declared type. *)
Theorem enrich_event_correct order name topics v :
  (∀ m, order m ≡ₚ map_to_list m) →
  enrich_event sp order name topics v =
    let ts := leading_strings topics in
    idx ← match longest_prefix (events_by_prefix sp) ts (length ts) with
          | Some i => Some i
          | None => events_by_name sp !! name
          end;
    e ← events sp !! idx;
    Some (mk_obj [("event", JStr (e_name e));
                  ("params", mk_obj (imap (λ i p,
                     (p_name p,
                      mk_obj [("type", JStr (p_type_name p));
                              ("value", relabel sp (bound_value e topics v i p) (p_ty p))]))
                     (e_params e)))]).
Proof.
  intros Horder. cbv zeta. unfold enrich_event.
  rewrite (best_prefix_longest (events_by_prefix sp)) by apply Horder.
  destruct (match longest_prefix _ _ _ with Some i => Some i | None => _ end) as [idx|]; [|done].
  cbn [mbind option_bind]. destruct (events sp !! idx) as [e|]; [|done].
  cbn [mbind option_bind]. rewrite bind_params_eq. erewrite (imap_ext _ _ (e_params e)); [reflexivity|].
  intros i p _. cbn beta. unfold param_json. do 6 f_equal.
  unfold bound, bound_value. rewrite lookup_drop.
  destruct (is_topic p); [done|]. destruct (String.eqb (e_data_format e) "map"); [done|].
  destruct (String.eqb (e_data_format e) "vec"); [|done].
  by destruct v.
Qed.
End enrich_theorem.

(** An interface for the witnesses: an enum, a union, a struct, two events that
    share their first topic, and a function. *)
Definition sample_entries : list ScSpecEntry := [
  UdtEnumV0 "Color" [{| ec_name := "Red"; ec_value := 0 |}; {| ec_name := "Blue"; ec_value := 3 |}];
  UdtUnionV0 "Order" [VoidV0 "Cancel"; TupleV0 "Bid" [TUdt "Color"; TI128]];
  UdtStructV0 "Book" [{| sf_name := "owner"; sf_type := TSymbol |};
                      {| sf_name := "best"; sf_type := TOption (TUdt "Order") |};
                      {| sf_name := "asks"; sf_type := TVec (TUdt "Order") |}];
  EventV0 {| ev_doc := ""; ev_name := "Pool"; ev_prefix_topics := ["pool"];
             ev_params := []; ev_data_format := SingleValue |};
  EventV0 {| ev_doc := ""; ev_name := "Deposit"; ev_prefix_topics := ["pool"; "deposit"];
             ev_params := [{| ep_name := "who"; ep_type := TSymbol; ep_location := LocTopicList |};
                           {| ep_name := "color"; ep_type := TUdt "Color"; ep_location := LocData |};
                           {| ep_name := "amount"; ep_type := TI128; ep_location := LocData |}];
             ev_data_format := DataVec |};
  FunctionV0 {| fn_doc := ""; fn_name := "place"; fn_outputs := [TUdt "Book"];
                fn_inputs := [{| in_name := "book"; in_type := TUdt "Book" |};
                              {| in_name := "limit"; in_type := TU256 |}] |}
].

Definition sample_spec : ContractSpec :=
  reindex (foldl (@push_entry sample_stellar) default_spec sample_entries).

Lemma enrich_event_correct_witness :
  @enrich_event sample_stellar sample_spec (map_to_list) "pool"
    [JStr "pool"; JStr "deposit"; JStr "alice"] (JArr [JInt 3; JStr "100"])
  = Some (mk_obj [("event", JStr "Deposit");
      ("params", mk_obj [
         ("who", mk_obj [("type", JStr "Symbol"); ("value", JStr "alice")]);
         ("color", mk_obj [("type", JStr "Color"); ("value", JStr "Blue")]);
         ("amount", mk_obj [("type", JStr "i128"); ("value", JStr "100")])])]).
Proof.
  rewrite (@enrich_event_correct sample_stellar); [vm_compute; reflexivity|].
  intros m. reflexivity.
Defined.
