(* ===== verification/Encode.v ===== *)
(** * Encode: the read layer of [lumenqraph-core/src/read.rs]

    Typed encoding of JSON arguments into [ScVal]s, the simulation call built
    from them, and the decoding of results and events. *)
From S2P Require Import Prelude Text Containers Values XdrDecode Limbs Spec Enrich.
From Stdlib Require Import Ascii.

Local Open Scope Z_scope.

(** ** Suggestions *)

(** One row of the table [dp]: [left] is [dp[i][j-1]], [diag] is
    [dp[i-1][j-1]] and [up] the rest of row [i-1]. *)
Fixpoint dp_row (x : Z) (b : list Z) (up : list nat) (diag left : nat) : list nat :=
  match b, up with
  | y :: b', u :: up' =>
      let cell := if x =? y then diag
                  else S (Nat.min (Nat.min u left) diag) in
      cell :: dp_row x b' up' u cell
  | _, _ => []
  end.

(** The outer loop [for i in 1..=m] over the rows; row [i] starts with [i]. *)
Fixpoint dp_rows (i : nat) (a b : list Z) (row : list nat) : list nat :=
  match a with
  | [] => row
  | x :: a' =>
      let row' := S i :: dp_row x b (tail row) (default 0%nat (head row)) (S i) in
      dp_rows (S i) a' b row'
  end.

Definition abs_diff (m n : nat) : nat := (m - n) + (n - m).

Definition edit_distance (a b : string) : nat :=
  let a := chars a in
  let b := chars b in
  if (3 <? abs_diff (length a) (length b))%nat then 4
  else default 0%nat (last (dp_rows 0 a b (seq 0 (S (length b))))).

(** [min_by_key]: the first candidate of least distance. *)
Fixpoint min_by_key (l : list (string * nat)) : option (string * nat) :=
  match l with
  | [] => None
  | p :: l' => match min_by_key l' with
               | Some q => if (q.2 <? p.2)%nat then Some q else Some p
               | None => Some p
               end
  end.

Definition did_you_mean (name : string) (candidates : list string) : option string :=
  fst <$> min_by_key
    (List.filter (λ p, (p.2 <=? 2)%nat) ((λ c, (c, edit_distance name c)) <$> candidates)).

(** ** Read-only functions *)

Definition MUTATING_PREFIXES : list string := [
  "set_"; "init"; "mint"; "burn"; "transfer"; "approve"; "withdraw"; "deposit";
  "pause"; "unpause"; "upgrade"; "admin_"; "remove_"; "add_"; "create_"; "delete_";
  "update_"; "cancel"; "claim"; "deploy"; "revoke"; "grant"; "lock"; "unlock"].

(** [char::to_lowercase] on the characters whose lowercase form has an ASCII
    character: the letters, the Kelvin sign and the dotted capital I.  The other
    mappings stay outside ASCII and are left as they are; an ASCII prefix test
    sees no difference. *)
Definition to_lowercase_ascii (c : Z) : list Z :=
  if is_ascii_uppercase c then [c + 32]
  else if c =? 8490 then [107]
  else if c =? 304 then [105; 775]
  else [c].

Definition to_lowercase (s : string) : string := of_chars (chars s ≫= to_lowercase_ascii).

Definition is_view_heuristic (f : FunctionSpec) : bool :=
  let is_void_output := is_empty (fs_outputs f) in
  let name := to_lowercase (fs_name f) in
  let matches_mutating_prefix := existsb (λ p, starts_with p name) MUTATING_PREFIXES in
  negb is_void_output && negb matches_mutating_prefix.

Definition is_view_function (sp : ContractSpec) (name : string) : option bool :=
  is_view_heuristic <$> List.find (λ f, String.eqb (fs_name f) name) (functions sp).

Definition functions_of (sp : ContractSpec) : list Json :=
  (λ f, mk_obj [
    ("name", JStr (fs_name f));
    ("inputs", JArr ((λ i, mk_obj [("name", JStr (f_name i)); ("type", JStr (f_type_name i))])
                     <$> fs_inputs f));
    ("outputs", JArr (JStr <$> fs_outputs f));
    ("is_view", JBool (is_view_heuristic f))]) <$> functions sp.

(** ** Arguments *)

Section encode.
Context `{Stellar} (sp : ContractSpec).

(** [StringM<MAX>::try_from] and [VecM::try_from]: a length check. *)
Definition try_into_m {A} (max : Z) (l : list A) : option (list A) :=
  if Z.of_nat (length l) <=? max then Some l else None.

Definition vecm {A} (items : list A) (name : string) : result EncodeError (list A) :=
  ok_or (BadArgument name (Fixed "too many elements")) (try_into_m U32_MAX items).

Definition decode_hex (v : Json) (name : string) : result EncodeError (list ascii) :=
  s ← str_of v name;
  ok_or (BadArgument name (Fixed "expected a hex string"))
    (hex_decode (default s (strip_prefix "0x" s))).

(** [ScSymbol(s.try_into()?)]. *)
Definition symbol_or (err : EncodeError) (s : string) : result EncodeError ScVal :=
  ScvSymbol <$> ok_or err (try_into_m 32 (bytes s)).

Definition vec_of (name : string) (items : list ScVal) : result EncodeError ScVal :=
  (λ l, ScvVec (Some l)) <$> vecm items name.

Definition map_of (name : string) (items : list (ScVal * ScVal)) : result EncodeError ScVal :=
  (λ l, ScvMap (Some l)) <$> vecm items name.

(** [items.sort_by(|a, b| a.key.cmp(&b.key))]. *)
Definition sort_entries (items : list (ScVal * ScVal)) : list (ScVal * ScVal) :=
  sort_by (λ a b, tcmp a.1 b.1) items.

(** [items.windows(2)] has two equal keys. *)
Fixpoint has_adjacent_dup (items : list (ScVal * ScVal)) : bool :=
  match items with
  | a :: (b :: _) as rest =>
      match tcmp a.1 b.1 with Eq => true | _ => has_adjacent_dup rest end
  | _ => false
  end.

Section udts.
Variable rec : Json → ScSpecTypeDef → string → result EncodeError ScVal.

Definition struct_to_scval (v : Json) (s : UdtStruct) (arg : string) : result EncodeError ScVal :=
  let bad msg := BadArgument arg msg in
  let is_tuple := negb (is_empty (s_fields s))
                  && forallb (λ f, forallb is_ascii_digit (chars (f_name f))) (s_fields s) in
  if is_tuple then
    arr ← ok_or (bad (TupleStructArray (s_name s))) (as_array v);
    if negb (length arr =? length (s_fields s))%nat
    then Err (bad (TupleStructArity (length (s_fields s)) (s_name s) (length arr)))
    else
      items ← collect_r2 (λ el f, rec el (f_ty f) arg) arr (s_fields s);
      vec_of arg items
  else
    obj ← ok_or (bad (StructObject (s_name s))) (as_object v);
    items ← collect_r (λ f,
      fv ← ok_or (bad (MissingField (f_name f) (s_name s))) (bt_get (f_name f) obj);
      key ← symbol_or (bad (FieldNotSymbol (f_name f))) (f_name f);
      val ← rec fv (f_ty f) arg;
      Ok (key, val)) (s_fields s);
    map_of arg (sort_entries items).

Definition enum_to_scval (v : Json) (e : UdtEnum) (arg : string) : result EncodeError ScVal :=
  let bad msg := BadArgument arg msg in
  let names := join ", " (fst <$> n_cases e) in
  match as_str v with
  | Some s =>
      case ← ok_or (bad (EnumUnknownCase s (n_name e) names))
               (List.find (λ c, String.eqb c.1 s) (n_cases e));
      Ok (ScvU32 case.2)
  | None =>
      match as_u64 v with
      | Some n =>
          if negb (in_u 32 n) then Err (bad (EnumOutOfRange n (n_name e)))
          else if negb (existsb (λ c, c.2 =? n) (n_cases e))
          then Err (bad (EnumUndeclared n (n_name e) names))
          else Ok (ScvU32 n)
      | None => Err (bad (EnumExpected (n_name e) names))
      end
  end.

Definition union_to_scval (v : Json) (u : UdtUnion) (arg : string) : result EncodeError ScVal :=
  let bad msg := BadArgument arg msg in
  let names := join ", " (c_name <$> u_cases u) in
  let find want := List.find (λ c, String.eqb (c_name c) want) (u_cases u) in
  let symbol s := symbol_or (bad (CaseNotSymbol s)) s in
  match as_str v with
  | Some s =>
      match find s with
      | Some c =>
          if is_empty (c_tys c) then sym ← symbol s; vec_of arg [sym]
          else Err (bad (UnionCarries s (u_name u) (length (c_tys c))))
      | None => Err (bad (UnionUnknownCase s (u_name u) names))
      end
  | None =>
      obj ← ok_or (bad (UnionExpected (u_name u) names)) (as_object v);
      match obj with
      | [(key, val)] =>
          match find key with
          | Some c =>
              if is_empty (c_tys c) then
                if negb (is_null val) then Err (bad (UnionNoValue key (u_name u)))
                else sym ← symbol key; vec_of arg [sym]
              else
                let tys := c_tys c in
                vals ← (match as_array val with
                        | Some a => Ok a
                        | None => if (length tys =? 1)%nat then Ok [val]
                                  else Err (bad (CaseArray (length tys) key))
                        end);
                if negb (length vals =? length tys)%nat
                then Err (bad (CaseArity key (u_name u) (length tys) (length vals)))
                else
                  sym ← symbol key;
                  items ← collect_r2 (λ el et, rec el et arg) vals tys;
                  vec_of arg (sym :: items)
          | None => Err (bad (UnionUnknownCase key (u_name u) names))
          end
      | _ => Err (bad (UnionOneKey (u_name u) (length obj)))
      end
  end.

Definition udt_to_scval (v : Json) (udt_name arg : string) : result EncodeError ScVal :=
  match udt_def sp udt_name with
  | Some (DefStruct s) => struct_to_scval v s arg
  | Some (DefEnum e) => enum_to_scval v e arg
  | Some (DefUnion u) => union_to_scval v u arg
  | None => Err (BadArgument arg (UnknownType udt_name))
  end.
End udts.

(** The types whose encoding does not recurse. *)
Definition muxed_to_address (v : Json) (name : string) : result EncodeError ScVal :=
  let bad msg := BadArgument name (Fixed msg) in
  s ← str_of v name;
  addr ← (if starts_with "M" s then
            k ← ok_or (bad "invalid muxed address strkey (expected M…)") (strkey_from_string s);
            match k with
            | SkMuxedAccountEd25519 _ ed25519 =>
                ok_or (bad "could not re-encode muxed address as G… strkey")
                  (sc_address_from_str (strkey_to_string (SkPublicKeyEd25519 ed25519)))
            | _ => Err (bad "expected an M… muxed account strkey")
            end
          else ok_or (bad "invalid address strkey (expected G…, M…, or C…)") (sc_address_from_str s));
  Ok (ScvAddress addr).

(** [json_to_scval]; [rec] is the function itself on the parts of a value whose
    type is a name. *)
Definition json_to_scval_go (rec : Json → ScSpecTypeDef → string → result EncodeError ScVal)
    (name : string) : Json → ScSpecTypeDef → result EncodeError ScVal :=
  let bad msg := BadArgument name (Fixed msg) in
  fix go (v : Json) (ty : ScSpecTypeDef) {struct ty} : result EncodeError ScVal :=
    match ty with
    | TBool => ScvBool <$> ok_or (bad "expected a boolean") (as_bool v)
    | TU32 => ScvU32 <$> int (parse_uint 32) v name
    | TI32 => ScvI32 <$> int (parse_int 32) v name
    | TU64 => ScvU64 <$> int (parse_uint 64) v name
    | TI64 => ScvI64 <$> int (parse_int 64) v name
    | TTimepoint => ScvTimepoint <$> int (parse_uint 64) v name
    | TDuration => ScvDuration <$> int (parse_uint 64) v name
    | TU128 => (λ n, let '(hi, lo) := u128_parts n in ScvU128 hi lo) <$> int (parse_uint 128) v name
    | TI128 => (λ n, let '(hi, lo) := i128_parts n in ScvI128 hi lo) <$> int (parse_int 128) v name
    | TSymbol =>
        s ← str_of v name;
        ScvSymbol <$> ok_or (bad "symbol too long or invalid") (try_into_m 32 (bytes s))
    | TString =>
        s ← str_of v name;
        ScvString <$> ok_or (bad "string too long") (try_into_m U32_MAX (bytes s))
    | TAddress =>
        s ← str_of v name;
        ScvAddress <$> ok_or (bad "invalid address strkey") (sc_address_from_str s)
    | TBytes =>
        b ← decode_hex v name;
        ScvBytes <$> ok_or (bad "byte string too long") (try_into_m U32_MAX b)
    | TBytesN n =>
        b ← decode_hex v name;
        if negb (Z.of_nat (length b) =? n) then Err (BadArgument name (ExpectedBytes n))
        else ScvBytes <$> ok_or (bad "byte string too long") (try_into_m U32_MAX b)
    | TOption inner => if is_null v then Ok ScvVoid else go v inner
    | TVec inner =>
        arr ← ok_or (bad "expected an array") (as_array v);
        items ← collect_r (λ el, go el inner) arr;
        vec_of name items
    | TTuple types =>
        arr ← ok_or (bad "expected a tuple array") (as_array v);
        if negb (length arr =? length types)%nat
        then Err (BadArgument name (ExpectedTuple (length types)))
        else
          items ← collect_r2 (λ et el, go el et) types arr;
          vec_of name items
    | TMap key_type value_type =>
        obj ← ok_or (bad "expected an object") (as_object v);
        items ← collect_r (λ p,
          key ← go (JStr p.1) key_type;
          val ← go p.2 value_type;
          Ok (key, val)) obj;
        let items := sort_entries items in
        if has_adjacent_dup items
        then Err (bad "map contains duplicate keys after conversion")
        else map_of name items
    | TU256 => (λ l, ScvU256 (u256_parts l)) <$> parse_u256 v name
    | TI256 => (λ l, ScvI256 (i256_parts l)) <$> parse_i256 v name
    | TVoid => if negb (is_null v) then Err (bad "expected null") else Ok ScvVoid
    | TUdt u => udt_to_scval rec v (to_utf8_string_lossy u) name
    | TMuxedAddress => muxed_to_address v name
    | TVal | TResult _ _ | TError => Err (UnsupportedType name (type_name ty))
    end.

(** Each expansion of a type name descends into the value: its depth is enough
    fuel ([json_to_scval_eq]). *)
Fixpoint json_to_scval_f (fuel : nat) (v : Json) (ty : ScSpecTypeDef) (name : string) :
    result EncodeError ScVal :=
  json_to_scval_go
    (match fuel with O => λ _ _ n, Err (BadArgument n (Fixed "")) | S fuel' => json_to_scval_f fuel' end)
    name v ty.

Definition json_to_scval (v : Json) (ty : ScSpecTypeDef) (name : string) : result EncodeError ScVal :=
  json_to_scval_f (jdepth v) v ty name.
End encode.

(** ** Lemmas: the fuel of [json_to_scval] *)

Section encode_lemmas.
Context `{Stellar} (sp : ContractSpec).

Lemma udt_to_scval_ext rec1 rec2 v udt name :
  (∀ w t, (jdepth w < jdepth v)%nat → rec1 w t name = rec2 w t name) →
  udt_to_scval sp rec1 v udt name = udt_to_scval sp rec2 v udt name.
Proof.
  intros Hrec. unfold udt_to_scval. destruct (udt_def sp udt) as [[e|u|s]|]; [done| | |done].
  - unfold union_to_scval. destruct (as_str v); [done|].
    destruct v as [| | | | | |o]; try done. cbn [as_object ok_or mbind result_bind].
    destruct o as [|[key val] [|]]; try done.
    destruct (List.find _ _) as [c|]; [|done]. destruct (is_empty (c_tys c)); [done|].
    set (obj := JObj [(key, val)]) in *.
    assert (jdepth val < jdepth obj)%nat as Hval by (apply (jdepth_obj_elem _ key); by constructor).
    destruct val as [| | | | |a|]; cbn [as_array ok_or mbind result_bind];
      try (destruct (length (c_tys c) =? 1)%nat; [|done]; cbn [mbind result_bind]);
      (destruct (negb _); [done|]);
      (destruct (symbol_or _ _) as [sym|]; [|done]); cbn [mbind result_bind];
      (erewrite collect_r2_ext; [reflexivity|]); intros w t Hw; apply Hrec;
      try (apply list_elem_of_singleton in Hw as ->; exact Hval).
    apply jdepth_arr_elem in Hw. lia.
  - unfold struct_to_scval. destruct (negb (is_empty _) && _).
    + destruct v as [| | | | |a|]; try done. cbn [as_array ok_or mbind result_bind].
      destruct (negb _); [done|]. erewrite collect_r2_ext; [reflexivity|].
      intros w f Hw. by apply Hrec, jdepth_arr_elem.
    + destruct v as [| | | | | |o]; try done. cbn [as_object ok_or mbind result_bind].
      erewrite collect_r_ext; [reflexivity|]. intros f _. cbn beta.
      destruct (bt_get (f_name f) o) as [w|] eqn:Ew; [|done]. cbn [ok_or mbind result_bind].
      destruct (symbol_or _ _); [|done]. cbn [mbind result_bind].
      rewrite Hrec; [done|]. apply bt_get_Some_in in Ew. by eapply jdepth_obj_elem.
Qed.

Lemma json_to_scval_go_ext rec1 rec2 name ty v :
  (∀ w t, (jdepth w < jdepth v)%nat → rec1 w t name = rec2 w t name) →
  json_to_scval_go sp rec1 name v ty = json_to_scval_go sp rec2 name v ty.
Proof.
  revert v. induction ty as [t Ht|t IH|t e IHt IHe|t IH|k t IHk IHt|l IH] using typedef_ind_strong;
    intros v Hrec.
  - destruct t; try done. by apply udt_to_scval_ext.
  - cbn. destruct (is_null v); [done|]. by apply IH.
  - done.
  - cbn. destruct v as [| | | | |a|o]; try done. cbn. erewrite collect_r_ext; [reflexivity|].
    intros w Hw%jdepth_arr_elem. apply IH. intros. apply Hrec. lia.
  - cbn. destruct v as [| | | | |a|o]; try done. cbn. erewrite collect_r_ext; [reflexivity|].
    intros [j w] Hw%jdepth_obj_elem. cbn [fst snd].
    rewrite (IHk (JStr j)), (IHt w); [done|intros; apply Hrec; lia|].
    intros x t'. cbn. lia.
  - cbn. destruct v as [| | | | |a|o]; try done. cbn. destruct (negb _); [done|].
    erewrite collect_r2_ext_in; [reflexivity|].
    intros t w Ht Hw%jdepth_arr_elem. pointwise.
    apply IH; [done|]. intros. apply Hrec. lia.
Qed.

Lemma json_to_scval_f_enough n m v ty name :
  (jdepth v ≤ n)%nat → (jdepth v ≤ m)%nat →
  json_to_scval_f sp n v ty name = json_to_scval_f sp m v ty name.
Proof.
  revert m v ty. induction n as [|n IH]; intros m v ty Hn Hm; destruct m as [|m];
    try done; cbn [json_to_scval_f]; apply json_to_scval_go_ext; intros w t Hw; try lia.
  apply IH; lia.
Qed.

(** The equation of the source: the fuel is never exhausted. *)
Lemma json_to_scval_eq v ty name :
  json_to_scval sp v ty name = json_to_scval_go sp (json_to_scval sp) name v ty.
Proof.
  unfold json_to_scval at 1. destruct (jdepth v) as [|n] eqn:E; cbn [json_to_scval_f];
    apply json_to_scval_go_ext; intros w t Hw; rewrite E in Hw; [lia|].
  apply json_to_scval_f_enough; lia.
Qed.
End encode_lemmas.
