(* ===== verification/RoundTrip.v ===== *)
(** * RoundTrip: the decoder and the encoder agree on typed values

    The contract of the read layer: what [json_to_scval] accepts for a declared
    type is a value of that type, and the JSON that decoding and relabelling
    give for a typed value is accepted back and denotes the same value. *)
From S2P Require Import Prelude Text Containers Values Instances XdrDecode Limbs Spec Enrich Encode.
From Stdlib Require Import Ascii.

Local Open Scope Z_scope.

(** ** Typed values *)

Section typing.
Context `{Stellar} (sp : ContractSpec).

Definition is_tuple_struct (s : UdtStruct) : bool :=
  negb (is_empty (s_fields s))
  && forallb (λ f, forallb is_ascii_digit (chars (f_name f))) (s_fields s).

Definition len_ok {A} (l : list A) : bool := Z.of_nat (length l) <=? U32_MAX.

Fixpoint keys_sorted (m : list (ScVal * ScVal)) : bool :=
  match m with
  | a :: (b :: _) as rest =>
      match tcmp a.1 b.1 with Lt => keys_sorted rest | _ => false end
  | _ => true
  end.

Definition text_ok (max : Z) (b : list ascii) : bool :=
  (Z.of_nat (length b) <=? max) && utf8_valid (of_bytes b).

Definition u256_ok (p : Parts256) : bool := forallb (in_u 64) (limbs_of p).
Definition i256_ok (p : Parts256) : bool :=
  in_i 64 (hi_hi p) && in_u 64 (hi_lo p) && in_u 64 (lo_hi p) && in_u 64 (lo_lo p).

(** Values of the types that do not nest. *)
Definition has_atom (sv : ScVal) (ty : ScSpecTypeDef) : bool :=
  match ty, sv with
  | TBool, ScvBool _ => true
  | TVoid, ScvVoid => true
  | TU32, ScvU32 n => in_u 32 n
  | TI32, ScvI32 n => in_i 32 n
  | TU64, ScvU64 n => in_u 64 n
  | TI64, ScvI64 n => in_i 64 n
  | TTimepoint, ScvTimepoint n => in_u 64 n
  | TDuration, ScvDuration n => in_u 64 n
  | TU128, ScvU128 hi lo => in_u 64 hi && in_u 64 lo
  | TI128, ScvI128 hi lo => in_i 64 hi && in_u 64 lo
  | TU256, ScvU256 p => u256_ok p
  | TI256, ScvI256 p => i256_ok p
  | TBytes, ScvBytes b => len_ok b
  | TBytesN n, ScvBytes b => (Z.of_nat (length b) =? n) && len_ok b
  | TString, ScvString b => text_ok U32_MAX b
  | TSymbol, ScvSymbol b => text_ok 32 b
  | TAddress, ScvAddress a => address_wf a
  | TMuxedAddress, ScvAddress a =>
      address_wf a && match a with AddrMuxedAccount _ _ => false | _ => true end
  | _, _ => false
  end.

(** A value of a declared type: integers in range, text UTF-8 and within its
    capacity, tuples and cases of the right arity, maps strictly sorted. *)
Fixpoint has_type (sv : ScVal) : ScSpecTypeDef → bool :=
  fix go (ty : ScSpecTypeDef) : bool :=
    match ty with
    | TOption t => match sv with ScvVoid => true | _ => go t end
    | TVec t =>
        match sv with
        | ScvVec (Some l) => len_ok l && forallb (λ x, has_type x t) l
        | _ => false
        end
    | TTuple ts =>
        match sv with
        | ScvVec (Some l) => len_ok l && (length l =? length ts)%nat && zip_all has_type l ts
        | _ => false
        end
    | TMap k t =>
        match sv with
        | ScvMap (Some m) =>
            len_ok m && keys_sorted m && forallb (λ p, has_type p.1 k && has_type p.2 t) m
        | _ => false
        end
    | TUdt name =>
        match udt_def sp (to_utf8_string_lossy name) with
        | Some (DefEnum e) =>
            match sv with ScvU32 n => in_u 32 n && existsb (λ c, c.2 =? n) (n_cases e) | _ => false end
        | Some (DefUnion u) =>
            match sv with
            | ScvVec (Some (ScvSymbol b :: vals)) =>
                text_ok 32 b && len_ok (ScvSymbol b :: vals)
                && match List.find (λ c, String.eqb (c_name c) (of_bytes b)) (u_cases u) with
                   | Some c => (length vals =? length (c_tys c))%nat && zip_all has_type vals (c_tys c)
                   | None => false
                   end
            | _ => false
            end
        | Some (DefStruct s) =>
            if is_tuple_struct s then
              match sv with
              | ScvVec (Some l) =>
                  len_ok l && (length l =? length (s_fields s))%nat
                  && zip_all (λ x f, has_type x (f_ty f)) l (s_fields s)
              | _ => false
              end
            else
              match sv with
              | ScvMap (Some m) =>
                  len_ok m && keys_sorted m && (length m =? length (s_fields s))%nat
                  && forallb (λ p,
                       match p.1 with
                       | ScvSymbol b =>
                           text_ok 32 b
                           && match List.find (λ f, String.eqb (f_name f) (of_bytes b)) (s_fields s) with
                              | Some f => has_type p.2 (f_ty f)
                              | None => false
                              end
                       | _ => false
                       end) m
              | _ => false
              end
        | None => false
        end
    | _ => has_atom sv ty
    end.

(** Names inside one declaration are distinct UTF-8 strings. *)
Definition enum_ok (e : UdtEnum) : bool :=
  bool_decide (NoDup (fst <$> n_cases e)) && forallb (λ c, in_u 32 c.2) (n_cases e).
Definition struct_ok (s : UdtStruct) : bool := bool_decide (NoDup (f_name <$> s_fields s))
  && forallb (λ f, utf8_valid (f_name f)) (s_fields s).
Definition spec_ok : Prop :=
  sp = reindex sp ∧ Forall (λ e, enum_ok e = true) (enums sp)
  ∧ Forall (λ s, struct_ok s = true) (structs sp).
End typing.

(** ** Lemmas: text *)

Lemma text_or_hex_text b : utf8_valid (of_bytes b) = true → text_or_hex b = JStr (of_bytes b).
Proof. intros Hb. unfold text_or_hex. by rewrite Hb. Qed.

Lemma text_ok_spec max b :
  text_ok max b = true ↔ Z.of_nat (length b) ≤ max ∧ utf8_valid (of_bytes b) = true.
Proof. unfold text_ok. by rewrite andb_true_iff, Z.leb_le. Qed.

Lemma try_into_m_ok {A} max (l : list A) :
  Z.of_nat (length l) ≤ max → try_into_m max l = Some l.
Proof. intros Hl. unfold try_into_m. by rewrite (proj2 (Z.leb_le _ _) Hl). Qed.

Lemma try_into_m_Some {A} max (l k : list A) :
  try_into_m max l = Some k → k = l ∧ Z.of_nat (length l) ≤ max.
Proof. unfold try_into_m. destruct (Z.leb_spec (Z.of_nat (length l)) max); [|done]. by intros [= ->]. Qed.

Lemma parse_uint_range w s n : parse_uint w s = Some n → in_u w n = true.
Proof. unfold parse_uint. intros. inv_ok. done. Qed.

Lemma parse_int_range w s n : parse_int w s = Some n → in_i w n = true.
Proof. unfold parse_int. intros. inv_ok; done. Qed.

Lemma int_ok parse v name n : int parse v name = Ok n → ∃ s, parse s = Some n.
Proof.
  unfold int. destruct (int_text v) as [s|]; [|done]. cbn. exists s.
  by destruct (parse s); simplify_eq/=.
Qed.

Lemma len_ok_spec {A} (l : list A) : len_ok l = true ↔ Z.of_nat (length l) ≤ U32_MAX.
Proof. apply Z.leb_le. Qed.

Lemma vec_of_ok name l sv :
  vec_of name l = Ok sv → sv = ScvVec (Some l) ∧ len_ok l = true.
Proof.
  unfold vec_of, vecm. destruct (try_into_m U32_MAX l) eqn:E; [|done]. cbn.
  apply try_into_m_Some in E as [-> Hl]. intros [= <-]. split; [done|]. by apply len_ok_spec.
Qed.

(** ** Lemmas: sorted keys *)

Section keys.
Context `{Stellar}.

Lemma keys_sorted_spec m : keys_sorted m = true ↔ StronglySorted tlt (fst <$> m).
Proof.
  split.
  - intros Hs. apply Sorted_StronglySorted; [apply _|].
    induction m as [|a m IH]; [constructor|]. cbn [fmap list_fmap].
    destruct m as [|b m]; [repeat constructor|]. cbn [keys_sorted] in Hs.
    destruct (tcmp a.1 b.1) eqn:E; try discriminate. constructor; [by apply IH|by constructor].
  - induction m as [|a [|b m] IH]; [done..|]. cbn [fmap list_fmap]. intros Hs.
    apply StronglySorted_cons in Hs as [Hall Hs]. cbn [keys_sorted].
    apply Forall_cons in Hall as [Hab _]. unfold tlt in Hab. rewrite Hab. by apply IH.
Qed.

Lemma sort_entries_sorted m :
  (∀ a b l1 l2, sort_entries m = l1 ++ a :: b :: l2 → tcmp a.1 b.1 ≠ Eq) →
  keys_sorted (sort_entries m) = true.
Proof.
  intros Hne. unfold sort_entries in *.
  pose proof (sort_by_sorted (fst : ScVal * ScVal → ScVal) m) as Hs.
  set (l := sort_by _ m) in *. clearbody l.
  induction l as [|a [|b l] IH]; [done..|]. cbn [keys_sorted].
  apply StronglySorted_cons in Hs as [Hall Hs]. apply Forall_cons in Hall as [Hab _].
  pose proof (Hne a b [] l eq_refl) as Hab'. unfold key_le in Hab.
  destruct (tcmp a.1 b.1) eqn:E; [congruence| |congruence]. apply IH; [|done].
  intros a' b' l1 l2 Heq. apply (Hne a' b' (a :: l1) l2). by rewrite Heq.
Qed.

Lemma no_adjacent_dup l :
  has_adjacent_dup l = false → ∀ a b l1 l2, l = l1 ++ a :: b :: l2 → tcmp a.1 b.1 ≠ Eq.
Proof.
  intros Hd a b l1 l2 ->. induction l1 as [|c l1 IH].
  - cbn [app has_adjacent_dup] in Hd. revert Hd. by destruct (tcmp a.1 b.1).
  - apply IH. cbn [app has_adjacent_dup] in Hd.
    destruct (l1 ++ a :: b :: l2) as [|d r]; [done|].
    revert Hd. by destruct (tcmp c.1 d.1).
Qed.

Lemma NoDup_not_adjacent (l : list (ScVal * ScVal)) :
  NoDup (fst <$> l) → ∀ a b l1 l2, l = l1 ++ a :: b :: l2 → tcmp a.1 b.1 ≠ Eq.
Proof.
  intros Hnd a b l1 l2 -> Heq. apply tcmp_eq in Heq. rewrite fmap_app in Hnd.
  apply NoDup_app in Hnd as (_ & _ & Hnd). cbn in Hnd.
  apply NoDup_cons in Hnd as [Hin _]. apply Hin. rewrite Heq. constructor.
Qed.

Lemma sort_entries_perm m : sort_entries m ≡ₚ m.
Proof. apply sort_by_perm. Qed.

Lemma sort_entries_unique l m :
  keys_sorted m = true → l ≡ₚ m → sort_entries l = m.
Proof. intros Hs%keys_sorted_spec Hp. by apply (sort_by_unique fst). Qed.

Lemma sorted_no_dup m : keys_sorted m = true → has_adjacent_dup m = false.
Proof.
  induction m as [|a [|b m] IH]; [done..|].
  change (match tcmp a.1 b.1 with Lt => keys_sorted (b :: m) | _ => false end = true →
          match tcmp a.1 b.1 with Eq => true | _ => has_adjacent_dup (b :: m) end = false).
  by destruct (tcmp a.1 b.1).
Qed.

Lemma keys_sorted_NoDup m : keys_sorted m = true → NoDup (fst <$> m).
Proof.
  intros Hs%keys_sorted_spec. induction Hs as [|k l Hs IH Hall]; constructor; [|done].
  intros Hin. rewrite Forall_forall in Hall. specialize (Hall _ Hin). by apply tlt_irrefl in Hall.
Qed.
End keys.

(** ** Lemmas: finding a declared name *)

Lemma NoDup_name_inj {A} (name : A → string) l x y :
  NoDup (name <$> l) → x ∈ l → y ∈ l → name x = name y → x = y.
Proof.
  intros Hnd Hx Hy Heq. pose proof (find_name name l x Hnd Hx) as Fx.
  rewrite Heq, (find_name name l y Hnd Hy) in Fx. by injection Fx.
Qed.

Lemma NoDup_fst_inj {A B} (m : list (A * B)) p q :
  NoDup (fst <$> m) → p ∈ m → q ∈ m → p.1 = q.1 → p = q.
Proof.
  induction m as [|r m IH]; intros Hnd Hp Hq Heq; [by apply elem_of_nil in Hp|]. cbn in Hnd.
  apply NoDup_cons in Hnd as [Hr Hnd].
  apply elem_of_cons in Hp as [->|Hp], Hq as [->|Hq]; [done| | |by apply IH].
  - exfalso. apply Hr. rewrite Heq. by apply list_elem_of_fmap_2.
  - exfalso. apply Hr. rewrite <- Heq. by apply list_elem_of_fmap_2.
Qed.

Lemma find_some {A} (f : A → bool) l x : List.find f l = Some x → x ∈ l ∧ f x = true.
Proof. intros Hf. apply List.find_some in Hf as [Hin Hx]. by apply list_elem_of_In in Hin. Qed.

Lemma find_string_eqb {A} (name : A → string) l n x :
  List.find (λ y, String.eqb (name y) n) l = Some x → x ∈ l ∧ name x = n.
Proof. intros [Hin Hx]%find_some. by apply String.eqb_eq in Hx. Qed.

Lemma find_decide_eqb {A} (name : A → string) l n :
  List.find (λ y, bool_decide (name y = n)) l = List.find (λ y, String.eqb (name y) n) l.
Proof.
  induction l as [|y l IH]; [done|]. cbn. rewrite IH.
  destruct (String.eqb_spec (name y) n); [by rewrite bool_decide_eq_true_2|by rewrite bool_decide_eq_false_2].
Qed.

(** ** Lemmas: the indexes of a built interface *)

Section defs.
Context `{Stellar} (sp : ContractSpec).

Lemma udt_def_in name d :
  spec_ok sp → udt_def sp name = Some d →
  match d with
  | DefEnum e => e ∈ enums sp ∧ enum_ok e = true
  | DefStruct s => s ∈ structs sp ∧ struct_ok s = true
  | DefUnion u => u ∈ unions sp
  end.
Proof.
  intros (_ & He & Hs). unfold udt_def. intros Hd.
  destruct (udts_by_name sp !! name) as [[i|i|i]|]; [| | |done]; cbn in Hd.
  - destruct (enums sp !! i) eqn:E; [|done]. injection Hd as <-.
    apply list_elem_of_lookup_2 in E. rewrite Forall_forall in He. auto.
  - destruct (unions sp !! i) eqn:E; [|done]. injection Hd as <-. by apply list_elem_of_lookup_2 in E.
  - destruct (structs sp !! i) eqn:E; [|done]. injection Hd as <-.
    apply list_elem_of_lookup_2 in E. rewrite Forall_forall in Hs. auto.
Qed.

(** The equation of [has_type], free of the nested recursion. *)
Lemma has_type_eq sv ty :
  has_type sp sv ty =
    match ty with
    | TOption t => match sv with ScvVoid => true | _ => has_type sp sv t end
    | TVec t =>
        match sv with
        | ScvVec (Some l) => len_ok l && forallb (λ x, has_type sp x t) l
        | _ => false
        end
    | TTuple ts =>
        match sv with
        | ScvVec (Some l) => len_ok l && (length l =? length ts)%nat && zip_all (has_type sp) l ts
        | _ => false
        end
    | TMap k t =>
        match sv with
        | ScvMap (Some m) =>
            len_ok m && keys_sorted m && forallb (λ p, has_type sp p.1 k && has_type sp p.2 t) m
        | _ => false
        end
    | TUdt name =>
        match udt_def sp (to_utf8_string_lossy name) with
        | Some (DefEnum e) =>
            match sv with ScvU32 n => in_u 32 n && existsb (λ c, c.2 =? n) (n_cases e) | _ => false end
        | Some (DefUnion u) =>
            match sv with
            | ScvVec (Some (ScvSymbol b :: vals)) =>
                text_ok 32 b && len_ok (ScvSymbol b :: vals)
                && match List.find (λ c, String.eqb (c_name c) (of_bytes b)) (u_cases u) with
                   | Some c => (length vals =? length (c_tys c))%nat && zip_all (has_type sp) vals (c_tys c)
                   | None => false
                   end
            | _ => false
            end
        | Some (DefStruct s) =>
            if is_tuple_struct s then
              match sv with
              | ScvVec (Some l) =>
                  len_ok l && (length l =? length (s_fields s))%nat
                  && zip_all (λ x f, has_type sp x (f_ty f)) l (s_fields s)
              | _ => false
              end
            else
              match sv with
              | ScvMap (Some m) =>
                  len_ok m && keys_sorted m && (length m =? length (s_fields s))%nat
                  && forallb (λ p,
                       match p.1 with
                       | ScvSymbol b =>
                           text_ok 32 b
                           && match List.find (λ f, String.eqb (f_name f) (of_bytes b)) (s_fields s) with
                              | Some f => has_type sp p.2 (f_ty f)
                              | None => false
                              end
                       | _ => false
                       end) m
              | _ => false
              end
        | None => false
        end
    | _ => has_atom sv ty
    end.
Proof. destruct sv as [| | | | | | | | | | | | | | | |[]|[]| | | |], ty; reflexivity. Qed.
End defs.

(** ** Theorem: what the encoder accepts is typed *)

Section soundness.
Context `{Stellar} (sp : ContractSpec).

Definition is_atom (t : ScSpecTypeDef) : bool :=
  match t with
  | TOption _ | TResult _ _ | TVec _ | TMap _ _ | TTuple _ | TUdt _ => false
  | _ => true
  end.

Lemma forall_limbs l : Forall is_limb l → forallb (in_u 64) l = true.
Proof.
  intros Hl. apply forallb_forall. intros x Hx%list_elem_of_In.
  rewrite Forall_forall in Hl. by apply in_u_spec, Hl.
Qed.

Lemma parse_u256_limbs v name l : parse_u256 v name = Ok l → Forall is_limb l ∧ length l = 4%nat.
Proof.
  unfold parse_u256. destruct (text_of_int v name) as [t|]; [|done]. cbn [mbind result_bind].
  destruct (starts_with "-" t); [done|]. intros Hp.
  pose proof (parse_digits_spec (default t (strip_char "+" t)) name) as Hs.
  rewrite Hp in Hs. by destruct Hs as (_ & ? & ?).
Qed.

Lemma u256_parts_ok l : Forall is_limb l → length l = 4%nat → u256_ok (u256_parts l) = true.
Proof.
  intros Hl Hlen. apply forall_limbs. destruct l as [|a [|b [|c [|d [|]]]]]; done.
Qed.

Lemma parse_i256_limbs v name l : parse_i256 v name = Ok l → Forall is_limb l ∧ length l = 4%nat.
Proof.
  unfold parse_i256. destruct (text_of_int v name) as [t|]; [|done]. cbn [mbind result_bind].
  cbv zeta. set (d := match strip_char "-" t with Some d => d | None => _ end).
  pose proof (parse_digits_spec d name) as Hs. destruct (parse_digits d name) as [k|]; [|done].
  destruct Hs as (_ & Hk & Hlen). cbn [mbind result_bind].
  destruct (negate_spec k Hk Hlen) as (? & ? & _).
  destruct (starts_with "-" t), (negb _); [destruct (true && _ && _)| | |];
    intros Hp; inv_ok; done.
Qed.

Lemma i256_parts_ok l : Forall is_limb l → length l = 4%nat → i256_ok (i256_parts l) = true.
Proof.
  intros Hl Hlen. destruct (i256_parts_spec l Hl Hlen) as [(H1 & H2 & H3 & H4) _].
  unfold i256_ok. rewrite !andb_true_iff. split_and!; first [by apply in_i_spec | by apply in_u_spec].
Qed.

Lemma muxed_typed v name sv :
  muxed_to_address v name = Ok sv → has_atom sv TMuxedAddress = true.
Proof.
  unfold muxed_to_address. destruct (str_of v name) as [s|]; [|done]. cbn [mbind result_bind].
  destruct (starts_with "M" s) eqn:Em.
  - destruct (strkey_from_string s) as [k|] eqn:Ek; [|done]. cbn [ok_or mbind result_bind].
    destruct k; try discriminate. apply strkey_muxed_wf in Ek.
    change (SkPublicKeyEd25519 ed25519) with (strkey_of_address (AddrAccount ed25519)).
    rewrite address_roundtrip by (cbn; by rewrite Ek). cbn. intros [= <-]. cbn. by rewrite Ek.
  - destruct (sc_address_from_str s) as [a|] eqn:Ea; [|done]. cbn. intros [= <-]. cbn.
    rewrite (address_parsed_wf s a Ea). destruct a; try done.
    apply address_parsed_muxed in Ea. congruence.
Qed.

Lemma atom_sound rec name v t sv :
  is_atom t = true → json_wf v → json_to_scval_go sp rec name v t = Ok sv → has_atom sv t = true.
Proof.
  intros Ht Hv Hgo. destruct t; try discriminate Ht; cbn [json_to_scval_go] in Hgo; try discriminate Hgo;
    try (destruct (int _ v name) as [n|] eqn:Ei in Hgo; [|discriminate Hgo];
         apply int_ok in Ei as [s Ei]; cbn in Hgo; injection Hgo as <-;
         by first [apply parse_uint_range in Ei | apply parse_int_range in Ei]).
  - destruct (as_bool v); [|discriminate]. by injection Hgo as <-.
  - destruct (negb (is_null v)); [discriminate|]. by injection Hgo as <-.
  - destruct (int _ v name) as [n|] eqn:Ei in Hgo; [|discriminate Hgo]. cbn in Hgo.
    injection Hgo as <-. apply andb_true_iff. split; apply in_u_spec, wrap_range; lia.
  - destruct (int _ v name) as [n|] eqn:Ei in Hgo; [|discriminate Hgo]. cbn in Hgo.
    injection Hgo as <-. apply andb_true_iff. split; [apply in_i_spec, as_signed_range; lia|].
    apply in_u_spec, wrap_range. lia.
  - destruct (parse_u256 v name) as [l|] eqn:El; [|discriminate]. injection Hgo as <-.
    apply parse_u256_limbs in El as [? ?]. by apply u256_parts_ok.
  - destruct (parse_i256 v name) as [l|] eqn:El; [|discriminate]. injection Hgo as <-.
    apply parse_i256_limbs in El as [? ?]. by apply i256_parts_ok.
  - destruct (decode_hex v name) as [b|]; [|discriminate]. cbn [mbind result_bind] in Hgo.
    destruct (try_into_m U32_MAX b) eqn:E; [|discriminate]. injection Hgo as <-.
    apply try_into_m_Some in E as [-> Hl]. by apply len_ok_spec.
  - destruct v; try discriminate. inversion Hv as [| | | |? Hu| |]; subst.
    cbn [str_of as_str ok_or mbind result_bind] in Hgo.
    destruct (try_into_m U32_MAX _) eqn:E; [|discriminate]. injection Hgo as <-.
    apply try_into_m_Some in E as [-> Hl]. apply text_ok_spec. by rewrite of_bytes_bytes.
  - destruct v; try discriminate. inversion Hv as [| | | |? Hu| |]; subst.
    cbn [str_of as_str ok_or mbind result_bind] in Hgo.
    destruct (try_into_m 32 _) eqn:E; [|discriminate]. injection Hgo as <-.
    apply try_into_m_Some in E as [-> Hl]. apply text_ok_spec. by rewrite of_bytes_bytes.
  - destruct (str_of v name) as [s|]; [|discriminate]. cbn [mbind result_bind] in Hgo.
    destruct (sc_address_from_str s) as [a|] eqn:Ea; [|discriminate]. injection Hgo as <-.
    by apply address_parsed_wf in Ea.
  - by eapply muxed_typed.
  - destruct (decode_hex v name) as [b|]; [|discriminate]. cbn [mbind result_bind] in Hgo.
    destruct (negb _) eqn:En; [discriminate|]. apply negb_false_iff in En.
    destruct (try_into_m U32_MAX b) eqn:E; [|discriminate]. injection Hgo as <-.
    apply try_into_m_Some in E as [-> Hl]. cbn. rewrite En. by apply len_ok_spec.
Qed.

Lemma json_wf_elem l w : json_wf (JArr l) → w ∈ l → json_wf w.
Proof. intros Hl Hw. inversion Hl as [| | | | |? Hall|]; subst. rewrite Forall_forall in Hall. auto. Qed.

Lemma json_wf_entry m k w : json_wf (JObj m) → (k, w) ∈ m → json_wf w ∧ utf8_valid k = true.
Proof.
  intros Hm Hw. inversion Hm as [| | | | | |? _ Hk Hall]; subst. rewrite Forall_forall in Hall, Hk.
  split; [by apply (Hall (k, w))|by apply (Hk (k, w))].
Qed.

Lemma symbol_or_ok err s sv :
  symbol_or err s = Ok sv → sv = ScvSymbol (bytes s) ∧ Z.of_nat (length (bytes s)) ≤ 32.
Proof.
  unfold symbol_or. destruct (try_into_m 32 (bytes s)) eqn:E; [|done].
  apply try_into_m_Some in E as [-> Hl]. by intros [= <-].
Qed.

Lemma map_of_ok name m sv : map_of name m = Ok sv → sv = ScvMap (Some m) ∧ len_ok m = true.
Proof.
  unfold map_of, vecm. destruct (try_into_m U32_MAX m) eqn:E; [|done]. cbn.
  apply try_into_m_Some in E as [-> Hl]. intros [= <-]. split; [done|]. by apply len_ok_spec.
Qed.

Section step.
Variable rec : Json → ScSpecTypeDef → string → result EncodeError ScVal.
Variable v : Json.
Hypothesis Hspec : spec_ok sp.
Hypothesis Hv : json_wf v.
Hypothesis Hrec : ∀ w t name sv,
  (jdepth w < jdepth v)%nat → json_wf w → rec w t name = Ok sv → has_type sp sv t = true.

Lemma struct_sound s name sv :
  struct_ok s = true → struct_to_scval rec v s name = Ok sv →
  (if is_tuple_struct s then
     match sv with
     | ScvVec (Some l) =>
         len_ok l && (length l =? length (s_fields s))%nat
         && zip_all (λ x f, has_type sp x (f_ty f)) l (s_fields s)
     | _ => false
     end
   else
     match sv with
     | ScvMap (Some m) =>
         len_ok m && keys_sorted m && (length m =? length (s_fields s))%nat
         && forallb (λ p,
              match p.1 with
              | ScvSymbol b =>
                  text_ok 32 b
                  && match List.find (λ f, String.eqb (f_name f) (of_bytes b)) (s_fields s) with
                     | Some f => has_type sp p.2 (f_ty f)
                     | None => false
                     end
              | _ => false
              end) m
     | _ => false
     end) = true.
Proof.
  intros Hs Henc. apply andb_true_iff in Hs as [Hnd%bool_decide_eq_true_1 Hutf].
  rewrite forallb_forall in Hutf. unfold struct_to_scval in Henc. fold (is_tuple_struct s) in Henc.
  destruct (is_tuple_struct s).
  - destruct v as [| | | | |arr|] eqn:Ev; try discriminate. cbn [as_array ok_or mbind result_bind] in Henc.
    destruct (Nat.eqb_spec (length arr) (length (s_fields s))) as [Hlen|]; [|discriminate].
    cbn [negb] in Henc. destruct (collect_r2 _ arr (s_fields s)) as [items|] eqn:Ec; [|discriminate].
    cbn [mbind result_bind] in Henc. apply vec_of_ok in Henc as [-> Hl].
    apply (collect_r2_zip_r _ (λ x f, has_type sp x (f_ty f))) in Ec as [Hli Hz]; [|done|].
    + rewrite Hl, Hz, Hli, Nat.eqb_refl. done.
    + intros x f z Hx _ Hf. eapply Hrec; [|by eapply json_wf_elem|exact Hf].
      by apply jdepth_arr_elem.
  - destruct v as [| | | | | |o] eqn:Ev; try discriminate. cbn [as_object ok_or mbind result_bind] in Henc.
    destruct (collect_r _ (s_fields s)) as [items|] eqn:Ec; [|discriminate].
    cbn [mbind result_bind] in Henc. apply map_of_ok in Henc as [-> Hl].
    assert (Forall2 (λ f p, p.1 = ScvSymbol (bytes (f_name f)) ∧ text_ok 32 (bytes (f_name f)) = true
                            ∧ has_type sp p.2 (f_ty f) = true) (s_fields s) items) as Hitems.
    { apply collect_r_Ok in Ec. eapply Forall2_impl_l; [exact Ec|].
      intros f p Hf Hp. cbn beta in Hp.
      destruct (bt_get (f_name f) o) as [w|] eqn:Ew; [|discriminate].
      cbn [ok_or mbind result_bind] in Hp.
      destruct (symbol_or _ (f_name f)) as [sym|] eqn:Esym; [|discriminate].
      cbn [mbind result_bind] in Hp. apply symbol_or_ok in Esym as [-> Hlen].
      destruct (rec w (f_ty f) name) as [x|] eqn:Ex; [|discriminate]. injection Hp as <-.
      apply bt_get_Some_in in Ew. cbn [fst snd].
      split_and!; [done| |eapply Hrec; [by eapply jdepth_obj_elem|by eapply json_wf_entry|done]].
      apply text_ok_spec. rewrite of_bytes_bytes. split; [done|].
      apply Hutf. by apply list_elem_of_In. }
    assert (fst <$> items = (λ f, ScvSymbol (bytes (f_name f))) <$> s_fields s) as Hkeys.
    { clear -Hitems. induction Hitems as [|f p l k (Hp & _) _ IH]; [done|]. cbn. by rewrite Hp, IH. }
    assert (NoDup (fst <$> sort_entries items)) as Hndk.
    { rewrite sort_entries_perm, Hkeys. apply NoDup_fmap_2_strong.
      2:{ by eapply NoDup_fmap_1. }
      intros f g Hf Hg [= Heq%bytes_inj]. by eapply (NoDup_name_inj f_name). }
    rewrite Hl, (sort_entries_sorted items) by (apply NoDup_not_adjacent; done). cbn [andb].
    apply andb_true_iff. split.
    { apply Nat.eqb_eq. rewrite sort_entries_perm. symmetry. by eapply Forall2_length. }
    apply forallb_forall. intros p Hp%list_elem_of_In. rewrite sort_entries_perm in Hp.
    apply list_elem_of_lookup_1 in Hp as [i Hi].
    destruct (Forall2_lookup_r _ _ _ _ _ Hitems Hi) as (f & Hf & -> & Ht & Hty).
    apply list_elem_of_lookup_2 in Hf. rewrite Ht, of_bytes_bytes. cbn [andb].
    by rewrite (find_name f_name).
Qed.

Lemma union_sound u name sv :
  union_to_scval rec v u name = Ok sv →
  match sv with
  | ScvVec (Some (ScvSymbol b :: vals)) =>
      text_ok 32 b && len_ok (ScvSymbol b :: vals)
      && match List.find (λ c, String.eqb (c_name c) (of_bytes b)) (u_cases u) with
         | Some c => (length vals =? length (c_tys c))%nat && zip_all (has_type sp) vals (c_tys c)
         | None => false
         end
  | _ => false
  end = true.
Proof.
  assert (∀ s c sym, utf8_valid s = true →
    List.find (λ c, String.eqb (c_name c) s) (u_cases u) = Some c → is_empty (c_tys c) = true →
    symbol_or (BadArgument name (CaseNotSymbol s)) s = Ok sym → vec_of name [sym] = Ok sv →
    match sv with
    | ScvVec (Some (ScvSymbol b :: vals)) =>
        text_ok 32 b && len_ok (ScvSymbol b :: vals)
        && match List.find (λ c, String.eqb (c_name c) (of_bytes b)) (u_cases u) with
           | Some c => (length vals =? length (c_tys c))%nat && zip_all (has_type sp) vals (c_tys c)
           | None => false
           end
    | _ => false
    end = true) as Hvoid.
  { intros s c sym Hs Hc Hempty Hsym Hvec. apply symbol_or_ok in Hsym as [-> Hlen].
    apply vec_of_ok in Hvec as [-> Hl]. rewrite Hl, of_bytes_bytes, Hc.
    rewrite (proj2 (text_ok_spec 32 (bytes s))) by by rewrite of_bytes_bytes.
    by destruct (c_tys c). }
  unfold union_to_scval. destruct v as [| | | |s|arr|o] eqn:Ev; cbn [as_str]; try discriminate.
  - destruct (List.find _ _) as [c|] eqn:Ec; [|discriminate].
    destruct (is_empty (c_tys c)) eqn:Ee; [|discriminate].
    destruct (symbol_or _ s) as [sym|] eqn:Es; [|discriminate]. cbn [mbind result_bind].
    eapply Hvoid; eauto. by inversion Hv.
  - cbn [as_object ok_or mbind result_bind]. destruct o as [|[key val] [|]] eqn:Eo; try discriminate.
    destruct (json_wf_entry [(key, val)] key val Hv) as [Hval Hkey]; [by constructor|].
    assert (jdepth val < jdepth (JObj [(key, val)]))%nat as Hd
      by (apply (jdepth_obj_elem _ key); by constructor).
    destruct (List.find _ _) as [c|] eqn:Ec; [|discriminate].
    destruct (is_empty (c_tys c)) eqn:Ee.
    + destruct (negb (is_null val)); [discriminate|].
      destruct (symbol_or _ key) as [sym|] eqn:Es; [|discriminate]. cbn [mbind result_bind].
      by eapply Hvoid.
    + set (r := match as_array val with Some a => Ok a | None => _ end).
      assert (∀ vals, r = Ok vals → ∀ x, x ∈ vals → json_wf x ∧ (jdepth x < jdepth v)%nat) as Hvals.
      { intros vals Hr x Hx. unfold r in Hr. rewrite Ev. destruct (as_array val) as [a|] eqn:Ea.
        - destruct val; try discriminate. injection Ea as ->. injection Hr as ->.
          split; [by eapply json_wf_elem|]. apply jdepth_arr_elem in Hx. lia.
        - destruct (length (c_tys c) =? 1)%nat; [|discriminate]. injection Hr as <-.
          apply list_elem_of_singleton in Hx as ->. done. }
      destruct r as [vals|]; [|discriminate]. cbn [mbind result_bind].
      destruct (Nat.eqb_spec (length vals) (length (c_tys c))) as [Hlen|]; [|discriminate].
      cbn [negb]. destruct (symbol_or _ key) as [sym|] eqn:Es; [|discriminate].
      cbn [mbind result_bind]. apply symbol_or_ok in Es as [-> Hsym].
      destruct (collect_r2 _ vals (c_tys c)) as [items|] eqn:Ei; [|discriminate].
      cbn [mbind result_bind]. intros [-> Hl]%vec_of_ok.
      apply (collect_r2_zip_r _ (has_type sp)) in Ei as [Hli Hz]; [|done|].
      * rewrite Hl, of_bytes_bytes, Ec, Hli, Nat.eqb_refl, Hz.
        by rewrite (proj2 (text_ok_spec 32 (bytes key))) by by rewrite of_bytes_bytes.
      * intros x t z Hx _ Hr. destruct (Hvals vals eq_refl x Hx). subst v. by eapply Hrec.
Qed.

Lemma enum_sound e name sv :
  enum_ok e = true → enum_to_scval v e name = Ok sv →
  match sv with ScvU32 n => in_u 32 n && existsb (λ c, c.2 =? n) (n_cases e) | _ => false end = true.
Proof.
  intros [_ Hr]%andb_true_iff. rewrite forallb_forall in Hr. unfold enum_to_scval.
  destruct (as_str v) as [s|].
  - destruct (List.find _ _) as [c|] eqn:Ec; [|discriminate]. cbn. intros [= <-].
    apply find_some in Ec as [Hin _]. apply list_elem_of_In in Hin. rewrite Hr by done.
    apply existsb_exists. exists c. split; [done|]. apply Z.eqb_refl.
  - destruct (as_u64 v) as [n|]; [|discriminate]. destruct (in_u 32 n) eqn:En; [|discriminate].
    cbn [negb]. destruct (existsb _ _) eqn:Ee; [|discriminate]. cbn. intros [= <-]. by rewrite En.
Qed.

End step.

Lemma go_sound rec name ty v sv :
  spec_ok sp → json_wf v →
  (∀ w t n x, (jdepth w < jdepth v)%nat → json_wf w → rec w t n = Ok x → has_type sp x t = true) →
  json_to_scval_go sp rec name v ty = Ok sv → has_type sp sv ty = true.
Proof.
  intros Hspec. revert v sv.
  induction ty as [t Ht|t IH|t e IHt IHe|t IH|k t IHk IHt|l IH] using typedef_ind_strong;
    intros v sv Hv Hrec Hgo; rewrite has_type_eq.
  - destruct (is_atom t) eqn:Ea.
    { assert (has_atom sv t = true) as Hat by by eapply atom_sound.
      by destruct t. }
    destruct t as [| | | | | | | | | | | | | | | | | | | | | | | | |u]; try done. cbn [json_to_scval_go] in Hgo. unfold udt_to_scval in Hgo.
    destruct (udt_def sp (to_utf8_string_lossy u)) as [[e|d|s]|] eqn:Ed; [| | |discriminate];
      apply udt_def_in in Ed; try done.
    + destruct Ed as [_ He]. by eapply enum_sound.
    + by eapply union_sound.
    + destruct Ed as [_ Hs]. by eapply struct_sound.
  - cbn in Hgo. destruct (is_null v); [by injection Hgo as <-|].
    destruct sv; try done; by eapply IH.
  - discriminate Hgo.
  - cbn [json_to_scval_go] in Hgo. destruct v as [| | | | |arr|]; try discriminate.
    cbn [as_array ok_or mbind result_bind] in Hgo.
    destruct (collect_r _ arr) as [items|] eqn:Ec; [|discriminate].
    cbn [mbind result_bind] in Hgo. apply vec_of_ok in Hgo as [-> Hl]. rewrite Hl.
    apply forallb_forall. intros x Hx%list_elem_of_In. apply collect_r_Ok in Ec.
    apply list_elem_of_lookup_1 in Hx as [i Hi].
    destruct (Forall2_lookup_r _ _ _ _ _ Ec Hi) as (w & Hw & Hgo).
    apply list_elem_of_lookup_2 in Hw. pose proof (jdepth_arr_elem _ _ Hw).
    eapply IH; [by eapply json_wf_elem| |exact Hgo]. intros. eapply Hrec; [|done..]. lia.
  - cbn [json_to_scval_go] in Hgo. destruct v as [| | | | | |o]; try discriminate.
    cbn [as_object ok_or mbind result_bind] in Hgo.
    destruct (collect_r _ o) as [items|] eqn:Ec; [|discriminate].
    cbn [mbind result_bind] in Hgo. cbv zeta in Hgo.
    destruct (has_adjacent_dup _) eqn:Ed; [discriminate|].
    apply map_of_ok in Hgo as [-> Hl]. rewrite Hl.
    rewrite sort_entries_sorted by by apply no_adjacent_dup. cbn [andb].
    apply forallb_forall. intros x Hx%list_elem_of_In. rewrite sort_entries_perm in Hx.
    apply collect_r_Ok in Ec. apply list_elem_of_lookup_1 in Hx as [i Hi].
    destruct (Forall2_lookup_r _ _ _ _ _ Ec Hi) as ([j w] & Hw & Hgo). cbn [fst snd] in Hgo.
    destruct (json_to_scval_go sp rec name (JStr j) k) as [key|] eqn:Ek; [|discriminate].
    cbn [mbind result_bind] in Hgo.
    destruct (json_to_scval_go sp rec name w t) as [val|] eqn:Et; [|discriminate].
    injection Hgo as <-. apply list_elem_of_lookup_2 in Hw.
    destruct (json_wf_entry _ _ _ Hv Hw) as [Hwf Hj]. pose proof (jdepth_obj_elem _ _ _ Hw).
    apply andb_true_iff. split; cbn [fst snd].
    + eapply IHk; [by constructor| |exact Ek]. cbn [jdepth]. intros. lia.
    + eapply IHt; [done| |exact Et]. intros. eapply Hrec; [|done..]. lia.
  - cbn [json_to_scval_go] in Hgo. destruct v as [| | | | |arr|]; try discriminate.
    cbn [as_array ok_or mbind result_bind] in Hgo.
    destruct (Nat.eqb_spec (length arr) (length l)) as [Hlen|]; [|discriminate]. cbn [negb] in Hgo.
    destruct (collect_r2 _ l arr) as [items|] eqn:Ec; [|discriminate].
    cbn [mbind result_bind] in Hgo. apply vec_of_ok in Hgo as [-> Hl].
    apply (collect_r2_zip_l _ (has_type sp)) in Ec as [Hli Hz]; [|done|].
    + by rewrite Hl, Hz, Hli, Nat.eqb_refl.
    + intros t w z Ht Hw Hgo. rewrite Forall_forall in IH. pose proof (jdepth_arr_elem _ _ Hw).
      eapply IH; [done|by eapply json_wf_elem| |exact Hgo]. intros. eapply Hrec; [|done..]. lia.
Qed.

(** By induction on the depth of the JSON. *)
Lemma encoded_at_depth n : ∀ v ty name sv, (jdepth v < n)%nat →
  spec_ok sp → json_wf v → json_to_scval sp v ty name = Ok sv → has_type sp sv ty = true.
Proof.
  induction n as [|n IH]; intros v ty name sv Hn Hspec Hv Henc; [lia|].
  rewrite json_to_scval_eq in Henc. eapply go_sound; [done..| |exact Henc].
  intros w t nm x Hw Hwf Hx. eapply (IH w t nm x); [lia|done..].
Qed.

(** C2: the argument encoder is type-sound: whatever JSON it accepts for a
    declared type, the [ScVal] it returns is a value of that type: integers in
    the range of their width, text UTF-8 and within capacity, tuples and union
    cases with the declared arity, enum values among the declared ones, struct
    maps with exactly the declared fields, and every map strictly sorted by key
    without duplicates. *)
Theorem json_to_scval_sound v ty name sv :
  spec_ok sp → json_wf v → json_to_scval sp v ty name = Ok sv → has_type sp sv ty = true.
Proof.
  by apply (encoded_at_depth (S (jdepth v))), Nat.lt_succ_diag_r.
Qed.
End soundness.

(** ** Lemmas: relabelling text and null *)

Section relabel_facts.
Context `{Stellar} (sp : ContractSpec).

Lemma relabel_str s t : relabel sp (JStr s) t = JStr s.
Proof.
  induction t as [t Ht|t IH|t e _ _|t _|k t _ _|l _] using typedef_ind_strong;
    rewrite relabel_eq; cbn; try done.
  - destruct t; try done. cbn. unfold relabel_udt_with.
    destruct (udts_by_name sp !! _) as [[i|i|i]|]; cbn; try done.
    + by destruct (unions sp !! i).
    + by destruct (structs sp !! i).
  - fold (relabel_go sp (relabel sp)). by rewrite <- relabel_eq.
Qed.

Lemma is_null_relabel v t : is_null (relabel sp v t) = is_null v.
Proof.
  revert v. induction t as [t Ht|t IH|t e _ _|t _|k t _ _|l _] using typedef_ind_strong;
    intros v; rewrite relabel_eq; cbn.
  - destruct t; try done. cbn. unfold relabel_udt_with.
    destruct (udts_by_name sp !! _) as [[i|i|i]|]; [| | |done].
    + destruct (as_u64 v) as [n|] eqn:E; [|done]. destruct v; try discriminate.
      destruct (enum_cases sp !! i); [|done]. destruct (in_u 32 n); [|done].
      by destruct (_ !! n).
    + destruct (unions sp !! i); [|done]. destruct v as [| | | | |[|[]]|]; try done.
      destruct (List.find _ _); [|done]. destruct (is_empty _); [done|].
      by destruct (_ =? _)%nat.
    + destruct (structs sp !! i); [|done]. destruct v; try done. by destruct (_ =? _)%nat.
  - destruct (is_null v) eqn:E; [done|]. fold (relabel_go sp (relabel sp)).
    rewrite <- relabel_eq. by rewrite IH.
  - destruct (json_get "Ok" v) eqn:Eo; [by destruct v|].
    destruct (json_get "Err" v) eqn:Ee; [by destruct v|done].
  - by destruct v.
  - by destruct v.
  - destruct v; try done. by destruct (_ =? _)%nat.
Qed.

Lemma udt_def_ref name d :
  udt_def sp name = Some d →
  match d with
  | DefEnum e => ∃ i, udts_by_name sp !! name = Some (RefEnum i) ∧ enums sp !! i = Some e
  | DefUnion u => ∃ i, udts_by_name sp !! name = Some (RefUnion i) ∧ unions sp !! i = Some u
  | DefStruct s => ∃ i, udts_by_name sp !! name = Some (RefStruct i) ∧ structs sp !! i = Some s
  end.
Proof.
  unfold udt_def. destruct (udts_by_name sp !! name) as [[i|i|i]|]; [| | |done]; cbn; intros Hd.
  - destruct (enums sp !! i) eqn:E; [|done]. injection Hd as <-. eauto.
  - destruct (unions sp !! i) eqn:E; [|done]. injection Hd as <-. eauto.
  - destruct (structs sp !! i) eqn:E; [|done]. injection Hd as <-. eauto.
Qed.

(** The case a declared discriminant is named with leads back to it. *)
Lemma enum_case_name i e n :
  spec_ok sp → enums sp !! i = Some e → existsb (λ c, c.2 =? n) (n_cases e) = true →
  enum_ok e = true →
  ∃ cases name, enum_cases sp !! i = Some cases ∧ cases !! n = Some name
    ∧ List.find (λ c, String.eqb c.1 name) (n_cases e) = Some (name, n).
Proof.
  intros (Hsp & _) Hi Hn [Hnd%bool_decide_eq_true_1 _]%andb_true_iff.
  rewrite Hsp. cbn [enum_cases reindex]. unfold index_enum_cases.
  rewrite list_lookup_fmap, Hi. cbn [fmap option_fmap option_map].
  pose proof (enum_case_lookup e n) as Hlook.
  set (cases := foldl _ _ (n_cases e)) in *. exists cases.
  destruct (List.find _ (rev (n_cases e))) as [[name m]|] eqn:Ef.
  - exists name. split; [done|]. split; [done|]. apply find_some in Ef as [Hin Hm].
    apply bool_decide_eq_true_1 in Hm. cbn in Hm. injection Hm as ->.
    apply list_elem_of_In, in_rev, list_elem_of_In in Hin.
    exact (find_name fst (n_cases e) (name, n) Hnd Hin).
  - exfalso. apply existsb_exists in Hn as (c & Hc & Heq). apply in_rev in Hc.
    pose proof (List.find_none _ _ Ef c Hc) as Hno. cbn in Hno.
    apply bool_decide_eq_false_1 in Hno. apply Hno. f_equal. by apply Z.eqb_eq.
Qed.
End relabel_facts.

(** ** Lemmas: collecting what was rendered *)

Lemma collect2_back_l {E T J S} (f : T → J → result E S) (g : T → J → J) (d : S → J)
    (P : S → T → bool) ts l :
  length l = length ts → zip_all P l ts = true →
  (∀ t x, x ∈ l → P x t = true → f t (g t (d x)) = Ok x) →
  collect_r2 f ts (zip_map g ts (d <$> l)) = Ok l.
Proof.
  revert ts; induction l as [|x l IH]; intros [|t ts] Hlen HP Hf; simplify_eq/=; [done|].
  apply andb_true_iff in HP as [Hx HP]. rewrite Hf by (constructor || done).
  rewrite IH; [done|done|done|]. intros. apply Hf; [by constructor|done].
Qed.

Lemma collect2_back_r {E T J S} (f : J → T → result E S) (g : J → T → J) (d : S → J)
    (P : S → T → bool) ts l :
  length l = length ts → zip_all P l ts = true →
  (∀ t x, x ∈ l → P x t = true → f (g (d x) t) t = Ok x) →
  collect_r2 f (zip_map g (d <$> l) ts) ts = Ok l.
Proof.
  revert ts; induction l as [|x l IH]; intros [|t ts] Hlen HP Hf; simplify_eq/=; [done|].
  apply andb_true_iff in HP as [Hx HP]. rewrite Hf by (constructor || done).
  rewrite IH; [done|done|done|]. intros. apply Hf; [by constructor|done].
Qed.

Lemma zip_map_fmap_length {A B C} (g : A → B → C) (l : list A) (k : list B) :
  length l = length k → length (zip_map g l k) = length k.
Proof. intros Hl. by rewrite zip_map_length. Qed.

Lemma vec_of_back name l : len_ok l = true → vec_of name l = Ok (ScvVec (Some l)).
Proof. intros Hl%len_ok_spec. unfold vec_of, vecm. by rewrite try_into_m_ok. Qed.

Lemma map_of_back name m : len_ok m = true → map_of name m = Ok (ScvMap (Some m)).
Proof. intros Hl%len_ok_spec. unfold map_of, vecm. by rewrite try_into_m_ok. Qed.

Lemma symbol_or_back err b : text_ok 32 b = true → symbol_or err (of_bytes b) = Ok (ScvSymbol b).
Proof. intros [Hl _]%text_ok_spec. unfold symbol_or. by rewrite bytes_of_bytes, try_into_m_ok. Qed.

(** ** Theorem: decoding and encoding are inverse on typed values *)

Section roundtrip.
Context `{Stellar} (sp : ContractSpec).

(** Every map in the value has keys the decoder renders as text: an argument
    object can only have text keys. *)
Fixpoint text_keyed (sv : ScVal) : bool :=
  match sv with
  | ScvVec (Some l) => forallb text_keyed l
  | ScvMap (Some m) => forallb (λ p, stringy (decode_scval p.1) && text_keyed p.2) m
  | _ => true
  end.

Lemma wide_u hi lo :
  in_u 64 hi = true → in_u 64 lo = true →
  0 ≤ hi * 2 ^ 64 + lo < 2 ^ 128 ∧ u128_parts (hi * 2 ^ 64 + lo) = (hi, lo).
Proof.
  intros Hhi%in_u_spec Hlo%in_u_spec. split.
  - change (2 ^ 128) with (2 ^ 64 * 2 ^ 64). nia.
  - unfold u128_parts. rewrite Z.shiftr_div_pow2 by lia.
    rewrite Z.div_add_l, Z.div_small, Z.add_0_r by lia. rewrite wrap_small by done.
    unfold wrap. rewrite Z.add_comm, Z_mod_plus_full. by rewrite Z.mod_small.
Qed.

Lemma wide_i hi lo :
  in_i 64 hi = true → in_u 64 lo = true →
  - 2 ^ 127 ≤ hi * 2 ^ 64 + lo < 2 ^ 127 ∧ i128_parts (hi * 2 ^ 64 + lo) = (hi, lo).
Proof.
  intros Hhi%in_i_spec Hlo%in_u_spec. split.
  - change (2 ^ 127) with (2 ^ 63 * 2 ^ 64). change (64 - 1) with 63 in Hhi. nia.
  - unfold i128_parts. rewrite Z.shiftr_div_pow2 by lia.
    rewrite Z.div_add_l, Z.div_small, Z.add_0_r by lia. rewrite as_signed_small by done.
    unfold wrap. rewrite Z.add_comm, Z_mod_plus_full. by rewrite Z.mod_small.
Qed.

Lemma int_uint w n name : 0 ≤ n < 2 ^ w → int (parse_uint w) (JStr (show_u n)) name = Ok n.
Proof. intros Hn. unfold int. cbn [int_text ok_or mbind result_bind]. by rewrite parse_uint_show. Qed.

Lemma int_int w n name :
  - 2 ^ (w - 1) ≤ n < 2 ^ (w - 1) → int (parse_int w) (JStr (show_i n)) name = Ok n.
Proof. intros Hn. unfold int. cbn [int_text ok_or mbind result_bind]. by rewrite parse_int_show. Qed.

Lemma u256_ok_wf p : u256_ok p = true → u256_wf p.
Proof.
  unfold u256_ok, u256_wf. rewrite forallb_forall, Forall_forall.
  intros Hp x Hx. apply list_elem_of_In in Hx. by apply in_u_spec, Hp.
Qed.

Lemma i256_ok_wf p : i256_ok p = true → i256_wf p.
Proof.
  unfold i256_ok, i256_wf, is_limb. rewrite !andb_true_iff, in_i_spec, !in_u_spec. tauto.
Qed.

Lemma hex_back b name : decode_hex (JStr ("0x" +:+ hex b)) name = Ok b.
Proof.
  unfold decode_hex. cbn [str_of as_str ok_or mbind result_bind].
  rewrite strip_prefix_app. cbn [default from_option id]. unfold hex. by rewrite hex_decode_show.
Qed.

Lemma atom_back rec rec' name sv t :
  is_atom t = true → has_atom sv t = true →
  json_to_scval_go sp rec name (relabel_go sp rec' (decode_scval sv) t) t = Ok sv.
Proof.
  intros Ha Ht. assert (relabel_go sp rec' (decode_scval sv) t = decode_scval sv) as ->
    by by destruct t.
  destruct t; try discriminate Ha; destruct sv; try discriminate Ht; cbn in Ht;
    cbn [json_to_scval_go decode_scval]; try done.
  - cbn. rewrite show_i_nonneg by (apply in_u_spec in Ht; lia).
    by rewrite parse_uint_show by by apply in_u_spec.
  - cbn. by rewrite parse_int_show by by apply in_i_spec.
  - by rewrite int_uint by by apply in_u_spec.
  - by rewrite int_int by by apply in_i_spec.
  - by rewrite int_uint by by apply in_u_spec.
  - by rewrite int_uint by by apply in_u_spec.
  - apply andb_true_iff in Ht as [Hhi Hlo]. apply in_u_spec in Hlo as Hl.
    rewrite lor_shiftl_add by done. destruct (wide_u hi lo Hhi Hlo) as [Hr Hp].
    rewrite int_uint by done. cbn [fmap result_fmap]. by rewrite Hp.
  - apply andb_true_iff in Ht as [Hhi Hlo]. apply in_u_spec in Hlo as Hl.
    rewrite lor_shiftl_add by done. destruct (wide_i hi lo Hhi Hlo) as [Hr Hp].
    rewrite int_int by done. cbn [fmap result_fmap]. by rewrite Hp.
  - apply u256_ok_wf in Ht. destruct (decimal256_roundtrip p name) as [Hu _].
    specialize (Hu Ht). destruct (parse_u256 _ name); [|discriminate].
    injection Hu as <-. done.
  - apply i256_ok_wf in Ht. destruct (decimal256_roundtrip p name) as [_ Hi].
    specialize (Hi Ht). destruct (parse_i256 _ name); [|discriminate].
    injection Hi as <-. done.
  - rewrite hex_back. cbn [mbind result_bind].
    rewrite try_into_m_ok by by apply len_ok_spec. done.
  - apply text_ok_spec in Ht as [Hl Hu]. rewrite text_or_hex_text by done.
    cbn [str_of as_str ok_or mbind result_bind]. by rewrite bytes_of_bytes, try_into_m_ok.
  - apply text_ok_spec in Ht as [Hl Hu]. rewrite text_or_hex_text by done.
    cbn [str_of as_str ok_or mbind result_bind]. by rewrite bytes_of_bytes, try_into_m_ok.
  - cbn [str_of as_str ok_or mbind result_bind]. unfold sc_address_to_string.
    by rewrite address_roundtrip.
  - apply andb_true_iff in Ht as [Hw Hm]. unfold muxed_to_address.
    cbn [str_of as_str ok_or mbind result_bind]. unfold sc_address_to_string.
    rewrite strkey_muxed. destruct a; try discriminate; by rewrite address_roundtrip.
  - apply andb_true_iff in Ht as [Hn Hl]. rewrite hex_back. cbn [mbind result_bind].
    rewrite Hn. cbn [negb]. rewrite try_into_m_ok by by apply len_ok_spec. done.
Qed.

(** *** The equations of the source on containers *)

Lemma relabel_option v t :
  relabel sp v (TOption t) = if is_null v then v else relabel sp v t.
Proof. rewrite !relabel_eq. done. Qed.

Lemma relabel_vec l t : relabel sp (JArr l) (TVec t) = JArr ((λ x, relabel sp x t) <$> l).
Proof.
  rewrite relabel_eq. cbn. f_equal. apply fmap_ext_in. intros x _. symmetry. apply relabel_eq.
Qed.

Lemma relabel_tuple l ts :
  length l = length ts →
  relabel sp (JArr l) (TTuple ts) = JArr (zip_map (λ t x, relabel sp x t) ts l).
Proof.
  intros Hl. rewrite relabel_eq. cbn. rewrite Hl, Nat.eqb_refl. f_equal.
  apply zip_map_ext_in. intros t x _. symmetry. apply relabel_eq.
Qed.

Lemma relabel_map_obj o k t :
  relabel sp (JObj o) (TMap k t) = mk_obj ((λ p, (p.1, relabel sp p.2 t)) <$> o).
Proof.
  rewrite relabel_eq. cbn. f_equal. apply fmap_ext_in. intros p _. f_equal. symmetry.
  apply relabel_eq.
Qed.

Lemma encode_option v t name :
  json_to_scval sp v (TOption t) name = if is_null v then Ok ScvVoid else json_to_scval sp v t name.
Proof. rewrite !json_to_scval_eq. done. Qed.

Lemma encode_vec l t name :
  json_to_scval sp (JArr l) (TVec t) name
  = (items ← collect_r (λ x, json_to_scval sp x t name) l; vec_of name items).
Proof.
  rewrite json_to_scval_eq. cbn [json_to_scval_go as_array ok_or mbind result_bind].
  erewrite collect_r_ext; [reflexivity|]. intros x _. symmetry. apply json_to_scval_eq.
Qed.

Lemma encode_tuple l ts name :
  length l = length ts →
  json_to_scval sp (JArr l) (TTuple ts) name
  = (items ← collect_r2 (λ t x, json_to_scval sp x t name) ts l; vec_of name items).
Proof.
  intros Hl. rewrite json_to_scval_eq. cbn [json_to_scval_go as_array ok_or mbind result_bind].
  rewrite Hl, Nat.eqb_refl. cbn [negb].
  erewrite collect_r2_ext; [reflexivity|]. intros t x _. symmetry. apply json_to_scval_eq.
Qed.

Lemma encode_map o k t name :
  json_to_scval sp (JObj o) (TMap k t) name
  = (items ← collect_r (λ p, key ← json_to_scval sp (JStr p.1) k name;
                             val ← json_to_scval sp p.2 t name; Ok (key, val)) o;
     if has_adjacent_dup (sort_entries items)
     then Err (BadArgument name (Fixed "map contains duplicate keys after conversion"))
     else map_of name (sort_entries items)).
Proof.
  rewrite json_to_scval_eq. cbn [json_to_scval_go as_object ok_or mbind result_bind]. cbv zeta.
  erewrite collect_r_ext; [reflexivity|]. intros p _. cbn beta. by rewrite !json_to_scval_eq.
Qed.

(** *** Maps *)

Definition key_text (p : ScVal * ScVal) : string :=
  match decode_scval p.1 with JStr s => s | _ => EmptyString end.

Lemma key_text_eq p : stringy (decode_scval p.1) = true → decode_scval p.1 = JStr (key_text p).
Proof. unfold key_text. by destruct (decode_scval p.1). Qed.

Lemma decode_text_map m :
  (∀ p, p ∈ m → stringy (decode_scval p.1) = true) →
  decode_scval (ScvMap (Some m)) = mk_obj ((λ p, (key_text p, decode_scval p.2)) <$> m).
Proof.
  intros Hm. cbn [decode_scval]. rewrite render_map_eq.
  assert (forallb (λ kv, stringy kv.1) ((λ p, (decode_scval p.1, decode_scval p.2)) <$> m) = true)
    as ->.
  { apply forallb_forall. intros kv Hkv%list_elem_of_In.
    apply list_elem_of_fmap in Hkv as (p & -> & Hp). by apply Hm. }
  unfold mk_obj. do 2 f_equal. induction m as [|p m IH]; [done|]. cbn.
  unfold string_entry at 1. cbn. rewrite key_text_eq by (apply Hm; constructor).
  f_equal. apply IH. intros q Hq. apply Hm. by constructor.
Qed.

(** Relabelling the entries of a decoded map, in any order of its keys. *)
Lemma relabelled_entries (F : string → Json → Json) m :
  NoDup (key_text <$> m) →
  bt_of_list ((λ q, (q.1, F q.1 q.2)) <$> bt_of_list ((λ p, (key_text p, decode_scval p.2)) <$> m))
  ≡ₚ (λ p, (key_text p, F (key_text p) (decode_scval p.2))) <$> m.
Proof.
  intros Hnd. set (E := (λ p, (key_text p, decode_scval p.2)) <$> m).
  assert (E.*1 = key_text <$> m) as HE.
  { unfold E. rewrite <- list_fmap_compose. by apply list_fmap_ext. }
  assert (bt_of_list E ≡ₚ E) as Hperm by (apply bt_of_list_perm; by rewrite HE).
  rewrite bt_of_list_perm.
  - rewrite Hperm. unfold E. by rewrite <- list_fmap_compose.
  - rewrite <- list_fmap_compose.
    assert ((fst ∘ λ q, (q.1, F q.1 q.2)) <$> bt_of_list E = (bt_of_list E).*1) as ->
      by by apply list_fmap_ext.
    by rewrite Hperm, HE.
Qed.

Definition back (x : ScVal) : Prop := ∀ t name,
  has_type sp x t = true → text_keyed x = true →
  json_to_scval sp (relabel sp (decode_scval x) t) t name = Ok x.

Lemma stringy_text_keyed x : stringy (decode_scval x) = true → text_keyed x = true.
Proof.
  destruct x as [| | | | | | | | | | | | | | | |[]|[]| | | |]; try done.
  cbn. rewrite render_map_eq. by destruct (forallb _ _).
Qed.

Lemma key_back x t name :
  back x → has_type sp x t = true → stringy (decode_scval x) = true →
  ∀ s, decode_scval x = JStr s → json_to_scval sp (JStr s) t name = Ok x.
Proof.
  intros Hx Ht Hs s Heq. rewrite <- (relabel_str sp s t), <- Heq.
  apply Hx; [done|]. by apply stringy_text_keyed.
Qed.

Lemma map_back m k t name :
  Forall (λ p, back p.1 ∧ back p.2) m → len_ok m = true → keys_sorted m = true →
  forallb (λ p, has_type sp p.1 k && has_type sp p.2 t) m = true →
  text_keyed (ScvMap (Some m)) = true →
  json_to_scval sp (relabel sp (decode_scval (ScvMap (Some m))) (TMap k t)) (TMap k t) name
  = Ok (ScvMap (Some m)).
Proof.
  intros Hback Hlen Hsorted Htyped Hkeyed. cbn [text_keyed] in Hkeyed.
  rewrite forallb_forall in Htyped, Hkeyed. rewrite Forall_forall in Hback.
  assert (∀ p, p ∈ m → back p.1 ∧ back p.2 ∧ has_type sp p.1 k = true ∧ has_type sp p.2 t = true
            ∧ stringy (decode_scval p.1) = true ∧ text_keyed p.2 = true) as Hm.
  { intros p Hp. destruct (Hback p Hp). apply list_elem_of_In in Hp.
    specialize (Htyped p Hp). specialize (Hkeyed p Hp).
    apply andb_true_iff in Htyped as [? ?], Hkeyed as [? ?]. done. }
  assert (NoDup (key_text <$> m)) as Hnd.
  { apply NoDup_fmap_2_strong; [|by eapply NoDup_fmap_1, keys_sorted_NoDup].
    intros p q Hp Hq Heq. apply keys_sorted_NoDup in Hsorted.
    destruct (Hm p Hp) as (Bp & _ & Tp & _ & Sp & _), (Hm q Hq) as (Bq & _ & Tq & _ & Sq & _).
    pose proof (key_back _ k name Bp Tp Sp _ (key_text_eq p Sp)) as Ep.
    rewrite Heq, (key_back _ k name Bq Tq Sq _ (key_text_eq q Sq)) in Ep.
    injection Ep as Ep. by eapply (NoDup_fst_inj m). }
  rewrite decode_text_map by (intros p Hp; by apply Hm). unfold mk_obj.
  rewrite relabel_map_obj. unfold mk_obj. rewrite encode_map.
  edestruct (collect_r_perm
    (λ p, key ← json_to_scval sp (JStr p.1) k name;
          val ← json_to_scval sp p.2 t name; Ok (key, val))
    (λ p, (key_text p, relabel sp (decode_scval p.2) t)) id) as (m' & Hc & Hperm).
  { apply (relabelled_entries (λ _ v, relabel sp v t) m Hnd). }
  { intros p Hp. destruct (Hm p Hp) as (Bp & Bv & Tp & Tv & Sp & Kv). cbn [fst snd].
    rewrite (key_back _ k name Bp Tp Sp _ (key_text_eq p Sp)). cbn [mbind result_bind].
    rewrite Bv by done. cbn. by destruct p. }
  rewrite list_fmap_id in Hc. rewrite Hc. cbn [mbind result_bind].
  rewrite (sort_entries_unique m' m Hsorted Hperm).
  rewrite sorted_no_dup by done. by apply map_of_back.
Qed.

(** *** User-defined types *)

Lemma relabel_udt_eq v u : relabel sp v (TUdt u) = relabel_udt sp v (to_utf8_string_lossy u).
Proof. by rewrite relabel_eq. Qed.

Lemma encode_udt v u name :
  json_to_scval sp v (TUdt u) name
  = udt_to_scval sp (json_to_scval sp) v (to_utf8_string_lossy u) name.
Proof. by rewrite json_to_scval_eq. Qed.

Lemma enum_back e i n name udt :
  spec_ok sp → udts_by_name sp !! udt = Some (RefEnum i) → enums sp !! i = Some e →
  enum_ok e = true → in_u 32 n = true → existsb (λ c, c.2 =? n) (n_cases e) = true →
  enum_to_scval (relabel_udt sp (JInt n) udt) e name = Ok (ScvU32 n).
Proof.
  intros Hspec Hu He Hok Hn Hex.
  destruct (enum_case_name sp i e n Hspec He Hex Hok) as (cases & case & Hc & Hname & Hfind).
  unfold relabel_udt, relabel_udt_with. rewrite Hu, Hc. cbn [as_u64].
  assert (in_u 64 n = true) as -> by (apply in_u_spec in Hn; apply in_u_spec; lia).
  rewrite Hn, Hname. unfold enum_to_scval. cbn [as_str]. by rewrite Hfind.
Qed.

Lemma union_back u i b vals name udt :
  udts_by_name sp !! udt = Some (RefUnion i) → unions sp !! i = Some u →
  text_ok 32 b = true → len_ok (ScvSymbol b :: vals) = true →
  match List.find (λ c, String.eqb (c_name c) (of_bytes b)) (u_cases u) with
  | Some c => (length vals =? length (c_tys c))%nat && zip_all (has_type sp) vals (c_tys c)
  | None => false
  end = true →
  Forall back vals → forallb text_keyed vals = true →
  union_to_scval (json_to_scval sp)
    (relabel_udt sp (decode_scval (ScvVec (Some (ScvSymbol b :: vals)))) udt) u name
  = Ok (ScvVec (Some (ScvSymbol b :: vals))).
Proof.
  intros Hu Hi Hb Hl Hc Hback Hkeyed. apply text_ok_spec in Hb as Hb'.
  cbn [decode_scval fmap list_fmap]. rewrite text_or_hex_text by tauto.
  unfold relabel_udt, relabel_udt_with. rewrite Hu, Hi.
  destruct (List.find _ (u_cases u)) as [c|] eqn:Ef; [|done].
  apply find_string_eqb in Ef as Hname. destruct Hname as [_ Hname].
  apply andb_true_iff in Hc as [Hlen%Nat.eqb_eq Hz]. unfold union_to_scval.
  destruct (is_empty (c_tys c)) eqn:Ee.
  - cbn [as_str]. rewrite Hname, Ef, Ee, symbol_or_back by done. cbn [mbind result_bind].
    destruct (c_tys c); [|done]. destruct vals; [|done]. by apply vec_of_back.
  - fold (decode_scval <$> vals). rewrite length_fmap, Hlen, Nat.eqb_refl.
    unfold mk_obj. cbn [as_str as_object ok_or mbind result_bind bt_of_list foldl bt_insert fst snd].
    rewrite Hname, Ef, Ee. cbn [as_array mbind result_bind].
    rewrite zip_map_length by (by rewrite length_fmap). rewrite length_fmap, Hlen, Nat.eqb_refl.
    cbn [negb]. rewrite symbol_or_back by done. cbn [mbind result_bind].
    rewrite (collect2_back_r _ _ decode_scval (has_type sp)); [|done|done|].
    + cbn [mbind result_bind]. by apply vec_of_back.
    + intros t x Hx Ht. rewrite Forall_forall in Hback. rewrite forallb_forall in Hkeyed.
      apply Hback; [done..|]. by apply Hkeyed, list_elem_of_In.
Qed.

Lemma tuple_struct_back s i l name udt :
  udts_by_name sp !! udt = Some (RefStruct i) → structs sp !! i = Some s →
  is_tuple_struct s = true →
  len_ok l && (length l =? length (s_fields s))%nat
  && zip_all (λ x f, has_type sp x (f_ty f)) l (s_fields s) = true →
  Forall back l → forallb text_keyed l = true →
  struct_to_scval (json_to_scval sp) (relabel_udt sp (decode_scval (ScvVec (Some l))) udt) s name
  = Ok (ScvVec (Some l)).
Proof.
  intros Hu Hi Htup Ht Hback Hkeyed. rewrite !andb_true_iff in Ht.
  destruct Ht as [[Hl Hlen%Nat.eqb_eq] Hz]. cbn [decode_scval].
  unfold relabel_udt, relabel_udt_with. rewrite Hu, Hi, length_fmap, Hlen, Nat.eqb_refl.
  unfold struct_to_scval. fold (is_tuple_struct s). rewrite Htup.
  cbn [as_array ok_or mbind result_bind].
  rewrite zip_map_length by (by rewrite length_fmap). rewrite length_fmap, Hlen, Nat.eqb_refl.
  cbn [negb]. rewrite (collect2_back_r _ _ decode_scval (λ x f, has_type sp x (f_ty f)));
    [|done|done|].
  - cbn [mbind result_bind]. by apply vec_of_back.
  - intros f x Hx Ht. rewrite Forall_forall in Hback. rewrite forallb_forall in Hkeyed.
    apply Hback; [done..|]. by apply Hkeyed, list_elem_of_In.
Qed.

Lemma map_struct_back s i m name udt :
  udts_by_name sp !! udt = Some (RefStruct i) → structs sp !! i = Some s → struct_ok s = true →
  is_tuple_struct s = false →
  len_ok m && keys_sorted m && (length m =? length (s_fields s))%nat
  && forallb (λ p,
       match p.1 with
       | ScvSymbol b =>
           text_ok 32 b
           && match List.find (λ f, String.eqb (f_name f) (of_bytes b)) (s_fields s) with
              | Some f => has_type sp p.2 (f_ty f)
              | None => false
              end
       | _ => false
       end) m = true →
  Forall (λ p, back p.1 ∧ back p.2) m → text_keyed (ScvMap (Some m)) = true →
  struct_to_scval (json_to_scval sp) (relabel_udt sp (decode_scval (ScvMap (Some m))) udt) s name
  = Ok (ScvMap (Some m)).
Proof.
  intros Hu Hi Hok Htup Ht Hback Hkeyed. rewrite !andb_true_iff in Ht.
  destruct Ht as [[[Hl Hsorted] Hlen%Nat.eqb_eq] Hall]. rewrite forallb_forall in Hall.
  apply andb_true_iff in Hok as [Hnd%bool_decide_eq_true_1 _].
  cbn [text_keyed] in Hkeyed. rewrite forallb_forall in Hkeyed. rewrite Forall_forall in Hback.
  assert (∀ p, p ∈ m → ∃ f, f ∈ s_fields s ∧ p.1 = ScvSymbol (bytes (f_name f))
            ∧ key_text p = f_name f ∧ text_ok 32 (bytes (f_name f)) = true
            ∧ has_type sp p.2 (f_ty f) = true ∧ back p.2 ∧ text_keyed p.2 = true
            ∧ stringy (decode_scval p.1) = true) as Hm.
  { intros p Hp. destruct (Hback p Hp) as [_ Bp]. apply list_elem_of_In in Hp.
    specialize (Hall p Hp). specialize (Hkeyed p Hp). apply andb_true_iff in Hkeyed as [Hs Hk].
    destruct p as [k x]. cbn [fst snd] in *. destruct k; try discriminate.
    apply andb_true_iff in Hall as [Hb Hall].
    destruct (List.find _ _) as [f|] eqn:Ef; [|done].
    apply find_string_eqb in Ef as [Hf Hname]. exists f. rewrite Hname, bytes_of_bytes.
    split_and!; try done. unfold key_text. cbn [fst decode_scval].
    apply text_ok_spec in Hb as [_ Hb]. by rewrite text_or_hex_text. }
  assert (NoDup (key_text <$> m)) as Hndm.
  { apply NoDup_fmap_2_strong; [|by eapply NoDup_fmap_1, keys_sorted_NoDup].
    intros p q Hp Hq Heq. apply keys_sorted_NoDup in Hsorted.
    destruct (Hm p Hp) as (f & _ & Ep & Kp & _), (Hm q Hq) as (g & _ & Eq & Kq & _).
    assert (p.1 = q.1) as E by congruence. by eapply (NoDup_fst_inj m). }
  assert (f_name <$> s_fields s ≡ₚ key_text <$> m) as Hnames.
  { symmetry. apply submseteq_length_Permutation; [|rewrite !length_fmap; lia].
    apply NoDup_submseteq; [done|]. intros n (p & -> & Hp)%list_elem_of_fmap.
    destruct (Hm p Hp) as (f & Hf & _ & -> & _). by apply list_elem_of_fmap_2. }
  apply Permutation_map_inv in Hnames as (m' & Hnames & Hperm).
  rewrite decode_text_map by (intros p Hp; by destruct (Hm p Hp) as (? & ? & ? & ? & ? & ? & ? & ? & ?)).
  unfold relabel_udt, relabel_udt_with. rewrite Hu, Hi. cbn [mk_obj].
  unfold struct_to_scval. fold (is_tuple_struct s). rewrite Htup.
  cbn [mk_obj as_object ok_or mbind result_bind].
  set (F k v := match List.find (λ f, String.eqb (f_name f) k) (s_fields s) with
                | Some f => relabel sp v (f_ty f) | None => v end).
  pose proof (relabelled_entries F m Hndm) as Hrel. unfold mk_obj.
  cbn [as_object ok_or mbind result_bind].
  set (o := bt_of_list _) in Hrel.
  assert (collect_r (λ f,
      fv ← ok_or (BadArgument name (MissingField (f_name f) (s_name s))) (bt_get (f_name f) o);
      key ← symbol_or (BadArgument name (FieldNotSymbol (f_name f))) (f_name f);
      val ← json_to_scval sp fv (f_ty f) name;
      Ok (key, val)) (s_fields s) = Ok m') as Hc.
  { apply collect_r_Ok. apply Forall2_same_length_lookup_2.
    { apply (f_equal length) in Hnames. by rewrite !length_fmap in Hnames. }
    intros j f p Hf Hp.
    assert (f_name f = key_text p) as Hfp.
    { apply (f_equal (lookup j)) in Hnames. rewrite !list_lookup_fmap, Hf, Hp in Hnames.
      by injection Hnames. }
    apply list_elem_of_lookup_2 in Hf, Hp. rewrite <- Hperm in Hp.
    destruct (Hm p Hp) as (g & Hg & Ep & Kp & Tb & Ty & Bp & Kt & _).
    assert (f = g) as <- by (eapply (NoDup_name_inj f_name); [done..|congruence]).
    assert (bt_get (f_name f) o = Some (relabel sp (decode_scval p.2) (f_ty f))) as ->.
    { apply bt_get_in; [apply bt_sorted_of_list|]. rewrite Hrel.
      apply list_elem_of_fmap. exists p. split; [|done]. rewrite <- Hfp. unfold F.
      by rewrite (find_name f_name). }
    cbn [ok_or mbind result_bind]. rewrite <- (of_bytes_bytes (f_name f)) at 2.
    rewrite symbol_or_back by done. cbn [mbind result_bind].
    rewrite Bp by done. cbn [mbind result_bind]. rewrite <- Ep. by destruct p. }
  match goal with |- context [collect_r ?g (s_fields s)] =>
    replace (collect_r g (s_fields s)) with (Ok (E := EncodeError) m') by (symmetry; exact Hc) end.
  cbn [mbind result_bind]. rewrite (sort_entries_unique m' m) by done. by apply map_of_back.
Qed.

Lemma udt_back u sv name :
  spec_ok sp → has_type sp sv (TUdt u) = true → text_keyed sv = true →
  (∀ l, sv = ScvVec (Some l) → Forall back l) →
  (∀ m, sv = ScvMap (Some m) → Forall (λ p, back p.1 ∧ back p.2) m) →
  json_to_scval sp (relabel sp (decode_scval sv) (TUdt u)) (TUdt u) name = Ok sv.
Proof.
  intros Hspec Ht Hk Hvec Hmap. rewrite relabel_udt_eq, encode_udt. unfold udt_to_scval.
  rewrite has_type_eq in Ht. destruct (udt_def sp _) as [d|] eqn:Ed; [|done].
  apply udt_def_in in Ed as Hin; [|done]. apply udt_def_ref in Ed.
  destruct d as [e|w|s]; destruct Ed as (i & Hu & Hi).
  - destruct sv; try discriminate. apply andb_true_iff in Ht as [Hn Hex].
    destruct Hin. by apply (enum_back e i).
  - destruct sv as [| | | | | | | | | | | | | | | |[[|[]]|]| | | | |]; try discriminate.
    rewrite !andb_true_iff in Ht. destruct Ht as [[Hb Hl] Hc].
    pose proof (Hvec _ eq_refl) as Hback. apply Forall_cons in Hback as [_ Hback].
    by apply (union_back w i).
  - destruct Hin as [_ Hok]. destruct (is_tuple_struct s) eqn:Etup.
    + destruct sv as [| | | | | | | | | | | | | | | |[l|]| | | | |]; try discriminate.
      by apply (tuple_struct_back s i); auto.
    + destruct sv as [| | | | | | | | | | | | | | | | |[m|]| | | |]; try discriminate.
      by apply (map_struct_back s i); auto.
Qed.

Lemma back_step sv :
  spec_ok sp →
  (∀ l, sv = ScvVec (Some l) → Forall back l) →
  (∀ m, sv = ScvMap (Some m) → Forall (λ p, back p.1 ∧ back p.2) m) →
  back sv.
Proof.
  intros Hspec Hvec Hmap t. unfold back.
  induction t as [t Ha|t IH|t e _ _|t _|k t _ _|ts _] using typedef_ind_strong;
    intros name Ht Hk.
  - destruct (is_atom t) eqn:Ea.
    + rewrite has_type_eq in Ht. rewrite relabel_eq, json_to_scval_eq.
      apply atom_back; [done|]. by destruct t.
    + destruct t; try discriminate; try done. by apply udt_back.
  - rewrite relabel_option, encode_option. rewrite has_type_eq in Ht.
    destruct (is_null (decode_scval sv)) eqn:En.
    + rewrite En. destruct sv as [| | | | | | | | | | | | | | | |[]|[]| |[]| |[]]; try discriminate; try done.
      * cbn in En. unfold text_or_hex in En. by destruct (utf8_valid _).
      * cbn in En. unfold text_or_hex in En. by destruct (utf8_valid _).
      * cbn in En. rewrite render_map_eq in En. by destruct (forallb _ _).
    + rewrite is_null_relabel, En. apply IH; [|done]. by destruct sv.
  - by rewrite has_type_eq in Ht.
  - rewrite has_type_eq in Ht.
    destruct sv as [| | | | | | | | | | | | | | | |[l|]| | | | |]; try discriminate.
    apply andb_true_iff in Ht as [Hl Ht]. cbn [decode_scval text_keyed] in Hk |- *.
    rewrite relabel_vec, encode_vec.
    assert (collect_r (λ x, json_to_scval sp x t name)
              ((λ x, relabel sp x t) <$> (decode_scval <$> l)) = Ok l) as ->.
    { rewrite <- list_fmap_compose. apply collect_r_Ok, Forall2_fmap_l, Forall_Forall2_diag.
      specialize (Hvec l eq_refl). rewrite Forall_forall in Hvec |- *.
      rewrite forallb_forall in Ht, Hk. intros x Hx. apply Hvec; [done|..];
        apply list_elem_of_In in Hx; auto. }
    cbn [mbind result_bind]. by apply vec_of_back.
  - rewrite has_type_eq in Ht.
    destruct sv as [| | | | | | | | | | | | | | | | |[m|]| | | |]; try discriminate.
    rewrite !andb_true_iff in Ht. destruct Ht as [[Hl Hs] Ht]. by apply map_back; auto.
  - rewrite has_type_eq in Ht.
    destruct sv as [| | | | | | | | | | | | | | | |[l|]| | | | |]; try discriminate.
    rewrite !andb_true_iff in Ht. destruct Ht as [[Hl Hlen%Nat.eqb_eq] Hz].
    cbn [decode_scval text_keyed] in Hk |- *.
    rewrite relabel_tuple by by rewrite length_fmap.
    rewrite encode_tuple by (rewrite zip_map_length; rewrite ?length_fmap; done).
    rewrite (collect2_back_l _ (λ t x, relabel sp x t) decode_scval (has_type sp)); [|done|done|].
    + cbn [mbind result_bind]. by apply vec_of_back.
    + specialize (Hvec l eq_refl). rewrite Forall_forall in Hvec.
      rewrite forallb_forall in Hk. intros t x Hx Htx. apply Hvec; [done..|].
      by apply Hk, list_elem_of_In.
Qed.

(** C1: results can be fed back as arguments: for every value of a declared type
    whose maps have text keys, encoding what decoding and relabelling produced
    (field names, enum case names, [{Case: [..]}] unions, decimal strings, hex)
    gives back exactly the value. *)
Theorem decode_encode_roundtrip sv ty name :
  spec_ok sp → has_type sp sv ty = true → text_keyed sv = true →
  json_to_scval sp (relabel_value sp (decode_scval sv) ty) ty name = Ok sv.
Proof.
  intros Hspec. revert ty name. change (back sv).
  induction sv as [v Hv|[l|] Hl|[m|] Hm|e o Ho] using scval_ind_strong; apply back_step;
    try done; intros x Hx; subst; try done.
  - by injection Hx as <-.
  - by injection Hx as <-.
Qed.
End roundtrip.

(** A value with every shape: a struct with an optional union and a vector of
    unions, enums inside. *)
Definition sample_book : ScVal :=
  let sym s := ScvSymbol (bytes s) in
  ScvMap (Some [
    (sym "asks", ScvVec (Some [ScvVec (Some [sym "Cancel"]);
                               ScvVec (Some [sym "Bid"; ScvU32 0; ScvI128 (-1) 5])]));
    (sym "best", ScvVec (Some [sym "Bid"; ScvU32 3; ScvI128 0 7]));
    (sym "owner", sym "alice")]).

Lemma sample_spec_ok : spec_ok sample_spec.
Proof. split; [reflexivity|]. split; repeat constructor. Qed.

Lemma decode_encode_roundtrip_witness :
  @json_to_scval sample_stellar sample_spec
    (@relabel_value sample_stellar sample_spec (@decode_scval sample_stellar sample_book) (TUdt "Book"))
    (TUdt "Book") "book" = Ok sample_book.
Proof.
  apply (@decode_encode_roundtrip sample_stellar);
    [exact sample_spec_ok|vm_compute; reflexivity|vm_compute; reflexivity].
Defined.

Lemma json_to_scval_sound_witness :
  @has_type sample_stellar sample_spec sample_book (TUdt "Book") = true.
Proof.
  apply (@json_to_scval_sound sample_stellar sample_spec
           (mk_obj [("owner", JStr "alice");
                    ("best", mk_obj [("Bid", JArr [JStr "Blue"; JInt 7])]);
                    ("asks", JArr [JStr "Cancel"; mk_obj [("Bid", JArr [JInt 0; JStr "-18446744073709551611"])]])])
           _ "book").
  - exact sample_spec_ok.
  - repeat constructor.
  - vm_compute. reflexivity.
Defined.
