(* ===== verification/Call.v ===== *)
(** * Call: simulation calls and their results

    [encode_call], [build_read_tx], [decode_result] and [decode_events] of
    [lumenqraph-core/src/read.rs]. *)
From S2P Require Import Prelude Text Containers Values Instances XdrDecode Limbs Spec Enrich Encode RoundTrip.
From Stdlib Require Import Ascii.

Local Open Scope Z_scope.

(** ** Transactions: data of [stellar_xdr] *)

Inductive MuxedAccount : Type :=
  | MuxEd25519 (key : list ascii)
  | MuxMuxed (id : Z) (key : list ascii).

Record InvokeContractArgs := {
  contract_address : ScAddress;
  function_name : list ascii;
  args : list ScVal;
}.

(** One [InvokeHostFunction] operation without a source account and with an
    empty authorization list. *)
Record Operation := { op_source : option MuxedAccount; op_invoke : InvokeContractArgs; op_auth : list unit }.

(** The preconditions, memo and extension are the empty ones. *)
Record Transaction := {
  tx_source : MuxedAccount;
  tx_fee : Z;
  tx_seq_num : Z;
  tx_operations : list Operation;
}.

Record EncodedCall := {
  tx_xdr : string;
  output_type : string;
  output_ty : option ScSpecTypeDef;
}.

Definition ZERO_ACCOUNT : list ascii := replicate 32 (byte_of 0).

(** ** Simulation events: data of [stellar_xdr] *)

Inductive ContractEventType : Type := EvSystem | EvContract | EvDiagnostic.

Record DiagnosticEvent := {
  de_contract_id : option (list ascii);
  de_type : ContractEventType;
  de_topics : list ScVal;
  de_data : ScVal;
}.

Section call.
Context `{Stellar}.

(** From the [stellar_xdr] crate: account parsing, the error texts, the
    serialisation of an envelope (unsigned, V1), and the parsing of events. *)
Variable muxed_account_from_str : string → result string MuxedAccount.
Variable public_key_from_str : string → result string (list ascii).
Variable address_error : string → string.
Variable length_error : string.
Variable to_xdr_base64 : Transaction → result string string.
Variable diagnostic_from_xdr : Z → Z → string → option DiagnosticEvent.
Variable base64_decode : string → option (list ascii).
Variable read_xdr_scval : list ascii → option (ScVal * list ascii).
Variable read_xdr_iter : Z → Z → list ascii → list (result string ScSpecEntry).

Definition parse_source_account (s : string) : result string MuxedAccount :=
  if starts_with "M" s then muxed_account_from_str s
  else k ← public_key_from_str s; Ok (MuxEd25519 k).

Definition build_read_tx (contract_id function : string) (scvals : list ScVal)
    (source_account : option string) : result string string :=
  source ← match source_account with
           | Some s => parse_source_account s
           | None => Ok (MuxEd25519 ZERO_ACCOUNT)
           end;
  address ← ok_or (address_error contract_id) (sc_address_from_str contract_id);
  fn ← ok_or length_error (try_into_m 32 (bytes function));
  scvals ← ok_or length_error (try_into_m U32_MAX scvals);
  to_xdr_base64 {|
    tx_source := source; tx_fee := 0; tx_seq_num := 0;
    tx_operations := [{| op_source := None; op_auth := [];
                         op_invoke := {| contract_address := address; function_name := fn;
                                         args := scvals |} |}];
  |}.

(** The shape check that precedes the encoding. *)
Definition check_shape (inputs : list Field) (a : Json) : result EncodeError unit :=
  match a with
  | JObj m =>
      let param_names := f_name <$> inputs in
      match List.find (λ k, negb (existsb (String.eqb k) param_names)) m.*1 with
      | Some key => Err (UnknownArgument key (did_you_mean key param_names))
      | None => Ok tt
      end
  | JArr l =>
      if negb (length l =? length inputs)%nat
      then Err (WrongArity (length inputs) (length l)) else Ok tt
  | _ => Ok tt
  end.

(** The argument of the [i]-th parameter. *)
Definition argument (a : Json) (i : nat) (input : Field) : option Json :=
  match a with
  | JObj m => bt_get (f_name input) m
  | JArr l => l !! i
  | _ => None
  end.

Definition encode_args (sp : ContractSpec) (inputs : list Field) (a : Json) : result EncodeError (list ScVal) :=
  collect_r (λ '(i, input),
    jv ← ok_or (MissingArgument (f_name input)) (argument a i input);
    json_to_scval sp jv (f_ty input) (f_name input)) (enumerate inputs).

Definition encode_call_with_spec (sp : ContractSpec) (contract_id fname : string) (a : Json)
    (source_account : option string) : result EncodeError EncodedCall :=
  func ← ok_or (FunctionNotFound fname) (function sp fname);
  _ ← check_shape (fs_inputs func) a;
  scvals ← encode_args sp (fs_inputs func) a;
  let oty := head (fs_output_tys func) in
  let otype := default "void" (type_name <$> oty) in
  tx ← map_err Build (build_read_tx contract_id fname scvals source_account);
  Ok {| tx_xdr := tx; output_type := otype; output_ty := oty |}.

Definition encode_call (spec_section : list ascii) (contract_id fname : string) (a : Json)
    (source_account : option string) : result EncodeError EncodedCall :=
  match from_spec_xdr_simple read_xdr_iter spec_section with
  | Some sp => encode_call_with_spec sp contract_id fname a source_account
  | None => Err (FunctionNotFound fname)
  end.

Definition read_functions (spec_section : list ascii) : list Json :=
  match from_spec_xdr_simple read_xdr_iter spec_section with
  | Some sp => functions_of sp
  | None => []
  end.

Definition decode_result (result_xdr : string) (call : EncodedCall) (sp : option ContractSpec) : Json :=
  let value := decode_scval_base64 base64_decode read_xdr_scval result_xdr in
  let value := match sp, output_ty call with
               | Some sp, Some ty => relabel_value sp value ty
               | _, _ => value
               end in
  mk_obj [("type", JStr (output_type call)); ("value", value)].

Definition scval_to_json (sv : ScVal) : Json := decode_scval sv.

(** [json!] of an optional string. *)
Definition opt_str (o : option string) : Json := match o with Some s => JStr s | None => JNull end.

(** One turn of the loop over the simulated events; [None] is [continue]. *)
Definition decode_event (order : gmap (list string) nat → list (list string * nat))
    (target_contract : string) (sp : option ContractSpec) (b64 : string) : option Json :=
  diag ← diagnostic_from_xdr 500 (Z.max (Z.of_nat (String.length b64)) 1 * 3 / 4 + 16) b64;
  kind ← match de_type diag with
         | EvContract => Some "contract"
         | EvSystem => Some "system"
         | EvDiagnostic => None
         end;
  let contract_id := (λ c, sc_address_to_string (AddrContract c)) <$> de_contract_id diag in
  let topics := scval_to_json <$> de_topics diag in
  let data := scval_to_json (de_data diag) in
  let event_name := t ← head topics; as_str t in
  let enriched :=
    match sp, event_name, contract_id with
    | Some sp, Some name, Some cid =>
        if String.eqb cid target_contract then enrich_event sp order name topics data else None
    | _, _, _ => None
    end in
  Some (mk_obj [
    ("contract_id", opt_str contract_id);
    ("type", JStr kind);
    ("event", opt_str event_name);
    ("topics", JArr topics);
    ("data", data);
    ("enriched", default JNull enriched)]).

Definition decode_events (order : gmap (list string) nat → list (list string * nat))
    (events_xdr : list string) (target_contract : string) (sp : option ContractSpec) : list Json :=
  omap (decode_event order target_contract sp) events_xdr.

(** ** Theorems *)

Lemma enumerate_lookup {A} (l : list A) i : enumerate l !! i = pair i <$> l !! i.
Proof. unfold enumerate. apply list_lookup_imap. Qed.

Lemma encode_args_Ok sp inputs a vals :
  encode_args sp inputs a = Ok vals →
  length vals = length inputs ∧
  ∀ i input, inputs !! i = Some input → ∃ jv sv,
    argument a i input = Some jv ∧ vals !! i = Some sv
    ∧ json_to_scval sp jv (f_ty input) (f_name input) = Ok sv.
Proof.
  intros Hc. apply collect_r_Ok in Hc. split.
  { apply Forall2_length in Hc. rewrite <- Hc. unfold enumerate. by rewrite length_imap. }
  intros i input Hi.
  assert (enumerate inputs !! i = Some (i, input)) as He by by rewrite enumerate_lookup, Hi.
  destruct (Forall2_lookup_l _ _ _ _ _ Hc He) as (sv & Hsv & Henc). cbn beta iota in Henc.
  destruct (argument a i input) as [jv|]; [|discriminate]. eauto 6.
Qed.

(** C8: a call is encoded only when the function is declared, an argument object
    names declared parameters only and a positional array has the exact arity;
    then the transaction handed to the serialiser is one unsigned fee-less
    invocation of that function on that contract, whose arguments are, in
    declared order, values of the declared parameter types. *)
Theorem encode_call_correct sp contract_id fname a source call :
  spec_ok sp → json_wf a →
  encode_call_with_spec sp contract_id fname a source = Ok call →
  ∃ func address vals src,
    function sp fname = Some func
    ∧ match a with
      | JObj m => ∀ k, k ∈ m.*1 → k ∈ f_name <$> fs_inputs func
      | JArr l => length l = length (fs_inputs func)
      | _ => fs_inputs func = []
      end
    ∧ length vals = length (fs_inputs func)
    ∧ (∀ i input, fs_inputs func !! i = Some input →
        ∃ sv, vals !! i = Some sv ∧ has_type sp sv (f_ty input) = true)
    ∧ sc_address_from_str contract_id = Some address
    ∧ to_xdr_base64 {| tx_source := src; tx_fee := 0; tx_seq_num := 0;
        tx_operations := [{| op_source := None; op_auth := [];
          op_invoke := {| contract_address := address; function_name := bytes fname;
                          args := vals |} |}] |} = Ok (tx_xdr call)
    ∧ output_ty call = head (fs_output_tys func).
Proof.
  intros Hspec Ha Hc. unfold encode_call_with_spec in Hc.
  destruct (function sp fname) as [func|] eqn:Ef; [|discriminate]. cbn [ok_or mbind result_bind] in Hc.
  destruct (check_shape (fs_inputs func) a) as [[]|] eqn:Es; [|discriminate].
  cbn [mbind result_bind] in Hc.
  destruct (encode_args sp (fs_inputs func) a) as [vals|] eqn:Ev; [|discriminate].
  cbn [mbind result_bind] in Hc. cbv zeta in Hc.
  destruct (build_read_tx contract_id fname vals source) as [tx|] eqn:Eb; [|discriminate].
  injection Hc as <-. apply encode_args_Ok in Ev as [Hlen Hargs].
  unfold build_read_tx in Eb.
  destruct (match source with Some s => _ | None => _ end) as [src|]; [|discriminate].
  cbn [mbind result_bind] in Eb.
  destruct (sc_address_from_str contract_id) as [address|] eqn:Eaddr; [|discriminate].
  cbn [ok_or mbind result_bind] in Eb.
  destruct (try_into_m 32 (bytes fname)) as [fn|] eqn:Efn; [|discriminate].
  apply try_into_m_Some in Efn as [-> _]. cbn [ok_or mbind result_bind] in Eb.
  destruct (try_into_m U32_MAX vals) as [vals'|] eqn:Evs; [|discriminate].
  apply try_into_m_Some in Evs as [-> _]. cbn [ok_or mbind result_bind] in Eb.
  exists func, address, vals, src. split_and!; try done.
  - unfold check_shape in Es. destruct a; try (destruct (fs_inputs func) as [|input ins]; [done|];
      destruct (Hargs 0%nat input eq_refl) as (? & ? & Hno & _); discriminate Hno).
    + destruct (Nat.eqb_spec (length l) (length (fs_inputs func))); [done|discriminate].
    + destruct (List.find _ _) eqn:Efind; [discriminate|]. intros k Hk.
      apply list_elem_of_In in Hk. pose proof (List.find_none _ _ Efind k Hk) as Hn.
      apply negb_false_iff, existsb_exists in Hn as (n & Hn & ->%String.eqb_eq).
      by apply list_elem_of_In.
  - intros i input Hi. destruct (Hargs i input Hi) as (jv & sv & Hjv & Hsv & Henc).
    exists sv. split; [done|]. eapply (encoded_at_depth _ (S (jdepth jv))); [apply Nat.lt_succ_diag_r|done| |exact Henc].
    unfold argument in Hjv. destruct a; try discriminate.
    + apply list_elem_of_lookup_2 in Hjv. by eapply json_wf_elem.
    + apply bt_get_Some_in in Hjv. by apply json_wf_entry in Hjv as [? _].
Qed.
End call.

Definition sample_args : Json :=
  mk_obj [("limit", JStr "5");
          ("book", mk_obj [("owner", JStr "alice"); ("best", JNull); ("asks", JArr [])])].

Lemma encode_call_correct_witness :
  ∃ call func,
    @encode_call_with_spec sample_stellar (λ _, Err "no") (λ _, Err "no") (λ s, s) "too long"
      (λ tx, Ok "AAAA") sample_spec (@sc_address_to_string sample_stellar (AddrContract ZERO_ACCOUNT))
      "place" sample_args None = Ok call
    ∧ function sample_spec "place" = Some func ∧ output_ty call = head (fs_output_tys func).
Proof.
  eexists _. edestruct (@encode_call_correct sample_stellar (λ _, Err "no") (λ _, Err "no") (λ s, s)
    "too long" (λ tx, Ok "AAAA") sample_spec
    (@sc_address_to_string sample_stellar (AddrContract ZERO_ACCOUNT)) "place" sample_args None)
    as (func & _ & _ & _ & Hf & _ & _ & _ & _ & _ & Ho).
  - exact sample_spec_ok.
  - repeat constructor.
  - vm_compute. reflexivity.
  - exists func. split; [vm_compute; reflexivity|]. split; [exact Hf|exact Ho].
Defined.
