(* ===== verification/Diff.v ===== *)
(** * Diff: the semantic difference of two interfaces

    [lumenqraph-core/src/diff.rs]: what an upgrade added, removed, changed or
    reordered, and how severe that is. *)
From S2P Require Import Prelude Text Containers Values Spec.
From Stdlib Require Import Ascii.

Local Open Scope Z_scope.

(** ** Data *)

Inductive Severity : Type := Additive | PotentiallyBreaking | Breaking.

Record ChangedItem := { ch_name : string; ch_from : string; ch_to : string; ch_severity : Severity }.
Record ReorderedItem := { re_name : string; re_from : string; re_to : string; re_severity : Severity }.
Record PotentiallyBreakingItem := {
  pb_name : string; pb_from : string; pb_to : string; pb_severity : Severity; pb_description : string;
}.

Record SectionDiff := {
  added : list string;
  removed : list string;
  changed : list ChangedItem;
  reordered : list ReorderedItem;
  potentially_breaking : list PotentiallyBreakingItem;
}.

Record SpecDiff := {
  breaking : bool;
  max_severity : Severity;
  summary : list string;
  d_functions : SectionDiff;
  d_events : SectionDiff;
  d_types : SectionDiff;
}.

Definition empty_section : SectionDiff :=
  {| added := []; removed := []; changed := []; reordered := []; potentially_breaking := [] |}.

(** [#[derive(PartialOrd, Ord)]]: the order of declaration. *)
Definition severity_rank (s : Severity) : nat :=
  match s with Additive => 0 | PotentiallyBreaking => 1 | Breaking => 2 end.
Definition severity_max (a b : Severity) : Severity :=
  if (severity_rank b <? severity_rank a)%nat then a else b.

Definition section_is_empty (d : SectionDiff) : bool :=
  is_empty (added d) && is_empty (removed d) && is_empty (changed d)
  && is_empty (reordered d) && is_empty (potentially_breaking d).

Definition has_breaking (d : SectionDiff) : bool :=
  negb (is_empty (removed d)) || negb (is_empty (changed d)) || negb (is_empty (reordered d)).

Definition section_max_severity (d : SectionDiff) : Severity :=
  if has_breaking d then Breaking
  else if negb (is_empty (potentially_breaking d)) then PotentiallyBreaking
  else if negb (is_empty (added d)) then Additive
  else Additive.

(** ** Signatures *)

Definition field_token (f : Field) : string := f_name f +:+ ": " +:+ f_type_name f.

Definition output_sig (outputs : list string) : string :=
  match outputs with
  | [] => "void"
  | [one] => one
  | many => "(" +:+ join ", " many +:+ ")"
  end.

Definition function_sig (f : FunctionSpec) : string :=
  fs_name f +:+ "(" +:+ join ", " (field_token <$> fs_inputs f) +:+ ") -> " +:+ output_sig (fs_outputs f).

Definition function_sigs (s : ContractSpec) : list (string * string) * list (string * list string) :=
  (bt_of_list ((λ f, (fs_name f, function_sig f)) <$> functions s),
   bt_of_list ((λ f, (fs_name f, field_token <$> fs_inputs f)) <$> functions s)).

Definition param_token (p : EventParam) : string :=
  p_name p +:+ ": " +:+ p_type_name p +:+ " @" +:+ p_location p.

Definition event_sig (e : EventSpec) : string :=
  e_name e +:+ "(" +:+ join ", " (param_token <$> e_params e) +:+ ") [" +:+ e_data_format e +:+ "]".

Definition event_sigs (s : ContractSpec) : list (string * string) :=
  bt_of_list ((λ e, (e_name e, event_sig e)) <$> events s).

Definition braces (head : string) (items : list string) : string :=
  head +:+ " { " +:+ join ", " items +:+ " }".

Definition struct_sig (s : UdtStruct) : string :=
  braces ("struct " +:+ s_name s) (field_token <$> s_fields s).

Definition case_token (c : UnionCase) : string :=
  if is_empty (c_type_names c) then c_name c
  else c_name c +:+ "(" +:+ join ", " (c_type_names c) +:+ ")".

Definition union_sig (u : UdtUnion) : string :=
  braces ("union " +:+ u_name u) (case_token <$> u_cases u).

Definition value_token (name : string) (value : Z) : string := name +:+ " = " +:+ show_u value.

Definition enum_sig (e : UdtEnum) : string :=
  braces ("enum " +:+ n_name e) ((λ c, value_token c.1 c.2) <$> n_cases e).

Definition error_sig (e : UdtErrorEnum) : string :=
  braces ("error enum " +:+ xe_name e) ((λ c, value_token (x_name c) (x_code c)) <$> xe_cases e).

(** The four kinds are inserted in this order into one map. *)
Definition type_entries (s : ContractSpec) : list (string * string) :=
  ((λ t, (s_name t, struct_sig t)) <$> structs s)
  ++ ((λ u, (u_name u, union_sig u)) <$> unions s)
  ++ ((λ e, (n_name e, enum_sig e)) <$> enums s)
  ++ ((λ e, (xe_name e, error_sig e)) <$> errors s).

Definition type_sigs (s : ContractSpec) : list (string * string) := bt_of_list (type_entries s).

(** ** Comparing two sections *)

(** Same tokens in another order, by comparing the sorted vectors. *)
Definition is_param_reorder (old new : list string) : bool :=
  if negb (length old =? length new)%nat || bool_decide (old = new) then false
  else bool_decide (sort_by tcmp old = sort_by tcmp new).

(** One name of the loop. *)
Definition diff_name (old new : list (string * string)) (old_params new_params : list (string * list string))
    (d : SectionDiff) (name : string) : SectionDiff :=
  match bt_get name old, bt_get name new with
  | Some before, Some after =>
      if bool_decide (before = after) then d
      else
        let reorder := match bt_get name old_params, bt_get name new_params with
                       | Some op, Some np => is_param_reorder op np
                       | _, _ => false
                       end in
        if reorder then
          {| added := added d; removed := removed d; changed := changed d;
             reordered := reordered d ++ [{| re_name := name; re_from := before; re_to := after;
                                             re_severity := Breaking |}];
             potentially_breaking := potentially_breaking d |}
        else
          {| added := added d; removed := removed d; reordered := reordered d;
             changed := changed d ++ [{| ch_name := name; ch_from := before; ch_to := after;
                                         ch_severity := Breaking |}];
             potentially_breaking := potentially_breaking d |}
  | Some before, None =>
      {| added := added d; removed := removed d ++ [before]; changed := changed d;
         reordered := reordered d; potentially_breaking := potentially_breaking d |}
  | None, Some after =>
      {| added := added d ++ [after]; removed := removed d; changed := changed d;
         reordered := reordered d; potentially_breaking := potentially_breaking d |}
  | None, None => d
  end.

Definition diff_section_with_params (old new : list (string * string))
    (old_params new_params : list (string * list string)) : SectionDiff :=
  foldl (diff_name old new old_params new_params) empty_section (bt_keys_union old new).

Definition diff_section (old new : list (string * string)) : SectionDiff :=
  diff_section_with_params old new [] [].

(** *** Reclassification *)

Definition find_event (s : ContractSpec) (name : string) : option EventSpec :=
  List.find (λ e, String.eqb (e_name e) name) (events s).

Definition same_param (o n : EventParam) : bool :=
  String.eqb (p_name o) (p_name n) && String.eqb (p_type_name o) (p_type_name n)
  && String.eqb (p_location o) (p_location n).

Definition map_event_added_fields (old new : EventSpec) : option string :=
  if negb (String.eqb (e_data_format old) (e_data_format new)) then None
  else if negb (eq_ignore_ascii_case (e_data_format new) "map") then None
  else if (length (e_params new) <=? length (e_params old))%nat then None
  else if negb (zip_all same_param (e_params old) (e_params new)) then None
  else
    let added := (λ p, if negb (eq_ignore_ascii_case (p_location p) "data") then EmptyString
                       else p_name p) <$> drop (length (e_params old)) (e_params new) in
    if existsb (String.eqb EmptyString) added then None
    else Some ("added field(s) " +:+ join ", " added).

Definition added_cases_only (old new : ContractSpec) (name : string) : option string :=
  match List.find (λ u, String.eqb (u_name u) name) (unions old),
        List.find (λ u, String.eqb (u_name u) name) (unions new) with
  | Some o, Some n =>
      if (length (u_cases o) <? length (u_cases n))%nat
         && zip_all (λ a b, String.eqb (c_name a) (c_name b)
                            && bool_decide (c_type_names a = c_type_names b)) (u_cases o) (u_cases n)
      then Some ("added case(s) " +:+ join ", " (c_name <$> drop (length (u_cases o)) (u_cases n)))
      else None
  | _, _ =>
      match List.find (λ e, String.eqb (n_name e) name) (enums old),
            List.find (λ e, String.eqb (n_name e) name) (enums new) with
      | Some o, Some n =>
          if (length (n_cases o) <? length (n_cases n))%nat
             && zip_all (λ a b, bool_decide (a = b)) (n_cases o) (n_cases n)
          then Some ("added case(s) " +:+ join ", " (fst <$> drop (length (n_cases o)) (n_cases n)))
          else None
      | _, _ => None
      end
  end.

(** The loop over [diff.changed.drain(..)] that both sections share:
    [describe] says when a change is only potentially breaking. *)
Definition reclassify (describe : string → option string) (d : SectionDiff) : SectionDiff :=
  let '(pb, still) := foldl (λ '(pb, still) item,
    match describe (ch_name item) with
    | Some description =>
        (pb ++ [{| pb_name := ch_name item; pb_from := ch_from item; pb_to := ch_to item;
                   pb_severity := PotentiallyBreaking; pb_description := description |}], still)
    | None => (pb, still ++ [item])
    end) (potentially_breaking d, []) (changed d) in
  {| added := added d; removed := removed d; changed := still; reordered := reordered d;
     potentially_breaking := pb |}.

Definition describe_event (old new : ContractSpec) (name : string) : option string :=
  match find_event old name, find_event new name with
  | Some before, Some after => map_event_added_fields before after
  | _, _ => None
  end.

Definition diff_events (old new : ContractSpec) : SectionDiff :=
  reclassify (describe_event old new) (diff_section (event_sigs old) (event_sigs new)).

Definition diff_types (old new : ContractSpec) : SectionDiff :=
  reclassify (added_cases_only old new) (diff_section (type_sigs old) (type_sigs new)).

Definition diff_functions (old new : ContractSpec) : SectionDiff :=
  let '(old_fsigs, old_fparams) := function_sigs old in
  let '(new_fsigs, new_fparams) := function_sigs new in
  diff_section_with_params old_fsigs new_fsigs old_fparams new_fparams.

(** ** The whole difference *)

Definition section_summary (kind : string) (d : SectionDiff) : list string :=
  ((λ sig, "removed " +:+ kind +:+ " " +:+ sig) <$> removed d)
  ++ ((λ i, "changed " +:+ kind +:+ " " +:+ ch_name i +:+ ": " +:+ ch_from i +:+ " became " +:+ ch_to i)
      <$> changed d)
  ++ ((λ i, "reordered " +:+ kind +:+ " " +:+ re_name i +:+ ": " +:+ re_from i +:+ " became " +:+ re_to i)
      <$> reordered d)
  ++ ((λ i, "potentially breaking " +:+ kind +:+ " " +:+ pb_name i +:+ ": " +:+ pb_description i)
      <$> potentially_breaking d)
  ++ ((λ sig, "added " +:+ kind +:+ " " +:+ sig) <$> added d).

Definition build_summary (fs evs ts : SectionDiff) : list string :=
  section_summary "function" fs ++ section_summary "event" evs ++ section_summary "type" ts.

Definition between (old new : ContractSpec) : SpecDiff :=
  let fs := diff_functions old new in
  let evs := diff_events old new in
  let ts := diff_types old new in
  {| breaking := has_breaking fs || has_breaking evs || has_breaking ts;
     max_severity := severity_max (severity_max (section_max_severity fs) (section_max_severity evs))
                       (section_max_severity ts);
     summary := build_summary fs evs ts;
     d_functions := fs; d_events := evs; d_types := ts |}.

Definition diff_is_empty (d : SpecDiff) : bool :=
  section_is_empty (d_functions d) && section_is_empty (d_events d) && section_is_empty (d_types d).

(** [json!(self)] through the derived [Serialize]. *)
Definition severity_json (s : Severity) : Json :=
  JStr match s with
       | Additive => "additive" | PotentiallyBreaking => "potentially_breaking" | Breaking => "breaking"
       end.

Definition section_json (d : SectionDiff) : Json := mk_obj [
  ("added", JArr (JStr <$> added d));
  ("removed", JArr (JStr <$> removed d));
  ("changed", JArr ((λ i, mk_obj [("name", JStr (ch_name i)); ("from", JStr (ch_from i));
                                  ("to", JStr (ch_to i)); ("severity", severity_json (ch_severity i))])
                    <$> changed d));
  ("reordered", JArr ((λ i, mk_obj [("name", JStr (re_name i)); ("from", JStr (re_from i));
                                    ("to", JStr (re_to i)); ("severity", severity_json (re_severity i))])
                      <$> reordered d));
  ("potentially_breaking",
     JArr ((λ i, mk_obj [("name", JStr (pb_name i)); ("from", JStr (pb_from i));
                         ("to", JStr (pb_to i)); ("severity", severity_json (pb_severity i));
                         ("description", JStr (pb_description i))]) <$> potentially_breaking d))].

Definition to_json (d : SpecDiff) : Json := mk_obj [
  ("breaking", JBool (breaking d));
  ("max_severity", severity_json (max_severity d));
  ("summary", JArr (JStr <$> summary d));
  ("functions", section_json (d_functions d));
  ("events", section_json (d_events d));
  ("types", section_json (d_types d))].

(** ** Lemmas: one section *)

Lemma bt_keys_union_in {V W} (m : list (string * V)) (n : list (string * W)) k :
  k ∈ bt_keys_union m n ↔ is_Some (bt_get k m) ∨ is_Some (bt_get k n).
Proof.
  unfold bt_keys_union. rewrite bt_of_list_keys, <- list_fmap_compose.
  rewrite (list_fmap_ext (fst ∘ (λ k, (k, ()))) id) by done. rewrite list_fmap_id, elem_of_app.
  rewrite <- !not_eq_None_Some, !bt_get_None. split; [tauto|].
  intros [Hk|Hk]; apply dec_stable in Hk; auto.
Qed.

Section section_lemmas.
Variables (old new : list (string * string)) (op np : list (string * list string)).

Definition name_added (name : string) : option string :=
  match bt_get name old, bt_get name new with None, Some a => Some a | _, _ => None end.
Definition name_removed (name : string) : option string :=
  match bt_get name old, bt_get name new with Some b, None => Some b | _, _ => None end.
Definition name_reorders (name : string) : bool :=
  match bt_get name op, bt_get name np with Some o, Some n => is_param_reorder o n | _, _ => false end.
Definition name_moved (reorder : bool) (name : string) : option (string * string) :=
  match bt_get name old, bt_get name new with
  | Some b, Some a =>
      if bool_decide (b = a) then None
      else if Bool.eqb (name_reorders name) reorder then Some (b, a) else None
  | _, _ => None
  end.

Definition changed_of (name : string) : option ChangedItem :=
  (λ p, {| ch_name := name; ch_from := p.1; ch_to := p.2; ch_severity := Breaking |})
    <$> name_moved false name.
Definition reordered_of (name : string) : option ReorderedItem :=
  (λ p, {| re_name := name; re_from := p.1; re_to := p.2; re_severity := Breaking |})
    <$> name_moved true name.

(** The loop, section by section of its result. *)
Lemma diff_section_eq :
  diff_section_with_params old new op np =
    let names := bt_keys_union old new in
    {| added := omap name_added names; removed := omap name_removed names;
       changed := omap changed_of names; reordered := omap reordered_of names;
       potentially_breaking := [] |}.
Proof.
  unfold diff_section_with_params. cbv zeta. generalize (bt_keys_union old new) as names.
  induction names as [|name names IH] using rev_ind; [done|].
  rewrite foldl_app, IH, !omap_app. cbn [foldl omap list_omap].
  unfold diff_name, changed_of, reordered_of, name_added, name_removed, name_moved, name_reorders.
  cbn [added removed changed reordered potentially_breaking].
  destruct (bt_get name old) as [b|], (bt_get name new) as [a|]; cbn; rewrite ?app_nil_r; try done.
  case_bool_decide; cbn; rewrite ?app_nil_r; try done.
  destruct (match bt_get name op with Some _ => _ | None => _ end); cbn; rewrite ?app_nil_r; done.
Qed.
End section_lemmas.

Lemma omap_nil {A B} (f : A → option B) l : omap f l = [] ↔ ∀ x, x ∈ l → f x = None.
Proof.
  induction l as [|x l IH]; cbn; [split; [by intros _ y ?%elem_of_nil|done]|].
  destruct (f x) eqn:E.
  - split; [done|]. intros Hall. specialize (Hall x ltac:(constructor)). congruence.
  - rewrite IH. split; intros Hall.
    + intros y [->|Hy]%elem_of_cons; auto.
    + intros y Hy. apply Hall. by constructor.
Qed.

Lemma is_empty_nil {A} (l : list A) : is_empty l = true ↔ l = [].
Proof. by destruct l. Qed.

Lemma negb_is_empty {A} (l : list A) : negb (is_empty l) = false ↔ l = [].
Proof. by destruct l. Qed.

Lemma reclassify_eq describe d :
  reclassify describe d =
    {| added := added d; removed := removed d; reordered := reordered d;
       changed := List.filter (λ i, negb (bool_decide (is_Some (describe (ch_name i))))) (changed d);
       potentially_breaking := potentially_breaking d ++
         omap (λ i, (λ description,
                 {| pb_name := ch_name i; pb_from := ch_from i; pb_to := ch_to i;
                    pb_severity := PotentiallyBreaking; pb_description := description |})
               <$> describe (ch_name i)) (changed d) |}.
Proof.
  unfold reclassify.
  match goal with |- context [foldl ?f (?pb, []) ?l] =>
    assert (∀ still, foldl f (pb, still) l
      = (pb ++ omap (λ i, (λ description,
              {| pb_name := ch_name i; pb_from := ch_from i; pb_to := ch_to i;
                 pb_severity := PotentiallyBreaking; pb_description := description |})
            <$> describe (ch_name i)) l,
         still ++ List.filter (λ i, negb (bool_decide (is_Some (describe (ch_name i))))) l)) as Hfold
  end.
  { generalize (potentially_breaking d) as pb. induction (changed d) as [|i l IH]; intros pb still.
    - cbn. by rewrite !app_nil_r.
    - cbn [foldl omap list_omap List.filter]. destruct (describe (ch_name i)) as [s|] eqn:E.
      + rewrite IH, bool_decide_eq_true_2 by by eexists. cbn. by rewrite <- app_assoc.
      + rewrite IH, bool_decide_eq_false_2 by by intros [? ?]. cbn. by rewrite <- app_assoc. }
  by rewrite Hfold.
Qed.

Lemma reclassify_none d : has_breaking (reclassify (λ _, None) d) = has_breaking d.
Proof.
  rewrite reclassify_eq. unfold has_breaking. cbn [removed changed reordered].
  assert (∀ l : list ChangedItem,
    List.filter (λ _, negb (bool_decide (is_Some (@None string)))) l = l) as Hl.
  { induction l as [|i l IH]; cbn; [done|]. by f_equal. }
  by rewrite Hl.
Qed.

(** A section breaks nothing exactly when every old item keeps its signature, or
    its change is described as an extension. *)
Lemma section_not_breaking describe old new op np :
  has_breaking (reclassify describe (diff_section_with_params old new op np)) = false ↔
  ∀ name before, bt_get name old = Some before →
    bt_get name new = Some before
    ∨ (is_Some (bt_get name new) ∧ is_Some (describe name) ∧ name_reorders op np name = false).
Proof.
  rewrite reclassify_eq, diff_section_eq. unfold has_breaking.
  cbn [removed changed reordered]. rewrite !orb_false_iff, !negb_is_empty.
  assert (List.filter (λ i, negb (bool_decide (is_Some (describe (ch_name i)))))
            (omap (changed_of old new op np) (bt_keys_union old new)) = []
          ↔ ∀ name, name ∈ bt_keys_union old new →
              name_moved old new op np false name = None ∨ is_Some (describe name)) as ->.
  { induction (bt_keys_union old new) as [|x l IH]; cbn.
    - split; [by intros _ y ?%elem_of_nil|done].
    - unfold changed_of at 1. destruct (name_moved old new op np false x) as [p|] eqn:E; cbn.
      + case_bool_decide as Hd; cbn; [rewrite IH|]; split.
        * intros Hall y [->|Hy]%elem_of_cons; auto.
        * intros Hall y Hy. apply Hall. by constructor.
        * discriminate.
        * intros Hall. destruct (Hall x ltac:(constructor)) as [?|?]; [congruence|done].
      + rewrite IH. split.
        * intros Hall y [->|Hy]%elem_of_cons; auto.
        * intros Hall y Hy. apply Hall. by constructor. }
  rewrite !omap_nil. unfold reordered_of, name_moved, name_removed.
  split.
  - intros [[Hrem Hch] Hre] name before Hb.
    assert (name ∈ bt_keys_union old new) as Hin by (apply bt_keys_union_in; left; by eexists).
    specialize (Hrem name Hin). specialize (Hch name Hin). specialize (Hre name Hin).
    cbn beta in *. rewrite Hb in *. destruct (bt_get name new) as [after|]; [|done].
    case_bool_decide as Heq; [subst; by left|]. right. split; [by eexists|].
    destruct (name_reorders op np name); cbn in *; [done|].
    destruct Hch as [?|?]; [done|]. done.
  - intros Hall.
    assert (∀ name, name ∈ bt_keys_union old new → ∀ b, bt_get name old = Some b →
      ∃ a, bt_get name new = Some a
           ∧ (a = b ∨ is_Some (describe name) ∧ name_reorders op np name = false)) as Hkeep.
    { intros name _ b Hb. destruct (Hall name b Hb) as [Ha|([a Ha] & Hd & Hr)]; eauto. }
    split; [split|]; intros name Hin; cbn beta;
      destruct (bt_get name old) as [b|] eqn:Eb; try done;
      try (by left);
      destruct (Hkeep name Hin b Eb) as (a & -> & Ha); try done.
    + case_bool_decide; [by left|]. destruct Ha as [->|[? ?]]; [done|by right].
    + case_bool_decide; [done|]. destruct Ha as [->|[? ->]]; [done|]. done.
Qed.

(** ** Lemmas: extensions *)

(** [n] is [o] with more data fields after the old parameters of a map body. *)
Definition event_extends (o n : EventSpec) : Prop :=
  e_data_format o = e_data_format n ∧ eq_ignore_ascii_case (e_data_format n) "map" = true
  ∧ ∃ old_params extra,
      e_params n = old_params ++ extra ∧ extra ≠ []
      ∧ Forall2 (λ p q, p_name p = p_name q ∧ p_type_name p = p_type_name q
                        ∧ p_location p = p_location q) (e_params o) old_params
      ∧ Forall (λ p, eq_ignore_ascii_case (p_location p) "data" = true ∧ p_name p ≠ EmptyString) extra.

Lemma zip_all_prefix {A B} (f : A → B → bool) l k :
  (length l < length k)%nat →
  zip_all f l k = true ↔ Forall2 (λ x y, f x y = true) l (take (length l) k).
Proof.
  revert k; induction l as [|x l IH]; intros [|y k] Hlen; simpl in *; [lia| |lia|].
  - split; [constructor|done].
  - rewrite andb_true_iff, IH by lia. split; [intros [? ?]; by constructor|by inversion 1].
Qed.

Lemma map_event_added_fields_spec o n :
  is_Some (map_event_added_fields o n) ↔ event_extends o n.
Proof.
  unfold map_event_added_fields, event_extends.
  destruct (String.eqb_spec (e_data_format o) (e_data_format n)) as [Hf|Hf]; cbn [negb].
  2:{ split; [by intros [? ?]|by intros [? _]]. }
  destruct (eq_ignore_ascii_case (e_data_format n) "map"); cbn [negb].
  2:{ split; [by intros [? ?]|by intros (_ & ? & _)]. }
  destruct (Nat.leb_spec (length (e_params n)) (length (e_params o))) as [Hle|Hlt].
  { split; [by intros [? ?]|]. intros (_ & _ & ps & extra & Hn & Hne & Hps & _).
    apply Forall2_length in Hps. rewrite Hn, length_app in Hle. destruct extra; cbn in *; [done|lia]. }
  set (k := length (e_params o)).
  assert (∀ l, existsb (String.eqb EmptyString)
      ((λ p, if negb (eq_ignore_ascii_case (p_location p) "data") then EmptyString else p_name p) <$> l)
      = false ↔ Forall (λ p, eq_ignore_ascii_case (p_location p) "data" = true
                             ∧ p_name p ≠ EmptyString) l) as Hex.
  { induction l as [|p l IH]; cbn [fmap list_fmap existsb]; [split; [constructor|done]|].
    rewrite orb_false_iff. rewrite IH, Forall_cons.
    destruct (eq_ignore_ascii_case (p_location p) "data"); cbn [negb].
    - destruct (String.eqb_spec "" (p_name p)); naive_solver.
    - split; [by intros [? _]|by intros [[? _] _]]. }
  assert (∀ l k', Forall2 (λ x y, same_param x y = true) l k' ↔
    Forall2 (λ p q, p_name p = p_name q ∧ p_type_name p = p_type_name q
                    ∧ p_location p = p_location q) l k') as Hsame.
  { intros l k'. split; intros Hl; (eapply Forall2_impl; [exact Hl|]); intros p q; cbn beta;
      unfold same_param; rewrite !andb_true_iff, !String.eqb_eq; tauto. }
  destruct (zip_all same_param (e_params o) (e_params n)) eqn:Ez; cbn [negb].
  - apply zip_all_prefix, Hsame in Ez; [|done]. fold k in Ez.
    destruct (existsb _ _) eqn:Ee.
    + split; [by intros [? ?]|]. intros (_ & _ & ps & extra & Hn & Hne & Hps & Hd).
      apply Forall2_length in Hps. apply Hex in Hd.
      assert (drop k (e_params n) = extra) as Hdrop
        by (rewrite Hn; unfold k; rewrite Hps; apply drop_app_length).
      congruence.
    + split; [|by eexists]. intros _. split_and!; [done..|].
      exists (take k (e_params n)), (drop k (e_params n)).
      split_and!; [by rewrite take_drop| |done|by apply Hex].
      intros Hnil. apply (f_equal length) in Hnil. rewrite length_drop in Hnil. cbn in Hnil. unfold k in *. lia.
  - split; [by intros [? ?]|]. intros (_ & _ & ps & extra & Hn & Hne & Hps & Hd).
    assert (zip_all same_param (e_params o) (e_params n) = true); [|congruence].
    apply zip_all_prefix; [done|]. apply Hsame. rewrite Hn.
    apply Forall2_length in Hps as Hl. by rewrite Hl, take_app_length.
Qed.

(** [n] is [o] with more cases after the old ones. *)
Definition cases_extend (old new : ContractSpec) (name : string) : Prop :=
  match List.find (λ u, String.eqb (u_name u) name) (unions old),
        List.find (λ u, String.eqb (u_name u) name) (unions new) with
  | Some o, Some n =>
      ∃ cases extra, u_cases n = cases ++ extra ∧ extra ≠ []
        ∧ Forall2 (λ a b, c_name a = c_name b ∧ c_type_names a = c_type_names b) (u_cases o) cases
  | _, _ =>
      match List.find (λ e, String.eqb (n_name e) name) (enums old),
            List.find (λ e, String.eqb (n_name e) name) (enums new) with
      | Some o, Some n => ∃ extra, n_cases n = n_cases o ++ extra ∧ extra ≠ []
      | _, _ => False
      end
  end.

Lemma longer_prefix {A B} (f : A → B → bool) l k :
  (length l <? length k)%nat && zip_all f l k = true ↔
  ∃ pre extra, k = pre ++ extra ∧ extra ≠ [] ∧ Forall2 (λ x y, f x y = true) l pre.
Proof.
  rewrite andb_true_iff, Nat.ltb_lt. split.
  - intros [Hlt Hz%zip_all_prefix]; [|done].
    exists (take (length l) k), (drop (length l) k). rewrite take_drop. split_and!; [done| |done].
    intros Hnil. apply (f_equal length) in Hnil. rewrite length_drop in Hnil. cbn in Hnil. lia.
  - intros (pre & extra & -> & Hne & Hp). apply Forall2_length in Hp as Hl.
    assert (length l < length (pre ++ extra))%nat as Hlt.
    { rewrite length_app. destruct extra; cbn; [done|lia]. }
    split; [done|]. apply zip_all_prefix; [done|]. by rewrite Hl, take_app_length.
Qed.

Lemma added_cases_only_spec old new name :
  is_Some (added_cases_only old new name) ↔ cases_extend old new name.
Proof.
  assert (∀ (b : bool) (s : string), is_Some (if b then Some s else None) ↔ b = true) as Hif.
  { intros [] s; split; try done; try (by eexists); by intros [? ?]. }
  assert (is_Some (@None string) ↔ False) as Hnone by (split; [by intros [? ?]|done]).
  assert (∀ l k : list (string * Z), Forall2 (λ x y, bool_decide (x = y) = true) l k ↔ l = k) as Heq.
  { intros l k. rewrite list_eq_Forall2. split; intros Hl; (eapply Forall2_impl; [exact Hl|]);
      intros x y; cbn beta; by rewrite bool_decide_eq_true. }
  unfold added_cases_only, cases_extend.
  destruct (List.find _ (unions old)) as [o|]; [destruct (List.find _ (unions new)) as [n|]|].
  1:{ rewrite Hif, longer_prefix. split; intros (pre & extra & Hn & Hne & Hp); exists pre, extra;
        (split_and!; [done..|]); (eapply Forall2_impl; [exact Hp|]); intros a b; cbn beta;
        rewrite andb_true_iff, String.eqb_eq, bool_decide_eq_true; done. }
  all: destruct (List.find _ (enums old)) as [e|];
    [destruct (List.find _ (enums new)) as [d|]|]; rewrite ?Hif, ?Hnone, ?longer_prefix; try done.
  all: split; [intros (pre & extra & Hd & Hne & ->%Heq); eauto
              |intros (extra & Hd & Hne); exists (n_cases e), extra; split_and!; [done..|by apply Heq]].
Qed.

Lemma describe_event_spec old new name :
  is_Some (describe_event old new name) ↔
  ∃ o n, find_event old name = Some o ∧ find_event new name = Some n ∧ event_extends o n.
Proof.
  unfold describe_event. destruct (find_event old name) as [o|], (find_event new name) as [n|];
    rewrite ?map_event_added_fields_spec; naive_solver.
Qed.

(** ** Theorems *)

Lemma bt_get_some_dec {V} (k : string) (m : list (string * V)) : Decision (is_Some (bt_get k m)).
Proof. destruct (bt_get k m); [left; by eexists|right; by intros [? ?]]. Qed.

(** C10: an upgrade is reported as non-breaking exactly when it keeps the old
    interface usable: every old function keeps its whole signature, and every
    old event and type keeps its signature or is extended in the one tolerated
    way (more data fields of a map-format event, more cases after the existing
    ones of a union or enum). *)
Theorem between_not_breaking old new :
  breaking (between old new) = false ↔
  (∀ name sig, bt_get name (function_sigs old).1 = Some sig →
               bt_get name (function_sigs new).1 = Some sig)
  ∧ (∀ name sig, bt_get name (event_sigs old) = Some sig →
       bt_get name (event_sigs new) = Some sig
       ∨ is_Some (bt_get name (event_sigs new))
         ∧ ∃ o n, find_event old name = Some o ∧ find_event new name = Some n ∧ event_extends o n)
  ∧ (∀ name sig, bt_get name (type_sigs old) = Some sig →
       bt_get name (type_sigs new) = Some sig
       ∨ is_Some (bt_get name (type_sigs new)) ∧ cases_extend old new name).
Proof.
  unfold between. cbn [breaking]. rewrite !orb_false_iff.
  assert (has_breaking (diff_functions old new) = false ↔
    ∀ name sig, bt_get name (function_sigs old).1 = Some sig →
                bt_get name (function_sigs new).1 = Some sig) as ->.
  { unfold diff_functions. destruct (function_sigs old) as [os op], (function_sigs new) as [ns np].
    pose proof (section_not_breaking (λ _, None) os ns op np) as Hs.
    rewrite reclassify_none in Hs. rewrite Hs. split; intros Hall name b Hget.
    - destruct (Hall name b Hget) as [?|(_ & [? ?] & _)]; [done|discriminate].
    - left. by apply Hall. }
  unfold diff_events, diff_types, diff_section. rewrite !section_not_breaking.
  assert (∀ name, name_reorders [] [] name = false) as Hre by done.
  repeat setoid_rewrite Hre. setoid_rewrite describe_event_spec.
  setoid_rewrite added_cases_only_spec. naive_solver.
Qed.

(** The severity is the three-level reading of the same report: [Breaking]
    exactly when [breaking] holds, otherwise [PotentiallyBreaking] exactly when
    some section has a potentially breaking item; and the summary is empty
    exactly when the whole difference is. *)
Theorem between_severity old new :
  let d := between old new in
  (max_severity d = Breaking ↔ breaking d = true)
  ∧ (max_severity d = PotentiallyBreaking ↔ breaking d = false ∧
       (potentially_breaking (d_functions d) ≠ [] ∨ potentially_breaking (d_events d) ≠ []
        ∨ potentially_breaking (d_types d) ≠ []))
  ∧ (summary d = [] ↔ diff_is_empty d = true).
Proof.
  cbv zeta. unfold between; cbn [max_severity breaking summary d_functions d_events d_types].
  generalize (diff_functions old new) as f, (diff_events old new) as e, (diff_types old new) as t.
  intros f e t. unfold section_max_severity.
  assert (∀ d, negb (is_empty (potentially_breaking d)) = true ↔ potentially_breaking d ≠ []) as Hpb
    by (intros d; by destruct (potentially_breaking d)).
  split_and!.
  - destruct (has_breaking f), (has_breaking e), (has_breaking t),
      (negb (is_empty (potentially_breaking f))), (negb (is_empty (potentially_breaking e))),
      (negb (is_empty (potentially_breaking t))), (negb (is_empty (added f))),
      (negb (is_empty (added e))), (negb (is_empty (added t))); cbn; done.
  - rewrite <- !Hpb.
    destruct (has_breaking f), (has_breaking e), (has_breaking t),
      (negb (is_empty (potentially_breaking f))), (negb (is_empty (potentially_breaking e))),
      (negb (is_empty (potentially_breaking t))), (negb (is_empty (added f))),
      (negb (is_empty (added e))), (negb (is_empty (added t))); cbn; intuition discriminate.
  - unfold diff_is_empty, build_summary; cbn [d_functions d_events d_types].
    assert (∀ kind d, section_summary kind d = [] ↔ section_is_empty d = true) as Hsec.
    { intros kind [[] [] [] [] []]; cbn; done. }
    rewrite !andb_true_iff, <- (Hsec "function"), <- (Hsec "event"), <- (Hsec "type").
    split; [intros [? [? ?]%app_eq_nil]%app_eq_nil; done|intros [[-> ->] ->]; done].
Qed.

Lemma sort_eq_perm (l k : list string) : sort_by tcmp l = sort_by tcmp k ↔ l ≡ₚ k.
Proof.
  split; [intros Heq; by rewrite <- (sort_by_perm tcmp l), Heq, sort_by_perm|].
  intros Hp. apply (StronglySorted_unique_strong (key_le (λ s : string, s))).
  - intros x y _ _ Hxy Hyx. unfold key_le in *. rewrite (tcmp_antisym x y) in Hyx.
    apply tcmp_eq. by destruct (tcmp x y).
  - apply (sort_by_sorted (λ s : string, s)).
  - apply (sort_by_sorted (λ s : string, s)).
  - by rewrite !sort_by_perm.
Qed.

Lemma is_param_reorder_spec l k : is_param_reorder l k = true ↔ l ≡ₚ k ∧ l ≠ k.
Proof.
  unfold is_param_reorder. destruct (negb _ || _) eqn:E.
  - split; [done|]. intros [Hp Hne]. apply orb_true_iff in E as [E|E].
    + apply Permutation_length in Hp. rewrite Hp, Nat.eqb_refl in E. done.
    + by apply bool_decide_eq_true_1 in E.
  - apply orb_false_iff in E as [_ E%bool_decide_eq_false_1].
    rewrite bool_decide_eq_true, sort_eq_perm. tauto.
Qed.

(** The function section of a difference is exact: a signature is listed as
    added or removed precisely when its name exists on one side only; a name on
    both sides with another signature is listed once, as reordered precisely
    when the parameters are a proper permutation, and as changed otherwise. *)
Theorem function_changes_exact old new :
  let '(os, op) := function_sigs old in
  let '(ns, np) := function_sigs new in
  let d := diff_functions old new in
  let permuted name := ∃ o n, bt_get name op = Some o ∧ bt_get name np = Some n ∧ o ≡ₚ n ∧ o ≠ n in
  (∀ sig, sig ∈ added d ↔ ∃ name, bt_get name os = None ∧ bt_get name ns = Some sig)
  ∧ (∀ sig, sig ∈ removed d ↔ ∃ name, bt_get name os = Some sig ∧ bt_get name ns = None)
  ∧ (∀ name from to,
       {| re_name := name; re_from := from; re_to := to; re_severity := Breaking |} ∈ reordered d ↔
       bt_get name os = Some from ∧ bt_get name ns = Some to ∧ from ≠ to ∧ permuted name)
  ∧ (∀ name from to,
       {| ch_name := name; ch_from := from; ch_to := to; ch_severity := Breaking |} ∈ changed d ↔
       bt_get name os = Some from ∧ bt_get name ns = Some to ∧ from ≠ to ∧ ¬ permuted name).
Proof.
  destruct (function_sigs old) as [os op] eqn:Eo, (function_sigs new) as [ns np] eqn:En.
  cbv zeta. unfold diff_functions. rewrite Eo, En, diff_section_eq.
  cbv zeta; cbn [added removed changed reordered].
  assert (∀ name, name_reorders op np name = true ↔
    ∃ o n, bt_get name op = Some o ∧ bt_get name np = Some n ∧ o ≡ₚ n ∧ o ≠ n) as Hre.
  { intros name. unfold name_reorders.
    destruct (bt_get name op) as [o|], (bt_get name np) as [n|];
      rewrite ?is_param_reorder_spec; naive_solver. }
  split_and!.
  - intros sig. rewrite list_elem_of_omap. unfold name_added. setoid_rewrite bt_keys_union_in.
    split.
    + intros (name & _ & Hn). exists name. destruct (bt_get name os), (bt_get name ns); naive_solver.
    + intros (name & Hold & Hnew). exists name. rewrite Hold, Hnew. eauto.
  - intros sig. rewrite list_elem_of_omap. unfold name_removed. setoid_rewrite bt_keys_union_in.
    split.
    + intros (name & _ & Hn). exists name. destruct (bt_get name os), (bt_get name ns); naive_solver.
    + intros (name & Hold & Hnew). exists name. rewrite Hold, Hnew. eauto.
  - intros name from to. rewrite list_elem_of_omap. unfold reordered_of, name_moved.
    setoid_rewrite bt_keys_union_in. rewrite <- Hre. split.
    + intros (name' & _ & Hn). destruct (bt_get name' os) as [b|] eqn:Eb; [|done].
      destruct (bt_get name' ns) as [a|] eqn:Ea; [|done]. case_bool_decide; [done|].
      destruct (name_reorders op np name') eqn:Er; [|done]. cbn in Hn. injection Hn as -> -> ->. done.
    + intros (Hb & Ha & Hne & Hr). exists name. rewrite Hb, Ha.
      rewrite bool_decide_eq_false_2 by done. rewrite Hr. cbn. eauto.
  - intros name from to. rewrite list_elem_of_omap. unfold changed_of, name_moved.
    setoid_rewrite bt_keys_union_in. rewrite <- Hre. split.
    + intros (name' & _ & Hn). destruct (bt_get name' os) as [b|] eqn:Eb; [|done].
      destruct (bt_get name' ns) as [a|] eqn:Ea; [|done]. case_bool_decide; [done|].
      destruct (name_reorders op np name') eqn:Er; [done|]. cbn in Hn. injection Hn as -> -> ->.
      rewrite Er. done.
    + intros (Hb & Ha & Hne & Hr). exists name. rewrite Hb, Ha.
      rewrite bool_decide_eq_false_2 by done. apply not_true_is_false in Hr. rewrite Hr. cbn. eauto.
Qed.
