(* ===== verification/Codegen.v ===== *)
(** * Codegen: typed clients generated from an interface ([lumenqraph-core/src/codegen.rs])

    The TypeScript, Python and Rust sources [typescript_client],
    [python_client] and [rust_client] print for a contract, as strings.  In the
    templates below [^] stands for the double quote and [lns] ends every line
    of its list.  [Debug] of a string ([{:?}]) is that of the standard library,
    whose table of printable characters outside ASCII is the parameter
    [debug_plain]. *)
From S2P Require Import Prelude Text Values Spec.
From Stdlib Require Import Ascii.

Local Open Scope string_scope.
Local Open Scope Z_scope.

(** ** Text of the templates *)

Definition NL : string := String (byte_of 10) EmptyString.
Definition DQ : ascii := byte_of 34.

(** A template line: [^] is the double quote. *)
Fixpoint qt (s : string) : string :=
  match s with
  | EmptyString => EmptyString
  | String c s' => String (if (c =? "^")%char then DQ else c) (qt s')
  end.

Fixpoint lns (l : list string) : string :=
  match l with
  | [] => EmptyString
  | s :: l' => qt s +:+ NL +:+ lns l'
  end.

(** [out.push_str] over the pieces of a loop. *)
Fixpoint concat_str (l : list string) : string :=
  match l with
  | [] => EmptyString
  | s :: l' => s +:+ concat_str l'
  end.

(** [s.replace(from, to)]: leftmost matches that do not overlap.  Every step
    consumes a byte, so the length is enough fuel. *)
Fixpoint replace_go (fuel : nat) (from to s : string) : string :=
  match fuel, s with
  | O, _ => s
  | S f, EmptyString => EmptyString
  | S f, String c s' =>
      match strip_prefix from s with
      | Some r => to +:+ replace_go f from to r
      | None => String c (replace_go f from to s')
      end
  end.

Definition replace (from to s : string) : string := replace_go (String.length s) from to s.

Definition drop_last_empty (l : list string) : list string :=
  match rev l with
  | EmptyString :: r => rev r
  | _ => l
  end.

Fixpoint strip_cr (s : string) : string :=
  match s with
  | EmptyString => EmptyString
  | String c EmptyString => if byte_val c =? 13 then EmptyString else s
  | String c s' => String c (strip_cr s')
  end.

(** [s.lines()]. *)
Definition lines (s : string) : list string :=
  strip_cr <$> drop_last_empty (split_on (byte_of 10) s).

(** The UTF-8 of U+2028 and U+2029. *)
Definition LS : string := of_chars [8232].
Definition PS : string := of_chars [8233].
Definition CR : string := of_chars [13].

(** ** Shared helpers *)

(** [is_tuple_struct]. *)
Definition is_tuple_struct (s : UdtStruct) : bool :=
  negb (is_empty (s_fields s)) &&
  forallb (λ f, forallb is_ascii_digit (chars (f_name f))) (s_fields s).

Definition is_ts_ident (s : string) : bool :=
  match chars s with
  | c :: cs =>
      (is_ascii_alphabetic c || (c =? 95) || (c =? 36)) &&
      forallb (λ c, is_ascii_alphanumeric c || (c =? 95) || (c =? 36)) cs
  | [] => false
  end.

Definition is_valid_ident (name : string) : bool :=
  match chars name with
  | c :: cs =>
      (is_ascii_alphabetic c || (c =? 95)) &&
      forallb (λ c, is_ascii_alphanumeric c || (c =? 95)) cs
  | [] => false
  end.

Definition sanitize_ident (name : string) : string :=
  let out := (λ c, if is_ascii_alphanumeric c || (c =? 95) then c else 95) <$> chars name in
  of_chars (if is_empty out then [95] else out).

Definition ts_doc (doc : string) : string :=
  replace PS "\u2029" (replace LS "\u2028" (replace CR NL (replace "*/" "*\/" doc))).

Definition rust_doc (doc : string) : string :=
  replace PS "\u{2029}" (replace LS "\u{2028}" (replace CR NL (replace "*/" "* /" doc))).

(** [format!("\\x{:02x}", c)] for a control character (below 160). *)
Definition hex_escape (c : Z) : string :=
  "\x" +:+ of_bytes [hex_digit (c / 16); hex_digit (c mod 16)].

Definition py_doc_char (c : Z) : string :=
  if (c =? 10) || (c =? 13) then "\n"
  else if c =? 8232 then "\u2028"
  else if c =? 8233 then "\u2029"
  else if is_control c then hex_escape c
  else of_chars [c].

Definition py_doc (doc : string) : string := "# " +:+ concat_str (py_doc_char <$> chars doc).

Definition is_blank (doc : string) : bool := String.eqb (trim doc) "".

(** ** [Debug] of a string *)

(** Lower-case hexadecimal digits, most significant first. *)
Fixpoint hex_digits (fuel : nat) (n : Z) : list ascii :=
  match fuel with
  | O => []
  | S f => (if n <? 16 then [] else hex_digits f (n / 16)) ++ [hex_digit (n mod 16)]
  end.

(** A code point has at most six hexadecimal digits. *)
Definition escape_unicode (c : Z) : string := "\u{" +:+ of_bytes (hex_digits 6 c) +:+ "}".

Section debug.
(** Outside ASCII: the character is printable and no grapheme extender. *)
Variable debug_plain : Z → bool.

Definition debug_char (c : Z) : string :=
  if c =? 0 then "\0"
  else if c =? 9 then "\t"
  else if c =? 13 then "\r"
  else if c =? 10 then "\n"
  else if c =? 34 then String "\" (String DQ EmptyString)
  else if c =? 92 then "\\"
  else if if c <? 128 then (32 <=? c) && (c <? 127) else debug_plain c then of_chars [c]
  else escape_unicode c.

(** [format!("{s:?}")]. *)
Definition debug_str (s : string) : string :=
  String DQ (concat_str (debug_char <$> chars s)) +:+ String DQ EmptyString.

Section client.
Context `{Stellar}.

(** ** TypeScript *)

(** A TS object key, type name and enum case. *)
Definition ts_key (name : string) : string := if is_ts_ident name then name else debug_str name.

Definition ts_type_name (name : string) : string :=
  if is_ts_ident name then name else "Type_" +:+ sanitize_ident name.

Definition ts_case_name (name : string) : string :=
  if is_ts_ident name then name else "Case_" +:+ sanitize_ident name.

Definition INT_DOC : string :=
  "Pass a decimal string (safe at any size) or a number; returned as a decimal string.".

Definition ALIASES : list (string * string * string) := [
  ("Address", "string", "A Stellar strkey address (`G…` account or `C…` contract).");
  ("Bytes", "string",
   "Hex-encoded bytes (`0x` prefix optional on input; results are `0x`-prefixed).");
  ("u64", "number | string", INT_DOC);
  ("i64", "number | string", INT_DOC);
  ("u128", "number | string", INT_DOC);
  ("i128", "number | string", INT_DOC);
  ("u256", "number | string", INT_DOC);
  ("i256", "number | string", INT_DOC);
  ("Timepoint", "number | string", "Seconds since the Unix epoch; returned as a decimal string.");
  ("Duration", "number | string", "A span of seconds; returned as a decimal string.")
].

Inductive Pos : Type := Arg | Ret.

(** The methods of [Gen] change [used], the aliases referenced so far. *)
Definition G (A : Type) : Type := gset string → A * gset string.

Definition gret {A} (x : A) : G A := λ used, (x, used).
Definition gbind {A B} (m : G A) (k : A → G B) : G B := λ used, let '(x, used) := m used in k x used.

Section gmap_list.
Context {A B : Type}.
Variable f : A → G B.
Fixpoint gmapM (l : list A) : G (list B) :=
  match l with
  | [] => gret []
  | x :: l' => gbind (f x) (λ y, gbind (gmapM l') (λ ys, gret (y :: ys)))
  end.
End gmap_list.

Definition has_udt (spec : ContractSpec) (name : string) : bool :=
  existsb (λ s, String.eqb (s_name s) name) (structs spec)
  || existsb (λ u, String.eqb (u_name u) name) (unions spec)
  || existsb (λ e, String.eqb (n_name e) name) (enums spec)
  || existsb (λ e, String.eqb (xe_name e) name) (errors spec).

Definition alias_def (name : string) : option string :=
  '(_, def, _) ← find (λ '(n, _, _), String.eqb n name) ALIASES; Some def.

(** The [expect] of the source: [alias_def_some]. *)
Definition alias (spec : ContractSpec) (name : string) : G string := λ used,
  if has_udt spec name then (default "" (alias_def name), used)
  else (name, {[ name ]} ∪ used).

Fixpoint ts (spec : ContractSpec) (ty : ScSpecTypeDef) (pos : Pos) : G string :=
  match ty with
  | TBool => gret "boolean"
  | TVoid => gret "null"
  | TU32 | TI32 => gret "number"
  | TU64 => alias spec "u64"
  | TI64 => alias spec "i64"
  | TU128 => alias spec "u128"
  | TI128 => alias spec "i128"
  | TU256 => alias spec "u256"
  | TI256 => alias spec "i256"
  | TTimepoint => alias spec "Timepoint"
  | TDuration => alias spec "Duration"
  | TString | TSymbol => gret "string"
  | TAddress => alias spec "Address"
  | TBytes | TBytesN _ => alias spec "Bytes"
  | TOption o => gbind (ts spec o pos) (λ inner, gret (inner +:+ " | null"))
  | TVec v => gbind (ts spec v pos) (λ inner,
      gret (if contains_str "|" inner then "(" +:+ inner +:+ ")[]" else inner +:+ "[]"))
  | TTuple l => gbind (gmapM (λ t, ts spec t pos) l) (λ inner, gret ("[" +:+ join ", " inner +:+ "]"))
  | TMap _ v => gbind (ts spec v pos) (λ inner, gret ("Record<string, " +:+ inner +:+ ">"))
  | TResult ok _ => match pos with Ret => ts spec ok pos | Arg => gret "never" end
  | TVal | TError => gret (match pos with Ret => "unknown" | Arg => "never" end)
  | TMuxedAddress => gret (match pos with Ret => "string" | Arg => "never" end)
  | TUdt n =>
      let name := to_utf8_string_lossy n in
      gret (if has_udt spec name then name else "unknown")
  end.

(** [render_prelude]. *)
Definition render_prelude (used : gset string) : string :=
  concat_str ((λ '(name, def, doc),
    if decide (name ∈ used)
    then lns [""] +:+ "/** " +:+ ts_doc doc +:+ " */" +:+ NL +:+
         "export type " +:+ name +:+ " = " +:+ def +:+ ";" +:+ NL
    else "") <$> ALIASES).

(** The four loops of [render_udts]. *)
Definition render_struct (spec : ContractSpec) (s : UdtStruct) : G string :=
  let type_name := ts_type_name (s_name s) in
  if is_tuple_struct s then
    gbind (gmapM (λ f, ts spec (f_ty f) Ret) (s_fields s)) (λ tys,
      gret (NL +:+ "export type " +:+ type_name +:+ " = [" +:+ join ", " tys +:+ "];" +:+ NL))
  else
    gbind (gmapM (λ f, gbind (ts spec (f_ty f) Ret) (λ ty,
             gret ("  " +:+ ts_key (f_name f) +:+ ": " +:+ ty +:+ ";" +:+ NL))) (s_fields s)) (λ fs,
      gret (NL +:+ "export interface " +:+ type_name +:+ " {" +:+ NL +:+ concat_str fs +:+ "}" +:+ NL)).

Definition render_enum (e : UdtEnum) : string :=
  let cases := (λ '(name, value), ts_case_name name +:+ " = " +:+ show_u value) <$> n_cases e in
  let names := (λ '(name, _), debug_str name) <$> n_cases e in
  NL +:+ "/** " +:+
  ts_doc ("Unit enum (" +:+ join ", " cases +:+ "). Values decode to the case name.") +:+ " */" +:+ NL +:+
  "export type " +:+ ts_type_name (n_name e) +:+ " = " +:+ join " | " names +:+ " | number;" +:+ NL.

Definition render_union_case (spec : ContractSpec) (c : UnionCase) : G string :=
  if is_empty (c_tys c) then gret (debug_str (c_name c))
  else gbind (gmapM (λ ty, ts spec ty Ret) (c_tys c)) (λ tys,
    gret ("{ " +:+ ts_key (c_name c) +:+ ": [" +:+ join ", " tys +:+ "] }")).

Definition render_union (spec : ContractSpec) (u : UdtUnion) : G string :=
  gbind (gmapM (render_union_case spec) (u_cases u)) (λ cases,
    gret (NL +:+ "export type " +:+ ts_type_name (u_name u) +:+ " =" +:+ NL +:+ "  | " +:+
          join (NL +:+ "  | ") cases +:+ ";" +:+ NL)).

Definition render_error_enum (e : UdtErrorEnum) : string :=
  let cases := (λ c, "  " +:+ ts_case_name (x_name c) +:+ " = " +:+ show_u (x_code c) +:+ ",") <$> xe_cases e in
  let doc := ts_doc ("Error codes for `" +:+ xe_name e +:+ "`.") in
  NL +:+ "/** " +:+ doc +:+ " */" +:+ NL +:+ "export enum " +:+ ts_type_name (xe_name e) +:+ " {" +:+ NL +:+
  join NL cases +:+ NL +:+ "}" +:+ NL.

Definition render_udts (spec : ContractSpec) : G string :=
  gbind (gmapM (render_struct spec) (structs spec)) (λ ss,
  gbind (gmapM (render_union spec) (unions spec)) (λ us,
  gret (concat_str ss +:+ concat_str (render_enum <$> enums spec) +:+ concat_str us +:+
        concat_str (render_error_enum <$> errors spec)))).

(** [render_method]. *)
Definition render_method_doc (doc : string) : string :=
  if is_blank doc then ""
  else "  /**" +:+ NL +:+
       concat_str ((λ line, "   * " +:+ line +:+ NL) <$> lines (ts_doc (trim doc))) +:+
       "   */" +:+ NL.

Definition render_method (spec : ContractSpec) (f : FunctionSpec) : G string :=
  gbind (match fs_output_tys f with ty :: _ => ts spec ty Ret | [] => gret "null" end) (λ ret,
  let method :=
    if is_ts_ident (fs_name f) && negb (String.eqb (fs_name f) "constructor") then fs_name f
    else "[" +:+ debug_str (fs_name f) +:+ "]" in
  if is_empty (fs_inputs f) then
    gret (render_method_doc (fs_doc f) +:+
      "  " +:+ method +:+ "(opts?: CallOptions): Promise<" +:+ ret +:+ "> {" +:+ NL +:+
      "    return this.invoke(" +:+ debug_str (fs_name f) +:+ ", {}, opts) as Promise<" +:+ ret +:+
      ">;" +:+ NL +:+ "  }" +:+ NL)
  else
    gbind (gmapM (λ i, gbind (ts spec (f_ty i) Arg) (λ ty, gret (ts_key (f_name i) +:+ ": " +:+ ty)))
             (fs_inputs f)) (λ params,
    gret (render_method_doc (fs_doc f) +:+
      "  " +:+ method +:+ "(args: { " +:+ join "; " params +:+ " }, opts?: CallOptions): Promise<" +:+
      ret +:+ "> {" +:+ NL +:+
      "    return this.invoke(" +:+ debug_str (fs_name f) +:+ ", args, opts) as Promise<" +:+ ret +:+
      ">;" +:+ NL +:+ "  }" +:+ NL))).

Definition render_methods (spec : ContractSpec) : G string :=
  gbind (gmapM (λ f, gbind (render_method spec f) (λ m, gret (NL +:+ m))) (functions spec)) (λ ms,
  gret (concat_str ms)).

Definition ts_file (contract_id prelude udts methods : string) : string :=
  lns [
      "// Typed client for the Soroban contract"] +:+
  "//   " +:+ contract_id +:+
  lns [
      "";
      "//";
      "// Generated by Lumenqraph from the contract's *on-chain* interface (the";
      "// `contractspecv0` section of its deployed WASM) — no ABI file, no config.";
      "// Calls go through Lumenqraph's read layer, which type-checks arguments";
      "// against the same on-chain spec before they ever reach the network.";
      "//";
      "// Zero dependencies: works anywhere `fetch` exists (browser, Node 18+,";
      "// Deno, Bun).";
      "//";
      "//   const contract = new ContractClient({ baseUrl: ^https://…^ });";
      "//"] +:+
  "// Regenerate any time from `GET /contracts/" +:+ contract_id +:+
  lns [
      "/sdk?lang=ts`.";
      "// If the contract is upgraded on-chain, Lumenqraph's upgrade watch records"] +:+
  "// it — `GET /contracts/" +:+ contract_id +:+
  lns [
      "/interface/history` shows what changed."] +:+ prelude +:+ udts +:+
  lns [
      "";
      "export interface ClientOptions {";
      "  /** Lumenqraph API base URL, e.g. ^https://lumenqraph.onrender.com^. */";
      "  baseUrl: string;";
      "  /** API key, sent as `x-api-key` (only needed if the server requires one). */";
      "  apiKey?: string;";
      "  /** Override the fetch implementation (defaults to global fetch). */";
      "  fetch?: typeof fetch;";
      "}";
      "";
      "export interface CallOptions {";
      "  /** Optional `G…` source account for the read-only simulation. */";
      "  sourceAccount?: string;";
      "}";
      "";
      "/** Error thrown for any non-2xx API response (bad arguments, trapped call…). */";
      "export class CallError extends Error {";
      "  constructor(";
      "    message: string,";
      "    readonly status: number,";
      "    readonly body: unknown,";
      "  ) {";
      "    super(message);";
      "    this.name = ^CallError^;";
      "  }";
      "}";
      "";
      "export class ContractClient {";
      "  /** The on-chain contract this client is bound to. */";
      "  static readonly contractId ="] +:+
  qt "    ^" +:+ contract_id +:+
  lns [
      "^;";
      "";
      "  constructor(private readonly opts: ClientOptions) {}"] +:+ methods +:+
  lns [
      "";
      "  /** POST the typed call to the API and unwrap the decoded result value. */";
      "  private async invoke(fn: string, args: unknown, opts?: CallOptions): Promise<unknown> {";
      "    const doFetch = this.opts.fetch ?? globalThis.fetch;";
      "    const base = this.opts.baseUrl.replace(/\/+$/, ^^);";
      "    const headers: Record<string, string> = { ^content-type^: ^application/json^ };";
      "    if (this.opts.apiKey) headers[^x-api-key^] = this.opts.apiKey;";
      "    const res = await doFetch(`${base}/contracts/${ContractClient.contractId}/call`, {";
      "      method: ^POST^,";
      "      headers,";
      "      body: JSON.stringify({ function: fn, args, source_account: opts?.sourceAccount ?? null }),";
      "    });";
      "    const text = await res.text();";
      "    let body: unknown = null;";
      "    try {";
      "      body = text ? JSON.parse(text) : null;";
      "    } catch {";
      "      body = text;";
      "    }";
      "    if (!res.ok) {";
      "      const msg =";
      "        (body as { error?: string } | null)?.error ?? `${res.status} ${res.statusText}`;";
      "      throw new CallError(msg, res.status, body);";
      "    }";
      "    return (body as { result?: { value?: unknown } }).result?.value ?? null;";
      "  }";
      "}"].

Definition typescript_client (contract_id : string) (spec : ContractSpec) : string :=
  let '(udts, used) := render_udts spec ∅ in
  let '(methods, used) := render_methods spec used in
  ts_file contract_id (render_prelude used) udts methods.

(** ** Python *)

Definition is_py_keyword (name : string) : bool :=
  bool_decide (name ∈ [
    "from"; "class"; "import"; "return"; "def"; "lambda"; "pass"; "in"; "is"; "not"; "and"; "or";
    "else"; "if"; "for"; "while"; "with"; "yield"; "raise"; "try"; "except"; "finally"; "del";
    "global"; "nonlocal"; "assert"; "break"; "continue"; "as"; "type"; "None"; "True"; "False"]).

Definition py_ident (name fallback_prefix : string) (index : nat) : string :=
  if is_valid_ident name && negb (is_py_keyword name) then name
  else fallback_prefix +:+ "_" +:+ show_u (Z.of_nat index).

Definition py_type_name (name : string) : string :=
  if is_valid_ident name then name else "Type_" +:+ sanitize_ident name.

Fixpoint py_type (ty : ScSpecTypeDef) : string :=
  match ty with
  | TBool => "bool"
  | TVoid => "None"
  | TU32 | TI32 => "int"
  | TU64 | TI64 | TU128 | TI128 | TU256 | TI256 | TTimepoint | TDuration => "INT"
  | TString | TSymbol => "str"
  | TAddress => "ADDRESS"
  | TBytes | TBytesN _ => "BYTES"
  | TOption o => "Optional[" +:+ py_type o +:+ "]"
  | TVec v => "list[" +:+ py_type v +:+ "]"
  | TTuple l => "tuple[" +:+ join ", " (py_type <$> l) +:+ "]"
  | TMap _ v => "dict[str, " +:+ py_type v +:+ "]"
  | TResult ok _ => py_type ok
  | TVal | TError | TMuxedAddress => "Any"
  | TUdt n => py_type_name (to_utf8_string_lossy n)
  end.

Definition py_return_type (tys : list ScSpecTypeDef) : string :=
  match tys with ty :: _ => py_type ty | [] => "None" end.

Definition py_struct (s : UdtStruct) : string :=
  NL +:+ "@dataclass" +:+ NL +:+ "class " +:+ py_type_name (s_name s) +:+ ":" +:+ NL +:+
  (if is_empty (s_fields s) then "    pass" +:+ NL
   else concat_str (imap (λ i f,
     "    " +:+ py_ident (f_name f) "field" i +:+ ": " +:+ py_type (f_ty f) +:+ NL) (s_fields s))).

Definition py_enum (e : UdtEnum) : string :=
  NL +:+ "class " +:+ py_type_name (n_name e) +:+ ":" +:+ NL +:+
  (if is_empty (n_cases e) then "    pass" +:+ NL
   else concat_str (imap (λ i c,
     "    " +:+ py_ident (c.1) "case" i +:+ " = " +:+ debug_str (c.1) +:+ NL) (n_cases e))).

Definition py_method (fi : nat) (f : FunctionSpec) : string :=
  let ret := py_return_type (fs_output_tys f) in
  let method := py_ident (fs_name f) "function" fi in
  let doc := if is_blank (fs_doc f) then "" else "        " +:+ py_doc (trim (fs_doc f)) +:+ NL in
  let params := imap (λ i inp, py_ident (f_name inp) "arg" i +:+ ": " +:+ py_type (f_ty inp)) (fs_inputs f) in
  let arg_pairs := imap (λ i inp, debug_str (f_name inp) +:+ ": " +:+ py_ident (f_name inp) "arg" i) (fs_inputs f) in
  if is_empty (fs_inputs f) then
    NL +:+ "    def " +:+ method +:+ "(self) -> " +:+ ret +:+ ":" +:+ NL +:+ doc +:+
    "        return self._call(" +:+ debug_str (fs_name f) +:+ ", {})" +:+ NL
  else
    NL +:+ "    def " +:+ method +:+ "(self, " +:+ join ", " params +:+ ") -> " +:+ ret +:+ ":" +:+ NL +:+ doc +:+
    "        return self._call(" +:+ debug_str (fs_name f) +:+ ", {" +:+ join ", " arg_pairs +:+ "})" +:+ NL.

Definition py_header (contract_id : string) : string :=
  lns [
      "# Typed client for the Soroban contract"] +:+
  "#   " +:+ contract_id +:+
  lns [
      "";
      "#";
      "# Generated by Lumenqraph from the contract's on-chain interface.";
      "# Zero dependencies: uses only Python 3.10+ stdlib (dataclasses, urllib).";
      "#"] +:+
  "# Regenerate any time from `GET /contracts/" +:+ contract_id +:+
  lns [
      "/sdk?lang=python`.";
      "";
      "from __future__ import annotations";
      "";
      "import json";
      "import urllib.request";
      "from dataclasses import dataclass";
      "from typing import Any, Optional, Union";
      "";
      "ADDRESS = str  # Stellar G… / C… strkey";
      "BYTES = str    # hex-encoded bytes";
      "INT = Union[int, str]  # large integers as decimal strings";
      ""].

Definition py_class (contract_id : string) : string :=
  lns [
      "";
      "class ContractClient:"] +:+
  "    CONTRACT_ID = " +:+
  debug_str contract_id +:+
  lns [
      "";
      "";
      "    def __init__(self, base_url: str, api_key: Optional[str] = None) -> None:";
      "        self._base_url = base_url.rstrip(^/^)";
      "        self._api_key = api_key";
      "";
      "    def _call(self, function: str, args: dict[str, Any]) -> Any:";
      "        url = f^{self._base_url}/contracts/{self.CONTRACT_ID}/call^";
      "        body = json.dumps({^function^: function, ^args^: args}).encode()";
      "        req = urllib.request.Request(";
      "            url,";
      "            data=body,";
      "            headers={^Content-Type^: ^application/json^},";
      "        )";
      "        if self._api_key:";
      "            req.add_header(^x-api-key^, self._api_key)";
      "        with urllib.request.urlopen(req) as resp:";
      "            data = json.loads(resp.read())";
      "        return data.get(^result^, {}). get(^value^)"].

Definition python_client (contract_id : string) (spec : ContractSpec) : string :=
  py_header contract_id +:+
  concat_str (py_struct <$> structs spec) +:+
  concat_str (py_enum <$> enums spec) +:+
  py_class contract_id +:+
  concat_str (imap py_method (functions spec)).

(** ** Rust *)

Definition is_rust_keyword (name : string) : bool :=
  bool_decide (name ∈ [
    "type"; "self"; "fn"; "let"; "mut"; "use"; "mod"; "pub"; "impl"; "struct"; "enum"; "trait";
    "match"; "if"; "else"; "for"; "while"; "loop"; "return"; "break"; "continue"; "where"; "as";
    "in"; "ref"; "move"; "async"; "await"; "dyn"; "unsafe"; "extern"; "crate"; "super"; "static";
    "const"; "box"; "true"; "false"]).

Definition rust_ident (name fallback_prefix : string) (index : nat) : string :=
  if negb (is_valid_ident name) then fallback_prefix +:+ "_" +:+ show_u (Z.of_nat index)
  else if is_rust_keyword name then "r#" +:+ name else name.

Definition rust_type_name (name : string) : string :=
  if is_valid_ident name then name else "Type_" +:+ sanitize_ident name.

Fixpoint rust_type (ty : ScSpecTypeDef) : string :=
  match ty with
  | TBool => "bool"
  | TVoid => "()"
  | TU32 => "u32"
  | TI32 => "i32"
  | TU64 | TTimepoint => "u64"
  | TI64 | TDuration => "i64"
  | TU128 | TU256 | TI128 | TI256 => "String"
  | TString | TSymbol => "String"
  | TAddress => "String"
  | TBytes | TBytesN _ => "String"
  | TOption o => "Option<" +:+ rust_type o +:+ ">"
  | TVec v => "Vec<" +:+ rust_type v +:+ ">"
  | TTuple l => "(" +:+ join ", " (rust_type <$> l) +:+ ")"
  | TMap _ v => "std::collections::HashMap<String, " +:+ rust_type v +:+ ">"
  | TResult ok _ => rust_type ok
  | TVal | TError | TMuxedAddress => "serde_json::Value"
  | TUdt n => rust_type_name (to_utf8_string_lossy n)
  end.

Definition rust_return_type (tys : list ScSpecTypeDef) : string :=
  match tys with ty :: _ => rust_type ty | [] => "()" end.

Definition derive_line : string := "#[derive(Debug, Clone, Serialize, Deserialize)]".

Definition rust_struct (s : UdtStruct) : string :=
  derive_line +:+ NL +:+ "pub struct " +:+ rust_type_name (s_name s) +:+ " {" +:+ NL +:+
  concat_str (imap (λ i f,
    "    pub " +:+ rust_ident (f_name f) "field" i +:+ ": " +:+ rust_type (f_ty f) +:+ "," +:+ NL) (s_fields s)) +:+
  "}" +:+ NL +:+ NL.

Definition rust_enum (e : UdtEnum) : string :=
  derive_line +:+ NL +:+ "pub enum " +:+ rust_type_name (n_name e) +:+ " {" +:+ NL +:+
  concat_str (imap (λ i c, "    " +:+ rust_ident (c.1) "case" i +:+ "," +:+ NL) (n_cases e)) +:+
  "}" +:+ NL +:+ NL.

Definition rust_union_case (i : nat) (c : UnionCase) : string :=
  let case := rust_ident (c_name c) "case" i in
  match c_tys c with
  | [] => "    " +:+ case +:+ "," +:+ NL
  | [ty] => "    " +:+ case +:+ "(" +:+ rust_type ty +:+ ")," +:+ NL
  | tys => "    " +:+ case +:+ "(" +:+ join ", " (rust_type <$> tys) +:+ ")," +:+ NL
  end.

Definition rust_union (u : UdtUnion) : string :=
  derive_line +:+ NL +:+ "#[serde(untagged)]" +:+ NL +:+
  "pub enum " +:+ rust_type_name (u_name u) +:+ " {" +:+ NL +:+
  concat_str (imap rust_union_case (u_cases u)) +:+ "}" +:+ NL +:+ NL.

Definition rust_method (fi : nat) (f : FunctionSpec) : string :=
  let doc :=
    if is_blank (fs_doc f) then ""
    else concat_str ((λ line, "    /// " +:+ line +:+ NL) <$> lines (rust_doc (trim (fs_doc f)))) in
  let ret := rust_return_type (fs_output_tys f) in
  let method := rust_ident (fs_name f) "function" fi in
  let params := imap (λ i inp, rust_ident (f_name inp) "arg" i +:+ ": " +:+ rust_type (f_ty inp)) (fs_inputs f) in
  let arg_pairs := imap (λ i inp, debug_str (f_name inp) +:+ ": " +:+ rust_ident (f_name inp) "arg" i) (fs_inputs f) in
  NL +:+ doc +:+
  (if is_empty (fs_inputs f) then
     "    pub async fn " +:+ method +:+ "(&self) -> Result<" +:+ ret +:+ ", reqwest::Error> {" +:+ NL +:+
     "        let v = self.invoke(" +:+ debug_str (fs_name f) +:+ ", serde_json::json!({})).await?;" +:+ NL
   else
     "    pub async fn " +:+ method +:+ "(&self, " +:+ join ", " params +:+ ") -> Result<" +:+ ret +:+
     ", reqwest::Error> {" +:+ NL +:+
     "        let v = self.invoke(" +:+ debug_str (fs_name f) +:+ ", serde_json::json!({" +:+
     join ", " arg_pairs +:+ "})).await?;" +:+ NL) +:+
  (if is_empty (fs_output_tys f)
   then "        let _ = v;" +:+ NL +:+ "        Ok(())" +:+ NL +:+ "    }" +:+ NL
   else "        Ok(v)" +:+ NL +:+ "    }" +:+ NL).

Definition rust_header (contract_id : string) : string :=
  lns [
      "//! Typed client for the Soroban contract"] +:+
  "//!   " +:+ contract_id +:+
  lns [
      "";
      "//!";
      "//! Generated by Lumenqraph from the contract's on-chain interface.";
      "//! Depends on `reqwest` (with `json` feature) and `serde` / `serde_json`.";
      "//!"] +:+
  "//! Regenerate any time from `GET /contracts/" +:+ contract_id +:+
  lns [
      "/sdk?lang=rust`.";
      "";
      "use serde::{Deserialize, Serialize};";
      ""] +:+
  "pub const CONTRACT_ID: &str = " +:+
  debug_str contract_id +:+
  lns [
      ";";
      ""].

Definition rust_impl : string :=
  lns [
      "#[derive(Debug, Clone, Deserialize)]";
      "struct CallResponse {";
      "    result: Option<ResultValue>,";
      "}";
      "";
      "#[derive(Debug, Clone, Deserialize)]";
      "struct ResultValue {";
      "    value: Option<serde_json::Value>,";
      "}";
      "";
      "#[derive(Debug, Clone)]";
      "pub struct ContractClient {";
      "    base_url: String,";
      "    api_key: Option<String>,";
      "    client: reqwest::Client,";
      "}";
      "";
      "impl ContractClient {";
      "    pub fn new(base_url: impl Into<String>) -> Self {";
      "        Self {";
      "            base_url: base_url.into().trim_end_matches('/').to_string(),";
      "            api_key: None,";
      "            client: reqwest::Client::new(),";
      "        }";
      "    }";
      "";
      "    pub fn with_api_key(mut self, key: impl Into<String>) -> Self {";
      "        self.api_key = Some(key.into());";
      "        self";
      "    }";
      "";
      "    async fn invoke(";
      "        &self,";
      "        function: &str,";
      "        args: serde_json::Value,";
      "    ) -> Result<Option<serde_json::Value>, reqwest::Error> {";
      "        let url = format!(^{base}/contracts/{cid}/call^,";
      "            base = self.base_url,";
      "            cid = CONTRACT_ID);";
      "        let body = serde_json::json!({^function^: function, ^args^: args});";
      "        let mut req = self.client.post(&url).json(&body);";
      "        if let Some(key) = &self.api_key {";
      "            req = req.header(^x-api-key^, key);";
      "        }";
      "        let resp: CallResponse = req.send().await?.json().await?;";
      "        Ok(resp.result.and_then(|r| r.value))";
      "    }"].

Definition rust_client (contract_id : string) (spec : ContractSpec) : string :=
  rust_header contract_id +:+
  concat_str (rust_struct <$> structs spec) +:+
  concat_str (rust_enum <$> enums spec) +:+
  concat_str (rust_union <$> unions spec) +:+
  rust_impl +:+
  concat_str (imap rust_method (functions spec)) +:+
  "}" +:+ NL.
End client.
End debug.
