(* ===== verification/CodegenSafety.v ===== *)
(** * CodegenSafety: what a contract can put into a generated client

    The names and documentation of an interface are chosen by the contract.  A
    scanner reads the generated source byte by byte and classifies it into
    identifiers, string literals, comments and the remaining symbols (spaces
    and line ends included).  The theorems say that renaming and redocumenting
    everything in an interface changes the spelling of identifiers, literals
    and comments and no other token: the structure of the client is the
    template's. *)
From S2P Require Import Prelude Text Values Spec Codegen Instances.
From Stdlib Require Import Ascii.

Local Open Scope string_scope.
Local Open Scope Z_scope.

(** ** The scanner *)

Inductive Lang : Type := TypeScript | Python | Rust.

Inductive Tok : Type := TId | TStr | TLine | TBlock | TSym (a : ascii).

(** [RawR]: an identifier that so far reads [r], which [#] may continue in Rust. *)
Inductive Mode : Type := Code | InId | RawR | Quoted | Escaped | Slash | Line | Block | BlockStar.

Definition is_lang (l k : Lang) : bool :=
  match l, k with
  | TypeScript, TypeScript | Python, Python | Rust, Rust => true
  | _, _ => false
  end.

Definition ident_byte (l : Lang) (a : ascii) : bool :=
  let c := byte_val a in
  is_ascii_alphanumeric c || (c =? 95) || (128 <=? c) || ((c =? 36) && is_lang l TypeScript).

Definition scan_code (l : Lang) (a : ascii) : Mode * list Tok :=
  let c := byte_val a in
  if ident_byte l a then (if (c =? 114) && is_lang l Rust then RawR else InId, [TId])
  else if c =? 34 then (Quoted, [TStr])
  else if (c =? 35) && is_lang l Python then (Line, [TLine])
  else if (c =? 47) && negb (is_lang l Python) then (Slash, [])
  else (Code, [TSym a]).

Definition line_end (a : ascii) : bool := (byte_val a =? 10) || (byte_val a =? 13).

Definition scan_byte (l : Lang) (m : Mode) (a : ascii) : Mode * list Tok :=
  let c := byte_val a in
  match m with
  | Code => scan_code l a
  | InId => if ident_byte l a then (InId, []) else scan_code l a
  | RawR => if ident_byte l a || (c =? 35) then (InId, []) else scan_code l a
  | Quoted =>
      if c =? 34 then (Code, [])
      else if c =? 92 then (Escaped, [])
      else if line_end a then (Code, [TSym a])
      else (Quoted, [])
  | Escaped => if line_end a then (Code, [TSym a]) else (Quoted, [])
  | Slash =>
      if c =? 47 then (Line, [TLine])
      else if c =? 42 then (Block, [TBlock])
      else let '(m', o) := scan_code l a in (m', TSym "/" :: o)
  | Line => if line_end a then (Code, [TSym a]) else (Line, [])
  | Block => if c =? 42 then (BlockStar, []) else (Block, [])
  | BlockStar =>
      if c =? 47 then (Code, [])
      else if c =? 42 then (BlockStar, []) else (Block, [])
  end.

Fixpoint scan (l : Lang) (m : Mode) (s : string) : Mode * list Tok :=
  match s with
  | EmptyString => (m, [])
  | String a s' =>
      let '(m1, o1) := scan_byte l m a in
      let '(m2, o2) := scan l m1 s' in (m2, o1 ++ o2)%list
  end.

(** The tokens of a source text. *)
Definition skeleton (l : Lang) (s : string) : list Tok := (scan l Code s).2.

(** ** Renaming an interface *)

Section rename.
(** What every name and every documentation string becomes. *)
Variable ren : string → string.
Variable redoc : string → string.

Fixpoint rename_ty (t : ScSpecTypeDef) : ScSpecTypeDef :=
  match t with
  | TOption o => TOption (rename_ty o)
  | TResult ok e => TResult (rename_ty ok) (rename_ty e)
  | TVec v => TVec (rename_ty v)
  | TMap k v => TMap (rename_ty k) (rename_ty v)
  | TTuple ts => TTuple (rename_ty <$> ts)
  | TUdt n => TUdt (ren n)
  | _ => t
  end.

Definition rename_field (f : Field) : Field :=
  {| f_name := ren (f_name f); f_type_name := f_type_name f; f_ty := rename_ty (f_ty f) |}.

Definition rename_struct (s : UdtStruct) : UdtStruct :=
  {| s_name := ren (s_name s); s_fields := rename_field <$> s_fields s |}.

Definition rename_enum (e : UdtEnum) : UdtEnum :=
  {| n_name := ren (n_name e); n_cases := (λ c, (ren c.1, c.2)) <$> n_cases e |}.

Definition rename_case (c : UnionCase) : UnionCase :=
  {| c_name := ren (c_name c); c_type_names := c_type_names c; c_tys := rename_ty <$> c_tys c |}.

Definition rename_union (u : UdtUnion) : UdtUnion :=
  {| u_name := ren (u_name u); u_cases := rename_case <$> u_cases u |}.

Definition rename_error_case (c : ErrorCase) : ErrorCase :=
  {| x_name := ren (x_name c); x_code := x_code c; x_doc := x_doc c |}.

Definition rename_error (e : UdtErrorEnum) : UdtErrorEnum :=
  {| xe_name := ren (xe_name e); xe_doc := xe_doc e; xe_cases := rename_error_case <$> xe_cases e |}.

Definition rename_function (f : FunctionSpec) : FunctionSpec := {|
  fs_name := ren (fs_name f);
  fs_doc := redoc (fs_doc f);
  fs_inputs := rename_field <$> fs_inputs f;
  fs_outputs := fs_outputs f;
  fs_output_tys := rename_ty <$> fs_output_tys f;
|}.

Definition rename (s : ContractSpec) : ContractSpec :=
  with_lists s (rename_function <$> functions s) (events s) (rename_struct <$> structs s)
    (rename_union <$> unions s) (rename_enum <$> enums s) (error_enums s) (rename_error <$> errors s).
End rename.

(** ** Scanning pieces *)

Lemma scan_app l m s t :
  scan l m (s +:+ t) =
  ((scan l (scan l m s).1 t).1, ((scan l m s).2 ++ (scan l (scan l m s).1 t).2)%list).
Proof.
  revert m. induction s as [|a s IH]; intros m; simpl.
  - by rewrite <- surjective_pairing.
  - destruct (scan_byte l m a) as [m1 o1]. rewrite IH.
    destruct (scan l m1 s) as [m2 o2]. simpl. by rewrite app_assoc.
Qed.

(** After an identifier the scanner may be inside it until the next byte. *)
Definition settle (m : Mode) : Mode := match m with InId | RawR => Code | _ => m end.

(** The text starts with a byte that ends an identifier. *)
Definition dstart (l : Lang) (s : string) : bool :=
  match s with
  | EmptyString => false
  | String a _ => negb (ident_byte l a) && negb (byte_val a =? 35)
  end.

Lemma scan_settle l m s : dstart l s = true → scan l m s = scan l (settle m) s.
Proof.
  destruct s as [|a s]; [done|]. simpl. intros [Ha Hh]%andb_prop.
  apply negb_true_iff in Ha, Hh.
  destruct m; try reflexivity; cbn [settle scan_byte scan]; by rewrite ?Ha, ?Hh.
Qed.

(** The two texts take the scanner from [m] to [m'] with the same tokens. *)
Definition sim_to (l : Lang) (m : Mode) (s t : string) (m' : Mode) : Prop :=
  (scan l m s).1 = m' ∧ (scan l m t).1 = m' ∧ (scan l m s).2 = (scan l m t).2.

(** The same up to the end of a trailing identifier. *)
Definition sim (l : Lang) (m : Mode) (s t : string) (m' : Mode) : Prop :=
  settle (scan l m s).1 = m' ∧ settle (scan l m t).1 = m' ∧ (scan l m s).2 = (scan l m t).2.

Section rules.
Context (l : Lang).

Lemma sim_to_same t m : sim_to l m t t (scan l m t).1.
Proof. done. Qed.

Lemma sim_to_nil m : sim_to l m "" "" m.
Proof. done. Qed.

Lemma sim_of_to m s t m' : sim_to l m s t m' → sim l m s t (settle m').
Proof. intros (H1 & H2 & H3). split_and!; [by rewrite H1|by rewrite H2|done]. Qed.

Lemma sim_to_app m m1 m' s1 s2 t1 t2 :
  sim_to l m s1 t1 m1 → sim_to l m1 s2 t2 m' → sim_to l m (s1 +:+ s2) (t1 +:+ t2) m'.
Proof.
  intros (H1 & H2 & H3) (K1 & K2 & K3). unfold sim_to. rewrite !scan_app; simpl.
  by rewrite H1, H2, H3, K1, K2, K3.
Qed.

Lemma sim_app m m1 m' s1 s2 t1 t2 :
  sim l m s1 t1 m1 → dstart l s2 = true → dstart l t2 = true →
  sim_to l m1 s2 t2 m' → sim_to l m (s1 +:+ s2) (t1 +:+ t2) m'.
Proof.
  intros (H1 & H2 & H3) Hs Ht (K1 & K2 & K3). unfold sim_to. rewrite !scan_app; simpl.
  rewrite (scan_settle _ _ _ Hs), (scan_settle _ _ _ Ht), H1, H2, H3.
  by rewrite K1, K2, K3.
Qed.

Lemma sim_to_app_sim m m1 m' s1 s2 t1 t2 :
  sim_to l m s1 t1 m1 → sim l m1 s2 t2 m' → sim l m (s1 +:+ s2) (t1 +:+ t2) m'.
Proof.
  intros (H1 & H2 & H3) (K1 & K2 & K3). unfold sim. rewrite !scan_app; simpl.
  by rewrite H1, H2, H3, K1, K2, K3.
Qed.

Lemma sim_to_lit t m m1 m' s1 s2 :
  (scan l m t).1 = m1 → sim_to l m1 s1 s2 m' → sim_to l m (t +:+ s1) (t +:+ s2) m'.
Proof. intros <-. apply sim_to_app, sim_to_same. Qed.

Lemma sim_lit t m m1 m' s1 s2 :
  (scan l m t).1 = m1 → sim l m1 s1 s2 m' → sim l m (t +:+ s1) (t +:+ s2) m'.
Proof. intros <-. apply sim_to_app_sim, sim_to_same. Qed.

Lemma sim_app_sim m m1 m' s1 s2 t1 t2 :
  sim l m s1 t1 m1 → dstart l s2 = true → dstart l t2 = true →
  sim l m1 s2 t2 m' → sim l m (s1 +:+ s2) (t1 +:+ t2) m'.
Proof.
  intros (H1 & H2 & H3) Hs Ht (K1 & K2 & K3). unfold sim. rewrite !scan_app; simpl.
  rewrite (scan_settle _ _ _ Hs), (scan_settle _ _ _ Ht), H1, H2, H3.
  by rewrite K1, K2, K3.
Qed.

Lemma sim_to_concat {A B} (f : A → string) (g : B → string) m xs ys :
  Forall2 (λ x y, sim_to l m (f x) (g y) m) xs ys →
  sim_to l m (concat_str (f <$> xs)) (concat_str (g <$> ys)) m.
Proof. induction 1; simpl; [apply sim_to_nil|by eapply sim_to_app]. Qed.

Lemma sim_join {A B} (f : A → string) (g : B → string) m sep xs ys :
  dstart l sep = true → sim_to l m sep sep m → settle m = m →
  Forall2 (λ x y, sim l m (f x) (g y) m) xs ys →
  sim l m (join sep (f <$> xs)) (join sep (g <$> ys)) m.
Proof.
  intros Hd Hsep Hm. induction 1 as [|x y xs ys Hxy Hall IH].
  { rewrite <- Hm at 2. apply sim_of_to, sim_to_nil. }
  destruct Hall as [|x' y' xs ys Hxy' Hall]; [done|].
  change (sim l m (f x +:+ sep +:+ join sep (f <$> x' :: xs)) (g y +:+ sep +:+ join sep (g <$> y' :: ys)) m).
  revert IH. generalize (join sep (f <$> x' :: xs)), (join sep (g <$> y' :: ys)). intros u v IH.
  unfold sim in *. rewrite !scan_app.
  destruct Hxy as (H1 & H2 & H3), IH as (K1 & K2 & K3), Hsep as (S1 & _ & _).
  rewrite (scan_settle _ (scan l m (f x)).1 sep Hd), (scan_settle _ (scan l m (g y)).1 sep Hd), H1, H2.
  cbn [fst snd]. by rewrite S1, K1, K2, H3, K3.
Qed.
End rules.

(** ** Words: identifiers as pieces of the text *)

Definition word (l : Lang) (s : string) : Prop :=
  s ≠ "" ∧ Forall (λ a, ident_byte l a = true) (bytes s).

Lemma word_app l s t : word l s → word l t → word l (s +:+ t).
Proof.
  intros [Hs Hs'] [Ht Ht']. split; [by destruct s|]. rewrite bytes_app. by apply Forall_app.
Qed.

Lemma scan_in_id l m s :
  m = InId ∨ m = RawR → Forall (λ a, ident_byte l a = true) (bytes s) →
  settle (scan l m s).1 = Code ∧ (scan l m s).2 = [].
Proof.
  revert m. induction s as [|a s IH]; intros m Hm Hall; simpl.
  { by destruct Hm as [-> | ->]. }
  inversion_clear Hall as [|?? Ha Hs].
  assert (scan_byte l m a = (InId, [])) as -> by (destruct Hm as [-> | ->]; simpl; by rewrite Ha).
  destruct (IH InId) as [H1 H2]; [by left|done|].
  destruct (scan l InId s) as [m' o]; simpl in *; subst. by simplify_eq.
Qed.

Lemma scan_word l s : word l s → settle (scan l Code s).1 = Code ∧ (scan l Code s).2 = [TId].
Proof.
  intros [Hne Hall]. destruct s as [|a s]; [done|]. inversion_clear Hall as [|?? Ha Hs]. simpl.
  unfold scan_code. rewrite Ha.
  destruct (scan_in_id l (if (byte_val a =? 114) && is_lang l Rust then RawR else InId) s) as [H1 H2];
    [destruct (_ && _); auto|done|].
  destruct (scan l _ s); simpl in *; by subst.
Qed.

Lemma sim_word l s t : word l s → word l t → sim l Code s t Code.
Proof. intros [? ?]%scan_word [? ?]%scan_word. split_and!; congruence. Qed.

(** A Rust raw identifier counts as one identifier. *)
Definition rust_word (s : string) : Prop := word Rust s ∨ ∃ t, s = "r#" +:+ t ∧ word Rust t.

Lemma scan_rust_word s :
  rust_word s → settle (scan Rust Code s).1 = Code ∧ (scan Rust Code s).2 = [TId].
Proof.
  intros [Hw|(t & -> & Hne & Hall)]; [by apply scan_word|].
  rewrite scan_app. cbn [fst snd].
  assert (scan Rust Code "r#" = (InId, [TId])) as -> by reflexivity. cbn [fst snd].
  destruct (scan_in_id Rust InId t) as [H1 H2]; [by left|done|]. by rewrite H1, H2.
Qed.

Lemma sim_rust_word s t : rust_word s → rust_word t → sim Rust Code s t Code.
Proof. intros [? ?]%scan_rust_word [? ?]%scan_rust_word. split_and!; congruence. Qed.

Lemma bytes_of_chars_ascii cs :
  Forall (λ c, 0 ≤ c < 128) cs → bytes (of_chars cs) = byte_of <$> cs.
Proof.
  intros Hall. unfold of_chars. rewrite bytes_of_bytes.
  induction Hall as [|c cs Hc _ IH]; [done|]. cbn [mbind list_bind fmap list_fmap].
  change (list_bind _ _ utf8_encode cs) with (cs ≫= utf8_encode). rewrite IH.
  unfold utf8_encode. by destruct (Z.ltb_spec c 128); [|lia].
Qed.

Definition ident_char (l : Lang) (c : Z) : bool :=
  is_ascii_alphanumeric c || (c =? 95) || ((c =? 36) && is_lang l TypeScript).

Lemma ident_char_range l c : ident_char l c = true → 0 ≤ c < 128.
Proof.
  unfold ident_char, is_ascii_alphanumeric, is_ascii_alphabetic, is_ascii_uppercase,
    is_ascii_lowercase, is_ascii_digit, c_in. destruct l; simpl; lia.
Qed.

Lemma word_of_chars l cs : cs ≠ [] → Forall (λ c, ident_char l c = true) cs → word l (of_chars cs).
Proof.
  intros Hne Hall.
  assert (Forall (λ c, 0 ≤ c < 128) cs) as Hr
    by (eapply Forall_impl; [done|]; intros c; apply ident_char_range).
  pose proof (bytes_of_chars_ascii cs Hr) as Hb. split.
  - intros E. rewrite E in Hb. by destruct cs.
  - rewrite Hb. apply Forall_fmap. apply Forall_forall. intros c Hc.
    rewrite Forall_forall in Hall, Hr. specialize (Hall c Hc). specialize (Hr c Hc).
    unfold ident_byte, ident_char, compose in *. rewrite byte_val_of; [|lia].
    destruct (_ && _); [by rewrite orb_true_r|]. rewrite orb_false_r in Hall. by rewrite Hall.
Qed.

Lemma of_chars_of_nonempty s : chars s ≠ [] → of_chars (chars s) = s.
Proof.
  intros Hne. apply of_chars_chars. unfold utf8_valid, chars in *. by destruct (utf8_decode (bytes s)).
Qed.

Lemma valid_ident_word l s : is_valid_ident s = true → word l s.
Proof.
  unfold is_valid_ident. destruct (chars s) as [|c cs] eqn:Hs; [done|]. intros [Hc Hcs]%andb_prop.
  rewrite <- (of_chars_of_nonempty s) by (by rewrite Hs). rewrite Hs. apply word_of_chars; [done|].
  constructor.
  - unfold ident_char, is_ascii_alphanumeric. destruct (is_ascii_alphabetic c); simpl in *; [done|].
    rewrite Hc. by rewrite orb_true_r.
  - apply Is_true_true, forallb_True in Hcs.
    eapply Forall_impl; [exact Hcs|]. intros x Hx%Is_true_true. unfold ident_char. by rewrite Hx.
Qed.

Lemma ts_ident_word s : is_ts_ident s = true → word TypeScript s.
Proof.
  unfold is_ts_ident. destruct (chars s) as [|c cs] eqn:Hs; [done|]. intros [Hc Hcs]%andb_prop.
  rewrite <- (of_chars_of_nonempty s) by (by rewrite Hs). rewrite Hs. apply word_of_chars; [done|].
  constructor.
  - unfold ident_char, is_ascii_alphanumeric. cbn [is_lang]. rewrite andb_true_r.
    destruct (is_ascii_alphabetic c); simpl in *; [done|]. by rewrite <- orb_assoc, Hc, orb_true_r.
  - apply Is_true_true, forallb_True in Hcs. eapply Forall_impl; [exact Hcs|].
    intros x Hx%Is_true_true. unfold ident_char. cbn [is_lang]. by rewrite andb_true_r.
Qed.

Lemma sanitize_word l s : word l (sanitize_ident s).
Proof.
  unfold sanitize_ident. set (g := λ c, if is_ascii_alphanumeric c || (c =? 95) then c else 95).
  assert (Forall (λ c, ident_char l c = true) (g <$> chars s)) as Hall.
  { apply Forall_fmap, Forall_true. intros x. unfold compose, ident_char, g.
    destruct (is_ascii_alphanumeric x || (x =? 95)) eqn:E; [by rewrite E|done]. }
  destruct (g <$> chars s) as [|c cs]; simpl; apply word_of_chars; try done. by repeat constructor.
Qed.

Lemma show_u_word l n : 0 ≤ n → word l (show_u n).
Proof.
  intros Hn. split.
  - intros E. pose proof (digits_rev_not_nil n Hn) as Hd. apply (f_equal bytes) in E.
    rewrite bytes_show_u in E. apply (f_equal length) in E. rewrite length_fmap, length_rev in E.
    by destruct (digits_rev n).
  - destruct (digits_rev_spec n Hn) as [_ Hd]. rewrite bytes_show_u.
    apply Forall_fmap. apply Forall_rev. eapply Forall_impl; [exact Hd|].
    intros d Hd'. unfold is_digit in Hd'. unfold compose, ident_byte, digit_char.
    rewrite byte_val_of; [|lia].
    unfold is_ascii_alphanumeric, is_ascii_digit, c_in.
    destruct (is_ascii_alphabetic _); [done|]. by destruct (Z.leb_spec 48 (48 + d)), (Z.leb_spec (48 + d) 57); try lia.
Qed.

Lemma type_name_word l s : word l (if is_valid_ident s then s else "Type_" +:+ sanitize_ident s).
Proof.
  destruct (is_valid_ident s) eqn:E; [by apply valid_ident_word|].
  apply word_app; [|apply sanitize_word]. split; [done|]. by repeat constructor.
Qed.

Lemma fallback_word l p i : word l p → word l (p +:+ "_" +:+ show_u (Z.of_nat i)).
Proof.
  intros Hp. apply word_app; [done|]. apply word_app; [|apply show_u_word; lia].
  split; [done|]. by repeat constructor.
Qed.

Lemma py_ident_word name p i : word Python p → word Python (py_ident name p i).
Proof.
  intros Hp. unfold py_ident. destruct (is_valid_ident name) eqn:E; simpl; [|by apply fallback_word].
  destruct (is_py_keyword name); simpl; [by apply fallback_word|by apply valid_ident_word].
Qed.

Lemma rust_ident_word name p i : word Rust p → rust_word (rust_ident name p i).
Proof.
  intros Hp. unfold rust_ident. destruct (is_valid_ident name) eqn:E; simpl; [|left; by apply fallback_word].
  destruct (is_rust_keyword name); [right; exists name|left]; auto using valid_ident_word.
Qed.

(** ** Literals *)

(** Bytes that neither end a literal or a line nor start an escape. *)
Definition plain_byte (a : ascii) : Prop :=
  byte_val a ≠ 34 ∧ byte_val a ≠ 92 ∧ byte_val a ≠ 10 ∧ byte_val a ≠ 13.

Lemma line_end_false a : byte_val a ≠ 10 → byte_val a ≠ 13 → line_end a = false.
Proof. intros H1 H2. unfold line_end. by destruct (Z.eqb_spec (byte_val a) 10), (Z.eqb_spec (byte_val a) 13). Qed.

Lemma scan_plain l s : Forall plain_byte (bytes s) → scan l Quoted s = (Quoted, []).
Proof.
  induction s as [|a s IH]; [done|]. intros [(H1 & H2 & H3 & H4) Hs]%Forall_cons.
  cbn [scan scan_byte]. rewrite (line_end_false a) by done.
  rewrite (proj2 (Z.eqb_neq _ _) H1), (proj2 (Z.eqb_neq _ _) H2). by rewrite (IH Hs).
Qed.

Lemma utf8_encode_high c : 128 ≤ c → is_scalar c = true → Forall (λ a, 128 ≤ byte_val a) (utf8_encode c).
Proof.
  intros Hc Hs%is_scalar_spec. unfold utf8_encode.
  destruct (Z.ltb_spec c 128); [lia|].
  destruct (Z.ltb_spec c 2048); [|destruct (Z.ltb_spec c 65536)];
    repeat constructor; rewrite byte_val_of; Z.to_euclidean_division_equations; lia.
Qed.

Lemma bytes_of_char c : is_scalar c = true →
  (128 ≤ c ∧ Forall (λ a, 128 ≤ byte_val a) (bytes (of_chars [c]))) ∨
  (0 ≤ c < 128 ∧ bytes (of_chars [c]) = [byte_of c]).
Proof.
  intros Hs. pose proof (proj1 (is_scalar_spec c) Hs) as Hr. destruct (decide (c < 128)).
  - right. split; [lia|]. apply (bytes_of_chars_ascii [c]). repeat constructor; lia.
  - left. split; [lia|]. unfold of_chars. rewrite bytes_of_bytes. cbn [mbind list_bind].
    rewrite app_nil_r. apply utf8_encode_high; [lia|done].
Qed.

Lemma hex_digit_val d : 0 ≤ d < 16 → 48 ≤ byte_val (hex_digit d) ≤ 102 ∧ byte_val (hex_digit d) ≠ 92.
Proof. intros Hd. unfold hex_digit. destruct (Z.ltb_spec d 10); rewrite byte_val_of; lia. Qed.

Lemma hex_digit_plain d : 0 ≤ d < 16 → plain_byte (hex_digit d).
Proof. intros ?%hex_digit_val. unfold plain_byte. lia. Qed.

Lemma hex_digits_plain f n : Forall plain_byte (hex_digits f n).
Proof.
  revert n. induction f as [|f IH]; intros n; simpl; [constructor|].
  apply Forall_app. split; [by destruct (n <? 16)|].
  constructor; [|constructor]. apply hex_digit_plain. apply Z.mod_pos_bound. lia.
Qed.

Lemma scan_debug_char dp l c : is_scalar c = true → scan l Quoted (debug_char dp c) = (Quoted, []).
Proof.
  intros Hs. unfold debug_char.
  destruct (Z.eqb_spec c 0); [done|]. destruct (Z.eqb_spec c 9); [done|].
  destruct (Z.eqb_spec c 13); [done|]. destruct (Z.eqb_spec c 10); [done|].
  destruct (Z.eqb_spec c 34); [done|]. destruct (Z.eqb_spec c 92); [done|].
  destruct (if c <? 128 then _ else _) eqn:Hp.
  - apply scan_plain. destruct (bytes_of_char c Hs) as [[_ Hb]|[Hr Hb]].
    + eapply Forall_impl; [exact Hb|]. intros a Ha. unfold plain_byte. simpl in Ha. lia.
    + rewrite Hb. repeat constructor; rewrite byte_val_of; lia.
  - unfold escape_unicode. rewrite scan_app.
    assert (scan l Quoted "\u{" = (Quoted, [])) as -> by reflexivity. cbn [fst snd].
    rewrite scan_plain; [done|]. rewrite bytes_app, bytes_of_bytes. apply Forall_app. split.
    + apply hex_digits_plain.
    + repeat constructor; done.
Qed.

Lemma scan_debug_body dp l cs :
  Forall (λ c, is_scalar c = true) cs →
  scan l Quoted (concat_str (debug_char dp <$> cs)) = (Quoted, []).
Proof.
  induction 1 as [|c cs Hc _ IH]; [done|]. cbn [fmap list_fmap concat_str].
  rewrite scan_app, scan_debug_char by done. cbn [fst snd]. by rewrite IH.
Qed.

(** A literal is one token, whatever it quotes. *)
Lemma scan_debug_str dp l s : scan l Code (debug_str dp s) = (Code, [TStr]).
Proof.
  unfold debug_str. generalize (scan_debug_body dp l (chars s) (chars_scalar s)).
  generalize (concat_str (debug_char dp <$> chars s)). intros body Hb.
  change (scan l Code (String DQ body +:+ String DQ EmptyString))
    with (let '(m2, o2) := scan l Quoted (body +:+ String DQ EmptyString) in (m2, [TStr] ++ o2)%list).
  by rewrite scan_app, Hb.
Qed.

Lemma sim_debug_str dp l s t : sim_to l Code (debug_str dp s) (debug_str dp t) Code.
Proof. by unfold sim_to; rewrite !scan_debug_str. Qed.

(** ** Comments *)

Definition no_line_end (s : string) : Prop := Forall (λ a, line_end a = false) (bytes s).

Lemma scan_line l s : no_line_end s → scan l Line s = (Line, []).
Proof.
  unfold no_line_end. induction s as [|a s IH]; [done|]. intros [Ha Hs]%Forall_cons.
  cbn [scan scan_byte]. rewrite Ha. by rewrite IH.
Qed.

Lemma no_line_end_app s t : no_line_end s → no_line_end t → no_line_end (s +:+ t).
Proof. unfold no_line_end. rewrite bytes_app. intros. by apply Forall_app. Qed.

Lemma py_doc_char_line c : is_scalar c = true → no_line_end (py_doc_char c).
Proof.
  intros Hs. unfold py_doc_char, no_line_end.
  destruct (Z.eqb_spec c 10); [by repeat constructor|]. destruct (Z.eqb_spec c 13); [by repeat constructor|].
  cbn [orb]. destruct (Z.eqb_spec c 8232); [by repeat constructor|].
  destruct (Z.eqb_spec c 8233); [by repeat constructor|].
  destruct (is_control c) eqn:Hc.
  - unfold hex_escape. rewrite bytes_app, bytes_of_bytes. apply Forall_app. split; [by repeat constructor|].
    unfold is_control, c_in in Hc.
    assert (0 ≤ c < 160) by lia.
    repeat constructor; apply line_end_false;
      match goal with |- byte_val (hex_digit ?d) ≠ _ => pose proof (hex_digit_val d) end;
      (assert (0 ≤ c / 16 < 16) by (split; [apply Z.div_pos; lia|apply Z.div_lt_upper_bound; lia]));
      pose proof (Z.mod_pos_bound c 16); lia.
  - destruct (bytes_of_char c Hs) as [[_ Hb]|[Hr Hb]].
    + eapply Forall_impl; [exact Hb|]. intros a Ha. simpl in Ha. apply line_end_false; lia.
    + rewrite Hb. repeat constructor. apply line_end_false; rewrite byte_val_of; lia.
Qed.

Lemma scan_py_doc s : scan Python Code (py_doc s) = (Line, [TLine]).
Proof.
  unfold py_doc. rewrite scan_app.
  assert (scan Python Code "# " = (Line, [TLine])) as -> by reflexivity. cbn [fst snd].
  rewrite scan_line; [done|]. pose proof (chars_scalar s) as Hs.
  induction Hs as [|c cs Hc _ IH]; [constructor|]. cbn [fmap list_fmap concat_str].
  by apply no_line_end_app; [apply py_doc_char_line|].
Qed.

Lemma sim_py_doc s t : sim_to Python Code (py_doc s) (py_doc t) Line.
Proof. by unfold sim_to; rewrite !scan_py_doc. Qed.

(** ** Comparing two texts piece by piece *)

Create HintDb sim.
#[local] Hint Resolve sim_debug_str sim_py_doc : sim.

(** The goal compares two texts that start with the same literal, or with two
    pieces the hints relate. *)
Ltac sim_literal rule :=
  match goal with
  | |- _ ?l ?m (?t +:+ _) (?t +:+ _) _ =>
      lazymatch t with String _ _ => idtac | EmptyString => idtac | NL => idtac | lns _ => idtac | qt _ => idtac | derive_line => idtac end;
      let r := eval vm_compute in (scan l m t).1 in
      apply (rule l t m r); [vm_compute; reflexivity|]
  end.

Ltac sim_text :=
  lazymatch goal with
  | |- sim_to _ _ (_ +:+ _) (_ +:+ _) _ =>
      first
        [ sim_literal sim_to_lit; sim_text
        | eapply sim_to_app; [solve [eauto with sim]|sim_text]
        | eapply sim_app; [solve [eauto with sim]|reflexivity|reflexivity|sim_text] ]
  | |- sim _ _ (_ +:+ _) (_ +:+ _) _ =>
      first
        [ sim_literal sim_lit; sim_text
        | eapply sim_to_app_sim; [solve [eauto with sim]|sim_text]
        | eapply sim_app_sim; [solve [eauto with sim]|reflexivity|reflexivity|sim_text] ]
  | |- sim_to ?l ?m ?t ?t _ => vm_compute; split_and!; reflexivity
  | |- sim ?l ?m ?t ?t _ => vm_compute; split_and!; reflexivity
  | |- _ => try solve [eauto with sim]
  end.

(** Contract ids are strkeys ([ValidContractId]): no quotes, escapes or line ends. *)
Definition contract_id_ok (id : string) : Prop := Forall plain_byte (bytes id).

Lemma sim_id_line l id : contract_id_ok id → sim_to l Line id id Line.
Proof.
  intros Hid. unfold sim_to. rewrite scan_line; [done|].
  eapply Forall_impl; [exact Hid|]. intros a (_ & _ & H1 & H2). by apply line_end_false.
Qed.

Lemma sim_id_quoted l id : contract_id_ok id → sim_to l Quoted id id Quoted.
Proof. intros Hid. unfold sim_to. by rewrite scan_plain. Qed.
#[local] Hint Resolve sim_id_line sim_id_quoted : sim.

(** ** Lines of a documentation comment *)

Lemma replace_go_bytes f from to s a :
  a ∈ bytes (replace_go f from to s) → a ∈ bytes s ∨ a ∈ bytes to.
Proof.
  revert s. induction f as [|f IH]; intros s; cbn [replace_go]; [by left|]. destruct s as [|c s]; [by left|].
  destruct (strip_prefix from (String c s)) as [r|] eqn:E.
  - apply strip_prefix_Some in E. rewrite E, !bytes_app, !elem_of_app. intros [?|[?|?]%IH]; auto.
  - simpl. rewrite !elem_of_cons. intros [->|[?|?]%IH]; auto.
Qed.

Lemma replace_go_removes f c to s :
  (String.length s ≤ f)%nat → c ∉ bytes to → c ∉ bytes (replace_go f (String c EmptyString) to s).
Proof.
  intros Hf Hto. revert s Hf. induction f as [|f IH]; intros s Hf; cbn [replace_go].
  { destruct s; [|simpl in Hf; lia]. by intros ?%elem_of_nil. }
  destruct s as [|a s]; [by intros ?%elem_of_nil|]. simpl in Hf.
  destruct (strip_prefix (String c EmptyString) (String a s)) as [r|] eqn:E.
  - pose proof E as E'. apply strip_prefix_Some in E'. injection E' as -> ->.
    rewrite bytes_app, elem_of_app. intros [?|H]; [done|]. revert H. apply IH. change ("" +:+ r) with r in Hf. lia.
  - intros [->|H]%elem_of_cons; [|revert H; apply IH; lia].
    change (String a s) with (String a EmptyString +:+ s) in E. by rewrite strip_prefix_app in E.
Qed.

Lemma split_on_pieces c s p a :
  p ∈ split_on c s → a ∈ bytes p → a ≠ c ∧ a ∈ bytes s.
Proof.
  revert p. induction s as [|b s IH]; intros p; simpl.
  { intros ->%list_elem_of_singleton. by intros ?%elem_of_nil. }
  destruct (Ascii.eqb_spec b c) as [->|Hne].
  - intros [->|Hp]%elem_of_cons; [by intros ?%elem_of_nil|]. intros Ha.
    destruct (IH p Hp Ha). split; [done|by right].
  - destruct (split_on c s) as [|q qs].
    + intros ->%list_elem_of_singleton. intros [->|?%elem_of_nil]%elem_of_cons; [|done].
      split; [done|by left].
    + intros [->|Hp]%elem_of_cons.
      * intros [->|Ha]%elem_of_cons; [split; [done|by left]|].
        destruct (IH q) as [? ?]; [by left|done|]. split; [done|by right].
      * intros Ha. destruct (IH p) as [? ?]; [by right|done|]. split; [done|by right].
Qed.

Lemma strip_cr_bytes s a : a ∈ bytes (strip_cr s) → a ∈ bytes s.
Proof.
  induction s as [|c s IH]; [done|]. simpl. destruct s as [|d s].
  - case_match; [by intros ?%elem_of_nil|done].
  - intros [->|?]%elem_of_cons; [by left|right; auto].
Qed.

Lemma drop_last_empty_elem l x : x ∈ drop_last_empty l → x ∈ l.
Proof.
  unfold drop_last_empty. destruct (rev l) as [|y r] eqn:E; [done|].
  assert (l = rev r ++ [y])%list as -> by (rewrite <- (rev_involutive l), E; done).
  destruct y; rewrite ?elem_of_app; auto.
Qed.

Lemma lines_elem s p : p ∈ lines s → ∃ q, q ∈ split_on (byte_of 10) s ∧ p = strip_cr q.
Proof.
  unfold lines. intros (q & -> & Hq)%list_elem_of_fmap. eauto using drop_last_empty_elem.
Qed.

Lemma lines_no_line_end s : byte_of 13 ∉ bytes s → Forall no_line_end (lines s).
Proof.
  intros Hcr. apply Forall_forall. intros p (q & Hq & ->)%lines_elem. apply Forall_forall.
  intros a Ha%strip_cr_bytes. destruct (split_on_pieces _ _ _ _ Hq Ha) as [Hne Hin].
  apply line_end_false; intros E; apply (f_equal byte_of) in E; rewrite byte_of_val in E; congruence.
Qed.

Lemma replace_no_cr from to s : byte_of 13 ∉ bytes to → byte_of 13 ∉ bytes s → byte_of 13 ∉ bytes (replace from to s).
Proof. by intros ? ? [?|?]%replace_go_bytes. Qed.

Lemma rust_doc_no_cr s : byte_of 13 ∉ bytes (rust_doc s).
Proof.
  unfold rust_doc. apply replace_no_cr; [by apply (bool_decide_unpack _); vm_compute|].
  apply replace_no_cr; [by apply (bool_decide_unpack _); vm_compute|].
  apply replace_go_removes; [done|]. by apply (bool_decide_unpack _); vm_compute.
Qed.

(** ** Block comments *)

(** The text does not close the block comment it is in; [star] says that a star
    precedes it. *)
Fixpoint stays_open (star : bool) (s : string) : bool :=
  match s with
  | EmptyString => true
  | String a s' => negb (star && (byte_val a =? 47)) && stays_open (byte_val a =? 42) s'
  end.

Definition block_mode (star : bool) : Mode := if star then BlockStar else Block.

Lemma scan_open star s :
  stays_open star s = true →
  ∃ star', scan TypeScript (block_mode star) s = (block_mode star', []).
Proof.
  revert star. induction s as [|a s IH]; intros star; simpl; [by exists star|].
  intros [Ha [star' Hs]%IH]%andb_prop. exists star'.
  assert (scan_byte TypeScript (block_mode star) a = (block_mode (byte_val a =? 42), [])) as ->.
  { destruct star; simpl in *; [|by destruct (byte_val a =? 42)].
    apply negb_true_iff in Ha. rewrite Ha. by destruct (byte_val a =? 42). }
  by rewrite Hs.
Qed.

Lemma stays_open_weaken star s : stays_open star s = true → stays_open false s = true.
Proof. destruct s; [done|]. simpl. by intros [_ ?]%andb_prop. Qed.

Lemma stays_open_app star s t : stays_open star (s +:+ t) = true → stays_open false t = true.
Proof.
  revert star. induction s as [|a s IH]; intros star; [apply stays_open_weaken|].
  simpl. intros [_ ?]%andb_prop. eauto.
Qed.

(** The first replacement removes every closing mark. *)
Lemma replace_close_open f s star :
  (String.length s ≤ f)%nat → (star = true → strip_prefix "/" s = None) →
  stays_open star (replace_go f "*/" "*\/" s) = true.
Proof.
  revert s star. induction f as [|f IH]; intros s star Hf Hstar; cbn [replace_go].
  { by destruct s; [|simpl in Hf; lia]. }
  destruct s as [|a s]; [done|]. cbn [String.length] in Hf.
  destruct (strip_prefix "*/" (String a s)) as [r|] eqn:E.
  - apply strip_prefix_Some in E. injection E as -> ->. cbn [String.append String.length] in *.
    assert (∀ X, stays_open false X = true → stays_open star ("*\/" +:+ X) = true) as Hlit
      by (intros X HX; by destruct star).
    apply Hlit, IH; [|done]. change (String.length ("/" +:+ r)) with (S (String.length r)) in Hf. lia.
  - cbn [stays_open]. apply andb_true_iff. split.
    + destruct star; [|done]. specialize (Hstar eq_refl). simpl.
      destruct (Z.eqb_spec (byte_val a) 47) as [Ha|]; [|done].
      assert (a = "/"%char) as -> by (by apply byte_val_inj). done.
    + apply IH; [lia|]. intros Ha%Z.eqb_eq.
      assert (a = "*"%char) as -> by (by apply byte_val_inj).
      destruct (strip_prefix "/" s) as [r|] eqn:E'; [|done].
      apply strip_prefix_Some in E' as ->. change (String "*" ("/" +:+ r)) with ("*/" +:+ r) in E. by rewrite strip_prefix_app in E.
Qed.

Lemma replace_keeps_open f from to s star :
  (∀ b t, stays_open false t = true → stays_open b (to +:+ t) = true) →
  stays_open star s = true → stays_open star (replace_go f from to s) = true.
Proof.
  intros Hto. revert s star. induction f as [|f IH]; intros s star Hs; cbn [replace_go]; [done|].
  destruct s as [|a s]; [done|].
  destruct (strip_prefix from (String a s)) as [r|] eqn:E.
  - apply strip_prefix_Some in E. rewrite E in Hs. apply Hto, IH. by eapply stays_open_app.
  - cbn [stays_open] in *. apply andb_true_iff in Hs as [-> Hs]. simpl. by apply IH.
Qed.

Lemma ts_doc_open s : stays_open false (ts_doc s) = true.
Proof.
  unfold ts_doc, replace.
  apply replace_keeps_open; [by intros []|].
  apply replace_keeps_open; [by intros []|].
  apply replace_keeps_open; [by intros []|].
  by apply replace_close_open.
Qed.

Lemma split_on_open c s star :
  stays_open star s = true →
  ∃ p ps, split_on c s = p :: ps ∧ stays_open star p = true ∧ Forall (λ q, stays_open false q = true) ps.
Proof.
  revert star. induction s as [|a s IH]; intros star; simpl; [by eauto|].
  intros [Ha Hs]%andb_prop. destruct (IH _ Hs) as (p & ps & E & Hp & Hps). rewrite E.
  destruct (Ascii.eqb a c).
  - exists EmptyString, (p :: ps). split_and!; [done..|]. constructor; [|done]. by eapply stays_open_weaken.
  - exists (String a p), ps. split_and!; [done| |done]. simpl. by rewrite Ha, Hp.
Qed.

Lemma strip_cr_open s star : stays_open star s = true → stays_open star (strip_cr s) = true.
Proof.
  revert star. induction s as [|a s IH]; intros star; [done|]. intros H.
  destruct s as [|b s]; [by cbn [strip_cr]; case_match|].
  change (strip_cr (String a (String b s))) with (String a (strip_cr (String b s))).
  cbn [stays_open] in H |- *. apply andb_true_iff in H as [-> H]. by apply (IH (byte_val a =? 42)).
Qed.

Lemma lines_open s : stays_open false s = true → Forall (λ q, stays_open false q = true) (lines s).
Proof.
  intros Hs. apply Forall_forall. intros x (q & Hq & ->)%lines_elem. apply strip_cr_open.
  destruct (split_on_open (byte_of 10) s false Hs) as (p & ps & E & Hp & Hps).
  rewrite E in Hq. apply elem_of_cons in Hq as [->|Hq]; [done|]. rewrite Forall_forall in Hps. auto.
Qed.

(** A comment is one token, whatever its text. *)
Lemma scan_block_comment s :
  stays_open false s = true → scan TypeScript Block (s +:+ " */") = (Code, []).
Proof.
  intros [star Hs]%scan_open. cbn [block_mode] in Hs. rewrite scan_app, Hs. by destruct star.
Qed.

Lemma scan_method_doc doc :
  scan TypeScript Code (render_method_doc doc) =
  if is_blank doc then (Code, []) else (Code, [TSym " "; TSym " "; TBlock; TSym (byte_of 10)]).
Proof.
  unfold render_method_doc. destruct (is_blank doc); [done|].
  assert (scan TypeScript Block
    (concat_str ((λ line, "   * " +:+ line +:+ NL) <$> lines (ts_doc (trim doc)))) = (Block, [])) as Hl.
  { pose proof (lines_open _ (ts_doc_open (trim doc))) as Hall.
    induction Hall as [|x xs [star Hx]%scan_open _ IH]; [done|]. cbn [fmap list_fmap concat_str].
    assert (scan TypeScript Block ("   * " +:+ x +:+ NL) = (Block, [])) as Hline.
    { rewrite scan_app. assert (scan TypeScript Block "   * " = (Block, [])) as -> by reflexivity.
      cbn [fst snd]. rewrite scan_app. cbn [block_mode] in Hx. rewrite Hx. by destruct star. }
    rewrite scan_app, Hline. cbn [fst snd]. by rewrite IH. }
  rewrite scan_app. assert (scan TypeScript Code "  /**" = (BlockStar, [TSym " "; TSym " "; TBlock])) as -> by reflexivity.
  cbn [fst snd]. rewrite scan_app. assert (scan TypeScript BlockStar NL = (Block, [])) as -> by reflexivity.
  cbn [fst snd]. by rewrite scan_app, Hl.
Qed.

Section clients.
Context `{Stellar}.
Variable dp : Z → bool.
Variable ren redoc : string → string.

(** ** Python *)

Lemma sim_py_ident a b p i : word Python p → sim Python Code (py_ident a p i) (py_ident b p i) Code.
Proof. intros Hp. apply sim_word; by apply py_ident_word. Qed.

Lemma sim_py_type_name a b : sim Python Code (py_type_name a) (py_type_name b) Code.
Proof. apply sim_word; apply type_name_word. Qed.

Lemma word_lit l s : s ≠ "" → forallb (ident_byte l) (bytes s) = true → word l s.
Proof.
  intros Hne Hall. split; [done|]. apply Is_true_true, forallb_True in Hall.
  eapply Forall_impl; [exact Hall|]. by intros a Ha%Is_true_true.
Qed.

#[local] Hint Resolve sim_py_ident sim_py_type_name : sim.
#[local] Hint Extern 1 (word _ _) => (apply word_lit; [discriminate|reflexivity]) : sim.

Lemma sim_fmap_join l (f g : ScSpecTypeDef → string) ts :
  Forall (λ t, sim l Code (f (rename_ty ren t)) (g t) Code) ts →
  sim l Code (join ", " (f <$> (rename_ty ren <$> ts))) (join ", " (g <$> ts)) Code.
Proof.
  intros Hall. rewrite <- list_fmap_compose.
  apply sim_join; [by destruct l|by destruct l|done|]. by apply Forall_Forall2_diag.
Qed.

#[local] Hint Resolve sim_fmap_join : sim.

Lemma sim_py_type t : sim Python Code (py_type (rename_ty ren t)) (py_type t) Code.
Proof.
  induction t using typedef_ind_strong; cbn [rename_ty py_type]; try sim_text; auto.
  destruct t; cbn [rename_ty py_type]; try done; auto with sim.
Qed.
#[local] Hint Resolve sim_py_type : sim.

Lemma sim_py_return_type tys :
  sim Python Code (py_return_type (rename_ty ren <$> tys)) (py_return_type tys) Code.
Proof. destruct tys; cbn; [done|auto with sim]. Qed.
#[local] Hint Resolve sim_py_return_type : sim.

Lemma sim_imap_concat {A B} (f : nat → A → string) (g : nat → B → string) l m xs (h : B → A) :
  (∀ i x, sim_to l m (f i (h x)) (g i x) m) →
  sim_to l m (concat_str (imap f (h <$> xs))) (concat_str (imap g xs)) m.
Proof.
  intros Hfg. rewrite imap_fmap. revert f g Hfg.
  induction xs as [|x xs IH]; intros f g Hfg; [apply sim_to_nil|]. cbn [imap concat_str].
  eapply sim_to_app; [apply Hfg|]. apply (IH (f ∘ S) (g ∘ S)). intros i y. apply Hfg.
Qed.

Lemma sim_fmap_concat {A B} (f : A → string) (g : B → string) l m xs (h : B → A) :
  (∀ x, sim_to l m (f (h x)) (g x) m) →
  sim_to l m (concat_str (f <$> (h <$> xs))) (concat_str (g <$> xs)) m.
Proof.
  intros Hfg. rewrite <- list_fmap_compose. apply sim_to_concat.
  apply Forall_Forall2_diag, Forall_true, Hfg.
Qed.

Lemma imap_as_fmap {A B} (f : nat → A → B) xs : imap f xs = uncurry f <$> imap pair xs.
Proof. rewrite fmap_imap. by apply imap_ext. Qed.

Lemma sim_imap_join {A B} (f : nat → A → string) (g : nat → B → string) l xs (h : B → A) :
  (∀ i x, sim l Code (f i (h x)) (g i x) Code) →
  sim l Code (join ", " (imap f (h <$> xs))) (join ", " (imap g xs)) Code.
Proof.
  intros Hfg. rewrite imap_fmap, (imap_as_fmap (λ i, f i ∘ h)), (imap_as_fmap g).
  apply sim_join; [by destruct l|by destruct l|done|].
  apply Forall_Forall2_diag, Forall_true. intros [i x]. apply Hfg.
Qed.
#[local] Hint Extern 2 (sim_to _ _ (concat_str (imap _ _)) _ _) =>
  (apply sim_imap_concat; intros ? ?; cbn [rename_field f_name f_ty fst]; sim_text) : sim.
#[local] Hint Extern 2 (sim _ _ (join _ (imap _ _)) _ _) =>
  (apply sim_imap_join; intros ? ?; cbn [rename_field f_name f_ty fst]; sim_text) : sim.

Lemma sim_py_struct s : sim_to Python Code (py_struct (rename_struct ren s)) (py_struct s) Code.
Proof.
  unfold py_struct. cbn [rename_struct s_name s_fields].
  sim_text. destruct (s_fields s) as [|x xs]; cbn [is_empty fmap list_fmap]; [sim_text|].
  apply (sim_imap_concat _ _ Python Code (x :: xs) (rename_field ren)). intros i f. cbn [rename_field f_name f_ty]. sim_text.
Qed.

Lemma sim_py_enum e : sim_to Python Code (py_enum dp (rename_enum ren e)) (py_enum dp e) Code.
Proof.
  unfold py_enum. cbn [rename_enum n_name n_cases].
  sim_text. destruct (n_cases e) as [|x xs]; cbn [is_empty fmap list_fmap]; [sim_text|].
  apply (sim_imap_concat _ _ Python Code (x :: xs) (λ c, (ren c.1, c.2))). intros i f. cbn [fst]. sim_text.
Qed.

Lemma sim_py_doc_line (b : bool) d d' :
  sim_to Python Code (if b then "" else "        " +:+ py_doc d +:+ NL)
    (if b then "" else "        " +:+ py_doc d' +:+ NL) Code.
Proof. destruct b; [apply sim_to_nil|sim_text]. Qed.
#[local] Hint Resolve sim_py_doc_line : sim.

Lemma is_empty_fmap {A B} (f : A → B) l : is_empty (f <$> l) = is_empty l.
Proof. by destruct l. Qed.

Lemma sim_py_method fi f :
  is_blank (redoc (fs_doc f)) = is_blank (fs_doc f) →
  sim_to Python Code (py_method dp fi (rename_function ren redoc f)) (py_method dp fi f) Code.
Proof.
  intros Hdoc. unfold py_method.
  cbn [rename_function fs_name fs_doc fs_inputs fs_output_tys]. rewrite Hdoc, is_empty_fmap.
  destruct (is_empty (fs_inputs f)); sim_text.
Qed.

Lemma sim_py_header id : contract_id_ok id → sim_to Python Code (py_header id) (py_header id) Code.
Proof. intros Hid. unfold py_header. sim_text. Qed.

Lemma sim_py_class id : sim_to Python Code (py_class dp id) (py_class dp id) Code.
Proof. unfold py_class. sim_text. Qed.
#[local] Hint Resolve sim_py_header sim_py_class : sim.

Lemma sim_imap_concat_in {A B} (f : nat → A → string) (g : nat → B → string) l m xs (h : B → A) :
  Forall (λ x, ∀ i, sim_to l m (f i (h x)) (g i x) m) xs →
  sim_to l m (concat_str (imap f (h <$> xs))) (concat_str (imap g xs)) m.
Proof.
  intros Hfg. rewrite imap_fmap. revert f g Hfg.
  induction xs as [|x xs IH]; intros f g Hfg; [apply sim_to_nil|]. cbn [imap concat_str].
  apply Forall_cons in Hfg as [Hx Hxs].
  eapply sim_to_app; [apply Hx|]. apply (IH (f ∘ S) (g ∘ S)).
  eapply Forall_impl; [exact Hxs|]. intros y Hy i. apply Hy.
Qed.

Lemma sim_to_skeleton l m s t : sim_to l Code s t m → skeleton l s = skeleton l t.
Proof. by intros (_ & _ & ?). Qed.

(** ** Rust *)

Lemma sim_rust_ident a b p i : word Rust p → sim Rust Code (rust_ident a p i) (rust_ident b p i) Code.
Proof. intros Hp. apply sim_rust_word; by apply rust_ident_word. Qed.

Lemma sim_rust_type_name a b : sim Rust Code (rust_type_name a) (rust_type_name b) Code.
Proof. apply sim_word; apply type_name_word. Qed.
#[local] Hint Resolve sim_rust_ident sim_rust_type_name : sim.

Lemma sim_rust_type t : sim Rust Code (rust_type (rename_ty ren t)) (rust_type t) Code.
Proof.
  induction t using typedef_ind_strong; cbn [rename_ty rust_type]; try sim_text; auto.
  destruct t; cbn [rename_ty rust_type]; try done; auto with sim.
Qed.
#[local] Hint Resolve sim_rust_type : sim.

Lemma sim_rust_return_type tys :
  sim Rust Code (rust_return_type (rename_ty ren <$> tys)) (rust_return_type tys) Code.
Proof. destruct tys; cbn; [done|auto with sim]. Qed.
#[local] Hint Resolve sim_rust_return_type : sim.

Lemma sim_rust_union_case i c :
  sim_to Rust Code (rust_union_case i (rename_case ren c)) (rust_union_case i c) Code.
Proof.
  unfold rust_union_case. cbn [rename_case c_name c_tys].
  pose proof (sim_fmap_join Rust rust_type rust_type (c_tys c) (Forall_true _ _ sim_rust_type)) as Hj.
  destruct (c_tys c) as [|t [|t' ts]]; cbn [fmap list_fmap] in *; sim_text.
Qed.

#[local] Hint Resolve sim_rust_union_case : sim.

Lemma sim_rust_struct s : sim_to Rust Code (rust_struct (rename_struct ren s)) (rust_struct s) Code.
Proof.
  unfold rust_struct. cbn [rename_struct s_name s_fields].
  sim_text.
Qed.

Lemma sim_rust_enum e : sim_to Rust Code (rust_enum (rename_enum ren e)) (rust_enum e) Code.
Proof.
  unfold rust_enum. cbn [rename_enum n_name n_cases].
  sim_text.
Qed.

Lemma sim_rust_union u : sim_to Rust Code (rust_union (rename_union ren u)) (rust_union u) Code.
Proof.
  unfold rust_union. cbn [rename_union u_name u_cases].
  sim_text.
Qed.


(** The documentation of a Rust method keeps its number of lines. *)
Definition same_doc_lines (d d' : string) : Prop :=
  is_blank d = is_blank d' ∧
  length (lines (rust_doc (trim d))) = length (lines (rust_doc (trim d'))).

Lemma sim_rust_doc_lines l l' :
  Forall no_line_end l → Forall no_line_end l' → length l = length l' →
  sim_to Rust Code (concat_str ((λ line, "    /// " +:+ line +:+ NL) <$> l))
    (concat_str ((λ line, "    /// " +:+ line +:+ NL) <$> l')) Code.
Proof.
  intros Hl Hl' Hlen. apply sim_to_concat. apply Forall2_same_length_lookup. split; [done|].
  intros i x y Hx Hy. rewrite Forall_lookup in Hl, Hl'.
  assert (sim_to Rust Line x y Line)
    by (unfold sim_to; rewrite !scan_line by eauto; done).
  sim_text.
Qed.

Lemma sim_rust_method fi f :
  same_doc_lines (redoc (fs_doc f)) (fs_doc f) →
  sim_to Rust Code (rust_method dp fi (rename_function ren redoc f)) (rust_method dp fi f) Code.
Proof.
  intros [Hdoc Hlen]. unfold rust_method.
  cbn [rename_function fs_name fs_doc fs_inputs fs_output_tys]. rewrite Hdoc, !is_empty_fmap.
  pose proof (sim_rust_doc_lines _ _ (lines_no_line_end _ (rust_doc_no_cr (trim (redoc (fs_doc f)))))
    (lines_no_line_end _ (rust_doc_no_cr (trim (fs_doc f)))) Hlen).
  destruct (is_blank (fs_doc f)), (is_empty (fs_inputs f)), (is_empty (fs_output_tys f));
    rewrite ?string_app_assoc; sim_text.
Qed.

#[local] Hint Resolve sim_rust_struct sim_rust_enum sim_rust_union : sim.

Lemma sim_rust_header id : contract_id_ok id → sim_to Rust Code (rust_header dp id) (rust_header dp id) Code.
Proof. intros Hid. unfold rust_header. sim_text. Qed.

Lemma sim_rust_impl : sim_to Rust Code rust_impl rust_impl Code.
Proof. vm_compute. by split_and!. Qed.

Lemma sim_python_client id spec :
  contract_id_ok id →
  Forall (λ f, is_blank (redoc (fs_doc f)) = is_blank (fs_doc f)) (functions spec) →
  sim_to Python Code (python_client dp id (rename ren redoc spec)) (python_client dp id spec) Code.
Proof.
  intros Hid Hdoc. unfold python_client, rename. cbn [with_lists functions structs enums].
  eapply sim_to_app; [by apply sim_py_header|].
  eapply sim_to_app; [apply sim_fmap_concat, sim_py_struct|].
  eapply sim_to_app; [apply sim_fmap_concat, sim_py_enum|].
  eapply sim_to_app; [apply sim_py_class|].
  apply sim_imap_concat_in. eapply Forall_impl; [exact Hdoc|]. intros f Hf i. by apply sim_py_method.
Qed.

Lemma sim_rust_client id spec :
  contract_id_ok id →
  Forall (λ f, same_doc_lines (redoc (fs_doc f)) (fs_doc f)) (functions spec) →
  sim_to Rust Code (rust_client dp id (rename ren redoc spec)) (rust_client dp id spec) Code.
Proof.
  intros Hid Hdoc. unfold rust_client, rename. cbn [with_lists functions structs enums unions].
  eapply sim_to_app; [by apply sim_rust_header|].
  eapply sim_to_app; [apply sim_fmap_concat, sim_rust_struct|].
  eapply sim_to_app; [apply sim_fmap_concat, sim_rust_enum|].
  eapply sim_to_app; [apply sim_fmap_concat, sim_rust_union|].
  eapply sim_to_app; [apply sim_rust_impl|].
  apply (sim_to_app _ _ Code); [|sim_text].
  apply sim_imap_concat_in. eapply Forall_impl; [exact Hdoc|]. intros f Hf i. by apply sim_rust_method.
Qed.

(** ** TypeScript *)

(** Names the generator treats specially. *)
Definition reserved_names : list string := "constructor" :: ((λ '(n, _, _), n) <$> ALIASES).

Definition all_digits (name : string) : bool := forallb is_ascii_digit (chars name).

(** Renaming keeps the class of a name: an identifier, a tuple field, reserved. *)
Definition keeps_class : Prop := ∀ n,
  is_ts_ident (ren n) = is_ts_ident n ∧ all_digits (ren n) = all_digits n ∧
  (∀ a, a ∈ reserved_names → String.eqb (ren n) a = String.eqb n a).

Definition udt_names (spec : ContractSpec) : list string :=
  (s_name <$> structs spec) ++ (u_name <$> unions spec) ++ (n_name <$> enums spec) ++
  (xe_name <$> errors spec).

(** The names of the interface's types are identifiers; codes are unsigned. *)
Definition ts_spec_ok (spec : ContractSpec) : Prop :=
  Forall (λ n, is_ts_ident n = true) (udt_names spec) ∧
  Forall (λ e, Forall (λ c, 0 ≤ x_code c) (xe_cases e)) (errors spec).

Lemma has_udt_spec spec name : has_udt spec name = existsb (λ n, String.eqb n name) (udt_names spec).
Proof.
  unfold has_udt, udt_names. rewrite !existsb_app.
  assert (∀ A (f : A → string) l, existsb (λ n, String.eqb n name) (f <$> l) = existsb (λ x, String.eqb (f x) name) l)
    as E by (intros A f l; induction l as [|x l IH]; [done|]; simpl; by rewrite <- IH).
  rewrite !E. by rewrite !orb_assoc.
Qed.

Lemma udt_names_rename spec : udt_names (rename ren redoc spec) = ren <$> udt_names spec.
Proof.
  unfold udt_names, rename. cbn [with_lists structs unions enums errors].
  rewrite !fmap_app, <- !list_fmap_compose. done.
Qed.

Lemma has_udt_rename spec a :
  keeps_class → a ∈ reserved_names → has_udt (rename ren redoc spec) a = has_udt spec a.
Proof.
  intros Hk Ha. rewrite !has_udt_spec, udt_names_rename.
  induction (udt_names spec) as [|n ns IH]; [done|]. cbn [fmap list_fmap existsb].
  destruct (Hk n) as (_ & _ & Hr). by rewrite (Hr a Ha), <- IH.
Qed.

Lemma has_udt_word spec n : ts_spec_ok spec → has_udt spec n = true → word TypeScript n.
Proof.
  intros [Hn _]. rewrite has_udt_spec. intros (x & Hx & ->%String.eqb_eq)%existsb_exists.
  apply ts_ident_word. rewrite Forall_forall in Hn. apply Hn. by apply list_elem_of_In.
Qed.

Lemma ts_spec_ok_rename spec : keeps_class → ts_spec_ok spec → ts_spec_ok (rename ren redoc spec).
Proof.
  intros Hk [Hn Hc]. split.
  - rewrite udt_names_rename. apply Forall_fmap. eapply Forall_impl; [exact Hn|].
    intros n Hn'. unfold compose. destruct (Hk n) as (-> & _ & _). done.
  - unfold rename. cbn [with_lists errors]. apply Forall_fmap. eapply Forall_impl; [exact Hc|].
    intros e He. unfold compose. cbn [rename_error xe_cases]. apply Forall_fmap.
    eapply Forall_impl; [exact He|]. by intros c.
Qed.

(** The two computations reference the same aliases and give related results. *)
Definition gsim {A B} (R : A → B → Prop) (m : G A) (n : G B) : Prop :=
  ∀ used, R (m used).1 (n used).1 ∧ (m used).2 = (n used).2.

Lemma gsim_ret {A B} (R : A → B → Prop) x y : R x y → gsim R (gret x) (gret y).
Proof. by intros HR used. Qed.

Lemma gsim_bind {A B C D} (R : A → B → Prop) (Q : C → D → Prop) m n k j :
  gsim R m n → (∀ x y, R x y → gsim Q (k x) (j y)) → gsim Q (gbind m k) (gbind n j).
Proof.
  intros Hm Hk used. unfold gbind. destruct (Hm used) as [HR Hu].
  destruct (m used) as [x u], (n used) as [y v]. simpl in *. subst. by apply Hk.
Qed.

Lemma gsim_mapM {A B C D} (R : C → D → Prop) (f : A → G C) (g : B → G D) xs ys :
  Forall2 (λ x y, gsim R (f x) (g y)) xs ys → gsim (Forall2 R) (gmapM f xs) (gmapM g ys).
Proof.
  induction 1 as [|x y xs ys Hxy _ IH]; [by apply gsim_ret|]. cbn [gmapM].
  eapply gsim_bind; [exact Hxy|]. intros u v Huv.
  eapply gsim_bind; [exact IH|]. intros us vs Hs. apply gsim_ret. by constructor.
Qed.

Lemma gsim_fmap_mapM {A B C D} (R : C → D → Prop) (f : A → G C) (g : B → G D) (h : B → A) xs :
  Forall (λ x, gsim R (f (h x)) (g x)) xs → gsim (Forall2 R) (gmapM f (h <$> xs)) (gmapM g xs).
Proof.
  intros Hall. apply gsim_mapM. apply Forall2_fmap_l. by apply Forall_Forall2_diag.
Qed.

(** Texts of types: related, and both or neither have a top-level bar. *)
Definition ty_sim (s t : string) : Prop :=
  sim TypeScript Code s t Code ∧ contains_str "|" s = contains_str "|" t.

Lemma contains_bar s : contains_str "|" s = existsb (Ascii.eqb "|") (bytes s).
Proof.
  unfold contains_str. induction s as [|a s IH]; [done|]. cbn [after_first bytes String.list_ascii_of_string existsb].
  destruct (strip_prefix "|" (String a s)) as [r|] eqn:E.
  - apply strip_prefix_Some in E. by injection E as -> ->.
  - rewrite IH. destruct (Ascii.eqb_spec "|" a) as [<-|]; [|done].
    change (String "|" s) with ("|" +:+ s) in E. by rewrite strip_prefix_app in E.
Qed.

Lemma contains_bar_app s t : contains_str "|" (s +:+ t) = contains_str "|" s || contains_str "|" t.
Proof. by rewrite !contains_bar, bytes_app, existsb_app. Qed.

Lemma word_no_bar s : word TypeScript s → contains_str "|" s = false.
Proof.
  intros [_ Hall]. rewrite contains_bar. induction Hall as [|a l Ha _ IH]; [done|].
  cbn [existsb]. rewrite IH. destruct (Ascii.eqb_spec "|" a) as [<-|]; [done|done].
Qed.

Lemma ty_sim_word s t : word TypeScript s → word TypeScript t → ty_sim s t.
Proof. intros. split; [by apply sim_word|]. by rewrite !word_no_bar. Qed.

Lemma ty_sim_same s : settle (scan TypeScript Code s).1 = Code → ty_sim s s.
Proof. by split. Qed.

Lemma ty_sim_join xs ys : Forall2 ty_sim xs ys → ty_sim (join ", " xs) (join ", " ys).
Proof.
  intros Hall. split.
  - rewrite <- (list_fmap_id xs), <- (list_fmap_id ys). apply sim_join; [done..|].
    eapply Forall2_impl; [exact Hall|]. by intros ?? [].
  - induction Hall as [|x y xs ys [_ Hxy] Hall IH]; [done|].
    destruct Hall; [done|]. cbn [join] in *. rewrite !contains_bar_app. rewrite contains_bar_app in IH || idtac.
    rewrite Hxy. f_equal. f_equal. exact IH.
Qed.

Lemma sim_alias spec a :
  keeps_class → a ∈ reserved_names → word TypeScript a →
  settle (scan TypeScript Code (default "" (alias_def a))).1 = Code →
  gsim ty_sim (alias (rename ren redoc spec) a) (alias spec a).
Proof.
  intros Hk Ha Hw Hd used. unfold alias. rewrite has_udt_rename by done.
  destruct (has_udt spec a); simpl; split; auto using ty_sim_same, ty_sim_word.
Qed.

Lemma sim_ts spec t pos :
  keeps_class → ts_spec_ok spec →
  gsim ty_sim (ts (rename ren redoc spec) (rename_ty ren t) pos) (ts spec t pos).
Proof.
  intros Hk Hok. pose proof (ts_spec_ok_rename spec Hk Hok) as Hok'.
  induction t as [t Ha|o IH|ok e IHo IHe|v IH|k v IHk IHv|l IH] using typedef_ind_strong; cbn [rename_ty ts].
  - destruct t; try done; cbn [rename_ty ts];
      try (apply gsim_ret; apply ty_sim_same; by destruct pos);
      try (apply sim_alias; [done|by apply (bool_decide_unpack _); vm_compute|by apply word_lit|by vm_compute]).
    apply gsim_ret. apply ty_sim_word; case_match; eauto using has_udt_word; by apply word_lit.
  - eapply gsim_bind; [exact IH|]. intros x y [Hs Hb]. apply gsim_ret.
    split; [sim_text|by rewrite !contains_bar_app, Hb].
  - destruct pos; [|done]. apply gsim_ret, ty_sim_same. done.
  - eapply gsim_bind; [exact IH|]. intros x y [Hs Hb]. apply gsim_ret. rewrite <- Hb.
    destruct (contains_str "|" x) eqn:E; (split; [sim_text|by rewrite !contains_bar_app, E, <- Hb]).
  - eapply gsim_bind; [exact IHv|]. intros x y [Hs Hb]. apply gsim_ret.
    split; [sim_text|by rewrite !contains_bar_app, Hb].
  - eapply gsim_bind; [by apply gsim_fmap_mapM|]. intros xs ys [Hs Hb]%ty_sim_join. apply gsim_ret.
    split; [sim_text|by rewrite !contains_bar_app, Hb].
Qed.

Definition block_sim (s t : string) : Prop := sim_to TypeScript Code s t Code.

Lemma sim_ts_type_name a b : sim TypeScript Code (ts_type_name a) (ts_type_name b) Code.
Proof.
  assert (∀ n, word TypeScript (ts_type_name n)) as Hw.
  { intros n. unfold ts_type_name. destruct (is_ts_ident n) eqn:E; [by apply ts_ident_word|].
    apply word_app; [by apply word_lit|apply sanitize_word]. }
  by apply sim_word.
Qed.

Lemma sim_ts_case_name a b : sim TypeScript Code (ts_case_name a) (ts_case_name b) Code.
Proof.
  assert (∀ n, word TypeScript (ts_case_name n)) as Hw.
  { intros n. unfold ts_case_name. destruct (is_ts_ident n) eqn:E; [by apply ts_ident_word|].
    apply word_app; [by apply word_lit|apply sanitize_word]. }
  by apply sim_word.
Qed.

Lemma sim_ts_key a : keeps_class → sim TypeScript Code (ts_key dp (ren a)) (ts_key dp a) Code.
Proof.
  intros Hk. unfold ts_key. destruct (Hk a) as (E & _ & _). pose proof E as E'.
  destruct (is_ts_ident a) eqn:Ha; rewrite E.
  - apply sim_word; by apply ts_ident_word.
  - apply (sim_of_to _ _ _ _ Code), sim_debug_str.
Qed.
#[local] Hint Resolve sim_ts_type_name sim_ts_case_name sim_ts_key : sim.

Lemma concat_block xs ys : Forall2 block_sim xs ys → block_sim (concat_str xs) (concat_str ys).
Proof.
  intros Hall. rewrite <- (list_fmap_id xs), <- (list_fmap_id ys). by apply sim_to_concat.
Qed.

Lemma sim_comment s t :
  sim_to TypeScript Block (ts_doc s +:+ " */") (ts_doc t +:+ " */") Code.
Proof. unfold sim_to. rewrite !scan_block_comment by apply ts_doc_open. done. Qed.

Lemma sim_comment_then s t u v m :
  sim_to TypeScript Code u v m →
  sim_to TypeScript Block (ts_doc s +:+ " */" +:+ u) (ts_doc t +:+ " */" +:+ v) m.
Proof. intros Huv. rewrite <- !(string_app_assoc _ " */"). by eapply sim_to_app; [apply sim_comment|]. Qed.

Lemma is_tuple_struct_rename s : keeps_class → is_tuple_struct (rename_struct ren s) = is_tuple_struct s.
Proof.
  intros Hk. unfold is_tuple_struct. cbn [rename_struct s_fields]. rewrite is_empty_fmap. f_equal.
  induction (s_fields s) as [|f fs IH]; [done|]. cbn [fmap list_fmap forallb]. 
  destruct (Hk (f_name f)) as (_ & E & _). unfold all_digits in E. cbn [rename_field f_name]. by rewrite E, <- IH.
Qed.

Section ts_client.
Variable spec : ContractSpec.
Hypothesis Hk : keeps_class.
Hypothesis Hok : ts_spec_ok spec.

Local Abbreviation spec' := (rename ren redoc spec).

Lemma sim_tys tys pos :
  gsim (Forall2 ty_sim) (gmapM (λ t, ts spec' t pos) (rename_ty ren <$> tys)) (gmapM (λ t, ts spec t pos) tys).
Proof. apply gsim_fmap_mapM, Forall_true. intros t. by apply sim_ts. Qed.

Lemma sim_render_struct s : gsim block_sim (render_struct dp spec' (rename_struct ren s)) (render_struct dp spec s).
Proof.
  unfold render_struct. rewrite is_tuple_struct_rename by done. cbn [rename_struct s_name s_fields].
  destruct (is_tuple_struct s).
  - eapply gsim_bind; [apply gsim_fmap_mapM, Forall_true; intros f; cbn [rename_field f_ty]; by apply sim_ts|].
    intros xs ys [Hs _]%ty_sim_join. apply gsim_ret. unfold block_sim. sim_text.
  - eapply gsim_bind.
    { apply (gsim_fmap_mapM block_sim), Forall_true. intros f. cbn [rename_field f_name f_ty].
      eapply gsim_bind; [by apply sim_ts|]. intros x y [Hs _]. apply gsim_ret. unfold block_sim. sim_text. }
    intros xs ys Hb%concat_block. apply gsim_ret. unfold block_sim in *. sim_text.
Qed.

Lemma sim_render_union_case c :
  gsim (λ s t, sim TypeScript Code s t Code)
    (render_union_case dp spec' (rename_case ren c)) (render_union_case dp spec c).
Proof.
  unfold render_union_case. cbn [rename_case c_name c_tys]. rewrite is_empty_fmap.
  destruct (is_empty (c_tys c)); [apply gsim_ret, (sim_of_to _ _ _ _ Code), sim_debug_str|].
  eapply gsim_bind; [apply sim_tys|]. intros xs ys [Hs _]%ty_sim_join. apply gsim_ret. sim_text.
Qed.

Lemma sim_render_union u : gsim block_sim (render_union dp spec' (rename_union ren u)) (render_union dp spec u).
Proof.
  unfold render_union. cbn [rename_union u_name u_cases].
  eapply gsim_bind; [apply gsim_fmap_mapM, Forall_true, sim_render_union_case|].
  intros xs ys Hall. apply gsim_ret. unfold block_sim.
  assert (sim TypeScript Code (join (NL +:+ "  | ") xs) (join (NL +:+ "  | ") ys) Code).
  { rewrite <- (list_fmap_id xs), <- (list_fmap_id ys). by apply sim_join. }
  sim_text.
Qed.

Lemma sim_render_enum e : block_sim (render_enum dp (rename_enum ren e)) (render_enum dp e).
Proof.
  unfold render_enum, block_sim. cbn [rename_enum n_name n_cases].
  assert (sim TypeScript Code
    (join " | " ((λ '(name, _), debug_str dp name) <$> ((λ c, (ren c.1, c.2)) <$> n_cases e)))
    (join " | " ((λ '(name, _), debug_str dp name) <$> n_cases e)) Code).
  { rewrite <- list_fmap_compose. apply sim_join; [done..|]. apply Forall_Forall2_diag, Forall_true.
    intros [n v]. apply (sim_of_to _ _ _ _ Code), sim_debug_str. }
  do 2 (eapply sim_to_lit; [vm_compute; reflexivity|]). apply sim_comment_then. sim_text.
Qed.

Lemma sim_render_error_enum e :
  Forall (λ c, 0 ≤ x_code c) (xe_cases e) →
  block_sim (render_error_enum (rename_error ren e)) (render_error_enum e).
Proof.
  intros Hc. unfold render_error_enum, block_sim. cbn [rename_error xe_name xe_cases]. cbv zeta.
  set (case_text := λ c, "  " +:+ ts_case_name (x_name c) +:+ " = " +:+ show_u (x_code c) +:+ ",").
  assert (sim TypeScript Code (join NL (case_text <$> (rename_error_case ren <$> xe_cases e)))
    (join NL (case_text <$> xe_cases e)) Code).
  { rewrite <- list_fmap_compose. apply sim_join; [done..|]. apply Forall_Forall2_diag.
    eapply Forall_impl; [exact Hc|]. intros c Hcode. unfold compose, case_text. cbn [rename_error_case x_name x_code].
    pose proof (sim_word TypeScript _ _ (show_u_word TypeScript _ Hcode) (show_u_word TypeScript _ Hcode)).
    sim_text. }
  clearbody case_text.
  do 2 (eapply sim_to_lit; [vm_compute; reflexivity|]). apply sim_comment_then.
  sim_text.
Qed.

Lemma sim_render_udts : gsim block_sim (render_udts dp spec') (render_udts dp spec).
Proof.
  unfold render_udts. unfold rename at 2 4. cbn [with_lists structs unions].
  eapply gsim_bind; [apply gsim_fmap_mapM, Forall_true, sim_render_struct|]. intros ss ss' Hss%concat_block.
  eapply gsim_bind; [apply gsim_fmap_mapM, Forall_true, sim_render_union|]. intros us us' Hus%concat_block.
  apply gsim_ret. unfold rename. cbn [with_lists enums errors].
  eapply sim_to_app; [exact Hss|].
  eapply sim_to_app; [apply sim_fmap_concat, sim_render_enum|].
  eapply sim_to_app; [exact Hus|].
  rewrite <- list_fmap_compose. apply sim_to_concat, Forall_Forall2_diag.
  eapply Forall_impl; [exact (proj2 Hok)|]. intros e He. by apply sim_render_error_enum.
Qed.

Lemma sim_method_doc d d' :
  is_blank d = is_blank d' → block_sim (render_method_doc d) (render_method_doc d').
Proof. intros E. unfold block_sim, sim_to. rewrite !scan_method_doc, E. by destruct (is_blank d'). Qed.

Definition method_name (name : string) : string :=
  if is_ts_ident name && negb (String.eqb name "constructor") then name
  else "[" +:+ debug_str dp name +:+ "]".

Lemma sim_method_name n : sim TypeScript Code (method_name (ren n)) (method_name n) Code.
Proof.
  unfold method_name. destruct (Hk n) as (E & _ & Hr). rewrite (Hr "constructor") by (by left).
  rewrite E. destruct (is_ts_ident n) eqn:Hn; [|simpl; sim_text].
  destruct (String.eqb n "constructor"); simpl; [sim_text|]. apply sim_word; by apply ts_ident_word.
Qed.

Lemma sim_render_method f :
  is_blank (redoc (fs_doc f)) = is_blank (fs_doc f) →
  gsim block_sim (render_method dp spec' (rename_function ren redoc f)) (render_method dp spec f).
Proof.
  intros Hdoc%sim_method_doc. unfold block_sim in *. unfold render_method.
  cbn [rename_function fs_name fs_doc fs_inputs fs_output_tys].
  fold (method_name (ren (fs_name f))) (method_name (fs_name f)).
  pose proof (sim_method_name (fs_name f)) as Hm.
  eapply (gsim_bind ty_sim).
  { destruct (fs_output_tys f); [by apply gsim_ret, ty_sim_same|by apply sim_ts]. }
  intros r r' [Hr _]. rewrite is_empty_fmap. destruct (is_empty (fs_inputs f)).
  { apply gsim_ret. rewrite <- ?string_app_assoc. rewrite ?string_app_assoc. sim_text. }
  eapply gsim_bind.
  { apply (gsim_fmap_mapM (λ s t, sim TypeScript Code s t Code)), Forall_true. intros i.
    cbn [rename_field f_name f_ty]. eapply gsim_bind; [by apply sim_ts|]. intros x y [Hs _].
    apply gsim_ret. sim_text. }
  intros xs ys Hall. apply gsim_ret.
  assert (sim TypeScript Code (join "; " xs) (join "; " ys) Code).
  { rewrite <- (list_fmap_id xs), <- (list_fmap_id ys). by apply sim_join. }
  sim_text.
Qed.

Lemma sim_render_methods :
  Forall (λ f, is_blank (redoc (fs_doc f)) = is_blank (fs_doc f)) (functions spec) →
  gsim block_sim (render_methods dp spec') (render_methods dp spec).
Proof.
  intros Hdoc. unfold render_methods. unfold rename at 2. cbn [with_lists functions].
  eapply gsim_bind.
  { apply (gsim_fmap_mapM block_sim). eapply Forall_impl; [exact Hdoc|]. intros f Hf.
    eapply gsim_bind; [by apply sim_render_method|]. intros x y Hxy. apply gsim_ret.
    eapply sim_to_lit; [vm_compute; reflexivity|]. exact Hxy. }
  intros xs ys Hb%concat_block. by apply gsim_ret.
Qed.

Lemma sim_prelude used : block_sim (render_prelude used) (render_prelude used).
Proof.
  unfold render_prelude. apply sim_to_concat, Forall_Forall2_diag.
  unfold ALIASES. repeat apply Forall_cons_2; try apply Forall_nil_2;
    (case_decide; [vm_compute; by split_and!|apply sim_to_nil]).
Qed.

Lemma sim_ts_file id p u m u' m' :
  contract_id_ok id → block_sim p p → block_sim u u' → block_sim m m' →
  block_sim (ts_file id p u m) (ts_file id p u' m').
Proof. intros Hid Hp Hu Hm. unfold ts_file, block_sim in *. sim_text. Qed.

Lemma sim_typescript_client id :
  contract_id_ok id →
  Forall (λ f, is_blank (redoc (fs_doc f)) = is_blank (fs_doc f)) (functions spec) →
  block_sim (typescript_client dp id spec') (typescript_client dp id spec).
Proof.
  intros Hid Hdoc. unfold typescript_client.
  destruct (sim_render_udts ∅) as [Hu Eu].
  destruct (render_udts dp spec' ∅) as [u us], (render_udts dp spec ∅) as [u' us']. simpl in *. subst.
  destruct (sim_render_methods Hdoc us') as [Hm Em].
  destruct (render_methods dp spec' us') as [m ms], (render_methods dp spec us') as [m' ms']. simpl in *. subst.
  apply sim_ts_file; auto using sim_prelude.
Qed.
End ts_client.
End clients.

(** ** Literals are read back *)

(** The string literals of Rust (and of ECMAScript, but for [\0] before a
    digit), after the opening quote: the code points they denote. *)
Inductive LitState : Type := LBody | LEsc | LOpen | LHex (acc : Z).

Definition hex_val (c : Z) : option Z :=
  if is_ascii_digit c then Some (c - 48)
  else if c_in 97 102 c then Some (c - 87) else None.

Definition simple_escape (e : Z) : option Z :=
  if e =? 48 then Some 0 else if e =? 116 then Some 9 else if e =? 114 then Some 13
  else if e =? 110 then Some 10 else if e =? 34 then Some 34 else if e =? 92 then Some 92 else None.

Fixpoint read_lit (st : LitState) (l : list Z) : option (list Z) :=
  match l with
  | [] => None
  | c :: r =>
      match st with
      | LBody =>
          if c =? 34 then (if is_empty r then Some [] else None)
          else if c =? 92 then read_lit LEsc r
          else cons c <$> read_lit LBody r
      | LEsc =>
          if c =? 117 then read_lit LOpen r
          else match simple_escape c with Some x => cons x <$> read_lit LBody r | None => None end
      | LOpen => if c =? 123 then read_lit (LHex 0) r else None
      | LHex acc =>
          if c =? 125 then (if is_scalar acc then cons acc <$> read_lit LBody r else None)
          else match hex_val c with Some d => read_lit (LHex (acc * 16 + d)) r | None => None end
      end
  end.

Definition read_literal (s : string) : option (list Z) :=
  match chars s with
  | c :: r => if c =? 34 then read_lit LBody r else None
  | [] => None
  end.

Section read_back.
Variable dp : Z → bool.

(** The code points of [debug_char]. *)
Definition debug_codes (c : Z) : list Z :=
  if c =? 0 then [92; 48]
  else if c =? 9 then [92; 116]
  else if c =? 13 then [92; 114]
  else if c =? 10 then [92; 110]
  else if c =? 34 then [92; 34]
  else if c =? 92 then [92; 92]
  else if if c <? 128 then (32 <=? c) && (c <? 127) else dp c then [c]
  else 92 :: 117 :: 123 :: (byte_val <$> hex_digits 6 c) ++ [125].

Lemma of_chars_app l k : of_chars (l ++ k) = of_chars l +:+ of_chars k.
Proof. unfold of_chars. by rewrite bind_app, of_bytes_app. Qed.

Lemma of_chars_bytes l : Forall (λ a, byte_val a < 128) l → of_chars (byte_val <$> l) = of_bytes l.
Proof.
  intros Hl. apply bytes_inj. rewrite bytes_of_chars_ascii, bytes_of_bytes.
  - rewrite <- list_fmap_compose. rewrite <- (list_fmap_id l) at 2. apply list_fmap_ext.
    intros i x _. apply byte_of_val.
  - apply Forall_fmap. eapply Forall_impl; [exact Hl|]. intros a Ha. unfold compose. simpl in Ha.
    pose proof (byte_val_range a). lia.
Qed.

Lemma hex_digits_low f n : Forall (λ a, 48 ≤ byte_val a ≤ 102) (hex_digits f n).
Proof.
  revert n. induction f as [|f IH]; intros n; simpl; [constructor|].
  apply Forall_app. split; [by destruct (n <? 16)|].
  constructor; [|constructor]. apply hex_digit_val. apply Z.mod_pos_bound. lia.
Qed.

Lemma debug_char_codes c : debug_char dp c = of_chars (debug_codes c).
Proof.
  unfold debug_char, debug_codes. repeat (case_match; [done|]).
  unfold escape_unicode. change (92 :: 117 :: 123 :: ?l) with ([92; 117; 123] ++ l)%list. rewrite !of_chars_app.
  rewrite of_chars_bytes; [done|]. eapply Forall_impl; [apply hex_digits_low|]. simpl. lia.
Qed.

Lemma debug_codes_scalar c : is_scalar c = true → Forall (λ x, is_scalar x = true) (debug_codes c).
Proof.
  intros Hs. unfold debug_codes. repeat (case_match; [by repeat constructor|]).
  repeat (constructor; [done|]). apply Forall_app. split; [|by repeat constructor].
  apply Forall_fmap. eapply Forall_impl; [apply hex_digits_low|]. intros a Ha. unfold compose.
  apply is_scalar_spec. simpl in Ha. lia.
Qed.

Lemma hex_digit_read d : 0 ≤ d < 16 → hex_val (byte_val (hex_digit d)) = Some d.
Proof.
  intros Hd. unfold hex_digit, hex_val, is_ascii_digit, c_in.
  destruct (Z.ltb_spec d 10); rewrite byte_val_of by lia;
    repeat case_match; f_equal; lia.
Qed.

Lemma hex_val_brace d x : hex_val d = Some x → (d =? 125) = false.
Proof. intros E. destruct (Z.eqb_spec d 125) as [->|]; [done|done]. Qed.

Lemma read_hex f n acc r :
  0 ≤ n < 16 ^ Z.of_nat f →
  read_lit (LHex acc) ((byte_val <$> hex_digits f n) ++ r) =
  read_lit (LHex (acc * 16 ^ Z.of_nat (length (hex_digits f n)) + n)) r.
Proof.
  revert n r. induction f as [|f IH]; intros n r Hn.
  { simpl in *. f_equal. f_equal. lia. }
  cbn [hex_digits]. rewrite fmap_app, <- app_assoc, length_app.
  assert (Hlast : ∀ acc', read_lit (LHex acc') ((byte_val <$> [hex_digit (n mod 16)]) ++ r) =
    read_lit (LHex (acc' * 16 + n mod 16)) r).
  { intros acc'. cbn [fmap list_fmap app read_lit].
    pose proof (hex_digit_read (n mod 16) ltac:(apply Z.mod_pos_bound; lia)) as Hd.
    by rewrite (hex_val_brace _ _ Hd), Hd. }
  destruct (Z.ltb_spec n 16).
  - change ((byte_val <$> []) ++ ?x)%list with x. rewrite Hlast, Z.mod_small by lia. f_equal.
  - rewrite IH, Hlast.
    + f_equal. f_equal. cbn [length]. rewrite Nat2Z.inj_add, Z.pow_add_r by lia.
      change (16 ^ Z.of_nat 1) with 16. pose proof (Z.div_mod n 16). lia.
    + rewrite Nat2Z.inj_succ, Z.pow_succ_r in Hn by lia.
      split; [apply Z.div_pos; lia|apply Z.div_lt_upper_bound; lia].
Qed.

Lemma read_debug_codes c r :
  is_scalar c = true → read_lit LBody (debug_codes c ++ r) = cons c <$> read_lit LBody r.
Proof.
  intros Hs. unfold debug_codes.
  destruct (Z.eqb_spec c 0) as [->|]; [done|]. destruct (Z.eqb_spec c 9) as [->|]; [done|].
  destruct (Z.eqb_spec c 13) as [->|]; [done|]. destruct (Z.eqb_spec c 10) as [->|]; [done|].
  destruct (Z.eqb_spec c 34) as [->|]; [done|]. destruct (Z.eqb_spec c 92) as [->|]; [done|].
  destruct (if c <? 128 then _ else _).
  - cbn [app read_lit]. by rewrite (proj2 (Z.eqb_neq c 34)), (proj2 (Z.eqb_neq c 92)).
  - change (read_lit LBody ((92 :: 117 :: 123 :: (byte_val <$> hex_digits 6 c) ++ [125]) ++ r))
      with (read_lit (LHex 0) (((byte_val <$> hex_digits 6 c) ++ [125]) ++ r)).
    apply is_scalar_spec in Hs as Hr. rewrite <- app_assoc, read_hex by (simpl; lia).
    cbn [app read_lit]. rewrite Z.mul_0_l, Z.add_0_l. by rewrite Hs.
Qed.

(** Reading the literal gives back what it quotes. *)
Lemma debug_read_back s : read_literal (debug_str dp s) = Some (chars s).
Proof.
  assert (debug_str dp s = of_chars (34 :: (chars s ≫= debug_codes) ++ [34])%list) as ->.
  { change (34 :: ?l)%list with ([34] ++ l)%list. rewrite !of_chars_app.
    change (of_chars [34]) with (String DQ EmptyString). unfold debug_str.
    change (String DQ (concat_str ?t)) with (String DQ EmptyString +:+ concat_str t).
    rewrite string_app_assoc. f_equal. f_equal.
    induction (chars s) as [|c cs IH]; [done|]. cbn [fmap list_fmap concat_str mbind list_bind].
    rewrite of_chars_app, debug_char_codes. by f_equal. }
  pose proof (chars_scalar s) as Hs. unfold read_literal. rewrite chars_of_chars.
  - change (34 =? 34) with true. cbv iota. induction Hs as [|c cs Hc Hs IH]; [done|].
    cbn [mbind list_bind]. rewrite <- app_assoc, read_debug_codes by done.
    change (list_bind _ _ debug_codes cs) with (cs ≫= debug_codes). by rewrite IH.
  - constructor; [done|]. apply Forall_app. split; [|by repeat constructor].
    apply Forall_bind. eapply Forall_impl; [exact Hs|]. apply debug_codes_scalar.
Qed.
End read_back.

(** ** The main theorem *)

(** C11: Whatever names and documentation a contract chooses, renaming and
    redocumenting all of it changes no token of the generated Python and Rust
    clients but the spelling of identifiers, literals and comments (the lines of
    a Rust documentation being counted); so it does for TypeScript when the
    names of types are identifiers and renaming keeps the class of names; and in
    the grammar of Rust a generated literal reads back as the name it quotes
    (Python and JavaScript have other escapes, and nothing is claimed of how
    they read it). *)
Theorem generated_clients_confined `{Stellar} dp ren redoc id spec :
  contract_id_ok id →
  (Forall (λ f, is_blank (redoc (fs_doc f)) = is_blank (fs_doc f)) (functions spec) →
   skeleton Python (python_client dp id (rename ren redoc spec)) =
   skeleton Python (python_client dp id spec))
  ∧ (Forall (λ f, same_doc_lines (redoc (fs_doc f)) (fs_doc f)) (functions spec) →
     skeleton Rust (rust_client dp id (rename ren redoc spec)) =
     skeleton Rust (rust_client dp id spec))
  ∧ (keeps_class ren → ts_spec_ok spec →
     Forall (λ f, is_blank (redoc (fs_doc f)) = is_blank (fs_doc f)) (functions spec) →
     skeleton TypeScript (typescript_client dp id (rename ren redoc spec)) =
     skeleton TypeScript (typescript_client dp id spec))
  ∧ ∀ name, read_literal (debug_str dp name) = Some (chars name).
Proof.
  intros Hid. split_and!.
  - intros Hd. by eapply sim_to_skeleton, sim_python_client.
  - intros Hd. by eapply sim_to_skeleton, sim_rust_client.
  - intros Hk Hok Hd. by eapply sim_to_skeleton, sim_typescript_client.
  - apply debug_read_back.
Qed.

Section samples.
#[local] Existing Instance sample_stellar.

Definition sample_id : string := "CAAAAAAAAAAAAAAAAAAAAAAAAAAAAAAAAAAAAAAAAAAAAAAAAAAABSC4".

(** A contract with hostile names and documentation. *)
Definition hostile_name : string := qt "x^): import os #*/".
Definition hostile_doc : string := "*/ }" +:+ NL +:+ "import os".

Definition sample_function (name doc : string) : FunctionSpec := {|
  fs_name := name; fs_doc := doc;
  fs_inputs := [{| f_name := name; f_type_name := "u64"; f_ty := TU64 |}];
  fs_outputs := ["Pair"]; fs_output_tys := [TUdt "Pair"] |}.

Definition sample_spec (name doc : string) : ContractSpec :=
  with_lists default_spec [sample_function name doc] []
    [{| s_name := "Pair"; s_fields := [{| f_name := name; f_type_name := "u64"; f_ty := TU64 |}] |}] [] [] [] [].

(** Renames [transfer] to [send] and back. *)
Definition swap_names (n : string) : string :=
  if String.eqb n "transfer" then "send" else if String.eqb n "send" then "transfer" else n.

Lemma swap_keeps_class : keeps_class swap_names.
Proof.
  assert (Forall (λ a, String.eqb "send" a = false ∧ String.eqb "transfer" a = false) reserved_names) as Hr
    by (by repeat constructor).
  rewrite Forall_forall in Hr. intros n. unfold swap_names.
  destruct (String.eqb_spec n "transfer") as [->|H1]; [|destruct (String.eqb_spec n "send") as [->|H2]; [|done]];
    (split_and!; [done..|]; intros a [-> ->]%Hr; done).
Qed.

Lemma generated_clients_confined_witness :
  let dp := λ _, false in
  let spec := sample_spec "transfer" ("Moves" +:+ NL +:+ "tokens") in
  skeleton Python (python_client dp sample_id (rename (λ _, hostile_name) (λ _, hostile_doc) spec)) =
  skeleton Python (python_client dp sample_id spec)
  ∧ skeleton Rust (rust_client dp sample_id (rename (λ _, hostile_name) (λ _, hostile_doc) spec)) =
    skeleton Rust (rust_client dp sample_id spec)
  ∧ skeleton TypeScript (typescript_client dp sample_id (rename swap_names (λ _, hostile_doc) spec)) =
    skeleton TypeScript (typescript_client dp sample_id spec).
Proof.
  intros dp spec.
  assert (contract_id_ok sample_id) as Hid by (repeat constructor; discriminate).
  split_and!.
  - apply (generated_clients_confined dp _ _ sample_id spec Hid). by repeat constructor.
  - apply (generated_clients_confined dp _ _ sample_id spec Hid). by repeat constructor.
  - apply (generated_clients_confined dp _ _ sample_id spec Hid);
      [apply swap_keeps_class|by repeat constructor..].
Defined.

(** In TypeScript a reference to a user-defined type is the raw name of the
    contract, declared under another name: it reaches the source unescaped. *)
Definition hostile_type : string := "T; } fetch(evil); interface X {".

Definition hostile_spec : ContractSpec :=
  with_lists default_spec
    [{| fs_name := "get"; fs_doc := ""; fs_inputs := []; fs_outputs := ["T"];
        fs_output_tys := [TUdt hostile_type] |}] []
    [{| s_name := hostile_type; s_fields := [{| f_name := "a"; f_type_name := "u32"; f_ty := TU32 |}] |}] [] [] [] [].

Example ts_udt_reference_unsanitised :
  (ts hostile_spec (TUdt hostile_type) Ret ∅).1 = hostile_type
  ∧ ts_type_name hostile_type = "Type_T____fetch_evil___interface_X__"
  ∧ contains_str "fetch(evil)" (typescript_client (λ _, false) sample_id hostile_spec) = true
  ∧ contains_str "fetch(evil)" (python_client (λ _, false) sample_id hostile_spec) = false
  ∧ contains_str "fetch(evil)" (rust_client (λ _, false) sample_id hostile_spec) = false.
Proof. vm_compute. by split_and!. Qed.

(** Words of Python that the keyword list lacks, and Rust keywords that have
    no raw form, are used as they are; distinct names may meet in one. *)
Example identifiers_not_checked :
  py_ident "async" "function" 0 = "async" ∧ py_type_name "class" = "class"
  ∧ rust_ident "self" "function" 0 = "r#self" ∧ rust_type_name "fn" = "fn"
  ∧ py_type_name "a b" = py_type_name "a-b".
Proof. by split_and!. Qed.
End samples.
