(* ===== verification/UrlValidation.v ===== *)
(** * UrlValidation: webhook URLs and the SSRF guard ([lumenqraph-core/src/url_validation.rs])

    A webhook URL is checked when the subscription is registered
    ([validate_webhook_url]) and again, after resolving its host name, when a
    delivery is sent ([validate_webhook_url_at_delivery]).  Both rest on
    [is_reserved_ip], which is proved to be membership of a table of CIDR
    blocks.  The parser of IP literals is that of the standard library; URL
    parsing and DNS resolution are the parameters of [NetEnv]. *)
From S2P Require Import Prelude Text.
From Stdlib Require Import Ascii.

Local Open Scope Z_scope.

(** ** Addresses *)

(** [std::net::IpAddr]: the four octets, or the eight 16-bit segments. *)
Inductive IpAddr : Type :=
  | V4 (octets : list Z)
  | V6 (segments : list Z).

#[export] Instance IpAddr_eq_dec : EqDecision IpAddr.
Proof. solve_decision. Defined.

Definition ip_wf (ip : IpAddr) : Prop :=
  match ip with
  | V4 o => length o = 4%nat ∧ Forall (λ x, 0 ≤ x < 2 ^ 8) o
  | V6 s => length s = 8%nat ∧ Forall (λ x, 0 ≤ x < 2 ^ 16) s
  end.

(** [octets()[i]], [segments()[i]]. *)
Definition at_ (l : list Z) (i : nat) : Z := nth i l 0.

(** *** The classification of [std::net] *)

Definition v4_is_loopback (o : list Z) : bool := at_ o 0 =? 127.
Definition v4_is_private (o : list Z) : bool :=
  (at_ o 0 =? 10)
  || ((at_ o 0 =? 172) && (16 <=? at_ o 1) && (at_ o 1 <=? 31))
  || ((at_ o 0 =? 192) && (at_ o 1 =? 168)).
Definition v4_is_link_local (o : list Z) : bool := (at_ o 0 =? 169) && (at_ o 1 =? 254).
Definition v4_is_multicast (o : list Z) : bool := (224 <=? at_ o 0) && (at_ o 0 <=? 239).
Definition v4_is_broadcast (o : list Z) : bool := bool_decide (o = [255; 255; 255; 255]).

Definition v6_is_loopback (s : list Z) : bool := bool_decide (s = [0; 0; 0; 0; 0; 0; 0; 1]).
Definition v6_is_unspecified (s : list Z) : bool := bool_decide (s = [0; 0; 0; 0; 0; 0; 0; 0]).
Definition v6_is_multicast (s : list Z) : bool := Z.land (at_ s 0) 65280 =? 65280.
Definition v6_is_unicast_link_local (s : list Z) : bool := Z.land (at_ s 0) 65472 =? 65152.
Definition v6_is_unique_local (s : list Z) : bool := Z.land (at_ s 0) 65024 =? 64512.

Definition to_ipv4_mapped (s : list Z) : option (list Z) :=
  match s with
  | [s0; s1; s2; s3; s4; s5; s6; s7] =>
      if (s0 =? 0) && (s1 =? 0) && (s2 =? 0) && (s3 =? 0) && (s4 =? 0) && (s5 =? 65535)
      then Some [s6 / 256; s6 mod 256; s7 / 256; s7 mod 256]
      else None
  | _ => None
  end.

(** *** The project's own ranges *)

Definition is_documentation_v4 (o : list Z) : bool :=
  ((at_ o 0 =? 192) && (at_ o 1 =? 0) && (at_ o 2 =? 2))
  || ((at_ o 0 =? 198) && (at_ o 1 =? 51) && (at_ o 2 =? 100))
  || ((at_ o 0 =? 203) && (at_ o 1 =? 0) && (at_ o 2 =? 113)).

Definition is_reserved_v4 (o : list Z) : bool :=
  ((at_ o 0 =? 100) && (64 <=? at_ o 1) && (at_ o 1 <=? 127))
  || ((at_ o 0 =? 192) && (at_ o 1 =? 168))
  || ((at_ o 0 =? 172) && (16 <=? at_ o 1) && (at_ o 1 <=? 31))
  || (at_ o 0 =? 10)
  || (at_ o 0 =? 127)
  || ((at_ o 0 =? 169) && (at_ o 1 =? 254))
  || (240 <=? at_ o 0).

Definition is_shared_address_space_v4 (o : list Z) : bool :=
  (at_ o 0 =? 100) && (64 <=? at_ o 1) && (at_ o 1 <=? 127).

Definition is_benchmarking_v4 (o : list Z) : bool :=
  (at_ o 0 =? 198) && ((at_ o 1 =? 18) || (at_ o 1 =? 19)).

Definition is_nat64_wellknown (s : list Z) : bool :=
  (at_ s 0 =? 100) && (at_ s 1 =? 65435) && (at_ s 2 =? 0) && (at_ s 3 =? 0).

Definition is_6to4 (s : list Z) : bool := at_ s 0 =? 8194.

Definition is_ipv4_compatible (s : list Z) : bool :=
  (at_ s 0 =? 0) && (at_ s 1 =? 0) && (at_ s 2 =? 0) && (at_ s 3 =? 0)
  && (at_ s 4 =? 0) && (at_ s 5 =? 0)
  && negb ((at_ s 6 =? 0) && ((at_ s 7 =? 0) || (at_ s 7 =? 1))).

Definition is_discard_prefix (s : list Z) : bool := at_ s 0 =? 256.

Definition is_documentation_v6 (s : list Z) : bool := (at_ s 0 =? 8193) && (at_ s 1 =? 3512).

Definition is_reserved_ipv4 (o : list Z) : bool :=
  v4_is_loopback o || v4_is_private o || v4_is_link_local o || v4_is_multicast o
  || v4_is_broadcast o || (at_ o 0 =? 0) || is_documentation_v4 o || is_reserved_v4 o
  || is_shared_address_space_v4 o || is_benchmarking_v4 o.

(** The recursive call on a mapped address is its IPv4 arm. *)
Definition is_reserved_ip (ip : IpAddr) : bool :=
  match ip with
  | V4 o => is_reserved_ipv4 o
  | V6 s =>
      match to_ipv4_mapped s with
      | Some o => is_reserved_ipv4 o
      | None =>
          if is_nat64_wellknown s then true
          else if is_6to4 s then true
          else if is_ipv4_compatible s then true
          else v6_is_loopback s || v6_is_multicast s || v6_is_unicast_link_local s
               || v6_is_unspecified s || v6_is_unique_local s || is_documentation_v6 s
               || is_discard_prefix s
      end
  end.

(** ** [str::parse::<IpAddr>] of the standard library *)

Definition Parser (A : Type) : Type := list ascii → option (A * list ascii).

Definition radix_val (radix : Z) (a : ascii) : option Z :=
  let x := byte_val a in
  let d := if (48 <=? x) && (x <=? 57) then x - 48
           else if (97 <=? x) && (x <=? 122) then x - 87
           else if (65 <=? x) && (x <=? 90) then x - 55 else radix in
  if d <? radix then Some d else None.

(** The loop of [read_number]: [n] digits read so far with value [acc]. *)
Fixpoint read_digits (radix max_digits max_value : Z) (l : list ascii) (acc n : Z)
    : option (Z * Z * list ascii) :=
  match l with
  | [] => Some (acc, n, [])
  | a :: l' =>
      match radix_val radix a with
      | None => Some (acc, n, l)
      | Some d =>
          let acc' := acc * radix + d in
          if max_value <? acc' then None
          else if max_digits <? n + 1 then None
          else read_digits radix max_digits max_value l' acc' (n + 1)
      end
  end.

Definition read_number (radix max_digits max_value : Z) (allow_zero_prefix : bool) : Parser Z :=
  λ l, match read_digits radix max_digits max_value l 0 0 with
       | None => None
       | Some (v, n, l') =>
           if n =? 0 then None
           else if negb allow_zero_prefix && bool_decide (head l = Some "0"%char) && (1 <? n)
           then None
           else Some (v, l')
       end.

Definition read_given_char (c : ascii) : Parser unit :=
  λ l, match l with a :: l' => if Ascii.eqb a c then Some (tt, l') else None | [] => None end.

Definition read_separator {A} (sep : ascii) (index : nat) (p : Parser A) : Parser A :=
  λ l, match index with
       | O => p l
       | S _ => match read_given_char sep l with Some (_, l') => p l' | None => None end
       end.

Definition read_octet : Parser Z := read_number 10 3 255 false.

Definition read_ipv4_addr : Parser (list Z) := λ l,
  '(a, l) ← read_separator "." 0 read_octet l;
  '(b, l) ← read_separator "." 1 read_octet l;
  '(c, l) ← read_separator "." 2 read_octet l;
  '(d, l) ← read_separator "." 3 read_octet l;
  Some ([a; b; c; d], l).

(** [read_groups]: fills up to [limit] groups, an embedded IPv4 address taking
    two and ending the run.  [n] slots remain, [i] are filled. *)
Fixpoint read_groups (n i : nat) (l : list ascii) : list Z * bool * list ascii :=
  match n with
  | O => ([], false, l)
  | S n' =>
      let v4 := match n' with
                | O => None
                | S _ => read_separator ":" i read_ipv4_addr l
                end in
      match v4 with
      | Some ([a; b; c; d], l') => ([a * 256 + b; c * 256 + d], true, l')
      | _ =>
          match read_separator ":" i (read_number 16 4 65535 true) l with
          | None => ([], false, l)
          | Some (g, l') =>
              let '(gs, e, l'') := read_groups n' (S i) l' in (g :: gs, e, l'')
          end
      end
  end.

Definition read_ipv6_addr : Parser (list Z) := λ l,
  let '(h, head_ipv4, l1) := read_groups 8 0 l in
  if (length h =? 8)%nat then Some (h, l1)
  else if head_ipv4 : bool then None
  else
    '(_, l2) ← read_given_char ":" l1;
    '(_, l3) ← read_given_char ":" l2;
    let '(t, _, l4) := read_groups (8 - (length h + 1)) 0 l3 in
    Some ((h ++ replicate (8 - length h - length t) 0 ++ t)%list, l4).

Definition parse_ip (s : string) : option IpAddr :=
  match read_ipv4_addr (bytes s) with
  | Some (o, []) => Some (V4 o)
  | Some (_, _ :: _) => None
  | None => match read_ipv6_addr (bytes s) with
            | Some (g, []) => Some (V6 g)
            | _ => None
            end
  end.

(** ** The environment: the [url] crate and the resolver *)

(** What the code reads of a [url::Url]. *)
Record ParsedUrl := { scheme : string; host_str : option string }.

(** [Url::parse], and [tokio::net::lookup_host] with its ports dropped
    ([None] when resolution fails). *)
Class NetEnv := {
  url_parse : string → result string ParsedUrl;
  lookup_host : string → option (list IpAddr);
}.

Inductive UrlError : Type :=
  | InvalidUrl (e : string)
  | BadScheme              (** url scheme must be http or https *)
  | NoHost                 (** url must have a host *)
  | InternalAddress        (** url points to an internal/reserved address *)
  | InternalIp             (** IP address points to an internal/reserved network *)
  | NoAddresses            (** hostname resolved to no addresses *)
  | ResolvesInternal (ip : IpAddr)
  | Unresolved.            (** could not resolve hostname *)

(** [char::to_lowercase], exact on every character whose mapping has an ASCII
    character in it; the others map to non-ASCII text, which no comparison of
    this module can tell apart. *)
Definition lower_char (c : Z) : list Z :=
  if is_ascii_uppercase c then [c + 32]
  else if c =? 8490 then [107]
  else if c =? 304 then [105; 775]
  else [c].

Definition to_lowercase (s : string) : string := of_chars (chars s ≫= lower_char).

Definition is_localhost (host : string) : bool :=
  bool_decide (to_lowercase host ∈ ["localhost"; "127.0.0.1"; "::1"; "[::1]"]).

(** [host.strip_prefix('[').and_then(|s| s.strip_suffix(']')).unwrap_or(host)]. *)
Definition strip_suffix_char (c : ascii) (s : string) : option string :=
  match rev (bytes s) with
  | a :: r => if Ascii.eqb a c then Some (of_bytes (rev r)) else None
  | [] => None
  end.

Definition strip_brackets (host : string) : string :=
  default host (strip_char "[" host ≫= strip_suffix_char "]").

Definition is_internal_address (host : string) : bool :=
  if is_localhost host then true
  else match parse_ip (strip_brackets host) with
       | Some ip => is_reserved_ip ip
       | None => false
       end.

(** [s.get(n..).unwrap_or("")]: [None] past the end and inside a character. *)
Definition get_from (n : nat) (s : string) : string :=
  let rest := drop n (bytes s) in
  if (length (bytes s) <? n)%nat then ""
  else match rest with
       | a :: _ => match cont a with Some _ => "" | None => of_bytes rest end
       | [] => ""
       end.

Definition is_delimiter (a : ascii) : bool :=
  Ascii.eqb a "/" || Ascii.eqb a "?" || Ascii.eqb a "#" || Ascii.eqb a ":".

(** [&after_scheme[..raw_host_end]]. *)
Definition raw_host (after_scheme : string) : list ascii :=
  take_while (λ a, negb (is_delimiter a)) (bytes after_scheme).

Definition validate_webhook_url `{NetEnv} (url : string) : result UrlError unit :=
  parsed ← map_err InvalidUrl (url_parse url);
  if negb (bool_decide (scheme parsed ∈ ["http"; "https"])) then Err BadScheme
  else
    let after_scheme := get_from (String.length (scheme parsed) + 3) url in
    match raw_host after_scheme with
    | [] => Err NoHost
    | _ =>
        match host_str parsed with
        | Some host =>
            if bool_decide (host = "") then Err NoHost
            else if is_internal_address host then Err InternalAddress
            else Ok tt
        | None => Err NoHost
        end
    end.

Definition validate_webhook_url_at_delivery `{NetEnv} (url : string) : result UrlError IpAddr :=
  parsed ← map_err InvalidUrl (url_parse url);
  match host_str parsed with
  | None => Err NoHost
  | Some host =>
      match parse_ip (strip_brackets host) with
      | Some ip => if is_reserved_ip ip then Err InternalIp else Ok ip
      | None =>
          match lookup_host (host +:+ ":80") with
          | None => Err Unresolved
          | Some [] => Err NoAddresses
          | Some (ip :: rest) =>
              match find is_reserved_ip (ip :: rest) with
              | Some bad => Err (ResolvesInternal bad)
              | None => Ok ip
              end
          end
      end
  end.

(** ** Specification: CIDR blocks *)

(** The address as an unsigned integer, most significant part first. *)
Definition to_bits (w : Z) (l : list Z) : Z := fold_left (λ acc x, acc * 2 ^ w + x) l 0.

(** [ip] and [base] agree on their first [len] bits of [total]. *)
Definition in_cidr (total : Z) (ip : Z) (block : Z * Z) : Prop :=
  ip / 2 ^ (total - block.2) = block.1 / 2 ^ (total - block.2).

Definition v4 (a b c d : Z) : Z := to_bits 8 [a; b; c; d].

Definition blocked_v4 : list (Z * Z) :=
  [ (v4 0 0 0 0, 8); (v4 10 0 0 0, 8); (v4 100 64 0 0, 10); (v4 127 0 0 0, 8);
    (v4 169 254 0 0, 16); (v4 172 16 0 0, 12); (v4 192 0 2 0, 24); (v4 192 168 0 0, 16);
    (v4 198 18 0 0, 15); (v4 198 51 100 0, 24); (v4 203 0 113 0, 24);
    (v4 224 0 0 0, 4); (v4 240 0 0 0, 4) ].

(** 0::/96, 64:ff9b::/64, 100::/16, 2001:db8::/32, 2002::/16, fc00::/7,
    fe80::/10 and ff00::/8. *)
Definition blocked_v6 : list (Z * Z) :=
  [ (0, 96); (to_bits 16 [100; 65435; 0; 0; 0; 0; 0; 0], 64);
    (to_bits 16 [256; 0; 0; 0; 0; 0; 0; 0], 16);
    (to_bits 16 [8193; 3512; 0; 0; 0; 0; 0; 0], 32);
    (to_bits 16 [8194; 0; 0; 0; 0; 0; 0; 0], 16);
    (to_bits 16 [64512; 0; 0; 0; 0; 0; 0; 0], 7);
    (to_bits 16 [65152; 0; 0; 0; 0; 0; 0; 0], 10);
    (to_bits 16 [65280; 0; 0; 0; 0; 0; 0; 0], 8) ].

(** ::ffff:0:0/96 *)
Definition mapped_prefix : Z * Z := (to_bits 16 [0; 0; 0; 0; 0; 65535; 0; 0], 96).

Definition blocked_bits_v4 (n : Z) : Prop := Exists (in_cidr 32 n) blocked_v4.

Definition blocked (ip : IpAddr) : Prop :=
  match ip with
  | V4 o => blocked_bits_v4 (to_bits 8 o)
  | V6 s =>
      let n := to_bits 16 s in
      (in_cidr 128 n mapped_prefix ∧ blocked_bits_v4 (n mod 2 ^ 32))
      ∨ Exists (in_cidr 128 n) blocked_v6
  end.

(** ** Lemmas: addresses as integers *)

Definition in_range (w : Z) (l : list Z) : Prop := Forall (λ x, 0 ≤ x < 2 ^ w) l.

Lemma to_bits_snoc w l x : to_bits w (l ++ [x]) = to_bits w l * 2 ^ w + x.
Proof. unfold to_bits. by rewrite fold_left_app. Qed.

Lemma to_bits_app w l k : 0 ≤ w →
  to_bits w (l ++ k) = to_bits w l * 2 ^ (w * Z.of_nat (length k)) + to_bits w k.
Proof.
  intros Hw. induction k as [|x k IH] using rev_ind.
  - rewrite app_nil_r. simpl. rewrite Z.mul_0_r. change (to_bits w []) with 0. lia.
  - rewrite app_assoc, !to_bits_snoc, IH, length_app. simpl.
    replace (w * Z.of_nat (length k + 1)) with (w * Z.of_nat (length k) + w) by lia.
    rewrite Z.pow_add_r by lia. ring.
Qed.

Lemma to_bits_bound w l : 0 ≤ w → in_range w l → 0 ≤ to_bits w l < 2 ^ (w * Z.of_nat (length l)).
Proof.
  intros Hw. induction l as [|x l IH] using rev_ind; intros Hl.
  - simpl. rewrite Z.mul_0_r. unfold to_bits. simpl. lia.
  - apply Forall_app in Hl as [Hl Hx]. apply Forall_inv in Hx. specialize (IH Hl).
    rewrite to_bits_snoc, length_app. simpl.
    replace (w * Z.of_nat (length l + 1)) with (w * Z.of_nat (length l) + w) by lia.
    rewrite Z.pow_add_r by lia. nia.
Qed.

Lemma to_bits_div w l k : 0 ≤ w → in_range w k →
  to_bits w (l ++ k) / 2 ^ (w * Z.of_nat (length k)) = to_bits w l.
Proof.
  intros Hw Hk. pose proof (to_bits_bound w k Hw Hk).
  rewrite to_bits_app by done. rewrite Z.div_add_l by lia.
  rewrite Z.div_small by lia. lia.
Qed.

Lemma to_bits_mod w l k : 0 ≤ w → in_range w k →
  to_bits w (l ++ k) mod 2 ^ (w * Z.of_nat (length k)) = to_bits w k.
Proof.
  intros Hw Hk. pose proof (to_bits_bound w k Hw Hk).
  rewrite to_bits_app by done. rewrite Z.add_comm, Z.mod_add by lia. by apply Z.mod_small.
Qed.

(** [x & m] for a mask [m] of [k] ones above [n] zeros, on a value of at most
    [n + k] bits. *)
Lemma land_high_mask x n k : 0 ≤ n → 0 ≤ k → 0 ≤ x < 2 ^ (n + k) →
  Z.land x (Z.shiftl (Z.ones k) n) = x / 2 ^ n * 2 ^ n.
Proof.
  intros Hn Hk Hx.
  assert (Z.land x (Z.shiftl (Z.ones k) n) = Z.shiftl (Z.land (Z.shiftr x n) (Z.ones k)) n) as ->.
  { apply Z.bits_inj'. intros i Hi. rewrite Z.land_spec.
    destruct (Z.lt_ge_cases i n).
    - rewrite !Z.shiftl_spec_low by lia. by rewrite andb_false_r.
    - rewrite !Z.shiftl_spec, Z.land_spec, Z.shiftr_spec by lia.
      f_equal. f_equal. lia. }
  rewrite Z.land_ones, Z.shiftl_mul_pow2, Z.shiftr_div_pow2 by lia. f_equal.
  apply Z.mod_small. rewrite Z.pow_add_r in Hx by lia.
  split; [apply Z.div_pos; lia | apply Z.div_lt_upper_bound; lia].
Qed.

Lemma land_mask_eqb x n k v : 0 ≤ n → 0 ≤ k → 0 ≤ x < 2 ^ (n + k) →
  (Z.land x (Z.shiftl (Z.ones k) n) =? v * 2 ^ n) = (x / 2 ^ n =? v).
Proof.
  intros Hn Hk Hx. rewrite land_high_mask by done. pose proof (Z.pow_pos_nonneg 2 n).
  destruct (Z.eqb_spec (x / 2 ^ n) v), (Z.eqb_spec (x / 2 ^ n * 2 ^ n) (v * 2 ^ n)); nia.
Qed.

(** ** [is_reserved_ip] is membership of the table *)

Ltac ranges :=
  repeat match goal with
  | H : Forall _ (_ :: _) |- _ => apply Forall_cons_1 in H as [? H]
  | H : Forall _ [] |- _ => clear H
  end.

(** Replace every quotient by a variable with its linear bounds. *)
Ltac quotients :=
  repeat match goal with
  | |- context [?x / ?k] =>
      let q := fresh "q" in
      assert (k * (x / k) ≤ x < k * (x / k) + k) by (pose proof (Z.div_mod x k); pose proof (Z.mod_pos_bound x k); lia);
      set (q := x / k) in *; clearbody q
  end.

Lemma mixed_radix_eq B x y k : 0 ≤ y < B → (x * B + y = k ↔ x = k / B ∧ y = k mod B).
Proof.
  intros Hy. split.
  - intros <-. split.
    + rewrite Z.div_add_l, Z.div_small by lia. lia.
    + by rewrite Z.add_comm, Z.mod_add, Z.mod_small by lia.
  - intros [-> ->]. rewrite (Z.div_mod k B) at 3 by lia. lia.
Qed.

(** One goal per way the hypothesis can hold. *)
Ltac branches :=
  repeat match goal with H : _ ∨ _ |- _ => destruct H | H : _ ∧ _ |- _ => destruct H end.

(** Prove a disjunction of linear facts by the disjunct that holds. *)
Ltac pick_disjunct :=
  match goal with
  | |- _ ∨ _ => first [solve [left; pick_disjunct] | solve [right; pick_disjunct]]
  | |- _ ∧ _ => split; pick_disjunct
  | |- _ => lia
  end.

Lemma blocked_bits_v4_spec a b c d : in_range 8 [a; b; c; d] →
  blocked_bits_v4 (to_bits 8 [a; b; c; d]) ↔ is_reserved_ipv4 [a; b; c; d] = true.
Proof.
  unfold in_range. intros Hr. ranges.
  set (n := to_bits 8 [a; b; c; d]).
  assert (n = ((a * 256 + b) * 256 + c) * 256 + d) as Hn
    by (unfold n, to_bits; simpl; change (2 ^ 8) with 256; lia).
  clearbody n. change (2 ^ 8) with 256 in *.
  assert (n / 2 ^ 24 = a) by (change (2 ^ 24) with 16777216; zdiv).
  assert (n / 2 ^ 22 = a * 4 + b / 64) by (change (2 ^ 22) with 4194304; zdiv).
  assert (n / 2 ^ 16 = a * 256 + b) by (change (2 ^ 16) with 65536; zdiv).
  assert (n / 2 ^ 20 = a * 16 + b / 16) by (change (2 ^ 20) with 1048576; zdiv).
  assert (n / 2 ^ 8 = (a * 256 + b) * 256 + c) by (change (2 ^ 8) with 256; zdiv).
  assert (n / 2 ^ 17 = a * 128 + b / 2) by (change (2 ^ 17) with 131072; zdiv).
  assert (n / 2 ^ 28 = a / 16) by (change (2 ^ 28) with 268435456; zdiv).
  unfold blocked_bits_v4, blocked_v4. rewrite !Exists_cons, Exists_nil.
  unfold in_cidr. cbn [fst snd].
  change (32 - 8) with 24. change (32 - 10) with 22. change (32 - 16) with 16.
  change (32 - 12) with 20. change (32 - 24) with 8. change (32 - 15) with 17.
  change (32 - 4) with 28. repeat (match goal with H : n / _ = _ |- _ => rewrite H; clear H end).
  unfold is_reserved_ipv4, v4_is_loopback, v4_is_private, v4_is_link_local, v4_is_multicast,
    v4_is_broadcast, is_documentation_v4, is_reserved_v4, is_shared_address_space_v4,
    is_benchmarking_v4, at_. cbn [nth].
  rewrite !orb_true_iff, !andb_true_iff, !Z.eqb_eq, !Z.leb_le, bool_decide_eq_true.
  repeat match goal with |- context [v4 ?w ?x ?y ?z / ?k] =>
    let r := eval vm_compute in (v4 w x y z / k) in change (v4 w x y z / k) with r end.
  rewrite !orb_true_iff, !Z.eqb_eq.
  quotients. clear Hn n. rewrite !mixed_radix_eq by lia.
  repeat match goal with |- context [Zpos ?x / Zpos ?y] =>
    let r := eval vm_compute in (Zpos x / Zpos y) in change (Zpos x / Zpos y) with r end.
  repeat match goal with |- context [Zpos ?x mod Zpos ?y] =>
    let r := eval vm_compute in (Zpos x mod Zpos y) in change (Zpos x mod Zpos y) with r end.
  assert (q1 = 9 ↔ b = 18 ∨ b = 19) as -> by lia.
  split; intros Hs; branches; try done; try simplify_eq; pick_disjunct.
Qed.

Lemma to_bits_inj w l k : 0 ≤ w → length l = length k → in_range w l → in_range w k →
  to_bits w l = to_bits w k → l = k.
Proof.
  intros Hw. revert k. induction l as [|x l IH] using rev_ind; intros k Hlen Hl Hk E.
  - by destruct k.
  - destruct k as [|y k _] using rev_ind; [rewrite length_app in Hlen; simpl in Hlen; lia|].
    rewrite !length_app in Hlen. simpl in Hlen. rewrite !to_bits_snoc in E.
    apply Forall_app in Hl as [Hl Hx], Hk as [Hk Hy].
    apply Forall_inv in Hx. apply Forall_inv in Hy.
    destruct (Z.div_mod_unique (2 ^ w) (to_bits w l) (to_bits w k) x y) as [E1 ->]; [lia..|].
    by rewrite (IH k) by (done || lia).
Qed.

(** A block whose prefix is a whole number of segments. *)
Lemma in_cidr_segments w l k l' k' total len : 0 < w →
  length l = length l' → length k = length k' →
  total - len = w * Z.of_nat (length k) →
  in_range w (l ++ k) → in_range w (l' ++ k') →
  in_cidr total (to_bits w (l ++ k)) (to_bits w (l' ++ k'), len) ↔ l = l'.
Proof.
  intros Hw Hl Hk Hlen H H'. apply Forall_app in H as [? ?], H' as [? ?].
  unfold in_cidr. cbn [fst snd]. rewrite Hlen, to_bits_div by (done || lia).
  rewrite Hk, to_bits_div by (done || lia).
  split; [apply to_bits_inj; (done || lia) | by intros ->].
Qed.

(** A block whose prefix ends inside the first segment. *)
Lemma in_cidr_first w x k x' k' total len m : 0 < w → 0 ≤ m →
  length k = length k' → total - len = w * Z.of_nat (length k) + m →
  in_range w (x :: k) → in_range w (x' :: k') →
  in_cidr total (to_bits w (x :: k)) (to_bits w (x' :: k'), len) ↔ x / 2 ^ m = x' / 2 ^ m.
Proof.
  intros Hw Hm Hk Hlen H H'. apply Forall_cons in H as [? ?], H' as [? ?].
  unfold in_cidr. cbn [fst snd]. rewrite Hlen, Z.pow_add_r by lia.
  rewrite <- !Z.div_div by lia.
  change (x :: k) with ([x] ++ k)%list. change (x' :: k') with ([x'] ++ k')%list.
  rewrite to_bits_div by (done || lia). rewrite Hk, to_bits_div by (done || lia). done.
Qed.

Lemma first_segment_masks s : 0 ≤ s < 65536 →
  (Z.land s 65280 =? 65280) = (s / 2 ^ 8 =? 255)
  ∧ (Z.land s 65472 =? 65152) = (s / 2 ^ 6 =? 1018)
  ∧ (Z.land s 65024 =? 64512) = (s / 2 ^ 9 =? 126).
Proof.
  intros Hs. split; [|split].
  - exact (land_mask_eqb s 8 8 255 ltac:(done) ltac:(done) Hs).
  - exact (land_mask_eqb s 6 10 1018 ltac:(done) ltac:(done) Hs).
  - exact (land_mask_eqb s 9 7 126 ltac:(done) ltac:(done) Hs).
Qed.

Section v6.
Context (a b c d e f g h : Z).
Context (Hr : in_range 16 [a; b; c; d; e; f; g; h]).

Lemma mapped_prefix_spec : in_cidr 128 (to_bits 16 [a; b; c; d; e; f; g; h]) mapped_prefix
  ↔ [a; b; c; d; e; f] = [0; 0; 0; 0; 0; 65535].
Proof.
  apply (in_cidr_segments 16 [a; b; c; d; e; f] [g; h] [0; 0; 0; 0; 0; 65535] [0; 0]); try done.
  repeat constructor; done.
Qed.

Lemma blocked_v6_spec : Exists (in_cidr 128 (to_bits 16 [a; b; c; d; e; f; g; h])) blocked_v6
  ↔ [a; b; c; d; e; f] = [0; 0; 0; 0; 0; 0] ∨ [a; b; c; d] = [100; 65435; 0; 0] ∨ [a] = [256]
    ∨ [a; b] = [8193; 3512] ∨ [a] = [8194] ∨ a / 2 ^ 9 = 126 ∨ a / 2 ^ 6 = 1018
    ∨ a / 2 ^ 8 = 255.
Proof.
  unfold blocked_v6. rewrite !Exists_cons, Exists_nil.
  change 0 with (to_bits 16 ([0; 0; 0; 0; 0; 0] ++ [0; 0])) at 1.
  rewrite (in_cidr_segments 16 [a; b; c; d; e; f] [g; h] [0; 0; 0; 0; 0; 0] [0; 0])
    by (done || (repeat constructor; done)).
  rewrite (in_cidr_segments 16 [a; b; c; d] [e; f; g; h] [100; 65435; 0; 0] [0; 0; 0; 0])
    by (done || (repeat constructor; done)).
  rewrite (in_cidr_segments 16 [a] [b; c; d; e; f; g; h] [256] [0; 0; 0; 0; 0; 0; 0])
    by (done || (repeat constructor; done)).
  rewrite (in_cidr_segments 16 [a; b] [c; d; e; f; g; h] [8193; 3512] [0; 0; 0; 0; 0; 0])
    by (done || (repeat constructor; done)).
  rewrite (in_cidr_segments 16 [a] [b; c; d; e; f; g; h] [8194] [0; 0; 0; 0; 0; 0; 0])
    by (done || (repeat constructor; done)).
  rewrite (in_cidr_first 16 a [b; c; d; e; f; g; h] 64512 [0; 0; 0; 0; 0; 0; 0] 128 7 9)
    by (done || (repeat constructor; done)).
  rewrite (in_cidr_first 16 a [b; c; d; e; f; g; h] 65152 [0; 0; 0; 0; 0; 0; 0] 128 10 6)
    by (done || (repeat constructor; done)).
  rewrite (in_cidr_first 16 a [b; c; d; e; f; g; h] 65280 [0; 0; 0; 0; 0; 0; 0] 128 8 8)
    by (done || (repeat constructor; done)).
  change (64512 / 2 ^ 9) with 126. change (65152 / 2 ^ 6) with 1018.
  change (65280 / 2 ^ 8) with 255. tauto.
Qed.

Lemma embedded_v4_bits :
  to_bits 16 [a; b; c; d; e; f; g; h] mod 2 ^ 32
  = to_bits 8 [g / 256; g mod 256; h / 256; h mod 256].
Proof.
  apply (Forall_app _ [a; b; c; d; e; f] [g; h]) in Hr as [_ H].
  change [a; b; c; d; e; f; g; h] with ([a; b; c; d; e; f] ++ [g; h])%list.
  change 32 with (16 * Z.of_nat (length [g; h])). rewrite to_bits_mod by done.
  unfold to_bits. simpl. change (2 ^ 16) with 65536. change (2 ^ 8) with 256. zdiv.
Qed.

End v6.

Lemma list_eq_8 {A} (l : list A) : length l = 8%nat →
  ∃ a b c d e f g h, l = [a; b; c; d; e; f; g; h].
Proof. intros. do 8 (destruct l as [|? l]; [done|]). destruct l; [|done]. by repeat eexists. Qed.

Lemma list_eq_4 {A} (l : list A) : length l = 4%nat → ∃ a b c d, l = [a; b; c; d].
Proof. intros. do 4 (destruct l as [|? l]; [done|]). destruct l; [|done]. by repeat eexists. Qed.

Lemma to_ipv4_mapped_Some s0 s1 s2 s3 s4 s5 s6 s7 :
  to_ipv4_mapped [s0; s1; s2; s3; s4; s5; s6; s7]
  = if decide ([s0; s1; s2; s3; s4; s5] = [0; 0; 0; 0; 0; 65535])
    then Some [s6 / 256; s6 mod 256; s7 / 256; s7 mod 256] else None.
Proof.
  unfold to_ipv4_mapped. case_decide as E; [by simplify_eq|].
  destruct (_ && _) eqn:H; [|done]. bool_facts. by subst.
Qed.

(** ::/96 is what [is_ipv4_compatible] accepts together with :: and ::1. *)
Lemma zero_block_spec a b c d e f g h :
  [a; b; c; d; e; f] = [0; 0; 0; 0; 0; 0]
  ↔ is_ipv4_compatible [a; b; c; d; e; f; g; h] = true
    ∨ v6_is_loopback [a; b; c; d; e; f; g; h] = true
    ∨ v6_is_unspecified [a; b; c; d; e; f; g; h] = true.
Proof.
  unfold is_ipv4_compatible, v6_is_loopback, v6_is_unspecified, at_. cbn [nth].
  rewrite !bool_decide_eq_true. split.
  - intros E. simplify_eq. simpl.
    destruct (Z.eqb_spec g 0) as [->|]; [|by left].
    destruct (Z.eqb_spec h 0) as [->|]; [by right; right|].
    destruct (Z.eqb_spec h 1) as [->|]; [by right; left|by left].
  - intros [H|[H|H]]; [|by simplify_eq..]. bool_facts. by subst.
Qed.

Lemma if_true_orb (b y : bool) : (if b then true else y) = b || y.
Proof. done. Qed.

Lemma is_reserved_iff ip : ip_wf ip → (is_reserved_ip ip = true ↔ blocked ip).
Proof.
  destruct ip as [o|s]; intros [Hlen Hr].
  - apply list_eq_4 in Hlen as (a & b & c & d & ->). simpl. by rewrite blocked_bits_v4_spec.
  - apply list_eq_8 in Hlen as (a & b & c & d & e & f & g & h & ->).
    unfold is_reserved_ip, blocked. rewrite to_ipv4_mapped_Some.
    rewrite mapped_prefix_spec, blocked_v6_spec, embedded_v4_bits by done.
    unfold in_range in Hr. ranges. change (2 ^ 16) with 65536 in *.
    destruct (first_segment_masks a) as (M1 & M2 & M3); [done|].
    case_decide as Em.
    + rewrite blocked_bits_v4_spec by (repeat constructor; change (2 ^ 8) with 256; zdiv).
      split; [tauto|]. intros [[_ Hb]|Hb]; [done|]. simplify_eq. branches; simplify_eq.
    + rewrite (zero_block_spec a b c d e f g h). unfold v6_is_multicast, v6_is_unicast_link_local,
        v6_is_unique_local, is_nat64_wellknown, is_6to4, is_documentation_v6, is_discard_prefix, at_.
      cbn [nth]. rewrite M1, M2, M3, !if_true_orb, !orb_true_iff, !andb_true_iff, !Z.eqb_eq.
      clear M1 M2 M3. split; intros Hs; branches; simplify_eq; tauto.
Qed.

(** [is_reserved_ip] is exactly membership of the published table of CIDR
    blocks: it answers [true] on an IPv4 address iff one of the thirteen
    reserved IPv4 blocks contains it, and on an IPv6 address iff it is an
    IPv4-mapped address whose embedded IPv4 address is in one of those blocks,
    or one of the eight reserved IPv6 blocks contains it. *)
Theorem is_reserved_ip_correct ip : ip_wf ip → (is_reserved_ip ip = true ↔ blocked ip).
Proof. apply is_reserved_iff. Qed.

(** ** Dotted quads are parsed as IPv4 addresses *)

(** [Display] of an [Ipv4Addr]. *)
Definition show_v4 (o : list Z) : string := join "." (show_u <$> o).

Lemma radix_val_digit_char d : is_digit d → radix_val 10 (digit_char d) = Some d.
Proof.
  unfold is_digit, radix_val, digit_char. intros Hd. rewrite byte_val_of by lia.
  replace (48 + d - 48) with d by lia. by do 2 ztest.
Qed.

(** What may follow a number: the end, or a byte that is no digit. *)
Definition no_digit (l : list ascii) : Prop :=
  match l with [] => True | a :: _ => radix_val 10 a = None end.

Lemma read_digits_stop l acc n : no_digit l →
  read_digits 10 3 255 l acc n = Some (acc, n, l).
Proof. destruct l as [|a l]; simpl; [done|]. by intros ->. Qed.

Lemma read_digits_step d l acc n : is_digit d → acc * 10 + d ≤ 255 → n < 3 →
  read_digits 10 3 255 (digit_char d :: l) acc n = read_digits 10 3 255 l (acc * 10 + d) (n + 1).
Proof.
  intros Hd Ha Hn. cbn [read_digits]. rewrite radix_val_digit_char by done.
  destruct (Z.ltb_spec 255 (acc * 10 + d)); [lia|]. by destruct (Z.ltb_spec 3 (n + 1)); [lia|].
Qed.

Lemma digit_char_zero d : is_digit d → digit_char d = "0"%char → d = 0.
Proof.
  unfold is_digit, digit_char. intros Hd H. apply (f_equal byte_val) in H.
  rewrite byte_val_of in H by lia. change (byte_val "0") with 48 in H. lia.
Qed.

Lemma read_octet_show a l : 0 ≤ a < 256 → no_digit l →
  read_octet (bytes (show_u a) ++ l) = Some (a, l).
Proof.
  intros Ha Hl. rewrite bytes_show_u. unfold read_octet, read_number.
  rewrite digits_rev_eq by lia. destruct (Z.ltb_spec a 10).
  - cbn [rev fmap list_fmap app]. rewrite read_digits_step, read_digits_stop by (done || (unfold is_digit; zdiv)).
    cbn. by rewrite andb_false_r.
  - rewrite digits_rev_eq by zdiv. destruct (Z.ltb_spec (a / 10) 10).
    + cbn [rev fmap list_fmap app].
      rewrite !read_digits_step, read_digits_stop by (done || (unfold is_digit; zdiv)).
      rewrite bool_decide_false; [repeat f_equal; simpl; zdiv|].
      intros [= E]. apply digit_char_zero in E; unfold is_digit; zdiv.
    + rewrite digits_rev_eq by zdiv. destruct (Z.ltb_spec (a / 10 / 10) 10); [|zdiv].
      cbn [rev fmap list_fmap app].
      rewrite !read_digits_step, read_digits_stop by (done || (unfold is_digit; zdiv)).
      rewrite bool_decide_false; [repeat f_equal; simpl; zdiv|].
      intros [= E]. apply digit_char_zero in E; unfold is_digit; zdiv.
Qed.

Lemma bytes_show_v4 a b c d :
  bytes (show_v4 [a; b; c; d])
  = (bytes (show_u a) ++ "."%char :: bytes (show_u b) ++ "."%char :: bytes (show_u c)
     ++ "."%char :: bytes (show_u d) ++ [])%list.
Proof.
  unfold show_v4. cbn [fmap list_fmap join]. rewrite app_nil_r.
  by rewrite bytes_app, bytes_app, bytes_app, bytes_app, bytes_app, bytes_app.
Qed.

Lemma read_ipv4_show a b c d : ip_wf (V4 [a; b; c; d]) →
  read_ipv4_addr (bytes (show_v4 [a; b; c; d])) = Some ([a; b; c; d], []).
Proof.
  intros [_ Hr]. ranges. rewrite bytes_show_v4.
  cbv beta iota delta [read_ipv4_addr read_separator read_given_char mbind option_bind].
  do 4 (rewrite read_octet_show by done; cbv beta iota; simpl Ascii.eqb; cbv iota).
  done.
Qed.

Lemma parse_ip_show_v4 o : ip_wf (V4 o) → parse_ip (show_v4 o) = Some (V4 o).
Proof.
  intros Ho. pose proof Ho as [Hlen _]. apply list_eq_4 in Hlen as (a & b & c & d & ->).
  unfold parse_ip. by rewrite read_ipv4_show.
Qed.

Lemma strip_brackets_id s : strip_char "[" s = None → strip_brackets s = s.
Proof. unfold strip_brackets. by intros ->. Qed.

Lemma show_v4_no_bracket o : ip_wf (V4 o) → strip_char "[" (show_v4 o) = None.
Proof.
  intros [Hlen Hr]. apply list_eq_4 in Hlen as (a & b & c & d & ->). ranges.
  apply strip_char_None. rewrite bytes_show_v4.
  pose proof (λ n Hn, show_u_no_byte "[" n Hn eq_refl) as Hno.
  repeat first [rewrite elem_of_app | rewrite elem_of_cons].
  intros Hin. branches; try done; try (match goal with H : _ ∈ [] |- _ => by apply elem_of_nil in H end);
    (eapply Hno; [|eassumption]; lia).
Qed.

(** ** Every parsed address is well formed *)

Lemma radix_val_bound radix a d : 0 < radix → radix_val radix a = Some d → 0 ≤ d.
Proof.
  unfold radix_val. pose proof (byte_val_range a). intros Hr.
  case_match; [|done]. intros [= <-].
  repeat match goal with |- context [if ?b then _ else _] => destruct b eqn:? end; bool_facts; lia.
Qed.

Lemma read_digits_bound radix md mv l acc n v k r : 0 < radix → 0 ≤ acc ≤ mv →
  read_digits radix md mv l acc n = Some (v, k, r) → 0 ≤ v ≤ mv.
Proof.
  intros Hr. revert acc n. induction l as [|a l IH]; intros acc n Hacc; simpl; [by intros [= <- _ _]|].
  destruct (radix_val radix a) as [d|] eqn:Hd; [|by intros [= <- _ _]].
  apply radix_val_bound in Hd; [|done]. destruct (Z.ltb_spec mv (acc * radix + d)); [done|].
  destruct (_ <? _); [done|]. apply IH. nia.
Qed.

Lemma read_number_bound radix md mv z l v r : 0 < radix → 0 ≤ mv →
  read_number radix md mv z l = Some (v, r) → 0 ≤ v ≤ mv.
Proof.
  intros Hr Hm. unfold read_number. destruct (read_digits _ _ _ _ _ _) as [[[v' n] l']|] eqn:E; [|done].
  destruct (n =? 0); [done|]. destruct (_ && _); [done|]. intros [= <- <-].
  eapply read_digits_bound; [done| |exact E]. lia.
Qed.

Lemma read_separator_bound sep i radix md mv z l v r : 0 < radix → 0 ≤ mv →
  read_separator sep i (read_number radix md mv z) l = Some (v, r) → 0 ≤ v ≤ mv.
Proof.
  intros ??. unfold read_separator. destruct i; [by apply read_number_bound|].
  destruct (read_given_char _ _) as [[? ?]|]; [|done]. by apply read_number_bound.
Qed.

Lemma read_ipv4_wf l o r : read_ipv4_addr l = Some (o, r) → ip_wf (V4 o).
Proof.
  unfold read_ipv4_addr, read_octet, mbind, option_bind. intros H.
  repeat match type of H with
  | match ?x with _ => _ end = _ =>
      let E := fresh "E" in destruct x as [[? ?]|] eqn:E; [apply read_separator_bound in E; [|done..]|done]
  end.
  simplify_eq. split; [done|]. repeat constructor; change (2 ^ 8) with 256; lia.
Qed.

Lemma read_separator_ipv4_wf sep i l o r :
  read_separator sep i read_ipv4_addr l = Some (o, r) → ip_wf (V4 o).
Proof.
  unfold read_separator. destruct i; [apply read_ipv4_wf|].
  destruct (read_given_char _ _) as [[? ?]|]; [|done]. apply read_ipv4_wf.
Qed.

Lemma read_groups_wf n i l gs e r : read_groups n i l = (gs, e, r) →
  (length gs ≤ n)%nat ∧ in_range 16 gs.
Proof.
  revert i l gs e r. induction n as [|n IH]; intros i l gs e r; cbn [read_groups].
  { intros [= <- _ _]. by split; [|constructor]. }
  assert (∀ res, (match read_separator ":" i (read_number 16 4 65535 true) l with
    | None => ([], false, l)
    | Some (g, l') => let '(gs, e, l'') := read_groups n (S i) l' in (g :: gs, e, l'')
    end) = res → (length res.1.1 ≤ S n)%nat ∧ in_range 16 res.1.1) as Hgroup.
  { intros res <-. destruct (read_separator _ _ _ _) as [[g l']|] eqn:E; [|split; [simpl; lia|constructor]].
    apply read_separator_bound in E; [|done..].
    destruct (read_groups n (S i) l') as [[gs' e'] l''] eqn:E'. apply IH in E' as [? ?].
    split; simpl; [lia|]. constructor; [change (2 ^ 16) with 65536; lia|done]. }
  destruct n as [|n]; [intros H; by apply (Hgroup (gs, e, r))|].
  destruct (read_separator _ _ read_ipv4_addr l) as [[o l']|] eqn:E;
    [|intros H; by apply (Hgroup (gs, e, r))].
  apply read_separator_ipv4_wf in E as [Hlen Hr].
  apply list_eq_4 in Hlen as (a & b & c & d & ->). ranges. change (2 ^ 8) with 256 in *.
  intros [= <- _ _]. split; [simpl; lia|].
  repeat constructor; change (2 ^ 16) with 65536; lia.
Qed.

Lemma read_ipv6_wf l s r : read_ipv6_addr l = Some (s, r) → ip_wf (V6 s).
Proof.
  unfold read_ipv6_addr, mbind, option_bind.
  destruct (read_groups 8 0 l) as [[h e] l1] eqn:Eh. apply read_groups_wf in Eh as [Hh Rh].
  destruct (Nat.eqb_spec (length h) 8); [by intros [= <- _]|]. destruct e; [done|].
  destruct (read_given_char ":" l1) as [[_ l2]|]; [|done].
  destruct (read_given_char ":" l2) as [[_ l3]|]; [|done].
  destruct (read_groups (8 - (length h + 1)) 0 l3) as [[t e] l4] eqn:Et.
  apply read_groups_wf in Et as [Ht Rt]. intros [= <- _]. split.
  - rewrite !length_app, length_replicate. lia.
  - apply Forall_app; split; [done|]. apply Forall_app; split; [|done].
    by apply Forall_replicate.
Qed.

Lemma parse_ip_wf s ip : parse_ip s = Some ip → ip_wf ip.
Proof.
  unfold parse_ip. destruct (read_ipv4_addr _) as [[o [|? ?]]|] eqn:E4; [|done|].
  - intros [= <-]. by eapply read_ipv4_wf.
  - destruct (read_ipv6_addr _) as [[g [|? ?]]|] eqn:E6; [|done..].
    intros [= <-]. by eapply read_ipv6_wf.
Qed.

(** ** The two validations *)

Lemma not_reserved_not_blocked ip : ip_wf ip → is_reserved_ip ip = false → ¬ blocked ip.
Proof. intros Hwf Hr Hb. apply is_reserved_iff in Hb; congruence. Qed.

Lemma find_none_Forall {A} (f : A → bool) l : find f l = None ↔ Forall (λ x, f x = false) l.
Proof.
  induction l as [|x l IH]; simpl; [done|]. rewrite Forall_cons. destruct (f x); [naive_solver|].
  by rewrite IH; naive_solver.
Qed.

Section validation.
Context `{NetEnv}.

(** The resolver returns addresses: four octets, or eight segments. *)
Context (lookup_wf : ∀ host addrs, lookup_host host = Some addrs → Forall ip_wf addrs).

(** C20: A delivery only ever connects to a public address: when
    [validate_webhook_url_at_delivery] answers [Ok ip], [ip] is outside every
    blocked range, and it is either the literal host of the URL or the first
    address of a resolution whose addresses are all outside the blocked
    ranges. *)
Theorem delivery_only_public url ip :
  validate_webhook_url_at_delivery url = Ok ip →
  ¬ blocked ip ∧
  ∃ parsed host, url_parse url = Ok parsed ∧ host_str parsed = Some host ∧
    (parse_ip (strip_brackets host) = Some ip
     ∨ parse_ip (strip_brackets host) = None
       ∧ ∃ addrs, lookup_host (host +:+ ":80") = Some addrs ∧ head addrs = Some ip
                  ∧ Forall (λ a, ¬ blocked a) addrs).
Proof.
  unfold validate_webhook_url_at_delivery.
  destruct (url_parse url) as [p|] eqn:Hp; [|done]. cbn [map_err mbind result_bind].
  destruct (host_str p) as [host|] eqn:Hh; [|done].
  destruct (parse_ip (strip_brackets host)) as [a|] eqn:Ha.
  - destruct (is_reserved_ip a) eqn:Hr; [done|]. intros [= <-].
    split; [apply not_reserved_not_blocked; [by eapply parse_ip_wf|done]|]. eauto 8.
  - destruct (lookup_host (host +:+ ":80")) as [[|a addrs]|] eqn:Hl; [done| |done].
    destruct (find is_reserved_ip (a :: addrs)) eqn:Hf; [done|]. intros [= <-].
    apply find_none_Forall in Hf. apply lookup_wf in Hl as Hwf.
    assert (Forall (λ a, ¬ blocked a) (a :: addrs)) as Hall.
    { pointwise. intros x Hx. apply not_reserved_not_blocked; auto. }
    split; [by apply Forall_inv in Hall|]. exists p, host. eauto 10.
Qed.

(** A URL whose host is an IPv4 address of a blocked range, written as a
    dotted quad, is refused at registration and again at delivery, whatever its
    scheme, path and port. *)
Theorem blocked_ipv4_rejected url parsed o :
  url_parse url = Ok parsed → ip_wf (V4 o) → host_str parsed = Some (show_v4 o) →
  blocked (V4 o) →
  is_ok (validate_webhook_url url) = false
  ∧ validate_webhook_url_at_delivery url = Err InternalIp.
Proof.
  intros Hp Hwf Hh Hb. apply is_reserved_iff in Hb; [|done].
  assert (parse_ip (strip_brackets (show_v4 o)) = Some (V4 o)) as Hparse
    by (rewrite strip_brackets_id by (by apply show_v4_no_bracket); by apply parse_ip_show_v4).
  unfold validate_webhook_url, validate_webhook_url_at_delivery. rewrite Hp.
  cbn [map_err mbind result_bind]. rewrite Hh. split.
  - destruct (negb _); [done|]. destruct (raw_host _); [done|].
    case_bool_decide; [done|]. unfold is_internal_address. rewrite Hparse, Hb.
    by destruct (is_localhost _).
  - by rewrite Hparse, Hb.
Qed.

End validation.

(** ** Witnesses *)

(** A resolver and a URL parser for one URL shape. *)
Definition sample_net : NetEnv := {|
  url_parse u := match strip_prefix "http://" u with
                 | Some h => Ok {| scheme := "http"; host_str := Some h |}
                 | None => Err "relative URL without a base" end;
  lookup_host h := if String.eqb h "hooks.example.org:80" then Some [V4 [93; 184; 216; 34]] else None;
|}.

Lemma is_reserved_ip_correct_witness :
  is_reserved_ip (V6 [0; 0; 0; 0; 0; 65535; 49320; 257]) = true ↔ blocked (V6 [0; 0; 0; 0; 0; 65535; 49320; 257]).
Proof. apply is_reserved_ip_correct. split; [done|]. repeat constructor; done. Defined.

Lemma delivery_only_public_witness :
  ¬ blocked (V4 [93; 184; 216; 34]).
Proof.
  apply (@delivery_only_public sample_net) with (url := "http://hooks.example.org").
  - intros host addrs. simpl. destruct (String.eqb _ _); [|done].
    intros [= <-]. repeat constructor; done.
  - vm_compute. reflexivity.
Defined.

Lemma blocked_ipv4_rejected_witness :
  is_ok (@validate_webhook_url sample_net "http://169.254.169.254") = false
  ∧ @validate_webhook_url_at_delivery sample_net "http://169.254.169.254" = Err InternalIp.
Proof.
  apply (@blocked_ipv4_rejected sample_net _ {| scheme := "http"; host_str := Some "169.254.169.254" |}
           [169; 254; 169; 254]).
  - reflexivity.
  - split; [done|]. repeat constructor; done.
  - reflexivity.
  - do 4 right. left. reflexivity.
Defined.
