(* ===== verification/Store.v ===== *)
(** * Store: the event store and its projections ([lumenqraph-indexer/src/store.rs])

    Events are written in batches, one transaction each, keyed by the unique
    [event_id]; newly inserted events are projected into [token_transfers],
    [amm_swaps], [nft_events] and [liquidity_events].  A table keyed by
    [event_id] is a [gmap]; a transaction is a function on [Db]. *)
From S2P Require Import Prelude Text Containers Values.

Local Open Scope Z_scope.

(** ** The data model ([lumenqraph-core/src/models.rs]) *)

(** [DateTime<Utc>], as nanoseconds since the epoch. *)
Definition DateTime : Type := Z.

Record NewEvent := {
  event_id : string;
  contract_id : string;
  ledger : Z;
  ledger_closed_at : DateTime;
  event_type : string;
  topics : list string;
  decoded_topics : list Json;
  event_name : option string;
  value : string;
  decoded_value : Json;
  enriched : option Json;
  tx_hash : string;
  in_successful_call : bool;
  paging_token : string;
}.

Inductive ContractKind : Type :=
  | FungibleToken
  | NonFungibleToken
  | Amm
  | LiquidityPool
  | Other.

#[export] Instance ContractKind_eq_dec : EqDecision ContractKind.
Proof. solve_decision. Defined.

(** [ContractKindResolver]: [None] means unknown. *)
Definition Resolver : Type := string → option ContractKind.

Record Transfer := {
  t_event_id : string;
  t_contract_id : string;
  t_from_addr : option string;
  t_to_addr : option string;
  t_amount : string;
  t_kind : string;
  t_ledger : Z;
  t_ledger_closed_at : DateTime;
}.

Record Swap := {
  s_event_id : string;
  s_contract_id : string;
  s_sender : option string;
  s_recipient : option string;
  s_token_in : option string;
  s_token_out : option string;
  s_amount_in : option string;
  s_amount_out : option string;
  s_ledger : Z;
  s_ledger_closed_at : DateTime;
}.

Record NftEvent := {
  n_event_id : string;
  n_contract_id : string;
  n_kind : string;
  n_token_id : option string;
  n_from_addr : option string;
  n_to_addr : option string;
  n_ledger : Z;
  n_ledger_closed_at : DateTime;
}.

Record LiquidityEvent := {
  l_event_id : string;
  l_contract_id : string;
  l_kind : string;
  l_provider : option string;
  l_token_a : option string;
  l_token_b : option string;
  l_amount_a : option string;
  l_amount_b : option string;
  l_ledger : Z;
  l_ledger_closed_at : DateTime;
}.

(** ** Resolvers *)

Definition is_sac_contract_id (contract_id : string) : bool :=
  (String.length contract_id =? 56)%nat && starts_with "C" contract_id.

Definition default_contract_kind : Resolver := λ contract_id,
  if is_sac_contract_id contract_id then Some FungibleToken else None.

(** ** Projections *)

Definition as_addr (v : option Json) : option string :=
  match v with Some (JStr s) => Some s | _ => None end.

(** A JSON integer is read as an [i64], else as a [u64]. *)
Definition as_i128_amount (v : Json) : option string :=
  match v with
  | JStr s => match parse_int 128 s with Some _ => Some s | None => None end
  | JInt i => if in_i 64 i then Some (show_i i)
              else if in_u 64 i then Some (show_u i) else None
  | _ => None
  end.

(** [Number::to_string]. *)
Definition number_to_string (v : Json) : option string :=
  match v with JInt i => Some (show_i i) | JFloat t => Some t | _ => None end.

(** [extract_transfer] returns an option and bumps the skip counter on the
    way: [Skipped] is [None] with the counter bumped. *)
Inductive TransferOutcome : Type :=
  | NotTransfer
  | Skipped
  | Projected (t : Transfer).

Definition transfer_kind (event_name : option string) : option string :=
  name ← event_name;
  if bool_decide (name ∈ ["transfer"; "mint"; "burn"; "clawback"]) then Some name else None.

Definition transfer_amount (v : Json) : option string :=
  match v with
  | JObj map => bt_get "amount" map ≫= as_i128_amount
  | other => as_i128_amount other
  end.

Definition topic_addr (e : NewEvent) (i : nat) : option string := as_addr (decoded_topics e !! i).

Definition transfer_parties (kind : string) (e : NewEvent) : option (option string * option string) :=
  if String.eqb kind "transfer" then Some (topic_addr e 1, topic_addr e 2)
  else if String.eqb kind "mint" then Some (None, topic_addr e 1)
  else if String.eqb kind "burn" || String.eqb kind "clawback" then Some (topic_addr e 1, None)
  else None.

Definition extract_transfer (resolve : Resolver) (e : NewEvent) : TransferOutcome :=
  match transfer_kind (event_name e) with
  | None => NotTransfer
  | Some kind =>
      match resolve (contract_id e) with
      | Some FungibleToken =>
          match transfer_amount (decoded_value e) with
          | None => Skipped
          | Some amount =>
              match transfer_parties kind e with
              | None => NotTransfer
              | Some (from_addr, to_addr) =>
                  Projected {| t_event_id := event_id e; t_contract_id := contract_id e;
                    t_from_addr := from_addr; t_to_addr := to_addr; t_amount := amount;
                    t_kind := kind; t_ledger := ledger e;
                    t_ledger_closed_at := ledger_closed_at e |}
              end
          end
      | _ => Skipped
      end
  end.

(** The pair of amounts of a swap or liquidity value: a map, or an array. *)
Definition amount_pair (ka kb : string) (v : Json) : option string * option string :=
  match v with
  | JObj map => (bt_get ka map ≫= as_i128_amount, bt_get kb map ≫= as_i128_amount)
  | JArr arr => (arr !! 0%nat ≫= as_i128_amount, arr !! 1%nat ≫= as_i128_amount)
  | _ => (None, None)
  end.

Definition extract_swap (resolve : Resolver) (e : NewEvent) : option Swap :=
  name ← event_name e;
  if negb (String.eqb name "swap") then None
  else if bool_decide (resolve (contract_id e) ≠ Some Amm) then None
  else
    let '(amount_in, amount_out) := amount_pair "amount_in" "amount_out" (decoded_value e) in
    Some {| s_event_id := event_id e; s_contract_id := contract_id e;
      s_sender := topic_addr e 1; s_recipient := topic_addr e 2;
      s_token_in := topic_addr e 3; s_token_out := topic_addr e 4;
      s_amount_in := amount_in; s_amount_out := amount_out;
      s_ledger := ledger e; s_ledger_closed_at := ledger_closed_at e |}.

Definition nft_token_id (v : Json) : option string :=
  match v with
  | JObj map =>
      w ← bt_get "token_id" map;
      match w with JStr s => Some s | _ => number_to_string w end
  | JStr s => Some s
  | other => number_to_string other
  end.

Definition extract_nft_event (resolve : Resolver) (e : NewEvent) : option NftEvent :=
  kind ← event_name e;
  if negb (bool_decide (kind ∈ ["mint"; "transfer"; "burn"])) then None
  else if bool_decide (resolve (contract_id e) ≠ Some NonFungibleToken) then None
  else
    '(from_addr, to_addr) ← transfer_parties kind e;
    Some {| n_event_id := event_id e; n_contract_id := contract_id e; n_kind := kind;
      n_token_id := nft_token_id (decoded_value e); n_from_addr := from_addr;
      n_to_addr := to_addr; n_ledger := ledger e; n_ledger_closed_at := ledger_closed_at e |}.

Definition extract_liquidity_event (resolve : Resolver) (e : NewEvent) : option LiquidityEvent :=
  kind ← event_name e;
  if negb (bool_decide (kind ∈ ["deposit"; "withdraw"])) then None
  else if bool_decide (resolve (contract_id e) ≠ Some LiquidityPool) then None
  else
    let '(amount_a, amount_b) := amount_pair "amount_a" "amount_b" (decoded_value e) in
    Some {| l_event_id := event_id e; l_contract_id := contract_id e; l_kind := kind;
      l_provider := topic_addr e 1; l_token_a := topic_addr e 2; l_token_b := topic_addr e 3;
      l_amount_a := amount_a; l_amount_b := amount_b; l_ledger := ledger e;
      l_ledger_closed_at := ledger_closed_at e |}.

(** ** The tables *)

Record Db := {
  events : gmap string NewEvent;
  token_transfers : gmap string Transfer;
  amm_swaps : gmap string Swap;
  nft_events : gmap string NftEvent;
  liquidity_events : gmap string LiquidityEvent;
  notifications : nat;       (** [pg_notify] sent *)
  transfer_skipped : nat;    (** [TRANSFER_PROJECTION_SKIPPED] *)
}.

Definition empty_db : Db := {|
  events := ∅; token_transfers := ∅; amm_swaps := ∅; nft_events := ∅; liquidity_events := ∅;
  notifications := 0; transfer_skipped := 0 |}.

(** [INSERT .. SELECT .. FROM UNNEST(..) ON CONFLICT (event_id) DO NOTHING]:
    row by row, a row whose key is present (also from an earlier row of the
    same statement) is dropped; [RETURNING] lists the keys inserted. *)
Fixpoint insert_rows {R} (key : R → string) (rows : list R) (table : gmap string R)
    : gmap string R * list string :=
  match rows with
  | [] => (table, [])
  | r :: rows' =>
      match table !! key r with
      | Some _ => insert_rows key rows' table
      | None => let '(table', ids) := insert_rows key rows' (<[key r := r]> table) in
                (table', key r :: ids)
      end
  end.

Definition transfer_of (o : TransferOutcome) : option Transfer :=
  match o with Projected t => Some t | _ => None end.

Definition is_skipped (o : TransferOutcome) : bool :=
  match o with Skipped => true | _ => false end.

(** [events.iter().filter(|e| inserted_ids.contains(&e.event_id))]. *)
Definition newly_inserted (ids : list string) (evs : list NewEvent) : list NewEvent :=
  filter (λ e, event_id e ∈ ids) evs.

Definition project_transfers (resolve : Resolver) (evs : list NewEvent) (db : Db) : Db :=
  let outcomes := extract_transfer resolve <$> evs in
  {| events := events db;
     token_transfers := (insert_rows t_event_id (omap transfer_of outcomes) (token_transfers db)).1;
     amm_swaps := amm_swaps db; nft_events := nft_events db;
     liquidity_events := liquidity_events db; notifications := notifications db;
     transfer_skipped := transfer_skipped db + length (filter is_skipped outcomes) |}.

Definition project_verticals (resolve : Resolver) (evs : list NewEvent) (db : Db) : Db :=
  {| events := events db; token_transfers := token_transfers db;
     amm_swaps := (insert_rows s_event_id (omap (extract_swap resolve) evs) (amm_swaps db)).1;
     nft_events := (insert_rows n_event_id (omap (extract_nft_event resolve) evs) (nft_events db)).1;
     liquidity_events := (insert_rows l_event_id (omap (extract_liquidity_event resolve) evs)
                           (liquidity_events db)).1;
     notifications := notifications db; transfer_skipped := transfer_skipped db |}.

Definition with_events (t : gmap string NewEvent) (db : Db) : Db :=
  {| events := t; token_transfers := token_transfers db; amm_swaps := amm_swaps db;
     nft_events := nft_events db; liquidity_events := liquidity_events db;
     notifications := notifications db; transfer_skipped := transfer_skipped db |}.

Definition notify (db : Db) : Db :=
  {| events := events db; token_transfers := token_transfers db; amm_swaps := amm_swaps db;
     nft_events := nft_events db; liquidity_events := liquidity_events db;
     notifications := S (notifications db); transfer_skipped := transfer_skipped db |}.

(** ** The transactions *)

Definition insert_events_with_resolver (resolve : Resolver) (evs : list NewEvent) (db : Db) : nat * Db :=
  match evs with
  | [] => (0%nat, db)
  | _ =>
      let '(table, inserted_ids) := insert_rows event_id evs (events db) in
      let inserted_count := length inserted_ids in
      let db1 := with_events table db in
      let db2 :=
        if (0 <? inserted_count)%nat then
          let new_events := newly_inserted inserted_ids evs in
          project_verticals resolve new_events (project_transfers resolve new_events db1)
        else db1 in
      (inserted_count, notify db2)
  end.

Definition insert_events : list NewEvent → Db → nat * Db :=
  insert_events_with_resolver default_contract_kind.

(** [ON CONFLICT (event_id) DO UPDATE SET decoded_topics, decoded_value, enriched]. *)
Definition update_event (old new : NewEvent) : NewEvent :=
  {| event_id := event_id old; contract_id := contract_id old; ledger := ledger old;
     ledger_closed_at := ledger_closed_at old; event_type := event_type old;
     topics := topics old; decoded_topics := decoded_topics new; event_name := event_name old;
     value := value old; decoded_value := decoded_value new; enriched := enriched new;
     tx_hash := tx_hash old; in_successful_call := in_successful_call old;
     paging_token := paging_token old |}.

(** The upsert statement; [RETURNING event_id, (xmax = 0) AS inserted]. *)
Fixpoint upsert_rows (rows : list NewEvent) (table : gmap string NewEvent)
    : gmap string NewEvent * list (string * bool) :=
  match rows with
  | [] => (table, [])
  | r :: rows' =>
      match table !! event_id r with
      | Some old => let '(t, out) := upsert_rows rows' (<[event_id r := update_event old r]> table) in
                    (t, (event_id r, false) :: out)
      | None => let '(t, out) := upsert_rows rows' (<[event_id r := r]> table) in
                (t, (event_id r, true) :: out)
      end
  end.

Inductive StoreError : Type :=
  | CardinalityViolation.   (** a row proposed twice in one upsert *)

(** PostgreSQL refuses to update one row twice in the same statement. *)
Definition upsert_events (evs : list NewEvent) (db : Db) : result StoreError (nat * nat) * Db :=
  match evs with
  | [] => (Ok (0%nat, 0%nat), db)
  | _ =>
      if negb (bool_decide (NoDup (event_id <$> evs))) then (Err CardinalityViolation, db)
      else
        let '(table, rows) := upsert_rows evs (events db) in
        let inserted_ids := omap (λ p : string * bool, if p.2 then Some p.1 else None) rows in
        let inserted := length inserted_ids in
        let updated := length (filter (λ p : string * bool, p.2 = false) rows) in
        let db1 := with_events table db in
        let db2 := if (0 <? inserted)%nat
                   then project_transfers default_contract_kind (newly_inserted inserted_ids evs) db1
                   else db1 in
        (Ok (inserted, updated), notify db2)
  end.

(** ** Lemmas: the insert statement *)

(** The row a statement proposes first for a key. *)
Definition first_row {R} (key : R → string) (k : string) (rows : list R) : option R :=
  find (λ r, bool_decide (key r = k)) rows.

Lemma first_row_Some {R} (key : R → string) k rows r :
  first_row key k rows = Some r → r ∈ rows ∧ key r = k.
Proof.
  unfold first_row. intros H. apply find_some in H as [Hin Hk].
  apply bool_decide_eq_true in Hk. by rewrite list_elem_of_In.
Qed.

Lemma first_row_None {R} (key : R → string) k rows :
  first_row key k rows = None ↔ k ∉ key <$> rows.
Proof.
  unfold first_row. split.
  - intros H Hin. apply list_elem_of_fmap in Hin as (r & -> & Hr). apply list_elem_of_In in Hr.
    pose proof (find_none _ _ H r Hr) as Hd. by apply bool_decide_eq_false in Hd.
  - intros H. destruct (find _ rows) as [r|] eqn:E; [|done]. apply first_row_Some in E as [Hr <-].
    destruct H. by apply list_elem_of_fmap_2.
Qed.

Section insert_rows.
Context {R : Type} (key : R → string).

Lemma insert_rows_lookup rows t k :
  (insert_rows key rows t).1 !! k
  = match t !! k with Some r => Some r | None => first_row key k rows end.
Proof.
  revert t. induction rows as [|r rows IH]; intros t; [by simpl; destruct (t !! k)|].
  simpl. unfold first_row. simpl. destruct (t !! key r) eqn:E.
  - rewrite IH. case_bool_decide as Hk; [|done]. subst k. by rewrite E.
  - specialize (IH (<[key r := r]> t)). destruct (insert_rows _ _ _) as [t' ids]. simpl in *.
    rewrite IH. case_bool_decide as Hk; [subst k; by rewrite lookup_insert_eq, E|].
    by rewrite lookup_insert_ne.
Qed.

Lemma insert_rows_ids rows t k :
  k ∈ (insert_rows key rows t).2 ↔ t !! k = None ∧ k ∈ key <$> rows.
Proof.
  revert t. induction rows as [|r rows IH]; intros t.
  { simpl. split; [intros H; by apply elem_of_nil in H|]. intros [_ H]. by apply elem_of_nil in H. }
  simpl. rewrite elem_of_cons. destruct (t !! key r) eqn:E.
  - rewrite IH. split; [tauto|]. intros [Hk [->|H]]; [congruence|done].
  - specialize (IH (<[key r := r]> t)). destruct (insert_rows _ _ _) as [t' ids]. simpl in *.
    rewrite elem_of_cons, IH. destruct (decide (k = key r)) as [->|Hne]; [tauto|].
    rewrite lookup_insert_ne by congruence. tauto.
Qed.

Lemma insert_rows_size rows t :
  size (insert_rows key rows t).1 = (size t + length (insert_rows key rows t).2)%nat.
Proof.
  revert t. induction rows as [|r rows IH]; intros t; simpl; [lia|].
  destruct (t !! key r) eqn:E; [apply IH|].
  specialize (IH (<[key r := r]> t)). destruct (insert_rows _ _ _) as [t' ids]. simpl in *.
  rewrite IH, map_size_insert_None by done. lia.
Qed.

Lemma insert_rows_present rows t :
  (∀ r, r ∈ rows → t !! key r ≠ None) → insert_rows key rows t = (t, []).
Proof.
  induction rows as [|r rows IH]; intros H; [done|]. simpl.
  destruct (t !! key r) eqn:E.
  - apply IH. intros r' Hr'. apply H. by right.
  - destruct (H r); [by left|done].
Qed.

End insert_rows.

Lemma insert_with_resolver_events resolve evs db :
  events (insert_events_with_resolver resolve evs db).2 = (insert_rows event_id evs (events db)).1
  ∧ (insert_events_with_resolver resolve evs db).1 = length (insert_rows event_id evs (events db)).2.
Proof.
  destruct evs as [|e evs]; [done|]. unfold insert_events_with_resolver.
  destruct (insert_rows _ _ _) as [t ids]. simpl. by destruct (0 <? length ids)%nat.
Qed.

(** Inserting a batch is an idempotent union on [event_id]: a stored event
    is never changed, a new id receives the first event of the batch that
    carries it, the returned count is the number of rows the table grew by (so
    re-fetching a ledger never double-counts), and repeating the batch returns
    0 and leaves the four tables as they are. *)
Theorem insert_events_correct resolve evs db :
  let r := insert_events_with_resolver resolve evs db in
  (∀ id, events r.2 !! id = match events db !! id with
                            | Some old => Some old
                            | None => first_row event_id id evs
                            end)
  ∧ size (events r.2) = (size (events db) + r.1)%nat
  ∧ (let r' := insert_events_with_resolver resolve evs r.2 in
     r'.1 = 0%nat ∧ events r'.2 = events r.2 ∧ token_transfers r'.2 = token_transfers r.2
     ∧ amm_swaps r'.2 = amm_swaps r.2 ∧ nft_events r'.2 = nft_events r.2
     ∧ liquidity_events r'.2 = liquidity_events r.2).
Proof.
  destruct (insert_with_resolver_events resolve evs db) as [He Hn]. cbn zeta. rewrite Hn.
  split; [intros id; by rewrite He, insert_rows_lookup|].
  split; [by rewrite He, insert_rows_size|].
  set (db' := (insert_events_with_resolver resolve evs db).2) in *.
  assert (insert_rows event_id evs (events db') = (events db', [])) as Hid.
  { apply insert_rows_present. intros e Hin. rewrite He, insert_rows_lookup.
    destruct (events db !! event_id e); [done|]. rewrite first_row_None.
    intros Hno. destruct Hno. by apply list_elem_of_fmap_2. }
  unfold insert_events_with_resolver. destruct evs as [|e evs]; [done|].
  rewrite Hid. done.
Qed.

(** ** Projections follow the events table *)

Lemma transfer_parties_kind kind e : transfer_parties kind e = None ↔
  kind ∉ ["transfer"; "mint"; "burn"; "clawback"].
Proof.
  unfold transfer_parties. rewrite !not_elem_of_cons.
  destruct (String.eqb_spec kind "transfer"); [naive_solver|].
  destruct (String.eqb_spec kind "mint"); [naive_solver|].
  destruct (String.eqb_spec kind "burn"); [naive_solver|].
  destruct (String.eqb_spec kind "clawback"); [naive_solver|].
  simpl. split; [|done]. intros _. repeat split; try done. by apply not_elem_of_nil.
Qed.

Lemma extract_transfer_id resolve e t :
  transfer_of (extract_transfer resolve e) = Some t → t_event_id t = event_id e.
Proof.
  unfold extract_transfer. intros H. repeat case_match; simpl in H; simplify_eq; done.
Qed.

Lemma extract_swap_id resolve e s : extract_swap resolve e = Some s → s_event_id s = event_id e.
Proof.
  unfold extract_swap, mbind, option_bind. intros H. repeat case_match; simplify_eq; done.
Qed.

Lemma extract_nft_id resolve e n : extract_nft_event resolve e = Some n → n_event_id n = event_id e.
Proof.
  unfold extract_nft_event, mbind, option_bind. intros H. repeat case_match; simplify_eq; done.
Qed.

Lemma extract_liquidity_id resolve e l :
  extract_liquidity_event resolve e = Some l → l_event_id l = event_id e.
Proof.
  unfold extract_liquidity_event, mbind, option_bind. intros H.
  repeat case_match; simplify_eq; done.
Qed.

(** An id identifies an event within a batch. *)
Definition batch_ok (evs : list NewEvent) : Prop :=
  ∀ e e', e ∈ evs → e' ∈ evs → event_id e = event_id e' → e = e'.

Lemma omap_fmap_compose {A B C} (f : A → B) (g : B → option C) (l : list A) :
  omap g (f <$> l) = omap (g ∘ f) l.
Proof. induction l as [|x l IH]; [done|]. cbn. destruct (g (f x)); [f_equal|]; apply IH. Qed.

Section projection.
Context {R : Type} (key : R → string) (f : NewEvent → option R).
Context (f_key : ∀ e r, f e = Some r → key r = event_id e).

Lemma projection_insert evs t : batch_ok evs →
  (insert_rows key (omap f (newly_inserted (insert_rows event_id evs t).2 evs)) (omap f t)).1
  = omap f (insert_rows event_id evs t).1.
Proof.
  intros Hok. apply map_eq. intros k.
  rewrite insert_rows_lookup, !lookup_omap, insert_rows_lookup.
  set (new := newly_inserted _ _).
  assert (∀ r, r ∈ omap f new → ∃ e, e ∈ evs ∧ f e = Some r ∧ t !! key r = None) as Hnew.
  { intros r Hr. apply list_elem_of_omap in Hr as (e & He & Hf).
    unfold new, newly_inserted in He. apply list_elem_of_filter in He as [Hid He].
    apply insert_rows_ids in Hid as [Hid _]. exists e. by rewrite (f_key e r Hf). }
  destruct (t !! k) as [e|] eqn:Et; simpl.
  - destruct (f e) as [r|]; [done|]. apply first_row_None. intros Hin.
    apply list_elem_of_fmap in Hin as (r & -> & Hr). apply Hnew in Hr as (? & ? & ? & ?). congruence.
  - destruct (first_row event_id k evs) as [e|] eqn:Ee; simpl.
    + apply first_row_Some in Ee as [Hin <-].
      destruct (first_row key (event_id e) (omap f new)) as [r|] eqn:Er.
      * apply first_row_Some in Er as [Hr Hk]. apply Hnew in Hr as (e' & He' & Hf & _).
        rewrite (f_key _ _ Hf) in Hk. by rewrite <- (Hok e' e He' Hin Hk), Hf.
      * destruct (f e) as [r|] eqn:Hf; [|done]. apply first_row_None in Er. destruct Er.
        rewrite <- (f_key _ _ Hf). apply list_elem_of_fmap_2. apply list_elem_of_omap.
        exists e. split; [|done]. unfold new, newly_inserted. apply list_elem_of_filter.
        split; [|done]. apply insert_rows_ids. split; [done|]. by apply list_elem_of_fmap_2.
    + apply first_row_None in Ee. apply first_row_None. intros Hin. destruct Ee.
      apply list_elem_of_fmap in Hin as (r & -> & Hr). apply Hnew in Hr as (e & He & Hf & _).
      rewrite (f_key _ _ Hf). by apply list_elem_of_fmap_2.
Qed.

End projection.

(** The four tables are functions of the events table. *)
Record consistent (resolve : Resolver) (db : Db) : Prop := {
  c_keys : map_Forall (λ id e, event_id e = id) (events db);
  c_transfers : token_transfers db = omap (λ e, transfer_of (extract_transfer resolve e)) (events db);
  c_swaps : amm_swaps db = omap (extract_swap resolve) (events db);
  c_nfts : nft_events db = omap (extract_nft_event resolve) (events db);
  c_liquidity : liquidity_events db = omap (extract_liquidity_event resolve) (events db);
}.

Lemma newly_inserted_nil evs : newly_inserted [] evs = [].
Proof.
  induction evs as [|e evs IH]; [done|]. unfold newly_inserted in *.
  rewrite filter_cons, decide_False; [done|]. by apply not_elem_of_nil.
Qed.

(** C22: Ingestion keeps the materialised tables exact: starting from a store
    whose [token_transfers], [amm_swaps], [nft_events] and [liquidity_events]
    are precisely the projections of its events, inserting any batch in which
    an id names one event leaves them precisely the projections of the new
    events table, with no row lost and none added twice. *)
Theorem insert_events_consistent resolve evs db :
  batch_ok evs → consistent resolve db →
  consistent resolve (insert_events_with_resolver resolve evs db).2.
Proof.
  intros Hok Hc. destruct evs as [|e0 evs0] eqn:Eevs; [done|].
  unfold insert_events_with_resolver. rewrite <- Eevs in *.
  destruct (insert_rows event_id evs (events db)) as [t ids] eqn:Er.
  pose proof (λ R key f H, @projection_insert R key f H evs (events db) Hok) as Hp.
  rewrite Er in Hp. cbn [fst snd] in Hp. destruct Hc as [Hk Ht Hs Hn Hl].
  assert (map_Forall (λ id e, event_id e = id) t) as Hk'.
  { intros id e He. replace t with (insert_rows event_id evs (events db)).1 in He by by rewrite Er.
    rewrite insert_rows_lookup in He. destruct (events db !! id) eqn:E; simplify_eq; [by apply Hk|].
    by apply first_row_Some in He as [_ ?]. }
  rewrite Eevs. cbn beta iota. rewrite <- Eevs.
  destruct (Nat.ltb_spec 0 (length ids)) as [Hlen|Hlen].
  - constructor; [exact Hk'|..]; simpl.
    + rewrite omap_fmap_compose, Ht. apply (Hp _ t_event_id). apply extract_transfer_id.
    + rewrite Hs. apply (Hp _ s_event_id). apply extract_swap_id.
    + rewrite Hn. apply (Hp _ n_event_id). apply extract_nft_id.
    + rewrite Hl. apply (Hp _ l_event_id). apply extract_liquidity_id.
  - destruct ids; [|simpl in Hlen; lia].
    assert (∀ R (key : R → string) f, (∀ e r, f e = Some r → key r = event_id e) →
              omap f (events db) = omap f t) as Hsame.
    { intros R key f Hf. rewrite <- (Hp R key f Hf), newly_inserted_nil. done. }
    constructor; [exact Hk'|..]; simpl.
    + rewrite Ht. apply (Hsame _ t_event_id). apply extract_transfer_id.
    + rewrite Hs. apply (Hsame _ s_event_id). apply extract_swap_id.
    + rewrite Hn. apply (Hsame _ n_event_id). apply extract_nft_id.
    + rewrite Hl. apply (Hsame _ l_event_id). apply extract_liquidity_id.
Qed.

(** ** Properties of the projections *)

Lemma parse_int_wider w s z : 0 < w → w ≤ 128 → parse_int w s = Some z → parse_int 128 s = Some z.
Proof.
  intros H0 Hw. assert (2 ^ (w - 1) ≤ 2 ^ (128 - 1)) by (apply Z.pow_le_mono_r; lia).
  unfold parse_int, in_i. destruct (strip_char _ s) as [b|].
  - destruct (parse_digits10 b); [|done]. destruct (_ && _) eqn:E; [|done]. intros [= <-].
    bool_facts. by ztest.
  - destruct (parse_digits10 _); [|done]. destruct (_ && _) eqn:E; [|done]. intros [= <-].
    bool_facts. by ztest.
Qed.

Lemma as_i128_amount_valid v s : as_i128_amount v = Some s → ∃ z, parse_int 128 s = Some z.
Proof.
  unfold as_i128_amount. destruct v; try done.
  - destruct (in_i 64 z) eqn:Ei; [|destruct (in_u 64 z) eqn:Eu; [|done]]; intros [= <-].
    + exists z. apply (parse_int_wider 64); [done|done|]. apply parse_int_show.
      unfold in_i in Ei. bool_facts. lia.
    + unfold in_u in Eu. bool_facts. exists z.
      replace (show_u z) with (show_i z) by (unfold show_i; by ztest).
      apply parse_int_show. change (2 ^ (128 - 1)) with (2 ^ 127).
      assert (2 ^ 64 ≤ 2 ^ 127) by (apply Z.pow_le_mono_r; lia). lia.
  - destruct (parse_int 128 s0) eqn:E; [|done]. intros [= <-]. eauto.
Qed.

Lemma transfer_kind_in o k : transfer_kind o = Some k → o = Some k ∧ k ∈ ["transfer"; "mint"; "burn"; "clawback"].
Proof.
  unfold transfer_kind, mbind, option_bind. destruct o as [n|]; [|done].
  case_bool_decide; [|done]. intros [= <-]. done.
Qed.

(** A row of [token_transfers] is only ever made from an event of a
    confirmed fungible token; its amount parses as a 128-bit integer, its kind
    is the event's name, and it names the sender iff tokens leave an account
    and the recipient iff they reach one, as the topics give them. *)
Theorem extract_transfer_sound resolve e t :
  extract_transfer resolve e = Projected t →
  resolve (contract_id e) = Some FungibleToken
  ∧ (∃ z, parse_int 128 (t_amount t) = Some z)
  ∧ event_name e = Some (t_kind t)
  ∧ t_event_id t = event_id e ∧ t_ledger t = ledger e
  ∧ (t_from_addr t, t_to_addr t)
    = (if bool_decide (t_kind t = "mint") then None else topic_addr e 1,
       if bool_decide (t_kind t = "transfer") then topic_addr e 2
       else if bool_decide (t_kind t = "mint") then topic_addr e 1 else None).
Proof.
  unfold extract_transfer. destruct (transfer_kind (event_name e)) as [k|] eqn:Ek; [|done].
  apply transfer_kind_in in Ek as [Hname Hk].
  destruct (resolve (contract_id e)) as [[]|]; try done.
  destruct (transfer_amount (decoded_value e)) as [a|] eqn:Ea; [|done].
  destruct (transfer_parties k e) as [[from to]|] eqn:Ep; [|done]. intros [= <-]. simpl.
  split; [done|]. split.
  { unfold transfer_amount in Ea. destruct (decoded_value e) eqn:Ev;
      try (by eapply as_i128_amount_valid).
    destruct (bt_get "amount" m); [|done]. by eapply as_i128_amount_valid. }
  split; [done|]. split; [done|]. split; [done|].
  unfold transfer_parties in Ep. rewrite !elem_of_cons, elem_of_nil in Hk.
  destruct Hk as [->|[->|[->|[->|[]]]]]; simpl in Ep; by simplify_eq.
Qed.

(** An event is projected into at most one of the four materialised
    tables, whatever the resolver says of its contract. *)
Theorem projections_exclusive resolve e :
  (length (omap (λ b : bool, if b then Some tt else None)
     [ bool_decide (is_Some (transfer_of (extract_transfer resolve e)));
       bool_decide (is_Some (extract_swap resolve e));
       bool_decide (is_Some (extract_nft_event resolve e));
       bool_decide (is_Some (extract_liquidity_event resolve e)) ]) ≤ 1)%nat.
Proof.
  unfold extract_transfer, extract_swap, extract_nft_event, extract_liquidity_event,
    mbind, option_bind.
  destruct (resolve (contract_id e)) as [[]|]; repeat case_match; simpl; try lia;
    repeat case_bool_decide; simplify_eq; simpl; try lia; try congruence.
Qed.

(** Nothing of the program passes a resolver other than the default one. *)
Lemma default_kind_fungible id k : default_contract_kind id = Some k → k = FungibleToken.
Proof. unfold default_contract_kind. destruct (is_sac_contract_id id); congruence. Qed.

(** One call of the ingestion path. *)
Inductive store_step : Db → Db → Prop :=
  | step_insert evs db : store_step db (insert_events evs db).2
  | step_upsert evs db : store_step db (upsert_events evs db).2.

Lemma default_verticals_none e :
  extract_swap default_contract_kind e = None ∧ extract_nft_event default_contract_kind e = None
  ∧ extract_liquidity_event default_contract_kind e = None.
Proof.
  unfold extract_swap, extract_nft_event, extract_liquidity_event, mbind, option_bind.
  destruct (default_contract_kind (contract_id e)) eqn:E;
    [apply default_kind_fungible in E as ->|]; destruct (event_name e); try done;
    repeat split; repeat (case_match; try done).
Qed.

Lemma omap_none {A B} (f : A → option B) (l : list A) : (∀ x, f x = None) → omap f l = [].
Proof. intros H. induction l as [|x l IH]; [done|]. cbn. by rewrite H. Qed.

Lemma project_verticals_default evs db :
  let db' := project_verticals default_contract_kind evs db in
  amm_swaps db' = amm_swaps db ∧ nft_events db' = nft_events db
  ∧ liquidity_events db' = liquidity_events db.
Proof.
  simpl. rewrite !omap_none; [done|..]; intros e; apply default_verticals_none.
Qed.

(** Along every sequence of the calls the poller makes, [amm_swaps],
    [nft_events] and [liquidity_events] stay as they were: the default resolver
    is the only one used, and it knows no kind but the fungible token. *)
Theorem verticals_never_written db db' : rtc store_step db db' →
  amm_swaps db' = amm_swaps db ∧ nft_events db' = nft_events db
  ∧ liquidity_events db' = liquidity_events db.
Proof.
  induction 1 as [db|db db1 db2 Hs _ (-> & -> & ->)]; [done|].
  destruct Hs as [evs db|evs db].
  - unfold insert_events, insert_events_with_resolver. destruct evs as [|e evs]; [done|].
    destruct (insert_rows _ _ _) as [t ids]. simpl. destruct (0 <? length ids)%nat; [|done].
    set (new := newly_inserted ids (e :: evs)).
    exact (project_verticals_default new (project_transfers default_contract_kind new (with_events t db))).
  - unfold upsert_events. destruct evs; [done|]. destruct (negb _); [done|].
    destruct (upsert_rows _ _) as [t out]. simpl. by case_match.
Qed.

(** ** The upsert statement *)

Lemma upsert_rows_other rows t k :
  k ∉ event_id <$> rows → (upsert_rows rows t).1 !! k = t !! k.
Proof.
  revert t. induction rows as [|r rows IH]; intros t Hk; [done|].
  rewrite fmap_cons, not_elem_of_cons in Hk. destruct Hk as [Hne Hk]. simpl.
  destruct (t !! event_id r) as [old|];
    [specialize (IH (<[event_id r := update_event old r]> t) Hk)
    |specialize (IH (<[event_id r := r]> t) Hk)];
    destruct (upsert_rows rows _); simpl in *; rewrite IH; by apply lookup_insert_ne.
Qed.

Lemma upsert_rows_lookup rows t e : NoDup (event_id <$> rows) → e ∈ rows →
  (upsert_rows rows t).1 !! event_id e
  = Some (match t !! event_id e with Some old => update_event old e | None => e end).
Proof.
  revert t. induction rows as [|r rows IH]; intros t Hnd Hin; [by apply elem_of_nil in Hin|].
  rewrite fmap_cons in Hnd. apply NoDup_cons in Hnd as [Hr Hnd].
  simpl. apply elem_of_cons in Hin as [->|Hin].
  - destruct (t !! event_id r) as [old|];
      [pose proof (upsert_rows_other rows (<[event_id r := update_event old r]> t) _ Hr) as Ho
      |pose proof (upsert_rows_other rows (<[event_id r := r]> t) _ Hr) as Ho];
      destruct (upsert_rows rows _); simpl in *; by rewrite Ho, lookup_insert_eq.
  - assert (event_id r ≠ event_id e) as Hne
      by (intros E; apply Hr; rewrite E; by apply list_elem_of_fmap_2).
    destruct (t !! event_id r) as [old|];
      [specialize (IH (<[event_id r := update_event old r]> t) Hnd Hin)
      |specialize (IH (<[event_id r := r]> t) Hnd Hin)];
      destruct (upsert_rows rows _); simpl in *; by rewrite IH, lookup_insert_ne.
Qed.

Lemma upsert_rows_counts rows t :
  let inserted := length (omap (λ p : string * bool, if p.2 then Some p.1 else None) (upsert_rows rows t).2) in
  let updated := length (filter (λ p : string * bool, p.2 = false) (upsert_rows rows t).2) in
  (inserted + updated = length rows)%nat ∧ size (upsert_rows rows t).1 = (size t + inserted)%nat.
Proof.
  revert t. induction rows as [|r rows IH]; intros t; [simpl; lia|]. simpl.
  destruct (t !! event_id r) as [old|] eqn:E.
  - specialize (IH (<[event_id r := update_event old r]> t)).
    destruct (upsert_rows rows _) as [t' out]. simpl in *.
    rewrite map_size_insert_Some in IH by eauto.
    destruct IH as [IH1 IH2]. rewrite Nat.add_succ_r. split; [exact (f_equal S IH1)|exact IH2].
  - specialize (IH (<[event_id r := r]> t)).
    destruct (upsert_rows rows _) as [t' out]. simpl in *.
    rewrite map_size_insert_None in IH by done.
    destruct IH as [IH1 IH2]. split; [exact (f_equal S IH1)|rewrite Nat.add_succ_r; exact IH2].
Qed.

(** The upsert either refuses a batch that proposes an id twice and leaves
    the store untouched, or stores every event of the batch under its id, new
    ids whole and known ids with only their decoded topics, decoded value and
    enrichment replaced, and reports how many rows it inserted and updated;
    ids outside the batch keep their row. *)
Theorem upsert_events_correct evs db :
  match upsert_events evs db with
  | (Err CardinalityViolation, db') => db' = db ∧ ¬ NoDup (event_id <$> evs)
  | (Ok (inserted, updated), db') =>
      NoDup (event_id <$> evs)
      ∧ (inserted + updated = length evs)%nat
      ∧ size (events db') = (size (events db) + inserted)%nat
      ∧ (∀ e, e ∈ evs → events db' !! event_id e
           = Some (match events db !! event_id e with
                   | Some old => update_event old e | None => e end))
      ∧ (∀ id, id ∉ event_id <$> evs → events db' !! id = events db !! id)
  end.
Proof.
  destruct evs as [|e0 evs0] eqn:Eevs.
  { simpl. split; [constructor|]. split; [done|]. split; [lia|].
    split; [intros e He; by apply elem_of_nil in He|done]. }
  unfold upsert_events. rewrite <- Eevs. clear e0 evs0 Eevs.
  case_bool_decide as Hnd; simpl; [|done].
  pose proof (upsert_rows_counts evs (events db)) as [Hc Hs].
  pose proof (λ e, upsert_rows_lookup evs (events db) e Hnd) as Hl.
  pose proof (upsert_rows_other evs (events db)) as Ho.
  destruct (upsert_rows evs (events db)) as [t out]. cbn [fst snd] in *.
  set (ins := omap _ out) in *. set (upd := filter _ out) in *.
  destruct (0 <? length ins)%nat; simpl; done.
Qed.

(** ** Witnesses *)

(** A stand-in for a token's contract id: 56 characters, the first a [C]. *)
Definition sample_contract : string :=
  "CAAAAAAAAAAAAAAAAAAAAAAAAAAAAAAAAAAAAAAAAAAAAAAAAAAAAAAA".

Definition sample_event (id : string) (l : Z) (amount : string) : NewEvent := {|
  event_id := id; contract_id := sample_contract; ledger := l; ledger_closed_at := 0;
  event_type := "contract"; topics := []; decoded_topics := [JStr "transfer"; JStr "GA"; JStr "GB"];
  event_name := Some "transfer"; value := ""; decoded_value := JStr amount; enriched := None;
  tx_hash := "tx"; in_successful_call := true; paging_token := id |}.

Lemma empty_consistent resolve : consistent resolve empty_db.
Proof. constructor; [by apply map_Forall_empty|reflexivity..]. Qed.

Lemma insert_events_consistent_witness :
  let db := (insert_events_with_resolver default_contract_kind
               [sample_event "1" 7 "300"; sample_event "2" 7 "x"] empty_db).2 in
  t_amount <$> token_transfers db !! "1" = Some "300" ∧ consistent default_contract_kind db.
Proof.
  split; [reflexivity|]. apply insert_events_consistent; [|apply empty_consistent].
  intros e e' He He'. rewrite !elem_of_cons, elem_of_nil in He, He'.
  destruct He as [->|[->|[]]], He' as [->|[->|[]]]; done.
Defined.

Definition sample_transfer : Transfer := {|
  t_event_id := "1"; t_contract_id := sample_contract; t_from_addr := Some "GA";
  t_to_addr := Some "GB"; t_amount := "300"; t_kind := "transfer"; t_ledger := 7;
  t_ledger_closed_at := 0 |}.

Lemma extract_transfer_sound_witness : ∃ z, parse_int 128 (t_amount sample_transfer) = Some z.
Proof.
  exact (proj1 (proj2 (extract_transfer_sound default_contract_kind (sample_event "1" 7 "300")
           sample_transfer eq_refl))).
Defined.

Lemma verticals_never_written_witness :
  amm_swaps (upsert_events [sample_event "2" 8 "5"]
              (insert_events [sample_event "1" 7 "300"] empty_db).2).2 = ∅.
Proof.
  apply (verticals_never_written empty_db). eapply rtc_l; [apply step_insert|].
  eapply rtc_l; [apply step_upsert|]. apply rtc_refl.
Defined.

(** A re-scan that finds other content for a stored transfer updates the event
    and leaves the amount of its transfer row as it was. *)
Lemma upsert_leaves_transfer_stale :
  let db := (insert_events [sample_event "1" 7 "300"] empty_db).2 in
  let db' := (upsert_events [sample_event "1" 7 "999"] db).2 in
  decoded_value <$> events db' !! "1" = Some (JStr "999")
  ∧ t_amount <$> token_transfers db' !! "1" = Some "300"
  ∧ ¬ consistent default_contract_kind db'.
Proof.
  cbn zeta. split; [reflexivity|]. split; [reflexivity|]. intros [_ Ht _ _ _].
  apply (f_equal (λ m : gmap string Transfer, t_amount <$> m !! "1")) in Ht.
  vm_compute in Ht. discriminate.
Qed.
