(* ===== verification/Convert.v ===== *)
(** * Convert: from RPC events to stored events, and the keys they name

    [lumenqraph-indexer/src/convert.rs] turns an RPC event into a [NewEvent];
    [lumenqraph-indexer/src/keys.rs] derives from a stored event the contract
    storage keys worth reading. *)
From S2P Require Import Prelude Text Containers Values Instances XdrDecode Spec Enrich Encode Store.
From Stdlib Require Import Ascii.

Local Open Scope Z_scope.

(** One event as returned by RPC ([rpc_client.rs]). *)
Record EventInfo := {
  i_event_type : string;
  i_ledger : Z;
  i_ledger_closed_at : string;
  i_contract_id : string;
  i_id : string;
  i_paging_token : string;
  i_in_successful_contract_call : bool;
  i_tx_hash : string;
  i_topic : list string;
  i_value : string;
}.

(** The [chrono] functions the code calls: parsing RFC 3339, and
    [Utc.timestamp_opt(secs, 0).single()]. *)
Class Chrono := {
  parse_rfc3339 : string → option DateTime;
  timestamp_opt : Z → option DateTime;
}.

Section convert.
Context `{Stellar} `{Chrono}.
Variable base64_decode : string → option (list ascii).
Variable read_xdr_scval : list ascii → option (ScVal * list ascii).
(** The iteration order of a [HashMap] keyed by prefixes. *)
Variable order : gmap (list string) nat → list (list string * nat).

Definition parse_ledger_closed_at (raw : string) : option DateTime :=
  match parse_rfc3339 raw with
  | Some dt => Some dt
  | None => match parse_int 64 (trim raw) with
            | Some secs => timestamp_opt secs
            | None => None
            end
  end.

Definition to_new_event (e : EventInfo) (spec : option ContractSpec) : option NewEvent :=
  parsed_ts ← parse_ledger_closed_at (i_ledger_closed_at e);
  let dt := decode_topics base64_decode read_xdr_scval (i_topic e) in
  let dv := decode_scval_base64 base64_decode read_xdr_scval (i_value e) in
  let name := head (i_topic e) ≫= event_name_from_topic base64_decode read_xdr_scval in
  let enr := match spec, name with
             | Some sp, Some n => enrich_event sp order n dt dv
             | _, _ => None
             end in
  Some {| event_id := i_id e; contract_id := i_contract_id e; ledger := i_ledger e;
    ledger_closed_at := parsed_ts; event_type := i_event_type e; topics := i_topic e;
    decoded_topics := dt; event_name := name; value := i_value e; decoded_value := dv;
    enriched := enr; tx_hash := i_tx_hash e;
    in_successful_call := i_in_successful_contract_call e;
    paging_token := if String.eqb (i_paging_token e) "" then i_id e else i_paging_token e |}.

End convert.

(** ** Keys *)

Inductive Durability : Type := Persistent | Temporary.

Record KeyTemplate := {
  k_symbol : string;
  k_event_names : list string;
  k_param_indices : list nat;
  k_durability : Durability;
  k_label : option string;
}.

Definition HOLDER_EVENTS : list string := ["transfer"; "mint"; "burn"; "clawback"].

Inductive KeyError : Type :=
  | ParamCountMismatch
  | SymbolTooLong
  | InvalidAddress (param : string)
  | TooManyEntries.

Section keys.
Context `{Stellar}.

Definition is_address (s : string) : bool :=
  (starts_with "G" s || starts_with "C" s)
  && match sc_address_from_str s with Some _ => true | None => false end.

Fixpoint extract_addresses (val : Json) : list string :=
  match val with
  | JStr s => if is_address s then [s] else []
  | JArr arr => concat (extract_addresses <$> arr)
  | _ => []
  end.

(** One round of the loop over [param_indices]: every combination so far
    extended by every address of the topic. *)
Definition extend (params : list (list string)) (addresses : list string) : list (list string) :=
  params ≫= λ base, (λ addr, base ++ [addr])%list <$> addresses.

Fixpoint keys_loop (decoded : list Json) (indices : list nat) (params : list (list string))
    : list (list string) :=
  match indices with
  | [] => params
  | idx :: indices' =>
      match decoded !! idx with
      | None => []
      | Some topic =>
          match extract_addresses topic with
          | [] => []
          | addresses => keys_loop decoded indices' (extend params addresses)
          end
      end
  end.

Definition keys_from_event (self : KeyTemplate) (e : NewEvent) : list (list string) :=
  match event_name e with
  | None => []
  | Some name =>
      if negb (existsb (λ en, String.eqb en name) (k_event_names self)) then []
      else keys_loop (decoded_topics e) (k_param_indices self) [[]]
  end.

Definition address_entry (param : string) : result KeyError ScVal :=
  match sc_address_from_str param with
  | Some addr => Ok (ScvAddress addr)
  | None => Err (InvalidAddress param)
  end.

Definition build_key (self : KeyTemplate) (params : list string) : result KeyError ScVal :=
  if negb (length params =? length (k_param_indices self))%nat then Err ParamCountMismatch
  else
    symbol ← ok_or SymbolTooLong (try_into_m 32 (bytes (k_symbol self)));
    addrs ← collect_r address_entry params;
    entries ← ok_or TooManyEntries (try_into_m U32_MAX (ScvSymbol symbol :: addrs));
    Ok (ScvVec (Some entries)).

Definition balance_key (symbol address : string) : result KeyError ScVal :=
  match sc_address_from_str address with
  | None => Err (InvalidAddress address)
  | Some addr =>
      sym ← ok_or SymbolTooLong (try_into_m 32 (bytes symbol));
      Ok (ScvVec (Some [ScvSymbol sym; ScvAddress addr]))
  end.

Definition holders_in_event (e : NewEvent) : list string :=
  let is_holder_event := match event_name e with
                         | Some n => bool_decide (n ∈ HOLDER_EVENTS)
                         | None => false
                         end in
  if negb is_holder_event then []
  else filter (λ s, is_address s) (omap as_str (decoded_topics e)).

End keys.

Definition parse_durability (s : string) : option Durability :=
  let t := to_ascii_lowercase (trim s) in
  if String.eqb t "persistent" then Some Persistent
  else if String.eqb t "temporary" then Some Temporary
  else None.

(** ** Conversion *)

(** An event is dropped exactly when its close time parses neither as
    RFC 3339 nor as Unix seconds; otherwise every field of the stored event is
    determined by the RPC event: the raw fields are copied, the decoded ones
    are the decoder's, the name is that of the first topic, and an enrichment
    is only ever produced from a spec and a name. *)
Theorem to_new_event_correct `{Stellar} `{Chrono} b64 rd order e spec :
  match to_new_event b64 rd order e spec with
  | None => parse_rfc3339 (i_ledger_closed_at e) = None
            ∧ (∀ s, parse_int 64 (trim (i_ledger_closed_at e)) = Some s → timestamp_opt s = None)
  | Some n =>
      (parse_rfc3339 (i_ledger_closed_at e) = Some (ledger_closed_at n)
       ∨ ∃ s, parse_int 64 (trim (i_ledger_closed_at e)) = Some s
              ∧ timestamp_opt s = Some (ledger_closed_at n))
      ∧ event_id n = i_id e ∧ ledger n = i_ledger e ∧ contract_id n = i_contract_id e
      ∧ decoded_topics n = decode_topics b64 rd (topics n) ∧ topics n = i_topic e
      ∧ decoded_value n = decode_scval_base64 b64 rd (value n) ∧ value n = i_value e
      ∧ (is_Some (enriched n) → is_Some spec ∧ is_Some (event_name n))
      ∧ (i_id e ≠ "" → paging_token n ≠ "")
  end.
Proof.
  unfold to_new_event, parse_ledger_closed_at, mbind, option_bind.
  destruct (parse_rfc3339 _) as [ts|] eqn:E1.
  2: destruct (parse_int 64 _) as [s|] eqn:E2; [|by split].
  2: destruct (timestamp_opt s) as [ts|] eqn:E3; [|split; [done|]; intros ? [= <-]; done].
  all: cbn [event_id ledger contract_id decoded_topics topics decoded_value value enriched
    event_name paging_token ledger_closed_at].
  all: split; [eauto|]; do 7 (split; [done|]); split;
    [destruct spec; [|intros []; done]; destruct (head _) as [t|]; simpl;
     [destruct (event_name_from_topic _ _ t); [done|intros []; done]|intros []; done]
    |intros Hid; destruct (String.eqb_spec (i_paging_token e) ""); done].
Qed.

(** ** Keys are the product of the addresses of the chosen topics *)

Section key_lemmas.
Context `{Stellar}.

(** [addr] is one of the addresses the topic at [idx] carries. *)
Definition carried (decoded : list Json) (idx : nat) (addr : string) : Prop :=
  ∃ topic, decoded !! idx = Some topic ∧ addr ∈ extract_addresses topic.

Lemma elem_of_extend params addrs c :
  c ∈ extend params addrs ↔ ∃ base a, c = (base ++ [a])%list ∧ base ∈ params ∧ a ∈ addrs.
Proof.
  unfold extend. rewrite list_elem_of_bind. split.
  - intros (base & Hc & Hb). apply list_elem_of_fmap in Hc as (a & -> & Ha). eauto 6.
  - intros (base & a & -> & Hb & Ha). exists base. split; [|done].
    apply list_elem_of_fmap. eauto.
Qed.

Lemma elem_of_keys_loop decoded indices params c :
  c ∈ keys_loop decoded indices params ↔
  ∃ base rest, c = (base ++ rest)%list ∧ base ∈ params ∧ Forall2 (carried decoded) indices rest.
Proof.
  revert params. induction indices as [|idx indices IH]; intros params; cbn [keys_loop].
  { split.
    - intros Hc. exists c, []. rewrite app_nil_r. eauto using Forall2_nil_2.
    - intros (base & rest & -> & Hb & Hr). apply Forall2_nil_inv_l in Hr as ->.
      by rewrite app_nil_r. }
  assert (∀ Q : Prop, (Q ↔ ∃ base rest, c = (base ++ rest)%list ∧ base ∈ params ∧
    ∃ a r, rest = a :: r ∧ carried decoded idx a ∧ Forall2 (carried decoded) indices r) →
    (Q ↔ ∃ base rest, c = (base ++ rest)%list ∧ base ∈ params
         ∧ Forall2 (carried decoded) (idx :: indices) rest)) as Hcons.
  { intros Q ->. split; intros (base & rest & -> & Hb & Hr); exists base, rest;
      (split; [done|]); (split; [done|]).
    - destruct Hr as (a & r & -> & ? & ?). by constructor.
    - inversion Hr; subst. eauto. }
  apply Hcons. clear Hcons. destruct (decoded !! idx) as [topic|] eqn:Et.
  2: { split; [intros Hn; by apply elem_of_nil in Hn|].
       intros (? & ? & _ & _ & a & r & _ & (t & Ht & _) & _). congruence. }
  destruct (extract_addresses topic) as [|a0 l] eqn:Ea.
  { split; [intros Hn; by apply elem_of_nil in Hn|].
    intros (? & ? & _ & _ & a & r & _ & (t & Ht & Hin) & _).
    rewrite Et in Ht. injection Ht as <-. rewrite Ea in Hin. by apply elem_of_nil in Hin. }
  rewrite IH. setoid_rewrite elem_of_extend. split.
  - intros (b & r & -> & (base & a & -> & Hb & Ha) & Hr). exists base, (a :: r).
    split; [by rewrite <- app_assoc|]. split; [done|]. exists a, r. split; [done|].
    split; [|done]. exists topic. by rewrite Ea.
  - intros (base & rest & -> & Hb & a & r & -> & (t & Ht & Ha) & Hr).
    rewrite Et in Ht. injection Ht as <-. rewrite Ea in Ha.
    exists (base ++ [a])%list, r. split; [by rewrite <- app_assoc|]. eauto 8.
Qed.

Lemma extract_addresses_valid v : Forall (λ s, is_address s = true) (extract_addresses v).
Proof.
  induction v as [ | | | |s|l IH|] using json_ind_strong; simpl; try constructor.
  - destruct (is_address s) eqn:E; repeat constructor; done.
  - apply Forall_concat. apply Forall_fmap. exact IH.
Qed.

Lemma is_address_parses s : is_address s = true → is_Some (sc_address_from_str s).
Proof. unfold is_address. rewrite andb_true_iff. intros [_ Hs]. by destruct (sc_address_from_str s). Qed.

Lemma keys_from_event_iff tpl e c :
  c ∈ keys_from_event tpl e ↔
  (∃ name, event_name e = Some name ∧ name ∈ k_event_names tpl)
  ∧ Forall2 (carried (decoded_topics e)) (k_param_indices tpl) c.
Proof.
  unfold keys_from_event. destruct (event_name e) as [name|].
  2: { split; [intros Hn; by apply elem_of_nil in Hn|]. intros [(? & ? & _) _]. done. }
  assert (existsb (λ en, String.eqb en name) (k_event_names tpl) = true ↔ name ∈ k_event_names tpl) as Hex.
  { rewrite existsb_exists. split.
    - intros (x & Hin & Heq). apply String.eqb_eq in Heq as ->. by apply list_elem_of_In.
    - intros Hin. exists name. split; [by apply list_elem_of_In|apply String.eqb_refl]. }
  destruct (existsb _ _); simpl.
  - rewrite elem_of_keys_loop. split.
    + intros (base & rest & -> & Hb & Hr). apply list_elem_of_singleton in Hb as ->.
      split; [|done]. exists name. split; [done|]. by apply Hex.
    + intros [_ Hr]. exists [], c. split; [done|]. split; [|done]. by apply list_elem_of_singleton.
  - split; [intros Hn; by apply elem_of_nil in Hn|].
    intros [(n & [= <-] & Hin) _]. by apply Hex in Hin.
Qed.

(** A template discovers exactly the cartesian product: a combination is
    returned iff the event has one of the template's names and the i-th part of
    the combination is an address carried by the topic at the i-th index of the
    template. *)
Theorem keys_from_event_product tpl e c :
  c ∈ keys_from_event tpl e ↔
  (∃ name, event_name e = Some name ∧ name ∈ k_event_names tpl)
  ∧ Forall2 (carried (decoded_topics e)) (k_param_indices tpl) c.
Proof. apply keys_from_event_iff. Qed.

Lemma collect_address_entries params : Forall (λ s, is_address s = true) params →
  ∃ addrs, collect_r address_entry params = Ok (ScvAddress <$> addrs)
           ∧ Forall2 (λ s a, sc_address_from_str s = Some a) params addrs.
Proof.
  induction 1 as [|s params Hs _ (addrs & IH & HF)]; [by exists []|].
  apply is_address_parses in Hs as [a Ha]. exists (a :: addrs). split; [|by constructor].
  cbn [collect_r]. unfold address_entry at 1. by rewrite Ha, IH.
Qed.

Lemma carried_valid decoded indices c : Forall2 (carried decoded) indices c →
  Forall (λ s, is_address s = true) c.
Proof.
  induction 1 as [|idx a indices c (topic & _ & Ha) _ IH]; constructor; [|done].
  pose proof (extract_addresses_valid topic) as Hv. rewrite Forall_forall in Hv. by apply Hv.
Qed.

(** Every discovered combination is usable: building its storage key
    succeeds for a template whose symbol fits in 32 bytes, and the key is the
    vector of the symbol followed by the parsed addresses in order. *)
Theorem discovered_keys_build tpl e c :
  (length (bytes (k_symbol tpl)) ≤ 32)%nat →
  Z.of_nat (length (k_param_indices tpl)) < U32_MAX →
  c ∈ keys_from_event tpl e →
  ∃ addrs, build_key tpl c = Ok (ScvVec (Some (ScvSymbol (bytes (k_symbol tpl)) :: (ScvAddress <$> addrs))))
           ∧ Forall2 (λ s a, sc_address_from_str s = Some a) c addrs.
Proof.
  intros Hsym Hlen Hc. apply keys_from_event_iff in Hc as [_ Hc].
  apply carried_valid in Hc as Hv. apply Forall2_length in Hc as Hl.
  destruct (collect_address_entries c Hv) as (addrs & Hcol & HF). exists addrs. split; [|done].
  apply Forall2_length in HF as Hl'.
  unfold build_key. rewrite Hl, Nat.eqb_refl. unfold try_into_m.
  destruct (Z.leb_spec (Z.of_nat (length (bytes (k_symbol tpl)))) 32); [|lia].
  cbn [negb ok_or mbind result_bind]. rewrite Hcol. cbn [mbind result_bind length].
  rewrite length_fmap. destruct (Z.leb_spec (Z.of_nat (S (length addrs))) U32_MAX); [done|].
  lia.
Qed.

End key_lemmas.

(** ** Witness *)

Definition sample_holder (c : ascii) : string :=
  @sc_address_to_string sample_stellar (AddrAccount (replicate 32 c)).

Definition sample_template : KeyTemplate := {|
  k_symbol := "Allowance"; k_event_names := ["approve"]; k_param_indices := [1%nat; 2%nat];
  k_durability := Temporary; k_label := Some "allowance" |}.

Definition approve_event : NewEvent := {|
  event_id := "1"; contract_id := "C"; ledger := 1; ledger_closed_at := 0;
  event_type := "contract"; topics := [];
  decoded_topics := [JStr "approve"; JStr (sample_holder "a");
                     JArr [JStr (sample_holder "b"); JStr "x"; JStr (sample_holder "c")]];
  event_name := Some "approve"; value := ""; decoded_value := JNull; enriched := None;
  tx_hash := ""; in_successful_call := true; paging_token := "1" |}.

Lemma discovered_keys_build_witness :
  ∃ addrs,
    @build_key sample_stellar sample_template [sample_holder "a"; sample_holder "c"]
    = Ok (ScvVec (Some (ScvSymbol (bytes "Allowance") :: (ScvAddress <$> addrs))))
    ∧ Forall2 (λ s a, @sc_address_from_str sample_stellar s = Some a)
        [sample_holder "a"; sample_holder "c"] addrs.
Proof.
  apply (@discovered_keys_build sample_stellar sample_template approve_event).
  - vm_compute. lia.
  - vm_compute. reflexivity.
  - apply (bool_decide_unpack _). vm_compute. exact I.
Defined.
