(* ===== verification/Cursor.v ===== *)
(** * Cursor: the single-row indexer status ([lumenqraph-indexer/src/cursor.rs])

    The row (id = 1) of [indexer_cursor]: the ledger cursor with its optimistic
    lock, and the health counters.  Each statement is a function on the row,
    [None] before the row exists. *)
From S2P Require Import Prelude.

Local Open Scope Z_scope.

(** The columns, with the defaults of the migrations. *)
Record CursorRow := {
  last_processed_ledger : Z;
  chain_tip_ledger : Z;
  events_ingested_total : Z;
  version : Z;
  errors_total : Z;
  events_enriched_total : Z;
  events_not_enriched_total : Z;
  spec_fetch_failures_total : Z;
  rpc_calls_total : Z;
  rpc_errors_total : Z;
  rpc_errors_32001_total : Z;
  rpc_failovers_total : Z;
  consecutive_errors : Z;
  timestamp_parse_errors_total : Z;
}.

(** [INSERT INTO indexer_cursor (id, last_processed_ledger, ..) VALUES (1, 0, ..)]. *)
Definition inserted_row : CursorRow := {|
  last_processed_ledger := 0; chain_tip_ledger := 0; events_ingested_total := 0; version := 0;
  errors_total := 0; events_enriched_total := 0; events_not_enriched_total := 0;
  spec_fetch_failures_total := 0; rpc_calls_total := 0; rpc_errors_total := 0;
  rpc_errors_32001_total := 0; rpc_failovers_total := 0; consecutive_errors := 0;
  timestamp_parse_errors_total := 0 |}.

Definition read_last_processed (row : option CursorRow) : option Z := last_processed_ledger <$> row.

(** [fetch_one]: an error when there is no row. *)
Definition read_version (row : option CursorRow) : option Z := version <$> row.

(** The [UPDATE .. WHERE id = 1 AND version = $5], and whether it hit the row. *)
Definition cas_progress (last_processed chain_tip ingested_delta current_version : Z)
    (row : option CursorRow) : bool * option CursorRow :=
  match row with
  | Some r =>
      if version r =? current_version then
        (true, Some {| last_processed_ledger := last_processed; chain_tip_ledger := chain_tip;
          events_ingested_total := events_ingested_total r + ingested_delta;
          version := current_version + 1; errors_total := errors_total r;
          events_enriched_total := events_enriched_total r;
          events_not_enriched_total := events_not_enriched_total r;
          spec_fetch_failures_total := spec_fetch_failures_total r;
          rpc_calls_total := rpc_calls_total r; rpc_errors_total := rpc_errors_total r;
          rpc_errors_32001_total := rpc_errors_32001_total r;
          rpc_failovers_total := rpc_failovers_total r;
          consecutive_errors := consecutive_errors r;
          timestamp_parse_errors_total := timestamp_parse_errors_total r |})
      else (false, row)
  | None => (false, None)
  end.

(** The counter statements: [INSERT .. ON CONFLICT (id) DO UPDATE]. *)
Record CounterDelta := {
  d_errors : Z;
  d_enriched : Z;
  d_not_enriched : Z;
  d_spec_fetch_failures : Z;
  d_rpc_calls : Z;
  d_rpc_errors : Z;
  d_rpc_errors_32001 : Z;
  d_rpc_failovers : Z;
  d_ts_parse_errors : Z;
}.

Definition no_delta : CounterDelta := {|
  d_errors := 0; d_enriched := 0; d_not_enriched := 0; d_spec_fetch_failures := 0;
  d_rpc_calls := 0; d_rpc_errors := 0; d_rpc_errors_32001 := 0; d_rpc_failovers := 0;
  d_ts_parse_errors := 0 |}.

Definition add_counters (d : CounterDelta) (set_consecutive : option Z) (row : option CursorRow)
    : option CursorRow :=
  let r := default inserted_row row in
  Some {| last_processed_ledger := last_processed_ledger r; chain_tip_ledger := chain_tip_ledger r;
    events_ingested_total := events_ingested_total r; version := version r;
    errors_total := errors_total r + d_errors d;
    events_enriched_total := events_enriched_total r + d_enriched d;
    events_not_enriched_total := events_not_enriched_total r + d_not_enriched d;
    spec_fetch_failures_total := spec_fetch_failures_total r + d_spec_fetch_failures d;
    rpc_calls_total := rpc_calls_total r + d_rpc_calls d;
    rpc_errors_total := rpc_errors_total r + d_rpc_errors d;
    rpc_errors_32001_total := rpc_errors_32001_total r + d_rpc_errors_32001 d;
    rpc_failovers_total := rpc_failovers_total r + d_rpc_failovers d;
    consecutive_errors := default (consecutive_errors r) set_consecutive;
    timestamp_parse_errors_total := timestamp_parse_errors_total r + d_ts_parse_errors d |}.

Definition incr_errors : option CursorRow → option CursorRow :=
  add_counters {| d_errors := 1; d_enriched := 0; d_not_enriched := 0; d_spec_fetch_failures := 0;
    d_rpc_calls := 0; d_rpc_errors := 0; d_rpc_errors_32001 := 0; d_rpc_failovers := 0;
    d_ts_parse_errors := 0 |} None.

Definition track_enrichment (enriched_count not_enriched_count : Z) : option CursorRow → option CursorRow :=
  add_counters {| d_errors := 0; d_enriched := enriched_count; d_not_enriched := not_enriched_count;
    d_spec_fetch_failures := 0; d_rpc_calls := 0; d_rpc_errors := 0; d_rpc_errors_32001 := 0;
    d_rpc_failovers := 0; d_ts_parse_errors := 0 |} None.

Definition track_spec_fetch_failure (count : Z) : option CursorRow → option CursorRow :=
  add_counters {| d_errors := 0; d_enriched := 0; d_not_enriched := 0; d_spec_fetch_failures := count;
    d_rpc_calls := 0; d_rpc_errors := 0; d_rpc_errors_32001 := 0; d_rpc_failovers := 0;
    d_ts_parse_errors := 0 |} None.

Definition track_rpc_call (call_count error_count error_32001_count failover_count : Z)
    : option CursorRow → option CursorRow :=
  add_counters {| d_errors := 0; d_enriched := 0; d_not_enriched := 0; d_spec_fetch_failures := 0;
    d_rpc_calls := call_count; d_rpc_errors := error_count; d_rpc_errors_32001 := error_32001_count;
    d_rpc_failovers := failover_count; d_ts_parse_errors := 0 |} None.

Definition set_consecutive_errors (count : Z) : option CursorRow → option CursorRow :=
  add_counters no_delta (Some count).

Definition track_timestamp_parse_error (count : Z) : option CursorRow → option CursorRow :=
  add_counters {| d_errors := 0; d_enriched := 0; d_not_enriched := 0; d_spec_fetch_failures := 0;
    d_rpc_calls := 0; d_rpc_errors := 0; d_rpc_errors_32001 := 0; d_rpc_failovers := 0;
    d_ts_parse_errors := count |} None.

(** ** Concurrent writers

    [write_progress] is two statements, a read of the version and a
    compare-and-set.  Any number of indexer instances interleave them, and any
    counter statement may run in between. *)

Record Sys := {
  row : option CursorRow;
  commits : list nat;                 (** successful updates, newest first *)
  held : gmap nat (Z * nat);          (** version read, and commits at that time *)
}.

Inductive sys_step : Sys → Sys → Prop :=
  | sys_read i v s :
      read_version (row s) = Some v →
      sys_step s {| row := row s; commits := commits s;
                    held := <[i := (v, length (commits s))]> (held s) |}
  | sys_update i v n lp tip delta s :
      held s !! i = Some (v, n) →
      sys_step s {| row := (cas_progress lp tip delta v (row s)).2;
                    commits := if (cas_progress lp tip delta v (row s)).1
                               then i :: commits s else commits s;
                    held := delete i (held s) |}
  | sys_counters d c s :
      sys_step s {| row := add_counters d c (row s); commits := commits s; held := held s |}.

Definition start_sys (r : option CursorRow) : Sys := {| row := r; commits := []; held := ∅ |}.

Section lock.
Context (v0 : Z).

Definition lock_inv (s : Sys) : Prop :=
  match row s with
  | Some r => version r = v0 + Z.of_nat (length (commits s))
  | None => v0 = 0 ∧ commits s = []
  end
  ∧ map_Forall (λ _ p, p.1 = v0 + Z.of_nat p.2) (held s).

Lemma lock_inv_step s s' : lock_inv s → sys_step s s' → lock_inv s'.
Proof.
  intros [Hr Hh] Hs. destruct Hs as [i v s Hv|i v n lp tip delta s Hi|d c s]; split; simpl.
  - done.
  - apply map_Forall_insert_2; [|done]. simpl. unfold read_version in Hv.
    destruct (row s); simplify_eq/=. done.
  - unfold cas_progress. destruct (row s) as [r|]; [|done].
    destruct (Z.eqb_spec (version r) v) as [<-|]; simpl; [lia|done].
  - by apply map_Forall_delete.
  - destruct (row s); simpl; [done|]. destruct Hr as [-> ->]. done.
  - done.
Qed.

Lemma lock_inv_reach r s :
  v0 = default 0 (version <$> r) → rtc sys_step (start_sys r) s → lock_inv s.
Proof.
  intros Hv Hr. assert (lock_inv (start_sys r)) as Hi.
  { split; [|apply map_Forall_empty]. simpl. destruct r; simpl in *; [lia|done]. }
  clear Hv. induction Hr as [|? ? ? Hs _ IH]; [done|]. apply IH. by eapply lock_inv_step.
Qed.

End lock.

(** The version column excludes lost updates: in every interleaving of any
    number of writers and counter statements, an instance whose cursor update
    succeeds has seen no other successful update since it read the version. *)
Theorem optimistic_lock r s i v n lp tip delta :
  rtc sys_step (start_sys r) s → held s !! i = Some (v, n) →
  (cas_progress lp tip delta v (row s)).1 = true →
  length (commits s) = n.
Proof.
  intros Hr Hi Hc. apply (lock_inv_reach _ _ _ eq_refl) in Hr as [Hrow Hheld].
  specialize (Hheld i _ Hi). simpl in Hheld. unfold cas_progress in Hc.
  destruct (row s) as [w|]; [|done]. destruct (Z.eqb_spec (version w) v); [|done]. lia.
Qed.

Lemma optimistic_lock_witness :
  let s1 := {| row := Some inserted_row; commits := [];
               held := <[1%nat := (0, 0%nat)]> ∅ |} in
  length (commits s1) = 0%nat.
Proof.
  cbn zeta. apply (optimistic_lock (Some inserted_row) _ 1 0 0 7 9 3); [|reflexivity..].
  eapply rtc_l; [|apply rtc_refl]. by apply (sys_read 1 0 (start_sys (Some inserted_row))).
Defined.
