(* ===== verification/Poller.v ===== *)
(** * Poller: the live polling loop ([lumenqraph-indexer/src/poller.rs])

    A poll cycle fetches the events between the cursor and the chain tip page
    by page, stores them, and advances the cursor.  Every interaction with the
    RPC endpoint or the database takes one tick of a clock, and the
    environment decides by tick what the endpoint answers, which statement
    fails and when the shutdown token is cancelled: a theorem about [poll_once]
    quantifies over every such schedule of failures. *)
From S2P Require Import Prelude Text Containers Values XdrDecode Spec Enrich Store Convert Cursor.
From Stdlib Require Import Ascii.

Local Open Scope Z_scope.

(** ** Errors ([rpc_client.rs]) *)

Inductive SorobanRpcErrorCode : Type :=
  | ParseError
  | InvalidRequest
  | MethodNotFound
  | InvalidParams
  | InternalError
  | ServerError
  | ProcessingLimitExceeded
  | OtherCode (c : Z).

Definition from_code (code : Z) : SorobanRpcErrorCode :=
  if code =? -32700 then ParseError
  else if code =? -32600 then InvalidRequest
  else if code =? -32601 then MethodNotFound
  else if code =? -32602 then InvalidParams
  else if code =? -32603 then InternalError
  else if code =? -32000 then ServerError
  else if code =? -32001 then ProcessingLimitExceeded
  else OtherCode code.

Definition is_retryable (e : SorobanRpcErrorCode) : bool :=
  match e with ProcessingLimitExceeded | InternalError | ServerError => true | _ => false end.

Definition is_permanent (e : SorobanRpcErrorCode) : bool := negb (is_retryable e).

(** What an [anyhow::Error] of a cycle can be: an error answer of the RPC, a
    transport failure, a failed statement, no cursor row, a lost race. *)
Inductive PollError : Type :=
  | RpcAnswer (code : Z)
  | RpcTransport
  | DbError
  | RowNotFound
  | ConcurrentWriter
  | UpsertConflict.

(** How a computation of the model ends early: on an error of the code, or on
    its own fuel, which is shown never to happen. *)
Inductive Fault : Type :=
  | Fails (e : PollError)
  | OutOfFuel.

Definition is_non_retryable_rpc_error (e : PollError) : bool :=
  match e with RpcAnswer code => is_permanent (from_code code) | _ => false end.

(** ** Configuration ([config.rs]) and the state of the world *)

Record Config := {
  contract_ids : list string;
  start_ledger : Z;
  poll_interval_secs : Z;
  page_size : nat;
  max_catchup_ledgers : Z;
  state_indexing : bool;
  key_indexing : bool;
  key_templates : list KeyTemplate;
  retention_ledgers : Z;
  spec_version_retention : Z;
  upgrade_watch : bool;
  reorg_overlap_ledgers : Z;
  max_consecutive_errors : Z;
  degraded_poll_interval_secs : Z;
}.

Record MissedRange := {
  m_from : Z;
  m_to : Z;
  m_reason : string;
  m_recoverable : bool;
  m_recovered : bool;
}.

(** Best-effort calls into the other components, in the order they are made. *)
Inductive Effect : Type :=
  | SnapshotInstances (targets : list string)
  | CheckForUpgrade (contract : string) (tip : Z)
  | SnapshotBalances (holders : gmap string (gset string))
  | SnapshotTemplateKeys (keys : gmap string (list (nat * list string)))
  | Prune (tip retention : Z)
  | PruneSpecVersions (tip retention keep : Z).

Record World := {
  db : Db;
  cursor_row : option CursorRow;
  missed_ranges : list MissedRange;
  effects : list Effect;
  rpc_oldest_ledger : Z;       (** [RPC_OLDEST_LEDGER] *)
  clock : nat;
}.

(** One page of [getEvents]. *)
Record Page := { p_events : list EventInfo; p_cursor : option string }.

(** The environment of a cycle, by tick.  [spec_get] is what the spec cache
    answers for a contract; [instant] reads the monotonic clock in seconds. *)
Class Env := {
  env_stellar : Stellar;
  env_chrono : Chrono;
  env_b64 : string → option (list ascii);
  env_read_xdr : list ascii → option (ScVal * list ascii);
  env_order : gmap (list string) nat → list (list string * nat);
  rpc_latest_ledger : nat → result PollError Z;
  rpc_health : nat → result PollError Z;
  rpc_get_events : nat → option Z → option string → nat → result PollError Page;
  rpc_take_metrics : nat → Z * Z * Z * Z;
  spec_get : nat → string → Z → option ContractSpec;
  db_fails : nat → bool;
  cancelled : nat → bool;
  instant : nat → Z;
}.

#[export] Existing Instances env_stellar env_chrono.

(** ** The monad: state kept on errors *)

Definition M (A : Type) : Type := World → result Fault A * World.

#[export] Instance M_ret : MRet M := λ A a w, (Ok a, w).
#[export] Instance M_bind : MBind M := λ A B f m w,
  match m w with (Ok a, w') => f a w' | (Err e, w') => (Err e, w') end.

Definition throw {A} (e : PollError) : M A := λ w, (Err (Fails e), w).
Definition out_of_fuel {A} : M A := λ w, (Err OutOfFuel, w).

(** [match m.await { Ok(a) => .., Err(e) => .. }]. *)
Definition try {A} (m : M A) : M (result PollError A) := λ w,
  match m w with
  | (Ok a, w') => (Ok (Ok a), w')
  | (Err (Fails e), w') => (Ok (Err e), w')
  | (Err OutOfFuel, w') => (Err OutOfFuel, w')
  end.

(** [let _ = m.await;] *)
Definition ignore {A} (m : M A) : M unit := _ ← try m; mret tt.

Definition tick : M nat := λ w,
  (Ok (clock w), {| db := db w; cursor_row := cursor_row w; missed_ranges := missed_ranges w;
    effects := effects w; rpc_oldest_ledger := rpc_oldest_ledger w; clock := S (clock w) |}).

Definition get : M World := λ w, (Ok w, w).

Definition set_db (d : Db) : M unit := λ w,
  (Ok tt, {| db := d; cursor_row := cursor_row w; missed_ranges := missed_ranges w;
    effects := effects w; rpc_oldest_ledger := rpc_oldest_ledger w; clock := clock w |}).
Definition set_cursor (c : option CursorRow) : M unit := λ w,
  (Ok tt, {| db := db w; cursor_row := c; missed_ranges := missed_ranges w;
    effects := effects w; rpc_oldest_ledger := rpc_oldest_ledger w; clock := clock w |}).
Definition set_missed (l : list MissedRange) : M unit := λ w,
  (Ok tt, {| db := db w; cursor_row := cursor_row w; missed_ranges := l;
    effects := effects w; rpc_oldest_ledger := rpc_oldest_ledger w; clock := clock w |}).
Definition perform (e : Effect) : M unit := λ w,
  (Ok tt, {| db := db w; cursor_row := cursor_row w; missed_ranges := missed_ranges w;
    effects := effects w ++ [e]; rpc_oldest_ledger := rpc_oldest_ledger w; clock := clock w |}).
Definition set_oldest (z : Z) : M unit := λ w,
  (Ok tt, {| db := db w; cursor_row := cursor_row w; missed_ranges := missed_ranges w;
    effects := effects w; rpc_oldest_ledger := z; clock := clock w |}).

Section poller.
Context `{Env} (config : Config).

Definition rpc {A} (f : nat → result PollError A) : M A :=
  t ← tick; match f t with Ok a => mret a | Err e => throw e end.

(** A statement: it fails without effect, or runs. *)
Definition sql {A} (m : M A) : M A :=
  t ← tick; if db_fails t then throw DbError else m.

Definition is_cancelled : M bool := t ← tick; mret (cancelled t).

(** *** The cursor statements *)

Definition counters (f : option CursorRow → option CursorRow) : M unit :=
  sql (w ← get; set_cursor (f (cursor_row w))).

Definition read_last_processed_m : M (option Z) :=
  sql (w ← get; mret (read_last_processed (cursor_row w))).

Definition read_version_m : M Z :=
  sql (w ← get; match read_version (cursor_row w) with
                | Some v => mret v | None => throw RowNotFound end).

Definition write_progress (last_processed chain_tip ingested_delta : Z) : M unit :=
  current_version ← read_version_m;
  hit ← sql (w ← get;
             let '(b, row) := cas_progress last_processed chain_tip ingested_delta current_version
                                (cursor_row w) in
             _ ← set_cursor row; mret b);
  if hit : bool then mret tt else throw ConcurrentWriter.

(** *** Missed ranges *)

Definition record_missed_range_classified (from_ledger to_ledger : Z) (reason : string)
    (recoverable : bool) : M unit :=
  sql (w ← get; set_missed (missed_ranges w ++
         [{| m_from := from_ledger; m_to := to_ledger; m_reason := reason;
             m_recoverable := recoverable; m_recovered := false |}])).

Definition record_missed_range (from_ledger to_ledger : Z) (reason : string) : M unit :=
  record_missed_range_classified from_ledger to_ledger reason true.

(** *** Pages *)

(** Only the first page names the start ledger ([RpcClient::get_events]). *)
Definition get_events (start : Z) (cursor : option string) : M Page :=
  rpc (λ t, rpc_get_events t (match cursor with Some _ => None | None => Some start end)
              cursor (page_size config)).

Definition store_insert (batch : list NewEvent) : M nat :=
  sql (w ← get; let '(n, d) := insert_events batch (db w) in _ ← set_db d; mret n).

Definition store_upsert (batch : list NewEvent) : M (nat * nat) :=
  sql (w ← get; let '(r, d) := upsert_events batch (db w) in
       _ ← set_db d;
       match r with Ok p => mret p | Err CardinalityViolation => throw UpsertConflict end).

(** [specs.get(..)] followed by [to_new_event]. *)
Definition convert (ev : EventInfo) : M (option NewEvent) :=
  t ← tick;
  mret (to_new_event env_b64 env_read_xdr env_order ev (spec_get t (i_contract_id ev) (i_ledger ev))).

(** The accumulators of [fetch_and_store_with_shutdown]. *)
Record Acc := {
  a_token : option string;
  a_inserted : nat;
  a_enriched : nat;
  a_not_enriched : nat;
  a_ts_errors : nat;
  a_pages : nat;
  a_last_seen : Z;
  a_active : gset string;
  a_holders : gmap string (gset string);
  a_templates : gmap string (list (nat * list string));
}.

Definition acc_start (start : Z) : Acc := {|
  a_token := None; a_inserted := 0; a_enriched := 0; a_not_enriched := 0; a_ts_errors := 0;
  a_pages := 0; a_last_seen := start; a_active := ∅; a_holders := ∅; a_templates := ∅ |}.

Definition tracks_active_contracts : bool :=
  (state_indexing config || upgrade_watch config) && bool_decide (contract_ids config = []).

Definition is_some_b {A} (o : option A) : bool := match o with Some _ => true | None => false end.

(** [holders_by_contract.entry(contract).or_default().insert(holder)]. *)
Definition note_holders (e : NewEvent) (m : gmap string (gset string)) : gmap string (gset string) :=
  foldl (λ m h, <[Store.contract_id e := {[h]} ∪ default ∅ (m !! Store.contract_id e)]> m)
    m (holders_in_event e).

Definition note_templates (e : NewEvent) (m : gmap string (list (nat * list string)))
    : gmap string (list (nat * list string)) :=
  foldl (λ m (p : nat * list string),
          <[Store.contract_id e := (default [] (m !! Store.contract_id e) ++ [p])%list]> m)
    m (concat (imap (λ idx tpl, pair idx <$> keys_from_event tpl e) (key_templates config))).

(** The loop body for one event of a page. *)
Definition see_event (ev : EventInfo) (conv : option NewEvent) (a : Acc) : Acc :=
  let active := if tracks_active_contracts then {[i_contract_id ev]} ∪ a_active a else a_active a in
  let last_seen := Z.max (a_last_seen a) (i_ledger ev) in
  match conv with
  | None => {| a_token := a_token a; a_inserted := a_inserted a; a_enriched := a_enriched a;
      a_not_enriched := a_not_enriched a; a_ts_errors := S (a_ts_errors a);
      a_pages := a_pages a; a_last_seen := last_seen; a_active := active;
      a_holders := a_holders a; a_templates := a_templates a |}
  | Some e =>
      let was := is_some_b (enriched e) in
      {| a_token := a_token a; a_inserted := a_inserted a;
         a_enriched := if was then S (a_enriched a) else a_enriched a;
         a_not_enriched := if was then a_not_enriched a else S (a_not_enriched a);
         a_ts_errors := a_ts_errors a; a_pages := a_pages a; a_last_seen := last_seen;
         a_active := active;
         a_holders := if key_indexing config then note_holders e (a_holders a) else a_holders a;
         a_templates := note_templates e (a_templates a) |}
  end.

(** [for ev in &page.events]: the batch, and the accumulators. *)
Fixpoint scan_page (evs : list EventInfo) (a : Acc) : M (list NewEvent * Acc) :=
  match evs with
  | [] => mret ([], a)
  | ev :: evs' =>
      conv ← convert ev;
      '(batch, a') ← scan_page evs' (see_event ev conv a);
      mret (match conv with Some e => e :: batch | None => batch end, a')
  end.

Definition acc_page (a : Acc) : Acc := {|
  a_token := a_token a; a_inserted := a_inserted a; a_enriched := a_enriched a;
  a_not_enriched := a_not_enriched a; a_ts_errors := a_ts_errors a; a_pages := S (a_pages a);
  a_last_seen := a_last_seen a; a_active := a_active a; a_holders := a_holders a;
  a_templates := a_templates a |}.

Definition acc_next (token : option string) (inserted : nat) (a : Acc) : Acc := {|
  a_token := token; a_inserted := (a_inserted a + inserted)%nat; a_enriched := a_enriched a;
  a_not_enriched := a_not_enriched a; a_ts_errors := a_ts_errors a; a_pages := a_pages a;
  a_last_seen := a_last_seen a; a_active := a_active a; a_holders := a_holders a;
  a_templates := a_templates a |}.

(** How the paging loop ends: on the shutdown return, or by [break]. *)
Inductive LoopExit : Type :=
  | Stopped (a : Acc)
  | Done (a : Acc).

Fixpoint fetch_loop (fuel : nat) (start tip : Z) (a : Acc) : M LoopExit :=
  match fuel with
  | O => out_of_fuel
  | S fuel' =>
      stop ← is_cancelled;
      if stop : bool then mret (Stopped a)
      else
        r ← try (get_events start (a_token a));
        match r with
        | Err e =>
            if (0 <? a_pages a)%nat then
              _ ← ignore (counters incr_errors);
              _ ← record_missed_range (a_last_seen a) tip "page error";
              mret (Done a)
            else throw e
        | Ok page =>
            '(batch, a1) ← scan_page (p_events page) (acc_page a);
            let n := length batch in
            inserted ← store_insert batch;
            let a2 := acc_next (p_cursor page) inserted a1 in
            if (n <? page_size config)%nat || negb (is_some_b (p_cursor page)) then mret (Done a2)
            else fetch_loop fuel' start tip a2
        end
  end.

(** The snapshots after the loop. *)
Definition after_loop (tip : Z) (a : Acc) : M unit :=
  _ ← (if (0 <? a_enriched a)%nat || (0 <? a_not_enriched a)%nat then
         _ ← counters (track_enrichment (Z.of_nat (a_enriched a)) (Z.of_nat (a_not_enriched a)));
         if (0 <? a_ts_errors a)%nat then
           ignore (counters (track_timestamp_parse_error (Z.of_nat (a_ts_errors a))))
         else mret tt
       else mret tt);
  _ ← (if state_indexing config || upgrade_watch config then
         let targets := match contract_ids config with [] => elements (a_active a) | ids => ids end in
         if state_indexing config then perform (SnapshotInstances targets)
         else foldr (λ c m, _ ← perform (CheckForUpgrade c tip); m) (mret tt) targets
       else mret tt);
  _ ← (if key_indexing config && bool_decide (a_holders a ≠ ∅)
       then perform (SnapshotBalances (a_holders a)) else mret tt);
  if bool_decide (a_templates a ≠ ∅) then perform (SnapshotTemplateKeys (a_templates a))
  else mret tt.

(** Total inserted, and the enrichment metrics. *)
Definition acc_result (a : Acc) : nat * (nat * nat) := (a_inserted a, (a_enriched a, a_not_enriched a)).

Definition fetch_and_store_with_shutdown (fuel : nat) (start tip : Z) : M (nat * (nat * nat)) :=
  r ← fetch_loop fuel start tip (acc_start start);
  match r with
  | Stopped a => mret (acc_result a)
  | Done a => _ ← after_loop tip a; mret (acc_result a)
  end.

(** *** The re-scan for shallow reorgs *)

Inductive UpsertScan : Type :=
  | PastEnd
  | Scanned (batch : list NewEvent).

Record Counts := { k_enriched : nat; k_not_enriched : nat; k_ts_errors : nat }.

Definition count_event (conv : option NewEvent) (c : Counts) : Counts :=
  match conv with
  | None => {| k_enriched := k_enriched c; k_not_enriched := k_not_enriched c;
               k_ts_errors := S (k_ts_errors c) |}
  | Some e =>
      if is_some_b (enriched e)
      then {| k_enriched := S (k_enriched c); k_not_enriched := k_not_enriched c;
              k_ts_errors := k_ts_errors c |}
      else {| k_enriched := k_enriched c; k_not_enriched := S (k_not_enriched c);
              k_ts_errors := k_ts_errors c |}
  end.

Fixpoint scan_upsert (evs : list EventInfo) (end_ : Z) (c : Counts) : M (UpsertScan * Counts) :=
  match evs with
  | [] => mret (Scanned [], c)
  | ev :: evs' =>
      if end_ <? i_ledger ev then mret (PastEnd, c)
      else
        conv ← convert ev;
        '(r, c') ← scan_upsert evs' end_ (count_event conv c);
        mret (match r, conv with
              | Scanned batch, Some e => Scanned (e :: batch)
              | r, _ => r
              end, c')
  end.

Definition upsert_metrics (c : Counts) : M unit :=
  if (0 <? k_enriched c)%nat || (0 <? k_not_enriched c)%nat then
    counters (track_enrichment (Z.of_nat (k_enriched c)) (Z.of_nat (k_not_enriched c)))
  else mret tt.

(** The metrics of the early return, whose failures are ignored. *)
Definition past_end_metrics (c : Counts) : M unit :=
  if (0 <? k_enriched c)%nat || (0 <? k_not_enriched c)%nat then
    _ ← ignore (counters (track_enrichment (Z.of_nat (k_enriched c)) (Z.of_nat (k_not_enriched c))));
    if (0 <? k_ts_errors c)%nat
    then ignore (counters (track_timestamp_parse_error (Z.of_nat (k_ts_errors c))))
    else mret tt
  else mret tt.

Fixpoint upsert_loop (fuel : nat) (start end_ : Z) (token : option string) (total : nat) (c : Counts)
    : M nat :=
  match fuel with
  | O => out_of_fuel
  | S fuel' =>
      stop ← is_cancelled;
      if stop : bool then mret total
      else
        page ← get_events start token;
        '(r, c') ← scan_upsert (p_events page) end_ c;
        match r with
        | PastEnd => _ ← past_end_metrics c'; mret total
        | Scanned batch =>
            updated ← (match batch with
                       | [] => mret 0%nat
                       | _ => '(_, u) ← store_upsert batch; mret u
                       end);
            let total' := (total + updated)%nat in
            if (length batch <? page_size config)%nat || negb (is_some_b (p_cursor page)) then
              _ ← upsert_metrics c'; mret total'
            else upsert_loop fuel' start end_ (p_cursor page) total' c'
        end
  end.

Definition fetch_and_upsert (fuel : nat) (start end_ : Z) : M nat :=
  upsert_loop fuel start end_ None 0 {| k_enriched := 0; k_not_enriched := 0; k_ts_errors := 0 |}.

(** ** One cycle *)

Definition MAX_LOOKBACK_LEDGERS : Z := 120000.

(** The oldest ledger the endpoint serves. *)
Definition oldest_available (latest : Z) : M Z :=
  health ← try (rpc rpc_health);
  match health with
  | Ok oldest =>
      if 0 <? oldest then _ ← set_oldest oldest; mret (Z.max oldest 1)
      else let fallback := Z.max (latest - MAX_LOOKBACK_LEDGERS) 1 in
           _ ← set_oldest fallback; mret fallback
  | Err _ =>
      let fallback := Z.max (latest - MAX_LOOKBACK_LEDGERS) 1 in
      _ ← set_oldest fallback; mret fallback
  end.

(** The two clamps of the start ledger; each records the range it skips. *)
Definition clamp_retention (start oldest : Z) : M Z :=
  if start <? oldest then
    _ ← (if start <? oldest
         then record_missed_range_classified start (oldest - 1) "retention-window skip" false
         else mret tt);
    mret oldest
  else mret start.

Definition clamp_catchup (start latest : Z) : M Z :=
  if max_catchup_ledgers config <? latest - start then
    let clamped := latest - max_catchup_ledgers config in
    _ ← (if start <? clamped
         then record_missed_range_classified start (clamped - 1) "catch-up skip" true
         else mret tt);
    mret clamped
  else mret start.

Definition reorg_rescan (fuel : nat) (latest : Z) : M nat :=
  if (0 <? reorg_overlap_ledgers config) && (reorg_overlap_ledgers config <? latest)
  then fetch_and_upsert fuel (latest - reorg_overlap_ledgers config) latest
  else mret 0%nat.

Definition record_rpc_metrics : M unit :=
  t ← tick;
  let '(calls, errors, errors_32001, failovers) := rpc_take_metrics t in
  if (0 <? calls) || (0 <? errors) || (0 <? failovers)
  then counters (track_rpc_call calls errors errors_32001 failovers)
  else mret tt.

Definition poll_once (fuel : nat) : M (option Z) :=
  latest ← rpc rpc_latest_ledger;
  oldest ← oldest_available latest;
  c ← read_last_processed_m;
  let start := match c with
               | Some c => c + 1
               | None => if 0 <? start_ledger config then start_ledger config else latest
               end in
  if latest <? start then
    _ ← write_progress (start - 1) latest 0; mret None
  else
    start ← clamp_retention start oldest;
    start ← clamp_catchup start latest;
    '(inserted, _) ← fetch_and_store_with_shutdown fuel start latest;
    stop ← is_cancelled;
    if stop : bool then mret (Some latest)
    else
      _ ← reorg_rescan fuel latest;
      _ ← record_rpc_metrics;
      _ ← write_progress latest latest (Z.of_nat inserted);
      mret (Some latest).

(** ** The loop of [run] *)

Definition PRUNE_INTERVAL : Z := 60.

(** Durations are in seconds; [consecutive_errors] is a [u32]. *)
Record LoopState := {
  backoff : Z;
  consecutive : Z;
  last_prune : option Z;
}.

Definition base_interval : Z := Z.max (poll_interval_secs config) 1.
Definition degraded_interval : Z := Z.max (degraded_poll_interval_secs config) 1.

Definition loop_start : LoopState :=
  {| backoff := base_interval; consecutive := 0; last_prune := None |}.

Definition circuit_open (errors : Z) : bool :=
  (0 <? max_consecutive_errors config) && (max_consecutive_errors config <=? errors).

(** How long to sleep after a failure, and the next backoff. *)
Definition on_failure (s : LoopState) : Z * LoopState :=
  let errors := wrap 32 (consecutive s + 1) in
  if circuit_open errors then
    (degraded_interval, {| backoff := degraded_interval; consecutive := errors; last_prune := last_prune s |})
  else
    (backoff s, {| backoff := Z.min (backoff s * 2) 60; consecutive := errors; last_prune := last_prune s |}).

Definition on_success (s : LoopState) : LoopState :=
  {| backoff := base_interval; consecutive := 0; last_prune := last_prune s |}.

Definition prune_due (now : Z) (s : LoopState) : bool :=
  match last_prune s with None => true | Some t => PRUNE_INTERVAL <=? now - t end.

Definition maybe_prune (processed_to : option Z) (s : LoopState) : M LoopState :=
  match processed_to with
  | None => mret s
  | Some l =>
      t ← tick;
      if (0 <? retention_ledgers config) && prune_due (instant t) s then
        _ ← perform (Prune l (retention_ledgers config));
        _ ← (if 0 <? spec_version_retention config
             then perform (PruneSpecVersions l (retention_ledgers config) (spec_version_retention config))
             else mret tt);
        t' ← tick;
        mret {| backoff := backoff s; consecutive := consecutive s; last_prune := Some (instant t') |}
      else mret s
  end.

(** One iteration: the time to sleep and the next state; a permanent RPC error
    ends the loop. *)
Definition run_iteration (fuel : nat) (s : LoopState) : M (Z * LoopState) :=
  r ← try (poll_once fuel);
  match r with
  | Ok processed_to =>
      _ ← (if 0 <? consecutive s then ignore (counters (set_consecutive_errors 0)) else mret tt);
      s' ← maybe_prune processed_to (on_success s);
      mret (base_interval, s')
  | Err e =>
      if is_non_retryable_rpc_error e then throw e
      else
        let '(sleep_for, s') := on_failure s in
        _ ← ignore (counters incr_errors);
        _ ← ignore (counters (set_consecutive_errors (consecutive s')));
        mret (sleep_for, s')
  end.

End poller.
