(* ===== verification/PollerSafety.v ===== *)
(** * PollerSafety: what a poll cycle guarantees under every schedule of failures

    The cursor never moves past an event that is neither stored nor inside a
    recorded missed range, whatever fails and whenever the process is stopped;
    the loops terminate; the backoff stays in its bounds. *)
From S2P Require Import Prelude Text Containers Values Instances XdrDecode Spec Enrich.
From S2P Require Import Store Convert Cursor Poller.
From Stdlib Require Import Ascii.

Local Open Scope Z_scope.

(** ** What every step of a cycle but the cursor update preserves *)

Definition stored (w : World) (id : string) : Prop := is_Some (Store.events (db w) !! id).

Record grows (w w' : World) : Prop := {
  g_events : ∀ id, stored w id → stored w' id;
  g_missed : ∀ m, m ∈ missed_ranges w → m ∈ missed_ranges w';
  g_cursor : ∀ r, cursor_row w = Some r →
    ∃ r', cursor_row w' = Some r' ∧ last_processed_ledger r' = last_processed_ledger r;
  g_clock : (clock w ≤ clock w')%nat;
}.

#[export] Instance grows_preorder : PreOrder grows.
Proof.
  split.
  - intros w. constructor; eauto.
  - intros w1 w2 w3 [E1 M1 C1 T1] [E2 M2 C2 T2]. constructor; [eauto..| |lia].
    intros r Hr. apply C1 in Hr as (r' & Hr' & <-). by apply C2.
Qed.

Definition keeps {A} (m : M A) : Prop := ∀ w, grows w (m w).2.

(** What holds of the result and the final world when [m] returns [Ok]. *)
Definition post {A} (m : M A) (w : World) (P : A → World → Prop) : Prop :=
  match m w with (Ok a, w') => P a w' | (Err _, _) => True end.

Lemma keeps_ret {A} (a : A) : keeps (mret a : M A).
Proof. intros w. reflexivity. Qed.
Lemma keeps_throw {A} e : keeps (throw e : M A).
Proof. intros w. reflexivity. Qed.
Lemma keeps_fuel {A} : keeps (out_of_fuel : M A).
Proof. intros w. reflexivity. Qed.

Lemma keeps_bind {A B} (m : M A) (f : A → M B) : keeps m → (∀ a, keeps (f a)) → keeps (m ≫= f).
Proof.
  intros Hm Hf w. unfold mbind, M_bind. specialize (Hm w). destruct (m w) as [[a|e] w1]; [|done].
  etrans; [exact Hm|apply Hf].
Qed.

Lemma keeps_try {A} (m : M A) : keeps m → keeps (try m).
Proof. intros Hm w. unfold try. specialize (Hm w). by destruct (m w) as [[a|[e|]] w1]. Qed.

Lemma keeps_ignore {A} (m : M A) : keeps m → keeps (ignore m).
Proof. intros Hm. unfold ignore. apply keeps_bind; [by apply keeps_try|]. intros. apply keeps_ret. Qed.

Lemma keeps_tick : keeps tick.
Proof. intros w. constructor; simpl; eauto with lia. Qed.
Lemma keeps_perform e : keeps (perform e).
Proof. intros w. constructor; simpl; eauto. Qed.
Lemma keeps_set_oldest z : keeps (set_oldest z).
Proof. intros w. constructor; simpl; eauto. Qed.

Create HintDb keeps.
#[export] Hint Resolve keeps_ret keeps_throw keeps_fuel keeps_try keeps_ignore keeps_tick
  keeps_perform keeps_set_oldest : keeps.

Lemma post_bind {A B} (m : M A) (f : A → M B) w P :
  post m w (λ a w', post (f a) w' P) → post (m ≫= f) w P.
Proof. unfold post, mbind, M_bind. by destruct (m w) as [[a|e] w1]. Qed.

Lemma post_mono {A} (m : M A) w (P Q : A → World → Prop) :
  (∀ a w', P a w' → Q a w') → post m w P → post m w Q.
Proof. intros HPQ. unfold post. destruct (m w) as [[a|e] w1]; [apply HPQ|done]. Qed.

Lemma post_keeps {A} (m : M A) w (P : A → World → Prop) :
  keeps m → (∀ a w', grows w w' → P a w') → post m w P.
Proof. intros Hm HP. unfold post. specialize (Hm w). destruct (m w) as [[a|e] w1]; auto. Qed.

Lemma post_step {A B} (m : M A) (f : A → M B) w Q P :
  keeps m → post m w Q → (∀ a w', grows w w' → Q a w' → post (f a) w' P) → post (m ≫= f) w P.
Proof.
  intros Hm HQ Hf. apply post_bind. unfold post in *. specialize (Hm w).
  destruct (m w) as [[a|e] w1]; [by apply Hf|done].
Qed.

Lemma post_step_keeps {A B} (m : M A) (f : A → M B) w P :
  keeps m → (∀ a w', grows w w' → post (f a) w' P) → post (m ≫= f) w P.
Proof. intros Hm Hf. apply (post_step m f w (λ _ _, True)); [done| |auto]. by apply post_keeps. Qed.

Lemma post_try {A} (m : M A) w (P : result PollError A → World → Prop) :
  keeps m → (∀ e w', grows w w' → P (Err e) w') → post m w (λ a w', P (Ok a) w') → post (try m) w P.
Proof.
  intros Hm He HP. unfold post, try in *. specialize (Hm w).
  destruct (m w) as [[a|[e|]] w1]; simpl in *; auto.
Qed.

(** [keeps] through the control structure of a computation. *)
Ltac keeps_tac :=
  repeat first
    [ progress (auto with keeps)
    | apply keeps_bind; [|intros ?]
    | match goal with
      | |- keeps (if ?b then _ else _) => destruct b
      | |- keeps (match ?x with _ => _ end) => destruct x
      | |- keeps ((λ _, _) _) => cbv beta
      end ].

Section steps.
Context `{Env} (config : Config).

Lemma keeps_rpc {A} (f : nat → result PollError A) : keeps (rpc f).
Proof. unfold rpc. keeps_tac. Qed.

Lemma keeps_sql {A} (m : M A) : keeps m → keeps (sql m).
Proof. intros Hm. unfold sql. keeps_tac. Qed.

Lemma keeps_is_cancelled : keeps is_cancelled.
Proof. unfold is_cancelled. keeps_tac. Qed.

Lemma keeps_counters d c : keeps (counters (add_counters d c)).
Proof.
  apply keeps_sql. intros w. constructor; simpl; [eauto..| |done].
  intros r Hr. eexists. split; [reflexivity|]. simpl. by rewrite Hr.
Qed.

Lemma keeps_read_last : keeps read_last_processed_m.
Proof. apply keeps_sql. intros w. reflexivity. Qed.

Lemma keeps_record f t reason b : keeps (record_missed_range_classified f t reason b).
Proof.
  apply keeps_sql. intros w. constructor; simpl; [eauto| |eauto..].
  intros m Hm. apply elem_of_app. by left.
Qed.

Lemma insert_events_keeps batch d id :
  is_Some (Store.events d !! id) → is_Some (Store.events (insert_events batch d).2 !! id).
Proof.
  destruct (insert_with_resolver_events default_contract_kind batch d) as [He _].
  unfold insert_events. rewrite He, insert_rows_lookup. intros [e ->]. by exists e.
Qed.

Lemma insert_events_stores batch d e :
  e ∈ batch → is_Some (Store.events (insert_events batch d).2 !! event_id e).
Proof.
  destruct (insert_with_resolver_events default_contract_kind batch d) as [He _].
  unfold insert_events. rewrite He, insert_rows_lookup. intros Hin.
  destruct (Store.events d !! event_id e); [by eexists|].
  destruct (first_row event_id (event_id e) batch) eqn:E; [by eexists|].
  apply first_row_None in E. destruct E. by apply list_elem_of_fmap_2.
Qed.

Lemma upsert_events_keeps batch d id :
  is_Some (Store.events d !! id) → is_Some (Store.events (upsert_events batch d).2 !! id).
Proof.
  intros Hid. unfold upsert_events. destruct batch as [|e0 batch0] eqn:Eb; [done|].
  rewrite <- Eb. clear e0 batch0 Eb. case_bool_decide as Hnd; simpl; [|done].
  destruct (upsert_rows batch (Store.events d)) as [t out] eqn:Et.
  assert (is_Some (t !! id)) as Ht.
  { replace t with (upsert_rows batch (Store.events d)).1 by by rewrite Et.
    destruct (decide (id ∈ event_id <$> batch)) as [Hin|Hin].
    - apply list_elem_of_fmap in Hin as (e & -> & Hin). rewrite upsert_rows_lookup by done. by eexists.
    - by rewrite upsert_rows_other. }
  simpl. by case_match.
Qed.

Lemma keeps_insert batch : keeps (store_insert batch).
Proof.
  apply keeps_sql. intros w. unfold mbind, M_bind, get.
  destruct (insert_events batch (db w)) as [n d] eqn:E. constructor; simpl; [|eauto..].
  intros id Hid. unfold stored in *. simpl. replace d with (insert_events batch (db w)).2 by by rewrite E.
  by apply insert_events_keeps.
Qed.

Lemma keeps_upsert batch : keeps (store_upsert batch).
Proof.
  apply keeps_sql. intros w. unfold mbind, M_bind, get.
  destruct (upsert_events batch (db w)) as [r d] eqn:E.
  assert (∀ id, stored w id → is_Some (Store.events d !! id)) as Hs.
  { intros id Hid. replace d with (upsert_events batch (db w)).2 by by rewrite E.
    by apply upsert_events_keeps. }
  simpl. destruct r as [p|[]]; constructor; simpl; eauto.
Qed.

End steps.

#[export] Hint Resolve keeps_rpc keeps_is_cancelled keeps_counters keeps_read_last keeps_record
  keeps_insert keeps_upsert : keeps.
#[export] Hint Extern 1 (keeps (counters _)) => apply keeps_counters : keeps.

Section cycle.
Context `{Env} (config : Config).

Lemma keeps_convert ev : keeps (convert ev).
Proof. unfold convert. keeps_tac. Qed.

Lemma keeps_get_events start c : keeps (get_events config start c).
Proof. unfold get_events. keeps_tac. Qed.

Lemma keeps_scan_page evs a : keeps (scan_page config evs a).
Proof.
  revert a. induction evs as [|ev evs IH]; intros a; simpl; [keeps_tac|].
  apply keeps_bind; [apply keeps_convert|]. intros conv. apply keeps_bind; [apply IH|].
  intros [batch a']. keeps_tac.
Qed.

Lemma keeps_scan_upsert evs e c : keeps (scan_upsert evs e c).
Proof.
  revert c. induction evs as [|ev evs IH]; intros c; simpl; [keeps_tac|].
  destruct (e <? i_ledger ev); [keeps_tac|].
  apply keeps_bind; [apply keeps_convert|]. intros conv. apply keeps_bind; [apply IH|].
  intros [r c']. keeps_tac.
Qed.

End cycle.

#[export] Hint Resolve keeps_convert keeps_get_events keeps_scan_page keeps_scan_upsert : keeps.

Section cycle_loops.
Context `{Env} (config : Config).

Lemma keeps_fetch_loop fuel start tip a : keeps (fetch_loop config fuel start tip a).
Proof.
  revert a. induction fuel as [|fuel IH]; intros a; simpl; [keeps_tac|].
  unfold record_missed_range. keeps_tac.
Qed.

Lemma keeps_foldr_effects {A} (f : A → Effect) l :
  keeps (foldr (λ c m, _ ← perform (f c); m) (mret tt) l).
Proof. induction l; simpl; keeps_tac. Qed.

Lemma keeps_after_loop tip a : keeps (after_loop config tip a).
Proof. unfold after_loop. keeps_tac. apply keeps_foldr_effects. Qed.

Lemma keeps_upsert_loop fuel start e token total c : keeps (upsert_loop config fuel start e token total c).
Proof.
  revert token total c. induction fuel as [|fuel IH]; intros token total c; simpl; [keeps_tac|].
  unfold past_end_metrics, upsert_metrics. keeps_tac.
Qed.

Lemma keeps_reorg fuel latest : keeps (reorg_rescan config fuel latest).
Proof. unfold reorg_rescan, fetch_and_upsert. keeps_tac. apply keeps_upsert_loop. Qed.

Lemma keeps_rpc_metrics : keeps record_rpc_metrics.
Proof. unfold record_rpc_metrics. keeps_tac. Qed.

Lemma keeps_oldest latest : keeps (oldest_available latest).
Proof. unfold oldest_available. keeps_tac. Qed.

Lemma keeps_clamp_retention start oldest : keeps (clamp_retention start oldest).
Proof. unfold clamp_retention. keeps_tac. Qed.

Lemma keeps_clamp_catchup start latest : keeps (clamp_catchup config start latest).
Proof. unfold clamp_catchup. keeps_tac. Qed.

Lemma keeps_fetch_and_store fuel start tip : keeps (fetch_and_store_with_shutdown config fuel start tip).
Proof.
  unfold fetch_and_store_with_shutdown. apply keeps_bind; [apply keeps_fetch_loop|].
  intros [a|a]; [keeps_tac|]. apply keeps_bind; [apply keeps_after_loop|]. intros. keeps_tac.
Qed.

(** Only [write_progress] moves the cursor: to the value it is given, or not at
    all; and when it returns, it has. *)
Lemma write_progress_spec lp tip delta w :
  let w' := (write_progress lp tip delta w).2 in
  db w' = db w ∧ missed_ranges w' = missed_ranges w
  ∧ (cursor_row w' = cursor_row w
     ∨ ∃ r r', cursor_row w = Some r ∧ cursor_row w' = Some r' ∧ last_processed_ledger r' = lp)
  ∧ post (write_progress lp tip delta) w
      (λ _ w', ∃ r', cursor_row w' = Some r' ∧ last_processed_ledger r' = lp).
Proof.
  unfold post, write_progress, read_version_m, sql, mbind, M_bind, tick, get, set_cursor, throw.
  cbn. destruct (db_fails (clock w)); cbn; [by auto|].
  destruct (cursor_row w) as [r|] eqn:Er; cbn; [|by auto].
  destruct (db_fails (S (clock w))); cbn; [by auto|].
  rewrite ?Er. cbn. rewrite Z.eqb_refl. cbn. split; [done|]. split; [done|]. split; [|by eauto].
  right. eauto 8.
Qed.

End cycle_loops.

#[export] Hint Resolve keeps_fetch_loop keeps_after_loop keeps_reorg keeps_rpc_metrics keeps_oldest
  keeps_clamp_retention keeps_clamp_catchup keeps_fetch_and_store : keeps.

(** ** The RPC endpoint *)

(** During a cycle the endpoint serves the events [chain], ordered by ledger:
    the first page starts at the requested ledger, a cursor resumes where its
    page ended, a page has at most [limit] events and is short only when nothing
    follows. *)
Record ServerOk `{Env} (chain : list EventInfo) (after : string → list EventInfo) : Prop := {
  server_sorted : StronglySorted (λ a b, i_ledger a ≤ i_ledger b) chain;
  server_page : ∀ t start cursor limit page,
    rpc_get_events t start cursor limit = Ok page →
    let rest := match cursor with
                | Some c => after c
                | None => filter (λ e, default 0 start ≤ i_ledger e) chain
                end in
    p_events page = take limit rest
    ∧ match p_cursor page with
      | Some c => after c = drop limit rest
      | None => (length rest ≤ limit)%nat
      end;
}.

(** Every event carries a close time that parses. *)
Definition timestamps_ok `{Env} (chain : list EventInfo) : Prop :=
  Forall (λ e, is_Some (parse_ledger_closed_at (i_ledger_closed_at e))) chain.

(** The event is stored, or its ledger lies in a recorded missed range. *)
Definition covered (w : World) (e : EventInfo) : Prop :=
  stored w (i_id e) ∨ ∃ m, m ∈ missed_ranges w ∧ m_from m ≤ i_ledger e ≤ m_to m.

Lemma covered_grows w w' e : grows w w' → covered w e → covered w' e.
Proof. intros [Hs Hm _ _] [H|(m & Hin & Hl)]; [left; auto|right; eauto]. Qed.

Lemma StronglySorted_filter {A} (R : A → A → Prop) (P : A → Prop) `{∀ x, Decision (P x)} l :
  StronglySorted R l → StronglySorted R (filter P l).
Proof.
  induction 1 as [|x l Hs IH HF]; [constructor|]. rewrite filter_cons. case_decide; [|done].
  constructor; [done|]. rewrite Forall_forall in *. intros y Hy.
  apply list_elem_of_filter in Hy as [_ Hy]. auto.
Qed.

(** The shutdown token is cancelled, and was before now. *)
Definition shut_down `{Env} (w : World) : Prop := ∃ t, (t < clock w)%nat ∧ cancelled t = true.

Lemma is_cancelled_post `{Env} w :
  post is_cancelled w (λ b w', if b : bool then shut_down w' else True).
Proof.
  unfold post, is_cancelled, mbind, M_bind, tick. cbn. destruct (cancelled (clock w)) eqn:E; [|done].
  exists (clock w). cbn. split; [lia|done].
Qed.

Section coverage.
Context `{Env} (config : Config) (chain : list EventInfo) (after : string → list EventInfo).
Context (server : ServerOk chain after) (ts_ok : timestamps_ok chain).
Context (page_pos : (0 < page_size config)%nat).

Lemma convert_post ev w : ev ∈ chain →
  post (convert ev) w (λ conv w', ∃ e, conv = Some e ∧ event_id e = i_id ev).
Proof.
  intros Hin. unfold post, convert, mbind, M_bind, tick. cbn. unfold to_new_event.
  unfold timestamps_ok in ts_ok. rewrite Forall_forall in ts_ok.
  destruct (ts_ok ev Hin) as [ts ->]. cbn. by eexists.
Qed.

(** A page without unparsable events is converted whole. *)
Lemma scan_page_post evs a w : (∀ ev, ev ∈ evs → ev ∈ chain) →
  post (scan_page config evs a) w (λ r w',
    event_id <$> r.1 = i_id <$> evs ∧ a_pages r.2 = a_pages a
    ∧ ∀ x, a_last_seen a ≤ x → (∀ ev, ev ∈ evs → i_ledger ev ≤ x) → a_last_seen r.2 ≤ x).
Proof.
  revert a w. induction evs as [|ev evs IH]; intros a w Hin; [by cbn; eauto|].
  cbn [scan_page]. apply post_bind. eapply post_mono; [|apply convert_post; apply Hin; by left].
  intros conv w1 (e & -> & He). apply post_bind. eapply post_mono; [|apply IH; intros; apply Hin; by right].
  intros [batch a'] w2 (Hids & Hpages & Hlast). cbn. split; [by rewrite He, <- Hids|].
  split; [done|]. intros x Hx Hevs. apply Hlast; [|intros ev' Hev'; apply Hevs; by right].
  cbn. apply Z.max_lub; [done|]. apply Hevs. by left.
Qed.

Lemma store_insert_post batch w :
  post (store_insert batch) w (λ _ w', ∀ e, e ∈ batch → stored w' (event_id e)).
Proof.
  unfold post, store_insert, sql, mbind, M_bind, tick, get, set_db, throw. cbn.
  destruct (db_fails _); [done|]. cbn. destruct (insert_events batch (db w)) as [n d] eqn:E. cbn.
  intros e He. unfold stored. cbn. replace d with (insert_events batch (db w)).2 by by rewrite E.
  by apply insert_events_stores.
Qed.

Lemma record_post f t reason b w :
  post (record_missed_range_classified f t reason b) w
    (λ _ w', ∃ m, m ∈ missed_ranges w' ∧ m_from m = f ∧ m_to m = t).
Proof.
  unfold post, record_missed_range_classified, sql, mbind, M_bind, tick, get, set_missed, throw. cbn.
  destruct (db_fails _); [done|]. cbn. eexists. split; [apply elem_of_app; right; by left|]. done.
Qed.

Section loop.
Context (start tip : Z).

Definition wanted : list EventInfo := filter (λ e, start ≤ i_ledger e) chain.

(** At the head of the loop: [done] has been stored, [rest] is what the token
    leads to. *)
Definition at_head (a : Acc) (w : World) (rest : list EventInfo) : Prop :=
  ∃ done, wanted = (done ++ rest)%list
  ∧ Forall (λ e, stored w (i_id e)) done
  ∧ (∀ e, e ∈ rest → a_last_seen a ≤ i_ledger e)
  ∧ rest = match a_token a with Some c => after c | None => wanted end
  ∧ (a_pages a = 0%nat → a_token a = None).

Lemma wanted_sorted : StronglySorted (λ a b, i_ledger a ≤ i_ledger b) wanted.
Proof. apply StronglySorted_filter. by destruct server. Qed.

Lemma wanted_sorted_split done page rest : wanted = (done ++ page ++ rest)%list →
  ∀ e e', e ∈ page → e' ∈ rest → i_ledger e ≤ i_ledger e'.
Proof.
  intros E e e' He He'. pose proof wanted_sorted as Hs. rewrite E, app_assoc in Hs.
  apply StronglySorted_app in Hs as (Hs & _ & _). apply Hs; [|done]. apply elem_of_app. by right.
Qed.

Lemma get_events_post (a : Acc) w :
  post (get_events config start (a_token a)) w (λ page w',
    let rest := match a_token a with Some c => after c | None => wanted end in
    p_events page = take (page_size config) rest
    ∧ match p_cursor page with
      | Some c => after c = drop (page_size config) rest
      | None => (length rest ≤ page_size config)%nat
      end).
Proof.
  unfold post, get_events, Poller.rpc, mbind, M_bind, tick. cbn.
  destruct (rpc_get_events _ _ _ _) as [page|e] eqn:E; [|done]. cbn.
  apply (server_page chain after server) in E. by destruct (a_token a).
Qed.

(** A full page advances the loop's invariant; a short one was the last. *)
Lemma page_advances (a a1 : Acc) w page rest batch inserted dn w' :
  wanted = (dn ++ rest)%list → Forall (λ e, stored w (i_id e)) dn →
  (∀ e, e ∈ rest → a_last_seen a ≤ i_ledger e) →
  p_events page = take (page_size config) rest →
  match p_cursor page with
  | Some c => after c = drop (page_size config) rest
  | None => (length rest ≤ page_size config)%nat
  end →
  event_id <$> batch = i_id <$> p_events page →
  (∀ x, a_last_seen a ≤ x → (∀ ev, ev ∈ p_events page → i_ledger ev ≤ x) → a_last_seen a1 ≤ x) →
  a_pages a1 ≠ 0%nat → grows w w' → (∀ e, e ∈ batch → stored w' (event_id e)) →
  if (length batch <? page_size config)%nat || negb (is_some_b (p_cursor page))
  then ∀ e, e ∈ wanted → stored w' (i_id e)
  else at_head (acc_next (p_cursor page) inserted a1) w' (drop (page_size config) rest).
Proof.
  intros Hw Hdone Hlast Hevs Hcur Hids Hseen Hpages G Hst.
  assert (rest = p_events page ++ drop (page_size config) rest)%list as Hsplit
    by (by rewrite Hevs, take_drop).
  assert (∀ e, e ∈ dn ++ p_events page → stored w' (i_id e))%list as Hstored.
  { intros e He. apply elem_of_app in He as [He|He].
    - rewrite Forall_forall in Hdone. apply (g_events w w' G). auto.
    - assert (i_id e ∈ event_id <$> batch) as Hb by (rewrite Hids; by apply list_elem_of_fmap_2).
      apply list_elem_of_fmap in Hb as (n & -> & Hn). auto. }
  assert (length batch = length (p_events page)) as Hlen
    by (apply (f_equal length) in Hids; by rewrite !length_fmap in Hids).
  destruct ((length batch <? page_size config)%nat || negb (is_some_b (p_cursor page))) eqn:Estop.
  - assert (drop (page_size config) rest = []) as Hnil.
    { apply drop_ge. rewrite Hlen, Hevs, length_take in Estop. apply orb_true_iff in Estop as [E|E].
      - bool_facts. lia.
      - destruct (p_cursor page); [done|]. exact Hcur. }
    intros e He. apply Hstored. rewrite Hw, Hsplit, Hnil, app_nil_r in He. done.
  - apply orb_false_iff in Estop as [_ Ec]. destruct (p_cursor page) as [c|] eqn:Epc; [|done].
    exists (dn ++ p_events page)%list. split; [by rewrite Hw, <- app_assoc, <- Hsplit|].
    split; [rewrite Forall_forall; exact Hstored|]. split; [|split; [exact (eq_sym Hcur)|by intros]].
    intros e He. apply Hseen.
    + apply Hlast. rewrite Hsplit. apply elem_of_app. by right.
    + intros ev Hev. apply (wanted_sorted_split dn (p_events page) (drop (page_size config) rest));
        [by rewrite Hw, <- Hsplit|done|done].
Qed.

Lemma fetch_loop_covers fuel : ∀ a w rest, at_head a w rest →
  post (fetch_loop config fuel start tip a) w (λ r w',
    match r with
    | Done _ => ∀ e, e ∈ wanted → i_ledger e ≤ tip → covered w' e
    | Stopped _ => shut_down w'
    end).
Proof.
  induction fuel as [|fuel IH]; intros a w rest Ha; [done|].
  pose proof Ha as (dn & Hw & Hdone & Hlast & Hrest & Hp).
  cbn [fetch_loop]. eapply post_step; [auto with keeps|apply is_cancelled_post|].
  intros stop w1 G1 Hstop. destruct stop; [exact Hstop|]. clear Hstop.
  apply (post_step _ _ _ (λ r w', match r with
    | Ok page => p_events page = take (page_size config) rest
        ∧ match p_cursor page with
          | Some c => after c = drop (page_size config) rest
          | None => (length rest ≤ page_size config)%nat
          end
    | Err _ => True end)); [auto with keeps| |].
  { apply post_try; [auto with keeps|done|]. rewrite Hrest. apply get_events_post. }
  intros [page|e] w2 G2 Hpage.
  - destruct Hpage as [Hevs Hcur].
    assert (∀ ev, ev ∈ p_events page → ev ∈ chain) as Hsub.
    { intros ev Hev. rewrite Hevs in Hev. apply elem_of_take in Hev as (i & Hi & _).
      assert (ev ∈ wanted) as Hwin
        by (rewrite Hw, elem_of_app; right; by eapply list_elem_of_lookup_2).
      by apply list_elem_of_filter in Hwin as [_ ?]. }
    eapply post_step; [auto with keeps|by apply scan_page_post|].
    intros [batch a1] w3 G3 (Hids & Hpages & Hseen). cbn [fst snd] in *.
    eapply post_step; [auto with keeps|apply store_insert_post|]. intros inserted w4 G4 Hst.
    pose proof (page_advances a a1 w page rest batch inserted dn w4 Hw Hdone Hlast Hevs Hcur Hids
      Hseen) as Hadv. specialize (Hadv ltac:(by rewrite Hpages) ltac:(by do 3 (etrans; [eassumption|])) Hst).
    destruct (_ || _).
    + unfold post. cbn. intros e He _. left. auto.
    + by apply (IH _ _ _ Hadv).
  - destruct (Nat.ltb_spec 0 (a_pages a)); [|done].
    apply post_step_keeps; [auto with keeps|]. intros [] w3 G3. unfold record_missed_range.
    eapply post_step; [auto with keeps|apply record_post|]. intros [] w4 G4 (m & Hm & Hf & Ht).
    unfold post. cbn. intros e' Hin Hle. rewrite Hw in Hin. apply elem_of_app in Hin as [Hin|Hin].
    + left. rewrite Forall_forall in Hdone. apply (g_events w w4); [|auto].
      by do 3 (etrans; [eassumption|]).
    + right. exists m. rewrite Hf, Ht. auto.
Qed.

End loop.
(** ** The cycle *)

(** Every event the cursor has moved past is covered. *)
Definition no_silent_loss (c0 : Z) (w : World) : Prop :=
  ∃ r, cursor_row w = Some r ∧ c0 ≤ last_processed_ledger r
  ∧ ∀ e, e ∈ chain → i_ledger e ≤ last_processed_ledger r → covered w e.

Lemma no_silent_loss_grows c0 w w' : grows w w' → no_silent_loss c0 w → no_silent_loss c0 w'.
Proof.
  intros G (r & Hr & Hc & Hcov). destruct (g_cursor w w' G r Hr) as (r' & Hr' & E).
  exists r'. rewrite E. split; [done|]. split; [done|]. intros e He Hle.
  apply (covered_grows w w'); auto.
Qed.

Definition always {A} (m : M A) (w : World) (I : World → Prop) : Prop := I (m w).2.

Lemma always_step {A B} (m : M A) (f : A → M B) w Q c0 :
  keeps m → post m w Q → no_silent_loss c0 w →
  (∀ a w', grows w w' → Q a w' → no_silent_loss c0 w' → always (f a) w' (no_silent_loss c0)) →
  always (m ≫= f) w (no_silent_loss c0).
Proof.
  intros Hm HQ Hi Hf. unfold always, mbind, M_bind, post in *. specialize (Hm w).
  destruct (m w) as [[a|e] w1]; cbn in *; [|by eapply no_silent_loss_grows].
  apply Hf; [done..|]. by eapply no_silent_loss_grows.
Qed.

Lemma always_step_keeps {A B} (m : M A) (f : A → M B) w c0 :
  keeps m → no_silent_loss c0 w →
  (∀ a w', grows w w' → no_silent_loss c0 w' → always (f a) w' (no_silent_loss c0)) →
  always (m ≫= f) w (no_silent_loss c0).
Proof.
  intros Hm Hi Hf. apply (always_step m f w (λ _ _, True)); [done|by apply post_keeps|done|auto].
Qed.

Lemma always_ret {A} (a : A) w c0 : no_silent_loss c0 w → always (mret a : M A) w (no_silent_loss c0).
Proof. done. Qed.

(** The ledgers from [lo] up to but not including [hi] are in missed ranges. *)
Definition range_missed (w : World) (lo hi : Z) : Prop :=
  ∀ z, lo ≤ z < hi → ∃ m, m ∈ missed_ranges w ∧ m_from m ≤ z ≤ m_to m.

Lemma range_missed_grows w w' lo hi : grows w w' → range_missed w lo hi → range_missed w' lo hi.
Proof. intros [_ Hm _ _] H0 z Hz. destruct (H0 z Hz) as (m & Hin & Hl). eauto. Qed.

Lemma record_range f t reason b w :
  post (record_missed_range_classified f (t - 1) reason b) w (λ _ w', range_missed w' f t).
Proof.
  eapply post_mono; [|apply record_post]. intros [] w' (m & Hm & Hf & Ht) z Hz.
  exists m. split; [done|]. lia.
Qed.

Lemma clamp_retention_post start oldest w :
  post (clamp_retention start oldest) w (λ s w', start ≤ s ∧ range_missed w' start s).
Proof.
  unfold clamp_retention. destruct (Z.ltb_spec start oldest).
  - eapply post_step; [auto with keeps|apply record_range|]. intros [] w' _ Hr. split; [lia|done].
  - split; [lia|]. intros z Hz. lia.
Qed.

Lemma clamp_catchup_post start latest w :
  post (clamp_catchup config start latest) w (λ s w', start ≤ s ∧ range_missed w' start s).
Proof.
  unfold clamp_catchup. destruct (Z.ltb_spec (max_catchup_ledgers config) (latest - start)).
  - destruct (Z.ltb_spec start (latest - max_catchup_ledgers config)); [|lia].
    eapply post_step; [auto with keeps|apply record_range|]. intros [] w' _ Hr. split; [lia|done].
  - split; [lia|]. intros z Hz. lia.
Qed.

(** After the fetch of [start..latest], unless the shutdown token stopped it. *)
Lemma fetch_post fuel start latest w :
  post (fetch_loop config fuel start latest (acc_start start)) w (λ r w',
    match r with
    | Done _ => ∀ e, e ∈ chain → start ≤ i_ledger e ≤ latest → covered w' e
    | Stopped _ => shut_down w'
    end).
Proof.
  eapply post_mono; [|apply (fetch_loop_covers start latest fuel (acc_start start) w (wanted start))].
  - intros [a|a] w' Hc; [done|]. intros e He Hl. apply Hc; [|lia].
    apply list_elem_of_filter. split; [lia|done].
  - exists []. split; [done|]. split; [constructor|]. split; [|done].
    intros e He. by apply list_elem_of_filter in He as [? _].
Qed.

Lemma read_last_post w :
  post read_last_processed_m w (λ c w', c = read_last_processed (cursor_row w')).
Proof.
  unfold post, read_last_processed_m, sql, mbind, M_bind, tick, get, throw. cbn.
  by destruct (db_fails _).
Qed.

Lemma write_progress_always lp tip delta c0 w :
  no_silent_loss c0 w → c0 ≤ lp → (∀ e, e ∈ chain → i_ledger e ≤ lp → covered w e) →
  no_silent_loss c0 (write_progress lp tip delta w).2.
Proof.
  intros Hi Hc Hcov. destruct (write_progress_spec lp tip delta w) as (Hdb & Hm & Hcur & _).
  set (w' := (write_progress lp tip delta w).2) in *.
  assert (∀ e, covered w e → covered w' e) as Hmove
    by (intros e; unfold covered, stored; by rewrite Hdb, Hm).
  destruct Hcur as [Hcur|(r & r' & _ & Hr' & E)].
  - destruct Hi as (r & Hr & ? & Hall). exists r. rewrite Hcur. split; [done|]. split; [done|]. auto.
  - exists r'. rewrite E. auto.
Qed.


(** A [CancellationToken] stays cancelled. *)
Context (token_stays : ∀ t t', (t ≤ t')%nat → cancelled t = true → cancelled t' = true).

Lemma is_cancelled_after w : shut_down w → is_cancelled w = (Ok true, (tick w).2).
Proof.
  intros (t & Ht & Hc). unfold is_cancelled, mbind, M_bind, tick. cbn.
  rewrite (token_stays t (clock w)); [done|lia|done].
Qed.

Lemma fetch_and_store_post fuel start latest w :
  post (fetch_and_store_with_shutdown config fuel start latest) w (λ _ w',
    shut_down w' ∨ ∀ e, e ∈ chain → start ≤ i_ledger e ≤ latest → covered w' e).
Proof.
  unfold fetch_and_store_with_shutdown. eapply post_step; [auto with keeps|apply fetch_post|].
  intros [a|a] w1 _ Hr; [by left|]. apply post_step_keeps; [auto with keeps|]. intros [] w2 G.
  right. intros e He Hl. apply (covered_grows w1 w2 e G). auto.
Qed.

Lemma poll_once_safe fuel w r : cursor_row w = Some r →
  (∀ e, e ∈ chain → i_ledger e ≤ last_processed_ledger r → covered w e) →
  no_silent_loss (last_processed_ledger r) (poll_once config fuel w).2.
Proof.
  intros Hr Hcov. set (c0 := last_processed_ledger r).
  assert (no_silent_loss c0 w) as Hi by (exists r; repeat split; [done|lia|done]).
  change (always (poll_once config fuel) w (no_silent_loss c0)). unfold poll_once.
  assert (∃ r, cursor_row w = Some r ∧ last_processed_ledger r = c0) as Hlp by eauto. clear Hr Hcov.
  apply always_step_keeps; [auto with keeps|done|]. intros latest w1 G1 Hi1.
  apply always_step_keeps; [auto with keeps|done|]. intros oldest w2 G2 Hi2.
  eapply always_step; [auto with keeps|apply read_last_post|done|]. intros c w3 G3 -> Hi3.
  assert (read_last_processed (cursor_row w3) = Some c0) as ->.
  { destruct Hlp as (r0 & Hr0 & <-).
    destruct (g_cursor w w3 ltac:(by do 2 (etrans; [eassumption|])) r0 Hr0) as (r' & Hr' & <-).
    by rewrite Hr'. }
  destruct (Z.ltb_spec latest (c0 + 1)) as [Hlt|Hge].
  { unfold always. cbn. pose proof (write_progress_always (c0 + 1 - 1) latest 0 c0 w3 Hi3) as Hw.
    unfold mbind, M_bind. destruct (write_progress _ _ _ w3) as [[[]|?] w4]; cbn in *;
      (apply Hw; [lia|]; destruct Hi3 as (r' & _ & Hc & Hall); intros ev Hev Hle; apply Hall; [done|lia]). }
  eapply always_step; [auto with keeps|apply clamp_retention_post|done|]. intros s1 w4 G4 [Hs1 Hr1] Hi4.
  eapply always_step; [auto with keeps|apply clamp_catchup_post|done|]. intros s2 w5 G5 [Hs2 Hr2] Hi5.
  eapply always_step; [auto with keeps|apply fetch_and_store_post|done|]. intros [ins ms] w6 G6 Hf Hi6.
  destruct Hf as [Hsd|Hf].
  { unfold always, mbind at 1, M_bind at 1. rewrite is_cancelled_after by done. cbn.
    eapply no_silent_loss_grows; [|exact Hi6]. apply keeps_tick. }
  apply always_step_keeps; [auto with keeps|done|]. intros stop w7 G7 Hi7. destruct stop; [done|].
  apply always_step_keeps; [auto with keeps|done|]. intros up w8 G8 Hi8.
  apply always_step_keeps; [auto with keeps|done|]. intros [] w9 G9 Hi9.
  assert (no_silent_loss c0 (write_progress latest latest (Z.of_nat ins) w9).2) as Hfin.
  { apply write_progress_always; [done|lia|]. intros e He Hle.
    assert (grows w6 w9) as G by (by do 2 (etrans; [eassumption|])).
    destruct (Z.le_gt_cases (i_ledger e) c0).
    - destruct Hi9 as (r9 & _ & Hc9 & Hall). apply Hall; [done|lia].
    - destruct (Z.lt_ge_cases (i_ledger e) s1); [|destruct (Z.lt_ge_cases (i_ledger e) s2)].
      + right. destruct (Hr1 (i_ledger e)) as (m & Hm & Hl); [lia|]. exists m. split; [|done].
        apply (g_missed w4 w9); [|done]. by do 3 (etrans; [eassumption|]).
      + right. destruct (Hr2 (i_ledger e)) as (m & Hm & Hl); [lia|]. exists m. split; [|done].
        apply (g_missed w5 w9); [|done]. by do 2 (etrans; [eassumption|]).
      + apply (covered_grows w6 w9); [done|]. apply Hf; [done|lia]. }
  unfold always, mbind, M_bind. by destruct (write_progress _ _ _ w9) as [[[]|?] w10].
Qed.

(** C3: The cursor never moves past an event that would be lost, as long as the
    close time of every event of the chain parses ([timestamps_ok];
    [unparsable_event_ends_paging] shows what one that does not costs).  Take
    any cycle over any endpoint that serves such a [chain] (in ledger order, in
    pages of the positive size asked for), with every failure of the endpoint
    or of a statement at any point and a shutdown at any point: if before the
    cycle every event up to the cursor is stored or in a recorded missed range,
    then so it is after the cycle, for the cursor as it is then, and the cursor
    has not moved back. *)
Theorem poll_cycle_no_silent_loss fuel w r : cursor_row w = Some r →
  (∀ e, e ∈ chain → i_ledger e ≤ last_processed_ledger r → covered w e) →
  let w' := (poll_once config fuel w).2 in
  ∃ r', cursor_row w' = Some r' ∧ last_processed_ledger r ≤ last_processed_ledger r'
        ∧ ∀ e, e ∈ chain → i_ledger e ≤ last_processed_ledger r' → covered w' e.
Proof. intros Hr Hc. by apply poll_once_safe. Qed.

End coverage.

(** ** Termination *)

Definition in_fuel {A} (m : M A) (w : World) : Prop := (m w).1 ≠ Err OutOfFuel.
Definition total {A} (m : M A) : Prop := ∀ w, in_fuel m w.

Lemma in_fuel_bind {A B} (m : M A) (f : A → M B) w :
  in_fuel m w → post m w (λ a w', in_fuel (f a) w') → in_fuel (m ≫= f) w.
Proof.
  unfold in_fuel, post, mbind, M_bind. destruct (m w) as [[a|e] w1]; simpl; [done|congruence].
Qed.

Lemma total_ret {A} (a : A) : total (mret a : M A).
Proof. done. Qed.
Lemma total_throw {A} e : total (throw e : M A).
Proof. done. Qed.
Lemma total_bind {A B} (m : M A) (f : A → M B) : total m → (∀ a, total (f a)) → total (m ≫= f).
Proof.
  intros Hm Hf w. apply in_fuel_bind; [apply Hm|]. unfold post.
  destruct (m w) as [[a|e] w1]; [apply Hf|done].
Qed.
Lemma total_try {A} (m : M A) : total m → total (try m).
Proof. intros Hm w. unfold in_fuel, try. specialize (Hm w). unfold in_fuel in Hm. by destruct (m w) as [[a|[e|]] w1]. Qed.
Lemma total_ignore {A} (m : M A) : total m → total (ignore m).
Proof. intros Hm. apply total_bind; [by apply total_try|]. intros. apply total_ret. Qed.
Lemma total_tick : total tick.
Proof. done. Qed.
Lemma total_perform e : total (perform e).
Proof. done. Qed.
Lemma total_set_oldest z : total (set_oldest z).
Proof. done. Qed.
Lemma total_get : total get.
Proof. done. Qed.
Lemma total_set_cursor c : total (set_cursor c).
Proof. done. Qed.
Lemma total_set_db c : total (set_db c).
Proof. done. Qed.
Lemma total_set_missed c : total (set_missed c).
Proof. done. Qed.

Create HintDb total.
#[export] Hint Resolve total_ret total_throw total_try total_ignore total_tick total_perform
  total_set_oldest total_get total_set_cursor total_set_db total_set_missed : total.

Ltac total_tac :=
  repeat first
    [ progress (auto with total)
    | apply total_bind; [|intros ?]
    | match goal with
      | |- total (if ?b then _ else _) => destruct b
      | |- total (match ?x with _ => _ end) => destruct x
      | |- total (let (_, _) := ?x in _) => destruct x
      end ].

Lemma in_fuel_step {A B} (m : M A) (f : A → M B) w Q :
  total m → post m w Q → (∀ a w', Q a w' → in_fuel (f a) w') → in_fuel (m ≫= f) w.
Proof.
  intros Hm HQ Hf. apply in_fuel_bind; [apply Hm|]. unfold post in *.
  destruct (m w) as [[a|e] w1]; [by apply Hf|done].
Qed.

Lemma in_fuel_step_total {A B} (m : M A) (f : A → M B) w :
  total m → (∀ a w', in_fuel (f a) w') → in_fuel (m ≫= f) w.
Proof.
  intros Hm Hf. apply (in_fuel_step m f w (λ _ _, True)); [done| |auto].
  unfold post. by destruct (m w) as [[a|e] w1].
Qed.

Section totals.
Context `{Env} (config : Config).

Lemma total_rpc {A} (f : nat → result PollError A) : total (rpc f).
Proof. unfold rpc. total_tac. Qed.
Lemma total_sql {A} (m : M A) : total m → total (sql m).
Proof. intros Hm. unfold sql. total_tac. Qed.
Lemma total_counters f : total (counters f).
Proof. apply total_sql. total_tac. Qed.
Lemma total_is_cancelled : total is_cancelled.
Proof. unfold is_cancelled. total_tac. Qed.
Lemma total_read_last : total read_last_processed_m.
Proof. apply total_sql. total_tac. Qed.
Lemma total_record f t reason b : total (record_missed_range_classified f t reason b).
Proof. apply total_sql. total_tac. Qed.
Lemma total_insert batch : total (store_insert batch).
Proof. apply total_sql. total_tac. Qed.
Lemma total_upsert batch : total (store_upsert batch).
Proof. apply total_sql. total_tac. Qed.
Lemma total_convert ev : total (convert ev).
Proof. unfold convert. total_tac. Qed.

End totals.

#[export] Hint Resolve total_rpc total_sql total_counters total_is_cancelled total_read_last
  total_record total_insert total_upsert total_convert : total.

Section termination.
Context `{Env} (config : Config) (chain : list EventInfo) (after : string → list EventInfo).
Context (server : ServerOk chain after) (page_pos : (0 < page_size config)%nat).

Lemma total_get_events start c : total (get_events config start c).
Proof. unfold get_events. total_tac. Qed.

Lemma total_scan_page evs a : total (scan_page config evs a).
Proof.
  revert a. induction evs as [|ev evs IH]; intros a; simpl; [total_tac|].
  apply total_bind; [total_tac|]. intros conv. apply total_bind; [apply IH|].
  intros [batch a']. total_tac.
Qed.

Lemma total_scan_upsert evs e c : total (scan_upsert evs e c).
Proof.
  revert c. induction evs as [|ev evs IH]; intros c; simpl; [total_tac|].
  destruct (e <? i_ledger ev); [total_tac|].
  apply total_bind; [total_tac|]. intros conv. apply total_bind; [apply IH|].
  intros [r c']. total_tac.
Qed.

Lemma scan_page_length evs a w :
  post (scan_page config evs a) w (λ r _, (length r.1 ≤ length evs)%nat).
Proof.
  revert a w. induction evs as [|ev evs IH]; intros a w; [by unfold post; cbn; lia|]. cbn [scan_page].
  apply post_step_keeps; [auto with keeps|]. intros conv w1 _.
  eapply post_step; [auto with keeps|apply IH|]. intros [batch a'] w2 _ Hl.
  unfold post. cbn in *. destruct conv; simpl; lia.
Qed.

Lemma scan_upsert_length evs e c w :
  post (scan_upsert evs e c) w (λ r _, match r.1 with
    | Scanned batch => (length batch ≤ length evs)%nat | PastEnd => True end).
Proof.
  revert c w. induction evs as [|ev evs IH]; intros c w; [by unfold post; cbn; lia|]. cbn [scan_upsert].
  destruct (e <? i_ledger ev); [done|].
  apply post_step_keeps; [auto with keeps|]. intros conv w1 _.
  eapply post_step; [auto with keeps|apply IH|]. intros [r c'] w2 _ Hl.
  unfold post. cbn in *. destruct r; [done|]. destruct conv; simpl; lia.
Qed.

(** What the endpoint still has to serve. *)
Definition remaining (start : Z) (token : option string) : list EventInfo :=
  match token with
  | Some c => after c
  | None => filter (λ e, start ≤ i_ledger e) chain
  end.

Lemma get_events_remaining start token w :
  post (get_events config start token) w (λ page _,
    p_events page = take (page_size config) (remaining start token)
    ∧ match p_cursor page with
      | Some c => after c = drop (page_size config) (remaining start token)
      | None => True
      end).
Proof.
  unfold post, get_events, Poller.rpc, mbind, M_bind, tick. cbn.
  destruct (rpc_get_events _ _ _ _) as [page|e] eqn:E; [|done]. cbn.
  apply (server_page chain after server) in E. destruct E as [E1 E2].
  split; [by destruct token|]. destruct (p_cursor page); [by destruct token|done].
Qed.

(** A loop that goes on has consumed a full page. *)
Lemma full_page_shrinks start token page n :
  p_events page = take (page_size config) (remaining start token) →
  match p_cursor page with
  | Some c => after c = drop (page_size config) (remaining start token)
  | None => True
  end →
  (n ≤ length (p_events page))%nat →
  (n <? page_size config)%nat || negb (is_some_b (p_cursor page)) = false →
  (length (remaining start (p_cursor page)) < length (remaining start token))%nat.
Proof.
  intros He Hc Hn Hgo. apply orb_false_iff in Hgo as [Hlt Hs]. bool_facts.
  rewrite He, length_take in Hn. destruct (p_cursor page) as [c|]; [|done].
  unfold remaining at 1. rewrite Hc, length_drop. lia.
Qed.

Lemma fetch_loop_in_fuel fuel start tip : ∀ a w,
  (length (remaining start (a_token a)) < fuel)%nat → in_fuel (fetch_loop config fuel start tip a) w.
Proof.
  induction fuel as [|fuel IH]; intros a w Hf; [lia|]. cbn [fetch_loop].
  apply in_fuel_step_total; [auto with total|]. intros stop w1. destruct stop; [done|].
  apply (in_fuel_step _ _ _ (λ r _, match r with
    | Ok page => p_events page = take (page_size config) (remaining start (a_token a))
        ∧ match p_cursor page with
          | Some c => after c = drop (page_size config) (remaining start (a_token a))
          | None => True
          end
    | Err _ => True end)); [apply total_try, total_get_events| |].
  { apply post_try; [auto with keeps|done|]. apply get_events_remaining. }
  intros [page|e] w2 Hpage.
  - destruct Hpage as [He Hc].
    eapply in_fuel_step; [apply total_scan_page|apply scan_page_length|].
    intros [batch a1] w3 Hlen. cbn in Hlen.
    apply in_fuel_step_total; [auto with total|]. intros ins w4.
    destruct (_ || _) eqn:Ego; [done|]. apply IH.
    pose proof (full_page_shrinks start (a_token a) page (length batch) He Hc Hlen Ego). cbn. lia.
  - destruct (0 <? a_pages a)%nat; [|done]. unfold record_missed_range.
    apply (total_bind (ignore _) _); [auto with total|]. intros []. total_tac.
Qed.

Lemma upsert_loop_in_fuel fuel start e : ∀ token tot c w,
  (length (remaining start token) < fuel)%nat →
  in_fuel (upsert_loop config fuel start e token tot c) w.
Proof.
  induction fuel as [|fuel IH]; intros token tot c w Hf; [lia|]. cbn [upsert_loop].
  apply in_fuel_step_total; [auto with total|]. intros stop w1. destruct stop; [done|].
  eapply in_fuel_step; [apply total_get_events|apply get_events_remaining|].
  intros page w2 [He Hc]. eapply in_fuel_step; [apply total_scan_upsert|apply scan_upsert_length|].
  intros [[|batch] c'] w3 Hlen; cbn in Hlen.
  - revert w3. unfold past_end_metrics. change (total (past_end_metrics c' ≫= λ _, mret tot)).
    unfold past_end_metrics. total_tac.
  - apply in_fuel_step_total; [total_tac|]. intros up w4. destruct (_ || _) eqn:Ego.
    + revert w4. change (total (upsert_metrics c' ≫= λ _, mret (tot + up)%nat)).
      unfold upsert_metrics. total_tac.
    + apply IH. pose proof (full_page_shrinks start token page (length batch) He Hc Hlen Ego). lia.
Qed.

Lemma filter_length_le {A} (P : A → Prop) `{∀ x, Decision (P x)} l : (length (filter P l) ≤ length l)%nat.
Proof. induction l as [|x l IH]; [done|]. rewrite filter_cons. case_decide; simpl; lia. Qed.

Lemma total_write_progress lp tip delta : total (write_progress lp tip delta).
Proof. unfold write_progress, read_version_m. total_tac. Qed.

Lemma total_after_loop tip a : total (after_loop config tip a).
Proof.
  unfold after_loop. total_tac.
  match goal with |- total (foldr _ _ ?l) => induction l; simpl; total_tac end.
Qed.

Lemma total_oldest latest : total (oldest_available latest).
Proof. unfold oldest_available. total_tac. Qed.

Lemma total_clamp_retention start x : total (clamp_retention start x).
Proof. unfold clamp_retention. total_tac. Qed.

Lemma total_clamp_catchup start x : total (clamp_catchup config start x).
Proof. unfold clamp_catchup. total_tac. Qed.

Lemma fetch_and_store_in_fuel fuel start tip w : (length chain < fuel)%nat →
  in_fuel (fetch_and_store_with_shutdown config fuel start tip) w.
Proof.
  intros Hf. apply in_fuel_bind.
  - apply fetch_loop_in_fuel. cbn. pose proof (filter_length_le (λ e, start ≤ i_ledger e) chain). lia.
  - unfold post. destruct (fetch_loop _ _ _ _ _ _) as [[[a|a]|?] w1]; [done| |done].
    revert w1. change (total (_ ← after_loop config tip a; mret (acc_result a))).
    apply total_bind; [apply total_after_loop|total_tac].
Qed.

Lemma reorg_in_fuel fuel latest w : (length chain < fuel)%nat → in_fuel (reorg_rescan config fuel latest) w.
Proof.
  intros Hf. unfold reorg_rescan. destruct (_ && _); [|done].
  apply upsert_loop_in_fuel. cbn.
  pose proof (filter_length_le (λ e, latest - reorg_overlap_ledgers config ≤ i_ledger e) chain). lia.
Qed.

(** C32: A poll cycle terminates, and says truthfully how far it got: one more
    unit of fuel than the endpoint has events is enough for both paging loops
    whatever fails, and when the cycle returns a ledger the cursor row is at
    that ledger unless the shutdown token stopped the cycle. *)
Theorem poll_once_terminates fuel w : (length chain < fuel)%nat →
  in_fuel (poll_once config fuel) w
  ∧ post (poll_once config fuel) w (λ r w',
      match r with
      | Some l => shut_down w' ∨ read_last_processed (cursor_row w') = Some l
      | None => is_Some (cursor_row w')
      end).
Proof.
  intros Hfuel. split; unfold poll_once.
  - apply in_fuel_step_total; [auto with total|]. intros latest w1.
    apply in_fuel_step_total; [apply total_oldest|]. intros oldest w2.
    apply in_fuel_step_total; [auto with total|]. intros c w3. cbv zeta.
    destruct (latest <? _).
    { revert w3. apply (total_bind (write_progress _ _ _)); [apply total_write_progress|total_tac]. }
    apply in_fuel_step_total; [apply total_clamp_retention|]. intros s1 w4.
    apply in_fuel_step_total; [apply total_clamp_catchup|]. intros s2 w5.
    apply in_fuel_bind; [by apply fetch_and_store_in_fuel|]. unfold post.
    destruct (fetch_and_store_with_shutdown _ _ _ _ _) as [[[ins ms]|?] w6]; [|done].
    apply in_fuel_step_total; [auto with total|]. intros stop w7. destruct stop; [done|].
    apply in_fuel_bind; [by apply reorg_in_fuel|]. unfold post.
    destruct (reorg_rescan _ _ _) as [[up|?] w8]; [|done]. revert w8.
    apply (total_bind record_rpc_metrics); [unfold record_rpc_metrics; total_tac|]. intros [].
    apply (total_bind (write_progress _ _ _)); [apply total_write_progress|total_tac].
  - do 2 (apply post_step_keeps; [auto with keeps|]; intros ? ? _).
    apply post_step_keeps; [auto with keeps|]. intros c w3 _. cbv zeta.
    destruct (_ <? _).
    { apply post_bind. eapply post_mono; [|apply write_progress_spec].
      intros [] w4 (r & Hr & _). unfold post. cbn. by exists r. }
    do 2 (apply post_step_keeps; [auto with keeps|]; intros ? ? _).
    apply post_step_keeps; [auto with keeps|]. intros [ins ms] w6 _.
    eapply post_step; [auto with keeps|apply is_cancelled_post|]. intros [] w7 _ Hs; [by left|].
    do 2 (apply post_step_keeps; [auto with keeps|]; intros ? ? _).
    apply post_bind. eapply post_mono; [|apply write_progress_spec].
    intros [] w9 (r & Hr & E). unfold post. cbn. right. by rewrite Hr; cbn; rewrite E.
Qed.

End termination.

(** ** Backoff and circuit breaker *)

Section backoff.
Context (config : Config).

(** The state after [k] failures in a row. *)
Definition failures (k : nat) : LoopState := Nat.iter k (λ s, (on_failure config s).2) (loop_start config).

Lemma failures_S k : failures (S k) = (on_failure config (failures k)).2.
Proof. done. Qed.

Lemma wrap_small_succ n k : n = Z.of_nat k → Z.of_nat k + 1 < 2 ^ 32 → wrap 32 (n + 1) = Z.of_nat k + 1.
Proof. intros -> Hk. unfold wrap. rewrite Z.mod_small; lia. Qed.

Lemma failures_consecutive k : Z.of_nat k < 2 ^ 32 → consecutive (failures k) = Z.of_nat k.
Proof.
  induction k as [|k IH]; intros Hk; [done|]. rewrite failures_S. unfold on_failure.
  rewrite (wrap_small_succ _ k) by (try apply IH; lia).
  destruct (circuit_open config (Z.of_nat k + 1)); cbn; lia.
Qed.

Lemma failures_backoff k : Z.of_nat k < 2 ^ 32 →
  (∀ j, 0 < j ≤ Z.of_nat k → circuit_open config j = false) →
  backoff (failures k) = if (k =? 0)%nat then base_interval config
                         else Z.min (base_interval config * 2 ^ Z.of_nat k) 60.
Proof.
  induction k as [|k IH]; intros Hk Ho; [done|]. rewrite failures_S. unfold on_failure.
  rewrite (wrap_small_succ _ k) by (try apply failures_consecutive; lia).
  rewrite Ho by lia. cbn [snd backoff]. rewrite IH by (try (intros; apply Ho); lia).
  replace (Z.of_nat (S k)) with (Z.of_nat k + 1) by lia. rewrite Z.pow_add_r by lia.
  assert (1 ≤ base_interval config) by (unfold base_interval; lia).
  change (S k =? 0)%nat with false. cbv iota.
  clear IH Hk Ho. destruct k as [|k]; [simpl; lia|]. cbn [Nat.eqb].
  assert (1 ≤ 2 ^ Z.of_nat (S k)) by (pose proof (Z.pow_pos_nonneg 2 (Z.of_nat (S k))); lia).
  change (2 ^ 1) with 2. nia.
Qed.

Lemma failures_inv k : last_prune (failures k) = None ∧ 1 ≤ backoff (failures k).
Proof.
  induction k as [|k [IH1 IH2]]; [cbn; unfold base_interval; split; [done|lia]|].
  rewrite failures_S. unfold on_failure, degraded_interval.
  destruct (circuit_open _ _); cbn; (split; [done|lia]).
Qed.

(** The failure policy of the poll loop: the (k+1)-th failure in a row
    sleeps for the poll interval when k = 0 and for the poll interval times
    2^k, capped at 60 seconds, after that; from the [max_consecutive_errors]-th
    failure on (when that is set) it sleeps for the degraded interval instead;
    every sleep is at least a second; and one success resets both the backoff
    and the failure count. *)
Theorem backoff_policy k : Z.of_nat k + 1 < 2 ^ 32 →
  let sleep := (on_failure config (failures k)).1 in
  (circuit_open config (Z.of_nat k + 1) = true → sleep = degraded_interval config)
  ∧ ((max_consecutive_errors config ≤ 0 ∨ Z.of_nat k + 1 < max_consecutive_errors config) →
     sleep = if (k =? 0)%nat then base_interval config
             else Z.min (base_interval config * 2 ^ Z.of_nat k) 60)
  ∧ 1 ≤ sleep
  ∧ on_success config (failures k) = loop_start config.
Proof.
  intros Hk sleep. unfold sleep, on_failure.
  rewrite (wrap_small_succ _ k) by (try apply failures_consecutive; lia).
  split; [by intros ->|]. split; [|split].
  - intros Hm. assert (∀ j, j ≤ Z.of_nat k + 1 → circuit_open config j = false) as Ho.
    { intros j Hj. unfold circuit_open. destruct (Z.ltb_spec 0 (max_consecutive_errors config)); [|done].
      simpl. apply Z.leb_gt. lia. }
    rewrite Ho by lia. cbn. apply failures_backoff; [lia|]. intros j Hj. apply Ho. lia.
  - destruct (circuit_open _ _); cbn; [unfold degraded_interval; lia|apply failures_inv].
  - unfold on_success. by destruct (failures_inv k) as [-> _].
Qed.

End backoff.

(** ** An honest endpoint exists for every ordered chain *)

Lemma filter_sorted_drop (start : Z) (l : list EventInfo) :
  StronglySorted (λ a b, i_ledger a ≤ i_ledger b) l →
  ∃ j, filter (λ e, start ≤ i_ledger e) l = drop j l.
Proof.
  induction 1 as [|x l Hs (j & IH) HF]; [by exists 0%nat|]. rewrite filter_cons. case_decide as Hx.
  - exists 0%nat. cbn. f_equal. clear IH. induction l as [|y l IHl]; [done|].
    apply Forall_cons in HF as [Hy HF]. rewrite filter_cons, decide_True by lia. f_equal.
    apply IHl; [|done]. by apply StronglySorted_inv in Hs as [? _].
  - exists (S j). by cbn.
Qed.

(** Its tokens count the events that remain. *)
Definition token (n : nat) : string := of_bytes (replicate n "x"%char).

Lemma token_length n : String.length (token n) = n.
Proof. unfold token. rewrite <- length_bytes, bytes_of_bytes. apply length_replicate. Qed.

Definition suffix_after (chain : list EventInfo) (c : string) : list EventInfo :=
  drop (length chain - String.length c) chain.

Definition honest_page (chain : list EventInfo) (start : option Z) (cursor : option string)
    (limit : nat) : Page :=
  let rest := match cursor with
              | Some c => suffix_after chain c
              | None => filter (λ e, default 0 start ≤ i_ledger e) chain
              end in
  {| p_events := take limit rest;
     p_cursor := if (length rest <=? limit)%nat then None else Some (token (length rest - limit)) |}.

(** Sample environment: [chain] served honestly up to ledger [tip], timestamps
    of the form "t" only, the given statements failing. *)
Definition sample_env (chain : list EventInfo) (tip : result PollError Z) (fails : nat → bool) : Env := {|
  env_stellar := Instances.sample_stellar;
  env_chrono := {| parse_rfc3339 s := if String.eqb s "t" then Some 0 else None;
                   timestamp_opt s := None |};
  env_b64 := λ _, None;
  env_read_xdr := λ _, None;
  env_order := map_to_list;
  rpc_latest_ledger := λ _, tip;
  rpc_health := λ _, Ok 1;
  rpc_get_events := λ _ start cursor limit, Ok (honest_page chain start cursor limit);
  rpc_take_metrics := λ _, (3, 0, 0, 0);
  spec_get := λ _ _ _, None;
  db_fails := fails;
  cancelled := λ _, false;
  instant := λ _, 0;
|}.

Lemma honest_server chain tip fails : StronglySorted (λ a b, i_ledger a ≤ i_ledger b) chain →
  @ServerOk (sample_env chain tip fails) chain (suffix_after chain).
Proof.
  intros Hs. split; [done|]. intros t start cursor limit page [= <-]. cbn zeta. cbn [honest_page p_events p_cursor].
  set (rest := match cursor with Some _ => _ | None => _ end).
  split; [done|]. destruct (Nat.leb_spec (length rest) limit); [done|].
  assert (∃ j, rest = drop j chain) as [j Hj].
  { unfold rest. destruct cursor; [by eexists|by apply filter_sorted_drop]. }
  unfold suffix_after. rewrite token_length. rewrite Hj, drop_drop, length_drop in *. f_equal. lia.
Qed.

Definition sample_event_info (id : string) (l : Z) (ts : string) : EventInfo := {|
  i_event_type := "contract"; i_ledger := l; i_ledger_closed_at := ts; i_contract_id := "C1";
  i_id := id; i_paging_token := id; i_in_successful_contract_call := true; i_tx_hash := "tx";
  i_topic := []; i_value := "" |}.

Definition sample_config (size : nat) : Config := {|
  contract_ids := []; start_ledger := 500; poll_interval_secs := 5; page_size := size;
  max_catchup_ledgers := 4000; state_indexing := false; key_indexing := false; key_templates := [];
  retention_ledgers := 0; spec_version_retention := 0; upgrade_watch := true;
  reorg_overlap_ledgers := 0; max_consecutive_errors := 20; degraded_poll_interval_secs := 300 |}.

Definition world_at (cursor : option Z) : World := {|
  db := empty_db;
  cursor_row := (λ l, {| last_processed_ledger := l; chain_tip_ledger := l; events_ingested_total := 0;
     version := 1; errors_total := 0; events_enriched_total := 0; events_not_enriched_total := 0;
     spec_fetch_failures_total := 0; rpc_calls_total := 0; rpc_errors_total := 0;
     rpc_errors_32001_total := 0; rpc_failovers_total := 0; consecutive_errors := 0;
     timestamp_parse_errors_total := 0 |}) <$> cursor;
  missed_ranges := []; effects := []; rpc_oldest_ledger := 0; clock := 0 |}.

Definition good_chain : list EventInfo :=
  [sample_event_info "1" 11 "t"; sample_event_info "2" 11 "t"; sample_event_info "3" 12 "t"].

Lemma good_chain_sorted : StronglySorted (λ a b, i_ledger a ≤ i_ledger b) good_chain.
Proof. repeat constructor; simpl; lia. Qed.

(** The whole chain is stored by one cycle, in two pages. *)
Lemma poll_cycle_no_silent_loss_witness :
  let env := sample_env good_chain (Ok 12) (λ _, false) in
  let w' := (@poll_once env (sample_config 2) 4 (world_at (Some 10))).2 in
  ∃ r', cursor_row w' = Some r' ∧ 10 ≤ last_processed_ledger r'
        ∧ ∀ e, e ∈ good_chain → i_ledger e ≤ last_processed_ledger r' → covered w' e.
Proof.
  set (env := sample_env good_chain (Ok 12) (λ _, false)). cbn zeta.
  apply (@poll_cycle_no_silent_loss env (sample_config 2) good_chain (suffix_after good_chain)
    (honest_server good_chain (Ok 12) (λ _, false) good_chain_sorted)) with
    (r := default inserted_row (cursor_row (world_at (Some 10)))).
  - repeat constructor; eexists; reflexivity.
  - simpl; lia.
  - intros t t1 _ Hc. exact Hc.
  - reflexivity.
  - intros e He Hl. exfalso. revert Hl. repeat (apply elem_of_cons in He as [->|He]; [simpl; lia|]).
    by apply elem_of_nil in He.
Defined.

Lemma poll_once_terminates_witness :
  let env := sample_env good_chain (Ok 12) (λ _, false) in
  @in_fuel (option Z) (@poll_once env (sample_config 2) 4) (world_at (Some 10)).
Proof.
  set (env := sample_env good_chain (Ok 12) (λ _, false)). cbn zeta.
  apply (@poll_once_terminates env (sample_config 2) good_chain (suffix_after good_chain)
    (honest_server good_chain (Ok 12) (λ _, false) good_chain_sorted)).
  - simpl; lia.
  - simpl; lia.
Defined.

Lemma backoff_policy_witness :
  (on_failure (sample_config 2) (failures (sample_config 2) 3)).1 = 40.
Proof.
  destruct (backoff_policy (sample_config 2) 3) as (_ & H & _ & _); [simpl; lia|].
  rewrite H; [reflexivity|]. right. simpl. lia.
Defined.

(** ** Two defects, evaluated *)

(** An event whose close time does not parse makes a full page look short:
    paging stops, the cursor moves to the tip, and the rest of the chain is
    neither stored nor recorded as missed. *)
Definition bad_chain : list EventInfo :=
  [sample_event_info "1" 11 "not a time"; sample_event_info "2" 11 "t"; sample_event_info "3" 12 "t"].

Lemma unparsable_event_ends_paging :
  let env := sample_env bad_chain (Ok 12) (λ _, false) in
  let w' := (@poll_once env (sample_config 2) 4 (world_at (Some 10))).2 in
  read_last_processed (cursor_row w') = Some 12
  ∧ ¬ covered w' (sample_event_info "3" 12 "t").
Proof.
  cbn zeta. split; [vm_compute; reflexivity|].
  intros [[e He]|(m & Hm & _)].
  - vm_compute in He. discriminate.
  - vm_compute in Hm. by apply elem_of_nil in Hm.
Qed.

(** A first cycle that fails creates the cursor row at ledger 0, and the
    configured start ledger is never used: the next cycle starts from 1. *)
Lemma first_failure_forgets_start :
  let env := sample_env good_chain (Err RpcTransport) (λ _, false) in
  let w' := (@run_iteration env (sample_config 2) 4 (loop_start (sample_config 2)) (world_at None)).2 in
  start_ledger (sample_config 2) = 500 ∧ read_last_processed (cursor_row w') = Some 0.
Proof. vm_compute. by split. Qed.
