(* ===== verification/Pagination.v ===== *)
(** * Pagination: keyset cursors ([lumenqraph-api/src/pagination.rs])

    List endpoints page newest first with an opaque cursor.  The cursor codec
    and [PageRequest] are here, with the materialised-transfer endpoint
    ([routes/transfers.rs]) as the query they page over. *)
From S2P Require Import Prelude Text Containers Values Instances Store.
From Stdlib Require Import Ascii.

Local Open Scope Z_scope.

(** The two engines of the [base64] crate: URL-safe without padding, and
    standard. *)
Class Base64 := {
  url_safe_encode : list ascii → string;
  url_safe_decode : string → option (list ascii);
  standard_decode : string → option (list ascii);
  url_safe_roundtrip b : url_safe_decode (url_safe_encode b) = Some b;
}.

Definition MAX_OFFSET : Z := 10000.

(** ** Cursors *)

Section cursors.
Context `{Base64}.

Definition encode_payload (payload : string) : string := url_safe_encode (bytes payload).

Definition decode_payload (raw : string) : option string :=
  bs ← match url_safe_decode raw with Some b => Some b | None => standard_decode raw end;
  if utf8_valid (of_bytes bs) then Some (of_bytes bs) else None.

Definition encode_cursor (ledger : Z) (event_id : string) : string :=
  encode_payload (show_i ledger +:+ "|" +:+ event_id).

Inductive CursorError : Type := InvalidCursor.

Definition decode_cursor (cursor : option string) : result CursorError (option (Z * string)) :=
  match cursor with
  | None => Ok None
  | Some raw =>
      s ← ok_or InvalidCursor (decode_payload raw);
      '(l, id) ← ok_or InvalidCursor (split_once "|" s);
      n ← ok_or InvalidCursor (parse_int 64 l);
      Ok (Some (n, id))
  end.

End cursors.

(** The [Cursor] trait: a keyset position with its codec. *)
Class Cursor (C : Type) := {
  encode : C → string;
  decode : string → result CursorError C;
}.

Definition LedgerCursor : Type := Z * string.

#[export] Instance ledger_cursor `{Base64} : Cursor LedgerCursor := {|
  encode c := encode_cursor c.1 c.2;
  decode raw := o ← decode_cursor (Some raw); ok_or InvalidCursor o;
|}.

Definition IdCursor : Type := Z.

#[export] Instance id_cursor `{Base64} : Cursor IdCursor := {|
  encode n := encode_payload (show_i n);
  decode raw := s ← ok_or InvalidCursor (decode_payload raw); ok_or InvalidCursor (parse_int 64 s);
|}.

(** ** Page requests *)

Inductive ApiError : Type :=
  | InvalidCursorParam
  | OffsetTooDeep.

Record PageRequest (C : Type) := { limit : Z; offset : Z; after : option C }.
Arguments limit {C}. Arguments offset {C}. Arguments after {C}.

Record Page (T : Type) := {
  data : list T;
  has_more : bool;
  next_cursor : option string;
  offset_deprecated : bool;
}.
Arguments data {T}. Arguments has_more {T}. Arguments next_cursor {T}. Arguments offset_deprecated {T}.

Section pages.
Context {C : Type} `{Cursor C}.

(** [limit.clamp(1, max_limit)]. *)
Definition clamp (lo hi n : Z) : Z := if n <? lo then lo else if hi <? n then hi else n.

Definition parse_page (lim max_limit off : Z) (aft : option string) : result ApiError (PageRequest C) :=
  let lim := clamp 1 max_limit lim in
  aft ← match aft with
        | None => Ok None
        | Some raw => map_err (λ _, InvalidCursorParam) (Some <$> decode raw)
        end;
  let off := match aft with Some _ => 0 | None => Z.max off 0 end in
  if MAX_OFFSET <? off then Err OffsetTooDeep
  else Ok {| limit := lim; offset := off; after := aft |}.

Definition fetch_limit (p : PageRequest C) : Z := limit p + 1.

Definition uses_offset (p : PageRequest C) : bool :=
  match after p with None => 0 <? offset p | Some _ => false end.

Definition finish {T} (p : PageRequest C) (rows : list T) (cursor_of : T → C) : Page T :=
  let more := limit p <? Z.of_nat (length rows) in
  let rows := if more then take (Z.to_nat (limit p)) rows else rows in
  {| data := rows;
     has_more := more;
     next_cursor := if more then encode ∘ cursor_of <$> last rows else None;
     offset_deprecated := uses_offset p |}.

End pages.

(** ** The transfers endpoint *)

Section transfers.
Context `{Base64}.
(** The order the database gives to [text]. *)
Context (collation : TotalOrder string).

(** [ORDER BY ledger DESC, event_id DESC]. *)
Definition desc_cmp (a b : Z * string) : comparison :=
  match Z.compare (b.1) (a.1) with
  | Eq => @tcmp string collation b.2 a.2
  | c => c
  end.

Definition row_key (t : Transfer) : Z * string := (t_ledger t, t_event_id t).

(** The [WHERE] clause. *)
Definition opt_matches (q v : option string) : bool :=
  match q with None => true | Some _ => bool_decide (v = q) end.

Definition is_after (c : option (Z * string)) (t : Transfer) : bool :=
  match c with
  | None => true
  | Some (l, e) =>
      (t_ledger t <? l)
      || ((t_ledger t =? l) && match @tcmp string collation (t_event_id t) e with Lt => true | _ => false end)
  end.

Definition matching (contract : string) (from to : option string) (t : Transfer) : bool :=
  String.eqb (t_contract_id t) contract && opt_matches from (t_from_addr t)
  && opt_matches to (t_to_addr t).

Definition sorted_rows (contract : string) (from to : option string) (table : gmap string Transfer)
    : list Transfer :=
  sort_by (λ a b, desc_cmp (row_key a) (row_key b))
    (filter (λ t, matching contract from to t) (map_to_list table).*2).

(** [LIMIT .. OFFSET ..] over the rows the [WHERE] clause keeps, in order. *)
Definition select_transfers (contract : string) (from to : option string)
    (p : PageRequest LedgerCursor) (table : gmap string Transfer) : list Transfer :=
  take (Z.to_nat (fetch_limit p)) (drop (Z.to_nat (offset p))
    (filter (λ t, is_after (after p) t) (sorted_rows contract from to table))).

Definition list_transfers (contract : string) (lim off : Z) (aft from to : option string)
    (table : gmap string Transfer) : result ApiError (Page Transfer) :=
  page ← parse_page lim 1000 off aft;
  Ok (finish page (select_transfers contract from to page table) row_key).

(** A client following [next_cursor] from the first page. *)
Fixpoint all_pages (fuel : nat) (contract : string) (lim : Z) (aft from to : option string)
    (table : gmap string Transfer) : result ApiError (list Transfer) :=
  match fuel with
  | O => Ok []
  | S fuel' =>
      p ← list_transfers contract lim 0 aft from to table;
      match next_cursor p with
      | None => Ok (data p)
      | Some c => rest ← all_pages fuel' contract lim (Some c) from to table; Ok (data p ++ rest)%list
      end
  end.

End transfers.

(** ** The codec round trips *)

Lemma utf8_valid_app s t : ascii_only s → utf8_valid t = true → utf8_valid (s +:+ t) = true.
Proof.
  unfold utf8_valid. rewrite bytes_app. unfold ascii_only. intros Hs Ht.
  induction (bytes s) as [|a l IH]; [exact Ht|]. apply Forall_cons in Hs as [Ha Hl].
  specialize (IH Hl). cbn [app utf8_decode]. destruct (Z.ltb_spec (byte_val a) 128); [|lia].
  by destruct (utf8_decode (l ++ bytes t)).
Qed.

Section codec.
Context `{Base64}.

Lemma decode_encode_payload s : utf8_valid s = true → decode_payload (encode_payload s) = Some s.
Proof.
  intros Hs. unfold decode_payload, encode_payload. rewrite url_safe_roundtrip.
  cbn [mbind option_bind]. by rewrite of_bytes_bytes, Hs.
Qed.

Lemma decode_encode_cursor l e : - 2 ^ 63 ≤ l < 2 ^ 63 → utf8_valid e = true →
  decode_cursor (Some (encode_cursor l e)) = Ok (Some (l, e)).
Proof.
  intros Hl He. unfold decode_cursor, encode_cursor.
  rewrite decode_encode_payload by (apply utf8_valid_app; [apply ascii_only_show_i|];
    apply (utf8_valid_app "|" e); [repeat constructor|done]).
  cbn [ok_or mbind result_bind]. change ("|" +:+ e) with (String "|" e). rewrite split_once_app
    by (apply show_i_no_byte; done).
  cbn [ok_or mbind result_bind]. rewrite parse_int_show by exact Hl. done.
Qed.

(** The two cursor codecs round trip on everything the tables hold: a
    (ledger, event id) position with a 64-bit ledger and any text as id (the
    separator included), and a 64-bit row id, decode to themselves. *)
Theorem cursor_roundtrip l e n :
  - 2 ^ 63 ≤ l < 2 ^ 63 → - 2 ^ 63 ≤ n < 2 ^ 63 → utf8_valid e = true →
  decode (encode ((l, e) : LedgerCursor)) = Ok (l, e) ∧ decode (encode (n : IdCursor)) = Ok n.
Proof.
  intros Hl Hn He. split; cbn [decode encode ledger_cursor id_cursor fst snd].
  - by rewrite decode_encode_cursor.
  - rewrite decode_encode_payload by (apply ascii_only_utf8, ascii_only_show_i).
    cbn [ok_or mbind result_bind]. by rewrite parse_int_show.
Qed.

End codec.

(** A page request is validated: the limit is clamped to [1..max_limit],
    the offset is 0 with a cursor and in [0..10000] without one, and the only
    refusals are a malformed cursor, and a deeper offset without a cursor. *)
Theorem parse_page_correct {C} `{Cursor C} lim max_limit off aft :
  1 ≤ max_limit →
  match parse_page lim max_limit off aft with
  | Ok p => 1 ≤ limit p ≤ max_limit ∧ (1 ≤ lim ≤ max_limit → limit p = lim)
            ∧ 0 ≤ offset p ≤ MAX_OFFSET
            ∧ match aft with
              | None => after p = None ∧ offset p = Z.max off 0
              | Some raw => ∃ c, decode raw = Ok c ∧ after p = Some c ∧ offset p = 0
              end
  | Err InvalidCursorParam => ∃ raw e, aft = Some raw ∧ decode (C := C) raw = Err e
  | Err OffsetTooDeep => aft = None ∧ MAX_OFFSET < off
  end.
Proof.
  intros Hmax. assert (1 ≤ clamp 1 max_limit lim ≤ max_limit
    ∧ (1 ≤ lim ≤ max_limit → clamp 1 max_limit lim = lim)) as [Hc1 Hc2].
  { unfold clamp. destruct (Z.ltb_spec lim 1), (Z.ltb_spec max_limit lim); lia. }
  unfold parse_page, MAX_OFFSET. destruct aft as [raw|].
  - destruct (decode raw) as [c|e] eqn:E; cbn; [|eauto].
    split; [done|]. split; [done|]. split; [lia|]. eauto.
  - cbn [mbind result_bind]. destruct (Z.ltb_spec 10000 (Z.max off 0)); [split; [done|lia]|].
    cbn. split; [done|]. split; [done|]. split; [lia|done].
Qed.

(** ** Keyset pages over any table *)

(** A client following [next_cursor]. *)
Fixpoint follow {E T} (fuel : nat) (page : option string → result E (Page T)) (aft : option string)
    : result E (list T) :=
  match fuel with
  | O => Ok []
  | S fuel' =>
      p ← page aft;
      match next_cursor p with
      | None => Ok (data p)
      | Some c => rest ← follow fuel' page (Some c); Ok (data p ++ rest)%list
      end
  end.

(** A client whose cursors stand at positions of [all], and whose pages are the
    next [n] of it, receives the rest of [all]. *)
Lemma follow_walk {E T} (page : option string → result E (Page T)) (all : list T) (n : nat)
    (at_ : nat → option string → Prop) :
  (1 ≤ n)%nat →
  (∀ i aft, at_ i aft → ∃ p, page aft = Ok p ∧ data p = take n (drop i all)
     ∧ match next_cursor p with
       | None => (length all ≤ i + n)%nat
       | Some c => at_ (i + n)%nat (Some c) ∧ (i + n < length all)%nat
       end) →
  ∀ fuel i aft, at_ i aft → (length all - i < fuel)%nat → follow fuel page aft = Ok (drop i all).
Proof.
  intros Hn Hpage. induction fuel as [|fuel IH]; intros i aft Hc Hf; [lia|]. cbn [follow].
  destruct (Hpage i aft Hc) as (p & -> & Hd & Hnext). cbn [mbind result_bind]. rewrite Hd.
  destruct (next_cursor p) as [c|].
  - destruct Hnext as [Hc' Hlt]. rewrite (IH (i + n)%nat) by (done || lia).
    cbn [mbind result_bind]. f_equal. by rewrite <- drop_drop, take_drop.
  - rewrite take_ge; [done|]. rewrite length_drop. lia.
Qed.

(** [n] of the rows from the [i]th on, read with one more to see if more follow. *)
Lemma page_of_rest {T} (all : list T) i n : (1 ≤ n)%nat →
  let rest := take (S n) (drop i all) in
  if (Z.of_nat n <? Z.of_nat (length rest))
  then take n rest = take n (drop i all) ∧ (i + n < length all)%nat
       ∧ last (take n rest) = all !! (i + n - 1)%nat
  else rest = take n (drop i all) ∧ (length all ≤ i + n)%nat.
Proof.
  intros Hn rest. assert (length (drop i all) = length all - i)%nat as Hl by apply length_drop. unfold rest.
  destruct (Z.ltb_spec (Z.of_nat n) (Z.of_nat (length (take (S n) (drop i all))))) as [Hm|Hm]; rewrite length_take in Hm.
  - rewrite take_take. replace (n `min` S n)%nat with n by lia. split; [done|]. split; [lia|].
    rewrite last_lookup, length_take. replace (pred (n `min` length (drop i all))) with (n - 1)%nat by lia.
    rewrite lookup_take_lt by lia. rewrite lookup_drop. f_equal. lia.
  - rewrite !take_ge by lia. split; [done|lia].
Qed.

(** ** Rows in order, and the rest of them after one *)

Section ordered.
Context {R K : Type} (key : R → K) (order : TotalOrder K).

Definition in_order (rows : list R) : list R := sort_by (λ a b, @tcmp _ order (key a) (key b)) rows.

Lemma in_order_perm rows : in_order rows ≡ₚ rows.
Proof. apply sort_by_perm. Qed.

(** Rows with different keys come in strict order. *)
Lemma in_order_sorted rows : NoDup (key <$> rows) → StronglySorted tlt (key <$> in_order rows).
Proof.
  intros Hkeys. assert (StronglySorted (key_le key) (in_order rows)) as Hs by exact (sort_by_sorted key _).
  assert (NoDup (key <$> in_order rows)) as Hnd by by rewrite in_order_perm.
  induction Hs as [|t l Hs IH HF]; [constructor|].
  rewrite fmap_cons in *. apply NoDup_cons in Hnd as [Ht Hnd]. constructor; [auto|].
  rewrite Forall_fmap, Forall_forall. rewrite Forall_forall in HF. intros t' Ht'. cbn.
  specialize (HF t' Ht'). unfold key_le in HF. unfold tlt.
  destruct (tcmp (key t) (key t')) eqn:E; [|done|done].
  apply tcmp_eq in E. destruct Ht. rewrite E. by apply list_elem_of_fmap_2.
Qed.

Lemma in_order_strict rows : NoDup (key <$> rows) →
  StronglySorted (λ a b, @tcmp _ order (key a) (key b) = Lt) (in_order rows).
Proof.
  intros Hkeys. pose proof (in_order_sorted rows Hkeys) as Hs. induction (in_order rows) as [|t l IH]; [constructor|].
  rewrite fmap_cons in Hs. apply StronglySorted_cons in Hs as [HF Hs]. constructor; [auto|].
  by rewrite Forall_fmap in HF.
Qed.

(** The rows after the i-th are the suffix from the next. *)
Lemma filter_after_drop (later : R → bool) i t (l : list R) :
  (∀ u, later u = true ↔ @tlt _ order (key t) (key u)) → StronglySorted tlt (key <$> l) →
  l !! i = Some t → filter (λ u, later u) l = drop (S i) l.
Proof.
  intros Hlater. revert i. induction l as [|u l IH]; intros i Hs Hi; [done|].
  rewrite fmap_cons in Hs. apply StronglySorted_cons in Hs as [HF Hs].
  rewrite Forall_fmap, Forall_forall in HF. destruct i as [|i]; cbn in Hi.
  - injection Hi as ->. rewrite skipn_cons, drop_0, filter_cons, decide_False.
    + clear IH Hs. induction l as [|v l IHl]; [done|]. rewrite filter_cons, decide_True.
      * f_equal. apply IHl. intros x Hx. apply HF. by right.
      * apply Is_true_true. apply Hlater. apply HF. by left.
    + intros Ha. apply Is_true_true, Hlater in Ha. by apply tlt_irrefl in Ha.
  - rewrite filter_cons, decide_False; [by apply IH|].
    intros Ha. apply Is_true_true, Hlater in Ha.
    assert (tlt (key u) (key t)) as Hut by (apply HF; by eapply list_elem_of_lookup_2).
    apply (tlt_irrefl (key t)). unfold tlt in *. by eapply tcmp_trans.
Qed.

(** Sorting what a filter keeps is filtering the sorted rows. *)
Lemma in_order_filter (f : R → bool) rows : NoDup (key <$> rows) →
  in_order (filter (λ r, f r) rows) = filter (λ r, f r) (in_order rows).
Proof.
  intros Hkeys. apply (sort_by_unique (H := order) key).
  - pose proof (in_order_sorted rows Hkeys) as Hs. induction (in_order rows) as [|t l IH]; [constructor|].
    rewrite fmap_cons in Hs. apply StronglySorted_cons in Hs as [HF Hs].
    rewrite filter_cons. case_decide; [|by apply IH]. rewrite fmap_cons. constructor; [by apply IH|].
    rewrite Forall_fmap, Forall_forall in *. intros x [_ Hx]%list_elem_of_filter. by apply HF.
  - by rewrite in_order_perm.
Qed.
End ordered.

Section keyset.
Context `{Base64} {R : Type} (key : R → Z * string) (order : TotalOrder (Z * string)).
(** The cursor's condition in the [WHERE] clause. *)
Context (passes : option (Z * string) → R → bool) (max_limit : Z).

(** [LIMIT .. OFFSET ..] over the rows the cursor lets through, in order. *)
Definition keyset_rows (p : PageRequest LedgerCursor) (rows : list R) : list R :=
  take (Z.to_nat (fetch_limit p)) (drop (Z.to_nat (offset p))
    (filter (λ r, passes (after p) r) (in_order key order rows))).

Definition keyset_page (lim off : Z) (rows : list R) (aft : option string) : result ApiError (Page R) :=
  page ← parse_page lim max_limit off aft; Ok (finish page (keyset_rows page rows) key).

Context (max_pos : 1 ≤ max_limit).
Context (passes_none : ∀ r, passes None r = true).
Context (passes_some : ∀ c r, passes (Some c) r = true ↔ @tlt _ order c (key r)).
Context (rows : list R) (keys_NoDup : NoDup (key <$> rows)).
Context (keys_wf : ∀ r, r ∈ rows → - 2 ^ 63 ≤ (key r).1 < 2 ^ 63 ∧ utf8_valid (key r).2 = true).
Context (off : Z) (off_allowed : off ≤ MAX_OFFSET).

Definition skipped : nat := Z.to_nat off.

(** A client has skipped or seen the first [i] rows. *)
Definition cursor_at (i : nat) (aft : option string) : Prop :=
  (i = skipped ∧ aft = None)
  ∨ ∃ j t, i = S j ∧ in_order key order rows !! j = Some t ∧ aft = Some (encode (key t : LedgerCursor)).

Lemma row_cursor_decodes j t : in_order key order rows !! j = Some t →
  decode (encode (key t : LedgerCursor)) = Ok (key t).
Proof.
  intros Ht. apply list_elem_of_lookup_2 in Ht. rewrite in_order_perm in Ht.
  apply keys_wf in Ht as [Hl He]. destruct (key t) as [l e]. cbn [decode encode ledger_cursor fst snd] in *.
  by rewrite decode_encode_cursor.
Qed.

Lemma select_after i aft lim : cursor_at i aft →
  ∃ p, parse_page lim max_limit off aft = Ok p ∧ limit p = clamp 1 max_limit lim
  ∧ keyset_rows p rows = take (Z.to_nat (clamp 1 max_limit lim + 1)) (drop i (in_order key order rows)).
Proof.
  intros [[-> ->]|(j & t & -> & Ht & ->)]; unfold parse_page.
  - cbn [mbind result_bind]. destruct (Z.ltb_spec MAX_OFFSET (Z.max off 0)); [unfold MAX_OFFSET in *; lia|].
    eexists. split; [reflexivity|]. split; [done|].
    unfold keyset_rows, fetch_limit, skipped. cbn [limit offset after].
    replace (Z.to_nat (Z.max off 0)) with (Z.to_nat off) by lia. do 2 f_equal.
    induction (in_order key order rows) as [|u l IH]; [done|]. by rewrite filter_cons, passes_none, IH.
  - rewrite (row_cursor_decodes j) by done. eexists. split; [reflexivity|]. split; [done|].
    unfold keyset_rows, fetch_limit. cbn [limit offset after]. rewrite drop_0. f_equal.
    apply (filter_after_drop key order _ j t); [intros u; apply passes_some|by apply in_order_sorted|done].
Qed.

(** A page holds the next rows; its cursor is there exactly when more follow. *)
Lemma keyset_page_at i aft lim : cursor_at i aft →
  let n := Z.to_nat (clamp 1 max_limit lim) in
  ∃ p, keyset_page lim off rows aft = Ok p
  ∧ data p = take n (drop i (in_order key order rows))
  ∧ match next_cursor p with
    | None => (length (in_order key order rows) ≤ i + n)%nat
    | Some c => cursor_at (i + n) (Some c) ∧ (i + n < length (in_order key order rows))%nat
    end.
Proof.
  intros Hc n. destruct (select_after i aft lim Hc) as (p & Hp & Hlim & Hsel).
  assert (1 ≤ clamp 1 max_limit lim) as Hpos
    by (unfold clamp; destruct (Z.ltb_spec lim 1), (Z.ltb_spec max_limit lim); lia).
  eexists. unfold keyset_page. rewrite Hp. cbn [mbind result_bind]. split; [reflexivity|].
  unfold finish. rewrite Hsel, Hlim. fold n. replace (Z.to_nat (clamp 1 max_limit lim + 1)) with (S n) by lia.
  pose proof (page_of_rest (in_order key order rows) i n ltac:(lia)) as Hrest. cbv zeta in Hrest.
  replace (Z.of_nat n) with (clamp 1 max_limit lim) in Hrest by lia.
  destruct (_ <? _); cbn [data next_cursor].
  - destruct Hrest as (Ht & Hlt & Hlast). split; [done|]. rewrite Hlast.
    destruct (lookup_lt_is_Some_2 (in_order key order rows) (i + n - 1)) as [t Ht']; [lia|]. rewrite Ht'. cbn.
    split; [|lia]. right. exists (i + n - 1)%nat, t. split; [lia|done].
  - done.
Qed.

Lemma follow_from fuel lim i aft : cursor_at i aft → (length (in_order key order rows) - i < fuel)%nat →
  follow fuel (keyset_page lim off rows) aft = Ok (drop i (in_order key order rows)).
Proof.
  apply (follow_walk _ _ (Z.to_nat (clamp 1 max_limit lim))).
  - unfold clamp. destruct (Z.ltb_spec lim 1), (Z.ltb_spec max_limit lim); lia.
  - intros j c. apply keyset_page_at.
Qed.

(** Following the cursors gives the rows in order from the offset, whatever the limit. *)
Lemma follow_all fuel lim : (length rows < fuel)%nat →
  follow fuel (keyset_page lim off rows) None = Ok (drop skipped (in_order key order rows)).
Proof. intros Hf. apply follow_from; [by left|]. rewrite in_order_perm. lia. Qed.
End keyset.

(** ** The orders of the lists *)

Section orders.
Context (collation : TotalOrder string).

Definition desc_order : TotalOrder (Z * string) :=
  order_as (lex_order (flip_order Z_asc) (flip_order collation)) (desc_cmp collation) (λ _ _, eq_refl).

(** [ledger < l OR (ledger = l AND event_id < e)]. *)
Lemma below_tlt l e (k : Z * string) :
  (k.1 <? l) || ((k.1 =? l) && match @tcmp string collation k.2 e with Lt => true | _ => false end) = true
  ↔ @tlt _ desc_order (l, e) k.
Proof.
  unfold tlt. cbn [tcmp desc_order order_as]. unfold desc_cmp. cbn [fst snd].
  destruct (Z.compare_spec k.1 l) as [E|E|E].
  - destruct (Z.ltb_spec k.1 l); [lia|]. destruct (Z.eqb_spec k.1 l); [|lia].
    cbn. by destruct (tcmp _ _).
  - destruct (Z.ltb_spec k.1 l); [done|lia].
  - destruct (Z.ltb_spec k.1 l); [lia|]. destruct (Z.eqb_spec k.1 l); [lia|]. done.
Qed.
End orders.

(** ** Following the cursor visits every transfer once *)

Section paging.
Context `{Base64} (collation : TotalOrder string).
Context (contract : string) (from to : option string) (table : gmap string Transfer).
Context (keyed : map_Forall (λ id t, t_event_id t = id) table).
Context (rows_wf : ∀ id t, table !! id = Some t →
  - 2 ^ 63 ≤ t_ledger t < 2 ^ 63 ∧ utf8_valid (t_event_id t) = true).

Definition matched_rows : list Transfer := filter (λ t, matching contract from to t) (map_to_list table).*2.

Lemma matched_rows_elem t :
  t ∈ matched_rows ↔ table !! t_event_id t = Some t ∧ matching contract from to t = true.
Proof.
  unfold matched_rows. rewrite list_elem_of_filter, list_elem_of_fmap. split.
  - intros [Hm ([id t'] & -> & Hin)]. apply elem_of_map_to_list in Hin. cbn in *.
    rewrite (keyed _ _ Hin). split; [done|]. by destruct (matching _ _ _ _).
  - intros [Ht Hm]. split; [by rewrite Hm|]. exists (t_event_id t, t). split; [done|].
    by apply elem_of_map_to_list.
Qed.

Lemma row_ids_NoDup : NoDup (t_event_id <$> (map_to_list table).*2).
Proof.
  assert (t_event_id <$> (map_to_list table).*2 = (map_to_list table).*1) as ->.
  { rewrite <- list_fmap_compose. apply list_fmap_ext. intros i [id t] Hi. cbn.
    apply list_elem_of_lookup_2, elem_of_map_to_list in Hi. by apply keyed. }
  apply NoDup_fst_map_to_list.
Qed.

Lemma matched_keys_NoDup : NoDup (row_key <$> matched_rows).
Proof.
  assert (NoDup (t_event_id <$> matched_rows)) as Hnd
    by (eapply sublist_NoDup; [apply row_ids_NoDup|apply fmap_sublist, sublist_filter]).
  apply (NoDup_fmap_1 snd). by rewrite <- list_fmap_compose.
Qed.

Lemma list_transfers_keyset lim aft :
  list_transfers collation contract lim 0 aft from to table
  = keyset_page row_key (desc_order collation) (is_after collation) 1000 lim 0 matched_rows aft.
Proof. reflexivity. Qed.

Lemma all_pages_follow fuel lim : ∀ aft,
  all_pages collation fuel contract lim aft from to table
  = follow fuel (keyset_page row_key (desc_order collation) (is_after collation) 1000 lim 0 matched_rows) aft.
Proof.
  induction fuel as [|fuel IH]; intros aft; [done|]. cbn [all_pages follow]. rewrite list_transfers_keyset.
  destruct (keyset_page _ _ _ _ _ _ _ _) as [p|]; [|done]. cbn [mbind result_bind].
  destruct (next_cursor p); [|done]. by rewrite IH.
Qed.

(** Keyset pagination is exact: a client that starts without a cursor and
    follows [next_cursor], with any limit, ends after at most one request per
    row plus one, and has then received every transfer matching its filters
    exactly once, in strictly descending (ledger, event id) order. *)
Theorem all_pages_exact fuel lim : (size table < fuel)%nat →
  ∃ rows, all_pages collation fuel contract lim None from to table = Ok rows
  ∧ (∀ t, t ∈ rows ↔ table !! t_event_id t = Some t ∧ matching contract from to t = true)
  ∧ StronglySorted (λ a b, desc_cmp collation (row_key a) (row_key b) = Lt) rows.
Proof.
  intros Hf. exists (in_order row_key (desc_order collation) matched_rows). split; [|split].
  - rewrite all_pages_follow. rewrite <- (drop_0 (in_order _ _ _)) at 1. apply follow_all; [lia|done| |apply matched_keys_NoDup| | |].
    + intros [l e] t. apply (below_tlt collation l e (row_key t)).
    + intros t [Ht _]%matched_rows_elem. by apply rows_wf in Ht.
    + done.
    + pose proof (length_filter (λ t, matching contract from to t) (map_to_list table).*2) as Hl.
      rewrite length_fmap, length_map_to_list in Hl. unfold matched_rows. lia.
  - intros t. rewrite in_order_perm. apply matched_rows_elem.
  - apply (in_order_strict row_key (desc_order collation)), matched_keys_NoDup.
Qed.

End paging.

(** ** Witnesses *)

(** A payload codec with the one law the proofs use. *)
Definition sample_base64 : Base64 := {|
  url_safe_encode := hex_string;
  url_safe_decode s := unhex (bytes s);
  standard_decode _ := None;
  url_safe_roundtrip := unhex_hex_string;
|}.

Lemma cursor_roundtrip_witness :
  decode (Cursor := @ledger_cursor sample_base64)
    (encode (Cursor := @ledger_cursor sample_base64) (-7, "0000001|2")) = Ok (-7, "0000001|2").
Proof. apply (@cursor_roundtrip sample_base64 (-7) "0000001|2" 0); [lia|lia|reflexivity]. Defined.

Lemma parse_page_correct_witness :
  ∃ p : PageRequest IdCursor, @parse_page IdCursor (@id_cursor sample_base64) 5000 1000 (-3) None = Ok p
  ∧ limit p = 1000 ∧ 0 ≤ offset p ≤ MAX_OFFSET.
Proof.
  eexists. split; [reflexivity|]. split; [reflexivity|].
  pose proof (@parse_page_correct IdCursor (@id_cursor sample_base64) 5000 1000 (-3) None
    ltac:(lia)) as (_ & _ & H & _). exact H.
Defined.

Definition sample_table : gmap string Transfer :=
  let t id l := {| t_event_id := id; t_contract_id := "C1"; t_from_addr := Some "GA";
    t_to_addr := Some "GB"; t_amount := "1"; t_kind := "transfer"; t_ledger := l;
    t_ledger_closed_at := 0 |} in
  <["e1" := t "e1" 5]> (<["e2" := t "e2" 7]> (<["e3" := t "e3" 7]> ∅)).

Lemma all_pages_exact_witness :
  ∃ rows, @all_pages sample_base64 string_order 4 "C1" 2 None (Some "GA") None sample_table = Ok rows
  ∧ (∀ t, t ∈ rows ↔ sample_table !! t_event_id t = Some t
                     ∧ matching "C1" (Some "GA") None t = true)
  ∧ StronglySorted (λ a b, desc_cmp string_order (row_key a) (row_key b) = Lt) rows.
Proof.
  apply (@all_pages_exact sample_base64 string_order "C1" (Some "GA") None sample_table).
  - intros id t Ht. unfold sample_table in Ht.
    repeat (apply lookup_insert_Some in Ht as [[<- <-]|[_ Ht]]; [reflexivity|]).
    by rewrite lookup_empty in Ht.
  - intros id t Ht. unfold sample_table in Ht.
    repeat (apply lookup_insert_Some in Ht as [[<- <-]|[_ Ht]]; [split; [simpl; lia|reflexivity]|]).
    by rewrite lookup_empty in Ht.
  - vm_compute. lia.
Defined.

Lemma sample_pages :
  match @all_pages sample_base64 string_order 4 "C1" 2 None (Some "GA") None sample_table with
  | Ok l => map t_event_id l = ["e3"; "e2"; "e1"]
  | Err _ => False
  end.
Proof. vm_compute. reflexivity. Qed.
