(* ===== verification/Limits.v ===== *)
(** * Limits: in-flight request and stream limits ([lumenqraph-api/src/concurrency_limit.rs])

    [ConcurrencyLimiter] counts the requests in flight per client IP;
    [SseStreamLimiter] counts the open streams per key and globally.  Each
    operation runs under the limiter's lock, so a concurrent history is a
    sequence of operations; the guards the clients hold are part of the state. *)
From S2P Require Import Prelude.

Local Open Scope Z_scope.

Definition MAX_TRACKED_IPS : nat := 100000.

(** ** Requests per IP *)

(** [last_activity_secs] is a time in seconds. *)
Record IpState := { in_flight : nat; last_activity_secs : Z }.

Record ConcurrencyLimitStatus := { c_allowed : bool; current_in_flight : nat; c_limit : nat }.

Notation Ips := (gmap string IpState).

(** [ips.retain(..)] once the map is full. *)
Definition prune_ips (now_secs : Z) (ips : Ips) : Ips :=
  if (MAX_TRACKED_IPS <=? size ips)%nat
  then filter (λ p, now_secs - 10 < last_activity_secs p.2 ∧ (0 < in_flight p.2)%nat) ips
  else ips.

Definition acquire (ip : string) (max_concurrent : nat) (now_secs : Z) (ips : Ips)
    : ConcurrencyLimitStatus * Ips :=
  if (max_concurrent =? 0)%nat
  then ({| c_allowed := true; current_in_flight := 0; c_limit := max_concurrent |}, ips)
  else
    let ips := prune_ips now_secs ips in
    let n := in_flight (default {| in_flight := 0; last_activity_secs := now_secs |} (ips !! ip)) in
    if (n <? max_concurrent)%nat
    then ({| c_allowed := true; current_in_flight := S n; c_limit := max_concurrent |},
          <[ip := {| in_flight := S n; last_activity_secs := now_secs |}]> ips)
    else ({| c_allowed := false; current_in_flight := n; c_limit := max_concurrent |},
          <[ip := {| in_flight := n; last_activity_secs := now_secs |}]> ips).

Definition release (ip : string) (ips : Ips) : Ips :=
  match ips !! ip with
  | Some s => if (0 <? in_flight s)%nat
              then <[ip := {| in_flight := pred (in_flight s); last_activity_secs := last_activity_secs s |}]> ips
              else ips
  | None => ips
  end.

Record ConcurrencySlot := { slot_ip : string; counted : bool }.

#[export] Instance ConcurrencySlot_eq_dec : EqDecision ConcurrencySlot.
Proof. solve_decision. Defined.

Definition try_acquire (ip : string) (max_concurrent : nat) (now_secs : Z) (ips : Ips)
    : option ConcurrencySlot * Ips :=
  let '(status, ips') := acquire ip max_concurrent now_secs ips in
  if negb (c_allowed status) then (None, ips')
  else (Some {| slot_ip := ip; counted := (0 <? max_concurrent)%nat |}, ips').

(** [Drop for ConcurrencySlot]. *)
Definition drop_slot (slot : ConcurrencySlot) (ips : Ips) : Ips :=
  if counted slot then release (slot_ip slot) ips else ips.

(** ** Streams per key and globally *)

Record SseStreamStatus := { s_allowed : bool; current_streams : nat; s_limit : nat }.

Record SseStreamLimiter := { per_key : gmap string nat; global : nat }.

Definition sse_acquire (key : string) (max_per_key max_global : nat) (l : SseStreamLimiter)
    : SseStreamStatus * SseStreamLimiter :=
  let current_key := default 0%nat (per_key l !! key) in
  let current_global := global l in
  let key_blocked := negb (max_per_key =? 0)%nat && (max_per_key <=? current_key)%nat in
  let global_blocked := negb (max_global =? 0)%nat && (max_global <=? current_global)%nat in
  if key_blocked || global_blocked
  then ({| s_allowed := false; current_streams := current_global; s_limit := max_global |}, l)
  else ({| s_allowed := true; current_streams := S (global l); s_limit := max_global |},
        {| per_key := <[key := S current_key]> (per_key l); global := S (global l) |}).

Definition sse_release (key : string) (l : SseStreamLimiter) : SseStreamLimiter :=
  {| per_key := match per_key l !! key with
                | None => per_key l
                | Some count =>
                    let count := if (0 <? count)%nat then pred count else count in
                    if (count =? 0)%nat then delete key (per_key l)
                    else <[key := count]> (per_key l)
                end;
     global := if (0 <? global l)%nat then pred (global l) else global l |}.

(** ** Histories *)

Definition count (k : string) (l : list string) : nat := length (filter (λ x, x = k) l).

(** The counted guards clients hold, by IP; every request is limited to [m]. *)
Record ReqState := { r_ips : Ips; r_held : list string }.

Inductive req_step (m : nat) : ReqState → ReqState → Prop :=
  | req_granted ip now s slot ips' :
      try_acquire ip m now (r_ips s) = (Some slot, ips') →
      req_step m s {| r_ips := ips'; r_held := slot_ip slot :: r_held s |}
  | req_refused ip now s ips' :
      try_acquire ip m now (r_ips s) = (None, ips') →
      req_step m s {| r_ips := ips'; r_held := r_held s |}
  | req_dropped ip s held :
      r_held s ≡ₚ ip :: held →
      req_step m s {| r_ips := drop_slot {| slot_ip := ip; counted := true |} (r_ips s);
                      r_held := held |}.

(** The streams clients hold, by key. *)
Record SseState := { x_limiter : SseStreamLimiter; x_held : list string }.

Inductive sse_step (mk mg : nat) : SseState → SseState → Prop :=
  | sse_granted key s l' st :
      sse_acquire key mk mg (x_limiter s) = (st, l') → s_allowed st = true →
      sse_step mk mg s {| x_limiter := l'; x_held := key :: x_held s |}
  | sse_refused key s l' st :
      sse_acquire key mk mg (x_limiter s) = (st, l') → s_allowed st = false →
      sse_step mk mg s {| x_limiter := l'; x_held := x_held s |}
  | sse_released key s held :
      x_held s ≡ₚ key :: held →
      sse_step mk mg s {| x_limiter := sse_release key (x_limiter s); x_held := held |}.

(** ** Lemmas *)

Lemma held_count_cons k x l : count k (x :: l) = if decide (x = k) then S (count k l) else count k l.
Proof. unfold count. rewrite filter_cons. by case_decide. Qed.

Lemma count_perm k l l' : l ≡ₚ l' → count k l = count k l'.
Proof. intros H. unfold count. by rewrite H. Qed.

Definition tracked (ips : Ips) (ip : string) : nat :=
  default 0%nat (in_flight <$> ips !! ip).

Lemma tracked_insert ips ip n t ip' :
  tracked (<[ip := {| in_flight := n; last_activity_secs := t |}]> ips) ip'
  = if decide (ip = ip') then n else tracked ips ip'.
Proof.
  unfold tracked. destruct (decide (ip = ip')) as [->|]; [by rewrite lookup_insert_eq|].
  by rewrite lookup_insert_ne.
Qed.

Lemma tracked_default ips ip now :
  in_flight (default {| in_flight := 0; last_activity_secs := now |} (ips !! ip)) = tracked ips ip.
Proof. unfold tracked. by destruct (ips !! ip). Qed.

Lemma tracked_prune now ips ip : (tracked (prune_ips now ips) ip ≤ tracked ips ip)%nat.
Proof.
  unfold prune_ips. destruct (_ <=? _)%nat; [|lia]. unfold tracked.
  destruct (filter _ ips !! ip) as [s|] eqn:E; simpl; [|lia].
  apply map_lookup_filter_Some in E as [-> _]. done.
Qed.

Lemma tracked_release ips ip ip' :
  tracked (release ip ips) ip' = if decide (ip = ip') then pred (tracked ips ip') else tracked ips ip'.
Proof.
  unfold release. destruct (ips !! ip) as [s|] eqn:E.
  - assert (tracked ips ip = in_flight s) as Ht by (unfold tracked; by rewrite E).
    destruct (Nat.ltb_spec 0 (in_flight s)).
    + rewrite tracked_insert. case_decide; [subst; by rewrite Ht|done].
    + case_decide; [subst; rewrite Ht; lia|done].
  - case_decide; [subst; unfold tracked; by rewrite E|done].
Qed.

Section requests.
Context (m : nat) (m_pos : (0 < m)%nat).

Lemma try_acquire_tracked ip now ips slot ips' : try_acquire ip m now ips = (slot, ips') →
  match slot with
  | Some s => slot_ip s = ip ∧ counted s = true ∧ (tracked (prune_ips now ips) ip < m)%nat
              ∧ ∀ ip', tracked ips' ip' = if decide (ip = ip') then S (tracked (prune_ips now ips) ip)
                                          else tracked (prune_ips now ips) ip'
  | None => (m ≤ tracked (prune_ips now ips) ip)%nat
            ∧ ∀ ip', tracked ips' ip' = tracked (prune_ips now ips) ip'
  end.
Proof.
  unfold try_acquire, acquire. destruct (Nat.eqb_spec m 0); [lia|].
  rewrite tracked_default. destruct (Nat.ltb_spec (tracked (prune_ips now ips) ip) m); cbn; intros [= <- <-].
  - split; [done|]. split; [by destruct m; [lia|]|]. split; [done|]. intros ip'. by rewrite tracked_insert.
  - split; [done|]. intros ip'. rewrite tracked_insert. by case_decide as E; [subst|].
Qed.

Lemma prune_small now ips : (size ips < MAX_TRACKED_IPS)%nat → prune_ips now ips = ips.
Proof. unfold prune_ips. intros Hs. by destruct (Nat.leb_spec MAX_TRACKED_IPS (size ips)); [lia|]. Qed.

(** Nothing is pruned below [MAX_TRACKED_IPS]. *)
Definition small_step (a b : ReqState) : Prop :=
  req_step m a b ∧ (size (r_ips a) < MAX_TRACKED_IPS)%nat.

Definition exact (s : ReqState) : Prop :=
  ∀ ip, tracked (r_ips s) ip = count ip (r_held s) ∧ (count ip (r_held s) ≤ m)%nat.

Lemma exact_step a b : small_step a b → exact a → exact b.
Proof.
  intros [Hs Hsize] Ha ip'. pose proof (Ha ip') as [Ht Hm].
  destruct Hs as [ip now s slot ips' Htry|ip now s ips' Htry|ip s held Hheld]; cbn [r_ips r_held] in *.
  - apply try_acquire_tracked in Htry as (-> & _ & Hlt & Htr). rewrite prune_small in * by done.
    rewrite Htr, held_count_cons. pose proof (Ha ip) as [Hip _]. case_decide; [subst ip'; lia|done].
  - apply try_acquire_tracked in Htry as (_ & Htr). rewrite Htr, prune_small by done. done.
  - unfold drop_slot. cbn [counted slot_ip]. rewrite tracked_release.
    rewrite (count_perm _ _ _ Hheld), held_count_cons in *. case_decide; lia.
Qed.

(** In every history of grants, refusals and drops under one limit [m],
    with the table below [MAX_TRACKED_IPS], the limiter counts exactly the
    guards each IP holds: no IP ever holds more than [m], a request is refused
    only when its IP holds exactly [m], and granted whenever it holds fewer. *)
Theorem concurrency_limit_correct s :
  rtc small_step {| r_ips := ∅; r_held := [] |} s → (size (r_ips s) < MAX_TRACKED_IPS)%nat →
  ∀ ip now, (count ip (r_held s) ≤ m)%nat
  ∧ tracked (r_ips s) ip = count ip (r_held s)
  ∧ ((try_acquire ip m now (r_ips s)).1 = None ↔ count ip (r_held s) = m).
Proof.
  intros Hr Hsize ip now.
  assert (exact s) as Hex.
  { assert (exact {| r_ips := ∅; r_held := [] |}) as H0
      by (intros ip'; unfold tracked, count; cbn; split; [done|lia]).
    clear Hsize. induction Hr as [|a b c Hs _ IH]; [done|]. apply IH. by eapply exact_step. }
  destruct (Hex ip) as [Ht Hm]. split; [done|]. split; [done|].
  destruct (try_acquire ip m now (r_ips s)) as [slot ips'] eqn:E. apply try_acquire_tracked in E.
  rewrite prune_small in E by done. destruct slot as [slot|]; cbn.
  - destruct E as (_ & _ & Hlt & _). split; [done|lia].
  - destruct E as [Hle _]. split; [lia|done].
Qed.

(** A full table forgets an IP that has been quiet for ten seconds, whatever it
    still has in flight, and grants it another [m] requests. *)
Lemma pruning_forgets_requests ips ip n t now :
  (MAX_TRACKED_IPS ≤ size ips)%nat →
  ips !! ip = Some {| in_flight := n; last_activity_secs := t |} → t ≤ now - 10 →
  is_Some (try_acquire ip m now ips).1.
Proof.
  intros Hsize Hip Ht. destruct (try_acquire ip m now ips) as [slot ips'] eqn:E.
  apply try_acquire_tracked in E. destruct slot as [slot|]; [by eexists|]. destruct E as [Hle _].
  exfalso. unfold prune_ips in Hle. destruct (Nat.leb_spec MAX_TRACKED_IPS (size ips)); [|lia].
  unfold tracked in Hle. rewrite map_lookup_filter_None_2 in Hle; [cbn in Hle; lia|].
  right. intros s Hs [Hlast _]. rewrite Hip in Hs. injection Hs as <-. cbn in Hlast. lia.
Qed.

End requests.

(** ** Streams *)

Definition sse_inv (mk mg : nat) (s : SseState) : Prop :=
  (∀ k, per_key (x_limiter s) !! k = if (count k (x_held s) =? 0)%nat then None else Some (count k (x_held s)))
  ∧ global (x_limiter s) = length (x_held s)
  ∧ (mk ≠ 0%nat → ∀ k, (count k (x_held s) ≤ mk)%nat)
  ∧ (mg ≠ 0%nat → (length (x_held s) ≤ mg)%nat).

Lemma sse_default (l : SseStreamLimiter) k n :
  per_key l !! k = (if (n =? 0)%nat then None else Some n) → default 0%nat (per_key l !! k) = n.
Proof. intros ->. by destruct (Nat.eqb_spec n 0). Qed.

Lemma sse_inv_step mk mg a b : sse_inv mk mg a → sse_step mk mg a b → sse_inv mk mg b.
Proof.
  intros (Hk & Hg & Hmk & Hmg) Hs.
  destruct Hs as [key s l' st Ha Hok|key s l' st Ha Hno|key s held Hheld].
  - unfold sse_acquire in Ha. rewrite (sse_default _ _ _ (Hk key)) in Ha.
    destruct (_ || _) eqn:Eb; simplify_eq/=. apply orb_false_iff in Eb as [Ek Eg].
    split; [|split; [cbn; by rewrite Hg|split]]; cbn [x_limiter x_held per_key global].
    + intros k. rewrite held_count_cons. destruct (decide (key = k)) as [->|Hne].
      * by rewrite lookup_insert_eq.
      * rewrite lookup_insert_ne by done. apply Hk.
    + intros Hz k. rewrite held_count_cons. specialize (Hmk Hz). case_decide; [subst k|apply Hmk].
      destruct (Nat.eqb_spec mk 0); [done|]. cbn [negb andb] in Ek. apply Nat.leb_gt in Ek. lia.
    + intros Hz. destruct (Nat.eqb_spec mg 0); [done|]. cbn [negb andb length] in Eg |- *. apply Nat.leb_gt in Eg. lia.
  - unfold sse_acquire in Ha. destruct (_ || _); simplify_eq/=. done.
  - cbn [x_limiter x_held]. pose proof (λ k, count_perm k _ _ Hheld) as Hc.
    apply Permutation_length in Hheld as Hl. cbn [length] in Hl.
    split; [|split; [|split]]; cbn [x_limiter x_held per_key global sse_release].
    + intros k. rewrite (Hk key), Hc, held_count_cons, decide_True by done. cbn [Nat.eqb].
      destruct (Nat.ltb_spec 0 (S (count key held))); [|lia]. cbn [pred].
      destruct (Nat.eqb_spec (count key held) 0) as [E0|E0].
      * destruct (decide (key = k)) as [->|Hne]; [by rewrite lookup_delete_eq, E0|].
        rewrite lookup_delete_ne by done. rewrite Hk, Hc, held_count_cons, decide_False by done. done.
      * destruct (decide (key = k)) as [->|Hne].
        -- rewrite lookup_insert_eq. by destruct (Nat.eqb_spec (count k held) 0).
        -- rewrite lookup_insert_ne by done. rewrite Hk, Hc, held_count_cons, decide_False by done. done.
    + rewrite Hg, Hl. done.
    + intros Hz k. specialize (Hmk Hz k). rewrite Hc, held_count_cons in Hmk. case_decide; lia.
    + intros Hz. specialize (Hmg Hz). lia.
Qed.

(** In every history of streams opened and closed, the per-key and the
    global counter agree with the streams actually open: each key's entry is
    the number of its open streams and is gone when there are none (so the map
    does not grow with closed keys), the global counter is their sum, and
    neither passes its limit (0 meaning no limit). *)
Theorem sse_limits_correct mk mg s :
  rtc (sse_step mk mg) {| x_limiter := {| per_key := ∅; global := 0 |}; x_held := [] |} s →
  (∀ k, per_key (x_limiter s) !! k
        = if (count k (x_held s) =? 0)%nat then None else Some (count k (x_held s)))
  ∧ global (x_limiter s) = length (x_held s)
  ∧ (mk ≠ 0%nat → ∀ k, (count k (x_held s) ≤ mk)%nat)
  ∧ (mg ≠ 0%nat → (length (x_held s) ≤ mg)%nat).
Proof.
  intros Hr. assert (sse_inv mk mg {| x_limiter := {| per_key := ∅; global := 0 |}; x_held := [] |}) as H0.
  { split; [done|]. split; [done|]. split; [intros _ k; unfold count; cbn; lia|cbn; lia]. }
  induction Hr as [|a b c Hs _ IH]; [exact H0|]. apply IH. by eapply sse_inv_step.
Qed.

(** ** Witnesses *)

Lemma concurrency_limit_correct_witness :
  let s := {| r_ips := <["10.0.0.1" := {| in_flight := 1; last_activity_secs := 3 |}]> ∅;
              r_held := ["10.0.0.1"] |} in
  (try_acquire "10.0.0.1" 1 9 (r_ips s)).1 = None ↔ count "10.0.0.1" (r_held s) = 1%nat.
Proof.
  cbn zeta. apply (concurrency_limit_correct 1 ltac:(lia)
    {| r_ips := <["10.0.0.1" := {| in_flight := 1; last_activity_secs := 3 |}]> ∅; r_held := ["10.0.0.1"] |}).
  - eapply rtc_l; [|apply rtc_refl]. split.
    + apply (req_granted 1 "10.0.0.1" 3 {| r_ips := ∅; r_held := [] |} {| slot_ip := "10.0.0.1"; counted := true |}).
      reflexivity.
    + apply Nat.ltb_lt. vm_compute. reflexivity.
  - apply Nat.ltb_lt. vm_compute. reflexivity.
Defined.

Lemma sse_limits_correct_witness :
  global {| per_key := <["k" := 1%nat]> ∅; global := 1 |} = length ["k"].
Proof.
  apply (sse_limits_correct 2 5 {| x_limiter := {| per_key := <["k" := 1%nat]> ∅; global := 1 |}; x_held := ["k"] |}).
  eapply rtc_l; [|apply rtc_refl].
  eapply (sse_granted 2 5 "k" {| x_limiter := {| per_key := ∅; global := 0 |}; x_held := [] |}); reflexivity.
Defined.
