(* ===== verification/Sanitize.v ===== *)
(** * Sanitize: simulation errors shown to clients ([lumenqraph-core/src/sanitize.rs])

    A message is worked on as the list of its code points, as the source works
    on its [chars()].  The one foreign function is the strkey parser. *)
From S2P Require Import Prelude Text.
From Stdlib Require Import Ascii.

Local Open Scope Z_scope.

Definition MAX_SIMULATION_ERROR_LEN : nat := 256.

(** ** Words *)

(** [s.split_whitespace()], [cur] being the word read so far. *)
Fixpoint split_ws (cur l : list Z) : list (list Z) :=
  match l with
  | [] => match cur with [] => [] | _ => [cur] end
  | c :: l' =>
      if is_whitespace c
      then match cur with [] => split_ws [] l' | _ => cur :: split_ws [] l' end
      else split_ws (cur ++ [c]) l'
  end.

Definition split_whitespace (l : list Z) : list (list Z) := split_ws [] l.

(** [words.join(" ")]. *)
Fixpoint join_sp (ws : list (list Z)) : list Z :=
  match ws with
  | [] => []
  | [w] => w
  | w :: ws' => w ++ 32 :: join_sp ws'
  end.

(** ** Contract error codes *)

(** [parse_contract_error_code]. *)
Definition parse_contract_error_code (error_text : string) : option Z :=
  after ← after_first "Error(Contract" error_text;
  let after := drop_while (λ c, is_whitespace c || (c =? 44)) (chars after) in
  match after with
  | c :: after => if c =? 35 then parse_uint 32 (of_chars (take_while is_ascii_digit after)) else None
  | [] => None
  end.

(** ** Redaction *)

(** [stellar_strkey::Strkey::from_string(..).is_ok()]: strkeys are written in the
    base-32 alphabet [A-Z2-7]. *)
Definition base32_char (c : Z) : bool := is_ascii_uppercase c || c_in 50 55 c.

Class StrkeyCheck := {
  strkey_ok : list Z → bool;
  strkey_alphabet w : strkey_ok w = true → w ≠ [] ∧ Forall (λ c, base32_char c = true) w
}.

Section redact.
Context `{StrkeyCheck}.

Definition is_strkey (tok : list Z) : bool := strkey_ok tok.

Definition is_public_identifier (tok : list Z) : bool :=
  if is_strkey tok then true
  else if (length tok =? 0)%nat || (64 <? length tok)%nat then false
  else match tok with
       | c :: chars => is_ascii_alphabetic c
                       && forallb (λ c, is_ascii_alphanumeric c || (c =? 95)) chars
       | [] => false
       end.

Definition looks_like_base64 (tok : list Z) : bool :=
  if existsb (λ c, (c =? 43) || (c =? 47) || (c =? 61)) tok then true
  else if (length tok <? 16)%nat then false
  else existsb is_ascii_uppercase tok && existsb is_ascii_lowercase tok && existsb is_ascii_digit tok.

Fixpoint starts_with_chars (p l : list Z) : bool :=
  match p, l with
  | [], _ => true
  | a :: p', b :: l' => (a =? b) && starts_with_chars p' l'
  | _ :: _, [] => false
  end.

Definition redact_word (tok : list Z) : list Z :=
  if starts_with_chars (chars "http://") tok || starts_with_chars (chars "https://") tok
  then chars "[redacted:url]"
  else if is_public_identifier tok then tok
  else if looks_like_base64 tok || (64 <? length tok)%nat then chars "[redacted:blob]"
  else tok.

Definition redact_internal_detail (s : list Z) : list Z :=
  join_sp (redact_word <$> split_whitespace s).

(** [sanitize_simulation_error]. *)
Definition sanitize_chars (raw : list Z) : list Z :=
  let cleaned := base.filter (λ c, is_control c = false) raw in
  let collapsed := join_sp (split_whitespace cleaned) in
  let redacted := redact_internal_detail collapsed in
  let trimmed := trim_chars redacted in
  if (length trimmed <=? MAX_SIMULATION_ERROR_LEN)%nat then trimmed
  else take (MAX_SIMULATION_ERROR_LEN - 1) trimmed ++ [8230].

Definition sanitize_simulation_error (raw : string) : string := of_chars (sanitize_chars (chars raw)).

End redact.

(** ** Lemmas: words *)

Definition is_word (w : list Z) : Prop := w ≠ [] ∧ Forall (λ c, is_whitespace c = false) w.

Lemma split_ws_words cur l : Forall (λ c, is_whitespace c = false) cur → Forall is_word (split_ws cur l).
Proof.
  revert cur. induction l as [|c l IH]; intros cur Hc; cbn [split_ws].
  - destruct cur; [constructor|]. constructor; [by split|constructor].
  - destruct (is_whitespace c) eqn:E.
    + destruct cur; [by apply IH|]. constructor; [done|by apply IH].
    + apply IH, Forall_app. split; [done|]. by constructor.
Qed.

Lemma split_ws_word cur w l : Forall (λ c, is_whitespace c = false) w →
  split_ws cur (w ++ l) = split_ws (cur ++ w) l.
Proof.
  revert cur. induction w as [|c w IH]; intros cur Hw; [by rewrite app_nil_r|].
  apply Forall_cons in Hw as [Hc Hw]. cbn [split_ws app]. rewrite Hc, IH by done. by rewrite <-app_assoc.
Qed.

Lemma split_join ws : Forall is_word ws → split_whitespace (join_sp ws) = ws.
Proof.
  unfold split_whitespace. induction ws as [|w [|w' ws] IH]; intros Hf; [done| |];
    apply Forall_cons in Hf as [[Hne Hw] Hf].
  - cbn [join_sp]. rewrite <-(app_nil_r w) at 1. rewrite split_ws_word by done. by destruct w.
  - cbn [join_sp]. rewrite split_ws_word by done. cbn [app split_ws].
    change (is_whitespace 32) with true. destruct w; [done|]. f_equal. by apply IH.
Qed.

Lemma split_ws_Forall (P : Z → Prop) cur l :
  Forall P cur → Forall P l → Forall (Forall P) (split_ws cur l).
Proof.
  revert cur. induction l as [|c l IH]; intros cur Hc Hl; cbn [split_ws].
  - destruct cur; [constructor|]. by constructor.
  - apply Forall_cons in Hl as [Hc' Hl]. destruct (is_whitespace c).
    + destruct cur; [by apply IH|]. constructor; [done|by apply IH].
    + apply IH; [|done]. apply Forall_app. split; [done|]. by constructor.
Qed.

Lemma join_Forall (P : Z → Prop) ws : P 32 → Forall (Forall P) ws → Forall P (join_sp ws).
Proof.
  intros Hsp. induction ws as [|w [|w' ws] IH]; intros Hf; [constructor| |];
    apply Forall_cons in Hf as [Hw Hf]; [done|].
  cbn [join_sp]. apply Forall_app. split; [done|]. constructor; [done|by apply IH].
Qed.

Lemma join_first ws w : Forall is_word (w :: ws) →
  ∃ c l, join_sp (w :: ws) = c :: l ∧ is_whitespace c = false.
Proof.
  intros Hf. apply Forall_cons in Hf as [[Hne Hw] _]. destruct w as [|c w]; [done|].
  apply Forall_cons in Hw as [Hc _]. destruct ws; cbn; eauto.
Qed.

Lemma join_last ws : Forall is_word ws → ws ≠ [] →
  ∃ c l, rev (join_sp ws) = c :: l ∧ is_whitespace c = false.
Proof.
  induction ws as [|w [|w' ws] IH]; intros Hf Hne; [done| |]; apply Forall_cons in Hf as [[Hw Hws] Hf].
  - cbn [join_sp]. destruct w as [|c w _] using rev_ind; [done|]. rewrite rev_app_distr.
    apply Forall_app in Hws as [_ Hc]. apply Forall_cons in Hc as [Hc _]. cbn. eauto.
  - destruct IH as (c & l & Hr & Hc); [done|done|]. exists c, (l ++ 32 :: rev w). split; [|done].
    cbn [join_sp] in Hr |- *. rewrite rev_app_distr. cbn [rev]. rewrite Hr. cbn. by rewrite <-app_assoc.
Qed.

(** Words joined by single spaces have nothing to trim. *)
Lemma trim_join ws : Forall is_word ws → trim_chars (join_sp ws) = join_sp ws.
Proof.
  intros Hf. destruct ws as [|w ws]; [done|].
  destruct (join_first ws w Hf) as (c & l & Hj & Hc).
  destruct (join_last (w :: ws) Hf ltac:(done)) as (c' & l' & Hr & Hc').
  unfold trim_chars, trim_end_chars. rewrite Hj in *. cbn [drop_while]. rewrite Hc, Hr.
  cbn [drop_while]. rewrite Hc', <-Hr. apply rev_involutive.
Qed.

(** ** Lemmas: redaction *)

(** What may reach a client: printable, and none of [+], [/] and [=]. *)
Definition clean_char (c : Z) : bool :=
  negb (is_control c) && negb ((c =? 43) || (c =? 47) || (c =? 61)).

Definition printable (c : Z) : Prop := is_control c = false.
Definition clean (c : Z) : Prop := clean_char c = true.

Ltac char_cases :=
  unfold clean, clean_char, base32_char, is_control, is_whitespace, is_ascii_alphanumeric, is_ascii_alphabetic,
    is_ascii_uppercase, is_ascii_lowercase, is_ascii_digit, c_in in *;
  repeat rewrite ?andb_true_iff, ?orb_true_iff, ?negb_true_iff, ?orb_false_iff, ?andb_false_iff, ?Z.leb_le,
    ?Z.leb_gt, ?Z.eqb_eq, ?Z.eqb_neq in *; lia.

Lemma base32_clean c : base32_char c = true → clean c ∧ is_whitespace c = false.
Proof. intros. split; char_cases. Qed.

Lemma identifier_clean c : is_ascii_alphanumeric c || (c =? 95) = true → clean c ∧ is_whitespace c = false.
Proof. intros. split; char_cases. Qed.

Section redaction.
Context `{StrkeyCheck}.

Lemma public_clean w : is_public_identifier w = true →
  w ≠ [] ∧ Forall (λ c, clean c ∧ is_whitespace c = false) w.
Proof.
  unfold is_public_identifier, is_strkey. destruct (strkey_ok w) eqn:E.
  - intros _. apply strkey_alphabet in E as [Hne Hw]. split; [done|].
    eapply Forall_impl; [exact Hw|]. apply base32_clean.
  - destruct w as [|c w]; [done|]. destruct (_ || _); [done|]. intros [Hc Hw]%andb_true_iff. split; [done|].
    constructor; [apply identifier_clean; by rewrite (proj2 (orb_true_iff _ _)) by (left; unfold is_ascii_alphanumeric; by rewrite Hc)|].
    apply Forall_forall. intros x Hx. apply identifier_clean.
    by apply (proj1 (forallb_forall _ _) Hw), list_elem_of_In.
Qed.

Lemma not_base64_clean w : looks_like_base64 w = false → Forall printable w → Forall clean w.
Proof.
  unfold looks_like_base64. destruct (existsb _ w) eqn:E; [done|]. intros _ Hp.
  apply Forall_forall. intros c Hc. rewrite Forall_forall in Hp. specialize (Hp c Hc). unfold printable in Hp.
  unfold clean, clean_char. rewrite Hp. cbn [negb andb].
  destruct ((c =? 43) || (c =? 47) || (c =? 61)) eqn:E'; [|done].
  by rewrite (proj2 (existsb_exists _ _)) in E by (exists c; split; [by apply list_elem_of_In|done]).
Qed.

Lemma redact_word_clean w : is_word w → Forall printable w →
  is_word (redact_word w) ∧ Forall clean (redact_word w).
Proof.
  intros Hw Hp. unfold redact_word. destruct (starts_with_chars _ w || starts_with_chars _ w).
  { split; [split; [done|]|]; by repeat constructor. }
  destruct (is_public_identifier w) eqn:Ep.
  { apply public_clean in Ep as [_ Hc]. split; [done|]. eapply Forall_impl; [exact Hc|]. by intros ? []. }
  destruct (looks_like_base64 w) eqn:Eb; cbn [orb].
  { split; [split; [done|]|]; by repeat constructor. }
  destruct (64 <? length w)%nat.
  { split; [split; [done|]|]; by repeat constructor. }
  split; [done|]. by apply not_base64_clean.
Qed.

(** A placeholder is not redacted again. *)
Definition placeholder (p : list Z) : Prop := p = chars "[redacted:url]" ∨ p = chars "[redacted:blob]".

Lemma placeholder_stable p : placeholder p → redact_word p = p.
Proof.
  intros Hp. assert (strkey_ok p = false) as Hk.
  { destruct (strkey_ok p) eqn:E; [|done]. apply strkey_alphabet in E as [_ Hf]. exfalso.
    destruct Hp as [-> | ->]; by apply Forall_cons in Hf as [Hc _]. }
  unfold redact_word, is_public_identifier, is_strkey. rewrite Hk. by destruct Hp as [-> | ->].
Qed.

Lemma redact_word_cases w : redact_word w = w ∨ placeholder (redact_word w).
Proof.
  unfold redact_word, placeholder. destruct (_ || _); [eauto|].
  destruct (is_public_identifier w); [eauto|]. destruct (_ || _); eauto.
Qed.

Lemma redact_word_idem w : redact_word (redact_word w) = redact_word w.
Proof. destruct (redact_word_cases w) as [H' | H']; [by rewrite !H'|by apply placeholder_stable]. Qed.

Lemma starts_with_chars_in p l c : starts_with_chars p l = true → c ∈ p → c ∈ l.
Proof.
  revert l. induction p as [|a p IH]; intros l Hs Hc; [by apply elem_of_nil in Hc|].
  destruct l as [|b l]; [done|]. cbn in Hs. apply andb_true_iff in Hs as [->%Z.eqb_eq Hs].
  apply elem_of_cons in Hc as [-> | Hc]; [left|right; by apply IH].
Qed.

Lemma redact_public w : is_public_identifier w = true → redact_word w = w.
Proof.
  intros Hp. unfold redact_word. rewrite Hp.
  apply public_clean in Hp as [_ Hc]. rewrite Forall_forall in Hc.
  assert (∀ p, 47 ∈ p → starts_with_chars p w = false) as Hno.
  { intros p H47. destruct (starts_with_chars p w) eqn:E; [|done].
    eapply starts_with_chars_in, Hc in E as [E _]; [|exact H47]. done. }
  rewrite !Hno; [done| |]; apply list_elem_of_In; vm_compute; tauto.
Qed.

Definition cleaned (raw : list Z) : list Z := base.filter (λ c, is_control c = false) raw.
Definition out_words (raw : list Z) : list (list Z) := redact_word <$> split_whitespace (cleaned raw).

Lemma cleaned_words raw : Forall is_word (split_whitespace (cleaned raw)).
Proof. by apply split_ws_words. Qed.

Lemma words_of (P : Z → Prop) raw :
  (∀ c, c ∈ raw → is_control c = false → P c) → Forall (Forall P) (split_whitespace (cleaned raw)).
Proof.
  intros HP. apply split_ws_Forall; [done|]. apply Forall_forall. intros c Hc.
  apply list_elem_of_filter in Hc as []. by apply HP.
Qed.

Lemma out_words_clean raw : Forall (λ w, is_word w ∧ Forall clean w) (out_words raw).
Proof.
  unfold out_words. apply Forall_fmap, Forall_forall. intros w Hw. cbn.
  pose proof (cleaned_words raw) as H1. pose proof (words_of printable raw (λ c _ Hc, Hc)) as H2.
  rewrite Forall_forall in H1, H2. apply redact_word_clean; auto.
Qed.

Lemma out_words_words raw : Forall is_word (out_words raw).
Proof. eapply Forall_impl; [apply out_words_clean|]. by intros ? []. Qed.

Lemma sanitize_chars_eq raw :
  sanitize_chars raw = if (length (join_sp (out_words raw)) <=? MAX_SIMULATION_ERROR_LEN)%nat
                       then join_sp (out_words raw)
                       else take 255 (join_sp (out_words raw)) ++ [8230].
Proof.
  unfold sanitize_chars, redact_internal_detail. fold (cleaned raw).
  rewrite split_join by apply cleaned_words. fold (out_words raw).
  by rewrite trim_join by apply out_words_words.
Qed.

Lemma sanitize_Forall (P : Z → Prop) raw :
  P 32 → P 8230 → Forall (Forall P) (out_words raw) → Forall P (sanitize_chars raw).
Proof.
  intros Hsp Hdots Hw. rewrite sanitize_chars_eq. destruct (_ <=? _)%nat; [by apply join_Forall|].
  apply Forall_app. split; [by apply Forall_take, join_Forall|by constructor].
Qed.

Lemma sanitize_clean raw : Forall clean (sanitize_chars raw).
Proof.
  apply sanitize_Forall; [done|done|]. eapply Forall_impl; [apply out_words_clean|]. by intros ? [].
Qed.

Lemma sanitize_scalar raw : Forall (λ c, is_scalar c = true) raw →
  Forall (λ c, is_scalar c = true) (sanitize_chars raw).
Proof.
  intros Hr. apply sanitize_Forall; [done|done|]. unfold out_words. apply Forall_fmap, Forall_forall.
  intros w Hw. cbn. destruct (redact_word_cases w) as [-> | [-> | ->]]; [|by repeat constructor..].
  rewrite Forall_forall in Hr. pose proof (words_of _ raw (λ c Hc _, Hr c Hc)) as Hs.
  rewrite Forall_forall in Hs. by apply Hs.
Qed.

Lemma sanitize_length raw : (length (sanitize_chars raw) ≤ MAX_SIMULATION_ERROR_LEN)%nat.
Proof.
  rewrite sanitize_chars_eq. destruct (Nat.leb_spec (length (join_sp (out_words raw))) MAX_SIMULATION_ERROR_LEN); [done|].
  rewrite length_app, length_take. unfold MAX_SIMULATION_ERROR_LEN. cbn [length]. lia.
Qed.

(** Below the bound nothing was cut. *)
Lemma sanitize_short raw : (length (sanitize_chars raw) < MAX_SIMULATION_ERROR_LEN)%nat →
  sanitize_chars raw = join_sp (out_words raw).
Proof.
  rewrite sanitize_chars_eq. destruct (Nat.leb_spec (length (join_sp (out_words raw))) MAX_SIMULATION_ERROR_LEN); [done|].
  unfold MAX_SIMULATION_ERROR_LEN in *. rewrite length_app, length_take. cbn [length]. lia.
Qed.

Lemma out_words_again raw : out_words (join_sp (out_words raw)) = out_words raw.
Proof.
  unfold out_words at 1, cleaned. rewrite filter_all.
  - rewrite split_join by apply out_words_words. unfold out_words. rewrite <-list_fmap_compose.
    apply list_fmap_ext. intros _ w _. apply redact_word_idem.
  - apply join_Forall; [done|]. eapply Forall_impl; [apply out_words_clean|]. intros w [_ Hw].
    eapply Forall_impl; [exact Hw|]. intros c Hc. unfold clean, clean_char in Hc.
    by apply andb_true_iff in Hc as [Hc%negb_true_iff _].
Qed.

Lemma sanitize_again raw : (length (sanitize_chars raw) < MAX_SIMULATION_ERROR_LEN)%nat →
  sanitize_chars (sanitize_chars raw) = sanitize_chars raw.
Proof.
  intros Hs. pose proof (sanitize_short raw Hs) as E. rewrite E in Hs. rewrite E, sanitize_chars_eq, out_words_again.
  by rewrite (proj2 (Nat.leb_le _ _)) by lia.
Qed.

(** Whatever the upstream error says, the message a client sees is at most
    256 characters, all printable, and holds no [+], [/] or [=] (so neither a
    URL nor padded base64); a message that was not cut keeps every strkey and
    identifier of the original as a word of its own, and sanitising it again
    changes nothing. *)
Theorem sanitize_simulation_error_safe raw :
  let out := chars (sanitize_simulation_error raw) in
  utf8_valid (sanitize_simulation_error raw) = true
  ∧ (length out ≤ MAX_SIMULATION_ERROR_LEN)%nat
  ∧ (∀ c, c ∈ out → is_control c = false ∧ c ≠ 43 ∧ c ≠ 47 ∧ c ≠ 61)
  ∧ ((length out < MAX_SIMULATION_ERROR_LEN)%nat →
      (∀ w, w ∈ split_whitespace (base.filter (λ c, is_control c = false) (chars raw)) →
            is_public_identifier w = true → w ∈ split_whitespace out)
      ∧ sanitize_simulation_error (sanitize_simulation_error raw) = sanitize_simulation_error raw).
Proof.
  pose proof (sanitize_scalar _ (chars_scalar raw)) as Hsc.
  cbn zeta. unfold sanitize_simulation_error. rewrite !chars_of_chars by done.
  split; [by apply of_chars_valid|]. split; [apply sanitize_length|]. split.
  - intros c Hc. pose proof (sanitize_clean (chars raw)) as Hcl. rewrite Forall_forall in Hcl.
    specialize (Hcl c Hc). split; [|split; [|split]]; char_cases.
  - intros Hs. split; [|by rewrite sanitize_again].
    intros w Hw Hp. rewrite sanitize_short, split_join by (done || apply out_words_words).
    unfold out_words. apply list_elem_of_fmap. exists w. split; [by rewrite redact_public|done].
Qed.

End redaction.

(** ** Error codes *)

Lemma take_while_app {A} (f : A → bool) l k :
  Forall (λ x, f x = true) l → match k with [] => True | x :: _ => f x = false end →
  take_while f (l ++ k) = l.
Proof.
  intros Hl Hk. induction Hl as [|x l Hx _ IH]; cbn [take_while app].
  - destruct k as [|x k]; cbn; [done|by rewrite Hk].
  - by rewrite Hx, IH.
Qed.

(** The number after the first [Error(Contract, #], when it is a [u32]. *)
Lemma parse_contract_error_code_found text n post :
  after_first "Error(Contract" text = Some (", #" +:+ show_u n +:+ post) →
  ascii_only post → match bytes post with [] => True | c :: _ => digit_val c = None end →
  0 ≤ n < 2 ^ 32 → parse_contract_error_code text = Some n.
Proof.
  intros Ht Hpost Hd Hn. unfold parse_contract_error_code. rewrite Ht. cbn [mbind option_bind].
  rewrite chars_ascii by (apply ascii_only_app; [by repeat constructor|]; apply ascii_only_app; [apply ascii_only_show_u; lia|done]).
  rewrite !bytes_app, !fmap_app. cbn [bytes String.list_ascii_of_string fmap list_fmap app].
  cbn [drop_while]. change (is_whitespace (byte_val ",") || (byte_val "," =? 44)) with true.
  change (is_whitespace (byte_val " ") || (byte_val " " =? 44)) with true.
  change (is_whitespace (byte_val "#") || (byte_val "#" =? 44)) with false. cbn iota.
  change (byte_val "#" =? 35) with true. cbn iota.
  rewrite take_while_app.
  - rewrite <-chars_ascii by (apply ascii_only_show_u; lia).
    rewrite of_chars_chars by (apply ascii_only_utf8, ascii_only_show_u; lia). by apply parse_uint_show.
  - apply Forall_fmap. eapply Forall_impl; [apply show_u_digits; lia|]. intros a Ha. cbn.
    unfold digit_val in Ha. unfold is_ascii_digit, c_in. destruct (_ && _) eqn:E in Ha; [|done].
    bool_facts. ztest. done.
  - destruct (bytes post) as [|c l]; [done|]. cbn. unfold digit_val in Hd. unfold is_ascii_digit, c_in.
    destruct (_ && _) eqn:E; [done|]. bool_facts. lia.
Qed.

(** ** A concrete strkey parser, and runs *)

Definition sample_strkey (w : list Z) : bool := (length w =? 56)%nat && forallb base32_char w.

Lemma sample_strkey_alphabet w :
  sample_strkey w = true → w ≠ [] ∧ Forall (λ c, base32_char c = true) w.
Proof.
  intros [Hl%Nat.eqb_eq Hw]%andb_true_iff. split; [by destruct w|].
  apply Forall_forall. intros c Hc. by apply (proj1 (forallb_forall _ _) Hw), list_elem_of_In.
Qed.

Definition sample_check : StrkeyCheck :=
  {| strkey_ok := sample_strkey; strkey_alphabet := sample_strkey_alphabet |}.

Example sanitize_url :
  sanitize_simulation_error (H := sample_check)
    "  call to https://rpc.internal:8000/soroban failed: InsufficientAllowance  "
  = "call to [redacted:url] failed: InsufficientAllowance".
Proof. vm_compute. reflexivity. Qed.

Example contract_error_7 :
  parse_contract_error_code "HostError: Error(Contract, #7) in call" = Some 7.
Proof. vm_compute. reflexivity. Qed.
