(* ===== verification/Crypto.v ===== *)
(** * Crypto: signing and verifying webhook deliveries

    [verify_webhook] ([lumenqraph-core/src/crypto.rs]), which a receiver runs,
    and the signature header [send] builds ([lumenqraph-webhooks/src/dispatcher.rs]).
    HMAC, SHA-256 and the [hex] crate are the parameters; [i64] subtraction
    panics or wraps with the build profile, and [None] is the panic. *)
From S2P Require Import Prelude Text Values Instances.
From Stdlib Require Import Ascii.
From Stdlib Require String.

Local Open Scope Z_scope.

(** A lower-case hexadecimal digit. *)
Definition hex_char (a : ascii) : bool :=
  let x := byte_val a in ((48 <=? x) && (x <=? 57)) || ((97 <=? x) && (x <=? 102)).

(** [hmac_sha256 key message] is [HmacSha256::new_from_slice(key)], the updates
    and [finalize()]; [None] is [InvalidLength].  [hex::encode] writes lower-case
    digits that [hex::decode] reads back. *)
Class CryptoLib := {
  hmac_sha256 : string → string → option (list ascii);
  sha256 : string → list ascii;
  hex_encode : list ascii → string;
  hex_decode : string → option (list ascii);
  hex_decode_encode b : hex_decode (hex_encode b) = Some b;
  hex_encode_chars b : Forall (λ a, hex_char a = true) (bytes (hex_encode b))
}.

Inductive VerifyError :=
  | MissingTimestamp | InvalidTimestamp | StaleTimestamp | MissingSignature | InvalidHex | Mismatch.

#[export] Instance VerifyError_eq_dec : EqDecision VerifyError.
Proof. solve_decision. Defined.

(** [a - b] and [x.abs()] on [i64], with overflow checks on or off. *)
Definition i64_sub (checks : bool) (a b : Z) : option Z :=
  if in_i 64 (a - b) then Some (a - b) else if checks then None else Some (as_signed 64 (a - b)).
Definition i64_abs (checks : bool) (a : Z) : option Z :=
  if in_i 64 (Z.abs a) then Some (Z.abs a) else if checks then None else Some a.

Section crypto.
Context `{CryptoLib}.

(** ** Verifying *)

(** One turn of the loop over [header.split(',')]. *)
Definition header_part (acc : option string * list string) (part : string)
    : option string * list string :=
  let part := trim part in
  match strip_prefix "t=" part with
  | Some value => (Some value, acc.2)
  | None => match strip_prefix "v1=" part with
            | Some value => (acc.1, acc.2 ++ [value])
            | None => acc
            end
  end.

Definition header_parts (header : string) : option string * list string :=
  fold_left header_part (split_on "," header) (None, []).

(** The loop over the candidate signatures. *)
Fixpoint check_signatures (expected : list ascii) (signatures : list string) (saw_candidate : bool)
    : result VerifyError () :=
  match signatures with
  | [] => if saw_candidate then Err Mismatch else Err MissingSignature
  | sig :: signatures =>
      match hex_decode sig with
      | None => Err InvalidHex
      | Some decoded => if decide (expected = decoded) then Ok tt
                        else check_signatures expected signatures true
      end
  end.

(** [now] and [tolerance_secs] are the clock and the tolerance in seconds. *)
Definition verify_webhook (checks : bool) (secret header body : string) (tolerance_secs now : Z)
    : option (result VerifyError ()) :=
  let '(timestamp, signatures) := header_parts header in
  match timestamp with
  | None => Some (Err MissingTimestamp)
  | Some timestamp =>
      match parse_int 64 timestamp with
      | None => Some (Err InvalidTimestamp)
      | Some ts =>
          if (length signatures =? 0)%nat then Some (Err MissingSignature)
          else
            d ← i64_sub checks now ts; age ← i64_abs checks d;
            Some (if tolerance_secs <? age then Err StaleTimestamp
                  else match hmac_sha256 secret (timestamp +:+ "." +:+ body) with
                       | None => Err Mismatch
                       | Some expected => check_signatures expected signatures false
                       end)
      end
  end.

Definition verify_bytes_equal (expected provided : list ascii) : bool :=
  bool_decide (expected = provided).

Definition verify_secret_equal (expected provided : string) : bool :=
  verify_bytes_equal (sha256 expected) (sha256 provided).

(** ** Signing *)

Definition sign_payload (secret signed_payload : string) : option string :=
  hex_encode <$> hmac_sha256 secret signed_payload.

(** The [X-Lumenqraph-Signature] header of [send]. *)
Definition signature_header (secret : string) (previous_secret : option string) (timestamp : Z)
    (body : string) : option string :=
  let signed_payload := show_i timestamp +:+ "." +:+ body in
  s ← sign_payload secret signed_payload;
  let header := "t=" +:+ show_i timestamp +:+ ",v1=" +:+ s in
  match previous_secret with
  | None => Some header
  | Some previous =>
      s' ← sign_payload previous signed_payload;
      Some (header +:+ ",v1=" +:+ s')
  end.

(** ** Lemmas: the header *)

(** The values of the parts of the header with a given prefix, in order. *)
Definition values_of (p header : string) : list string :=
  omap (λ part, strip_prefix p (trim part)) (split_on "," header).

Lemma prefixes_exclusive part v : strip_prefix "t=" part = Some v → strip_prefix "v1=" part = None.
Proof. by intros ->%strip_prefix_Some. Qed.

Lemma header_parts_values header :
  header_parts header = (last (values_of "t=" header), values_of "v1=" header).
Proof.
  unfold header_parts, values_of. generalize (split_on "," header). intros l.
  induction l as [|part l IH] using rev_ind; [done|].
  rewrite fold_left_app, !omap_app, IH. cbn [fold_left header_part fst snd].
  unfold header_part. cbn [omap list_omap fst snd].
  destruct (strip_prefix "t=" (trim part)) as [v|] eqn:E.
  - rewrite (prefixes_exclusive _ _ E), app_nil_r, last_snoc. done.
  - rewrite !app_nil_r. by destruct (strip_prefix "v1=" (trim part)); rewrite ?app_nil_r.
Qed.

Lemma check_signatures_Ok expected sigs saw : check_signatures expected sigs saw = Ok tt ↔
  ∃ pre sig post, sigs = pre ++ sig :: post ∧ hex_decode sig = Some expected
                  ∧ Forall (λ s, is_Some (hex_decode s)) pre.
Proof.
  revert saw. induction sigs as [|s sigs IH]; intros saw; cbn [check_signatures].
  - split; [by destruct saw|]. intros (pre & sig & post & Hs & _). by destruct pre.
  - destruct (hex_decode s) as [b|] eqn:E.
    + case_decide as Hb.
      * split; [|done]. intros _. exists [], s, sigs. subst b. auto.
      * rewrite IH. split.
        -- intros (pre & sig & post & -> & Hsig & Hpre). exists (s :: pre), sig, post.
           split; [done|]. split; [done|]. constructor; [by eexists|done].
        -- intros (pre & sig & post & Hs & Hsig & Hpre). destruct pre as [|s' pre]; [simplify_eq/=; congruence|].
           injection Hs as <- ->. apply Forall_cons in Hpre as [_ Hpre]. eauto 10.
    + split; [done|]. intros (pre & sig & post & Hs & Hsig & Hpre).
      destruct pre as [|s' pre]; [simplify_eq/=; congruence|]. injection Hs as <- ->.
      apply Forall_cons in Hpre as [[b Hb] _]. congruence.
Qed.

(** ** Lemmas: the clock *)

(** What passes the freshness check: an age within the tolerance, and, where
    overflow wraps, the one timestamp whose age is [i64::MIN]. *)
Definition fresh (checks : bool) (tol now ts : Z) : Prop :=
  Z.abs (now - ts) ≤ tol ∨ checks = false ∧ ts = now - 2 ^ 63.

Lemma freshness checks tol now ts :
  0 ≤ now < 2 ^ 62 → 0 ≤ tol < 2 ^ 62 → - 2 ^ 63 ≤ ts < 2 ^ 63 →
  (∃ age, (d ← i64_sub checks now ts; i64_abs checks d) = Some age ∧ (tol <? age) = false)
  ↔ fresh checks tol now ts.
Proof.
  intros Hn Ht Hts. unfold fresh, i64_sub, i64_abs.
  destruct (in_i 64 (now - ts)) eqn:E; cbn [mbind option_bind].
  - apply in_i_spec in E. destruct (in_i 64 (Z.abs (now - ts))) eqn:E2.
    + apply in_i_spec in E2. split.
      * intros (age & [= <-] & Ha%Z.ltb_ge). by left.
      * intros [Ha|[_ ->]]; [|lia]. eexists. split; [done|by apply Z.ltb_ge].
    + exfalso. assert (¬ (- 2 ^ (64 - 1) ≤ Z.abs (now - ts) < 2 ^ (64 - 1))) as Hno
        by (rewrite <-in_i_spec, E2; done). lia.
  - assert (¬ (- 2 ^ (64 - 1) ≤ now - ts < 2 ^ (64 - 1))) as Hno by (rewrite <-in_i_spec, E; done).
    destruct checks; cbn [mbind option_bind].
    { split; [by intros (? & ? & _)|]. intros [Ha|[? _]]; [lia|done]. }
    assert (as_signed 64 (now - ts) = now - ts - 2 ^ 64) as ->.
    { unfold as_signed, wrap. rewrite Z.mod_small by lia. by ztest. }
    destruct (in_i 64 (Z.abs (now - ts - 2 ^ 64))) eqn:E2.
    + apply in_i_spec in E2. split.
      * intros (age & [= <-] & Ha%Z.ltb_ge). lia.
      * intros [Ha|[_ ->]]; lia.
    + assert (¬ (- 2 ^ (64 - 1) ≤ Z.abs (now - ts - 2 ^ 64) < 2 ^ (64 - 1))) as Hno2
        by (rewrite <-in_i_spec, E2; done).
      split; [intros _; right; split; [done|lia]|].
      intros _. eexists. split; [done|]. apply Z.ltb_ge. lia.
Qed.

Lemma parse_int64_range s n : parse_int 64 s = Some n → - 2 ^ 63 ≤ n < 2 ^ 63.
Proof.
  unfold parse_int. intros Hp.
  assert (in_i 64 n = true) as Hi by (repeat case_match; simplify_eq; done).
  by apply in_i_spec in Hi.
Qed.

Lemma verify_accepts checks secret header body tol now t ts :
  0 ≤ now < 2 ^ 62 → 0 ≤ tol < 2 ^ 62 →
  last (values_of "t=" header) = Some t → parse_int 64 t = Some ts →
  verify_webhook checks secret header body tol now = Some (Ok tt) ↔
  fresh checks tol now ts
  ∧ ∃ mac, hmac_sha256 secret (t +:+ "." +:+ body) = Some mac
           ∧ check_signatures mac (values_of "v1=" header) false = Ok tt.
Proof.
  intros Hn Ht Hlast Ets. unfold verify_webhook. rewrite header_parts_values, Hlast, Ets.
  destruct (Nat.eqb_spec (length (values_of "v1=" header)) 0) as [H0|H0].
  { apply length_zero_iff_nil in H0. rewrite H0. split; [done|]. by intros [_ (? & _ & ?)]. }
  rewrite <-(freshness checks tol now ts Hn Ht (parse_int64_range t ts Ets)).
  destruct (i64_sub checks now ts) as [d|]; cbn [mbind option_bind];
    [|split; [done|by intros [(? & ? & _) _]]].
  destruct (i64_abs checks d) as [age|]; cbn [mbind option_bind];
    [|split; [done|by intros [(? & ? & _) _]]].
  destruct (tol <? age) eqn:Ea.
  - split; [done|]. intros [(? & [= <-] & ?) _]. congruence.
  - destruct (hmac_sha256 secret (t +:+ "." +:+ body)) as [mac|].
    + split; [intros [= Hc]; eauto 10|]. by intros [_ (? & [= <-] & ->)].
    + split; [done|]. by intros [_ (? & ? & _)].
Qed.

(** [verify_webhook] accepts a request exactly when the last [t=] of the
    header is a number whose age is within the tolerance (or, without overflow
    checks, the one whose age wraps to [i64::MIN]), and some [v1=] value is the
    HMAC of that timestamp text, a dot and the body under the secret, every
    value before it being valid hexadecimal. *)
Theorem verify_webhook_correct checks secret header body tol now :
  0 ≤ now < 2 ^ 62 → 0 ≤ tol < 2 ^ 62 →
  verify_webhook checks secret header body tol now = Some (Ok tt) ↔
  ∃ t ts mac pre sig post,
    last (values_of "t=" header) = Some t ∧ parse_int 64 t = Some ts ∧ fresh checks tol now ts
    ∧ hmac_sha256 secret (t +:+ "." +:+ body) = Some mac
    ∧ values_of "v1=" header = pre ++ sig :: post ∧ hex_decode sig = Some mac
    ∧ Forall (λ s, is_Some (hex_decode s)) pre.
Proof.
  intros Hn Ht. split.
  - intros Hv. destruct (last (values_of "t=" header)) as [t|] eqn:Hlast;
      [|unfold verify_webhook in Hv; by rewrite header_parts_values, Hlast in Hv].
    destruct (parse_int 64 t) as [ts|] eqn:Ets;
      [|unfold verify_webhook in Hv; by rewrite header_parts_values, Hlast, Ets in Hv].
    apply (verify_accepts _ _ _ _ _ _ _ _ Hn Ht Hlast Ets) in Hv. destruct Hv as (Hf & mac & Hm & Hc).
    apply check_signatures_Ok in Hc. destruct Hc as (pre & sig & post & ?). exists t, ts, mac, pre, sig, post. tauto.
  - intros (t & ts & mac & pre & sig & post & Hlast & Ets & Hf & Hm & Hrest).
    apply (verify_accepts _ _ _ _ _ _ _ _ Hn Ht Hlast Ets). split; [done|]. exists mac. split; [done|].
    apply check_signatures_Ok. by exists pre, sig, post.
Qed.

(** ** Lemmas: what [send] writes *)

Definition plain (s : string) : Prop :=
  Forall (λ a, byte_val a < 128 ∧ is_whitespace (byte_val a) = false ∧ a ≠ ","%char) (bytes s).

Lemma plain_app s t : plain s → plain t → plain (s +:+ t).
Proof. unfold plain. rewrite bytes_app. intros. by apply Forall_app. Qed.

Lemma plain_trim s : plain s → trim s = s.
Proof. intros Hs. apply trim_id; eapply Forall_impl; try exact Hs; by intros a (? & ? & ?). Qed.

Lemma plain_no_comma s : plain s → ","%char ∉ bytes s.
Proof. unfold plain. rewrite Forall_forall. intros Hs Hin. by destruct (Hs _ Hin) as (_ & _ & ?). Qed.

Lemma plain_hex b : plain (hex_encode b).
Proof.
  eapply Forall_impl; [apply hex_encode_chars|]. intros a Ha. unfold hex_char in Ha.
  assert (48 ≤ byte_val a ≤ 57 ∨ 97 ≤ byte_val a ≤ 102) as Hr by (bool_facts; lia).
  split; [lia|]. split; [unfold is_whitespace, c_in; ztest; done|]. intros ->. change (byte_val ",") with 44 in Hr. lia.
Qed.

Lemma plain_show_i n : plain (show_i n).
Proof.
  assert (∀ m, 0 ≤ m → plain (show_u m)) as Hu.
  { intros m Hm. eapply Forall_impl; [by apply show_u_digits|]. intros a Ha. unfold digit_val in Ha.
    destruct (_ && _) eqn:E in Ha; [|done].
    assert (48 ≤ byte_val a ≤ 57) as Hr by (bool_facts; lia).
    split; [lia|]. split; [unfold is_whitespace, c_in; ztest; done|]. intros ->. change (byte_val ",") with 44 in Hr. lia. }
  unfold show_i. destruct (Z.ltb_spec n 0); [|by apply Hu]. constructor; [done|]. apply Hu. lia.
Qed.

(** The values of a header made of plain comma-separated parts. *)
Lemma values_of_cons p a header : plain a →
  values_of p (a +:+ "," +:+ header) = option_list (strip_prefix p a) ++ values_of p header.
Proof.
  intros Ha. unfold values_of. change ("," +:+ header) with (String "," header).
  rewrite split_on_app by by apply plain_no_comma. cbn [omap list_omap]. rewrite plain_trim by done.
  by destruct (strip_prefix p a).
Qed.

Lemma values_of_one p a : plain a → values_of p a = option_list (strip_prefix p a).
Proof.
  intros Ha. unfold values_of. rewrite split_on_no_sep by by apply plain_no_comma. cbn [omap list_omap].
  rewrite plain_trim by done. by destruct (strip_prefix p a).
Qed.

(** C17: A receiver accepts the header [send] writes, with the secret that
    signed and, during a rotation, with the previous secret too, as long as the
    delivery reaches it within the tolerance. *)
Theorem signed_header_verifies checks secret previous ts body tol now header :
  0 ≤ now < 2 ^ 62 → 0 ≤ tol < 2 ^ 62 → - 2 ^ 63 ≤ ts < 2 ^ 63 → Z.abs (now - ts) ≤ tol →
  signature_header secret previous ts body = Some header →
  verify_webhook checks secret header body tol now = Some (Ok tt)
  ∧ ∀ p, previous = Some p → verify_webhook checks p header body tol now = Some (Ok tt).
Proof.
  intros Hn Ht Hts Hage. unfold signature_header, sign_payload.
  destruct (hmac_sha256 secret _) as [mac|] eqn:Em; [|done]. cbn [fmap option_fmap option_map mbind option_bind].
  assert (plain ("t=" +:+ show_i ts)) as Hpt by (apply plain_app; [by repeat constructor|apply plain_show_i]).
  assert (∀ b, plain ("v1=" +:+ hex_encode b)) as Hpv
    by (intros b; apply plain_app; [by repeat constructor|apply plain_hex]).
  assert (∀ key header mac, last (values_of "t=" header) = Some (show_i ts) →
    hmac_sha256 key (show_i ts +:+ "." +:+ body) = Some mac →
    check_signatures mac (values_of "v1=" header) false = Ok tt →
    verify_webhook checks key header body tol now = Some (Ok tt)) as Hok.
  { intros key hd m Hl Hm Hc. apply (verify_accepts _ _ _ _ _ _ (show_i ts) ts); [done..|by apply parse_int_show|].
    split; [by left|eauto]. }
  destruct previous as [p|]; [destruct (hmac_sha256 p _) as [mac'|] eqn:Em'; [|done]|];
    cbn [fmap option_fmap option_map mbind option_bind]; intros [= <-].
  - assert (∀ pr, values_of pr (("t=" +:+ show_i ts +:+ ",v1=" +:+ hex_encode mac) +:+ ",v1=" +:+ hex_encode mac')
        = option_list (strip_prefix pr ("t=" +:+ show_i ts)) ++ option_list (strip_prefix pr ("v1=" +:+ hex_encode mac))
          ++ option_list (strip_prefix pr ("v1=" +:+ hex_encode mac'))) as Hv.
    { intros pr. rewrite <-(values_of_one pr ("v1=" +:+ hex_encode mac')) by done.
      rewrite <-!values_of_cons by done. by rewrite !string_app_assoc. }
    split; [|intros ? [= <-]]; (eapply Hok; [by rewrite Hv|done|]); rewrite Hv; apply check_signatures_Ok.
    + exists [], (hex_encode mac), [hex_encode mac']. by rewrite hex_decode_encode.
    + exists [hex_encode mac], (hex_encode mac'), []. rewrite !hex_decode_encode.
      split; [done|]. split; [done|]. constructor; [by rewrite hex_decode_encode|done].
  - split; [|done]. assert (∀ pr, values_of pr ("t=" +:+ show_i ts +:+ ",v1=" +:+ hex_encode mac)
        = option_list (strip_prefix pr ("t=" +:+ show_i ts)) ++ option_list (strip_prefix pr ("v1=" +:+ hex_encode mac))) as Hv.
    { intros pr. rewrite <-(values_of_one pr ("v1=" +:+ hex_encode mac)) by done.
      rewrite <-values_of_cons by done. by rewrite !string_app_assoc. }
    eapply Hok; [by rewrite Hv|done|]. rewrite Hv. apply check_signatures_Ok.
    exists [], (hex_encode mac), []. by rewrite hex_decode_encode.
Qed.

(** With overflow checks on, a header anyone can write stops the verifier
    before any secret is used. *)
Lemma verify_webhook_panics secret body tol now : 0 < now →
  verify_webhook true secret "t=-9223372036854775808,v1=00" body tol now = None.
Proof.
  intros Hn. assert (in_i 64 (now - - 2 ^ 63) = false) as Hno.
  { destruct (in_i 64 (now - - 2 ^ 63)) eqn:E; [|done]. apply in_i_spec in E. lia. }
  assert (i64_sub true now (- 2 ^ 63) = None) as Hs by (unfold i64_sub; by rewrite Hno).
  transitivity (d ← i64_sub true now (- 2 ^ 63); age ← i64_abs true d;
    Some (if tol <? age then Err StaleTimestamp
          else match hmac_sha256 secret ("-9223372036854775808." +:+ body) with
               | None => Err Mismatch
               | Some expected => check_signatures expected ["00"] false
               end)); [reflexivity|by rewrite Hs].
Qed.

End crypto.

(** ** A concrete library, and witnesses *)

Definition sample_hmac (key message : string) : option (list ascii) := Some (bytes (key +:+ message)).

Lemma sample_hex_chars l : Forall (λ a, hex_char a = true) (bytes (hex_string l)).
Proof.
  unfold hex_string. rewrite bytes_of_bytes. apply Forall_bind, Forall_true. intros a.
  pose proof (byte_val_range a).
  assert (∀ d, 0 ≤ d < 16 → hex_char (hex_digit d) = true) as Hd.
  { intros d Hd. unfold hex_digit, hex_char. destruct (Z.ltb_spec d 10); rewrite byte_val_of by lia; lia. }
  repeat constructor; apply Hd; zdiv.
Qed.

#[local] Instance sample_crypto : CryptoLib := {|
  hmac_sha256 := sample_hmac;
  sha256 := bytes;
  hex_encode := hex_string;
  hex_decode s := unhex (bytes s);
  hex_decode_encode := unhex_hex_string;
  hex_encode_chars := sample_hex_chars
|}.

Lemma verify_webhook_correct_witness :
  verify_webhook true "k" "t=100, v1=00 ,v1=6b3130302e62" "b" 5 103 = Some (Ok tt).
Proof.
  apply (verify_webhook_correct true "k" "t=100, v1=00 ,v1=6b3130302e62" "b" 5 103); [lia|lia|].
  exists "100", 100, (bytes "k100.b"), ["00"], "6b3130302e62", [].
  split; [reflexivity|]. split; [reflexivity|]. split; [left; cbn; lia|]. split; [reflexivity|].
  split; [reflexivity|]. split; [reflexivity|]. constructor; [by eexists|constructor].
Defined.

Lemma signed_header_verifies_witness :
  verify_webhook false "old" "t=100,v1=6e65773130302e62,v1=6f6c643130302e62" "b" 5 103 = Some (Ok tt).
Proof.
  apply (signed_header_verifies false "new" (Some "old") 100 "b" 5 103); [lia|lia|lia|cbn; lia|reflexivity|reflexivity].
Defined.
