(* ===== verification/CallCache.v ===== *)
(** * CallCache: the cache of view-call results ([lumenqraph-api/src/call_cache.rs])

    [CallCache] keeps the results of [POST /contracts/:id/call] for [ttl]
    nanoseconds, keyed by the contract, the function, a canonical text of the
    arguments, the source account and the WASM hash.  The [lru] crate and
    [serde_json]'s printer are the interfaces [LruCache] and [SerdeJson]; the
    clock ([Instant]) is an argument.  Each operation runs under the cache's
    lock.  The abstract specification is [memo]: a partial map from calls to
    the last result stored for them, which may forget at any time. *)
From S2P Require Import Prelude Text Containers Values Lru Serde.
From Stdlib Require Import Ascii.
From Stdlib Require String.

Local Open Scope Z_scope.

(** ** Keys *)

Record CallScope := { source_account : option string; wasm_hash : string }.

Record Key := {
  key_contract_id : string;
  key_function : string;
  key_args : string;
  key_source_account : option string;
  key_wasm_hash : string;
}.

#[export] Instance Key_eq_dec : EqDecision Key.
Proof. solve_decision. Defined.

(** [format!("\"{}\":{}", k, text)]: the key is not escaped. *)
Definition pair_text (p : string * string) : string :=
  String dquote (p.1 +:+ String dquote (":" +:+ p.2)).

Section with_serde.
Context `{SerdeJson}.

(** [sort_by_key] looks at the keys only, so the values are normalised before
    the sort (the recursion is then structural). *)
Fixpoint normalize_json (value : Json) : string :=
  match value with
  | JObj map =>
      let sorted := sort_by (λ p q, tcmp p.1 q.1) ((λ p, (p.1, normalize_json p.2)) <$> map) in
      "{" +:+ join "," (pair_text <$> sorted) +:+ "}"
  | JArr arr => "[" +:+ join "," (normalize_json <$> arr) +:+ "]"
  | _ => serde_to_string value
  end.

Definition make_key (contract_id function : string) (args : Json) (scope : CallScope) : Key :=
  {| key_contract_id := contract_id; key_function := function; key_args := normalize_json args;
     key_source_account := source_account scope; key_wasm_hash := wasm_hash scope |}.

(** ** The cache *)

Context `{!LruCache Key (Json * Z)}.

Record CallCache := { inner : lru; ttl : Z; hits : Z; misses : Z; evictions : Z }.

(** [CallCache::new(max_entries, ttl_secs)]. *)
Definition new (max_entries : nat) (ttl_secs : Z) : CallCache :=
  {| inner := lru_new (max max_entries 1); ttl := ttl_secs * 10 ^ 9;
     hits := 0; misses := 0; evictions := 0 |}.

(** [inserted_at.elapsed()] saturates at zero. *)
Definition elapsed (now inserted_at : Z) : Z := Z.max 0 (now - inserted_at).

Definition with_inner (i : lru) (c : CallCache) : CallCache :=
  {| inner := i; ttl := ttl c; hits := hits c; misses := misses c; evictions := evictions c |}.
Definition count_hit (c : CallCache) : CallCache :=
  {| inner := inner c; ttl := ttl c; hits := wrap 64 (hits c + 1); misses := misses c;
     evictions := evictions c |}.
Definition count_miss (c : CallCache) : CallCache :=
  {| inner := inner c; ttl := ttl c; hits := hits c; misses := wrap 64 (misses c + 1);
     evictions := evictions c |}.

Definition get (contract_id function : string) (args : Json) (scope : CallScope) (now : Z)
    (c : CallCache) : option Json * CallCache :=
  if ttl c =? 0 then (None, c)
  else
    let key := make_key contract_id function args scope in
    let '(found, cache) := lru_get key (inner c) in
    match found with
    | Some (value, inserted_at) =>
        if elapsed now inserted_at <? ttl c
        then (Some value, count_hit (with_inner cache c))
        else (None, count_miss (with_inner (lru_pop key cache).2 c))
    | None => (None, count_miss (with_inner cache c))
    end.

Definition insert (contract_id function : string) (args : Json) (scope : CallScope) (result : Json)
    (now : Z) (c : CallCache) : CallCache :=
  if ttl c =? 0 then c
  else
    let key := make_key contract_id function args scope in
    let '(evicted, cache) := lru_put key (result, now) (inner c) in
    {| inner := cache; ttl := ttl c; hits := hits c; misses := misses c;
       evictions := match evicted with Some _ => wrap 64 (evictions c + 1) | None => evictions c end |}.

Definition invalidate_contract (contract_id : string) (c : CallCache) : CallCache :=
  let stale := (filter (λ p, key_contract_id p.1 = contract_id) (lru_entries (inner c))).*1 in
  with_inner (foldl (λ cache key, (lru_pop key cache).2) (inner c) stale) c.

Definition cache_size (c : CallCache) : nat := lru_len (inner c).

(** ** Histories of operations *)

Inductive CallOp : Type :=
  | OpGet (contract_id function : string) (args : Json) (scope : CallScope)
  | OpInsert (contract_id function : string) (args : Json) (scope : CallScope) (result : Json)
  | OpInvalidate (contract_id : string).

(** An operation at a time; only [get] answers. *)
Definition call_step (c : CallCache) (op : Z * CallOp) : option Json * CallCache :=
  match op with
  | (now, OpGet id f args scope) => get id f args scope now c
  | (now, OpInsert id f args scope r) => (None, insert id f args scope r now c)
  | (now, OpInvalidate id) => (None, invalidate_contract id c)
  end.

Fixpoint call_run (c : CallCache) (ops : list (Z * CallOp)) : list (option Json) * CallCache :=
  match ops with
  | [] => ([], c)
  | op :: ops =>
      let '(ans, c1) := call_step c op in
      let '(rest, c2) := call_run c1 ops in (ans :: rest, c2)
  end.

(** ** The specification: a memo that may forget *)

Definition memo := Key → option (Json * Z).

Definition memo_after (T : Z) (m : memo) (op : Z * CallOp) : memo :=
  match op with
  | (now, OpGet _ _ _ _) => m
  | (now, OpInsert id f args scope r) =>
      if T =? 0 then m
      else λ k, if decide (k = make_key id f args scope) then Some (r, now) else m k
  | (now, OpInvalidate id) => λ k, if decide (key_contract_id k = id) then None else m k
  end.

(** A [get] may answer the live entry of its key; any operation may answer nothing. *)
Inductive memo_answer (T : Z) (m : memo) : Z * CallOp → option Json → Prop :=
  | answer_none op : memo_answer T m op None
  | answer_hit now id f args scope v at_ :
      T ≠ 0 → m (make_key id f args scope) = Some (v, at_) → elapsed now at_ < T →
      memo_answer T m (now, OpGet id f args scope) (Some v).

Inductive memo_run (T : Z) : memo → list (Z * CallOp) → list (option Json) → Prop :=
  | memo_done m : memo_run T m [] []
  | memo_next m op ops ans rest :
      memo_answer T m op ans → memo_run T (memo_after T m op) ops rest →
      memo_run T m (op :: ops) (ans :: rest).
End with_serde.

(** ** Lemmas: the canonical text *)

(** Values the canonical text tells apart: no key holds a quote, no object has
    a key twice, float texts are float texts. *)
Fixpoint key_safe (v : Json) : bool :=
  match v with
  | JArr l => forallb key_safe l
  | JObj m => bool_decide (NoDup m.*1)
              && forallb (λ p, bool_decide (dquote ∉ bytes p.1) && key_safe p.2) m
  | _ => scalar_ok v
  end.

(** Equal up to the order of object entries. *)
Inductive json_eqv : Json → Json → Prop :=
  | eqv_scalar v : is_scalar_json v = true → json_eqv v v
  | eqv_arr l k : Forall2 json_eqv l k → json_eqv (JArr l) (JArr k)
  | eqv_obj m n m' n' : m ≡ₚ m' → n ≡ₚ n' →
      Forall2 (λ p q, p.1 = q.1 ∧ json_eqv p.2 q.2) m' n' → json_eqv (JObj m) (JObj n).

Lemma sort_by_fmap {A B} (f : B → B → comparison) (g : A → B) l :
  sort_by f (g <$> l) = g <$> sort_by (λ x y, f (g x) (g y)) l.
Proof.
  induction l as [|x l IH]; [done|]. cbn [fmap list_fmap].
  change (sort_by f (g x :: (g <$> l))) with (insert_by f (g x) (sort_by f (g <$> l))). rewrite IH.
  change (sort_by ?h (x :: l)) with (insert_by h x (sort_by h l)).
  clear IH. generalize (sort_by (λ x y, f (g x) (g y)) l) as k.
  induction k as [|y k IHk]; [done|]. cbn [fmap list_fmap insert_by].
  destruct (f (g x) (g y)); cbn [fmap list_fmap]; try done. f_equal. apply IHk.
Qed.

Lemma sort_by_perm_eq {A K} `{TotalOrder K} (g : A → K) l m :
  NoDup (g <$> l) → l ≡ₚ m → sort_by (λ x y, tcmp (g x) (g y)) l = sort_by (λ x y, tcmp (g x) (g y)) m.
Proof.
  intros Hnd Hperm. apply (StronglySorted_unique_strong (key_le g)).
  - intros x y Hx Hy Hxy Hyx. rewrite sort_by_perm in Hx, Hy. rewrite <- Hperm in Hy.
    assert (g x = g y) as Hg.
    { unfold key_le in *. rewrite (tcmp_antisym (g x) (g y)) in Hyx.
      apply tcmp_eq. destruct (tcmp (g x) (g y)); done. }
    apply list_elem_of_lookup in Hx as [i Hi], Hy as [j Hj].
    assert (i = j) as ->; [|congruence].
    apply (NoDup_lookup (g <$> l) i j (g x) Hnd); rewrite list_lookup_fmap.
    + by rewrite Hi.
    + rewrite Hj, Hg. done.
  - apply sort_by_sorted.
  - apply sort_by_sorted.
  - by rewrite !sort_by_perm.
Qed.

(** Joined items can be told apart when each can, up to a delimiter. *)
Section joined.
Context {A B : Type} (f : A → string) (g : B → string) (R : A → B → Prop) (close : ascii).
Context (close_end : close ∈ ["]"; "}"]%char).

Definition starts_item (s : string) : Prop :=
  ∃ a t, s = String a t ∧ a ∉ ["]"; "}"; ","]%char.

(** What follows the first item. *)
Definition rest_text (zs : list string) (u : string) : string :=
  match zs with
  | [] => String close u
  | _ => String "," (join "," zs +:+ String close u)
  end.

Lemma join_cons z zs u : join "," (z :: zs) +:+ String close u = z +:+ rest_text zs u.
Proof. destruct zs; [done|]. cbn [join rest_text]. by rewrite string_app_assoc. Qed.

Lemma rest_text_end zs u : json_end (rest_text zs u) = true.
Proof. destruct zs; cbn; apply bool_decide_eq_true; set_solver. Qed.

Lemma no_items_left zs z u s : starts_item z →
  String close u = join "," (z :: zs) +:+ String close s → False.
Proof.
  intros (a & t & -> & Ha). rewrite join_cons. intros [= -> _]. set_solver.
Qed.

Lemma rest_text_inj l k r s :
  rest_text (f <$> l) r = rest_text (g <$> k) s →
  (l = [] ∧ k = [] ∧ r = s) ∨
  (l ≠ [] ∧ k ≠ [] ∧ join "," (f <$> l) +:+ String close r = join "," (g <$> k) +:+ String close s).
Proof.
  assert (close ≠ ","%char) as Hc by (intros ->; set_solver).
  destruct l as [|x l], k as [|y k]; cbn [fmap list_fmap rest_text]; intros Heq.
  - left. by injection Heq.
  - injection Heq. congruence.
  - injection Heq. congruence.
  - right. split; [done|]. split; [done|]. by injection Heq.
Qed.

Lemma join_prefix l k r s :
  Forall (λ x, starts_item (f x)) l → Forall (λ y, starts_item (g y)) k →
  (∀ x y r s, x ∈ l → y ∈ k → json_end r = true → json_end s = true →
     f x +:+ r = g y +:+ s → R x y ∧ r = s) →
  join "," (f <$> l) +:+ String close r = join "," (g <$> k) +:+ String close s →
  Forall2 R l k ∧ r = s.
Proof.
  intros Hl. revert k. induction Hl as [|x l Hx Hl IH]; intros k Hk Hitem Heq.
  - destruct Hk as [|y k Hy Hk]; [by injection Heq as ->|].
    exfalso. cbn [fmap list_fmap join] in Heq. eapply no_items_left; [|exact Heq]. done.
  - destruct Hk as [|y k Hy Hk].
    { exfalso. cbn [fmap list_fmap join] in Heq. symmetry in Heq.
      eapply (no_items_left _ (f x)); [done|exact Heq]. }
    cbn [fmap list_fmap] in Heq. rewrite !join_cons in Heq.
    apply Hitem in Heq as [HR Heq]; [|by left|by left|apply rest_text_end..].
    apply rest_text_inj in Heq as [(-> & -> & ->)|(_ & _ & Heq)]; [split; [by repeat constructor|done]|].
    apply IH in Heq as [HRs ->]; [split; [by constructor|done]|done|].
    intros x' y' r' s' Hx' Hy'. apply Hitem; by right.
Qed.
End joined.

Section canonical.
Context `{SerdeJson}.

Definition entry_text (p : string * Json) : string := pair_text (p.1, normalize_json p.2).
Definition by_key (m : list (string * Json)) : list (string * Json) :=
  sort_by (λ p q, tcmp p.1 q.1) m.

Lemma normalize_obj m :
  normalize_json (JObj m) = String "{" (join "," (entry_text <$> by_key m) +:+ "}").
Proof.
  cbn [normalize_json]. rewrite (sort_by_fmap (λ p q : string * string, tcmp p.1 q.1)).
  by rewrite <- list_fmap_compose.
Qed.

Lemma normalize_scalar v : scalar_ok v = true → normalize_json v = serde_to_string v.
Proof. by destruct v. Qed.

Lemma key_safe_arr l v : key_safe (JArr l) = true → v ∈ l → key_safe v = true.
Proof. cbn [key_safe]. rewrite forallb_forall. intros Hl Hv%list_elem_of_In. auto. Qed.

Lemma key_safe_obj m : key_safe (JObj m) = true →
  NoDup m.*1 ∧ ∀ p, p ∈ m → dquote ∉ bytes p.1 ∧ key_safe p.2 = true.
Proof.
  cbn [key_safe]. intros [Hnd Hm]%andb_true_iff. apply bool_decide_eq_true in Hnd.
  split; [done|]. intros p Hp%list_elem_of_In. rewrite forallb_forall in Hm.
  apply Hm in Hp as [Hq Hs]%andb_true_iff. by apply bool_decide_eq_true in Hq.
Qed.

Lemma by_key_elem m p : p ∈ by_key m ↔ p ∈ m.
Proof. unfold by_key. by rewrite sort_by_perm. Qed.

Lemma normalize_head v : key_safe v = true → starts_item (normalize_json v).
Proof.
  intros Hv. destruct (is_scalar_json v) eqn:Hs.
  - assert (scalar_ok v = true) as Hok by by destruct v.
    rewrite normalize_scalar by done. destruct (scalar_head v Hok) as (a & t & -> & Ha).
    exists a, t. split; [done|]. set_solver.
  - destruct v as [| | | | |l|m]; try done.
    + eexists _, _. split; [reflexivity|]. by apply (bool_decide_unpack _).
    + rewrite normalize_obj. eexists _, _. split; [reflexivity|]. by apply (bool_decide_unpack _).
Qed.

Lemma entry_head p : starts_item (entry_text p).
Proof. eexists _, _. split; [reflexivity|]. by apply (bool_decide_unpack _). Qed.

Lemma head_not_scalar v c t r s : scalar_ok v = true → c ∈ ["["; "{"]%char →
  serde_to_string v +:+ r = String c t +:+ s → False.
Proof.
  intros Hv Hc. destruct (scalar_head v Hv) as (a & u & -> & Ha). intros [= -> _]. set_solver.
Qed.

Lemma quoted_prefix j j' x y : dquote ∉ bytes j → dquote ∉ bytes j' →
  j +:+ String dquote x = j' +:+ String dquote y → j = j' ∧ x = y.
Proof.
  intros Hj Hj' Heq. apply (f_equal (split_once dquote)) in Heq.
  rewrite !split_once_app in Heq by done. by injection Heq.
Qed.

Lemma entry_split j x j' y r s : dquote ∉ bytes j → dquote ∉ bytes j' →
  entry_text (j, x) +:+ r = entry_text (j', y) +:+ s →
  j = j' ∧ normalize_json x +:+ r = normalize_json y +:+ s.
Proof.
  intros Hj Hj' Heq. unfold entry_text, pair_text in Heq. cbn [fst snd] in Heq.
  cbn [String.append] in Heq. injection Heq as Heq. rewrite !string_app_assoc in Heq.
  apply quoted_prefix in Heq as [-> Heq]; [|done..]. cbn [String.append] in Heq. by injection Heq.
Qed.

(** Two texts with one a beginning of the other come from equal values. *)
Lemma normalize_prefix v w r s : key_safe v = true → key_safe w = true →
  json_end r = true → json_end s = true →
  normalize_json v +:+ r = normalize_json w +:+ s → json_eqv v w ∧ r = s.
Proof.
  remember (jdepth v) as n eqn:Hn. revert v w r s Hn.
  induction n as [n IH] using lt_wf_ind. intros v w r s -> Hv Hw Hr Hs.
  destruct (is_scalar_json v) eqn:Esv, (is_scalar_json w) eqn:Esw.
  - assert (scalar_ok v = true) as Hov by by destruct v.
    assert (scalar_ok w = true) as How by by destruct w.
    rewrite !normalize_scalar by done. intros [-> ->]%scalar_prefix; [|done..].
    split; [by constructor|done].
  - assert (scalar_ok v = true) as Hov by by destruct v. rewrite normalize_scalar by done.
    intros Heq. exfalso. destruct w; try done; [|rewrite normalize_obj in Heq];
      (eapply (head_not_scalar v); [done| |exact Heq]; set_solver).
  - assert (scalar_ok w = true) as How by by destruct w. rewrite (normalize_scalar w) by done.
    intros Heq. exfalso. symmetry in Heq. destruct v; try done; [|rewrite normalize_obj in Heq];
      (eapply (head_not_scalar w); [done| |exact Heq]; set_solver).
  - destruct v as [| | | | |l|m], w as [| | | | |k|m']; try done.
    + cbn [normalize_json]. intros Heq. cbn in Heq. injection Heq as Heq.
      rewrite !string_app_assoc in Heq.
      apply (join_prefix normalize_json normalize_json json_eqv "]"%char) in Heq as [Hall ->];
        [|set_solver| | |].
      * split; [by constructor|done].
      * apply Forall_forall. intros x Hx. apply normalize_head. exact (key_safe_arr _ _ Hv Hx).
      * apply Forall_forall. intros x Hx. apply normalize_head. exact (key_safe_arr _ _ Hw Hx).
      * intros x y r' s' Hx Hy. apply (IH (jdepth x));
          [by apply jdepth_arr_elem|done|exact (key_safe_arr _ _ Hv Hx)|exact (key_safe_arr _ _ Hw Hy)].
    + rewrite !normalize_obj. intros Heq. cbn [String.append] in Heq. injection Heq as Heq.
      rewrite !string_app_assoc in Heq.
      apply (join_prefix entry_text entry_text (λ p q, p.1 = q.1 ∧ json_eqv p.2 q.2) "}"%char)
        in Heq as [Hall ->]; [|set_solver| | |].
      * split; [|done]. eapply eqv_obj; [| |exact Hall]; unfold by_key; by rewrite sort_by_perm.
      * apply Forall_forall. intros x _. apply entry_head.
      * apply Forall_forall. intros x _. apply entry_head.
      * apply key_safe_obj in Hv as [_ Hv], Hw as [_ Hw].
        intros [j x] [j' y] r' s' Hx Hy Hr' Hs' Hxy. rewrite by_key_elem in Hx, Hy.
        destruct (Hv _ Hx) as [Hj Hsx], (Hw _ Hy) as [Hj' Hsy].
        apply entry_split in Hxy as [-> Hxy]; [|done..].
        apply (IH (jdepth x)) in Hxy as [? ->]; [done|exact (jdepth_obj_elem _ _ _ Hx)|done..].
Qed.
End canonical.

Section with_serde_cache.
Context `{SerdeJson} `{!LruCache Key (Json * Z)}.
Implicit Types c : CallCache.

Lemma fmap_eq_Forall2 {A B C} (R : A → B → Prop) (f : A → C) (g : B → C) l k :
  Forall2 R l k → (∀ x y, x ∈ l → y ∈ k → R x y → f x = g y) → f <$> l = g <$> k.
Proof.
  induction 1 as [|x y l k Hxy Hlk IH]; intros Heq; [done|]. cbn [fmap list_fmap].
  rewrite (Heq x y) by (done || by left). f_equal. apply IH. intros. apply Heq; try done; by right.
Qed.

(** The canonical text identifies values exactly up to the order of object
    entries, as long as no object key holds a quote. *)
Theorem normalize_json_canonical v w : key_safe v = true → key_safe w = true →
  normalize_json v = normalize_json w ↔ json_eqv v w.
Proof.
  intros Hv Hw. split.
  - intros Heq. apply (normalize_prefix v w "" ""); by rewrite ?string_app_nil_r.
  - remember (jdepth v) as n eqn:Hn. revert v w Hn Hv Hw.
    induction n as [n IH] using lt_wf_ind. intros v w -> Hv Hw Heqv.
    inversion Heqv as [|l k Hall|m k m' k' Hm Hk Hall]; subst; [done|..].
    + cbn [normalize_json]. do 3 f_equal. apply (fmap_eq_Forall2 _ _ _ _ _ Hall). intros x y Hx Hy Hxy.
      apply (IH (jdepth x)); [by apply jdepth_arr_elem|done|exact (key_safe_arr _ _ Hv Hx)
        |exact (key_safe_arr _ _ Hw Hy)|done].
    + apply key_safe_obj in Hv as [Hnd Hv], Hw as [_ Hw]. cbn [normalize_json]. do 4 f_equal.
      apply (sort_by_perm_eq fst); [by rewrite <- list_fmap_compose|]. rewrite Hm, Hk.
      erewrite (fmap_eq_Forall2 _ _ _ _ _ Hall); [done|]. intros [j x] [j' y] Hx Hy [Hj Hxy].
      cbn [fst snd] in *. subst. f_equal. rewrite <- Hm in Hx. rewrite <- Hk in Hy.
      apply (IH (jdepth x)); [exact (jdepth_obj_elem _ _ _ Hx)|done|exact (proj2 (Hv _ Hx))
        |exact (proj2 (Hw _ Hy))|done].
Qed.

(** ** Lemmas: the cache under its operations *)

Lemma view_pops ks (i : lru) k :
  lru_view (foldl (λ cache key, (lru_pop key cache).2) i ks) k
  = if decide (k ∈ ks) then None else lru_view i k.
Proof.
  revert i. induction ks as [|j ks IH]; intros i; cbn [foldl].
  - by rewrite decide_False by apply not_elem_of_nil.
  - rewrite IH, view_pop. repeat case_decide; set_solver.
Qed.

Lemma view_invalidate id c k :
  lru_view (inner (invalidate_contract id c)) k
  = if decide (key_contract_id k = id) then None else lru_view (inner c) k.
Proof.
  unfold invalidate_contract. cbn [with_inner inner]. rewrite view_pops.
  destruct (decide (k ∈ _)) as [Hin|Hc], (decide (key_contract_id k = id)) as [|Hid]; try done.
  - exfalso. apply Hid. apply list_elem_of_fmap in Hin as ([k' e] & -> & Hin).
    by apply list_elem_of_filter in Hin as [? _].
  - destruct (lru_view (inner c) k) as [x|] eqn:Ev; [|done]. exfalso. apply Hc.
    apply list_elem_of_fmap. exists (k, x). split; [done|]. apply list_elem_of_filter.
    split; [done|]. by apply assoc_Some_elem.
Qed.

(** Every cached entry is the memo's. *)
Definition remembers (T : Z) (c : CallCache) (m : memo) : Prop :=
  ttl c = T ∧ ∀ k e, lru_view (inner c) k = Some e → m k = Some e.

Lemma get_step id f args scope now c m :
  remembers (ttl c) c m →
  memo_answer (ttl c) m (now, OpGet id f args scope) (get id f args scope now c).1
  ∧ remembers (ttl c) (get id f args scope now c).2 m.
Proof.
  intros [_ Hm]. unfold get. destruct (Z.eqb_spec (ttl c) 0) as [Ht|Ht]; [split; [constructor|done]|].
  set (key := make_key id f args scope). destruct (lru_get key (inner c)) as [found cache] eqn:Eg.
  pose proof (get_result key (inner c)) as Hres. pose proof (view_get key (inner c)) as Hview.
  rewrite Eg in Hres, Hview. cbn [fst snd] in Hres, Hview.
  destruct found as [[v at_]|]; [|split; [constructor|]; split; [done|]; cbn; intros k e; rewrite Hview; auto].
  symmetry in Hres. change (assoc key (lru_entries (inner c))) with (lru_view (inner c) key) in Hres.
  destruct (Z.ltb_spec (elapsed now at_) (ttl c)).
  - split; [econstructor; eauto|]. split; [done|]. cbn. intros k e. rewrite Hview. auto.
  - split; [constructor|]. split; [done|]. cbn. intros k e. rewrite view_pop.
    case_decide; [done|]. rewrite Hview. auto.
Qed.

Lemma call_step_refines c m op : remembers (ttl c) c m →
  memo_answer (ttl c) m op (call_step c op).1 ∧ remembers (ttl c) (call_step c op).2 (memo_after (ttl c) m op).
Proof.
  intros HR. destruct op as [now [id f args scope|id f args scope r|id]]; cbn [call_step memo_after].
  - by apply get_step.
  - destruct HR as [_ Hm]. cbn [fst snd]. split; [constructor|]. unfold insert.
    destruct (Z.eqb_spec (ttl c) 0) as [Ht|Ht]; [done|].
    destruct (lru_put _ _ (inner c)) as [ev cache] eqn:Ep. split; [done|]. cbn [inner]. intros k e Hk.
    assert (cache = (lru_put (make_key id f args scope) (r, now) (inner c)).2) as -> by by rewrite Ep.
    apply view_put_Some in Hk as [[-> ->]|[Hne Hk]]; [by rewrite decide_True|].
    rewrite decide_False by done. auto.
  - cbn [fst snd]. split; [constructor|]. destruct HR as [_ Hm]. split; [done|].
    intros k e. rewrite view_invalidate. case_decide; [done|]. auto.
Qed.

Lemma call_run_refines ops c m : remembers (ttl c) c m → memo_run (ttl c) m ops (call_run c ops).1.
Proof.
  revert c m. induction ops as [|op ops IH]; intros c m HR; cbn [call_run]; [constructor|].
  destruct (call_step_refines c m op HR) as [Hans HR'].
  destruct (call_step c op) as [ans c1]. cbn [fst snd] in Hans, HR'.
  destruct HR' as [Ht Hm']. specialize (IH c1 (memo_after (ttl c) m op)). rewrite Ht in IH.
  destruct (call_run c1 ops) as [rest c2]. econstructor; [done|]. by apply IH.
Qed.

Lemma remembers_new n secs : remembers (ttl (new n secs)) (new n secs) (λ _, None).
Proof. split; [done|]. intros k e. cbn. by rewrite view_new. Qed.

(** C13: The cache implements a memo: whatever sequence of lookups, insertions and
    invalidations reaches it, at whatever times, every answer is one the memo
    that never evicts could give; eviction and expiry only lose answers. *)
Theorem call_cache_refines n secs ops :
  memo_run (secs * 10 ^ 9) (λ _, None) ops (call_run (new n secs) ops).1.
Proof. apply (call_run_refines ops (new n secs) (λ _, None)), remembers_new. Qed.
(** ** Lemmas: what a hit says *)

(** [r] was stored under [k] at [at_], and the contract was not invalidated
    since. *)
Definition stored (ops : list (Z * CallOp)) (k : Key) (r : Json) (at_ : Z) : Prop :=
  ∃ h1 h2 id f args scope, ops = h1 ++ (at_, OpInsert id f args scope r) :: h2
    ∧ k = make_key id f args scope ∧ Forall (λ op, op.2 ≠ OpInvalidate id) h2.

Lemma stored_snoc ops op k r at_ :
  stored ops k r at_ → op.2 ≠ OpInvalidate (key_contract_id k) → stored (ops ++ [op]) k r at_.
Proof.
  intros (h1 & h2 & id & f & args & scope & -> & -> & Hinv) Hop.
  exists h1, (h2 ++ [op]), id, f, args, scope. rewrite <- app_assoc. split; [done|]. split; [done|].
  apply Forall_app. split; [done|]. by apply Forall_singleton.
Qed.

Lemma memo_stored T ops k r at_ :
  foldl (memo_after T) (λ _, None) ops k = Some (r, at_) → stored ops k r at_.
Proof.
  induction ops as [|op ops IH] using rev_ind; [done|]. rewrite foldl_snoc.
  destruct op as [now [id f args scope|id f args scope v|id]]; cbn [memo_after].
  - intros Hk. by apply stored_snoc; [apply IH|].
  - destruct (T =? 0); [intros Hk; by apply stored_snoc; [apply IH|]|].
    case_decide as Hkey; [|intros Hk; by apply stored_snoc; [apply IH|]].
    intros [= -> ->]. exists ops, [], id, f, args, scope. by repeat split.
  - case_decide as Hid; [done|]. intros Hk. apply stored_snoc; [by apply IH|]. cbn. congruence.
Qed.

Lemma remembers_run ops c m : remembers (ttl c) c m →
  remembers (ttl c) (call_run c ops).2 (foldl (memo_after (ttl c)) m ops).
Proof.
  revert c m. induction ops as [|op ops IH]; intros c m HR; cbn [call_run foldl]; [done|].
  destruct (call_step_refines c m op HR) as [_ HR'].
  destruct (call_step c op) as [ans c1]. cbn [snd] in HR'. pose proof HR' as [Ht _].
  specialize (IH c1 (memo_after (ttl c) m op)). rewrite Ht in IH. specialize (IH HR').
  by destruct (call_run c1 ops) as [rest c2].
Qed.

(** The arguments an operation carries tell canonical texts apart. *)
Definition op_safe (op : Z * CallOp) : bool :=
  match op.2 with OpGet _ _ args _ | OpInsert _ _ args _ _ => key_safe args | OpInvalidate _ => true end.

(** A hit is a result of the same call: it was stored less than the TTL ago for
    the same contract, function, source account and WASM hash and for equal
    arguments, and the contract was not invalidated in between.  (For object
    keys that hold quotes it may be another call's: [colliding_arguments].) *)
Theorem call_cache_hit_sound n secs ops id f args scope now r :
  forallb op_safe ops = true → key_safe args = true →
  (get id f args scope now (call_run (new n secs) ops).2).1 = Some r →
  ∃ h1 h2 at_ args', ops = h1 ++ (at_, OpInsert id f args' scope r) :: h2
    ∧ json_eqv args args' ∧ elapsed now at_ < secs * 10 ^ 9
    ∧ Forall (λ op, op.2 ≠ OpInvalidate id) h2.
Proof.
  intros Hops Hargs Hget.
  pose proof (remembers_run ops (new n secs) _ (remembers_new n secs)) as HR.
  set (c := (call_run (new n secs) ops).2) in *. pose proof HR as [Ht _].
  rewrite <- Ht in HR at 1. apply (get_step id f args scope now) in HR as [Hans _].
  rewrite Hget in Hans. inversion Hans as [|? ? ? ? ? ? at_ Hne Hm Hel]; subst.
  apply memo_stored in Hm as (h1 & h2 & id' & f' & args' & [src hash] & Hsplit & Hkey & Hinv).
  unfold make_key in Hkey. destruct scope as [src' hash']. injection Hkey as <- <- Hn <- <-.
  exists h1, h2, at_, args'. split; [done|]. split; [|by rewrite Ht in Hel].
  apply normalize_json_canonical; [done| |done].
  rewrite Hsplit, forallb_app in Hops. apply andb_true_iff in Hops as [_ Hops].
  cbn in Hops. by apply andb_true_iff in Hops as [? _].
Qed.

(** ** Lemmas: recency *)

(** The key an operation touches. *)
Definition op_key (op : Z * CallOp) : option Key :=
  match op.2 with
  | OpGet id f args scope | OpInsert id f args scope _ => Some (make_key id f args scope)
  | OpInvalidate _ => None
  end.

Definition cache_ok (c : CallCache) : Prop := lru_ok (inner c).

Lemma ok_pops ks (i : lru) : lru_ok i →
  lru_ok (foldl (λ cache key, (lru_pop key cache).2) i ks)
  ∧ lru_cap (foldl (λ cache key, (lru_pop key cache).2) i ks) = lru_cap i.
Proof.
  revert i. induction ks as [|k ks IH]; intros i Hi; [done|]. cbn [foldl].
  destruct (IH (lru_pop k i).2) as [? ->]; [by apply ok_pop|]. by rewrite cap_pop.
Qed.

Lemma call_step_ok op c : cache_ok c →
  cache_ok (call_step c op).2 ∧ lru_cap (inner (call_step c op).2) = lru_cap (inner c)
  ∧ ttl (call_step c op).2 = ttl c.
Proof.
  unfold cache_ok. intros Hok. destruct op as [now [id f args scope|id f args scope v|id]]; cbn [call_step snd].
  - unfold get. destruct (ttl c =? 0); [done|]. set (key := make_key id f args scope).
    pose proof (ok_get key _ Hok) as Hg. pose proof (cap_get key (inner c)) as Hc.
    destruct (lru_get key (inner c)) as [[[v at_]|] cache]; cbn [snd] in Hg, Hc; [|done].
    destruct (_ <? _); cbn; [done|]. rewrite cap_pop. split; [by apply ok_pop|done].
  - unfold insert. destruct (ttl c =? 0); [done|]. set (key := make_key id f args scope).
    pose proof (ok_put key (v, now) _ Hok) as Hg. pose proof (cap_put key (v, now) (inner c)) as Hc.
    by destruct (lru_put key (v, now) (inner c)) as [ev cache].
  - unfold invalidate_contract. cbn [with_inner inner ttl]. by destruct (ok_pops
      (filter (λ p, key_contract_id p.1 = id) (lru_entries (inner c))).*1 (inner c) Hok).
Qed.
Lemma recent_pops ks T k v (i : lru) : k ∉ ks → recent T k v (lru_entries i) →
  recent T k v (lru_entries (foldl (λ cache key, (lru_pop key cache).2) i ks)).
Proof.
  revert i. induction ks as [|j ks IH]; intros i Hk Hr; [done|]. cbn [foldl].
  apply not_elem_of_cons in Hk as [Hj Hk]. apply IH; [done|]. rewrite entries_pop.
  by apply recent_without.
Qed.

Definition used (op : Z * CallOp) (T : list Key) : list Key :=
  match op_key op with Some j => j :: T | None => T end.

(** The operations that leave the result of [k] alone. *)
Definition leaves (k : Key) (now : Z) (op : Z * CallOp) : Prop :=
  op.1 ≤ now ∧ match op.2 with
               | OpGet _ _ _ _ => True
               | OpInsert id f args scope _ => make_key id f args scope ≠ k
               | OpInvalidate id => id ≠ key_contract_id k
               end.

Lemma recent_step op c T k r at_ now :
  cache_ok c → ttl c ≠ 0 → elapsed now at_ < ttl c → leaves k now op →
  recent T k (r, at_) (lru_entries (inner c)) →
  (length (remove_dups (k :: used op T)) ≤ lru_cap (inner c))%nat →
  recent (used op T) k (r, at_) (lru_entries (inner (call_step c op).2)).
Proof.
  intros [Hnd _] Ht Hel [Hnow Hop] Hr Hcap.
  destruct op as [t [id f args scope|id f args scope v|id]]; cbn [fst snd] in *; unfold used in *;
    cbn [op_key snd call_step] in *.
  - unfold get. rewrite (proj2 (Z.eqb_neq _ _) Ht). set (j := make_key id f args scope) in *.
    pose proof (get_result j (inner c)) as Hres. pose proof (entries_get j (inner c)) as Hent.
    destruct (lru_get j (inner c)) as [found cache]. cbn [fst snd] in Hres, Hent.
    destruct (decide (j = k)) as [->|Hj].
    + rewrite (recent_assoc _ _ _ _ Hr) in Hres. subst found.
      assert (elapsed t at_ <? ttl c = true) as -> by (unfold elapsed in *; lia).
      cbn. rewrite Hent. eapply recent_weaken; [|by apply (recent_promote_same T Datatypes.id)]. set_solver.
    + assert (recent (j :: T) k (r, at_) (lru_entries cache)) as Hr'
        by (rewrite Hent; by apply recent_promote).
      destruct found as [[v at']|]; [|done]. destruct (_ <? _); cbn; [done|].
      rewrite entries_pop. by apply recent_without.
  - unfold insert. rewrite (proj2 (Z.eqb_neq _ _) Ht). set (j := make_key id f args scope) in *.
    pose proof (entries_put j (v, t) (inner c)) as Hent.
    destruct (lru_put j (v, t) (inner c)) as [ev cache]. cbn [snd] in Hent. cbn [inner snd]. rewrite Hent.
    apply recent_take; [|by apply recent_cons, recent_without|done].
    cbn [fmap list_fmap fst]. constructor; [apply keys_without_notin|by apply nodup_without].
  - unfold invalidate_contract. cbn [with_inner inner]. apply recent_pops; [|done].
    intros ([k' e] & -> & Hin)%list_elem_of_fmap. apply list_elem_of_filter in Hin as [Hin _]. done.
Qed.

Lemma used_subset op U : (∀ j, op_key op = Some j → j ∈ U) → used op U ⊆ U.
Proof. unfold used. destruct (op_key op) as [j|]; [|done]. intros Hj x. set_solver. Qed.

Lemma recent_run ops c U k r at_ now :
  cache_ok c → ttl c ≠ 0 → elapsed now at_ < ttl c → Forall (leaves k now) ops →
  Forall (λ op, ∀ j, op_key op = Some j → j ∈ U) ops →
  (length (remove_dups (k :: U)) ≤ lru_cap (inner c))%nat →
  recent U k (r, at_) (lru_entries (inner c)) →
  recent U k (r, at_) (lru_entries (inner (call_run c ops).2)) ∧ ttl (call_run c ops).2 = ttl c.
Proof.
  intros Hok Ht Hel Hops Hkeys Hcap. revert c Hok Ht Hel Hcap.
  induction Hops as [|op ops Hop Hops IH]; intros c Hok Ht Hel Hcap Hr; cbn [call_run]; [done|].
  inversion Hkeys as [|? ? Hj Hkeys']; subst. destruct (call_step_ok op c Hok) as (Hok' & Hcap' & Ht').
  assert (recent U k (r, at_) (lru_entries (inner (call_step c op).2))) as Hr'.
  { eapply recent_weaken; [by apply used_subset|]. eapply recent_step; [done..|].
    etrans; [|exact Hcap]. apply NoDup_subset_length; [apply NoDup_remove_dups|].
    intros x Hx. rewrite elem_of_remove_dups in Hx. apply elem_of_cons in Hx as [->|Hx]; [left|right].
    by apply (used_subset op U Hj). }
  destruct (call_step c op) as [ans c1]. cbn [snd] in *. rewrite <- Ht' in Ht, Hel. rewrite <- Hcap' in Hcap.
  destruct (IH Hkeys' c1 Hok' Ht Hel Hcap Hr') as [Hrec Htt]. rewrite Ht' in Htt.
  by destruct (call_run c1 ops) as [rest c2].
Qed.

(** The results a cache holds are the recent ones: a result stored less than
    the TTL ago is answered as long as no more distinct keys than the capacity
    were used since, it was not replaced, and its contract was not
    invalidated. *)
Theorem call_cache_recent_hit c at_ id f args scope r ops now :
  let k := make_key id f args scope in
  let c1 := insert id f args scope r at_ c in
  cache_ok c → ttl c ≠ 0 → elapsed now at_ < ttl c → Forall (leaves k now) ops →
  (length (remove_dups (k :: omap op_key ops)) ≤ lru_cap (inner c))%nat →
  (get id f args scope now (call_run c1 ops).2).1 = Some r.
Proof.
  intros k c1 Hok Ht Hel Hops Hcap.
  destruct (call_step_ok (at_, OpInsert id f args scope r) c Hok) as (Hok1 & Hcap1 & Ht1).
  change (call_step _ _).2 with c1 in Hok1, Hcap1, Ht1.
  destruct (recent_run ops c1 (omap op_key ops) k r at_ now) as [Hr Httl]; rewrite ?Ht1, ?Hcap1; try done.
  - apply Forall_forall. intros op Hop j Hj. apply list_elem_of_omap. by exists op.
  - unfold c1, insert. rewrite (proj2 (Z.eqb_neq _ _) Ht). fold k.
    pose proof (entries_put k (r, at_) (inner c)) as Hent.
    destruct (lru_put k (r, at_) (inner c)) as [ev cache]. cbn [snd] in Hent. cbn [inner]. rewrite Hent.
    apply recent_take; [|exists [], (without k (lru_entries (inner c))); split; [done|];
      split; [apply not_elem_of_nil|apply list_subseteq_nil]|done].
    cbn [fmap list_fmap fst]. constructor; [apply keys_without_notin|apply nodup_without, Hok].
  - rewrite Ht1 in Httl. unfold get. rewrite Httl, (proj2 (Z.eqb_neq _ _) Ht). fold k.
    pose proof (get_result k (inner (call_run c1 ops).2)) as Hres.
    destruct (lru_get k _) as [found cache]. cbn [fst] in Hres. subst found.
    rewrite (recent_assoc _ _ _ _ Hr). by assert (elapsed now at_ <? ttl c = true) as -> by lia.
Qed.

Definition is_get (op : Z * CallOp) : bool := match op.2 with OpGet _ _ _ _ => true | _ => false end.

Lemma call_step_counts op c :
  wrap 64 (hits (call_step c op).2 + misses (call_step c op).2)
  = wrap 64 (hits c + misses c + if is_get op && negb (ttl c =? 0) then 1 else 0).
Proof.
  destruct op as [now [id f args scope|id f args scope v|id]]; unfold is_get; cbn [call_step snd andb].
  - unfold get. destruct (ttl c =? 0); cbn [negb snd]; [f_equal; lia|].
    destruct (lru_get _ _) as [[[v at_]|] cache]; [destruct (_ <? _)|]; cbn [snd hits misses count_hit count_miss with_inner];
      unfold wrap; rewrite ?Zplus_mod_idemp_l, ?Zplus_mod_idemp_r; f_equal; lia.
  - unfold insert. destruct (ttl c =? 0); [f_equal; lia|]. destruct (lru_put _ _ _). cbn. f_equal. lia.
  - cbn. f_equal. lia.
Qed.

Definition lookups (secs : Z) (ops : list (Z * CallOp)) : Z :=
  if secs =? 0 then 0 else Z.of_nat (length (filter (λ op, is_get op = true) ops)).

Lemma call_run_ok ops c : cache_ok c →
  cache_ok (call_run c ops).2 ∧ lru_cap (inner (call_run c ops).2) = lru_cap (inner c)
  ∧ wrap 64 (hits (call_run c ops).2 + misses (call_run c ops).2)
    = wrap 64 (hits c + misses c + lookups (ttl c) ops).
Proof.
  revert c. induction ops as [|op ops IH]; intros c Hok; cbn [call_run].
  - unfold lookups. cbn. destruct (_ =? _); by rewrite Z.add_0_r.
  - destruct (call_step_ok op c Hok) as (Hok1 & Hcap1 & Ht1). pose proof (call_step_counts op c) as Hc.
    destruct (call_step c op) as [ans c1]. cbn [snd] in *. destruct (IH c1 Hok1) as (Hok2 & Hcap2 & Hn).
    destruct (call_run c1 ops) as [rest c2]. cbn [snd] in *.
    split; [done|]. split; [congruence|]. rewrite Hn, Ht1.
    unfold wrap in *. rewrite Z.add_mod, Hc, <- Z.add_mod by lia. f_equal.
    unfold lookups. rewrite filter_cons.
    destruct (ttl c =? 0), (is_get op); cbn [negb andb]; try lia.
    + rewrite decide_True by done. cbn [length]. lia.
    + rewrite decide_False by done. lia.
Qed.

(** The cache never exceeds its capacity, and every lookup of an enabled cache
    is a hit or a miss: the counters add up to the lookups (modulo their
    64-bit width). *)
Theorem call_cache_bounded n secs ops :
  let c := (call_run (new n secs) ops).2 in
  (cache_size c ≤ max n 1)%nat ∧ wrap 64 (hits c + misses c) = wrap 64 (lookups secs ops).
Proof.
  destruct (call_run_ok ops (new n secs)) as ([_ Hlen] & Hcap & Hn); [apply ok_new|].
  cbn zeta. split.
  - unfold cache_size. rewrite Hcap in Hlen. cbn [new inner] in Hlen. by rewrite cap_new in Hlen.
  - rewrite Hn. cbn [new hits misses ttl]. f_equal. unfold lookups.
    by destruct (Z.eqb_spec (secs * 10 ^ 9) 0), (Z.eqb_spec secs 0); try lia.
Qed.
End with_serde_cache.

(** ** Examples *)

#[local] Instance sample_serde : SerdeJson := plain_serde.
#[local] Instance sample_lru : LruCache Key (Json * Z) := list_lru.

Definition sample_scope : CallScope := {| source_account := None; wasm_hash := "h1" |}.
Definition one_arg (k : string) : Json := JObj [(k, JInt 1)].

(** [{a":1,"b: 2}] and [{a: 1, b: 2}] have the same text, so one call is answered
    with the other's result. *)
Definition odd_key : string := "a" +:+ String dquote (":1," +:+ String dquote "b").
Definition odd_args : Json := JObj [(odd_key, JInt 2)].
Definition plain_args : Json := JObj [("a", JInt 1); ("b", JInt 2)].

Example colliding_arguments :
  (call_run (new 10 60)
     [(0, OpInsert "C1" "f" odd_args sample_scope (JStr "odd"));
      (1, OpGet "C1" "f" plain_args sample_scope)]).1 = [None; Some (JStr "odd")].
Proof. vm_compute. reflexivity. Qed.

(** [evictions] counts replaced results, not evicted ones: [put] hands back
    only the value it replaces. *)
Example evictions_miscounted :
  evictions (call_run (new 1 60)
    [(0, OpInsert "C1" "f" (one_arg "a") sample_scope JNull);
     (1, OpInsert "C1" "f" (one_arg "b") sample_scope JNull)]).2 = 0
  ∧ evictions (call_run (new 2 60)
    [(0, OpInsert "C1" "f" (one_arg "a") sample_scope JNull);
     (1, OpInsert "C1" "f" (one_arg "a") sample_scope JNull)]).2 = 1.
Proof. by vm_compute. Qed.

(** ** Witnesses *)

Lemma normalize_json_canonical_witness :
  normalize_json (JObj [("a", JInt 1); ("b", JArr [JStr "x"])])
  = normalize_json (JObj [("b", JArr [JStr "x"]); ("a", JInt 1)]).
Proof.
  apply (normalize_json_canonical (JObj [("a", JInt 1); ("b", JArr [JStr "x"])])
           (JObj [("b", JArr [JStr "x"]); ("a", JInt 1)])); [reflexivity|reflexivity|].
  eapply (eqv_obj _ _ [("a", JInt 1); ("b", JArr [JStr "x"])] [("a", JInt 1); ("b", JArr [JStr "x"])]);
    [reflexivity|apply Permutation_swap|].
  constructor; [split; [done|by constructor]|]. constructor; [|constructor].
  split; [done|]. apply eqv_arr. by repeat constructor.
Defined.

Definition sample_ops : list (Z * CallOp) :=
  [(0, OpInsert "C1" "f" (one_arg "a") sample_scope (JInt 7));
   (1, OpGet "C1" "g" (one_arg "a") sample_scope)].

Lemma call_cache_hit_sound_witness :
  ∃ h1 h2 at_ args', sample_ops = h1 ++ (at_, OpInsert "C1" "f" args' sample_scope (JInt 7)) :: h2
    ∧ json_eqv (one_arg "a") args' ∧ elapsed 2 at_ < 60 * 10 ^ 9
    ∧ Forall (λ op, op.2 ≠ OpInvalidate "C1") h2.
Proof.
  apply (call_cache_hit_sound 10 60 sample_ops "C1" "f" (one_arg "a") sample_scope 2 (JInt 7));
    vm_compute; reflexivity.
Defined.

Lemma call_cache_recent_hit_witness :
  let c := insert "C1" "f" (one_arg "a") sample_scope (JInt 7) 0 (new 3 60) in
  (get "C1" "f" (one_arg "a") sample_scope 5
     (call_run c [(1, OpInsert "C1" "g" JNull sample_scope JNull);
                  (2, OpGet "C2" "f" JNull sample_scope)]).2).1 = Some (JInt 7).
Proof.
  apply (call_cache_recent_hit (new 3 60)); [apply ok_new|done|done| |].
  - repeat constructor; done.
  - vm_compute. repeat constructor.
Defined.
