(* ===== verification/RateLimit.v ===== *)
(** * RateLimit: requests per minute ([lumenqraph-api/src/rate_limit.rs])

    Two backends decide whether an identity may make another request: token
    buckets in memory ([MemoryBackend], [f64] arithmetic) and a sliding window
    of one minute in Redis ([RedisBackend], a Lua script over a sorted set).
    The [lru] crate is [LruCache]; the seeded hash that picks a shard, the
    clocks and Redis failures are arguments, the random number of the script is
    a constant of the server ([RedisServer]).  Sorted sets follow the documentation of Redis: members are
    unique, [ZADD] of a member that is present only moves its score. *)
From S2P Require Import Prelude Text Lru F64.
From Stdlib Require Import SpecFloat Ascii.

Local Open Scope Z_scope.

Definition MAX_TRACKED_IDENTITIES : nat := Nat.mul 1000 100.
Definition SHARDS : nat := 64.

Record RateLimitStatus := {
  allowed : bool;
  tokens_remaining : Z;
  retry_after_secs : option Z;
}.

(** ** Token buckets in memory *)

Record TokenBucketState := { tokens : f64; last_refill : Z }.

(** The shards, each behind its lock. *)
Notation MemoryBackend := (list (lru (K:=string) (V:=TokenBucketState))).

Section memory.
Context `{!LruCache string TokenBucketState} (hash_one : string → Z).

(** [with_capacity]: [capacity.div_ceil(SHARDS).max(1)] per shard. *)
Definition with_capacity (capacity : nat) : MemoryBackend :=
  replicate SHARDS (lru_new (max ((capacity + (SHARDS - 1)) / SHARDS) 1)).

Definition shard (identity : string) (b : MemoryBackend) : nat :=
  Z.to_nat (hash_one identity mod Z.of_nat (length b)).

Definition unlimited (limit_per_min : Z) : RateLimitStatus :=
  {| allowed := true; tokens_remaining := limit_per_min; retry_after_secs := None |}.

(** The refilled bucket and the decision. *)
Definition take_token (limit_per_min now : Z) (bucket : TokenBucketState)
    : RateLimitStatus * TokenBucketState :=
  let tokens_per_sec := f_div (of_Z limit_per_min) (of_Z 60) in
  let elapsed := as_secs_f64 (Z.max 0 (now - last_refill bucket)) in
  let refilled := f_mul elapsed tokens_per_sec in
  let available := f_min (f_add (tokens bucket) refilled) (of_Z limit_per_min) in
  if SFleb (of_Z 1) available then
    let left := f_sub available (of_Z 1) in
    ({| allowed := true; tokens_remaining := floor_i32 left; retry_after_secs := None |},
     {| tokens := left; last_refill := now |})
  else
    let tokens_needed := f_sub (of_Z 1) available in
    let secs_until_token := f_div tokens_needed tokens_per_sec in
    ({| allowed := false; tokens_remaining := 0;
        retry_after_secs := Some (Z.max (ceil_u64 secs_until_token) 1) |},
     {| tokens := available; last_refill := now |}).

(** [MemoryBackend::check]; [None] is a panic ([expect], a shard index out of
    range). *)
Definition memory_check (identity : string) (limit_per_min now : Z) (b : MemoryBackend)
    : option (RateLimitStatus * MemoryBackend) :=
  if limit_per_min <=? 0 then Some (unlimited limit_per_min, b)
  else
    s ← b !! shard identity b;
    let s := if lru_contains identity s then s
             else (lru_push identity {| tokens := of_Z limit_per_min; last_refill := now |} s).2 in
    bucket ← lru_view s identity;
    let '(status, bucket) := take_token limit_per_min now bucket in
    Some (status, <[shard identity b := lru_modify identity (λ _, bucket) s]> b).
End memory.

(** ** Configuration *)

Inductive BackendKind : Type := KindMemory | KindRedis.
Inductive FailMode : Type := FailOpen | FailClosed.

#[export] Instance BackendKind_eq_dec : EqDecision BackendKind.
Proof. solve_decision. Defined.

Record RateLimitSettings := {
  backend : BackendKind;
  redis_url : option string;
  fail_mode : FailMode;
}.

Inductive SettingsError : Type :=
  | InvalidBackend (value : string)
  | RedisUrlMissing
  | InvalidFailMode (value : string).

(** [RateLimitSettings::parse]. *)
Definition parse_settings (backend_raw : string) (redis_url_raw : option string) (fail_mode_raw : string)
    : result SettingsError RateLimitSettings :=
  kind ← (let b := to_ascii_lowercase (trim backend_raw) in
          if String.eqb b "memory" then Ok KindMemory
          else if String.eqb b "redis" then Ok KindRedis
          else Err (InvalidBackend b));
  let url := u ← redis_url_raw; let u := trim u in if String.eqb u "" then None else Some u in
  if bool_decide (kind = KindRedis) && bool_decide (url = None) then Err RedisUrlMissing
  else
    mode ← (let m := to_ascii_lowercase (trim fail_mode_raw) in
            if String.eqb m "open" then Ok FailOpen
            else if String.eqb m "closed" then Ok FailClosed
            else Err (InvalidFailMode m));
    Ok {| backend := kind; redis_url := url; fail_mode := mode |}.

(** ** A sliding window in Redis *)

(** A sorted set: members with their scores, in no order. *)
Notation ZSet := (list (string * Z)).

Definition zremrangebyscore_upto (score : Z) (z : ZSet) : ZSet := filter (λ p, score < p.2) z.

Definition zadd (score : Z) (member : string) (z : ZSet) : ZSet :=
  match assoc member z with
  | Some _ => (λ p, if decide (p.1 = member) then (member, score) else p) <$> z
  | None => z ++ [(member, score)]
  end.

(** The lowest score: what [ZRANGE key 0 0 WITHSCORES] shows. *)
Definition oldest_score (z : ZSet) : option Z :=
  match z with
  | [] => None
  | p :: z' => Some (foldr Z.min p.2 z'.*2)
  end.

(** The server: Redis reseeds the generator of [math.random()] whenever it runs
    a script, so the first number a run draws is the same in every run. *)
Class RedisServer := { first_random : string }.

(** The script.  Indexing the empty [oldest] raises an error ([None]).  The
    key's [EXPIRE] of 60 seconds after the last addition removes nothing the
    first command would not. *)
Definition script `{RedisServer} (now window_start limit : Z) (z : ZSet) : option (list Z * ZSet) :=
  let z := zremrangebyscore_upto window_start z in
  let count := Z.of_nat (length z) in
  if count <? limit
  then Some ([1; limit - count - 1], zadd now (show_u now +:+ ":" +:+ first_random) z)
  else
    oldest ← oldest_score z;
    Some ([0; 0; 61 - (now - oldest)], z).

(** [redis_key(namespace, identity)]. *)
Definition redis_key (namespace identity : string) : string :=
  "ratelimit:" +:+ namespace +:+ ":" +:+ identity.

Definition WARN_INTERVAL_SECS : Z := 10.

(** The server's sorted sets and the process's error counters. *)
Record RedisState := {
  zsets : gmap string ZSet;
  backend_errors : Z;
  last_backend_warn : Z;
}.

(** [record_backend_error]: counts, and says whether a warning is logged. *)
Definition record_backend_error (now : Z) (s : RedisState) : bool * RedisState :=
  let warn := WARN_INTERVAL_SECS <=? Z.max 0 (now - last_backend_warn s) in
  (warn, {| zsets := zsets s; backend_errors := wrap 64 (backend_errors s + 1);
            last_backend_warn := if warn then now else last_backend_warn s |}).

Definition failure_status (mode : FailMode) (limit_per_min : Z) : RateLimitStatus :=
  match mode with
  | FailOpen => {| allowed := true; tokens_remaining := limit_per_min; retry_after_secs := None |}
  | FailClosed => {| allowed := false; tokens_remaining := 0; retry_after_secs := Some 1 |}
  end.

(** The reply read as a [Vec<i32>]. *)
Definition reply_status (reply : list Z) : RateLimitStatus :=
  if bool_decide (head reply = Some 1)
  then {| allowed := true; tokens_remaining := default 0 (reply !! 1%nat); retry_after_secs := None |}
  else {| allowed := false; tokens_remaining := 0;
          retry_after_secs := Some (wrap 64 (default 60 (reply !! 2%nat))) |}.

(** [RedisBackend::check].  [reachable] is whether the server answers. *)
Definition redis_check `{RedisServer} (namespace : string) (mode : FailMode) (reachable : bool)
    (identity : string) (limit_per_min now : Z) (s : RedisState) : RateLimitStatus * RedisState :=
  if limit_per_min <=? 0 then (unlimited limit_per_min, s)
  else
    let key := redis_key namespace identity in
    match (if reachable then script now (now - 60) limit_per_min (default ([] : ZSet) (zsets s !! key))
           else None) with
    | Some (reply, z) =>
        (reply_status reply,
         {| zsets := <[key := z]> (zsets s); backend_errors := backend_errors s;
            last_backend_warn := last_backend_warn s |})
    | None => (failure_status mode limit_per_min, (record_backend_error now s).2)
    end.

(** ** Runs *)

(** [n] checks of one identity at one instant. *)
Fixpoint memory_run `{!LruCache string TokenBucketState} (hash_one : string → Z)
    (identity : string) (limit_per_min now : Z) (n : nat) (b : MemoryBackend)
    : option (list RateLimitStatus * MemoryBackend) :=
  match n with
  | O => Some ([], b)
  | S n' =>
      '(st, b) ← memory_check hash_one identity limit_per_min now b;
      '(sts, b) ← memory_run hash_one identity limit_per_min now n' b;
      Some (st :: sts, b)
  end.

(** Checks of one identity against a reachable server, at their times. *)
Fixpoint redis_run `{RedisServer} (namespace : string) (mode : FailMode) (identity : string) (limit_per_min : Z)
    (calls : list Z) (s : RedisState) : list RateLimitStatus * RedisState :=
  match calls with
  | [] => ([], s)
  | now :: calls =>
      let '(st, s) := redis_check namespace mode true identity limit_per_min now s in
      let '(sts, s) := redis_run namespace mode identity limit_per_min calls s in
      (st :: sts, s)
  end.

(** The specification of a sliding window: a log of the admitted times. *)
Definition in_last_minute (now : Z) (log : list Z) : list Z := filter (λ t, now - 60 < t) log.

Fixpoint log_run (limit : Z) (log times : list Z) : list bool :=
  match times with
  | [] => []
  | now :: times =>
      let ok := Z.of_nat (length (in_last_minute now log)) <? limit in
      ok :: log_run limit (if ok then log ++ [now] else log) times
  end.

(** What the script keeps instead: a log of the seconds that had an admission. *)
Definition log_second (now : Z) (log : list Z) : list Z := if decide (now ∈ log) then log else log ++ [now].

Fixpoint seconds_run (limit : Z) (log times : list Z) : list bool :=
  match times with
  | [] => []
  | now :: times =>
      let ok := Z.of_nat (length (in_last_minute now log)) <? limit in
      ok :: seconds_run limit (if ok then log_second now log else log) times
  end.

Definition admitted (times : list Z) (oks : list bool) : list Z :=
  (filter (λ p, p.2 = true) (zip times oks)).*1.

(** ** Lemmas: the window *)

Section redis.
Context `{RedisServer}.

(** The member a call at [t] adds. *)
Definition member_text (t : Z) : string := show_u t +:+ ":" +:+ first_random.

Lemma member_text_inj t u : 0 ≤ t → 0 ≤ u → member_text t = member_text u → t = u.
Proof.
  intros Ht Hu Heq. apply (f_equal (split_once ":"%char)) in Heq. unfold member_text in Heq.
  change (":" +:+ first_random) with (String ":" first_random) in Heq.
  rewrite !split_once_app in Heq by by apply show_u_no_byte.
  injection Heq as Hs. apply (f_equal parse_digits10) in Hs.
  rewrite !parse_show_u in Hs by done. by injection Hs.
Qed.

Lemma in_last_minute_later t now log : t ≤ now →
  in_last_minute now (in_last_minute t log) = in_last_minute now log.
Proof.
  intros Ht. unfold in_last_minute. induction log as [|x log IH]; [done|].
  rewrite !filter_cons. destruct (decide (t - 60 < x)), (decide (now - 60 < x)); try lia.
  - rewrite filter_cons, decide_True by done. by rewrite IH.
  - rewrite filter_cons, decide_False by done. done.
  - done.
Qed.

(** The sorted set that keeps the seconds of [log]. *)
Definition entries (log : list Z) : ZSet := (λ t, (member_text t, t)) <$> log.

Lemma entries_removed score log : zremrangebyscore_upto score (entries log) = entries (filter (λ t, score < t) log).
Proof.
  unfold zremrangebyscore_upto, entries. induction log as [|t log IH]; [done|]. cbn [fmap list_fmap].
  rewrite !filter_cons. cbn [snd]. destruct (decide (score < t)); [cbn [fmap list_fmap]; f_equal|]; exact IH.
Qed.

Lemma entries_assoc now (z : ZSet) log : 0 ≤ now → Forall (λ x, 0 ≤ x) log → z ≡ₚ entries log →
  zadd now (member_text now) z ≡ₚ entries (log_second now log).
Proof.
  intros Hnow Hlog Hz. unfold zadd, log_second. rewrite Forall_forall in Hlog.
  assert (∀ p, p ∈ z → ∃ t, t ∈ log ∧ p = (member_text t, t)) as Hin.
  { intros p Hp. rewrite Hz in Hp. apply list_elem_of_fmap in Hp as (t & -> & Ht). by exists t. }
  destruct (decide (now ∈ log)) as [Hl|Hl].
  - assert ((λ p : string * Z, if decide (p.1 = member_text now) then (member_text now, now) else p) <$> z = z) as Hid.
    { rewrite <-(list_fmap_id z) at 2. apply list_fmap_ext. intros i p Hp. apply list_elem_of_lookup_2 in Hp.
      destruct (Hin p Hp) as (t & Ht & ->). cbn [fst]. case_decide as Hm; [|done].
      by apply member_text_inj in Hm as ->; [|apply Hlog|]. }
    destruct (assoc (member_text now) z) eqn:E; [by rewrite Hid|]. exfalso. apply assoc_None in E. apply E.
    apply list_elem_of_fmap. exists (member_text now, now). split; [done|]. rewrite Hz.
    by apply (list_elem_of_fmap_2 (λ t, (member_text t, t))).
  - destruct (assoc (member_text now) z) as [sc|] eqn:E.
    + apply assoc_Some_elem in E. destruct (Hin _ E) as (t & Ht & [= Hm ->]). exfalso. apply Hl.
      apply member_text_inj in Hm as ->; [done|done|by apply Hlog].
    + rewrite Hz. unfold entries. by rewrite fmap_app.
Qed.

Lemma oldest_score_Some z : z ≠ [] → ∃ t, oldest_score z = Some t ∧ t ∈ z.*2.
Proof.
  destruct z as [|p z]; [done|]. intros _. eexists. split; [done|]. cbn [fmap list_fmap].
  generalize p.2. induction z as [|q z IH]; intros t; cbn [fmap list_fmap foldr]; [left|].
  destruct (Z.min_spec q.2 (foldr Z.min t z.*2)) as [[_ ->]|[_ ->]].
  - right. left.
  - specialize (IH t). apply elem_of_cons in IH as [->|IH]; [left|right; by right].
Qed.

(** The sorted set after a check at [now]: the seconds of the last minute that
    had an admission. *)
Definition window_inv (now : Z) (log : list Z) (z : ZSet) : Prop :=
  z ≡ₚ entries (in_last_minute now log) ∧ Forall (λ x, 0 ≤ x ≤ now) log.

Lemma in_last_minute_log_second now log : in_last_minute now (log_second now log) = log_second now (in_last_minute now log).
Proof.
  unfold log_second, in_last_minute. destruct (decide (now ∈ log)) as [Hin|Hin].
  - rewrite decide_True; [done|]. apply list_elem_of_filter. split; [lia|done].
  - rewrite decide_False by by intros [_ ?]%list_elem_of_filter.
    by rewrite filter_app, (filter_cons _ now), decide_True by lia.
Qed.

Lemma script_step t log z now limit :
  window_inv t log z → t ≤ now → 0 < limit → 0 ≤ now →
  let ok := Z.of_nat (length (in_last_minute now log)) <? limit in
  ∃ reply z', script now (now - 60) limit z = Some (reply, z')
    ∧ window_inv now (if ok then log_second now log else log) z'
    ∧ if ok then reply = [1; limit - Z.of_nat (length (in_last_minute now log)) - 1]
      else ∃ old, reply = [0; 0; 61 - (now - old)] ∧ now - 60 < old ≤ now.
Proof.
  intros (Hz & Hle) Ht Hlim Hnow ok.
  assert (Forall (λ x, 0 ≤ x ≤ now) log) as Hle' by (eapply Forall_impl; [exact Hle|]; cbn; lia).
  set (zr := zremrangebyscore_upto (now - 60) z).
  assert (zr ≡ₚ entries (in_last_minute now log)) as Hzr.
  { rewrite <- (in_last_minute_later t now log Ht). unfold in_last_minute at 1. rewrite <-entries_removed.
    unfold zr, zremrangebyscore_upto. by rewrite Hz. }
  assert (length zr = length (in_last_minute now log)) as Hlen by (rewrite Hzr; apply length_fmap).
  unfold script. fold zr. rewrite Hlen. fold ok. destruct ok eqn:Eok.
  - eexists _, _. split; [done|]. split; [|done]. split.
    + rewrite in_last_minute_log_second. apply entries_assoc; [done| |done].
      apply Forall_forall. intros x [_ Hx]%list_elem_of_filter. rewrite Forall_forall in Hle'. apply Hle' in Hx. lia.
    + unfold log_second. case_decide; [done|]. apply Forall_app. split; [done|]. repeat constructor; lia.
  - destruct (oldest_score_Some zr) as (old & Hold & Hin).
    { intros Hnil. rewrite Hnil in Hlen. cbn in Hlen. unfold ok in Eok. apply Z.ltb_ge in Eok. lia. }
    rewrite Hold. eexists _, _. split; [done|]. split; [by split|]. exists old. split; [done|].
    rewrite Hzr in Hin. unfold entries in Hin. rewrite <-list_fmap_compose in Hin. cbn in Hin.
    apply list_elem_of_fmap in Hin as (x & -> & [? Hx]%list_elem_of_filter).
    rewrite Forall_forall in Hle'. cbn. specialize (Hle' _ Hx). lia.
Qed.

(** ** Lemmas: the log *)

Lemma admitted_cons t b times oks :
  admitted (t :: times) (b :: oks) = if b : bool then t :: admitted times oks else admitted times oks.
Proof. unfold admitted. cbn [zip zip_with]. rewrite filter_cons. cbn [snd]. by destruct b. Qed.

(** At most [limit] of the log lie in any minute. *)
Definition minute_bound (limit : Z) (log : list Z) : Prop :=
  ∀ t, Z.of_nat (length (filter (λ x, t - 60 < x ∧ x ≤ t) log)) ≤ limit.

Lemma filter_length_mono {A} (P Q : A → Prop) `{∀ x, Decision (P x)} `{∀ x, Decision (Q x)} l :
  (∀ x, x ∈ l → P x → Q x) → (length (filter P l) ≤ length (filter Q l))%nat.
Proof.
  induction l as [|x l IH]; intros Hl; [done|]. rewrite !filter_cons.
  assert (length (filter P l) ≤ length (filter Q l))%nat by (apply IH; intros; apply Hl; [by right|done]).
  destruct (decide (P x)) as [HP|], (decide (Q x)) as [|HQ]; cbn [length]; try lia.
  exfalso. apply HQ, Hl; [left|done].
Qed.

Lemma minute_bound_snoc limit log now :
  minute_bound limit log → Forall (λ x, x ≤ now) log →
  Z.of_nat (length (in_last_minute now log)) < limit → minute_bound limit (log ++ [now]).
Proof.
  intros Hb Hle Hlt t. rewrite filter_app, length_app, filter_cons.
  destruct (decide (t - 60 < now ∧ now ≤ t)) as [[H1 H2]|]; [|cbn; specialize (Hb t); lia].
  cbn [filter list_filter length]. rewrite Forall_forall in Hle.
  enough (length (filter (λ x, (t - 60 < x ∧ x ≤ t)%Z) log) ≤ length (in_last_minute now log))%nat by lia.
  apply (filter_length_mono (λ x, t - 60 < x ∧ x ≤ t) (λ x, now - 60 < x)).
  intros x Hx%Hle [? _]. lia.
Qed.

Lemma log_bound limit times : ∀ log, minute_bound limit log →
  StronglySorted Z.le times → (∀ x y, x ∈ log → y ∈ times → x ≤ y) →
  minute_bound limit (log ++ admitted times (log_run limit log times)).
Proof.
  induction times as [|now times IH]; intros log Hb Hs Hle.
  - cbn. by rewrite app_nil_r.
  - cbn [log_run]. rewrite admitted_cons. apply StronglySorted_cons in Hs as [Hnow Hs].
    rewrite Forall_forall in Hnow.
    destruct (Z.ltb_spec (Z.of_nat (length (in_last_minute now log))) limit) as [Hlt|Hge].
    + rewrite cons_middle, app_assoc. apply IH; [|done|].
      * apply minute_bound_snoc; [done| |done]. apply Forall_forall. intros x Hx. apply Hle; [done|left].
      * intros x y Hx Hy. apply elem_of_app in Hx as [Hx| ->%list_elem_of_singleton]; [|auto].
        apply Hle; [done|by right].
    + apply IH; [done|done|]. intros x y Hx Hy. apply Hle; [done|by right].
Qed.

(** ** The sliding window *)

Lemma redis_run_log ns mode identity limit calls : ∀ t log s,
  0 < limit →
  window_inv t log (default ([] : ZSet) (zsets s !! redis_key ns identity)) →
  StronglySorted Z.le (t :: calls) → 0 ≤ t →
  allowed <$> (redis_run ns mode identity limit calls s).1 = seconds_run limit log calls
  ∧ Forall (λ st, ∀ w, retry_after_secs st = Some w → 2 ≤ w ≤ 61)
      (redis_run ns mode identity limit calls s).1.
Proof.
  induction calls as [|now calls IH]; intros t log s Hlim Hw Hs Ht; [done|].
  apply StronglySorted_cons in Hs as [Hall Hs]. pose proof (Forall_inv Hall) as Htn. cbn in Htn.
  destruct (script_step t log _ now limit Hw Htn Hlim ltac:(lia)) as (reply & z & Hscript & Hw' & Hreply).
  cbn [redis_run seconds_run]. unfold redis_check. rewrite (proj2 (Z.leb_gt _ _) Hlim), Hscript.
  set (ok := Z.of_nat (length (in_last_minute now log)) <? limit) in *.
  set (s' := {| zsets := <[redis_key ns identity:=z]> (zsets s); backend_errors := backend_errors s;
               last_backend_warn := last_backend_warn s |}).
  edestruct (IH now (if ok then log_second now log else log) s') as [Hrun Hret]; [done| |done|lia|].
  - unfold s'. cbn [zsets]. rewrite lookup_insert_eq. exact Hw'.
  - destruct (redis_run ns mode identity limit calls s') as [sts s2]. cbn [fst] in *.
    split.
    + transitivity (ok :: (allowed <$> sts)); [|by rewrite Hrun].
      change (allowed (reply_status reply) :: (allowed <$> sts) = ok :: (allowed <$> sts)).
      destruct ok; [by subst|]. by destruct Hreply as (old & -> & _).
    + constructor; [|done]. destruct ok; [by subst|]. destruct Hreply as (old & -> & Hold).
      cbn. intros w [= <-]. rewrite wrap_small by lia. lia.
Qed.

(** The Redis backend counts the seconds of the last minute that had an
    admission, and a refused caller is told to wait between 2 and 61 seconds. *)
Lemma redis_counts_seconds ns mode identity limit calls s :
  0 < limit → zsets s !! redis_key ns identity = None → StronglySorted Z.le (0 :: calls) →
  let sts := (redis_run ns mode identity limit calls s).1 in
  allowed <$> sts = seconds_run limit [] calls
  ∧ Forall (λ st, ∀ w, retry_after_secs st = Some w → 2 ≤ w ≤ 61) sts.
Proof.
  intros Hlim Hz Hs. apply (redis_run_log ns mode identity limit calls 0 [] s); [done| |done|done].
  rewrite Hz. by split.
Qed.

Lemma seconds_log limit times : ∀ log, StronglySorted Z.lt times → (∀ x y, x ∈ log → y ∈ times → x < y) →
  seconds_run limit log times = log_run limit log times.
Proof.
  induction times as [|now times IH]; intros log Hs Hle; [done|]. cbn [seconds_run log_run].
  apply StronglySorted_cons in Hs as [Hnow Hs]. rewrite Forall_forall in Hnow.
  assert (log_second now log = log ++ [now]) as Hsec.
  { unfold log_second. rewrite decide_False; [done|]. intros Hin. specialize (Hle now now Hin ltac:(left)). lia. }
  rewrite Hsec, IH; [done|done|]. intros x y Hx Hy. destruct (_ <? _).
  - apply elem_of_app in Hx as [Hx| ->%list_elem_of_singleton]; [|by apply Hnow]. apply Hle; [done|by right].
  - apply Hle; [done|by right].
Qed.

(** Calls in different seconds see a sliding window: the decisions are those of
    a log of admitted times, never more than [limit] in any 60 seconds. *)
Lemma redis_sliding_window ns mode identity limit calls s :
  0 < limit → zsets s !! redis_key ns identity = None →
  StronglySorted Z.le (0 :: calls) → StronglySorted Z.lt calls →
  let sts := (redis_run ns mode identity limit calls s).1 in
  allowed <$> sts = log_run limit [] calls
  ∧ (∀ t, Z.of_nat (length (filter (λ x, (t - 60 < x ∧ x ≤ t)%Z) (admitted calls (allowed <$> sts)))) ≤ limit).
Proof.
  intros Hlim Hz Hs Hlt. cbn zeta.
  destruct (redis_counts_seconds ns mode identity limit calls s Hlim Hz Hs) as [-> _].
  rewrite seconds_log by (done || by intros x y ?%elem_of_nil). split; [done|]. apply (log_bound limit calls []).
  - intros t. cbn. lia.
  - by apply StronglySorted_cons in Hs as [_ Hs].
  - intros x y Hx. by apply elem_of_nil in Hx.
Qed.

Lemma sorted_replicate n now x : x ≤ now → StronglySorted Z.le (x :: replicate n now).
Proof.
  intros Hx. apply StronglySorted_cons. split; [by apply Forall_replicate|].
  induction n as [|n IH]; [constructor|]. cbn. apply StronglySorted_cons. split; [by apply Forall_replicate|done].
Qed.

(** Calls of one second are not counted apart: a limit of two or more admits any
    number of them. *)
Lemma same_second_unlimited ns mode identity limit now n s :
  1 < limit → 0 ≤ now → zsets s !! redis_key ns identity = None →
  Forall (λ st, allowed st = true) (redis_run ns mode identity limit (replicate n now) s).1.
Proof.
  intros Hlim Hnow Hz.
  destruct (redis_counts_seconds ns mode identity limit (replicate n now) s) as [Hrun _]; [lia|done|by apply sorted_replicate|].
  assert (Forall (λ b, b = true) (seconds_run limit [] (replicate n now))) as Hall.
  { assert (∀ log, log = [] ∨ log = [now] → Forall (λ b, b = true) (seconds_run limit log (replicate n now))) as Hgen; [|by apply Hgen; left].
    clear Hrun. induction n as [|n IH]; intros log Hlog; [constructor|]. cbn [replicate seconds_run].
    assert (Z.of_nat (length (in_last_minute now log)) <? limit = true) as ->.
    { apply Z.ltb_lt. destruct Hlog as [-> | ->]; [cbn; lia|]. unfold in_last_minute.
      pose proof (length_filter (λ t, now - 60 < t) [now]). cbn [length] in *. lia. }
    constructor; [done|]. apply IH. right. unfold log_second. destruct Hlog as [-> | ->].
    - by rewrite decide_False by apply not_elem_of_nil.
    - by rewrite decide_True by left. }
  rewrite <-Hrun, Forall_fmap in Hall. exact Hall.
Qed.

End redis.

(** ** Bursts in memory *)

Section burst.
Context `{!LruCache string TokenBucketState} (hash_one : string → Z).

(** A backend with shards of room for at least one bucket. *)
Definition backend_ok (b : MemoryBackend) : Prop :=
  b ≠ [] ∧ Forall (λ s, 0 < lru_cap s)%nat b.

Definition bucket_of (identity : string) (b : MemoryBackend) : option TokenBucketState :=
  s ← b !! shard hash_one identity b; lru_view s identity.

Lemma with_capacity_ok n : backend_ok (with_capacity n).
Proof.
  split; [done|]. apply Forall_replicate. rewrite cap_new. lia.
Qed.

Lemma shard_lookup identity b : b ≠ [] → ∃ s, b !! shard hash_one identity b = Some s.
Proof.
  intros Hb. apply lookup_lt_is_Some_2. unfold shard.
  assert (0 < length b)%nat by (destruct b; [done|cbn; lia]).
  pose proof (Z.mod_pos_bound (hash_one identity) (Z.of_nat (length b))). lia.
Qed.

(** A check replaces the identity's bucket by what [take_token] leaves. *)
Lemma memory_check_bucket identity limit now b : 0 < limit → backend_ok b →
  let bucket := default {| tokens := of_Z limit; last_refill := now |} (bucket_of identity b) in
  ∃ b', memory_check hash_one identity limit now b = Some ((take_token limit now bucket).1, b')
    ∧ backend_ok b' ∧ bucket_of identity b' = Some (take_token limit now bucket).2.
Proof.
  intros Hlim [Hne Hcaps] bucket. destruct (shard_lookup identity b Hne) as [s Hs].
  assert (0 < lru_cap s)%nat as Hcap.
  { rewrite Forall_forall in Hcaps. apply Hcaps. by apply list_elem_of_lookup_2 in Hs. }
  unfold memory_check. rewrite (proj2 (Z.leb_gt _ _) Hlim), Hs. cbn [mbind option_bind].
  set (s1 := if lru_contains identity s then s else _).
  assert (lru_view s1 identity = Some bucket ∧ (0 < lru_cap s1)%nat) as [Hv Hcap1].
  { unfold bucket, bucket_of, s1, lru_contains. rewrite Hs. cbn [mbind option_bind].
    change (assoc identity (lru_entries s)) with (lru_view s identity).
    destruct (lru_view s identity) as [t|] eqn:Ev; [by rewrite Ev|]. cbn [default]. split; [|by rewrite cap_push].
    rewrite view_push. by apply view_put_same. }
  rewrite Hv. cbn [mbind option_bind]. destruct (take_token limit now bucket) as [st bk]. cbn [fst snd].
  eexists. split; [reflexivity|].
  assert (shard hash_one identity (<[shard hash_one identity b:=lru_modify identity (λ _, bk) s1]> b)
          = shard hash_one identity b) as Hsh by (unfold shard; by rewrite length_insert).
  split; [split|].
  - intros Hnil. apply (f_equal length) in Hnil. rewrite length_insert in Hnil. by destruct b.
  - apply Forall_insert; [done|]. by rewrite cap_modify.
  - unfold bucket_of. rewrite Hsh, list_lookup_insert_eq by (by apply lookup_lt_Some in Hs).
    cbn [mbind option_bind]. rewrite view_modify, decide_True, Hv by done. done.
Qed.

Lemma take_token_full limit now n : 1 ≤ n → n ≤ limit → limit < 2 ^ 31 →
  take_token limit now {| tokens := of_Z n; last_refill := now |}
  = ({| allowed := true; tokens_remaining := n - 1; retry_after_secs := None |},
     {| tokens := of_Z (n - 1); last_refill := now |}).
Proof.
  intros Hn Hl Hlim. assert (small n ∧ small limit) as [Hsn Hsl] by (unfold small; lia).
  unfold take_token. cbn [last_refill tokens].
  replace (Z.max 0 (now - now)) with 0 by lia. change (as_secs_f64 0) with (S754_zero false).
  rewrite zero_times by (apply div_finite; [done|unfold small; lia]).
  assert (f_add (of_Z n) (S754_zero false) = of_Z n) as -> by by rewrite of_Z_canon.
  rewrite of_Z_min by done. rewrite Z.min_l by lia. rewrite of_Z_leb by (done || unfold small; lia).
  rewrite (proj2 (Z.leb_le _ _) Hn). rewrite sub_one by done. rewrite floor_of_Z by lia. done.
Qed.

Lemma take_token_empty limit now : 0 < limit < 2 ^ 31 →
  ∃ w, take_token limit now {| tokens := of_Z 0; last_refill := now |}
  = ({| allowed := false; tokens_remaining := 0; retry_after_secs := Some w |},
     {| tokens := of_Z 0; last_refill := now |}) ∧ 1 ≤ w.
Proof.
  intros Hlim. assert (small limit) as Hsl by (unfold small; lia).
  unfold take_token. cbn [last_refill tokens].
  replace (Z.max 0 (now - now)) with 0 by lia. change (as_secs_f64 0) with (S754_zero false).
  rewrite zero_times by (apply div_finite; [done|unfold small; lia]).
  assert (f_min (f_add (of_Z 0) (S754_zero false)) (of_Z limit) = of_Z 0) as ->
    by by rewrite (of_Z_canon limit).
  change (SFleb (of_Z 1) (of_Z 0)) with false. cbn match. eexists. split; [done|]. lia.
Qed.

Definition granted (limit k : Z) : RateLimitStatus :=
  {| allowed := true; tokens_remaining := limit - 1 - k; retry_after_secs := None |}.

Lemma burst_from identity limit now n : ∀ k b, 0 < limit < 2 ^ 31 → backend_ok b → 0 ≤ k →
  Z.of_nat n + k = limit →
  default {| tokens := of_Z limit; last_refill := now |} (bucket_of identity b)
    = {| tokens := of_Z (Z.of_nat n); last_refill := now |} →
  ∃ w b', memory_run hash_one identity limit now (S n) b
    = Some ((granted limit <$> seqZ k (Z.of_nat n))
            ++ [{| allowed := false; tokens_remaining := 0; retry_after_secs := Some w |}], b') ∧ 1 ≤ w.
Proof.
  induction n as [|n IH]; intros k b Hlim Hok Hk Hsum Hb.
  - destruct (memory_check_bucket identity limit now b) as (b' & Hc & _ & _); [lia|done|].
    rewrite Hb in Hc. destruct (take_token_empty limit now Hlim) as (w & Ht & Hw).
    cbn [memory_run]. rewrite Hc. change (Z.of_nat 0) with 0. rewrite Ht. cbn. eauto.
  - destruct (memory_check_bucket identity limit now b) as (b' & Hc & Hok' & Hb'); [lia|done|].
    rewrite Hb in Hc, Hb'. rewrite take_token_full in Hc, Hb' by lia. cbn [fst snd] in Hc, Hb'.
    destruct (IH (k + 1) b') as (w & b'' & Hrun & Hw); [done|done|lia|lia| |].
    { rewrite Hb'. cbn [default from_option id]. f_equal. f_equal. lia. }
    cbn [memory_run] in Hrun |- *. rewrite Hc. cbn [mbind option_bind]. rewrite Hrun. cbn [mbind option_bind].
    exists w, b''. split; [|done]. rewrite (seqZ_cons k) by lia. cbn [fmap list_fmap app].
    f_equal. f_equal. f_equal; [unfold granted; f_equal; lia|].
    replace (Z.succ k) with (k + 1) by lia. replace (Z.pred (Z.of_nat (S n))) with (Z.of_nat n) by lia. done.
Qed.

(** C21: A new identity may burst exactly its limit: of [limit + 1] requests at one
    instant the first [limit] are admitted, counting down to 0 remaining, and
    the next is refused with a positive wait, in [f64] arithmetic and for
    every 32-bit limit; the limiter does not panic. *)
Theorem memory_burst identity limit now b :
  0 < limit < 2 ^ 31 → backend_ok b → bucket_of identity b = None →
  ∃ w b', memory_run hash_one identity limit now (S (Z.to_nat limit)) b
    = Some ((granted limit <$> seqZ 0 limit)
            ++ [{| allowed := false; tokens_remaining := 0; retry_after_secs := Some w |}], b') ∧ 1 ≤ w.
Proof.
  intros Hlim Hok Hnew. destruct (burst_from identity limit now (Z.to_nat limit) 0 b) as (w & b' & Hrun & Hw);
    [done|done|lia|lia| |].
  - rewrite Hnew. cbn [default]. f_equal. f_equal. lia.
  - rewrite Z2Nat.id in Hrun by lia. eauto.
Qed.
End burst.

(** ** Configuration *)

(** A configuration that parses names a known backend and fail mode, ignoring
    case and surrounding whitespace, and a Redis backend comes with a URL. *)
Theorem parse_settings_sound b url mode st : parse_settings b url mode = Ok st →
  to_ascii_lowercase (trim b) = match backend st with KindMemory => "memory" | KindRedis => "redis" end
  ∧ to_ascii_lowercase (trim mode) = match fail_mode st with FailOpen => "open" | FailClosed => "closed" end
  ∧ (backend st = KindRedis → ∃ u, redis_url st = Some u ∧ u ≠ "").
Proof.
  unfold parse_settings.
  destruct (String.eqb_spec (to_ascii_lowercase (trim b)) "memory") as [Hb|];
    [|destruct (String.eqb_spec (to_ascii_lowercase (trim b)) "redis") as [Hb|]; [|done]];
    cbn [mbind result_bind]; rewrite Hb.
  all: set (u := u0 ← url; _); assert (∀ x, u = Some x → x ≠ "") as Hu
    by (intros x; unfold u; destruct url as [y|]; cbn; [|done];
        destruct (String.eqb_spec (trim y) ""); [done|]; intros [= <-]; done).
  all: destruct (bool_decide _ && bool_decide _) eqn:Eu; [done|].
  all: destruct (String.eqb_spec (to_ascii_lowercase (trim mode)) "open") as [Hm|];
    [|destruct (String.eqb_spec (to_ascii_lowercase (trim mode)) "closed") as [Hm|]; [|done]];
    cbn [mbind result_bind]; rewrite Hm; intros [= <-]; cbn [backend fail_mode redis_url];
    (split; [done|]; split; [done|]); intros Hk; try done.
  all: destruct u as [x|]; [eauto|done].
Qed.

(** ** Examples and witnesses *)

#[local] Instance sample_buckets : LruCache string TokenBucketState := list_lru.

(** Two identities of one shard with room for one bucket: the second evicts
    the first, which starts again with a full bucket within the minute. *)
Example eviction_refills :
  (λ p, allowed p.1) <$>
    ('(_, b) ← memory_check (λ _, 0) "a" 1 0 (with_capacity 1);
     '(_, b) ← memory_check (λ _, 0) "b" 1 1 b;
     memory_check (λ _, 0) "a" 1 2 b) = Some true.
Proof. vm_compute. reflexivity. Qed.

(** Six seconds of a limit of ten buy one token, whatever the rounding. *)
Example tenth_of_a_minute :
  (take_token 10 (6 * 10 ^ 9) {| tokens := of_Z 0; last_refill := 0 |}).1
  = {| allowed := true; tokens_remaining := 0; retry_after_secs := None |}.
Proof. vm_compute. reflexivity. Qed.

#[local] Instance sample_server : RedisServer := { first_random := "0.17082803611217" }.
Definition sample_redis : RedisState := {| zsets := ∅; backend_errors := 0; last_backend_warn := 0 |}.

(** With a limit of two: three requests of one second are all admitted, those
    of two seconds fill the window, and it slides after a minute. *)
Example sample_decisions :
  allowed <$> (redis_run "api" FailOpen "anon:1.2.3.4" 2 [100; 100; 100; 101; 159; 160] sample_redis).1
  = [true; true; true; true; false; true].
Proof. vm_compute. reflexivity. Qed.

Lemma memory_burst_witness :
  ∃ w b', memory_run (λ _, 7) "anon:1.2.3.4" 3 0 4 (with_capacity 100)
    = Some ((granted 3 <$> seqZ 0 3)
            ++ [{| allowed := false; tokens_remaining := 0; retry_after_secs := Some w |}], b') ∧ 1 ≤ w.
Proof. apply (memory_burst (λ _, 7) "anon:1.2.3.4" 3 0); [lia|apply with_capacity_ok|reflexivity]. Defined.

Lemma parse_settings_sound_witness :
  to_ascii_lowercase (trim " Redis ") = "redis"
  ∧ to_ascii_lowercase (trim "closed") = "closed"
  ∧ (KindRedis = KindRedis → ∃ u, Some "redis://h" = Some u ∧ u ≠ "").
Proof.
  apply (parse_settings_sound " Redis " (Some " redis://h") "closed"
    {| backend := KindRedis; redis_url := Some "redis://h"; fail_mode := FailClosed |}).
  vm_compute. reflexivity.
Defined.
