(* ===== verification/ApiError.v ===== *)
(** * ApiError: error values and the responses they become ([lumenqraph-api/src/error.rs])

    [ApiError] is the error type of handlers and middleware; [into_response]
    renders it as a status, headers and a JSON body with a stable [code].
    [Response] is what the middlewares and handlers of the API answer. *)
From S2P Require Import Prelude Text Containers Values Pagination.

Local Open Scope Z_scope.

Module ErrorCode.
Inductive t : Type :=
  | BadRequest
  | InvalidContractId
  | Unauthorized
  | KeyExpired
  | InsufficientScope
  | NotFound
  | Conflict
  | RateLimited
  | SimulationFailed
  | NotAViewFunction
  | SpecUnavailable
  | FeatureDisabled
  | InternalError.

#[export] Instance t_eq_dec : EqDecision t.
Proof. solve_decision. Defined.

(** [ErrorCode::as_str]. *)
Definition to_str (c : t) : string :=
  match c with
  | BadRequest => "bad_request"
  | InvalidContractId => "invalid_contract_id"
  | Unauthorized => "unauthorized"
  | KeyExpired => "key_expired"
  | InsufficientScope => "insufficient_scope"
  | NotFound => "not_found"
  | Conflict => "conflict"
  | RateLimited => "rate_limited"
  | SimulationFailed => "simulation_failed"
  | NotAViewFunction => "not_a_view_function"
  | SpecUnavailable => "spec_unavailable"
  | FeatureDisabled => "feature_disabled"
  | InternalError => "internal_error"
  end.
End ErrorCode.

Record Response := { status : Z; response_headers : list (string * string); body : Json }.

(** [Internal] keeps the text of the error it wraps. *)
Inductive ApiError : Type :=
  | Status (status : Z) (code : ErrorCode.t) (msg : string)
  | RateLimited (retry_after_secs : option Z) (message : string)
  | SimulationFailedWithContractError (message : string) (contract_error : Json)
  | Internal (e : string).

Definition unauthorized (msg : string) : ApiError := Status 401 ErrorCode.Unauthorized msg.
Definition key_expired : ApiError := Status 401 ErrorCode.KeyExpired "API key expired".
Definition insufficient_scope (required : string) : ApiError :=
  Status 403 ErrorCode.InsufficientScope ("API key lacks required scope `" +:+ required +:+ "`").
Definition too_many_requests (retry_after_secs : option Z) : ApiError :=
  RateLimited retry_after_secs "rate limit exceeded".
Definition bad_request (msg : string) : ApiError := Status 400 ErrorCode.BadRequest msg.
Definition invalid_contract_id : ApiError := Status 400 ErrorCode.InvalidContractId "invalid contract id".
Definition not_found (msg : string) : ApiError := Status 404 ErrorCode.NotFound msg.
Definition conflict (msg : string) : ApiError := Status 409 ErrorCode.Conflict msg.
Definition simulation_failed (msg : string) : ApiError := Status 400 ErrorCode.SimulationFailed msg.
Definition simulation_failed_with_contract_error (msg : string) (contract_error : option Json) : ApiError :=
  match contract_error with
  | None => Status 400 ErrorCode.SimulationFailed msg
  | Some detail => SimulationFailedWithContractError msg detail
  end.
Definition spec_unavailable (msg : string) : ApiError := Status 404 ErrorCode.SpecUnavailable msg.
Definition feature_disabled (msg : string) : ApiError := Status 501 ErrorCode.FeatureDisabled msg.

(** The errors of [PageRequest::parse]. *)
Definition page_error (e : Pagination.ApiError) : ApiError :=
  match e with
  | InvalidCursorParam => bad_request "invalid cursor: invalid cursor"
  | OffsetTooDeep => bad_request ("offset pagination is limited to " +:+ show_i MAX_OFFSET +:+
      " rows. For deeper pages, use cursor pagination with the 'after' parameter (see API documentation).")
  end.

Definition error_body (code : ErrorCode.t) (message : string) : list (string * Json) :=
  [("code", JStr (ErrorCode.to_str code)); ("error", JStr message)].

(** [IntoResponse for ApiError]: the status, code, message and hint, then the
    response. *)
Definition status_code_message (e : ApiError) : Z * ErrorCode.t * string * option Z :=
  match e with
  | Status s c m => (s, c, m, None)
  | RateLimited retry m => (429, ErrorCode.RateLimited, m, retry)
  | SimulationFailedWithContractError m _ => (400, ErrorCode.SimulationFailed, m, None)
  | Internal _ => (500, ErrorCode.InternalError, "internal error", None)
  end.

Definition into_response (e : ApiError) : Response :=
  match e with
  | SimulationFailedWithContractError message contract_error =>
      {| status := 400; response_headers := [];
         body := mk_obj (error_body ErrorCode.SimulationFailed message
                         ++ [("contract_error", contract_error)]) |}
  | _ =>
      let '(s, code, message, retry_after_secs) := status_code_message e in
      {| status := s;
         response_headers := match retry_after_secs with
                             | Some secs => [("Retry-After", show_u secs)]
                             | None => []
                             end;
         body := mk_obj (error_body code message) |}
  end.

Definition rate_limit_error : Json := mk_obj (error_body ErrorCode.RateLimited "rate limit exceeded").

(** ** Lemmas *)

Lemma to_str_inj c d : ErrorCode.to_str c = ErrorCode.to_str d → c = d.
Proof. by destruct c, d. Qed.

(** Every error, whatever it wraps, is answered with an object whose [code] is
    a stable identifier that determines the error's code and whose [error] is
    text; only a contract error adds a field; and only a rate limit with a
    hint adds a header.  What an internal error says stays on the server. *)
Theorem error_envelope e :
  let '(s, code, message, retry) := status_code_message e in
  let r := into_response e in
  status r = s
  ∧ (∃ m, body r = JObj m ∧ bt_get "code" m = Some (JStr (ErrorCode.to_str code))
       ∧ bt_get "error" m = Some (JStr message)
       ∧ bt_get "contract_error" m
         = match e with SimulationFailedWithContractError _ d => Some d | _ => None end)
  ∧ response_headers r = match retry with Some secs => [("Retry-After", show_u secs)] | None => [] end
  ∧ (∀ c d, ErrorCode.to_str c = ErrorCode.to_str d → c = d)
  ∧ (∀ text, e = Internal text → r = into_response (Internal "")).
Proof.
  destruct e as [s c m|retry m|m d|t]; cbn; (split; [done|]); (split; [by eexists|]); (split; [done|]);
    (split; [exact to_str_inj|by intros text [= ->]]).
Qed.
