(* ===== verification/KeyCache.v ===== *)
(** * KeyCache: the cache of API key lookups ([lumenqraph-api/src/key_cache.rs])

    [KeyCache] answers lookups of key hashes in the table [api_keys] for [ttl]
    (valid keys) or [neg_ttl] (revoked and unknown ones).  Instants are
    nanoseconds of the monotonic clock.  The literal of [insert_valid] in the
    source leaves out the fields [scopes], [expires_at] and [last_touch]; the
    model stores the arguments of those names and no touch.
    [LAST_USED_TOUCH_SECS] is used but not declared in the source and is a
    parameter.

    The main result relates the cache to the table as it changes over time:
    whatever the interleaving of lookups, table reads and insertions, an answer
    is what the table said less than its TTL (plus the time one read may take)
    ago. *)
From S2P Require Import Prelude Text Lru.

Local Open Scope Z_scope.

(** [expires_at] of a key is wall-clock time. *)
Inductive CachedKey : Type :=
  | Valid (rate_limit_per_min : Z) (scopes : list string) (expires_at : option Z)
  | Revoked
  | NotFound.

#[export] Instance CachedKey_eq_dec : EqDecision CachedKey.
Proof. solve_decision. Defined.

Record Entry := { value : CachedKey; fresh_until : Z; last_touch : option Z }.

(** A row of [api_keys]. *)
Record KeyRow := {
  revoked : bool;
  row_rate_limit : Z;
  row_scopes : list string;
  row_expires_at : option Z;
}.

(** What a table lookup puts into the cache. *)
Definition cached_of (row : option KeyRow) : CachedKey :=
  match row with
  | Some r => if revoked r then Revoked
              else Valid (row_rate_limit r) (row_scopes r) (row_expires_at r)
  | None => NotFound
  end.

Section key_cache.
Context `{!LruCache string Entry} (LAST_USED_TOUCH_SECS : Z).

Record KeyCache := { key_inner : lru; key_ttl : Z; key_neg_ttl : Z }.

Definition key_cache_new (capacity : nat) (ttl neg_ttl : Z) : KeyCache :=
  {| key_inner := lru_new (max capacity 1); key_ttl := ttl; key_neg_ttl := neg_ttl |}.

Definition with_keys (i : lru) (c : KeyCache) : KeyCache :=
  {| key_inner := i; key_ttl := key_ttl c; key_neg_ttl := key_neg_ttl c |}.

Definition is_fresh (now : Z) (e : Entry) : bool := now <? fresh_until e.

Definition key_get (key_hash : string) (now : Z) (c : KeyCache) : option CachedKey * KeyCache :=
  let '(found, cache) := lru_get key_hash (key_inner c) in
  match found with
  | Some entry =>
      if is_fresh now entry then (Some (value entry), with_keys cache c)
      else (None, with_keys (lru_pop key_hash cache).2 c)
  | None => (None, with_keys cache c)
  end.

Definition put_key (key_hash : string) (v : CachedKey) (until : Z) (c : KeyCache) : KeyCache :=
  with_keys (lru_put key_hash {| value := v; fresh_until := until; last_touch := None |} (key_inner c)).2 c.

Definition insert_valid (key_hash : string) (rate_limit_per_min : Z) (scopes : list string)
    (expires_at : option Z) (now : Z) (c : KeyCache) : KeyCache :=
  put_key key_hash (Valid rate_limit_per_min scopes expires_at) (now + key_ttl c) c.

Definition insert_revoked (key_hash : string) (now : Z) (c : KeyCache) : KeyCache :=
  put_key key_hash Revoked (now + key_neg_ttl c) c.

Definition insert_not_found (key_hash : string) (now : Z) (c : KeyCache) : KeyCache :=
  put_key key_hash NotFound (now + key_neg_ttl c) c.

Definition touched_at (now : Z) (e : Entry) : Entry :=
  {| value := value e; fresh_until := fresh_until e; last_touch := Some now |}.

Definition should_touch_last_used (key_hash : string) (now : Z) (c : KeyCache) : bool * KeyCache :=
  match lru_view (key_inner c) key_hash with
  | None => (false, c)
  | Some entry =>
      let due := match last_touch entry with
                 | None => true
                 | Some t => LAST_USED_TOUCH_SECS * 10 ^ 9 <=? Z.max 0 (now - t)
                 end in
      (due, with_keys (lru_modify key_hash (if due then touched_at now else id) (key_inner c)) c)
  end.

Definition key_invalidate (key_hash : string) (c : KeyCache) : KeyCache :=
  with_keys (lru_pop key_hash (key_inner c)).2 c.

(** ** The cache and the table *)

(** The table as a function of monotonic time; a read takes at most [L]. *)
Context (db : Z → string → option KeyRow) (L : Z).

Definition ttl_of (c : KeyCache) (v : CachedKey) : Z :=
  match v with Valid _ _ _ => key_ttl c | _ => key_neg_ttl c end.

(** An entry is what the table said at most [L] before it was inserted. *)
Definition entry_sound (c : KeyCache) (now : Z) (h : string) (e : Entry) : Prop :=
  ∃ read, value e = cached_of (db read h) ∧ read ≤ now
    ∧ fresh_until e ≤ read + L + ttl_of c (value e).

Definition cache_sound (now : Z) (c : KeyCache) : Prop :=
  ∀ h e, lru_view (key_inner c) h = Some e → entry_sound c now h e.

(** Lookups, table reads and insertions of concurrent requests. *)
Record KeySys := {
  cache : KeyCache;
  clock : Z;
  in_flight : list (string * option KeyRow * Z);
}.

(** What [resolve_key] inserts for a row it read. *)
Definition fill (h : string) (row : option KeyRow) (now : Z) (c : KeyCache) : KeyCache :=
  match row with
  | Some r => if revoked r then insert_revoked h now c
              else insert_valid h (row_rate_limit r) (row_scopes r) (row_expires_at r) now c
  | None => insert_not_found h now c
  end.

Inductive key_step : KeySys → KeySys → Prop :=
  | step_tick t s : clock s ≤ t →
      key_step s {| cache := cache s; clock := t; in_flight := in_flight s |}
  | step_lookup h s :
      key_step s {| cache := (key_get h (clock s) (cache s)).2; clock := clock s;
                    in_flight := in_flight s |}
  | step_read h s :
      key_step s {| cache := cache s; clock := clock s;
                    in_flight := (h, db (clock s) h, clock s) :: in_flight s |}
  | step_fill h row read s rest :
      in_flight s ≡ₚ (h, row, read) :: rest → clock s ≤ read + L →
      key_step s {| cache := fill h row (clock s) (cache s); clock := clock s; in_flight := rest |}
  | step_touch h s :
      key_step s {| cache := (should_touch_last_used h (clock s) (cache s)).2; clock := clock s;
                    in_flight := in_flight s |}
  | step_invalidate h s :
      key_step s {| cache := key_invalidate h (cache s); clock := clock s; in_flight := in_flight s |}.

(** ** Lemmas: the operations keep the cache sound *)

Lemma key_get_params h now c :
  key_ttl (key_get h now c).2 = key_ttl c ∧ key_neg_ttl (key_get h now c).2 = key_neg_ttl c.
Proof. unfold key_get. destruct (lru_get _ _) as [[e|] i]; [destruct (is_fresh _ _)|]; done. Qed.

Lemma cache_sound_view now c c' :
  key_ttl c' = key_ttl c → key_neg_ttl c' = key_neg_ttl c →
  (∀ h e, lru_view (key_inner c') h = Some e →
     ∃ e0, lru_view (key_inner c) h = Some e0 ∧ value e = value e0 ∧ fresh_until e = fresh_until e0) →
  cache_sound now c → cache_sound now c'.
Proof.
  intros Ht Hn Hv Hc h e He. destruct (Hv h e He) as (e0 & H0 & Hval & Hf).
  destruct (Hc h e0 H0) as (read & H1 & H2 & H3). exists read. rewrite Hval, Hf. split; [done|].
  split; [done|]. unfold ttl_of in *. by rewrite Ht, Hn.
Qed.

Lemma key_get_view h now c h' e :
  lru_view (key_inner (key_get h now c).2) h' = Some e → lru_view (key_inner c) h' = Some e.
Proof.
  unfold key_get. pose proof (view_get h (key_inner c)) as Hv.
  destruct (lru_get h (key_inner c)) as [[e0|] i]; cbn [snd] in Hv.
  - destruct (is_fresh now e0); cbn; [by rewrite Hv|]. rewrite view_pop. case_decide; [done|]. by rewrite Hv.
  - cbn. by rewrite Hv.
Qed.

Lemma key_get_sound h now t c : cache_sound now c → cache_sound now (key_get h t c).2.
Proof.
  apply cache_sound_view; [apply key_get_params..|]. intros h' e He. exists e.
  split; [by eapply key_get_view|done].
Qed.

Lemma touch_sound h now t c : cache_sound now c → cache_sound now (should_touch_last_used h t c).2.
Proof.
  unfold should_touch_last_used. destruct (lru_view (key_inner c) h) as [e0|] eqn:E; [|done].
  apply cache_sound_view; [done..|]. intros h' e. cbn. rewrite view_modify. case_decide; [subst h'|eauto].
  rewrite E. cbn. intros [= <-]. exists e0. by destruct (match last_touch e0 with None => true | _ => _ end).
Qed.

Lemma invalidate_sound h now c : cache_sound now c → cache_sound now (key_invalidate h c).
Proof.
  apply cache_sound_view; [done..|]. intros h' e. cbn. rewrite view_pop. case_decide; [done|eauto].
Qed.

Lemma put_sound h v read until now c : v = cached_of (db read h) → read ≤ now →
  until ≤ read + L + ttl_of c v → cache_sound now c → cache_sound now (put_key h v until c).
Proof.
  intros Hv Hr Hu Hc h' e He. cbn in He. apply view_put_Some in He as [[-> ->]|[_ He]].
  - exists read. by split.
  - by apply Hc in He.
Qed.

Lemma fill_sound h read now c : read ≤ now ≤ read + L → cache_sound now c →
  cache_sound now (fill h (db read h) now c).
Proof.
  intros Hr Hc. unfold fill. destruct (db read h) as [r|] eqn:E; [destruct (revoked r) eqn:Er|].
  all: apply (put_sound _ _ read); [by rewrite E; cbn; rewrite ?Er|lia| |done]; cbn; lia.
Qed.

Lemma cache_sound_later now t c : now ≤ t → cache_sound now c → cache_sound t c.
Proof.
  intros Ht Hc h e He. destruct (Hc h e He) as (read & H1 & H2 & H3). exists read. split; [done|]. split; [lia|done].
Qed.

(** A fresh answer is recent: read from the table less than its TTL plus [L]
    ago. *)
Lemma key_get_recent h now c v : cache_sound now c → (key_get h now c).1 = Some v →
  ∃ read, now - ttl_of c v - L < read ≤ now ∧ v = cached_of (db read h).
Proof.
  intros Hc. unfold key_get. pose proof (get_result h (key_inner c)) as Hres.
  destruct (lru_get h (key_inner c)) as [found i]. cbn [fst] in Hres. subst found.
  destruct (assoc h (lru_entries (key_inner c))) as [e|] eqn:E; [|done].
  unfold is_fresh. destruct (Z.ltb_spec now (fresh_until e)) as [Hf|]; [|done]. intros [= <-].
  destruct (Hc h e E) as (read & H1 & H2 & H3). exists read. split; [lia|done].
Qed.

Definition sys_inv (s : KeySys) : Prop :=
  cache_sound (clock s) (cache s)
  ∧ Forall (λ f, f.1.2 = db f.2 f.1.1 ∧ f.2 ≤ clock s) (in_flight s).

Lemma sys_inv_step s s' : key_step s s' → sys_inv s → sys_inv s'.
Proof.
  intros Hstep [Hc Hf]. destruct Hstep as [t s Ht|h s|h s|h row read s rest Hp Hl|h s|h s]; split; cbn [cache clock in_flight]; try done.
  - by eapply cache_sound_later.
  - eapply Forall_impl; [exact Hf|]. cbn. intros f [? ?]. split; [done|lia].
  - by apply key_get_sound.
  - constructor; [cbn; split; [done|lia]|done].
  - rewrite Hp in Hf. inversion Hf as [|? ? [Hrow Hr] _]; subst. cbn in Hrow, Hr. subst row.
    apply fill_sound; [lia|done].
  - rewrite Hp in Hf. by inversion Hf.
  - by apply touch_sound.
  - by apply invalidate_sound.
Qed.

Definition sys_init (capacity : nat) (ttl neg_ttl now : Z) : KeySys :=
  {| cache := key_cache_new capacity ttl neg_ttl; clock := now; in_flight := [] |}.

Lemma step_params s s' : key_step s s' →
  key_ttl (cache s') = key_ttl (cache s) ∧ key_neg_ttl (cache s') = key_neg_ttl (cache s).
Proof.
  destruct 1 as [| | |h row read s rest _ _|h s|]; cbn [cache]; try done.
  - apply key_get_params.
  - unfold fill. destruct row as [r|]; [by destruct (revoked r)|done].
  - unfold should_touch_last_used. by destruct (lru_view _ _).
Qed.

(** Revocation latency: however lookups, table reads and insertions of
    concurrent requests interleave, a key that a lookup answers as valid was a
    non-revoked row of the table, with that limit, those scopes and that
    expiry, less than the TTL plus the time of one read ago; likewise for the
    negative answers and their TTL. *)
Theorem key_answers_recent capacity ttl neg_ttl t0 s h v :
  rtc key_step (sys_init capacity ttl neg_ttl t0) s →
  (key_get h (clock s) (cache s)).1 = Some v →
  ∃ read, clock s - (match v with Valid _ _ _ => ttl | _ => neg_ttl end) - L < read ≤ clock s
    ∧ v = cached_of (db read h).
Proof.
  intros Hr Hget.
  assert (sys_inv s ∧ key_ttl (cache s) = ttl ∧ key_neg_ttl (cache s) = neg_ttl) as ([Hc _] & Ht & Hn).
  { assert (sys_inv (sys_init capacity ttl neg_ttl t0)) as H0.
    { split; [|constructor]. intros h' e. cbn. by rewrite view_new. }
    remember (sys_init capacity ttl neg_ttl t0) as s0 eqn:E.
    assert (key_ttl (cache s0) = ttl ∧ key_neg_ttl (cache s0) = neg_ttl) as Hp by by subst.
    clear E Hget. induction Hr as [|a b c Hab Hbc IH]; [done|].
    destruct (step_params a b Hab) as [Ha Hb]. apply IH; [by eapply sys_inv_step|].
    destruct Hp. split; congruence. }
  destruct (key_get_recent h (clock s) (cache s) v Hc Hget) as (read & Hread & Hv).
  exists read. split; [|done]. unfold ttl_of in Hread. rewrite Ht, Hn in Hread. by destruct v.
Qed.
End key_cache.

(** ** A witness *)

#[local] Instance sample_entries : LruCache string Entry := list_lru.

Definition sample_db (t : Z) (h : string) : option KeyRow :=
  if t <? 20 then Some {| revoked := 10 <=? t; row_rate_limit := 60; row_scopes := ["read"]; row_expires_at := None |}
  else None.

(** Read at 9, just before the revocation; filled at 11; asked at 40. *)
Lemma key_answers_recent_witness :
  ∃ s, rtc (key_step 60 sample_db 5) (sys_init 10 50 5 9) s ∧ clock s = 40
    ∧ (key_get "h" (clock s) (cache s)).1 = Some (Valid 60 ["read"] None)
    ∧ ∃ read, 40 - 50 - 5 < read ≤ 40 ∧ Valid 60 ["read"] None = cached_of (sample_db read "h").
Proof.
  set (s0 := sys_init 10 50 5 9).
  set (s1 := {| cache := cache s0; clock := 9; in_flight := [("h", sample_db 9 "h", 9)] |}).
  set (s2 := {| cache := cache s1; clock := 11; in_flight := in_flight s1 |}).
  set (s3 := {| cache := fill "h" (sample_db 9 "h") 11 (cache s2); clock := 11; in_flight := [] |}).
  set (s4 := {| cache := cache s3; clock := 40; in_flight := [] |}).
  assert (rtc (key_step 60 sample_db 5) s0 s4) as Hrun.
  { apply (rtc_l _ s0 s1); [exact (step_read 60 sample_db 5 "h" s0)|].
    apply (rtc_l _ s1 s2); [apply (step_tick 60 sample_db 5 11 s1); cbn; lia|].
    apply (rtc_l _ s2 s3); [apply (step_fill 60 sample_db 5 "h" (sample_db 9 "h") 9 s2 []); [done|cbn; lia]|].
    apply (rtc_l _ s3 s4); [apply (step_tick 60 sample_db 5 40 s3); cbn; lia|reflexivity]. }
  exists s4. split; [exact Hrun|]. split; [reflexivity|]. split; [vm_compute; reflexivity|].
  apply (key_answers_recent 60 sample_db 5 10 50 5 9 s4 "h" (Valid 60 ["read"] None) Hrun).
  vm_compute. reflexivity.
Defined.
