(* ===== verification/Auth.v ===== *)
(** * Auth: API keys, client addresses and rate limits ([lumenqraph-api/src/auth.rs])

    The middleware of the API: who is calling ([extract_key], [authenticate],
    [extract_client_ip]), whether the caller may go on (scopes, expiry, rate
    limits) and the audit trail.  The shared state is an [ApiState] passed
    through; what the outside decides in a request (clocks, table rows, the
    handler's status) is a [RequestEnv].  SHA-256 and [hex] are [CryptoLib],
    the [lru] crate is [LruCache]; the limiter behind each route group is the
    interface [Limiter]. *)
From S2P Require Import Prelude Text Crypto Lru Values UrlValidation ApiError Limits KeyCache RateLimit.
From Stdlib Require Import Ascii.
From Stdlib Require String.

Local Open Scope Z_scope.

(** ** Credentials *)

(** The lines of a [HeaderMap] with lower-case names, in order; [None] is a
    value [to_str] refuses.  [get] returns the first line of a name. *)
Notation HeaderMap := (list (string * option string)).

Definition header_str (name : string) (headers : HeaderMap) : option string :=
  v ← assoc name headers; v.

Definition hash_key `{CryptoLib} (key : string) : string := hex_encode (sha256 key).

Definition extract_key (headers : HeaderMap) : option string :=
  let from_bearer :=
    raw ← header_str "authorization" headers;
    '(scheme, rest) ← split_once " " (trim raw);
    if negb (eq_ignore_ascii_case scheme "bearer") then None
    else
      let token := trim rest in
      if String.eqb token "" then None else Some token in
  match header_str "x-api-key" headers with
  | Some v => let v := trim v in if negb (String.eqb v "") then Some v else from_bearer
  | None => from_bearer
  end.

(** ** Client addresses *)

Record IpConfig := { trusted_proxy_hops : nat; platform_header : option string }.

Definition parse_trusted_proxy_hops (raw : option string) : nat :=
  Z.to_nat (default 0 (v ← raw; parse_uint 64 (trim v))).

(** [IpConfig::from_env] of the two variables. *)
Definition ip_config_from_env (hops client_ip_header : option string) : IpConfig :=
  {| trusted_proxy_hops := parse_trusted_proxy_hops hops;
     platform_header := v ← client_ip_header;
                        let v := to_lowercase (trim v) in
                        if String.eqb v "" then None else Some v |}.

(** [s.rsplit_once(c)]. *)
Fixpoint rsplit_once (c : ascii) (s : string) : option (string * string) :=
  match s with
  | EmptyString => None
  | String a s' =>
      match rsplit_once c s' with
      | Some (x, y) => Some (String a x, y)
      | None => if Ascii.eqb a c then Some (EmptyString, s') else None
      end
  end.

(** [parse_client_ip]: the address; [addr.to_string()] is [ip_to_string]. *)
Definition parse_client_addr (raw : string) : option IpAddr :=
  let s := trim raw in
  match strip_prefix "[" s with
  | Some rest =>
      '(inner, after) ← split_once "]" rest;
      if String.eqb after "" then parse_ip inner
      else (port ← strip_prefix ":" after; _ ← parse_uint 16 port; parse_ip inner)
  | None =>
      match parse_ip s with
      | Some ip => Some ip
      | None =>
          '(host, port) ← rsplit_once ":" s;
          _ ← parse_uint 16 port;
          parse_ip host
      end
  end.

Section client_ip.
(** [impl Display for IpAddr] of the standard library. *)
Context (ip_to_string : IpAddr → string).

Definition parse_client_ip (raw : string) : option string := ip_to_string <$> parse_client_addr raw.

Definition extract_client_ip (headers : HeaderMap) (socket_addr : option IpAddr) (cfg : IpConfig) : string :=
  let from_socket := match socket_addr with Some ip => ip_to_string ip | None => "unknown" end in
  let from_xff :=
    if (0 <? trusted_proxy_hops cfg)%nat then
      match header_str "x-forwarded-for" headers with
      | Some xff =>
          let parts := trim <$> split_on "," xff in
          if (trusted_proxy_hops cfg <=? length parts)%nat
          then match part ← parts !! (length parts - trusted_proxy_hops cfg)%nat; parse_client_ip part with
               | Some ip => ip
               | None => from_socket
               end
          else from_socket
      | None => from_socket
      end
    else from_socket in
  match platform_header cfg with
  | Some name =>
      match v ← header_str name headers; parse_client_ip v with
      | Some ip => ip
      | None => from_xff
      end
  | None => from_xff
  end.
End client_ip.

(** ** Responses *)

Definition rate_limited_response (limit : Z) (retry_after_secs : option Z) (tokens_remaining : Z) : Response :=
  {| status := 429;
     response_headers :=
       match retry_after_secs with Some secs => [("Retry-After", show_u secs)] | None => [] end
       ++ [("X-RateLimit-Limit", show_i limit); ("X-RateLimit-Remaining", show_i tokens_remaining)];
     body := rate_limit_error |}.

(** [i32::try_from(limit).unwrap_or(i32::MAX)]. *)
Definition concurrency_limited_response (limit : Z) : Response :=
  let limit := if in_i 32 limit then limit else 2 ^ 31 - 1 in
  let r := rate_limited_response limit (Some 1) 0 in
  {| status := status r; response_headers := response_headers r ++ [("X-Concurrency-Limit", show_i limit)];
     body := body r |}.

(** ** The audit queue and its writer *)

Record AuditEvent := {
  key_hash_prefix : string;
  audit_route : string;
  http_method : string;
  status_code : Z;
}.

Definition AUDIT_QUEUE_CAPACITY : nat := Nat.mul 100 100.
Definition AUDIT_BATCH_ROWS : nat := 500.

(** What wakes the writer: an event, the end of the channel (every sender is
    gone and the queue is empty), the ticker. *)
Inductive WriterWake : Type := Received (e : AuditEvent) | ChannelClosed | Ticked.

Record Writer := { batch : list AuditEvent; audit_log : list AuditEvent; running : bool }.

(** [flush_audit_batch]: one multi-row insert; a failed one loses the batch. *)
Definition flush_audit_batch (insert_ok : bool) (w : Writer) : Writer :=
  match batch w with
  | [] => w
  | rows => {| batch := []; audit_log := if insert_ok then audit_log w ++ rows else audit_log w;
               running := running w |}
  end.

(** A turn of [spawn_audit_writer]'s loop. *)
Definition writer_step (wake : WriterWake) (insert_ok : bool) (w : Writer) : Writer :=
  match wake with
  | Received e =>
      let w := {| batch := batch w ++ [e]; audit_log := audit_log w; running := running w |} in
      if (AUDIT_BATCH_ROWS <=? length (batch w))%nat then flush_audit_batch insert_ok w else w
  | ChannelClosed =>
      let w := flush_audit_batch insert_ok w in
      {| batch := batch w; audit_log := audit_log w; running := false |}
  | Ticked => flush_audit_batch insert_ok w
  end.

(** ** The interface of a rate limiter *)

(** [limiter_env] is what the outside decides in a check (clock, Redis);
    [None] is a panic. *)
Class Limiter := {
  limiter : Type;
  limiter_env : Type;
  limiter_ok : limiter → Prop;
  limiter_check : string → Z → limiter_env → limiter → option (RateLimitStatus * limiter);
  limiter_total id limit env l : limiter_ok l →
    ∃ st l', limiter_check id limit env l = Some (st, l') ∧ limiter_ok l';
  limiter_unlimited id limit env l : limit ≤ 0 → limiter_check id limit env l = Some (unlimited limit, l);
}.

Inductive LimiterName : Type := MainLimiter | RpcLimiter | WebhookLimiter | ProxyLimiter.

#[export] Instance LimiterName_eq_dec : EqDecision LimiterName.
Proof. solve_decision. Defined.

(** ** The state and its monad *)

Section auth.
Context `{CryptoLib} `{!LruCache string Entry} `{Limiter}.
Context (LAST_USED_TOUCH_SECS : Z) (ip_to_string : IpAddr → string).

(** The sender of the audit queue with what is queued, and whether the writer
    still listens. *)
Record AuditChannel := { queued : list AuditEvent; listening : bool }.

Record ApiState := {
  key_cache : KeyCache;
  audit_tx : option AuditChannel;
  audit_dropped : Z;
  http_requests : Z;
  touches : list string;            (** spawned updates of [last_used_at] *)
  limiters : LimiterName → limiter;
}.

Record ApiConfig := {
  require_auth : bool;
  anon_rate_limit : Z;
  rpc_require_auth : bool;
  rpc_anon_rate_limit : Z;
  webhook_anon_rate_limit : Z;
  proxy_rate_limit_per_min : Z;
  ip_config : IpConfig;
}.

(** What the outside decides in one request: the monotonic times of the cache
    lookup, the insertion and the touch, the wall clock, the table's answer, the
    limiter's environment, and the status the handler returns (given the key
    hash it finds in the request's extensions). *)
Record RequestEnv := {
  lookup_time : Z;
  insert_time : Z;
  touch_time : Z;
  utc_now : Z;
  table_answer : result string (option KeyRow);
  check_env : limiter_env;
  handler : option string → Z;
}.

Record Request := {
  headers : HeaderMap;
  method : string;
  uri : string;
  socket_addr : IpAddr;
}.

Inductive Stop : Type := Reject (e : ApiError) | Panic.

Definition Api (A : Type) : Type := ApiState → result Stop A * ApiState.

#[local] Instance api_ret : MRet Api := λ A a s, (Ok a, s).
#[local] Instance api_bind : MBind Api := λ A B f m s,
  match m s with (Ok a, s') => f a s' | (Err e, s') => (Err e, s') end.

Definition throw {A} (e : ApiError) : Api A := λ s, (Err (Reject e), s).
Definition modify (f : ApiState → ApiState) : Api () := λ s, (Ok (), f s).
Definition ask {A} (f : ApiState → A) : Api A := λ s, (Ok (f s), s).

Definition with_key_cache (c : KeyCache) (s : ApiState) : ApiState :=
  {| key_cache := c; audit_tx := audit_tx s; audit_dropped := audit_dropped s;
     http_requests := http_requests s; touches := touches s; limiters := limiters s |}.
Definition with_audit (tx : option AuditChannel) (dropped : Z) (s : ApiState) : ApiState :=
  {| key_cache := key_cache s; audit_tx := tx; audit_dropped := dropped;
     http_requests := http_requests s; touches := touches s; limiters := limiters s |}.
Definition count_request (s : ApiState) : ApiState :=
  {| key_cache := key_cache s; audit_tx := audit_tx s; audit_dropped := audit_dropped s;
     http_requests := wrap 64 (http_requests s + 1); touches := touches s; limiters := limiters s |}.
Definition with_limiter (name : LimiterName) (l : limiter) (s : ApiState) : ApiState :=
  {| key_cache := key_cache s; audit_tx := audit_tx s; audit_dropped := audit_dropped s;
     http_requests := http_requests s; touches := touches s;
     limiters := λ n, if decide (n = name) then l else limiters s n |}.

(** [touch_last_used]: the update runs in a task of its own. *)
Definition touch_last_used (hash : string) (s : ApiState) : ApiState :=
  {| key_cache := key_cache s; audit_tx := audit_tx s; audit_dropped := audit_dropped s;
     http_requests := http_requests s; touches := touches s ++ [hash]; limiters := limiters s |}.

(** [s.chars().take(8).collect()]. *)
Definition prefix8 (s : string) : string := of_chars (take 8 (chars s)).

Definition log_audit_event (hash route method : string) (code : Z) (s : ApiState) : ApiState :=
  match audit_tx s with
  | None => s
  | Some ch =>
      let event := {| key_hash_prefix := prefix8 hash; audit_route := route; http_method := method;
                      status_code := code |} in
      if listening ch && (length (queued ch) <? AUDIT_QUEUE_CAPACITY)%nat
      then with_audit (Some {| queued := queued ch ++ [event]; listening := true |}) (audit_dropped s) s
      else with_audit (Some ch) (wrap 64 (audit_dropped s + 1)) s
  end.

(** ** Keys *)

Definition SCOPE_READ : string := "read".
Definition SCOPE_RPC : string := "rpc".
Definition SCOPE_WEBHOOKS_WRITE : string := "webhooks:write".
Definition SCOPE_ADMIN : string := "admin".

Record ResolvedKey := { resolved_hash : string; resolved_limit : Z; resolved_scopes : list string }.

Definition accept_key (env : RequestEnv) (hash : string) (rate_limit : Z) (scopes : list string)
    (expires_at : option Z) (route method : string) : Api ResolvedKey :=
  if match expires_at with Some at_ => at_ <=? utc_now env | None => false end then
    _ ← modify (log_audit_event hash route method 401);
    throw key_expired
  else
    c ← ask key_cache;
    let '(due, c) := should_touch_last_used LAST_USED_TOUCH_SECS hash (touch_time env) c in
    _ ← modify (with_key_cache c);
    _ ← (if due : bool then modify (touch_last_used hash) else mret ());
    mret {| resolved_hash := hash; resolved_limit := rate_limit; resolved_scopes := scopes |}.

Definition unauthorized_key {A} (hash route method msg : string) : Api A :=
  _ ← modify (log_audit_event hash route method 401);
  throw (unauthorized msg).

Definition resolve_key (env : RequestEnv) (key route method : string) : Api ResolvedKey :=
  let hash := hash_key key in
  c ← ask key_cache;
  let '(cached, c) := key_get hash (lookup_time env) c in
  _ ← modify (with_key_cache c);
  match cached with
  | Some (Valid limit scopes expires_at) => accept_key env hash limit scopes expires_at route method
  | Some Revoked => unauthorized_key hash route method "API key revoked"
  | Some NotFound => unauthorized_key hash route method "invalid API key"
  | None =>
      match table_answer env with
      | Err e => throw (Internal e)
      | Ok row =>
          _ ← modify (λ s, with_key_cache (fill hash row (insert_time env) (key_cache s)) s);
          match row with
          | Some r =>
              if revoked r then unauthorized_key hash route method "API key revoked"
              else accept_key env hash (row_rate_limit r) (row_scopes r) (row_expires_at r) route method
          | None => unauthorized_key hash route method "invalid API key"
          end
      end
  end.

(** What the middlewares know of a caller. *)
Record Caller := {
  identity : string;
  caller_limit : Z;
  is_authenticated : bool;
  caller_hash : option string;
}.

Definition authenticate (env : RequestEnv) (key route method required : string) : Api Caller :=
  r ← resolve_key env key route method;
  if negb (existsb (λ s, String.eqb s required || String.eqb s SCOPE_ADMIN) (resolved_scopes r))
  then throw (insufficient_scope required)
  else mret {| identity := "key:" +:+ resolved_hash r; caller_limit := resolved_limit r;
               is_authenticated := true; caller_hash := Some (resolved_hash r) |}.

(** ** The middlewares *)

Inductive Outcome : Type :=
  | Limited (r : Response)
  | Handled (extension : option string) (code : Z).

Definition route_of (req : Request) : string := default "" (head (split_on "?" (uri req))).

(** [identity.split(':').nth(1).unwrap_or("unknown")]. *)
Definition identity_hash (id : string) : string := default "unknown" (split_on ":" id !! 1%nat).

Definition check_limit (name : LimiterName) (env : RequestEnv) (id : string) (limit : Z) : Api RateLimitStatus :=
  λ s, match limiter_check id limit (check_env env) (limiters s name) with
       | Some (st, l) => (Ok st, with_limiter name l s)
       | None => (Err Panic, s)
       end.

(** The body [auth_and_rate_limit], [rpc_auth_and_rate_limit] and
    [webhook_auth_and_rate_limit] share: they differ in the scope, in what an
    anonymous caller gets (an error, or a limit), in the limiter, and in whether
    the handler is given the key hash. *)
Definition gate (required : string) (anonymous : result ApiError Z) (name : LimiterName) (inject : bool)
    (cfg : ApiConfig) (env : RequestEnv) (req : Request) : Api Outcome :=
  _ ← modify count_request;
  let route := route_of req in
  caller ← match extract_key (headers req) with
           | Some key => authenticate env key route (method req) required
           | None =>
               match anonymous with
               | Err e => throw e
               | Ok limit =>
                   let client_ip := extract_client_ip ip_to_string (headers req) (Some (socket_addr req))
                                      (ip_config cfg) in
                   mret {| identity := "anon:" +:+ client_ip; caller_limit := limit;
                           is_authenticated := false; caller_hash := None |}
               end
           end;
  let audit code := if is_authenticated caller
                    then modify (log_audit_event (identity_hash (identity caller)) route (method req) code)
                    else mret () in
  st ← check_limit name env (identity caller) (caller_limit caller);
  if negb (allowed st) then
    _ ← audit 429;
    mret (Limited (rate_limited_response (caller_limit caller) (retry_after_secs st) (tokens_remaining st)))
  else
    let extension := if inject && is_authenticated caller then caller_hash caller else None in
    let code := handler env extension in
    _ ← audit code;
    mret (Handled extension code).

Definition auth_and_rate_limit (cfg : ApiConfig) : RequestEnv → Request → Api Outcome :=
  gate SCOPE_READ (if require_auth cfg then Err (unauthorized "missing API key") else Ok (anon_rate_limit cfg))
    MainLimiter false cfg.

Definition rpc_auth_and_rate_limit (cfg : ApiConfig) : RequestEnv → Request → Api Outcome :=
  gate SCOPE_RPC
    (if rpc_require_auth cfg then Err (unauthorized "RPC routes require API key; missing or invalid key")
     else Ok (rpc_anon_rate_limit cfg))
    RpcLimiter false cfg.

Definition webhook_auth_and_rate_limit (cfg : ApiConfig) : RequestEnv → Request → Api Outcome :=
  gate SCOPE_WEBHOOKS_WRITE
    (if require_auth cfg then Err (unauthorized "missing API key") else Ok (webhook_anon_rate_limit cfg))
    WebhookLimiter true cfg.

(** [s.trim_start_matches(p)]: [p] is not empty. *)
Fixpoint trim_start_matches (fuel : nat) (p s : string) : string :=
  match fuel with
  | O => s
  | S fuel => match strip_prefix p s with Some s' => trim_start_matches fuel p s' | None => s end
  end.

Definition webhook_manage_auth_and_rate_limit (env : RequestEnv) (req : Request) : Api Outcome :=
  _ ← modify count_request;
  let route := route_of req in
  match extract_key (headers req) with
  | None => throw (unauthorized "webhook management routes require an API key regardless of REQUIRE_API_KEY")
  | Some key =>
      let required := if String.eqb (method req) "GET" then SCOPE_READ else SCOPE_WEBHOOKS_WRITE in
      caller ← authenticate env key route (method req) required;
      let hash := trim_start_matches (String.length (identity caller)) "key:" (identity caller) in
      st ← check_limit MainLimiter env ("key:" +:+ hash) (caller_limit caller);
      if negb (allowed st) then
        let r := {| status := 429;
                    response_headers := match retry_after_secs st with
                                        | Some secs => [("Retry-After", show_u secs)]
                                        | None => []
                                        end;
                    body := rate_limit_error |} in
        _ ← modify (log_audit_event hash route (method req) 429);
        mret (Limited r)
      else
        let code := handler env (Some hash) in
        _ ← modify (log_audit_event hash route (method req) code);
        mret (Handled (Some hash) code)
  end.

(** [proxy_rate_limit] hands the handler the client's address.  (The source
    does not await the check.) *)
Definition proxy_rate_limit (cfg : ApiConfig) (env : RequestEnv) (req : Request) : Api Outcome :=
  _ ← modify count_request;
  let client_ip := extract_client_ip ip_to_string (headers req) (Some (socket_addr req)) (ip_config cfg) in
  st ← check_limit ProxyLimiter env ("proxy:" +:+ client_ip) (proxy_rate_limit_per_min cfg);
  if negb (allowed st) then throw (too_many_requests (retry_after_secs st))
  else mret (Handled (Some client_ip) (handler env (Some client_ip))).

(** [next] is the rest of the stack, which may change the limiter too. *)
Definition concurrency_limit (cfg : IpConfig) (max_concurrent_per_ip : nat) (now : Z) (req : Request)
    (next : string → Ips → Response * Ips) (ips : Ips) : Response * Ips :=
  let client_ip := extract_client_ip ip_to_string (headers req) (Some (socket_addr req)) cfg in
  match try_acquire client_ip max_concurrent_per_ip now ips with
  | (None, ips) => (concurrency_limited_response (Z.of_nat max_concurrent_per_ip), ips)
  | (Some slot, ips) =>
      let '(response, ips) := next client_ip ips in
      (response, drop_slot slot ips)
  end.
End auth.

(** ** Lemmas: client addresses *)

Lemma split_on_not_nil c s : split_on c s ≠ [].
Proof. destruct s as [|a s]; cbn [split_on]; [done|]. destruct (Ascii.eqb a c); [done|]. by destruct (split_on c s). Qed.

Lemma split_on_app_any c p s : split_on c (p +:+ String c s) = split_on c p ++ split_on c s.
Proof.
  induction p as [|a p IH]; cbn [split_on].
  - change ("" +:+ String c s) with (String c s). cbn [split_on]. by rewrite Ascii.eqb_refl.
  - change (String a p +:+ String c s) with (String a (p +:+ String c s)). cbn [split_on]. rewrite IH.
    destruct (Ascii.eqb a c); [done|].
    pose proof (split_on_not_nil c p). by destruct (split_on c p).
Qed.

Section client_ip_lemmas.
Context (ip_to_string : IpAddr → string).

(** The address the [hops]-th proxy from the right saw. *)
Definition trusted_entry (hops : nat) (xff : string) : option string :=
  let parts := trim <$> split_on "," xff in
  part ← parts !! (length parts - hops)%nat; parse_client_ip ip_to_string part.

(** Behind [hops] trusted proxies the client's address is the entry the
    outermost of them appended: whatever a client writes into the header first
    (any text [p]), the result is the same; a header with fewer entries is
    ignored; and the result is always the canonical text of an address that
    was parsed or of the peer. *)
Theorem client_ip_unspoofable headers suffix peer cfg :
  platform_header cfg = None → (0 < trusted_proxy_hops cfg)%nat →
  (∀ p, header_str "x-forwarded-for" headers = Some (p +:+ "," +:+ suffix) →
     (trusted_proxy_hops cfg ≤ length (split_on "," suffix))%nat →
     extract_client_ip ip_to_string headers (Some peer) cfg
     = default (ip_to_string peer) (trusted_entry (trusted_proxy_hops cfg) suffix))
  ∧ (∀ xff, header_str "x-forwarded-for" headers = Some xff →
     (length (split_on "," xff) < trusted_proxy_hops cfg)%nat →
     extract_client_ip ip_to_string headers (Some peer) cfg = ip_to_string peer)
  ∧ ∃ ip, extract_client_ip ip_to_string headers (Some peer) cfg = ip_to_string ip.
Proof.
  intros Hp Hh. unfold extract_client_ip. rewrite Hp, (proj2 (Nat.ltb_lt _ _) Hh). split; [|split].
  - intros p -> Hlen. change ("," +:+ suffix) with (String "," suffix).
    rewrite split_on_app_any, fmap_app, length_app, !length_fmap.
    rewrite (proj2 (Nat.leb_le _ _)) by lia. unfold trusted_entry. rewrite !length_fmap.
    rewrite lookup_app_r by (rewrite length_fmap; lia). rewrite length_fmap.
    replace (length (split_on "," p) + length (split_on "," suffix) - trusted_proxy_hops cfg
             - length (split_on "," p))%nat
      with (length (split_on "," suffix) - trusted_proxy_hops cfg)%nat by lia.
    by destruct (_ ≫= _).
  - intros xff -> Hlen. rewrite length_fmap, (proj2 (Nat.leb_gt _ _)) by lia. done.
  - destruct (header_str _ headers) as [xff|]; [|eauto]. destruct (_ <=? _)%nat; [|eauto].
    destruct (_ !! _) as [part|]; cbn; [|eauto]. unfold parse_client_ip.
    destruct (parse_client_addr part); cbn; eauto.
Qed.
End client_ip_lemmas.

(** A proxy that appends a header line of its own instead of extending the
    client's leaves the client's line first, where [get] reads it. *)
Example split_header_spoofed :
  extract_client_ip (λ ip, match ip with V4 o => show_v4 o | V6 _ => "" end)
    [("x-forwarded-for", Some "6.6.6.6"); ("x-forwarded-for", Some "9.9.9.9")]
    (Some (V4 [10; 0; 0; 1])) {| trusted_proxy_hops := 1; platform_header := None |} = "6.6.6.6".
Proof. vm_compute. reflexivity. Qed.

(** ** Lemmas: the audit writer *)

(** What the writer was given, in order. *)
Definition received (wakes : list (WriterWake * bool)) : list AuditEvent :=
  omap (λ w, match w.1 with Received e => Some e | _ => None end) wakes.

Definition run_writer (wakes : list (WriterWake * bool)) (w : Writer) : Writer :=
  foldl (λ w wake, writer_step wake.1 wake.2 w) w wakes.

Definition idle_writer : Writer := {| batch := []; audit_log := []; running := true |}.

Lemma writer_step_ok wake w : (length (batch w) < AUDIT_BATCH_ROWS)%nat →
  audit_log (writer_step wake true w) ++ batch (writer_step wake true w)
    = audit_log w ++ batch w ++ match wake with Received e => [e] | _ => [] end
  ∧ (length (batch (writer_step wake true w)) < AUDIT_BATCH_ROWS)%nat
  ∧ (wake ≠ ChannelClosed ∨ batch (writer_step wake true w) = []).
Proof.
  assert (∀ v, audit_log (flush_audit_batch true v) = audit_log v ++ batch v
               ∧ batch (flush_audit_batch true v) = []) as Hflush.
  { intros v. unfold flush_audit_batch. destruct (batch v) eqn:E; [by rewrite E, app_nil_r|done]. }
  intros Hw. destruct wake as [e| |]; cbn [writer_step].
  - destruct (Nat.leb_spec AUDIT_BATCH_ROWS (length (batch w ++ [e]))) as [Hge|Hlt]; cbn [batch] in *.
    + rewrite (proj2 (Nat.leb_le _ _)) by done. destruct (Hflush {| batch := batch w ++ [e]; audit_log := audit_log w; running := running w |}) as [-> ->].
      cbn. rewrite app_nil_r. split; [done|]. split; [unfold AUDIT_BATCH_ROWS; lia|by left].
    + rewrite (proj2 (Nat.leb_gt _ _)) by done. cbn. split; [done|]. split; [done|by left].
  - destruct (Hflush w) as [Hl Hb]. cbn. rewrite Hl, Hb, !app_nil_r. split; [done|].
    split; [unfold AUDIT_BATCH_ROWS; cbn; lia|by right].
  - destruct (Hflush w) as [-> ->]. rewrite !app_nil_r. split; [done|].
    split; [unfold AUDIT_BATCH_ROWS; cbn; lia|by left].
Qed.

(** The audit trail: if the inserts succeed, whatever the order of events and
    ticks, the rows written and the batch in memory are together exactly the
    events received, once each and in order; the batch never reaches its limit,
    and it is empty, so the trail complete, when the channel closes. *)
Theorem audit_trail_exact wakes :
  Forall (λ w, w.2 = true) wakes →
  let w := run_writer wakes idle_writer in
  audit_log w ++ batch w = received wakes
  ∧ (length (batch w) < AUDIT_BATCH_ROWS)%nat
  ∧ ((∃ ok, last wakes = Some (ChannelClosed, ok)) → audit_log w = received wakes).
Proof.
  intros Hok. cbn zeta. induction wakes as [|[wake ok] wakes IH] using rev_ind.
  - split; [done|]. split; [unfold AUDIT_BATCH_ROWS; cbn; lia|done].
  - apply Forall_app in Hok as [Hok Hlast]. apply Forall_inv in Hlast. cbn in Hlast. subst ok.
    destruct (IH Hok) as (Hcat & Hlen & _). unfold run_writer in *. rewrite foldl_snoc. cbn [fst snd].
    set (w := foldl _ idle_writer wakes) in *.
    destruct (writer_step_ok wake w Hlen) as (Hcat' & Hlen' & Hend).
    assert (audit_log (writer_step wake true w) ++ batch (writer_step wake true w)
            = received (wakes ++ [(wake, true)])) as Hall.
    { rewrite Hcat', app_assoc, Hcat. unfold received. rewrite omap_app. cbn. by destruct wake. }
    split; [done|]. split; [done|]. intros [ok Hl]. rewrite last_snoc in Hl. assert (wake = ChannelClosed) as -> by congruence.
    destruct Hend as [|Hnil]; [done|]. rewrite <- Hall, Hnil. by rewrite app_nil_r.
Qed.

(** ** Lemmas: resolving keys *)

Section auth_lemmas.
Context `{CryptoLib} `{!LruCache string Entry} `{Limiter}.
Context (LAST_USED_TOUCH_SECS : Z) (ip_to_string : IpAddr → string).
Context (db : Z → string → option KeyRow) (L : Z).

Definition expired (utc : Z) (at_ : option Z) : bool :=
  match at_ with Some at_ => at_ <=? utc | None => false end.

Definition has_scope (required : string) (scopes : list string) : bool :=
  existsb (λ s, String.eqb s required || String.eqb s SCOPE_ADMIN) scopes.

(** The decision on a key whose table row is [row]. *)
Definition decide_key (row : option KeyRow) (utc : Z) (hash required : string) : result Stop Caller :=
  match row with
  | None => Err (Reject (unauthorized "invalid API key"))
  | Some r =>
      if revoked r then Err (Reject (unauthorized "API key revoked"))
      else if expired utc (row_expires_at r) then Err (Reject key_expired)
      else if has_scope required (row_scopes r)
      then Ok {| identity := "key:" +:+ hash; caller_limit := row_rate_limit r;
                 is_authenticated := true; caller_hash := Some hash |}
      else Err (Reject (insufficient_scope required))
  end.

(** The table read of a request happens between its cache lookup and its
    insertion, at most [L] before the latter, and succeeds. *)
Definition reads_table (env : RequestEnv) (h : string) : Prop :=
  ∃ read, lookup_time env ≤ read ≤ insert_time env ∧ insert_time env ≤ read + L
    ∧ table_answer env = Ok (db read h).

Lemma log_audit_cache hash route m code s : key_cache (log_audit_event hash route m code s) = key_cache s.
Proof. unfold log_audit_event. destruct (audit_tx s) as [ch|]; [|done]. by destruct (_ && _). Qed.

Lemma unauthorized_key_eq {A} h route m msg s :
  unauthorized_key (A:=A) h route m msg s
  = (Err (Reject (unauthorized msg)), log_audit_event h route m 401 s).
Proof. reflexivity. Qed.

Lemma accept_key_result env h lim scopes exp route m s :
  let r := accept_key LAST_USED_TOUCH_SECS env h lim scopes exp route m s in
  r.1 = (if expired (utc_now env) exp then Err (Reject key_expired)
       else Ok {| resolved_hash := h; resolved_limit := lim; resolved_scopes := scopes |})
  ∧ (key_cache r.2 = key_cache s
     ∨ key_cache r.2 = (should_touch_last_used LAST_USED_TOUCH_SECS h (touch_time env) (key_cache s)).2).
Proof.
  unfold accept_key, expired, mbind, api_bind, modify, ask, throw, mret, api_ret.
  destruct (match exp with Some at_ => _ | None => false end); cbn.
  - split; [done|]. left. apply log_audit_cache.
  - destruct (should_touch_last_used _ _ _ _) as [[] c]; cbn; auto.
Qed.

Lemma accept_key_sound env h lim scopes exp route m s now : cache_sound db L now (key_cache s) →
  cache_sound db L now (key_cache (accept_key LAST_USED_TOUCH_SECS env h lim scopes exp route m s).2).
Proof.
  intros Hc. destruct (accept_key_result env h lim scopes exp route m s) as [_ [-> | ->]]; [done|].
  by apply touch_sound.
Qed.

(** [resolve_key] decides on what the table said at some recent moment. *)
Definition resolved (row : option KeyRow) (utc : Z) (h : string) : result Stop ResolvedKey :=
  match row with
  | None => Err (Reject (unauthorized "invalid API key"))
  | Some r =>
      if revoked r then Err (Reject (unauthorized "API key revoked"))
      else if expired utc (row_expires_at r) then Err (Reject key_expired)
      else Ok {| resolved_hash := h; resolved_limit := row_rate_limit r; resolved_scopes := row_scopes r |}
  end.

Definition recent_read (env : RequestEnv) (c : KeyCache) (h : string) (read : Z) : Prop :=
  lookup_time env - Z.max 0 (ttl_of c (cached_of (db read h))) - L ≤ read ≤ insert_time env.

Lemma cached_of_resolved h v read env : v = cached_of (db read h) → ∀ route m s,
  let r := match v with
           | Valid lim scopes exp => accept_key LAST_USED_TOUCH_SECS env h lim scopes exp route m s
           | Revoked => unauthorized_key h route m "API key revoked" s
           | NotFound => unauthorized_key h route m "invalid API key" s
           end in
  r.1 = resolved (db read h) (utc_now env) h
  ∧ (∀ now, cache_sound db L now (key_cache s) → cache_sound db L now (key_cache r.2)).
Proof.
  intros -> route m s. unfold cached_of, resolved. destruct (db read h) as [row|]; [destruct (revoked row)|];
    rewrite ?unauthorized_key_eq; cbn [fst snd].
  - split; [done|]. intros now. by rewrite log_audit_cache.
  - split; [|intros now; apply accept_key_sound].
    by destruct (accept_key_result env h (row_rate_limit row) (row_scopes row) (row_expires_at row) route m s)
      as [-> _].
  - split; [done|]. intros now. by rewrite log_audit_cache.
Qed.

Lemma resolve_key_recent env key route m s :
  let h := hash_key key in
  reads_table env h → cache_sound db L (lookup_time env) (key_cache s) → 0 ≤ L →
  (∃ read, recent_read env (key_cache s) h read
     ∧ (resolve_key LAST_USED_TOUCH_SECS env key route m s).1 = resolved (db read h) (utc_now env) h)
  ∧ cache_sound db L (insert_time env) (key_cache (resolve_key LAST_USED_TOUCH_SECS env key route m s).2).
Proof.
  intros h (read & Hlr & Hri & Hans) Hc HL. unfold resolve_key. fold h.
  unfold mbind, api_bind, modify, ask, throw. cbn beta iota.
  pose proof (key_get_recent db L h (lookup_time env) (key_cache s)) as Hrec.
  pose proof (key_get_sound db L h (lookup_time env) (lookup_time env) (key_cache s) Hc) as Hsound.
  pose proof (key_get_params h (lookup_time env) (key_cache s)) as [Ht Hn].
  destruct (key_get h (lookup_time env) (key_cache s)) as [cached c]. cbn [fst snd] in *.
  set (s1 := with_key_cache c s). assert (key_cache s1 = c) as Hs1 by done.
  assert (cache_sound db L (insert_time env) c) as Hins by (eapply cache_sound_later; [|exact Hsound]; lia).
  destruct cached as [v|].
  - destruct (Hrec v Hc eq_refl) as (read' & Hread' & Hv).
    destruct (cached_of_resolved h v read' env Hv route m s1) as [Hres Hsnd].
    split; [|destruct v; by apply Hsnd].
    exists read'. split; [unfold recent_read; rewrite <- Hv; lia|]. destruct v; exact Hres.
  - rewrite Hans. cbn beta iota.
    set (s2 := with_key_cache (fill h (db read h) (insert_time env) (key_cache s1)) s1).
    assert (cache_sound db L (insert_time env) (key_cache s2)) as Hs2 by (apply fill_sound; [lia|done]).
    destruct (cached_of_resolved h (cached_of (db read h)) read env eq_refl route m s2) as [Hres Hsnd].
    split.
    + exists read. split; [unfold recent_read; lia|]. rewrite <- Hres.
      unfold cached_of. destruct (db read h) as [row|]; [|done]. by destruct (revoked row).
    + specialize (Hsnd (insert_time env) Hs2). unfold cached_of in Hsnd.
      destruct (db read h) as [row|]; [|done]. by destruct (revoked row).
Qed.

(** The verdict is the one for a row the table held recently. *)
Lemma authenticate_decides env key route m required s :
  0 ≤ L → reads_table env (hash_key key) → cache_sound db L (lookup_time env) (key_cache s) →
  ∃ read, recent_read env (key_cache s) (hash_key key) read
    ∧ (authenticate LAST_USED_TOUCH_SECS env key route m required s).1
      = decide_key (db read (hash_key key)) (utc_now env) (hash_key key) required.
Proof.
  intros HL Hread Hc. destruct (resolve_key_recent env key route m s Hread Hc HL) as [(read & Hrec & Hres) _].
  exists read. split; [done|]. unfold authenticate, mbind, api_bind.
  destruct (resolve_key _ env key route m s) as [r s1]. cbn [fst snd] in Hres. subst r. unfold resolved, decide_key.
  destruct (db read (hash_key key)) as [row|]; [|done]. destruct (revoked row); [done|].
  destruct (expired _ _); [done|]. cbn [resolved_scopes]. unfold has_scope.
  by destruct (existsb _ (row_scopes row)).
Qed.

(** C12: Authentication decides exactly as the table does: the verdict on a key
    (unknown, revoked, expired, lacking the scope, or accepted with the row's
    limit) is the one for the row the table held at some moment less than the
    entry's TTL plus the time of one read before the lookup; expiry is checked
    on the request's own wall clock; and the cache stays sound for the next
    request. *)
Theorem authenticate_correct env key route m required s :
  let h := hash_key key in
  0 ≤ L → reads_table env h → cache_sound db L (lookup_time env) (key_cache s) →
  (∃ read, recent_read env (key_cache s) h read
     ∧ (authenticate LAST_USED_TOUCH_SECS env key route m required s).1
       = decide_key (db read h) (utc_now env) h required)
  ∧ cache_sound db L (insert_time env)
      (key_cache (authenticate LAST_USED_TOUCH_SECS env key route m required s).2).
Proof.
  intros h HL Hread Hc. split; [by apply authenticate_decides|].
  destruct (resolve_key_recent env key route m s Hread Hc HL) as [_ Hsnd].
  unfold authenticate, mbind, api_bind. destruct (resolve_key _ env key route m s) as [r s1]. cbn [snd] in Hsnd.
  destruct r as [rk|e]; [|done]. by destruct (negb _).
Qed.

(** ** Lemmas: reaching the handler *)

(** The caller of a request that carries a key: the table accepted the key. *)
Definition key_accepted (env : RequestEnv) (c : KeyCache) (key required : string) (caller : Caller) : Prop :=
  ∃ read row, recent_read env c (hash_key key) read ∧ db read (hash_key key) = Some row
    ∧ revoked row = false ∧ expired (utc_now env) (row_expires_at row) = false
    ∧ has_scope required (row_scopes row) = true
    ∧ caller = {| identity := "key:" +:+ hash_key key; caller_limit := row_rate_limit row;
                  is_authenticated := true; caller_hash := Some (hash_key key) |}.

Lemma decide_key_Ok row utc h required caller : decide_key row utc h required = Ok caller →
  ∃ r, row = Some r ∧ revoked r = false ∧ expired utc (row_expires_at r) = false
    ∧ has_scope required (row_scopes r) = true
    ∧ caller = {| identity := "key:" +:+ h; caller_limit := row_rate_limit r;
                  is_authenticated := true; caller_hash := Some h |}.
Proof.
  unfold decide_key. destruct row as [r|]; [|done]. destruct (revoked r) eqn:Er; [done|].
  destruct (expired utc (row_expires_at r)) eqn:Ee; [done|].
  destruct (has_scope required (row_scopes r)) eqn:Es; [|done]. intros [= <-]. eauto 10.
Qed.

Lemma authenticate_Ok env key route m required s caller s' :
  0 ≤ L → reads_table env (hash_key key) → cache_sound db L (lookup_time env) (key_cache s) →
  authenticate LAST_USED_TOUCH_SECS env key route m required s = (Ok caller, s') →
  key_accepted env (key_cache s) key required caller.
Proof.
  intros HL Hread Hc Hok.
  destruct (authenticate_decides env key route m required s HL Hread Hc) as (read & Hrec & Hdec).
  rewrite Hok in Hdec. cbn [fst] in Hdec. symmetry in Hdec.
  apply decide_key_Ok in Hdec as (row & Hrow & H1 & H2 & H3 & ->). exists read, row. auto 10.
Qed.
End auth_lemmas.

(** ** Reaching the handler *)

Section handled.
Context `{CryptoLib} `{!LruCache string Entry} `{Limiter}.
Context (LAST_USED_TOUCH_SECS : Z) (ip_to_string : IpAddr → string).
Context (db : Z → string → option KeyRow) (L : Z).

(** What authentication leaves alone when it succeeds. *)
Definition same_trail (s s' : ApiState) : Prop :=
  limiters s' = limiters s ∧ audit_tx s' = audit_tx s ∧ audit_dropped s' = audit_dropped s.

Lemma accept_key_frame env h lim scopes exp route m s r s' :
  accept_key LAST_USED_TOUCH_SECS env h lim scopes exp route m s = (Ok r, s') → same_trail s s'.
Proof.
  unfold accept_key, mbind, api_bind, modify, ask, throw, mret, api_ret, same_trail.
  destruct (match exp with Some at_ => _ | None => false end); [done|]. cbn.
  destruct (should_touch_last_used _ _ _ _) as [[] c]; cbn; by intros [= _ <-].
Qed.

Lemma resolve_key_frame env key route m s r s' :
  resolve_key LAST_USED_TOUCH_SECS env key route m s = (Ok r, s') → same_trail s s'.
Proof.
  unfold resolve_key, mbind, api_bind, modify, ask, throw. cbn beta iota.
  destruct (key_get _ _ _) as [cached c]. destruct cached as [[lim scopes exp| |]|];
    rewrite ?unauthorized_key_eq; try done.
  - intros Ha. by apply accept_key_frame in Ha.
  - destruct (table_answer env) as [row|]; [|done]. cbn beta iota.
    destruct row as [row|]; [destruct (revoked row)|]; rewrite ?unauthorized_key_eq; try done.
    intros Ha. by apply accept_key_frame in Ha.
Qed.

Lemma authenticate_frame env key route m required s caller s' :
  authenticate LAST_USED_TOUCH_SECS env key route m required s = (Ok caller, s') → same_trail s s'.
Proof.
  unfold authenticate, mbind, api_bind. pose proof (resolve_key_frame env key route m s) as Hf.
  destruct (resolve_key _ env key route m s) as [[rk|] s1]; [|done].
  specialize (Hf rk s1 eq_refl). unfold throw, mret, api_ret. destruct (negb _); [done|]. by intros [= _ <-].
Qed.

(** Two states with the same audit trail. *)
Definition trail (s : ApiState) : option AuditChannel * Z := (audit_tx s, audit_dropped s).

Lemma log_audit_trail hash route m code s s' : trail s = trail s' →
  trail (log_audit_event hash route m code s) = trail (log_audit_event hash route m code s').
Proof.
  unfold trail, log_audit_event. intros [= Htx Hdr]. rewrite Htx. destruct (audit_tx s') as [ch|] eqn:E.
  - destruct (_ && _); cbn; congruence.
  - congruence.
Qed.

(** Why a request got as far as the limiter, and what the limiter said. *)
Definition admitted_as (required : string) (anonymous : option Z) (name : LimiterName)
    (cfg : ApiConfig) (env : RequestEnv) (req : Request) (s : ApiState) (caller : Caller)
    (st : RateLimitStatus) : Prop :=
  match extract_key (headers req) with
  | Some key => key_accepted db L env (key_cache s) key required caller
  | None => ∃ limit, anonymous = Some limit
      ∧ caller = {| identity := "anon:" +:+ extract_client_ip ip_to_string (headers req)
                                   (Some (socket_addr req)) (ip_config cfg);
                    caller_limit := limit; is_authenticated := false; caller_hash := None |}
  end
  ∧ ∃ l, limiter_check (identity caller) (caller_limit caller) (check_env env) (limiters s name) = Some (st, l).

(** The table reads of a request with a key. *)
Definition request_reads (env : RequestEnv) (req : Request) : Prop :=
  ∀ key, extract_key (headers req) = Some key → reads_table db L env (hash_key key).

Definition limit_of (anonymous : result ApiError Z) : option Z :=
  match anonymous with Ok limit => Some limit | Err _ => None end.

Lemma identity_hash_key h : identity_hash ("key:" +:+ hex_encode h) = hex_encode h.
Proof.
  unfold identity_hash. change ("key:" +:+ hex_encode h) with ("key" +:+ String ":" (hex_encode h)).
  rewrite split_on_app_any. rewrite (split_on_no_sep _ (hex_encode h)); [done|].
  intros Hin. pose proof (hex_encode_chars h) as Hhex. rewrite Forall_forall in Hhex.
  specialize (Hhex _ Hin). by vm_compute in Hhex.
Qed.

Lemma gate_outcome required anonymous name inject cfg env req s o s' :
  0 ≤ L → request_reads env req → cache_sound db L (lookup_time env) (key_cache s) →
  gate LAST_USED_TOUCH_SECS ip_to_string required anonymous name inject cfg env req s = (Ok o, s') →
  ∃ caller st, admitted_as required (limit_of anonymous) name cfg env req s caller st
    ∧ (let audit code := if is_authenticated caller
                         then trail (log_audit_event (identity_hash (identity caller)) (route_of req)
                                       (method req) code s)
                         else trail s in
       if allowed st
       then ∃ ext code, o = Handled ext code ∧ ext = (if inject && is_authenticated caller then caller_hash caller else None)
            ∧ code = handler env ext ∧ trail s' = audit code
       else o = Limited (rate_limited_response (caller_limit caller) (retry_after_secs st) (tokens_remaining st))
            ∧ trail s' = audit 429).
Proof.
  intros HL Hreads Hc. unfold gate, mbind, api_bind. unfold modify at 1. cbn beta iota.
  set (s0 := count_request s).
  set (who := match extract_key (headers req) with Some key => _ | None => _ end).
  destruct (who s0) as [[caller|e] s1] eqn:Ewho; [|done].
  assert (same_trail s0 s1
    ∧ match extract_key (headers req) with
      | Some key => key_accepted db L env (key_cache s) key required caller
      | None => ∃ limit, limit_of anonymous = Some limit
          ∧ caller = {| identity := "anon:" +:+ extract_client_ip ip_to_string (headers req)
                                       (Some (socket_addr req)) (ip_config cfg);
                        caller_limit := limit; is_authenticated := false; caller_hash := None |}
      end) as [Hframe Hcaller].
  { unfold who in Ewho. destruct (extract_key (headers req)) as [key|] eqn:Ek.
    - split; [by eapply authenticate_frame|]. eapply (authenticate_Ok _ _ _ env key _ _ _ s0); [done|by apply Hreads|done|exact Ewho].
    - destruct anonymous as [limit|]; [|done]. injection Ewho as <- <-. split; [done|]. by exists limit. }
  destruct Hframe as (Hlim & Htx & Hdr).
  unfold check_limit at 1. rewrite Hlim. change (limiters s0) with (limiters s).
  destruct (limiter_check (identity caller) (caller_limit caller) (check_env env) (limiters s name))
    as [[st l]|] eqn:Elim; [|done].
  intros Hrest. exists caller, st. split; [split; [done|by exists l]|].
  assert (∀ code, trail (log_audit_event (identity_hash (identity caller)) (route_of req) (method req) code
                     (with_limiter name l s1))
          = trail (log_audit_event (identity_hash (identity caller)) (route_of req) (method req) code s)) as Hlog.
  { intros code. apply log_audit_trail. unfold trail. cbn. by rewrite Htx, Hdr. }
  assert (trail (with_limiter name l s1) = trail s) as Hsame by (unfold trail; cbn; by rewrite Htx, Hdr).
  cbn zeta. destruct (allowed st); cbn [negb] in Hrest; unfold mret, api_ret, modify in Hrest;
    destruct (is_authenticated caller); cbn in Hrest; injection Hrest as <- <-; rewrite ?andb_false_r, ?andb_true_r;
    eauto 10.
Qed.

(** What one answered request does to the audit queue: the event of a keyed
    caller is queued while the writer listens and has room for it, and counted
    as dropped otherwise; nothing happens without a key or with auditing off. *)
Definition audited (who : option string) (route method : string) (code : Z) (s s' : ApiState) : Prop :=
  match who, audit_tx s with
  | Some h, Some ch =>
      if listening ch && (length (queued ch) <? AUDIT_QUEUE_CAPACITY)%nat
      then audit_tx s' = Some {| queued := queued ch ++ [{| key_hash_prefix := prefix8 h; audit_route := route;
                                                            http_method := method; status_code := code |}];
                                 listening := true |}
           ∧ audit_dropped s' = audit_dropped s
      else audit_tx s' = Some ch ∧ audit_dropped s' = wrap 64 (audit_dropped s + 1)
  | _, _ => audit_tx s' = audit_tx s ∧ audit_dropped s' = audit_dropped s
  end.

Lemma audited_log h route method code s s' :
  trail s' = trail (log_audit_event h route method code s) → audited (Some h) route method code s s'.
Proof.
  unfold audited, trail, log_audit_event. destruct (audit_tx s) as [ch|] eqn:E.
  - destruct (_ && _); cbn; by intros [= -> ->].
  - rewrite E. by intros [= -> ->].
Qed.

Lemma audited_none route method code s s' : trail s' = trail s → audited None route method code s s'.
Proof. unfold audited, trail. by intros [= -> ->]. Qed.

(** A request the handler saw: who it came from, that the limiter allowed it,
    what it was told of the caller, and what it does to the audit queue. *)
Definition served (required : string) (anonymous : option Z) (name : LimiterName) (inject : bool)
    (cfg : ApiConfig) (env : RequestEnv) (req : Request) (s s' : ApiState)
    (ext : option string) (code : Z) : Prop :=
  ∃ caller st, admitted_as required anonymous name cfg env req s caller st ∧ allowed st = true
    ∧ ext = (if inject then caller_hash caller else None)
    ∧ code = handler env ext
    ∧ audited (caller_hash caller) (route_of req) (method req) code s s'.

Lemma admitted_caller required anonymous name cfg env req s caller st :
  admitted_as required anonymous name cfg env req s caller st →
  (is_authenticated caller = true ∧ ∃ h, caller_hash caller = Some h ∧ identity_hash (identity caller) = h)
  ∨ is_authenticated caller = false ∧ caller_hash caller = None.
Proof.
  intros [Hwho _]. destruct (extract_key (headers req)) as [key|].
  - destruct Hwho as (read & row & _ & _ & _ & _ & _ & ->). left. split; [done|].
    eexists. split; [done|]. apply identity_hash_key.
  - destruct Hwho as (limit & _ & ->). by right.
Qed.

Lemma gate_served required anonymous name inject cfg env req s ext code s' :
  0 ≤ L → request_reads env req → cache_sound db L (lookup_time env) (key_cache s) →
  gate LAST_USED_TOUCH_SECS ip_to_string required anonymous name inject cfg env req s
    = (Ok (Handled ext code), s') →
  served required (limit_of anonymous) name inject cfg env req s s' ext code.
Proof.
  intros HL Hreads Hc Hok.
  destruct (gate_outcome _ _ _ _ _ _ _ _ _ _ HL Hreads Hc Hok) as (caller & st & Hadm & Hout).
  exists caller, st. split; [done|]. cbn zeta in Hout. destruct (allowed st); [|by destruct Hout].
  destruct Hout as (ext' & code' & [= -> ->] & Hext & Hcode & Htrail). split; [done|].
  destruct (admitted_caller _ _ _ _ _ _ _ _ _ Hadm) as [[Ha (h & Hh & Hid)]|[Ha Hh]];
    rewrite Ha in Hext, Htrail; rewrite Hh in *; rewrite ?Hid in Htrail;
    (split; [by destruct inject|split; [done|]]); [by apply audited_log|by apply audited_none].
Qed.

Lemma trim_key h : trim_start_matches (String.length ("key:" +:+ hex_encode h)) "key:" ("key:" +:+ hex_encode h)
  = hex_encode h.
Proof.
  change (String.length ("key:" +:+ hex_encode h)) with (S (S (S (S (String.length (hex_encode h)))))).
  assert (∀ fuel, trim_start_matches fuel "key:" (hex_encode h) = hex_encode h) as Hhex.
  { intros [|fuel]; [done|]. cbn [trim_start_matches]. pose proof (hex_encode_chars h) as Hh.
    destruct (hex_encode h) as [|a s]; [done|]. apply Forall_inv in Hh.
    destruct (strip_prefix "key:" (String a s)) as [s'|] eqn:E; [|done].
    apply strip_prefix_Some in E. injection E as -> _. by vm_compute in Hh. }
  exact (Hhex (S (S (S (String.length (hex_encode h)))))).
Qed.

Lemma manage_served env req s ext code s' :
  0 ≤ L → request_reads env req → cache_sound db L (lookup_time env) (key_cache s) →
  webhook_manage_auth_and_rate_limit LAST_USED_TOUCH_SECS env req s = (Ok (Handled ext code), s') →
  ∀ cfg, served (if String.eqb (method req) "GET" then SCOPE_READ else SCOPE_WEBHOOKS_WRITE) None MainLimiter
           true cfg env req s s' ext code.
Proof.
  intros HL Hreads Hc. unfold webhook_manage_auth_and_rate_limit, mbind, api_bind. unfold modify at 1. cbn beta iota.
  set (s0 := count_request s). destruct (extract_key (headers req)) as [key|] eqn:Ek; [|done].
  set (required := if String.eqb (method req) "GET" then SCOPE_READ else SCOPE_WEBHOOKS_WRITE).
  destruct (authenticate _ env key _ _ required s0) as [[caller|e] s1] eqn:Eauth; [|done].
  pose proof (authenticate_frame _ _ _ _ _ _ _ _ Eauth) as (Hlim & Htx & Hdr).
  apply (authenticate_Ok LAST_USED_TOUCH_SECS db L) in Eauth as Hacc; [|done|by apply Hreads|done].
  pose proof Hacc as (read & row & _ & _ & _ & _ & _ & Hcaller).
  assert (identity caller = "key:" +:+ hash_key key ∧ caller_hash caller = Some (hash_key key)) as [Hid Hh]
    by (by subst caller).
  assert (trim_start_matches (String.length (identity caller)) "key:" (identity caller) = hash_key key) as ->
    by (rewrite Hid; apply trim_key).
  unfold check_limit at 1. rewrite Hlim, <- Hid. change (limiters s0) with (limiters s).
  destruct (limiter_check (identity caller) (caller_limit caller) (check_env env) (limiters s MainLimiter))
    as [[st l]|] eqn:Elim; [|done].
  destruct (allowed st) eqn:Eall; [|done]. cbn. intros [= <- <- <-] cfg.
  exists caller, st. split; [split; [by rewrite Ek|by exists l]|]. split; [done|]. rewrite Hh. split; [done|].
  split; [done|]. apply audited_log, log_audit_trail. unfold trail. cbn. by rewrite Htx, Hdr.
Qed.

(** C5: Starting from a key cache that holds what reads of the key table
    returned, a handler behind the middlewares only sees requests it may serve:
    the key, if there is one, hashes to a row that a read of the table returned
    less than a TTL, plus the time [L] that read took, ago, not revoked, not
    expired and with the group's scope (or admin); without a key the
    configuration allows anonymous callers, who are told apart by client
    address; never without a key on the management routes.  A limiter allowed
    the caller under the row's limit (the group's own; for the management
    routes, where code and comments differ, the theorem leaves open which).
    The handler is told the hash of the key that was accepted and nothing else.
    A keyed request offers the audit queue one event, with the handler's own
    status, which is queued if the writer listens and has room and counted as
    dropped otherwise; an anonymous one leaves the queue alone, and with
    auditing off nothing is recorded. *)
Theorem handler_guarded cfg env req s s' ext code :
  0 ≤ L → request_reads env req → cache_sound db L (lookup_time env) (key_cache s) →
  (auth_and_rate_limit LAST_USED_TOUCH_SECS ip_to_string cfg env req s = (Ok (Handled ext code), s') →
     served SCOPE_READ (if require_auth cfg then None else Some (anon_rate_limit cfg)) MainLimiter false
       cfg env req s s' ext code)
  ∧ (rpc_auth_and_rate_limit LAST_USED_TOUCH_SECS ip_to_string cfg env req s = (Ok (Handled ext code), s') →
     served SCOPE_RPC (if rpc_require_auth cfg then None else Some (rpc_anon_rate_limit cfg)) RpcLimiter false
       cfg env req s s' ext code)
  ∧ (webhook_auth_and_rate_limit LAST_USED_TOUCH_SECS ip_to_string cfg env req s = (Ok (Handled ext code), s') →
     served SCOPE_WEBHOOKS_WRITE (if require_auth cfg then None else Some (webhook_anon_rate_limit cfg))
       WebhookLimiter true cfg env req s s' ext code)
  ∧ (webhook_manage_auth_and_rate_limit LAST_USED_TOUCH_SECS env req s = (Ok (Handled ext code), s') →
     ∃ name, served (if String.eqb (method req) "GET" then SCOPE_READ else SCOPE_WEBHOOKS_WRITE) None name true
       cfg env req s s' ext code).
Proof.
  intros HL Hreads Hc. repeat split; intros Hok.
  - apply gate_served in Hok; [by destruct (require_auth cfg)|done..].
  - apply gate_served in Hok; [by destruct (rpc_require_auth cfg)|done..].
  - apply gate_served in Hok; [by destruct (require_auth cfg)|done..].
  - exists MainLimiter. by apply manage_served.
Qed.
End handled.

(** ** The limiters *)

Section limiters.
Context `{!LruCache string TokenBucketState} (hash_one : string → Z).

Lemma memory_check_total id limit now b : backend_ok b →
  ∃ st b', memory_check hash_one id limit now b = Some (st, b') ∧ backend_ok b'.
Proof.
  intros Hb. destruct (Z.leb_spec limit 0) as [Hl|Hl].
  - unfold memory_check. rewrite (proj2 (Z.leb_le _ _) Hl). eauto.
  - destruct (memory_check_bucket hash_one id limit now b Hl Hb) as (b' & Hc & Hok & _). eauto.
Qed.

Lemma memory_check_unlimited id limit now b : limit ≤ 0 →
  memory_check hash_one id limit now b = Some (unlimited limit, b).
Proof. intros Hl. unfold memory_check. by rewrite (proj2 (Z.leb_le _ _) Hl). Qed.

(** The environment is the monotonic time. *)
Definition memory_limiter : Limiter := {|
  limiter := MemoryBackend;
  limiter_env := Z;
  limiter_ok := backend_ok;
  limiter_check := memory_check hash_one;
  limiter_total := memory_check_total;
  limiter_unlimited := memory_check_unlimited;
|}.
End limiters.

Section redis.
Context `{RedisServer}.

Lemma redis_check_unlimited ns mode id limit (env : bool * Z) s : limit ≤ 0 →
  Some (redis_check ns mode env.1 id limit env.2 s) = Some (unlimited limit, s).
Proof. intros Hl. unfold redis_check. by rewrite (proj2 (Z.leb_le _ _) Hl). Qed.

Lemma redis_check_total ns mode id limit (env : bool * Z) s : True →
  ∃ st s', Some (redis_check ns mode env.1 id limit env.2 s) = Some (st, s') ∧ True.
Proof. intros _. destruct (redis_check _ _ _ _ _ _ _) as [st s']. eauto. Qed.

(** The environment: whether the server answers, and the wall clock. *)
Definition redis_limiter (namespace : string) (mode : FailMode) : Limiter := {|
  limiter := RedisState;
  limiter_env := bool * Z;
  limiter_ok := λ _, True;
  limiter_check := λ id limit env s, Some (redis_check namespace mode env.1 id limit env.2 s);
  limiter_total := redis_check_total namespace mode;
  limiter_unlimited := redis_check_unlimited namespace mode;
|}.
End redis.

Section answers.
Context `{CryptoLib} `{!LruCache string Entry} `{Limiter}.
Context (LAST_USED_TOUCH_SECS : Z) (ip_to_string : IpAddr → string).

Definition limiters_ok (s : ApiState) : Prop := ∀ name, limiter_ok (limiters s name).

(** A computation that keeps the limiters in order and does not panic. *)
Definition answers {A} (m : Api A) : Prop :=
  ∀ s, limiters_ok s → (m s).1 ≠ Err Panic ∧ limiters_ok (m s).2.

Lemma answers_bind {A B} (m : Api A) (f : A → Api B) :
  answers m → (∀ a, answers (f a)) → answers (api_bind A B f m).
Proof.
  intros Hm Hf s Hs. destruct (Hm s Hs) as [Hp Hs']. unfold api_bind. destruct (m s) as [[a|e] s1]; [by apply Hf|].
  cbn in *. split; [|done]. by intros [= ->].
Qed.

Lemma answers_ret {A} (a : A) : answers (api_ret A a).
Proof. by intros s Hs. Qed.

Lemma answers_throw {A} e : answers (throw (A:=A) e).
Proof. by intros s Hs. Qed.

Lemma answers_ask {A} (f : ApiState → A) : answers (ask f).
Proof. by intros s Hs. Qed.

Lemma answers_modify f : (∀ s, limiters (f s) = limiters s) → answers (modify f).
Proof. intros Hf s Hs. split; [done|]. intros name. cbn. by rewrite Hf. Qed.

Lemma answers_log hash route m code : answers (modify (log_audit_event hash route m code)).
Proof.
  apply answers_modify. intros s. unfold log_audit_event. destruct (audit_tx s); [|done]. by destruct (_ && _).
Qed.

Lemma answers_check name env id limit : answers (check_limit name env id limit).
Proof.
  intros s Hs. unfold check_limit. destruct (limiter_total id limit (check_env env) (limiters s name) (Hs name))
    as (st & l & -> & Hl). split; [done|]. intros n. cbn. case_decide; [done|apply Hs].
Qed.

Ltac answers :=
  repeat first
    [ apply answers_ret | apply answers_throw | apply answers_ask | apply answers_log | apply answers_check
    | apply answers_modify; by intros ?
    | apply answers_bind; [|intros ?]
    | progress cbn beta iota zeta
    | case_match ].

Lemma answers_accept env h lim scopes exp route m :
  answers (accept_key LAST_USED_TOUCH_SECS env h lim scopes exp route m).
Proof. unfold accept_key, mbind, mret. answers. Qed.

Lemma answers_authenticate env key route m required :
  answers (authenticate LAST_USED_TOUCH_SECS env key route m required).
Proof.
  unfold authenticate, resolve_key, unauthorized_key, mbind, mret. answers; apply answers_accept.
Qed.

(** Every request is answered: with limiters in order the middlewares never
    panic and leave the limiters in order, whatever the headers, the clocks,
    the table and the limiters' environment. *)
Theorem middlewares_answer cfg env req s : limiters_ok s →
  Forall (λ m : Api Outcome, (m s).1 ≠ Err Panic ∧ limiters_ok (m s).2)
    [auth_and_rate_limit LAST_USED_TOUCH_SECS ip_to_string cfg env req;
     rpc_auth_and_rate_limit LAST_USED_TOUCH_SECS ip_to_string cfg env req;
     webhook_auth_and_rate_limit LAST_USED_TOUCH_SECS ip_to_string cfg env req;
     webhook_manage_auth_and_rate_limit LAST_USED_TOUCH_SECS env req;
     proxy_rate_limit ip_to_string cfg env req].
Proof.
  intros Hs. apply (Forall_impl answers); [|intros m Hm; exact (Hm s Hs)].
  repeat apply Forall_cons_2; [..|apply Forall_nil_2];
    unfold auth_and_rate_limit, rpc_auth_and_rate_limit, webhook_auth_and_rate_limit,
      webhook_manage_auth_and_rate_limit, proxy_rate_limit, gate, mbind, mret; answers;
    first [apply answers_accept|apply answers_authenticate].
Qed.
End answers.

(** ** Examples and witnesses *)

#[local] Instance sample_sha : CryptoLib := sample_crypto.
#[local] Instance sample_keys : LruCache string Entry := list_lru.
#[local] Instance sample_buckets_auth : LruCache string TokenBucketState := list_lru.
#[local] Instance sample_limiter : Limiter := memory_limiter (λ _, 3).

Definition sample_row : KeyRow :=
  {| revoked := false; row_rate_limit := 2; row_scopes := ["webhooks:write"]; row_expires_at := Some 1000 |}.

(** The key [k1] from time 5 to time 50. *)
Definition sample_table (t : Z) (h : string) : option KeyRow :=
  if (5 <=? t) && (t <? 50) && String.eqb h (hash_key "k1") then Some sample_row else None.

Definition sample_env (now : Z) : RequestEnv :=
  {| lookup_time := now; insert_time := now + 2; touch_time := now + 2; utc_now := 100;
     table_answer := Ok (sample_table (now + 1) (hash_key "k1")); check_env := now;
     handler := λ _, 201 |}.

Definition sample_req : Request :=
  {| headers := [("authorization", Some "bearer k1")]; method := "POST"; uri := "/webhooks?x=1";
     socket_addr := V4 [10; 0; 0; 1] |}.

Definition sample_cfg : ApiConfig :=
  {| require_auth := true; anon_rate_limit := 60; rpc_require_auth := true; rpc_anon_rate_limit := 10;
     webhook_anon_rate_limit := 5; proxy_rate_limit_per_min := 60; ip_config := ip_config_from_env (Some " 1 ") None |}.

Definition sample_state : ApiState :=
  {| key_cache := key_cache_new 100 60 10; audit_tx := Some {| queued := []; listening := true |};
     audit_dropped := 0; http_requests := 0; touches := []; limiters := λ _, with_capacity 1000 |}.

Definition sample_ip (ip : IpAddr) : string := match ip with V4 o => show_v4 o | V6 _ => "" end.

Lemma sample_reads : reads_table sample_table 2 (sample_env 10) (hash_key "k1").
Proof. exists 11. split; [cbn; lia|]. split; [cbn; lia|reflexivity]. Qed.

Lemma sample_sound now : cache_sound sample_table 2 now (key_cache sample_state).
Proof. intros h e. cbn. discriminate. Qed.

Lemma authenticate_correct_witness :
  let out := authenticate 60 (sample_env 10) "k1" "/webhooks" "POST" SCOPE_WEBHOOKS_WRITE sample_state in
  (∃ read, recent_read sample_table 2 (sample_env 10) (key_cache sample_state) (hash_key "k1") read
     ∧ out.1 = decide_key (sample_table read (hash_key "k1")) 100 (hash_key "k1") SCOPE_WEBHOOKS_WRITE)
  ∧ cache_sound sample_table 2 12 (key_cache out.2).
Proof.
  apply (authenticate_correct 60 sample_table 2 (sample_env 10) "k1" "/webhooks" "POST" SCOPE_WEBHOOKS_WRITE
           sample_state); [lia|apply sample_reads|apply sample_sound].
Defined.

Definition sample_answer (s : ApiState) : result Stop Outcome * ApiState :=
  webhook_auth_and_rate_limit 60 sample_ip sample_cfg (sample_env 10) sample_req s.

Lemma handler_guarded_witness :
  served sample_ip sample_table 2 SCOPE_WEBHOOKS_WRITE None WebhookLimiter true sample_cfg (sample_env 10) sample_req
    sample_state (sample_answer sample_state).2 (Some "6b31") 201.
Proof.
  refine (proj1 (proj2 (proj2 (handler_guarded 60 sample_ip sample_table 2 sample_cfg (sample_env 10) sample_req
    sample_state (sample_answer sample_state).2 (Some "6b31") 201 _ _ _))) _).
  - lia.
  - intros key Hk. assert (key = "k1") as -> by (vm_compute in Hk; congruence). apply sample_reads.
  - apply sample_sound.
  - apply injective_projections; [vm_compute|]; reflexivity.
Defined.

(** The second request is answered from the cache, the third is refused. *)
Example sample_requests :
  let '(r1, s1) := sample_answer sample_state in
  let '(r2, s2) := sample_answer s1 in
  let '(r3, s3) := sample_answer s2 in
  r1 = Ok (Handled (Some "6b31") 201) ∧ r2 = r1
  ∧ r3 = Ok (Limited (rate_limited_response 2 (Some 30) 0))
  ∧ touches s3 = ["6b31"] ∧ status_code <$> default [] (queued <$> audit_tx s3) = [201; 201; 429].
Proof. vm_compute. repeat split. Qed.

Lemma middlewares_answer_witness :
  Forall (λ m : Api Outcome, (m sample_state).1 ≠ Err Panic ∧ limiters_ok (m sample_state).2)
    [auth_and_rate_limit 60 sample_ip sample_cfg (sample_env 10) sample_req;
     rpc_auth_and_rate_limit 60 sample_ip sample_cfg (sample_env 10) sample_req;
     webhook_auth_and_rate_limit 60 sample_ip sample_cfg (sample_env 10) sample_req;
     webhook_manage_auth_and_rate_limit 60 (sample_env 10) sample_req;
     proxy_rate_limit sample_ip sample_cfg (sample_env 10) sample_req].
Proof.
  apply (middlewares_answer 60 sample_ip sample_cfg (sample_env 10) sample_req sample_state).
  intros name. apply with_capacity_ok.
Defined.

Lemma client_ip_unspoofable_witness :
  let cfg := {| trusted_proxy_hops := 2; platform_header := None |} in
  let headers := [("x-forwarded-for", Some "6.6.6.6,1.2.3.4:55, 9.9.9.9")] in
  extract_client_ip sample_ip headers (Some (V4 [10; 0; 0; 1])) cfg
    = default "10.0.0.1" (trusted_entry sample_ip 2 "1.2.3.4:55, 9.9.9.9")
  ∧ trusted_entry sample_ip 2 "1.2.3.4:55, 9.9.9.9" = Some "1.2.3.4".
Proof.
  split; [|vm_compute; reflexivity].
  apply (client_ip_unspoofable sample_ip [("x-forwarded-for", Some "6.6.6.6,1.2.3.4:55, 9.9.9.9")]
    "1.2.3.4:55, 9.9.9.9" (V4 [10; 0; 0; 1]) {| trusted_proxy_hops := 2; platform_header := None |})
    with (p := "6.6.6.6"); [reflexivity|cbn; lia|reflexivity|cbn; lia].
Defined.

Definition sample_event (code : Z) : AuditEvent :=
  {| key_hash_prefix := "6b31"; audit_route := "/webhooks"; http_method := "POST"; status_code := code |}.

Lemma audit_trail_exact_witness :
  let wakes := [(Received (sample_event 201), true); (Ticked, true); (Received (sample_event 429), true);
                (ChannelClosed, true)] in
  audit_log (run_writer wakes idle_writer) = [sample_event 201; sample_event 429].
Proof.
  refine (proj2 (proj2 (audit_trail_exact [(Received (sample_event 201), true); (Ticked, true);
    (Received (sample_event 429), true); (ChannelClosed, true)] _)) _).
  - repeat constructor.
  - by eexists.
Defined.
