(* ===== verification/Specs.v ===== *)
(** * Specs: the API's cache of contract interfaces ([lumenqraph-api/src/specs.rs])

    [SpecCache] keeps parsed interfaces by contract, revalidated on every
    lookup against the hash and the [fetched_at] of the contract's row, and
    historical versions, which are never revalidated.  The queries of a request
    are its [SpecReads]; between its two queries other requests may change the
    cache ([others]).  The tables are functions of time.

    [ApiError::sac_not_supported] is called and not defined in the source and
    is a parameter; so is the parser of [stellar_xdr]. *)
From S2P Require Import Prelude Text Containers Values Instances Spec ApiError.
From Stdlib Require Import Ascii.

Local Open Scope Z_scope.

Definition MAX_ENTRIES : nat := 256.

Section specs.
Context `{Stellar}.
Context (read_xdr_iter : Z → Z → list ascii → list (result string ScSpecEntry)).
Context (sac_not_supported : string → ApiError).

Record CachedSpec := { section_bytes : list ascii; parsed : option ContractSpec; spec_wasm_hash : string }.

Record SpecCache := {
  current_specs : gmap string (string * Z * CachedSpec);
  version_specs : gmap (string * Z) CachedSpec;
}.

Definition spec_cache_new : SpecCache := {| current_specs := ∅; version_specs := ∅ |}.

(** [parse]: the stored text decoded and parsed. *)
Definition parse (hex_section wasm_hash : string) : result ApiError CachedSpec :=
  section ← ok_or (Internal "corrupt stored spec") (hex_decode hex_section);
  Ok {| section_bytes := section; parsed := from_spec_xdr_simple read_xdr_iter section;
        spec_wasm_hash := wasm_hash |}.

Definition not_indexed : ApiError :=
  spec_unavailable "no interface indexed for this contract yet; the indexer fetches it on first sighting — retry after the indexer has seen this contract".

(** A contract with events and no row, and one whose row has no interface. *)
Definition is_asset_contract : ApiError := sac_not_supported
  "Stellar Asset Contract: no on-chain WASM interface. SACs publish only standard SEP-41 token conventions; use token metadata endpoints instead of /call or /simulate. Retrying will not help.".
Definition no_callable_interface : ApiError := sac_not_supported
  "contract has no callable on-chain WASM interface (Stellar Asset Contract or equivalent). Retrying will not help; use token metadata endpoints instead of /call or /simulate.".

(** The queries of a lookup: hash and [fetched_at] of the row, whether the
    contract has events, and the stored section; a version's hash and section. *)
Record SpecReads := {
  row_read : result string (option (string * Z));
  events_read : result string bool;
  section_read : result string (option string);
  version_read : result string (option (string * string));
}.

Definition db {A} (r : result string A) : result ApiError A := map_err Internal r.

(** The hit test of [SpecCache::current]. *)
Definition revalidate (contract_id wasm_hash : string) (fetched_at : Z) (c : SpecCache) : option CachedSpec :=
  match current_specs c !! contract_id with
  | Some (hash, cached_fetched_at, spec) =>
      if String.eqb hash wasm_hash && (fetched_at <=? cached_fetched_at) then Some spec else None
  | None => None
  end.

Definition insert_bounded {K V} `{Countable K} (k : K) (v : V) (m : gmap K V) : gmap K V :=
  <[k := v]> (if (MAX_ENTRIES <=? size m)%nat then ∅ else m).

Definition current (reads : SpecReads) (others : SpecCache → SpecCache) (contract_id : string) (c : SpecCache)
    : result ApiError CachedSpec * SpecCache :=
  match db (row_read reads) with
  | Err e => (Err e, c)
  | Ok None =>
      (match db (events_read reads) with
       | Err e => Err e
       | Ok true => Err is_asset_contract
       | Ok false => Err not_indexed
       end, c)
  | Ok (Some (wasm_hash, fetched_at)) =>
      match revalidate contract_id wasm_hash fetched_at c with
      | Some spec => (Ok spec, c)
      | None =>
          let c := others c in
          match (section ← db (section_read reads);
                 hex_section ← ok_or no_callable_interface
                   (s ← section; if String.eqb s "" then None else Some s);
                 parse hex_section wasm_hash) with
          | Err e => (Err e, c)
          | Ok entry =>
              (Ok entry, {| current_specs := insert_bounded contract_id (wasm_hash, fetched_at, entry) (current_specs c);
                            version_specs := version_specs c |})
          end
      end
  end.

Definition at_version (reads : SpecReads) (others : SpecCache → SpecCache) (contract_id : string) (version : Z)
    (c : SpecCache) : result ApiError CachedSpec * SpecCache :=
  match version_specs c !! (contract_id, version) with
  | Some spec => (Ok spec, c)
  | None =>
      let c := others c in
      match (row ← db (version_read reads);
             row ← ok_or (not_found ("no version " +:+ show_i version +:+ " recorded for this contract")) row;
             parse row.2 row.1) with
      | Err e => (Err e, c)
      | Ok entry =>
          (Ok entry, {| current_specs := current_specs c;
                        version_specs := insert_bounded (contract_id, version) entry (version_specs c) |})
      end
  end.

Definition invalidate (contract_id : string) (c : SpecCache) : SpecCache :=
  {| current_specs := delete contract_id (current_specs c); version_specs := version_specs c |}.

(** ** The tables over time *)

(** A row of [contract_specs]. *)
Record SpecRow := { row_hash : string; row_fetched_at : Z; row_section : string }.

Context (rows : Z → string → option SpecRow) (history : Z → string → Z → option (string * string)).

(** Every write of a row stamps a later [fetched_at]; a recorded version never
    changes (it may be deleted). *)
Definition rows_ordered : Prop := ∀ id t t' r r', t ≤ t' → rows t id = Some r → rows t' id = Some r' →
  row_fetched_at r ≤ row_fetched_at r' ∧ (row_fetched_at r = row_fetched_at r' → r = r').
Definition history_fixed : Prop := ∀ id v t t' x y,
  history t id v = Some x → history t' id v = Some y → x = y.

(** A cached entry was parsed from the section the row had at or after the
    moment it had the recorded hash and time. *)
Definition current_sound (now : Z) (c : SpecCache) : Prop :=
  ∀ id hash fetched spec, current_specs c !! id = Some (hash, fetched, spec) →
    ∃ t1 t2 r1 r2, t1 ≤ t2 ≤ now ∧ rows t1 id = Some r1 ∧ rows t2 id = Some r2
      ∧ row_hash r1 = hash ∧ row_fetched_at r1 = fetched ∧ parse (row_section r2) hash = Ok spec.

Definition versions_sound (now : Z) (c : SpecCache) : Prop :=
  ∀ id v spec, version_specs c !! (id, v) = Some spec →
    ∃ t x, t ≤ now ∧ history t id v = Some x ∧ parse x.2 x.1 = Ok spec.

Definition cache_bounded (c : SpecCache) : Prop :=
  (size (current_specs c) ≤ MAX_ENTRIES ∧ size (version_specs c) ≤ MAX_ENTRIES)%nat.

(** The reads of a request see the tables at [t1] and then [t2]. *)
Definition reads_at (t1 t2 : Z) (id : string) (reads : SpecReads) : Prop :=
  row_read reads = Ok ((λ r, (row_hash r, row_fetched_at r)) <$> rows t1 id)
  ∧ section_read reads = Ok (row_section <$> rows t2 id).

(** ** Lemmas *)

Lemma insert_bounded_size {K V} `{Countable K} (k : K) (v : V) m :
  (size m ≤ MAX_ENTRIES)%nat → (size (insert_bounded k v m) ≤ MAX_ENTRIES)%nat.
Proof.
  intros Hm. unfold insert_bounded. destruct (Nat.leb_spec MAX_ENTRIES (size m)) as [_|Hlt].
  - rewrite map_size_insert, lookup_empty, map_size_empty. unfold MAX_ENTRIES. lia.
  - rewrite map_size_insert. destruct (m !! k); cbn; lia.
Qed.

Lemma insert_bounded_lookup {K V} `{Countable K} (k j : K) (v w : V) m :
  insert_bounded k v m !! j = Some w → (j = k ∧ w = v) ∨ m !! j = Some w.
Proof.
  unfold insert_bounded. rewrite lookup_insert_Some. intros [[-> ->]|[_ Hj]]; [by left|].
  destruct (_ <=? _)%nat; [by rewrite lookup_empty in Hj|by right].
Qed.

Lemma current_sound_later now t c : now ≤ t → current_sound now c → current_sound t c.
Proof.
  intros Ht Hc id hash f spec Hin. destruct (Hc id hash f spec Hin) as (t1 & t2 & r1 & r2 & Hle & Hrest).
  exists t1, t2, r1, r2. split; [lia|done].
Qed.

(** An entry that revalidates is the parse of the row as it is now. *)
Lemma revalidate_current now id r c spec : rows_ordered → current_sound now c → rows now id = Some r →
  revalidate id (row_hash r) (row_fetched_at r) c = Some spec →
  parse (row_section r) (row_hash r) = Ok spec.
Proof.
  intros Hord Hc Hr. unfold revalidate.
  destruct (current_specs c !! id) as [[[hash f] s]|] eqn:E; [|done].
  destruct (String.eqb_spec hash (row_hash r)) as [->|]; [|done]. cbn [andb].
  destruct (Z.leb_spec (row_fetched_at r) f) as [Hf|]; [|done]. intros [= ->].
  destruct (Hc id _ f spec E) as (t1 & t2 & r1 & r2 & Ht & H1 & H2 & Hh & Hff & Hp).
  destruct (Hord id t1 t2 r1 r2 ltac:(lia) H1 H2) as [H12 _].
  destruct (Hord id t2 now r2 r ltac:(lia) H2 Hr) as [H2r Heq].
  rewrite Heq in Hp by lia. done.
Qed.

(** An interface is answered from a revalidated entry or from the section just read. *)
Lemma current_ok reads others id c spec c' :
  current reads others id c = (Ok spec, c') →
  ∃ hash fetched, row_read reads = Ok (Some (hash, fetched))
    ∧ (revalidate id hash fetched c = Some spec
       ∨ ∃ sec, section_read reads = Ok (Some sec) ∧ parse sec hash = Ok spec).
Proof.
  unfold current. destruct (row_read reads) as [[[hash fetched]|]|e]; cbn [db map_err]; [|by destruct (events_read reads) as [[]|]|done].
  intros Heq. exists hash, fetched. split; [done|].
  destruct (revalidate id hash fetched c); [left; by injection Heq as -> _|right].
  destruct (section_read reads) as [[sec|]|e]; [|done..]. exists sec. split; [done|].
  cbn in Heq. destruct (String.eqb sec ""); [done|]. cbn in Heq.
  destruct (parse sec hash); [by injection Heq as -> _|done].
Qed.

(** Whatever is answered, the cache stays sound and bounded. *)
Lemma current_keeps t1 t2 reads others id c :
  t1 ≤ t2 → reads_at t1 t2 id reads → current_sound t1 c → cache_bounded c →
  (∀ c, current_sound t1 c → cache_bounded c → current_sound t2 (others c) ∧ cache_bounded (others c)) →
  let c' := (current reads others id c).2 in current_sound t2 c' ∧ cache_bounded c'.
Proof.
  intros Ht [Hrow Hsec] Hc Hb Hothers. unfold current. rewrite Hrow.
  pose proof (conj (current_sound_later t1 t2 c Ht Hc) Hb) as Hsame. destruct (Hothers c Hc Hb) as [Hc2 Hb2].
  destruct (rows t1 id) as [r1|] eqn:E1; cbn [fmap option_fmap option_map db map_err]; [|done].
  destruct (revalidate id _ _ c) as [spec|]; [done|]. rewrite Hsec. set (c2 := others c) in *.
  destruct (rows t2 id) as [r2|] eqn:E2; cbn [fmap option_fmap option_map db map_err mbind result_bind ok_or option_bind]; [|done].
  destruct (String.eqb (row_section r2) ""); cbn [ok_or mbind result_bind]; [done|].
  destruct (parse (row_section r2) (row_hash r1)) as [entry|e] eqn:Ep; [|done]. split.
  - intros id' hash f spec Hin. apply insert_bounded_lookup in Hin as [[-> Heq]|Hin]; [|by apply Hc2].
    injection Heq as -> -> ->. exists t1, t2, r1, r2. split; [lia|done].
  - split; [apply insert_bounded_size|]; apply Hb2.
Qed.

(** An interface that is answered is the parse of what the row had during the request. *)
Lemma current_not_stale t1 t2 reads others id c spec c' :
  rows_ordered → t1 ≤ t2 → reads_at t1 t2 id reads → current_sound t1 c →
  current reads others id c = (Ok spec, c') →
  ∃ r1 t r, rows t1 id = Some r1 ∧ t1 ≤ t ≤ t2 ∧ rows t id = Some r ∧ parse (row_section r) (row_hash r1) = Ok spec.
Proof.
  intros Hord Ht [Hrow Hsec] Hc (hash & fetched & Hr & Hans)%current_ok. rewrite Hrow in Hr.
  destruct (rows t1 id) as [r1|] eqn:E1; [|done]. injection Hr as <- <-. exists r1.
  destruct Hans as [Hhit|(sec & Hread & Hp)].
  - exists t1, r1. split; [done|]. split; [lia|]. split; [done|]. by eapply revalidate_current.
  - rewrite Hsec in Hread. destruct (rows t2 id) as [r2|] eqn:E2; [|done]. injection Hread as <-.
    exists t2, r2. split; [done|]. split; [lia|done].
Qed.

(** C34: The interface a request is answered with is never stale, if its two reads
    of the row succeed, every write of a row stamps a later time, and the cache
    is sound and other requests keep it so.  If the row was there when the
    request looked, the answer is the parse of the section the row had at a
    moment of the request itself, under the hash the request saw, whatever
    other requests do to the cache meanwhile; it is an error only if the row had
    gone or had no interface by the second query, or if its text is corrupt, and
    says which; never that the contract is not indexed (unless the error
    constructor the source does not define makes that error).  If there was no
    row the answer is that the contract is not indexed or, if it has
    events, that it is an asset contract (or that the query failed), whatever
    the cache holds.  And both maps stay sound and bounded. *)
Theorem spec_current_fresh t1 t2 reads others id c :
  rows_ordered → t1 ≤ t2 → reads_at t1 t2 id reads →
  current_sound t1 c → cache_bounded c →
  (∀ c, current_sound t1 c → cache_bounded c → current_sound t2 (others c) ∧ cache_bounded (others c)) →
  let '(answer, c') := current reads others id c in
  current_sound t2 c' ∧ cache_bounded c'
  ∧ match rows t1 id with
    | None => answer = match events_read reads with
                       | Ok false => Err not_indexed
                       | Ok true => Err is_asset_contract
                       | Err e => Err (Internal e)
                       end
    | Some r1 =>
        ((∀ m, sac_not_supported m ≠ not_indexed) → answer ≠ Err not_indexed)
        ∧ ((∃ spec t r, answer = Ok spec ∧ t1 ≤ t ≤ t2 ∧ rows t id = Some r
                     ∧ parse (row_section r) (row_hash r1) = Ok spec)
        ∨ (row_section <$> rows t2 id = None ∨ row_section <$> rows t2 id = Some "")
          ∧ answer = Err no_callable_interface
        ∨ answer = Err (Internal "corrupt stored spec")
          ∧ ∃ r, rows t2 id = Some r ∧ hex_decode (row_section r) = None)
    end.
Proof.
  intros Hord Ht Hreads Hc Hb Hothers.
  pose proof (current_keeps t1 t2 reads others id c Ht Hreads Hc Hb Hothers) as Hkeep.
  pose proof (λ spec c', current_not_stale t1 t2 reads others id c spec c' Hord Ht Hreads Hc) as Hfresh.
  destruct (current reads others id c) as [answer c'] eqn:Ec. destruct Hkeep as [Hc' Hb']. split; [done|]. split; [done|].
  destruct Hreads as [Hrow Hsec]. revert Ec. unfold current. rewrite Hrow.
  destruct (rows t1 id) as [r1|] eqn:E1; cbn [fmap option_fmap option_map db map_err];
    [|destruct (events_read reads) as [[|]|e]; by intros [= <- _]].
  intros Ec. match goal with |- _ ∧ ?P => enough P as Hans end.
  { split; [|done]. intros Hsac ->. destruct Hans as [(? & ? & ? & [=] & _)|[[_ [= Heq]]|[[=] _]]].
    by apply (Hsac _ (eq_sym Heq)). }
  destruct answer as [spec|e].
  - left. destruct (Hfresh spec c' eq_refl) as (r & t & r' & [= <-] & Hrest). by exists spec, t, r'.
  - right. revert Ec. destruct (revalidate id _ _ c); [done|]. rewrite Hsec.
    destruct (rows t2 id) as [r2|] eqn:E2; cbn [fmap option_fmap option_map db map_err mbind result_bind ok_or option_bind];
      [|intros [= <- _]; left; split; [by left|done]].
    destruct (String.eqb_spec (row_section r2) "") as [Hempty|]; cbn [ok_or mbind result_bind];
      [rewrite Hempty; intros [= <- _]; left; split; [by right|done]|].
    unfold parse. destruct (hex_decode (row_section r2)) eqn:Eh; cbn [ok_or mbind result_bind]; [done|].
    intros [= <- _]. right. split; [done|by exists r2].
Qed.

(** A version is answered as it was recorded: from the cache or the table, the
    answer is the parse of the section and hash the history holds for that
    version whenever it holds one. *)
Theorem spec_version_exact t1 t2 reads others id v c :
  history_fixed → t1 ≤ t2 → version_read reads = Ok (history t2 id v) →
  versions_sound t1 c → cache_bounded c →
  (∀ c, versions_sound t1 c → cache_bounded c → versions_sound t2 (others c) ∧ cache_bounded (others c)) →
  let '(answer, c') := at_version reads others id v c in
  versions_sound t2 c' ∧ cache_bounded c'
  ∧ (∀ t x spec, history t id v = Some x → answer = Ok spec → parse x.2 x.1 = Ok spec)
  ∧ (∀ spec, answer = Ok spec → ∃ t x, t ≤ t2 ∧ history t id v = Some x).
Proof.
  intros Hfix Ht Hread Hc Hb Hothers. unfold at_version.
  destruct (version_specs c !! (id, v)) as [s|] eqn:E.
  - destruct (Hc id v s E) as (t & x & Hle & Hx & Hp). split.
    { intros id' v' s' Hin. destruct (Hc id' v' s' Hin) as (t' & x' & Hle' & Hrest). exists t', x'. split; [lia|done]. }
    split; [done|]. split.
    + intros t' y spec Hy [= <-]. by rewrite (Hfix id v t' t y x Hy Hx).
    + intros spec _. exists t, x. split; [lia|done].
  - rewrite Hread. destruct (Hothers c Hc Hb) as [Hc2 Hb2]. set (c2 := others c) in *.
    destruct (history t2 id v) as [x|] eqn:Ex; cbn [db map_err mbind result_bind ok_or]; [|(split; [done|]; by split)].
    destruct (parse x.2 x.1) as [entry|e] eqn:Ep; [|(split; [done|]; by split)]. split; [|split; [|split]].
    + intros id' v' spec Hin. apply insert_bounded_lookup in Hin as [[Heq ->]|Hin]; [|by apply Hc2].
      injection Heq as -> ->. exists t2, x. done.
    + split; [|apply insert_bounded_size]; apply Hb2.
    + intros t y spec Hy [= <-]. by rewrite (Hfix id v t t2 y x Hy Ex).
    + intros spec _. exists t2, x. done.
Qed.
End specs.

(** ** A witness *)

Section witness.
#[local] Instance sample_stellar_specs : Stellar := sample_stellar.

(** The row changes at 10; the request reads the new row and its section. *)
Definition upgraded_rows (t : Z) (id : string) : option SpecRow :=
  if String.eqb id "C"
  then Some (if t <? 10 then {| row_hash := "h1"; row_fetched_at := 1; row_section := "00" |}
             else {| row_hash := "h2"; row_fetched_at := 10; row_section := "01" |})
  else None.

Definition upgraded_reads : SpecReads :=
  {| row_read := Ok (Some ("h2", 10)); events_read := Ok false; section_read := Ok (Some "01");
     version_read := Ok None |}.

(** Parsed before the upgrade. *)
Definition cache_of_h1 : SpecCache :=
  {| current_specs := {[ "C" := ("h1", 1, {| section_bytes := ["000"%char]; parsed := None; spec_wasm_hash := "h1" |}) ]};
     version_specs := ∅ |}.

Lemma spec_current_fresh_witness :
  let '(answer, _) := current (λ _ _ _, []) bad_request upgraded_reads id "C" cache_of_h1 in
  ∃ spec, answer = Ok spec ∧ spec_wasm_hash spec = "h2"
    ∧ ∃ t r, 12 ≤ t ≤ 13 ∧ upgraded_rows t "C" = Some r ∧ parse (λ _ _ _, []) (row_section r) "h2" = Ok spec.
Proof.
  pose proof (spec_current_fresh (λ _ _ _, []) bad_request upgraded_rows 12 13 upgraded_reads id "C" cache_of_h1) as Hf.
  destruct (current (λ _ _ _, []) bad_request upgraded_reads id "C" cache_of_h1) as [answer c'] eqn:E.
  destruct Hf as (_ & _ & Hans).
  - intros id t t' r r' Ht Hr Hr'. unfold upgraded_rows in Hr, Hr'. destruct (String.eqb id "C"); [|done].
    destruct (Z.ltb_spec t 10), (Z.ltb_spec t' 10); injection Hr as <-; injection Hr' as <-; cbn; split; lia || done.
  - lia.
  - split; reflexivity.
  - intros i h f spec Hi. unfold cache_of_h1 in Hi. cbn in Hi.
    apply lookup_singleton_Some in Hi as [<- Heq]. injection Heq as <- <- <-.
    exists 0, 0. eexists _, _. split; [lia|]. repeat split; reflexivity.
  - split; cbn; rewrite ?map_size_singleton, ?map_size_empty; unfold MAX_ENTRIES; lia.
  - intros c Hc Hb. split; [by eapply current_sound_later; [|exact Hc]|exact Hb].
  - assert (∃ spec, answer = Ok spec ∧ spec_wasm_hash spec = "h2") as (spec & Ha & Hh).
    { vm_compute in E. injection E as <- _. eexists. split; reflexivity. }
    exists spec. split; [exact Ha|]. split; [exact Hh|].
    destruct Hans as [_ [(spec' & t & r & Ha' & Hrest)|[[_ Hx]|[Hx _]]]]; rewrite Ha in *; [|discriminate Hx..].
    injection Ha' as <-. exists t, r. exact Hrest.
Defined.
End witness.
