(* ===== verification/SdkRoute.v ===== *)
(** * SdkRoute: serving generated clients ([lumenqraph-api/src/routes/sdk.rs])

    [GET /contracts/:id/sdk] generates a client in the language asked for from
    the contract's current interface, or from a recorded version of it: the
    interface cache [Specs] composed with the generators of [Codegen]. *)
From S2P Require Import Prelude Text Values Instances Spec ApiError Specs Codegen.
From Stdlib Require Import Ascii.

Local Open Scope string_scope.
Local Open Scope Z_scope.

(** The query string. *)
Record SdkQuery := { lang : option string; version : option Z }.

Inductive SdkLang : Type := LangTypeScript | LangPython | LangRust.

(** [Lang::from_str]. *)
Definition lang_from_str (s : string) : option SdkLang :=
  if String.eqb s "ts" || String.eqb s "typescript" then Some LangTypeScript
  else if String.eqb s "python" || String.eqb s "py" then Some LangPython
  else if String.eqb s "rust" || String.eqb s "rs" then Some LangRust
  else None.

Definition content_type (l : SdkLang) : string :=
  match l with
  | LangTypeScript => "text/typescript; charset=utf-8"
  | LangPython => "text/x-python; charset=utf-8"
  | LangRust => "text/x-rust; charset=utf-8"
  end.

Definition extension (l : SdkLang) : string :=
  match l with LangTypeScript => "ts" | LangPython => "py" | LangRust => "rs" end.

Record SdkResponse := { sdk_content_type : string; content_disposition : string; code : string }.

Section sdk.
Context `{Stellar}.
Context (read_xdr_iter : Z → Z → list ascii → list (result string ScSpecEntry)).
Context (sac_not_supported : string → ApiError).
Context (debug_plain : Z → bool).

Definition generate (l : SdkLang) (contract_id : string) (spec : ContractSpec) : string :=
  match l with
  | LangTypeScript => typescript_client debug_plain contract_id spec
  | LangPython => python_client debug_plain contract_id spec
  | LangRust => rust_client debug_plain contract_id spec
  end.

Definition sdk_filename (contract_id : string) (v : option Z) (l : SdkLang) : string :=
  match v with
  | Some v => contract_id +:+ ".v" +:+ show_i v +:+ "." +:+ extension l
  | None => contract_id +:+ "." +:+ extension l
  end.

Definition contract_sdk (reads : SpecReads) (others : SpecCache → SpecCache) (contract_id : string)
    (q : SdkQuery) (c : SpecCache) : result ApiError SdkResponse * SpecCache :=
  let lang_str := default "ts" (lang q) in
  match lang_from_str lang_str with
  | None =>
      (Err (bad_request ("unsupported lang " +:+ debug_str debug_plain lang_str +:+
                         "; supported: ts, python, rust")), c)
  | Some l =>
      let '(spec, c) :=
        match version q with
        | Some v => at_version read_xdr_iter reads others contract_id v c
        | None => current read_xdr_iter sac_not_supported reads others contract_id c
        end in
      (spec ← spec;
       parsed ← ok_or (Internal "stored spec section could not be parsed") (parsed spec);
       Ok {| sdk_content_type := content_type l;
             content_disposition := qt "inline; filename=^" +:+ sdk_filename contract_id (version q) l +:+ qt "^";
             code := generate l contract_id parsed |}, c)
  end.

(** ** What is served *)

(** The response a client of [spec] is served with. *)
Definition serves (l : SdkLang) (contract_id : string) (v : option Z) (spec : ContractSpec) (r : SdkResponse) : Prop :=
  sdk_content_type r = content_type l ∧ code r = generate l contract_id spec
  ∧ content_disposition r = qt "inline; filename=^" +:+ sdk_filename contract_id v l +:+ qt "^".

Lemma contract_sdk_ok reads others id q c r c' :
  contract_sdk reads others id q c = (Ok r, c') →
  ∃ l cs spec, lang_from_str (default "ts" (lang q)) = Some l ∧ parsed cs = Some spec
    ∧ serves l id (version q) spec r
    ∧ match version q with
      | Some v => at_version read_xdr_iter reads others id v c = (Ok cs, c')
      | None => current read_xdr_iter sac_not_supported reads others id c = (Ok cs, c')
      end.
Proof.
  unfold contract_sdk. destruct (lang_from_str _) as [l|]; [|done].
  set (m := match version q with Some _ => _ | None => _ end). destruct m as [[cs|e] c2] eqn:Em; [|done].
  cbn [mbind result_bind]. destruct (parsed cs) as [spec|] eqn:Ep; [|done]. intros [= <- <-].
  exists l, cs, spec. split_and!; [done..|]. unfold m in Em. by destruct (version q).
Qed.

(** A client that is served is the one generated, in the language asked for,
    from the interface the contract had at a moment of the request; asked for
    with a version, from the interface recorded under that version. *)
Theorem sdk_serves_interface (rows : Z → string → option SpecRow)
    (history : Z → string → Z → option (string * string)) t1 t2 reads others id q c r c' :
  rows_ordered rows → history_fixed history → t1 ≤ t2 →
  reads_at rows t1 t2 id reads →
  (∀ v, version q = Some v → version_read reads = Ok (history t2 id v)) →
  current_sound read_xdr_iter rows t1 c → versions_sound read_xdr_iter history t1 c → cache_bounded c →
  (∀ c, versions_sound read_xdr_iter history t1 c → cache_bounded c →
     versions_sound read_xdr_iter history t2 (others c) ∧ cache_bounded (others c)) →
  contract_sdk reads others id q c = (Ok r, c') →
  ∃ l cs spec, lang_from_str (default "ts" (lang q)) = Some l ∧ parsed cs = Some spec
    ∧ serves l id (version q) spec r
    ∧ match version q with
      | Some v => ∃ t x, t ≤ t2 ∧ history t id v = Some x ∧ parse read_xdr_iter x.2 x.1 = Ok cs
      | None => ∃ t row hash, t1 ≤ t ≤ t2 ∧ rows t id = Some row
          ∧ parse read_xdr_iter (row_section row) hash = Ok cs
      end.
Proof.
  intros Hord Hfix Ht Hreads Hv Hc Hvs Hb Hothers (l & cs & spec & Hl & Hp & Hs & Hm)%contract_sdk_ok.
  exists l, cs, spec. split_and!; [done..|]. destruct (version q) as [v|] eqn:Eq.
  - pose proof (spec_version_exact read_xdr_iter history t1 t2 reads others id v c Hfix Ht (Hv v eq_refl)
      Hvs Hb Hothers) as Hexact. rewrite Hm in Hexact. destruct Hexact as (_ & _ & Hpar & Hex).
    destruct (Hex cs eq_refl) as (t & x & Hle & Hx). exists t, x. split_and!; [done..|]. by eapply Hpar.
  - apply current_ok in Hm as (hash & f & Hrow & [Hhit|(sec & Hsec & Hpar)]);
      destruct Hreads as [Hr1 Hr2]; rewrite Hrow in Hr1.
    + destruct (rows t1 id) as [row|] eqn:E1; [|done]. injection Hr1 as -> ->.
      exists t1, row, (row_hash row). split_and!; [lia|lia|done|]. by eapply revalidate_current.
    + rewrite Hsec in Hr2. destruct (rows t2 id) as [row|] eqn:E2; [|done]. injection Hr2 as ->.
      exists t2, row, hash. split_and!; [lia|lia|done|done].
Qed.
End sdk.
