(* ===== verification/ReadRoute.v ===== *)
(** * ReadRoute: reading and simulating contract calls ([lumenqraph-api/src/routes/read.rs])

    The handlers of [POST /contracts/:id/call] and [/simulate] and of
    [GET /contracts/:id/functions], with the cost limits of
    [read_cost_limit.rs] and the interpretation of the RPC's answer of [rpc.rs].
    They compose the interface cache ([Specs]), the result cache ([CallCache]),
    the call encoder ([Call]) and the sanitiser ([Sanitize]).

    The environment of a request gives the answers of the tables and of the RPC
    node, the clock, and what other requests do to the two caches between its
    own accesses.  [ApiError::not_a_view_function] and [sac_not_supported] are
    called and not defined in the source and are parameters, as are the text of
    an [EncodeError] (its quoting is [Debug]) and the functions of
    [stellar_xdr]. *)
From S2P Require Import Prelude Text Containers Values Instances Lru Serde Limbs Spec Enrich Encode Call Sanitize CallCache ApiError Specs.
From Stdlib Require Import Ascii.
From Stdlib Require String.

Local Open Scope Z_scope.

(** ** Cost limits ([read_cost_limit.rs]) *)

Definition MAX_READ_REQUEST_SIZE : Z := 256 * 1024.
Definition MAX_ARGS_SIZE : Z := 128 * 1024.

Record ReadCostLimitConfig := { max_request_size : Z; max_args_size : Z }.

Definition default_cost_limits : ReadCostLimitConfig :=
  {| max_request_size := MAX_READ_REQUEST_SIZE; max_args_size := MAX_ARGS_SIZE |}.

Inductive CostError : Type :=
  | RequestTooLarge (size limit : Z)
  | ArgsTooLarge (size limit : Z).

Definition http_status (e : CostError) : Z :=
  match e with RequestTooLarge _ _ => 413 | ArgsTooLarge _ _ => 400 end.

Definition cost_message (e : CostError) : string :=
  match e with
  | RequestTooLarge size limit =>
      "request body too large: " +:+ show_u size +:+ " bytes (limit: " +:+ show_u limit +:+ " bytes)"
  | ArgsTooLarge size limit =>
      "args field too large: " +:+ show_u size +:+ " bytes (limit: " +:+ show_u limit +:+ " bytes)"
  end.

Definition len (s : string) : Z := Z.of_nat (String.length s).

Definition validate_call_request `{SerdeJson} (body_bytes : Z) (a : Json) (config : ReadCostLimitConfig)
    : result CostError unit :=
  if (0 <? max_request_size config) && (max_request_size config <? body_bytes)
  then Err (RequestTooLarge body_bytes (max_request_size config))
  else if (0 <? max_args_size config) && (max_args_size config <? len (serde_to_string a))
  then Err (ArgsTooLarge (len (serde_to_string a)) (max_args_size config))
  else Ok tt.

(** ** The RPC's answer ([rpc.rs]) *)

Record SimulateResult := {
  sr_error : option string;
  sr_results : option (list string);
  sr_events : list string;
  sr_min_resource_fee : option string;
  sr_latest_ledger : Z;
}.

Record RpcEnvelope := { rpc_result : option SimulateResult; rpc_error : option string }.

Inductive SimOutcome : Type :=
  | SimOk (result_xdr : string) (events : list string) (min_resource_fee : option string) (latest_ledger : Z)
  | SimError (msg : string).

(** [RpcClient::simulate] after the exchange. *)
Definition simulate_outcome (env : RpcEnvelope) : result string SimOutcome :=
  match rpc_error env with
  | Some e => Err ("rpc error: " +:+ e)
  | None =>
      r ← ok_or "rpc returned no result" (rpc_result env);
      match sr_error r with
      | Some err => Ok (SimError err)
      | None =>
          match (v ← sr_results r; head v) with
          | Some xdr => Ok (SimOk xdr (sr_events r) (sr_min_resource_fee r) (sr_latest_ledger r))
          | None => Ok (SimError "simulation returned no result value")
          end
      end
  end.

(** ** Requests *)

Record CallRequest := { req_function : string; req_args : Json; req_source_account : option string }.

Section read_route.
Context `{Stellar} `{SerdeJson} `{StrkeyCheck} `{!LruCache Key (Json * Z)}.
Context (muxed_account_from_str : string → result string MuxedAccount).
Context (public_key_from_str : string → result string (list ascii)).
Context (address_error : string → string) (length_error : string).
Context (to_xdr_base64 : Transaction → result string string).
Context (diagnostic_from_xdr : Z → Z → string → option DiagnosticEvent).
Context (base64_decode : string → option (list ascii)).
Context (read_xdr_scval : list ascii → option (ScVal * list ascii)).
Context (read_xdr_iter : Z → Z → list ascii → list (result string ScSpecEntry)).
Context (order : gmap (list string) nat → list (list string * nat)).
Context (sac_not_supported not_a_view_function : string → ApiError).
Context (encode_error_text : EncodeError → string).

Record ReadState := { spec_cache : SpecCache; call_cache : CallCache }.

(** What the outside decides in a request: the tables, the RPC node, the clock
    at the accesses to the result cache, and the other requests. *)
Record ReadEnv := {
  spec_reads : SpecReads;
  other_specs : SpecCache → SpecCache;
  other_calls : CallCache → CallCache;
  rpc : string → result string RpcEnvelope;
  get_time : Z;
  insert_time : Z;
}.

Definition encode_error_to_api (e : EncodeError) : ApiError := bad_request (encode_error_text e).

Definition build_contract_error_detail (error_msg : string) (sp : option ContractSpec) : option Json :=
  code ← parse_contract_error_code error_msg;
  Some (match sp with
        | Some sp =>
            match resolve_error_code sp code with
            | Some (name, doc) => mk_obj [("code", JInt code); ("name", JStr name); ("doc", JStr doc)]
            | None => mk_obj [("code", JInt code)]
            end
        | None => mk_obj [("code", JInt code)]
        end).

(** The size check both handlers begin with. *)
Definition check_cost (limits : ReadCostLimitConfig) (req : CallRequest) : result ApiError unit :=
  let estimated_body_size := len (req_function req) + len (serde_to_string (req_args req)) in
  match validate_call_request estimated_body_size (req_args req) limits with
  | Ok tt => Ok tt
  | Err e => Err (Status (http_status e) ErrorCode.BadRequest (cost_message e))
  end.

Definition encode_for (spec : CachedSpec) (contract_id : string) (req : CallRequest)
    : result ApiError (ContractSpec * EncodedCall) :=
  match parsed spec with
  | None => Err (encode_error_to_api (FunctionNotFound (req_function req)))
  | Some sp =>
      call ← map_err encode_error_to_api
               (encode_call_with_spec muxed_account_from_str public_key_from_str address_error length_error
                  to_xdr_base64 sp contract_id (req_function req) (req_args req) (req_source_account req));
      Ok (sp, call)
  end.

Definition simulation_error (msg : string) (sp : ContractSpec) : ApiError :=
  simulation_failed_with_contract_error ("simulation failed: " +:+ sanitize_simulation_error msg)
    (build_contract_error_detail msg (Some sp)).

(** [state.rpc.simulate(tx).await?]. *)
Definition simulate (answer : string → result string RpcEnvelope) (tx : string) : result ApiError SimOutcome :=
  map_err Internal (env ← answer tx; simulate_outcome env).

Definition result_of (xdr : string) (call : EncodedCall) (sp : ContractSpec) : Json :=
  decode_result base64_decode read_xdr_scval xdr call (Some sp).

Definition call_response (contract_id function xdr : string) (call : EncodedCall) (sp : ContractSpec)
    (latest_ledger : Z) : Json :=
  mk_obj [("contract_id", JStr contract_id); ("function", JStr function);
          ("result", result_of xdr call sp); ("simulated_at_ledger", JInt latest_ledger)].

Definition is_view (spec : CachedSpec) (function : string) : option bool :=
  sp ← parsed spec; is_view_function sp function.

(** The part of [call_function] after the caches: encode, simulate, answer. *)
Definition run_call (spec : CachedSpec) (answer : string → result string RpcEnvelope) (contract_id : string)
    (req : CallRequest) : result ApiError Json :=
  '(sp, call) ← encode_for spec contract_id req;
  outcome ← simulate answer (tx_xdr call);
  match outcome with
  | SimOk result_xdr _ _ latest_ledger =>
      Ok (call_response contract_id (req_function req) result_xdr call sp latest_ledger)
  | SimError msg => Err (simulation_error msg sp)
  end.

(** [call_function] once the interface is known and the view check has passed:
    the result cache, then the simulation. *)
Definition cached_call (env : ReadEnv) (contract_id : string) (allow_mutating : bool) (req : CallRequest)
    (spec : CachedSpec) (calls : CallCache) : result ApiError Json * CallCache :=
  let cacheable := negb allow_mutating in
  let scope := {| source_account := req_source_account req; wasm_hash := spec_wasm_hash spec |} in
  let '(cached, calls) :=
    if cacheable then get contract_id (req_function req) (req_args req) scope (get_time env) calls
    else (None, calls) in
  match cached with
  | Some v => (Ok v, calls)
  | None =>
      let calls := other_calls env calls in
      match run_call spec (rpc env) contract_id req with
      | Err e => (Err e, calls)
      | Ok response =>
          (Ok response,
           if cacheable
           then insert contract_id (req_function req) (req_args req) scope response (insert_time env) calls
           else calls)
      end
  end.

Definition call_function (limits : ReadCostLimitConfig) (env : ReadEnv) (contract_id : string)
    (allow_mutating : bool) (req : CallRequest) (s : ReadState) : result ApiError Json * ReadState :=
  match check_cost limits req with
  | Err e => (Err e, s)
  | Ok tt =>
      let '(found, specs) := current read_xdr_iter sac_not_supported (spec_reads env) (other_specs env)
                               contract_id (spec_cache s) in
      match found with
      | Err e => (Err e, {| spec_cache := specs; call_cache := call_cache s |})
      | Ok spec =>
          if bool_decide (is_view spec (req_function req) = Some false) && negb allow_mutating
          then (Err (not_a_view_function ("'" +:+ req_function req +:+ "' looks state-changing, so /call will not run it. Use POST /contracts/" +:+ contract_id +:+ "/simulate, or pass ?allow_mutating=true.")),
                {| spec_cache := specs; call_cache := call_cache s |})
          else
            let '(answer, calls) := cached_call env contract_id allow_mutating req spec (call_cache s) in
            (answer, {| spec_cache := specs; call_cache := calls |})
      end
  end.

Definition simulate_call (limits : ReadCostLimitConfig) (env : ReadEnv) (contract_id : string)
    (req : CallRequest) (s : ReadState) : result ApiError Json * ReadState :=
  match check_cost limits req with
  | Err e => (Err e, s)
  | Ok tt =>
      let '(found, specs) := current read_xdr_iter sac_not_supported (spec_reads env) (other_specs env)
                               contract_id (spec_cache s) in
      (spec ← found;
       '(sp, call) ← encode_for spec contract_id req;
       outcome ← simulate (rpc env) (tx_xdr call);
       match outcome with
       | SimOk result_xdr events min_resource_fee latest_ledger =>
           Ok (mk_obj [("contract_id", JStr contract_id); ("function", JStr (req_function req));
                       ("result", result_of result_xdr call sp);
                       ("events", JArr (decode_events diagnostic_from_xdr order events contract_id (Some sp)));
                       ("min_resource_fee", opt_str min_resource_fee);
                       ("simulated_at_ledger", JInt latest_ledger)])
       | SimError msg => Err (simulation_error msg sp)
       end, {| spec_cache := specs; call_cache := call_cache s |})
  end.

Definition list_functions (env : ReadEnv) (contract_id : string) (s : ReadState) : result ApiError Json * ReadState :=
  let '(found, specs) := current read_xdr_iter sac_not_supported (spec_reads env) (other_specs env)
                           contract_id (spec_cache s) in
  (spec ← found;
   let functions := match parsed spec with Some sp => functions_of sp | None => [] end in
   Ok (mk_obj [("contract_id", JStr contract_id); ("functions", JArr functions)]),
   {| spec_cache := specs; call_cache := call_cache s |}).
End read_route.

(** ** Lemmas: the result cache *)

Section cache_views.
Context `{SerdeJson} `{!LruCache Key (Json * Z)}.

Lemma get_Some_view id f a scope now c v : (get id f a scope now c).1 = Some v →
  ∃ at_, lru_view (inner c) (make_key id f a scope) = Some (v, at_) ∧ elapsed now at_ < ttl c.
Proof.
  unfold get. destruct (ttl c =? 0); [done|]. pose proof (get_result (make_key id f a scope) (inner c)) as Hres.
  destruct (lru_get _ (inner c)) as [found i]. cbn [fst] in Hres. subst found.
  change (assoc ?k (lru_entries ?i)) with (lru_view i k).
  destruct (lru_view (inner c) (make_key id f a scope)) as [[w at_]|] eqn:E; [|done].
  destruct (Z.ltb_spec (elapsed now at_) (ttl c)); [|done]. intros [= <-]. eauto.
Qed.

Lemma get_view_sub id f a scope now c k x :
  lru_view (inner (get id f a scope now c).2) k = Some x → lru_view (inner c) k = Some x.
Proof.
  unfold get. destruct (ttl c =? 0); [done|]. pose proof (view_get (make_key id f a scope) (inner c)) as Hv.
  destruct (lru_get _ (inner c)) as [[[w at_]|] i]; cbn [snd] in Hv; [|cbn; by rewrite Hv].
  destruct (_ <? _); cbn; [by rewrite Hv|]. rewrite view_pop. case_decide; [done|]. by rewrite Hv.
Qed.

Lemma insert_view id f a scope r now c k x :
  lru_view (inner (insert id f a scope r now c)) k = Some x →
  (k = make_key id f a scope ∧ x = (r, now)) ∨ lru_view (inner c) k = Some x.
Proof.
  unfold insert. destruct (ttl c =? 0); [by right|].
  destruct (lru_put _ _ (inner c)) as [ev i] eqn:E. cbn.
  pose proof (view_put_Some (make_key id f a scope) (r, now) (inner c) k x) as Hp. rewrite E in Hp. cbn [snd] in Hp.
  intros Hk. destruct (Hp Hk) as [?|[_ ?]]; auto.
Qed.
End cache_views.

Section read_theorems.
Context `{Stellar} `{SerdeJson} `{StrkeyCheck} `{!LruCache Key (Json * Z)}.
Context (muxed_account_from_str : string → result string MuxedAccount).
Context (public_key_from_str : string → result string (list ascii)).
Context (address_error : string → string) (length_error : string).
Context (to_xdr_base64 : Transaction → result string string).
Context (base64_decode : string → option (list ascii)).
Context (read_xdr_scval : list ascii → option (ScVal * list ascii)).
Context (read_xdr_iter : Z → Z → list ascii → list (result string ScSpecEntry)).
Context (sac_not_supported not_a_view_function : string → ApiError).
Context (encode_error_text : EncodeError → string).

(** The table of interfaces and the RPC node as functions of time; [D] bounds
    the time between an RPC answer and its insertion. *)
Context (rows : Z → string → option SpecRow) (chain : Z → string → result string RpcEnvelope) (D : Z).

#[local] Abbreviation run := (run_call muxed_account_from_str public_key_from_str address_error length_error
  to_xdr_base64 base64_decode read_xdr_scval encode_error_text).
#[local] Abbreviation handle := (call_function muxed_account_from_str public_key_from_str address_error length_error
  to_xdr_base64 base64_decode read_xdr_scval read_xdr_iter sac_not_supported not_a_view_function encode_error_text).

(** [spec] is what the table held for the contract at [t], under the hash the
    request saw. *)
Definition interface_at (t : Z) (id : string) (spec : CachedSpec) : Prop :=
  ∃ r, rows t id = Some r ∧ parse read_xdr_iter (row_section r) (spec_wasm_hash spec) = Ok spec.

(** [v] is the answer to a simulation at [t] of a view call with key [k]. *)
Definition simulated (k : Key) (v : Json) (t : Z) : Prop :=
  ∃ id req spec u, interface_at u id spec ∧ is_view spec (req_function req) ≠ Some false
    ∧ k = make_key id (req_function req) (req_args req)
            {| source_account := req_source_account req; wasm_hash := spec_wasm_hash spec |}
    ∧ run spec (chain t) id req = Ok v.

Definition calls_sound (now : Z) (c : CallCache) : Prop :=
  ∀ k v at_, lru_view (inner c) k = Some (v, at_) → at_ ≤ now ∧ ∃ t, at_ - D ≤ t ≤ at_ ∧ simulated k v t.

Lemma calls_sound_later now t c : now ≤ t → calls_sound now c → calls_sound t c.
Proof. intros Ht Hc k v a Hk. destruct (Hc k v a Hk) as [Ha Hs]. split; [lia|done]. Qed.

(** What the environment of a request promises: the tables and the node answer
    as they are at the times of the request, and the other requests keep the
    caches sound. *)
Record env_ok (t1 t2 tr : Z) (id : string) (env : ReadEnv) : Prop := {
  eo_reads : reads_at rows t1 t2 id (spec_reads env);
  eo_rpc : rpc env = chain tr;
  eo_times : t1 ≤ t2 ≤ get_time env ∧ get_time env ≤ tr ≤ insert_time env ≤ tr + D;
  eo_specs c : current_sound read_xdr_iter rows t1 c → cache_bounded c →
    current_sound read_xdr_iter rows t2 (other_specs env c) ∧ cache_bounded (other_specs env c);
  eo_calls c : calls_sound (get_time env) c → calls_sound (insert_time env) (other_calls env c);
}.

Definition read_sound (now : Z) (s : ReadState) : Prop :=
  current_sound read_xdr_iter rows now (spec_cache s) ∧ cache_bounded (spec_cache s)
  ∧ calls_sound now (call_cache s).

Lemma parse_hash hex h spec : parse read_xdr_iter hex h = Ok spec → spec_wasm_hash spec = h.
Proof. unfold parse. destruct (ok_or _ _); [|done]. by intros [= <-]. Qed.

#[local] Abbreviation through_cache := (cached_call muxed_account_from_str public_key_from_str address_error
  length_error to_xdr_base64 base64_decode read_xdr_scval encode_error_text).

Definition key_of (id : string) (req : CallRequest) (spec : CachedSpec) : Key :=
  make_key id (req_function req) (req_args req)
    {| source_account := req_source_account req; wasm_hash := spec_wasm_hash spec |}.

Lemma cached_call_sound t1 t2 tr t id env allow req spec c :
  env_ok t1 t2 tr id env → interface_at t id spec →
  allow = true ∨ is_view spec (req_function req) ≠ Some false →
  calls_sound (get_time env) c →
  let '(answer, c') := through_cache env id allow req spec c in
  calls_sound (insert_time env) c'
  ∧ ∀ v, answer = Ok v →
      if allow then run spec (chain tr) id req = Ok v
      else ∃ t', get_time env - Z.max 0 (ttl c) - D ≤ t' ≤ insert_time env ∧ simulated (key_of id req spec) v t'.
Proof.
  intros [Hreads Hrpc Htimes Hspecs Hcalls] Hface Hview Hc. unfold cached_call. rewrite Hrpc.
  destruct allow; cbn [negb].
  { destruct (run spec (chain tr) id req) as [v|e]; (split; [by apply Hcalls|]); intros v' Hv; congruence. }
  destruct Hview as [|Hview]; [done|].
  pose proof (get_Some_view id (req_function req) (req_args req)
    {| source_account := req_source_account req; wasm_hash := spec_wasm_hash spec |} (get_time env) c) as Hhit.
  pose proof (get_view_sub id (req_function req) (req_args req)
    {| source_account := req_source_account req; wasm_hash := spec_wasm_hash spec |} (get_time env) c) as Hsub.
  destruct (get id _ _ _ (get_time env) c) as [cached c1]. cbn [fst snd] in Hhit, Hsub.
  assert (calls_sound (get_time env) c1) as Hc1 by (intros k v a Hk; by apply Hc, Hsub).
  destruct cached as [v|].
  - split; [eapply calls_sound_later; [|exact Hc1]; lia|]. intros v' [= <-].
    destruct (Hhit v eq_refl) as (a & Hk & He). destruct (Hc _ _ _ Hk) as (Ha & t' & Ht' & Hsim).
    exists t'. split; [unfold elapsed in He; lia|exact Hsim].
  - destruct (run spec (chain tr) id req) as [v|e] eqn:Erun; [|by split; [apply Hcalls|]].
    assert (simulated (key_of id req spec) v tr) as Hsim by (exists id, req, spec, t; done).
    split.
    + intros k w a Hk. apply insert_view in Hk as [[-> [= -> ->]]|Hk]; [|by apply (Hcalls c1)].
      split; [lia|]. exists tr. split; [lia|exact Hsim].
    + intros v' [= <-]. exists tr. split; [|exact Hsim].
      lia.
Qed.

(** C6: The answer of [/call] is a simulation of that call.  Whatever the other
    requests do, an [Ok] answer is the response to a simulation of the same
    contract, function, source account and canonical arguments, encoded against
    the interface the contract's row held during this request (or, from the
    cache, against one with the same WASM hash), run at most the cache's TTL
    (plus [D]) before this request; a function that looks state-changing is
    answered only when the caller asked for it, and then never from the cache;
    and the caches stay sound for the requests that follow. *)
Theorem call_function_correct t1 t2 tr limits env id allow req s :
  rows_ordered rows → env_ok t1 t2 tr id env → read_sound t1 s →
  let '(answer, s') := handle limits env id allow req s in
  read_sound (insert_time env) s'
  ∧ ∀ v, answer = Ok v →
      ∃ t spec, t1 ≤ t ≤ t2 ∧ interface_at t id spec
        ∧ if allow then run spec (chain tr) id req = Ok v
          else is_view spec (req_function req) ≠ Some false
            ∧ ∃ t', get_time env - Z.max 0 (ttl (call_cache s)) - D ≤ t' ≤ insert_time env
                ∧ simulated (key_of id req spec) v t'.
Proof.
  intros Hord Hok (Hs & Hb & Hc). destruct Hok as [Hreads Hrpc Htimes Hspecs Hcalls].
  unfold call_function. destruct (check_cost limits req) as [[]|e];
    [|by split; [split_and!; [eapply current_sound_later; [|exact Hs]; lia|apply Hb..|eapply calls_sound_later; [|exact Hc]; lia]|]].
  pose proof (current_keeps read_xdr_iter sac_not_supported rows t1 t2 (spec_reads env) (other_specs env)
    id (spec_cache s) ltac:(lia) Hreads Hs Hb Hspecs) as [Hs2 Hb2].
  pose proof (λ spec c', current_not_stale read_xdr_iter sac_not_supported rows t1 t2 (spec_reads env) (other_specs env)
    id (spec_cache s) spec c' Hord ltac:(lia) Hreads Hs) as Hans.
  destruct (current _ _ (spec_reads env) _ id _) as [found specs]. cbn [snd] in Hs2, Hb2.
  assert (current_sound read_xdr_iter rows (insert_time env) specs) as Hs3 by (eapply current_sound_later; [|exact Hs2]; lia).
  assert (∀ c, calls_sound (insert_time env) c →
    read_sound (insert_time env) {| spec_cache := specs; call_cache := c |}) as Hsound by (intros c ?; by split_and!).
  assert (calls_sound (get_time env) (call_cache s)) as Hcg by (eapply calls_sound_later; [|exact Hc]; lia).
  assert (calls_sound (insert_time env) (call_cache s)) as Hci by (eapply calls_sound_later; [|exact Hc]; lia).
  destruct found as [spec|e]; [|by split; [apply Hsound|]].
  assert (∃ t, t1 ≤ t ≤ t2 ∧ interface_at t id spec) as (t & Ht & Hface).
  { destruct (Hans spec specs eq_refl) as (r1 & t & r & _ & Ht & Hr & Hp). exists t. split; [done|]. exists r. split; [done|].
    by rewrite (parse_hash _ _ _ Hp). }
  destruct (bool_decide (is_view spec (req_function req) = Some false) && negb allow) eqn:Eguard.
  { split; [by apply Hsound|done]. }
  assert (allow = true ∨ is_view spec (req_function req) ≠ Some false) as Hview.
  { destruct allow; [by left|]. right. rewrite andb_true_r in Eguard. by apply bool_decide_eq_false in Eguard. }
  pose proof (cached_call_sound t1 t2 tr t id env allow req spec (call_cache s) ltac:(by split) Hface Hview Hcg) as Hrun.
  destruct (through_cache env id allow req spec (call_cache s)) as [answer calls]. destruct Hrun as [Hc' Hv].
  split; [by apply Hsound|]. intros v Hans'. exists t, spec. split; [done|]. split; [done|].
  specialize (Hv v Hans'). destruct allow; [done|]. destruct Hview as [|Hview]; [done|]. by split.
Qed.

(** ** Lemmas: what the node is asked *)

Context (diagnostic_from_xdr : Z → Z → string → option DiagnosticEvent).
Context (order : gmap (list string) nat → list (list string * nat)).

#[local] Abbreviation dry_run := (simulate_call muxed_account_from_str public_key_from_str address_error length_error
  to_xdr_base64 diagnostic_from_xdr base64_decode read_xdr_scval read_xdr_iter order sac_not_supported
  encode_error_text).
#[local] Abbreviation encode := (encode_call_with_spec muxed_account_from_str public_key_from_str address_error
  length_error to_xdr_base64).
#[local] Abbreviation interface := (current read_xdr_iter sac_not_supported).

Definition with_rpc (answer : string → result string RpcEnvelope) (env : ReadEnv) : ReadEnv :=
  {| spec_reads := spec_reads env; other_specs := other_specs env; other_calls := other_calls env;
     rpc := answer; get_time := get_time env; insert_time := insert_time env |}.

(** The request was accepted and encoded as [call]. *)
Definition asks (limits : ReadCostLimitConfig) (env : ReadEnv) (id : string) (req : CallRequest) (s : ReadState)
    (spec : CachedSpec) (call : EncodedCall) : Prop :=
  check_cost limits req = Ok tt
  ∧ (interface (spec_reads env) (other_specs env) id (spec_cache s)).1 = Ok spec
  ∧ ∃ sp, parsed spec = Some sp ∧ encode sp id (req_function req) (req_args req) (req_source_account req) = Ok call.

Lemma encode_for_Ok spec id req sp call :
  encode_for muxed_account_from_str public_key_from_str address_error length_error to_xdr_base64 encode_error_text
    spec id req = Ok (sp, call) →
  parsed spec = Some sp ∧ encode sp id (req_function req) (req_args req) (req_source_account req) = Ok call.
Proof.
  unfold encode_for. destruct (parsed spec) as [sp0|]; [|done].
  destruct (encode sp0 _ _ _ _) as [call0|e] eqn:E; cbn [map_err mbind result_bind]; [|done].
  intros [= <- <-]. by split.
Qed.

Lemma simulate_same f g tx : f tx = g tx → simulate f tx = simulate g tx.
Proof. intros Heq. unfold simulate. by rewrite Heq. Qed.

(** The node is asked about typed calls only: an answer of either handler
    depends on the node through the transaction of the one call that was
    encoded from the request against the contract's interface, within the size
    limits.  So nothing is sent for a request that is too large, names an
    unknown contract or function, or does not type-check; and [/call] sends
    nothing for a function that looks state-changing unless the caller asked
    for it. *)
Theorem node_sees_encoded_calls limits env f g id allow req s :
  ((∀ spec call, asks limits env id req s spec call →
      (allow = true ∨ is_view spec (req_function req) ≠ Some false) → f (tx_xdr call) = g (tx_xdr call)) →
   handle limits (with_rpc f env) id allow req s = handle limits (with_rpc g env) id allow req s)
  ∧ ((∀ spec call, asks limits env id req s spec call → f (tx_xdr call) = g (tx_xdr call)) →
     dry_run limits (with_rpc f env) id req s = dry_run limits (with_rpc g env) id req s).
Proof.
  split; intros Hsame.
  - unfold call_function. cbn [spec_reads other_specs with_rpc]. unfold asks in Hsame.
    destruct (check_cost limits req) as [[]|]; [|done].
    destruct (interface (spec_reads env) (other_specs env) id (spec_cache s)) as [[spec|e] specs]; [|done].
    destruct (bool_decide (is_view spec (req_function req) = Some false) && negb allow) eqn:Eguard; [done|].
    assert (allow = true ∨ is_view spec (req_function req) ≠ Some false) as Hview.
    { destruct allow; [by left|]. right. rewrite andb_true_r in Eguard. by apply bool_decide_eq_false in Eguard. }
    assert (run spec f id req = run spec g id req) as Hrun.
    { unfold run_call. destruct (encode_for _ _ _ _ _ _ spec id req) as [[sp call]|] eqn:E; [|done].
      apply encode_for_Ok in E as [Hp He]. cbn [mbind result_bind].
      rewrite (simulate_same f g); [done|]. apply (Hsame spec); [|done]. split; [done|]. split; [done|by exists sp]. }
    unfold cached_call. cbn [rpc get_time insert_time other_calls with_rpc]. by rewrite Hrun.
  - unfold simulate_call. cbn [spec_reads other_specs with_rpc rpc]. unfold asks in Hsame.
    destruct (check_cost limits req) as [[]|]; [|done].
    destruct (interface (spec_reads env) (other_specs env) id (spec_cache s)) as [[spec|e] specs]; [|done]. f_equal. cbn [mbind result_bind].
    destruct (encode_for _ _ _ _ _ _ spec id req) as [[sp call]|] eqn:E; [|done].
    apply encode_for_Ok in E as [Hp He]. cbn [mbind result_bind].
    rewrite (simulate_same f g); [done|]. apply (Hsame spec). split; [done|]. split; [done|by exists sp].
Qed.
End read_theorems.

(** ** A witness *)

Section witness.
#[local] Instance sample_stellar_read : Stellar := sample_stellar.
#[local] Instance sample_serde_read : SerdeJson := plain_serde.
#[local] Instance sample_check_read : StrkeyCheck := sample_check.
#[local] Instance sample_calls_read : LruCache Key (Json * Z) := list_lru.

(** A section with one function [balance] without arguments. *)
Definition sample_iter (_ _ : Z) (_ : list ascii) : list (result string ScSpecEntry) :=
  [Ok (FunctionV0 {| fn_doc := ""; fn_name := "balance"; fn_inputs := []; fn_outputs := [TU32] |})].

Definition sample_contract : string := sc_address_to_string (AddrContract ZERO_ACCOUNT).

Definition sample_rows (_ : Z) (id : string) : option SpecRow :=
  if String.eqb id sample_contract
  then Some {| row_hash := "h"; row_fetched_at := 1; row_section := "00" |} else None.

Definition sample_answer (t : Z) (_ : string) : result string RpcEnvelope :=
  Ok {| rpc_error := None;
        rpc_result := Some {| sr_error := None; sr_results := Some ["AAAA"]; sr_events := [];
                              sr_min_resource_fee := None; sr_latest_ledger := t |} |}.

Definition sample_reads : SpecReads :=
  {| row_read := Ok (Some ("h", 1)); events_read := Ok false; section_read := Ok (Some "00");
     version_read := Ok None |}.

Definition sample_env (t : Z) : ReadEnv :=
  {| spec_reads := sample_reads; other_specs := id; other_calls := id; rpc := sample_answer t;
     get_time := t; insert_time := t + 1 |}.

Definition sample_request : CallRequest :=
  {| req_function := "balance"; req_args := JObj []; req_source_account := None |}.

Definition sample_handle (t : Z) (s : ReadState) : result ApiError Json * ReadState :=
  call_function (λ _, Err "no") (λ _, Err "no") (λ s, s) "too long" (λ tx, Ok "AAAA") (λ _, Some []) (λ l, Some (ScvU32 7, l))
    sample_iter bad_request bad_request (λ _, "encode error") default_cost_limits (sample_env t) sample_contract
    false sample_request s.

Definition sample_start : ReadState := {| spec_cache := spec_cache_new; call_cache := new 10 5 |}.

(** The second request is answered by the first one's simulation. *)
Example second_call_cached :
  let '(a, s) := sample_handle 10 sample_start in
  (sample_handle 11 s).1 = a
  ∧ a = Ok (mk_obj [("contract_id", JStr sample_contract); ("function", JStr "balance");
                    ("result", mk_obj [("type", JStr "u32"); ("value", JInt 7)]); ("simulated_at_ledger", JInt 10)]).
Proof. vm_compute. split; reflexivity. Qed.

Lemma call_function_correct_witness :
  let out := sample_handle 10 sample_start in
  read_sound (λ _, Err "no") (λ _, Err "no") (λ s, s) "too long" (λ tx, Ok "AAAA") (λ _, Some []) (λ l, Some (ScvU32 7, l))
    sample_iter (λ _, "encode error") sample_rows sample_answer 1 11 out.2
  ∧ ∃ v, out.1 = Ok v.
Proof.
  cbv zeta. split; [|eexists; vm_compute; reflexivity].
  pose proof (call_function_correct (λ _, Err "no") (λ _, Err "no") (λ s, s) "too long" (λ tx, Ok "AAAA")
    (λ _, Some []) (λ l, Some (ScvU32 7, l)) sample_iter bad_request bad_request (λ _, "encode error") sample_rows sample_answer 1
    9 9 10 default_cost_limits (sample_env 10) sample_contract false sample_request sample_start) as Hc.
  fold (sample_handle 10 sample_start) in Hc. destruct (sample_handle 10 sample_start) as [a s'].
  apply Hc.
  - intros id t t' r r' _ Hr Hr'. unfold sample_rows in *. destruct (String.eqb id sample_contract); [|done].
    injection Hr as <-. injection Hr' as <-. done.
  - split; cbn; [|done|lia|done|].
    + unfold reads_at, sample_rows. rewrite String.eqb_refl. done.
    + intros c Hs k v at_ Hk. destruct (Hs k v at_ Hk). split; [lia|done].
  - split; [|split].
    + intros id h f spec. cbn. by rewrite lookup_empty.
    + split; cbn; rewrite map_size_empty; unfold MAX_ENTRIES; lia.
    + intros k v at_. cbn. discriminate.
Defined.
End witness.
