(* ===== verification/History.v ===== *)
(** * History: the indexer's interface cache and version history ([lumenqraph-indexer/src/specs.rs])

    [SpecCache] keeps parsed interfaces by contract; a load fetches the
    contract's WASM, stores the interface in [contract_specs] and appends it to
    [contract_spec_versions].  [record_version] is two statements, a read of the
    newest version and an insert; concurrent loads interleave between them
    ([hstep]).  The RPC node's answers, the clock and the outcome of
    [contract_specs]'s upsert are the environment. *)
From S2P Require Import Prelude Text Containers Values Instances Lru Wasm Spec Crypto Diff.
From Stdlib Require Import Ascii.

Local Open Scope Z_scope.

(** ** The tables *)

(** A row of [contract_specs]. *)
Record SpecRecord := {
  sp_wasm_hash : string;
  sp_interface : Json;
  sp_section : string;
  sp_has_events : bool;
  sp_complete : bool;
}.

(** A row of [contract_spec_versions]. *)
Record VersionRecord := {
  v_contract_id : string;
  v_version : Z;
  v_wasm_hash : string;
  v_previous_wasm_hash : option string;
  v_interface : Json;
  v_spec_section : string;
  v_diff : option SpecDiff;
  v_breaking : bool;
  v_ledger : Z;
  v_spec_complete : bool;
}.

Record SpecTables := { spec_table : gmap string SpecRecord; version_table : list VersionRecord }.

Inductive CachedSpec : Type :=
  | CSpec (s : ContractSpec)
  | NoSpec
  | FetchError (retried_at : Z).

(** [c_wasm_hash]: the executable the spec was parsed from; none for a SAC. *)
Record Cached := { c_spec : CachedSpec; c_wasm_hash : option string }.

Section history.
Context `{Stellar} `{CryptoLib} `{!LruCache string Cached}.
Context (read_xdr_iter : Z → Z → list ascii → list (result string ScSpecEntry)).

(** ** The version history *)

(** [ORDER BY version DESC LIMIT 1]. *)
Definition tip (contract_id : string) (t : list VersionRecord) : option VersionRecord :=
  foldr (λ r best, if String.eqb (v_contract_id r) contract_id
                   then match best with
                        | Some b => if v_version b <? v_version r then Some r else best
                        | None => Some r
                        end
                   else best) None t.

Definition diff_against (previous_section : string) (new_spec : ContractSpec) : option SpecDiff :=
  bytes ← hex_decode previous_section;
  previous ← from_spec_xdr_simple read_xdr_iter bytes;
  Some (between previous new_spec).

(** What a load found. *)
Record Loaded := {
  l_wasm_hash : string;
  l_section : string;
  l_spec : ContractSpec;
  l_complete : bool;
}.

(** The row [record_version] would insert, given the newest version it read;
    [None] if that is the same executable. *)
Definition next_version (contract_id : string) (l : Loaded) (ledger : Z) (previous : option VersionRecord)
    : option VersionRecord :=
  let row version previous_hash diff :=
    {| v_contract_id := contract_id; v_version := version; v_wasm_hash := l_wasm_hash l;
       v_previous_wasm_hash := previous_hash; v_interface := to_interface_json (l_spec l);
       v_spec_section := l_section l; v_diff := diff;
       v_breaking := match diff with Some d => breaking d | None => false end;
       v_ledger := ledger; v_spec_complete := l_complete l |} in
  match previous with
  | None => Some (row 1 None None)
  | Some p =>
      if String.eqb (v_wasm_hash p) (l_wasm_hash l) then None
      else
        let diff := if l_complete l then diff_against (v_spec_section p) (l_spec l) else None in
        Some (row (v_version p + 1) (Some (v_wasm_hash p)) diff)
  end.

(** [INSERT .. ON CONFLICT (contract_id, version) DO NOTHING]. *)
Definition insert_version (r : VersionRecord) (t : list VersionRecord) : list VersionRecord :=
  if existsb (λ x, String.eqb (v_contract_id x) (v_contract_id r) && (v_version x =? v_version r)) t
  then t else t ++ [r].

Definition record_version (contract_id : string) (l : Loaded) (ledger : Z) (t : list VersionRecord)
    : list VersionRecord :=
  match next_version contract_id l ledger (tip contract_id t) with
  | Some r => insert_version r t
  | None => t
  end.

(** [persist]: an upsert. *)
Definition persist (contract_id : string) (l : Loaded) (t : gmap string SpecRecord) : gmap string SpecRecord :=
  <[contract_id := {| sp_wasm_hash := l_wasm_hash l; sp_interface := to_interface_json (l_spec l);
                      sp_section := l_section l; sp_has_events := has_events (l_spec l);
                      sp_complete := l_complete l |}]> t.

(** ** Loading *)

(** What a load meets: the node's answer for the contract's WASM, and whether
    the two writes succeed. *)
Record LoadEnv := {
  wasm_answer : result string (option (string * list ascii));
  persist_ok : bool;
  record_ok : bool;
  now_before : Z;
  now_after : Z;
}.

(** The interface of a WASM, as it is stored. *)
Definition loaded_of (wasm_hash : string) (wasm : list ascii) : option Loaded :=
  parsed ← from_wasm read_xdr_iter wasm;
  Some {| l_wasm_hash := wasm_hash; l_section := default "" (hex_encode <$> spec_section_of wasm);
          l_spec := spec parsed; l_complete := complete parsed |}.

(** The spec, its hash, and whether a failure is permanent. *)
Definition load (env : LoadEnv) (contract_id : string) (ledger : Z) (t : SpecTables)
    : option ContractSpec * option string * bool * SpecTables :=
  match wasm_answer env with
  | Err _ => (None, None, false, t)
  | Ok None => (None, None, true, t)
  | Ok (Some (wasm_hash, wasm)) =>
      match loaded_of wasm_hash wasm with
      | None => (None, Some wasm_hash, true, t)
      | Some l =>
          (Some (l_spec l), Some wasm_hash, true,
           {| spec_table := if persist_ok env then persist contract_id l (spec_table t) else spec_table t;
              version_table := if record_ok env then record_version contract_id l ledger (version_table t)
                               else version_table t |})
      end
  end.

(** ** The cache *)

Definition FETCH_ERROR_TTL : Z := 60 * 10 ^ 9.

(** [size] is the gauge [cache_size]. *)
Record SpecCache := { entries : lru; size : nat }.

Definition spec_cache_new (max_entries : nat) : SpecCache := {| entries := lru_new max_entries; size := 0 |}.

Definition cached_spec (s : CachedSpec) : option ContractSpec := match s with CSpec s => Some s | _ => None end.

Definition get_cached (contract_id : string) (c : SpecCache) : option ContractSpec * SpecCache :=
  let '(found, i) := lru_get contract_id (entries c) in
  (e ← found; cached_spec (c_spec e), {| entries := i; size := size c |}).

(** Whether an entry answers without a load. *)
Definition usable (now : Z) (s : CachedSpec) : bool :=
  match s with
  | CSpec _ | NoSpec => true
  | FetchError retried_at => Z.max 0 (now - retried_at) <? FETCH_ERROR_TTL
  end.

(** The load of [get], under the semaphore. *)
Definition fetch (env : LoadEnv) (contract_id : string) (ledger : Z) (c : SpecCache) (t : SpecTables)
    : option ContractSpec * SpecCache * SpecTables :=
  let '(spec, wasm_hash, is_permanent, t) := load env contract_id ledger t in
  let cached := match spec with
                | Some s => CSpec s
                | None => if is_permanent : bool then NoSpec else FetchError (now_after env)
                end in
  let i := (lru_put contract_id {| c_spec := cached; c_wasm_hash := wasm_hash |} (entries c)).2 in
  (cached_spec cached, {| entries := i; size := lru_len i |}, t).

Definition get (env : LoadEnv) (contract_id : string) (ledger : Z) (c : SpecCache) (t : SpecTables)
    : option ContractSpec * SpecCache * SpecTables :=
  let '(found, i) := lru_get contract_id (entries c) in
  let c := {| entries := i; size := size c |} in
  match found with
  | Some e =>
      if usable (now_before env) (c_spec e) then (cached_spec (c_spec e), c, t)
      else fetch env contract_id ledger c t
  | None => fetch env contract_id ledger c t
  end.

(** [note_wasm_hash]. *)
Definition note_wasm_hash (env : LoadEnv) (contract_id current_hash : string) (ledger : Z) (c : SpecCache)
    (t : SpecTables) : SpecCache * SpecTables :=
  let '(found, i) := lru_get contract_id (entries c) in
  match found with
  | Some e =>
      if bool_decide (c_wasm_hash e = Some current_hash) then ({| entries := i; size := size c |}, t)
      else
        let i := (lru_pop contract_id i).2 in
        let '(_, c, t) := get env contract_id ledger {| entries := i; size := lru_len i |} t in (c, t)
  | None => ({| entries := i; size := size c |}, t)
  end.

(** The contract's instance entry: the hash of its WASM (none for a SAC) and the
    ledger it was last modified at. *)
Record ContractInstance := { in_wasm_hash : option string; in_last_modified : Z }.

Definition check_for_upgrade (instance : result string (option ContractInstance)) (env : LoadEnv)
    (contract_id : string) (c : SpecCache) (t : SpecTables) : SpecCache * SpecTables :=
  match instance with
  | Ok (Some i) =>
      match in_wasm_hash i with
      | Some hash => note_wasm_hash env contract_id hash (in_last_modified i) c t
      | None => (c, t)
      end
  | _ => (c, t)
  end.

(** ** Concurrent loads *)

(** The interface a stored section holds. *)
Definition section_spec (section : string) : option ContractSpec :=
  bytes ← hex_decode section; from_spec_xdr_simple read_xdr_iter bytes.

Definition section_diff (old new : string) : option SpecDiff :=
  s ← section_spec new; diff_against old s.

(** The table, and the loads that have read the newest version and not yet
    written. *)
Record HSys := { h_table : list VersionRecord; h_reads : list (string * Loaded * Z * option VersionRecord) }.

Inductive hstep : HSys → HSys → Prop :=
  | h_read id wasm_hash wasm l ledger s :
      loaded_of wasm_hash wasm = Some l →
      hstep s {| h_table := h_table s; h_reads := (id, l, ledger, tip id (h_table s)) :: h_reads s |}
  | h_write id l ledger p r rest s :
      h_reads s ≡ₚ (id, l, ledger, p) :: rest → next_version id l ledger p = Some r →
      hstep s {| h_table := insert_version r (h_table s); h_reads := rest |}
  | h_drop x rest s :
      h_reads s ≡ₚ x :: rest → hstep s {| h_table := h_table s; h_reads := rest |}.

(** [r] is the first version, or an upgrade of [p] with the diff between them
    (suppressed when the new section did not parse completely). *)
Definition follows (p r : VersionRecord) : Prop :=
  v_contract_id p = v_contract_id r ∧ v_version r = v_version p + 1
  ∧ v_previous_wasm_hash r = Some (v_wasm_hash p) ∧ v_wasm_hash p ≠ v_wasm_hash r
  ∧ v_diff r = (if v_spec_complete r then section_diff (v_spec_section p) (v_spec_section r) else None)
  ∧ v_breaking r = match v_diff r with Some d => breaking d | None => false end.

Definition baseline (r : VersionRecord) : Prop :=
  v_version r = 1 ∧ v_previous_wasm_hash r = None ∧ v_diff r = None ∧ v_breaking r = false.

Definition chained (t : list VersionRecord) : Prop :=
  NoDup ((λ r, (v_contract_id r, v_version r)) <$> t)
  ∧ ∀ r, r ∈ t → baseline r ∨ ∃ p, p ∈ t ∧ follows p r.

(** ** Lemmas *)

Lemma loaded_section h w l : loaded_of h w = Some l → section_spec (l_section l) = Some (l_spec l).
Proof.
  unfold loaded_of, from_wasm. destruct (spec_section_of w) as [section|]; [|done]. cbn [mbind option_bind].
  destruct (from_spec_xdr read_xdr_iter section) as [parsed|] eqn:E; [|done]. cbn. intros [= <-]. cbn.
  unfold section_spec. rewrite hex_decode_encode. cbn [mbind option_bind]. unfold from_spec_xdr_simple. by rewrite E.
Qed.

Lemma tip_spec id t :
  match tip id t with
  | Some p => p ∈ t ∧ v_contract_id p = id ∧ ∀ r, r ∈ t → v_contract_id r = id → v_version r ≤ v_version p
  | None => ∀ r, r ∈ t → v_contract_id r ≠ id
  end.
Proof.
  induction t as [|x t IH]; cbn [tip foldr]; [by intros r ?%elem_of_nil|].
  change (foldr _ None t) with (tip id t). destruct (String.eqb_spec (v_contract_id x) id) as [Hx|Hx].
  - destruct (tip id t) as [b|].
    + destruct IH as (Hb & Hid & Hmax). destruct (Z.ltb_spec (v_version b) (v_version x)).
      * split; [left|]. split; [done|]. intros r [->|Hr]%elem_of_cons Hc; [lia|]. specialize (Hmax r Hr Hc). lia.
      * split; [by right|]. split; [done|]. intros r [->|Hr]%elem_of_cons Hc; [lia|by apply Hmax].
    + split; [left|]. split; [done|]. intros r [->|Hr]%elem_of_cons Hc; [lia|by destruct (IH r Hr)].
  - destruct (tip id t) as [b|].
    + destruct IH as (Hb & Hid & Hmax). split; [by right|]. split; [done|].
      intros r [->|Hr]%elem_of_cons Hc; [done|by apply Hmax].
    + intros r [->|Hr]%elem_of_cons; [done|by apply IH].
Qed.

(** The row a load would insert follows the version it read. *)
Lemma next_version_follows id l ledger p r :
  section_spec (l_section l) = Some (l_spec l) → next_version id l ledger p = Some r →
  v_contract_id r = id ∧ v_wasm_hash r = l_wasm_hash l
  ∧ match p with
    | None => baseline r
    | Some p => v_contract_id p = id → follows p r
    end.
Proof.
  intros Hl. unfold next_version. destruct p as [p|]; [|by intros [= <-]].
  destruct (String.eqb_spec (v_wasm_hash p) (l_wasm_hash l)) as [|Hne]; [done|]. intros [= <-]. cbn.
  split; [done|]. split; [done|]. intros Hc. split; [done|]. split; [done|]. split; [done|]. split; [done|].
  split; [|done]. cbn. unfold section_diff. rewrite Hl. done.
Qed.

Lemma insert_version_chained r t : chained t → baseline r ∨ (∃ p, p ∈ t ∧ follows p r) → chained (insert_version r t).
Proof.
  intros [Hnd Hch] Hr. unfold insert_version.
  destruct (existsb _ t) eqn:E; [done|]. split.
  - rewrite fmap_app. apply NoDup_app. split; [done|]. split; [|by apply NoDup_singleton].
    intros k Hk Hin. apply list_elem_of_singleton in Hin as ->. apply list_elem_of_fmap in Hk as (x & Heq & Hx).
    assert (existsb (λ x, String.eqb (v_contract_id x) (v_contract_id r) && (v_version x =? v_version r)) t = true);
      [|congruence].
    injection Heq as Hc Hv. apply existsb_exists. exists x. split; [by apply list_elem_of_In|].
    by rewrite Hc, Hv, String.eqb_refl, Z.eqb_refl.
  - intros x [Hx|Hx]%elem_of_app.
    + destruct (Hch x Hx) as [|(p & Hp & Hf)]; [by left|]. right. exists p. split; [|done]. apply elem_of_app. by left.
    + apply list_elem_of_singleton in Hx as ->. destruct Hr as [|(p & Hp & Hf)]; [by left|]. right. exists p.
      split; [|done]. apply elem_of_app. by left.
Qed.

Lemma insert_version_keeps r t x : x ∈ t → x ∈ insert_version r t.
Proof. intros Hx. unfold insert_version. destruct (existsb _ t); [done|]. apply elem_of_app. by left. Qed.

Definition hinv (s : HSys) : Prop :=
  chained (h_table s)
  ∧ ∀ id l ledger p, (id, l, ledger, p) ∈ h_reads s →
      section_spec (l_section l) = Some (l_spec l)
      ∧ match p with Some p => p ∈ h_table s ∧ v_contract_id p = id | None => True end.

Lemma hinv_step s s' : hstep s s' → hinv s → hinv s'.
Proof.
  intros Hstep [Hch Hreads]. destruct Hstep as [id h w l ledger s Hl|id l ledger p r rest s Hp Hr|x rest s Hp];
    split; cbn [h_table h_reads]; try done.
  - intros id' l' ledger' p' [Heq|Hin]%elem_of_cons; [|by apply (Hreads _ _ ledger')].
    injection Heq as -> -> -> ->. split; [by eapply loaded_section|]. pose proof (tip_spec id (h_table s)) as Ht.
    destruct (tip id (h_table s)); [|done]. tauto.
  - assert ((id, l, ledger, p) ∈ h_reads s) as Hin by (rewrite Hp; left).
    destruct (Hreads _ _ _ _ Hin) as [Hl Hsnap]. apply insert_version_chained; [done|].
    destruct (next_version_follows _ _ _ _ _ Hl Hr) as (_ & _ & Hf). destruct p as [p|]; [|by left].
    right. exists p. destruct Hsnap. auto.
  - intros id' l' ledger' p' Hin. assert ((id', l', ledger', p') ∈ h_reads s) as Hin' by (rewrite Hp; by right).
    destruct (Hreads _ _ _ _ Hin') as [Hl Hsnap]. split; [done|]. destruct p' as [p'|]; [|done].
    destruct Hsnap. split; [by apply insert_version_keeps|done].
  - intros id' l' ledger' p' Hin. apply (Hreads _ _ ledger'). rewrite Hp. by right.
Qed.

(** C14: The history of a contract is a chain, however concurrent loads interleave:
    versions are unique and run from 1 without gaps; the first is a baseline;
    every other records the executable of its predecessor, which differs from
    its own, with the diff between the two stored sections (and none when the
    section was incomplete), flagged breaking exactly when that diff is. *)
Theorem version_history_chain s t id r :
  rtc hstep {| h_table := []; h_reads := [] |} s → t = h_table s → r ∈ t → v_contract_id r = id →
  (∀ x, x ∈ t → v_contract_id x = id → v_version x = v_version r → x = r)
  ∧ (baseline r ∨ ∃ p, p ∈ t ∧ follows p r)
  ∧ (∀ k, 1 ≤ k ≤ v_version r → ∃ x, x ∈ t ∧ v_contract_id x = id ∧ v_version x = k).
Proof.
  intros Hrun -> Hr Hid.
  assert (hinv s) as [[Hnd Hch] _].
  { assert (hinv {| h_table := []; h_reads := [] |}) as Hinit.
    { split; [split; [apply NoDup_nil_2|]|]; cbn; intros; by match goal with Hno : _ ∈ [] |- _ => apply elem_of_nil in Hno end. }
    clear Hr. induction Hrun as [|a b c Hab _ IH]; [done|]. apply IH. by eapply hinv_step. }
  split; [|split; [by apply Hch|]].
  - intros x Hx Hc Hv. apply list_elem_of_lookup in Hx as [i Hi], Hr as [j Hj].
    assert (i = j) as ->; [|congruence].
    apply (NoDup_lookup _ i j (v_contract_id r, v_version r) Hnd); rewrite list_lookup_fmap.
    + rewrite Hi. cbn. by rewrite Hc, Hv, Hid.
    + by rewrite Hj.
  - intros k Hk. remember (Z.to_nat (v_version r - k)) as n eqn:En.
    revert r Hr Hid Hk En. induction n as [|n IH]; intros r Hr Hid Hk En.
    + exists r. split; [done|]. split; [done|lia].
    + destruct (Hch r Hr) as [Hb|(p & Hp & Hf)]; [destruct Hb; lia|].
      destruct Hf as (Hc & Hv & _). apply (IH p); [done|congruence|lia|lia].
Qed.

(** ** An upgrade *)

Lemma tip_unique id t r : chained t → r ∈ t → v_contract_id r = id →
  (∀ x, x ∈ t → v_contract_id x = id → v_version x ≤ v_version r) → tip id t = Some r.
Proof.
  intros [Hnd _] Hr Hid Hmax. pose proof (tip_spec id t) as Ht. destruct (tip id t) as [p|]; [|by destruct (Ht r Hr)].
  destruct Ht as (Hp & Hc & Hle). pose proof (Hmax p Hp Hc). pose proof (Hle r Hr Hid). f_equal.
  apply list_elem_of_lookup in Hp as [i Hi], Hr as [j Hj]. assert (i = j) as ->; [|congruence].
  apply (NoDup_lookup _ i j (v_contract_id r, v_version r) Hnd); rewrite list_lookup_fmap.
  - rewrite Hi. cbn. rewrite Hc, Hid. do 2 f_equal. lia.
  - by rewrite Hj.
Qed.

(** Recording makes the executable the newest version, once. *)
Lemma record_version_tip id l ledger t :
  chained t → section_spec (l_section l) = Some (l_spec l) →
  let t' := record_version id l ledger t in
  chained t' ∧ record_version id l ledger t' = t'
  ∧ ∃ r, tip id t' = Some r ∧ v_wasm_hash r = l_wasm_hash l
    ∧ match tip id t with
      | Some p => if String.eqb (v_wasm_hash p) (l_wasm_hash l) then r = p else follows p r
      | None => baseline r
      end.
Proof.
  intros Hch Hl. cbv zeta. unfold record_version at 1 3 4 5.
  pose proof (tip_spec id t) as Htip. destruct (next_version id l ledger (tip id t)) as [r|] eqn:En.
  - pose proof (next_version_follows _ _ _ _ _ Hl En) as (Hid & Hh & Hf).
    assert (∀ x, x ∈ t → v_contract_id x = id → v_version x < v_version r) as Hnew.
    { intros x Hx Hc. destruct (tip id t) as [p|]; [|by destruct (Htip x Hx)].
      destruct Htip as (_ & Hcp & Hmax). destruct (Hf Hcp) as (_ & Hv & _). specialize (Hmax x Hx Hc). lia. }
    assert (insert_version r t = t ++ [r]) as Hins.
    { unfold insert_version. destruct (existsb _ t) eqn:E; [|done].
      apply existsb_exists in E as (x & Hx & [Hc%String.eqb_eq Hv%Z.eqb_eq]%andb_true_iff).
      apply list_elem_of_In in Hx. specialize (Hnew x Hx ltac:(congruence)). lia. }
    assert (chained (insert_version r t)) as Hch'.
    { apply insert_version_chained; [done|]. destruct (tip id t) as [p|]; [|by left]. right. exists p.
      destruct Htip as (Hp & Hcp & _). auto. }
    assert (tip id (insert_version r t) = Some r) as Htip'.
    { rewrite Hins in *. apply tip_unique; [done|apply elem_of_app; right; left|done|].
      intros x [Hx|Hx]%elem_of_app Hc; [by apply Z.lt_le_incl, Hnew|]. apply list_elem_of_singleton in Hx as ->. lia. }
    split; [done|]. split.
    + unfold record_version. rewrite Htip'. cbn. by rewrite Hh, String.eqb_refl.
    + exists r. split; [done|]. split; [done|]. unfold next_version in En.
      destruct (tip id t) as [p|]; [|done]. destruct (String.eqb _ _); [done|]. apply Hf, Htip.
  - split; [done|]. unfold record_version. rewrite En. split; [done|].
    unfold next_version in En. destruct (tip id t) as [p|]; [|done].
    destruct (String.eqb_spec (v_wasm_hash p) (l_wasm_hash l)) as [Heq|]; [|done]. by exists p.
Qed.

(** An observed upgrade is recorded at once.  If the cached executable differs
    from the one observed and the node serves its WASM, then after
    [note_wasm_hash] the cache holds the new interface under the new hash, so
    does [contract_specs], and the newest version of the history is that
    executable, a successor (with its diff) of the one that was newest before;
    observing the same hash again changes no table. *)
Theorem upgrade_recorded env contract_id current_hash wasm l ledger e c t :
  (0 < lru_cap (entries c))%nat → chained (version_table t) →
  lru_view (entries c) contract_id = Some e → c_wasm_hash e ≠ Some current_hash →
  wasm_answer env = Ok (Some (current_hash, wasm)) → loaded_of current_hash wasm = Some l →
  persist_ok env = true → record_ok env = true →
  let '(c', t') := note_wasm_hash env contract_id current_hash ledger c t in
  lru_view (entries c') contract_id = Some {| c_spec := CSpec (l_spec l); c_wasm_hash := Some current_hash |}
  ∧ sp_wasm_hash <$> spec_table t' !! contract_id = Some current_hash
  ∧ sp_section <$> spec_table t' !! contract_id = Some (l_section l)
  ∧ chained (version_table t')
  ∧ (∃ r, tip contract_id (version_table t') = Some r ∧ v_wasm_hash r = current_hash
      ∧ match tip contract_id (version_table t) with
        | Some p => if String.eqb (v_wasm_hash p) current_hash then r = p else follows p r
        | None => baseline r
        end)
  ∧ ∀ env' ledger', (note_wasm_hash env' contract_id current_hash ledger' c' t').2 = t'.
Proof.
  intros Hcap Hch Hview Hne Hans Hl Hp Hr. unfold note_wasm_hash at 1.
  pose proof (get_result contract_id (entries c)) as Hget. pose proof (cap_get contract_id (entries c)) as Hcg.
  destruct (lru_get contract_id (entries c)) as [found i]. cbn [fst snd] in Hget, Hcg. subst found.
  change (assoc contract_id (lru_entries (entries c))) with (lru_view (entries c) contract_id). rewrite Hview.
  rewrite bool_decide_false by done.
  pose proof (view_pop contract_id i contract_id) as Hpop. rewrite decide_True in Hpop by done.
  pose proof (cap_pop contract_id i) as Hcp. set (i2 := (lru_pop contract_id i).2) in *.
  unfold get. cbn [entries]. pose proof (get_result contract_id i2) as Hget2.
  pose proof (cap_get contract_id i2) as Hcg2.
  destruct (lru_get contract_id i2) as [found2 i3]. cbn [fst snd] in Hget2, Hcg2. subst found2.
  change (assoc contract_id (lru_entries i2)) with (lru_view i2 contract_id). rewrite Hpop.
  unfold fetch, load. cbn [entries]. rewrite Hans, Hl, Hp, Hr.
  assert (l_wasm_hash l = current_hash) as Hh.
  { unfold loaded_of in Hl. destruct (from_wasm _ wasm); [|done]. by injection Hl as <-. }
  pose proof (record_version_tip contract_id l ledger (version_table t) Hch (loaded_section _ _ _ Hl))
    as (Hch' & _ & Htip). rewrite Hh in Htip.
  assert (∀ v, lru_view (lru_put contract_id v i3).2 contract_id = Some v) as Hput.
  { intros v. apply view_put_same. congruence. }
  cbn [cached_spec c_spec spec_table version_table entries].
  split; [apply Hput|]. unfold persist. rewrite lookup_insert_eq. cbn [fmap option_fmap option_map sp_wasm_hash sp_section].
  split; [by rewrite Hh|]. split; [done|]. split; [done|]. split; [done|].
  intros env' ledger'. unfold note_wasm_hash. cbn [entries].
  set (i4 := (lru_put contract_id _ i3).2). pose proof (get_result contract_id i4) as Hg4.
  destruct (lru_get contract_id i4) as [found4 i5]. cbn [fst] in Hg4. subst found4.
  change (assoc contract_id (lru_entries i4)) with (lru_view i4 contract_id). unfold i4. rewrite Hput.
  cbn [c_wasm_hash]. by rewrite bool_decide_true.
Qed.
End history.

(** ** Witnesses *)

Section witness.
#[local] Instance sample_stellar_history : Stellar := sample_stellar.
#[local] Instance sample_crypto_history : CryptoLib := sample_crypto.
#[local] Instance sample_lru_history : LruCache string Cached := list_lru.

(** A section is one function, whose name is the section's text. *)
Definition sample_entries (_ _ : Z) (section : list ascii) : list (result string ScSpecEntry) :=
  [Ok (FunctionV0 {| fn_doc := ""; fn_name := of_bytes section; fn_inputs := []; fn_outputs := [TU32] |})].

Definition sample_wasm (name : string) : list ascii :=
  module_bytes (replicate 4 (byte_of 1)) [Custom "contractspecv0" (bytes name)].

Definition sample_loaded (hash name : string) : Loaded :=
  default {| l_wasm_hash := ""; l_section := ""; l_spec := default_spec; l_complete := false |}
    (loaded_of sample_entries hash (sample_wasm name)).

(** Two loads of different executables overlap: one of them is recorded. *)
Definition sample_history : HSys :=
  {| h_table := insert_version (default {| v_contract_id := ""; v_version := 0; v_wasm_hash := "";
         v_previous_wasm_hash := None; v_interface := JNull; v_spec_section := ""; v_diff := None;
         v_breaking := false; v_ledger := 0; v_spec_complete := false |}
       (next_version sample_entries "C" (sample_loaded "h1" "f") 7 None)) [];
     h_reads := [("C", sample_loaded "h2" "g", 8, None)] |}.

Lemma version_history_chain_witness :
  ∃ r, r ∈ h_table sample_history ∧ baseline r ∧ v_wasm_hash r = "h1".
Proof.
  set (s0 := {| h_table := []; h_reads := [] |}).
  set (s1 := {| h_table := []; h_reads := [("C", sample_loaded "h2" "g", 8, None)] |}).
  set (s2 := {| h_table := []; h_reads := ("C", sample_loaded "h1" "f", 7, None) :: h_reads s1 |}).
  assert (rtc (hstep sample_entries) s0 sample_history) as Hrun.
  { apply (rtc_l _ s0 s1); [exact (h_read sample_entries "C" "h2" (sample_wasm "g") (sample_loaded "h2" "g") 8 s0 eq_refl)|].
    apply (rtc_l _ s1 s2); [exact (h_read sample_entries "C" "h1" (sample_wasm "f") (sample_loaded "h1" "f") 7 s1 eq_refl)|].
    apply rtc_once. apply (h_write sample_entries "C" (sample_loaded "h1" "f") 7 None _ (h_reads s1) s2); reflexivity. }
  eexists. split; [apply list_elem_of_here|].
  destruct (version_history_chain sample_entries sample_history (h_table sample_history) "C"
    _ Hrun eq_refl (list_elem_of_here _ _) eq_refl) as (_ & [Hb|(p & Hp & Hf)] & _).
  - split; [exact Hb|reflexivity].
  - exfalso. destruct Hf as (_ & Hv & _). apply list_elem_of_singleton in Hp as ->. cbn in Hv. lia.
Defined.

Definition sample_upgrade : LoadEnv :=
  {| wasm_answer := Ok (Some ("h2", sample_wasm "g")); persist_ok := true; record_ok := true;
     now_before := 0; now_after := 0 |}.

Definition sample_cache : SpecCache :=
  {| entries := ll_put "C" {| c_spec := CSpec (l_spec (sample_loaded "h1" "f")); c_wasm_hash := Some "h1" |}
       {| ll_entries := []; ll_cap := 4 |};
     size := 1 |}.

Lemma upgrade_recorded_witness :
  let t := {| spec_table := ∅; version_table := h_table sample_history |} in
  let out := note_wasm_hash sample_entries sample_upgrade "C" "h2" 9 sample_cache t in
  sp_wasm_hash <$> spec_table out.2 !! "C" = Some "h2"
  ∧ ∃ r, tip "C" (version_table out.2) = Some r ∧ v_wasm_hash r = "h2" ∧ v_version r = 2.
Proof.
  intros t out.
  pose proof (upgrade_recorded sample_entries sample_upgrade "C" "h2" (sample_wasm "g") (sample_loaded "h2" "g") 9
    {| c_spec := CSpec (l_spec (sample_loaded "h1" "f")); c_wasm_hash := Some "h1" |} sample_cache t) as Hup.
  fold out in Hup. destruct out as [c' t'] eqn:Eout. cbn [snd].
  destruct Hup as (_ & Hh & _ & _ & (r & Hr & Hw & Hf) & _); try reflexivity.
  - cbn. lia.
  - split; [apply NoDup_singleton|]. intros r Hr. apply list_elem_of_singleton in Hr as ->. left. by repeat split.
  - discriminate.
  - split; [exact Hh|]. exists r. split; [exact Hr|]. split; [exact Hw|].
    change (tip "C" (version_table t)) with (head (h_table sample_history)) in Hf. cbn in Hf.
    destruct Hf as (_ & Hv & _). exact Hv.
Defined.
End witness.
