(* ===== verification/Retention.v ===== *)
(** * Retention: pruning history outside the window ([lumenqraph-indexer/src/retention.rs])

    Batched deletes over the tables of the index.  A statement deletes up to
    [BATCH] rows that satisfy its condition; which ones, where its text gives
    no order, is the database's choice ([RowOrder]).  Foreign keys follow the
    migrations: the projections of an event cascade (0003, 0012 to 0014), a
    webhook delivery restricts the deletion of its event (0025) and cascades
    from its interface version (0008). *)
From S2P Require Import Prelude Text Containers.

Local Open Scope Z_scope.

Definition BATCH : nat := Nat.mul 50 100.
Definition MAX_BATCHES : nat := 10.

#[local] Instance Z_order : TotalOrder Z := Z_asc.

(** ** The tables *)

Record EventRow := { re_event_id : string; re_ledger : Z }.
Record DeliveryRow := { rd_id : string; rd_event_id : option string; rd_upgrade_id : option Z; rd_status : string }.
Record StateRow := { rs_contract_id : string; rs_ledger : Z }.
Record DataRow := { rk_contract_id : string; rk_key_hash : string; rk_ledger : Z }.
Record VersionRow := { rv_id : Z; rv_contract_id : string; rv_version : Z; rv_ledger : Z }.

#[export] Instance EventRow_eq_dec : EqDecision EventRow.
Proof. solve_decision. Defined.
#[export] Instance StateRow_eq_dec : EqDecision StateRow.
Proof. solve_decision. Defined.
#[export] Instance DataRow_eq_dec : EqDecision DataRow.
Proof. solve_decision. Defined.
#[export] Instance VersionRow_eq_dec : EqDecision VersionRow.
Proof. solve_decision. Defined.

(** [r_projections] holds the event ids of the rows of the four projections. *)
Record Db := {
  r_events : list EventRow;
  r_projections : list string;
  r_deliveries : list DeliveryRow;
  r_states : list StateRow;
  r_data : list DataRow;
  r_versions : list VersionRow;
}.

(** The order in which the database yields the rows of a query. *)
Class RowOrder := {
  shuffle : ∀ {A : Type}, list A → list A;
  shuffle_perm {A} (l : list A) : shuffle l ≡ₚ l;
}.

Section retention.
Context `{RowOrder}.

Definition pending (w : DeliveryRow) : bool := String.eqb (rd_status w) "pending".

(** ** The statements: [None] is a foreign key violation *)

Definition event_pending (db : Db) (id : string) : bool :=
  existsb (λ w, bool_decide (rd_event_id w = Some id) && pending w) (r_deliveries db).
Definition upgrade_pending (db : Db) (id : Z) : bool :=
  existsb (λ w, bool_decide (rd_upgrade_id w = Some id) && pending w) (r_deliveries db).

Definition event_in (ids : list string) (w : DeliveryRow) : bool :=
  match rd_event_id w with Some id => bool_decide (id ∈ ids) | None => false end.
Definition upgrade_in (ids : list Z) (w : DeliveryRow) : bool :=
  match rd_upgrade_id w with Some id => bool_decide (id ∈ ids) | None => false end.

Definition limit {A} (l : list A) : list A := take BATCH (shuffle l).

Definition without_rows {A} `{EqDecision A} (chosen rows : list A) : list A := filter (λ r, r ∉ chosen) rows.

Definition doomed_event (cutoff : Z) (db : Db) (e : EventRow) : bool :=
  (re_ledger e <? cutoff) && negb (event_pending db (re_event_id e)).

Definition delete_events (cutoff : Z) (db : Db) : option (nat * Db) :=
  let rows := filter (λ e, doomed_event cutoff db e = true) (r_events db) in
  let chosen := take BATCH (sort_by (λ a b, re_ledger a ?= re_ledger b) (shuffle rows)) in
  let ids := re_event_id <$> chosen in
  if existsb (event_in ids) (r_deliveries db)
  then None
  else Some (length chosen,
    {| r_events := without_rows chosen (r_events db);
       r_projections := filter (λ id, id ∉ ids) (r_projections db);
       r_deliveries := r_deliveries db; r_states := r_states db; r_data := r_data db; r_versions := r_versions db |}).

(** A row of the same series with a greater key exists. *)
Definition superseded {A} (same : A → A → bool) (key : A → Z) (rows : list A) (r : A) : bool :=
  existsb (λ x, same x r && (key r <? key x)) rows.

Definition same_state (x s : StateRow) : bool := String.eqb (rs_contract_id x) (rs_contract_id s).

Definition doomed_state (cutoff : Z) (db : Db) (s : StateRow) : bool :=
  (rs_ledger s <? cutoff) && superseded same_state rs_ledger (r_states db) s.

Definition delete_states (cutoff : Z) (db : Db) : option (nat * Db) :=
  let chosen := limit (filter (λ s, doomed_state cutoff db s = true) (r_states db)) in
  Some (length chosen,
    {| r_events := r_events db; r_projections := r_projections db; r_deliveries := r_deliveries db;
       r_states := without_rows chosen (r_states db); r_data := r_data db; r_versions := r_versions db |}).

Definition same_data (x d : DataRow) : bool :=
  String.eqb (rk_contract_id x) (rk_contract_id d) && String.eqb (rk_key_hash x) (rk_key_hash d).

Definition doomed_data (cutoff : Z) (db : Db) (d : DataRow) : bool :=
  (rk_ledger d <? cutoff) && superseded same_data rk_ledger (r_data db) d.

Definition delete_data (cutoff : Z) (db : Db) : option (nat * Db) :=
  let chosen := limit (filter (λ d, doomed_data cutoff db d = true) (r_data db)) in
  Some (length chosen,
    {| r_events := r_events db; r_projections := r_projections db; r_deliveries := r_deliveries db;
       r_states := r_states db; r_data := without_rows chosen (r_data db); r_versions := r_versions db |}).

(** The version must be below the contract's bound: its newest version, or,
    with [keep], the least of the [keep] versions after the newest. *)
Definition same_version (x v : VersionRow) : bool := String.eqb (rv_contract_id x) (rv_contract_id v).

Definition versions_of (db : Db) (contract_id : string) : list Z :=
  rv_version <$> filter (λ v, rv_contract_id v = contract_id) (r_versions db).

Definition newest_first (l : list Z) : list Z := sort_by (λ a b, tcmp (- a) (- b)) l.

Definition kept_bound (keep : nat) (vs : list Z) : Z :=
  match take keep (drop 1 (newest_first vs)) with
  | [] => 0
  | v :: l => foldr Z.min v l
  end.

Definition below_bound (keep : option nat) (db : Db) (v : VersionRow) : bool :=
  match keep with
  | None => superseded same_version rv_version (r_versions db) v
  | Some keep => rv_version v <? kept_bound keep (versions_of db (rv_contract_id v))
  end.

Definition doomed_version (cutoff : Z) (keep : option nat) (db : Db) (v : VersionRow) : bool :=
  (rv_ledger v <? cutoff) && below_bound keep db v && negb (upgrade_pending db (rv_id v)).

Definition delete_versions (cutoff : Z) (keep : option nat) (db : Db) : option (nat * Db) :=
  let chosen := limit (filter (λ v, doomed_version cutoff keep db v = true) (r_versions db)) in
  let ids := rv_id <$> chosen in
  Some (length chosen,
    {| r_events := r_events db; r_projections := r_projections db;
       r_deliveries := filter (λ w, upgrade_in ids w = false) (r_deliveries db);
       r_states := r_states db; r_data := r_data db; r_versions := without_rows chosen (r_versions db) |}).

(** ** The passes *)

Inductive PruneError : Type := ForeignKeyViolation.

(** [prune_batched]: [n] turns at most. *)
Fixpoint prune_batched (n : nat) (stmt : Db → option (nat * Db)) (deleted : nat) (db : Db)
    : result PruneError nat * Db :=
  match n with
  | O => (Ok deleted, db)
  | S n =>
      match stmt db with
      | None => (Err ForeignKeyViolation, db)
      | Some (k, db') =>
          if (k <? BATCH)%nat then (Ok (deleted + k)%nat, db')
          else prune_batched n stmt (deleted + k) db'
      end
  end.

Definition count_dropped_deliveries (cutoff : Z) (db : Db) : nat :=
  let old := re_event_id <$> filter (λ e, re_ledger e < cutoff) (r_events db) in
  length (filter (λ w, (negb (pending w) && event_in old w) = true) (r_deliveries db)).

(** [prune]: the rows deleted, the deliveries reported as dropped, and the
    tables.  An error ends the pass where it is. *)
Definition prune (tip retention_ledgers : Z) (db : Db) : result PruneError nat * nat * Db :=
  let cutoff := tip - retention_ledgers in
  if (retention_ledgers <=? 0) || (cutoff <=? 0) then (Ok 0%nat, 0%nat, db)
  else
    match prune_batched MAX_BATCHES (delete_events cutoff) 0 db with
    | (Err e, db) => (Err e, 0%nat, db)
    | (Ok events, db) =>
        let dropped := count_dropped_deliveries cutoff db in
        match prune_batched MAX_BATCHES (delete_states cutoff) 0 db with
        | (Err e, db) => (Err e, dropped, db)
        | (Ok states, db) =>
            match prune_batched MAX_BATCHES (delete_data cutoff) 0 db with
            | (Err e, db) => (Err e, dropped, db)
            | (Ok data, db) =>
                match prune_batched MAX_BATCHES (delete_versions cutoff None) 0 db with
                | (Err e, db) => (Err e, dropped, db)
                | (Ok specs, db) => (Ok (events + states + data + specs)%nat, dropped, db)
                end
            end
        end
    end.

(** [prune_spec_versions]: its own loop is [prune_batched]'s. *)
Definition prune_spec_versions (tip retention_ledgers spec_version_retention : Z) (db : Db)
    : result PruneError nat * Db :=
  let cutoff := tip - retention_ledgers in
  if (retention_ledgers <=? 0) || (cutoff <=? 0) then (Ok 0%nat, db)
  else
    let keep := if spec_version_retention <=? 0 then None else Some (Z.to_nat spec_version_retention) in
    prune_batched MAX_BATCHES (delete_versions cutoff keep) 0 db.

(** ** Lemmas: batched deletion *)

(** A statement on a table: it deletes distinct rows that satisfy its
    condition, as many as there are up to a batch, and what it leaves satisfies
    the condition only if it did before. *)
Record deletes {A} `{EqDecision A} (rows : Db → list A) (doomed : Db → A → bool) (db : Db) (n : nat) (db' : Db)
    (chosen : list A) : Prop := {
  del_doomed : ∀ x, x ∈ chosen → x ∈ rows db ∧ doomed db x = true;
  del_rows : rows db' = without_rows chosen (rows db);
  del_count : n = min BATCH (length (filter (λ x, doomed db x = true) (rows db)));
  del_all : (n < BATCH)%nat → ∀ x, x ∈ rows db → doomed db x = true → x ∈ chosen;
  del_stable : ∀ x, x ∈ rows db' → doomed db' x = doomed db x;
}.

Section batched.
Context {A : Type} `{EqDecision A} (rows : Db → list A) (doomed : Db → A → bool).
Context (stmt : Db → option (nat * Db)).
Context (stmt_ok : ∀ db n db', stmt db = Some (n, db') → ∃ chosen, deletes rows doomed db n db' chosen).

Lemma elem_of_without_rows (chosen l : list A) x : x ∈ without_rows chosen l ↔ x ∈ l ∧ x ∉ chosen.
Proof. unfold without_rows. rewrite list_elem_of_filter. tauto. Qed.

(** What a pass does to the table of its statement. *)
Record pruned (db db' : Db) : Prop := {
  pr_sub : ∀ x, x ∈ rows db' → x ∈ rows db;
  pr_doomed : ∀ x, x ∈ rows db → x ∉ rows db' → doomed db x = true;
  pr_stable : ∀ x, x ∈ rows db' → doomed db' x = doomed db x;
}.

Lemma pruned_refl db : pruned db db.
Proof. by split. Qed.

Lemma pruned_trans db1 db2 db3 : pruned db1 db2 → pruned db2 db3 → pruned db1 db3.
Proof.
  intros [S1 D1 T1] [S2 D2 T2]. split; [by eauto| |].
  - intros x H1 H3. destruct (decide (x ∈ rows db2)) as [H2|H2]; [|by apply D1].
    rewrite <- T1 by done. by apply D2.
  - intros x H3. by rewrite T2, T1 by auto.
Qed.

Lemma deletes_pruned db n db' chosen : deletes rows doomed db n db' chosen → pruned db db'.
Proof.
  intros [Hd Hr _ _ Hs]. split; [|intros x Hx Hx'|done].
  - intros x. rewrite Hr, elem_of_without_rows. by intros [? _].
  - rewrite Hr, elem_of_without_rows in Hx'. destruct (decide (x ∈ chosen)); [by apply Hd|tauto].
Qed.

(** A pass deletes doomed rows only, and one that reports fewer rows than its
    ceiling has deleted all of them. *)
Lemma prune_batched_ok n k db : let '(r, db') := prune_batched n stmt k db in
  pruned db db'
  ∧ match r with
    | Err _ => True
    | Ok m => (m < k + n * BATCH)%nat → ∀ x, x ∈ rows db' → doomed db' x = false
    end.
Proof.
  revert k db. induction n as [|n IH]; intros k db; cbn [prune_batched].
  - split; [apply pruned_refl|lia].
  - destruct (stmt db) as [[j db1]|] eqn:E; [|split; [apply pruned_refl|done]].
    destruct (stmt_ok _ _ _ E) as [chosen Hdel]. pose proof (deletes_pruned _ _ _ _ Hdel) as Hp.
    destruct (Nat.ltb_spec j BATCH) as [Hlt|Hge].
    + split; [done|]. intros _ x Hx. rewrite (del_stable _ _ _ _ _ _ Hdel) by done.
      rewrite (del_rows _ _ _ _ _ _ Hdel), elem_of_without_rows in Hx. destruct Hx as [Hx Hno].
      destruct (doomed db x) eqn:Ed; [|done]. by destruct Hno; apply (del_all _ _ _ _ _ _ Hdel).
    + specialize (IH (k + j)%nat db1). destruct (prune_batched n stmt (k + j) db1) as [r db2].
      destruct IH as [Hp2 Hr]. split; [by eapply pruned_trans|]. destruct r as [m|]; [|done].
      intros Hm. apply Hr. assert (j = BATCH) as ->; [|lia].
      rewrite (del_count _ _ _ _ _ _ Hdel) in Hge |- *. lia.
Qed.
End batched.

(** What a statement keeps, a pass keeps. *)
Lemma prune_batched_keeps {B} (f : Db → B) stmt n k db :
  (∀ db j db', stmt db = Some (j, db') → f db' = f db) → f (prune_batched n stmt k db).2 = f db.
Proof.
  intros Hf. revert k db. induction n as [|n IH]; intros k db; cbn [prune_batched]; [done|].
  destruct (stmt db) as [[j db1]|] eqn:E; [|done]. apply Hf in E. destruct (j <? BATCH)%nat; [done|].
  by rewrite IH.
Qed.

(** ** Lemmas: the statements *)

Lemma chosen_ok {A} `{EqDecision A} (rows : Db → list A) (doomed : Db → A → bool) db db' l :
  l ≡ₚ filter (λ x, doomed db x = true) (rows db) → rows db' = without_rows (take BATCH l) (rows db) →
  (∀ x, x ∈ rows db' → doomed db' x = doomed db x) →
  deletes rows doomed db (length (take BATCH l)) db' (take BATCH l).
Proof.
  intros Hl Hr Hs. split; [|done| | |done].
  - intros x Hx. apply elem_of_take in Hx as (i & Hi & _). apply list_elem_of_lookup_2 in Hi.
    rewrite Hl in Hi. apply list_elem_of_filter in Hi as [? ?]. done.
  - rewrite length_take. by rewrite Hl.
  - rewrite length_take. intros Hlt x Hx Hd. rewrite take_ge by lia. rewrite Hl. by apply list_elem_of_filter.
Qed.

Lemma existsb_true {A} (f : A → bool) l : existsb f l = true ↔ ∃ x, x ∈ l ∧ f x = true.
Proof. rewrite existsb_exists. split; intros (x & Hx & Hf); exists x; (split; [by apply list_elem_of_In|done]). Qed.

Section series.
Context {A : Type} `{EqDecision A} (same : A → A → bool) (key : A → Z).
Context (same_trans : ∀ x y z, same x y = true → same y z = true → same x z = true).

(** The newest row of a series is never superseded, so a row superseded before
    a deletion of superseded rows is superseded after it. *)
Lemma newest_exists rows r n : (∀ x, x ∈ rows → key x ≤ n) → superseded same key rows r = true →
  ∃ x, x ∈ rows ∧ same x r = true ∧ key r < key x ∧ superseded same key rows x = false.
Proof.
  intros Hn Hr. remember (Z.to_nat (n - key r)) as m eqn:Em. revert r Em Hr.
  induction m as [m IH] using lt_wf_ind. intros r -> Hr.
  apply existsb_true in Hr as (x & Hx & [Hs Hk%Z.ltb_lt]%andb_true_iff).
  destruct (superseded same key rows x) eqn:E; [|by exists x].
  pose proof (Hn x Hx). destruct (IH (Z.to_nat (n - key x)) ltac:(lia) x eq_refl E) as (y & Hy & Hs' & Hk' & Hno).
  exists y. split; [done|]. split; [by eapply same_trans|]. split; [lia|done].
Qed.

Lemma superseded_stable rows chosen r :
  (∀ x, x ∈ chosen → superseded same key rows x = true) →
  superseded same key (without_rows chosen rows) r = superseded same key rows r.
Proof.
  intros Hc. destruct (superseded same key rows r) eqn:E.
  - assert (∃ n, ∀ x, x ∈ rows → key x ≤ n) as [n Hn].
    { clear. induction rows as [|y rows [n IH]]; [exists 0; by intros x ?%elem_of_nil|].
      exists (Z.max n (key y)). intros x [->|Hx]%elem_of_cons; [lia|]. specialize (IH x Hx). lia. }
    destruct (newest_exists rows r n Hn E) as (x & Hx & Hs & Hk & Hno). apply existsb_true. exists x.
    rewrite elem_of_without_rows, Hs, (proj2 (Z.ltb_lt _ _) Hk). split; [|done]. split; [done|].
    intros Hin%Hc. congruence.
  - apply not_true_is_false. intros (x & Hx & Hf)%existsb_true. rewrite elem_of_without_rows in Hx.
    assert (superseded same key rows r = true) as E'; [|congruence]. apply existsb_true. exists x. tauto.
Qed.
End series.

Lemma delete_events_ok cutoff db n db' : delete_events cutoff db = Some (n, db') →
  ∃ chosen, deletes r_events (doomed_event cutoff) db n db' chosen.
Proof.
  unfold delete_events. destruct (existsb _ _); [done|]. intros [= <- <-]. eexists.
  apply (chosen_ok r_events); [|done|done]. rewrite sort_by_perm. apply shuffle_perm.
Qed.

Lemma delete_states_ok cutoff db n db' : delete_states cutoff db = Some (n, db') →
  ∃ chosen, deletes r_states (doomed_state cutoff) db n db' chosen.
Proof.
  unfold delete_states, limit. intros [= <- <-]. eexists.
  apply (chosen_ok r_states); [apply shuffle_perm|done|]. intros x _. unfold doomed_state. cbn [r_states]. f_equal.
  apply superseded_stable.
  - intros a b c. unfold same_state. rewrite !String.eqb_eq. congruence.
  - intros y Hy. apply elem_of_take in Hy as (i & Hi & _). apply list_elem_of_lookup_2 in Hi.
    rewrite shuffle_perm in Hi. apply list_elem_of_filter in Hi as [Hd _].
    by apply andb_true_iff in Hd as [_ ?].
Qed.

Lemma delete_data_ok cutoff db n db' : delete_data cutoff db = Some (n, db') →
  ∃ chosen, deletes r_data (doomed_data cutoff) db n db' chosen.
Proof.
  unfold delete_data, limit. intros [= <- <-]. eexists.
  apply (chosen_ok r_data); [apply shuffle_perm|done|]. intros x _. unfold doomed_data. cbn [r_data]. f_equal.
  apply superseded_stable.
  - intros a b c. unfold same_data. rewrite !andb_true_iff, !String.eqb_eq. intuition congruence.
  - intros y Hy. apply elem_of_take in Hy as (i & Hi & _). apply list_elem_of_lookup_2 in Hi.
    rewrite shuffle_perm in Hi. apply list_elem_of_filter in Hi as [Hd _].
    by apply andb_true_iff in Hd as [_ ?].
Qed.

(** Removing versions below the bound does not move it. *)
Lemma take_stable b m : ∀ s s' rem : list Z,
  StronglySorted Z.ge s → StronglySorted Z.ge s' → s ≡ₚ s' ++ rem → (∀ v, v ∈ rem → v < b) →
  (∀ v, v ∈ take m s → b ≤ v) → take m s' = take m s.
Proof.
  induction m as [|m IH]; intros s s' rem Hs Hs' Hp Hr Hb; [done|].
  destruct s as [|x s1]; [apply Permutation_nil_l in Hp; by destruct s'|].
  assert (b ≤ x) as Hx by (apply Hb; left). apply StronglySorted_cons in Hs as [Hall Hs].
  assert (x ∈ s') as Hin.
  { assert (x ∈ s' ++ rem) as [?|Hxr]%elem_of_app by (rewrite <- Hp; left); [done|]. apply Hr in Hxr. lia. }
  destruct s' as [|y s1']; [by apply elem_of_nil in Hin|]. apply StronglySorted_cons in Hs' as [Hall' Hs'].
  assert (y = x) as ->.
  { assert (y ∈ x :: s1) as Hy by (rewrite Hp; left).
    rewrite Forall_forall in Hall, Hall'. apply elem_of_cons in Hin as [->|Hin]; [done|].
    apply elem_of_cons in Hy as [->|Hy]; [done|]. specialize (Hall _ Hy). specialize (Hall' _ Hin). lia. }
  cbn [app] in Hp. apply Permutation_cons_inv in Hp. cbn [take]. f_equal. apply (IH s1 s1' rem); try done.
  intros v Hv. apply Hb. cbn [take]. by right.
Qed.

Lemma newest_first_sorted l : StronglySorted Z.ge (newest_first l).
Proof.
  assert (∀ k, StronglySorted (key_le Z.opp) k → StronglySorted Z.ge k) as Hmono.
  { intros k Hk. induction Hk as [|x k _ IH Hall]; constructor; [done|]. eapply Forall_impl; [exact Hall|].
    intros y Hy. unfold key_le in Hy.
    assert (- x ≤ - y) by exact Hy. lia. }
  apply Hmono, sort_by_sorted.
Qed.

Lemma newest_first_perm l : newest_first l ≡ₚ l.
Proof. apply sort_by_perm. Qed.

Lemma foldr_min_le v l x : x ∈ v :: l → foldr Z.min v l ≤ x.
Proof.
  revert x. induction l as [|y l IH]; intros x Hx; cbn [foldr].
  - apply list_elem_of_singleton in Hx. lia.
  - pose proof (IH v ltac:(left)). apply elem_of_cons in Hx as [->|Hx]; [lia|].
    apply elem_of_cons in Hx as [->|Hx]; [lia|]. pose proof (IH x ltac:(by right)). lia.
Qed.

Lemma kept_bound_stable keep vs vs' rem :
  vs ≡ₚ vs' ++ rem → (∀ v, v ∈ rem → v < kept_bound keep vs) → kept_bound keep vs' = kept_bound keep vs.
Proof.
  intros Hp Hr. unfold kept_bound in *. rewrite !take_drop_commute in *. cbn [Nat.add] in *.
  pose proof (newest_first_sorted vs) as Hs. pose proof (newest_first_sorted vs') as Hs'.
  assert (newest_first vs ≡ₚ newest_first vs' ++ rem) as Hperm by by rewrite !newest_first_perm.
  set (s := newest_first vs) in *. set (s' := newest_first vs') in *.
  destruct (drop 1 (take (S keep) s)) as [|v l] eqn:E.
  - destruct (drop 1 (take (S keep) s')) as [|v' l'] eqn:E'; [done|]. exfalso.
    apply (f_equal length) in E, E'. rewrite length_drop, length_take in E, E'. cbn [length] in E, E'.
    apply Permutation_length in Hperm. rewrite length_app in Hperm. lia.
  - rewrite (take_stable (foldr Z.min v l) (S keep) s s' rem), E; [done|done|done|done|done|].
    intros x Hx. destruct s as [|y s1]; [done|]. cbn [take firstn] in Hx. change (take keep s1 = v :: l) in E.
    apply elem_of_cons in Hx as [->|Hx]; [|apply foldr_min_le; by rewrite <- E].
    apply StronglySorted_cons in Hs as [Hall _]. rewrite Forall_forall in Hall.
    assert (v ∈ s1) as Hv.
    { assert (v ∈ take keep s1) as Hv by (rewrite E; left). by apply elem_of_take in Hv as (i & Hi & _);
      apply list_elem_of_lookup_2 in Hi. }
    specialize (Hall _ Hv). pose proof (foldr_min_le v l v ltac:(left)). lia.
Qed.

Lemma filter_without {A} `{EqDecision A} (chosen : list A) (P : A → Prop) `{∀ x, Decision (P x)} l :
  filter P l ≡ₚ filter P (without_rows chosen l) ++ filter (λ v, v ∈ chosen ∧ P v) l.
Proof.
  unfold without_rows. induction l as [|y l IH]; [done|]. rewrite !filter_cons.
  destruct (decide (P y)) as [Hy|Hy].
  - destruct (decide (y ∈ chosen)) as [Hin|Hin].
    + rewrite (decide_False (P := y ∉ chosen)) by tauto. rewrite decide_True by done.
      rewrite IH. apply Permutation_middle.
    + rewrite (decide_True (P := y ∉ chosen)) by done. rewrite filter_cons, decide_True by done.
      rewrite decide_False by tauto. cbn [app]. by rewrite IH.
  - rewrite (decide_False (P := y ∈ chosen ∧ _)) by tauto.
    destruct (decide (y ∉ chosen)); [rewrite filter_cons, decide_False by done|]; exact IH.
Qed.

Lemma delete_versions_ok cutoff keep db n db' : delete_versions cutoff keep db = Some (n, db') →
  ∃ chosen, deletes r_versions (doomed_version cutoff keep) db n db' chosen.
Proof.
  unfold delete_versions, limit. intros [= <- <-]. eexists.
  set (chosen := take BATCH (shuffle _)).
  assert (∀ v, v ∈ chosen → v ∈ r_versions db ∧ doomed_version cutoff keep db v = true) as Hch.
  { intros y Hy. apply elem_of_take in Hy as (i & Hi & _). apply list_elem_of_lookup_2 in Hi.
    rewrite shuffle_perm in Hi. by apply list_elem_of_filter in Hi as [? ?]. }
  apply (chosen_ok r_versions); [apply shuffle_perm|done|]. intros x _. unfold doomed_version. f_equal; [f_equal|].
  - unfold below_bound. destruct keep as [keep|].
    + f_equal. apply (kept_bound_stable _ _ _ (rv_version <$> filter (λ v, v ∈ chosen ∧ rv_contract_id v = rv_contract_id x) (r_versions db))).
      * unfold versions_of. cbn [r_versions]. rewrite <- fmap_app. apply fmap_Permutation.
        apply (filter_without chosen).
      * intros v Hv. apply list_elem_of_fmap in Hv as (y & -> & Hy). apply list_elem_of_filter in Hy as [[Hy Hc] _].
        apply Hch in Hy as [_ Hd]. unfold doomed_version, below_bound in Hd. rewrite Hc in Hd.
        apply andb_true_iff in Hd as [[_ Hb]%andb_true_iff _]. lia.
    + cbn [r_versions]. apply superseded_stable.
      * intros a b c. unfold same_version. rewrite !String.eqb_eq. congruence.
      * intros v Hv. apply Hch in Hv as [_ Hd]. unfold doomed_version, below_bound in Hd.
        by apply andb_true_iff in Hd as [[_ Hb]%andb_true_iff _].
  - f_equal. unfold upgrade_pending. cbn [r_deliveries]. apply eq_true_iff_eq. rewrite !existsb_true. split.
    + intros (w & Hw & Hf). apply list_elem_of_filter in Hw as [_ Hw]. eauto.
    + intros (w & Hw & Hf). exists w. split; [|done]. apply list_elem_of_filter. split; [|done].
      apply not_true_is_false. unfold upgrade_in. destruct (rd_upgrade_id w) as [id|] eqn:Eid; [|done].
      intros Hin%bool_decide_eq_true. apply list_elem_of_fmap in Hin as (v & -> & Hv).
      apply Hch in Hv as [_ Hd]. apply andb_true_iff in Hd as [_ Hd]. apply negb_true_iff in Hd.
      assert (upgrade_pending db (rv_id v) = true); [|congruence]. apply existsb_true. exists w.
      split; [done|]. rewrite Eid, bool_decide_true by done. by apply andb_true_iff in Hf as [_ ?].
Qed.

(** ** Lemmas: the passes *)

Definition pendings (db : Db) : list DeliveryRow := filter (λ w, pending w = true) (r_deliveries db).

Lemma filter_filter_in {A} (P Q : A → Prop) `{∀ x, Decision (P x)} `{∀ x, Decision (Q x)} (l : list A) :
  (∀ x, x ∈ l → P x → Q x) → filter P (filter Q l) = filter P l.
Proof.
  induction l as [|y l IH]; intros Hl; [done|]. rewrite !filter_cons.
  assert (filter P (filter Q l) = filter P l) as IH' by (apply IH; intros x ? ?; apply Hl; [by right|done]).
  destruct (decide (Q y)) as [|Hq]; [rewrite filter_cons, IH'; done|]. rewrite IH'.
  destruct (decide (P y)); [|done]. destruct Hq. apply Hl; [left|done].
Qed.

Lemma event_pending_ext db db' id : pendings db' = pendings db → event_pending db' id = event_pending db id.
Proof.
  intros Hp. apply eq_true_iff_eq. unfold event_pending. rewrite !existsb_true.
  assert (∀ d, (∃ w, w ∈ r_deliveries d ∧ bool_decide (rd_event_id w = Some id) && pending w = true)
    ↔ ∃ w, w ∈ pendings d ∧ rd_event_id w = Some id) as Heq.
  { intros d. unfold pendings. setoid_rewrite list_elem_of_filter. setoid_rewrite andb_true_iff.
    setoid_rewrite bool_decide_eq_true. naive_solver. }
  by rewrite !Heq, Hp.
Qed.

Lemma upgrade_pending_ext db db' id : pendings db' = pendings db → upgrade_pending db' id = upgrade_pending db id.
Proof.
  intros Hp. apply eq_true_iff_eq. unfold upgrade_pending. rewrite !existsb_true.
  assert (∀ d, (∃ w, w ∈ r_deliveries d ∧ bool_decide (rd_upgrade_id w = Some id) && pending w = true)
    ↔ ∃ w, w ∈ pendings d ∧ rd_upgrade_id w = Some id) as Heq.
  { intros d. unfold pendings. setoid_rewrite list_elem_of_filter. setoid_rewrite andb_true_iff.
    setoid_rewrite bool_decide_eq_true. naive_solver. }
  by rewrite !Heq, Hp.
Qed.

Lemma pruned_same {A} (rows : Db → list A) doomed db db' : rows db' = rows db →
  (∀ x, doomed db' x = doomed db x) → pruned rows doomed db db'.
Proof. intros Hr Hd. split; [by rewrite Hr|by rewrite Hr|done]. Qed.

(** What every pass guarantees, for a cutoff and a number of versions to keep. *)
Record safe (cutoff : Z) (keep : option nat) (db db' : Db) : Prop := {
  sf_pending : pendings db' = pendings db;
  sf_events : pruned r_events (doomed_event cutoff) db db';
  sf_states : pruned r_states (doomed_state cutoff) db db';
  sf_data : pruned r_data (doomed_data cutoff) db db';
  sf_versions : pruned r_versions (doomed_version cutoff keep) db db';
  sf_fk : ∀ w id, w ∈ r_deliveries db' → rd_event_id w = Some id →
    id ∈ re_event_id <$> r_events db → id ∈ re_event_id <$> r_events db';
  sf_deliveries : ∀ w, w ∈ r_deliveries db' → w ∈ r_deliveries db;
}.

Lemma safe_refl cutoff keep db : safe cutoff keep db db.
Proof. split; [done|apply pruned_refl..|done|done]. Qed.

Lemma safe_trans cutoff keep db1 db2 db3 : safe cutoff keep db1 db2 → safe cutoff keep db2 db3 → safe cutoff keep db1 db3.
Proof.
  intros [P1 E1 S1 D1 V1 F1 L1] [P2 E2 S2 D2 V2 F2 L2].
  split; [congruence|by eapply pruned_trans..| |by auto]. intros w id Hw Hid H1. eapply F2; eauto.
Qed.

(** A pass is safe if its statement is. *)
Lemma prune_batched_safe cutoff keep stmt n k db :
  (∀ db j db', stmt db = Some (j, db') → safe cutoff keep db db') →
  safe cutoff keep db (prune_batched n stmt k db).2.
Proof.
  intros Hs. revert k db. induction n as [|n IH]; intros k db; cbn [prune_batched]; [apply safe_refl|].
  destruct (stmt db) as [[j db1]|] eqn:E; [|apply safe_refl]. apply Hs in E.
  destruct (j <? BATCH)%nat; [done|]. by eapply safe_trans.
Qed.

Lemma delete_events_safe cutoff keep db j db' : delete_events cutoff db = Some (j, db') → safe cutoff keep db db'.
Proof.
  intros Hd. destruct (delete_events_ok _ _ _ _ Hd) as [chosen Hdel].
  unfold delete_events in Hd. set (ch := take BATCH _) in Hd.
  destruct (existsb (event_in (re_event_id <$> ch)) (r_deliveries db)) eqn:Efk; [done|]. injection Hd as <- <-.
  split; [done|by eapply deletes_pruned|by apply pruned_same..| |done].
  intros w id Hw Hid Hin. cbn [r_events r_deliveries] in *.
  apply list_elem_of_fmap in Hin as (e & -> & He). apply list_elem_of_fmap. exists e. split; [done|].
  apply elem_of_without_rows. split; [done|]. intros Hch.
  assert (existsb (event_in (re_event_id <$> ch)) (r_deliveries db) = true); [|congruence].
  apply existsb_true. exists w. split; [done|]. unfold event_in. rewrite Hid. apply bool_decide_eq_true.
  by apply list_elem_of_fmap_2.
Qed.

Lemma delete_states_safe cutoff keep db j db' : delete_states cutoff db = Some (j, db') → safe cutoff keep db db'.
Proof.
  intros Hd. destruct (delete_states_ok _ _ _ _ Hd) as [chosen Hdel]. injection Hd as <- <-.
  split; [done|by apply pruned_same|by eapply deletes_pruned|by apply pruned_same|by apply pruned_same|done|done].
Qed.

Lemma delete_data_safe cutoff keep db j db' : delete_data cutoff db = Some (j, db') → safe cutoff keep db db'.
Proof.
  intros Hd. destruct (delete_data_ok _ _ _ _ Hd) as [chosen Hdel]. injection Hd as <- <-.
  split; [done|by apply pruned_same|by apply pruned_same|by eapply deletes_pruned|by apply pruned_same|done|done].
Qed.

Lemma delete_versions_safe cutoff keep db j db' :
  delete_versions cutoff keep db = Some (j, db') → safe cutoff keep db db'.
Proof.
  intros Hd. destruct (delete_versions_ok _ _ _ _ _ Hd) as [chosen Hdel].
  unfold delete_versions, limit in Hd. set (ch := take BATCH _) in Hd. injection Hd as <- <-.
  assert (pendings {| r_events := r_events db; r_projections := r_projections db;
      r_deliveries := filter (λ w, upgrade_in (rv_id <$> ch) w = false) (r_deliveries db);
      r_states := r_states db; r_data := r_data db; r_versions := without_rows ch (r_versions db) |} = pendings db) as Hp.
  { unfold pendings. cbn [r_deliveries]. apply filter_filter_in. intros w Hw Hpw. apply not_true_is_false.
    unfold upgrade_in. destruct (rd_upgrade_id w) as [id|] eqn:Eid; [|done].
    intros Hin%bool_decide_eq_true. apply list_elem_of_fmap in Hin as (v & -> & Hv).
    apply elem_of_take in Hv as (i & Hi & _). apply list_elem_of_lookup_2 in Hi. rewrite shuffle_perm in Hi.
    apply list_elem_of_filter in Hi as [Hd _]. apply andb_true_iff in Hd as [_ Hd]. apply negb_true_iff in Hd.
    assert (upgrade_pending db (rv_id v) = true); [|congruence]. apply existsb_true. exists w.
    split; [done|]. by rewrite Eid, bool_decide_true, Hpw. }
  split; [exact Hp| | | |by eapply deletes_pruned| |].
  - apply pruned_same; [done|]. intros e. unfold doomed_event. by rewrite (event_pending_ext db).
  - by apply pruned_same.
  - by apply pruned_same.
  - done.
  - intros w Hw. by apply list_elem_of_filter in Hw as [_ ?].
Qed.

(** Nothing is left to delete. *)
Definition clean {A} (rows : Db → list A) (doomed : Db → A → bool) (db : Db) : Prop :=
  ∀ x, x ∈ rows db → doomed db x = false.

Lemma clean_pruned {A} (rows : Db → list A) doomed db db' :
  pruned rows doomed db db' → clean rows doomed db → clean rows doomed db'.
Proof. intros [S D T] Hc x Hx. rewrite T by done. apply Hc. auto. Qed.

Lemma pass {A} `{EqDecision A} (rows : Db → list A) (doomed : Z → Db → A → bool) stmt cutoff keep db :
  (∀ db n db', stmt cutoff db = Some (n, db') → ∃ chosen, deletes rows (doomed cutoff) db n db' chosen) →
  (∀ db j db', stmt cutoff db = Some (j, db') → safe cutoff keep db db') →
  let '(r, db') := prune_batched MAX_BATCHES (stmt cutoff) 0 db in
  safe cutoff keep db db'
  ∧ match r with Ok m => (m < MAX_BATCHES * BATCH)%nat → clean rows (doomed cutoff) db' | Err _ => True end.
Proof.
  intros Hok Hsafe. pose proof (prune_batched_safe cutoff keep (stmt cutoff) MAX_BATCHES 0 db Hsafe) as Hs.
  pose proof (prune_batched_ok rows (doomed cutoff) (stmt cutoff) Hok MAX_BATCHES 0 db) as Hp.
  destruct (prune_batched MAX_BATCHES (stmt cutoff) 0 db) as [r db']. cbn [snd] in Hs. destruct Hp as [_ Hr].
  split; [done|]. destruct r as [m|]; [|done]. exact Hr.
Qed.

(** What a pass of retention may do to the tables.  No pending webhook delivery
    and no event of a delivery is lost; only events before the cutoff without a
    pending delivery go; the newest state of a contract, the newest value of a
    storage key and the newest interface version are never deleted, nor is any
    row inside the window. *)
Definition harmless (cutoff : Z) (db db' : Db) : Prop :=
  (∀ w, w ∈ r_deliveries db → pending w = true → w ∈ r_deliveries db')
  ∧ (∀ w id, w ∈ r_deliveries db' → rd_event_id w = Some id →
      id ∈ re_event_id <$> r_events db → id ∈ re_event_id <$> r_events db')
  ∧ (∀ e, e ∈ r_events db → cutoff ≤ re_ledger e ∨ event_pending db (re_event_id e) = true → e ∈ r_events db')
  ∧ (∀ s, s ∈ r_states db → cutoff ≤ rs_ledger s ∨ superseded same_state rs_ledger (r_states db) s = false →
      s ∈ r_states db')
  ∧ (∀ d, d ∈ r_data db → cutoff ≤ rk_ledger d ∨ superseded same_data rk_ledger (r_data db) d = false →
      d ∈ r_data db')
  ∧ (∀ v, v ∈ r_versions db → cutoff ≤ rv_ledger v ∨ superseded same_version rv_version (r_versions db) v = false
      ∨ upgrade_pending db (rv_id v) = true → v ∈ r_versions db').

Lemma pruned_keeps {A} `{EqDecision A} (rows : Db → list A) doomed db db' x :
  pruned rows doomed db db' → x ∈ rows db → doomed db x = false → x ∈ rows db'.
Proof.
  intros [S D T] Hx Hd. destruct (decide (x ∈ rows db')); [done|]. rewrite D in Hd; done.
Qed.

Lemma before_false cutoff l b : cutoff ≤ l ∨ b = false → (l <? cutoff) && b = false.
Proof. intros [Hl| ->]; [by rewrite (proj2 (Z.ltb_ge _ _) Hl)|by rewrite andb_false_r]. Qed.

Lemma safe_harmless cutoff db db' : safe cutoff None db db' → harmless cutoff db db'.
Proof.
  intros [P E S D V F L]. split; [|split; [exact F|split; [|split; [|split]]]].
  - intros w Hw Hp. assert (w ∈ pendings db') as Hw'.
    { rewrite P. apply list_elem_of_filter. done. }
    by apply list_elem_of_filter in Hw' as [_ ?].
  - intros e He Hk. eapply pruned_keeps; [exact E|done|]. apply before_false.
    destruct Hk as [Hk| ->]; [by left|by right].
  - intros s Hs Hk. eapply pruned_keeps; [exact S|done|]. by apply before_false.
  - intros d Hd Hk. eapply pruned_keeps; [exact D|done|]. by apply before_false.
  - intros v Hv Hk. eapply pruned_keeps; [exact V|done|]. unfold doomed_version, below_bound.
    destruct Hk as [Hk|[-> | ->]]; rewrite ?andb_false_r; [|done|done]. by rewrite (proj2 (Z.ltb_ge _ _) Hk).
Qed.

(** C15: Retention is harmless and, when it succeeds below its ceiling, complete:
    whatever order the database yields rows in, and also when a pass stops on
    an error, what goes is history outside the window that no pending delivery
    needs, the newest interface version of a contract and its newest state and
    data rows always staying; a pass that reports fewer than ten batches leaves
    no row it should have deleted among the events, the state changes and the
    data changes (of the interface versions beyond the newest nothing is
    claimed here); and with a window of zero, or one longer than the chain,
    nothing is touched. *)
Theorem retention_correct tip retention_ledgers db :
  let '(r, dropped, db') := prune tip retention_ledgers db in
  let cutoff := tip - retention_ledgers in
  harmless cutoff db db'
  ∧ (retention_ledgers ≤ 0 ∨ cutoff ≤ 0 → db' = db)
  ∧ (0 < retention_ledgers → 0 < cutoff → ∀ n, r = Ok n → (n < MAX_BATCHES * BATCH)%nat →
      clean r_events (doomed_event cutoff) db' ∧ clean r_states (doomed_state cutoff) db'
      ∧ clean r_data (doomed_data cutoff) db').
Proof.
  unfold prune. set (cutoff := tip - retention_ledgers).
  destruct ((retention_ledgers <=? 0) || (cutoff <=? 0)) eqn:Eoff.
  { split; [apply safe_harmless, safe_refl|]. split; [done|]. intros H1 H2. bool_facts. lia. }
  assert (retention_ledgers ≤ 0 ∨ cutoff ≤ 0 → False) as Hon by (bool_facts; lia).
  pose proof (pass r_events doomed_event delete_events cutoff None db (delete_events_ok cutoff)
    (delete_events_safe cutoff None)) as Pe.
  destruct (prune_batched _ (delete_events cutoff) 0 db) as [re db1]. destruct Pe as [S1 C1].
  destruct re as [ne|]; [|by split; [apply safe_harmless|split; [intros []%Hon|]]].
  pose proof (pass r_states doomed_state delete_states cutoff None db1 (delete_states_ok cutoff)
    (delete_states_safe cutoff None)) as Ps.
  destruct (prune_batched _ (delete_states cutoff) 0 db1) as [rs db2]. destruct Ps as [S2 C2].
  pose proof (safe_trans _ _ _ _ _ S1 S2) as S12.
  destruct rs as [ns|]; [|by split; [apply safe_harmless|split; [intros []%Hon|]]].
  pose proof (pass r_data doomed_data delete_data cutoff None db2 (delete_data_ok cutoff)
    (delete_data_safe cutoff None)) as Pd.
  destruct (prune_batched _ (delete_data cutoff) 0 db2) as [rd db3]. destruct Pd as [S3 C3].
  pose proof (safe_trans _ _ _ _ _ S12 S3) as S123.
  destruct rd as [nd|]; [|by split; [apply safe_harmless|split; [intros []%Hon|]]].
  pose proof (pass r_versions (λ c, doomed_version c None) (λ c, delete_versions c None) cutoff None db3
    (delete_versions_ok cutoff None) (delete_versions_safe cutoff None)) as Pv.
  cbv beta in Pv. destruct (prune_batched _ (delete_versions cutoff None) 0 db3) as [rv db4]. destruct Pv as [S4 C4].
  pose proof (safe_trans _ _ _ _ _ S123 S4) as S.
  destruct rv as [nv|]; [|by split; [apply safe_harmless|split; [intros []%Hon|]]].
  split; [by apply safe_harmless|]. split; [intros []%Hon|]. intros _ _ n [= <-] Hn.
  destruct S2, S3, S4. repeat split.
  - do 3 (eapply clean_pruned; [done|]). apply C1. lia.
  - do 2 (eapply clean_pruned; [done|]). apply C2. lia.
  - eapply clean_pruned; [done|]. apply C3. lia.
Qed.

(** ** Interface versions *)

Lemma kept_bound_le keep vs v : (0 < keep)%nat → 0 ≤ v → v ∈ take (S keep) (newest_first vs) → kept_bound keep vs ≤ v.
Proof.
  intros Hk Hv Hin. unfold kept_bound. pose proof (newest_first_sorted vs) as Hs.
  destruct (newest_first vs) as [|x l]; [by apply elem_of_nil in Hin|]. cbn [take] in Hin.
  change (drop 1 (x :: l)) with l.
  apply elem_of_cons in Hin as [->|Hin]; [|destruct (take keep l); [by apply elem_of_nil in Hin|by apply foldr_min_le]].
  destruct l as [|y l]; [by rewrite take_nil|]. destruct keep as [|keep]; [lia|]. cbn [take].
  apply StronglySorted_cons in Hs as [Hall _]. apply Forall_inv in Hall.
  pose proof (foldr_min_le y (take keep l) y ltac:(left)). lia.
Qed.

(** With a number of versions to keep, the newest [spec_version_retention + 1]
    versions of a contract (one more than the setting says) survive however old
    they are, besides the versions inside the window and those whose upgrade is
    still to be delivered; and below the ceiling all others go. *)
Theorem prune_spec_versions_correct tip retention_ledgers keep db :
  0 < keep → Forall (λ v, 0 ≤ rv_version v) (r_versions db) →
  let '(r, db') := prune_spec_versions tip retention_ledgers keep db in
  let cutoff := tip - retention_ledgers in
  (∀ v, v ∈ r_versions db →
     cutoff ≤ rv_ledger v ∨ upgrade_pending db (rv_id v) = true
     ∨ rv_version v ∈ take (S (Z.to_nat keep)) (newest_first (versions_of db (rv_contract_id v))) →
     v ∈ r_versions db')
  ∧ pendings db' = pendings db ∧ r_events db' = r_events db
  ∧ (0 < retention_ledgers → 0 < cutoff → ∀ n, r = Ok n → (n < MAX_BATCHES * BATCH)%nat →
      clean r_versions (doomed_version cutoff (Some (Z.to_nat keep))) db').
Proof.
  intros Hk Hpos. unfold prune_spec_versions. set (cutoff := tip - retention_ledgers).
  destruct ((retention_ledgers <=? 0) || (cutoff <=? 0)) eqn:Eoff.
  { split; [done|]. split; [done|]. split; [done|]. intros H1 H2. bool_facts. lia. }
  rewrite (proj2 (Z.leb_gt _ _) Hk). set (k := Some (Z.to_nat keep)).
  pose proof (pass r_versions (λ c, doomed_version c k) (λ c, delete_versions c k) cutoff k db
    (delete_versions_ok cutoff k) (delete_versions_safe cutoff k)) as Pv. cbv beta in Pv.
  pose proof (prune_batched_keeps r_events (delete_versions cutoff k) MAX_BATCHES 0 db) as Hev.
  destruct (prune_batched _ (delete_versions cutoff k) 0 db) as [r db']. destruct Pv as [S C].
  split; [|split; [apply (sf_pending _ _ _ _ S)|split; [apply Hev|]]].
  - intros v Hv Hwhy. eapply pruned_keeps; [exact (sf_versions _ _ _ _ S)|done|].
    unfold doomed_version, below_bound, k. destruct Hwhy as [Hl|[-> |Hin]]; [|by rewrite andb_false_r|].
    + by rewrite (proj2 (Z.ltb_ge _ _) Hl).
    + rewrite (proj2 (Z.ltb_ge (rv_version v) _)); [by rewrite andb_false_r|].
      apply kept_bound_le; [lia| |done]. rewrite Forall_forall in Hpos. by apply Hpos.
  - intros db0 j db0' Hd. unfold delete_versions in Hd. by injection Hd as <- <-.
  - intros _ _ n -> Hn. by apply C.
Qed.

(** ** The foreign key *)

(** If a delivered or failed delivery is still attached to an event outside the
    window, and what is to go fits a batch, the first statement of every pass
    fails: nothing is pruned, from any table, until the delivery is gone. *)
Lemma retention_stuck tip retention_ledgers db w e :
  let cutoff := tip - retention_ledgers in
  0 < retention_ledgers → 0 < cutoff →
  w ∈ r_deliveries db → rd_event_id w = Some (re_event_id e) → e ∈ r_events db →
  doomed_event cutoff db e = true →
  (length (filter (λ e, doomed_event cutoff db e = true) (r_events db)) ≤ BATCH)%nat →
  prune tip retention_ledgers db = (Err ForeignKeyViolation, 0%nat, db).
Proof.
  intros cutoff Hr Hc Hw Hid He Hd Hlen. unfold prune. fold cutoff.
  rewrite (proj2 (Z.leb_gt _ _) Hr), (proj2 (Z.leb_gt _ _) Hc). cbn [orb].
  assert (delete_events cutoff db = None) as Hnone; [|change MAX_BATCHES with (S 9); cbn [prune_batched]; by rewrite Hnone].
  unfold delete_events. rewrite take_ge by (by rewrite sort_by_perm, shuffle_perm).
  rewrite (proj2 (existsb_true _ _)); [done|]. exists w. split; [done|]. unfold event_in. rewrite Hid.
  apply bool_decide_eq_true, list_elem_of_fmap_2. rewrite sort_by_perm, shuffle_perm. by apply list_elem_of_filter.
Qed.
End retention.

(** ** Examples and witnesses *)

#[local] Program Instance sample_order : RowOrder := {| shuffle := λ _ l, l |}.
Next Obligation. done. Qed.

Definition sample_version (n : Z) : VersionRow := {| rv_id := n; rv_contract_id := "C"; rv_version := n; rv_ledger := n |}.

Definition sample_tables : Db := {|
  r_events := [{| re_event_id := "a"; re_ledger := 1 |}; {| re_event_id := "b"; re_ledger := 2 |};
               {| re_event_id := "c"; re_ledger := 95 |}];
  r_projections := ["a"; "c"];
  r_deliveries := [{| rd_id := "d"; rd_event_id := Some "b"; rd_upgrade_id := None; rd_status := "pending" |}];
  r_states := [{| rs_contract_id := "C"; rs_ledger := 1 |}; {| rs_contract_id := "C"; rs_ledger := 3 |}];
  r_data := [{| rk_contract_id := "C"; rk_key_hash := "k"; rk_ledger := 1 |}];
  r_versions := sample_version <$> [1; 2; 3; 4; 5] |}.

(** [prune] leaves one version, so the pass that keeps some finds nothing. *)
Example prune_ignores_version_retention :
  let '(r, _, db) := prune 100 10 sample_tables in
  r = Ok 6%nat ∧ rv_version <$> r_versions db = [5] ∧ re_event_id <$> r_events db = ["b"; "c"]
  ∧ (prune_spec_versions 100 10 3 db).1 = Ok 0%nat.
Proof. vm_compute. done. Qed.

(** Of five versions a setting of three keeps four. *)
Example three_keeps_four :
  rv_version <$> r_versions (prune_spec_versions 100 10 3 sample_tables).2 = [2; 3; 4; 5].
Proof. vm_compute. done. Qed.

Lemma prune_spec_versions_correct_witness :
  let out := prune_spec_versions 100 10 3 sample_tables in
  sample_version 2 ∈ r_versions out.2 ∧ pendings out.2 = pendings sample_tables.
Proof.
  pose proof (prune_spec_versions_correct 100 10 3 sample_tables) as Hp.
  destruct (prune_spec_versions 100 10 3 sample_tables) as [r db']. cbv zeta. cbn [snd].
  destruct Hp as (Hkeep & Hpend & _); [lia|by repeat constructor|]. split; [|exact Hpend].
  apply Hkeep; [by apply (bool_decide_unpack _)|]. right. right. by apply (bool_decide_unpack _).
Defined.

(** The delivered delivery of an old event stops retention. *)
Definition stuck_tables : Db := {|
  r_events := [{| re_event_id := "a"; re_ledger := 1 |}]; r_projections := [];
  r_deliveries := [{| rd_id := "d"; rd_event_id := Some "a"; rd_upgrade_id := None; rd_status := "delivered" |}];
  r_states := [{| rs_contract_id := "C"; rs_ledger := 1 |}; {| rs_contract_id := "C"; rs_ledger := 3 |}];
  r_data := []; r_versions := [] |}.

Example delivered_delivery_stops_retention :
  prune 100 10 stuck_tables = (Err ForeignKeyViolation, 0%nat, stuck_tables).
Proof. vm_compute. done. Qed.
