(* ===== verification/Dispatcher.v ===== *)
(** * Dispatcher: fanning events out to subscriptions ([lumenqraph-webhooks/src/dispatcher.rs])

    Stage 1 of the webhook pipeline: [enqueue_events], [enqueue_upgrades] and
    [enqueue_backfill] match new rows against the subscriptions and insert one
    pending delivery per match.  A statement of the source is a function on the
    tables; a transaction that fails leaves them as they were.  The [jsonb]
    operators of the database are parameters. *)
From S2P Require Import Prelude Text Containers Values.

Local Open Scope Z_scope.

(** ** The tables *)

(** A row of [events], as far as the dispatcher reads it. *)
Record Event := {
  e_seq : Z;
  e_id : string;
  e_contract_id : string;
  e_event_name : option string;
  e_decoded_topics : Json;
  e_enriched : option Json;
}.

(** A row of [contract_spec_versions]. *)
Record SpecVersion := { v_id : Z; v_contract_id : string; v_version : Z }.

Inductive SubKind := KindEvent | KindUpgrade.

#[export] Instance SubKind_eq_dec : EqDecision SubKind.
Proof. solve_decision. Defined.

(** A row of [webhook_subscriptions].  [secret] and [previous_secret] are what
    [safe_decrypt_webhook_secret] makes of the stored ciphertexts. *)
Record Subscription := {
  sub_id : string;
  url : string;
  active : bool;
  kind : SubKind;
  s_contract_id : option string;
  s_event_name : option string;
  contract_ids : list string;
  event_names : list string;
  filter : option Json;
  starting_seq : Z;
  backfill_seq : option Z;
  secret : option string;
  previous_secret : option string;
  previous_secret_expires_at : option Z;
  consecutive_failures : Z;
  last_success_at : option Z;
  first_failure_at : option Z;
  auto_disabled_reason : option string;
}.

Inductive Status := Pending | Delivered | Failed.

#[export] Instance Status_eq_dec : EqDecision Status.
Proof. solve_decision. Defined.

(** What a delivery carries: [event_id] or [upgrade_id], never both (the check
    [delivery_targets_one_thing]). *)
Inductive Target := ForEvent (event_id : string) | ForUpgrade (upgrade_id : Z).

#[export] Instance Target_eq_dec : EqDecision Target.
Proof. solve_decision. Defined.

(** A row of [webhook_deliveries]; times are seconds. *)
Record Delivery := {
  d_id : Z;
  subscription_id : string;
  target : Target;
  status : Status;
  attempts : Z;
  last_error : option string;
  next_attempt_at : Z;
  created_at : Z;
  locked_until : option Z;
  locked_by : option string;
  last_status_code : option Z;
}.

(** [next_id] is the sequence behind [webhook_deliveries.id]; [last_seq] and
    [last_upgrade_id] are the row of [webhook_state] (0 before it exists). *)
Record WebhookDb := {
  events : list Event;
  versions : list SpecVersion;
  subs : list Subscription;
  deliveries : list Delivery;
  next_id : Z;
  last_seq : Z;
  last_upgrade_id : Z;
}.

(** The one way a statement here can fail: a filter value that is not JSON
    under [::jsonb]. *)
Inductive DbError := CastError.

(** [a @> b], [t::jsonb], and [->>] on a value that is not a string. *)
Class JsonbLib := {
  jsonb_contains : Json → Json → bool;
  jsonb_cast : string → option Json;
  jsonb_text : Json → string
}.

(** ** Matching *)

(** [f ? k]. *)
Definition has_key (f : Json) (k : string) : bool :=
  match f with
  | JObj _ => bool_decide (is_Some (json_get k f))
  | JArr l => existsb (λ v, match v with JStr s => String.eqb s k | _ => false end) l
  | JStr s => String.eqb s k
  | _ => false
  end.

(** [AND], left to right. *)
Definition and_r (a b : result DbError bool) : result DbError bool :=
  match a with Ok true => b | r => r end.

Section matching.
Context `{JsonbLib}.

(** [f->>k]; [None] is NULL. *)
Definition arrow_text (f : Json) (k : string) : option string :=
  match json_get k f with
  | None | Some JNull => None
  | Some (JStr s) => Some s
  | Some v => Some (jsonb_text v)
  end.

(** [NOT (f ? k) OR f->>k = v]: NULL on either side does not match. *)
Definition text_clause (f : Json) (k : string) (v : option string) : bool :=
  negb (has_key f k) || match arrow_text f k, v with Some a, Some b => String.eqb a b | _, _ => false end.

(** [NOT (f ? 'topic<i>') OR e.decoded_topics @> jsonb_build_array(null, .., (f->>'topic<i>')::jsonb)]. *)
Definition topic_clause (f : Json) (k : string) (i : nat) (e : Event) : result DbError bool :=
  if negb (has_key f k) then Ok true
  else v ← match arrow_text f k with
           | None => Ok JNull
           | Some t => ok_or CastError (jsonb_cast t)
           end;
       Ok (jsonb_contains (e_decoded_topics e) (JArr (replicate i JNull ++ [v]))).

(** [NOT (f ? k) OR e.enriched @> jsonb_build_object(k, f->k)]. *)
Definition enriched_clause (f : Json) (k : string) (e : Event) : bool :=
  negb (has_key f k)
  || match e_enriched e with
     | None => false
     | Some v => jsonb_contains v (JObj [(k, default JNull (json_get k f))])
     end.

Definition filter_matches (f : option Json) (e : Event) : result DbError bool :=
  match f with
  | None | Some (JObj []) => Ok true
  | Some f =>
      and_r (Ok (text_clause f "contract_id" (Some (e_contract_id e))))
      (and_r (Ok (text_clause f "event_name" (e_event_name e)))
      (and_r (topic_clause f "topic0" 0 e)
      (and_r (topic_clause f "topic1" 1 e)
      (and_r (topic_clause f "topic2" 2 e)
      (and_r (topic_clause f "topic3" 3 e)
      (Ok (enriched_clause f "to" e && enriched_clause f "from" e && enriched_clause f "amount" e)))))))
  end.

(** [s.contract_id IS NULL OR s.contract_id = c OR c = ANY(s.contract_ids)]. *)
Definition contract_matches (s : Subscription) (c : string) : bool :=
  match s_contract_id s with
  | None => true
  | Some k => String.eqb k c || bool_decide (c ∈ contract_ids s)
  end.

Definition name_matches (s : Subscription) (n : option string) : bool :=
  match s_event_name s with
  | None => true
  | Some k => match n with
              | None => false
              | Some n => String.eqb k n || bool_decide (n ∈ event_names s)
              end
  end.

Definition sub_matches (s : Subscription) (e : Event) : result DbError bool :=
  and_r (Ok (contract_matches s (e_contract_id e) && name_matches s (e_event_name e)))
        (filter_matches (filter s) e).

(** ** Inserting *)

(** [INSERT INTO webhook_deliveries (..) .. ON CONFLICT .. DO NOTHING], one row;
    the sequence moves on either way. *)
Definition insert_delivery (now : Z) (acc : list Delivery * Z * Z) (row : string * Target)
    : list Delivery * Z * Z :=
  let '(ds, id, created) := acc in
  if existsb (λ d, bool_decide (subscription_id d = row.1 ∧ target d = row.2)) ds
  then (ds, id + 1, created)
  else (ds ++ [{| d_id := id; subscription_id := row.1; target := row.2; status := Pending;
                  attempts := 0; last_error := None; next_attempt_at := now; created_at := now;
                  locked_until := None; locked_by := None; last_status_code := None |}],
        id + 1, created + 1).

Definition insert_deliveries (now : Z) (rows : list (string * Target)) (db : WebhookDb) : Z * WebhookDb :=
  let '(ds, id, created) := fold_left (insert_delivery now) rows (deliveries db, next_id db, 0) in
  (created, {| events := events db; versions := versions db; subs := subs db; deliveries := ds;
               next_id := id; last_seq := last_seq db; last_upgrade_id := last_upgrade_id db |}).

(** Keep the rows a predicate accepts; the statement fails if it fails. *)
Fixpoint filter_r {A} (f : A → result DbError bool) (l : list A) : result DbError (list A) :=
  match l with
  | [] => Ok []
  | x :: l' => b ← f x; r ← filter_r f l'; Ok (if b : bool then x :: r else r)
  end.

(** [FROM a JOIN b], restricted. *)
Definition join_rows {A B} (p : A → B → bool) (la : list A) (lb : list B) : list (A * B) :=
  la ≫= λ a, (λ b, (a, b)) <$> base.filter (λ b, p a b = true) lb.

Definition max_seq (es : list Event) : Z := foldr (λ e m, Z.max (e_seq e) m) 0 es.
Definition max_version (vs : list SpecVersion) : Z := foldr (λ v m, Z.max (v_id v) m) 0 vs.

Definition set_last_seq (n : Z) (db : WebhookDb) : WebhookDb :=
  {| events := events db; versions := versions db; subs := subs db; deliveries := deliveries db;
     next_id := next_id db; last_seq := n; last_upgrade_id := last_upgrade_id db |}.
Definition set_last_upgrade (n : Z) (db : WebhookDb) : WebhookDb :=
  {| events := events db; versions := versions db; subs := subs db; deliveries := deliveries db;
     next_id := next_id db; last_seq := last_seq db; last_upgrade_id := n |}.
Definition set_subs (ss : list Subscription) (db : WebhookDb) : WebhookDb :=
  {| events := events db; versions := versions db; subs := ss; deliveries := deliveries db;
     next_id := next_id db; last_seq := last_seq db; last_upgrade_id := last_upgrade_id db |}.

Definition event_row (p : Event * Subscription) : string * Target := (sub_id p.2, ForEvent (e_id p.1)).

(** [enqueue_events]. *)
Definition enqueue_events (batch now : Z) (db : WebhookDb) : result DbError (Z * WebhookDb) :=
  let global_max := max_seq (events db) in
  if global_max <=? last_seq db then Ok (0, db)
  else
    let upper := Z.min (last_seq db + batch) global_max in
    rows ← filter_r (λ p, sub_matches p.2 p.1)
             (join_rows (λ e s, active s && bool_decide (kind s = KindEvent)
                                && (Z.max (starting_seq s) (last_seq db) <? e_seq e) && (e_seq e <=? upper))
                        (events db) (subs db));
    let '(created, db') := insert_deliveries now (event_row <$> rows) db in
    Ok (created, set_last_seq upper db').

(** [enqueue_upgrades]. *)
Definition enqueue_upgrades (batch now : Z) (db : WebhookDb) : Z * WebhookDb :=
  let global_max := max_version (versions db) in
  if global_max <=? last_upgrade_id db then (0, db)
  else
    let upper := Z.min (last_upgrade_id db + batch) global_max in
    let rows := join_rows (λ v s, active s && bool_decide (kind s = KindUpgrade)
                                  && contract_matches s (v_contract_id v)
                                  && (last_upgrade_id db <? v_id v) && (v_id v <=? upper) && (1 <? v_version v))
                          (versions db) (subs db) in
    let '(created, db') :=
      insert_deliveries now ((λ p, (sub_id p.2, ForUpgrade (v_id p.1))) <$> rows) db in
    (created, set_last_upgrade upper db').

Definition set_backfill (b : option Z) (s : Subscription) : Subscription :=
  {| sub_id := sub_id s; url := url s; active := active s; kind := kind s;
     s_contract_id := s_contract_id s; s_event_name := s_event_name s; contract_ids := contract_ids s;
     event_names := event_names s; filter := filter s; starting_seq := starting_seq s; backfill_seq := b;
     secret := secret s; previous_secret := previous_secret s;
     previous_secret_expires_at := previous_secret_expires_at s;
     consecutive_failures := consecutive_failures s; last_success_at := last_success_at s;
     first_failure_at := first_failure_at s; auto_disabled_reason := auto_disabled_reason s |}.

(** [UPDATE webhook_subscriptions SET .. WHERE id = $1]. *)
Definition update_sub (id : string) (f : Subscription → Subscription) (db : WebhookDb) : WebhookDb :=
  set_subs ((λ s, if String.eqb (sub_id s) id then f s else s) <$> subs db) db.

(** One turn of the loop of [enqueue_backfill]. *)
Definition backfill_one (batch now : Z) (id : string) (backfill starting : Z) (db : WebhookDb)
    : result DbError (Z * WebhookDb) :=
  if starting <=? backfill then Ok (0, update_sub id (set_backfill None) db)
  else
    let upper := Z.min (backfill + batch) starting in
    rows ← filter_r (λ p, sub_matches p.2 p.1)
             (join_rows (λ e s, String.eqb (sub_id s) id && bool_decide (kind s = KindEvent)
                                && (backfill <? e_seq e) && (e_seq e <=? upper))
                        (events db) (subs db));
    let '(created, db') := insert_deliveries now (event_row <$> rows) db in
    Ok (created, update_sub id (set_backfill (if starting <=? upper then None else Some upper)) db').

(** The loop: each turn commits before the next; the first failure ends it. *)
Fixpoint backfill_loop (batch now : Z) (cursors : list (string * Z * Z)) (total : Z) (db : WebhookDb)
    : result DbError Z * WebhookDb :=
  match cursors with
  | [] => (Ok total, db)
  | (id, backfill, starting) :: cursors =>
      match backfill_one batch now id backfill starting db with
      | Err e => (Err e, db)
      | Ok (created, db') => backfill_loop batch now cursors (total + created) db'
      end
  end.

Definition enqueue_backfill (batch now : Z) (db : WebhookDb) : result DbError Z * WebhookDb :=
  backfill_loop batch now
    (omap (λ s, if active s then (λ b, (sub_id s, b, starting_seq s)) <$> backfill_seq s else None) (subs db))
    0 db.

(** [enqueue]: both streams, then the backfills; an error skips what follows. *)
Definition enqueue (batch now : Z) (db : WebhookDb) : result DbError Z * WebhookDb :=
  match enqueue_events batch now db with
  | Err e => (Err e, db)
  | Ok (events_created, db1) =>
      let '(upgrades_created, db2) := enqueue_upgrades batch now db1 in
      match enqueue_backfill batch now db2 with
      | (Err e, db3) => (Err e, db3)
      | (Ok backfilled, db3) => (Ok (events_created + upgrades_created + backfilled), db3)
      end
  end.

End matching.

(** ** Lemmas: inserting *)

Definition dkey (d : Delivery) : string * Target := (subscription_id d, target d).
Definition dkeys (db : WebhookDb) : list (string * Target) := dkey <$> deliveries db.

(** A row as the schema's defaults make it. *)
Definition fresh_row (now : Z) (d : Delivery) : Prop :=
  status d = Pending ∧ attempts d = 0 ∧ next_attempt_at d = now ∧ created_at d = now ∧ locked_until d = None.

Lemma existsb_dkey ds row :
  existsb (λ d, bool_decide (subscription_id d = row.1 ∧ target d = row.2)) ds = true ↔ row ∈ dkey <$> ds.
Proof.
  rewrite existsb_exists, list_elem_of_fmap. unfold dkey. split.
  - intros (d & Hd & Hb%bool_decide_eq_true). exists d. split; [|by apply list_elem_of_In].
    destruct row; naive_solver.
  - intros (d & -> & Hd). exists d. split; [by apply list_elem_of_In|]. by apply bool_decide_eq_true.
Qed.

(** Identifiers handed out by the sequence, each once. *)
Definition ids_in (lo hi : Z) (ds : list Delivery) : Prop :=
  NoDup (d_id <$> ds) ∧ Forall (λ d, lo ≤ d_id d < hi) ds.

Lemma ids_in_app lo mid hi ds ds' : lo ≤ mid ≤ hi →
  ids_in lo mid ds → ids_in mid hi ds' → ids_in lo hi (ds ++ ds').
Proof.
  intros Hm [Hn Hf] [Hn' Hf']. split.
  - rewrite fmap_app. apply NoDup_app. split; [done|]. split; [|done]. intros i (d & -> & Hd)%list_elem_of_fmap Hi.
    apply list_elem_of_fmap in Hi as (d' & Heq & Hd'). rewrite Forall_forall in Hf, Hf'.
    specialize (Hf d Hd). specialize (Hf' d' Hd'). cbn in *. lia.
  - apply Forall_app. split; eapply Forall_impl; try eassumption; cbn; intros; lia.
Qed.

Lemma insert_fold now rows ds id c :
  ∃ new, (fold_left (insert_delivery now) rows (ds, id, c))
         = (ds ++ new, id + Z.of_nat (length rows), c + Z.of_nat (length new))
  ∧ Forall (fresh_row now) new
  ∧ (NoDup (dkey <$> ds) → NoDup (dkey <$> (ds ++ new)))
  ∧ (∀ k, k ∈ dkey <$> (ds ++ new) ↔ k ∈ dkey <$> ds ∨ k ∈ rows)
  ∧ ids_in id (id + Z.of_nat (length rows)) new.
Proof.
  revert ds id c. induction rows as [|row rows IH]; intros ds id c; cbn [fold_left].
  - exists []. rewrite app_nil_r. cbn [length]. rewrite !Z.add_0_r.
    split; [done|]. split; [constructor|]. split; [done|]. split; [|split; constructor].
    intros k. rewrite elem_of_nil. tauto.
  - unfold insert_delivery at 2. destruct (existsb _ ds) eqn:E.
    + apply existsb_dkey in E. destruct (IH ds (id + 1) c) as (new & -> & Hf & Hn & Hk & Hi & Hr).
      exists new. cbn [length]. split; [f_equal; f_equal; lia|]. split; [done|]. split; [done|].
      split; [|split; [done|eapply Forall_impl; [exact Hr|]; cbn; intros; lia]]. intros k. rewrite Hk, elem_of_cons. split; [tauto|]. intros [?|[-> | ?]]; tauto.
    + assert (row ∉ dkey <$> ds) as Hno by (rewrite <-existsb_dkey, E; done).
      match goal with |- context [fold_left _ _ (ds ++ [?d], _, _)] => set (d0 := d) end.
      destruct (IH (ds ++ [d0]) (id + 1) (c + 1)) as (new & -> & Hf & Hn & Hk & Hi).
      exists (d0 :: new). rewrite <-app_assoc in *. cbn [length app] in *.
      assert (dkey d0 = row) as Hd0 by (by destruct row).
      split; [f_equal; [f_equal; lia|lia]|]. split; [by constructor|]. split.
      * intros Hnd. apply Hn. rewrite fmap_app. apply NoDup_app. split; [done|].
        split; [|apply NoDup_singleton]. intros k Hin. cbn. rewrite list_elem_of_singleton, Hd0. by intros ->.
      * split; [|apply (ids_in_app id (id + 1) _ [d0] new); [lia| |
                 by replace (id + Z.of_nat (S (length rows))) with (id + 1 + Z.of_nat (length rows)) by lia];
                 split; [apply NoDup_singleton|apply Forall_singleton; cbn; lia]].
        intros k. rewrite Hk, fmap_app, elem_of_app, elem_of_cons. cbn. rewrite list_elem_of_singleton, Hd0.
        split; [intros [[?|?]|?]|intros [?|[?|?]]]; tauto.
Qed.

Definition ids_ok (db : WebhookDb) : Prop :=
  NoDup (d_id <$> deliveries db) ∧ Forall (λ d, d_id d < next_id db) (deliveries db).

(** What an insertion of [rows] does to the tables. *)
Record inserted (now : Z) (rows : list (string * Target)) (n : Z) (db db' : WebhookDb) : Prop := {
  i_new : ∃ new, deliveries db' = deliveries db ++ new ∧ n = Z.of_nat (length new) ∧ Forall (fresh_row now) new;
  i_nodup : NoDup (dkeys db) → NoDup (dkeys db');
  i_ids : ids_ok db → ids_ok db';
  i_keys : ∀ k, k ∈ dkeys db' ↔ k ∈ dkeys db ∨ k ∈ rows;
  i_events : events db' = events db;
  i_versions : versions db' = versions db;
}.

Lemma insert_deliveries_spec now rows db :
  ∃ n db', insert_deliveries now rows db = (n, db') ∧ inserted now rows n db db'
  ∧ subs db' = subs db ∧ last_seq db' = last_seq db ∧ last_upgrade_id db' = last_upgrade_id db.
Proof.
  unfold insert_deliveries. destruct (insert_fold now rows (deliveries db) (next_id db) 0) as (new & -> & Hf & Hn & Hk & Hi).
  eexists _, _. split; [done|]. split; [|done].
  split; unfold dkeys; cbn; [exists new; auto using Z.add_0_l|done| |done|done|done].
  intros [Hnd Hlt]. unfold ids_ok. cbn. destruct Hi as [Hni Hri]. split.
  - rewrite fmap_app. apply NoDup_app. split; [done|]. split; [|done]. intros i (d & -> & Hd)%list_elem_of_fmap Hin.
    apply list_elem_of_fmap in Hin as (d' & Heq & Hd'). rewrite Forall_forall in Hlt, Hri.
    specialize (Hlt d Hd). specialize (Hri d' Hd'). cbn in *. lia.
  - apply Forall_app. split; eapply Forall_impl; try eassumption; cbn; intros; lia.
Qed.

Lemma filter_r_Ok {A} (f : A → result DbError bool) l l' : filter_r f l = Ok l' →
  ∀ x, x ∈ l' ↔ x ∈ l ∧ f x = Ok true.
Proof.
  revert l'. induction l as [|x l IH]; intros l' Hl y; cbn [filter_r] in Hl.
  - injection Hl as <-. rewrite elem_of_nil. tauto.
  - destruct (f x) as [b|] eqn:Ef; [|done]. cbn in Hl. destruct (filter_r f l) as [r|]; [|done].
    injection Hl as <-. specialize (IH r eq_refl y). rewrite elem_of_cons.
    destruct b; rewrite ?elem_of_cons, IH; split; try tauto.
    + intros [-> | ?]; tauto.
    + intros [[-> | ?] ?]; [congruence|tauto].
Qed.

Lemma filter_r_total {A} (f : A → result DbError bool) l :
  (∀ x, x ∈ l → ∃ b, f x = Ok b) → ∃ r, filter_r f l = Ok r.
Proof.
  induction l as [|x l IH]; intros Hf; [by eexists|]. cbn [filter_r].
  destruct (Hf x) as [b ->]; [by left|]. cbn.
  destruct IH as [r ->]; [|by eexists]. intros y Hy. apply Hf. by right.
Qed.

Lemma elem_of_join {A B} (p : A → B → bool) la lb ab :
  ab ∈ join_rows p la lb ↔ ab.1 ∈ la ∧ ab.2 ∈ lb ∧ p ab.1 ab.2 = true.
Proof.
  unfold join_rows. rewrite list_elem_of_bind. setoid_rewrite list_elem_of_fmap.
  setoid_rewrite list_elem_of_filter. destruct ab as [a b]. cbn. naive_solver.
Qed.

Lemma NoDup_filter_singleton {A} `{EqDecision A} (x : A) l :
  NoDup l → x ∈ l → length (base.filter (λ y, y = x) l) = 1%nat.
Proof.
  induction 1 as [|y l Hy Hn IH]; [by intros ?%elem_of_nil|]. intros Hx. rewrite filter_cons.
  destruct (decide (y = x)) as [->|Hne].
  - cbn [length]. f_equal. apply length_zero_iff_nil. destruct (base.filter _ l) as [|z r] eqn:E; [done|].
    assert (z ∈ base.filter (λ y, y = x) l) as [-> ?]%list_elem_of_filter by (rewrite E; by left). done.
  - apply IH. apply elem_of_cons in Hx as [-> | ?]; done.
Qed.

(** The conditions of a statement, as facts. *)
Ltac db_facts :=
  bool_facts;
  repeat match goal with
  | H : bool_decide _ = true |- _ => apply bool_decide_eq_true in H
  | H : String.eqb _ _ = true |- _ => apply String.eqb_eq in H
  end.

Lemma max_seq_ge es e : e ∈ es → e_seq e ≤ max_seq es.
Proof.
  induction es as [|x es IH]; [by intros ?%elem_of_nil|]. unfold max_seq in *.
  intros [-> | ?%IH]%elem_of_cons; cbn; lia.
Qed.

Section enqueue.
Context `{JsonbLib}.

(** The delivery an event subscription is owed for an event. *)
Definition owed (s : Subscription) (e : Event) : Prop := kind s = KindEvent ∧ sub_matches s e = Ok true.
Definition key_of (s : Subscription) (e : Event) : string * Target := (sub_id s, ForEvent (e_id e)).

(** The live window of a run from watermark [w] to [w']. *)
Definition live (s : Subscription) (w w' : Z) (e : Event) : Prop :=
  active s = true ∧ starting_seq s < e_seq e ∧ w < e_seq e ≤ w'.

Lemma enqueue_events_spec batch now db n db' :
  0 ≤ batch → enqueue_events batch now db = Ok (n, db') →
  last_seq db' = Z.max (last_seq db) (Z.min (last_seq db + batch) (max_seq (events db)))
  ∧ subs db' = subs db ∧ last_upgrade_id db' = last_upgrade_id db
  ∧ ∃ rows, inserted now rows n db db'
    ∧ ∀ k, k ∈ rows ↔ ∃ s e, s ∈ subs db ∧ e ∈ events db ∧ k = key_of s e ∧ owed s e
                             ∧ live s (last_seq db) (last_seq db') e.
Proof.
  intros Hb. unfold enqueue_events.
  destruct (Z.leb_spec (max_seq (events db)) (last_seq db)) as [Hle|Hgt].
  - intros [= <- <-]. split; [lia|]. split; [done|]. split; [done|]. exists []. split.
    + split; [exists []; rewrite app_nil_r; split; [done|split; [done|constructor]]|done|done| |done|done].
      intros k. rewrite elem_of_nil. tauto.
    + intros k. rewrite elem_of_nil. split; [done|]. intros (s & e & _ & He & _ & _ & _ & _ & ?). lia.
  - set (upper := Z.min (last_seq db + batch) (max_seq (events db))).
    destruct (filter_r _ _) as [rows|] eqn:Er; [|done]. cbn [mbind result_bind].
    destruct (insert_deliveries_spec now (event_row <$> rows) db) as (m & db1 & -> & Hi & Hs & Hl & Hu).
    intros [= <- <-]. cbn [last_seq set_last_seq subs last_upgrade_id].
    split; [lia|]. split; [done|]. split; [done|]. exists (event_row <$> rows).
    split; [by destruct Hi; split|]. intros k. rewrite list_elem_of_fmap.
    setoid_rewrite (filter_r_Ok _ _ _ Er). setoid_rewrite elem_of_join.
    unfold live, owed, key_of, event_row. split.
    + intros ([e s] & -> & (He & Hsu & Hc) & Hm). cbn in *. db_facts.
      exists s, e. split; [done|]. split; [done|]. split; [done|]. split; [done|]. split; [done|]. lia.
    + intros (s & e & Hsu & He & -> & [Hk Hm] & Ha & Hst & Hw). exists (e, s). cbn.
      split; [done|]. split; [|done]. split; [done|]. split; [done|].
      rewrite Ha, (bool_decide_eq_true_2 _ Hk). cbn. apply andb_true_iff.
      split; [apply Z.ltb_lt; lia|apply Z.leb_le; lia].
Qed.

(** ** Lemmas: a run of [enqueue] *)

(** What no run changes of a subscription. *)
Definition core (s : Subscription) : Subscription := set_backfill None s.
Definition cores (db : WebhookDb) : list Subscription := core <$> subs db.

(** How a run may change the tables: rows are only added, each once, and only
    for an event its subscription matches (or for an upgrade). *)
Record evolves (now : Z) (db db' : WebhookDb) : Prop := {
  ev_rows : ∃ new, deliveries db' = deliveries db ++ new ∧ Forall (fresh_row now) new;
  ev_nodup : NoDup (dkeys db) → NoDup (dkeys db');
  ev_ids : ids_ok db → ids_ok db';
  ev_sound : ∀ k, k ∈ dkeys db' → k ∈ dkeys db
    ∨ (∃ s e, s ∈ cores db ∧ e ∈ events db ∧ k = key_of s e ∧ owed s e) ∨ (∃ id v, k = (id, ForUpgrade v));
  ev_events : events db' = events db;
  ev_versions : versions db' = versions db;
  ev_cores : cores db' = cores db;
}.

Lemma evolves_keys now db db' k : evolves now db db' → k ∈ dkeys db → k ∈ dkeys db'.
Proof. intros [(new & Hd & _)]. unfold dkeys. rewrite Hd, fmap_app, elem_of_app. tauto. Qed.

#[local] Instance evolves_preorder now : PreOrder (evolves now).
Proof.
  split.
  - intros db. split; [exists []; rewrite app_nil_r; by split|tauto|tauto|tauto|done|done|done].
  - intros a b c [(n1 & E1 & F1) Hn1 Hi1 Hs1 He1 Hv1 Hc1] [(n2 & E2 & F2) Hn2 Hi2 Hs2 He2 Hv2 Hc2].
    split; [|tauto|tauto| |congruence..].
    + exists (n1 ++ n2). rewrite E2, E1, app_assoc. split; [done|by apply Forall_app].
    + intros k [Hk|[(s & e & Hs & He & ?)|?]]%Hs2; [by apply Hs1| |tauto].
      right. left. exists s, e. by rewrite <-Hc1, <-He1.
Qed.

Lemma elem_of_cores s db : s ∈ subs db → core s ∈ cores db.
Proof. intros Hs. unfold cores. by apply list_elem_of_fmap_2. Qed.

Lemma cores_update id b db : cores (update_sub id (set_backfill b) db) = cores db.
Proof.
  unfold cores, update_sub. cbn [subs set_subs]. rewrite <-list_fmap_compose. apply list_fmap_ext.
  intros _ s _. cbn. by destruct (String.eqb _ _).
Qed.

Lemma inserted_evolves now rows n db db' : inserted now rows n db db' → cores db' = cores db →
  (∀ k, k ∈ rows → (∃ s e, s ∈ cores db ∧ e ∈ events db ∧ k = key_of s e ∧ owed s e) ∨ (∃ id v, k = (id, ForUpgrade v))) →
  evolves now db db'.
Proof.
  intros [(new & Hd & _ & Hf) Hn Hi Hk He Hv] Hc Hrows. split; [by exists new|done|done| |done|done|done].
  intros k [Hin|Hin]%Hk; [by left|right; by apply Hrows].
Qed.

Lemma enqueue_events_evolves batch now db n db' :
  0 ≤ batch → enqueue_events batch now db = Ok (n, db') → evolves now db db'.
Proof.
  intros Hb He. destruct (enqueue_events_spec _ _ _ _ _ Hb He) as (_ & Hs & _ & rows & Hi & Hk).
  eapply inserted_evolves; [done|unfold cores; by rewrite Hs|]. intros k Hin. apply Hk in Hin.
  destruct Hin as (s & e & Hsu & Hev & -> & Ho & _). left. exists (core s), e. by split; [apply elem_of_cores|].
Qed.

Lemma enqueue_upgrades_spec batch now db n db' : enqueue_upgrades batch now db = (n, db') →
  evolves now db db' ∧ last_seq db' = last_seq db ∧ subs db' = subs db.
Proof.
  unfold enqueue_upgrades. destruct (_ <=? _); [by intros [= <- <-]|].
  match goal with |- context [insert_deliveries now ?r db] => set (rows := r) end.
  destruct (insert_deliveries_spec now rows db) as (m & db1 & -> & Hi & Hs & Hl & Hu). intros [= <- <-].
  split; [|by cbn]. eapply inserted_evolves; [by destruct Hi; split|unfold cores; cbn; by rewrite Hs|].
  intros k Hk. right. subst rows. apply list_elem_of_fmap in Hk as (p & -> & _). eauto.
Qed.

(** The cursor after one turn of a backfill. *)
Definition next_cursor (batch b st : Z) : option Z :=
  let upper := Z.min (b + batch) st in if st <=? upper then None else Some upper.

Lemma backfill_one_spec batch now id b st db n db' :
  0 ≤ batch → backfill_one batch now id b st db = Ok (n, db') →
  evolves now db db' ∧ last_seq db' = last_seq db
  ∧ subs db' = subs (update_sub id (set_backfill (next_cursor batch b st)) db)
  ∧ ∀ s e, s ∈ subs db → sub_id s = id → e ∈ events db → owed s e → b < e_seq e ≤ Z.min (b + batch) st →
           key_of s e ∈ dkeys db'.
Proof.
  intros Hb. unfold backfill_one, next_cursor. destruct (Z.leb_spec st b) as [Hle|Hgt].
  - intros [= <- <-]. rewrite (proj2 (Z.leb_le st _)) by lia. split; [|split; [done|split; [done|lia]]].
    split; [exists []; rewrite app_nil_r; by split|done|done| |done|done|apply cores_update]. intros k Hk. by left.
  - destruct (filter_r _ _) as [rows|] eqn:Er; [|done]. cbn [mbind result_bind].
    destruct (insert_deliveries_spec now (event_row <$> rows) db) as (m & db1 & -> & Hi & Hs & Hl & Hu).
    intros [= <- <-]. pose proof (filter_r_Ok _ _ _ Er) as Hr. setoid_rewrite elem_of_join in Hr.
    split; [|split; [done|split; [unfold update_sub; cbn; by rewrite Hs|]]].
    + eapply inserted_evolves; [by destruct Hi; split|rewrite cores_update; unfold cores; by rewrite Hs|].
      intros k ([e s] & -> & Hp)%list_elem_of_fmap. apply Hr in Hp as ((He & Hsu & Hc) & Hm). cbn in *. db_facts.
      left. exists (core s), e. split; [by apply elem_of_cores|]. done.
    + intros s e Hsu Hid He [Hkd Hm] Hw. unfold dkeys. cbn. apply (i_keys _ _ _ _ _ Hi). right.
      apply list_elem_of_fmap. exists (e, s). split; [done|]. apply Hr. cbn. split; [|done].
      split; [done|]. split; [done|]. rewrite Hid, String.eqb_refl, (bool_decide_eq_true_2 _ Hkd). cbn.
      apply andb_true_iff. split; [apply Z.ltb_lt|apply Z.leb_le]; lia.
Qed.

Lemma backfill_loop_evolves batch now cursors total db r db' :
  0 ≤ batch → backfill_loop batch now cursors total db = (r, db') → evolves now db db' ∧ last_seq db' = last_seq db.
Proof.
  intros Hb. revert total db. induction cursors as [|[[id b] st] cursors IH]; intros total db; cbn [backfill_loop].
  - intros [= _ <-]. by split.
  - destruct (backfill_one _ _ _ _ _ _) as [[n db1]|] eqn:E; [|by intros [= _ <-]].
    apply backfill_one_spec in E as (Hev & Hl & _ & _); [|done]. intros [Hev' Hl']%IH.
    split; [by etransitivity|by rewrite Hl'].
Qed.

Lemma enqueue_evolves batch now db r db' : 0 ≤ batch → enqueue batch now db = (r, db') → evolves now db db'.
Proof.
  intros Hb Hr. unfold enqueue in Hr. destruct (enqueue_events batch now db) as [[n db1]|] eqn:E1; [|by injection Hr as _ <-].
  apply enqueue_events_evolves in E1; [|done].
  destruct (enqueue_upgrades batch now db1) as [m db2] eqn:E2. apply enqueue_upgrades_spec in E2 as (E2 & _ & _).
  destruct (enqueue_backfill batch now db2) as [r3 db3] eqn:E3. apply backfill_loop_evolves in E3 as [E3 _]; [|done].
  assert (db' = db3) as -> by (by destruct r3; injection Hr). by repeat (etransitivity; [eassumption|]).
Qed.

(** ** Histories *)

(** One step of the webhook store: an event becomes visible (at any sequence
    number: the poller draws it before its transaction commits), an interface
    version appears, [enqueue] runs (and fails or not), or the delivery side and
    the API change the rows' other columns. The second component collects the
    events that became visible late, when the watermark had already passed
    their sequence number. *)
Inductive wstep : WebhookDb * list Event → WebhookDb * list Event → Prop :=
  | w_event e db late :
      wstep (db, late)
            ({| events := events db ++ [e]; versions := versions db; subs := subs db;
                deliveries := deliveries db; next_id := next_id db; last_seq := last_seq db;
                last_upgrade_id := last_upgrade_id db |},
             if e_seq e <=? last_seq db then e :: late else late)
  | w_version v db late :
      wstep (db, late)
            ({| events := events db; versions := versions db ++ [v]; subs := subs db;
                deliveries := deliveries db; next_id := next_id db; last_seq := last_seq db;
                last_upgrade_id := last_upgrade_id db |}, late)
  | w_enqueue batch now r db db' late : 0 ≤ batch → enqueue batch now db = (r, db') → wstep (db, late) (db', late)
  | w_work ds db late :
      dkey <$> ds = dkeys db →
      wstep (db, late)
            ({| events := events db; versions := versions db; subs := subs db;
                deliveries := ds; next_id := next_id db; last_seq := last_seq db;
                last_upgrade_id := last_upgrade_id db |}, late).

Definition start (ss : list Subscription) (w : Z) : WebhookDb :=
  {| events := []; versions := []; subs := ss; deliveries := []; next_id := 1; last_seq := w;
     last_upgrade_id := 0 |}.

(** The invariant of a history. *)
Record inv (late : list Event) (db : WebhookDb) : Prop := {
  inv_nodup : NoDup (dkeys db);
  inv_complete : ∀ s e, s ∈ cores db → e ∈ events db → e ∉ late → owed s e → active s = true →
    starting_seq s < e_seq e ≤ last_seq db → key_of s e ∈ dkeys db;
  inv_sound : ∀ id ev, (id, ForEvent ev) ∈ dkeys db →
    ∃ s e, s ∈ cores db ∧ e ∈ events db ∧ owed s e ∧ key_of s e = (id, ForEvent ev);
}.

(** Any run that keeps the events and the subscriptions keeps the invariant, if
    it covers what its watermark passes. *)
Lemma inv_evolves late now db db' : evolves now db db' → inv late db → last_seq db ≤ last_seq db' →
  (∀ s e, s ∈ cores db → e ∈ events db → owed s e → active s = true → starting_seq s < e_seq e →
          last_seq db < e_seq e ≤ last_seq db' → key_of s e ∈ dkeys db') → inv late db'.
Proof.
  intros Hev [Hn Hc Hs] Hl Hlive. pose proof Hev as [_ Hnd _ Hsd He Hv Hcs]. split; [by apply Hnd| |].
  - intros s e Hsin Hein Hnl Ho Ha Hw. rewrite Hcs in Hsin. rewrite He in Hein.
    destruct (Z.le_gt_cases (e_seq e) (last_seq db)).
    + eapply evolves_keys; [done|]. apply Hc; [done..|lia].
    + apply Hlive; [done..|lia|lia].
  - rewrite Hcs, He. intros id ev [Hk|[(s & e & Hsin & Hein & Hk & Ho)|(i & v & Hk)]]%Hsd; [by apply Hs| |done].
    exists s, e. by rewrite Hk.
Qed.

Lemma inv_step c c' : wstep c c' → inv c.2 c.1 → inv c'.2 c'.1.
Proof.
  intros Hst [Hn Hc Hs]. destruct Hst as [e db late|v db late|batch now r db db' late Hb Hr|ds db late Hk]; cbn [fst snd] in *.
  - split; [done| |].
    + intros s e' Hsin Hein Hnl Ho Ha Hw. cbn in Hw.
      assert (e' ∉ late) as Hnl' by (destruct (_ <=? _); [|done]; by intros ?; apply Hnl; right).
      apply elem_of_app in Hein as [Hein | ->%list_elem_of_singleton]; [by apply Hc|].
      exfalso. apply Hnl. rewrite (proj2 (Z.leb_le _ _) (proj2 Hw)). left.
    + intros id ev (s & e' & Hsin & Hein & Ho & Hk)%Hs. exists s, e'. split; [done|]. split; [|done].
      cbn. apply elem_of_app. by left.
  - split; [exact Hn|exact Hc|exact Hs].
  - unfold enqueue in Hr. destruct (enqueue_events batch now db) as [[n db1]|] eqn:E1; [|by injection Hr as _ <-].
    destruct (enqueue_events_spec _ _ _ _ _ Hb E1) as (Hl1 & Hs1 & _ & rows & Hi & Hrows).
    pose proof (enqueue_events_evolves _ _ _ _ _ Hb E1) as Hev1.
    assert (inv late db1) as Hinv1.
    { eapply inv_evolves; [done|by split|lia|]. intros s e Hsin Hein Ho Ha Hst Hw. apply (i_keys _ _ _ _ _ Hi). right.
      apply list_elem_of_fmap in Hsin as (s0 & -> & Hs0). apply Hrows. exists s0, e. done. }
    destruct (enqueue_upgrades batch now db1) as [m db2] eqn:E2. apply enqueue_upgrades_spec in E2 as (Hev2 & Hl2 & Hs2).
    destruct (enqueue_backfill batch now db2) as [r3 db3] eqn:E3. apply backfill_loop_evolves in E3 as [Hev3 Hl3]; [|done].
    assert (db' = db3) as -> by (by destruct r3; injection Hr).
    eapply inv_evolves; [exact (transitivity Hev2 Hev3)|done|lia|]. intros. lia.
  - split; unfold dkeys; cbn; rewrite Hk; [exact Hn|exact Hc|exact Hs].
Qed.

(** C4: In every history of indexing (events becoming visible in any order),
    enqueueing (batches of any size, failing or not) and delivery work over
    fixed subscriptions, an active event subscription has exactly one delivery
    for every matching event between its starting point and the watermark that
    did not become visible late, after the watermark had passed its sequence
    number. A late event may have none ([late_commit_skipped]), but no event,
    late or not, has two for one subscription, and no delivery is for an event
    its subscription does not match. *)
Theorem exactly_one_delivery ss w db late :
  rtc wstep (start ss w, []) (db, late) →
  (∀ s e, s ∈ subs db → e ∈ events db → e ∉ late → owed s e → active s = true →
     starting_seq s < e_seq e ≤ last_seq db →
     length (base.filter (λ k, k = key_of s e) (dkeys db)) = 1%nat)
  ∧ NoDup (dkeys db)
  ∧ ∀ d ev, d ∈ deliveries db → target d = ForEvent ev →
      ∃ s e, s ∈ subs db ∧ e ∈ events db ∧ sub_id s = subscription_id d ∧ e_id e = ev ∧ owed s e.
Proof.
  intros Hr. assert (inv [] (start ss w)) as H0.
  { split; [constructor| |]; [by intros s e _ ?%elem_of_nil|by intros id ev ?%elem_of_nil]. }
  assert (∀ c c', rtc wstep c c' → inv c.2 c.1 → inv c'.2 c'.1) as Hall.
  { intros c c'. induction 1 as [|x y z Hst _ IH]; [done|]. intros Hx. by apply IH, (inv_step x y). }
  destruct (Hall _ _ Hr H0) as [Hn Hc Hs]. cbn [fst snd] in *. split; [|split; [done|]].
  - intros s e Hsin Hein Hnl Ho Ha Hw.
    pose proof (Hc (core s) e (elem_of_cores _ _ Hsin) Hein Hnl Ho Ha Hw) as Hk. by apply NoDup_filter_singleton.
  - intros d ev Hd Ht. destruct (Hs (subscription_id d) ev) as (c & e & Hcin & Hein & Ho & Hk).
    { apply list_elem_of_fmap. exists d. unfold dkey. by rewrite Ht. }
    apply list_elem_of_fmap in Hcin as (s & -> & Hsin). injection Hk as Hk1 Hk2. exists s, e. done.
Qed.

(** ** Catching up *)

(** No stored filter makes the statement fail on a stored event. *)
Definition castable (db : WebhookDb) : Prop :=
  ∀ s e, s ∈ cores db → e ∈ events db → ∃ b, sub_matches s e = Ok b.

Lemma castable_rows db p : castable db →
  ∃ r, filter_r (λ p, sub_matches p.2 p.1) (join_rows p (events db) (subs db)) = Ok r.
Proof.
  intros Hc. apply filter_r_total. intros [e s] (He & Hs & _)%elem_of_join.
  apply (Hc (core s) e); [by apply elem_of_cores|done].
Qed.

Lemma castable_evolves now db db' : evolves now db db' → castable db → castable db'.
Proof. intros [_ _ _ _ He _ Hc] Hca s e. rewrite He, Hc. apply Hca. Qed.

Lemma enqueue_events_total batch now db : castable db → ∃ n db', enqueue_events batch now db = Ok (n, db').
Proof.
  intros Hc. unfold enqueue_events. destruct (_ <=? _); [eauto|].
  match goal with |- context [join_rows ?p _ _] => destruct (castable_rows db p Hc) as [r ->] end.
  cbn [mbind result_bind]. destruct (insert_deliveries _ _ _); eauto.
Qed.

(** [n] ticks of the enqueue loop of [main.rs] on the event stream. *)
Fixpoint enqueue_runs (n : nat) (batch now : Z) (db : WebhookDb) : WebhookDb :=
  match n with
  | O => db
  | S n => match enqueue_events batch now db with
           | Ok (_, db') => enqueue_runs n batch now db'
           | Err _ => db
           end
  end.

Lemma runs_keep_keys n batch now db k : 0 ≤ batch → castable db →
  k ∈ dkeys db → k ∈ dkeys (enqueue_runs n batch now db).
Proof.
  intros Hb. revert db. induction n as [|n IH]; intros db Hc Hk; [done|]. cbn [enqueue_runs].
  destruct (enqueue_events_total batch now db Hc) as (m & db2 & E). rewrite E.
  pose proof (enqueue_events_evolves _ _ _ _ _ Hb E) as Hev.
  apply IH; [by eapply castable_evolves|by eapply evolves_keys].
Qed.


(** ** Backfills *)

Lemma elem_of_update_sub id f s db : s ∈ subs db →
  (if String.eqb (sub_id s) id then f s else s) ∈ subs (update_sub id f db).
Proof. intros Hs. unfold update_sub. cbn. apply list_elem_of_fmap. by exists s. Qed.

Lemma backfill_loop_spec batch now cursors total db n db' :
  0 ≤ batch → NoDup (cursors.*1.*1) → backfill_loop batch now cursors total db = (Ok n, db') →
  (∀ s, s ∈ subs db → sub_id s ∉ cursors.*1.*1 → s ∈ subs db')
  ∧ ∀ s b st, s ∈ subs db → (sub_id s, b, st) ∈ cursors →
      set_backfill (next_cursor batch b st) s ∈ subs db'
      ∧ ∀ e, e ∈ events db → owed s e → b < e_seq e ≤ Z.min (b + batch) st → key_of s e ∈ dkeys db'.
Proof.
  intros Hb. revert total db. induction cursors as [|[[id b] st] cursors IH]; intros total db Hnd; cbn [backfill_loop].
  - intros [= <- <-]. split; [done|]. by intros s b st _ ?%elem_of_nil.
  - cbn in Hnd. apply NoDup_cons in Hnd as [Hid Hnd].
    destruct (backfill_one _ _ _ _ _ _) as [[m db1]|] eqn:E; [|done].
    apply backfill_one_spec in E as (Hev & Hl & Hs & Hk); [|done]. intros Hloop.
    pose proof (backfill_loop_evolves _ _ _ _ _ _ _ Hb Hloop) as [Hev' _].
    destruct (IH _ _ Hnd Hloop) as [Hother Hthis]. split.
    + intros s Hsin Hnot. cbn in Hnot. apply not_elem_of_cons in Hnot as [Hne Hnot]. apply Hother; [|done].
      rewrite Hs. pose proof (elem_of_update_sub id (set_backfill (next_cursor batch b st)) s db Hsin) as Hu.
      by rewrite (proj2 (String.eqb_neq _ _) Hne) in Hu.
    + intros s b' st' Hsin [Heq|Hin]%elem_of_cons.
      * injection Heq as Hsid -> ->. split.
        -- apply Hother; [|cbn; by rewrite Hsid]. rewrite Hs.
           pose proof (elem_of_update_sub id (set_backfill (next_cursor batch b st)) s db Hsin) as Hu.
           by rewrite (proj2 (String.eqb_eq _ _) Hsid) in Hu.
        -- intros e He Ho Hw. eapply evolves_keys; [done|]. by apply Hk.
      * assert (sub_id s ≠ id) as Hne.
        { intros <-. apply Hid. apply list_elem_of_fmap. exists (sub_id s, b'). split; [done|].
          apply list_elem_of_fmap. by exists (sub_id s, b', st'). }
        destruct (Hthis s b' st') as [Hs' Hk']; [|done|].
        { rewrite Hs. pose proof (elem_of_update_sub id (set_backfill (next_cursor batch b st)) s db Hsin) as Hu.
          by rewrite (proj2 (String.eqb_neq _ _) Hne) in Hu. }
        split; [done|]. intros e He. apply Hk'. by rewrite (ev_events _ _ _ Hev).
Qed.

Lemma backfill_loop_total batch now cursors total db :
  0 ≤ batch → castable db → ∃ n db', backfill_loop batch now cursors total db = (Ok n, db').
Proof.
  intros Hb. revert total db. induction cursors as [|[[id b] st] cursors IH]; intros total db Hc; cbn [backfill_loop]; [eauto|].
  assert (∃ m db1, backfill_one batch now id b st db = Ok (m, db1)) as (m & db1 & E).
  { unfold backfill_one. destruct (_ <=? _); [eauto|].
    match goal with |- context [join_rows ?p _ _] => destruct (castable_rows db p Hc) as [r ->] end.
    cbn [mbind result_bind]. destruct (insert_deliveries _ _ _); eauto. }
  rewrite E. apply backfill_one_spec in E as (Hev & _ & _ & _); [|done]. apply IH. by eapply castable_evolves.
Qed.

Definition cursors_of (db : WebhookDb) : list (string * Z * Z) :=
  omap (λ s, if active s then (λ b, (sub_id s, b, starting_seq s)) <$> backfill_seq s else None) (subs db).

Lemma elem_of_cursors id b st db : (id, b, st) ∈ cursors_of db ↔
  ∃ s, s ∈ subs db ∧ active s = true ∧ backfill_seq s = Some b ∧ sub_id s = id ∧ starting_seq s = st.
Proof.
  unfold cursors_of. rewrite list_elem_of_omap. split.
  - intros (s & Hs & E). exists s. destruct (active s); [|done]. destruct (backfill_seq s); naive_solver.
  - intros (s & Hs & Ha & Hb & <- & <-). exists s. by rewrite Ha, Hb.
Qed.

Lemma cursors_NoDup db : NoDup (sub_id <$> subs db) → NoDup ((cursors_of db).*1.*1).
Proof.
  unfold cursors_of. induction (subs db) as [|s l IH]; [constructor|]. cbn. intros [Hs Hn]%NoDup_cons.
  specialize (IH Hn). destruct (active s); [|done]. destruct (backfill_seq s) as [b|]; [|done]. cbn.
  apply NoDup_cons. split; [|done]. intros Hin. apply Hs. clear -Hin.
  induction l as [|s' l IHl]; [by apply elem_of_nil in Hin|]. cbn in Hin |- *.
  destruct (active s'); [destruct (backfill_seq s')|]; cbn in Hin; rewrite ?elem_of_cons in *; tauto.
Qed.

Lemma sub_ids_cores db : sub_id <$> subs db = sub_id <$> cores db.
Proof. unfold cores. rewrite <-list_fmap_compose. by apply list_fmap_ext. Qed.

Lemma NoDup_fmap_inj_in {A B} (f : A → B) l x y : NoDup (f <$> l) → x ∈ l → y ∈ l → f x = f y → x = y.
Proof.
  induction l as [|z l IH]; cbn; [by intros _ ?%elem_of_nil|]. intros [Hz Hn]%NoDup_cons.
  rewrite !elem_of_cons. intros [-> | Hx] [-> | Hy] Hf; [done| | |by apply IH].
  - destruct Hz. rewrite Hf. by apply list_elem_of_fmap_2.
  - destruct Hz. rewrite <-Hf. by apply list_elem_of_fmap_2.
Qed.

(** One round of [enqueue_backfill]. *)
Lemma backfill_round batch now db : 0 ≤ batch → castable db → NoDup (sub_id <$> subs db) →
  evolves now db (enqueue_backfill batch now db).2
  ∧ (∀ s, s ∈ subs db → active s = true → backfill_seq s = None → s ∈ subs (enqueue_backfill batch now db).2)
  ∧ ∀ s b, s ∈ subs db → active s = true → backfill_seq s = Some b →
      set_backfill (next_cursor batch b (starting_seq s)) s ∈ subs (enqueue_backfill batch now db).2
      ∧ ∀ e, e ∈ events db → owed s e → b < e_seq e ≤ Z.min (b + batch) (starting_seq s) →
             key_of s e ∈ dkeys (enqueue_backfill batch now db).2.
Proof.
  intros Hb Hc Hnd. unfold enqueue_backfill. fold (cursors_of db).
  destruct (backfill_loop_total batch now (cursors_of db) 0 db Hb Hc) as (n & db' & E). rewrite E. cbn [snd].
  destruct (backfill_loop_evolves _ _ _ _ _ _ _ Hb E) as [Hev _].
  destruct (backfill_loop_spec _ _ _ _ _ _ _ Hb (cursors_NoDup _ Hnd) E) as [Hother Hthis].
  split; [done|]. split.
  - intros s Hs Ha Hnone. apply Hother; [done|]. intros ([? b] & Hid & Hin)%list_elem_of_fmap. cbn in Hid. subst.
    apply list_elem_of_fmap in Hin as ([[i b'] st] & Heq & Hin). cbn in Heq. simplify_eq.
    apply elem_of_cursors in Hin as (s' & Hs' & _ & Hb' & Hid & _).
    rewrite (NoDup_fmap_inj_in sub_id (subs db) s' s) in Hb' by done. congruence.
  - intros s b Hs Ha Hb'. apply Hthis; [done|]. apply elem_of_cursors. by exists s.
Qed.

Fixpoint backfill_rounds (n : nat) (batch now : Z) (db : WebhookDb) : WebhookDb :=
  match n with
  | O => db
  | S n => backfill_rounds n batch now (enqueue_backfill batch now db).2
  end.

Lemma rounds_done n batch now db s : 0 ≤ batch → castable db → NoDup (sub_id <$> subs db) →
  s ∈ subs db → active s = true → backfill_seq s = None →
  evolves now db (backfill_rounds n batch now db) ∧ s ∈ subs (backfill_rounds n batch now db).
Proof.
  intros Hb. revert db. induction n as [|n IH]; intros db Hc Hnd Hs Ha Hnone; cbn [backfill_rounds]; [by split|].
  destruct (backfill_round batch now db Hb Hc Hnd) as (Hev & Hkeep & _).
  destruct (IH (enqueue_backfill batch now db).2) as [Hev' Hs'].
  - by eapply castable_evolves.
  - by rewrite sub_ids_cores, (ev_cores _ _ _ Hev), <-sub_ids_cores.
  - by apply Hkeep.
  - done.
  - done.
  - split; [by etransitivity|done].
Qed.

Lemma rounds_keep_keys n batch now db k : 0 ≤ batch → castable db → NoDup (sub_id <$> subs db) →
  k ∈ dkeys db → k ∈ dkeys (backfill_rounds n batch now db).
Proof.
  intros Hb. revert db. induction n as [|n IH]; intros db Hc Hnd Hk; [done|]. cbn [backfill_rounds].
  destruct (backfill_round batch now db Hb Hc Hnd) as (Hev & _ & _).
  apply IH; [by eapply castable_evolves| |by eapply evolves_keys].
  by rewrite sub_ids_cores, (ev_cores _ _ _ Hev), <-sub_ids_cores.
Qed.

(** A subscription created with a backfill gets it completely: after enough
    rounds (its window divided by [batch], and one more) its cursor is cleared
    and it has its delivery for every matching event of the window
    [(backfill_seq, starting_seq]]. *)
Theorem backfill_completes n batch now db s b :
  castable db → NoDup (sub_id <$> subs db) → 0 < batch →
  s ∈ subs db → active s = true → backfill_seq s = Some b →
  starting_seq s - b ≤ Z.of_nat n * batch → (0 < n)%nat →
  set_backfill None s ∈ subs (backfill_rounds n batch now db)
  ∧ ∀ e, e ∈ events db → owed s e → b < e_seq e ≤ starting_seq s → key_of s e ∈ dkeys (backfill_rounds n batch now db).
Proof.
  revert db s b. induction n as [|n IH]; intros db s b Hc Hnd Hb Hs Ha Hbf Hn Hpos; [lia|]. cbn [backfill_rounds].
  destruct (backfill_round batch now db ltac:(lia) Hc Hnd) as (Hev & _ & Hround).
  destruct (Hround s b Hs Ha Hbf) as [Hs1 Hk1]. set (db1 := (enqueue_backfill batch now db).2) in *.
  assert (castable db1) as Hc1 by by eapply castable_evolves.
  assert (NoDup (sub_id <$> subs db1)) as Hnd1 by (by rewrite sub_ids_cores, (ev_cores _ _ _ Hev), <-sub_ids_cores).
  unfold next_cursor in Hs1. destruct (Z.leb_spec (starting_seq s) (Z.min (b + batch) (starting_seq s))) as [Hle|Hgt].
  - destruct (rounds_done n batch now db1 (set_backfill None s)) as [Hev2 Hs2]; [lia|done..|].
    split; [done|]. intros e He Ho Hw. eapply evolves_keys; [done|]. apply Hk1; [done|done|lia].
  - destruct (IH db1 (set_backfill (Some (Z.min (b + batch) (starting_seq s))) s) (Z.min (b + batch) (starting_seq s)))
      as [Hs2 Hk2]; [done|done|done|done|done|done|cbn; lia| |].
    { destruct n; [|lia]. lia. }
    split; [exact Hs2|]. intros e He Ho Hw. destruct (Z.le_gt_cases (e_seq e) (Z.min (b + batch) (starting_seq s))).
    + apply rounds_keep_keys; [lia|done|done|]. apply Hk1; [done|done|lia].
    + apply Hk2; [by rewrite (ev_events _ _ _ Hev)|done|cbn; lia].
Qed.

(** ** Where the stream loses or stops *)

Lemma filter_r_Err {A} (f : A → result DbError bool) l x :
  x ∈ l → f x = Err CastError → filter_r f l = Err CastError.
Proof.
  induction l as [|y l IH]; [by intros ?%elem_of_nil|]. cbn [filter_r]. intros [-> | Hx]%elem_of_cons Hf.
  - by rewrite Hf.
  - destruct (f y) as [b|[]]; [|done]. cbn. by rewrite IH.
Qed.

(** One subscription whose [topic0] filter is a text that is not JSON (the
    plain name [transfer], say) stops both streams and all backfills, for
    everyone, at the first event it could match. *)
Lemma poison_filter_stalls batch now db s e f t :
  s ∈ subs db → e ∈ events db → active s = true → kind s = KindEvent →
  starting_seq s < e_seq e → last_seq db < e_seq e ≤ last_seq db + batch →
  contract_matches s (e_contract_id e) = true → name_matches s (e_event_name e) = true →
  filter s = Some f → text_clause f "contract_id" (Some (e_contract_id e)) = true →
  text_clause f "event_name" (e_event_name e) = true →
  json_get "topic0" f = Some (JStr t) → jsonb_cast t = None →
  enqueue batch now db = (Err CastError, db).
Proof.
  intros Hs He Ha Hk Hst Hw Hcm Hnm Hf Hc1 Hc2 Ht Hcast. unfold enqueue, enqueue_events.
  pose proof (max_seq_ge _ _ He) as Hmax.
  destruct (Z.leb_spec (max_seq (events db)) (last_seq db)); [lia|].
  rewrite (filter_r_Err _ _ (e, s)); [done| |].
  - apply elem_of_join. cbn. split; [done|]. split; [done|]. rewrite Ha, (bool_decide_eq_true_2 _ Hk). cbn.
    apply andb_true_iff. split; [apply Z.ltb_lt|apply Z.leb_le]; lia.
  - change (sub_matches s e = Err CastError). unfold sub_matches. rewrite Hcm, Hnm, Hf. cbn [andb and_r].
    assert (has_key f "topic0" = true) as Hkey.
    { destruct f; try discriminate. unfold has_key. apply bool_decide_eq_true. rewrite Ht. by eexists. }
    destruct f as [| | | | | |m]; try discriminate. destruct m as [|p m]; [discriminate|].
    unfold filter_matches. rewrite Hc1, Hc2. cbn [and_r].
    unfold topic_clause at 1. rewrite Hkey. cbn [negb]. unfold arrow_text. by rewrite Ht, Hcast.
Qed.

(** An event that becomes visible after the watermark has passed its sequence
    number (sequence numbers are drawn before the commit) is never enqueued. *)
Lemma late_commit_skipped batch now db n db' s e :
  0 ≤ batch → NoDup (e_id <$> events db) → e ∈ events db → e_seq e ≤ last_seq db →
  key_of s e ∉ dkeys db → enqueue_events batch now db = Ok (n, db') → key_of s e ∉ dkeys db'.
Proof.
  intros Hb Hnd He Hw Hk Hrun. destruct (enqueue_events_spec _ _ _ _ _ Hb Hrun) as (_ & _ & _ & rows & Hi & Hrows).
  rewrite (i_keys _ _ _ _ _ Hi), Hrows. intros [?|(s' & e' & _ & He' & Heq & _ & _ & _ & Hw')]; [done|].
  injection Heq as _ Hid. rewrite (NoDup_fmap_inj_in e_id (events db) e e') in Hw by done. lia.
Qed.

End enqueue.

(** ** A concrete [jsonb], and witnesses *)

(** Containment as PostgreSQL documents it, to a depth of [n]. *)
Fixpoint sample_contains (n : nat) (a b : Json) : bool :=
  match n with
  | O => false
  | S n => match a, b with
           | JNull, JNull => true
           | JBool x, JBool y => Bool.eqb x y
           | JInt x, JInt y => x =? y
           | JFloat x, JFloat y | JStr x, JStr y => String.eqb x y
           | JArr l, JArr l' => forallb (λ y, existsb (λ x, sample_contains n x y) l) l'
           | JObj m, JObj m' =>
               forallb (λ q, existsb (λ p, String.eqb p.1 q.1 && sample_contains n p.2 q.2) m) m'
           | _, _ => false
           end
  end.

(** The JSON texts without quotes, brackets and braces. *)
Definition sample_cast (s : string) : option Json :=
  if String.eqb s "null" then Some JNull
  else if String.eqb s "true" then Some (JBool true)
  else if String.eqb s "false" then Some (JBool false)
  else JInt <$> parse_int 64 s.

#[local] Instance sample_jsonb : JsonbLib := {|
  jsonb_contains := sample_contains 8;
  jsonb_cast := sample_cast;
  jsonb_text v := match v with JInt z => show_i z | _ => "" end
|}.

Definition demo_sub : Subscription := {|
  sub_id := "s1"; url := "https://example.com/hook"; active := true; kind := KindEvent;
  s_contract_id := Some "CA"; s_event_name := None; contract_ids := ["CA"; "CB"]; event_names := [];
  filter := Some (JObj [("topic0", JInt 7)]); starting_seq := 2; backfill_seq := Some 0;
  secret := Some "k"; previous_secret := None; previous_secret_expires_at := None;
  consecutive_failures := 0; last_success_at := None; first_failure_at := None; auto_disabled_reason := None
|}.

Definition demo_event (n : Z) (c : string) : Event := {|
  e_seq := n; e_id := show_i n; e_contract_id := c; e_event_name := Some "transfer";
  e_decoded_topics := JArr [JInt 7]; e_enriched := None
|}.

Definition demo_db : WebhookDb := {|
  events := [demo_event 1 "CB"; demo_event 2 "CC"; demo_event 3 "CB"]; versions := []; subs := [demo_sub];
  deliveries := []; next_id := 1; last_seq := 0; last_upgrade_id := 0
|}.

Lemma demo_castable : castable demo_db.
Proof.
  intros s e Hs He. apply list_elem_of_singleton in Hs as ->.
  repeat (apply elem_of_cons in He as [-> | He]; [by eexists|]). by apply elem_of_nil in He.
Qed.

(** The event in the live window is enqueued, and so is the one the backfill owes. *)
Example demo_run :
  dkeys (enqueue 10 100 demo_db).2 = [("s1", ForEvent "3"); ("s1", ForEvent "1")].
Proof. vm_compute. reflexivity. Qed.

Definition demo_db1 : WebhookDb := {|
  events := [demo_event 3 "CB"]; versions := []; subs := [demo_sub]; deliveries := []; next_id := 1;
  last_seq := 0; last_upgrade_id := 0
|}.

(** An event numbered 1 that becomes visible once the watermark is at 3. *)
Definition demo_late : WebhookDb :=
  let db := (enqueue 10 100 demo_db1).2 in
  {| events := events db ++ [demo_event 1 "CB"]; versions := versions db; subs := subs db;
     deliveries := deliveries db; next_id := next_id db; last_seq := last_seq db;
     last_upgrade_id := last_upgrade_id db |}.

Lemma exactly_one_delivery_witness :
  length (base.filter (λ k, k = key_of demo_sub (demo_event 3 "CB")) (dkeys demo_late)) = 1%nat.
Proof.
  apply (proj1 (exactly_one_delivery [demo_sub] 0 demo_late [demo_event 1 "CB"]
    (rtc_l _ _ _ _ (w_event (demo_event 3 "CB") (start [demo_sub] 0) [])
      (rtc_l _ _ _ _ (w_enqueue 10 100 (enqueue 10 100 demo_db1).1 demo_db1 (enqueue 10 100 demo_db1).2 []
                        ltac:(lia) (surjective_pairing _))
        (rtc_l _ _ _ _ (w_event (demo_event 1 "CB") (enqueue 10 100 demo_db1).2 []) (rtc_refl _ _)))))
    (set_backfill None demo_sub)).
  - left.
  - left.
  - intros [Hx|Hx%elem_of_nil]%elem_of_cons; [discriminate Hx|exact Hx].
  - split; reflexivity.
  - reflexivity.
  - vm_compute. split; [reflexivity|discriminate].
Defined.


Lemma backfill_completes_witness :
  key_of demo_sub (demo_event 1 "CB") ∈ dkeys (backfill_rounds 2 1 100 demo_db).
Proof.
  apply (backfill_completes 2 1 100 demo_db demo_sub 0 demo_castable);
    [apply NoDup_singleton|lia|left|reflexivity|reflexivity|cbn; lia|lia|left|split; reflexivity|cbn; lia].
Defined.
