(* ===== verification/Delivery.v ===== *)
(** * Delivery: claiming, sending and retrying webhook deliveries
      ([lumenqraph-webhooks/src/dispatcher.rs], [prune.rs])

    Stage 2 of the pipeline: [fetch_due] leases due rows to a worker,
    [deliver_with_shutdown] sends them and records each outcome, retries back
    off, failing subscriptions are disabled, and old rows are pruned.  The HTTP
    exchange is the outcome the environment gives each send; times are seconds. *)
From S2P Require Import Prelude Text Containers Values Dispatcher.
From Stdlib Require Import Ascii.

Local Open Scope Z_scope.

(** ** Row updates *)

Definition set_deliveries (ds : list Delivery) (db : WebhookDb) : WebhookDb :=
  {| events := events db; versions := versions db; subs := subs db; deliveries := ds;
     next_id := next_id db; last_seq := last_seq db; last_upgrade_id := last_upgrade_id db |}.

(** [UPDATE webhook_deliveries SET .. WHERE id = $1]. *)
Definition update_delivery (id : Z) (f : Delivery → Delivery) (db : WebhookDb) : WebhookDb :=
  set_deliveries ((λ d, if d_id d =? id then f d else d) <$> deliveries db) db.

(** The columns a statement of this file sets. *)
Definition set_outcome (st : Status) (n : Z) (err : option string) (next : Z) (code : option Z)
    (d : Delivery) : Delivery :=
  {| d_id := d_id d; subscription_id := subscription_id d; target := target d; status := st;
     attempts := n; last_error := err; next_attempt_at := next; created_at := created_at d;
     locked_until := None; locked_by := None; last_status_code := code |}.

Definition set_lock (until : Z) (worker : string) (d : Delivery) : Delivery :=
  {| d_id := d_id d; subscription_id := subscription_id d; target := target d; status := status d;
     attempts := attempts d; last_error := last_error d; next_attempt_at := next_attempt_at d;
     created_at := created_at d; locked_until := Some until; locked_by := Some worker;
     last_status_code := last_status_code d |}.

Definition set_health (on : bool) (failures : Z) (success first : option Z) (why : option string)
    (s : Subscription) : Subscription :=
  {| sub_id := sub_id s; url := url s; active := on; kind := kind s; s_contract_id := s_contract_id s;
     s_event_name := s_event_name s; contract_ids := contract_ids s; event_names := event_names s;
     filter := filter s; starting_seq := starting_seq s; backfill_seq := backfill_seq s;
     secret := secret s; previous_secret := previous_secret s;
     previous_secret_expires_at := previous_secret_expires_at s; consecutive_failures := failures;
     last_success_at := success; first_failure_at := first; auto_disabled_reason := why |}.

(** [active = false, auto_disabled_at = now(), auto_disabled_reason = $2]. *)
Definition disable (why : string) (s : Subscription) : Subscription :=
  set_health false (consecutive_failures s) (last_success_at s) (first_failure_at s) (Some why) s.

Definition find_sub (id : string) (db : WebhookDb) : option Subscription :=
  List.find (λ s, String.eqb (sub_id s) id) (subs db).

(** ** Claiming *)

(** [DueDelivery], less the payload. *)
Record DueDelivery := {
  due_id : Z;
  due_sub : string;
  due_attempts : Z;
  due_url : string;
  due_secret : option string;
  due_previous : option string;
  due_target : Target;
}.

Definition LEASE_SECS : Z := 60.

(** [status = 'pending' AND next_attempt_at <= now() AND (locked_until IS NULL OR locked_until < now())]. *)
Definition claimable (now : Z) (d : Delivery) : bool :=
  bool_decide (status d = Pending) && (next_attempt_at d <=? now)
  && match locked_until d with None => true | Some u => u <? now end.

Definition next_attempt_cmp (a b : Delivery) : comparison := next_attempt_at a ?= next_attempt_at b.

(** [ORDER BY next_attempt_at LIMIT $3]. *)
Definition due_rows (batch : nat) (now : Z) (ds : list Delivery) : list Delivery :=
  take batch (sort_by next_attempt_cmp (base.filter (λ d, claimable now d = true) ds)).

Definition lease (now : Z) (worker : string) (ids : list Z) (db : WebhookDb) : WebhookDb :=
  set_deliveries ((λ d, if bool_decide (d_id d ∈ ids) then set_lock (now + LEASE_SECS) worker d else d)
                    <$> deliveries db) db.

(** The row the delivery carries, as the joins of the statement find it. *)
Definition payload_exists (db : WebhookDb) (t : Target) : bool :=
  match t with
  | ForEvent e => existsb (λ r, String.eqb (e_id r) e) (events db)
  | ForUpgrade v => existsb (λ r, v_id r =? v) (versions db)
  end.

(** What the loop over the claimed rows makes of one. *)
Inductive Fetched :=
  | Due (d : DueDelivery)
  | Unusable (msg : string) (disable_reason : option string).

Definition non_empty (o : option string) : option string :=
  match o with Some EmptyString => None | o => o end.

(** [None]: the row's subscription is missing and its [url] does not decode. *)
Definition fetched_row (now : Z) (db : WebhookDb) (d : Delivery) : option Fetched :=
  s ← find_sub (subscription_id d) db;
  let previous := match previous_secret_expires_at s with
                  | Some t => if now <? t then previous_secret s else None
                  | None => None
                  end in
  Some match secret s with
  | None => Unusable "secret unavailable: decryption failed" (Some "secret unavailable: decryption failed")
  | Some EmptyString =>
      Unusable "secret unavailable: empty" (Some "secret unavailable: empty after decryption")
  | Some k =>
      if payload_exists db (target d)
      then Due {| due_id := d_id d; due_sub := subscription_id d; due_attempts := attempts d;
                  due_url := url s; due_secret := Some k; due_previous := non_empty previous;
                  due_target := target d |}
      else Unusable "delivery has neither event_id nor upgrade_id" None
  end.

(** [mark_failed_undecryptable]. *)
Definition mark_failed_undecryptable (id : Z) (msg : string) (db : WebhookDb) : WebhookDb :=
  update_delivery id (λ d, set_outcome Failed (attempts d) (Some msg) (next_attempt_at d) (last_status_code d) d) db.

(** [auto_disable_subscription]. *)
Definition auto_disable_subscription (id : string) (why : string) (db : WebhookDb) : WebhookDb :=
  update_sub id (disable why) db.

Definition fail_unusable (rows : list (Delivery * Fetched)) (db : WebhookDb) : WebhookDb :=
  let db := fold_left (λ db p, match p.2 with
                               | Unusable msg _ => mark_failed_undecryptable (d_id p.1) msg db
                               | Due _ => db
                               end) rows db in
  fold_left (λ db p, match p.2 with
                     | Unusable _ (Some why) => auto_disable_subscription (subscription_id p.1) why db
                     | _ => db
                     end) rows db.

Definition dues_of (rows : list (Delivery * Fetched)) : list DueDelivery :=
  omap (λ p, match p.2 with Due d => Some d | Unusable _ _ => None end) rows.

(** [fetch_due]: the lease is committed by its own statement, whatever follows. *)
Definition fetch_due (batch : nat) (worker : string) (now : Z) (db : WebhookDb)
    : option (list DueDelivery) * WebhookDb :=
  let claimed := due_rows batch now (deliveries db) in
  let db1 := lease now worker (d_id <$> claimed) db in
  match mapM (λ d, p ← fetched_row now db1 d; Some (d, p)) claimed with
  | None => (None, db1)
  | Some rows => (Some (dues_of rows), fail_unusable rows db1)
  end.

(** ** Outcomes *)

(** What [send] returned: the response, [SourcePruned], or another error. *)
Inductive SendResult :=
  | Responded (status_code : option Z) (retry_after : option Z)
  | Pruned (err : string)
  | Errored (err : string).

Definition is_success (status : Z) : bool := (200 <=? status) && (status <=? 299).
Definition is_redirection (status : Z) : bool := (300 <=? status) && (status <=? 399).

Inductive OutcomeError := RedirectNotFollowed (status : Z) | Non2xx (status : Z).

(** [delivery_outcome]. *)
Definition delivery_outcome (status : Z) : result OutcomeError () :=
  if is_success status then Ok tt
  else if is_redirection status then Err (RedirectNotFollowed status)
  else Err (Non2xx status).

(** The [Retry-After] header: [parse::<u64>()], [as i64], and
    [Duration::seconds], which panics ([Some None]) beyond [max_secs]. *)
Definition retry_after_header (max_secs : Z) (v : string) : option (option Z) :=
  match parse_uint 64 v with
  | None => None
  | Some secs => let s := as_signed 64 secs in
                 Some (if (- max_secs <=? s) && (s <=? max_secs) then Some s else None)
  end.

(** The end of [send]: a redirect is an error, any other status an outcome;
    [None] is the panic. *)
Definition send_response (max_secs : Z) (status : Z) (retry_after : option string) : option SendResult :=
  if is_redirection status
  then Some (Errored "redirects are not followed")
  else match retry_after with
       | None => Some (Responded (Some status) None)
       | Some v => match retry_after_header max_secs v with
                   | None => Some (Responded (Some status) None)
                   | Some None => None
                   | Some (Some s) => Some (Responded (Some status) (Some s))
                   end
       end.

(** ** Retrying *)

Definition BACKOFF_CAP_SECS : Z := 3600.
Definition BACKOFF_FLOOR_SECS : Z := 1.

(** [rng.gen_range(0..=w)]. *)
Class Rng := {
  gen_range : Z → Z;
  gen_range_bounds w : 0 ≤ w → 0 ≤ gen_range w ≤ w
}.

(** [2i64.saturating_pow(n)]. *)
Definition saturating_pow2 (n : Z) : Z := Z.min (2 ^ n) (2 ^ 63 - 1).

(** [jittered_backoff], in seconds. *)
Definition jittered_backoff `{Rng} (attempts : Z) : Z :=
  let window := Z.max (Z.min (saturating_pow2 (Z.max attempts 1)) BACKOFF_CAP_SECS) BACKOFF_FLOOR_SECS in
  Z.max (gen_range window) BACKOFF_FLOOR_SECS.

(** [mark_delivered]. *)
Definition mark_delivered (id : Z) (status_code : Z) (db : WebhookDb) : WebhookDb :=
  update_delivery id (λ d, set_outcome Delivered (attempts d + 1) None (next_attempt_at d) (Some status_code) d) db.

(** [mark_retry_with_rng]. *)
Definition mark_retry `{Rng} (d : DueDelivery) (err : string) (max_attempts : Z)
    (status_code retry_after : option Z) (now : Z) (db : WebhookDb) : WebhookDb :=
  let attempts := due_attempts d + 1 in
  let next := match retry_after with
              | Some r => now + Z.min r 86400
              | None => now + jittered_backoff attempts
              end in
  if max_attempts <=? attempts
  then update_delivery (due_id d)
         (λ r, set_outcome Failed attempts (Some err) (next_attempt_at r) status_code r) db
  else update_delivery (due_id d)
         (λ r, set_outcome (status r) attempts (Some err) next status_code r) db.

Definition auto_disable_reason (failures : Z) : string :=
  "Auto-disabled after " +:+ show_i failures +:+ " consecutive delivery failures with no success for 24+ hours".

(** The decision of [check_and_auto_disable]; [num_hours() >= 24]. *)
Definition should_disable (threshold now : Z) (s : Subscription) : bool :=
  (threshold <=? consecutive_failures s)
  && match last_success_at s with
     | Some t => 86400 <=? now - t
     | None => match first_failure_at s with Some t => 86400 <=? now - t | None => false end
     end.

Definition count_failure (s : Subscription) : Subscription :=
  set_health (active s) (consecutive_failures s + 1) (last_success_at s) (first_failure_at s)
             (auto_disabled_reason s) s.

Definition count_failure_first (now : Z) (s : Subscription) : Subscription :=
  set_health (active s) (consecutive_failures s + 1) (last_success_at s)
             (Some (default now (first_failure_at s))) (auto_disabled_reason s) s.

Definition check_and_auto_disable (id : string) (threshold now : Z) (db : WebhookDb) : WebhookDb :=
  let db := update_sub id (count_failure_first now) db in
  match find_sub id db with
  | None => db
  | Some s => if should_disable threshold now s
              then update_sub id (disable (auto_disable_reason (consecutive_failures s))) db
              else db
  end.

(** ** The delivery loop *)

Record Config := {
  batch_size : Z;
  max_attempts : Z;
  max_concurrent_deliveries : nat;
  failure_threshold : Z;
}.

Inductive ClaimError := FetchFailed | OutOfFuel.

Section deliver.
(** [mark_failed_permanent], which the source calls and does not define. *)
Context (mark_failed_permanent : Z → string → WebhookDb → WebhookDb).
Context (cfg : Config).

(** The body of the spawned future, after [send]. *)
Definition deliver_one `{Rng} (now : Z) (d : DueDelivery) (r : SendResult) (db : WebhookDb) : WebhookDb :=
  let failed (err : string) (code retry : option Z) (db : WebhookDb) :=
    check_and_auto_disable (due_sub d) (failure_threshold cfg) now
      (update_sub (due_sub d) count_failure
        (mark_retry d err (max_attempts cfg) code retry now db)) in
  match r with
  | Responded code retry =>
      let st := default 200 code in
      if is_success st
      then update_sub (due_sub d)
             (λ s, set_health (active s) 0 (Some now) (first_failure_at s) (auto_disabled_reason s) s)
             (mark_delivered (due_id d) st db)
      else failed "non-2xx status" code retry
             (if st =? 410 then update_sub (due_sub d) (disable "endpoint returned 410 Gone") db else db)
  | Pruned err => mark_failed_permanent (due_id d) err db
  | Errored err => failed err None None db
  end.

(** The claiming loop of [deliver_with_shutdown].  A pushed future takes its
    permit only when it is first polled, and nothing polls before the loop
    ends, so every turn sees all [max_concurrent_deliveries] permits; [clock i]
    is the time of turn [i]. *)
Fixpoint claim_loop (fuel : nat) (i : nat) (worker : string) (clock : nat → Z) (inflight : list DueDelivery)
    (db : WebhookDb) : result ClaimError (list DueDelivery) * WebhookDb :=
  match fuel with
  | O => (Err OutOfFuel, db)
  | S fuel =>
      if (max_concurrent_deliveries cfg =? 0)%nat then claim_loop fuel (S i) worker clock inflight db
      else
        let claim := Nat.min (max_concurrent_deliveries cfg) (Z.to_nat (Z.max (batch_size cfg) 1)) in
        match fetch_due claim worker (clock i) db with
        | (None, db') => (Err FetchFailed, db')
        | (Some [], db') => (Ok inflight, db')
        | (Some ds, db') => claim_loop fuel (S i) worker clock (inflight ++ ds) db'
        end
  end.

(** Draining: the sends end in some order, each with an outcome and a time. *)
Fixpoint drain `{Rng} (ends : list (DueDelivery * SendResult * Z)) (db : WebhookDb) : WebhookDb :=
  match ends with
  | [] => db
  | (d, r, now) :: ends => drain ends (deliver_one now d r db)
  end.

(** [deliver_with_shutdown], when shutdown is not requested during the pass:
    [run] is how the spawned sends end; the result counts the delivered and the
    failed ones. *)
Definition deliver_with_shutdown `{Rng} (cancelled : bool) (fuel : nat) (worker : string) (clock : nat → Z)
    (run : list DueDelivery → list (DueDelivery * SendResult * Z)) (db : WebhookDb)
    : result ClaimError (nat * nat) * WebhookDb :=
  if cancelled then (Ok (0%nat, 0%nat), db)
  else match claim_loop fuel 0 worker clock [] db with
       | (Err e, db1) => (Err e, db1)
       | (Ok inflight, db1) =>
           let ends := run inflight in
           let ok (p : DueDelivery * SendResult * Z) :=
             match p.1.2 with Responded code _ => is_success (default 200 code) | _ => false end in
           (Ok (length (base.filter (λ p, ok p = true) ends), length (base.filter (λ p, ok p = false) ends)),
            drain ends db1)
       end.

End deliver.

(** ** Pruning *)

Definition PRUNE_BATCH : nat := 1000.

Definition prunable (cutoff : Z) (d : Delivery) : bool :=
  bool_decide (status d ≠ Pending) && (created_at d <? cutoff).

Definition created_cmp (a b : Delivery) : comparison := created_at a ?= created_at b.

(** One [DELETE]: the oldest [PRUNE_BATCH] prunable rows. *)
Definition prune_batch (cutoff : Z) (ds : list Delivery) : nat * list Delivery :=
  let victims := take PRUNE_BATCH (sort_by created_cmp (base.filter (λ d, prunable cutoff d = true) ds)) in
  (length victims, base.filter (λ d, d_id d ∉ d_id <$> victims) ds).

Fixpoint prune_loop (fuel : nat) (cutoff : Z) (total : nat) (ds : list Delivery) : option (nat * list Delivery) :=
  match fuel with
  | O => None
  | S fuel => let '(deleted, ds') := prune_batch cutoff ds in
              if (deleted <? PRUNE_BATCH)%nat then Some ((total + deleted)%nat, ds')
              else prune_loop fuel cutoff (total + deleted) ds'
  end.

(** [prune_webhook_deliveries]; [None] is not enough fuel. *)
Definition prune_webhook_deliveries (fuel : nat) (retention_days now : Z) (ds : list Delivery)
    : option (nat * list Delivery) :=
  if retention_days <=? 0 then Some (0%nat, ds)
  else prune_loop fuel (now - retention_days * 86400) 0 ds.

(** ** Lemmas: rows *)

Lemma jitter_bounds `{Rng} n : 1 ≤ jittered_backoff n ≤ 3600.
Proof.
  unfold jittered_backoff, BACKOFF_CAP_SECS, BACKOFF_FLOOR_SECS.
  match goal with |- context [gen_range ?w] => pose proof (gen_range_bounds w ltac:(lia)) end. lia.
Qed.

(** A statement acts on the rows one by one and keeps their identity. *)
Record rowwise (f : Delivery → Delivery) : Prop := {
  rw_id d : d_id (f d) = d_id d;
  rw_key d : dkey (f d) = dkey d;
}.

Lemma rowwise_id : rowwise id.
Proof. by split. Qed.

Lemma rowwise_compose f g : rowwise f → rowwise g → rowwise (f ∘ g).
Proof. intros [Hf Kf] [Hg Kg]. split; intros d; cbn; congruence. Qed.

Lemma rowwise_outcome st n err next code : rowwise (set_outcome st n err next code).
Proof. by split. Qed.

Lemma rowwise_if (b : Delivery → bool) f : rowwise f → rowwise (λ d, if b d then f d else d).
Proof. intros [Hf Kf]. split; intros d; by destruct (b d). Qed.

(** The row a fold of updates makes of one. *)
Definition fail_row (rows : list (Delivery * Fetched)) (d : Delivery) : Delivery :=
  fold_left (λ d p, match p.2 with
                    | Unusable msg _ =>
                        if d_id d =? d_id p.1
                        then set_outcome Failed (attempts d) (Some msg) (next_attempt_at d) (last_status_code d) d
                        else d
                    | Due _ => d
                    end) rows d.

Lemma disables_deliveries rows db :
  deliveries (fold_left (λ db p, match p.2 with
                     | Unusable _ (Some why) => auto_disable_subscription (subscription_id p.1) why db
                     | _ => db
                     end) rows db) = deliveries db.
Proof.
  revert db. induction rows as [|[d p] rows IH]; intros db; [done|]. cbn [fold_left].
  destruct p as [|msg [why|]]; by rewrite IH.
Qed.

Lemma fail_unusable_deliveries rows db :
  deliveries (fail_unusable rows db) = fail_row rows <$> deliveries db.
Proof.
  unfold fail_unusable. rewrite disables_deliveries. unfold fail_row. revert db.
  induction rows as [|[d p] rows IH]; intros db; cbn [fold_left].
  - by rewrite list_fmap_id.
  - destruct p as [x|msg why]; cbn [snd fst]; rewrite IH; [done|].
    unfold mark_failed_undecryptable, update_delivery. cbn [deliveries set_deliveries].
    by rewrite <-list_fmap_compose.
Qed.

Lemma fail_row_id rows d : d_id (fail_row rows d) = d_id d ∧ dkey (fail_row rows d) = dkey d.
Proof.
  unfold fail_row. revert d. induction rows as [|[r p] rows IH]; intros d; [done|]. cbn [fold_left snd fst].
  destruct p; [by apply IH|]. destruct (_ =? _); [|by apply IH]. by rewrite !(proj1 (IH _)), !(proj2 (IH _)).
Qed.

Definition unusable_ids (rows : list (Delivery * Fetched)) : list Z :=
  omap (λ p, match p.2 with Unusable _ _ => Some (d_id p.1) | Due _ => None end) rows.

Lemma fail_row_other rows d : d_id d ∉ unusable_ids rows → fail_row rows d = d.
Proof.
  unfold fail_row. revert d. induction rows as [|[r p] rows IH]; intros d; [done|].
  cbn [fold_left snd fst unusable_ids omap list_omap]. destruct p as [x|msg why]; [by apply IH|].
  intros [Hne Hin]%not_elem_of_cons. rewrite (proj2 (Z.eqb_neq _ _)) by done. by apply IH.
Qed.

Lemma fail_row_in rows d : d_id d ∈ unusable_ids rows →
  status (fail_row rows d) = Failed ∧ attempts (fail_row rows d) = attempts d.
Proof.
  assert (∀ rows d, status d = Failed →
    status (fail_row rows d) = Failed ∧ attempts (fail_row rows d) = attempts d) as Hstay.
  { clear. induction rows as [|[r p] rows IH]; intros d Hd; [done|]. unfold fail_row. cbn [fold_left snd fst].
    destruct p; [by apply IH|]. destruct (_ =? _); [|by apply IH]. apply (IH (set_outcome _ _ _ _ _ d)). done. }
  revert d. induction rows as [|[r p] rows IH]; intros d; [by intros ?%elem_of_nil|].
  unfold fail_row. cbn [fold_left snd fst unusable_ids omap list_omap]. destruct p as [x|msg why]; [by apply IH|].
  destruct (Z.eqb_spec (d_id d) (d_id r)) as [Heq|Hne].
  - intros _. apply (Hstay rows (set_outcome _ _ _ _ _ d)). done.
  - intros [Hd|Hin]%elem_of_cons; [done|]. by apply IH.
Qed.

(** ** Lemmas: a claim *)

Definition lease_row (now : Z) (worker : string) (ids : list Z) (d : Delivery) : Delivery :=
  if bool_decide (d_id d ∈ ids) then set_lock (now + LEASE_SECS) worker d else d.

Lemma due_rows_elem batch now ds d : d ∈ due_rows batch now ds → d ∈ ds ∧ claimable now d = true.
Proof.
  unfold due_rows. intros Hd%subseteq_take. rewrite sort_by_perm in Hd.
  by apply list_elem_of_filter in Hd as [].
Qed.

Lemma due_rows_NoDup batch now ds : NoDup (d_id <$> ds) → NoDup (d_id <$> due_rows batch now ds).
Proof.
  intros Hn. unfold due_rows. rewrite fmap_take. eapply sublist_NoDup; [|apply sublist_take].
  rewrite sort_by_perm. eapply sublist_NoDup; [exact Hn|]. apply fmap_sublist, sublist_filter.
Qed.

Lemma due_rows_length batch now ds : (length (due_rows batch now ds) ≤ batch)%nat.
Proof. unfold due_rows. rewrite length_take. lia. Qed.

Lemma fetched_rows now db claimed rows :
  mapM (λ d, p ← fetched_row now db d; Some (d, p)) claimed = Some rows →
  rows.*1 = claimed ∧ ∀ d p, (d, p) ∈ rows → fetched_row now db d = Some p.
Proof.
  intros Hm%mapM_Some. induction Hm as [|d [d' p] claimed rows Hd _ [IH1 IH2]]; [by split; [|intros ? ? ?%elem_of_nil]|].
  destruct (fetched_row now db d) as [p'|] eqn:E; [|done]. cbn in Hd. injection Hd as <- <-.
  split; [cbn; by rewrite IH1|]. intros d' p [[= -> ->]|Hin]%elem_of_cons; [done|by apply IH2].
Qed.

Lemma elem_of_dues rows x : x ∈ dues_of rows ↔ ∃ d, (d, Due x) ∈ rows.
Proof.
  unfold dues_of. rewrite list_elem_of_omap. split.
  - intros ([d p] & Hin & Hp). destruct p; [|done]. injection Hp as ->. by exists d.
  - intros (d & Hin). by exists (d, Due x).
Qed.

Lemma elem_of_unusable rows i : i ∈ unusable_ids rows ↔ ∃ d msg why, (d, Unusable msg why) ∈ rows ∧ d_id d = i.
Proof.
  unfold unusable_ids. rewrite list_elem_of_omap. split.
  - intros ([d p] & Hin & Hp). destruct p; [done|]. injection Hp as <-. by exists d, msg, disable_reason.
  - intros (d & msg & why & Hin & <-). by exists (d, Unusable msg why).
Qed.

Lemma dues_sublist rows : (∀ d x, (d, Due x) ∈ rows → due_id x = d_id d) →
  sublist (due_id <$> dues_of rows) (d_id <$> rows.*1).
Proof.
  induction rows as [|[d p] rows IH]; intros Hx; [constructor|]. cbn [dues_of omap list_omap snd fst fmap list_fmap].
  assert (sublist (due_id <$> dues_of rows) (d_id <$> rows.*1)) as Hs by (apply IH; intros; apply Hx; by right).
  destruct p as [x|]; [|by apply sublist_cons]. cbn [fmap list_fmap]. rewrite (Hx d x) by by left. by apply sublist_skip.
Qed.

Lemma fetched_Due now db d x : fetched_row now db d = Some (Due x) →
  due_id x = d_id d ∧ due_attempts x = attempts d ∧ due_sub x = subscription_id d ∧ due_target x = target d.
Proof.
  unfold fetched_row. destruct (find_sub _ _) as [s|]; [|done]. cbn [mbind option_bind].
  destruct (secret s) as [[|]|]; [done| |done]. destruct (payload_exists _ _); [|done]. by intros [= <-].
Qed.

(** What [fetch_due] does, whatever it returns: only claimable rows change, a
    returned row is leased and still pending, a row that is not returned keeps
    its attempts. *)
Record claimed_rows (now : Z) (db db' : WebhookDb) (g : Delivery → Delivery) : Prop := {
  cl_rows : deliveries db' = g <$> deliveries db;
  cl_rowwise : rowwise g;
  cl_other : ∀ d, d ∈ deliveries db → claimable now d = false → g d = d;
  cl_claimed : ∀ d, g d = d ∨ status (g d) = Failed ∨ locked_until (g d) = Some (now + LEASE_SECS);
  cl_attempts : ∀ d, attempts (g d) = attempts d;
  cl_status : ∀ d, status (g d) = status d ∨ status (g d) = Failed;
  cl_next : next_id db' = next_id db;
}.

Record claimed_due (now : Z) (db : WebhookDb) (g : Delivery → Delivery) (x : DueDelivery) (d : Delivery) : Prop := {
  cd_in : d ∈ deliveries db;
  cd_id : due_id x = d_id d;
  cd_attempts : due_attempts x = attempts d;
  cd_sub : due_sub x = subscription_id d;
  cd_claimable : claimable now d = true;
  cd_status : status (g d) = Pending;
  cd_lock : locked_until (g d) = Some (now + LEASE_SECS);
}.

Lemma lease_row_rowwise now worker ids : rowwise (lease_row now worker ids).
Proof. split; intros d; unfold lease_row; by case_bool_decide. Qed.

Lemma fail_unusable_next rows db : next_id (fail_unusable rows db) = next_id db.
Proof.
  unfold fail_unusable. transitivity (next_id (fold_left (λ db p, match p.2 with
                               | Unusable msg _ => mark_failed_undecryptable (d_id p.1) msg db
                               | Due _ => db
                               end) rows db)).
  - generalize (fold_left (λ db p, match p.2 with
                               | Unusable msg _ => mark_failed_undecryptable (d_id p.1) msg db
                               | Due _ => db
                               end) rows db). clear. induction rows as [|[d [x|msg [why|]]] rows IH]; intros db; cbn [fold_left]; [done|..]; by rewrite IH.
  - revert db. induction rows as [|[d [x|msg why]] rows IH]; intros db; cbn [fold_left]; [done|..]; by rewrite IH.
Qed.

Lemma fetch_due_spec batch worker now db o db' :
  NoDup (d_id <$> deliveries db) → fetch_due batch worker now db = (o, db') →
  ∃ g, claimed_rows now db db' g
  ∧ match o with
    | None => True
    | Some dues => NoDup (due_id <$> dues) ∧ (length dues ≤ batch)%nat
                   ∧ ∀ x, x ∈ dues → ∃ d, claimed_due now db g x d
    end.
Proof.
  intros Hnd. unfold fetch_due. set (claimed := due_rows batch now (deliveries db)).
  set (db1 := lease now worker (d_id <$> claimed) db). set (lr := lease_row now worker (d_id <$> claimed)).
  assert (∀ d, d ∈ deliveries db → claimable now d = false → d_id d ∉ d_id <$> claimed) as Hout.
  { intros d Hd Hc Hin. apply list_elem_of_fmap in Hin as (d' & Heq & Hd'). apply due_rows_elem in Hd' as [Hd' Hc'].
    rewrite (NoDup_fmap_inj_in d_id (deliveries db) d d') in Hc by done. congruence. }
  assert (∀ d, attempts (lr d) = attempts d ∧ status (lr d) = status d) as Hlr
    by (intros d; unfold lr, lease_row; by case_bool_decide).
  assert (claimed_rows now db db1 lr) as Hlease.
  { split; [done|apply lease_row_rowwise| |intros d; unfold lr, lease_row; case_bool_decide; tauto|
      intros d; apply Hlr|left; apply Hlr|done].
    intros d Hd Hc. unfold lr, lease_row. rewrite bool_decide_eq_false_2 by by apply Hout. done. }
  destruct (mapM _ claimed) as [rows|] eqn:Em; intros [= <- <-]; [|by exists lr].
  apply fetched_rows in Em as [Hfst Hfetch]. exists (fail_row rows ∘ lr).
  assert (∀ d, attempts (fail_row rows d) = attempts d ∧ (status (fail_row rows d) = status d ∨ status (fail_row rows d) = Failed)) as Hfail.
  { intros d. destruct (decide (d_id d ∈ unusable_ids rows)) as [Hin|Hin].
    - apply fail_row_in in Hin as [? ?]. tauto.
    - rewrite fail_row_other by done. tauto. }
  assert (∀ i, i ∈ unusable_ids rows → i ∈ d_id <$> claimed) as Hun.
  { intros i (d & msg & why & Hin & <-)%elem_of_unusable. rewrite <-Hfst.
    apply list_elem_of_fmap. exists d. split; [done|]. apply list_elem_of_fmap. by exists (d, Unusable msg why). }
  split.
  - split.
    + rewrite fail_unusable_deliveries. unfold db1, lease. cbn [deliveries set_deliveries]. by rewrite <-list_fmap_compose.
    + split; intros d; cbn; [rewrite (proj1 (fail_row_id _ _))|rewrite (proj2 (fail_row_id _ _))];
        apply (lease_row_rowwise now worker (d_id <$> claimed)).
    + intros d Hd Hc. cbn. assert (lr d = d) as -> by by apply (cl_other _ _ _ _ Hlease).
      apply fail_row_other. intros Hin. by apply (Hout d Hd Hc), Hun.
    + intros d. cbn. destruct (decide (d_id (lr d) ∈ unusable_ids rows)) as [Hin|Hin].
      * apply fail_row_in in Hin as [? ?]. tauto.
      * rewrite fail_row_other by done. apply (cl_claimed _ _ _ _ Hlease).
    + intros d. cbn. rewrite (proj1 (Hfail _)). apply Hlr.
    + intros d. cbn. destruct (Hfail (lr d)) as [_ [-> | ->]]; [left; apply Hlr|by right].
    + by rewrite fail_unusable_next.
  - assert (NoDup (d_id <$> rows.*1)) as Hndr by (rewrite Hfst; by apply due_rows_NoDup).
    assert (∀ d x, (d, Due x) ∈ rows → fetched_row now db1 d = Some (Due x)) as Hdue by (intros; by apply Hfetch).
    pose proof (dues_sublist rows (λ d x Hin, proj1 (fetched_Due _ _ _ _ (Hdue d x Hin)))) as Hsub.
    split; [by eapply sublist_NoDup|]. split.
    { apply sublist_length in Hsub. rewrite !length_fmap, <-(length_fmap fst) , Hfst in Hsub.
      etransitivity; [exact Hsub|apply due_rows_length]. }
    intros x (d & Hin)%elem_of_dues. exists d. pose proof (fetched_Due _ _ _ _ (Hdue d x Hin)) as (Hi & Ha & Hs & _).
    assert (d ∈ claimed) as Hcl by (rewrite <-Hfst; apply list_elem_of_fmap; by exists (d, Due x)).
    destruct (due_rows_elem _ _ _ _ Hcl) as [Hd Hc].
    assert (d_id (lr d) ∉ unusable_ids rows) as Hnot.
    { assert (d_id (lr d) = d_id d) as -> by apply (lease_row_rowwise now worker (d_id <$> claimed)).
      intros (d' & msg & why & Hin' & Heq)%elem_of_unusable.
      assert (d' = d) as ->.
      { apply (NoDup_fmap_inj_in d_id (rows.*1)); [done| | |done]; apply list_elem_of_fmap;
          [by exists (d', Unusable msg why)|by exists (d, Due x)]. }
      pose proof (Hfetch _ _ Hin'). pose proof (Hfetch _ _ Hin). congruence. }
    split; [done|done|done|done|done| |]; cbn; rewrite fail_row_other by done; unfold lr, lease_row;
      rewrite bool_decide_eq_true_2 by by apply list_elem_of_fmap_2.
    + unfold claimable in Hc. cbn. db_facts. done.
    + done.
Qed.

(** ** Lemmas: an outcome *)

Definition succeeded (r : SendResult) : bool :=
  match r with Responded code _ => is_success (default 200 code) | _ => false end.

Definition pruned (r : SendResult) : bool := match r with Pruned _ => true | _ => false end.

Lemma check_deliveries id threshold now db :
  deliveries (check_and_auto_disable id threshold now db) = deliveries db
  ∧ next_id (check_and_auto_disable id threshold now db) = next_id db.
Proof.
  unfold check_and_auto_disable. destruct (find_sub _ _) as [s|]; [|done]. by destruct (should_disable _ _ _).
Qed.

(** What recording an outcome does to the row it is for. *)
Record settled `{Rng} (max now : Z) (x : DueDelivery) (r : SendResult) (f : Delivery → Delivery) : Prop := {
  st_rowwise : rowwise f;
  st_attempts : ∀ d, attempts d = due_attempts x → attempts (f d) = attempts d + 1;
  st_status : ∀ d, attempts d = due_attempts x →
    status (f d) = if succeeded r then Delivered else if max <=? attempts d + 1 then Failed else status d;
  st_unlocked : ∀ d, locked_until (f d) = None;
  st_next : ∀ d, next_attempt_at (f d) = next_attempt_at d
    ∨ next_attempt_at (f d) = now + jittered_backoff (due_attempts x + 1)
    ∨ ∃ code after, r = Responded code (Some after) ∧ next_attempt_at (f d) = now + Z.min after 86400;
}.

Section outcomes.
Context (mark_failed_permanent : Z → string → WebhookDb → WebhookDb).
Context (cfg : Config).

Lemma mark_retry_rows `{Rng} x err code retry now db :
  ∃ f, deliveries (mark_retry x err (max_attempts cfg) code retry now db)
       = (λ d, if d_id d =? due_id x then f d else d) <$> deliveries db
  ∧ next_id (mark_retry x err (max_attempts cfg) code retry now db) = next_id db
  ∧ ∀ r, succeeded r = false → (∀ a, retry = Some a → ∃ c, r = Responded c (Some a)) →
         settled (max_attempts cfg) now x r f.
Proof.
  unfold mark_retry. destruct (Z.leb_spec (max_attempts cfg) (due_attempts x + 1)) as [Hle|Hgt].
  - eexists. split; [reflexivity|]. split; [done|]. intros r Hr _. split; [apply rowwise_if, rowwise_outcome || by split| | |done|by left].
    + intros d Hd. cbn. lia.
    + intros d Hd. cbn. by rewrite Hr, Hd, (proj2 (Z.leb_le _ _)).
  - eexists. split; [reflexivity|]. split; [done|]. intros r Hr Hretry. split; [by split| | |done|].
    + intros d Hd. cbn. lia.
    + intros d Hd. cbn. by rewrite Hr, Hd, (proj2 (Z.leb_gt _ _)).
    + intros d. cbn. right. destruct retry as [a|]; [|by left]. right. destruct (Hretry a eq_refl) as [c ->]. by exists c, a.
Qed.

Lemma deliver_one_rows `{Rng} now x r db : pruned r = false →
  ∃ f, deliveries (deliver_one mark_failed_permanent cfg now x r db)
       = (λ d, if d_id d =? due_id x then f d else d) <$> deliveries db
  ∧ next_id (deliver_one mark_failed_permanent cfg now x r db) = next_id db
  ∧ settled (max_attempts cfg) now x r f.
Proof.
  intros Hp. destruct r as [code retry|err|err]; [|done|]; cbn [deliver_one].
  - destruct (is_success (default 200 code)) eqn:Es.
    + eexists. split; [reflexivity|]. split; [done|]. split; [by split|done| |done|by left].
      intros d _. unfold succeeded. by rewrite Es.
    + rewrite (proj1 (check_deliveries _ _ _ _)), (proj2 (check_deliveries _ _ _ _)). cbn [deliveries next_id update_sub set_subs].
      match goal with |- context [mark_retry _ ?e _ _ _ _ ?db0] => set (db1 := db0); set (err := e) end.
      assert (deliveries db1 = deliveries db ∧ next_id db1 = next_id db) as [<- <-] by (unfold db1; by destruct (_ =? 410)).
      destruct (mark_retry_rows x err code retry now db1) as (f & Hd & Hn & Hf). exists f. split; [done|]. split; [done|].
      apply Hf; [done|]. intros a ->. by eexists.
  - rewrite (proj1 (check_deliveries _ _ _ _)), (proj2 (check_deliveries _ _ _ _)). cbn [deliveries next_id update_sub set_subs].
    destruct (mark_retry_rows x err None None now db) as (f & Hd & Hn & Hf). exists f. split; [done|]. split; [done|]. by apply Hf.
Qed.

(** ** Histories of the delivery side *)

(** The store, the clock, the claims workers hold (with the time each was
    taken, live or expired), the rows whose send was recorded, and the rows with
    a result that was recorded after its lease had ended. *)
Record Sys := {
  store : WebhookDb; clock : Z; held : list (DueDelivery * Z); sends : list Z; late : list Z
}.

(** A claim outlives its lease: its worker may still report, and [deliver_one]
    records what it reports without looking at the lease. A crash drops it. *)
Inductive dstep : Sys → Sys → Prop :=
  | d_tick t s :
      clock s ≤ t →
      dstep s {| store := store s; clock := t; held := held s; sends := sends s; late := late s |}
  | d_claim batch worker o db' s :
      fetch_due batch worker (clock s) (store s) = (o, db') →
      dstep s {| store := db'; clock := clock s; held := held s ++ ((λ x, (x, clock s)) <$> default [] o);
                 sends := sends s; late := late s |}
  | d_crash h rest s :
      held s ≡ₚ h :: rest →
      dstep s {| store := store s; clock := clock s; held := rest; sends := sends s; late := late s |}
  | d_result (rng : Rng) x t r rest s :
      held s ≡ₚ (x, t) :: rest → pruned r = false →
      dstep s {| store := deliver_one mark_failed_permanent cfg (clock s) x r (store s); clock := clock s;
                 held := rest; sends := due_id x :: sends s;
                 late := if t + LEASE_SECS <? clock s then due_id x :: late s else late s |}
  | d_enqueue (lib : JsonbLib) batch r db' s :
      0 ≤ batch → enqueue batch (clock s) (store s) = (r, db') →
      dstep s {| store := db'; clock := clock s; held := held s; sends := sends s; late := late s |}.

Definition count_id (i : Z) (l : list Z) : Z := Z.of_nat (length (base.filter (λ j, j = i) l)).

(** A claim whose lease has not ended, of a row without a late result. *)
Definition live (s : Sys) (h : DueDelivery * Z) : Prop :=
  clock s ≤ h.2 + LEASE_SECS ∧ due_id h.1 ∉ late s.

#[export] Instance live_dec s h : Decision (live s h).
Proof. unfold live. apply _. Defined.

(** What a live claim is worth: its row is pending, locked until the lease
    ends, and as the worker read it. *)
Definition leased (s : Sys) (x : DueDelivery) (t : Z) : Prop :=
  ∃ d, d ∈ deliveries (store s) ∧ d_id d = due_id x ∧ attempts d = due_attempts x
       ∧ status d = Pending ∧ locked_until d = Some (t + LEASE_SECS).

Record dinv (s : Sys) : Prop := {
  di_ids : ids_ok (store s);
  di_held : ∀ x t, (x, t) ∈ held s → live s (x, t) → leased s x t;
  di_exclusive : NoDup ((λ h, due_id h.1) <$> base.filter (live s) (held s));
  di_rows : ∀ d, d ∈ deliveries (store s) → d_id d ∉ late s →
    attempts d ≤ max_attempts cfg ∧ (status d = Pending → attempts d < max_attempts cfg)
    ∧ count_id (d_id d) (sends s) = attempts d;
  di_sends : ∀ i, i ∈ sends s → i ∈ d_id <$> deliveries (store s);
  di_claims : ∀ h, h ∈ held s → due_id h.1 ∈ d_id <$> deliveries (store s);
}.

(** Fewer live claims are still exclusive. *)
Lemma exclusive_mono (P Q : DueDelivery * Z → Prop) `{∀ h, Decision (P h), ∀ h, Decision (Q h)} l :
  (∀ h, P h → Q h) → NoDup ((λ h, due_id h.1) <$> base.filter Q l) → NoDup ((λ h, due_id h.1) <$> base.filter P l).
Proof.
  intros Hpq Hnd. rewrite <-(list_filter_filter_l P Q) by done. eapply sublist_NoDup; [exact Hnd|].
  apply fmap_sublist, sublist_filter.
Qed.

Lemma ids_ok_fmap g db db' : rowwise g → deliveries db' = g <$> deliveries db → next_id db' = next_id db →
  ids_ok db → ids_ok db' ∧ d_id <$> deliveries db' = d_id <$> deliveries db.
Proof.
  intros Hg Hd Hn [Hnd Hlt]. assert (d_id <$> deliveries db' = d_id <$> deliveries db) as Hids.
  { rewrite Hd, <-list_fmap_compose. apply list_fmap_ext. intros _ d _. apply Hg. }
  split; [|done]. split; [by rewrite Hids|]. rewrite Hd, Hn. apply Forall_fmap. eapply Forall_impl; [exact Hlt|].
  intros d Hdl. cbn. by rewrite (rw_id _ Hg).
Qed.

Lemma not_claimable_locked now d u : locked_until d = Some u → now ≤ u → claimable now d = false.
Proof.
  intros Hl Hu. unfold claimable. rewrite Hl. rewrite (proj2 (Z.ltb_ge u now)) by done. by rewrite andb_false_r.
Qed.

Lemma claim_keeps batch worker o db' s :
  dinv s → fetch_due batch worker (clock s) (store s) = (o, db') →
  dinv {| store := db'; clock := clock s; held := held s ++ ((λ x, (x, clock s)) <$> default [] o);
          sends := sends s; late := late s |}.
Proof.
  intros [Hids Hheld Hex Hrows Hsends Hclaims] Hf.
  destruct (fetch_due_spec _ _ _ _ _ _ (proj1 Hids) Hf) as (g & Hg & Ho).
  destruct (ids_ok_fmap g (store s) db' (cl_rowwise _ _ _ _ Hg) (cl_rows _ _ _ _ Hg) (cl_next _ _ _ _ Hg) Hids) as [Hids' Hids_eq].
  assert (∀ x t, (x, t) ∈ held s → live s (x, t) → ∃ d, d ∈ deliveries (store s) ∧ d_id d = due_id x
          ∧ claimable (clock s) d = false ∧ attempts d = due_attempts x ∧ status d = Pending
          ∧ locked_until d = Some (t + LEASE_SECS)) as Hold.
  { intros x t Hin Hlive. destruct (Hheld x t Hin Hlive) as (d & Hd & Hi & Ha & Hst & Hlk). exists d.
    do 2 (split; [done|]). split; [eapply not_claimable_locked; [exact Hlk|apply Hlive]|done]. }
  split; cbn [store clock held sends late].
  - done.
  - intros x t [Hin|Hin]%elem_of_app Hlive.
    + destruct (Hold x t Hin Hlive) as (d & Hd & Hi & Hc & Ha & Hst & Hlk). exists d.
      split; [|done]. cbn. rewrite (cl_rows _ _ _ _ Hg). apply list_elem_of_fmap. exists d.
      split; [by rewrite (cl_other _ _ _ _ Hg)|done].
    + apply list_elem_of_fmap in Hin as (x' & [= -> ->] & Hin). destruct o as [dues|]; [|by apply elem_of_nil in Hin].
      destruct Ho as (_ & _ & Hdue). destruct (Hdue x' Hin) as [d [Hd Hi Ha _ Hc Hst Hlk]].
      exists (g d). cbn. rewrite (cl_rows _ _ _ _ Hg).
      split; [by apply list_elem_of_fmap_2|]. rewrite (rw_id _ (cl_rowwise _ _ _ _ Hg)), (cl_attempts _ _ _ _ Hg). done.
  - rewrite filter_app, fmap_app. apply NoDup_app. split; [exact Hex|].
    destruct o as [dues|]; [|split; [by intros ? _ ?%elem_of_nil|constructor]]. cbn [default] in *.
    destruct Ho as (Hnd & _ & Hdue). split.
    + intros i ([x t] & -> & [Hlive Hin]%list_elem_of_filter)%list_elem_of_fmap Hi.
      apply list_elem_of_fmap in Hi as (h & Heq & [_ Hin']%list_elem_of_filter).
      apply list_elem_of_fmap in Hin' as (x' & -> & Hin'). cbn in Heq.
      destruct (Hold x t Hin Hlive) as (d & Hd & Hid & Hc & _). destruct (Hdue x' Hin') as [d' [Hd' Hid' _ _ Hc' _ _]].
      assert (d = d') as -> by
        (apply (NoDup_fmap_inj_in d_id (deliveries (store s))); [apply Hids|done|done|cbn in Hid'; congruence]).
      congruence.
    + eapply sublist_NoDup; [|apply fmap_sublist, sublist_filter]. by rewrite <-list_fmap_compose.
  - intros d' Hd'. rewrite (cl_rows _ _ _ _ Hg) in Hd'. apply list_elem_of_fmap in Hd' as (d & -> & Hd).
    rewrite (cl_attempts _ _ _ _ Hg), (rw_id _ (cl_rowwise _ _ _ _ Hg)). intros Hnl.
    destruct (Hrows d Hd Hnl) as (Hmax & Hpend & Hcount).
    split; [done|]. split; [|done]. intros Hst. destruct (cl_status _ _ _ _ Hg d) as [Hs|Hs]; [apply Hpend|]; congruence.
  - intros i Hi. rewrite Hids_eq. by apply Hsends.
  - intros h [Hin|Hin]%elem_of_app; rewrite Hids_eq; [by apply Hclaims|].
    apply list_elem_of_fmap in Hin as (x & -> & Hin). destruct o as [dues|]; [|by apply elem_of_nil in Hin].
    destruct Ho as (_ & _ & Hdue). destruct (Hdue x Hin) as [d [Hd Hi _ _ _ _ _]]. cbn. rewrite Hi. by apply list_elem_of_fmap_2.
Qed.

Lemma count_cons i j l : count_id i (j :: l) = (if decide (j = i) then 1 else 0) + count_id i l.
Proof. unfold count_id. rewrite filter_cons. case_decide; cbn [length]; lia. Qed.

(** The claim an outcome is recorded for: either the row now has a late result,
    or the claim was live and no other live claim has its row. *)
Lemma result_claim x t rest s l :
  dinv s → held s ≡ₚ (x, t) :: rest → l = (if t + LEASE_SECS <? clock s then due_id x :: late s else late s) →
  (∀ i, i ∉ l → i ∉ late s)
  ∧ (due_id x ∉ l → leased s x t
     ∧ ∀ h, h ∈ rest → live s h → due_id h.1 ≠ due_id x).
Proof.
  intros Hinv Hperm ->. split; [intros i; destruct (_ <? _); set_solver|].
  destruct (Z.ltb_spec (t + LEASE_SECS) (clock s)) as [|Hle]; [set_solver|]. intros Hnl.
  assert (live s (x, t)) as Hlive by (by split).
  split; [apply (di_held _ Hinv); [rewrite Hperm; by left|done]|].
  intros h Hin Hh Heq. pose proof (di_exclusive _ Hinv) as Hex. rewrite Hperm, filter_cons_True in Hex by done.
  cbn in Hex. apply NoDup_cons in Hex as [Hnx _]. apply Hnx. rewrite <-Heq.
  apply list_elem_of_fmap. exists h. split; [done|]. by apply list_elem_of_filter.
Qed.

Lemma result_keeps `{Rng} x t r rest s :
  dinv s → held s ≡ₚ (x, t) :: rest → pruned r = false →
  dinv {| store := deliver_one mark_failed_permanent cfg (clock s) x r (store s); clock := clock s; held := rest;
          sends := due_id x :: sends s;
          late := if t + LEASE_SECS <? clock s then due_id x :: late s else late s |}.
Proof.
  intros Hinv Hperm Hp. destruct (result_claim x t rest s _ Hinv Hperm eq_refl) as [Hsub Hclaim].
  set (l := if _ <? _ then _ else _) in *. clearbody l. destruct Hinv as [Hids Hheld Hex Hrows Hsends Hclaims].
  destruct (deliver_one_rows (clock s) x r (store s) Hp) as (f & Hd & Hn & Hf).
  set (g := λ d, if d_id d =? due_id x then f d else d) in *.
  assert (rowwise g) as Hg by apply rowwise_if, Hf.
  destruct (ids_ok_fmap g (store s) _ Hg Hd Hn Hids) as [Hids' Hids_eq].
  split; cbn [store clock held sends late].
  - done.
  - intros y u Hy [Hu Hnl]. cbn in Hu, Hnl.
    destruct (Hheld y u) as (d & Hdin & Hi & Hrest); [rewrite Hperm; by right|split; [done|by apply Hsub]|].
    exists d. split; [|by rewrite Hi]. cbn. rewrite Hd. apply list_elem_of_fmap. exists d. split; [|done].
    unfold g. rewrite (proj2 (Z.eqb_neq _ _)); [done|]. rewrite Hi. intros Heq.
    rewrite Heq in Hnl. destruct (Hclaim Hnl) as [_ Hoth]. apply (Hoth (y, u) Hy); [|done].
    split; [done|]. cbn. rewrite Heq. by apply Hsub.
  - eapply (exclusive_mono _ (live s)); [intros h [Hh1 Hh2]; split; [exact Hh1|by apply Hsub]|].
    rewrite Hperm in Hex. eapply sublist_NoDup; [exact Hex|]. apply fmap_sublist.
    rewrite filter_cons. case_decide; [by apply sublist_cons|done].
  - intros d' Hd'. rewrite Hd in Hd'. apply list_elem_of_fmap in Hd' as (d & -> & Hdin).
    rewrite (rw_id _ Hg). intros Hnl. destruct (Hrows d Hdin (Hsub _ Hnl)) as (Hmax & Hpend & Hcount).
    rewrite count_cons. unfold g. destruct (Z.eqb_spec (d_id d) (due_id x)) as [Heq|Hne].
    + rewrite Heq in Hnl. destruct (Hclaim Hnl) as [(d0 & Hd0 & Hi0 & Ha0 & Hs0 & _) _].
      assert (d = d0) as -> by (apply (NoDup_fmap_inj_in d_id (deliveries (store s))); [apply Hids|done|done|congruence]).
      rewrite (st_attempts _ _ _ _ _ Hf), (st_status _ _ _ _ _ Hf), decide_True by done. specialize (Hpend Hs0).
      split; [lia|]. split; [|lia]. destruct (succeeded r); [done|]. destruct (Z.leb_spec (max_attempts cfg) (attempts d0 + 1)); [done|lia].
    + rewrite decide_False by congruence. by split; [|split].
  - intros i. rewrite Hids_eq. intros [-> | Hi]%elem_of_cons; [|by apply Hsends].
    apply (Hclaims (x, t)). rewrite Hperm. by left.
  - intros h Hin. rewrite Hids_eq. apply Hclaims. rewrite Hperm. by right.
Qed.

Lemma enqueue_keeps `{JsonbLib} now db' s : 0 < max_attempts cfg → evolves now (store s) db' → dinv s →
  dinv {| store := db'; clock := clock s; held := held s; sends := sends s; late := late s |}.
Proof.
  intros Hmax Hev [Hids Hheld Hex Hrows Hsends Hclaims]. destruct (ev_rows _ _ _ Hev) as (new & Hd & Hf).
  split; cbn [store clock held sends late].
  - by apply (ev_ids _ _ _ Hev).
  - intros x t Hin Hlive. destruct (Hheld x t Hin Hlive) as (d & Hdin & Hrest). exists d. split; [|done].
    cbn. rewrite Hd. apply elem_of_app. by left.
  - exact Hex.
  - intros d. rewrite Hd. intros [Hdin|Hdin]%elem_of_app Hnl; [by apply Hrows|].
    rewrite Forall_forall in Hf. destruct (Hf d Hdin) as (Hst & Ha & _). rewrite Ha. split; [lia|]. split; [lia|].
    unfold count_id. destruct (base.filter _ (sends s)) as [|i l] eqn:E; [done|]. exfalso.
    assert (i ∈ base.filter (λ j, j = d_id d) (sends s)) as [-> Hi]%list_elem_of_filter by (rewrite E; by left).
    apply Hsends in Hi. pose proof (ev_ids _ _ _ Hev Hids) as [Hnd _]. rewrite Hd, fmap_app in Hnd.
    apply NoDup_app in Hnd as (_ & Hdis & _). by apply (Hdis _ Hi), list_elem_of_fmap_2.
  - intros i Hi. rewrite Hd, fmap_app. apply elem_of_app. left. by apply Hsends.
  - intros h Hin. rewrite Hd, fmap_app. apply elem_of_app. left. by apply Hclaims.
Qed.

Lemma dinv_step s s' : 0 < max_attempts cfg → dstep s s' → dinv s → dinv s'.
Proof.
  intros Hmax Hst Hinv. destruct Hst as [t s Hle|batch worker o db' s Hf|h rest s Hperm|rng x t r rest s Hperm Hp|lib batch r db' s Hb Hr].
  - destruct Hinv as [Hids Hheld Hex Hrows Hsends Hclaims].
    assert (∀ h, live {| store := store s; clock := t; held := held s; sends := sends s; late := late s |} h → live s h) as Hl.
    { intros h [Hh1 Hh2]. split; [cbn in *; lia|done]. }
    split; [done|intros x u Hin Hlive; by apply Hheld, Hl|by apply (exclusive_mono _ (live s))|done|done|done].
  - by eapply claim_keeps.
  - destruct Hinv as [Hids Hheld Hex Hrows Hsends Hclaims]. split; [done| | |done|done|intros h' Hin; apply Hclaims; rewrite Hperm; by right].
    + intros x u Hin Hlive. apply Hheld; [|done]. rewrite Hperm. by right.
    + rewrite Hperm in Hex. eapply sublist_NoDup; [exact Hex|]. apply fmap_sublist. cbn [held].
      rewrite filter_cons. case_decide; [by apply sublist_cons|done].
  - by eapply result_keeps.
  - eapply enqueue_keeps; [done|exact (enqueue_evolves _ _ _ _ _ Hb Hr)|done].
Qed.


(** ** One pass of the delivery loop *)

(** Every queued row can be sent: its subscription exists, its secret decrypts
    to something, and its event or version is there. *)
Definition usable (db : WebhookDb) : Prop :=
  ∀ d, d ∈ deliveries db → ∃ s a k, find_sub (subscription_id d) db = Some s ∧ secret s = Some (String a k)
                                    ∧ payload_exists db (target d) = true.

Lemma mapM_all {A B} (f : A → option B) (g : A → B) l : (∀ x, x ∈ l → f x = Some (g x)) → mapM f l = Some (g <$> l).
Proof.
  induction l as [|x l IH]; intros Hf; [done|]. cbn. rewrite Hf by by left. cbn.
  rewrite IH; [done|]. intros y Hy. apply Hf. by right.
Qed.

(** With usable rows a claim returns exactly the rows it leases. *)
Lemma fetch_due_usable batch worker now db : usable db →
  ∃ dues, fetch_due batch worker now db
          = (Some dues, lease now worker (d_id <$> due_rows batch now (deliveries db)) db)
  ∧ due_id <$> dues = d_id <$> due_rows batch now (deliveries db)
  ∧ due_attempts <$> dues = attempts <$> due_rows batch now (deliveries db).
Proof.
  intros Hu. unfold fetch_due. set (claimed := due_rows batch now (deliveries db)).
  set (db1 := lease now worker (d_id <$> claimed) db).
  assert (∀ d, d ∈ claimed → ∃ x, fetched_row now db1 d = Some (Due x) ∧ due_id x = d_id d ∧ due_attempts x = attempts d) as Hx.
  { intros d [Hd _]%due_rows_elem. destruct (Hu d Hd) as (s & a & k & Hs & Hk & Hp). unfold fetched_row.
    change (find_sub (subscription_id d) db1) with (find_sub (subscription_id d) db). rewrite Hs. cbn [mbind option_bind].
    rewrite Hk. change (payload_exists db1 (target d)) with (payload_exists db (target d)). rewrite Hp. by eexists. }
  assert (∃ rows, mapM (λ d, p ← fetched_row now db1 d; Some (d, p)) claimed = Some rows
    ∧ due_id <$> dues_of rows = d_id <$> claimed ∧ due_attempts <$> dues_of rows = attempts <$> claimed
    ∧ fail_unusable rows db1 = db1) as (rows & -> & Hids & Hat & ->); [|by exists (dues_of rows)].
  clearbody db1. clearbody claimed. clear Hu db.
  induction claimed as [|d l IH]; [by exists []|].
  destruct IH as (rows & Hm & Hi & Ha & Hf); [intros; apply Hx; by right|].
  destruct (Hx d ltac:(by left)) as (x & Hfx & Hix & Hax). exists ((d, Due x) :: rows). cbn [mapM].
  rewrite Hfx. cbn [mbind option_bind]. rewrite Hm. split; [done|].
  split; [cbn; f_equal; [done|exact Hi]|]. split; [cbn; f_equal; [done|exact Ha]|exact Hf].
Qed.

Lemma usable_lease now worker ids db : usable db → usable (lease now worker ids db).
Proof.
  intros Hu d' Hd'. unfold lease in Hd'. cbn in Hd'. apply list_elem_of_fmap in Hd' as (d & -> & Hd).
  destruct (Hu d Hd) as (s & a & k & Hs & Hk & Hp). exists s, a, k. by case_bool_decide.
Qed.

(** Rows a claim could take by the time [until]. *)
Definition eligible (until : Z) (d : Delivery) : bool :=
  bool_decide (status d = Pending) && match locked_until d with None => true | Some u => u <? until end.

Definition backlog (until : Z) (db : WebhookDb) : nat :=
  length (base.filter (λ d, eligible until d = true) (deliveries db)).

Lemma claimable_eligible until now d : now ≤ until → claimable now d = true → eligible until d = true.
Proof.
  unfold claimable, eligible. intros Hn Hc. destruct (locked_until d); db_facts; rewrite bool_decide_eq_true_2 by done; [|done].
  cbn. lia.
Qed.

Lemma filter_fmap_le {A} (P : A → Prop) `{∀ x, Decision (P x)} (g : A → A) l :
  (∀ x, x ∈ l → P (g x) → P x) → (length (base.filter P (g <$> l)) ≤ length (base.filter P l))%nat.
Proof.
  induction l as [|x l IH]; intros Hg; [done|]. rewrite fmap_cons, !filter_cons.
  specialize (IH (λ y Hy, Hg y ltac:(by right))). repeat case_decide; cbn [length]; try lia.
  exfalso. eauto using list_elem_of_here.
Qed.

Lemma filter_fmap_lt {A} (P : A → Prop) `{∀ x, Decision (P x)} (g : A → A) l x :
  (∀ x, x ∈ l → P (g x) → P x) → x ∈ l → P x → ¬ P (g x) →
  (length (base.filter P (g <$> l)) < length (base.filter P l))%nat.
Proof.
  induction l as [|y l IH]; intros Hg Hx HP HnP; [by apply elem_of_nil in Hx|]. rewrite fmap_cons, !filter_cons.
  apply elem_of_cons in Hx as [-> | Hx].
  - rewrite decide_False, decide_True by done. cbn [length].
    pose proof (filter_fmap_le P g l (λ z Hz, Hg z ltac:(by right))). lia.
  - specialize (IH (λ z Hz, Hg z ltac:(by right)) Hx HP HnP). repeat case_decide; cbn [length]; try lia.
    exfalso. eauto using list_elem_of_here.
Qed.

Lemma leased_not_eligible until now worker ids d :
  until ≤ now + LEASE_SECS → d_id d ∈ ids → eligible until (lease_row now worker ids d) = false.
Proof.
  intros Hu Hin. unfold lease_row, eligible. rewrite (bool_decide_eq_true_2 (d_id d ∈ ids)) by done. cbn.
  rewrite (proj2 (Z.ltb_ge _ _)) by done. by rewrite andb_false_r.
Qed.

Lemma lease_row_eligible until now worker ids d :
  until ≤ now + LEASE_SECS → eligible until (lease_row now worker ids d) = true → eligible until d = true.
Proof.
  intros Hu. destruct (decide (d_id d ∈ ids)) as [Hin|Hin].
  - by rewrite leased_not_eligible.
  - unfold lease_row. by rewrite bool_decide_eq_false_2.
Qed.

Lemma due_rows_nil batch now ds : (0 < batch)%nat → due_rows batch now ds = [] →
  ∀ d, d ∈ ds → claimable now d = false.
Proof.
  unfold due_rows. intros Hb Hnil d Hd. destruct (claimable now d) eqn:Hc; [|done]. exfalso.
  assert (d ∈ sort_by next_attempt_cmp (base.filter (λ d, claimable now d = true) ds)) as Hin
    by (rewrite sort_by_perm; by apply list_elem_of_filter).
  destruct (sort_by _ _) as [|y l]; [by apply elem_of_nil in Hin|]. by destruct batch; [lia|].
Qed.

Lemma rows_of_dues (l : list DueDelivery) (c : list Delivery) y :
  due_id <$> l = d_id <$> c → due_attempts <$> l = attempts <$> c → y ∈ l →
  ∃ d, d ∈ c ∧ d_id d = due_id y ∧ attempts d = due_attempts y.
Proof.
  revert c. induction l as [|z l IH]; intros [|d c]; cbn; intros Hi Ha Hy; try done; [by apply elem_of_nil in Hy|].
  injection Hi as Hi1 Hi2. injection Ha as Ha1 Ha2.
  apply elem_of_cons in Hy as [-> | Hy]; [exists d; split; [by left|done]|].
  destruct (IH c Hi2 Ha2 Hy) as (d' & ? & ?). exists d'. split; [by right|done].
Qed.

Lemma claim_loop_spec fuel i worker clock start inflight db :
  (0 < max_concurrent_deliveries cfg)%nat → usable db → NoDup (d_id <$> deliveries db) →
  (∀ j, start ≤ clock j ≤ start + LEASE_SECS) → (∀ j, clock j ≤ clock (S j)) →
  (backlog (start + LEASE_SECS) db < fuel)%nat →
  ∃ more g db', claim_loop cfg fuel i worker clock inflight db = (Ok (inflight ++ more), db')
  ∧ deliveries db' = g <$> deliveries db ∧ rowwise g
  ∧ (∀ d, attempts (g d) = attempts d ∧ status (g d) = status d)
  ∧ NoDup (due_id <$> more)
  ∧ (∀ d, d ∈ deliveries db → claimable (clock i) d = true → d_id d ∈ due_id <$> more)
  ∧ ∀ x, x ∈ more → ∃ d, d ∈ deliveries db ∧ d_id d = due_id x ∧ attempts d = due_attempts x
                         ∧ eligible (start + LEASE_SECS) d = true.
Proof.
  intros Hmax. revert i inflight db. induction fuel as [|fuel IH]; intros i inflight db Hu Hnd Hclock Hmono Hfuel; [lia|].
  cbn [claim_loop]. rewrite (proj2 (Nat.eqb_neq _ _)) by lia.
  set (batch := Nat.min (max_concurrent_deliveries cfg) (Z.to_nat (Z.max (batch_size cfg) 1))).
  assert (0 < batch)%nat as Hbatch by (unfold batch; lia).
  destruct (fetch_due_usable batch worker (clock i) db Hu) as (dues & -> & Hids & Hatt).
  set (claimed := due_rows batch (clock i) (deliveries db)) in *. set (ids := d_id <$> claimed) in *.
  pose proof (lease_row_rowwise (clock i) worker ids) as Hlr.
  assert (∀ d, attempts (lease_row (clock i) worker ids d) = attempts d
             ∧ status (lease_row (clock i) worker ids d) = status d) as Hsame
    by (intros d; unfold lease_row; by case_bool_decide).
  destruct dues as [|x dues].
  - exists [], (lease_row (clock i) worker ids), (lease (clock i) worker ids db). rewrite app_nil_r.
    assert (claimed = []) as Hnil by (by destruct claimed).
    split; [done|]. split; [done|]. split; [done|]. split; [done|]. split; [constructor|].
    split; [|by intros y ?%elem_of_nil]. intros d Hd Hc.
    by rewrite (due_rows_nil batch (clock i) (deliveries db) Hbatch Hnil d Hd) in Hc.
  - set (db1 := lease (clock i) worker ids db). pose proof (Hclock i) as Hci.
    assert (∀ d, d ∈ claimed → d ∈ deliveries db ∧ eligible (start + LEASE_SECS) d = true) as Hcl.
    { intros d [Hd Hc]%due_rows_elem. split; [done|]. eapply claimable_eligible; [|done]. apply Hci. }
    assert (start + LEASE_SECS ≤ clock i + LEASE_SECS) as Hlease by lia.
    destruct (IH (S i) (inflight ++ x :: dues) db1) as (more & g & db' & Hloop & Hd' & Hg & Hgs & Hn & Hclaim & Hmore).
    { by apply usable_lease. }
    { unfold db1, lease. cbn. rewrite <-list_fmap_compose. erewrite list_fmap_ext; [exact Hnd|]. intros _ d _. apply Hlr. }
    { done. } { done. }
    { destruct claimed as [|d0 l0] eqn:Ecl; [done|]. destruct (Hcl d0) as [Hd0 He0]; [by left|].
      assert (backlog (start + LEASE_SECS) db1 < backlog (start + LEASE_SECS) db)%nat; [|lia].
      unfold backlog, db1, lease. cbn [deliveries set_deliveries].
      apply (filter_fmap_lt _ (lease_row (clock i) worker ids) _ d0); [|done|done|].
      - intros d _. by apply lease_row_eligible.
      - rewrite leased_not_eligible; [done|done|]. by left. }
    exists ((x :: dues) ++ more), (g ∘ lease_row (clock i) worker ids), db'. rewrite app_assoc.
    split; [exact Hloop|]. split; [rewrite Hd'; unfold db1, lease; cbn [deliveries set_deliveries]; by rewrite <-list_fmap_compose|].
    split; [by apply rowwise_compose|]. split.
    { intros d. cbn. destruct (Hgs (lease_row (clock i) worker ids d)) as [-> ->]. apply Hsame. }
    split; [|split].
    + rewrite fmap_app, Hids. apply NoDup_app. split; [by apply due_rows_NoDup|]. split; [|done].
      intros k Hk (y & -> & Hy)%list_elem_of_fmap. destruct (Hmore y Hy) as (d1 & Hd1 & Hid & _ & He).
      unfold db1, lease in Hd1. cbn in Hd1. apply list_elem_of_fmap in Hd1 as (d & -> & Hd).
      fold (lease_row (clock i) worker ids d) in Hid, He. rewrite (rw_id _ Hlr) in Hid.
      by rewrite leased_not_eligible in He by (done || by rewrite Hid).
    + intros d Hd Hc. rewrite fmap_app, Hids. apply elem_of_app. destruct (decide (d_id d ∈ ids)) as [Hin|Hin]; [by left|right].
      apply Hclaim; [|].
      * unfold db1, lease. cbn. apply list_elem_of_fmap. exists d. split; [|done]. by rewrite bool_decide_eq_false_2.
      * unfold claimable in *. pose proof (Hmono i). destruct (locked_until d); db_facts;
          rewrite bool_decide_eq_true_2 by done; cbn; lia.
    + intros y [Hy|Hy]%elem_of_app.
      * destruct (rows_of_dues _ _ y Hids Hatt Hy) as (d & Hd & Hi & Ha).
        destruct (Hcl d Hd) as [? ?]. by exists d.
      * destruct (Hmore y Hy) as (d1 & Hd1 & Hid & Ha & He). unfold db1, lease in Hd1. cbn in Hd1.
        apply list_elem_of_fmap in Hd1 as (d & -> & Hd). fold (lease_row (clock i) worker ids d) in Hid, Ha, He.
        rewrite (rw_id _ Hlr) in Hid. rewrite (proj1 (Hsame d)) in Ha. exists d.
        split; [done|]. split; [done|]. split; [done|]. by eapply lease_row_eligible.
Qed.

Lemma drain_rows `{Rng} ends db :
  NoDup ((λ p, due_id p.1.1) <$> ends) → (∀ p, p ∈ ends → pruned p.1.2 = false) →
  ∃ g, deliveries (drain mark_failed_permanent cfg ends db) = g <$> deliveries db ∧ rowwise g
  ∧ (∀ d, d_id d ∉ (λ p, due_id p.1.1) <$> ends → g d = d)
  ∧ ∀ x r t d, (x, r, t) ∈ ends → d_id d = due_id x → ∃ f, settled (max_attempts cfg) t x r f ∧ g d = f d.
Proof.
  revert db. induction ends as [|[[x r] t] ends IH]; intros db Hnd Hp; cbn [drain].
  - exists id. rewrite list_fmap_id. split; [done|]. split; [apply rowwise_id|]. split; [done|]. by intros x r t d ?%elem_of_nil.
  - cbn in Hnd. apply NoDup_cons in Hnd as [Hx Hnd].
    destruct (deliver_one_rows t x r db (Hp (x, r, t) ltac:(by left))) as (f & Hd & _ & Hf).
    destruct (IH (deliver_one mark_failed_permanent cfg t x r db) Hnd) as (g & Hg & Hgw & Hgo & Hge); [intros; apply Hp; by right|].
    set (h := λ d, if d_id d =? due_id x then f d else d) in *.
    assert (rowwise h) as Hh by apply rowwise_if, Hf.
    exists (g ∘ h). split; [rewrite Hg, Hd; by rewrite <-list_fmap_compose|]. split; [by apply rowwise_compose|]. split.
    + intros d [Hne Hin]%not_elem_of_cons. cbn in *. unfold h. rewrite (proj2 (Z.eqb_neq _ _)) by done. by apply Hgo.
    + intros y r' t' d [[= -> -> ->]|Hin]%elem_of_cons Hid.
      * exists f. split; [done|]. cbn. rewrite Hgo; [|by rewrite (rw_id _ Hh), Hid]. unfold h. by rewrite (proj2 (Z.eqb_eq _ _)).
      * assert (d_id d ≠ due_id x) as Hne.
        { rewrite Hid. intros Heq. apply Hx. rewrite <-Heq. apply list_elem_of_fmap. by exists (y, r', t'). }
        cbn. unfold h. rewrite (proj2 (Z.eqb_neq _ _)) by done. by eapply Hge.
Qed.

(** C16: One pass of the delivery loop, run without a shutdown, with at least one
    delivery permit, on a queue whose rows can all be sent (their subscription,
    secret and payload are there) and are not pruned meanwhile, its claims made
    within one lease by a clock that does not go back: it ends; it settles every
    row that was due when it began, each once; and each such row has one more
    attempt and is delivered by a 2xx, failed when that was its last attempt,
    and otherwise pending again. *)
Theorem pass_settles_every_due_row `{Rng} worker clock run db :
  (0 < max_concurrent_deliveries cfg)%nat → usable db → NoDup (d_id <$> deliveries db) →
  (∀ j, clock 0%nat ≤ clock j ≤ clock 0%nat + LEASE_SECS) → (∀ j, clock j ≤ clock (S j)) →
  (∀ l, (run l).*1.*1 ≡ₚ l) → (∀ l p, p ∈ run l → pruned p.1.2 = false) →
  ∃ delivered failed inflight db',
    deliver_with_shutdown mark_failed_permanent cfg false (S (length (deliveries db))) worker clock run db
      = (Ok (delivered, failed), db')
  ∧ (delivered + failed = length inflight)%nat ∧ NoDup (due_id <$> inflight)
  ∧ ∀ d, d ∈ deliveries db → claimable (clock 0%nat) d = true →
      ∃ x r t d', (x, r, t) ∈ run inflight ∧ due_id x = d_id d ∧ d' ∈ deliveries db' ∧ dkey d' = dkey d ∧ d_id d' = d_id d
      ∧ attempts d' = attempts d + 1
      ∧ status d' = if succeeded r then Delivered
                    else if max_attempts cfg <=? attempts d + 1 then Failed else Pending.
Proof.
  intros Hmax Hu Hnd Hclock Hmono Hrun Hnp.
  destruct (claim_loop_spec (S (length (deliveries db))) 0 worker clock (clock 0%nat) [] db Hmax Hu Hnd Hclock Hmono)
    as (inflight & g & db1 & Hloop & Hd1 & Hg & Hgs & Hni & Hclaim & Hin).
  { unfold backlog. pose proof (length_filter (λ d, eligible (clock 0%nat + LEASE_SECS) d = true) (deliveries db)). lia. }
  cbn [app] in Hloop. unfold deliver_with_shutdown. rewrite Hloop.
  assert (NoDup ((λ p, due_id p.1.1) <$> run inflight)) as Hne.
  { replace ((λ p, due_id p.1.1) <$> run inflight) with (due_id <$> (run inflight).*1.*1); [by rewrite Hrun|].
    rewrite <-!list_fmap_compose. by apply list_fmap_ext. }
  destruct (drain_rows (run inflight) db1 Hne (Hnp inflight)) as (h & Hd2 & Hh & _ & Hends).
  eexists _, _, inflight, _. split; [reflexivity|]. split; [|split; [exact Hni|]].
  { rewrite <-(Permutation_length (Hrun inflight)), !length_fmap. generalize (run inflight). clear. intros l.
    induction l as [|p l IH]; [done|]. rewrite !filter_cons.
    repeat case_decide; cbn [length]; try lia; try congruence. by match goal with Hn : ¬ (?b = true) |- _ => destruct b end. }
  intros d Hd Hc. pose proof (Hclaim d Hd Hc) as Hid. apply list_elem_of_fmap in Hid as (x & Hx & Hxin).
  destruct (Hin x Hxin) as (d0 & Hd0 & Hi0 & Ha0 & _).
  assert (d0 = d) as -> by (apply (NoDup_fmap_inj_in d_id (deliveries db)); [done..|congruence]).
  rewrite <-Hrun in Hxin. apply list_elem_of_fmap in Hxin as ([x' r] & -> & Hxin).
  apply list_elem_of_fmap in Hxin as ([[x'' r'] t] & Heq & Hxin). cbn in Heq. injection Heq as <- <-. cbn [fst] in *.
  destruct (Hends x' r t (g d) Hxin) as (f & Hf & Hgf); [by rewrite (rw_id _ Hg)|].
  exists x', r, t, (h (g d)). split; [done|]. split; [done|]. split; [rewrite Hd2, Hd1; by apply list_elem_of_fmap_2, list_elem_of_fmap_2|].
  split; [by rewrite (rw_key _ Hh), (rw_key _ Hg)|]. split; [by rewrite (rw_id _ Hh), (rw_id _ Hg)|].
  destruct (Hgs d) as [Hga Hgst]. rewrite Hgf. rewrite (st_attempts _ _ _ _ _ Hf), (st_status _ _ _ _ _ Hf) by congruence.
  rewrite Hga, Hgst. split; [done|]. unfold claimable in Hc. db_facts. by rewrite (ltac:(assumption) : status d = Pending).
Qed.

End outcomes.

(** ** Subscription health *)

Lemma find_update id f db : (∀ s, sub_id (f s) = sub_id s) →
  find_sub id (update_sub id f db) = f <$> find_sub id db.
Proof.
  intros Hf. unfold find_sub, update_sub. cbn [subs set_subs]. induction (subs db) as [|s l IH]; [done|].
  cbn. destruct (String.eqb_spec (sub_id s) id) as [Heq|Hne]; cbn; rewrite ?Hf.
  - by rewrite (proj2 (String.eqb_eq _ _) Heq).
  - rewrite (proj2 (String.eqb_neq _ _) Hne). exact IH.
Qed.

(** Since when the endpoint has not answered: its last success, or its first
    failure ever, which the first failing delivery sets. *)
Definition silent_since (now : Z) (s : Subscription) : Z :=
  match last_success_at s with Some t => t | None => default now (first_failure_at s) end.

Lemma find_check id threshold now db s : find_sub id db = Some s →
  ∃ s', find_sub id (check_and_auto_disable id threshold now db) = Some s'
  ∧ consecutive_failures s' = consecutive_failures s + 1
  ∧ active s' = active s && negb ((threshold <=? consecutive_failures s + 1) && (86400 <=? now - silent_since now s)).
Proof.
  intros Hs. unfold check_and_auto_disable. rewrite find_update, Hs by done. cbn [fmap option_fmap option_map].
  assert (should_disable threshold now (count_failure_first now s)
          = (threshold <=? consecutive_failures s + 1) && (86400 <=? now - silent_since now s)) as ->.
  { unfold should_disable, silent_since. cbn. by destruct (last_success_at s). }
  destruct (_ && _) eqn:E.
  - eexists. rewrite !find_update, Hs by done. split; [done|]. cbn. by rewrite andb_false_r.
  - eexists. rewrite find_update, Hs by done. split; [done|]. cbn. by rewrite andb_true_r.
Qed.

Lemma find_mark_retry `{Rng} id x err max code retry now db : find_sub id (mark_retry x err max code retry now db) = find_sub id db.
Proof. unfold mark_retry. by destruct (_ <=? _). Qed.

(** A delivery that fails counts twice against its subscription's
    consecutive failures; the subscription is switched off exactly when the
    endpoint answered 410 Gone, or when that count reaches the threshold and
    nothing has succeeded for 24 hours; a delivery that succeeds resets the
    count and never switches it off. *)
Theorem auto_disable_policy `{Rng} mark_failed_permanent cfg now x r db s :
  find_sub (due_sub x) db = Some s → pruned r = false →
  ∃ s', find_sub (due_sub x) (deliver_one mark_failed_permanent cfg now x r db) = Some s'
  ∧ if succeeded r
    then consecutive_failures s' = 0 ∧ active s' = active s ∧ last_success_at s' = Some now
    else consecutive_failures s' = consecutive_failures s + 2
         ∧ (active s' = false ↔ active s = false ∨ (∃ retry, r = Responded (Some 410) retry)
            ∨ (failure_threshold cfg ≤ consecutive_failures s + 2 ∧ 86400 ≤ now - silent_since now s)).
Proof.
  intros Hs Hp. destruct r as [code retry|err|err]; [|done|]; cbn [deliver_one succeeded].
  - destruct (is_success (default 200 code)) eqn:Es.
    { eexists. rewrite find_update by done. unfold mark_delivered, update_delivery, find_sub. cbn [subs set_deliveries].
      fold (find_sub (due_sub x) db). rewrite Hs. done. }
    set (db1 := if default 200 code =? 410 then _ else _).
    assert (∃ s1, find_sub (due_sub x) db1 = Some s1 ∧ consecutive_failures s1 = consecutive_failures s
      ∧ silent_since now s1 = silent_since now s
      ∧ active s1 = active s && negb (default 200 code =? 410)) as (s1 & Hs1 & Hc1 & Hq1 & Ha1).
    { unfold db1. destruct (default 200 code =? 410); [|exists s; by rewrite andb_true_r].
      eexists. rewrite find_update, Hs by done. split; [done|]. by rewrite andb_false_r. }
    destruct (find_check (due_sub x) (failure_threshold cfg) now
      (update_sub (due_sub x) count_failure (mark_retry x "non-2xx status" (max_attempts cfg) code retry now db1)) (count_failure s1))
      as (s' & Hs' & Hc' & Ha'); [by rewrite find_update, find_mark_retry, Hs1|].
    exists s'. split; [done|]. split; [cbn in Hc'; lia|]. rewrite Ha'. cbn. rewrite Ha1, Hc1.
    change (silent_since now (count_failure s1)) with (silent_since now s1). rewrite Hq1.
    rewrite !andb_false_iff, !negb_false_iff, andb_true_iff, !Z.leb_le, Z.eqb_eq.
    replace (consecutive_failures s + 1 + 1) with (consecutive_failures s + 2) by lia.
    split; [intros [[?|Hg]|?]|intros [?|[[r Hr]|?]]]; try tauto.
    + destruct code as [c|]; cbn in Hg; subst; [|done]. right. left. by eexists.
    + injection Hr as -> _. left. by right.
  - destruct (find_check (due_sub x) (failure_threshold cfg) now
      (update_sub (due_sub x) count_failure (mark_retry x err (max_attempts cfg) None None now db)) (count_failure s))
      as (s' & Hs' & Hc' & Ha'); [by rewrite find_update, find_mark_retry, Hs|].
    exists s'. split; [done|]. split; [cbn in Hc'; lia|]. rewrite Ha'. cbn.
    change (silent_since now (count_failure s)) with (silent_since now s).
    rewrite !andb_false_iff, !negb_false_iff, andb_true_iff, !Z.leb_le.
    replace (consecutive_failures s + 1 + 1) with (consecutive_failures s + 2) by lia.
    split; [tauto|]. intros [?|[[? Hr]|?]]; [tauto|done|tauto].
Qed.

(** ** Retry delays *)

(** When a failed delivery is put back, it waits between one second and
    [min(2^attempts, 3600)] seconds, or what [Retry-After] asks for but never
    more than a day. *)
Theorem retry_delay_bounds `{Rng} d err max code retry now db r :
  r ∈ deliveries db → d_id r = due_id d → due_attempts d + 1 < max → 0 ≤ due_attempts d →
  ∃ r', r' ∈ deliveries (mark_retry d err max code retry now db) ∧ d_id r' = d_id r ∧ status r' = status r
  ∧ match retry with
    | None => now + 1 ≤ next_attempt_at r' ≤ now + Z.min (2 ^ (due_attempts d + 1)) 3600
    | Some after => next_attempt_at r' ≤ now + 86400
                    ∧ (after ≤ 86400 → next_attempt_at r' = now + after)
    end.
Proof.
  intros Hr Hid Hmax Hpos. unfold mark_retry. rewrite (proj2 (Z.leb_gt _ _)) by lia.
  eexists. split; [cbn; apply list_elem_of_fmap; exists r; split; [by rewrite (proj2 (Z.eqb_eq _ _) Hid)|done]|].
  split; [done|]. split; [done|]. cbn. destruct retry as [after|]; [lia|].
  assert (2 ≤ 2 ^ (due_attempts d + 1)) as H2.
  { replace 2 with (2 ^ 1) at 1 by done. apply Z.pow_le_mono_r; lia. }
  unfold jittered_backoff, saturating_pow2, BACKOFF_CAP_SECS, BACKOFF_FLOOR_SECS.
  replace (Z.max (due_attempts d + 1) 1) with (due_attempts d + 1) by lia.
  set (p := 2 ^ (due_attempts d + 1)) in *. set (w := Z.max (Z.min (Z.min p (2 ^ 63 - 1)) 3600) 1).
  assert (w = Z.min p 3600) as Hw by (change (2 ^ 63) with 9223372036854775808 in w; unfold w; lia).
  pose proof (gen_range_bounds w ltac:(lia)). lia.
Qed.

(** A response header that stops the delivery task: [Duration::seconds] panics. *)
Lemma retry_after_panics max_secs : max_secs < 2 ^ 63 - 1 → send_response max_secs 503 (Some "9223372036854775807") = None.
Proof.
  intros Hm. unfold send_response. change (is_redirection 503) with false. cbn iota.
  unfold retry_after_header. change (parse_uint 64 "9223372036854775807") with (Some (2 ^ 63 - 1)). cbn iota.
  change (as_signed 64 (2 ^ 63 - 1)) with (2 ^ 63 - 1). rewrite (proj2 (Z.leb_gt (2 ^ 63 - 1) max_secs)) by lia.
  by rewrite andb_false_r.
Qed.

(** ** Pruning *)

Lemma prune_victims cutoff ds (victims := take PRUNE_BATCH (sort_by created_cmp (base.filter (λ d, prunable cutoff d = true) ds))) :
  (∀ d, d ∈ victims → d ∈ ds ∧ prunable cutoff d = true)
  ∧ ((length victims < PRUNE_BATCH)%nat → ∀ d, d ∈ ds → prunable cutoff d = true → d ∈ victims).
Proof.
  split.
  - intros d Hd. apply subseteq_take in Hd. rewrite sort_by_perm in Hd. by apply list_elem_of_filter in Hd as [].
  - unfold victims. rewrite length_take. intros Hl d Hd Hp. rewrite take_ge by lia. rewrite sort_by_perm.
    by apply list_elem_of_filter.
Qed.

Definition kept (cutoff : Z) (ds : list Delivery) : list Delivery := base.filter (λ d, prunable cutoff d = false) ds.

Lemma prune_batch_spec cutoff ds n ds' : NoDup (d_id <$> ds) → prune_batch cutoff ds = (n, ds') →
  kept cutoff ds' = kept cutoff ds ∧ (n + length ds' = length ds)%nat ∧ NoDup (d_id <$> ds')
  ∧ ((n < PRUNE_BATCH)%nat → ds' = kept cutoff ds).
Proof.
  intros Hnd. unfold prune_batch. set (victims := take PRUNE_BATCH _). intros [= <- <-].
  destruct (prune_victims cutoff ds) as [Hv Hall]. fold victims in Hv, Hall.
  assert (∀ d, d ∈ ds → d_id d ∈ d_id <$> victims → d ∈ victims) as Hin.
  { intros d Hd (d' & Heq & Hd')%list_elem_of_fmap. rewrite (NoDup_fmap_inj_in d_id ds d d'); [done|done|done|by apply Hv|done]. }
  split; [|split; [|split]].
  - unfold kept. rewrite list_filter_filter. apply filter_ext_in. intros d Hd. split; [by intros []|].
    intros Hp. split; [done|]. intros Hi. apply Hin, Hv in Hi as [_ Hi]; [congruence|done].
  - assert (NoDup victims) as Hnv.
    { eapply NoDup_fmap_1. unfold victims. rewrite fmap_take. eapply sublist_NoDup; [|apply sublist_take].
      rewrite sort_by_perm. eapply sublist_NoDup; [exact Hnd|]. apply fmap_sublist, sublist_filter. }
    assert (base.filter (λ d, ¬ (d_id d ∉ d_id <$> victims)) ds ≡ₚ victims) as Hperm.
    { apply NoDup_Permutation; [apply NoDup_filter; by eapply NoDup_fmap_1|done|]. intros d. rewrite list_elem_of_filter. split.
      - intros [Hi Hd]. apply Hin; [done|]. by apply dec_stable.
      - intros Hd. split; [|by apply Hv]. intros Hn. apply Hn. by apply list_elem_of_fmap_2. }
    pose proof (Permutation_length (filter_app_complement (λ d, d_id d ∉ d_id <$> victims) ds)) as Hl.
    rewrite length_app, Hperm in Hl. lia.
  - eapply sublist_NoDup; [exact Hnd|]. apply fmap_sublist, sublist_filter.
  - intros Hn. unfold kept. apply filter_ext_in. intros d Hd. split.
    + intros Hi. destruct (prunable cutoff d) eqn:E; [|done]. destruct Hi. apply list_elem_of_fmap_2. by apply Hall.
    + intros Hp Hi. apply Hin, Hv in Hi as [_ Hi]; [congruence|done].
Qed.

Lemma prune_loop_spec fuel cutoff total ds : NoDup (d_id <$> ds) → (length ds < fuel)%nat →
  prune_loop fuel cutoff total ds = Some ((total + (length ds - length (kept cutoff ds)))%nat, kept cutoff ds).
Proof.
  revert total ds. induction fuel as [|fuel IH]; intros total ds Hnd Hf; [lia|]. cbn [prune_loop].
  destruct (prune_batch cutoff ds) as [n ds'] eqn:E. destruct (prune_batch_spec _ _ _ _ Hnd E) as (Hk & Hl & Hnd' & Hlast).
  destruct (Nat.ltb_spec n PRUNE_BATCH) as [Hlt|Hge].
  - rewrite (Hlast Hlt) in *. do 2 f_equal. lia.
  - assert (PRUNE_BATCH = 1000)%nat as Hb by done. rewrite IH by (done || lia). rewrite Hk. do 2 f_equal.
    pose proof (length_filter (λ d, prunable cutoff d = false) ds') as Hle. fold (kept cutoff ds') in Hle. rewrite Hk in Hle. lia.
Qed.

(** The rows pruning is to leave. *)
Definition retained (retention_days now : Z) (ds : list Delivery) : list Delivery :=
  base.filter (λ d, retention_days ≤ 0 ∨ status d = Pending ∨ now - retention_days * 86400 ≤ created_at d) ds.

(** The pruner ends, after at most one batch more than there are rows, and
    removes exactly the delivered and failed rows older than the retention
    window: no pending row, and nothing at all when retention is 0. *)
Theorem prune_correct retention_days now ds :
  NoDup (d_id <$> ds) →
  prune_webhook_deliveries (S (length ds)) retention_days now ds
  = Some ((length ds - length (retained retention_days now ds))%nat, retained retention_days now ds).
Proof.
  intros Hnd. unfold prune_webhook_deliveries. destruct (Z.leb_spec retention_days 0) as [Hz|Hz].
  - assert (retained retention_days now ds = ds) as ->; [|by rewrite Nat.sub_diag].
    unfold retained. rewrite (filter_ext_in _ (λ _, True)) by (intros; tauto). clear Hnd.
    induction ds as [|d ds IH]; [done|]. by rewrite filter_cons_True, IH.
  - rewrite prune_loop_spec by (done || lia).
    assert (kept (now - retention_days * 86400) ds = retained retention_days now ds) as ->; [|done].
    apply filter_ext_in. intros d _. unfold prunable. rewrite andb_false_iff, bool_decide_eq_false, Z.ltb_ge.
    split; [intros [Hs|?]; [right; left; by apply dec_stable|tauto]|intros [?|[?|?]]; [lia|left; tauto|tauto]].
Qed.

(** ** A concrete queue, and witnesses *)

Lemma half_bounds w : 0 ≤ w → 0 ≤ w / 2 ≤ w.
Proof. intros Hw. Z.div_mod_to_equations. lia. Qed.

#[local] Instance sample_rng : Rng := {| gen_range w := w / 2; gen_range_bounds := half_bounds |}.

Definition demo_config : Config :=
  {| batch_size := 10; max_attempts := 3; max_concurrent_deliveries := 2; failure_threshold := 10 |}.

Definition demo_row (id : Z) (ev : string) (st : Status) (n : Z) : Delivery := {|
  d_id := id; subscription_id := "s1"; target := ForEvent ev; status := st; attempts := n; last_error := None;
  next_attempt_at := 50; created_at := 50; locked_until := None; locked_by := None; last_status_code := None
|}.

Definition demo_queue : WebhookDb :=
  set_deliveries [demo_row 1 "1" Pending 0; demo_row 2 "2" Pending 2; demo_row 3 "3" Failed 3] demo_db.

Definition demo_due (id : Z) (ev : string) (n : Z) : DueDelivery := {|
  due_id := id; due_sub := "s1"; due_attempts := n; due_url := "https://example.com/hook"; due_secret := Some "k";
  due_previous := None; due_target := ForEvent ev
|}.

Definition no_permanent (_ : Z) (_ : string) (db : WebhookDb) : WebhookDb := db.

(** Every send ends at 110 with a 503. *)
Definition demo_run503 (l : list DueDelivery) : list (DueDelivery * SendResult * Z) :=
  (λ x, (x, Responded (Some 503) None, 110)) <$> l.

Example demo_pass :
  (λ d, (d_id d, status d, attempts d, next_attempt_at d))
    <$> deliveries (deliver_with_shutdown no_permanent demo_config false 4 "w" (λ _, 100) demo_run503 demo_queue).2
  = [(1, Pending, 1, 111); (2, Failed, 3, 50); (3, Failed, 3, 50)].
Proof. vm_compute. reflexivity. Qed.

(** A result that arrives after its lease expired overwrites another worker's:
    the row the second worker delivered becomes failed. *)
Example late_result_overwrites :
  let x := demo_due 2 "2" 2 in
  let claim1 := (fetch_due 1 "a" 100 demo_queue).2 in
  let claim2 := (fetch_due 3 "b" 161 claim1).2 in
  let done2 := deliver_one no_permanent demo_config 162 x (Responded (Some 200) None) claim2 in
  (status <$> deliveries done2 !! 1%nat,
   status <$> deliveries (deliver_one no_permanent demo_config 170 x (Errored "timeout") done2) !! 1%nat)
  = (Some Delivered, Some Failed).
Proof. vm_compute. reflexivity. Qed.


Lemma demo_usable : usable demo_queue.
Proof.
  intros d Hd. exists demo_sub, "k"%char, "". cbn in Hd.
  repeat (apply elem_of_cons in Hd as [-> | Hd]; [done|]). by apply elem_of_nil in Hd.
Qed.

Lemma pass_settles_every_due_row_witness :
  ∃ delivered failed (inflight : list DueDelivery) db',
    deliver_with_shutdown no_permanent demo_config false 4 "w" (λ _, 100) demo_run503 demo_queue
      = (Ok (delivered, failed), db') ∧ (delivered + failed = length inflight)%nat.
Proof.
  destruct (pass_settles_every_due_row no_permanent demo_config "w" (λ _, 100) demo_run503 demo_queue)
    as (a & b & l & db' & H & Hn & _); [cbn; lia|apply demo_usable| | | | | |by exists a, b, l, db'].
  - cbn. repeat (apply NoDup_cons; split; [set_solver|]). constructor.
  - intros j. unfold LEASE_SECS. lia.
  - intros j. lia.
  - intros l. unfold demo_run503. rewrite <-!list_fmap_compose. erewrite list_fmap_ext; [by rewrite list_fmap_id|done].
  - intros l p (x & -> & _)%list_elem_of_fmap. done.
Defined.

Lemma auto_disable_policy_witness :
  ∃ s', find_sub "s1" (deliver_one no_permanent demo_config 100 (demo_due 1 "1" 0) (Errored "timeout") demo_queue) = Some s'
        ∧ consecutive_failures s' = 2.
Proof.
  destruct (auto_disable_policy no_permanent demo_config 100 (demo_due 1 "1" 0) (Errored "timeout") demo_queue demo_sub
              eq_refl eq_refl) as (s' & Hs & Hc & _).
  exists s'. split; [exact Hs|exact Hc].
Defined.

Lemma retry_delay_bounds_witness :
  ∃ r', r' ∈ deliveries (mark_retry (demo_due 1 "1" 0) "timeout" 3 None None 100 demo_queue) ∧ d_id r' = 1
        ∧ 101 ≤ next_attempt_at r' ≤ 102.
Proof.
  destruct (retry_delay_bounds (demo_due 1 "1" 0) "timeout" 3 None None 100 demo_queue (demo_row 1 "1" Pending 0))
    as (r' & Hr & Hi & _ & Hn); [left|reflexivity|cbn; lia|cbn; lia|].
  exists r'. split; [exact Hr|]. split; [exact Hi|exact Hn].
Defined.

Lemma prune_correct_witness :
  prune_webhook_deliveries 4 14 2000000 (deliveries demo_queue)
  = Some (1%nat, [demo_row 1 "1" Pending 0; demo_row 2 "2" Pending 2]).
Proof.
  refine (eq_trans (prune_correct 14 2000000 (deliveries demo_queue) _) _); [|reflexivity].
  cbn. repeat (apply NoDup_cons; split; [set_solver|]). constructor.
Defined.
