(* ===== verification/WebhookRoutes.v ===== *)
(** * WebhookRoutes: managing webhook subscriptions ([lumenqraph-api/src/routes/webhooks.rs])

    The handlers under [/webhooks] over the tables [webhook_subscriptions] (with
    the owner's key hash) and [webhook_deliveries], whose rows are those of
    [Dispatcher].  A handler is a sequence of statements; the environment of a
    request decides which statement fails, and gives the clock, the random
    secret and what the subscriber's endpoint answers to a ping.

    Where the source calls [log_webhook_action] without a key prefix
    ([update_webhook]), the prefix is the parameter [update_actor]; where it
    binds one value more than the statement has parameters
    ([rotate_webhook_secret]), the model follows the statement's text. *)
From S2P Require Import Prelude Text Containers Values Instances XdrDecode Spec UrlValidation Crypto Pagination ApiError Dispatcher Delivery.
From Stdlib Require Import Ascii.

Local Open Scope string_scope.
Local Open Scope Z_scope.

(** ** Data *)

(** A row of [webhook_subscriptions] with the columns the dispatcher does not
    read.  As in [Dispatcher], a secret is what its ciphertext decrypts to. *)
Record SubRow := {
  sub : Subscription;
  owner_key_hash : option string;
  sub_created_at : Z;
  auto_disabled_at : option Z;
}.

Record AuditRow := { key_hash_prefix : string; action_type : string; resource_id : string }.

(** The columns of [events] that [since] looks at. *)
Record Indexed := { ix_seq : Z; ix_ledger : Z; ix_closed_at : Z }.

Record Hooks := {
  table : gmap string SubRow;
  queue : list Delivery;
  indexed : list Indexed;
  audit : list AuditRow;
}.

Definition set_table (t : gmap string SubRow) (db : Hooks) : Hooks :=
  {| table := t; queue := queue db; indexed := indexed db; audit := audit db |}.
Definition set_queue (q : list Delivery) (db : Hooks) : Hooks :=
  {| table := table db; queue := q; indexed := indexed db; audit := audit db |}.
Definition set_audit (a : list AuditRow) (db : Hooks) : Hooks :=
  {| table := table db; queue := queue db; indexed := indexed db; audit := a |}.

Record CreateWebhook := {
  c_url : string;
  c_kind : string;
  c_contract_id : option string;
  c_contract_ids : option (list string);
  c_event_name : option string;
  c_event_names : option (list string);
  c_filter : option Json;
  c_since : option string;
}.

(** Absent, [null] and a value are [None], [Some None] and [Some (Some v)]. *)
Record UpdateWebhook := {
  u_active : option bool;
  u_url : option string;
  u_contract_id : option (option string);
  u_event_name : option (option string);
  u_contract_ids : option (option (list string));
  u_event_names : option (option (list string));
  u_filter : option (option Json);
}.

Record DeliveriesQuery := {
  q_limit : Z;
  q_offset : Z;
  q_after : option string;
  include_summary : bool;
}.

Record DeliverySummary := { total : Z; delivered : Z; failed : Z; pending : Z }.

Record RedriveQuery := { r_since : option Z; r_max : option Z }.

(** The request [test_webhook] sends. *)
Record Ping := {
  ping_url : string;
  ping_ip : IpAddr;
  ping_headers : list (string * string);
  ping_body : string;
}.

(** ** Statements *)

(** [stmt_fails n]: how the [n]-th statement of the request fails, if it does;
    [random_secs]: the [random() * $4] of a redriven row. *)
Record Env := {
  stmt_fails : nat → option string;
  now : Z;
  new_uuid : string;
  random_bytes : list ascii;
  random_secs : Z → Z;
  http_post : Ping → result string Z;
}.

(** A request's computation: the tables and the number of statements so far. *)
Definition H (A : Type) : Type := Env → Hooks * nat → result ApiError.ApiError A * (Hooks * nat).

#[export] Instance H_ret : MRet H := λ A a env s, (Ok a, s).
#[export] Instance H_bind : MBind H := λ A B k m env s,
  match m env s with (Ok a, s) => k a env s | (Err e, s) => (Err e, s) end.

Definition lift {A} (r : result ApiError.ApiError A) : H A := λ env s, (r, s).
Definition raise {A} (e : ApiError.ApiError) : H A := lift (Err e).
Definition ask {A} (f : Env → A) : H A := λ env s, (Ok (f env), s).

(** A statement with its own failure: [sqlx::Error] becomes [Internal]. *)
Definition stmt_env {A} (f : Env → Hooks → result ApiError.ApiError (A * Hooks)) : H A := λ env '(db, n),
  match stmt_fails env n with
  | Some e => (Err (Internal e), (db, S n))
  | None => match f env db with
            | Ok (a, db') => (Ok a, (db', S n))
            | Err e => (Err e, (db, S n))
            end
  end.

Definition select {A} (f : Hooks → A) : H A := stmt_env (λ _ db, Ok (f db, db)).

(** ** Validation *)

Section validation.
Context `{Stellar}.

Definition MAX_BACKFILL_COUNT : Z := 100000.

Definition validate_contract_id (id : string) : result ApiError.ApiError () :=
  if is_valid_contract_id id then Ok tt
  else Err (bad_request ("invalid contract_id `" +:+ id +:+
                         "`; expected a Soroban contract address (C… strkey)")).

Definition validate_event_name (name : string) : result ApiError.ApiError () :=
  if String.eqb name "" then Err (bad_request "event_name must not be empty")
  else if (32 <? String.length name)%nat then
    Err (bad_request "event_name must be ≤32 characters (Soroban symbol limit)")
  else if negb (forallb (λ c, is_ascii_alphanumeric c || (c =? 95)) (chars name)) then
    Err (bad_request "event_name must contain only ASCII letters, digits, and underscores")
  else Ok tt.

(** The loop over the entries of a filter. *)
Fixpoint validate_filter_entries (l : list (string * Json)) : result ApiError.ApiError () :=
  match l with
  | [] => Ok tt
  | (key, value) :: l' =>
      if (64 <? String.length key)%nat then Err (bad_request "filter key names must be <=64 chars")
      else match value with
           | JObj _ => Err (bad_request
               "nested filter objects are not supported; use flat keys like topic2 or to")
           | _ => validate_filter_entries l'
           end
  end.

Definition validate_webhook_filter (filter : Json) : result ApiError.ApiError () :=
  match filter with
  | JObj obj =>
      if (16 <? length obj)%nat then Err (bad_request "filter contains too many keys (max 16)")
      else validate_filter_entries obj
  | JNull => Ok tt
  | _ => Err (bad_request "filter must be a JSON object or null; use keys like topic2 or to")
  end.

(** [normalize_contract_ids] and [normalize_event_names] have the same body. *)
Definition normalize_contract_ids (legacy_single : option string) (multi : option (list string))
    : option (list string) :=
  let single := match legacy_single with
                | Some v => if String.eqb v "" then [] else [v]
                | None => []
                end in
  let values := base.filter (λ v, v ≠ "") (single ++ default [] multi)%list in
  if is_empty values then None else Some values.

Definition normalize_event_names : option string → option (list string) → option (list string) :=
  normalize_contract_ids.

(** The first error of [check] over a list. *)
Fixpoint validate_all (check : string → result ApiError.ApiError ()) (l : list string)
    : result ApiError.ApiError () :=
  match l with
  | [] => Ok tt
  | x :: l' => _ ← check x; validate_all check l'
  end.

Definition validate_ids (ids : list string) : result ApiError.ApiError () :=
  if (25 <? length ids)%nat then Err (bad_request "contract_ids must contain at most 25 entries")
  else validate_all validate_contract_id ids.

Definition validate_names (names : list string) : result ApiError.ApiError () :=
  if (25 <? length names)%nat then Err (bad_request "event_names must contain at most 25 entries")
  else validate_all validate_event_name names.

(** [if let Some(x) = o { check(x)?; }]. *)
Definition when_some {A} (check : A → result ApiError.ApiError ()) (o : option A)
    : result ApiError.ApiError () :=
  match o with Some x => check x | None => Ok tt end.

End validation.

Definition MAX_GRACE_SECONDS : Z := 7 * 86400.

Definition validate_grace_seconds (grace_seconds : Z) : result ApiError.ApiError () :=
  if (0 <=? grace_seconds) && (grace_seconds <=? MAX_GRACE_SECONDS) then Ok tt
  else Err (bad_request ("grace_seconds must be between 0 and " +:+ show_i MAX_GRACE_SECONDS)).

(** [split_clearable]. *)
Definition split_clearable {A} (field : option (option A)) : bool * option A :=
  match field with None => (false, None) | Some value => (true, value) end.

(** ** The handlers *)

Section handlers.
Context `{Stellar} `{NetEnv} `{CryptoLib} `{Base64}.
(** [chrono]'s RFC 3339 parser and printer, the text of an IP address and
    [serde_json::to_string]. *)
Context (parse_from_rfc3339 : string → option Z) (show_time : Z → string).
Context (show_ip : IpAddr → string) (to_json_text : Json → string).
Context (update_actor : string).

(** [UrlError]'s text. *)
Definition url_error_text (e : UrlError) : string :=
  match e with
  | InvalidUrl e => "invalid URL: " +:+ e
  | BadScheme => "url scheme must be http or https"
  | NoHost => "url must have a host"
  | InternalAddress =>
      "url points to an internal/reserved address (loopback, link-local, private, or multicast)"
  | InternalIp => "IP address points to an internal/reserved network"
  | NoAddresses => "hostname resolved to no addresses"
  | ResolvesInternal ip => "hostname resolves to internal/reserved address: " +:+ show_ip ip
  | Unresolved => "could not resolve hostname"
  end.

Definition validate_url (url : string) : result ApiError.ApiError () :=
  map_err (λ e, bad_request ("invalid webhook url: " +:+ url_error_text e)) (validate_webhook_url url).

(** [log_webhook_action]: a failure is logged and dropped. *)
Definition log_webhook_action (key action resource : string) : H () := λ env s,
  let row := {| key_hash_prefix := of_chars (take 8 (chars key)); action_type := action;
                resource_id := resource |} in
  match stmt_env (λ _ db, Ok (tt, set_audit (audit db ++ [row]) db)) env s with (_, s) => (Ok tt, s) end.

Definition max_seq_of (l : list Indexed) : Z := foldr (λ e m, Z.max (ix_seq e) m) 0 l.

(** [SELECT min(seq) FROM events WHERE ..]. *)
Definition min_seq_where (p : Indexed → bool) (l : list Indexed) : option Z :=
  foldr (λ e m, if p e then Some (match m with Some n => Z.min (ix_seq e) n | None => ix_seq e end) else m)
    None l.

(** [current_max - count] wraps in the release profile. *)
Definition calculate_starting_seq (since : string) : H Z :=
  if starts_with "last " since then
    count ← lift (ok_or (bad_request "invalid 'last N' format; expected 'last <number>'")
                    (parse_int 64 (default "0" (strip_prefix "last " since))));
    if MAX_BACKFILL_COUNT <? count then
      raise (bad_request ("since 'last N' exceeds maximum allowed backfill count (" +:+
                          show_i MAX_BACKFILL_COUNT +:+ ")"))
    else
      current_max ← select (λ db, max_seq_of (indexed db));
      mret (Z.max (as_signed 64 (current_max - count)) 0)
  else match parse_int 64 since with
  | Some ledger =>
      seq ← select (λ db, min_seq_where (λ e, ledger <=? ix_ledger e) (indexed db));
      mret (default 0 seq)
  | None =>
      ts ← lift (ok_or (bad_request "invalid timestamp format; expected ISO-8601") (parse_from_rfc3339 since));
      seq ← select (λ db, min_seq_where (λ e, ts <=? ix_closed_at e) (indexed db));
      mret (default 0 seq)
  end.

Definition kind_of (k : string) : option SubKind :=
  if String.eqb k "event" then Some KindEvent else if String.eqb k "upgrade" then Some KindUpgrade else None.

(** [random_secret]. *)
Definition random_secret (bytes : list ascii) : string := hex_encode bytes.

(** The columns an INSERT leaves to their defaults are the schema's:
    [contract_ids] and [event_names] are NOT NULL, [backfill_seq] is NULL. *)
Definition insert_subscription (id url : string) (kind : SubKind) (ids names : option (list string))
    (filter : Json) (secret : string) (starting : Z) (owner : option string) (at_ : Z) (db : Hooks)
    : result ApiError.ApiError (SubRow * Hooks) :=
  match ids, names with
  | Some ids, Some names =>
      let row := {|
        sub := {| sub_id := id; url := url; active := true; kind := kind; s_contract_id := head ids;
                  s_event_name := head names; contract_ids := ids; event_names := names;
                  filter := Some filter; starting_seq := starting; backfill_seq := None;
                  Dispatcher.secret := Some secret; previous_secret := None;
                  previous_secret_expires_at := None; consecutive_failures := 0;
                  last_success_at := None; first_failure_at := None; auto_disabled_reason := None |};
        owner_key_hash := owner; sub_created_at := at_; auto_disabled_at := None |} in
      if bool_decide (is_Some (table db !! id))
      then Err (Internal "duplicate key value violates unique constraint webhook_subscriptions_pkey")
      else Ok (row, set_table (<[id := row]> (table db)) db)
  | None, _ => Err (Internal "null value in column contract_ids violates not-null constraint")
  | _, None => Err (Internal "null value in column event_names violates not-null constraint")
  end.

Definition create_webhook (caller : option string) (b : CreateWebhook) : H (SubRow * string) :=
  _ ← lift (validate_url (c_url b));
  kind ← lift (ok_or (bad_request ("unknown kind `" +:+ c_kind b +:+ "`; expected `event` or `upgrade`"))
                 (kind_of (c_kind b)));
  _ ← (if bool_decide (kind = KindUpgrade ∧ is_Some (c_event_name b)) then
         raise (bad_request "event_name does not apply to an `upgrade` subscription; use contract_id to watch one contract, or omit it to watch all")
       else mret tt);
  let contract_ids := normalize_contract_ids (c_contract_id b) (c_contract_ids b) in
  let event_names := normalize_event_names (c_event_name b) (c_event_names b) in
  _ ← lift (when_some validate_webhook_filter (c_filter b));
  _ ← lift (when_some validate_ids contract_ids);
  _ ← lift (when_some validate_names event_names);
  secret ← ask (λ env, random_secret (random_bytes env));
  '(starting_seq, _) ← (match c_since b with
    | Some since =>
        backfill_start ← calculate_starting_seq since;
        global_max ← select (λ db, max_seq_of (indexed db));
        mret (global_max, if backfill_start <? global_max then Some backfill_start else None)
    | None => mret (0, None)
    end : H (Z * option Z));
  row ← stmt_env (λ env, insert_subscription (new_uuid env) (c_url b) kind contract_ids event_names
                           (default JNull (c_filter b)) secret starting_seq caller (now env));
  _ ← log_webhook_action (default "anon" caller) "webhook_create" (sub_id (sub row));
  mret (row, secret).

(** [subscription_json] and [webhook_row_json]. *)
Definition opt_json {A} (f : A → Json) (o : option A) : Json := match o with Some x => f x | None => JNull end.

Definition subscription_json (r : SubRow) : Json :=
  let s := sub r in
  mk_obj [
    ("id", JStr (sub_id s));
    ("url", JStr (url s));
    ("kind", JStr (match kind s with KindEvent => "event" | KindUpgrade => "upgrade" end));
    ("contract_id", opt_json JStr (s_contract_id s));
    ("event_name", opt_json JStr (s_event_name s));
    ("contract_ids", JArr (JStr <$> contract_ids s));
    ("event_names", JArr (JStr <$> event_names s));
    ("filter", opt_json id (filter s));
    ("active", JBool (active s));
    ("created_at", JStr (show_time (sub_created_at r)));
    ("auto_disabled_at", opt_json (JStr ∘ show_time) (auto_disabled_at r));
    ("auto_disabled_reason", opt_json JStr (auto_disabled_reason s))
  ].

(** [owner_key_hash = $k], and [IS NOT DISTINCT FROM]. *)
Definition owned_by (caller : string) (r : SubRow) : bool := bool_decide (owner_key_hash r = Some caller).
Definition owned_as (caller : option string) (r : SubRow) : bool := bool_decide (owner_key_hash r = caller).

(** [ORDER BY created_at DESC]; ties in the order of the table. *)
Definition created_desc (a b : SubRow) : comparison := Z.compare (sub_created_at b) (sub_created_at a).

Definition rows_where (p : SubRow → bool) (db : Hooks) : list SubRow :=
  (map_to_list (base.filter (λ kv, p kv.2 = true) (table db))).*2.

Definition list_webhooks (caller : string) : H Json :=
  rows ← select (λ db, sort_by created_desc (rows_where (owned_by caller) db));
  mret (JArr (subscription_json <$> rows)).

(** [SELECT .. WHERE id = $1 AND ..]. *)
Definition row_where (id : string) (p : SubRow → bool) (db : Hooks) : option SubRow :=
  r ← table db !! id; if p r then Some r else None.

Definition sub_not_found : ApiError.ApiError := not_found "webhook subscription not found".

Definition get_webhook (caller : option string) (id : string) : H Json :=
  row ← select (row_where id (owned_as caller));
  row ← lift (ok_or sub_not_found row);
  mret (subscription_json row).

Definition test_webhook (caller : option string) (id : string) : H Json :=
  row ← stmt_env (λ env db, match row_where id (owned_as caller) db with
                            | Some r => match Dispatcher.secret (sub r) with
                                        | Some s => Ok (Some (url (sub r), s), db)
                                        | None => Err (Internal "Wrong key or corrupt data")
                                        end
                            | None => Ok (None, db)
                            end);
  '(url, secret) ← lift (ok_or sub_not_found row);
  env ← ask (λ env, env);
  let delivery_id := new_uuid env in
  let body := to_json_text (mk_obj [("type", JStr "ping"); ("subscription_id", JStr id);
                ("delivery_id", JStr delivery_id); ("sent_at", JStr (show_time (now env)))]) in
  let timestamp := now env in
  header ← lift (ok_or (Internal "invalid webhook secret") (signature_header secret None timestamp body));
  parsed ← lift (map_err Internal (url_parse url));
  _ ← lift (ok_or (Internal "webhook url has no host") (host_str parsed));
  ip ← lift (map_err (λ e, bad_request ("webhook url is not deliverable: " +:+ url_error_text e))
               (validate_webhook_url_at_delivery url));
  let ping := {| ping_url := url; ping_ip := ip; ping_body := body;
                 ping_headers := [("Content-Type", "application/json");
                   ("X-Lumenqraph-Signature", header);
                   ("X-Lumenqraph-Delivery-Id", delivery_id);
                   ("X-Lumenqraph-Timestamp", show_i timestamp)] |} in
  mret (match http_post env ping with
        | Ok status => mk_obj [("delivery_id", JStr delivery_id);
            ("delivered", JBool (is_success status)); ("status_code", JInt status)]
        | Err e => mk_obj [("delivery_id", JStr delivery_id); ("delivered", JBool false); ("error", JStr e)]
        end).

(** The UPDATE of [update_webhook] on the row it selects. *)
Definition patch_row (b : UpdateWebhook) (r : SubRow) : result ApiError.ApiError SubRow :=
  let s := sub r in
  let '(set_contract, contract_id) := split_clearable (u_contract_id b) in
  let '(set_event, event_name) := split_clearable (u_event_name b) in
  let '(set_contracts, ids) := split_clearable (u_contract_ids b) in
  let '(set_events, names) := split_clearable (u_event_names b) in
  let '(set_filter, flt) := split_clearable (u_filter b) in
  let reactivate := bool_decide (u_active b = Some true) in
  ids ← (if set_contracts
         then ok_or (Internal "null value in column contract_ids violates not-null constraint") ids
         else Ok (contract_ids s));
  names ← (if set_events
           then ok_or (Internal "null value in column event_names violates not-null constraint") names
           else Ok (event_names s));
  Ok {|
    sub := {| sub_id := sub_id s; url := default (url s) (u_url b); active := default (active s) (u_active b);
              kind := kind s;
              s_contract_id := if set_contract then contract_id else s_contract_id s;
              s_event_name := if set_event then event_name else s_event_name s;
              contract_ids := ids; event_names := names;
              filter := if set_filter then Some (default JNull flt) else filter s;
              starting_seq := starting_seq s; backfill_seq := backfill_seq s;
              Dispatcher.secret := Dispatcher.secret s; previous_secret := previous_secret s;
              previous_secret_expires_at := previous_secret_expires_at s;
              consecutive_failures := if reactivate then 0 else consecutive_failures s;
              last_success_at := last_success_at s; first_failure_at := first_failure_at s;
              auto_disabled_reason := if reactivate then None else auto_disabled_reason s |};
    owner_key_hash := owner_key_hash r; sub_created_at := sub_created_at r;
    auto_disabled_at := if reactivate then None else auto_disabled_at r |}.

(** [UPDATE .. WHERE id = $1 RETURNING ..] with [fetch_one]. *)
Definition update_row (id : string) (f : SubRow → result ApiError.ApiError SubRow) (db : Hooks)
    : result ApiError.ApiError (SubRow * Hooks) :=
  match table db !! id with
  | None => Err (Internal "no rows returned by a query that expected to return at least one row")
  | Some r => r' ← f r; Ok (r', set_table (<[id := r']> (table db)) db)
  end.

Definition touches_event_fields (b : UpdateWebhook) : bool :=
  bool_decide (is_Some (u_event_name b)) || bool_decide (is_Some (u_event_names b)).

Definition no_fields (b : UpdateWebhook) : bool :=
  bool_decide (u_active b = None) && bool_decide (u_url b = None) && bool_decide (u_contract_id b = None)
  && negb (touches_event_fields b) && bool_decide (u_contract_ids b = None) && bool_decide (u_filter b = None).

Definition validate_update (b : UpdateWebhook) : result ApiError.ApiError () :=
  if no_fields b then Err (bad_request "no fields to update")
  else
    _ ← when_some (when_some validate_webhook_filter) (u_filter b);
    _ ← when_some validate_url (u_url b);
    _ ← when_some (when_some validate_ids) (u_contract_ids b);
    when_some (when_some validate_names) (u_event_names b).

Definition update_webhook (id : string) (b : UpdateWebhook) : H Json :=
  _ ← lift (validate_update b);
  kind ← select (λ db, kind ∘ sub <$> table db !! id);
  kind ← lift (ok_or sub_not_found kind);
  _ ← (if bool_decide (kind = KindUpgrade) && touches_event_fields b
       then raise (bad_request "event_name does not apply to an `upgrade` subscription")
       else mret tt);
  row ← stmt_env (λ _, update_row id (patch_row b));
  _ ← log_webhook_action update_actor "webhook_update" id;
  mret (subscription_json row).

(** [WHERE id = $1 AND owner_key_hash = $2]: no row when the caller is unknown. *)
Definition owned_opt (caller : option string) (r : SubRow) : bool :=
  match caller with Some k => owned_by k r | None => false end.

(** Deliveries of the row go with it (0002). *)
Definition delete_row (id : string) (db : Hooks) : Hooks :=
  set_queue (base.filter (λ d, subscription_id d ≠ id) (queue db)) (set_table (delete id (table db)) db).

Definition delete_webhook (caller : option string) (id : string) : H Json :=
  affected ← stmt_env (λ _ db, match row_where id (owned_opt caller) db with
                               | Some _ => Ok (1, delete_row id db)
                               | None => Ok (0, db)
                               end);
  _ ← (if affected =? 0 then raise sub_not_found else mret tt);
  _ ← log_webhook_action (default "anon" caller) "webhook_delete" id;
  mret (mk_obj [("deleted", JBool true)]).

(** ** Deliveries *)

Definition id_desc (a b : Delivery) : comparison := Z.compare (d_id b) (d_id a).
Definition id_asc (a b : Delivery) : comparison := Z.compare (d_id a) (d_id b).

Definition deliveries_of (id : string) (db : Hooks) : list Delivery :=
  base.filter (λ d, subscription_id d = id) (queue db).

Definition select_deliveries (id : string) (p : PageRequest IdCursor) (db : Hooks) : list Delivery :=
  take (Z.to_nat (fetch_limit p)) (drop (Z.to_nat (offset p))
    (sort_by id_desc (base.filter (λ d, match after p with Some c => d_id d <? c | None => true end = true)
                        (deliveries_of id db)))).

Definition count_status (st : Status) (l : list Delivery) : Z :=
  Z.of_nat (length (base.filter (λ d, status d = st) l)).

Definition summarise (l : list Delivery) : DeliverySummary :=
  {| total := Z.of_nat (length l); delivered := count_status Delivered l;
     failed := count_status Failed l; pending := count_status Pending l |}.

Definition list_webhook_deliveries (caller id : string) (q : DeliveriesQuery)
    : H (Page Delivery * option DeliverySummary) :=
  page ← lift (map_err page_error (parse_page (C:=IdCursor) (q_limit q) 500 (q_offset q) (q_after q)));
  exists_ ← select (λ db, bool_decide (is_Some (row_where id (owned_by caller) db)));
  _ ← (if (exists_ : bool) then mret tt else raise (not_found "subscription not found") : H ());
  rows ← select (select_deliveries id page);
  summary ← (if include_summary q
             then s ← select (λ db, summarise (deliveries_of id db)); mret (Some s)
             else mret None : H (option DeliverySummary));
  mret (finish page rows d_id, summary).

Definition DEFAULT_REDRIVE_BATCH : Z := 1000.
Definition MAX_REDRIVE_BATCH : Z := 10000.
Definition REDRIVE_JITTER_SECS : Z := 300.

(** [subscription_id = $1 AND status = 'failed' AND (since IS NULL OR ..)]. *)
Definition redrivable (id : string) (since : option Z) (d : Delivery) : bool :=
  bool_decide (subscription_id d = id ∧ status d = Failed)
  && match since with Some t => t <=? created_at d | None => true end.

(** [now() + random() * $4]: an instant within the jitter window. *)
Definition redrive_row (env : Env) (d : Delivery) : Delivery :=
  {| d_id := d_id d; subscription_id := subscription_id d; target := target d; status := Pending;
     attempts := 0; last_error := None; next_attempt_at := now env + random_secs env (d_id d);
     created_at := created_at d; locked_until := locked_until d; locked_by := locked_by d;
     last_status_code := None |}.

Definition redrive_ids (id : string) (since : option Z) (batch : Z) (q : list Delivery) : list Z :=
  d_id <$> take (Z.to_nat batch) (sort_by id_asc (base.filter (λ d, redrivable id since d = true) q)).

Definition redrive_rows (env : Env) (ids : list Z) (q : list Delivery) : list Delivery :=
  (λ d, if bool_decide (d_id d ∈ ids) then redrive_row env d else d) <$> q.

Definition redrive_webhook (caller id : string) (query : RedriveQuery) : H (Z * bool) :=
  let batch := default DEFAULT_REDRIVE_BATCH (r_max query) in
  _ ← (if (1 <=? batch) && (batch <=? MAX_REDRIVE_BATCH) then mret tt
       else raise (bad_request ("max must be between 1 and " +:+ show_i MAX_REDRIVE_BATCH)) : H ());
  row ← select (λ db, (λ r, (active (sub r), auto_disabled_at r)) <$> table db !! id);
  '(active, auto_disabled_at) ← lift (ok_or (not_found "subscription not found") row);
  _ ← (if negb (active : bool) || bool_decide (is_Some auto_disabled_at)
       then raise (conflict "subscription is inactive or auto-disabled; re-enable it before redriving")
       else mret tt : H ());
  redriven ← stmt_env (λ env db,
    let ids := redrive_ids id (r_since query) batch (queue db) in
    Ok (Z.of_nat (length ids), set_queue (redrive_rows env ids (queue db)) db));
  has_more ← select (λ db, existsb (redrivable id (r_since query)) (queue db));
  mret (redriven, has_more).

(** [SET active = true, auto_disabled_at = NULL, .. = 0]. *)
Definition reenable_row (r : SubRow) : SubRow :=
  {| sub := set_health true 0 (last_success_at (sub r)) (first_failure_at (sub r)) None (sub r);
     owner_key_hash := owner_key_hash r; sub_created_at := sub_created_at r; auto_disabled_at := None |}.

Definition reenable_webhook (caller id : string) : H Json :=
  exists_ ← select (λ db, bool_decide (is_Some (table db !! id)));
  _ ← (if (exists_ : bool) then mret tt else raise sub_not_found : H ());
  affected ← stmt_env (λ _ db,
    match row_where id (λ r, owned_by caller r && bool_decide (is_Some (auto_disabled_at r))) db with
    | Some r => Ok (1, set_table (<[id := reenable_row r]> (table db)) db)
    | None => Ok (0, db)
    end);
  mret (mk_obj [("reenabled", JBool (negb (affected =? 0)))]).

Definition rotate_row (new_secret : string) (expires : Z) (r : SubRow) : SubRow :=
  let s := sub r in
  {| sub := {| sub_id := sub_id s; url := url s; active := active s; kind := kind s;
               s_contract_id := s_contract_id s; s_event_name := s_event_name s;
               contract_ids := contract_ids s; event_names := event_names s; filter := filter s;
               starting_seq := starting_seq s; backfill_seq := backfill_seq s;
               Dispatcher.secret := Some new_secret; previous_secret := Dispatcher.secret s;
               previous_secret_expires_at := Some expires;
               consecutive_failures := consecutive_failures s; last_success_at := last_success_at s;
               first_failure_at := first_failure_at s; auto_disabled_reason := auto_disabled_reason s |};
     owner_key_hash := owner_key_hash r; sub_created_at := sub_created_at r;
     auto_disabled_at := auto_disabled_at r |}.

Definition rotate_webhook_secret (caller : option string) (id : string) (body : option Z) : H Json :=
  let grace_seconds := default 86400 body in
  _ ← lift (validate_grace_seconds grace_seconds);
  new_secret ← ask (λ env, random_secret (random_bytes env));
  updated ← stmt_env (λ env db,
    match table db !! id with
    | Some r =>
        let r' := rotate_row new_secret (now env + grace_seconds) r in
        Ok (Some (now env + grace_seconds), set_table (<[id := r']> (table db)) db)
    | None => Ok (None, db)
    end);
  previous_expires_at ← lift (ok_or sub_not_found updated);
  _ ← log_webhook_action (default "anon" caller) "webhook_rotate_secret" id;
  mret (mk_obj [("id", JStr id); ("secret", JStr new_secret);
                ("previous_secret_expires_at", JStr (show_time previous_expires_at))]).
End handlers.

(** ** Reasoning about handlers *)

Create HintDb hooks.

(** A computation keeps a property of the tables, however it ends. *)
Definition preserves {A} (env : Env) (P : Hooks → Prop) (m : H A) : Prop :=
  ∀ db n, P db → P (m env (db, n)).2.1.

Section preserves.
Context (env : Env) (P : Hooks → Prop).

Lemma preserves_lift {A} (r : result ApiError.ApiError A) : preserves env P (lift r).
Proof. by intros db n. Qed.

Lemma preserves_ret {A} (x : A) : preserves env P (mret x : H A).
Proof. by intros db n. Qed.

Lemma preserves_ask {A} (f : Env → A) : preserves env P (ask f).
Proof. by intros db n. Qed.

Lemma preserves_bind {A B} (m : H A) (k : A → H B) :
  preserves env P m → (∀ x, preserves env P (k x)) → preserves env P (m ≫= k).
Proof.
  intros Hm Hk db n HP. specialize (Hm db n HP). cbn. unfold mbind, H_bind.
  destruct (m env (db, n)) as [[a|e] [db' n']]; [|done]. by apply Hk.
Qed.

(** What follows a step may use what the step answered. *)
Lemma preserves_lift_bind {A B} (r : result ApiError.ApiError A) (k : A → H B) :
  (∀ x, r = Ok x → preserves env P (k x)) → preserves env P (lift r ≫= k).
Proof.
  intros Hk db n HP. cbn. unfold mbind, H_bind, lift. destruct r as [x|e]; [|done]. by apply Hk.
Qed.

Lemma preserves_stmt {A} (f : Env → Hooks → result ApiError.ApiError (A * Hooks)) :
  (∀ db x db', P db → f env db = Ok (x, db') → P db') → preserves env P (stmt_env f).
Proof.
  intros Hf db n HP. unfold stmt_env. destruct (stmt_fails env n); [done|].
  destruct (f env db) as [[x db']|e] eqn:E; [|done]. by eapply Hf.
Qed.

Lemma preserves_select {A} (f : Hooks → A) : preserves env P (select f).
Proof. apply preserves_stmt. by intros db x db' HP [= _ <-]. Qed.

Lemma preserves_if {A} (b : bool) (m n : H A) : preserves env P m → preserves env P n → preserves env P (if b then m else n).
Proof. by destruct b. Qed.

Lemma preserves_raise {A} e : preserves env P (raise e : H A).
Proof. apply preserves_lift. Qed.

Lemma preserves_log key action resource :
  (∀ a db, P db → P (set_audit a db)) → preserves env P (log_webhook_action key action resource).
Proof.
  intros Ha db n HP. unfold log_webhook_action, stmt_env.
  destruct (stmt_fails env n); [done|]. by apply Ha.
Qed.

Lemma preserves_since parse since : preserves env P (calculate_starting_seq parse since).
Proof.
  unfold calculate_starting_seq. destruct (starts_with "last " since).
  - apply preserves_bind; [apply preserves_lift|]. intros c. apply preserves_if; [apply preserves_raise|].
    apply preserves_bind; [apply preserves_select|]. intros. apply preserves_ret.
  - destruct (parse_int 64 since).
    + apply preserves_bind; [apply preserves_select|]. intros. apply preserves_ret.
    + apply preserves_bind; [apply preserves_lift|]. intros.
      apply preserves_bind; [apply preserves_select|]. intros. apply preserves_ret.
Qed.
End preserves.

#[export] Hint Resolve preserves_lift preserves_ret preserves_ask preserves_select preserves_raise
  preserves_since : hooks.

(** One step of a handler at a time. *)
Ltac handler_step :=
  lazymatch goal with
  | |- preserves _ _ (lift _ ≫= _) => apply preserves_lift_bind; intros ? ?
  | |- preserves _ _ (_ ≫= _) => apply preserves_bind; [|intros ?]
  | |- preserves _ _ (if _ then _ else _) => apply preserves_if
  | |- preserves _ _ (let '(_, _) := ?x in _) => destruct x
  | |- preserves _ _ (match ?x with _ => _ end) => destruct x
  | |- preserves _ _ _ => solve [eauto with hooks]
  end.

(** ** What a key holder may ask *)

Inductive OwnReq : Type :=
  | ReqCreate (b : CreateWebhook)
  | ReqList
  | ReqGet (id : string)
  | ReqTest (id : string)
  | ReqDelete (id : string)
  | ReqDeliveries (id : string) (q : DeliveriesQuery).

Inductive Answer : Type :=
  | ACreated (row : SubRow) (secret : string)
  | AJson (j : Json)
  | ADeliveries (p : Page Delivery) (s : option DeliverySummary).

Section isolation.
Context `{Stellar} `{NetEnv} `{CryptoLib} `{Base64}.
Context (parse_from_rfc3339 : string → option Z) (show_time : Z → string).
Context (show_ip : IpAddr → string) (to_json_text : Json → string).

(** The handlers that check the caller, as a key holder calls them. *)
Definition own_request (k : string) (r : OwnReq) : H Answer :=
  match r with
  | ReqCreate b => '(row, secret) ← create_webhook parse_from_rfc3339 show_ip (Some k) b; mret (ACreated row secret)
  | ReqList => j ← list_webhooks show_time k; mret (AJson j)
  | ReqGet id => j ← get_webhook show_time (Some k) id; mret (AJson j)
  | ReqTest id => j ← test_webhook show_time show_ip to_json_text (Some k) id; mret (AJson j)
  | ReqDelete id => j ← delete_webhook (Some k) id; mret (AJson j)
  | ReqDeliveries id q => '(p, s) ← list_webhook_deliveries k id q; mret (ADeliveries p s)
  end.

(** What key [k] owns, and the tables it cannot tell apart. *)
Definition owned (k : string) (db : Hooks) : gmap string SubRow :=
  base.filter (λ kv, owned_by k kv.2 = true) (table db).

Definition same_view (k : string) (db1 db2 : Hooks) : Prop :=
  owned k db1 = owned k db2 ∧ indexed db1 = indexed db2
  ∧ ∀ id, is_Some (owned k db1 !! id) → deliveries_of id db1 = deliveries_of id db2.

Lemma row_where_owned k id db : row_where id (owned_by k) db = owned k db !! id.
Proof.
  unfold row_where, owned. rewrite map_lookup_filter. destruct (table db !! id) as [r|]; [|done]. cbn.
  destruct (owned_by k r) eqn:E; cbn; by rewrite ?option_guard_True, ?option_guard_False by (by rewrite ?E).
Qed.

Lemma rows_where_owned k db : rows_where (owned_by k) db = (map_to_list (owned k db)).*2.
Proof. done. Qed.

#[export] Instance same_view_equiv k : Equivalence (same_view k).
Proof.
  split.
  - by intros db.
  - intros a b (Ho & Hi & Hd). split_and!; [done..|]. intros id Hid. rewrite Hd; [done|by rewrite Ho].
  - intros a b c (Ho & Hi & Hd) (Ho' & Hi' & Hd'). split_and!; [congruence..|].
    intros id Hid. rewrite Hd by done. apply Hd'. by rewrite <- Ho.
Qed.

Lemma same_view_audit k a db : same_view k db (set_audit a db).
Proof. done. Qed.

(** Rows of another key may come and go. *)
Lemma same_view_insert k id r db :
  owned_by k r = false → owned k db !! id = None →
  same_view k db (set_table (<[id := r]> (table db)) db).
Proof.
  intros Hr Hid. split_and!; [|done|done]. unfold owned. cbn [set_table table].
  apply map_eq. intros j. rewrite !map_lookup_filter. destruct (decide (j = id)) as [->|Hne].
  - rewrite lookup_insert_eq. cbn. rewrite option_guard_False by (by rewrite Hr).
    unfold owned in Hid. by rewrite map_lookup_filter in Hid.
  - by rewrite lookup_insert_ne.
Qed.

Lemma same_view_delete k id db : owned k db !! id = None → same_view k db (delete_row id db).
Proof.
  intros Hid. split_and!; [|done|].
  - unfold owned, delete_row. cbn [set_queue set_table table]. apply map_eq. intros j.
    destruct (decide (j = id)) as [->|Hne].
    + unfold owned in Hid. rewrite Hid. rewrite map_lookup_filter, lookup_delete_eq. done.
    + by rewrite !map_lookup_filter, lookup_delete_ne.
  - intros j Hj. unfold deliveries_of, delete_row. cbn [set_queue queue]. rewrite list_filter_filter.
    apply list_filter_iff. intros d. split; [|by intros [? _]]. intros <-. split; [done|].
    intros E. rewrite E, Hid in Hj. by destruct Hj.
Qed.

Lemma owned_other k k' r : k ≠ k' → owned_by k r = true → owned_by k' r = false.
Proof. unfold owned_by. rewrite bool_decide_eq_true, bool_decide_eq_false. congruence. Qed.

Lemma insert_ok id url kind ids names f s st o at_ db x db' :
  insert_subscription id url kind ids names f s st o at_ db = Ok (x, db') →
  table db !! id = None ∧ owner_key_hash x = o ∧ db' = set_table (<[id := x]> (table db)) db.
Proof.
  unfold insert_subscription. destruct ids as [ids|]; [|done]. destruct names as [names|]; [|done].
  case_bool_decide as Hid; [done|]. intros [= <- <-]. split_and!; [|done|done].
  by destruct (table db !! id); [destruct Hid|].
Qed.

Lemma owned_none k id db : table db !! id = None → owned k db !! id = None.
Proof. intros E. unfold owned. by rewrite map_lookup_filter, E. Qed.

Lemma owned_not_other k k' id r db :
  k ≠ k' → row_where id (owned_by k) db = Some r → owned k' db !! id = None.
Proof.
  unfold row_where, owned. intros Hk. rewrite map_lookup_filter.
  destruct (table db !! id) as [r'|]; [|done]. cbn. destruct (owned_by k r') eqn:E; [|done].
  intros _. by rewrite option_guard_False by (by rewrite (owned_other k k')).
Qed.

(** A key's requests do not change what other keys see. *)
Lemma own_request_preserves k k' env db0 r :
  k ≠ k' → preserves env (same_view k' db0) (own_request k r).
Proof.
  intros Hk. destruct r; cbn [own_request]; unfold create_webhook, list_webhooks, get_webhook, test_webhook,
    delete_webhook, list_webhook_deliveries; repeat handler_step;
    try (apply preserves_log; intros a db Hdb; by rewrite Hdb);
    apply preserves_stmt; intros db x' db' Hdb Hok; rewrite Hdb.
  - apply insert_ok in Hok as (Hid & Ho & ->). apply same_view_insert; [|by apply owned_none].
    unfold owned_by. rewrite Ho. apply bool_decide_eq_false. congruence.
  - destruct (row_where _ _ _) as [row|]; [destruct (Dispatcher.secret _)|]; simplify_eq; done.
  - destruct (row_where _ _ _) as [row|] eqn:Hrow; [|by simplify_eq].
    injection Hok as _ <-. apply same_view_delete. by eapply owned_not_other.
Qed.

(** ** Answers depend on the caller's rows *)

(** From tables related by [E] the two runs answer alike and end related. *)
Definition agrees {A} (E : Hooks → Hooks → Prop) (env : Env) (m : H A) : Prop :=
  ∀ db1 db2 n, E db1 db2 →
    (m env (db1, n)).1 = (m env (db2, n)).1
    ∧ (m env (db1, n)).2.2 = (m env (db2, n)).2.2
    ∧ E (m env (db1, n)).2.1 (m env (db2, n)).2.1.

Section agrees.
Context (E : Hooks → Hooks → Prop) (env : Env).

Lemma agrees_lift {A} (r : result ApiError.ApiError A) : agrees E env (lift r).
Proof. by intros db1 db2 n HE. Qed.

Lemma agrees_ret {A} (x : A) : agrees E env (mret x).
Proof. by intros db1 db2 n HE. Qed.

Lemma agrees_ask {A} (f : Env → A) : agrees E env (ask f).
Proof. by intros db1 db2 n HE. Qed.

Lemma agrees_bind {A B} (m : H A) (k : A → H B) :
  agrees E env m → (∀ x, agrees E env (k x)) → agrees E env (m ≫= k).
Proof.
  intros Hm Hk db1 db2 n HE. destruct (Hm db1 db2 n HE) as (Ha & Hb & Hc).
  unfold mbind, H_bind. destruct (m env (db1, n)) as [r1 [d1 n1]], (m env (db2, n)) as [r2 [d2 n2]].
  cbn in Ha, Hb, Hc. subst r2 n2. destruct r1 as [x|e]; [|done]. by apply Hk.
Qed.

Lemma agrees_raise_bind {A B} e (k : A → H B) : agrees E env (raise e ≫= k).
Proof. by intros db1 db2 n HE. Qed.

Lemma agrees_if {A} (b : bool) (m n : H A) : agrees E env m → agrees E env n → agrees E env (if b then m else n).
Proof. by destruct b. Qed.

Lemma agrees_stmt {A} (f : Env → Hooks → result ApiError.ApiError (A * Hooks)) :
  (∀ db1 db2, E db1 db2 →
     match f env db1, f env db2 with
     | Ok (x, db1'), Ok (y, db2') => x = y ∧ E db1' db2'
     | Err e, Err e' => e = e'
     | _, _ => False
     end) → agrees E env (stmt_env f).
Proof.
  intros Hf db1 db2 n HE. unfold stmt_env. destruct (stmt_fails env n); [done|].
  specialize (Hf db1 db2 HE). destruct (f env db1) as [[x d1]|e], (f env db2) as [[y d2]|e']; try done.
  - by destruct Hf as [-> ?].
  - by subst.
Qed.

Lemma agrees_select {A} (f : Hooks → A) : (∀ db1 db2, E db1 db2 → f db1 = f db2) → agrees E env (select f).
Proof. intros Hf. apply agrees_stmt. intros db1 db2 HE. split; [by apply Hf|done]. Qed.

(** What follows a query may rely on what it saw. *)
Lemma agrees_select_bind {A B} (f : Hooks → A) (k : A → H B) :
  (∀ db1 db2, E db1 db2 → f db1 = f db2) →
  (∀ x, agrees (λ a b, E a b ∧ f a = x ∧ f b = x) env (k x)) → agrees E env (select f ≫= k).
Proof.
  intros Hf Hk db1 db2 n HE. unfold mbind, H_bind, select, stmt_env.
  destruct (stmt_fails env n); [done|]. rewrite (Hf _ _ HE).
  destruct (Hk (f db2) db1 db2 (S n)) as (Ha & Hb & Hc & _); [by rewrite (Hf _ _ HE)|done].
Qed.

Lemma agrees_log key action resource :
  (∀ db1 db2 a1 a2, E db1 db2 → E (set_audit a1 db1) (set_audit a2 db2)) →
  agrees E env (log_webhook_action key action resource).
Proof.
  intros Ha db1 db2 n HE. unfold log_webhook_action, stmt_env.
  destruct (stmt_fails env n); cbn; [done|]. split_and!; [done..|]. by apply Ha.
Qed.
End agrees.

#[local] Hint Resolve agrees_lift agrees_ret agrees_ask : hooks.

Ltac agree_step :=
  lazymatch goal with
  | |- agrees _ _ (_ ≫= _) => apply agrees_bind; [|intros ?]
  | |- agrees _ _ (raise _) => apply agrees_lift
  | |- agrees _ _ (if _ then _ else _) => apply agrees_if
  | |- agrees _ _ (let '(_, _) := ?x in _) => destruct x
  | |- agrees _ _ (match ?x with _ => _ end) => destruct x
  | |- agrees _ _ _ => solve [eauto with hooks]
  end.

(** The same view, and the identifier [u] taken in both tables or in neither,
    with the same deliveries. *)
Definition same_view_at (k u : string) (db1 db2 : Hooks) : Prop :=
  same_view k db1 db2 ∧ (table db1 !! u = None ↔ table db2 !! u = None)
  ∧ deliveries_of u db1 = deliveries_of u db2.

Lemma same_view_row k db1 db2 id :
  same_view k db1 db2 → row_where id (owned_by k) db1 = row_where id (owned_by k) db2.
Proof. intros (Ho & _). by rewrite !row_where_owned, Ho. Qed.

Lemma same_view_insert_both k u r db1 db2 :
  same_view_at k u db1 db2 → owned_by k r = true →
  same_view_at k u (set_table (<[u := r]> (table db1)) db1) (set_table (<[u := r]> (table db2)) db2).
Proof.
  intros [(Ho & Hi & Hd) [Hu Hq]] Hr. split; [split_and!; [|done|]|split; [|done]].
  - unfold owned in *. cbn [set_table table]. rewrite !map_filter_insert_True by done. by rewrite Ho.
  - intros j Hj. change (deliveries_of j db1 = deliveries_of j db2). destruct (decide (j = u)) as [->|Hne]; [done|].
    apply Hd. unfold owned in *. cbn [set_table table] in Hj. rewrite map_filter_insert_True in Hj by done.
    by rewrite lookup_insert_ne in Hj.
  - cbn [set_table table]. rewrite !lookup_insert_None. tauto.
Qed.

Lemma deliveries_after_delete j id db : j ≠ id → deliveries_of j (delete_row id db) = deliveries_of j db.
Proof.
  intros Hne. unfold deliveries_of, delete_row. cbn [set_queue queue]. rewrite list_filter_filter.
  apply list_filter_iff. intros d. split; [by intros [? _]|by intros <-].
Qed.

Lemma deliveries_of_deleted id db : deliveries_of id (delete_row id db) = [].
Proof.
  unfold deliveries_of, delete_row. cbn [set_queue queue]. rewrite list_filter_filter.
  apply elem_of_nil_inv. by intros d [[? ?] _]%list_elem_of_filter.
Qed.

Lemma owned_delete k id db : owned k (delete_row id db) = delete id (owned k db).
Proof. unfold owned, delete_row. cbn [set_queue set_table table]. by rewrite map_filter_delete. Qed.

Lemma same_view_delete_both k u id db1 db2 :
  same_view_at k u db1 db2 → same_view_at k u (delete_row id db1) (delete_row id db2).
Proof.
  intros [(Ho & Hi & Hd) [Hu Hq]]. split; [split_and!; [|done|]|split].
  - by rewrite !owned_delete, Ho.
  - intros j Hj. rewrite owned_delete in Hj. destruct (decide (j = id)) as [->|Hne].
    + rewrite lookup_delete_eq in Hj. by destruct Hj.
    + rewrite !deliveries_after_delete by done. apply Hd. by rewrite lookup_delete_ne in Hj.
  - unfold delete_row. cbn [set_queue set_table table]. destruct (decide (u = id)) as [->|Hne].
    + by rewrite !lookup_delete_eq.
    + by rewrite !lookup_delete_ne.
  - destruct (decide (u = id)) as [->|Hne]; [by rewrite !deliveries_of_deleted|].
    by rewrite !deliveries_after_delete.
Qed.

Lemma insert_agrees k env url kind ids names f s st :
  agrees (same_view_at k (new_uuid env)) env
    (stmt_env (λ env, insert_subscription (new_uuid env) url kind ids names f s st (Some k) (now env))).
Proof.
  apply agrees_stmt. intros db1 db2 HE. pose proof HE as (_ & Hu & _). unfold insert_subscription.
  destruct ids as [ids|]; [|done]. destruct names as [names|]; [|done].
  case_bool_decide as H1'; case_bool_decide as H2'; [done| | |].
  - destruct H1' as [r Hr]. rewrite <- not_eq_None_Some in H2'. apply dec_stable in H2'.
    by rewrite (proj2 Hu H2') in Hr.
  - destruct H2' as [r Hr]. rewrite <- not_eq_None_Some in H1'. apply dec_stable in H1'.
    by rewrite (proj1 Hu H1') in Hr.
  - split; [done|]. apply same_view_insert_both; [done|]. unfold owned_by. by apply bool_decide_eq_true.
Qed.

Lemma deliveries_agree k u id q env :
  agrees (same_view_at k u) env (list_webhook_deliveries k id q).
Proof.
  unfold list_webhook_deliveries. apply agrees_bind; [apply agrees_lift|]. intros page.
  apply agrees_select_bind; [intros db1 db2 [HE _]; by rewrite (same_view_row k db1 db2)|]. intros found.
  destruct found; [|apply agrees_raise_bind].
  assert (∀ db1 db2, same_view_at k u db1 db2 ∧ bool_decide (is_Some (row_where id (owned_by k) db1)) = true
      ∧ bool_decide (is_Some (row_where id (owned_by k) db2)) = true →
    deliveries_of id db1 = deliveries_of id db2) as Hd.
  { intros db1 db2 [[(_ & _ & Hd) _] [Hs%bool_decide_eq_true _]]. apply Hd. by rewrite <- row_where_owned. }
  repeat agree_step; apply agrees_select; intros db1 db2 HE; unfold select_deliveries;
    by rewrite (Hd db1 db2 HE).
Qed.

Lemma own_request_agrees k env r : agrees (same_view_at k (new_uuid env)) env (own_request k r).
Proof.
  destruct r; cbn [own_request]; try (apply agrees_bind; [apply deliveries_agree|intros [? ?]; apply agrees_ret]);
    unfold create_webhook, list_webhooks, get_webhook, test_webhook, delete_webhook, calculate_starting_seq;
    repeat agree_step; try (by apply agrees_log); try apply insert_agrees;
    try (apply agrees_select; intros db1 db2 [HE _]).
  1-4: by destruct HE as (_ & -> & _).
  - rewrite !rows_where_owned. by destruct HE as (-> & _).
  - by apply (same_view_row k).
  - apply agrees_stmt. intros db1 db2 HE. pose proof (same_view_row k _ _ id (proj1 HE)) as Hrow.
    change (owned_as (Some k)) with (owned_by k). rewrite Hrow.
    destruct (row_where id (owned_by k) db2) as [r|]; [by destruct (Dispatcher.secret (sub r))|done].
  - apply agrees_stmt. intros db1 db2 HE. pose proof (same_view_row k _ _ id (proj1 HE)) as Hrow.
    change (owned_opt (Some k)) with (owned_by k). rewrite Hrow.
    destruct (row_where id (owned_by k) db2) as [r|]; [|done]. split; [done|]. by apply same_view_delete_both.
Qed.

(** An identifier nothing refers to. *)
Definition fresh_id (u : string) (db : Hooks) : Prop := table db !! u = None ∧ deliveries_of u db = [].

Lemma own_request_fresh u k r env :
  new_uuid env ≠ u → preserves env (fresh_id u) (own_request k r).
Proof.
  intros Hne. destruct r; cbn [own_request]; unfold create_webhook, list_webhooks, get_webhook, test_webhook,
    delete_webhook, list_webhook_deliveries; repeat handler_step; try (by apply preserves_log);
    apply preserves_stmt; intros db x' db' [Hf Hd] Hok.
  - apply insert_ok in Hok as (_ & _ & ->). split; [|done]. cbn. by rewrite lookup_insert_ne.
  - destruct (row_where _ _ _) as [row|]; [destruct (Dispatcher.secret _)|]; simplify_eq; done.
  - destruct (row_where _ _ _) as [row|]; [|by simplify_eq]. injection Hok as _ <-. split.
    + cbn. rewrite lookup_delete_None. by right.
    + unfold deliveries_of in *. cbn. rewrite list_filter_filter. apply elem_of_nil_inv. intros d.
      rewrite list_elem_of_filter. intros [[Hu _] Hin]. assert (d ∈ []) as ?%elem_of_nil; [|done].
      rewrite <- Hd. by apply list_elem_of_filter.
Qed.

(** A history of requests, each with its key and its environment. *)
Definition exec1 (db : Hooks) (x : string * OwnReq * Env) : Hooks :=
  (own_request x.1.1 x.1.2 x.2 (db, 0%nat)).2.1.

Definition exec (h : list (string * OwnReq * Env)) (db : Hooks) : Hooks := foldl exec1 db h.

(** C31: The six requests that check their caller (create, list, get, test, delete,
    list deliveries) isolate keys from each other: the answer of one is a
    function of the rows its caller owns and their deliveries, and what it
    changes no other key can see; so after any history of such requests by
    other keys, a key is answered as if they had made none.  (Update, rotate
    and redrive do not check the caller and are not part of the history:
    [update_foreign_row], [rotate_foreign_row], [redrive_foreign_row].) *)
Theorem webhook_isolation k r env db n :
  (∀ db', same_view_at k (new_uuid env) db db' →
     (own_request k r env (db, n)).1 = (own_request k r env (db', n)).1)
  ∧ (∀ k', k ≠ k' → same_view k' db (own_request k r env (db, n)).2.1)
  ∧ (∀ h, fresh_id (new_uuid env) db →
       Forall (λ x, x.1.1 ≠ k ∧ new_uuid x.2 ≠ new_uuid env) h →
       (own_request k r env (exec h db, n)).1 = (own_request k r env (db, n)).1).
Proof.
  split_and!.
  - intros db' HE. by destruct (own_request_agrees k env r db db' n HE).
  - intros k' Hk. by apply own_request_preserves.
  - intros h Hf Hh.
    assert (same_view k db (exec h db) ∧ fresh_id (new_uuid env) (exec h db)) as [Hs Hf'].
    { revert db Hf. unfold exec. induction Hh as [|x h [Hk Hu] _ IH]; intros db Hf; [done|]. cbn [foldl].
      destruct (IH (exec1 db x)) as [Hs Hf']; [by apply own_request_fresh|].
      split; [|done]. rewrite <- Hs. by apply own_request_preserves. }
    destruct (own_request_agrees k env r db (exec h db) n) as [-> _]; [|done].
    destruct Hf as [Ht Hq], Hf' as [Ht' Hq']. split_and!; [done|by rewrite Ht, Ht'|by rewrite Hq, Hq'].
Qed.
End isolation.

(** ** Every stored subscription is valid *)

(** The requests that write. *)
Inductive WriteReq : Type :=
  | WCreate (caller : option string) (b : CreateWebhook)
  | WUpdate (id : string) (b : UpdateWebhook)
  | WDelete (caller : option string) (id : string)
  | WRedrive (caller id : string) (q : RedriveQuery)
  | WReenable (caller id : string)
  | WRotate (caller : option string) (id : string) (grace : option Z).

Section validity.
Context `{Stellar} `{NetEnv} `{CryptoLib} `{Base64}.
Context (parse_from_rfc3339 : string → option Z) (show_time : Z → string).
Context (show_ip : IpAddr → string) (update_actor : string).

Definition write_request (r : WriteReq) : H () :=
  match r with
  | WCreate caller b => _ ← create_webhook parse_from_rfc3339 show_ip caller b; mret tt
  | WUpdate id b => _ ← update_webhook show_time show_ip update_actor id b; mret tt
  | WDelete caller id => _ ← delete_webhook caller id; mret tt
  | WRedrive caller id q => _ ← redrive_webhook caller id q; mret tt
  | WReenable caller id => _ ← reenable_webhook caller id; mret tt
  | WRotate caller id grace => _ ← rotate_webhook_secret show_time caller id grace; mret tt
  end.

(** A URL that passes the registration checks, at most 25 contract ids and
    event names, all well formed, and a flat filter. *)
Definition row_valid (r : SubRow) : Prop :=
  let s := sub r in
  validate_webhook_url (url s) = Ok tt
  ∧ ((length (contract_ids s) ≤ 25)%nat ∧ Forall (λ c, is_valid_contract_id c = true) (contract_ids s))
  ∧ ((length (event_names s) ≤ 25)%nat ∧ Forall (λ n, validate_event_name n = Ok tt) (event_names s))
  ∧ ∃ f, filter s = Some f ∧ validate_webhook_filter f = Ok tt.

Definition hooks_valid (db : Hooks) : Prop :=
  map_Forall (λ id r, sub_id (sub r) = id ∧ row_valid r) (table db).

Lemma validate_all_ok check l : validate_all check l = Ok tt ↔ Forall (λ x, check x = Ok tt) l.
Proof.
  induction l as [|x l IH]; [by split|]. cbn [validate_all]. rewrite Forall_cons, <- IH.
  unfold mbind, result_bind. destruct (check x) as [[]|e]; [tauto|]. by split; [|intros [? _]].
Qed.

Lemma validate_ids_ok ids u : validate_ids ids = Ok u →
  (length ids ≤ 25)%nat ∧ Forall (λ c, is_valid_contract_id c = true) ids.
Proof.
  destruct u. unfold validate_ids. destruct (Nat.ltb_spec 25 (length ids)); [done|].
  intros Hall%validate_all_ok. split; [done|]. eapply Forall_impl; [exact Hall|].
  intros c. unfold validate_contract_id. by destruct (is_valid_contract_id c).
Qed.

Lemma validate_names_ok names u : validate_names names = Ok u →
  (length names ≤ 25)%nat ∧ Forall (λ n, validate_event_name n = Ok tt) names.
Proof.
  destruct u. unfold validate_names. destruct (Nat.ltb_spec 25 (length names)); [done|].
  by intros Hall%validate_all_ok.
Qed.

Lemma validate_url_ok u x : validate_url show_ip u = Ok x → validate_webhook_url u = Ok tt.
Proof. unfold validate_url. by destruct (validate_webhook_url u) as [[]|e]. Qed.

Lemma when_some_ok {A} (check : A → result ApiError.ApiError ()) o u :
  when_some check o = Ok u → ∀ x, o = Some x → check x = Ok u.
Proof. by intros Hc x ->. Qed.

Lemma hooks_valid_insert id r db :
  hooks_valid db → sub_id (sub r) = id → row_valid r → hooks_valid (set_table (<[id := r]> (table db)) db).
Proof. intros Hdb Hid Hr. by apply map_Forall_insert_2. Qed.

(** Writes that leave the checked columns alone. *)
Lemma hooks_valid_touch id r r' db :
  hooks_valid db → table db !! id = Some r → sub_id (sub r') = sub_id (sub r) → url (sub r') = url (sub r) →
  contract_ids (sub r') = contract_ids (sub r) → event_names (sub r') = event_names (sub r) →
  filter (sub r') = filter (sub r) → hooks_valid (set_table (<[id := r']> (table db)) db).
Proof.
  intros Hdb Hr H1' H2' H3' H4' H5'. destruct (Hdb id r Hr) as [Hid Hv].
  apply hooks_valid_insert; [done|congruence|]. unfold row_valid in *. by rewrite H2', H3', H4', H5'.
Qed.

Lemma patch_valid b r r' :
  validate_update show_ip b = Ok tt → row_valid r → patch_row b r = Ok r' →
  sub_id (sub r') = sub_id (sub r) ∧ row_valid r'.
Proof.
  unfold validate_update. destruct (no_fields b); [done|].
  destruct (when_some (when_some validate_webhook_filter) (u_filter b)) as [[]|] eqn:Ef; [|done].
  destruct (when_some (validate_url show_ip) (u_url b)) as [[]|] eqn:Eu; [|done].
  destruct (when_some (when_some validate_ids) (u_contract_ids b)) as [[]|] eqn:Ei; [|done].
  cbn [mbind result_bind]. intros En (Hu & Hi & Hn & Hf). unfold patch_row.
  destruct b as [act u cid en ids names flt]. cbn in *.
  destruct (split_clearable cid) as [sc c], (split_clearable en) as [se e].
  assert (validate_webhook_url (default (url (sub r)) u) = Ok tt) as Hu'
    by (destruct u; [by eapply validate_url_ok|done]).
  assert (∃ f, (let '(sf, flt) := split_clearable flt in if sf then Some (default JNull flt) else filter (sub r)) = Some f
    ∧ validate_webhook_filter f = Ok tt) as Hf'
    by (destruct flt as [[f|]|]; [by exists f|by exists JNull|exact Hf]).
  destruct (split_clearable flt) as [sf f].
  destruct ids as [[ids|]|], names as [[names|]|]; cbn; try done; intros [= <-]; (split; [done|]);
    (split; [done|]); (split; [first [by eapply validate_ids_ok|done]|]);
    (split; [first [by eapply validate_names_ok|done]|done]).
Qed.

Lemma insert_valid env url kind ids names f s st owner u1 u2 u3 :
  validate_webhook_url url = Ok tt → when_some validate_webhook_filter f = Ok u1 →
  when_some validate_ids ids = Ok u2 → when_some validate_names names = Ok u3 →
  preserves env hooks_valid
    (stmt_env (λ env, insert_subscription (new_uuid env) url kind ids names (default JNull f) s st owner (now env))).
Proof.
  intros Hu Hf Hi Hn. apply preserves_stmt. intros db x db' Hdb. unfold insert_subscription.
  destruct ids as [ids|]; [|done]. destruct names as [names|]; [|done]. case_bool_decide; [done|].
  intros [= <- <-]. apply hooks_valid_insert; [done..|].
  split; [done|]. split; [by eapply validate_ids_ok|]. split; [by eapply validate_names_ok|].
  exists (default JNull f). split; [done|]. destruct u1, f as [f|]; [exact Hf|done].
Qed.

Lemma update_valid env id b :
  validate_update show_ip b = Ok tt →
  preserves env hooks_valid (stmt_env (λ _, update_row id (patch_row b))).
Proof.
  intros Hb. apply preserves_stmt. intros db x db' Hdb. unfold update_row.
  destruct (table db !! id) as [r|] eqn:Er; [|done]. destruct (Hdb id r Er) as [Hid Hr].
  destruct (patch_row b r) as [r'|] eqn:Ep; [|done]. intros [= <- <-].
  destruct (patch_valid b r r' Hb Hr Ep) as [Hsid Hv]. apply hooks_valid_insert; [done|congruence|done].
Qed.

Lemma delete_valid id db : hooks_valid db → hooks_valid (delete_row id db).
Proof. intros Hdb. by apply map_Forall_delete. Qed.

Lemma row_where_table id p db r : row_where id p db = Some r → table db !! id = Some r.
Proof. unfold row_where. destruct (table db !! id) as [r'|]; [|done]. cbn. by destruct (p r'); intros [= ->]. Qed.

(** However requests of whatever callers follow each other and whichever
    statements fail, every stored subscription has passed the checks of
    registration: its URL, its contract ids and event names, its filter. *)
Theorem webhook_rows_valid env r db n :
  hooks_valid db → hooks_valid (write_request r env (db, n)).2.1.
Proof.
  intros Hdb. revert db n Hdb. change (preserves env hooks_valid (write_request r)).
  destruct r; cbn [write_request]; unfold create_webhook, update_webhook, delete_webhook, redrive_webhook,
    reenable_webhook, rotate_webhook_secret; repeat handler_step; try (by apply preserves_log).
  all: try (eapply insert_valid; [by eapply validate_url_ok|done..]).
  all: try (by apply update_valid; destruct x).
  all: apply preserves_stmt; intros d y d' Hd Hok.
  - destruct (row_where _ _ _); simplify_eq; [by apply delete_valid|done].
  - by injection Hok as _ <-.
  - destruct (row_where _ _ _) as [r|] eqn:Er; simplify_eq; [|done].
    by eapply hooks_valid_touch; [done|by eapply row_where_table|..].
  - destruct (table d !! id) as [r|] eqn:Er; simplify_eq; [|done].
    by eapply hooks_valid_touch.
Qed.
End validity.

(** ** Redriving *)

Section redrive.

(** The calls of a client that repeats while [has_more]; [envs] gives each its
    environment. *)
Fixpoint redrive_all (fuel : nat) (envs : nat → Env) (caller id : string) (q : RedriveQuery) (db : Hooks)
    : option (Z * Hooks) :=
  match fuel with
  | O => None
  | S fuel =>
      match redrive_webhook caller id q (envs 0%nat) (db, 0%nat) with
      | (Ok (n, more), (db, _)) =>
          if more then '(m, db) ← redrive_all fuel (λ i, envs (S i)) caller id q db; Some (n + m, db)
          else Some (n, db)
      | _ => None
      end
  end.

Definition failing (id : string) (since : option Z) (q : list Delivery) : list Delivery :=
  base.filter (λ d, redrivable id since d = true) q.

Lemma redrive_row_not_failing env id since d : redrivable id since (redrive_row env d) = false.
Proof.
  unfold redrivable. cbn. rewrite bool_decide_eq_false_2; [done|by intros [_ ?]].
Qed.

(** Redriving takes the chosen rows out of the failing ones. *)
Lemma failing_after env id since ids q :
  failing id since (redrive_rows env ids q) =
  base.filter (λ d, redrivable id since d = true ∧ d_id d ∉ ids) q.
Proof.
  unfold failing, redrive_rows. induction q as [|d q IH]; [done|]. cbn [fmap list_fmap].
  rewrite !filter_cons. case_bool_decide as Hin.
  - rewrite redrive_row_not_failing. rewrite (decide_False (P := _ ∧ _)) by tauto. exact IH.
  - destruct (decide (redrivable id since d = true)) as [Hr|Hr].
    + rewrite decide_True by done. by f_equal.
    + rewrite decide_False by tauto. exact IH.
Qed.

Lemma filter_chosen (l : list Delivery) (b : nat) :
  NoDup (d_id <$> l) →
  base.filter (λ d, d_id d ∉ d_id <$> take b l) l = drop b l.
Proof.
  intros Hnd. rewrite <- (take_drop b l), fmap_app in Hnd. apply NoDup_app in Hnd as (_ & Hdis & _).
  transitivity (base.filter (λ d, d_id d ∉ d_id <$> take b l) (take b l ++ drop b l)%list); [by rewrite take_drop|].
  rewrite filter_app.
  assert (base.filter (λ d, d_id d ∉ d_id <$> take b l) (take b l) = []) as ->.
  { apply elem_of_nil_inv. intros d [Hn Hd]%list_elem_of_filter. by apply Hn, list_elem_of_fmap_2. }
  cbn [app].
  assert (∀ m : list Delivery, (∀ d, d ∈ m → d_id d ∉ d_id <$> take b l) → base.filter (λ d, d_id d ∉ d_id <$> take b l) m = m) as Hall.
  { induction m as [|d m IH]; [done|]. intros Hm. rewrite filter_cons_True by (apply Hm; by left).
    f_equal. apply IH. intros d' Hd'. apply Hm. by right. }
  apply Hall. intros d Hd Hin. apply (Hdis _ Hin). by apply list_elem_of_fmap_2.
Qed.

Lemma failing_count env id since batch q :
  NoDup (d_id <$> q) →
  (length (failing id since (redrive_rows env (redrive_ids id since batch q) q)) =
   length (failing id since q) - Z.to_nat batch)%nat.
Proof.
  intros Hnd. rewrite failing_after. unfold redrive_ids. fold (failing id since q).
  set (s := sort_by id_asc (failing id since q)).
  assert (s ≡ₚ failing id since q) as Hs by apply sort_by_perm.
  rewrite (list_filter_iff _ (λ d, (d_id d ∉ d_id <$> take (Z.to_nat batch) s) ∧ redrivable id since d = true))
    by (intros; tauto).
  rewrite <- list_filter_filter. fold (failing id since q). rewrite <- Hs, filter_chosen, length_drop; [done|].
  rewrite Hs. unfold failing. eapply sublist_NoDup; [exact Hnd|]. apply fmap_sublist, sublist_filter.
Qed.

Lemma redrive_ids_count id since batch q :
  0 ≤ batch → Z.of_nat (length (redrive_ids id since batch q)) = Z.min batch (Z.of_nat (length (failing id since q))).
Proof.
  intros Hb. unfold redrive_ids. fold (failing id since q).
  rewrite length_fmap, length_take, (sort_by_perm id_asc (failing id since q)). lia.
Qed.

(** A delivery after redriving: as it was, or waiting again within the jitter
    window of one of the calls. *)
Definition redriven_from (lo hi : Z) (d d' : Delivery) : Prop :=
  d_id d' = d_id d ∧ subscription_id d' = subscription_id d ∧ target d' = target d
  ∧ created_at d' = created_at d ∧ status d' = Pending ∧ attempts d' = 0 ∧ last_error d' = None
  ∧ lo ≤ next_attempt_at d' < hi.

(** Calls between [lo] and [hi]; no statement of theirs fails. *)
Definition calm (lo hi : Z) (envs : nat → Env) : Prop := ∀ i,
  (∀ n, stmt_fails (envs i) n = None) ∧ lo ≤ now (envs i) ≤ hi
  ∧ (∀ d, 0 ≤ random_secs (envs i) d < REDRIVE_JITTER_SECS).

(** The rows before and after, in the same order. *)
Definition drained (id : string) (since : option Z) (lo hi : Z) (d d' : Delivery) : Prop :=
  if redrivable id since d then redriven_from lo (hi + REDRIVE_JITTER_SECS) d d' else d' = d.

Definition redrive_open (id : string) (db : Hooks) : Prop :=
  ∃ r, table db !! id = Some r ∧ active (sub r) = true ∧ auto_disabled_at r = None.

Definition batch_ok (q : RedriveQuery) : Prop := 1 ≤ default DEFAULT_REDRIVE_BATCH (r_max q) ≤ MAX_REDRIVE_BATCH.

Lemma redrive_step env caller id q db :
  (∀ n, stmt_fails env n = None) → batch_ok q → redrive_open id db →
  let ids := redrive_ids id (r_since q) (default DEFAULT_REDRIVE_BATCH (r_max q)) (queue db) in
  let db' := set_queue (redrive_rows env ids (queue db)) db in
  ∃ n, redrive_webhook caller id q env (db, 0%nat) =
    (Ok (Z.of_nat (length ids), existsb (redrivable id (r_since q)) (queue db')), (db', n)).
Proof.
  intros Hf Hb (r & Hr & Ha & Hd). cbv zeta. unfold redrive_webhook, batch_ok in *.
  rewrite (proj2 (andb_true_iff _ _)) by (split; apply Z.leb_le; lia).
  unfold mbind, H_bind, mret, H_ret, select, stmt_env, lift. rewrite !Hf. rewrite Hr. cbn.
  rewrite Ha, Hd. cbn. rewrite ?Hf. cbn. rewrite ?Hf. by eexists.
Qed.

(** One call: each row is kept, or it qualified and now waits again. *)
Definition redrive_moved (id : string) (since : option Z) (lo hi : Z) (d d' : Delivery) : Prop :=
  d' = d ∨ redrivable id since d = true ∧ redrivable id since d' = false
           ∧ redriven_from lo (hi + REDRIVE_JITTER_SECS) d d'.

Lemma redrive_moved_drained id since lo hi d d1 d' :
  redrive_moved id since lo hi d d1 → drained id since lo hi d1 d' → drained id since lo hi d d'.
Proof.
  unfold drained. intros [->|(Hr & Hr1 & Hfrom)]; [done|]. rewrite Hr, Hr1. by intros ->.
Qed.

Lemma drained_none id since lo hi q : failing id since q = [] → Forall2 (drained id since lo hi) q q.
Proof.
  intros Hq. apply Forall_Forall2_diag, Forall_forall. intros d Hd. unfold drained.
  destruct (redrivable id since d) eqn:E; [|done].
  assert (d ∈ failing id since q) as Hin by by apply list_elem_of_filter. by rewrite Hq in Hin; apply elem_of_nil in Hin.
Qed.

Lemma existsb_failing id since q : existsb (redrivable id since) q = false ↔ failing id since q = [].
Proof.
  unfold failing. induction q as [|d q IH]; [done|]. cbn [existsb]. rewrite filter_cons.
  destruct (redrivable id since d) eqn:E; [by rewrite decide_True|].
  by rewrite decide_False.
Qed.

Lemma redrive_ids_failing id since b q i : i ∈ redrive_ids id since b q →
  ∃ d, d ∈ q ∧ redrivable id since d = true ∧ d_id d = i.
Proof.
  unfold redrive_ids. intros (d & -> & Hd)%list_elem_of_fmap. apply elem_of_take in Hd as (j & Hj & _).
  apply list_elem_of_lookup_2 in Hj. rewrite sort_by_perm, list_elem_of_filter in Hj. exists d. tauto.
Qed.

Lemma redrive_rows_moved env id since b lo hi q :
  NoDup (d_id <$> q) → lo ≤ now env ≤ hi → (∀ d, 0 ≤ random_secs env d < REDRIVE_JITTER_SECS) →
  Forall2 (redrive_moved id since lo hi) q (redrive_rows env (redrive_ids id since b q) q).
Proof.
  intros Hnd Hnow Hj. unfold redrive_rows. apply Forall2_fmap_r, Forall_Forall2_diag, Forall_forall.
  intros d Hd. unfold compose. case_bool_decide as Hin; [right|by left].
  apply redrive_ids_failing in Hin as (d' & Hd' & Hr & Heq).
  rewrite (NoDup_fmap_inj_in d_id q d' d) in Hr by done. split; [done|].
  split; [apply redrive_row_not_failing|]. specialize (Hj (d_id d)). unfold redriven_from. cbn. split_and!; done || lia.
Qed.

(** A client that repeats the call while it is told [has_more] finishes: after
    at most one call per failed delivery (each call redrives a whole batch) none
    that qualifies is left, the counts add up to all of them, every one waits
    for delivery again within the jitter window, and no other row is touched. *)
Theorem redrive_drains lo hi envs caller id q db fuel :
  calm lo hi envs → batch_ok q → redrive_open id db → NoDup (d_id <$> queue db) →
  (length (failing id (r_since q) (queue db)) < fuel)%nat →
  ∃ db', redrive_all fuel envs caller id q db =
           Some (Z.of_nat (length (failing id (r_since q) (queue db))), db')
    ∧ failing id (r_since q) (queue db') = [] ∧ table db' = table db
    ∧ Forall2 (drained id (r_since q) lo hi) (queue db) (queue db').
Proof.
  intros Hcalm Hb. revert envs db Hcalm. induction fuel as [|fuel IH]; intros envs db Hcalm Hopen Hnd Hfuel; [lia|].
  cbn [redrive_all]. destruct (Hcalm 0%nat) as (Hf & Hnow & Hj).
  set (batch := default DEFAULT_REDRIVE_BATCH (r_max q)) in *.
  destruct (redrive_step (envs 0%nat) caller id q db Hf Hb Hopen) as [n ->]. fold batch.
  set (ids := redrive_ids id (r_since q) batch (queue db)).
  set (db1 := set_queue (redrive_rows (envs 0%nat) ids (queue db)) db).
  assert (1 ≤ batch) as Hbatch by apply Hb.
  pose proof (failing_count (envs 0%nat) id (r_since q) batch (queue db) Hnd) as Hcount. fold ids in Hcount.
  change (redrive_rows (envs 0%nat) ids (queue db)) with (queue db1) in Hcount.
  pose proof (redrive_ids_count id (r_since q) batch (queue db) ltac:(lia)) as Hn. fold ids in Hn.
  pose proof (redrive_rows_moved (envs 0%nat) id (r_since q) batch lo hi (queue db) Hnd Hnow Hj) as Hmoved.
  change (redrive_rows _ _ (queue db)) with (queue db1) in Hmoved.
  destruct (existsb _ (queue db1)) eqn:Hmore.
  - assert (failing id (r_since q) (queue db1) ≠ []) as Hne
      by (rewrite <- existsb_failing; congruence).
    assert (length (failing id (r_since q) (queue db1)) ≠ 0%nat) by by destruct (failing _ _ (queue db1)).
    destruct (IH (λ i, envs (S i)) db1) as (db' & -> & Hnone & Htab & Hall).
    + intros i. apply Hcalm.
    + exact Hopen.
    + assert (d_id <$> queue db1 = d_id <$> queue db) as ->; [|done].
      unfold db1, redrive_rows. cbn [set_queue queue]. rewrite <- list_fmap_compose. apply list_fmap_ext.
      intros i d _. unfold compose. by case_bool_decide.
    + lia.
    + assert (Z.of_nat (length ids) + Z.of_nat (length (failing id (r_since q) (queue db1))) =
              Z.of_nat (length (failing id (r_since q) (queue db)))) as Hsum by lia.
      exists db'. split; [by rewrite <- Hsum|]. split_and!; [done|done|].
      eapply Forall2_trans; [|exact Hmoved|exact Hall]. intros x y z. apply redrive_moved_drained.
  - apply existsb_failing in Hmore. rewrite Hmore in Hcount. cbn in Hcount.
    assert (Z.of_nat (length ids) = Z.of_nat (length (failing id (r_since q) (queue db)))) as -> by lia.
    exists db1. split; [done|]. split_and!; [done|done|].
    eapply Forall2_trans; [|exact Hmoved|by apply (drained_none id (r_since q) lo hi)].
    intros x y z. apply redrive_moved_drained.
Qed.
End redrive.

(** ** Rotating a secret *)

Section rotation.
Context `{CryptoLib} (show_time : Z → string).

(** A rotation that answers has given the row, and only that row, the new
    secret; until the moment it reports, deliveries are signed with the new
    secret and the one before, and afterwards with the new one alone. *)
Theorem rotation_grace caller id grace env db n j s :
  rotate_webhook_secret show_time caller id grace env (db, n) = (Ok j, s) →
  random_secret (random_bytes env) ≠ "" →
  let until := now env + default 86400 grace in
  now env ≤ until ≤ now env + MAX_GRACE_SECONDS
  ∧ ∃ r r', table db !! id = Some r ∧ table s.1 = <[id := r']> (table db) ∧ queue s.1 = queue db
    ∧ json_get "secret" j = Some (JStr (random_secret (random_bytes env)))
    ∧ ∀ wdb d t, find_sub (subscription_id d) wdb = Some (sub r') → payload_exists wdb (target d) = true →
        fetched_row t wdb d = Some (Due {|
          due_id := d_id d; due_sub := subscription_id d; due_attempts := attempts d; due_url := url (sub r);
          due_secret := Some (random_secret (random_bytes env));
          due_previous := if t <? until then non_empty (Dispatcher.secret (sub r)) else None;
          due_target := target d |}).
Proof.
  unfold rotate_webhook_secret, validate_grace_seconds. intros Hrun Hne. cbv zeta.
  set (g := default 86400 grace) in *.
  destruct ((0 <=? g) && (g <=? MAX_GRACE_SECONDS)) eqn:Hg; [|done].
  apply andb_true_iff in Hg as [Hg1%Z.leb_le Hg2%Z.leb_le]. split; [lia|].
  unfold mbind, H_bind, lift, ask, stmt_env, mret, H_ret in Hrun.
  destruct (stmt_fails env n); [done|]. destruct (table db !! id) as [r|] eqn:Hr; [|done].
  cbn [ok_or fmap] in Hrun. unfold log_webhook_action, stmt_env in Hrun.
  exists r, (rotate_row (random_secret (random_bytes env)) (now env + g) r).
  destruct (stmt_fails env (S n)); cbn in Hrun; injection Hrun as <- <-;
    (split; [done|]); (split; [done|]); (split; [done|]); (split; [done|]);
    intros wdb d t Hf Hp; unfold fetched_row; rewrite Hf; cbn;
    (destruct (random_secret (random_bytes env)) as [|a k] eqn:Hk; [done|]); rewrite Hp;
    by destruct (t <? now env + g).
Qed.
End rotation.

(** ** Witnesses *)

#[local] Existing Instances sample_stellar sample_net sample_crypto sample_base64.

Definition sample_contract : string := sc_address_to_string (AddrContract (repeat (byte_of 0) 32)).

Definition sample_env : Env := {|
  stmt_fails := λ _, None;
  now := 1000;
  new_uuid := "u";
  random_bytes := ["a"%char; "b"%char];
  random_secs := λ _, 7;
  http_post := λ _, Ok 200;
|}.

Definition no_hooks : Hooks := {| table := ∅; queue := []; indexed := []; audit := [] |}.

Definition sample_create : CreateWebhook := {|
  c_url := "http://hooks.example.org"; c_kind := "event";
  c_contract_id := Some sample_contract; c_contract_ids := None;
  c_event_name := Some "transfer"; c_event_names := None; c_filter := None; c_since := None;
|}.

(** The tables after [sample_create] by key [ka]. *)
Definition sample_hooks : Hooks :=
  (create_webhook (λ _, None) (λ _, "ip") (Some "ka") sample_create sample_env (no_hooks, 0%nat)).2.1.

Definition sample_failed (i created : Z) : Delivery := {|
  d_id := i; subscription_id := "u"; target := ForEvent "e"; status := Failed; attempts := 8;
  last_error := Some "HTTP 500"; next_attempt_at := 0; created_at := created;
  locked_until := None; locked_by := None; last_status_code := Some 500;
|}.

Definition sample_delivery_db : Hooks :=
  set_queue [sample_failed 1 10; sample_failed 2 20; sample_failed 3 30] sample_hooks.

(** [kb] creates a subscription and tries to delete [ka]'s, then [ka] reads its own. *)
Definition env_as (id : string) : Env := {|
  stmt_fails := stmt_fails sample_env; now := 1000; new_uuid := id; random_bytes := random_bytes sample_env;
  random_secs := random_secs sample_env; http_post := http_post sample_env |}.

Definition run_own (k : string) (r : OwnReq) (e : Env) (db : Hooks) : result ApiError.ApiError Answer :=
  (own_request (λ _, None) (λ _, "t") (λ _, "ip") (λ _, "{}") k r e (db, 0%nat)).1.

Definition others : list (string * OwnReq * Env) :=
  [("kb", ReqCreate sample_create, env_as "v"); ("kb", ReqDelete "u", env_as "v")].

Lemma webhook_isolation_witness :
  run_own "ka" (ReqGet "u") (env_as "w")
    (exec (λ _, None) (λ _, "t") (λ _, "ip") (λ _, "{}") others sample_hooks) =
  run_own "ka" (ReqGet "u") (env_as "w") sample_hooks
  ∧ is_ok (run_own "ka" (ReqGet "u") (env_as "w") sample_hooks) = true.
Proof.
  split; [|by vm_compute].
  apply (webhook_isolation (λ _, None) (λ _, "t") (λ _, "ip") (λ _, "{}") "ka" (ReqGet "u") (env_as "w")
           sample_hooks 0).
  - split; [by vm_compute|]. vm_compute. constructor.
  - repeat constructor; done.
Defined.

Definition run_write (r : WriteReq) (e : Env) (db : Hooks) : Hooks :=
  (write_request (λ _, None) (λ _, "t") (λ _, "ip") "kb" r e (db, 0%nat)).2.1.

Lemma webhook_rows_valid_witness :
  let db := run_write (WUpdate "u" {| u_active := Some false; u_url := None; u_contract_id := None; u_event_name := None;
                                      u_contract_ids := None; u_event_names := None; u_filter := None |})
              sample_env (run_write (WCreate (Some "ka") sample_create) sample_env no_hooks) in
  hooks_valid db ∧ (active ∘ sub <$> table db !! "u") = Some false.
Proof.
  split; [|by vm_compute]. apply webhook_rows_valid, webhook_rows_valid, map_Forall_empty.
Defined.

Lemma redrive_drains_witness :
  ∃ db', redrive_all 4 (λ _, sample_env) "kb" "u" {| r_since := Some 15; r_max := Some 1 |} sample_delivery_db
           = Some (2, db')
    ∧ failing "u" (Some 15) (queue db') = [] ∧ table db' = table sample_delivery_db
    ∧ Forall2 (drained "u" (Some 15) 1000 1000) (queue sample_delivery_db) (queue db').
Proof.
  apply (redrive_drains 1000 1000 (λ _, sample_env) "kb" "u" {| r_since := Some 15; r_max := Some 1 |}
           sample_delivery_db 4).
  - intros i. cbn. unfold REDRIVE_JITTER_SECS. split_and!; [done|lia..].
  - unfold batch_ok, MAX_REDRIVE_BATCH. cbn. lia.
  - eexists. by vm_compute.
  - change (NoDup [1; 2; 3]). repeat constructor; set_solver.
  - vm_compute. lia.
Defined.

Lemma rotation_grace_witness :
  1000 ≤ 1060 ≤ 1000 + MAX_GRACE_SECONDS
  ∧ ∃ r, table sample_hooks !! "u" = Some r.
Proof.
  edestruct (rotation_grace (λ _, "t") None "u" (Some 60) sample_env sample_hooks 0) as (Hb & r & r' & Hr & _).
  - vm_compute. reflexivity.
  - by vm_compute.
  - split; [exact Hb|]. by exists r.
Defined.

(** ** What the handlers let through *)

(** A subscription without a contract filter, or without an event filter,
    cannot be created: NULL goes into a NOT NULL column. *)
Example create_without_filter_fails :
  (create_webhook (λ _, None) (λ _, "ip") (Some "ka")
     {| c_url := "http://hooks.example.org"; c_kind := "upgrade"; c_contract_id := Some sample_contract;
        c_contract_ids := None; c_event_name := None; c_event_names := None; c_filter := None; c_since := None |}
     sample_env (no_hooks, 0%nat)).1
  = Err (Internal "null value in column event_names violates not-null constraint").
Proof. by vm_compute. Qed.

(** Any caller changes any subscription: [update_webhook] does not know who calls. *)
Definition redirected : UpdateWebhook := {|
  u_active := None; u_url := Some "http://hooks.example.org"; u_contract_id := None; u_event_name := Some (Some "!");
  u_contract_ids := None; u_event_names := None; u_filter := None |}.

Example update_foreign_row :
  let s := update_webhook (λ _, "t") (λ _, "ip") "kb" "u" redirected sample_env (sample_hooks, 0%nat) in
  is_ok s.1 = true ∧ (s_event_name ∘ sub <$> table s.2.1 !! "u") = Some (Some "!")
  ∧ (owner_key_hash <$> table s.2.1 !! "u") = Some (Some "ka").
Proof. by vm_compute. Qed.

(** A foreign caller rotates the secret, and is told the new one. *)
Example rotate_foreign_row :
  match (rotate_webhook_secret (λ _, "t") (Some "kb") "u" None sample_env (sample_hooks, 0%nat)).1 with
  | Ok j => json_get "secret" j = Some (JStr (random_secret (random_bytes sample_env)))
  | Err _ => False
  end.
Proof. by vm_compute. Qed.

(** A foreign caller redrives, and learns which ids exist. *)
Example redrive_foreign_row :
  (redrive_webhook "kb" "u" {| r_since := None; r_max := None |} sample_env (sample_delivery_db, 0%nat)).1
    = Ok (3, false)
  ∧ is_ok (reenable_webhook "kb" "u" sample_env (sample_hooks, 0%nat)).1 = true
  ∧ (reenable_webhook "kb" "x" sample_env (sample_hooks, 0%nat)).1 = Err sub_not_found.
Proof. by vm_compute. Qed.

(** [since] arms no backfill: the row has none, whatever the window. *)
Definition indexed_db : Hooks :=
  {| table := ∅; queue := []; audit := [];
     indexed := [{| ix_seq := 5; ix_ledger := 50; ix_closed_at := 500 |};
                 {| ix_seq := 6; ix_ledger := 60; ix_closed_at := 600 |}] |}.

Definition created_since (since : string) : result ApiError.ApiError (SubRow * string) :=
  (create_webhook (λ _, None) (λ _, "ip") (Some "ka")
     {| c_url := "http://hooks.example.org"; c_kind := "event"; c_contract_id := Some sample_contract;
        c_contract_ids := None; c_event_name := Some "transfer"; c_event_names := None; c_filter := None;
        c_since := Some since |} sample_env (indexed_db, 0%nat)).1.

Example since_arms_nothing :
  match created_since "50" with
  | Ok (r, _) => backfill_seq (sub r) = None ∧ starting_seq (sub r) = 6
  | Err _ => False
  end.
Proof. by vm_compute. Qed.

(** The start [since] computes is the first event of the window, which the
    backfill, reading what comes after it, would leave out; and the whole
    table when no event is in the window. *)
Example since_start :
  (calculate_starting_seq (λ _, None) "50" sample_env (indexed_db, 0%nat)).1 = Ok 5
  ∧ (calculate_starting_seq (λ _, None) "1000" sample_env (indexed_db, 0%nat)).1 = Ok 0
  ∧ (calculate_starting_seq (λ _, None) "last -3" sample_env (indexed_db, 0%nat)).1 = Ok 9.
Proof. by vm_compute. Qed.
