(* ===== verification/Backfill.v ===== *)
(** * Backfill: catching up and replaying gaps ([lumenqraph-indexer/src/backfill.rs], [poller.rs])

    Two offline passes over the RPC's event pages, in the monad and the world
    of [Poller]: [run] walks from a start ledger to the tip and checkpoints the
    cursor after every page; [recover_gaps] replays the missed ranges the poller
    recorded.  The identifier of a missed range is its position in the list. *)
From S2P Require Import Prelude Text Containers Values Instances XdrDecode Spec Enrich.
From S2P Require Import Store Convert Cursor Poller PollerSafety.
From Stdlib Require Import Ascii.

Local Open Scope Z_scope.

(** ** Replaying missed ranges ([recover_gaps]) *)

Definition mark_recovered (m : MissedRange) : MissedRange := {|
  m_from := m_from m; m_to := m_to m; m_reason := m_reason m;
  m_recoverable := m_recoverable m; m_recovered := true |}.

Definition from_asc (a b : nat * MissedRange) : comparison := Z.compare (m_from a.2) (m_from b.2).

(** [WHERE recovered_at IS NULL AND recoverable = TRUE ORDER BY from_ledger]. *)
Definition unrecovered (l : list MissedRange) : list (nat * MissedRange) :=
  sort_by from_asc (base.filter (λ p, m_recovered p.2 = false ∧ m_recoverable p.2 = true) (imap pair l)).

Section recover.
Context `{Env} (config : Config).

(** The loop over a page: whether it stopped at an event past the range, and
    the batch.  Unparsable timestamps are skipped (their counter is not declared
    in the source). *)
Fixpoint scan_recover (evs : list EventInfo) (to_ : Z) : M (bool * list NewEvent) :=
  match evs with
  | [] => mret (false, [])
  | ev :: evs' =>
      if to_ <? i_ledger ev then mret (true, [])
      else
        conv ← convert ev;
        '(stop, batch) ← scan_recover evs' to_;
        mret (stop, match conv with Some e => e :: batch | None => batch end)
  end.

Fixpoint recover_loop (fuel : nat) (from_ to_ : Z) (token : option string) (total : nat) : M nat :=
  match fuel with
  | O => out_of_fuel
  | S fuel' =>
      page ← get_events config from_ token;
      '(stop, batch) ← scan_recover (p_events page) to_;
      inserted ← (match batch with [] => mret 0%nat | _ => store_insert batch end);
      let total' := (total + inserted)%nat in
      if stop : bool then mret total'
      else if (length batch <? page_size config)%nat || negb (is_some_b (p_cursor page)) then mret total'
      else recover_loop fuel' from_ to_ (p_cursor page) total'
  end.

(** [UPDATE missed_ranges SET recovered_at = NOW() WHERE id = $1]. *)
Definition set_recovered (id : nat) : M unit :=
  sql (w ← get; set_missed (alter mark_recovered id (missed_ranges w))).

Fixpoint recover_ranges (fuel : nat) (l : list (nat * MissedRange)) : M unit :=
  match l with
  | [] => mret tt
  | (id, r) :: l' =>
      _ ← recover_loop fuel (m_from r) (m_to r) None 0;
      _ ← set_recovered id;
      recover_ranges fuel l'
  end.

Definition recover_gaps (fuel : nat) : M unit :=
  l ← sql (w ← get; mret (unrecovered (missed_ranges w)));
  recover_ranges fuel l.

(** ** The one-shot backfill ([backfill::run]) *)

(** [page.events.iter().map(ledger).max().unwrap_or(last)]. *)
Definition page_max_ledger (evs : list EventInfo) (last_ : Z) : Z :=
  match evs with
  | [] => last_
  | e :: evs' => foldl (λ m e, Z.max m (i_ledger e)) (i_ledger e) evs'
  end.

Fixpoint scan_backfill (evs : list EventInfo) : M (list NewEvent) :=
  match evs with
  | [] => mret []
  | ev :: evs' =>
      conv ← convert ev;
      batch ← scan_backfill evs';
      mret (match conv with Some e => e :: batch | None => batch end)
  end.

Fixpoint catch_up_loop (fuel : nat) (start tip : Z) (token : option string) (total : nat) (last_ : Z)
    : M nat :=
  match fuel with
  | O => out_of_fuel
  | S fuel' =>
      page ← get_events config start token;
      let last' := page_max_ledger (p_events page) last_ in
      batch ← scan_backfill (p_events page);
      inserted ← store_insert batch;
      let total' := (total + inserted)%nat in
      _ ← write_progress last' tip (Z.of_nat inserted);
      if (length (p_events page) <? page_size config)%nat || negb (is_some_b (p_cursor page))
      then mret total'
      else catch_up_loop fuel' start tip (p_cursor page) total' last'
  end.

(** Where the pass starts: an explicit ledger, or after the cursor; not before
    what the endpoint serves. *)
Definition backfill_start (tip resume_from : Z) : Z :=
  Z.max (Z.max resume_from (tip - MAX_LOOKBACK_LEDGERS)) 1.

Definition backfill_to (fuel : nat) (from_ledger tip : Z) : M nat :=
  resume_from ← (if from_ledger =? 0
                 then c ← read_last_processed_m; mret (match c with Some l => l + 1 | None => 0 end)
                 else mret from_ledger : M Z);
  let start := backfill_start tip resume_from in
  total ← catch_up_loop fuel start tip None 0 start;
  _ ← write_progress tip tip 0;
  mret total.

Definition run_backfill (fuel : nat) (from_ledger : Z) : M nat :=
  tip ← rpc rpc_latest_ledger;
  backfill_to fuel from_ledger tip.
End recover.

(** ** Steps that leave the cursor and the missed ranges alone *)

Record still (w w' : World) : Prop := {
  s_grows : grows w w';
  s_missed : missed_ranges w' = missed_ranges w;
  s_cursor : cursor_row w' = cursor_row w;
}.

#[export] Instance still_preorder : PreOrder still.
Proof.
  split.
  - intros w. by constructor.
  - intros w1 w2 w3 [G1 M1 C1] [G2 M2 C2]. constructor; [by etrans|congruence..].
Qed.

Definition quiet {A} (m : M A) : Prop := ∀ w, still w (m w).2.

Lemma quiet_ret {A} (a : A) : quiet (mret a : M A).
Proof. intros w. reflexivity. Qed.
Lemma quiet_throw {A} e : quiet (throw e : M A).
Proof. intros w. reflexivity. Qed.
Lemma quiet_fuel {A} : quiet (out_of_fuel : M A).
Proof. intros w. reflexivity. Qed.
Lemma quiet_tick : quiet tick.
Proof. intros w. constructor; [apply keeps_tick|done..]. Qed.

Lemma quiet_bind {A B} (m : M A) (f : A → M B) : quiet m → (∀ a, quiet (f a)) → quiet (m ≫= f).
Proof.
  intros Hm Hf w. unfold mbind, M_bind. specialize (Hm w). destruct (m w) as [[a|e] w1]; [|done].
  etrans; [exact Hm|apply Hf].
Qed.

Lemma quiet_keeps {A} (m : M A) : quiet m → keeps m.
Proof. intros Hm w. apply Hm. Qed.

Create HintDb quiet.
#[export] Hint Resolve quiet_ret quiet_throw quiet_fuel quiet_tick : quiet.

(** [quiet] through the control structure of a computation. *)
Ltac quiet_tac :=
  repeat first
    [ progress (auto with quiet)
    | apply quiet_bind; [|intros ?]
    | match goal with
      | |- quiet (if ?b then _ else _) => destruct b
      | |- quiet (match ?x with _ => _ end) => destruct x
      | |- quiet ((λ _, _) _) => cbv beta
      end ].

Section quiet_steps.
Context `{Env} (config : Config).

Lemma quiet_rpc {A} (f : nat → result PollError A) : quiet (Poller.rpc f).
Proof. unfold Poller.rpc. quiet_tac. Qed.

Lemma quiet_sql {A} (m : M A) : quiet m → quiet (sql m).
Proof. intros Hm. unfold sql. quiet_tac. Qed.

Lemma quiet_convert ev : quiet (convert ev).
Proof. unfold convert. quiet_tac. Qed.

Lemma quiet_get_events start c : quiet (get_events config start c).
Proof. apply quiet_rpc. Qed.

Lemma quiet_read_last : quiet read_last_processed_m.
Proof. apply quiet_sql. intros w. reflexivity. Qed.

Lemma quiet_insert batch : quiet (store_insert batch).
Proof.
  intros w. constructor; [apply keeps_insert| |];
    unfold store_insert, sql, mbind, M_bind, tick, get, set_db, throw; cbn;
    (destruct (db_fails _); [done|]); cbn; by destruct (insert_events batch _).
Qed.
End quiet_steps.

#[export] Hint Resolve quiet_rpc quiet_convert quiet_get_events quiet_read_last quiet_insert : quiet.

Section quiet_loops.
Context `{Env} (config : Config).

Lemma quiet_scan_recover evs to_ : quiet (scan_recover evs to_).
Proof.
  induction evs as [|ev evs IH]; cbn [scan_recover]; [quiet_tac|].
  destruct (to_ <? i_ledger ev); [quiet_tac|].
  apply quiet_bind; [quiet_tac|]. intros conv. apply quiet_bind; [exact IH|]. intros []. quiet_tac.
Qed.

Lemma quiet_recover_loop fuel from_ to_ token total : quiet (recover_loop config fuel from_ to_ token total).
Proof.
  revert token total. induction fuel as [|fuel IH]; intros token total; cbn [recover_loop]; [quiet_tac|].
  apply quiet_bind; [quiet_tac|]. intros page. apply quiet_bind; [apply quiet_scan_recover|].
  intros [stop batch]. apply quiet_bind; [destruct batch; quiet_tac|]. intros inserted. cbv zeta. quiet_tac.
Qed.

Lemma quiet_scan_backfill evs : quiet (scan_backfill evs).
Proof. induction evs as [|ev evs IH]; cbn [scan_backfill]; quiet_tac. Qed.
End quiet_loops.

#[export] Hint Resolve quiet_scan_recover quiet_recover_loop quiet_scan_backfill : quiet.
#[export] Hint Extern 5 (keeps _) => apply quiet_keeps; solve [auto with quiet] : keeps.

(** ** Pages of an honest endpoint *)

Section pages.
Context `{Env} (config : Config) (chain : list EventInfo) (after : string → list EventInfo).
Context (server : ServerOk chain after) (ts_ok : timestamps_ok chain).
Context (page_pos : (0 < page_size config)%nat).

(** The events from [start] on, and those a token leads to. *)
Definition from_ledger_on (start : Z) : list EventInfo := wanted chain start.

Definition token_rest (start : Z) (token : option string) : list EventInfo :=
  match token with Some c => after c | None => from_ledger_on start end.

(** A page of [token], with what follows it. *)
Definition page_of (start : Z) (token : option string) (page : Page) : Prop :=
  p_events page = take (page_size config) (token_rest start token)
  ∧ match p_cursor page with
    | Some c => after c = drop (page_size config) (token_rest start token)
    | None => (length (token_rest start token) ≤ page_size config)%nat
    end.

Lemma token_page start token w :
  post (get_events config start token) w (λ page _, page_of start token page).
Proof.
  exact (get_events_post config chain after server start (acc_next token 0 (acc_start start)) w).
Qed.

(** A short page, or one without a token, is the last; any other is followed by
    what its token leads to, which is shorter. *)
Lemma page_split start token page :
  page_of start token page →
  if (length (p_events page) <? page_size config)%nat || negb (is_some_b (p_cursor page))
  then token_rest start token = p_events page
  else token_rest start token = (p_events page ++ token_rest start (p_cursor page))%list
       ∧ (length (token_rest start (p_cursor page)) < length (token_rest start token))%nat.
Proof.
  intros [Hevs Hcur]. destruct (_ || _) eqn:Estop.
  - rewrite Hevs, take_ge; [done|]. rewrite Hevs, length_take in Estop. apply orb_true_iff in Estop as [E|E].
    + bool_facts. lia.
    + by destruct (p_cursor page).
  - apply orb_false_iff in Estop as [El Ec]. destruct (p_cursor page) as [c|]; [|done].
    cbn [token_rest] in *. rewrite Hcur, Hevs, take_drop. split; [done|].
    rewrite Hevs, length_take in El. bool_facts. rewrite length_drop. lia.
Qed.

Lemma from_sorted start : StronglySorted (λ a b, i_ledger a ≤ i_ledger b) (from_ledger_on start).
Proof. exact (wanted_sorted chain after server start). Qed.

Lemma in_from start e : e ∈ from_ledger_on start ↔ e ∈ chain ∧ start ≤ i_ledger e.
Proof. unfold from_ledger_on, wanted. rewrite list_elem_of_filter. tauto. Qed.

Lemma rest_chain start token page evs : page_of start token page →
  (∀ e, e ∈ token_rest start token → e ∈ chain) → evs = p_events page → ∀ ev, ev ∈ evs → ev ∈ chain.
Proof.
  intros [Hevs _] Hin -> ev Hev. apply Hin. rewrite Hevs in Hev. apply elem_of_take in Hev as (i & Hi & _).
  by eapply list_elem_of_lookup_2.
Qed.
End pages.

(** ** Replaying a range *)

Section replay.
Context `{Env} (config : Config) (chain : list EventInfo) (after : string → list EventInfo).
Context (server : ServerOk chain after) (ts_ok : timestamps_ok chain).
Context (page_pos : (0 < page_size config)%nat).

(** What a scan leaves out lies past the range. *)
Lemma scan_recover_post evs to_ w : (∀ ev, ev ∈ evs → ev ∈ chain) →
  post (scan_recover evs to_) w (λ r _, ∃ taken rest, evs = (taken ++ rest)%list
    ∧ event_id <$> r.2 = i_id <$> taken
    ∧ match rest with [] => r.1 = false | e :: _ => r.1 = true ∧ to_ < i_ledger e end).
Proof.
  revert w. induction evs as [|ev evs IH]; intros w Hin; [by exists [], []|].
  cbn [scan_recover]. destruct (Z.ltb_spec to_ (i_ledger ev)); [by exists [], (ev :: evs)|].
  apply post_bind. eapply post_mono; [|eapply convert_post; [done|apply Hin; by left]].
  intros conv w1 (e & -> & He). apply post_bind. eapply post_mono; [|apply IH; intros; apply Hin; by right].
  intros [stop batch] w2 (taken & rest & -> & Hids & Hrest). cbn in *.
  exists (ev :: taken), rest. split; [done|]. split; [|done]. by rewrite fmap_cons, <- Hids, <- He.
Qed.

(** Storing a batch; none is stored when it is empty. *)
Lemma insert_unless_empty batch w :
  post (match batch with [] => mret 0%nat | _ => store_insert batch end : M nat) w
    (λ _ w', ∀ e, e ∈ batch → stored w' (event_id e)).
Proof.
  destruct batch as [|e batch]; [|apply store_insert_post]. cbn. by intros e ?%elem_of_nil.
Qed.

Lemma batch_stored (batch : list NewEvent) evs w : event_id <$> batch = i_id <$> evs →
  (∀ e, e ∈ batch → stored w (event_id e)) → ∀ e, e ∈ evs → stored w (i_id e).
Proof.
  intros Hids Hst e He. assert (i_id e ∈ event_id <$> batch) as Hb by (rewrite Hids; by apply list_elem_of_fmap_2).
  apply list_elem_of_fmap in Hb as (n & -> & Hn). auto.
Qed.

Definition at_token (start : Z) (token : option string) (w : World) : Prop :=
  ∃ dn, from_ledger_on chain start = (dn ++ token_rest chain after start token)%list
  ∧ ∀ e, e ∈ dn → stored w (i_id e).

Lemma at_token_chain start token w : at_token start token w →
  ∀ e, e ∈ token_rest chain after start token → e ∈ chain.
Proof.
  intros (dn & Hw & _) e He. assert (e ∈ from_ledger_on chain start) as Hin
    by (rewrite Hw; apply elem_of_app; by right). by apply in_from in Hin as [? _].
Qed.

Lemma at_token_start start w : at_token start None w.
Proof. exists []. split; [done|]. by intros e ?%elem_of_nil. Qed.

Lemma at_token_grows start token w w' : grows w w' → at_token start token w → at_token start token w'.
Proof. intros G (dn & Hw & Hdn). exists dn. split; [done|]. intros e He. apply (g_events w w' G). auto. Qed.

(** A page that has been stored whole moves the token on. *)
Lemma at_token_next start token page w w' :
  at_token start token w → grows w w' → page_of config chain after start token page →
  (∀ e, e ∈ p_events page → stored w' (i_id e)) →
  if (length (p_events page) <? page_size config)%nat || negb (is_some_b (p_cursor page))
  then ∀ e, e ∈ from_ledger_on chain start → stored w' (i_id e)
  else at_token start (p_cursor page) w'.
Proof.
  intros (dn & Hw & Hdn) G Hpage Hst. apply page_split in Hpage; [|done..].
  assert (∀ e, e ∈ dn ++ p_events page → stored w' (i_id e))%list as Hall.
  { intros e He. apply elem_of_app in He as [He|He]; [|auto]. apply (g_events w w' G). auto. }
  destruct (_ || _).
  - intros e He. apply Hall. by rewrite Hw, Hpage in He.
  - destruct Hpage as [Hsplit _]. exists (dn ++ p_events page)%list. split; [|done].
    by rewrite Hw, Hsplit, <- app_assoc.
Qed.

Definition range_stored (w : World) (from_ to_ : Z) : Prop :=
  ∀ e, e ∈ chain → from_ ≤ i_ledger e ≤ to_ → stored w (i_id e).

Lemma recover_loop_post fuel from_ to_ : ∀ token total w, at_token from_ token w →
  post (recover_loop config fuel from_ to_ token total) w (λ _ w', range_stored w' from_ to_).
Proof.
  induction fuel as [|fuel IH]; intros token total w Hat; [done|]. cbn [recover_loop].
  eapply post_step; [auto with keeps|by apply token_page|]. intros page w1 G1 Hpage.
  eapply post_step; [auto with keeps|apply scan_recover_post; eapply rest_chain; [exact Hpage|by eapply at_token_chain|reflexivity]|].
  intros [stop batch] w2 G2 (taken & rest & Hevs & Hids & Hrest). cbn in Hids, Hrest.
  eapply post_step; [destruct batch; auto with keeps|apply insert_unless_empty|].
  intros inserted w3 G3 Hst. cbv zeta.
  assert (grows w w3) as G by (etrans; [exact G1|]; etrans; [exact G2|exact G3]).
  assert (∀ e, e ∈ taken → stored w3 (i_id e)) as Htaken by by eapply batch_stored.
  destruct rest as [|e0 rest].
  - rewrite app_nil_r in Hevs. subst stop taken.
    assert (length batch = length (p_events page)) as -> by (apply (f_equal length) in Hids; by rewrite !length_fmap in Hids).
    pose proof (at_token_next from_ token page w w3 Hat G Hpage Htaken) as Hnext. destruct (_ || _).
    + unfold post. cbn. intros e He Hl. apply Hnext, in_from. split; [done|lia].
    + by apply IH.
  - destruct Hrest as [-> Hpast]. unfold post. cbn. intros e He Hl.
    destruct Hat as (dn & Hw & Hdn).
    assert (e ∈ from_ledger_on chain from_) as Hin by (apply in_from; split; [done|lia]).
    destruct Hpage as [Hp _].
    assert (from_ledger_on chain from_ =
      ((dn ++ taken) ++ e0 :: rest ++ drop (page_size config) (token_rest chain after from_ token))%list) as Hall.
    { rewrite Hw, <- (take_drop (page_size config) (token_rest chain after from_ token)) at 1.
      rewrite <- Hp, Hevs, <- !app_assoc. by cbn. }
    rewrite Hall in Hin. apply elem_of_app in Hin as [[Hin|Hin]%elem_of_app|Hin].
    + apply (g_events w w3 G). auto.
    + auto.
    + exfalso. pose proof (from_sorted chain after server from_) as Hs. rewrite Hall in Hs.
      apply StronglySorted_app in Hs as (_ & _ & Hs). apply StronglySorted_cons in Hs as [Hs _].
      apply elem_of_cons in Hin as [->|Hin]; [lia|]. rewrite Forall_forall in Hs. specialize (Hs e Hin). lia.
Qed.

Lemma total_scan_recover evs to_ : PollerSafety.total (scan_recover evs to_).
Proof.
  induction evs as [|ev evs IH]; cbn [scan_recover]; [total_tac|].
  destruct (to_ <? i_ledger ev); [total_tac|].
  apply total_bind; [total_tac|]. intros conv. apply total_bind; [exact IH|]. intros []. total_tac.
Qed.

Lemma scan_recover_length evs to_ w : post (scan_recover evs to_) w (λ r _, (length r.2 ≤ length evs)%nat).
Proof.
  revert w. induction evs as [|ev evs IH]; intros w; [by unfold post; cbn; lia|]. cbn [scan_recover].
  destruct (to_ <? i_ledger ev); [unfold post; cbn; lia|].
  apply post_step_keeps; [auto with keeps|]. intros conv w1 G1. apply post_bind.
  eapply post_mono; [|apply IH]. intros [stop batch] w2 Hlen. unfold post. cbn in *. destruct conv; cbn; lia.
Qed.

(** What is left after a page that is not the last. *)
Lemma next_shorter start token page n : page_of config chain after start token page →
  (n ≤ length (p_events page))%nat →
  (n <? page_size config)%nat || negb (is_some_b (p_cursor page)) = false →
  (length (token_rest chain after start (p_cursor page)) < length (token_rest chain after start token))%nat.
Proof.
  intros Hpage Hn [E Ec]%orb_false_iff. apply page_split in Hpage; [|done..].
  assert ((length (p_events page) <? page_size config)%nat = false) as E'
    by (apply Nat.ltb_ge in E; apply Nat.ltb_ge; lia).
  rewrite E', Ec in Hpage. by destruct Hpage.
Qed.

Lemma recover_loop_in_fuel fuel from_ to_ : ∀ token total w,
  (length (token_rest chain after from_ token) < fuel)%nat →
  in_fuel (recover_loop config fuel from_ to_ token total) w.
Proof.
  induction fuel as [|fuel IH]; intros token total w Hf; [lia|]. cbn [recover_loop].
  eapply in_fuel_step; [apply total_get_events|by apply token_page|]. intros page w1 Hpage.
  eapply in_fuel_step; [apply total_scan_recover|apply scan_recover_length|].
  intros [stop batch] w2 Hlen. cbn in Hlen.
  apply in_fuel_step_total; [destruct batch; total_tac|]. intros inserted w3. cbv zeta.
  destruct stop; [done|]. destruct (_ || _) eqn:Ego; [done|]. apply IH.
  pose proof (next_shorter from_ token page _ Hpage Hlen Ego). lia.
Qed.

Lemma from_length start : (length (from_ledger_on chain start) ≤ length chain)%nat.
Proof. apply length_filter. Qed.

(** ** Replaying them all *)

(** A range before and after: as it was, or marked. *)
Definition replayed (m m' : MissedRange) : Prop := m' = m ∨ m' = mark_recovered m.

#[local] Instance replayed_preorder : PreOrder replayed.
Proof.
  split; [by left|]. intros m1 m2 m3 [->| ->] [->| ->]; [by left|by right|by right|by right].
Qed.

Record recovering (w w' : World) : Prop := {
  r_events : ∀ id, stored w id → stored w' id;
  r_cursor : cursor_row w' = cursor_row w;
  r_missed : Forall2 replayed (missed_ranges w) (missed_ranges w');
}.

#[local] Instance recovering_preorder : PreOrder recovering.
Proof.
  split.
  - intros w. constructor; [done|done|]. apply Forall2_same_length_lookup. split; [done|].
    intros i x y Hx Hy. rewrite Hx in Hy. injection Hy as ->. reflexivity.
  - intros w1 w2 w3 [E1 C1 M1] [E2 C2 M2]. constructor; [auto|congruence|].
    by etrans.
Qed.

Lemma still_recovering w w' : still w w' → recovering w w'.
Proof.
  intros [G M C]. constructor; [apply G|done|]. rewrite M. apply (r_missed w w). reflexivity.
Qed.

(** A range that is marked has been replayed whole. *)
Definition marks_truthful (w : World) : Prop :=
  ∀ m, m ∈ missed_ranges w → m_recovered m = true → range_stored w (m_from m) (m_to m).

Lemma range_stored_mono w w' lo hi : (∀ id, stored w id → stored w' id) →
  range_stored w lo hi → range_stored w' lo hi.
Proof. intros Hs Hr e He Hl. auto. Qed.

Lemma marks_still w w' : still w w' → marks_truthful w → marks_truthful w'.
Proof.
  intros [G M _] Hw m Hm Hr. rewrite M in Hm. eapply range_stored_mono; [apply G|by apply Hw].
Qed.

(** Marking one range that has been replayed. *)
Lemma set_recovered_spec id m w : marks_truthful w → missed_ranges w !! id = Some m →
  range_stored w (m_from m) (m_to m) →
  let w' := (set_recovered id w).2 in
  recovering w w' ∧ marks_truthful w' ∧ in_fuel (set_recovered id) w
  ∧ post (set_recovered id) w (λ _ w', missed_ranges w' !! id = Some (mark_recovered m)).
Proof.
  intros Hw Hid Hr. unfold in_fuel, post, set_recovered, sql, mbind, M_bind, tick, get, set_missed, throw. cbn.
  destruct (db_fails _); cbn.
  - split; [|done]. constructor; [done|done|]. apply (r_missed w w). reflexivity.
  - split_and!; [|..|by rewrite list_lookup_alter_eq, Hid].
    + constructor; [done|done|]. apply Forall2_same_length_lookup. cbn. rewrite length_alter. split; [done|].
      intros i x y Hx Hy. destruct (decide (i = id)) as [->|Hne].
      * rewrite list_lookup_alter_eq, Hx in Hy. injection Hy as <-. by right.
      * rewrite list_lookup_alter_ne in Hy by done. rewrite Hx in Hy. injection Hy as ->. by left.
    + intros m' [i Hi]%list_elem_of_lookup Hm'. cbn in Hi. destruct (decide (i = id)) as [->|Hne].
      * rewrite list_lookup_alter_eq, Hid in Hi. injection Hi as <-. exact Hr.
      * rewrite list_lookup_alter_ne in Hi by done. apply Hw; [by eapply list_elem_of_lookup_2|done].
    + done.
Qed.
Lemma lookup_replayed w w' i m : recovering w w' → missed_ranges w !! i = Some m →
  ∃ m', missed_ranges w' !! i = Some m' ∧ replayed m m'.
Proof. intros [_ _ M] Hi. destruct (Forall2_lookup_l _ _ _ _ _ M Hi) as (m' & ? & ?). by exists m'. Qed.

Definition is_range (w : World) (p : nat * MissedRange) : Prop :=
  ∃ m, missed_ranges w !! p.1 = Some m ∧ m_from m = m_from p.2 ∧ m_to m = m_to p.2.

Lemma is_range_recovering w w' p : recovering w w' → is_range w p → is_range w' p.
Proof.
  intros R (m & Hm & Hf & Ht). destruct (lookup_replayed w w' _ _ R Hm) as (m' & Hm' & [->| ->]); by eexists.
Qed.

Definition is_marked (w : World) (p : nat * MissedRange) : Prop :=
  ∃ m, missed_ranges w !! p.1 = Some m ∧ m_recovered m = true.

Lemma is_marked_recovering w w' p : recovering w w' → is_marked w p → is_marked w' p.
Proof.
  intros R (m & Hm & Hr). destruct (lookup_replayed w w' _ _ R Hm) as (m' & Hm' & [->| ->]); by eexists.
Qed.

(** One range, then the others. *)
Lemma recover_ranges_spec fuel l : (length chain < fuel)%nat → ∀ w,
  marks_truthful w → Forall (is_range w) l →
  let w' := (recover_ranges config fuel l w).2 in
  recovering w w' ∧ marks_truthful w' ∧ in_fuel (recover_ranges config fuel l) w
  ∧ post (recover_ranges config fuel l) w (λ _ w', Forall (is_marked w') l).
Proof.
  intros Hfuel. induction l as [|[id r] l IH]; intros w Hw Hl; [by cbn; split_and!; [reflexivity|..]|].
  apply Forall_cons in Hl as [(m & Hid & Hf & Ht) Hl]. cbn [fst snd] in *.
  assert (in_fuel (recover_loop config fuel (m_from r) (m_to r) None 0) w) as Hin.
  { apply recover_loop_in_fuel. pose proof (from_length (m_from r)). cbn [token_rest]. lia. }
  pose proof (recover_loop_post fuel (m_from r) (m_to r) None 0 w (at_token_start _ _)) as Hpost.
  pose proof (quiet_recover_loop config fuel (m_from r) (m_to r) None 0 w) as Hstill.
  unfold in_fuel, post in Hin, Hpost |- *. cbn [recover_ranges]. unfold mbind, M_bind.
  destruct (recover_loop config fuel (m_from r) (m_to r) None 0 w) as [[n|e] w1]; cbn in *;
    [|split_and!; [by apply still_recovering|by apply (marks_still w)|by intros [= ->]|done]].
  destruct (set_recovered_spec id m w1) as (R1 & Hw1 & Hin1 & Hpost1);
    [by apply (marks_still w)|by rewrite (s_missed w w1)|by rewrite Hf, Ht|].
  assert (recovering w w1) as R0 by by apply still_recovering.
  unfold in_fuel, post in Hin1, Hpost1. destruct (set_recovered id w1) as [[[]|e] w2]; cbn in *;
    [|split_and!; [by etrans|done..]].
  destruct (IH w2 Hw1) as (R2 & Hw2 & Hin2 & Hpost2).
  { eapply Forall_impl; [exact Hl|]. intros p Hp. eapply is_range_recovering; [exact R1|].
    by eapply is_range_recovering. }
  split_and!; [by do 2 (etrans; [eassumption|])|done|done|].
  unfold post in Hpost2. destruct (recover_ranges config fuel l w2) as [[[]|e] w3]; [|done]. cbn in *.
  constructor; [|done]. apply (is_marked_recovering w2 w3); [done|]. by eexists.
Qed.

Lemma unrecovered_elem l i m : (i, m) ∈ unrecovered l ↔
  l !! i = Some m ∧ m_recovered m = false ∧ m_recoverable m = true.
Proof.
  unfold unrecovered. rewrite sort_by_perm, list_elem_of_filter, elem_of_lookup_imap. cbn. split.
  - intros [? (j & y & [= -> ->] & Hy)]. done.
  - intros [Hl ?]. split; [done|]. by eauto.
Qed.

(** C33: Replaying the gaps ends, and closes them, over any endpoint that serves a
    chain whose events all have a close time that parses (one that does not is
    skipped, makes its page look short and ends the loop, and the range is
    marked all the same: [timestamps_ok] excludes it): whatever statement or
    call fails, no event is lost, the cursor stays, and a range is marked only
    when every event of it is stored, so an interrupted pass can be repeated;
    when the pass succeeds, an event up to the cursor that was covered by a
    recorded range is stored, or its range was recorded as not recoverable. *)
Theorem gap_recovery_correct fuel w c0 :
  (length chain < fuel)%nat → marks_truthful w → no_silent_loss chain c0 w →
  let '(r, w') := recover_gaps config fuel w in
  r ≠ Err OutOfFuel
  ∧ recovering w w' ∧ marks_truthful w'
  ∧ no_silent_loss chain c0 w'
  ∧ (r = Ok tt → ∀ e row, e ∈ chain → cursor_row w = Some row → i_ledger e ≤ last_processed_ledger row →
       stored w' (i_id e)
       ∨ ∃ m, m ∈ missed_ranges w ∧ m_recoverable m = false ∧ m_from m ≤ i_ledger e ≤ m_to m).
Proof.
  intros Hfuel Hw (row & Hrow & Hc & Hcov).
  assert (∀ w', recovering w w' → ∀ e, covered w e → covered w' e) as Hcovered.
  { intros w' [E _ M] e [H1|(m & Hm & Hl)]; [left; auto|right].
    apply list_elem_of_lookup in Hm as [i Hi]. destruct (Forall2_lookup_l _ _ _ _ _ M Hi) as (m' & Hm' & Hr).
    exists m'. split; [by eapply list_elem_of_lookup_2|]. by destruct Hr as [->| ->]. }
  assert (∀ w', recovering w w' → no_silent_loss chain c0 w') as Hnsl.
  { intros w' R. exists row. split; [by rewrite (r_cursor w w' R)|]. split; [done|]. intros e He Hl.
    apply (Hcovered w' R). auto. }
  set (w1 := (tick w).2). assert (recovering w w1) as R1 by (apply still_recovering; apply quiet_tick).
  assert (marks_truthful w1) as Hw1 by (apply (marks_still w); [apply quiet_tick|done]).
  assert (recover_gaps config fuel w =
    if db_fails (clock w) then (Err (Fails DbError), w1)
    else recover_ranges config fuel (unrecovered (missed_ranges w)) w1) as ->.
  { unfold recover_gaps, sql, mbind, M_bind, tick, get, throw. cbn. by destruct (db_fails _). }
  destruct (db_fails (clock w)); [by split_and!; auto|].
  destruct (recover_ranges_spec fuel (unrecovered (missed_ranges w)) Hfuel w1 Hw1) as (R2 & Hw2 & Hin & Hpost).
  { apply Forall_forall. intros [i m] [Hi _]%unrecovered_elem. by exists m. }
  unfold in_fuel, post in Hin, Hpost.
  destruct (recover_ranges _ _ _ w1) as [r w2]. cbn in *.
  assert (recovering w w2) as R by by etrans.
  split_and!; [done|done|done|by apply Hnsl|]. intros -> e row' He Hrow' Hl.
  assert (row' = row) as -> by congruence.
  destruct (Hcov e He Hl) as [Hs|(m & Hm & Hr)]; [left; by apply (r_events w w2)|].
  destruct (m_recoverable m) eqn:Erec; [left|right; by exists m].
  destruct (m_recovered m) eqn:Emark.
  - apply (range_stored_mono w w2) with (lo := m_from m) (hi := m_to m); [apply R|by apply Hw|done|done].
  - apply list_elem_of_lookup in Hm as [i Hi].
    rewrite Forall_forall in Hpost. destruct (Hpost (i, m)) as (m2 & Hm2 & Hmark).
    { by apply unrecovered_elem. }
    destruct (lookup_replayed w w2 i m R Hi) as (m' & Hm' & Hrep). cbn in Hm2.
    assert (m2 = m') as -> by congruence.
    assert (m_from m' = m_from m ∧ m_to m' = m_to m) as [Hf Ht] by by destruct Hrep as [->| ->].
    apply (Hw2 m'); [by eapply list_elem_of_lookup_2|done|done|by rewrite Hf, Ht].
Qed.
End replay.

(** ** The backfill's checkpoints *)

Section checkpoints.
Context `{Env} (config : Config) (chain : list EventInfo) (after : string → list EventInfo).
Context (server : ServerOk chain after) (ts_ok : timestamps_ok chain).
Context (page_pos : (0 < page_size config)%nat).

Lemma scan_backfill_post evs w : (∀ ev, ev ∈ evs → ev ∈ chain) →
  post (scan_backfill evs) w (λ batch _, event_id <$> batch = i_id <$> evs).
Proof.
  revert w. induction evs as [|ev evs IH]; intros w Hin; [done|]. cbn [scan_backfill].
  apply post_bind. eapply post_mono; [|eapply convert_post; [done|apply Hin; by left]].
  intros conv w1 (e & -> & He). apply post_bind. eapply post_mono; [|apply IH; intros; apply Hin; by right].
  intros batch w2 Hids. cbn. by rewrite He, Hids.
Qed.

Lemma total_scan_backfill evs : PollerSafety.total (scan_backfill evs).
Proof. induction evs as [|ev evs IH]; cbn [scan_backfill]; total_tac. Qed.

Lemma foldl_max_le evs : ∀ m x, m ≤ x → (∀ e, e ∈ evs → i_ledger e ≤ x) →
  foldl (λ m e, Z.max m (i_ledger e)) m evs ≤ x.
Proof.
  induction evs as [|e evs IH]; intros m x Hm He; [done|]. cbn [foldl]. apply IH.
  - specialize (He e ltac:(by left)). lia.
  - intros e' He'. apply He. by right.
Qed.

Lemma page_max_le evs last_ x : last_ ≤ x → (∀ e, e ∈ evs → i_ledger e ≤ x) → page_max_ledger evs last_ ≤ x.
Proof.
  intros Hl He. destruct evs as [|e evs]; [done|]. apply foldl_max_le; [apply He; by left|].
  intros e' He'. apply He. by right.
Qed.

(** Every event from [start] up to, not including, ledger [l] is stored. *)
Definition stored_below (start l : Z) (w : World) : Prop :=
  ∀ e, e ∈ chain → start ≤ i_ledger e < l → stored w (i_id e).

Definition checkpointed (start : Z) (w : World) : Prop :=
  ∃ row, cursor_row w = Some row ∧ stored_below start (last_processed_ledger row) w.

Lemma stored_below_mono start l w w' : (∀ id, stored w id → stored w' id) →
  stored_below start l w → stored_below start l w'.
Proof. intros Hs Hb e He Hl. auto. Qed.

(** A page that has been stored: what lies below its last ledger is stored. *)
Lemma page_below start token page last_ w w' :
  at_token chain after start token w → (∀ id, stored w id → stored w' id) →
  page_of config chain after start token page → stored_below start last_ w →
  (∀ e, e ∈ p_events page → stored w' (i_id e)) →
  stored_below start (page_max_ledger (p_events page) last_) w'.
Proof.
  intros (dn & Hw & Hdn) Hmono [Hevs _] Hlast Hst e He Hl.
  assert (e ∈ from_ledger_on chain start) as Hin by (apply in_from; split; [done|lia]).
  pose proof (from_sorted chain after server start) as Hs.
  rewrite Hw, <- (take_drop (page_size config) (token_rest chain after start token)), <- Hevs in Hin, Hs.
  apply elem_of_app in Hin as [Hin|[Hin|Hin]%elem_of_app]; [auto..|].
  destruct (p_events page) as [|e0 evs] eqn:E; [apply Hmono, Hlast; [done|exact Hl]|].
  exfalso. rewrite <- E in *. rewrite app_assoc in Hs. apply StronglySorted_app in Hs as (Hs & _ & _).
  assert (page_max_ledger (p_events page) last_ ≤ i_ledger e); [|lia].
  rewrite E. cbn [page_max_ledger]. assert (∀ x, x ∈ e0 :: evs → i_ledger x ≤ i_ledger e) as Hle.
  { intros x Hx. apply Hs; [|done]. apply elem_of_app. right. by rewrite E. }
  apply foldl_max_le; [apply Hle; by left|]. intros x Hx. apply Hle. by right.
Qed.

(** What the walk guarantees however it ends. *)
Record walked (start : Z) (w w' : World) : Prop := {
  wk_events : ∀ id, stored w id → stored w' id;
  wk_missed : missed_ranges w' = missed_ranges w;
  wk_cursor : cursor_row w' = cursor_row w ∨ checkpointed start w';
}.

Lemma walked_still start w w' : still w w' → walked start w w'.
Proof. intros [G M C]. constructor; [apply G|done|by left]. Qed.

Lemma walked_trans start w1 w2 w3 : walked start w1 w2 → walked start w2 w3 → walked start w1 w3.
Proof.
  intros [E1 M1 C1] [E2 M2 C2]. constructor; [auto|congruence|].
  destruct C2 as [C2|C2]; [|by right]. destruct C1 as [C1|(row & Hr & Hb)]; [left; congruence|right].
  exists row. split; [congruence|]. by eapply stored_below_mono.
Qed.

Lemma write_progress_walked start l tip delta w : stored_below start l w →
  walked start w (write_progress l tip delta w).2.
Proof.
  intros Hb. destruct (write_progress_spec l tip delta w) as (Hdb & Hm & Hc & _).
  constructor; [|done|].
  - intros id. unfold stored. by rewrite Hdb.
  - destruct Hc as [Hc|(r & r' & _ & Hr' & Hl)]; [by left|right].
    exists r'. split; [done|]. rewrite Hl. intros e He Hr. unfold stored. rewrite Hdb. by apply Hb.
Qed.

(** [m] ends, walks, and establishes [P] when it succeeds. *)
Definition walks {A} (start : Z) (m : M A) (w : World) (P : A → World → Prop) : Prop :=
  walked start w (m w).2 ∧ in_fuel m w ∧ post m w P.

Lemma walks_quiet {A} start (m : M A) w P : quiet m → PollerSafety.total m → post m w P → walks start m w P.
Proof. intros Hq Ht Hp. split_and!; [by apply walked_still|apply Ht|done]. Qed.

Lemma walks_step {A B} start (m : M A) (f : A → M B) w Q P :
  walks start m w Q → (∀ a w', walked start w w' → Q a w' → walks start (f a) w' P) →
  walks start (m ≫= f) w P.
Proof.
  intros (Hw & Hf & Hp) Hk. unfold walks, in_fuel, post in *. unfold mbind, M_bind.
  destruct (m w) as [[a|e] w1]; cbn in *; [|by split_and!; [|intros [= ->]|]].
  destruct (Hk a w1 Hw Hp) as (Hw' & Hf' & Hp'). split_and!; [by eapply walked_trans|done|done].
Qed.

Lemma walks_ret {A} start (a : A) w (P : A → World → Prop) : P a w → walks start (mret a) w P.
Proof. intros HP. apply walks_quiet; [apply quiet_ret|apply total_ret|done]. Qed.

Lemma walks_write start l tip delta w : stored_below start l w →
  walks start (write_progress l tip delta) w
    (λ _ w', db w' = db w ∧ ∃ r', cursor_row w' = Some r' ∧ last_processed_ledger r' = l).
Proof.
  intros Hb. destruct (write_progress_spec l tip delta w) as (Hdb & _ & _ & Hp).
  split_and!; [by apply write_progress_walked|apply (total_write_progress l tip delta w)|].
  unfold post in *. destruct (write_progress _ _ _ w) as [[[]|e] w1]; [|done]. done.
Qed.

Lemma catch_up_walks fuel start tip : ∀ token total last_ w,
  at_token chain after start token w → stored_below start last_ w →
  (length (token_rest chain after start token) < fuel)%nat →
  walks start (catch_up_loop config fuel start tip token total last_) w
    (λ _ w', ∀ e, e ∈ from_ledger_on chain start → stored w' (i_id e)).
Proof.
  induction fuel as [|fuel IH]; intros token total last_ w Hat Hlast Hf; [lia|]. cbn [catch_up_loop].
  eapply walks_step; [apply walks_quiet; [auto with quiet|apply total_get_events|by apply token_page]|].
  intros page w1 W1 Hpage. cbv zeta.
  eapply walks_step; [apply walks_quiet; [auto with quiet|apply total_scan_backfill|]|].
  { apply scan_backfill_post. eapply rest_chain; [exact Hpage|exact (at_token_chain _ _ _ _ _ Hat)|reflexivity]. }
  intros batch w2 W2 Hids.
  eapply walks_step; [apply walks_quiet; [auto with quiet|auto with total|apply store_insert_post]|].
  intros inserted w3 W3 Hst.
  assert (∀ id, stored w id → stored w3 id) as Hmono
    by (intros id Hid; apply (wk_events start w2 w3 W3), (wk_events start w1 w2 W2), (wk_events start w w1 W1), Hid).
  assert (∀ e, e ∈ p_events page → stored w3 (i_id e)) as Hpg by (eapply batch_stored; [exact Hids|exact Hst]).
  pose proof (page_below start token page last_ w w3 Hat Hmono Hpage Hlast Hpg) as Hbelow.
  eapply walks_step; [by apply walks_write|]. intros [] w4 W4 [Hdb _].
  assert (∀ id, stored w id → stored w4 id) as Hmono4 by (intros id Hid; apply (wk_events start w3 w4 W4); auto).
  pose proof (page_split config chain after page_pos start token page Hpage) as Hsplit.
  destruct (_ || _) eqn:Ego.
  - apply walks_ret. destruct Hat as (dn & Hw & Hdn). rewrite Hw, Hsplit. intros e [He|He]%elem_of_app; [auto|].
    unfold stored. rewrite Hdb. by apply Hpg.
  - destruct Hsplit as [Hsplit Hlt]. apply IH; [|by eapply stored_below_mono; [apply (wk_events start w3 w4 W4)|]|lia].
    destruct Hat as (dn & Hw & Hdn). exists (dn ++ p_events page)%list.
    split; [by rewrite Hw, Hsplit, <- app_assoc|]. intros e [He|He]%elem_of_app; [auto|].
    unfold stored. rewrite Hdb. by apply Hpg.
Qed.

(** Where a pass starts that finds the chain at [tip]. *)
Definition start_of (from_ledger tip : Z) (w : World) : Z :=
  backfill_start tip (if from_ledger =? 0
                      then match last_processed_ledger <$> cursor_row w with Some l => l + 1 | None => 0 end
                      else from_ledger).

Lemma backfill_to_walks fuel from_ledger tip w : (length chain < fuel)%nat →
  let start := start_of from_ledger tip w in
  walks start (backfill_to config fuel from_ledger tip) w (λ _ w',
    (∀ e, e ∈ from_ledger_on chain start → stored w' (i_id e))
    ∧ ∃ row, cursor_row w' = Some row ∧ last_processed_ledger row = tip).
Proof.
  intros Hfuel start. unfold backfill_to.
  apply (walks_step start _ _ w (λ v _, backfill_start tip v = start)).
  { apply walks_quiet; [destruct (_ =? 0); quiet_tac|destruct (_ =? 0); total_tac|].
    unfold start, start_of. destruct (from_ledger =? 0); [|done].
    unfold post, read_last_processed_m, sql, mbind, M_bind, tick, get, throw. cbn.
    by destruct (db_fails _). }
  intros resume w1 W1 Hstart. cbv zeta. rewrite Hstart.
  eapply walks_step; [apply catch_up_walks; [apply at_token_start|intros e _ Hl; lia|]|].
  { pose proof (from_length chain start). cbn [token_rest]. lia. }
  intros total w2 W2 Hall.
  eapply walks_step; [apply walks_write; intros e He Hl; apply Hall, in_from; split; [done|lia]|].
  intros [] w3 W3 [Hdb Hrow]. apply walks_ret. split; [|done].
  intros e He. unfold stored. rewrite Hdb. by apply Hall.
Qed.

(** What a run establishes, in terms of the tip it is told. *)
Definition run_ok (from_ledger : Z) (w : World) (r : result Fault nat) (w' : World) : Prop :=
  match rpc_latest_ledger (clock w) with
  | Err e => r = Err (Fails e) ∧ db w' = db w ∧ cursor_row w' = cursor_row w
  | Ok tip =>
      let start := start_of from_ledger tip w in
      r ≠ Err OutOfFuel ∧ walked start w w'
      ∧ (is_ok r = true → (∀ e, e ∈ chain → start ≤ i_ledger e → stored w' (i_id e))
           ∧ ∃ row, cursor_row w' = Some row ∧ last_processed_ledger row = tip)
  end.

Lemma run_backfill_ok fuel from_ledger w : (length chain < fuel)%nat →
  let '(r, w') := run_backfill config fuel from_ledger w in run_ok from_ledger w r w'.
Proof.
  intros Hfuel. unfold run_ok.
  assert (run_backfill config fuel from_ledger w = match rpc_latest_ledger (clock w) with
    | Ok tip => backfill_to config fuel from_ledger tip (tick w).2
    | Err e => (Err (Fails e), (tick w).2) end) as ->.
  { unfold run_backfill, rpc, mbind, M_bind, tick. cbn. by destruct (rpc_latest_ledger _). }
  destruct (rpc_latest_ledger (clock w)) as [tip|e]; [|done].
  destruct (backfill_to_walks fuel from_ledger tip (tick w).2 Hfuel) as (W & Hf & Hp).
  change (start_of from_ledger tip (tick w).2) with (start_of from_ledger tip w) in W, Hp.
  unfold in_fuel, post in *. destruct (backfill_to _ _ _ _ _) as [r w']. cbn in *.
  split; [done|]. split.
  { apply (walked_trans _ w (tick w).2); [apply walked_still, quiet_tick|done]. }
  destruct r as [n|e]; [intros _|done]. destruct Hp as [Hall Hrow].
  split; [intros e He Hl; by apply Hall, in_from|done].
Qed.

(** However a backfill ends, its cursor can be trusted up to the ledger it
    names: the pass ends, keeps what was stored, and leaves the cursor where it
    was or at a checkpoint below which every event from the start of the pass is
    stored; when it succeeds the cursor is at the tip and every event from its
    start on is stored.  Resuming an interrupted pass from its checkpoint then
    completes it, but for the checkpoint's own ledger and what the endpoint has
    dropped meanwhile. *)
Theorem backfill_checkpoints fuel from_ledger w :
  (length chain < fuel)%nat →
  let '(r, w') := run_backfill config fuel from_ledger w in
  run_ok from_ledger w r w'
  ∧ ∀ tip tip' row, rpc_latest_ledger (clock w) = Ok tip → rpc_latest_ledger (clock w') = Ok tip' →
    cursor_row w' = Some row → cursor_row w' ≠ cursor_row w → 
    let '(r2, w2) := run_backfill config fuel 0 w' in
    is_ok r2 = true → ∀ e, e ∈ chain → start_of from_ledger tip w ≤ i_ledger e →
      stored w2 (i_id e) ∨ i_ledger e = last_processed_ledger row
      ∨ last_processed_ledger row < i_ledger e < Z.max (tip' - MAX_LOOKBACK_LEDGERS) 1.
Proof.
  intros Hfuel. pose proof (run_backfill_ok fuel from_ledger w Hfuel) as H1.
  destruct (run_backfill config fuel from_ledger w) as [r w']. split; [done|].
  intros tip tip' row Htip Htip' Hrow Hne. pose proof (run_backfill_ok fuel 0 w' Hfuel) as H2.
  destruct (run_backfill config fuel 0 w') as [r2 w2]. intros Hok e He Hl.
  unfold run_ok in H1, H2. rewrite Htip in H1. rewrite Htip' in H2.
  destruct H1 as (_ & [_ _ [?|(row' & Hrow' & Hb)]] & _); [done|].
  assert (row' = row) as -> by congruence.
  destruct H2 as (_ & W2 & Hall). destruct (Hall Hok) as [Hs _].
  unfold start_of, backfill_start in Hs. rewrite Hrow in Hs. cbn in Hs.
  destruct (Z.lt_trichotomy (i_ledger e) (last_processed_ledger row)) as [Hlt|[?|Hgt]]; [left|by right; left|].
  - apply (wk_events _ _ _ W2), Hb; [done|lia].
  - destruct (Z.lt_ge_cases (i_ledger e) (Z.max (tip' - MAX_LOOKBACK_LEDGERS) 1)); [right; right; lia|left].
    apply Hs; [done|lia].
Qed.
End checkpoints.

(** ** Witnesses *)

Definition gap (lo hi : Z) (ok : bool) : MissedRange :=
  {| m_from := lo; m_to := hi; m_reason := "page error"; m_recoverable := ok; m_recovered := false |}.

Definition world_with_gaps (cursor : option Z) (gaps : list MissedRange) : World := {|
  db := empty_db; cursor_row := cursor_row (world_at cursor); missed_ranges := gaps; effects := [];
  rpc_oldest_ledger := 0; clock := 0 |}.

Lemma good_chain_times tip fails : @timestamps_ok (sample_env good_chain tip fails) good_chain.
Proof. repeat constructor; eexists; reflexivity. Qed.

(** Two recorded gaps are replayed, the second in two pages. *)
Lemma gap_recovery_correct_witness :
  let env := sample_env good_chain (Ok 12) (λ _, false) in
  let w := world_with_gaps (Some 12) [gap 12 12 true; gap 5 11 true] in
  let '(r, w') := @recover_gaps env (sample_config 2) 4 w in
  r = Ok tt ∧ stored w' "1" ∧ stored w' "2" ∧ stored w' "3".
Proof.
  set (env := sample_env good_chain (Ok 12) (λ _, false)). cbn zeta.
  set (w := world_with_gaps (Some 12) [gap 12 12 true; gap 5 11 true]).
  pose proof (@gap_recovery_correct env (sample_config 2) good_chain (suffix_after good_chain)
    (honest_server good_chain (Ok 12) (λ _, false) good_chain_sorted)
    (good_chain_times (Ok 12) (λ _, false)) ltac:(simpl; lia) 4%nat w 0) as Hgap.
  destruct (@recover_gaps env (sample_config 2) 4 w) as [r w'] eqn:Erun.
  destruct Hgap as (_ & _ & _ & _ & Hall).
  - simpl; lia.
  - intros m Hm Hr. exfalso. repeat (apply elem_of_cons in Hm as [->|Hm]; [done|]). by destruct (not_elem_of_nil _ Hm).
  - eexists. split; [reflexivity|]. split; [simpl; lia|]. intros e He _. right.
    apply elem_of_cons in He as [->|He]; [exists (gap 5 11 true); split; [right; by left|simpl; lia]|].
    apply elem_of_cons in He as [->|He]; [exists (gap 5 11 true); split; [right; by left|simpl; lia]|].
    apply elem_of_cons in He as [->|He]; [exists (gap 12 12 true); split; [by left|simpl; lia]|].
    by destruct (not_elem_of_nil _ He).
  - assert (r = Ok tt) as -> by (vm_compute in Erun; by injection Erun as <- _). split; [done|].
    assert (∀ e, e ∈ good_chain → stored w' (i_id e)) as Hst.
    { intros e He. destruct (Hall eq_refl e (default inserted_row (cursor_row w)) He eq_refl) as [Hs|(m & Hm & Hrec & _)].
      - repeat (apply elem_of_cons in He as [->|He]; [simpl; lia|]). by destruct (not_elem_of_nil _ He).
      - exact Hs.
      - repeat (apply elem_of_cons in Hm as [->|Hm]; [done|]). by destruct (not_elem_of_nil _ Hm). }
    split_and!; [apply (Hst (sample_event_info "1" 11 "t")); by left
      |apply (Hst (sample_event_info "2" 11 "t")); right; by left
      |apply (Hst (sample_event_info "3" 12 "t")); right; right; by left].
Defined.

(** Interrupted after its first page, the pass is resumed and completed. *)
Definition interrupted : nat → bool := λ t, (t =? 8)%nat.

Lemma backfill_checkpoints_witness :
  let env := sample_env good_chain (Ok 12) interrupted in
  let w1 := (@run_backfill env (sample_config 1) 4 11 (world_at (Some 0))).2 in
  let '(r2, w2) := @run_backfill env (sample_config 1) 4 0 w1 in
  read_last_processed (cursor_row w1) = Some 11 ∧ is_ok r2 = true ∧ stored w2 "3".
Proof.
  set (env := sample_env good_chain (Ok 12) interrupted). cbn zeta.
  pose proof (@backfill_checkpoints env (sample_config 1) good_chain (suffix_after good_chain)
    (honest_server good_chain (Ok 12) interrupted good_chain_sorted) (good_chain_times (Ok 12) interrupted)
    ltac:(simpl; lia) 4%nat 11 (world_at (Some 0)) ltac:(simpl; lia)) as Hb.
  destruct (@run_backfill env (sample_config 1) 4 11 (world_at (Some 0))) as [r1 w1] eqn:E1.
  assert (read_last_processed (cursor_row w1) = Some 11) as Hcur
    by (vm_compute in E1; injection E1 as _ <-; reflexivity).
  destruct Hb as [_ Hb]. unfold read_last_processed in Hcur. cbn [snd].
  destruct (cursor_row w1) as [row|] eqn:Erow; [|done]. cbn in Hcur. injection Hcur as Hl.
  specialize (Hb 12 12 row eq_refl eq_refl eq_refl).
  destruct (@run_backfill env (sample_config 1) 4 0 w1) as [r2 w2] eqn:E2.
  assert (is_ok r2 = true) as Hok.
  { vm_compute in E1. injection E1 as _ <-. vm_compute in E2. by injection E2 as <- _. }
  split; [cbn; by rewrite Hl|]. split; [done|].
  destruct (Hb ltac:(intros [= Heq]; apply (f_equal last_processed_ledger) in Heq; cbn in Heq; lia) Hok
    (sample_event_info "3" 12 "t")) as [Hs|[Hs|Hs]]; [right; right; by left|by vm_compute|exact Hs| |];
    exfalso; rewrite Hl in Hs; vm_compute in Hs; [done|by destruct Hs].
Defined.

(** ** What the passes lose *)

(** The checkpoint's own ledger: a page may end inside a ledger, and the resumed
    pass starts after it. *)
Example checkpoint_splits_ledger :
  let env := sample_env good_chain (Ok 12) interrupted in
  let w1 := (@run_backfill env (sample_config 1) 4 11 (world_at (Some 0))).2 in
  let '(r2, w2) := @run_backfill env (sample_config 1) 4 0 w1 in
  r2 = Ok 1%nat ∧ read_last_processed (cursor_row w2) = Some 12 ∧ Store.events (db w2) !! "2" = None.
Proof. by vm_compute. Qed.

(** A backfill of a fresh database stores a page and fails: no statement of it
    creates the cursor row it checkpoints to. *)
Example fresh_database_backfill :
  let env := sample_env good_chain (Ok 12) (λ _, false) in
  (@run_backfill env (sample_config 2) 4 11 (world_at None)).1 = Err (Fails RowNotFound).
Proof. by vm_compute. Qed.

(** An endpoint that refuses a start ledger it no longer serves. *)
Definition windowed_env (oldest : Z) : Env := {|
  env_stellar := Instances.sample_stellar;
  env_chrono := @env_chrono (sample_env good_chain (Ok 12) (λ _, false));
  env_b64 := λ _, None;
  env_read_xdr := λ _, None;
  env_order := map_to_list;
  rpc_latest_ledger := λ _, Ok 12;
  rpc_health := λ _, Ok oldest;
  rpc_get_events := λ _ start cursor limit,
    if default oldest start <? oldest then Err (RpcAnswer (-32600)) else Ok (honest_page good_chain start cursor limit);
  rpc_take_metrics := λ _, (3, 0, 0, 0);
  spec_get := λ _ _ _, None;
  db_fails := λ _, false;
  cancelled := λ _, false;
  instant := λ _, 0;
|}.

(** One range that has left the window keeps every later range from being
    replayed, on every run: the oldest comes first and its error ends the pass. *)
Example expired_range_blocks :
  let '(r, w') := @recover_gaps (windowed_env 10) (sample_config 2) 4
                    (world_with_gaps (Some 12) [gap 5 6 true; gap 12 12 true]) in
  r = Err (Fails (RpcAnswer (-32600))) ∧ missed_ranges w' = [gap 5 6 true; gap 12 12 true]
  ∧ Store.events (db w') = ∅.
Proof. by vm_compute. Qed.
