(* ===== verification/DeepBackfill.v ===== *)
(** * DeepBackfill: ingesting archives ([lumenqraph-indexer/src/deep_backfill.rs])

    Events older than the RPC's window come from newline-delimited JSON files:
    [parse_line] reads a line as a ledger envelope or a flat record,
    [collect_range] filters the lines of the inputs, and [run_deep_backfill]
    converts and stores them in batches, in the monad of [Poller].  The JSON
    parser, the date parser and the files are parameters; each run reads the
    clock anew for the lines that carry no close time. *)
From S2P Require Import Prelude Text Containers Values Instances XdrDecode Spec Enrich Crypto Lru.
From S2P Require Import Store Convert Cursor Poller PollerSafety Backfill History.
From Stdlib Require Import Ascii.

Local Open Scope string_scope.
Local Open Scope Z_scope.

(** ** Data *)

Record HistoricalEvent := {
  h_event_id : string;
  h_contract_id : string;
  h_ledger : Z;
  h_ledger_closed_at : DateTime;
  h_event_type : string;
  h_topics : list string;
  h_value : string;
  h_tx_hash : string;
  h_in_successful_call : bool;
  h_paging_token : string;
}.

(** The members the envelope's entries and the flat record share. *)
Record EventEntry := {
  e_id : option string;
  e_event_id : option string;
  e_contract_id : option string;
  e_event_type : option string;
  e_topic : list string;
  e_value : string;
  e_tx_hash : string;
  e_in_successful_contract_call : bool;
  e_paging_token : string;
}.

Record GalexieEnvelope := {
  g_ledger : Z;
  g_ledger_close_time : option string;
  g_entries : option (list EventEntry);
}.

Record GalexieFlatRecord := {
  f_entry : EventEntry;
  f_ledger : option Z;
  f_ledger_closed_at : option string;
}.

(** The errors of [parse_line], by their context. *)
Inductive LineError : Type :=
  | InvalidJson
  | BadEnvelope
  | BadFlatRecord
  | MissingId
  | MissingContractId
  | MissingLedger.

(** ** Deserialisation ([serde]'s derived [Deserialize])

    A struct is read from an object by member names or from an array by
    position.  A member is given by its name and whether it has a default. *)

Definition Members : Type := list (string * bool).

(** What a member is read from: a value, or nothing. *)
Definition MemberField : Type := string → result () (option Json).

Fixpoint nth_member (i : nat) (names : Members) (k : string) : option (nat * bool) :=
  match names with
  | [] => None
  | (n, d) :: names' => if String.eqb n k then Some (i, d) else nth_member (S i) names' k
  end.

Definition seq_field (names : Members) (l : list Json) : MemberField := λ k,
  match nth_member 0 names k with
  | None => Ok None
  | Some (i, has_default) =>
      match l !! i with
      | Some v => Ok (Some v)
      | None => if has_default : bool then Ok None else Err tt
      end
  end.

(** [serde_json::from_value]. *)
Definition value_field (names : Members) (v : Json) : MemberField := λ k,
  match v with
  | JObj _ => Ok (json_get k v)
  | JArr l => if (length names <? length l)%nat then Err tt else seq_field names l k
  | _ => Err tt
  end.

(** [serde_json::from_str], where a known member that occurs twice is an error;
    [members] are those of the text's object. *)
Definition text_field (names : Members) (members : list (string * Json)) (v : Json) : MemberField := λ k,
  match v with
  | JObj _ => match base.filter (λ m, m.1 = k) members with
              | [] => Ok None
              | [m] => Ok (Some m.2)
              | _ => Err tt
              end
  | _ => value_field names v k
  end.

Definition opt_member {A} (dec : Json → option A) (f : MemberField) (k : string) : result () (option A) :=
  v ← f k;
  match v with
  | None | Some JNull => Ok None
  | Some v => match dec v with Some a => Ok (Some a) | None => Err tt end
  end.

Definition default_member {A} (dec : Json → option A) (d : A) (f : MemberField) (k : string) : result () A :=
  v ← f k;
  match v with
  | None => Ok d
  | Some v => ok_or tt (dec v)
  end.

Definition req_member {A} (dec : Json → option A) (f : MemberField) (k : string) : result () A :=
  v ← f k;
  match v with
  | None => Err tt
  | Some v => ok_or tt (dec v)
  end.

Definition dec_i64 (v : Json) : option Z :=
  match v with JInt z => if in_i 64 z then Some z else None | _ => None end.

Definition dec_strings (v : Json) : option (list string) := as_array v ≫= mapM as_str.

(** [GalexieEventEntry] and the members of [GalexieFlatRecord]. *)
Definition entry_members : Members :=
  [("id", false); ("event_id", false); ("contract_id", false); ("type", false); ("topic", true);
   ("value", true); ("tx_hash", true); ("in_successful_contract_call", true); ("paging_token", true)].

Definition flat_members : Members :=
  [("id", false); ("event_id", false); ("contract_id", false); ("ledger", false);
   ("ledger_closed_at", false); ("type", false); ("topic", true); ("value", true); ("tx_hash", true);
   ("in_successful_contract_call", true); ("paging_token", true)].

Definition envelope_members : Members := [("ledger", false); ("ledger_close_time", false); ("events", false)].

Definition dec_entry (f : MemberField) : result () EventEntry :=
  id ← opt_member as_str f "id";
  event_id ← opt_member as_str f "event_id";
  contract_id ← opt_member as_str f "contract_id";
  ty ← opt_member as_str f "type";
  topic ← default_member dec_strings [] f "topic";
  value ← default_member as_str "" f "value";
  tx_hash ← default_member as_str "" f "tx_hash";
  in_call ← default_member as_bool true f "in_successful_contract_call";
  paging_token ← default_member as_str "" f "paging_token";
  Ok {| e_id := id; e_event_id := event_id; e_contract_id := contract_id; e_event_type := ty;
        e_topic := topic; e_value := value; e_tx_hash := tx_hash;
        e_in_successful_contract_call := in_call; e_paging_token := paging_token |}.

Definition ok_opt {A E} (r : result E A) : option A := match r with Ok a => Some a | Err _ => None end.

Definition dec_entries (v : Json) : option (list EventEntry) :=
  as_array v ≫= mapM (λ e, ok_opt (dec_entry (value_field entry_members e))).

Definition dec_envelope (v : Json) : result () GalexieEnvelope :=
  let f := value_field envelope_members v in
  ledger ← req_member dec_i64 f "ledger";
  close_time ← opt_member as_str f "ledger_close_time";
  entries ← opt_member dec_entries f "events";
  Ok {| g_ledger := ledger; g_ledger_close_time := close_time; g_entries := entries |}.

Definition dec_flat (members : list (string * Json)) (v : Json) : result () GalexieFlatRecord :=
  let f := text_field flat_members members v in
  entry ← dec_entry f;
  ledger ← opt_member dec_i64 f "ledger";
  closed_at ← opt_member as_str f "ledger_closed_at";
  Ok {| f_entry := entry; f_ledger := ledger; f_ledger_closed_at := closed_at |}.

(** ** Lines *)

(** [serde_json::from_str] of a value, the members of a text's object as they
    are written, and chrono's [DateTime<Utc>] parser. *)
Class LineEnv := {
  parse_json : string → option Json;
  written_members : string → list (string * Json);
  members_of_object s m : parse_json s = Some (JObj m) → m = bt_of_list (written_members s);
  parse_datetime : string → option DateTime;
}.

Section lines.
Context `{LineEnv}.

(** [now] is the clock when the line is read. *)
Definition close_time (now : DateTime) (raw : option string) : DateTime :=
  default now (raw ≫= parse_datetime).

Definition or_else {A} (a b : option A) : option A := match a with Some _ => a | None => b end.

Definition entry_event (e : EventEntry) (ledger : Z) (closed : DateTime) (eid cid : string) : HistoricalEvent := {|
  h_event_id := eid; h_contract_id := cid; h_ledger := ledger; h_ledger_closed_at := closed;
  h_event_type := default "contract" (e_event_type e); h_topics := e_topic e; h_value := e_value e;
  h_tx_hash := e_tx_hash e; h_in_successful_call := e_in_successful_contract_call e;
  h_paging_token := if String.eqb (e_paging_token e) "" then eid else e_paging_token e |}.

(** The entries of an envelope without an id or a contract are left out. *)
Definition envelope_event (ledger : Z) (closed : DateTime) (e : EventEntry) : option HistoricalEvent :=
  eid ← or_else (e_event_id e) (e_id e);
  cid ← e_contract_id e;
  Some (entry_event e ledger closed eid cid).

Definition parse_line (now : DateTime) (line : string) : result LineError (list HistoricalEvent) :=
  json ← ok_or InvalidJson (parse_json line);
  match json_get "events" json with
  | Some _ =>
      env ← map_err (λ _, BadEnvelope) (dec_envelope json);
      let closed := close_time now (g_ledger_close_time env) in
      Ok (omap (envelope_event (g_ledger env) closed) (default [] (g_entries env)))
  | None =>
      flat ← map_err (λ _, BadFlatRecord) (dec_flat (written_members line) json);
      let e := f_entry flat in
      eid ← ok_or MissingId (or_else (e_event_id e) (e_id e));
      cid ← ok_or MissingContractId (e_contract_id e);
      ledger ← ok_or MissingLedger (f_ledger flat);
      Ok [entry_event e ledger (close_time now (f_ledger_closed_at flat)) eid cid]
  end.

(** ** Inputs *)

(** Why reading stops: a file that cannot be opened or read, or the panic of a
    slice that cuts a character. *)
Inductive SourceFault : Type :=
  | CannotOpen
  | CannotRead
  | SlicePanic.

(** Whether [n] is at a boundary of the UTF-8 text. *)
Definition is_char_boundary (s : string) (n : nat) : bool :=
  match bytes s !! n with
  | Some a => negb ((128 <=? byte_val a) && (byte_val a <? 192))
  | None => (n =? String.length s)%nat
  end.

(** [&line[..line.len().min(80)]] of the warning. *)
Definition preview_ok (line : string) : bool := is_char_boundary line (Nat.min (String.length line) 80).

Definition wanted_event (from_ to_ : Z) (contract_ids : list string) (e : HistoricalEvent) : bool :=
  negb ((h_ledger e <? from_) || (to_ <? h_ledger e))
  && (bool_decide (contract_ids = []) || bool_decide (h_contract_id e ∈ contract_ids)).

(** [clock] gives the time at which each line of the file is read. *)
Fixpoint collect_lines (clock : nat → DateTime) (from_ to_ : Z) (contract_ids : list string) (lines : list (result () string))
    : result SourceFault (list HistoricalEvent) :=
  match lines with
  | [] => Ok []
  | Err _ :: _ => Err CannotRead
  | Ok raw :: lines' =>
      let line := trim raw in
      let later := λ i, clock (S i) in
      if String.eqb line "" || starts_with "#" line then collect_lines later from_ to_ contract_ids lines'
      else match parse_line (clock 0%nat) line with
           | Ok evs =>
               rest ← collect_lines later from_ to_ contract_ids lines';
               Ok (base.filter (λ e, wanted_event from_ to_ contract_ids e = true) evs ++ rest)%list
           | Err _ => if preview_ok line then collect_lines later from_ to_ contract_ids lines' else Err SlicePanic
           end
  end.

(** An input is what opening it gives: its lines, or an error. *)
Fixpoint collect_range (clock : nat → nat → DateTime) (from_ to_ : Z) (contract_ids : list string) (inputs : list (option (list (result () string))))
    : result SourceFault (list HistoricalEvent) :=
  match inputs with
  | [] => Ok []
  | None :: _ => Err CannotOpen
  | Some lines :: inputs' =>
      evs ← collect_lines (clock 0%nat) from_ to_ contract_ids lines;
      rest ← collect_range (λ i, clock (S i)) from_ to_ contract_ids inputs';
      Ok (evs ++ rest)%list
  end.
End lines.

(** ** The run *)

Definition i64_MAX : Z := 2 ^ 63 - 1.
Definition batch_size : nat := 1000.

Section run.
Context `{Env} `{LineEnv} `{!LruCache string Cached} (config : Config).

Definition historical_to_new_event (ev : HistoricalEvent) (spec : option ContractSpec) : NewEvent :=
  let dt := decode_topics env_b64 env_read_xdr (h_topics ev) in
  let dv := decode_scval_base64 env_b64 env_read_xdr (h_value ev) in
  let name := head (h_topics ev) ≫= event_name_from_topic env_b64 env_read_xdr in
  {| Store.event_id := h_event_id ev; Store.contract_id := h_contract_id ev; Store.ledger := h_ledger ev;
     ledger_closed_at := h_ledger_closed_at ev; event_type := h_event_type ev; topics := h_topics ev;
     decoded_topics := dt; event_name := name; value := h_value ev; decoded_value := dv;
     enriched := match spec, name with
                 | Some sp, Some n => enrich_event sp env_order n dt dv
                 | _, _ => None
                 end;
     tx_hash := h_tx_hash ev; in_successful_call := h_in_successful_call ev;
     paging_token := if String.eqb (h_paging_token ev) "" then h_event_id ev else h_paging_token ev |}.

(** The loop over the staged events: the batch is flushed when it is full. *)
Fixpoint stage_loop (evs : list HistoricalEvent) (specs : SpecCache) (batch : list NewEvent) (total : nat)
    : M (list NewEvent * nat) :=
  match evs with
  | [] => mret (batch, total)
  | ev :: evs' =>
      let '(spec, specs') := get_cached (h_contract_id ev) specs in
      let batch' := (batch ++ [historical_to_new_event ev spec])%list in
      if (batch_size <=? length batch')%nat then
        n ← store_insert batch';
        stage_loop evs' specs' [] (total + n)
      else stage_loop evs' specs' batch' total
  end.

(** [spec_cache_max_entries] is the cache's capacity. *)
Definition run_deep_backfill (clock : nat → nat → DateTime) (spec_cache_max_entries : nat) (inputs : list (option (list (result () string))))
    (from_ledger : Z) (to_ledger : option Z) : M (result SourceFault nat) :=
  let to_ := default i64_MAX to_ledger in
  let specs := spec_cache_new spec_cache_max_entries in
  match collect_range clock from_ledger to_ (contract_ids config) inputs with
  | Err e => mret (Err e)
  | Ok staging =>
      '(batch, total) ← stage_loop staging specs [] 0;
      match batch with
      | [] => mret (Ok total)
      | _ => n ← store_insert batch; mret (Ok (total + n)%nat)
      end
  end.
End run.

(** ** Inserting in pieces *)

Lemma find_app {A} (f : A → bool) (a b : list A) :
  List.find f (a ++ b)%list = match List.find f a with Some x => Some x | None => List.find f b end.
Proof. induction a as [|x a IH]; [done|]. cbn. by destruct (f x). Qed.

Lemma insert_rows_app {R} (key : R → string) (a b : list R) t :
  (insert_rows key (a ++ b)%list t).1 = (insert_rows key b (insert_rows key a t).1).1.
Proof.
  apply map_eq. intros k. rewrite !insert_rows_lookup. unfold first_row.
  destruct (t !! k) as [r|]; [done|]. rewrite find_app. by destruct (List.find _ a).
Qed.

(** Once a prefix is there, the whole adds what is missing. *)
Lemma insert_rows_prefix {R} (key : R → string) (a : list R) n t :
  (insert_rows key a (insert_rows key (take n a) t).1).1 = (insert_rows key a t).1.
Proof.
  rewrite <- insert_rows_app. apply map_eq. intros k. rewrite !insert_rows_lookup. unfold first_row.
  destruct (t !! k); [done|]. rewrite find_app. set (f := λ r : R, _).
  assert (List.find f a = match List.find f (take n a) with Some x => Some x | None => List.find f (drop n a) end) as ->
    by (by rewrite <- find_app, take_drop).
  by destruct (List.find f (take n a)).
Qed.

(** ** The run *)

Section run_lemmas.
Context `{Env} `{LineEnv} `{!LruCache string Cached} (config : Config).

Definition table (w : World) : gmap string NewEvent := Store.events (db w).

(** [w'] is [w] after inserting [rows], of which [n] were new. *)
Definition grown_by (rows : list NewEvent) (n : nat) (w w' : World) : Prop :=
  table w' = (insert_rows event_id rows (table w)).1 ∧ base.size (table w') = (base.size (table w) + n)%nat
  ∧ cursor_row w' = cursor_row w ∧ missed_ranges w' = missed_ranges w.

Lemma grown_refl w : grown_by [] 0 w w.
Proof. by split_and!; [|lia|..]. Qed.

Lemma grown_trans a b m n w1 w2 w3 :
  grown_by a m w1 w2 → grown_by b n w2 w3 → grown_by (a ++ b)%list (m + n) w1 w3.
Proof.
  intros (T1 & S1 & C1 & M1) (T2 & S2 & C2 & M2).
  split_and!; [by rewrite insert_rows_app, <- T1|lia|congruence..].
Qed.

Lemma store_insert_run batch w :
  match store_insert batch w with
  | (Ok n, w') => grown_by batch n w w'
  | (Err e, w') => e = Fails DbError ∧ grown_by [] 0 w w'
  end.
Proof.
  unfold store_insert, sql, mbind, M_bind, tick, get, set_db, throw. cbn.
  destruct (db_fails _); cbn; [split; [done|]; by split_and!; [|rewrite Nat.add_0_r|..]|].
  destruct (insert_with_resolver_events default_contract_kind batch (db w)) as [He Hn].
  destruct (insert_events batch (db w)) as [n d] eqn:E. cbn.
  unfold insert_events in E. rewrite E in He, Hn. cbn in He, Hn.
  split_and!; [done| |done..]. unfold table. cbn. by rewrite He, insert_rows_size, Hn.
Qed.

(** The cache of a run stays empty. *)
Lemma get_cached_empty c (specs : SpecCache) : lru_entries (History.entries specs) = [] →
  (get_cached c specs).1 = None ∧ lru_entries (History.entries (get_cached c specs).2) = [].
Proof.
  intros He. unfold get_cached. pose proof (get_result c (History.entries specs)) as Hr.
  pose proof (entries_get c (History.entries specs)) as Hg.
  destruct (lru_get c _) as [found i]. cbn in *. rewrite He in *. cbn in *. subst found. by split.
Qed.

Definition rows_of (evs : list HistoricalEvent) : list NewEvent :=
  (λ e, historical_to_new_event e None) <$> evs.

Lemma stage_loop_run evs : ∀ specs batch total w, lru_entries (History.entries specs) = [] →
  match stage_loop evs specs batch total w with
  | (Ok (batch', total'), w') => ∃ dn n, (batch ++ rows_of evs)%list = (dn ++ batch')%list
      ∧ total' = (total + n)%nat ∧ grown_by dn n w w'
  | (Err e, w') => e = Fails DbError ∧ ∃ k n, grown_by (take k (batch ++ rows_of evs)%list) n w w'
  end.
Proof.
  induction evs as [|ev evs IH]; intros specs batch total w Hs.
  { cbn. exists [], 0%nat. split_and!; [by rewrite app_nil_r|lia|apply grown_refl]. }
  cbn [stage_loop]. destruct (get_cached_empty (h_contract_id ev) specs Hs) as [Hnone Hs'].
  destruct (get_cached (h_contract_id ev) specs) as [spec specs']. cbn in Hnone, Hs'. subst spec.
  set (b := (batch ++ [historical_to_new_event ev None])%list).
  assert (batch ++ rows_of (ev :: evs) = b ++ rows_of evs)%list as -> by (unfold b; by rewrite <- app_assoc).
  destruct (batch_size <=? length b)%nat; [|by apply IH].
  pose proof (store_insert_run b w) as Hi. unfold mbind, M_bind.
  destruct (store_insert b w) as [[n|e] w1].
  - specialize (IH specs' [] (total + n)%nat w1 Hs').
    destruct (stage_loop evs specs' [] (total + n) w1) as [[[batch' total']|e] w2].
    + destruct IH as (dn & m & Hsplit & -> & Hdn). cbn in Hsplit. exists (b ++ dn)%list, (n + m)%nat.
      split_and!; [by rewrite Hsplit, app_assoc|lia|by eapply grown_trans].
    + destruct IH as (-> & k & m & Hk). split; [done|]. exists (length b + k)%nat, (n + m)%nat.
      rewrite take_app_add. by eapply grown_trans.
  - destruct Hi as [-> Hi]. split; [done|]. by exists 0%nat, 0%nat.
Qed.

Lemma run_deep_backfill_run clock cap inputs from_ to_ w staging :
  collect_range clock from_ (default i64_MAX to_) (contract_ids config) inputs = Ok staging →
  match run_deep_backfill config clock cap inputs from_ to_ w with
  | (Ok (Ok n), w') => grown_by (rows_of staging) n w w'
  | (Ok (Err _), _) => False
  | (Err e, w') => e = Fails DbError ∧ ∃ k n, grown_by (take k (rows_of staging)) n w w'
  end.
Proof.
  intros Hc. unfold run_deep_backfill. rewrite Hc.
  pose proof (stage_loop_run staging (spec_cache_new cap) [] 0 w (entries_new cap)) as Hrun.
  unfold mbind, M_bind. destruct (stage_loop _ _ _ _ w) as [[[batch total]|e] w1]; [|by destruct Hrun].
  destruct Hrun as (dn & n & Hsplit & -> & Hdn). cbn in Hsplit. destruct batch as [|b0 batch].
  { rewrite app_nil_r in Hsplit. cbn. by rewrite Hsplit. }
  pose proof (store_insert_run (b0 :: batch) w1) as Hi.
  destruct (store_insert (b0 :: batch) w1) as [[m|e] w2].
  - cbn. rewrite Hsplit. by eapply grown_trans.
  - destruct Hi as [-> Hi]. split; [done|]. exists (length dn), (n + 0)%nat.
    rewrite Hsplit, take_app_length. rewrite <- (app_nil_r dn). by eapply grown_trans.
Qed.
End run_lemmas.

(** ** Reading an archive back *)

Section archive.
Context `{LineEnv}.

(** The two documented shapes of a line. *)
Definition entry_json (e : HistoricalEvent) : list (string * Json) :=
  [("id", JStr (h_event_id e)); ("contract_id", JStr (h_contract_id e)); ("type", JStr (h_event_type e));
   ("topic", JArr (JStr <$> h_topics e)); ("value", JStr (h_value e)); ("tx_hash", JStr (h_tx_hash e));
   ("in_successful_contract_call", JBool (h_in_successful_call e)); ("paging_token", JStr (h_paging_token e))].

Definition flat_json (time : string) (e : HistoricalEvent) : list (string * Json) :=
  (entry_json e ++ [("ledger", JInt (h_ledger e)); ("ledger_closed_at", JStr time)])%list.

Definition envelope_json (ledger : Z) (time : string) (evs : list HistoricalEvent) : Json :=
  mk_obj [("ledger", JInt ledger); ("ledger_close_time", JStr time);
          ("events", JArr ((λ e, mk_obj (entry_json e)) <$> evs))].

(** An event that the shapes can carry; its close time is written as [time]. *)
Definition writable (time : string) (e : HistoricalEvent) : Prop :=
  in_i 64 (h_ledger e) = true ∧ parse_datetime time = Some (h_ledger_closed_at e) ∧ h_paging_token e ≠ "".

Definition is_content (line : string) : Prop := line ≠ "" ∧ starts_with "#" line = false.

Inductive written (line : string) : list HistoricalEvent → Prop :=
  | WrittenFlat time e : is_content line → parse_json line = Some (mk_obj (flat_json time e)) →
      written_members line = flat_json time e → writable time e → written line [e]
  | WrittenEnvelope ledger time evs : is_content line → parse_json line = Some (envelope_json ledger time evs) →
      in_i 64 ledger = true →
      Forall (λ e, h_ledger e = ledger ∧ writable time e) evs → written line evs
  | WrittenComment : line = "" ∨ starts_with "#" line = true → written line [].

Lemma mapM_as_str l : mapM as_str (JStr <$> l) = Some l.
Proof. induction l as [|s l IH]; [done|]. cbn. change (mapM as_str (list_fmap _ _ JStr l)) with (mapM as_str (JStr <$> l)). by rewrite IH. Qed.

Definition entry_of (e : HistoricalEvent) : EventEntry := {|
  e_id := Some (h_event_id e); e_event_id := None; e_contract_id := Some (h_contract_id e);
  e_event_type := Some (h_event_type e); e_topic := h_topics e; e_value := h_value e; e_tx_hash := h_tx_hash e;
  e_in_successful_contract_call := h_in_successful_call e; e_paging_token := h_paging_token e |}.

(** Fields that agree with [entry_json]. *)
Definition reads_entry (f : MemberField) (e : HistoricalEvent) : Prop :=
  Forall (λ m, f m.1 = Ok (Some m.2)) (entry_json e) ∧ f "event_id" = Ok None.

Lemma dec_entry_of f e : reads_entry f e → dec_entry f = Ok (entry_of e).
Proof.
  intros [Hf Hid]. unfold entry_json in Hf. repeat (apply Forall_cons in Hf as [? Hf]). cbn [fst snd] in *.
  unfold dec_entry, opt_member, default_member. cbn [mbind result_bind].
  repeat match goal with H : f _ = _ |- _ => rewrite H; clear H; cbn [as_str as_bool mbind result_bind ok_or] end.
  unfold dec_strings. cbn [as_array mbind option_bind]. by rewrite mapM_as_str.
Qed.

Lemma entry_of_event e : h_paging_token e ≠ "" →
  entry_event (entry_of e) (h_ledger e) (h_ledger_closed_at e) (h_event_id e) (h_contract_id e) = e.
Proof.
  intros Hp. unfold entry_event, entry_of. cbn. apply String.eqb_neq in Hp. rewrite Hp. by destruct e.
Qed.

Lemma value_reads_entry e : reads_entry (value_field entry_members (mk_obj (entry_json e))) e.
Proof. split; [repeat constructor|reflexivity]. Qed.

Lemma text_reads_entry time e :
  reads_entry (text_field flat_members (flat_json time e) (mk_obj (flat_json time e))) e.
Proof. split; [repeat constructor|reflexivity]. Qed.

Lemma dec_entries_of evs :
  dec_entries (JArr ((λ e, mk_obj (entry_json e)) <$> evs)) = Some (entry_of <$> evs).
Proof.
  unfold dec_entries. cbn [as_array mbind option_bind]. induction evs as [|e evs IH]; [done|].
  cbn [fmap list_fmap mapM]. rewrite (dec_entry_of _ e) by apply value_reads_entry. cbn [ok_opt mbind option_bind].
  change (list_fmap _ _ (λ e, mk_obj (entry_json e)) evs) with ((λ e, mk_obj (entry_json e)) <$> evs).
  by rewrite IH.
Qed.

Lemma close_time_written now time e : writable time e →
  close_time now (Some time) = h_ledger_closed_at e.
Proof. intros (_ & Hp & _). unfold close_time. cbn [mbind option_bind]. by rewrite Hp. Qed.

Lemma parse_flat now line time e : parse_json line = Some (mk_obj (flat_json time e)) →
  written_members line = flat_json time e → writable time e → parse_line now line = Ok [e].
Proof.
  intros Hp Hm He. unfold parse_line. rewrite Hp, Hm. cbn [ok_or mbind result_bind].
  assert (json_get "events" (mk_obj (flat_json time e)) = None) as -> by reflexivity.
  unfold dec_flat. cbv zeta. rewrite (dec_entry_of _ e) by apply text_reads_entry. cbn [mbind result_bind].
  assert (opt_member dec_i64 (text_field flat_members (flat_json time e) (mk_obj (flat_json time e))) "ledger" =
    Ok (Some (h_ledger e))) as ->.
  { unfold opt_member. change (text_field _ _ _ "ledger") with (Ok (E := ()) (Some (JInt (h_ledger e)))).
    cbn [mbind result_bind dec_i64]. by rewrite (proj1 He). }
  change (opt_member as_str _ "ledger_closed_at") with (Ok (E := ()) (Some time)).
  cbn [mbind result_bind map_err f_entry f_ledger f_ledger_closed_at entry_of e_event_id e_id e_contract_id or_else ok_or].
  rewrite (close_time_written now time e) by done. f_equal. f_equal. apply entry_of_event, He.
Qed.

Lemma omap_entries ledger closed evs :
  Forall (λ e, h_ledger e = ledger ∧ closed = h_ledger_closed_at e ∧ h_paging_token e ≠ "") evs →
  omap (envelope_event ledger closed) (entry_of <$> evs) = evs.
Proof.
  induction 1 as [|e evs (<- & -> & Hp) Hes IH]; [done|]. cbn [fmap list_fmap omap list_omap].
  unfold envelope_event at 1. cbn [entry_of e_event_id e_id e_contract_id or_else mbind option_bind].
  rewrite entry_of_event by done. f_equal. exact IH.
Qed.

Lemma parse_envelope now line ledger time evs : parse_json line = Some (envelope_json ledger time evs) →
  in_i 64 ledger = true → Forall (λ e, h_ledger e = ledger ∧ writable time e) evs → parse_line now line = Ok evs.
Proof.
  intros Hp Hl He. unfold parse_line. rewrite Hp. cbn [ok_or mbind result_bind].
  assert (json_get "events" (envelope_json ledger time evs) = Some (JArr ((λ e, mk_obj (entry_json e)) <$> evs)))
    as -> by reflexivity.
  assert (dec_envelope (envelope_json ledger time evs) = Ok {| g_ledger := ledger; g_ledger_close_time := Some time;
    g_entries := Some (entry_of <$> evs) |}) as ->.
  { unfold dec_envelope, req_member, opt_member. cbv zeta.
    change (value_field _ _ "ledger") with (Ok (E := ()) (Some (JInt ledger))).
    change (value_field _ _ "ledger_close_time") with (Ok (E := ()) (Some (JStr time))).
    change (value_field _ _ "events") with (Ok (E := ()) (Some (JArr ((λ e, mk_obj (entry_json e)) <$> evs)))).
    cbn [mbind result_bind dec_i64 as_str ok_or]. rewrite Hl. cbn [mbind result_bind ok_or].
    by rewrite dec_entries_of. }
  cbn [map_err mbind result_bind g_ledger g_ledger_close_time g_entries]. f_equal. apply omap_entries.
  eapply Forall_impl; [exact He|]. intros e [<- Hw]. split; [done|]. split; [|apply Hw].
  by apply (close_time_written now time).
Qed.

Lemma collect_line clock from_ to_ contract_ids raw evs lines : written (trim raw) evs →
  collect_lines clock from_ to_ contract_ids (Ok raw :: lines) =
    (rest ← collect_lines (λ i, clock (S i)) from_ to_ contract_ids lines;
     Ok (base.filter (λ e, wanted_event from_ to_ contract_ids e = true) evs ++ rest)%list).
Proof.
  intros Hw. cbn [collect_lines].
  inversion Hw as [time e [Hne Hhash] Hp Hm He|ledger time evs' [Hne Hhash] Hp Hl He|Hc]; subst.
  - apply String.eqb_neq in Hne. rewrite Hne, Hhash. cbn [orb]. by rewrite (parse_flat _ _ time e).
  - apply String.eqb_neq in Hne. rewrite Hne, Hhash. cbn [orb]. by rewrite (parse_envelope _ _ ledger time evs).
  - assert (String.eqb (trim raw) "" || starts_with "#" (trim raw) = true) as ->.
    { apply orb_true_iff. destruct Hc as [->|Hc]; [by left|by right]. }
    cbn. by destruct (collect_lines _ _ _ _ lines).
Qed.

(** An archive reads back: lines written in either documented shape, blank
    lines and comments among them, yield their events in order, those outside
    the ledgers or the contracts asked for left out, whatever the time is. *)
Theorem archive_read_back clock from_ to_ contract_ids (archive : list (string * list HistoricalEvent)) :
  Forall (λ l, written (trim l.1) l.2) archive →
  collect_range clock from_ to_ contract_ids [Some ((λ l, Ok l.1) <$> archive)] =
    Ok (base.filter (λ e, wanted_event from_ to_ contract_ids e = true) (concat archive.*2)).
Proof.
  intros Ha. cbn [collect_range]. generalize (clock 0%nat). intros times.
  assert (collect_lines times from_ to_ contract_ids ((λ l, Ok l.1) <$> archive) =
    Ok (base.filter (λ e, wanted_event from_ to_ contract_ids e = true) (concat archive.*2))) as ->;
    [|cbn; by rewrite app_nil_r].
  revert times. induction Ha as [|[raw evs] archive Hw _ IH]; intros times; [done|].
  rewrite !fmap_cons. cbn [concat]. rewrite filter_app. cbn [fst snd] in *.
  rewrite (collect_line _ _ _ _ _ evs) by done. by rewrite IH.
Qed.
End archive.

(** ** What a run leaves behind *)

Section outcome.
Context `{Env} `{LineEnv} `{!LruCache string Cached} (config : Config).

(** An archived event becomes the row the live poller would have written, had it
    known no interface. *)
Lemma historical_as_live ev ts : parse_ledger_closed_at (i_ledger_closed_at ev) = Some ts →
  to_new_event env_b64 env_read_xdr env_order ev None =
  Some (historical_to_new_event {|
    h_event_id := i_id ev; h_contract_id := i_contract_id ev; h_ledger := i_ledger ev;
    h_ledger_closed_at := ts; h_event_type := i_event_type ev; h_topics := i_topic ev; h_value := i_value ev;
    h_tx_hash := i_tx_hash ev; h_in_successful_call := i_in_successful_contract_call ev;
    h_paging_token := i_paging_token ev |} None).
Proof. intros Hts. unfold to_new_event. rewrite Hts. done. Qed.

(** A line whose events, if it has any, carry a close time that parses. *)
Definition dated (line : string) : Prop := ∀ json, parse_json line = Some json →
  match json_get "events" json with
  | Some _ => ∀ env, dec_envelope json = Ok env → is_Some (g_ledger_close_time env ≫= parse_datetime)
  | None => ∀ flat, dec_flat (written_members line) json = Ok flat →
              is_Some (f_ledger_closed_at flat ≫= parse_datetime)
  end.

Definition all_dated (inputs : list (option (list (result () string)))) : Prop :=
  ∀ lines raw, Some lines ∈ inputs → Ok raw ∈ lines → dated (trim raw).

(** Such lines mean the same whenever they are read. *)
Lemma close_time_given now now' raw : is_Some (raw ≫= parse_datetime) → close_time now raw = close_time now' raw.
Proof. intros [t Ht]. unfold close_time. by rewrite Ht. Qed.

Lemma parse_line_dated now now' line : dated line → parse_line now line = parse_line now' line.
Proof.
  intros Hd. unfold parse_line. destruct (parse_json line) as [json|] eqn:Ej; [|done]. specialize (Hd json Ej).
  cbn [ok_or mbind result_bind]. destruct (json_get "events" json).
  - destruct (dec_envelope json) as [env|]; [|done]. cbn [map_err mbind result_bind].
    by rewrite (close_time_given now now') by by apply Hd.
  - destruct (dec_flat _ json) as [flat|]; [|done]. cbn [map_err mbind result_bind].
    by rewrite (close_time_given now now') by by apply Hd.
Qed.

Lemma collect_lines_dated clock clock' from_ to_ ids lines : (∀ raw, Ok raw ∈ lines → dated (trim raw)) →
  collect_lines clock from_ to_ ids lines = collect_lines clock' from_ to_ ids lines.
Proof.
  revert clock clock'. induction lines as [|[raw|] lines IH]; intros clock clock' Hd; [done| |done]. cbn [collect_lines].
  rewrite (parse_line_dated (clock 0%nat) (clock' 0%nat)) by (apply Hd; by left).
  rewrite (IH (λ i, clock (S i)) (λ i, clock' (S i))); [done|]. intros r Hr. apply Hd. by right.
Qed.

Lemma collect_range_dated clock clock' from_ to_ ids inputs : all_dated inputs →
  collect_range clock from_ to_ ids inputs = collect_range clock' from_ to_ ids inputs.
Proof.
  revert clock clock'. induction inputs as [|[lines|] inputs IH]; intros clock clock' Hd; [done| |done]. cbn [collect_range].
  rewrite (collect_lines_dated (clock 0%nat) (clock' 0%nat)) by (intros raw; apply Hd; by left).
  rewrite (IH (λ i, clock (S i)) (λ i, clock' (S i))); [done|]. intros ls raw Hl. apply Hd. by right.
Qed.

(** The row of an archived event, whatever it is enriched with. *)
Definition row_of_event (e : HistoricalEvent) (row : NewEvent) : Prop := ∃ spec, row = historical_to_new_event e spec.

(** C36: A deep backfill of an archive whose lines carry their close times can be
    stopped and repeated.  There are rows, one for each archived event in its
    order (how they are enriched is left open), such that a run inserts a first
    part of them, all of them if it succeeds, the count being the rows the
    table grew by; a stored row is never replaced, and the cursor and the
    missed ranges are left alone; and whatever a run stored before it failed,
    and whatever the live poller stored since, a successful run at any later
    time completes the table: it is then what inserting that part, the
    poller's rows and all the rows in order gives, what a single insertion of
    the rows would have given if nothing came in between, and it has every
    archived event.  (Lines without a close time are given the time of the run,
    and a later run's differs: nothing is claimed of them.) *)
Theorem deep_backfill_restart clock cap inputs from_ to_ staging :
  all_dated inputs → collect_range clock from_ (default i64_MAX to_) (contract_ids config) inputs = Ok staging →
  ∃ rows, Forall2 row_of_event staging rows ∧ ∀ w live,
  let '(r, w') := run_deep_backfill config clock cap inputs from_ to_ w in
  (∃ k n, grown_by (take k rows) n w w')
  ∧ (∀ n, r = Ok (Ok n) → grown_by rows n w w')
  ∧ ∀ clock' w1 n2 w2, table w1 = (insert_rows event_id live (table w')).1 →
      run_deep_backfill config clock' cap inputs from_ to_ w1 = (Ok (Ok n2), w2) →
      ∃ k, table w2 = (insert_rows event_id (take k rows ++ live ++ rows)%list (table w)).1
      ∧ (live = [] → table w2 = (insert_rows event_id rows (table w)).1)
      ∧ Forall (λ e, is_Some (table w2 !! h_event_id e)) staging.
Proof.
  intros Hdated Hc. exists (rows_of staging). split.
  { apply Forall2_fmap_r, Forall_Forall2_diag, Forall_true. intros e. by exists None. }
  intros w live. pose proof (run_deep_backfill_run config clock cap inputs from_ to_ w staging Hc) as H1.
  destruct (run_deep_backfill config clock cap inputs from_ to_ w) as [r w'].
  assert (∃ k n, grown_by (take k (rows_of staging)) n w w') as (k & n & Hk).
  { destruct r as [[n|e]|e]; [|done|by destruct H1].
    exists (length (rows_of staging)), n. by rewrite firstn_all. }
  split; [by exists k, n|]. split; [by intros m ->|].
  intros clock' w1 n2 w2 Hlive Hrun. rewrite (collect_range_dated clock clock') in Hc by done.
  pose proof (run_deep_backfill_run config clock' cap inputs from_ to_ w1 staging Hc) as H2.
  rewrite Hrun in H2. destruct H2 as (T2 & _). destruct Hk as (T1 & _). exists k.
  split_and!.
  - by rewrite insert_rows_app, <- T1, insert_rows_app, <- Hlive.
  - intros ->. cbn in Hlive. by rewrite T2, Hlive, T1, insert_rows_prefix.
  - apply Forall_forall. intros e He. rewrite T2, insert_rows_lookup. destruct (table w1 !! _); [by eexists|].
    destruct (first_row event_id (h_event_id e) (rows_of staging)) as [r0|] eqn:Ef; [by eexists|].
    apply first_row_None in Ef. destruct Ef. unfold rows_of. rewrite <- list_fmap_compose.
    by apply (list_elem_of_fmap_2 (event_id ∘ λ e, historical_to_new_event e None)) in He.
Qed.

(** No event of an archive is enriched: the cache of the run is new, and nothing
    puts an interface into it. *)
Lemma archive_never_enriched staging : Forall (λ e, enriched e = None) (rows_of staging).
Proof. by apply Forall_fmap, Forall_true. Qed.
End outcome.

(** ** Witnesses *)

#[local] Instance sample_cache : LruCache string Cached := list_lru.

Definition sample_historical (id : string) (l : Z) : HistoricalEvent := {|
  h_event_id := id; h_contract_id := "C1"; h_ledger := l; h_ledger_closed_at := 0; h_event_type := "contract";
  h_topics := ["AAAA"]; h_value := "BBBB"; h_tx_hash := "tx"; h_in_successful_call := true; h_paging_token := id |}.

(** Two lines: a flat record, and an envelope of two events. *)
Definition sample_document (line : string) : option (list (string * Json)) :=
  if String.eqb line "flat" then Some (flat_json "t" (sample_historical "e1" 7))
  else if String.eqb line "envelope" then
    Some (bt_of_list [("ledger", JInt 8); ("ledger_close_time", JStr "t");
          ("events", JArr ((λ e, mk_obj (entry_json e)) <$> [sample_historical "e2" 8; sample_historical "e3" 8]))])
  else None.

#[local] Program Instance sample_lines : LineEnv := {|
  parse_json line := mk_obj <$> sample_document line;
  written_members line := default [] (sample_document line);
  parse_datetime time := if String.eqb time "t" then Some 0 else None;
|}.
Next Obligation.
  intros line m. cbv beta. destruct (sample_document line); [|done]. by intros [= <-].
Qed.

Definition sample_archive : list (string * list HistoricalEvent) :=
  [("# export", []); (" flat", [sample_historical "e1" 7]); ("", []);
   ("envelope", [sample_historical "e2" 8; sample_historical "e3" 8])].

Lemma archive_read_back_witness :
  collect_range (λ _ _, 99) 8 100 ["C1"] [Some ((λ l, Ok l.1) <$> sample_archive)] =
    Ok [sample_historical "e2" 8; sample_historical "e3" 8].
Proof.
  rewrite (archive_read_back _ 8 100 ["C1"] sample_archive); [reflexivity|].
  repeat apply Forall_cons_2; [| | | |by apply Forall_nil].
  - apply WrittenComment. right. reflexivity.
  - apply (WrittenFlat _ "t"); [split; by vm_compute|reflexivity|reflexivity|by split_and!].
  - apply WrittenComment. by left.
  - apply (WrittenEnvelope _ 8 "t"); [split; by vm_compute|reflexivity|reflexivity|].
    repeat constructor; done.
Defined.

Definition sample_inputs : list (option (list (result () string))) :=
  [Some [Ok "flat"; Ok "not json"]; Some [Ok "envelope"]].

Definition archive_env (fails : nat → bool) : Env := sample_env good_chain (Ok 12) fails.

Definition sample_staging : list HistoricalEvent :=
  [sample_historical "e1" 7; sample_historical "e2" 8; sample_historical "e3" 8].

Lemma sample_collected : collect_range (λ _ _, 99) 0 i64_MAX [] sample_inputs = Ok sample_staging.
Proof. vm_compute. reflexivity. Qed.

Lemma sample_dated : all_dated sample_inputs.
Proof.
  assert (∀ line, line ∈ ["flat"; "not json"; "envelope"] → dated line) as Hall.
  { intros line Hl json Hj. repeat (apply elem_of_cons in Hl as [-> |Hl]); [| | |by apply elem_of_nil in Hl];
      vm_compute in Hj; try discriminate; injection Hj as <-; cbn; intros ? Hd; vm_compute in Hd;
      try discriminate; injection Hd as <-; eexists; vm_compute; reflexivity. }
  intros lines raw Hl Hr.
  repeat (apply elem_of_cons in Hl as [Hl|Hl]; [injection Hl as ->|]); [| |by apply elem_of_nil in Hl];
    repeat (apply elem_of_cons in Hr as [Hr|Hr]; [injection Hr as ->; apply Hall; set_solver|]); by apply elem_of_nil in Hr.
Qed.

(** A run whose only statement fails, then one, a second later, that succeeds. *)
Lemma deep_backfill_restart_witness :
  let env := archive_env (λ t, (t =? 0)%nat) in
  let '(r, w') := @run_deep_backfill env _ _ (sample_config 2) (λ _ _, 99) 10 sample_inputs 0 None (world_at None) in
  r = Err (Fails DbError)
  ∧ let '(r2, w2) := @run_deep_backfill env _ _ (sample_config 2) (λ _ _, 100) 10 sample_inputs 0 None w' in
    r2 = Ok (Ok 3%nat) ∧ is_Some (table w2 !! "e1") ∧ is_Some (table w2 !! "e3").
Proof.
  set (env := archive_env (λ t, (t =? 0)%nat)). cbn zeta.
  destruct (@deep_backfill_restart env sample_lines sample_cache (sample_config 2) (λ _ _, 99) 10 sample_inputs 0 None
    sample_staging sample_dated sample_collected) as (rows & _ & Hr). specialize (Hr (world_at None) []).
  destruct (@run_deep_backfill env _ _ (sample_config 2) (λ _ _, 99) 10 sample_inputs 0 None (world_at None)) as [r w'] eqn:E1.
  assert (r = Err (Fails DbError)) as -> by (vm_compute in E1; by injection E1 as <- _).
  destruct Hr as (_ & _ & Hr). split; [done|].
  destruct (@run_deep_backfill env _ _ (sample_config 2) (λ _ _, 100) 10 sample_inputs 0 None w') as [r2 w2] eqn:E2.
  assert (r2 = Ok (Ok 3%nat)) as ->.
  { vm_compute in E1. injection E1 as <-. vm_compute in E2. by injection E2 as <- _. }
  destruct (Hr (λ _ _, 100) w' 3%nat w2 eq_refl E2) as (k & _ & _ & Hall). split; [done|].
  rewrite Forall_forall in Hall. split; [apply (Hall (sample_historical "e1" 7)); by left
    |apply (Hall (sample_historical "e3" 8)); right; right; by left].
Defined.

(** A line that is no JSON and has a character across byte 80 ends the whole run
    in a panic: the warning about it slices its text there. *)
Example unparsable_line_panics :
  collect_range (λ _ _, 99) 0 100 [] [Some [Ok (of_bytes (replicate 79 "x"%char ++ [byte_of 195; byte_of 169])%list); Ok "flat"]]
  = Err SlicePanic.
Proof. by vm_compute. Qed.
