(* ===== verification/Reenrich.v ===== *)
(** * Reenrich: refreshing stored events ([lumenqraph-indexer/src/reenrich.rs])

    A pass over the [events] table that recomputes the [enriched] column, page
    by page along [(ledger, event_id)], in the monad of [Poller].  The JSON
    columns are read as the texts the source asks the driver for. *)
From S2P Require Import Prelude Text Containers Values Instances XdrDecode Spec Enrich.
From S2P Require Import Store Convert Cursor Poller PollerSafety Backfill.
From Stdlib Require Import Ascii.

Local Open Scope Z_scope.

Definition BATCH_SIZE : nat := 1000.

Record ReenrichOptions := { o_contract : option string; o_force : bool }.

(** The driver's text of a JSON column, and [serde_json::from_str]. *)
Class RowText := {
  column_text : Json → string;
  from_text : string → option Json;
}.

Definition event_key (e : NewEvent) : Z * string := (ledger e, event_id e).

Section reenrich.
Context `{Env} `{RowText} (collation : TotalOrder string) (options : ReenrichOptions).

(** The WHERE clause. *)
Definition selected (e : NewEvent) : bool :=
  (o_force options || bool_decide (enriched e = None)) && bool_decide (event_name e ≠ None)
  && match o_contract options with Some c => String.eqb (contract_id e) c | None => true end.

Definition asc_cmp (a b : Z * string) : comparison :=
  match Z.compare a.1 b.1 with Eq => @tcmp string collation a.2 b.2 | c => c end.

(** [(ledger, event_id) > ($2, $3)]. *)
Definition past (cursor : option (Z * string)) (e : NewEvent) : bool :=
  match cursor with
  | Some k => match asc_cmp k (event_key e) with Lt => true | _ => false end
  | None => true
  end.

Definition select_rows (cursor : option (Z * string)) (table : gmap string NewEvent) : list NewEvent :=
  take BATCH_SIZE (sort_by (λ a b, asc_cmp (event_key a) (event_key b))
    (base.filter (λ e, selected e && past cursor e = true) (map_to_list table).*2)).

Definition set_enriched (v : Json) (e : NewEvent) : NewEvent := {|
  event_id := event_id e; contract_id := contract_id e; ledger := ledger e;
  ledger_closed_at := ledger_closed_at e; event_type := event_type e; topics := topics e;
  decoded_topics := decoded_topics e; event_name := event_name e; value := value e;
  decoded_value := decoded_value e; enriched := Some v; tx_hash := tx_hash e;
  in_successful_call := in_successful_call e; paging_token := paging_token e |}.

(** The columns as the code parses them. *)
Definition row_topics (e : NewEvent) : option (list Json) :=
  from_text (column_text (JArr (decoded_topics e))) ≫= as_array.
Definition row_value (e : NewEvent) : option Json := from_text (column_text (decoded_value e)).

Definition enrich_row (spec : option ContractSpec) (e : NewEvent) (dt : list Json) (dv : Json) : option Json :=
  sp ← spec; enrich_event sp env_order (default "" (event_name e)) dt dv.

(** [UPDATE events SET enriched = $1 WHERE event_id = $2]. *)
Definition update_enriched (id : string) (v : Json) : M unit :=
  sql (w ← get; set_db (with_events (alter (set_enriched v) id (Store.events (db w))) (db w))).

(** One row; whether it was updated. *)
Definition process_row (e : NewEvent) : M bool :=
  match row_topics e, row_value e with
  | Some dt, Some dv =>
      t ← tick;
      match enrich_row (spec_get t (contract_id e) (ledger e)) e dt dv with
      | Some v =>
          r ← try (update_enriched (event_id e) v);
          mret (match r with Ok _ => true | Err _ => false end)
      | None => mret false
      end
  | _, _ => mret false
  end.

Fixpoint process_rows (rows : list NewEvent) : M nat :=
  match rows with
  | [] => mret 0%nat
  | e :: rows' =>
      b ← process_row e;
      n ← process_rows rows';
      mret ((if b : bool then 1 else 0) + n)%nat
  end.

(** Rows processed and updated. *)
Fixpoint reenrich_loop (fuel : nat) (cursor : option (Z * string)) (processed updated : nat) : M (nat * nat) :=
  match fuel with
  | O => out_of_fuel
  | S fuel' =>
      rows ← sql (w ← get; mret (select_rows cursor (Store.events (db w))));
      match rows with
      | [] => mret (processed, updated)
      | _ =>
          n ← process_rows rows;
          reenrich_loop fuel' (event_key <$> last rows) (processed + length rows) (updated + n)
      end
  end.

Definition run_reenrich (fuel : nat) : M (nat * nat) :=
  _ ← sql (w ← get; mret (length (base.filter (λ e, selected e = true) (map_to_list (Store.events (db w))).*2)));
  reenrich_loop fuel None 0 0.
End reenrich.

(** ** The pass visits every selected row once *)

Section pass.
Context `{Env} `{RowText} (collation : TotalOrder string) (options : ReenrichOptions).

#[local] Instance asc_order : TotalOrder (Z * string) :=
  order_as (lex_order Z_asc collation) (asc_cmp collation) (λ _ _, eq_refl).

(** The table before the pass. *)
Context (table0 : gmap string NewEvent) (keyed : map_Forall (λ id e, event_id e = id) table0).

Definition rows_in (t : gmap string NewEvent) : list NewEvent := (map_to_list t).*2.

(** The rows the pass is about, in its order. *)
Definition all_selected : list NewEvent :=
  sort_by (λ a b, asc_cmp collation (event_key a) (event_key b))
    (base.filter (λ e, selected options e = true) (rows_in table0)).

Lemma values_elem (t : gmap string NewEvent) e : map_Forall (λ id e, event_id e = id) t →
  e ∈ rows_in t ↔ t !! event_id e = Some e.
Proof.
  intros Hk. unfold rows_in. rewrite list_elem_of_fmap. split.
  - intros ([id e'] & -> & Hin). apply elem_of_map_to_list in Hin. cbn. by rewrite (Hk _ _ Hin).
  - intros He. exists (event_id e, e). split; [done|]. by apply elem_of_map_to_list.
Qed.

Lemma values_ids (t : gmap string NewEvent) : map_Forall (λ id e, event_id e = id) t →
  NoDup (event_id <$> rows_in t).
Proof.
  intros Hk. assert (event_id <$> rows_in t = (map_to_list t).*1) as ->; [|apply NoDup_fst_map_to_list].
  unfold rows_in. rewrite <- list_fmap_compose. apply list_fmap_ext. intros i [id e] Hi. cbn.
  apply list_elem_of_lookup_2, elem_of_map_to_list in Hi. by apply Hk.
Qed.

Lemma NoDup_ids_filter (P : NewEvent → Prop) `{∀ e, Decision (P e)} l :
  NoDup (event_id <$> l) → NoDup (event_id <$> base.filter P l).
Proof. intros Hn. eapply sublist_NoDup; [exact Hn|]. apply fmap_sublist, sublist_filter. Qed.

Lemma selected_elem e : e ∈ all_selected ↔ table0 !! event_id e = Some e ∧ selected options e = true.
Proof. unfold all_selected. rewrite sort_by_perm, list_elem_of_filter, values_elem by done. tauto. Qed.

Lemma selected_ids : NoDup (event_id <$> all_selected).
Proof. unfold all_selected. rewrite sort_by_perm. by apply NoDup_ids_filter, values_ids. Qed.

Lemma selected_sorted : StronglySorted tlt (event_key <$> all_selected).
Proof.
  assert (StronglySorted (key_le event_key) all_selected) as Hs by exact (sort_by_sorted event_key _).
  assert (NoDup (event_key <$> all_selected)) as Hnd.
  { apply (NoDup_fmap_1 snd). rewrite <- list_fmap_compose. apply selected_ids. }
  induction Hs as [|t l Hs IH HF]; [constructor|].
  rewrite fmap_cons in *. apply NoDup_cons in Hnd as [Ht Hnd]. constructor; [auto|].
  rewrite Forall_fmap, Forall_forall. rewrite Forall_forall in HF. intros t' Ht'. cbn.
  specialize (HF t' Ht'). unfold key_le in HF. unfold tlt.
  destruct (tcmp (event_key t) (event_key t')) eqn:E; [|done|done].
  apply tcmp_eq in E. destruct Ht. rewrite E. by apply list_elem_of_fmap_2.
Qed.

(** What the pass makes of a row. *)
Definition refreshed (e : NewEvent) : option Json :=
  dt ← row_topics e; dv ← row_value e;
  enrich_row (spec_get 0 (contract_id e) (ledger e)) e dt dv.

Definition reenriched (e : NewEvent) : NewEvent :=
  if selected options e then match refreshed e with Some v => set_enriched v e | None => e end else e.

Lemma reenriched_key e : event_key (reenriched e) = event_key e ∧ event_id (reenriched e) = event_id e.
Proof. unfold reenriched. destruct (selected options e); [|done]. by destruct (refreshed e). Qed.

(** The first [k] rows of the pass have been processed. *)
Definition done_upto (k : nat) (t : gmap string NewEvent) : Prop := ∀ id,
  t !! id = if bool_decide (id ∈ event_id <$> take k all_selected) then reenriched <$> table0 !! id
            else table0 !! id.

Lemma done_keyed k t : done_upto k t → map_Forall (λ id e, event_id e = id) t.
Proof.
  intros Ht id e He. rewrite Ht in He. destruct (bool_decide _); [|by apply keyed].
  destruct (table0 !! id) as [e0|] eqn:E0; [|done]. injection He as <-.
  rewrite (proj2 (reenriched_key e0)). by apply keyed.
Qed.

Lemma taken_past k e e0 : all_selected !! k = Some e0 → e ∈ take (S k) all_selected →
  past collation (Some (event_key e0)) e = false.
Proof.
  intros Hk He. unfold past. apply elem_of_take in He as (j & Hj & Hjk).
  destruct (decide (j = k)) as [->|Hne].
  - assert (e = e0) as -> by congruence.
    assert (asc_cmp collation (event_key e0) (event_key e0) = Eq) as -> by (by apply (@tcmp_eq _ asc_order)). done.
  - assert (tlt (event_key e) (event_key e0)) as Hlt.
    { pose proof selected_sorted as Hs. rewrite <- (take_drop (S j) all_selected), fmap_app in Hs.
      apply StronglySorted_app in Hs as (Hs & _ & _). apply Hs.
      - apply list_elem_of_fmap_2, elem_of_take. exists j. split; [done|lia].
      - apply list_elem_of_fmap_2. apply list_elem_of_lookup. exists (k - S j)%nat.
        rewrite lookup_drop. by replace (S j + (k - S j))%nat with k by lia. }
    unfold tlt in Hlt. cbn [tcmp asc_order order_as] in Hlt.
    pose proof (@tcmp_antisym _ asc_order (event_key e) (event_key e0)) as Ha. cbn [tcmp asc_order order_as] in Ha.
    by rewrite Ha, Hlt.
Qed.

Lemma dropped_past k e e0 : all_selected !! k = Some e0 → e ∈ drop (S k) all_selected →
  past collation (Some (event_key e0)) e = true.
Proof.
  intros Hk He. assert (tlt (event_key e0) (event_key e)) as Hlt.
  { pose proof selected_sorted as Hs. rewrite <- (take_drop (S k) all_selected), fmap_app in Hs.
    apply StronglySorted_app in Hs as (Hs & _ & _). apply Hs; [|by apply list_elem_of_fmap_2].
    apply list_elem_of_fmap_2, elem_of_take. exists k. split; [done|lia]. }
  unfold past. unfold tlt in Hlt. cbn [tcmp asc_order order_as] in Hlt. by rewrite Hlt.
Qed.

(** The cursor after [k] rows. *)
Definition cursor_upto (k : nat) (c : option (Z * string)) : Prop :=
  (k = 0%nat ∧ c = None) ∨ ∃ j e, k = S j ∧ all_selected !! j = Some e ∧ c = Some (event_key e).

Lemma rest_past k c e : cursor_upto k c → e ∈ drop k all_selected → past collation c e = true.
Proof. intros [[-> ->]|(j & e0 & -> & Hj & ->)] He; [done|by eapply dropped_past]. Qed.

Lemma done_past k c e : cursor_upto k c → e ∈ take k all_selected → past collation c e = false.
Proof.
  intros [[-> ->]|(j & e0 & -> & Hj & ->)] He; [rewrite take_0 in He; by apply elem_of_nil in He|by eapply taken_past].
Qed.

Lemma past_reenriched c e : past collation c (reenriched e) = past collation c e.
Proof. unfold past. by rewrite (proj1 (reenriched_key e)). Qed.

(** Updating rows makes the statement neither skip nor repeat one: it selects
    the next rows of the pass. *)
Lemma select_next k c t : done_upto k t → cursor_upto k c →
  select_rows collation options c t = take BATCH_SIZE (drop k all_selected).
Proof.
  intros Ht Hc. unfold select_rows. f_equal.
  apply (@sort_by_unique NewEvent (Z * string) asc_order event_key).
  { pose proof selected_sorted as Hs. rewrite <- (take_drop k all_selected), fmap_app in Hs.
    by apply StronglySorted_app in Hs as (_ & _ & Hs). }
  apply NoDup_Permutation.
  - apply (NoDup_fmap_1 event_id), NoDup_ids_filter, values_ids. by eapply done_keyed.
  - apply (NoDup_fmap_1 event_id). pose proof selected_ids as Hn.
    rewrite <- (take_drop k all_selected), fmap_app in Hn. by apply NoDup_app in Hn as (_ & _ & Hn).
  - intros e. rewrite list_elem_of_filter, andb_true_iff.
    change (map_to_list t).*2 with (rows_in t). rewrite values_elem by (by eapply done_keyed).
    rewrite Ht. split.
    + intros [[Hs Hp] He]. case_bool_decide as Hin.
      * exfalso. apply list_elem_of_fmap in Hin as (e1 & Hid & Hin).
        destruct (table0 !! event_id e) as [e0|] eqn:E0; [|done]. injection He as He.
        assert (e1 = e0) as ->.
        { apply elem_of_take in Hin as (j & Hj & _).
          apply list_elem_of_lookup_2, selected_elem in Hj as [Hj _]. rewrite <- Hid in Hj. congruence. }
        rewrite <- He, past_reenriched in Hp. by rewrite (done_past k c) in Hp.
      * assert (e ∈ all_selected) as Hall by by apply selected_elem.
        rewrite <- (take_drop k all_selected) in Hall. apply elem_of_app in Hall as [Hall|Hall]; [|done].
        destruct Hin. by apply list_elem_of_fmap_2.
    + intros He. assert (e ∈ all_selected) as Hall.
      { rewrite <- (take_drop k all_selected). apply elem_of_app. by right. }
      apply selected_elem in Hall as [Htab Hs]. split; [split; [done|by eapply rest_past]|].
      rewrite bool_decide_eq_false_2; [done|]. intros Hin.
      pose proof selected_ids as Hn. rewrite <- (take_drop k all_selected), fmap_app in Hn.
      apply NoDup_app in Hn as (_ & Hn & _). apply (Hn _ Hin). by apply list_elem_of_fmap_2.
Qed.

(** ** Processing *)

Context (calm : ∀ t, db_fails t = false) (stable : ∀ t t' c l, spec_get t c l = spec_get t' c l).

Definition same_cursor (w w' : World) : Prop :=
  cursor_row w' = cursor_row w ∧ missed_ranges w' = missed_ranges w.

(** Whether a row changes its [enriched] column. *)
Definition refreshes (e : NewEvent) : bool := match refreshed e with Some _ => true | None => false end.

Lemma process_row_run e w :
  match process_row e w with
  | (Ok b, w') => b = refreshes e ∧ same_cursor w w'
      ∧ Store.events (db w') = match refreshed e with
                               | Some v => alter (set_enriched v) (event_id e) (Store.events (db w))
                               | None => Store.events (db w)
                               end
  | (Err _, _) => False
  end.
Proof.
  unfold process_row, refreshes, refreshed. destruct (row_topics e) as [dt|]; [|by split_and!].
  destruct (row_value e) as [dv|]; [|by split_and!].
  unfold mbind, M_bind, tick. cbn [option_bind fst snd]. rewrite (stable _ 0).
  destruct (enrich_row (spec_get 0 (contract_id e) (ledger e)) e dt dv) as [v|]; [|by split_and!].
  unfold try, update_enriched, sql, mbind, M_bind, tick, get, set_db. cbn. rewrite calm. by cbn.
Qed.

(** A processed row is as the pass leaves it. *)
Lemma process_next k e t : all_selected !! k = Some e → done_upto k t →
  done_upto (S k) (match refreshed e with Some v => alter (set_enriched v) (event_id e) t | None => t end).
Proof.
  intros Hk Ht id. rewrite (take_S_r _ _ _ Hk), fmap_app. cbn [fmap list_fmap].
  assert (e ∈ all_selected) as [Htab Hs]%selected_elem by by eapply list_elem_of_lookup_2.
  assert (event_id e ∉ event_id <$> take k all_selected) as Hfresh.
  { pose proof selected_ids as Hn. rewrite <- (take_drop k all_selected), fmap_app in Hn.
    apply NoDup_app in Hn as (_ & Hn & _). intros Hin. apply (Hn _ Hin), list_elem_of_fmap_2.
    rewrite (drop_S _ _ _ Hk). by left. }
  destruct (decide (id = event_id e)) as [->|Hne].
  - rewrite bool_decide_eq_true_2 by (apply elem_of_app; right; by left). rewrite Htab. cbn.
    assert (t !! event_id e = Some e) as He by (rewrite Ht; by rewrite bool_decide_eq_false_2).
    unfold reenriched. rewrite Hs. destruct (refreshed e) as [v|]; [|done]. by rewrite lookup_alter_eq, He.
  - assert (bool_decide (id ∈ (event_id <$> take k all_selected) ++ [event_id e])%list =
      bool_decide (id ∈ event_id <$> take k all_selected)) as ->.
    { apply bool_decide_ext. rewrite elem_of_app, list_elem_of_singleton. naive_solver. }
    destruct (refreshed e); [|apply Ht]. rewrite lookup_alter_ne by done. apply Ht.
Qed.

Definition count_refreshed (l : list NewEvent) : nat := length (base.filter (λ e, refreshes e = true) l).

Lemma process_rows_run rows : ∀ k w, rows = take (length rows) (drop k all_selected) →
  done_upto k (Store.events (db w)) →
  match process_rows rows w with
  | (Ok n, w') => n = count_refreshed rows ∧ same_cursor w w' ∧ done_upto (k + length rows) (Store.events (db w'))
  | (Err _, _) => False
  end.
Proof.
  induction rows as [|e rows IH]; intros k w Hrows Hw; [cbn; by rewrite Nat.add_0_r|].
  cbn [process_rows length] in *. destruct (drop k all_selected) as [|e' rest] eqn:Hdrop; [done|].
  cbn [take] in Hrows. injection Hrows as <- Hrows.
  assert (all_selected !! k = Some e) as Hk by (by rewrite <- (Nat.add_0_r k), <- lookup_drop, Hdrop).
  assert (rest = drop (S k) all_selected) as -> by (rewrite (drop_S _ _ _ Hk) in Hdrop; by injection Hdrop).
  pose proof (process_row_run e w) as Hrow. unfold mbind, M_bind.
  destruct (process_row e w) as [[b|err] w1]; [|done]. destruct Hrow as (-> & [C1 M1] & Hdb).
  specialize (IH (S k) w1 Hrows). rewrite Hdb in IH. specialize (IH (process_next k e _ Hk Hw)).
  destruct (process_rows rows w1) as [[n|err] w2]; [|done]. unfold mret, M_ret. destruct IH as (-> & [C2 M2] & Hd).
  split_and!; [|split; congruence|by replace (k + S (length rows))%nat with (S k + length rows)%nat by lia].
  unfold count_refreshed. rewrite filter_cons. destruct (refreshes e); [by rewrite decide_True|by rewrite decide_False].
Qed.

Lemma page_cursor k rows : rows ≠ [] → rows = take (length rows) (drop k all_selected) →
  cursor_upto (k + length rows) (event_key <$> last rows).
Proof.
  intros Hne Hrows. right. exists (k + pred (length rows))%nat.
  destruct (last rows) as [e|] eqn:El; [|by apply last_None in El]. exists e.
  assert (length rows ≠ 0%nat) by by destruct rows.
  split; [lia|]. split; [|done]. rewrite last_lookup, Hrows, lookup_take_lt in El.
  - rewrite <- Hrows in El. by rewrite lookup_drop in El.
  - rewrite <- Hrows. lia.
Qed.

Lemma take_length_take {A} n (l : list A) : take (length (take n l)) l = take n l.
Proof.
  rewrite length_take. destruct (Nat.min_spec n (length l)) as [[? ->]|[? ->]]; [done|].
  by rewrite firstn_all, take_ge.
Qed.

Lemma reenrich_loop_run fuel : ∀ k c p u w, done_upto k (Store.events (db w)) → cursor_upto k c →
  (k ≤ length all_selected)%nat → (length all_selected - k < fuel)%nat →
  match reenrich_loop collation options fuel c p u w with
  | (Ok (p', u'), w') => p' = (p + (length all_selected - k))%nat
      ∧ u' = (u + count_refreshed (drop k all_selected))%nat
      ∧ same_cursor w w' ∧ done_upto (length all_selected) (Store.events (db w'))
  | (Err _, _) => False
  end.
Proof.
  induction fuel as [|fuel IH]; intros k c p u w Hw Hc Hk Hf; [lia|]. cbn [reenrich_loop].
  unfold sql, mbind, M_bind, tick, get, mret, M_ret. cbn [fst snd clock]. rewrite calm. cbn [db].
  rewrite (select_next k c) by done.
  destruct (take BATCH_SIZE (drop k all_selected)) as [|e rows] eqn:Htake.
  - assert (drop k all_selected = []) as Hnil by by destruct (drop k all_selected).
    assert (length all_selected = k) as Hlen by (apply (f_equal length) in Hnil; rewrite length_drop in Hnil; cbn in Hnil; lia).
    rewrite Hnil, Hlen, Nat.sub_diag. cbn. split_and!; [lia|lia|done|done].
  - set (w1 := {| db := db w; cursor_row := _ |}).
    assert (e :: rows = take (length (e :: rows)) (drop k all_selected)) as Hrows
      by (by rewrite <- Htake, take_length_take).
    assert (e :: rows ≠ []) as Hne by done. revert Hne Hrows Htake. generalize (e :: rows) as page.
    clear e rows. intros page Hne Hrows Htake.
    pose proof (process_rows_run page k w1 Hrows Hw) as Hrun.
    destruct (process_rows page w1) as [[n|err] w2]; [|done]. destruct Hrun as (-> & [C1 M1] & Hd).
    assert (length page ≠ 0%nat) by by destruct page.
    assert (k + length page ≤ length all_selected)%nat as Hle.
    { apply (f_equal length) in Htake. rewrite length_take, length_drop in Htake. lia. }
    specialize (IH (k + length page)%nat (event_key <$> last page) (p + length page)%nat
      (u + count_refreshed page)%nat w2 Hd (page_cursor k page Hne Hrows) Hle ltac:(lia)).
    destruct (reenrich_loop _ _ fuel _ _ _ w2) as [[[p' u']|err] w3]; [|done].
    destruct IH as (-> & -> & [C2 M2] & Hdone).
    split_and!; [lia| |split; [by rewrite C2, C1|by rewrite M2, M1]|done].
    rewrite <- (take_drop (length page) (drop k all_selected)).
    rewrite <- Hrows, drop_drop. unfold count_refreshed. rewrite filter_app, length_app. lia.
Qed.

Lemma done_start : done_upto 0 table0.
Proof. intros id. by rewrite take_0, bool_decide_eq_false_2 by apply not_elem_of_nil. Qed.

Lemma run_reenrich_run fuel w : Store.events (db w) = table0 → (length all_selected < fuel)%nat →
  match run_reenrich collation options fuel w with
  | (Ok (p, u), w') => p = length all_selected ∧ u = count_refreshed all_selected
      ∧ same_cursor w w' ∧ done_upto (length all_selected) (Store.events (db w'))
  | (Err _, _) => False
  end.
Proof.
  intros Hw Hf. unfold run_reenrich, sql, mbind, M_bind, tick, get, mret, M_ret. cbn [fst snd clock]. rewrite calm.
  set (w1 := {| db := db w; cursor_row := _ |}).
  pose proof (reenrich_loop_run fuel 0 None 0 0 w1) as Hloop.
  destruct (reenrich_loop _ _ fuel None 0 0 w1) as [[[p u]|err] w2].
  - destruct Hloop as (-> & -> & Hc & Hd);
      [change (Store.events (db w1)) with (Store.events (db w)); rewrite Hw; apply done_start|by left|lia|lia|].
    split_and!; [lia|done|exact Hc|done].
  - apply Hloop; [change (Store.events (db w1)) with (Store.events (db w)); rewrite Hw; apply done_start|by left|lia|lia].
Qed.
End pass.

(** A pass is one map over the table: it ends within one round per selected row
    and one more, has then visited every row its options select exactly once
    (as many as it counted before it began), and changes the [enriched] column
    of those rows, to what the contract's interface makes of their decoded
    topics and value, and nothing else, although the updates change which rows
    the statement selects. *)
Theorem reenrich_is_map `{Env} `{RowText} (collation : TotalOrder string) options fuel w :
  map_Forall (λ id e, event_id e = id) (Store.events (db w)) →
  (∀ t, db_fails t = false) → (∀ t t' c l, spec_get t c l = spec_get t' c l) →
  (size (Store.events (db w)) < fuel)%nat →
  ∃ p u w', run_reenrich collation options fuel w = (Ok (p, u), w')
    ∧ Store.events (db w') = reenriched options <$> Store.events (db w)
    ∧ p = length (base.filter (λ e, selected options e = true) (map_to_list (Store.events (db w))).*2)
    ∧ same_cursor w w'.
Proof.
  intros Hkeyed Hcalm Hstable Hf.
  set (table := Store.events (db w)) in *. set (all := all_selected collation options table).
  assert (length all = length (base.filter (λ e, selected options e = true) (map_to_list table).*2)) as Hlen
    by (unfold all, all_selected, rows_in; by rewrite sort_by_perm).
  assert (length all < fuel)%nat as Hfuel.
  { pose proof (length_filter (λ e, selected options e = true) (map_to_list table).*2) as Hle.
    rewrite length_fmap, length_map_to_list in Hle. lia. }
  pose proof (run_reenrich_run collation options table Hkeyed Hcalm Hstable fuel w eq_refl Hfuel) as Hrun.
  destruct (run_reenrich collation options fuel w) as [[[p u]|err] w']; [|done].
  destruct Hrun as (-> & _ & Hc & Hd). exists (length all), u, w'. split_and!; [done| |done|done].
  apply map_eq. intros id. rewrite Hd, firstn_all, lookup_fmap. case_bool_decide as Hin; [done|].
  destruct (table !! id) as [e|] eqn:He; [|done]. cbn. f_equal. unfold reenriched.
  destruct (selected options e) eqn:Hs; [|done]. destruct Hin.
  rewrite <- (Hkeyed id e He). apply list_elem_of_fmap_2. apply selected_elem; [done|].
  by rewrite (Hkeyed id e He).
Qed.

(** ** Witness *)

#[local] Instance enriching_env : Env := {|
  env_stellar := Instances.sample_stellar;
  env_chrono := @env_chrono (sample_env good_chain (Ok 12) (λ _, false));
  env_b64 := λ _, None;
  env_read_xdr := λ _, None;
  env_order := map_to_list;
  rpc_latest_ledger := λ _, Ok 12;
  rpc_health := λ _, Ok 1;
  rpc_get_events := λ _ _ _ _, Err RpcTransport;
  rpc_take_metrics := λ _, (0, 0, 0, 0);
  spec_get := λ _ c _, if String.eqb c "C1" then Some sample_spec else None;
  db_fails := λ _, false;
  cancelled := λ _, false;
  instant := λ _, 0;
|}.

(** Two texts, for the two columns of [deposit]. *)
#[local] Instance sample_text : RowText := {|
  column_text v := match v with JArr (JStr _ :: _) => "topics" | _ => "value" end;
  from_text s := if String.eqb s "topics" then Some (JArr [JStr "pool"; JStr "deposit"; JStr "alice"])
                 else Some (JArr [JInt 3; JStr "100"]);
|}%string.

Definition deposit (id contract : string) (l : Z) : NewEvent := {|
  event_id := id; contract_id := contract; ledger := l; ledger_closed_at := 0; event_type := "contract";
  topics := []; decoded_topics := [JStr "pool"; JStr "deposit"; JStr "alice"]; event_name := Some "pool"%string;
  value := ""; decoded_value := JArr [JInt 3; JStr "100"]; enriched := None; tx_hash := "tx";
  in_successful_call := true; paging_token := id |}.

Definition unenriched : World := {|
  db := with_events (<["e1"%string := deposit "e1" "C1" 7]> (<["e2"%string := deposit "e2" "C2" 6]> ∅)) empty_db;
  cursor_row := None; missed_ranges := []; effects := []; rpc_oldest_ledger := 0; clock := 0 |}.

Lemma reenrich_is_map_witness :
  ∃ u w', run_reenrich string_order {| o_contract := None; o_force := false |} 3 unenriched = (Ok (2%nat, u), w')
    ∧ ((λ e, is_some_b (enriched e)) <$> Store.events (db w') !! "e1"%string) = Some true
    ∧ ((λ e, is_some_b (enriched e)) <$> Store.events (db w') !! "e2"%string) = Some false.
Proof.
  destruct (reenrich_is_map string_order {| o_contract := None; o_force := false |} 3 unenriched)
    as (p & u & w' & Hrun & Htab & Hp & _).
  - intros id e He. unfold unenriched in He. cbn in He.
    repeat (apply lookup_insert_Some in He as [[<- <-]|[_ He]]; [reflexivity|]). by rewrite lookup_empty in He.
  - done.
  - done.
  - vm_compute. lia.
  - exists u, w'. assert (p = 2%nat) as -> by (rewrite Hp; by vm_compute).
    clear Hp. split; [exact Hrun|]. clear Hrun. rewrite Htab. split; vm_compute; reflexivity.
Defined.
