(* ===== verification/RpcClient.v ===== *)
(** * RpcClient: failover between RPC endpoints ([lumenqraph-indexer/src/rpc_client.rs])

    A client holds an ordered list of endpoints.  A call tries the active one
    three times, then moves on to the next; before it sends application traffic
    to an endpoint other than the primary it asks for its network and compares
    it with the one pinned at startup.  The endpoints are the environment: what
    a request is answered, by tick of a clock and by URL, is a parameter, and so
    are the jitter and the monotonic clock.  Every request and every pause is
    recorded, in order, so that the theorems can speak about them. *)
From S2P Require Import Prelude Text Containers Values Instances XdrDecode Convert Poller.
From Stdlib Require Import Ascii.

Local Open Scope string_scope.
Local Open Scope Z_scope.

(** ** Requests *)

Record EventFilter := { filter_type : string; f_contract_ids : list string }.
Record Pagination := { g_limit : nat; g_cursor : option string }.
Record GetEventsParams := {
  g_start_ledger : option Z;
  g_filters : list EventFilter;
  g_pagination : Pagination;
  g_xdr_format : string;
}.

(** The parameters of the methods the code calls: [{}], those of [getEvents],
    and the keys of [getLedgerEntries]. *)
Inductive Params : Type :=
  | NoParams
  | EventParams (p : GetEventsParams)
  | KeyParams (keys : list string).

Record RpcRequest := { q_jsonrpc : string; q_id : Z; q_method : string; q_params : Params }.

Definition rpc_request (method : string) (params : Params) : RpcRequest :=
  {| q_jsonrpc := "2.0"; q_id := 1; q_method := method; q_params := params |}.

(** ** Errors: what the [anyhow::Error]s of this file carry *)

Inductive CallError : Type :=
  | RequestFailed (method : string)
  | HttpError (method : string) (status : Z)
  | DecodeFailed (method : string)
  | SorobanRpcError (code : Z) (message method : string)
  | NoResult (method : string)
  | NetworkMismatch (host : string)
  | AllEndpointsFailed (method : string) (endpoints : nat)
  | TooManyContractIds (n : nat)
  | InvalidContractId (contract_id : string)
  | EncodeLedgerKey
  | DecodeLedgerEntry.

(** What the poller sees of an error of the client. *)
Definition poll_error (e : CallError) : PollError :=
  match e with SorobanRpcError code _ _ => RpcAnswer code | _ => RpcTransport end.

(** ** Answers *)

Record RpcError := { code : Z; message : string }.
Record RpcResponse (A : Type) := { r_result : option A; r_error : option RpcError }.
Arguments r_result {A} r.
Arguments r_error {A} r.

(** What [send] gives: a transport error, or a status and a body. *)
Inductive Reply : Type :=
  | SendFailed
  | Answered (status : Z) (body : string).

(** [serde]'s deserialiser for [RpcResponse<A>]. *)
Class Deserialize (A : Type) := { from_json : string → option (RpcResponse A) }.

Record NetworkResult := { network_passphrase : string }.
Record LatestLedgerResult := { sequence : Z }.

(** ** Ledger entries *)

(** [LedgerKey] and [LedgerEntryData] of [stellar_xdr], as far as the code
    tells their variants apart. *)
Inductive LedgerKey : Type :=
  | KeyContractData (contract : ScAddress) (key : ScVal) (durability : Durability)
  | KeyContractCode (hash : list ascii).

Inductive LedgerEntryData : Type :=
  | EntryContractData (contract : ScAddress) (key : ScVal) (durability : Durability) (val : ScVal)
  | EntryContractCode (hash code : list ascii)
  | EntryOther.

(** [to_xdr_base64(Limits::none())] of a key, which tells keys apart, and
    [from_xdr_base64(.., XDR_LEDGER_ENTRY_LIMITS)] of an entry. *)
Class LedgerXdr := {
  key_to_xdr_base64 : LedgerKey → option string;
  entry_from_xdr_base64 : string → option LedgerEntryData;
  key_to_xdr_base64_inj k k' s :
    key_to_xdr_base64 k = Some s → key_to_xdr_base64 k' = Some s → k = k';
}.

Record LedgerEntryItem := { xdr : string; last_modified_ledger_seq : Z }.
Record LedgerEntriesResult := { le_entries : option (list LedgerEntryItem) }.

Record InstanceEntry := {
  ie_wasm_hash : option string;
  ie_storage : ScVal;
  ie_last_modified : Z;
}.
Record DataEntry := { de_val : ScVal; de_last_modified : Z }.

(** [slice::chunks(n)], for [n > 0]. *)
Definition chunks_fuel {A} (n : nat) : nat → list A → list (list A) :=
  fix go fuel l :=
    match fuel, l with
    | S fuel', _ :: _ => take n l :: go fuel' (drop n l)
    | _, _ => []
    end.
Definition chunks {A} (n : nat) (l : list A) : list (list A) := chunks_fuel n (length l) l.

(** What surrounds the client. *)
Class Http := {
  http_post : nat → string → RpcRequest → Reply;
  http_gen_range : nat → Z → Z;
  http_instant : nat → Z;
  http_gen_range_bounds t hi : 0 ≤ hi → 0 ≤ http_gen_range t hi ≤ hi;
}.

Definition is_client_error (status : Z) : bool := (400 <=? status) && (status <? 500).
Definition is_server_error (status : Z) : bool := (500 <=? status) && (status <? 600).
Definition status_success (status : Z) : bool := (200 <=? status) && (status <? 300).
(** [error_for_status] fails. *)
Definition is_error_status (status : Z) : bool := is_client_error status || is_server_error status.

(** ** The client *)

(** Why a request is sent: the probe for fail-back, the check of an endpoint's
    network, or the call itself. *)
Inductive Purpose : Type := Probe | NetworkCheck | Traffic.

Inductive Act : Type :=
  | Posted (why : Purpose) (url : string) (req : RpcRequest) (reply : Reply)
  | Slept (ms : Z).

(** [FailoverState] and the atomics of [RpcClient]. *)
Record Shared := {
  active_idx : nat;
  last_failover_at : option Z;
  active_url_idx : nat;
  calls_made : Z;
  calls_failed : Z;
  calls_failed_32001 : Z;
  failover_count : Z;
  pinned : option string;
}.

Record Net := { sh : Shared; ticks : nat; trace : list Act }.

Definition with_urls : Shared := {|
  active_idx := 0; last_failover_at := None; active_url_idx := 0; calls_made := 0;
  calls_failed := 0; calls_failed_32001 := 0; failover_count := 0; pinned := None |}.

(** [fetch_add(1)] on an [AtomicU64]. *)
Definition bump (z : Z) : Z := wrap 64 (z + 1).

Definition count_call (s : Shared) : Shared := {|
  active_idx := active_idx s; last_failover_at := last_failover_at s;
  active_url_idx := active_url_idx s; calls_made := bump (calls_made s);
  calls_failed := calls_failed s; calls_failed_32001 := calls_failed_32001 s;
  failover_count := failover_count s; pinned := pinned s |}.
Definition count_failed (s : Shared) : Shared := {|
  active_idx := active_idx s; last_failover_at := last_failover_at s;
  active_url_idx := active_url_idx s; calls_made := calls_made s;
  calls_failed := bump (calls_failed s); calls_failed_32001 := calls_failed_32001 s;
  failover_count := failover_count s; pinned := pinned s |}.
Definition count_32001 (s : Shared) : Shared := {|
  active_idx := active_idx s; last_failover_at := last_failover_at s;
  active_url_idx := active_url_idx s; calls_made := calls_made s;
  calls_failed := calls_failed s; calls_failed_32001 := bump (calls_failed_32001 s);
  failover_count := failover_count s; pinned := pinned s |}.
Definition move_to (next : nat) (now : Z) (s : Shared) : Shared := {|
  active_idx := next; last_failover_at := Some now; active_url_idx := next;
  calls_made := calls_made s; calls_failed := calls_failed s;
  calls_failed_32001 := calls_failed_32001 s; failover_count := bump (failover_count s);
  pinned := pinned s |}.
Definition fail_back (s : Shared) : Shared := {|
  active_idx := 0; last_failover_at := None; active_url_idx := 0;
  calls_made := calls_made s; calls_failed := calls_failed s;
  calls_failed_32001 := calls_failed_32001 s; failover_count := failover_count s;
  pinned := pinned s |}.
Definition pin (p : string) (s : Shared) : Shared := {|
  active_idx := active_idx s; last_failover_at := last_failover_at s;
  active_url_idx := active_url_idx s; calls_made := calls_made s;
  calls_failed := calls_failed s; calls_failed_32001 := calls_failed_32001 s;
  failover_count := failover_count s; pinned := Some p |}.

(** ** URLs *)

(** [host_of]: after the scheme, after the first [@], before the first [/]. *)
Definition host_of (url : string) : string :=
  let after_scheme := default url (after_first "://" url) in
  let host_and_rest := match split_once "@" after_scheme with Some (_, r) => r | None => after_scheme end in
  match split_once "/" host_and_rest with Some (h, _) => h | None => host_and_rest end.

(** ** The monad: the client's state survives an error *)

Definition R (A : Type) : Type := Net → result CallError A * Net.

#[export] Instance R_ret : MRet R := λ A a w, (Ok a, w).
#[export] Instance R_bind : MBind R := λ A B f m w,
  match m w with (Ok a, w') => f a w' | (Err e, w') => (Err e, w') end.

Definition fail {A} (e : CallError) : R A := λ w, (Err e, w).
Definition lift_r {A} (r : result CallError A) : R A := λ w, (r, w).
Definition now_tick : R nat := λ w, (Ok (ticks w), {| sh := sh w; ticks := S (ticks w); trace := trace w |}).
Definition shared : R Shared := λ w, (Ok (sh w), w).
Definition update (f : Shared → Shared) : R unit := λ w,
  (Ok tt, {| sh := f (sh w); ticks := ticks w; trace := trace w |}).
Definition log (a : Act) : R unit := λ w,
  (Ok tt, {| sh := sh w; ticks := ticks w; trace := trace w ++ [a] |}).

Section client.
Context `{Http} (urls : list string).

Definition request (why : Purpose) (url : string) (req : RpcRequest) : R Reply :=
  t ← now_tick;
  let reply := http_post t url req in
  _ ← log (Posted why url req reply);
  mret reply.

(** [url_at]: the index is clamped to the list. *)
Definition url_at (idx : nat) : string := nth (Nat.min idx (length urls - 1)) urls "".

Definition active_endpoint_host (s : Shared) : string :=
  host_of (nth (active_url_idx s) urls (nth 0 urls "")).

(** *** Network identity *)

(** [send().await?.error_for_status()?.json().await?] and its [result]. *)
Definition network_of (reply : Reply) `{!Deserialize NetworkResult} : result CallError string :=
  match reply with
  | SendFailed => Err (RequestFailed "getNetwork")
  | Answered status body =>
      if is_error_status status then Err (HttpError "getNetwork" status)
      else match from_json body with
           | None => Err (DecodeFailed "getNetwork")
           | Some rpc => match r_result rpc with
                         | None => Err (NoResult "getNetwork")
                         | Some n => Ok (network_passphrase n)
                         end
           end
  end.

Context `{!Deserialize NetworkResult}.

Fixpoint validate_loop (us : list string) (expected : option string) : R (option string) :=
  match us with
  | [] => mret expected
  | url :: us' =>
      reply ← request NetworkCheck url (rpc_request "getNetwork" NoParams);
      passphrase ← lift_r (network_of reply);
      match expected with
      | Some prior => if String.eqb prior passphrase then validate_loop us' expected
                      else fail (NetworkMismatch (host_of url))
      | None => validate_loop us' (Some passphrase)
      end
  end.

(** [expect] cannot panic: [with_urls] asserts that the list is not empty. *)
Definition validate_network_passphrases : R string :=
  expected ← validate_loop urls None;
  let passphrase := default "" expected in
  _ ← update (pin passphrase);
  mret passphrase.

Definition check_endpoint_network (idx : nat) : R unit :=
  s ← shared;
  match pinned s with
  | None => mret tt
  | Some expected =>
      reply ← request NetworkCheck (url_at idx) (rpc_request "getNetwork" NoParams);
      actual ← lift_r (network_of reply);
      if String.eqb actual expected then mret tt else fail (NetworkMismatch (host_of (url_at idx)))
  end.

(** *** Failover *)

(** What [try_failover] does under its lock, at time [now]. *)
Definition advance (from_idx : nat) (now : Z) (s : Shared) : nat * Shared :=
  if (active_idx s =? from_idx)%nat then
    let next := Nat.min (from_idx + 1) (length urls - 1) in
    if (next =? from_idx)%nat then (next, s) else (next, move_to next now s)
  else (active_idx s, s).

Definition try_failover (from_idx : nat) : R nat :=
  t ← now_tick;
  s ← shared;
  let '(next, s') := advance from_idx (http_instant t) s in
  _ ← update (λ _, s');
  mret next.

(** [PRIMARY_PROBE_INTERVAL], in nanoseconds. *)
Definition PRIMARY_PROBE_INTERVAL : Z := 60 * 10 ^ 9.

Definition should_probe (now : Z) (s : Shared) : bool :=
  negb (active_idx s =? 0)%nat
  && match last_failover_at s with
     | Some t => PRIMARY_PROBE_INTERVAL <=? Z.max 0 (now - t)
     | None => false
     end.

Definition maybe_probe_primary : R unit :=
  t ← now_tick;
  s ← shared;
  if (active_idx s =? 0)%nat || negb (should_probe (http_instant t) s) then mret tt
  else
    reply ← request Probe (nth 0 urls "") (rpc_request "getHealth" NoParams);
    let ok := match reply with Answered status _ => status_success status | SendFailed => false end in
    if ok then update (λ s, if (active_idx s =? 0)%nat then s else fail_back s) else mret tt.

(** *** Calls *)

Definition MAX_ATTEMPTS_PER_URL : nat := 3.
Definition BASE_DELAYS_MS : list Z := [1000; 2000].

(** The pause before a retry. *)
Definition backoff (attempt : nat) : R unit :=
  let base_ms := nth (attempt - 1) BASE_DELAYS_MS 0 in
  t ← now_tick;
  let jitter_ms := http_gen_range t (base_ms / 2) - base_ms / 4 in
  log (Slept (Z.max (base_ms + jitter_ms) 1)).

(** How an attempt ends: the function returns, or the loop goes on. *)
Inductive AttemptOutcome (A : Type) : Type :=
  | Return (r : result CallError A)
  | Continue (e : CallError).

Section call.
Context {A : Type} `{!Deserialize A}.

Definition attempt_once (req : RpcRequest) (url : string) (attempt : nat) : R (AttemptOutcome A) :=
  let method := q_method req in
  _ ← update count_call;
  _ ← if (0 <? attempt)%nat then backoff attempt else mret tt;
  reply ← request Traffic url req;
  match reply with
  | SendFailed => mret (Continue A (RequestFailed method))
  | Answered status body =>
      if is_error_status status then
        if is_server_error status || (status =? 429) then mret (Continue A (HttpError method status))
        else _ ← update count_failed; mret (Return A (Err (HttpError method status)))
      else
        match from_json body with
        | None => mret (Continue A (DecodeFailed method))
        | Some resp =>
            match r_error resp with
            | Some err =>
                _ ← update count_failed;
                let rpc_err := SorobanRpcError (code err) (message err) method in
                if is_retryable (from_code (code err)) then
                  _ ← (if code err =? -32001 then update count_32001 else mret tt);
                  mret (Continue A rpc_err)
                else mret (Return A (Err rpc_err))
            | None => mret (Return A (ok_or (NoResult method) (r_result resp)))
            end
        end
  end.

(** How the attempts on one endpoint, or all of them, end. *)
Inductive Round : Type :=
  | Returned (r : result CallError A)
  | Exhausted (last_err : option CallError).

(** [for attempt in 0..MAX_ATTEMPTS_PER_URL]. *)
Fixpoint try_url (req : RpcRequest) (url : string) (l : list nat) (last_err : option CallError) : R Round :=
  match l with
  | [] => mret (Exhausted last_err)
  | attempt :: l' =>
      o ← attempt_once req url attempt;
      match o with
      | Return _ r => mret (Returned r)
      | Continue _ e => try_url req url l' (Some e)
      end
  end.

(** [for url_round in 0..total_urls]. *)
Fixpoint rounds (req : RpcRequest) (url_rounds : nat) (last_err : option CallError) : R Round :=
  match url_rounds with
  | O => mret (Exhausted last_err)
  | S url_rounds' =>
      s ← shared;
      let url_idx := active_idx s in
      let url := url_at url_idx in
      _ ← (if (url_idx =? 0)%nat then mret tt else check_endpoint_network url_idx);
      o ← try_url req url (seq 0 MAX_ATTEMPTS_PER_URL) last_err;
      match o with
      | Returned r => mret (Returned r)
      | Exhausted last_err =>
          next_idx ← try_failover url_idx;
          if (next_idx =? url_idx)%nat then mret (Exhausted last_err)
          else rounds req url_rounds' last_err
      end
  end.

Definition call_with_cursor (method : string) (params : Params) (_cursor_ledger : option Z) : R A :=
  let req := rpc_request method params in
  _ ← maybe_probe_primary;
  o ← rounds req (length urls) None;
  match o with
  | Returned r => lift_r r
  | Exhausted last_err =>
      _ ← update count_failed;
      fail (default (AllEndpointsFailed method (length urls)) last_err)
  end.

Definition call (method : string) (params : Params) : R A := call_with_cursor method params None.

End call.

(** *** The methods *)

Definition get_latest_ledger `{!Deserialize LatestLedgerResult} : R Z :=
  r ← call "getLatestLedger" NoParams; mret (sequence r).

(** The source never declares the type [RpcHealth] of the answer. *)
Definition get_health {RpcHealth : Type} `{!Deserialize RpcHealth} : R RpcHealth :=
  call "getHealth" NoParams.

(** *** Events *)

Definition MAX_IDS_PER_FILTER : nat := 5.
Definition MAX_FILTERS : nat := 5.

Definition contract_filter (ids : list string) : EventFilter :=
  {| filter_type := "contract"; f_contract_ids := ids |}.

Definition event_filters (contract_ids : list string) : result CallError (list EventFilter) :=
  if (MAX_IDS_PER_FILTER * MAX_FILTERS <? length contract_ids)%nat
  then Err (TooManyContractIds (length contract_ids))
  else match contract_ids with
       | [] => Ok [contract_filter []]
       | _ => Ok (contract_filter <$> chunks MAX_IDS_PER_FILTER contract_ids)
       end.

Definition get_events `{!Deserialize Page} (start_ledger : option Z) (contract_ids : list string)
    (cursor : option string) (limit : nat) : R Page :=
  filters ← lift_r (event_filters contract_ids);
  call "getEvents" (EventParams {|
    g_start_ledger := match cursor with Some _ => None | None => start_ledger end;
    g_filters := filters;
    g_pagination := {| g_limit := limit; g_cursor := cursor |};
    g_xdr_format := "base64" |}).

(** [take_metrics]. *)
Definition take_metrics : R (Z * Z * Z * Z) :=
  s ← shared;
  _ ← update (λ s, {| active_idx := active_idx s; last_failover_at := last_failover_at s;
                      active_url_idx := active_url_idx s; calls_made := 0; calls_failed := 0;
                      calls_failed_32001 := 0; failover_count := 0; pinned := pinned s |});
  mret (calls_made s, calls_failed s, calls_failed_32001 s, failover_count s).

(** *** Ledger entries *)

Context `{Stellar} `{LedgerXdr} `{!Deserialize LedgerEntriesResult}.

Definition get_ledger_entry (key : LedgerKey) : R (option (LedgerEntryData * Z)) :=
  key_b64 ← lift_r (ok_or EncodeLedgerKey (key_to_xdr_base64 key));
  res ← call "getLedgerEntries" (KeyParams [key_b64]);
  match default [] (le_entries res) with
  | [] => mret None
  | first :: _ =>
      data ← lift_r (ok_or DecodeLedgerEntry (entry_from_xdr_base64 (xdr first)));
      mret (Some (data, last_modified_ledger_seq first))
  end.

Definition contract_address (contract_id : string) : result CallError ScAddress :=
  ok_or (InvalidContractId contract_id) (sc_address_from_str contract_id).

Definition instance_key (addr : ScAddress) : LedgerKey :=
  KeyContractData addr ScvLedgerKeyContractInstance Persistent.

Definition get_contract_wasm (contract_id : string) : R (option (string * list ascii)) :=
  addr ← lift_r (contract_address contract_id);
  found ← get_ledger_entry (instance_key addr);
  match found with
  | Some (EntryContractData _ _ _ (ScvContractInstance (ExecWasm wasm_hash) _), _) =>
      let hash_hex := hex_string wasm_hash in
      found ← get_ledger_entry (KeyContractCode wasm_hash);
      match found with
      | Some (EntryContractCode _ code, _) => mret (Some (hash_hex, code))
      | _ => mret None
      end
  | _ => mret None
  end.

Definition executable_hash (e : ContractExecutable) : option string :=
  match e with ExecWasm h => Some (hex_string h) | ExecStellarAsset => None end.

Definition get_contract_instance (contract_id : string) : R (option InstanceEntry) :=
  addr ← lift_r (contract_address contract_id);
  found ← get_ledger_entry (instance_key addr);
  match found with
  | Some (EntryContractData _ _ _ (ScvContractInstance executable storage), last_modified) =>
      mret (Some {| ie_wasm_hash := executable_hash executable; ie_storage := ScvMap storage;
                    ie_last_modified := last_modified |})
  | _ => mret None
  end.

Definition get_contract_data (contract_id : string) (key : ScVal) (durability : Durability)
    : R (option DataEntry) :=
  addr ← lift_r (contract_address contract_id);
  found ← get_ledger_entry (KeyContractData addr key durability);
  match found with
  | Some (EntryContractData _ _ _ val, last_modified) =>
      mret (Some {| de_val := val; de_last_modified := last_modified |})
  | _ => mret None
  end.

(** The encoded key of a batch's element. *)
Definition encode_key (contract_id : string) (key : ScVal) (durability : Durability)
    : result CallError string :=
  addr ← contract_address contract_id;
  ok_or EncodeLedgerKey (key_to_xdr_base64 (KeyContractData addr key durability)).

(** One item of the answer to an instances batch: entries that do not decode,
    are no instance, or match no key are passed over. *)
Definition place_instance (keys : list string) (output : list (option InstanceEntry))
    (item : LedgerEntryItem) : list (option InstanceEntry) :=
  match entry_from_xdr_base64 (xdr item) with
  | Some (EntryContractData contract key durability (ScvContractInstance executable storage)) =>
      match key_to_xdr_base64 (KeyContractData contract key durability) with
      | Some k =>
          match position (String.eqb k) keys with
          | Some idx =>
              <[idx := Some {| ie_wasm_hash := executable_hash executable;
                               ie_storage := ScvMap storage;
                               ie_last_modified := last_modified_ledger_seq item |}]> output
          | None => output
          end
      | None => output
      end
  | _ => output
  end.

Definition get_contract_instances_batch (contract_ids : list string) : R (list (option InstanceEntry)) :=
  match contract_ids with
  | [] => mret []
  | _ =>
      keys ← lift_r (collect_r (λ c, encode_key c ScvLedgerKeyContractInstance Persistent) contract_ids);
      res ← call "getLedgerEntries" (KeyParams keys);
      mret (foldl (place_instance keys) (replicate (length contract_ids) None)
              (default [] (le_entries res)))
  end.

(** [key_to_idx]: collecting into a [HashMap], the last index of a key stays. *)
Definition key_to_idx (keys : list string) : gmap string nat :=
  foldl (λ m '(i, k), <[k := i]> m) ∅ (enumerate keys).

(** One item of the answer to a data batch: an entry that does not decode ends
    the call. *)
Definition place_data (idx : gmap string nat) (output : list (option DataEntry))
    (item : LedgerEntryItem) : result CallError (list (option DataEntry)) :=
  data ← ok_or DecodeLedgerEntry (entry_from_xdr_base64 (xdr item));
  Ok match data with
     | EntryContractData contract key durability val =>
         match (k ← key_to_xdr_base64 (KeyContractData contract key durability); idx !! k) with
         | Some i => <[i := Some {| de_val := val; de_last_modified := last_modified_ledger_seq item |}]> output
         | None => output
         end
     | _ => output
     end.

Fixpoint place_all (idx : gmap string nat) (output : list (option DataEntry))
    (items : list LedgerEntryItem) : result CallError (list (option DataEntry)) :=
  match items with
  | [] => Ok output
  | item :: items' => output ← place_data idx output item; place_all idx output items'
  end.

Definition get_contract_data_batch (keys : list (string * ScVal * Durability))
    : R (list (option DataEntry)) :=
  match keys with
  | [] => mret []
  | _ =>
      key_b64s ← lift_r (collect_r (λ '(contract_id, key, durability),
                                    encode_key contract_id key durability) keys);
      res ← call "getLedgerEntries" (KeyParams key_b64s);
      lift_r (place_all (key_to_idx key_b64s) (replicate (length keys) None) (default [] (le_entries res)))
  end.

End client.
