(* ===== verification/LedgerReads.v ===== *)
(** * LedgerReads: batches of ledger entries, and event filters

    The batch reads of [RpcClient] match the entries of one answer back to the
    keys that were asked for; [getEvents] spreads the watched contracts over
    filters.  The theorems say that nothing is attributed to another key and
    that no contract is lost or filter left open. *)
From S2P Require Import Prelude Text Containers Values Instances XdrDecode Convert Poller RpcClient.
From Stdlib Require Import Ascii.

Local Open Scope string_scope.
Local Open Scope Z_scope.

(** ** Chunks *)

Section chunks.
Context {A : Type} (n : nat).
Hypothesis n_pos : (0 < n)%nat.

Lemma chunks_fuel_spec fuel (l : list A) :
  (length l ≤ fuel)%nat →
  concat (chunks_fuel n fuel l) = l
  ∧ Forall (λ c, c ≠ [] ∧ (length c ≤ n)%nat) (chunks_fuel n fuel l)
  ∧ (n * length (chunks_fuel n fuel l) < length l + n)%nat.
Proof.
  revert l. induction fuel as [|fuel IH]; intros l Hl.
  { destruct l; [|cbn in Hl; lia]. cbn. split; [done|]. split; [constructor|lia]. }
  destruct l as [|x l]; [cbn; split; [done|]; split; [constructor|lia]|].
  cbn [chunks_fuel concat length]. fold (chunks_fuel (A := A) n).
  assert (length (drop n (x :: l)) ≤ fuel)%nat as Hd by (rewrite length_drop; cbn in *; lia).
  destruct (IH _ Hd) as (Hc & Hf & Hn). split; [by rewrite Hc, take_drop|]. split.
  - constructor; [|done]. split; [destruct n; [lia|done]|]. rewrite length_take. lia.
  - rewrite length_drop in Hn. cbn [length] in *. destruct (Nat.le_gt_cases n (S (length l))); [nia|].
    rewrite drop_ge by (cbn; lia). destruct fuel; cbn; lia.
Qed.

Lemma chunks_concat (l : list A) : concat (chunks n l) = l.
Proof. by apply chunks_fuel_spec. Qed.

Lemma chunks_bounds (l : list A) : Forall (λ c, c ≠ [] ∧ (length c ≤ n)%nat) (chunks n l).
Proof. by apply chunks_fuel_spec. Qed.

Lemma length_chunks (l : list A) : (n * length (chunks n l) < length l + n)%nat.
Proof. by apply chunks_fuel_spec. Qed.

End chunks.

(** ** Event filters *)

(** [event_filters] accepts up to 25 contracts and then loses none and keeps
    their order: at most five filters of at most five contracts each, none of
    them empty unless nothing is watched (an empty filter would match every
    contract).  More than 25 are refused with their number. *)
Theorem event_filters_partition contract_ids :
  match event_filters contract_ids with
  | Err e => e = TooManyContractIds (length contract_ids) ∧ (25 < length contract_ids)%nat
  | Ok filters =>
      (length contract_ids ≤ 25)%nat
      ∧ concat (f_contract_ids <$> filters) = contract_ids
      ∧ (1 ≤ length filters ≤ MAX_FILTERS)%nat
      ∧ Forall (λ f, filter_type f = "contract" ∧ (length (f_contract_ids f) ≤ MAX_IDS_PER_FILTER)%nat
                     ∧ (f_contract_ids f = [] → contract_ids = [])) filters
  end.
Proof.
  unfold event_filters. change (MAX_IDS_PER_FILTER * MAX_FILTERS)%nat with 25%nat.
  destruct (Nat.ltb_spec 25 (length contract_ids)) as [Hgt|Hle]; [done|].
  destruct contract_ids as [|c ids].
  { split; [done|]. split; [done|]. split; [unfold MAX_FILTERS; cbn; lia|].
    constructor; [|constructor]. split; [done|]. by split; [cbn; lia|]. }
  set (l := c :: ids) in *. unfold MAX_IDS_PER_FILTER in *.
  pose proof (length_chunks 5 ltac:(lia) l) as Hn. pose proof (chunks_bounds 5 ltac:(lia) l) as Hb.
  pose proof (chunks_concat 5 ltac:(lia) l) as Hc.
  split; [done|]. split; [|split].
  - rewrite <-list_fmap_compose. rewrite <-Hc at 2. f_equal. apply list_fmap_id.
  - rewrite length_fmap. unfold MAX_FILTERS. split; [|lia].
    destruct (chunks 5 l); [done|cbn; lia].
  - rewrite Forall_fmap. eapply Forall_impl; [exact Hb|]. intros f [Hf Hlen].
    split; [done|]. by split.
Qed.

(** ** Batches *)

Section batches.
Context `{Stellar} `{LedgerXdr}.

(** The index map: the last of equal keys. *)
Lemma key_to_idx_lookup keys k i :
  key_to_idx keys !! k = Some i ↔ keys !! i = Some k ∧ ∀ j, (i < j)%nat → keys !! j ≠ Some k.
Proof.
  unfold key_to_idx. induction keys as [|x keys IH] using rev_ind; [cbn; split; [done|by intros [? _]]|].
  unfold enumerate in *. rewrite imap_app, foldl_app. cbn [imap foldl]. rewrite Nat.add_0_r.
  destruct (decide (x = k)) as [->|Hne].
  - rewrite lookup_insert_eq. split.
    + intros [= <-]. split; [by apply list_lookup_middle|]. intros j Hj.
      rewrite lookup_ge_None_2; [done|]. rewrite length_app. cbn. lia.
    + intros [Hi Hlast]. f_equal. destruct (decide (i = length keys)) as [->|Hi']; [done|].
      assert (i < length keys)%nat as Hlt.
      { apply lookup_lt_Some in Hi. rewrite length_app in Hi. cbn in Hi. lia. }
      exfalso. apply (Hlast (length keys)); [done|]. by apply list_lookup_middle.
  - rewrite lookup_insert_ne by done. rewrite IH. split.
    + intros [Hi Hlast]. split; [by apply lookup_app_l_Some|]. intros j Hj Hk.
      apply lookup_app_Some in Hk as [Hk|[_ Hk]]; [by eapply Hlast|].
      apply list_lookup_singleton_Some in Hk as [_ ->]. done.
    + intros [Hi Hlast]. split.
      * apply lookup_app_Some in Hi as [Hi|[_ Hi]]; [done|].
        by apply list_lookup_singleton_Some in Hi as [_ ->].
      * intros j Hj Hk. apply (Hlast j Hj). by apply lookup_app_l_Some.
Qed.

Lemma position_eqb keys k i :
  position (String.eqb k) keys = Some i ↔ keys !! i = Some k ∧ ∀ j, (j < i)%nat → keys !! j ≠ Some k.
Proof.
  revert i. induction keys as [|x keys IH]; intros i; cbn [position]; [split; [done|by intros [? _]]|].
  destruct (String.eqb_spec k x) as [->|Hne].
  - split.
    + intros [= <-]. split; [done|]. lia.
    + intros [Hi Hf]. destruct i as [|i]; [done|]. exfalso. by apply (Hf 0%nat); [lia|].
  - rewrite fmap_Some. split.
    + intros (i' & Hp & ->). apply IH in Hp as [Hi Hf]. split; [done|]. intros [|j] Hj; [cbn; congruence|].
      apply Hf. lia.
    + intros [Hi Hf]. destruct i as [|i]; [cbn in Hi; congruence|]. exists i. split; [|done]. apply IH.
      split; [done|]. intros j Hj. apply (Hf (S j)). lia.
Qed.

(** What an item of the answer carries for the key of a data batch. *)
Definition carries (item : LedgerEntryItem) (contract : ScAddress) (key : ScVal) (durability : Durability)
    (e : DataEntry) : Prop :=
  entry_from_xdr_base64 (xdr item) = Some (EntryContractData contract key durability (de_val e))
  ∧ de_last_modified e = last_modified_ledger_seq item.

(** The entry an item puts at position [i]. *)
Definition data_hit (idx : gmap string nat) (i : nat) (item : LedgerEntryItem) : option DataEntry :=
  match entry_from_xdr_base64 (xdr item) with
  | Some (EntryContractData contract key durability val) =>
      match (k ← key_to_xdr_base64 (KeyContractData contract key durability); idx !! k) with
      | Some j => if decide (j = i)
                  then Some {| de_val := val; de_last_modified := last_modified_ledger_seq item |} else None
      | None => None
      end
  | _ => None
  end.

Lemma place_data_spec idx output item output' i :
  place_data idx output item = Ok output' →
  length output' = length output
  ∧ output' !! i = match data_hit idx i item with
                   | Some e => if decide (i < length output)%nat then Some (Some e) else None
                   | None => output !! i
                   end.
Proof.
  unfold place_data, data_hit, ok_or, mbind, result_bind.
  destruct (entry_from_xdr_base64 _) as [[contract key durability val|h c|]|]; [|by intros [= <-]..|done].
  intros [= <-]. unfold option_bind. destruct (key_to_xdr_base64 _) as [k|]; [|done].
  destruct (idx !! k) as [j|]; [|done]. rewrite length_insert. split; [done|].
  destruct (decide (j = i)) as [->|Hne]; [|by apply list_lookup_insert_ne].
  destruct (decide (i < length output)%nat); [by apply list_lookup_insert_eq|].
  apply lookup_ge_None_2. rewrite length_insert. lia.
Qed.

Lemma place_all_spec idx items output output' i :
  place_all idx output items = Ok output' → (i < length output)%nat →
  length output' = length output
  ∧ output' !! i = match last (omap (data_hit idx i) items) with
                   | Some e => Some (Some e)
                   | None => output !! i
                   end.
Proof.
  revert output. induction items as [|item items IH]; intros output; cbn [place_all].
  { by intros [= <-]. }
  unfold mbind, result_bind. destruct (place_data idx output item) as [out1|] eqn:E; [|done].
  intros Hp Hi. destruct (place_data_spec _ _ _ _ i E) as [Hlen Hl].
  destruct (IH _ Hp ltac:(lia)) as [Hlen' Hl']. split; [lia|]. rewrite Hl', Hl.
  cbn [omap list_omap]. destruct (data_hit idx i item) as [e|]; [|done]. rewrite decide_True by done.
  fold (omap (M := list) (data_hit idx i) items).
  destruct (omap (M := list) (data_hit idx i) items) as [|e' es] eqn:Eo; [done|].
  change (last (e :: e' :: es)) with (last (e' :: es)).
  destruct (last (e' :: es)) eqn:El; [done|]. by apply last_None in El.
Qed.

Lemma data_hit_carries idx i item e :
  data_hit idx i item = Some e →
  ∃ contract key durability k, carries item contract key durability e
    ∧ key_to_xdr_base64 (KeyContractData contract key durability) = Some k ∧ idx !! k = Some i.
Proof.
  unfold data_hit, carries. destruct (entry_from_xdr_base64 _) as [[contract key durability val|h c|]|]; try done.
  unfold mbind, option_bind. destruct (key_to_xdr_base64 _) as [k|] eqn:Ek; [|done].
  destruct (idx !! k) as [j|] eqn:Ej; [|done]. case_decide; [|done]. intros [= <-]. subst.
  by exists contract, key, durability, k.
Qed.

Lemma encode_keys_lookup keys key_b64s i contract_id key durability :
  collect_r (λ '(contract_id, key, durability), encode_key contract_id key durability) keys = Ok key_b64s →
  keys !! i = Some (contract_id, key, durability) →
  ∃ addr k, sc_address_from_str contract_id = Some addr ∧ key_b64s !! i = Some k
    ∧ key_to_xdr_base64 (KeyContractData addr key durability) = Some k.
Proof.
  intros Hc Hi. apply collect_r_Ok in Hc.
  destruct (Forall2_lookup_l _ _ _ _ _ Hc Hi) as (k & Hk & He). cbn in He.
  unfold encode_key, contract_address, ok_or, mbind, result_bind in He.
  destruct (sc_address_from_str contract_id) as [addr|] eqn:Ea; [|done].
  destruct (key_to_xdr_base64 _) as [k'|] eqn:Ek; [|done]. injection He as ->. eauto.
Qed.

Lemma encode_keys_error keys e :
  collect_r (λ '(contract_id, key, durability), encode_key contract_id key durability) keys = Err e →
  ∃ contract_id key durability, (contract_id, key, durability) ∈ keys
    ∧ encode_key contract_id key durability = Err e.
Proof.
  induction keys as [|[[c k] d] keys IH]; cbn [collect_r]; [done|].
  destruct (encode_key c k d) eqn:E.
  - destruct (collect_r _ keys); [done|]. intros He. destruct (IH He) as (c' & k' & d' & Hin & He').
    exists c', k', d'. split; [by apply elem_of_cons; right|done].
  - intros [= <-]. exists c, k, d. split; [apply list_elem_of_here|done].
Qed.

Lemma place_all_error idx items output e :
  place_all idx output items = Err e →
  e = DecodeLedgerEntry ∧ ∃ item, item ∈ items ∧ entry_from_xdr_base64 (xdr item) = None.
Proof.
  revert output. induction items as [|item items IH]; intros output; cbn [place_all]; [done|].
  unfold mbind, result_bind. destruct (place_data idx output item) as [out1|e'] eqn:E.
  - intros He. destruct (IH _ He) as (-> & it & Hin & Hn). split; [done|].
    exists it. split; [by apply elem_of_cons; right|done].
  - intros [= <-]. unfold place_data, ok_or, mbind, result_bind in E.
    destruct (entry_from_xdr_base64 (xdr item)) eqn:Ed; [done|]. injection E as <-. split; [done|].
    exists item. split; [apply list_elem_of_here|done].
Qed.

Section reads.
Context `{Http} (urls : list string) `{!Deserialize NetworkResult} `{!Deserialize LedgerEntriesResult}.

(** [o] is what the answer holds for a key: an item that carries the key, and
    [None] only if no item does; the latter for the last of equal keys. *)
Definition answers (items : list LedgerEntryItem) (contract : ScAddress) (key : ScVal) (durability : Durability)
    (is_last : Prop) (o : option DataEntry) : Prop :=
  match o with
  | Some e => ∃ item, item ∈ items ∧ carries item contract key durability e
  | None => is_last → ∀ item e, item ∈ items → ¬ carries item contract key durability e
  end.

Lemma data_batch_core keys key_b64s items output :
  collect_r (λ '(contract_id, key, durability), encode_key contract_id key durability) keys = Ok key_b64s →
  place_all (key_to_idx key_b64s) (replicate (length keys) None) items = Ok output →
  (keys ≠ [] → length output = length keys)
  ∧ ∀ i contract_id key durability, keys !! i = Some (contract_id, key, durability) →
      ∃ addr o, sc_address_from_str contract_id = Some addr ∧ output !! i = Some o
      ∧ answers items addr key durability
          (∀ j contract_id', (i < j)%nat → keys !! j = Some (contract_id', key, durability) →
             sc_address_from_str contract_id' ≠ Some addr) o.
Proof.
  intros Hkeys Hp.
  assert (∀ i, (i < length keys)%nat → length output = length keys ∧ output !! i
    = Some (last (omap (data_hit (key_to_idx key_b64s) i) items))) as Hout.
  { intros i Hi. destruct (place_all_spec _ _ _ _ i Hp) as [Hlen Hl]; [by rewrite length_replicate|].
    rewrite length_replicate in Hlen. split; [done|]. rewrite Hl. destruct (last _); [done|].
    by apply lookup_replicate. }
  split; [intros Hne; apply (Hout 0%nat); destruct keys; [done|cbn; lia]|].
  intros i cid key dur Hi. destruct (Hout i (lookup_lt_Some _ _ _ Hi)) as [_ Ho].
  destruct (encode_keys_lookup _ _ _ _ _ _ Hkeys Hi) as (addr & k & Ha & Hk & Hx).
  eexists addr, _. split; [done|]. split; [exact Ho|].
  destruct (last _) as [e|] eqn:Hlast; cbn [answers].
  - apply last_Some_elem_of in Hlast. apply list_elem_of_omap in Hlast as (item & Hin & Hh).
    exists item. split; [done|]. apply data_hit_carries in Hh as (c' & key' & d' & k' & Hc & Hx' & Hidx).
    apply key_to_idx_lookup in Hidx as [Hk' _]. assert (k' = k) as -> by congruence.
    by injection (key_to_xdr_base64_inj _ _ _ Hx Hx') as <- <- <-.
  - intros Huniq item e Hin [Hc Hm]. apply last_None in Hlast.
    assert (key_to_idx key_b64s !! k = Some i) as Hidx.
    { apply key_to_idx_lookup. split; [done|]. intros j Hj Hk'.
      assert (j < length keys)%nat as Hjl.
      { apply lookup_lt_Some in Hk'. apply collect_r_Ok in Hkeys. by rewrite (Forall2_length _ _ _ Hkeys). }
      destruct (lookup_lt_is_Some_2 _ _ Hjl) as [[[cid' key'] dur'] Hj'].
      destruct (encode_keys_lookup _ _ _ _ _ _ Hkeys Hj') as (addr' & k' & Ha' & Hk'' & Hx').
      assert (k' = k) as -> by congruence.
      injection (key_to_xdr_base64_inj _ _ _ Hx Hx') as <- <- <-. by eapply Huniq. }
    assert (data_hit (key_to_idx key_b64s) i item = Some e) as Hh.
    { unfold data_hit. rewrite Hc. unfold mbind, option_bind. rewrite Hx, Hidx, decide_True by done.
      by destruct e as [v l]; cbn in *; subst. }
    assert (e ∈ omap (M := list) (data_hit (key_to_idx key_b64s) i) items) as He
      by (apply list_elem_of_omap; eauto).
    rewrite Hlast in He. by apply not_elem_of_nil in He.
Qed.

Lemma data_batch_eq keys w :
  keys ≠ [] →
  get_contract_data_batch urls keys w
  = match collect_r (λ '(contract_id, key, durability), encode_key contract_id key durability) keys with
    | Err e => (Err e, w)
    | Ok key_b64s =>
        match call (A := LedgerEntriesResult) urls "getLedgerEntries" (KeyParams key_b64s) w with
        | (Ok answer, w') => (place_all (key_to_idx key_b64s) (replicate (length keys) None)
                                (default [] (le_entries answer)), w')
        | (Err e, w') => (Err e, w')
        end
    end.
Proof.
  intros Hne. destruct keys as [|k keys]; [done|]. unfold get_contract_data_batch, mbind, R_bind, lift_r.
  by destruct (collect_r _ (k :: keys)).
Qed.

(** A batch read answers position by position: each result is an entry the
    endpoint sent for exactly that contract, key and durability, and a key is
    reported absent only if the answer has no entry for it, unless the same key
    is asked for again further on.  An error is a key that cannot be encoded,
    the error of the call, or an entry that does not decode. *)
Theorem data_batch_aligned keys w :
  let '(r, w') := get_contract_data_batch urls keys w in
  match r with
  | Ok output =>
      length output = length keys
      ∧ (keys ≠ [] → ∃ key_b64s answer,
          call urls "getLedgerEntries" (KeyParams key_b64s) w = (Ok answer, w')
          ∧ ∀ i contract_id key durability, keys !! i = Some (contract_id, key, durability) →
              ∃ addr o, sc_address_from_str contract_id = Some addr ∧ output !! i = Some o
              ∧ answers (default [] (le_entries answer)) addr key durability
                  (∀ j contract_id', (i < j)%nat → keys !! j = Some (contract_id', key, durability) →
                     sc_address_from_str contract_id' ≠ Some addr) o)
  | Err e =>
      (w' = w ∧ ∃ contract_id key durability, (contract_id, key, durability) ∈ keys
         ∧ encode_key contract_id key durability = Err e)
      ∨ (∃ key_b64s, call (A := LedgerEntriesResult) urls "getLedgerEntries" (KeyParams key_b64s) w = (Err e, w'))
      ∨ (e = DecodeLedgerEntry ∧ ∃ key_b64s answer item,
           call urls "getLedgerEntries" (KeyParams key_b64s) w = (Ok answer, w')
           ∧ item ∈ default [] (le_entries answer) ∧ entry_from_xdr_base64 (xdr item) = None)
  end.
Proof.
  unfold get_contract_data_batch. destruct keys as [|k0 keys0]; [done|].
  set (keys := k0 :: keys0) in *. unfold mbind, R_bind, lift_r.
  destruct (collect_r _ keys) as [key_b64s|e] eqn:Hkeys; [|left; split; [done|by apply encode_keys_error]].
  destruct (call _ _ _ w) as [[answer|e] w'] eqn:Hcall; [|by right; left; exists key_b64s].
  destruct (place_all _ _ _) as [output|e] eqn:Hp.
  2: { right; right. apply place_all_error in Hp as (-> & item & Hin & Hd). split; [done|].
       by exists key_b64s, answer, item. }
  destruct (data_batch_core _ _ _ _ Hkeys Hp) as [Hlen Hall]. split; [by apply Hlen|].
  intros _. by exists key_b64s, answer.
Qed.

(** An item carries the instance of a contract. *)
Definition carries_instance (item : LedgerEntryItem) (contract : ScAddress) (e : InstanceEntry) : Prop :=
  ∃ executable storage,
    entry_from_xdr_base64 (xdr item)
      = Some (EntryContractData contract ScvLedgerKeyContractInstance Persistent
                (ScvContractInstance executable storage))
    ∧ e = {| ie_wasm_hash := executable_hash executable; ie_storage := ScvMap storage;
             ie_last_modified := last_modified_ledger_seq item |}.

Lemma place_instance_sound keys items output i e :
  foldl (place_instance keys) output items !! i = Some (Some e) →
  output !! i = Some (Some e)
  ∨ ∃ item contract key durability executable storage k, item ∈ items
      ∧ entry_from_xdr_base64 (xdr item)
        = Some (EntryContractData contract key durability (ScvContractInstance executable storage))
      ∧ key_to_xdr_base64 (KeyContractData contract key durability) = Some k ∧ keys !! i = Some k
      ∧ e = {| ie_wasm_hash := executable_hash executable; ie_storage := ScvMap storage;
               ie_last_modified := last_modified_ledger_seq item |}.
Proof.
  revert output. induction items as [|item items IH]; intros output; cbn [foldl]; [by left|].
  intros Hl. destruct (IH _ Hl) as [Ho|(it & c & k & d & ex & st & kk & Hin & Hrest)].
  2: { right. exists it, c, k, d, ex, st, kk. split; [by apply elem_of_cons; right|done]. }
  unfold place_instance in Ho.
  destruct (entry_from_xdr_base64 (xdr item)) as [[c k d v| |]|] eqn:Ed; try (by left).
  destruct v as [| | | | | | | | | | | | | | | | | | | | |ex st]; try (by left).
  destruct (key_to_xdr_base64 _) as [kk|] eqn:Ek; [|by left].
  destruct (position _ keys) as [j|] eqn:Ej; [|by left].
  apply position_eqb in Ej as [Hj _].
  apply list_lookup_insert_Some in Ho as [(-> & [= <-] & _)|(_ & Ho)]; [|by left].
  right. exists item, c, k, d, ex, st, kk. split_and!; try done. apply list_elem_of_here.
Qed.

Lemma length_place_instance keys items output :
  length (foldl (place_instance keys) output items) = length output.
Proof.
  revert output. induction items as [|item items IH]; intros output; cbn [foldl]; [done|].
  rewrite IH. unfold place_instance. repeat case_match; try done. by rewrite length_insert.
Qed.

(** The instances batch attributes an entry only to the contract it belongs to:
    position [i] holds an instance only if the endpoint sent one for the [i]th
    contract. *)
Theorem instances_batch_aligned contract_ids w :
  let '(r, w') := get_contract_instances_batch urls contract_ids w in
  ∀ output, r = Ok output →
    length output = length contract_ids
    ∧ ∀ i e, output !! i = Some (Some e) →
        ∃ keys answer contract_id addr item,
          call urls "getLedgerEntries" (KeyParams keys) w = (Ok answer, w')
          ∧ contract_ids !! i = Some contract_id ∧ sc_address_from_str contract_id = Some addr
          ∧ item ∈ default [] (le_entries answer) ∧ carries_instance item addr e.
Proof.
  unfold get_contract_instances_batch. destruct contract_ids as [|c0 ids].
  { intros output [= <-]. split; [done|]. intros i e Hi. done. }
  set (contract_ids := c0 :: ids) in *. unfold mbind, R_bind, lift_r.
  destruct (collect_r _ contract_ids) as [keys|e] eqn:Hkeys; [|done].
  destruct (call _ _ _ w) as [[answer|e] w'] eqn:Hcall; [|done].
  intros output [= <-]. change (None :: replicate (length ids) None) with (replicate (length contract_ids) (@None InstanceEntry)).
  split; [rewrite length_place_instance; apply length_replicate|].
  intros i e Hi. apply place_instance_sound in Hi as [Hi|Hi].
  { apply lookup_replicate in Hi as [[=] _]. }
  destruct Hi as (item & c & k & d & ex & st & kk & Hin & Hd & Hk & Hki & ->).
  apply collect_r_Ok in Hkeys. destruct (Forall2_lookup_r _ _ _ _ _ Hkeys Hki) as (cid & Hc & He).
  unfold encode_key, contract_address, ok_or, mbind, result_bind in He.
  destruct (sc_address_from_str cid) as [addr|] eqn:Ea; [|done].
  destruct (key_to_xdr_base64 (KeyContractData addr _ _)) as [k'|] eqn:Ek; [|done]. injection He as ->.
  injection (key_to_xdr_base64_inj _ _ _ Hk Ek) as -> -> ->.
  exists keys, answer, cid, addr, item. split_and!; try done. by exists ex, st.
Qed.

(** [get_contract_wasm] reads the code an instance names: a result is the code
    entry fetched by the hash in the contract's instance entry, under that
    hash. *)
Theorem wasm_of_instance contract_id w :
  let '(r, w') := get_contract_wasm urls contract_id w in
  ∀ hash_hex wasm, r = Ok (Some (hash_hex, wasm)) →
    ∃ addr wasm_hash w1 c k d storage l h' l',
      sc_address_from_str contract_id = Some addr
      ∧ get_ledger_entry urls (instance_key addr) w
        = (Ok (Some (EntryContractData c k d (ScvContractInstance (ExecWasm wasm_hash) storage), l)), w1)
      ∧ get_ledger_entry urls (KeyContractCode wasm_hash) w1 = (Ok (Some (EntryContractCode h' wasm, l')), w')
      ∧ hash_hex = hex_string wasm_hash.
Proof.
  unfold get_contract_wasm, mbind, R_bind, lift_r, contract_address.
  destruct (sc_address_from_str contract_id) as [addr|] eqn:Ea; [|done]. cbn [ok_or].
  destruct (get_ledger_entry urls (instance_key addr) w) as [[[[data l]|]|e] w1] eqn:E1; [|done..].
  destruct data as [c k d v| |]; [|done..].
  destruct v as [| | | | | | | | | | | | | | | | | | | | |[wasm_hash|] storage]; try done.
  destruct (get_ledger_entry urls (KeyContractCode wasm_hash) w1) as [[[[data' l']|]|e] w2] eqn:E2; [|done..].
  destruct data' as [|h' code|]; [done| |done]. intros hash_hex wasm [= <- <-].
  by exists addr, wasm_hash, w1, c, k, d, storage, l, h', l'.
Qed.

End reads.

End batches.

(** ** A concrete encoding of keys *)

Definition durability_tag (d : Durability) : nat := match d with Persistent => 0 | Temporary => 1 end.

Definition enc_key (k : LedgerKey) : gen_tree (Z + list ascii) :=
  match k with
  | KeyContractData c key d => GenNode (durability_tag d) [enc_address c; enc_scval key]
  | KeyContractCode h => GenNode 2 [GenLeaf (inr h)]
  end.

Lemma enc_key_inj k k' : enc_key k = enc_key k' → k = k'.
Proof.
  destruct k as [c key d|h], k' as [c' key' d'|h']; cbn; intros Heq.
  - injection Heq as Hd ->%enc_address_inj ->%enc_scval_inj. by destruct d, d'.
  - by destruct d.
  - by destruct d'.
  - by injection Heq as ->.
Qed.

(** The bits of a positive, as text. *)
Fixpoint pos_text (p : positive) : string :=
  match p with
  | xH => ""
  | xO p => String "0" (pos_text p)
  | xI p => String "1" (pos_text p)
  end.

Lemma pos_text_inj p q : pos_text p = pos_text q → p = q.
Proof. revert q. induction p as [p IH|p IH|]; intros [q|q|]; cbn; intros [=]; f_equal; auto. Qed.

Definition sample_key_text (k : LedgerKey) : string := pos_text (encode (enc_key k)).

Lemma sample_key_inj k k' s :
  Some (sample_key_text k) = Some s → Some (sample_key_text k') = Some s → k = k'.
Proof. intros [= Hk] [= <-]. by apply pos_text_inj, (inj encode), enc_key_inj in Hk. Qed.

(** Entries are read from a given table. *)
Definition sample_xdr (table : string → option LedgerEntryData) : LedgerXdr := {|
  key_to_xdr_base64 k := Some (sample_key_text k);
  entry_from_xdr_base64 := table;
  key_to_xdr_base64_inj := sample_key_inj;
|}.
