(* ===== verification/StateIndex.v ===== *)
(** * StateIndex: snapshots of contract state ([lumenqraph-indexer/src/state.rs])

    The indexer reads the instance entries of contracts and the data entries
    its events name, through the batch reads of [RpcClient], and appends a row
    to [contract_state] or [contract_data] when an entry has changed since the
    last one.  The upgrade watch of [History] runs on the way.  The statements
    fail as the environment decides, by a tick of their own; the constraints of
    the two tables are those of the migrations. *)
From S2P Require Import Prelude Text Containers Values Instances XdrDecode Lru Wasm Spec Crypto Convert Poller History RpcClient LedgerReads RpcFailover.
From Stdlib Require Import Ascii.

Local Open Scope string_scope.
Local Open Scope Z_scope.

(** ** The tables *)

(** A row of [contract_state]. *)
Record SnapshotRow := { sn_contract_id : string; sn_ledger : Z; sn_storage : Json }.

(** A row of [contract_data]. *)
Record ContractDataRow := {
  kr_contract_id : string;
  kr_key_hash : string;
  kr_key : Json;
  kr_key_xdr : string;
  kr_durability : string;
  kr_ledger : Z;
  kr_value : Json;
  kr_label : option string;
}.

Inductive StateError : Type :=
  | FromRpc (e : CallError)
  | StatementFailed
  | UniqueViolation
  | KeyEncoding.

(** [jsonb]'s equality, and [to_xdr_base64(Limits::none())] of a value. *)
Class StateLib := {
  jsonb_eq : Json → Json → bool;
  scval_to_xdr_base64 : ScVal → option string;
  jsonb_eq_refl v : jsonb_eq v v = true;
}.

(** [SELECT max(ledger)] of the selected ledgers. *)
Definition max_ledger (l : list Z) : option Z :=
  foldr (λ z best, Some (match best with Some b => Z.max z b | None => z end)) None l.

Definition state_ledgers (contract_id : string) (rows : list SnapshotRow) : list Z :=
  sn_ledger <$> filter (λ r, sn_contract_id r = contract_id) rows.

Definition key_ledgers (contract_id key_hash : string) (rows : list ContractDataRow) : list Z :=
  kr_ledger <$> filter (λ r, kr_contract_id r = contract_id ∧ kr_key_hash r = key_hash) rows.

(** [INSERT .. ON CONFLICT (contract_id, ledger) DO NOTHING], the primary key. *)
Definition insert_state (r : SnapshotRow) (rows : list SnapshotRow) : list SnapshotRow :=
  if existsb (λ r', String.eqb (sn_contract_id r') (sn_contract_id r) && (sn_ledger r' =? sn_ledger r)) rows
  then rows else rows ++ [r].

Section tables.
Context `{StateLib}.

(** [UNIQUE (contract_id, key)], migration 0037. *)
Definition same_key (r r' : ContractDataRow) : bool :=
  String.eqb (kr_contract_id r) (kr_contract_id r') && jsonb_eq (kr_key r) (kr_key r').

(** [INSERT .. ON CONFLICT (contract_id, key_hash, ledger) DO NOTHING]: the
    primary key is the arbiter; the other constraints still hold. *)
Definition insert_key (r : ContractDataRow) (rows : list ContractDataRow) : result StateError (list ContractDataRow) :=
  if existsb (λ r', String.eqb (kr_contract_id r') (kr_contract_id r)
                    && String.eqb (kr_key_hash r') (kr_key_hash r) && (kr_ledger r' =? kr_ledger r)) rows
  then Ok rows
  else if existsb (λ r', same_key r' r) rows then Err UniqueViolation
  else Ok (rows ++ [r])%list.

End tables.

(** ** The system *)

Section state.
Context `{Stellar} `{CryptoLib} `{!LruCache string Cached} `{StateLib} `{LedgerXdr} `{Http}.
Context (urls : list string) `{!Deserialize NetworkResult} `{!Deserialize LedgerEntriesResult}.
Context (read_xdr_iter : Z → Z → list ascii → list (result string ScSpecEntry)).
(** Which statement fails, and what a load meets apart from the RPC's answer. *)
Context (sql_fails : nat → bool) (load_env : nat → LoadEnv).

Record Sys := {
  net : Net;
  state_rows : list SnapshotRow;
  key_rows : list ContractDataRow;
  specs : SpecCache;
  spec_tables : SpecTables;
  sql_ticks : nat;
}.

Definition S (A : Type) : Type := Sys → result StateError A * Sys.

#[export] Instance S_ret : MRet S := λ A a s, (Ok a, s).
#[export] Instance S_bind : MBind S := λ A B f m s,
  match m s with (Ok a, s') => f a s' | (Err e, s') => (Err e, s') end.

Definition via_rpc {A} (m : R A) : S A := λ s,
  let '(r, n) := m (net s) in
  (map_err FromRpc r,
   {| net := n; state_rows := state_rows s; key_rows := key_rows s; specs := specs s;
      spec_tables := spec_tables s; sql_ticks := sql_ticks s |}).

Definition lift_s {A} (r : result StateError A) : S A := λ s, (r, s).

(** A failure is logged and goes no further: [if let Err(e) = .. { warn!(..) }]. *)
Definition logged (m : S unit) : S unit := λ s, (Ok tt, (m s).2).

(** [match m.await { Ok(r) => .., Err(e) => { warn!(..); continue } }]. *)
Definition try_s {A} (m : S A) : S (option A) := λ s,
  match m s with (Ok a, s') => (Ok (Some a), s') | (Err _, s') => (Ok None, s') end.

(** A statement: it fails without effect, or runs. *)
Definition statement {A} (f : Sys → result StateError (A * Sys)) : S A := λ s,
  let s := {| net := net s; state_rows := state_rows s; key_rows := key_rows s; specs := specs s;
              spec_tables := spec_tables s; sql_ticks := Datatypes.S (sql_ticks s) |} in
  if sql_fails (sql_ticks s) then (Err StatementFailed, s)
  else match f s with Ok (a, s') => (Ok a, s') | Err e => (Err e, s) end.

Definition with_state_rows (rows : list SnapshotRow) (s : Sys) : Sys :=
  {| net := net s; state_rows := rows; key_rows := key_rows s; specs := specs s;
     spec_tables := spec_tables s; sql_ticks := sql_ticks s |}.
Definition with_key_rows (rows : list ContractDataRow) (s : Sys) : Sys :=
  {| net := net s; state_rows := state_rows s; key_rows := rows; specs := specs s;
     spec_tables := spec_tables s; sql_ticks := sql_ticks s |}.

(** [specs.note_wasm_hash(..)]: a cached contract whose hash has changed is
    loaded again, through [get_contract_wasm]. *)
Definition reloads (contract_id hash : string) (c : SpecCache) : bool :=
  match (lru_get contract_id (entries c)).1 with
  | Some e => negb (bool_decide (c_wasm_hash e = Some hash))
  | None => false
  end.

Definition note_hash (contract_id hash : string) (ledger : Z) : S unit := λ s,
  let '(answer, n) := get_contract_wasm urls contract_id (net s) in
  let env := load_env (sql_ticks s) in
  let '(c, t) := note_wasm_hash read_xdr_iter
                   {| wasm_answer := map_err (λ _, "rpc") answer; persist_ok := persist_ok env;
                      record_ok := record_ok env; now_before := now_before env; now_after := now_after env |}
                   contract_id hash ledger (specs s) (spec_tables s) in
  (Ok tt, {| net := if reloads contract_id hash (specs s) then n else net s; state_rows := state_rows s;
             key_rows := key_rows s; specs := c; spec_tables := t; sql_ticks := sql_ticks s |}).

(** ** Instance storage *)

(** From the instance to its row: the upgrade watch, the comparison with the
    newest row, the insert. *)
Definition record_instance (contract_id : string) (instance : InstanceEntry) : S unit :=
  _ ← match ie_wasm_hash instance with
      | Some hash => note_hash contract_id hash (ie_last_modified instance)
      | None => mret tt
      end;
  latest ← statement (λ s, Ok (max_ledger (state_ledgers contract_id (state_rows s)), s));
  if bool_decide (latest = Some (ie_last_modified instance)) then mret tt
  else
    statement (λ s, Ok (tt, with_state_rows
      (insert_state {| sn_contract_id := contract_id; sn_ledger := ie_last_modified instance;
                       sn_storage := decode_scval (ie_storage instance) |} (state_rows s)) s)).

Definition try_snapshot (contract_id : string) : S unit :=
  instance ← via_rpc (get_contract_instance urls contract_id);
  match instance with
  | None => mret tt
  | Some instance => record_instance contract_id instance
  end.

Definition snapshot (contract_id : string) : S unit := logged (try_snapshot contract_id).

(** [for (contract_id, instance_opt) in contract_ids.iter().zip(instances)]. *)
Fixpoint record_instances (pairs : list (string * option InstanceEntry)) : S unit :=
  match pairs with
  | [] => mret tt
  | (_, None) :: pairs' => record_instances pairs'
  | (contract_id, Some instance) :: pairs' =>
      _ ← record_instance contract_id instance; record_instances pairs'
  end.

Definition try_snapshot_instances_batch (contract_ids : list string) : S unit :=
  instances ← via_rpc (get_contract_instances_batch urls contract_ids);
  record_instances (zip contract_ids instances).

Definition MAX_BATCH_INSTANCES : nat := 50.

Fixpoint each_chunk {A} (f : list A → S unit) (l : list (list A)) : S unit :=
  match l with
  | [] => mret tt
  | chunk :: l' => _ ← logged (f chunk); each_chunk f l'
  end.

Definition snapshot_instances_batch (contract_ids : list string) : S unit :=
  match contract_ids with
  | [] => mret tt
  | _ => each_chunk try_snapshot_instances_batch (chunks MAX_BATCH_INSTANCES contract_ids)
  end.

(** ** Data entries *)

Definition durability_str (d : Durability) : string :=
  match d with Persistent => "persistent" | Temporary => "temporary" end.

(** The row of a snapshot. *)
Definition key_row (contract_id key_xdr : string) (key : ScVal) (durability : Durability)
    (label : option string) (entry : DataEntry) : ContractDataRow := {|
  kr_contract_id := contract_id;
  kr_key_hash := hex_encode (sha256 key_xdr);
  kr_key := decode_scval key;
  kr_key_xdr := key_xdr;
  kr_durability := durability_str durability;
  kr_ledger := de_last_modified entry;
  kr_value := decode_scval (de_val entry);
  kr_label := label |}.

Definition try_write_snapshot_data (contract_id : string) (key : ScVal) (durability : Durability)
    (label : option string) (entry : DataEntry) : S unit :=
  key_xdr ← lift_s (ok_or KeyEncoding (scval_to_xdr_base64 key));
  let row := key_row contract_id key_xdr key durability label entry in
  latest ← statement (λ s, Ok (max_ledger (key_ledgers contract_id (kr_key_hash row) (key_rows s)), s));
  if bool_decide (latest = Some (de_last_modified entry)) then mret tt
  else statement (λ s, rows ← insert_key row (key_rows s); Ok (tt, with_key_rows rows s)).

Definition try_snapshot_data (contract_id : string) (key : ScVal) (durability : Durability)
    (label : option string) : S unit :=
  entry ← via_rpc (get_contract_data urls contract_id key durability);
  match entry with
  | None => mret tt
  | Some entry => try_write_snapshot_data contract_id key durability label entry
  end.

Definition snapshot_data (contract_id : string) (key : ScVal) (durability : Durability)
    (label : option string) : S unit :=
  logged (try_snapshot_data contract_id key durability label).

(** An element of a batch. *)
Record BatchItem := {
  b_contract_id : string;
  b_key : ScVal;
  b_durability : Durability;
  b_label : option string;
}.

Definition rpc_key (b : BatchItem) : string * ScVal * Durability :=
  (b_contract_id b, b_key b, b_durability b).

Definition MAX_BATCH_KEYS : nat := 100.

(** [for (item, entry_opt) in chunk.iter().zip(results)]. *)
Fixpoint write_chunk (pairs : list (BatchItem * option DataEntry)) : S unit :=
  match pairs with
  | [] => mret tt
  | (_, None) :: pairs' => write_chunk pairs'
  | (b, Some entry) :: pairs' =>
      _ ← logged (try_write_snapshot_data (b_contract_id b) (b_key b) (b_durability b) (b_label b) entry);
      write_chunk pairs'
  end.

(** The loop over the chunks, the same in both batch functions. *)
Fixpoint write_chunks (l : list (list BatchItem)) : S unit :=
  match l with
  | [] => mret tt
  | chunk :: l' =>
      results ← try_s (via_rpc (get_contract_data_batch urls (rpc_key <$> chunk)));
      match results with
      | None => write_chunks l'
      | Some results => _ ← write_chunk (zip chunk results); write_chunks l'
      end
  end.

Definition write_batch (batch : list BatchItem) : S unit := write_chunks (chunks MAX_BATCH_KEYS batch).

(** Whether the filter lets a contract through. *)
Definition passes (contract_ids_filter : list string) (contract_id : string) : bool :=
  match contract_ids_filter with
  | [] => true
  | _ => existsb (String.eqb contract_id) contract_ids_filter
  end.

(** The keys of the holders, maps and sets in the order they are iterated. *)
Definition balance_batch (holders_by_contract : list (string * list string)) (contract_ids_filter : list string)
    (balance_key_symbol : string) (durability : Durability) : list BatchItem :=
  holders_by_contract ≫= λ '(contract_id, holders),
    if passes contract_ids_filter contract_id then
      omap (λ holder, match balance_key balance_key_symbol holder with
                      | Ok key => Some {| b_contract_id := contract_id; b_key := key;
                                          b_durability := durability; b_label := Some "balance" |}
                      | Err _ => None
                      end) holders
    else [].

Definition snapshot_balances_batch (holders_by_contract : list (string * list string))
    (contract_ids_filter : list string) (balance_key_symbol : string) (durability : Durability) : S unit :=
  write_batch (balance_batch holders_by_contract contract_ids_filter balance_key_symbol durability).

Definition template_batch (template_keys_by_contract : list (string * list (nat * list string)))
    (contract_ids_filter : list string) (templates : list KeyTemplate) : list BatchItem :=
  template_keys_by_contract ≫= λ '(contract_id, found),
    if passes contract_ids_filter contract_id then
      omap (λ '(template_idx, params),
              template ← templates !! template_idx;
              match build_key template params with
              | Ok key => Some {| b_contract_id := contract_id; b_key := key;
                                  b_durability := k_durability template; b_label := k_label template |}
              | Err _ => None
              end) found
    else [].

Definition snapshot_template_keys_batch (template_keys_by_contract : list (string * list (nat * list string)))
    (contract_ids_filter : list string) (templates : list KeyTemplate) : S unit :=
  write_batch (template_batch template_keys_by_contract contract_ids_filter templates).

(** ** What every operation keeps *)

(** At most one row per contract and ledger, and per contract and key. *)
Definition state_ok (rows : list SnapshotRow) : Prop := NoDup ((λ r, (sn_contract_id r, sn_ledger r)) <$> rows).

Definition key_ok (rows : list ContractDataRow) : Prop := ForallOrdPairs (λ r r', same_key r r' = false) rows.

Record kept (s s' : Sys) : Prop := {
  k_state : ∃ new, state_rows s' = (state_rows s ++ new)%list;
  k_state_ok : state_ok (state_rows s) → state_ok (state_rows s');
  k_keys : ∃ new, key_rows s' = (key_rows s ++ new)%list
           ∧ ∀ r r', r ∈ key_rows s → r' ∈ new → same_key r r' = false;
  k_key_ok : key_ok (key_rows s) → key_ok (key_rows s');
}.

#[export] Instance kept_preorder : PreOrder kept.
Proof.
  split.
  - intros s. split; [exists []; by rewrite app_nil_r|done| |done].
    exists []. rewrite app_nil_r. split; [done|]. by intros r r' _ ?%elem_of_nil.
  - intros s1 s2 s3 [[n1 E1] O1 (m1 & F1 & K1) P1] [[n2 E2] O2 (m2 & F2 & K2) P2]. split; [|auto| |auto].
    + exists (n1 ++ n2)%list. by rewrite E2, E1, app_assoc.
    + exists (m1 ++ m2)%list. split; [by rewrite F2, F1, app_assoc|]. intros r r' Hr [Hr'|Hr']%elem_of_app; [auto|].
      apply K2; [|done]. rewrite F1. by apply elem_of_app; left.
Qed.

Definition keeps_rows {A} (m : S A) : Prop := ∀ s, kept s (m s).2.

(** The tables are as before. *)
Lemma kept_same s s' : state_rows s' = state_rows s → key_rows s' = key_rows s → kept s s'.
Proof.
  intros Hs Hk. split; rewrite ?Hs, ?Hk; try done; [exists []; by rewrite app_nil_r|].
  exists []. rewrite app_nil_r. split; [done|]. by intros r r' _ ?%elem_of_nil.
Qed.

Lemma keeps_rows_ret {A} (a : A) : keeps_rows (mret a).
Proof. intros s. reflexivity. Qed.

Lemma keeps_rows_bind {A B} (m : S A) (f : A → S B) :
  keeps_rows m → (∀ a, keeps_rows (f a)) → keeps_rows (m ≫= f).
Proof.
  intros Hm Hf s. unfold mbind, S_bind. specialize (Hm s). destruct (m s) as [[a|e] s']; [|done].
  etrans; [exact Hm|apply Hf].
Qed.

Lemma keeps_rows_logged m : keeps_rows m → keeps_rows (logged m).
Proof. intros Hm s. apply Hm. Qed.

Lemma keeps_rows_try {A} (m : S A) : keeps_rows m → keeps_rows (try_s m).
Proof. intros Hm s. unfold try_s. specialize (Hm s). by destruct (m s) as [[a|e] s']. Qed.

Lemma keeps_rows_lift {A} (r : result StateError A) : keeps_rows (lift_s r).
Proof. intros s. reflexivity. Qed.

Lemma keeps_rows_rpc {A} (m : R A) : keeps_rows (via_rpc m).
Proof. intros s. unfold via_rpc. destruct (m (net s)) as [r n]. by apply kept_same. Qed.

Lemma keeps_rows_note c h l : keeps_rows (note_hash c h l).
Proof.
  intros s. unfold note_hash. destruct (get_contract_wasm urls c (net s)) as [answer n].
  destruct (note_wasm_hash _ _ _ _ _ _ _) as [c' t]. by apply kept_same.
Qed.

Lemma keeps_rows_statement {A} (f : Sys → result StateError (A * Sys)) :
  (∀ s a s', f s = Ok (a, s') → kept s s') → keeps_rows (statement f).
Proof.
  intros Hf s. unfold statement. set (s1 := {| net := _ |}).
  assert (kept s s1) as H01 by (by apply kept_same).
  destruct (sql_fails _); [done|]. destruct (f s1) as [[a s2]|e] eqn:E; [|done].
  etrans; [exact H01|]. cbn. by eapply Hf.
Qed.

Lemma insert_state_kept r s : kept s (with_state_rows (insert_state r (state_rows s)) s).
Proof.
  unfold insert_state. destruct (existsb _ (state_rows s)) eqn:E; [by apply kept_same|].
  split; cbn; [eauto| |exists []; rewrite app_nil_r; split; [done|by intros ? ? _ ?%elem_of_nil]|done].
  intros Hok. unfold state_ok. rewrite fmap_app. apply NoDup_app. split; [done|]. split; [|apply NoDup_singleton].
  intros p Hin [->|?%elem_of_nil]%elem_of_cons; [|done].
  apply list_elem_of_fmap in Hin as (r' & [= Hc Hl] & Hr').
  assert (existsb (λ r', String.eqb (sn_contract_id r') (sn_contract_id r) && (sn_ledger r' =? sn_ledger r))
    (state_rows s) = true) as Ht; [|congruence].
  apply existsb_exists. exists r'. split; [by apply list_elem_of_In|]. by rewrite <-Hc, <-Hl, String.eqb_refl, Z.eqb_refl.
Qed.

Lemma ordpairs_snoc {A} (P : A → A → Prop) l x :
  ForallOrdPairs P l → Forall (λ y, P y x) l → ForallOrdPairs P (l ++ [x]).
Proof.
  induction 1 as [|y l Hy _ IH]; intros Hx; cbn [app]; [constructor; constructor|].
  apply Forall_cons in Hx as [Hyx Hx]. constructor; [|by apply IH].
  apply Forall_app. split; [done|]. by constructor.
Qed.

Lemma insert_key_kept r s rows :
  insert_key r (key_rows s) = Ok rows → kept s (with_key_rows rows s).
Proof.
  unfold insert_key. destruct (existsb _ (key_rows s)); [intros [= <-]; by apply kept_same|].
  destruct (existsb (λ r', same_key r' r) (key_rows s)) eqn:E; [done|]. intros [= <-].
  assert (∀ r', r' ∈ key_rows s → same_key r' r = false) as Hnew.
  { intros r' Hr'. destruct (same_key r' r) eqn:Es; [|done].
    assert (existsb (λ r', same_key r' r) (key_rows s) = true); [|congruence].
    apply existsb_exists. exists r'. split; [by apply list_elem_of_In|done]. }
  split; cbn; [exists []; by rewrite app_nil_r|done| |].
  - exists [r]. split; [done|]. intros r1 r2 Hr1 [->|?%elem_of_nil]%elem_of_cons; [auto|done].
  - intros Hok. apply ordpairs_snoc; [done|]. by apply Forall_forall.
Qed.

Lemma keeps_rows_record c i : keeps_rows (record_instance c i).
Proof.
  apply keeps_rows_bind; [destruct (ie_wasm_hash i); [apply keeps_rows_note|apply keeps_rows_ret]|intros _].
  apply keeps_rows_bind; [apply keeps_rows_statement; by intros ? ? ? [= _ <-]|intros latest].
  destruct (bool_decide _); [apply keeps_rows_ret|].
  apply keeps_rows_statement. intros s a s' [= _ <-]. apply insert_state_kept.
Qed.

Lemma keeps_rows_write c k d l e : keeps_rows (try_write_snapshot_data c k d l e).
Proof.
  apply keeps_rows_bind; [apply keeps_rows_lift|intros x].
  apply keeps_rows_bind; [apply keeps_rows_statement; by intros ? ? ? [= _ <-]|intros latest].
  destruct (bool_decide _); [apply keeps_rows_ret|].
  apply keeps_rows_statement. intros s a s'. unfold mbind, result_bind.
  destruct (insert_key _ _) as [rows|] eqn:E; [|done]. intros [= _ <-]. by eapply insert_key_kept.
Qed.

Lemma keeps_rows_instances pairs : keeps_rows (record_instances pairs).
Proof.
  induction pairs as [|[c [i|]] pairs IH]; cbn; [apply keeps_rows_ret| |done].
  apply keeps_rows_bind; [apply keeps_rows_record|done].
Qed.

Lemma keeps_rows_chunks {A} (f : list A → S unit) l : (∀ c, keeps_rows (f c)) → keeps_rows (each_chunk f l).
Proof.
  intros Hf. induction l as [|c l IH]; cbn; [apply keeps_rows_ret|].
  apply keeps_rows_bind; [by apply keeps_rows_logged|done].
Qed.

Lemma keeps_rows_write_chunk pairs : keeps_rows (write_chunk pairs).
Proof.
  induction pairs as [|[b [e|]] pairs IH]; cbn; [apply keeps_rows_ret| |done].
  apply keeps_rows_bind; [apply keeps_rows_logged, keeps_rows_write|done].
Qed.

Lemma keeps_rows_write_chunks l : keeps_rows (write_chunks l).
Proof.
  induction l as [|c l IH]; cbn; [apply keeps_rows_ret|].
  apply keeps_rows_bind; [apply keeps_rows_try, keeps_rows_rpc|intros [results|]; [|done]].
  apply keeps_rows_bind; [apply keeps_rows_write_chunk|done].
Qed.

(** The operations the poller calls. *)
Inductive Op : Type :=
  | OpInstance (contract_id : string)
  | OpInstances (contract_ids : list string)
  | OpData (contract_id : string) (key : ScVal) (durability : Durability) (label : option string)
  | OpBalances (holders : list (string * list string)) (only : list string) (symbol : string) (d : Durability)
  | OpTemplates (found : list (string * list (nat * list string))) (only : list string) (ts : list KeyTemplate).

Definition run_op (s : Sys) (op : Op) : Sys :=
  (match op with
   | OpInstance c => snapshot c
   | OpInstances cs => snapshot_instances_batch cs
   | OpData c k d l => snapshot_data c k d l
   | OpBalances h o y d => snapshot_balances_batch h o y d
   | OpTemplates f o ts => snapshot_template_keys_batch f o ts
   end s).2.

Lemma run_op_kept s op : kept s (run_op s op).
Proof.
  unfold run_op. destruct op as [c|cs|c k d l|h o y d|f o ts].
  - apply keeps_rows_logged, keeps_rows_bind; [apply keeps_rows_rpc|]. intros [i|]; [|apply keeps_rows_ret].
    apply keeps_rows_record.
  - unfold snapshot_instances_batch. destruct cs as [|c cs]; [apply keeps_rows_ret|].
    apply keeps_rows_chunks. intros chunk. apply keeps_rows_bind; [apply keeps_rows_rpc|].
    intros. apply keeps_rows_instances.
  - apply keeps_rows_logged, keeps_rows_bind; [apply keeps_rows_rpc|]. intros [e|]; [|apply keeps_rows_ret].
    apply keeps_rows_write.
  - apply keeps_rows_write_chunks.
  - apply keeps_rows_write_chunks.
Qed.

(** Whatever the RPC answers and whichever statements fail, the snapshots only
    append: no row of either table is changed or removed, [contract_state] keeps
    one row per contract and ledger, and [contract_data] one row per contract
    and key, so the rows a key has when a run begins are the rows it has for
    ever: a value once recorded is never followed by another. *)
Theorem snapshots_append_only ops s :
  state_ok (state_rows s) → key_ok (key_rows s) →
  let s' := foldl run_op s ops in
  state_rows s `prefix_of` state_rows s' ∧ key_rows s `prefix_of` key_rows s'
  ∧ state_ok (state_rows s') ∧ key_ok (key_rows s')
  ∧ ∀ r, r ∈ key_rows s → filter (λ r', same_key r r' = true) (key_rows s')
                         = filter (λ r', same_key r r' = true) (key_rows s).
Proof.
  intros Hs Hk. cbv zeta. assert (kept s (foldl run_op s ops)) as [K1 K2 (new & K3 & K3') K4].
  { clear. revert s. induction ops as [|op ops IH]; intros s; cbn; [reflexivity|].
    etrans; [apply run_op_kept|apply IH]. }
  split; [exact K1|]. split; [by exists new|]. split; [auto|]. split; [auto|].
  intros r Hr. rewrite K3, filter_app.
  assert (filter (λ r', same_key r r' = true) new = []) as ->; [|by rewrite app_nil_r].
  apply elem_of_nil_inv. intros r' [Ht Hin]%list_elem_of_filter. by rewrite (K3' r r') in Ht.
Qed.

(** ** One instance *)

Lemma max_ledger_elem l z : max_ledger l = Some z → z ∈ l.
Proof.
  revert z. induction l as [|x l IH]; intros z; [done|].
  change (max_ledger (x :: l)) with (Some (match max_ledger l with Some b => Z.max x b | None => x end)). intros [= <-].
  destruct (max_ledger l) as [b|]; [|apply list_elem_of_here].
  destruct (Z.max_spec x b) as [[_ ->]|[_ ->]]; [by apply elem_of_cons; right; apply IH|apply list_elem_of_here].
Qed.

Lemma insert_state_has r rows :
  ∃ r', r' ∈ insert_state r rows ∧ sn_contract_id r' = sn_contract_id r ∧ sn_ledger r' = sn_ledger r.
Proof.
  unfold insert_state. destruct (existsb _ rows) eqn:E.
  - apply existsb_exists in E as (r' & Hin & Hb). apply andb_true_iff in Hb as [Hc Hl].
    exists r'. split; [by apply list_elem_of_In|]. split; [by apply String.eqb_eq|by apply Z.eqb_eq].
  - exists r. split; [|done]. apply elem_of_app. right. apply list_elem_of_here.
Qed.

Lemma statement_inv {A} (f : Sys → result StateError (A * Sys)) s a s' :
  statement f s = (Ok a, s') →
  ∃ s1, net s1 = net s ∧ state_rows s1 = state_rows s ∧ key_rows s1 = key_rows s ∧ f s1 = Ok (a, s').
Proof.
  unfold statement. set (s1 := {| net := _ |}). destruct (sql_fails _); [done|].
  destruct (f s1) as [[a' s2]|e] eqn:E; [|done]. intros [= -> ->]. by exists s1.
Qed.

Lemma note_rows c h l s a s' : note_hash c h l s = (a, s') → a = Ok tt ∧ state_rows s' = state_rows s ∧ key_rows s' = key_rows s.
Proof.
  unfold note_hash. destruct (get_contract_wasm urls c (net s)) as [answer n].
  destruct (note_wasm_hash _ _ _ _ _ _ _) as [c' t]. by intros [= <- <-].
Qed.

Lemma record_instance_spec c i s s' :
  record_instance c i s = (Ok tt, s') →
  key_rows s' = key_rows s
  ∧ state_rows s'
    = (if bool_decide (max_ledger (state_ledgers c (state_rows s)) = Some (ie_last_modified i)) then state_rows s
       else insert_state {| sn_contract_id := c; sn_ledger := ie_last_modified i;
                            sn_storage := decode_scval (ie_storage i) |} (state_rows s))
  ∧ ∃ r, r ∈ state_rows s' ∧ sn_contract_id r = c ∧ sn_ledger r = ie_last_modified i.
Proof.
  unfold record_instance, mbind, S_bind. intros Hr.
  destruct ((match ie_wasm_hash i with Some h => note_hash c h (ie_last_modified i) | None => mret tt end) s)
    as [a s1] eqn:E1.
  assert (a = Ok tt ∧ state_rows s1 = state_rows s ∧ key_rows s1 = key_rows s) as (-> & Hs1 & Hk1).
  { destruct (ie_wasm_hash i); [by eapply note_rows|]. by injection E1 as <- <-. }
  destruct (statement _ s1) as [[latest|e] s2] eqn:E2; [|done].
  apply statement_inv in E2 as (s1' & _ & Hs1' & Hk1' & [= <- <-]). rewrite Hs1', Hs1 in Hr.
  case_bool_decide as Hl.
  - injection Hr as <-. rewrite Hk1', Hk1, Hs1', Hs1. split; [done|]. split; [done|].
    apply max_ledger_elem in Hl. apply list_elem_of_fmap in Hl as (r & -> & Hin).
    apply list_elem_of_filter in Hin as [Hc Hin]. by exists r.
  - apply statement_inv in Hr as (s2' & _ & Hs2 & Hk2 & [= <-]). cbn. rewrite Hk2, Hs2, Hk1', Hk1, Hs1', Hs1.
    split; [done|]. split; [done|]. apply insert_state_has.
Qed.

(** A snapshot that succeeds has asked for the contract's instance; without one
    nothing changes; with one the table has a row for the ledger of its last
    change afterwards, and the only row added, if the newest row was of another
    ledger, is the decoded storage at that ledger. *)
Theorem snapshot_records contract_id s s' :
  try_snapshot contract_id s = (Ok tt, s') →
  key_rows s' = key_rows s
  ∧ match (get_contract_instance urls contract_id (net s)).1 with
    | Err _ => False
    | Ok None => state_rows s' = state_rows s
    | Ok (Some i) =>
        (∃ r, r ∈ state_rows s' ∧ sn_contract_id r = contract_id ∧ sn_ledger r = ie_last_modified i)
        ∧ (state_rows s' = state_rows s
           ∨ max_ledger (state_ledgers contract_id (state_rows s)) ≠ Some (ie_last_modified i)
             ∧ state_rows s' = (state_rows s ++ [{| sn_contract_id := contract_id;
                 sn_ledger := ie_last_modified i; sn_storage := decode_scval (ie_storage i) |}])%list)
    end.
Proof.
  unfold try_snapshot, mbind, S_bind, via_rpc. intros Hs.
  destruct (get_contract_instance urls contract_id (net s)) as [[[i|]|e] n]; cbn [map_err] in Hs; cbn [fst];
    [|by injection Hs as <-|done].
  apply record_instance_spec in Hs as (Hk & Hr & Hin). cbn [state_rows key_rows] in Hr, Hk. split; [done|]. split; [done|].
  case_bool_decide as Hl; [by left|]. unfold insert_state in Hr.
  destruct (existsb _ (state_rows s)); [by left|by right].
Qed.

(** ** Batches against single reads *)

Section equivalence.
(** What the endpoints hold, by ledger key. *)
Context (ledger : LedgerKey → option DataEntry) (healthy : Net → Prop).

(** The endpoints answer every [getLedgerEntries] with exactly the entries they
    hold for its keys, and stay healthy. *)
Definition serves : Prop :=
  ∀ keys w, healthy w → ∃ items w',
    call urls "getLedgerEntries" (KeyParams keys) w = (Ok {| le_entries := Some items |}, w') ∧ healthy w'
    ∧ (∀ item, item ∈ items → ∃ addr key d e k, carries item addr key d e
         ∧ ledger (KeyContractData addr key d) = Some e
         ∧ key_to_xdr_base64 (KeyContractData addr key d) = Some k ∧ k ∈ keys)
    ∧ (∀ addr key d e k, ledger (KeyContractData addr key d) = Some e →
         key_to_xdr_base64 (KeyContractData addr key d) = Some k → k ∈ keys →
         ∃ item, item ∈ items ∧ carries item addr key d e).

Definition place (b : BatchItem) : option ScAddress * ScVal * Durability :=
  (sc_address_from_str (b_contract_id b), b_key b, b_durability b).

Definition encodable (b : BatchItem) : Prop :=
  ∃ addr k, sc_address_from_str (b_contract_id b) = Some addr
    ∧ key_to_xdr_base64 (KeyContractData addr (b_key b) (b_durability b)) = Some k.

(** The entry of a batch's element. *)
Definition held (b : BatchItem) : option DataEntry :=
  addr ← sc_address_from_str (b_contract_id b); ledger (KeyContractData addr (b_key b) (b_durability b)).

Lemma carries_unique item c k d e c' k' d' e' :
  carries item c k d e → carries item c' k' d' e' → e = e' ∧ c = c' ∧ k = k' ∧ d = d'.
Proof.
  intros [Hd1 M1] [Hd2 M2]. rewrite Hd1 in Hd2. injection Hd2 as -> -> -> Hv.
  destruct e, e'; cbn in *. by subst.
Qed.

Hypothesis Hserves : serves.

Lemma data_served b w :
  healthy w → encodable b →
  ∃ w', get_contract_data urls (b_contract_id b) (b_key b) (b_durability b) w = (Ok (held b), w') ∧ healthy w'.
Proof.
  intros Hw (addr & k & Ha & Hk). unfold get_contract_data, get_ledger_entry, contract_address, held, mbind, R_bind, lift_r.
  rewrite Ha. cbn [ok_or]. rewrite Hk. cbn [ok_or option_bind].
  destruct (Hserves [k] w Hw) as (items & w' & -> & Hw' & Hsound & Hcomplete). cbn [le_entries default id].
  exists w'. split; [|done]. destruct items as [|item items].
  - destruct (ledger _) as [e|] eqn:E; [|done]. exfalso.
    destruct (Hcomplete _ _ _ _ _ E Hk (list_elem_of_here _ _)) as (item & Hin & _). by apply not_elem_of_nil in Hin.
  - destruct (Hsound item (list_elem_of_here _ _)) as (addr' & key' & d' & e & k' & Hc & Hl & Hk' & Hin).
    apply list_elem_of_singleton in Hin as ->. injection (key_to_xdr_base64_inj _ _ _ Hk Hk') as <- <- <-.
    destruct Hc as [Hd Hm]. rewrite Hd. cbn [ok_or]. rewrite Hl, <-Hm. by destruct e.
Qed.

Lemma encode_all keys :
  Forall encodable keys →
  ∃ key_b64s, collect_r (λ '(contract_id, key, durability), encode_key contract_id key durability) (rpc_key <$> keys)
    = Ok key_b64s.
Proof.
  induction 1 as [|b keys (addr & k & Ha & Hk) _ (ks & IH)]; [by exists []|].
  exists (k :: ks). cbn [fmap list_fmap collect_r]. unfold rpc_key at 1, encode_key at 1, contract_address.
  rewrite Ha. unfold mbind, result_bind. cbn [ok_or]. rewrite Hk. cbn [ok_or].
  by rewrite IH.
Qed.

Lemma batch_served chunk w :
  healthy w → Forall encodable chunk → NoDup (place <$> chunk) →
  ∃ w', get_contract_data_batch urls (rpc_key <$> chunk) w = (Ok (held <$> chunk), w') ∧ healthy w'.
Proof.
  intros Hw Henc Hnd. destruct chunk as [|b0 chunk0]; [by exists w|].
  set (chunk := b0 :: chunk0) in *. destruct (encode_all chunk Henc) as (key_b64s & Hkeys).
  destruct (Hserves key_b64s w Hw) as (items & w' & Hcall & Hw' & Hsound & Hcomplete).
  exists w'. split; [|done]. rewrite data_batch_eq by done. rewrite Hkeys, Hcall. cbn [le_entries default id].
  destruct (place_all _ _ items) as [output|e] eqn:Hp.
  2: { exfalso. apply place_all_error in Hp as (_ & item & Hin & Hn).
       destruct (Hsound item Hin) as (? & ? & ? & ? & ? & [Hd _] & _). congruence. }
  destruct (data_batch_core _ _ _ _ Hkeys Hp) as [Hlen Hall]. do 2 f_equal. apply list_eq. intros i.
  rewrite list_lookup_fmap. destruct (chunk !! i) as [b|] eqn:Hi.
  2: { cbn. apply lookup_ge_None_2. rewrite (Hlen ltac:(done)), length_fmap. by apply lookup_ge_None_1. }
  assert ((rpc_key <$> chunk) !! i = Some (b_contract_id b, b_key b, b_durability b)) as Hik
    by (rewrite list_lookup_fmap, Hi; done).
  destruct (Hall i _ _ _ Hik) as (addr & o & Ha & -> & Hans). cbn. f_equal.
  unfold held. rewrite Ha. cbn [mbind option_bind]. destruct o as [e|]; cbn [answers] in Hans.
  - destruct Hans as (item & Hin & Hc). destruct (Hsound item Hin) as (? & ? & ? & e' & k & Hc' & Hl & _).
    by destruct (carries_unique _ _ _ _ _ _ _ _ _ Hc Hc') as (-> & -> & -> & ->).
  - destruct (ledger _) as [e|] eqn:El; [|done]. exfalso.
    assert (b ∈ chunk) as Hbin by (by eapply list_elem_of_lookup_2).
    rewrite Forall_forall in Henc. destruct (Henc b Hbin) as (addr' & k & Ha' & Hk).
    assert (addr' = addr) as -> by congruence.
    destruct (encode_keys_lookup _ _ _ _ _ _ Hkeys Hik) as (addr' & k' & Ha'' & Hk' & Hx).
    assert (addr' = addr) as -> by congruence.
    destruct (Hcomplete _ _ _ _ k' El Hx) as (item & Hin & Hc); [by eapply list_elem_of_lookup_2|].
    refine (Hans _ item e Hin Hc). intros j cid' Hj Hjk Haj. rewrite list_lookup_fmap in Hjk.
    destruct (chunk !! j) as [b'|] eqn:Hj'; [|done]. injection Hjk as Hcid Hkey Hdur.
    assert (i = j); [|lia]. eapply NoDup_lookup; [exact Hnd| |]; rewrite list_lookup_fmap.
    + rewrite Hi. cbn. reflexivity.
    + rewrite Hj'. cbn. unfold place. by rewrite Hcid, Hkey, Hdur, Ha, Haj.
Qed.

(** Without failing statements a write is a function of the rows. *)
Definition written (b : BatchItem) (o : option DataEntry) (rows : list ContractDataRow) : list ContractDataRow :=
  match o, scval_to_xdr_base64 (b_key b) with
  | Some e, Some x =>
      let row := key_row (b_contract_id b) x (b_key b) (b_durability b) (b_label b) e in
      if bool_decide (max_ledger (key_ledgers (b_contract_id b) (kr_key_hash row) rows) = Some (de_last_modified e))
      then rows else match insert_key row rows with Ok rows' => rows' | Err _ => rows end
  | _, _ => rows
  end.

Hypothesis Hsql : ∀ t, sql_fails t = false.

Lemma write_written b e s :
  let s' := (logged (try_write_snapshot_data (b_contract_id b) (b_key b) (b_durability b) (b_label b) e) s).2 in
  key_rows s' = written b (Some e) (key_rows s) ∧ net s' = net s.
Proof.
  cbv zeta. unfold logged, try_write_snapshot_data, lift_s, written, mbind, S_bind. cbn [snd].
  destruct (scval_to_xdr_base64 (b_key b)) as [x|]; [|done]. cbn [ok_or].
  unfold statement. rewrite !Hsql. cbn [fst snd net key_rows state_rows specs spec_tables sql_ticks].
  case_bool_decide; [done|]. rewrite !Hsql. unfold result_bind. cbn [net key_rows state_rows specs spec_tables sql_ticks].
  by destruct (insert_key _ _).
Qed.

Lemma write_chunk_written chunk s :
  (write_chunk (zip chunk (held <$> chunk)) s).1 = Ok tt
  ∧ key_rows (write_chunk (zip chunk (held <$> chunk)) s).2
    = foldl (λ rows b, written b (held b) rows) (key_rows s) chunk
  ∧ net (write_chunk (zip chunk (held <$> chunk)) s).2 = net s.
Proof.
  revert s. induction chunk as [|b chunk IH]; intros s; [done|]. cbn [fmap list_fmap zip zip_with write_chunk foldl].
  destruct (held b) as [e|]; [|apply IH]. unfold mbind, S_bind.
  destruct (write_written b e s) as [Hk Hn]. unfold logged in *. cbn [snd] in *.
  rewrite <-Hk, <-Hn. apply IH.
Qed.

Lemma write_chunks_written l s :
  healthy (net s) → Forall encodable (concat l) → NoDup (place <$> concat l) →
  key_rows (write_chunks l s).2 = foldl (λ rows b, written b (held b) rows) (key_rows s) (concat l).
Proof.
  revert s. induction l as [|chunk l IH]; intros s Hh Henc Hnd; [done|]. cbn [concat write_chunks] in *.
  apply Forall_app in Henc as [Henc1 Henc2]. rewrite fmap_app in Hnd. apply NoDup_app in Hnd as (Hnd1 & _ & Hnd2).
  destruct (batch_served chunk (net s) Hh Henc1 Hnd1) as (w' & Hb & Hh').
  unfold mbind, S_bind, try_s, via_rpc. rewrite Hb. cbn [map_err].
  set (s1 := {| net := w' |}). destruct (write_chunk_written chunk s1) as (Hok & Hk & Hn).
  destruct (write_chunk (zip chunk (held <$> chunk)) s1) as [r s2]. cbn [fst snd] in *. subst r.
  rewrite IH; [|by rewrite Hn|done|done]. by rewrite Hk, foldl_app.
Qed.

Lemma singles_written batch s :
  healthy (net s) → Forall encodable batch →
  key_rows (foldl (λ s b, (snapshot_data (b_contract_id b) (b_key b) (b_durability b) (b_label b) s).2) s batch)
  = foldl (λ rows b, written b (held b) rows) (key_rows s) batch.
Proof.
  revert s. induction batch as [|b batch IH]; intros s Hh Henc; [done|]. cbn [foldl].
  apply Forall_cons in Henc as [Hb Henc]. destruct (data_served b (net s) Hh Hb) as (w' & Hd & Hh').
  set (s1 := {| net := w'; state_rows := state_rows s; key_rows := key_rows s; specs := specs s;
                spec_tables := spec_tables s; sql_ticks := sql_ticks s |}).
  assert ((snapshot_data (b_contract_id b) (b_key b) (b_durability b) (b_label b) s).2
    = match held b with
      | None => s1
      | Some e => (logged (try_write_snapshot_data (b_contract_id b) (b_key b) (b_durability b) (b_label b) e) s1).2
      end) as ->.
  { unfold snapshot_data, logged, try_snapshot_data, mbind, S_bind, via_rpc. cbn [snd]. rewrite Hd. cbn [map_err].
    by destruct (held b). }
  destruct (held b) as [e|] eqn:He.
  - destruct (write_written b e s1) as [Hk Hn]. rewrite IH; [|by rewrite Hn|done]. by rewrite Hk.
  - by rewrite IH.
Qed.

End equivalence.

(** C27: Batching is an optimisation only: with endpoints that answer from one
    ledger and statements that do not fail, fetching the keys in chunks of 100
    leaves [contract_data] as reading and writing them one by one would, for
    keys that can be encoded and are all different. *)
Theorem batching_equivalent ledger healthy batch s :
  (∀ t, sql_fails t = false) → serves ledger healthy → healthy (net s) →
  Forall encodable batch → NoDup (place <$> batch) →
  key_rows (write_batch batch s).2
  = key_rows (foldl (λ s b, (snapshot_data (b_contract_id b) (b_key b) (b_durability b) (b_label b) s).2) s batch).
Proof.
  intros Hsql Hserves Hh Henc Hnd. unfold write_batch.
  assert (concat (chunks MAX_BATCH_KEYS batch) = batch) as Hc by (apply chunks_concat; unfold MAX_BATCH_KEYS; lia).
  rewrite (write_chunks_written ledger healthy Hserves Hsql) by by rewrite ?Hc.
  by rewrite (singles_written ledger healthy Hserves Hsql), Hc.
Qed.

(** ** A key's history *)

Lemma max_ledger_none_eq l z : z ∉ l → max_ledger l ≠ Some z.
Proof. intros Hz Hm. by apply Hz, max_ledger_elem. Qed.

(** Once a key has a row, every later change of its entry is refused by the
    constraint on contract and key: the statement fails and the table stays. *)
Theorem key_history_blocked contract_id key key_xdr durability label entry durability' label' entry' s :
  (∀ t, sql_fails t = false) →
  scval_to_xdr_base64 key = Some key_xdr →
  key_row contract_id key_xdr key durability label entry ∈ key_rows s →
  de_last_modified entry' ∉ key_ledgers contract_id (hex_encode (sha256 key_xdr)) (key_rows s) →
  let '(r, s') := try_write_snapshot_data contract_id key durability' label' entry' s in
  r = Err UniqueViolation ∧ key_rows s' = key_rows s.
Proof.
  intros Hsql Hx Hin Hnew. unfold try_write_snapshot_data, lift_s, mbind, S_bind. rewrite Hx. cbn [ok_or].
  unfold statement. rewrite !Hsql. cbn [fst snd net key_rows state_rows specs spec_tables sql_ticks kr_key_hash key_row].
  rewrite bool_decide_eq_false_2 by by apply max_ledger_none_eq. rewrite !Hsql.
  unfold result_bind, insert_key. cbn [key_rows].
  destruct (existsb _ (key_rows s)) eqn:E.
  { exfalso. apply existsb_exists in E as (r & Hr%list_elem_of_In & Hb). bool_facts. apply Hnew.
    apply list_elem_of_fmap. exists r. split; [cbn in *; by symmetry|]. apply list_elem_of_filter.
    split; [|done]. cbn in *. split; by apply String.eqb_eq. }
  assert (existsb (λ r', same_key r' (key_row contract_id key_xdr key durability' label' entry')) (key_rows s) = true) as ->;
    [|done].
  apply existsb_exists. eexists. split; [by apply list_elem_of_In|]. unfold same_key. cbn.
  by rewrite String.eqb_refl, jsonb_eq_refl.
Qed.

End state.

(** ** Witnesses *)

Section witness.
#[local] Instance sample_stellar_state : Stellar := sample_stellar.
#[local] Instance sample_crypto_state : CryptoLib := sample_crypto.
#[local] Instance sample_lru_state : LruCache string Cached := list_lru.

(** One holder's balance in one contract. *)
Definition sample_contract : string := sc_address_to_string (AddrContract (replicate 32 "c"%char)).
Definition sample_key : ScVal := ScvVec (Some [ScvSymbol (bytes "Balance"); ScvAddress (AddrAccount (replicate 32 "a"%char))]).
Definition sample_ledger_key : LedgerKey := KeyContractData (AddrContract (replicate 32 "c"%char)) sample_key Persistent.
Definition sample_entry : DataEntry := {| de_val := ScvU32 5; de_last_modified := 9 |}.
Definition sample_item : LedgerEntryItem := {| xdr := "item"; last_modified_ledger_seq := 9 |}.

#[local] Instance sample_ledger_xdr : LedgerXdr :=
  sample_xdr (λ s, if String.eqb s "item" then
    Some (EntryContractData (AddrContract (replicate 32 "c"%char)) sample_key Persistent (ScvU32 5))
  else if String.eqb s "instance" then
    Some (EntryContractData (AddrContract (replicate 32 "c"%char)) ScvLedgerKeyContractInstance Persistent
            (ScvContractInstance ExecStellarAsset (Some [(ScvSymbol (bytes "n"), ScvU32 1)])))
  else None).

Fixpoint enc_json (v : Json) : gen_tree (Z + string) :=
  match v with
  | JNull => GenNode 0 []
  | JBool b => GenNode (if b then 1 else 2) []
  | JInt z => GenNode 3 [GenLeaf (inl z)]
  | JFloat t => GenNode 4 [GenLeaf (inr t)]
  | JStr t => GenNode 5 [GenLeaf (inr t)]
  | JArr l => GenNode 6 (enc_json <$> l)
  | JObj m => GenNode 7 ((λ p, GenNode 8 [GenLeaf (inr p.1); enc_json p.2]) <$> m)
  end.

#[local] Instance sample_state_lib : StateLib.
Proof.
  refine {| jsonb_eq v w := bool_decide (enc_json v = enc_json w);
            scval_to_xdr_base64 v := Some (pos_text (Instances.code v)) |}.
  intros v. by apply bool_decide_eq_true.
Defined.

(** A node that holds that entry, and one that answers with an instance. *)
Definition asks_for (keys : list string) : bool := existsb (String.eqb (sample_key_text sample_ledger_key)) keys.

#[local] Instance sample_state_http : Http.
Proof.
  refine {|
    http_post _ url req := if String.eqb url "inst" then Answered 200 "inst" else match q_params req with
                         | KeyParams keys => Answered 200 (if asks_for keys then "yes" else "no")
                         | _ => Answered 200 ""
                         end;
    http_gen_range _ _ := 0;
    http_instant t := Z.of_nat t |}.
  intros t hi Hhi. lia.
Defined.

#[local] Instance sample_state_network : Deserialize NetworkResult :=
  {| from_json b := Some {| r_result := Some {| network_passphrase := b |}; r_error := None |} |}.
#[local] Instance sample_state_entries : Deserialize LedgerEntriesResult :=
  {| from_json b := Some {| r_result := Some {| le_entries := Some (
       if String.eqb b "yes" then [sample_item]
       else if String.eqb b "inst" then [{| xdr := "instance"; last_modified_ledger_seq := 9 |}] else []) |};
                            r_error := None |} |}.

Definition sample_holds (k : LedgerKey) : option DataEntry :=
  if bool_decide (enc_key k = enc_key sample_ledger_key) then Some sample_entry else None.

Definition sample_healthy (w : Net) : Prop := failover_ok ["node"] (sh w) ∧ active_idx (sh w) = 0%nat.

Lemma sample_holds_Some k e : sample_holds k = Some e → k = sample_ledger_key ∧ e = sample_entry.
Proof. unfold sample_holds. case_bool_decide as Hk; [|done]. apply enc_key_inj in Hk as ->. by intros [= <-]. Qed.

Lemma asks_for_spec keys : asks_for keys = true ↔ sample_key_text sample_ledger_key ∈ keys.
Proof.
  unfold asks_for. rewrite existsb_exists. split.
  - by intros (k & Hin%list_elem_of_In & ->%String.eqb_eq).
  - intros Hin. eexists. split; [by apply list_elem_of_In|apply String.eqb_refl].
Qed.

Lemma sample_serves : serves ["node"] sample_holds sample_healthy.
Proof.
  intros keys w [Hok Ha].
  destruct (primary_answers ["node"] (A := LedgerEntriesResult) "getLedgerEntries" (KeyParams keys) None w
    {| le_entries := Some (if asks_for keys then [sample_item] else []) |} Hok Ha) as (w' & Hc & Hok' & Ha').
  { intros t. unfold judge. cbn [http_post sample_state_http q_params rpc_request]. by destruct (asks_for keys). }
  exists (if asks_for keys then [sample_item] else []), w'. split; [exact Hc|]. split; [by split|]. split.
  - intros item Hin. destruct (asks_for keys) eqn:E; [|by apply not_elem_of_nil in Hin].
    apply list_elem_of_singleton in Hin as ->. apply asks_for_spec in E.
    exists (AddrContract (replicate 32 "c"%char)), sample_key, Persistent, sample_entry, (sample_key_text sample_ledger_key).
    split; [by split|]. split; [|by split]. unfold sample_holds. by rewrite bool_decide_eq_true_2.
  - intros addr key d e k Hh Hk Hin. apply sample_holds_Some in Hh as [Hlk ->]. injection Hk as <-. rewrite Hlk in Hin.
    apply asks_for_spec in Hin. rewrite Hin. exists sample_item. split; [apply list_elem_of_here|].
    injection Hlk as -> -> ->. by split.
Qed.

Definition no_entries (_ _ : Z) (_ : list ascii) : list (result string ScSpecEntry) := [].
Definition no_load : LoadEnv :=
  {| wasm_answer := Ok None; persist_ok := true; record_ok := true; now_before := 0; now_after := 0 |}.

Definition sample_sys : Sys :=
  {| net := {| sh := with_urls; ticks := 0; trace := [] |}; state_rows := []; key_rows := [];
     specs := spec_cache_new 4; spec_tables := {| spec_table := ∅; version_table := [] |}; sql_ticks := 0 |}.

Definition sample_batch : list BatchItem :=
  [{| b_contract_id := sample_contract; b_key := sample_key; b_durability := Persistent; b_label := Some "balance" |};
   {| b_contract_id := sample_contract; b_key := sample_key; b_durability := Temporary; b_label := Some "balance" |}].

(** The same balance, before the entry was last changed. *)
Definition sample_row : ContractDataRow :=
  key_row sample_contract (pos_text (Instances.code sample_key)) sample_key Persistent (Some "balance")
    {| de_val := ScvU32 4; de_last_modified := 7 |}.

Lemma snapshots_append_only_witness :
  let s := {| net := net sample_sys; state_rows := []; key_rows := [sample_row]; specs := specs sample_sys;
              spec_tables := spec_tables sample_sys; sql_ticks := 0 |} in
  let s' := foldl (run_op ["node"] no_entries (λ _, false) (λ _, no_load)) s
              [OpBalances [(sample_contract, [sample_holder "a"])] [] "Balance" Persistent] in
  filter (λ r', same_key sample_row r' = true) (key_rows s') = [sample_row].
Proof.
  intros s s'.
  destruct (snapshots_append_only ["node"] no_entries (λ _, false) (λ _, no_load)
    [OpBalances [(sample_contract, [sample_holder "a"])] [] "Balance" Persistent] s) as (_ & _ & _ & _ & Hf).
  - constructor.
  - constructor; constructor.
  - fold s' in Hf. rewrite (Hf sample_row (list_elem_of_here _ _)). vm_compute. reflexivity.
Defined.

Lemma key_history_blocked_witness :
  let s := {| net := net sample_sys; state_rows := []; key_rows := [sample_row]; specs := specs sample_sys;
              spec_tables := spec_tables sample_sys; sql_ticks := 0 |} in
  (try_write_snapshot_data (λ _, false) sample_contract sample_key Persistent (Some "balance") sample_entry s).1
  = Err UniqueViolation.
Proof.
  intros s.
  pose proof (key_history_blocked (λ _, false) sample_contract sample_key (pos_text (Instances.code sample_key))
    Persistent (Some "balance") {| de_val := ScvU32 4; de_last_modified := 7 |} Persistent (Some "balance")
    sample_entry s (λ _, eq_refl) eq_refl (list_elem_of_here _ _)) as Hb.
  destruct (try_write_snapshot_data _ _ _ _ _ _ s) as [r s']. apply Hb.
  assert (key_ledgers sample_contract (hex_encode (sha256 (pos_text (Instances.code sample_key)))) (key_rows s) = [7]) as ->
    by (vm_compute; reflexivity).
  cbn. intros Hin. apply list_elem_of_singleton in Hin. discriminate.
Defined.

(** An instance at ledger 9 is recorded where none was. *)
Lemma snapshot_records_witness :
  let out := try_snapshot ["inst"] no_entries (λ _, false) (λ _, no_load) sample_contract sample_sys in
  state_rows out.2 = [{| sn_contract_id := sample_contract; sn_ledger := 9; sn_storage := mk_obj [("n", JInt 1)] |}]
  ∧ key_rows out.2 = [].
Proof.
  intros out. split; [vm_compute; reflexivity|]. assert (out.1 = Ok tt) as E by (vm_compute; reflexivity).
  destruct out as [r s'] eqn:Eo. cbn [fst snd] in *. subst r.
  destruct (snapshot_records ["inst"] no_entries (λ _, false) (λ _, no_load) sample_contract sample_sys s' Eo)
    as [Hk _]. exact Hk.
Defined.

Lemma batching_equivalent_witness :
  key_rows (write_batch ["node"] (λ _, false) sample_batch sample_sys).2
  = key_rows (foldl (λ s b, (snapshot_data ["node"] (λ _, false) (b_contract_id b) (b_key b) (b_durability b)
                               (b_label b) s).2) sample_sys sample_batch)
  ∧ kr_ledger <$> key_rows (write_batch ["node"] (λ _, false) sample_batch sample_sys).2 = [9].
Proof.
  split; [|vm_compute; reflexivity].
  apply (batching_equivalent ["node"] (λ _, false) sample_holds sample_healthy).
  - reflexivity.
  - exact sample_serves.
  - split; [|reflexivity]. repeat split; cbn; lia.
  - repeat constructor; do 2 eexists; split; reflexivity.
  - assert (place <$> sample_batch = [(Some (AddrContract (replicate 32 "c"%char)), sample_key, Persistent);
      (Some (AddrContract (replicate 32 "c"%char)), sample_key, Temporary)]) as -> by (vm_compute; reflexivity).
    constructor; [|apply NoDup_singleton]. intros Hin. apply list_elem_of_singleton in Hin. discriminate.
Defined.

End witness.
