(* ===== verification/Stream.v ===== *)
(** * Stream: live events over SSE ([lumenqraph-api/src/routes/stream.rs])

    One listener reads the rows that follow the last one it saw and broadcasts
    them; a stream per client filters the broadcast, and polls the table when it
    fell behind or the listener is down.  A table is a parameter of each query:
    it may have changed since the last one, or the query may fail.  The channel
    is [tokio]'s: what [recv] gives a stream is an input of its turn.  Event ids
    are digits and a dash, which the database orders as Rust does, by bytes. *)
From S2P Require Import Prelude Text Containers Values.
From Stdlib Require Import Ascii Sorting.Sorted.

Local Open Scope string_scope.
Local Open Scope Z_scope.

(** ** Rows and events *)

(** A row of [events]; [l_data] is what [serde_json::from_str] makes of the text
    the query builds for it. *)
Record LogRow := {
  l_seq : Z;
  l_ledger : Z;
  l_contract_id : string;
  l_event_id : string;
  l_event_name : option string;
  l_data : option Json;
}.

Record BroadcastEvent := {
  bc_contract_id : string;
  bc_event_name : option string;
  bc_ledger : Z;
  bc_event_id : string;
  bc_data : Json;
}.

(** [EventFanout]: what was sent, and the counters. *)
Record EventFanout := { sent : list BroadcastEvent; listener_up : bool; lagged : Z }.

Definition fanout_new : EventFanout := {| sent := []; listener_up := false; lagged := 0 |}.
Definition publish (e : BroadcastEvent) (f : EventFanout) : EventFanout :=
  {| sent := sent f ++ [e]; listener_up := listener_up f; lagged := lagged f |}.
Definition set_listener_up (up : bool) (f : EventFanout) : EventFanout :=
  {| sent := sent f; listener_up := up; lagged := lagged f |}.
Definition record_lag (dropped : Z) (f : EventFanout) : EventFanout :=
  {| sent := sent f; listener_up := listener_up f; lagged := wrap 64 (lagged f + dropped) |}.

(** ** The listener *)

Definition CATCH_UP_BATCH : nat := 1000.

(** [SELECT COALESCE(MAX(seq), 0)]. *)
Definition head_seq (rows : list LogRow) : Z :=
  match rows with [] => 0 | r :: rows' => foldl (λ m r, Z.max m (l_seq r)) (l_seq r) rows' end.

Definition by_seq (rows : list LogRow) : list LogRow := sort_by (λ a b, Z.compare (l_seq a) (l_seq b)) rows.

(** [WHERE seq > $1 ORDER BY seq ASC LIMIT $2]. *)
Definition rows_after (last_seen : Z) (rows : list LogRow) : list LogRow :=
  by_seq (filter (λ r, last_seen < l_seq r) rows).

Definition broadcast_of (r : LogRow) : option BroadcastEvent :=
  d ← l_data r;
  Some {| bc_contract_id := l_contract_id r; bc_event_name := l_event_name r; bc_ledger := l_ledger r;
          bc_event_id := l_event_id r; bc_data := d |}.

(** The loop body for one row. *)
Definition broadcast_row (st : Z * EventFanout) (r : LogRow) : Z * EventFanout :=
  (l_seq r, match broadcast_of r with Some e => publish e st.2 | None => st.2 end).

Definition fetch_and_broadcast (rows : list LogRow) (st : Z * EventFanout) : nat * (Z * EventFanout) :=
  let batch := take CATCH_UP_BATCH (rows_after st.1 rows) in
  (length batch, foldl broadcast_row st batch).

(** [tables t] is the table the [t]th query sees; [None] is a failing query. *)
Fixpoint catch_up (fuel : nat) (tables : nat → option (list LogRow)) (t : nat) (st : Z * EventFanout)
    : option (bool * nat * (Z * EventFanout)) :=
  match fuel with
  | O => None
  | S fuel' =>
      match tables t with
      | None => Some (false, S t, st)
      | Some rows =>
          let '(fetched, st') := fetch_and_broadcast rows st in
          if (fetched <? CATCH_UP_BATCH)%nat then Some (true, S t, st') else catch_up fuel' tables (S t) st'
      end
  end.

(** The [loop] of a session, for [notified] notifications before the connection
    is lost: [last_seen] is written only after a whole catch-up. *)
Fixpoint notifications (fuel notified : nat) (tables : nat → option (list LogRow)) (t : nat)
    (last_seen : option Z) (st : Z * EventFanout) : option (option Z * EventFanout) :=
  match notified with
  | O => Some (last_seen, st.2)
  | S notified' =>
      match catch_up fuel tables t st with
      | None => None
      | Some (false, _, st') => Some (last_seen, st'.2)
      | Some (true, t', st') => notifications fuel notified' tables t' (Some st'.1) st'
      end
  end.

Definition listen_once (fuel : nat) (connects : bool) (notified : nat) (tables : nat → option (list LogRow))
    (last_seen : option Z) (f : EventFanout) : option (option Z * EventFanout) :=
  if negb connects then Some (last_seen, f)
  else
    match last_seen, tables 0%nat with
    | None, None => Some (None, f)
    | _, head =>
        let cursor := match last_seen with Some seq => seq | None => head_seq (default [] head) end in
        let t := match last_seen with Some _ => 0%nat | None => 1%nat end in
        match catch_up fuel tables t (cursor, set_listener_up true f) with
        | None => None
        | Some (false, _, st) => Some (last_seen, st.2)
        | Some (true, t, st) => notifications fuel notified tables t (Some st.1) st
        end
    end.

(** A turn of [run_listener]: whatever ends the session, the listener is down. *)
Definition run_session (fuel : nat) (connects : bool) (notified : nat) (tables : nat → option (list LogRow))
    (st : option Z * EventFanout) : option (option Z * EventFanout) :=
  '(last_seen, f) ← listen_once fuel connects notified tables st.1 st.2;
  Some (last_seen, set_listener_up false f).

(** The pause before the next session, in seconds. *)
Definition LISTENER_MIN_BACKOFF : Z := 1.
Definition LISTENER_MAX_BACKOFF : Z := 30.
Definition LISTENER_STABLE_AFTER : Z := 30.

Definition session_backoff (elapsed backoff : Z) : Z :=
  if LISTENER_STABLE_AFTER <=? elapsed then LISTENER_MIN_BACKOFF else backoff.
Definition next_backoff (backoff : Z) : Z := Z.min (backoff * 2) LISTENER_MAX_BACKOFF.

(** ** Streams *)

Record StreamCursor := { c_ledger : Z; c_event_id : string }.
Record StreamEvent := { s_ledger : Z; s_event_id : string; s_data : Json }.

(** The order of [(i64, &str)]. *)
Definition pos_cmp (a b : Z * string) : comparison :=
  match Z.compare a.1 b.1 with Eq => tcmp a.2 b.2 | c => c end.

Definition cursor_pos (c : StreamCursor) : Z * string := (c_ledger c, c_event_id c).
Definition event_pos (e : StreamEvent) : Z * string := (s_ledger e, s_event_id e).
Definition row_pos (r : LogRow) : Z * string := (l_ledger r, l_event_id r).

Record StreamQuery := {
  q_event_name : option string;
  q_cursor : option Z;
  q_cursor_event_id : option string;
  q_poll_interval : Z;
}.

Record StreamState := {
  st_contract_id : string;
  st_event_name : option string;
  st_cursor : StreamCursor;
  st_buffer : list StreamEvent;
  st_poll_secs : Z;
  st_last_ledger : Z;
  st_request_id : string;
}.

Definition advance_to (event : StreamEvent) (st : StreamState) : StreamState := {|
  st_contract_id := st_contract_id st; st_event_name := st_event_name st;
  st_cursor := {| c_ledger := s_ledger event; c_event_id := s_event_id event |};
  st_buffer := st_buffer st; st_poll_secs := st_poll_secs st; st_last_ledger := s_ledger event;
  st_request_id := st_request_id st |}.

Definition with_buffer (b : list StreamEvent) (st : StreamState) : StreamState := {|
  st_contract_id := st_contract_id st; st_event_name := st_event_name st; st_cursor := st_cursor st;
  st_buffer := b; st_poll_secs := st_poll_secs st; st_last_ledger := st_last_ledger st;
  st_request_id := st_request_id st |}.

(** The frames a client sees: an event with its [id:], an error, the last one. *)
Inductive Frame : Type :=
  | EventFrame (id : string) (event : StreamEvent)
  | ErrorFrame (request_id : string)
  | ShutdownFrame.

Definition sse_event (event : StreamEvent) : Frame :=
  EventFrame (show_i (s_ledger event) +:+ ":" +:+ s_event_id event) event.

Definition parse_last_event_id (value : string) : option StreamCursor :=
  '(ledger, event_id) ← split_once ":" value;
  ledger ← parse_int 64 (trim ledger);
  Some {| c_ledger := ledger; c_event_id := event_id |}.

(** [SELECT .. ORDER BY ledger DESC, event_id DESC LIMIT 1]. *)
Definition current_head (contract_id : string) (rows : list LogRow) : StreamCursor :=
  match last (sort_by (λ a b, pos_cmp (row_pos a) (row_pos b))
                (filter (λ r, l_contract_id r = contract_id) rows)) with
  | Some r => {| c_ledger := l_ledger r; c_event_id := l_event_id r |}
  | None => {| c_ledger := 0; c_event_id := "" |}
  end.

(** The precedence of the header over the query; [None] is the failing query. *)
Definition initial_cursor (last_event_id : option string) (q : StreamQuery) (contract_id : string)
    (rows : option (list LogRow)) : option StreamCursor :=
  match last_event_id ≫= parse_last_event_id with
  | Some cursor => Some cursor
  | None =>
      match q_cursor q, q_cursor_event_id q with
      | Some ledger, Some event_id => Some {| c_ledger := ledger; c_event_id := event_id |}
      | Some ledger, None => Some {| c_ledger := ledger; c_event_id := "" |}
      | None, _ => current_head contract_id <$> rows
      end
  end.

Definition stream_events (last_event_id : option string) (q : StreamQuery) (contract_id request_id : string)
    (rows : option (list LogRow)) : option StreamState :=
  cursor ← initial_cursor last_event_id q contract_id rows;
  Some {| st_contract_id := contract_id; st_event_name := q_event_name q; st_cursor := cursor;
          st_buffer := []; st_poll_secs := Z.min (Z.max (q_poll_interval q) 1) 60;
          st_last_ledger := c_ledger cursor; st_request_id := request_id |}.

Definition name_passes (filter name : option string) : bool :=
  match filter with None => true | Some _ => bool_decide (name = filter) end.

(** The rows [fetch_new_events] selects, all of them in order. *)
Definition new_rows (contract_id : string) (event_name : option string) (cursor : StreamCursor)
    (rows : list LogRow) : list LogRow :=
  sort_by (λ a b, pos_cmp (row_pos a) (row_pos b))
    (filter (λ r, l_contract_id r = contract_id ∧ name_passes event_name (l_event_name r) = true
                  ∧ pos_cmp (cursor_pos cursor) (row_pos r) = Lt) rows).

Definition stream_event_of (r : LogRow) : option StreamEvent :=
  d ← l_data r; Some {| s_ledger := l_ledger r; s_event_id := l_event_id r; s_data := d |}.

Definition FETCH_LIMIT : nat := 100.

Definition fetch_new_events (contract_id : string) (event_name : option string) (cursor : StreamCursor)
    (rows : list LogRow) : list StreamEvent :=
  omap stream_event_of (take FETCH_LIMIT (new_rows contract_id event_name cursor rows)).

(** What the wait for the channel, under its timeout, gives. *)
Inductive Wake : Type :=
  | Received (e : BroadcastEvent)
  | Lagged (dropped : Z)
  | Closed
  | Elapsed.

(** What a turn of the loop meets: the wake, whether the listener is up, and the
    table a query sees. *)
Record Input := { i_wake : Wake; i_listener_up : bool; i_table : option (list LogRow) }.

Inductive Turn : Type :=
  | Emitted (f : Frame) (st : StreamState)
  | Looped (st : StreamState)
  | Ended.

Definition poll (table : option (list LogRow)) (st : StreamState) : Turn :=
  match table with
  | None => Emitted (ErrorFrame (st_request_id st)) st
  | Some rows =>
      match fetch_new_events (st_contract_id st) (st_event_name st) (st_cursor st) rows with
      | [] => Looped st
      | events => Looped (with_buffer events st)
      end
  end.

(** A turn with an empty buffer. *)
Definition wait (i : Input) (st : StreamState) : Turn :=
  match i_wake i with
  | Received e =>
      if negb (String.eqb (bc_contract_id e) (st_contract_id st)) then Looped st
      else if negb (name_passes (st_event_name st) (bc_event_name e)) then Looped st
      else
        let event := {| s_ledger := bc_ledger e; s_event_id := bc_event_id e; s_data := bc_data e |} in
        match pos_cmp (event_pos event) (cursor_pos (st_cursor st)) with
        | Gt => Emitted (sse_event event) (advance_to event st)
        | _ => Looped st
        end
  | Lagged _ => poll (i_table i) st
  | Closed => Ended
  | Elapsed => if i_listener_up i then Looped st else poll (i_table i) st
  end.

(** The turns that empty the buffer. *)
Fixpoint drain_buffer (buffer : list StreamEvent) (st : StreamState) : list Frame * StreamState :=
  match buffer with
  | [] => ([], with_buffer [] st)
  | event :: buffer' =>
      let '(frames, st') := drain_buffer buffer' (advance_to event st) in (sse_event event :: frames, st')
  end.

(** The frames of the stream for a sequence of inputs. *)
Fixpoint serve (inputs : list Input) (st : StreamState) : list Frame :=
  let '(frames, st) := drain_buffer (st_buffer st) st in
  (frames ++ match inputs with
             | [] => []
             | i :: inputs' =>
                 match wait i st with
                 | Emitted f st => f :: serve inputs' st
                 | Looped st => serve inputs' st
                 | Ended => []
                 end
             end)%list.

(** [end_on_shutdown]: what was emitted when the token is cancelled or the
    stream ends, and one more frame. *)
Definition end_on_shutdown (emitted : list Frame) : list Frame := emitted ++ [ShutdownFrame].

(** ** Keysets: reading on after the last key read *)

#[local] Instance seq_order : TotalOrder Z := Z_asc.

#[local] Instance pos_order : TotalOrder (Z * string) :=
  order_as (lex_order Z_asc string_order) pos_cmp (λ _ _, eq_refl).

Section keyset.
Context {K : Type} `{TotalOrder K} {A : Type} (g : A → K).

Definition from_key (k : K) (l : list A) : list A :=
  sort_by (λ x y, tcmp (g x) (g y)) (filter (λ x, tcmp k (g x) = Lt) l).

Lemma from_key_elem k l x : x ∈ from_key k l ↔ tlt k (g x) ∧ x ∈ l.
Proof. unfold from_key. rewrite sort_by_perm. by rewrite list_elem_of_filter. Qed.

Lemma sorted_nodup_strict l :
  StronglySorted (key_le g) l → NoDup (g <$> l) → StronglySorted tlt (g <$> l).
Proof.
  induction 1 as [|x l Hl IH Hall]; cbn; [constructor|]. intros [Hx Hnd]%NoDup_cons.
  constructor; [by apply IH|]. rewrite Forall_fmap. rewrite Forall_forall in Hall |- *. intros y Hy.
  specialize (Hall y Hy). unfold compose, tlt, key_le in *. destruct (tcmp (g x) (g y)) eqn:E; [|done|done].
  apply tcmp_eq in E. exfalso. apply Hx. rewrite E. by apply list_elem_of_fmap_2.
Qed.

Lemma from_key_sorted k l : NoDup (g <$> l) → StronglySorted tlt (g <$> from_key k l).
Proof.
  intros Hnd. apply sorted_nodup_strict; [apply sort_by_sorted|]. unfold from_key. rewrite sort_by_perm.
  revert Hnd. induction l as [|x l IH]; cbn [fmap list_fmap]; [done|]. intros [Hx Hnd]%NoDup_cons.
  rewrite filter_cons. destruct (decide _); [|by apply IH]. cbn. constructor; [|by apply IH].
  intros (y & Hy & Hin)%list_elem_of_fmap. apply list_elem_of_filter in Hin as [_ Hin].
  apply Hx. rewrite Hy. by apply list_elem_of_fmap_2.
Qed.

(** What a strictly sorted list holds after its [i]th element. *)
Lemma filter_after (l : list A) i x :
  StronglySorted tlt (g <$> l) → l !! i = Some x → filter (λ y, tcmp (g x) (g y) = Lt) l = drop (S i) l.
Proof.
  revert i. induction l as [|y l IH]; intros i Hs Hi; [done|]. cbn in Hs.
  apply StronglySorted_inv in Hs as [Hs Hall]. rewrite Forall_fmap, Forall_forall in Hall.
  destruct i as [|i]; cbn in Hi.
  - injection Hi as ->. rewrite filter_cons_False by by rewrite tcmp_refl. cbn [drop].
    apply filter_all, Forall_forall. exact Hall.
  - rewrite filter_cons_False; [by apply IH|]. intros Hlt.
    assert (tlt (g y) (g x)) as Hyx by (apply Hall; by eapply list_elem_of_lookup_2).
    apply (tlt_irrefl (g x)). by eapply tlt_trans.
Qed.

(** Reading on after the last of the first [n] rows gives the others. *)
Lemma from_key_next k l n x :
  NoDup (g <$> l) → last (take n (from_key k l)) = Some x → from_key (g x) l = drop n (from_key k l).
Proof.
  intros Hnd Hx. pose proof (from_key_sorted k l Hnd) as Hs. set (L := from_key k l) in *.
  assert (∃ i, L !! i = Some x ∧ drop (S i) L = drop n L) as (i & Hi & Hd).
  { rewrite last_lookup, length_take in Hx. set (m := Nat.min n (length L)) in *.
    assert (m ≠ 0%nat) as Hm.
    { intros H0. apply lookup_lt_Some in Hx. rewrite length_take in Hx. fold m in Hx. lia. }
    rewrite lookup_take in Hx. destruct (decide _) as [Hlt|]; [|done].
    exists (pred m). split; [done|]. destruct (Nat.min_spec n (length L)) as [[Hc Hmin]|[Hc Hmin]].
    - f_equal. unfold m in *. lia.
    - rewrite !drop_ge; [done|lia|unfold m in *; lia]. }
  assert (tlt k (g x)) as Hkx by (apply (from_key_elem k l x); by eapply list_elem_of_lookup_2).
  apply sort_by_unique.
  - rewrite <-Hd, fmap_drop. revert Hs. generalize (g <$> L). intros ks. generalize (S i).
    induction ks as [|y ks IH]; intros [|j] Hs; cbn; try done. apply IH. by apply StronglySorted_inv in Hs as [? _].
  - rewrite <-Hd, <-(filter_after L i x Hs Hi). unfold L, from_key. rewrite sort_by_perm.
    rewrite list_filter_filter. apply reflexive_eq, list_filter_iff. intros y. split; [|by intros [? _]].
    intros Hy. split; [done|]. by eapply tlt_trans.
Qed.
End keyset.

(** ** Emptying the buffer *)

Definition events_of (frames : list Frame) : list StreamEvent :=
  omap (λ f, match f with EventFrame _ e => Some e | _ => None end) frames.

Lemma events_of_app a b : events_of (a ++ b) = (events_of a ++ events_of b)%list.
Proof. unfold events_of. by rewrite omap_app. Qed.

Lemma events_of_sse l : events_of (sse_event <$> l) = l.
Proof. induction l as [|e l IH]; [done|]. cbn. f_equal. exact IH. Qed.

Record same_stream (st st' : StreamState) : Prop := {
  same_contract : st_contract_id st' = st_contract_id st;
  same_name : st_event_name st' = st_event_name st;
  same_request : st_request_id st' = st_request_id st;
}.

#[local] Instance same_stream_preorder : PreOrder same_stream.
Proof. split; [done|]. intros s1 s2 s3 [] []. split; congruence. Qed.

Lemma drain_spec buf st :
  let '(frames, st') := drain_buffer buf st in
  frames = sse_event <$> buf ∧ same_stream st st' ∧ st_buffer st' = []
  ∧ cursor_pos (st_cursor st') = default (cursor_pos (st_cursor st)) (last (event_pos <$> buf)).
Proof.
  revert st. induction buf as [|e buf IH]; intros st; [done|]. cbn [drain_buffer].
  specialize (IH (advance_to e st)). destruct (drain_buffer buf (advance_to e st)) as [frames st'].
  destruct IH as (-> & Hs & Hb & Hc). split; [done|]. split; [by destruct Hs|]. split; [done|].
  rewrite Hc. destruct buf as [|e' buf]; [done|]. cbn [fmap list_fmap].
  change (last (event_pos e :: event_pos e' :: (event_pos <$> buf))) with (last (event_pos e' :: (event_pos <$> buf))).
  by destruct (last (event_pos e' :: _)) eqn:E; [|apply last_None in E].
Qed.

(** The state after emptying, and the frames of a turn. *)
Definition drained (st : StreamState) : StreamState := (drain_buffer (st_buffer st) st).2.

Lemma serve_eq inputs st :
  serve inputs st
  = ((sse_event <$> st_buffer st)
     ++ match inputs with
        | [] => []
        | i :: inputs' =>
            match wait i (drained st) with
            | Emitted f st => f :: serve inputs' st
            | Looped st => serve inputs' st
            | Ended => []
            end
        end)%list.
Proof.
  pose proof (drain_spec (st_buffer st) st) as Hd. unfold drained.
  destruct inputs; cbn [serve]; destruct (drain_buffer (st_buffer st) st) as [frames st']; by destruct Hd as (-> & _).
Qed.

Lemma drained_spec st :
  same_stream st (drained st) ∧ st_buffer (drained st) = []
  ∧ cursor_pos (st_cursor (drained st)) = default (cursor_pos (st_cursor st)) (last (event_pos <$> st_buffer st)).
Proof.
  pose proof (drain_spec (st_buffer st) st) as Hd. unfold drained.
  by destruct (drain_buffer _ _) as [frames st']; destruct Hd as (_ & ? & ? & ?).
Qed.

(** ** The rows a poll reads *)

Definition wanted (contract_id : string) (event_name : option string) (rows : list LogRow) : list LogRow :=
  filter (λ r, l_contract_id r = contract_id ∧ name_passes event_name (l_event_name r) = true) rows.

Lemma new_rows_from_key c n cursor rows :
  new_rows c n cursor rows = from_key row_pos (cursor_pos cursor) (wanted c n rows).
Proof.
  unfold new_rows, from_key, wanted. f_equal. rewrite list_filter_filter. apply list_filter_iff.
  intros r. cbn. tauto.
Qed.

Lemma wanted_nodup c n rows : NoDup (row_pos <$> rows) → NoDup (row_pos <$> wanted c n rows).
Proof.
  unfold wanted. induction rows as [|r rows IH]; cbn [fmap list_fmap]; [done|]. intros [Hx Hnd]%NoDup_cons.
  rewrite filter_cons. destruct (decide _); [|by apply IH]. cbn. constructor; [|by apply IH].
  intros (y & Hy & Hin)%list_elem_of_fmap. apply list_elem_of_filter in Hin as [_ Hin].
  apply Hx. rewrite Hy. by apply list_elem_of_fmap_2.
Qed.

Lemma stream_event_pos r e : stream_event_of r = Some e → event_pos e = row_pos r.
Proof. unfold stream_event_of. destruct (l_data r); [|done]. by intros [= <-]. Qed.

Lemma omap_events_sorted l :
  StronglySorted tlt (row_pos <$> l) → StronglySorted tlt (event_pos <$> omap stream_event_of l).
Proof.
  induction l as [|r l IH]; [constructor|]. change (row_pos <$> r :: l) with (row_pos r :: (row_pos <$> l)).
  intros [Hs Hall]%StronglySorted_inv. change (omap stream_event_of (r :: l)) with
    (match stream_event_of r with Some e => e :: omap stream_event_of l | None => omap stream_event_of l end).
  destruct (stream_event_of r) as [e|] eqn:E; [|by apply IH].
  change (event_pos <$> e :: omap stream_event_of l) with (event_pos e :: (event_pos <$> omap stream_event_of l)).
  constructor; [by apply IH|]. rewrite Forall_fmap, Forall_forall.
  rewrite Forall_fmap, Forall_forall in Hall.
  intros e' Hin. apply list_elem_of_omap in Hin as (r' & Hr' & He').
  unfold compose. rewrite (stream_event_pos r e), (stream_event_pos r' e') by done. by apply Hall.
Qed.

Lemma take_sorted {K} (lt : K → K → Prop) n (l : list K) : StronglySorted lt l → StronglySorted lt (take n l).
Proof.
  revert n. induction l as [|x l IH]; intros [|n] Hs; cbn; try constructor.
  - apply StronglySorted_inv in Hs as [Hs _]. by apply IH.
  - apply StronglySorted_inv in Hs as [_ Hall]. by apply Forall_take.
Qed.

Lemma fetch_spec c n cursor rows :
  NoDup (row_pos <$> rows) →
  let events := fetch_new_events c n cursor rows in
  StronglySorted tlt (event_pos <$> events) ∧ Forall (λ e, tlt (cursor_pos cursor) (event_pos e)) events
  ∧ Forall (λ e, ∃ r, r ∈ rows ∧ l_contract_id r = c ∧ name_passes n (l_event_name r) = true
                 ∧ stream_event_of r = Some e) events.
Proof.
  intros Hnd. cbv zeta. unfold fetch_new_events. rewrite new_rows_from_key. split; [|split].
  - apply omap_events_sorted. rewrite fmap_take. by apply take_sorted, from_key_sorted, wanted_nodup.
  - apply Forall_forall. intros e (r & Hr & He)%list_elem_of_omap.
    apply elem_of_take in Hr as (i & Hr & _). apply list_elem_of_lookup_2, from_key_elem in Hr as [Hlt _].
    by rewrite (stream_event_pos r e).
  - apply Forall_forall. intros e (r & Hr & He)%list_elem_of_omap.
    apply elem_of_take in Hr as (i & Hr & _). apply list_elem_of_lookup_2, from_key_elem in Hr as [_ Hin].
    unfold wanted in Hin. apply list_elem_of_filter in Hin as [[Hc Hn] Hin]. by exists r.
Qed.

(** ** A stream only moves forward *)

(** What an input can put on a stream. *)
Definition offers (st : StreamState) (i : Input) (e : StreamEvent) : Prop :=
  (∃ b, i_wake i = Received b ∧ bc_contract_id b = st_contract_id st
        ∧ name_passes (st_event_name st) (bc_event_name b) = true
        ∧ e = {| s_ledger := bc_ledger b; s_event_id := bc_event_id b; s_data := bc_data b |})
  ∨ (∃ rows r, i_table i = Some rows ∧ r ∈ rows ∧ l_contract_id r = st_contract_id st
        ∧ name_passes (st_event_name st) (l_event_name r) = true ∧ stream_event_of r = Some e).

Definition buffer_ok (st : StreamState) : Prop :=
  StronglySorted tlt (event_pos <$> st_buffer st)
  ∧ Forall (λ e, tlt (cursor_pos (st_cursor st)) (event_pos e)) (st_buffer st).

(** A turn that goes on leaves the stream's parameters; what it emits or
    buffers follows the cursor and was offered. *)
Lemma wait_spec i st :
  st_buffer st = [] → (∀ rows, i_table i = Some rows → NoDup (row_pos <$> rows)) →
  match wait i st with
  | Ended => True
  | Looped st' => same_stream st st' ∧ st_cursor st' = st_cursor st ∧ buffer_ok st' ∧ Forall (offers st i) (st_buffer st')
  | Emitted f st' =>
      same_stream st st' ∧ st_buffer st' = []
      ∧ ((∃ e, f = sse_event e ∧ tlt (cursor_pos (st_cursor st)) (event_pos e) ∧ offers st i e
              ∧ cursor_pos (st_cursor st') = event_pos e)
         ∨ f = ErrorFrame (st_request_id st) ∧ st_cursor st' = st_cursor st)
  end.
Proof.
  intros Hb Hnd.
  assert (match poll (i_table i) st with
    | Ended => True
    | Looped st' => same_stream st st' ∧ st_cursor st' = st_cursor st ∧ buffer_ok st' ∧ Forall (offers st i) (st_buffer st')
    | Emitted f st' => same_stream st st' ∧ st_buffer st' = [] ∧
        ((∃ e, f = sse_event e ∧ tlt (cursor_pos (st_cursor st)) (event_pos e) ∧ offers st i e
              ∧ cursor_pos (st_cursor st') = event_pos e)
         ∨ f = ErrorFrame (st_request_id st) ∧ st_cursor st' = st_cursor st) end) as Hpoll.
  { unfold poll. destruct (i_table i) as [rows|] eqn:Ht; [|split; [done|]; split; [done|by right]].
    destruct (fetch_spec (st_contract_id st) (st_event_name st) (st_cursor st) rows (Hnd rows eq_refl)) as (Hs & Hc & Hsrc).
    assert (Forall (offers st i) (fetch_new_events (st_contract_id st) (st_event_name st) (st_cursor st) rows)) as Hoff.
    { eapply Forall_impl; [exact Hsrc|]. intros e (r & Hr & Hcr & Hn & He). right. exists rows, r. by rewrite Ht. }
    destruct (fetch_new_events _ _ _ _) as [|e events]; [|done].
    split; [done|]. split; [done|]. unfold buffer_ok. rewrite Hb. split; [split; constructor|constructor]. }
  assert (same_stream st st ∧ st_cursor st = st_cursor st ∧ buffer_ok st ∧ Forall (offers st i) (st_buffer st)) as Hstay.
  { split; [done|]. split; [done|]. unfold buffer_ok. rewrite Hb. split; [split; constructor|constructor]. }
  unfold wait. destruct (i_wake i) as [b|dropped| |] eqn:Hw; [|exact Hpoll|done|by destruct (i_listener_up i)].
  destruct (String.eqb_spec (bc_contract_id b) (st_contract_id st)) as [Hc|]; cbn [negb]; [|exact Hstay].
  destruct (name_passes _ _) eqn:Hn; cbn [negb]; [|exact Hstay]. set (e := {| s_ledger := _ |}).
  destruct (pos_cmp (event_pos e) (cursor_pos (st_cursor st))) eqn:Hp; [exact Hstay..|].
  split; [done|]. split; [done|]. left. exists e. split; [done|].
  split; [by apply (tcmp_gt_lt (event_pos e))|]. split; [|done]. left. by exists b.
Qed.

Lemma sorted_app {K} (lt : K → K → Prop) (a b : list K) :
  StronglySorted lt a → StronglySorted lt b → (∀ x y, x ∈ a → y ∈ b → lt x y) → StronglySorted lt (a ++ b).
Proof.
  induction 1 as [|x a Ha IH Hall]; intros Hb Hab; [done|]. cbn. constructor.
  - apply IH; [done|]. intros. apply Hab; [by apply elem_of_cons; right|done].
  - apply Forall_app. split; [done|]. apply Forall_forall. intros y Hy. apply Hab; [apply list_elem_of_here|done].
Qed.

Lemma offers_same st st' i e : same_stream st st' → offers st' i e → offers st i e.
Proof. intros [Hc Hn _]. unfold offers. by rewrite Hc, Hn. Qed.

(** Nothing in a sorted list follows its last element. *)
Lemma sorted_last_le {K} `{TotalOrder K} {A} (g : A → K) l c x :
  StronglySorted tlt (g <$> l) → x ∈ l → g x = default c (last (g <$> l)) ∨ tlt (g x) (default c (last (g <$> l))).
Proof.
  induction l as [|y l IH]; [by intros _ ?%elem_of_nil|]. cbn [fmap list_fmap].
  intros [Hs Hall]%StronglySorted_inv Hx. destruct l as [|z l].
  - apply list_elem_of_singleton in Hx as ->. by left.
  - cbn [fmap list_fmap] in *. change (last (g y :: g z :: (g <$> l))) with (last (g z :: (g <$> l))).
    apply elem_of_cons in Hx as [->|Hx]; [|by apply IH]. right.
    destruct (last (g z :: (g <$> l))) as [k|] eqn:E; [|by apply last_None in E]. cbn.
    rewrite Forall_forall in Hall. apply Hall. by apply last_Some_elem_of.
Qed.

(** What a run emits from a cursor on, given what it may send. *)
Record emits (k : Z * string) (from : StreamEvent → Prop) (events : list StreamEvent) : Prop := {
  emits_sorted : StronglySorted tlt (event_pos <$> events);
  emits_after : Forall (λ e, tlt k (event_pos e)) events;
  emits_from : Forall from events;
}.

Lemma emits_impl k (P Q : StreamEvent → Prop) events : (∀ e, P e → Q e) → emits k P events → emits k Q events.
Proof. intros HPQ [Hs Ha Hf]. split; [done|done|]. eapply Forall_impl; [exact Hf|]. exact HPQ. Qed.

(** What follows the emptied buffer follows the buffer. *)
Lemma emits_app k P buf rest :
  emits k P buf → emits (default k (last (event_pos <$> buf))) P rest → emits k P (buf ++ rest)%list.
Proof.
  intros [Hs Hc Hf] [Hrs Hrc Hrf]. set (c1 := default k _) in *.
  assert (∀ x, x ∈ buf → event_pos x = c1 ∨ tlt (event_pos x) c1) as Hle.
  { intros x Hx. by apply sorted_last_le. }
  assert (k = c1 ∨ tlt k c1) as Hcc.
  { unfold c1. destruct (last (event_pos <$> buf)) as [k'|] eqn:E; [right|by left].
    apply last_Some_elem_of, list_elem_of_fmap in E as (e & -> & He). rewrite Forall_forall in Hc. by apply Hc. }
  clearbody c1. rewrite Forall_forall in Hrc. split.
  - rewrite fmap_app. apply sorted_app; [done|done|].
    intros x y (e & -> & He)%list_elem_of_fmap (e' & -> & He')%list_elem_of_fmap.
    specialize (Hrc e' He'). destruct (Hle e He) as [->|Hlt]; [done|]. by eapply tlt_trans.
  - apply Forall_app. split; [done|]. apply Forall_forall. intros e He. specialize (Hrc e He).
    destruct Hcc as [->|Hlt]; [done|]. by eapply tlt_trans.
  - by apply Forall_app.
Qed.

Lemma emits_nil k P : emits k P [].
Proof. split; constructor. Qed.

(** What a stream may send: its buffer, and what its inputs offer. *)
Definition sendable (st : StreamState) (inputs : list Input) (e : StreamEvent) : Prop :=
  e ∈ st_buffer st ∨ ∃ i, i ∈ inputs ∧ offers st i e.

Lemma sendable_next st st' i inputs e :
  same_stream st st' → Forall (offers st i) (st_buffer st') → sendable st' inputs e → sendable st (i :: inputs) e.
Proof.
  intros Hsame Ho [Hin|(i' & Hi' & Ho')]; right.
  - rewrite Forall_forall in Ho. exists i. split; [apply list_elem_of_here|by apply Ho].
  - exists i'. split; [by apply elem_of_cons; right|]. by eapply offers_same.
Qed.

Lemma sendable_drained st inputs e : sendable (drained st) inputs e → sendable st inputs e.
Proof.
  destruct (drained_spec st) as (Hsame & Hbuf & _). unfold sendable. rewrite Hbuf.
  intros [?%elem_of_nil|(i' & Hi' & Ho')]; [done|]. right. exists i'. split; [done|]. by eapply offers_same.
Qed.

(** C25: A stream only moves forward: whatever is broadcast, in any order, however
    often the channel overflows, and whatever the polls read or fail to read,
    the events a client is sent are strictly increasing in (ledger, event id)
    from its cursor on, so none is sent twice, and each is of the stream's
    contract and event name and was broadcast or read from the table. *)
Theorem stream_moves_forward inputs st :
  buffer_ok st →
  (∀ i rows, i ∈ inputs → i_table i = Some rows → NoDup (row_pos <$> rows)) →
  emits (cursor_pos (st_cursor st)) (sendable st inputs) (events_of (serve inputs st)).
Proof.
  revert st. induction inputs as [|i inputs IH]; intros st [Hs Hc] Hnd; rewrite serve_eq, events_of_app, events_of_sse.
  { rewrite app_nil_r. split; [done|done|]. apply Forall_forall. by left. }
  destruct (drained_spec st) as (Hsame & Hbuf & Hcur).
  apply emits_app; [split; [done|done|apply Forall_forall; by left]|]. rewrite <-Hcur.
  eapply emits_impl; [apply sendable_drained|].
  pose proof (wait_spec i (drained st) Hbuf (λ rows, Hnd i rows (list_elem_of_here _ _))) as Hw.
  assert (∀ i' rows, i' ∈ inputs → i_table i' = Some rows → NoDup (row_pos <$> rows)) as Hnd'.
  { intros i' rows Hi'. apply Hnd. by apply elem_of_cons; right. }
  destruct (wait i (drained st)) as [f st'|st'|]; [| |apply emits_nil].
  - destruct Hw as (Hsame' & Hb' & Hf).
    assert (emits (cursor_pos (st_cursor st')) (sendable (drained st) (i :: inputs)) (events_of (serve inputs st'))) as [H1 H2 H3].
    { eapply emits_impl; [|apply IH; [by unfold buffer_ok; rewrite Hb'; split; constructor|done]].
      intros e. apply sendable_next; [done|]. by rewrite Hb'. }
    destruct Hf as [(e & -> & He & Ho & Hc')|[-> Hc']]; rewrite Hc' in H2; [|done].
    change (events_of (sse_event e :: serve inputs st')) with (e :: events_of (serve inputs st')). split.
    + cbn [fmap list_fmap]. constructor; [done|]. by rewrite Forall_fmap.
    + constructor; [done|]. eapply Forall_impl; [exact H2|]. intros e' He'. by eapply tlt_trans.
    + constructor; [|done]. right. exists i. split; [apply list_elem_of_here|done].
  - destruct Hw as (Hsame' & Hc' & Hb' & Ho). rewrite <-Hc'.
    eapply emits_impl; [|by apply IH]. intros e. by apply sendable_next.
Qed.

(** ** Polling *)

Definition parses (r : LogRow) : Prop := is_Some (l_data r).

Lemma serve_drained inputs st : serve inputs st = ((sse_event <$> st_buffer st) ++ serve inputs (drained st))%list.
Proof.
  destruct (drained_spec st) as (_ & Hb & _). rewrite (serve_eq inputs (drained st)), Hb.
  assert (drained (drained st) = drained st) as ->.
  { unfold drained at 1. rewrite Hb. cbn. by destruct (drained st) as [? ? ? b ? ? ?]; cbn in *; rewrite Hb. }
  by rewrite serve_eq.
Qed.

Lemma omap_events_pos l : Forall parses l → event_pos <$> omap stream_event_of l = row_pos <$> l.
Proof.
  induction 1 as [|r l [d Hd] Hl IH]; [done|].
  change (omap stream_event_of (r :: l)) with
    (match stream_event_of r with Some e => e :: omap stream_event_of l | None => omap stream_event_of l end).
  unfold stream_event_of at 1. rewrite Hd. cbn. f_equal. exact IH.
Qed.

(** The rows a stream has yet to send. *)
Definition backlog (st : StreamState) (rows : list LogRow) : list LogRow :=
  new_rows (st_contract_id st) (st_event_name st) (st_cursor st) rows.

Lemma backlog_elem st rows r :
  r ∈ backlog st rows ↔
  tlt (cursor_pos (st_cursor st)) (row_pos r) ∧ r ∈ wanted (st_contract_id st) (st_event_name st) rows.
Proof. unfold backlog. rewrite new_rows_from_key. apply from_key_elem. Qed.

Lemma backlog_parses st rows : Forall parses rows → Forall parses (backlog st rows).
Proof.
  intros Hp. apply Forall_forall. intros r [_ [_ Hr]%list_elem_of_filter]%backlog_elem.
  rewrite Forall_forall in Hp. by apply Hp.
Qed.

(** A turn without a broadcast while the listener is down. *)
Definition poll_input (rows : list LogRow) : Input :=
  {| i_wake := Elapsed; i_listener_up := false; i_table := Some rows |}.

(** What a poll leaves: the buffer holds the next page, and behind it the
    backlog is the rest. *)
Lemma poll_page rows st :
  st_buffer st = [] → NoDup (row_pos <$> rows) → Forall parses rows →
  ∃ st', wait (poll_input rows) st = Looped st'
    ∧ st_buffer st' = omap stream_event_of (take FETCH_LIMIT (backlog st rows))
    ∧ backlog (drained st') rows = drop FETCH_LIMIT (backlog st rows).
Proof.
  intros Hb Hnd Hp. unfold wait, poll_input, poll. cbn [i_wake i_listener_up i_table].
  unfold fetch_new_events. fold (backlog st rows). set (L := backlog st rows).
  assert (Forall parses (take FETCH_LIMIT L)) as HT by by apply Forall_take, backlog_parses.
  pose proof (omap_events_pos _ HT) as Hpos. assert (last (event_pos <$> omap stream_event_of (take FETCH_LIMIT L))
    = row_pos <$> last (take FETCH_LIMIT L)) as Hlast by by rewrite Hpos, fmap_last.
  destruct (omap stream_event_of (take FETCH_LIMIT L)) as [|e es] eqn:E.
  - exists st. split; [done|]. split; [done|]. assert (L = []) as HL0.
    { apply (f_equal length) in Hpos. rewrite !length_fmap, length_take in Hpos. cbn [length] in Hpos.
      apply length_zero_iff_nil. unfold FETCH_LIMIT in Hpos. lia. }
    rewrite HL0, drop_nil. destruct (drained_spec st) as ([Hc Hn _] & _ & Hcur).
    unfold backlog in *. rewrite new_rows_from_key, Hc, Hn, Hcur, Hb. cbn. by rewrite <-new_rows_from_key.
  - exists (with_buffer (e :: es) st). split; [done|]. split; [done|].
    destruct (drained_spec (with_buffer (e :: es) st)) as ([Hc Hn _] & _ & Hcur).
    cbn [st_buffer with_buffer] in Hcur. rewrite Hlast in Hcur.
    destruct (last (take FETCH_LIMIT L)) as [x|] eqn:Ex.
    2: { apply last_None in Ex. by rewrite Ex in E. }
    cbn in Hcur. unfold backlog. rewrite new_rows_from_key, Hc, Hn, Hcur. cbn [st_contract_id st_event_name with_buffer].
    unfold L, backlog in Ex |- *. rewrite new_rows_from_key in Ex |- *.
    by apply from_key_next; [apply wanted_nodup|].
Qed.

(** Polling misses nothing: with the listener down, each poll delivers the next
    hundred rows of the stream's backlog, in order, and so [k] polls of the
    same table deliver exactly its first [100 * k] rows. *)
Theorem polling_complete rows k st :
  st_buffer st = [] → NoDup (row_pos <$> rows) → Forall parses rows →
  serve (replicate k (poll_input rows)) st
  = sse_event <$> omap stream_event_of (take (k * FETCH_LIMIT) (backlog st rows)).
Proof.
  intros Hb Hnd Hp. revert st Hb. induction k as [|k IH]; intros st Hb.
  { cbn [replicate Nat.mul]. rewrite serve_eq, Hb. by rewrite take_0. }
  change (replicate (S k) (poll_input rows)) with (poll_input rows :: replicate k (poll_input rows)).
  rewrite serve_eq, Hb.
  destruct (drained_spec st) as ([Hc Hn _] & Hbd & Hcur).
  assert (backlog (drained st) rows = backlog st rows) as Hbk.
  { unfold backlog. by rewrite !new_rows_from_key, Hc, Hn, Hcur, Hb. }
  destruct (poll_page rows (drained st) Hbd Hnd Hp) as (st' & -> & Hb' & Hk). rewrite Hbk in Hb', Hk.
  cbn [fmap list_fmap app]. rewrite serve_drained, IH by apply drained_spec.
  by rewrite Hb', Hk, <-fmap_app, <-omap_app, take_take_drop.
Qed.

(** ** The listener's catch-up *)

Definition publish_all (es : list BroadcastEvent) (f : EventFanout) : EventFanout :=
  {| sent := (sent f ++ es)%list; listener_up := listener_up f; lagged := lagged f |}.

Lemma publish_all_nil f : publish_all [] f = f.
Proof. destruct f. unfold publish_all. cbn. by rewrite app_nil_r. Qed.

Lemma publish_all_app a b f : publish_all b (publish_all a f) = publish_all (a ++ b)%list f.
Proof. unfold publish_all. cbn. by rewrite app_assoc. Qed.

(** Where the watermark stands after some rows. *)
Definition watermark (s : Z) (rows : list LogRow) : Z := default s (last (l_seq <$> rows)).

Lemma watermark_cons s r rows : watermark s (r :: rows) = watermark (l_seq r) rows.
Proof.
  unfold watermark. destruct rows as [|r' rows]; [done|]. cbn [fmap list_fmap].
  change (last (l_seq r :: l_seq r' :: (l_seq <$> rows))) with (last (l_seq r' :: (l_seq <$> rows))).
  by destruct (last (l_seq r' :: _)) eqn:E; [|apply last_None in E].
Qed.

Lemma watermark_app s a b : watermark s (a ++ b)%list = watermark (watermark s a) b.
Proof. revert s. induction a as [|r a IH]; intros s; [done|]. cbn [app]. by rewrite !watermark_cons. Qed.

Lemma broadcast_rows batch s f :
  foldl broadcast_row (s, f) batch = (watermark s batch, publish_all (omap broadcast_of batch) f).
Proof.
  revert s f. induction batch as [|r batch IH]; intros s f; [by cbn; rewrite publish_all_nil|].
  change (omap broadcast_of (r :: batch)) with
    (match broadcast_of r with Some e => e :: omap broadcast_of batch | None => omap broadcast_of batch end).
  cbn [foldl]. unfold broadcast_row at 2. cbn [snd]. rewrite IH, watermark_cons. f_equal.
  destruct (broadcast_of r) as [e|]; [|done].
  change (publish e f) with (publish_all [e] f). by rewrite publish_all_app.
Qed.

Lemma rows_after_from_key s rows : rows_after s rows = from_key l_seq s rows.
Proof. unfold rows_after, by_seq, from_key. cbn. f_equal. by apply list_filter_iff. Qed.

Lemma rows_after_take s rows n :
  NoDup (l_seq <$> rows) → rows_after (watermark s (take n (rows_after s rows))) rows = drop n (rows_after s rows).
Proof.
  intros Hnd. unfold watermark. rewrite fmap_last. destruct (last (take n (rows_after s rows))) as [x|] eqn:E.
  - cbn [fmap option_fmap option_map default from_option id]. rewrite rows_after_from_key in E |- *. rewrite rows_after_from_key.
    by apply from_key_next.
  - cbn. apply last_None in E. destruct n as [|n]; [done|]. by destruct (rows_after s rows).
Qed.

Lemma fetch_and_broadcast_eq rows s f :
  let batch := take CATCH_UP_BATCH (rows_after s rows) in
  fetch_and_broadcast rows (s, f) = (length batch, (watermark s batch, publish_all (omap broadcast_of batch) f)).
Proof. cbv zeta. unfold fetch_and_broadcast. cbn [fst]. by rewrite broadcast_rows. Qed.

(** A catch-up ends, and broadcasts every row after the watermark, in sequence
    order and each once, leaving the watermark at the last of them. *)
Theorem catch_up_complete rows fuel t s f :
  NoDup (l_seq <$> rows) → (length (rows_after s rows) < fuel)%nat →
  ∃ t', catch_up fuel (λ _, Some rows) t (s, f)
    = Some (true, t', (watermark s (rows_after s rows), publish_all (omap broadcast_of (rows_after s rows)) f)).
Proof.
  intros Hnd. revert t s f. induction fuel as [|fuel IH]; intros t s f Hf; [lia|].
  cbn [catch_up]. rewrite fetch_and_broadcast_eq. pose proof (rows_after_take s rows CATCH_UP_BATCH Hnd) as Hnext.
  set (L := rows_after s rows) in *. rewrite length_take.
  assert (0 < CATCH_UP_BATCH)%nat as HB by (unfold CATCH_UP_BATCH; lia).
  destruct (Nat.ltb_spec (Nat.min CATCH_UP_BATCH (length L)) CATCH_UP_BATCH) as [Hlt|Hge].
  - exists (S t). rewrite take_ge by lia. done.
  - destruct (IH (S t) (watermark s (take CATCH_UP_BATCH L)) (publish_all (omap broadcast_of (take CATCH_UP_BATCH L)) f))
      as (t' & Hc). { rewrite Hnext, length_drop. lia. }
    exists t'. rewrite Hc, Hnext, publish_all_app, <-omap_app, <-watermark_app, take_drop. done.
Qed.

(** However the table changes between the batches, and wherever a query fails,
    a catch-up broadcasts rows in strictly increasing sequence order above its
    watermark, so none twice. *)
Theorem catch_up_ordered fuel tables t s f ok t' s' f' :
  (∀ u rows, tables u = Some rows → NoDup (l_seq <$> rows)) →
  catch_up fuel tables t (s, f) = Some (ok, t', (s', f')) →
  ∃ L, s' = watermark s L ∧ f' = publish_all (omap broadcast_of L) f
    ∧ StronglySorted tlt (l_seq <$> L) ∧ Forall (λ r, s < l_seq r) L
    ∧ Forall (λ r, ∃ u rows, tables u = Some rows ∧ r ∈ rows) L.
Proof.
  intros Hnd. revert t s f. induction fuel as [|fuel IH]; intros t s f; [done|]. cbn [catch_up].
  destruct (tables t) as [rows|] eqn:Ht.
  2: { intros [= <- <- <- <-]. exists []. cbn. rewrite publish_all_nil. by repeat split; constructor. }
  rewrite fetch_and_broadcast_eq. set (B := take CATCH_UP_BATCH (rows_after s rows)).
  assert (StronglySorted tlt (l_seq <$> B)) as Hs.
  { unfold B. rewrite fmap_take, rows_after_from_key. apply take_sorted, from_key_sorted. by eapply Hnd. }
  assert (∀ r, r ∈ B → s < l_seq r ∧ r ∈ rows) as HB.
  { intros r (i & Hr & _)%elem_of_take. rewrite rows_after_from_key in Hr. by apply list_elem_of_lookup_2, (from_key_elem l_seq s rows r) in Hr. }
  assert (Forall (λ r, s < l_seq r) B) as Hgt by (apply Forall_forall; intros r Hr; by apply HB).
  assert (Forall (λ r, ∃ u rows', tables u = Some rows' ∧ r ∈ rows') B) as Hin.
  { apply Forall_forall. intros r Hr. exists t, rows. split; [done|]. by apply HB. }
  destruct (Nat.ltb _ _).
  - intros [= <- <- <- <-]. by exists B.
  - intros (L & -> & -> & HLs & HLgt & HLin)%IH. exists (B ++ L)%list.
    rewrite watermark_app, omap_app, publish_all_app. split; [done|]. split; [done|].
    rewrite Forall_forall in HLgt. assert (s ≤ watermark s B) as Hle.
    { unfold watermark. rewrite fmap_last. destruct (last B) as [x|] eqn:E; cbn; [|lia].
      apply last_Some_elem_of, HB in E as [? _]. lia. }
    split; [|split; [|by apply Forall_app]].
    + rewrite fmap_app. apply sorted_app; [done|done|].
      intros x y (r & -> & Hr)%list_elem_of_fmap (r' & -> & Hr')%list_elem_of_fmap.
      specialize (HLgt r' Hr'). change (l_seq r < l_seq r').
      destruct (sorted_last_le l_seq B s r Hs Hr) as [->|Hlt]; [done|]. by eapply Z.lt_trans.
    + apply Forall_app. split; [done|]. apply Forall_forall. intros r Hr. specialize (HLgt r Hr). lia.
Qed.

(** ** Live delivery *)

(** A turn that receives a broadcast. *)
Definition received (b : BroadcastEvent) : Input := {| i_wake := Received b; i_listener_up := true; i_table := None |}.

Definition matches (contract_id : string) (event_name : option string) (b : BroadcastEvent) : Prop :=
  bc_contract_id b = contract_id ∧ name_passes event_name (bc_event_name b) = true.

#[local] Instance matches_dec c n b : Decision (matches c n b).
Proof. unfold matches. apply _. Defined.
#[local] Instance tlt_dec {K} `{TotalOrder K} (x y : K) : Decision (tlt x y).
Proof. unfold tlt. apply _. Defined.

Definition stream_event_from (b : BroadcastEvent) : StreamEvent :=
  {| s_ledger := bc_ledger b; s_event_id := bc_event_id b; s_data := bc_data b |}.

Lemma drained_empty st : st_buffer st = [] → drained st = st.
Proof. intros Hb. unfold drained. rewrite Hb. cbn. destruct st; cbn in *; by subst. Qed.

Lemma wait_received b st :
  wait (received b) st
  = if decide (matches (st_contract_id st) (st_event_name st) b) then
      if decide (tlt (cursor_pos (st_cursor st)) (event_pos (stream_event_from b)))
      then Emitted (sse_event (stream_event_from b)) (advance_to (stream_event_from b) st) else Looped st
    else Looped st.
Proof.
  assert (matches (st_contract_id st) (st_event_name st) b ↔ String.eqb (bc_contract_id b) (st_contract_id st) = true
    ∧ name_passes (st_event_name st) (bc_event_name b) = true) as Hm by (unfold matches; by rewrite String.eqb_eq).
  unfold wait, received. cbn [i_wake]. destruct (decide (matches _ _ b)) as [[Hc Hn]%Hm|Hno].
  2: { destruct (String.eqb _ _); [|done]. destruct (name_passes _ _); [|done]. by destruct Hno; apply Hm. }
  rewrite Hc, Hn. cbn [negb]. change {| s_ledger := _ |} with (stream_event_from b).
  set (p := event_pos _). set (q := cursor_pos _). destruct (decide (tlt q p)) as [Hlt|Hnlt].
  - assert (tcmp p q = Gt) as Hgt by by apply tcmp_gt_lt. change (pos_cmp p q) with (tcmp p q). by rewrite Hgt.
  - destruct (pos_cmp p q) eqn:E; [done|done|]. destruct Hnlt. by apply (proj1 (tcmp_gt_lt p q)).
Qed.

(** What is broadcast to a stream in order reaches it whole: when the matching
    broadcasts are strictly increasing from the cursor on, each is sent, once
    and in order, and nothing else. *)
Theorem live_complete bs st :
  st_buffer st = [] →
  let mine := filter (matches (st_contract_id st) (st_event_name st)) bs in
  StronglySorted tlt (cursor_pos (st_cursor st) :: (event_pos ∘ stream_event_from <$> mine)) →
  serve (received <$> bs) st = sse_event ∘ stream_event_from <$> mine.
Proof.
  cbv zeta. revert st. induction bs as [|b bs IH]; intros st Hb; [by rewrite serve_eq, Hb|].
  change (received <$> b :: bs) with (received b :: (received <$> bs)).
  rewrite serve_eq, Hb, drained_empty, wait_received by done. cbn [fmap list_fmap app]. rewrite filter_cons.
  destruct (decide (matches _ _ b)) as [Hm|]; [|by intros; apply IH].
  intros [Hs Hall]%StronglySorted_inv.
  change (event_pos ∘ stream_event_from <$> b :: ?l) with
    (event_pos (stream_event_from b) :: (event_pos ∘ stream_event_from <$> l)) in *.
  apply Forall_cons in Hall as [Hlt _]. rewrite decide_True by done.
  change (sse_event ∘ stream_event_from <$> b :: ?l) with
    (sse_event (stream_event_from b) :: (sse_event ∘ stream_event_from <$> l)).
  f_equal. by apply (IH (advance_to (stream_event_from b) st)).
Qed.

(** The rows of one log, read by the listener and by a poll. *)
Lemma broadcast_matches c n r b :
  broadcast_of r = Some b → (matches c n b ↔ l_contract_id r = c ∧ name_passes n (l_event_name r) = true).
Proof. unfold broadcast_of. destruct (l_data r); [|done]. by intros [= <-]. Qed.

Lemma broadcast_event r : stream_event_from <$> broadcast_of r = stream_event_of r.
Proof. unfold broadcast_of, stream_event_of. by destruct (l_data r). Qed.

Lemma matching_broadcasts c n rows :
  stream_event_from <$> filter (matches c n) (omap broadcast_of rows) = omap stream_event_of (wanted c n rows).
Proof.
  unfold wanted. induction rows as [|r rows IH]; [done|].
  change (omap broadcast_of (r :: rows)) with
    (match broadcast_of r with Some e => e :: omap broadcast_of rows | None => omap broadcast_of rows end).
  rewrite (filter_cons _ r). pose proof (broadcast_event r) as He.
  destruct (broadcast_of r) as [b|] eqn:E; cbn in He.
  - rewrite filter_cons. pose proof (broadcast_matches c n r b E) as Hm.
    destruct (decide (matches c n b)), (decide (l_contract_id r = c ∧ _)); try tauto.
    cbn [fmap list_fmap]. rewrite IH. cbn. by rewrite <-He.
  - destruct (decide _); [|done]. rewrite IH. cbn. by rewrite <-He.
Qed.

Lemma rows_after_perm s rows : rows_after s rows ≡ₚ filter (λ r, s < l_seq r) rows.
Proof. apply sort_by_perm. Qed.

Lemma sorted_filter {K A} (lt : K → K → Prop) (g : A → K) (P : A → Prop) `{∀ x, Decision (P x)} (l : list A) :
  StronglySorted lt (g <$> l) → StronglySorted lt (g <$> filter P l).
Proof.
  induction l as [|x l IH]; [done|]. cbn [fmap list_fmap]. intros [Hs Hall]%StronglySorted_inv.
  rewrite filter_cons. destruct (decide (P x)); [|by apply IH]. cbn [fmap list_fmap].
  constructor; [by apply IH|]. rewrite Forall_fmap, Forall_forall in Hall.
  rewrite Forall_fmap, Forall_forall. intros y [_ Hy]%list_elem_of_filter. by apply Hall.
Qed.

Lemma sorted_transfer {K K' A} (lt : K → K → Prop) (lt' : K' → K' → Prop) (g : A → K) (h : A → K') (l : list A) :
  StronglySorted lt (g <$> l) → (∀ a b, a ∈ l → b ∈ l → lt (g a) (g b) → lt' (h a) (h b)) →
  StronglySorted lt' (h <$> l).
Proof.
  induction l as [|x l IH]; [constructor|]. cbn [fmap list_fmap]. intros [Hs Hall]%StronglySorted_inv Himp.
  constructor.
  - apply IH; [done|]. intros a b Ha Hb. apply Himp; by apply elem_of_cons; right.
  - rewrite Forall_fmap, Forall_forall. rewrite Forall_fmap, Forall_forall in Hall.
    intros y Hy. apply Himp; [apply list_elem_of_here|by apply elem_of_cons; right|by apply Hall].
Qed.

(** C26: Live and polled delivery agree: when sequence numbers follow (ledger, event
    id) and the watermark stands where the stream's cursor does, the rows one
    catch-up broadcasts give a stream the same frames, in the same order, as
    polling the table until its backlog is empty. *)
Theorem live_equals_polling rows last_seen f0 k st :
  st_buffer st = [] → NoDup (row_pos <$> rows) → NoDup (l_seq <$> rows) → Forall parses rows →
  (∀ a b, a ∈ rows → b ∈ rows → l_seq a < l_seq b → tlt (row_pos a) (row_pos b)) →
  (∀ r, r ∈ wanted (st_contract_id st) (st_event_name st) rows →
    last_seen < l_seq r ↔ tlt (cursor_pos (st_cursor st)) (row_pos r)) →
  (length (backlog st rows) ≤ k * FETCH_LIMIT)%nat →
  ∃ t s f, catch_up (S (length rows)) (λ _, Some rows) 0 (last_seen, f0) = Some (true, t, (s, f))
    ∧ ∃ bs, sent f = (sent f0 ++ bs)%list
      ∧ serve (received <$> bs) st = serve (replicate k (poll_input rows)) st.
Proof.
  intros Hb Hndp Hnds Hp Hagree Hcur Hk.
  destruct (catch_up_complete rows (S (length rows)) 0 last_seen f0 Hnds) as (t & Ht).
  { rewrite rows_after_from_key. unfold from_key. rewrite sort_by_perm. apply Nat.lt_succ_r, length_filter. }
  exists t. do 2 eexists. split; [exact Ht|]. eexists. split; [done|].
  rewrite polling_complete, take_ge by done. set (L := rows_after last_seen rows).
  assert (∀ r, r ∈ L → r ∈ rows) as HLin.
  { intros r Hr. unfold L in Hr. by rewrite rows_after_from_key in Hr; apply from_key_elem in Hr as [_ ?]. }
  assert (wanted (st_contract_id st) (st_event_name st) L = backlog st rows) as HL.
  { symmetry. unfold backlog. rewrite new_rows_from_key. apply sort_by_unique; [|].
    - apply (sorted_transfer tlt _ l_seq row_pos).
      + unfold wanted. apply sorted_filter. unfold L. rewrite rows_after_from_key. by apply from_key_sorted.
      + intros a b [_ Ha]%list_elem_of_filter [_ Hb']%list_elem_of_filter. apply Hagree; by apply HLin.
    - unfold wanted, L. rewrite rows_after_perm. rewrite !list_filter_filter. apply reflexive_eq, filter_ext_in.
      intros r Hr. cbn. split.
      + intros [Hlt Hw]. split; [done|]. by apply Hcur; [apply list_elem_of_filter|].
      + intros [Hw Hlt]. split; [|done]. by apply Hcur; [apply list_elem_of_filter|]. }
  rewrite live_complete; [|done|].
  - by rewrite list_fmap_compose, matching_broadcasts, HL.
  - rewrite list_fmap_compose, matching_broadcasts, HL, omap_events_pos by by apply backlog_parses.
    unfold backlog. rewrite new_rows_from_key. constructor; [by apply from_key_sorted, wanted_nodup|].
    rewrite Forall_fmap. apply Forall_forall. intros r Hr. by apply from_key_elem in Hr as [? _].
Qed.

(** ** Resuming *)

Lemma parse_last_event_id_of ledger event_id :
  in_i 64 ledger = true →
  parse_last_event_id (show_i ledger +:+ ":" +:+ event_id) = Some {| c_ledger := ledger; c_event_id := event_id |}.
Proof.
  intros Hl. unfold parse_last_event_id. change (":" +:+ event_id) with (String ":" event_id).
  rewrite split_once_app by by apply show_i_no_byte. cbn. rewrite trim_show_i, parse_int_show; [done|].
  by apply in_i_spec in Hl.
Qed.

(** The stream a client opens when it reconnects with the id of an event. *)
Lemma stream_events_resumed e q c rid rows :
  in_i 64 (s_ledger e) = true →
  ∃ st, stream_events (Some (show_i (s_ledger e) +:+ ":" +:+ s_event_id e)) q c rid rows = Some st
    ∧ st_contract_id st = c ∧ st_event_name st = q_event_name q ∧ st_buffer st = []
    ∧ cursor_pos (st_cursor st) = event_pos e ∧ 1 ≤ st_poll_secs st ≤ 60.
Proof.
  intros Hl. unfold stream_events, initial_cursor. cbn [mbind option_bind]. rewrite parse_last_event_id_of by done.
  eexists. split; [done|]. repeat split; cbn; lia.
Qed.

(** A client that reconnects loses nothing: with [Last-Event-ID] set to the id
    of the last event it was sent, its new stream, which may start on another
    server, polls on from the row after it, so both streams together give the
    frames one unbroken stream would have. *)
Theorem reconnect_seamless rows k1 k2 st q rid e id frames :
  st_buffer st = [] → NoDup (row_pos <$> rows) → Forall parses rows →
  Forall (λ r, in_i 64 (l_ledger r) = true) rows → q_event_name q = st_event_name st →
  serve (replicate k1 (poll_input rows)) st = (frames ++ [EventFrame id e])%list →
  ∃ st2, stream_events (Some id) q (st_contract_id st) rid (Some rows) = Some st2
    ∧ (serve (replicate k1 (poll_input rows)) st ++ serve (replicate k2 (poll_input rows)) st2)%list
      = serve (replicate (k1 + k2) (poll_input rows)) st.
Proof.
  intros Hb Hnd Hp Hl Hq Hserve. rewrite polling_complete in Hserve by done.
  set (T := take (k1 * FETCH_LIMIT) (backlog st rows)) in Hserve.
  assert (Forall parses T) as HT by by apply Forall_take, backlog_parses.
  apply (f_equal last) in Hserve. rewrite fmap_last, last_snoc in Hserve.
  destruct (last (omap stream_event_of T)) as [e'|] eqn:He; [|done]. injection Hserve as <- ->.
  assert (last (row_pos <$> T) = Some (event_pos e)) as Hlast by by rewrite <-omap_events_pos, fmap_last, He.
  rewrite fmap_last in Hlast. destruct (last T) as [x|] eqn:Hx; [|done]. injection Hlast as Hxl Hxi.
  assert (x ∈ rows) as Hin.
  { apply last_Some_elem_of, elem_of_take in Hx as (i & Hx & _).
    by apply list_elem_of_lookup_2, backlog_elem in Hx as [_ [_ ?]%list_elem_of_filter]. }
  rewrite Forall_forall in Hl. specialize (Hl x Hin). rewrite Hxl in Hl.
  destruct (stream_events_resumed e q (st_contract_id st) rid (Some rows) Hl) as (st2 & Hst2 & Hc & Hn & Hb2 & Hcur & _).
  exists st2. split; [exact Hst2|]. rewrite !polling_complete by done.
  assert (backlog st2 rows = drop (k1 * FETCH_LIMIT) (backlog st rows)) as ->.
  { unfold backlog. rewrite new_rows_from_key, Hcur, Hc, Hn, Hq.
    unfold T, backlog in Hx. rewrite new_rows_from_key in Hx |- *. rewrite <-(from_key_next row_pos _ _ _ x); [|by apply wanted_nodup|done].
    f_equal. unfold row_pos, event_pos. by rewrite Hxl, Hxi. }
  by rewrite <-fmap_app, <-omap_app, take_take_drop, Nat.mul_add_distr_r.
Qed.

(** ** Samples *)

Definition sample_row (n : Z) : LogRow := {|
  l_seq := n; l_ledger := 100 + n; l_contract_id := "C1"; l_event_id := "e"; l_event_name := Some "transfer";
  l_data := Some (JInt n) |}.

Definition sample_other (n : Z) : LogRow := {|
  l_seq := n; l_ledger := 100 + n; l_contract_id := "C2"; l_event_id := "e"; l_event_name := None;
  l_data := Some (JInt n) |}.

Definition sample_log : list LogRow := [sample_row 3; sample_other 2; sample_row 1; sample_row 4].

Definition sample_query : StreamQuery :=
  {| q_event_name := Some "transfer"; q_cursor := Some 101; q_cursor_event_id := None; q_poll_interval := 5 |}.

(** A stream that resumes after an event of ledger 101. *)
Definition sample_state : StreamState := {|
  st_contract_id := "C1"; st_event_name := Some "transfer";
  st_cursor := {| c_ledger := 101; c_event_id := "e" |}; st_buffer := []; st_poll_secs := 5;
  st_last_ledger := 101; st_request_id := "r" |}.

Definition sample_frame (n : Z) : Frame :=
  sse_event {| s_ledger := 100 + n; s_event_id := "e"; s_data := JInt n |}.

Definition sample_broadcast (n : Z) : BroadcastEvent :=
  {| bc_contract_id := "C1"; bc_event_name := Some "transfer"; bc_ledger := 100 + n; bc_event_id := "e"; bc_data := JInt n |}.

Lemma sample_log_nodup : NoDup (row_pos <$> sample_log).
Proof. apply (bool_decide_unpack _). by vm_compute. Qed.

Lemma sample_log_seqs : NoDup (l_seq <$> sample_log).
Proof. apply (bool_decide_unpack _). by vm_compute. Qed.

Lemma sample_log_parses : Forall parses sample_log.
Proof. repeat constructor; by eexists. Qed.

Example stream_moves_forward_witness :
  emits (101, "e") (sendable sample_state [received (sample_broadcast 3); poll_input sample_log])
    (events_of (serve [received (sample_broadcast 3); poll_input sample_log] sample_state))
  ∧ serve [received (sample_broadcast 3); poll_input sample_log] sample_state = [sample_frame 3; sample_frame 4].
Proof.
  split; [|by vm_compute]. apply (stream_moves_forward _ sample_state); [split; constructor|].
  intros i rows [->|[->|?%elem_of_nil]%elem_of_cons]%elem_of_cons Hi; [done| |done].
  injection Hi as <-. exact sample_log_nodup.
Defined.

Example polling_complete_witness :
  serve (replicate 2 (poll_input sample_log)) sample_state
  = sse_event <$> omap stream_event_of (take 200 (backlog sample_state sample_log))
  ∧ backlog sample_state sample_log = [sample_row 3; sample_row 4].
Proof.
  split; [|by vm_compute]. apply (polling_complete sample_log 2 sample_state eq_refl sample_log_nodup sample_log_parses).
Defined.

Example catch_up_complete_witness :
  ∃ t', catch_up 4 (λ _, Some sample_log) 0 (1, fanout_new)
    = Some (true, t', (4, publish_all (omap broadcast_of [sample_other 2; sample_row 3; sample_row 4]) fanout_new)).
Proof. apply (catch_up_complete sample_log 4 0 1 fanout_new sample_log_seqs). vm_compute. lia. Defined.

Example catch_up_ordered_witness :
  ∃ L, 4 = watermark 1 L ∧ publish_all (omap broadcast_of [sample_other 2; sample_row 3; sample_row 4]) fanout_new
      = publish_all (omap broadcast_of L) fanout_new
    ∧ StronglySorted tlt (l_seq <$> L) ∧ Forall (λ r, 1 < l_seq r) L
    ∧ Forall (λ r, ∃ u rows, (λ _ : nat, Some sample_log) u = Some rows ∧ r ∈ rows) L.
Proof.
  apply (catch_up_ordered 4 (λ _, Some sample_log) 0 1 fanout_new true 1); [|by vm_compute].
  intros u rows [= <-]. exact sample_log_seqs.
Defined.

Example live_complete_witness :
  serve (received <$> [sample_broadcast 3; sample_broadcast 4]) sample_state = [sample_frame 3; sample_frame 4].
Proof.
  apply (live_complete [sample_broadcast 3; sample_broadcast 4] sample_state eq_refl).
  vm_compute. repeat constructor.
Defined.

Example live_equals_polling_witness :
  ∃ t s f, catch_up 5 (λ _, Some sample_log) 0 (1, fanout_new) = Some (true, t, (s, f))
    ∧ ∃ bs, sent f = bs ∧ serve (received <$> bs) sample_state = serve (replicate 1 (poll_input sample_log)) sample_state.
Proof.
  apply (live_equals_polling sample_log 1 fanout_new 1 sample_state eq_refl sample_log_nodup sample_log_seqs sample_log_parses).
  - intros a b Ha Hb. repeat (apply elem_of_cons in Ha as [->|Ha]; [|]); try by apply elem_of_nil in Ha.
    all: repeat (apply elem_of_cons in Hb as [->|Hb]; [by vm_compute|]); by apply elem_of_nil in Hb.
  - intros r [_ Hr]%list_elem_of_filter.
    repeat (apply elem_of_cons in Hr as [->|Hr]; [by vm_compute|]); by apply elem_of_nil in Hr.
  - vm_compute. lia.
Defined.

Example reconnect_seamless_witness :
  ∃ st2, stream_events (Some "104:e") sample_query "C1" "r2" (Some sample_log) = Some st2
    ∧ (serve (replicate 1 (poll_input sample_log)) sample_state ++ serve (replicate 2 (poll_input sample_log)) st2)%list
      = serve (replicate 3 (poll_input sample_log)) sample_state.
Proof.
  apply (reconnect_seamless sample_log 1 2 sample_state sample_query "r2"
    {| s_ledger := 104; s_event_id := "e"; s_data := JInt 4 |} "104:e" [sample_frame 3] eq_refl
    sample_log_nodup sample_log_parses); [by repeat constructor|done|by vm_compute].
Defined.

(** *** What a stream can miss *)

(** While the listener is up a resumed stream does not read the rows after its
    cursor: the first broadcast moves the cursor past them, and a later poll
    starts behind it. *)
Example resume_skips_backlog :
  match stream_events (Some "101:e") sample_query "C1" "r" (Some sample_log) with
  | Some st =>
      serve [ {| i_wake := Elapsed; i_listener_up := true; i_table := Some sample_log |};
              received (sample_broadcast 4); poll_input sample_log ] st
  | None => []
  end = [sample_frame 4]
  ∧ (new_rows "C1" (Some "transfer") {| c_ledger := 101; c_event_id := "e" |} sample_log = [sample_row 3; sample_row 4]).
Proof. by vm_compute. Qed.

Definition sample_long : list LogRow := sample_row <$> seqZ 2 120.

(** A lagging stream reads a hundred rows; the next broadcast moves past the
    others. *)
Example lag_skips_rows :
  length (backlog sample_state sample_long) = 120%nat
  ∧ length (serve [ {| i_wake := Lagged 120; i_listener_up := true; i_table := Some sample_long |};
                    received (sample_broadcast 122); poll_input sample_long ] sample_state) = 101%nat.
Proof. by vm_compute. Qed.

(** A row whose transaction commits after a later [seq] was read is never
    broadcast. *)
Example late_commit_not_broadcast :
  match catch_up 2 (λ _, Some [sample_row 1; sample_row 3]) 0 (0, fanout_new) with
  | Some (_, _, st) => (λ r, bc_ledger <$> sent r.2.2) <$> catch_up 2 (λ _, Some [sample_row 1; sample_row 3; sample_row 2]) 0 st
  | None => None
  end = Some [101; 103].
Proof. by vm_compute. Qed.
