(* ===== verification/Models.v ===== *)
(** * Models: the rows routes and tools read ([lumenqraph-core/src/models.rs])

    The rows of the tables as the queries of the API and of the MCP server
    select them, and the shapes of query they share. *)
From S2P Require Import Prelude Text Containers Values Store Pagination.

Local Open Scope string_scope.
Local Open Scope Z_scope.

(** ** Rows *)

Record EventRow := {
  e_event_id : string;
  e_contract_id : string;
  e_ledger : Z;
  e_ledger_closed_at : DateTime;
  e_event_type : string;
  e_topics : list string;
  e_decoded_topics : Json;
  e_event_name : option string;
  e_value : string;
  e_decoded_value : Json;
  e_enriched : option Json;
  e_tx_hash : string;
  e_in_successful_call : bool;
  e_paging_token : string;
  e_created_at : DateTime;
}.

Record ContractRow := {
  c_contract_id : string;
  c_event_count : Z;
  c_first_seen_ledger : option Z;
  c_last_seen_ledger : option Z;
}.

Record AmmSwap := {
  w_event_id : string;
  w_contract_id : string;
  w_sender : option string;
  w_sell_token : option string;
  w_buy_token : option string;
  w_sell_amount : string;
  w_buy_amount : string;
  w_raw_event_name : option string;
  w_ledger : Z;
  w_ledger_closed_at : DateTime;
}.

Record NftRow := {
  f_event_id : string;
  f_contract_id : string;
  f_event_kind : string;
  f_from_addr : option string;
  f_to_addr : option string;
  f_token_id : string;
  f_ledger : Z;
  f_ledger_closed_at : DateTime;
}.

Record LiquidityRow := {
  q_event_id : string;
  q_contract_id : string;
  q_event_kind : string;
  q_provider : option string;
  q_amount_a : option string;
  q_amount_b : option string;
  q_shares : option string;
  q_raw_event_name : option string;
  q_extra_amounts : option Json;
  q_ledger : Z;
  q_ledger_closed_at : DateTime;
}.

Record InterfaceRow := {
  i_contract_id : string;
  i_interface : Json;
  i_has_events : bool;
  i_spec_section : string;
  i_wasm_hash : string;
  i_fetched_at : DateTime;
}.

Record UpgradeRow := {
  u_contract_id : string;
  u_version : Z;
  u_wasm_hash : string;
  u_previous_wasm_hash : option string;
  u_diff : option Json;
  u_breaking : bool;
  u_observed_at : DateTime;
  u_spec_section : string;
  u_interface : Json;
}.

Record StateRow := { z_contract_id : string; z_ledger : Z; z_storage : Json; z_captured_at : DateTime }.

Record KeyRow := {
  k_contract_id : string;
  k_key_hash : string;
  k_key : Json;
  k_durability : string;
  k_ledger : Z;
  k_value : Json;
  k_label : option string;
  k_captured_at : DateTime;
}.

(** ** Queries *)

(** [WHERE .. ORDER BY .. LIMIT ..]: rows that compare equal keep the order the
    table has them in. *)
Definition select {R} (where_ : R → bool) (order : R → R → comparison) (limit : Z) (rows : list R) : list R :=
  take (Z.to_nat limit) (sort_by order (base.filter (λ r, where_ r = true) rows)).

Definition newest_ledger {R} (ledger_of : R → Z) (a b : R) : comparison := Z.compare (ledger_of b) (ledger_of a).

(** [DISTINCT ON]: the first row of each run of equal keys. *)
Fixpoint distinct_on {R} (key : R → string) (previous : option string) (rows : list R) : list R :=
  match rows with
  | [] => []
  | r :: rows' =>
      if bool_decide (previous = Some (key r)) then distinct_on key previous rows'
      else r :: distinct_on key (Some (key r)) rows'
  end.

(** *** The latest row of every key *)

Section latest.
(** The order the database gives to [text]. *)
Context (collation : TotalOrder string).

(** [ORDER BY key_hash, ledger DESC]. *)
Definition hash_ledger_cmp (a b : string * Z) : comparison :=
  match @tcmp string collation a.1 b.1 with
  | Eq => Z.compare b.2 a.2
  | c => c
  end.

Definition hash_ledger (r : KeyRow) : string * Z := (k_key_hash r, k_ledger r).

(** The subquery [latest]. *)
Definition latest_keys (contract_id : string) (label : option string) (rows : list KeyRow) : list KeyRow :=
  distinct_on k_key_hash None
    (sort_by (λ a b, hash_ledger_cmp (hash_ledger a) (hash_ledger b))
       (base.filter (λ r, String.eqb (k_contract_id r) contract_id && opt_matches label (k_label r) = true) rows)).

#[local] Instance hash_ledger_order : TotalOrder (string * Z) :=
  order_as (lex_order collation (flip_order Z_asc)) hash_ledger_cmp (λ _ _, eq_refl).

(** [d] holds, for every key of [l] but [prev], one row: its newest. *)
Record one_per_key (prev : option string) (l d : list KeyRow) : Prop := {
  opk_sub : ∀ r, r ∈ d → r ∈ l;
  opk_nodup : NoDup (k_key_hash <$> d);
  opk_fresh : ∀ r, r ∈ d → prev ≠ Some (k_key_hash r);
  opk_all : ∀ r, r ∈ l → prev = Some (k_key_hash r)
            ∨ ∃ r', r' ∈ d ∧ k_key_hash r' = k_key_hash r ∧ k_ledger r ≤ k_ledger r';
}.

Lemma distinct_on_spec prev l :
  StronglySorted (key_le hash_ledger) l →
  (∀ p, prev = Some p → Forall (λ r, @tcmp string collation p (k_key_hash r) ≠ Gt) l) →
  one_per_key prev l (distinct_on k_key_hash prev l).
Proof.
  revert prev. induction l as [|r l IH]; intros prev Hs Hp; cbn [distinct_on].
  { split; [done|constructor|by intros ? ?%elem_of_nil|by intros ? ?%elem_of_nil]. }
  apply StronglySorted_inv in Hs as [Hs Hall].
  destruct (bool_decide_reflect (prev = Some (k_key_hash r))) as [->|Hne].
  - destruct (IH (Some (k_key_hash r)) Hs) as [Hsub Hnd Hfr Hcov].
    { intros p [= <-]. specialize (Hp _ eq_refl). by apply Forall_cons in Hp as [_ Hp]. }
    split; [intros x Hx; apply elem_of_cons; right; by apply Hsub|done|done|].
    intros x [->|Hx]%elem_of_cons; [by left|by apply Hcov].
  - assert (Forall (λ y, @tcmp string collation (k_key_hash r) (k_key_hash y) ≠ Gt) l) as Hge.
    { eapply Forall_impl; [exact Hall|]. intros y. unfold key_le, hash_ledger. cbn. unfold hash_ledger_cmp. cbn.
      by destruct (@tcmp string collation _ _). }
    destruct (IH (Some (k_key_hash r)) Hs) as [Hsub Hnd Hfr Hcov]; [by intros p [= <-]|]. split.
    + intros x [->|Hx]%elem_of_cons; [apply list_elem_of_here|]. apply elem_of_cons. right. by apply Hsub.
    + cbn [fmap list_fmap]. constructor; [|done]. intros (y & Hy & Hin)%list_elem_of_fmap.
      apply (Hfr y Hin). by rewrite Hy.
    + intros x [->|Hx]%elem_of_cons; [done|]. intros Hprev. specialize (Hp _ Hprev).
      apply Forall_cons in Hp as [Hpr _]. rewrite Forall_forall in Hge. specialize (Hge x (Hsub x Hx)).
      apply (Hfr x Hx). f_equal. destruct (@tcmp string collation (k_key_hash r) (k_key_hash x)) eqn:E; [by apply tcmp_eq in E| |done].
      rewrite (@tcmp_antisym string collation (k_key_hash r)), E in Hpr. done.
    + intros x [->|Hx]%elem_of_cons; [right; exists r; split; [apply list_elem_of_here|done]|].
      destruct (Hcov x Hx) as [[= Heq]|(x' & Hx' & Hk & Hl)].
      * right. exists r. split; [apply list_elem_of_here|]. split; [done|].
        rewrite Forall_forall in Hall. specialize (Hall x Hx). unfold key_le, hash_ledger in Hall.
        cbn in Hall. unfold hash_ledger_cmp in Hall. cbn in Hall. rewrite <-Heq, tcmp_refl in Hall. by apply Z.compare_le_iff.
      * right. exists x'. split; [by apply elem_of_cons; right|done].
Qed.

Lemma one_per_key_perm prev l l' d d' : l ≡ₚ l' → d ≡ₚ d' → one_per_key prev l d → one_per_key prev l' d'.
Proof.
  intros Hl Hd [Hs Hn Hf Ha]. split; [|by rewrite <-Hd| |].
  - intros r. rewrite <-Hd, <-Hl. apply Hs.
  - intros r. rewrite <-Hd. apply Hf.
  - intros r. rewrite <-Hl. intros Hr. destruct (Ha r Hr) as [?|(r' & Hr' & ?)]; [by left|]. right.
    exists r'. by rewrite <-Hd.
Qed.
End latest.
