(* ===== verification/EventRoutes.v ===== *)
(** * EventRoutes: the paged lists of the API ([lumenqraph-api/src/routes])

    [events.rs], [swaps.rs], [nfts.rs], [liquidity.rs] and the extractor of
    [extract.rs]: every list is a keyset page over the rows its filters keep.
    [db] is the table the statement sees, or the driver's error text.  Postgres'
    comparison of [jsonb] values, the driver's rounding of times and [chrono]'s
    parser are the class [PgLib]. *)
From S2P Require Import Prelude Text Containers Values Instances Serde XdrDecode Store Pagination ApiError Models.
From Stdlib Require Import Ascii.

Local Open Scope string_scope.
Local Open Scope Z_scope.

(** [jsonb_eq] is [=] on [jsonb]; [bound] a time as a parameter carries it. *)
Class PgLib := {
  jsonb_eq : Json → Json → bool;
  bound : DateTime → DateTime;
  parse_from_rfc3339 : string → option DateTime;
  (** [serde_json::from_str]. *)
  json_of_text : string → option Json;
  jsonb_eq_str v s : jsonb_eq v (JStr s) = true ↔ v = JStr s;
}.

(** The path parameter, as the extractor finds it. *)
Definition valid_contract_id `{Stellar} (param : option string) : result ApiError string :=
  contract_id ← ok_or invalid_contract_id param;
  if is_valid_contract_id contract_id then Ok contract_id else Err invalid_contract_id.

(** ** Filters *)

(** [$n IS NULL OR f $n]. *)
Definition unless_null {A} (q : option A) (f : A → bool) : bool := match q with Some a => f a | None => true end.

(** [column = $n], which a null column is not. *)
Definition column_is (column : option string) (s : string) : bool := bool_decide (column = Some s).

(** The cursor's condition of a list in descending order. *)
Definition below (collation : TotalOrder string) (c : option (Z * string)) (k : Z * string) : bool :=
  match c with
  | None => true
  | Some (l, e) => (k.1 <? l) || ((k.1 =? l) && match @tcmp string collation k.2 e with Lt => true | _ => false end)
  end.

(** The same in ascending order. *)
Definition above (collation : TotalOrder string) (c : option (Z * string)) (k : Z * string) : bool :=
  match c with
  | None => true
  | Some (l, e) => (l <? k.1) || ((k.1 =? l) && match @tcmp string collation k.2 e with Gt => true | _ => false end)
  end.

Section routes.
Context `{Stellar} `{Base64} `{PgLib} (collation : TotalOrder string).

(** A statement, then a page: [where_] keeps the rows of the [WHERE] clause but
    for the cursor's condition. *)
Definition answer_page {R} (key : R → Z * string) (order : TotalOrder (Z * string))
    (after_cursor : option (Z * string) → Z * string → bool) (where_ : R → bool)
    (page : PageRequest LedgerCursor) (db : result string (list R)) : result ApiError (Page R) :=
  rows ← map_err Internal db;
  Ok (finish page (keyset_rows key order (λ c r, after_cursor c (key r)) page (base.filter (λ r, where_ r = true) rows)) key).

Definition parse_request (lim off : Z) (aft : option string) : result ApiError (PageRequest LedgerCursor) :=
  map_err page_error (parse_page (C := LedgerCursor) lim 1000 off aft).

(** ** Events *)

Record EventsQuery := {
  ev_limit : Z;
  ev_offset : Z;
  ev_after : option string;
  ev_event_name : option string;
  ev_from_ledger : option Z;
  ev_to_ledger : option Z;
  ev_since : option string;
  ev_until : option string;
  ev_topic0 : option string;
  ev_topic1 : option string;
  ev_topic2 : option string;
  ev_topic3 : option string;
  ev_param : option string;
  ev_successful_only : option bool;
}.

Definition default_events_limit : Z := 50.

Definition parse_topic_filter (raw : option string) : result ApiError (option Json) :=
  match raw with
  | None => Ok None
  | Some raw =>
      value ← (if starts_with (of_bytes [dquote]) raw || starts_with "[" raw || starts_with "{" raw
               then ok_or (bad_request "topic filter is not valid JSON") (json_of_text raw)
               else Ok (JStr raw));
      Ok (Some value)
  end.

(** The name and the value of the one field that must be contained. *)
Definition parse_param_filter (raw : option string) : result ApiError (option (string * string)) :=
  match raw with
  | None => Ok None
  | Some raw =>
      let malformed := bad_request "param must be in the form name:value, e.g. param=from:GABC..." in
      match split_once ":" raw with
      | Some (name, value) => if String.eqb name "" then Err malformed else Ok (Some (name, value))
      | None => Err malformed
      end
  end.

Definition parse_time (field : string) (raw : option string) : result ApiError (option DateTime) :=
  match raw with
  | None => Ok None
  | Some s =>
      t ← ok_or (bad_request ("Invalid '" +:+ field +:+ "' timestamp format (RFC3339)")) (parse_from_rfc3339 s);
      Ok (Some t)
  end.

(** [lo > hi], when both are given. *)
Definition reversed (lo hi : option Z) : bool :=
  match lo, hi with Some a, Some b => b <? a | _, _ => false end.

(** [decoded_topics -> n]. *)
Definition topic_at (n : nat) (topics : Json) : option Json :=
  match topics with JArr l => l !! n | _ => None end.

Definition topic_is (n : nat) (e : EventRow) (v : Json) : bool :=
  match topic_at n (e_decoded_topics e) with Some t => jsonb_eq t v | None => false end.

(** [enriched @> {name: value}]. *)
Definition has_param (e : EventRow) (p : string * string) : bool :=
  match e_enriched e ≫= json_get p.1 with Some (JStr s) => String.eqb s p.2 | _ => false end.

(** [\u0000], which [jsonb] does not hold: the statement's cast fails. *)
Definition has_nul (s : string) : bool := bool_decide ("000"%char ∈ bytes s).

Fixpoint json_has_nul (v : Json) : bool :=
  match v with
  | JStr s => has_nul s
  | JArr l => existsb json_has_nul l
  | JObj m => existsb (λ p, has_nul p.1 || json_has_nul p.2) m
  | _ => false
  end.

Definition casts (topics : list (option Json)) (param : option (string * string)) : bool :=
  forallb (λ o, unless_null o (λ v, negb (json_has_nul v))) topics
  && unless_null param (λ p, negb (has_nul p.1 || has_nul p.2)).

(** What the statement is given. *)
Record EventFilters := {
  f_contract : string;
  f_name : option string;
  f_from : option Z;
  f_to : option Z;
  f_since : option DateTime;
  f_until : option DateTime;
  f_topics : list (option Json);
  f_param : option (string * string);
  f_successful : option bool;
}.

Definition event_where (f : EventFilters) (e : EventRow) : bool :=
  String.eqb (e_contract_id e) (f_contract f)
  && unless_null (f_name f) (column_is (e_event_name e))
  && unless_null (f_from f) (λ l, l <=? e_ledger e)
  && unless_null (f_to f) (λ l, e_ledger e <=? l)
  && unless_null (f_since f) (λ t, bound t <=? e_ledger_closed_at e)
  && unless_null (f_until f) (λ t, e_ledger_closed_at e <=? bound t)
  && forallb (λ '(n, o), unless_null o (topic_is n e)) (imap pair (f_topics f))
  && unless_null (f_param f) (has_param e)
  && unless_null (f_successful f) (Bool.eqb (e_in_successful_call e)).

Definition event_key (e : EventRow) : Z * string := (e_ledger e, e_event_id e).

(** The parameters of a request, checked in the handler's order. *)
Definition parse_events (contract_id : string) (q : EventsQuery)
    : result ApiError (EventFilters * PageRequest LedgerCursor) :=
  topic0 ← parse_topic_filter (ev_topic0 q);
  topic1 ← parse_topic_filter (ev_topic1 q);
  topic2 ← parse_topic_filter (ev_topic2 q);
  topic3 ← parse_topic_filter (ev_topic3 q);
  param ← parse_param_filter (ev_param q);
  page ← parse_request (ev_limit q) (ev_offset q) (ev_after q);
  since ← parse_time "since" (ev_since q);
  until_ ← parse_time "until" (ev_until q);
  _ ← (if reversed since until_ then Err (bad_request "'since' must be before 'until'") else Ok tt);
  _ ← (if reversed (ev_from_ledger q) (ev_to_ledger q)
       then Err (bad_request "'from_ledger' must be <= 'to_ledger'") else Ok tt);
  Ok ({| f_contract := contract_id; f_name := ev_event_name q; f_from := ev_from_ledger q; f_to := ev_to_ledger q;
         f_since := since; f_until := until_; f_topics := [topic0; topic1; topic2; topic3]; f_param := param;
         f_successful := ev_successful_only q |}, page).

Definition list_events (param : option string) (q : EventsQuery) (db : result string (list EventRow))
    : result ApiError (Page EventRow) :=
  contract_id ← valid_contract_id param;
  '(f, page) ← parse_events contract_id q;
  if casts (f_topics f) (f_param f)
  then answer_page event_key (desc_order collation) (below collation) (event_where f) page db
  else Err (Internal "unsupported Unicode escape sequence").

Definition get_event (event_id : string) (db : result string (list EventRow)) : result ApiError EventRow :=
  rows ← map_err Internal db;
  ok_or (not_found ("no event found with id '" +:+ event_id +:+ "'"))
    (List.find (λ e, String.eqb (e_event_id e) event_id) rows).

(** ** The events of a transaction *)

Definition is_ascii_hexdigit (a : ascii) : bool :=
  let n := Z.of_nat (nat_of_ascii a) in
  c_in 48 57 n || c_in 65 70 n || c_in 97 102 n.

Definition normalize_tx_hash (raw : string) : result ApiError string :=
  if (String.length raw =? 64)%nat && forallb is_ascii_hexdigit (bytes raw)
  then Ok (to_ascii_lowercase raw)
  else Err (bad_request "tx_hash must be 64 hexadecimal characters").

Record TxEventsQuery := { tx_limit : option Z; tx_after : option string; tx_successful_only : option bool }.

Record TxEventsResponse := {
  tr_tx_hash : string;
  tr_count : nat;
  tr_has_more : bool;
  tr_next_cursor : option string;
  tr_data : list EventRow;
}.

Definition tx_where (tx_hash : string) (successful_only : option bool) (e : EventRow) : bool :=
  String.eqb (e_tx_hash e) tx_hash && unless_null successful_only (Bool.eqb (e_in_successful_call e)).
(** [(ledger, event_id)], ascending. *)
Definition asc_cmp (a b : Z * string) : comparison :=
  match Z.compare a.1 b.1 with
  | Eq => @tcmp string collation a.2 b.2
  | c => c
  end.

Definition asc_order : TotalOrder (Z * string) :=
  order_as (lex_order Z_asc collation) asc_cmp (λ _ _, eq_refl).

(** [page_transaction_events]. *)
Definition page_transaction_events (tx_hash : string) (successful_only : option bool)
    (request : PageRequest LedgerCursor) (db : result string (list EventRow)) : result ApiError (Page EventRow) :=
  answer_page event_key asc_order (above collation) (tx_where tx_hash successful_only) request db.

Definition transaction_events (tx_hash : string) (q : TxEventsQuery) (db : result string (list EventRow))
    : result ApiError TxEventsResponse :=
  tx_hash ← normalize_tx_hash tx_hash;
  page ← parse_request (default 100 (tx_limit q)) 0 (tx_after q);
  page ← page_transaction_events tx_hash (tx_successful_only q) page db;
  Ok {| tr_tx_hash := tx_hash; tr_count := length (data page); tr_has_more := has_more page;
        tr_next_cursor := next_cursor page; tr_data := data page |}.

(** ** Swaps, NFT events, liquidity *)

Record SwapsQuery := {
  sw_limit : Z; sw_offset : Z; sw_after : option string;
  sw_sender : option string; sw_sell_token : option string; sw_buy_token : option string }.

Definition swap_where (contract_id : string) (q : SwapsQuery) (w : AmmSwap) : bool :=
  String.eqb (w_contract_id w) contract_id && unless_null (sw_sender q) (column_is (w_sender w))
  && unless_null (sw_sell_token q) (column_is (w_sell_token w))
  && unless_null (sw_buy_token q) (column_is (w_buy_token w)).

Definition swap_key (w : AmmSwap) : Z * string := (w_ledger w, w_event_id w).

Definition list_swaps (param : option string) (q : SwapsQuery) (db : result string (list AmmSwap))
    : result ApiError (Page AmmSwap) :=
  contract_id ← valid_contract_id param;
  page ← parse_request (sw_limit q) (sw_offset q) (sw_after q);
  answer_page swap_key (desc_order collation) (below collation) (swap_where contract_id q) page db.

Record NftsQuery := {
  nf_limit : Z; nf_offset : Z; nf_after : option string;
  nf_kind : option string; nf_from : option string; nf_to : option string; nf_token_id : option string }.

(** A kind that is given is one of [kinds]. *)
Definition kind_allowed (kinds : list string) (message : string) (kind : option string) : result ApiError unit :=
  if unless_null kind (λ k, bool_decide (k ∈ kinds)) then Ok tt else Err (bad_request message).

Definition nft_where (contract_id : string) (q : NftsQuery) (f : NftRow) : bool :=
  String.eqb (f_contract_id f) contract_id && unless_null (nf_kind q) (String.eqb (f_event_kind f))
  && unless_null (nf_from q) (column_is (f_from_addr f)) && unless_null (nf_to q) (column_is (f_to_addr f))
  && unless_null (nf_token_id q) (String.eqb (f_token_id f)).

Definition nft_key (f : NftRow) : Z * string := (f_ledger f, f_event_id f).

Definition list_nft_events (param : option string) (q : NftsQuery) (db : result string (list NftRow))
    : result ApiError (Page NftRow) :=
  contract_id ← valid_contract_id param;
  _ ← kind_allowed ["mint"; "transfer"; "burn"] "kind must be one of: mint, transfer, burn" (nf_kind q);
  page ← parse_request (nf_limit q) (nf_offset q) (nf_after q);
  answer_page nft_key (desc_order collation) (below collation) (nft_where contract_id q) page db.

Record LiquidityQuery := {
  lq_limit : Z; lq_offset : Z; lq_after : option string; lq_kind : option string; lq_provider : option string }.

Definition liquidity_where (contract_id : string) (q : LiquidityQuery) (r : LiquidityRow) : bool :=
  String.eqb (q_contract_id r) contract_id && unless_null (lq_kind q) (String.eqb (q_event_kind r))
  && unless_null (lq_provider q) (column_is (q_provider r)).

Definition liquidity_key (r : LiquidityRow) : Z * string := (q_ledger r, q_event_id r).

Definition list_liquidity_events (param : option string) (q : LiquidityQuery) (db : result string (list LiquidityRow))
    : result ApiError (Page LiquidityRow) :=
  contract_id ← valid_contract_id param;
  _ ← kind_allowed ["add"; "remove"] "kind must be one of: add, remove" (lq_kind q);
  page ← parse_request (lq_limit q) (lq_offset q) (lq_after q);
  answer_page liquidity_key (desc_order collation) (below collation) (liquidity_where contract_id q) page db.
End routes.

(** ** Following a list *)

Lemma follow_map_err {E F T} (f : E → F) (page : option string → result E (Page T)) fuel : ∀ aft,
  follow fuel (λ c, map_err f (page c)) aft = map_err f (follow fuel page aft).
Proof.
  induction fuel as [|fuel IH]; intros aft; [done|]. cbn [follow].
  destruct (page aft) as [p|]; [|done]. cbn [map_err mbind result_bind].
  destruct (next_cursor p); [|done]. rewrite IH. by destruct (follow fuel page _).
Qed.

Lemma follow_ext {E T} (page page' : option string → result E (Page T)) fuel :
  (∀ c, page c = page' c) → ∀ aft, follow fuel page aft = follow fuel page' aft.
Proof.
  intros Hext. induction fuel as [|fuel IH]; intros aft; [done|]. cbn [follow]. rewrite Hext.
  destruct (page' aft) as [p|]; [|done]. cbn [mbind result_bind]. by destruct (next_cursor p); [rewrite IH|].
Qed.

(** What a table holds: ids are unique, ledgers are 64-bit, ids are text. *)
Definition table_wf {R} (key : R → Z * string) (rows : list R) : Prop :=
  NoDup ((λ r, (key r).2) <$> rows)
  ∧ ∀ r, r ∈ rows → - 2 ^ 63 ≤ (key r).1 < 2 ^ 63 ∧ utf8_valid (key r).2 = true.

(** [l] is the rows a client wants, each once, in strict order. *)
Definition listing {R} (key : R → Z * string) (cmp : Z * string → Z * string → comparison)
    (rows : list R) (wanted : R → Prop) (l : list R) : Prop :=
  (∀ r, r ∈ l ↔ r ∈ rows ∧ wanted r) ∧ StronglySorted (λ a b, cmp (key a) (key b) = Lt) l.

Section lists.
Context `{Stellar} `{Base64} `{PgLib} (collation : TotalOrder string).

Lemma above_tlt l e (k : Z * string) :
  above collation (Some (l, e)) k = true ↔ @tlt _ (asc_order collation) (l, e) k.
Proof.
  unfold tlt, above. cbn [tcmp asc_order order_as]. unfold asc_cmp. cbn [fst snd].
  rewrite (@tcmp_antisym string collation k.2 e).
  destruct (Z.compare_spec l k.1) as [E|E|E].
  - destruct (Z.ltb_spec l k.1); [lia|]. destruct (Z.eqb_spec k.1 l); [|lia].
    cbn. by destruct (tcmp _ _).
  - destruct (Z.ltb_spec l k.1); [done|lia].
  - destruct (Z.ltb_spec l k.1); [lia|]. destruct (Z.eqb_spec k.1 l); [lia|]. done.
Qed.

Section any_list.
Context {R : Type} (key : R → Z * string) (order : TotalOrder (Z * string)).
Context (after_cursor : option (Z * string) → Z * string → bool).
Context (after_none : ∀ k, after_cursor None k = true).
Context (after_some : ∀ c k, after_cursor (Some c) k = true ↔ @tlt _ order c k).

(** A handler that parses its page and answers it lists what [where_] keeps. *)
Lemma answer_listing rows where_ lim off fuel :
  table_wf key rows → off ≤ MAX_OFFSET → (length rows < fuel)%nat →
  ∃ l, listing key (@tcmp _ order) rows (λ r, where_ r = true) l
  ∧ follow fuel (λ aft, page ← parse_request lim off aft; answer_page key order after_cursor where_ page (Ok rows)) None
    = Ok (drop (Z.to_nat off) l).
Proof.
  intros [Hids Hwf] Hoff Hfuel. set (kept := base.filter (λ r, where_ r = true) rows).
  assert (NoDup (key <$> kept)) as Hnd.
  { apply (NoDup_fmap_1 snd). rewrite <- list_fmap_compose.
    eapply sublist_NoDup; [exact Hids|apply fmap_sublist, sublist_filter]. }
  exists (in_order key order kept). split.
  - split; [|by apply in_order_strict]. intros r. rewrite in_order_perm. unfold kept.
    rewrite list_elem_of_filter. tauto.
  - rewrite (follow_ext _ (λ aft, map_err page_error
      (keyset_page key order (λ c r, after_cursor c (key r)) 1000 lim off kept aft))).
    + rewrite follow_map_err, follow_all; [done|lia|done|intros; apply after_some|done| |done|].
      * intros r [_ Hr]%list_elem_of_filter. by apply Hwf.
      * unfold kept. pose proof (length_filter (λ r, where_ r = true) rows). lia.
    + intros aft. unfold keyset_page, parse_request, answer_page. by destruct (parse_page _ _ _ _).
Qed.
End any_list.

Lemma listing_ext {R} (key : R → Z * string) cmp rows (P Q : R → Prop) l :
  (∀ r, P r ↔ Q r) → listing key cmp rows P l → listing key cmp rows Q l.
Proof. intros HPQ [Hin Hs]. split; [|done]. intros r. by rewrite Hin, HPQ. Qed.

Lemma unless_null_true {A} (q : option A) f : unless_null q f = true ↔ ∀ a, q = Some a → f a = true.
Proof. destruct q; cbn; naive_solver. Qed.

Lemma column_is_true c s : column_is c s = true ↔ c = Some s.
Proof. apply bool_decide_eq_true. Qed.

Lemma in_limits_parse lim off :
  off ≤ MAX_OFFSET → ∃ p, parse_request lim off None = Ok p.
Proof.
  intros Hoff. unfold parse_request, parse_page. cbn. destruct (Z.ltb_spec MAX_OFFSET (Z.max off 0)); [|by eexists].
  unfold MAX_OFFSET in *. lia.
Qed.
End lists.

(** ** Events *)

Section events.
Context `{Stellar} `{Base64} `{PgLib} (collation : TotalOrder string).

(** What a [topicN] parameter asks of an event: JSON text is compared as a
    value, any other text is the string itself. *)
Definition topic_wanted (n : nat) (raw : string) (e : EventRow) : Prop :=
  ∃ t, topic_at n (e_decoded_topics e) = Some t
  ∧ if starts_with (of_bytes [dquote]) raw || starts_with "[" raw || starts_with "{" raw
    then ∃ v, json_of_text raw = Some v ∧ jsonb_eq t v = true
    else t = JStr raw.

(** The events a request asks for. *)
Record event_wanted (contract : string) (q : EventsQuery) (e : EventRow) : Prop := {
  wanted_contract : e_contract_id e = contract;
  wanted_name : ∀ n, ev_event_name q = Some n → e_event_name e = Some n;
  wanted_from : ∀ l, ev_from_ledger q = Some l → l ≤ e_ledger e;
  wanted_to : ∀ l, ev_to_ledger q = Some l → e_ledger e ≤ l;
  wanted_since : ∀ s t, ev_since q = Some s → parse_from_rfc3339 s = Some t → bound t ≤ e_ledger_closed_at e;
  wanted_until : ∀ s t, ev_until q = Some s → parse_from_rfc3339 s = Some t → e_ledger_closed_at e ≤ bound t;
  wanted_topics : ∀ n raw, [ev_topic0 q; ev_topic1 q; ev_topic2 q; ev_topic3 q] !! n = Some (Some raw) →
    topic_wanted n raw e;
  wanted_param : ∀ raw name value, ev_param q = Some raw → split_once ":" raw = Some (name, value) →
    e_enriched e ≫= json_get name = Some (JStr value);
  wanted_success : ∀ b, ev_successful_only q = Some b → e_in_successful_call e = b;
}.

Lemma parse_topic_filter_ok raw o n e : parse_topic_filter raw = Ok o →
  unless_null o (topic_is n e) = true ↔ ∀ r, raw = Some r → topic_wanted n r e.
Proof.
  unfold parse_topic_filter, topic_wanted. destruct raw as [r|]; [|intros [= <-]; naive_solver].
  intros Ho. assert (∀ P : string → Prop, (∀ r', Some r = Some r' → P r') ↔ P r) as -> by naive_solver. revert Ho.
  destruct (_ || _).
  - destruct (json_of_text r) as [v|]; [|done]. cbn [ok_or mbind result_bind]. intros [= <-].
    cbn [unless_null]. unfold topic_is. destruct (topic_at n (e_decoded_topics e)); naive_solver.
  - cbn [mbind result_bind]. intros [= <-]. cbn [unless_null]. unfold topic_is.
    destruct (topic_at n (e_decoded_topics e)) as [t|]; [|naive_solver].
    rewrite jsonb_eq_str. naive_solver.
Qed.

Lemma parse_param_filter_ok raw o e : parse_param_filter raw = Ok o →
  unless_null o (has_param e) = true
  ↔ ∀ r name value, raw = Some r → split_once ":" r = Some (name, value) →
      e_enriched e ≫= json_get name = Some (JStr value).
Proof.
  unfold parse_param_filter. destruct raw as [r|]; [|intros [= <-]; naive_solver].
  destruct (split_once ":" r) as [[name value]|] eqn:Hs; [|done].
  destruct (String.eqb name ""); [done|]. intros [= <-]. cbn. unfold has_param. cbn. split.
  - intros Hp r' name' value' Hr Hs'. simplify_eq. destruct (e_enriched e ≫= json_get name) as [[]|]; try done.
    by apply String.eqb_eq in Hp as ->.
  - intros Hp. rewrite (Hp r name value) by done. apply String.eqb_refl.
Qed.

Lemma parse_time_ok field raw o (P : DateTime → Prop) : parse_time field raw = Ok o →
  (∀ t, o = Some t → P t) ↔ ∀ s t, raw = Some s → parse_from_rfc3339 s = Some t → P t.
Proof.
  unfold parse_time. destruct raw as [s|]; [|intros [= <-]; naive_solver].
  destruct (parse_from_rfc3339 s) as [t|] eqn:Ht; [|done]. cbn. intros [= <-]. naive_solver.
Qed.

Lemma bool_eqb_true a b : Bool.eqb a b = true ↔ a = b.
Proof. apply Bool.eqb_true_iff. Qed.
(** [enriched] and the topics as the statement compares them. *)
Lemma event_where_wanted contract q f p e :
  parse_events contract q = Ok (f, p) → event_where f e = true ↔ event_wanted contract q e.
Proof.
  unfold parse_events. intros Hp.
  apply bind_ok_inv in Hp as (t0 & Ht0 & Hp). apply bind_ok_inv in Hp as (t1 & Ht1 & Hp).
  apply bind_ok_inv in Hp as (t2 & Ht2 & Hp). apply bind_ok_inv in Hp as (t3 & Ht3 & Hp).
  apply bind_ok_inv in Hp as (param & Hparam & Hp). apply bind_ok_inv in Hp as (page & _ & Hp).
  apply bind_ok_inv in Hp as (since & Hsince & Hp). apply bind_ok_inv in Hp as (until_ & Huntil & Hp).
  apply bind_ok_inv in Hp as (? & _ & Hp). apply bind_ok_inv in Hp as (? & _ & Hp). injection Hp as <- <-.
  unfold event_where. cbn [f_contract f_name f_from f_to f_since f_until f_topics f_param f_successful forallb imap].
  rewrite !andb_true_iff, String.eqb_eq.
  rewrite (parse_topic_filter_ok _ _ 0 e Ht0), (parse_topic_filter_ok _ _ 1 e Ht1),
    (parse_topic_filter_ok _ _ 2 e Ht2), (parse_topic_filter_ok _ _ 3 e Ht3), (parse_param_filter_ok _ _ e Hparam).
  rewrite !unless_null_true.
  rewrite (parse_time_ok _ _ _ (λ t, (bound t <=? e_ledger_closed_at e) = true) Hsince).
  rewrite (parse_time_ok _ _ _ (λ t, (e_ledger_closed_at e <=? bound t) = true) Huntil).
  setoid_rewrite column_is_true. setoid_rewrite Z.leb_le. setoid_rewrite bool_eqb_true.
  split.
  - intros [[[[[[[[? ?] ?] ?] ?] ?] (T0 & T1 & T2 & T3 & _)] ?] ?]. constructor; try assumption.
    intros n raw Hn. repeat (destruct n as [|n]; cbn in Hn; [injection Hn as Hn; eauto|]). done.
  - intros [? ? ? ? ? ? Ht ? ?]. repeat split; try assumption; intros r Hr;
      [apply (Ht 0%nat)|apply (Ht 1%nat)|apply (Ht 2%nat)|apply (Ht 3%nat)]; cbn; by rewrite Hr.
Qed.

Definition with_after (aft : option string) (q : EventsQuery) : EventsQuery := {|
  ev_limit := ev_limit q; ev_offset := ev_offset q; ev_after := aft; ev_event_name := ev_event_name q;
  ev_from_ledger := ev_from_ledger q; ev_to_ledger := ev_to_ledger q; ev_since := ev_since q; ev_until := ev_until q;
  ev_topic0 := ev_topic0 q; ev_topic1 := ev_topic1 q; ev_topic2 := ev_topic2 q; ev_topic3 := ev_topic3 q;
  ev_param := ev_param q; ev_successful_only := ev_successful_only q |}.

(** The filters do not depend on the page: only the page's own refusal does. *)
Lemma parse_events_after contract q f p aft :
  parse_events contract (with_after None q) = Ok (f, p) →
  parse_events contract (with_after aft q)
  = (page ← parse_request (ev_limit q) (ev_offset q) aft; Ok (f, page)).
Proof.
  unfold parse_events. cbn [with_after ev_limit ev_offset ev_after ev_event_name ev_from_ledger ev_to_ledger ev_since
    ev_until ev_topic0 ev_topic1 ev_topic2 ev_topic3 ev_param ev_successful_only].
  intros Hp. apply bind_ok_inv in Hp as (t0 & -> & Hp). apply bind_ok_inv in Hp as (t1 & -> & Hp).
  apply bind_ok_inv in Hp as (t2 & -> & Hp). apply bind_ok_inv in Hp as (t3 & -> & Hp).
  apply bind_ok_inv in Hp as (param & -> & Hp). apply bind_ok_inv in Hp as (page & _ & Hp).
  apply bind_ok_inv in Hp as (since & -> & Hp). apply bind_ok_inv in Hp as (until_ & -> & Hp).
  apply bind_ok_inv in Hp as ([] & Hr1 & Hp). apply bind_ok_inv in Hp as ([] & Hr2 & Hp). injection Hp as <- <-.
  cbn [mbind result_bind]. destruct (parse_request _ _ _); [|done]. cbn [mbind result_bind].
  by rewrite Hr1, Hr2.
Qed.

(** C30: The event list is exact: for a request without a cursor whose parameters
    are valid and whose topic and parameter filters cast to JSON, and that does
    not set [successful_only] to false (which is documented to return all events
    and selects those of failed calls, [successful_only_false]), a client that
    follows [next_cursor] ends after at most one request per row plus one, with
    the events its parameters ask for, each once, newest first, but for the
    first [offset] of them. *)
Theorem event_pages_exact contract q f p rows fuel :
  is_valid_contract_id contract = true → ev_successful_only q ≠ Some false →
  parse_events contract (with_after None q) = Ok (f, p) → casts (f_topics f) (f_param f) = true →
  table_wf event_key rows → (length rows < fuel)%nat →
  ∃ l, listing event_key (desc_cmp collation) rows (event_wanted contract (with_after None q)) l
  ∧ follow fuel (λ aft, list_events collation (Some contract) (with_after aft q) (Ok rows)) None
    = Ok (drop (Z.to_nat (ev_offset q)) l).
Proof.
  intros Hc _ Hp Hcasts Hwf Hfuel.
  assert (ev_offset q ≤ MAX_OFFSET) as Hoff.
  { pose proof Hp as Hpage. rewrite (parse_events_after _ _ _ _ None Hp) in Hpage.
    apply bind_ok_inv in Hpage as (page & Hpage & _). unfold parse_request, parse_page in Hpage. cbn in Hpage.
    destruct (Z.ltb_spec MAX_OFFSET (Z.max (ev_offset q) 0)); [done|lia]. }
  destruct (answer_listing event_key (desc_order collation) (below collation) ltac:(done)
    (λ '(l, e) k, below_tlt collation l e k) rows (event_where f) (ev_limit q) (ev_offset q) fuel Hwf Hoff Hfuel)
    as (l & Hl & Hfollow).
  exists l. split.
  - eapply listing_ext; [|exact Hl]. intros e. by apply (event_where_wanted _ _ _ p).
  - rewrite <- Hfollow. apply follow_ext. intros aft. unfold list_events, valid_contract_id.
    cbn [ok_or mbind result_bind]. rewrite Hc. cbn [mbind result_bind].
    rewrite (parse_events_after _ _ _ _ aft Hp). destruct (parse_request _ _ aft); [|done].
    cbn [mbind result_bind]. by rewrite Hcasts.
Qed.
End events.

(** ** Transactions and the materialised views *)

Section views.
Context `{Stellar} `{Base64} `{PgLib} (collation : TotalOrder string).

(** A transaction's response, seen as a page. *)
Definition as_page (r : TxEventsResponse) : Page EventRow :=
  {| data := tr_data r; has_more := tr_has_more r; next_cursor := tr_next_cursor r; offset_deprecated := false |}.

Lemma no_offset lim aft p : parse_request lim 0 aft = Ok p → uses_offset p = false.
Proof.
  unfold parse_request, parse_page, uses_offset. destruct aft as [raw|].
  - destruct (decode raw); [|done]. cbn. by intros [= <-].
  - cbn. by intros [= <-].
Qed.

(** A transaction's events are listed exactly, in the order they were emitted,
    whichever case its hash is written in. *)
Theorem transaction_pages_exact raw hash lim success rows fuel :
  normalize_tx_hash raw = Ok hash → table_wf event_key rows → (length rows < fuel)%nat →
  ∃ l, listing event_key (asc_cmp collation) rows
         (λ e, e_tx_hash e = to_ascii_lowercase raw ∧ ∀ b, success = Some b → e_in_successful_call e = b) l
  ∧ follow fuel (λ aft, as_page <$> transaction_events collation raw
      {| tx_limit := lim; tx_after := aft; tx_successful_only := success |} (Ok rows)) None = Ok l.
Proof.
  intros Hn Hwf Hfuel.
  destruct (answer_listing event_key (asc_order collation) (above collation) ltac:(done)
    (λ '(l, e) k, above_tlt collation l e k) rows (tx_where hash success) (default 100 lim) 0 fuel Hwf ltac:(done) Hfuel)
    as (l & Hl & Hfollow).
  assert (hash = to_ascii_lowercase raw) as Hhash by (unfold normalize_tx_hash in Hn; destruct (_ && forallb _ _) in Hn; congruence).
  exists l. split.
  - eapply listing_ext; [|exact Hl]. intros e. unfold tx_where.
    rewrite andb_true_iff, String.eqb_eq, unless_null_true, Hhash. by setoid_rewrite bool_eqb_true.
  - rewrite drop_0 in Hfollow. rewrite <- Hfollow. apply follow_ext. intros aft. unfold transaction_events.
    rewrite Hn. cbn [mbind result_bind tx_limit tx_after tx_successful_only].
    destruct (parse_request _ _ _) as [p|] eqn:Hp; [|done]. apply no_offset in Hp.
    unfold page_transaction_events, answer_page, finish, as_page. cbn [map_err mbind result_bind result_fmap fmap
      tr_data tr_has_more tr_next_cursor data has_more next_cursor]. by rewrite Hp.
Qed.

(** The columns the views' clients filter on. *)
Definition column_wanted (wanted : option string) (column : option string) : Prop :=
  ∀ s, wanted = Some s → column = Some s.

(** [page] lists the [wanted] rows from the offset, newest first. *)
Definition exact_view {R} (key : R → Z * string) (rows : list R) (wanted : R → Prop) (off : Z) (fuel : nat)
    (page : option string → result ApiError (Page R)) : Prop :=
  ∃ l, listing key (desc_cmp collation) rows wanted l ∧ follow fuel page None = Ok (drop (Z.to_nat off) l).

Lemma answer_view {R} (key : R → Z * string) rows where_ wanted lim off fuel page :
  table_wf key rows → off ≤ MAX_OFFSET → (length rows < fuel)%nat →
  (∀ r, where_ r = true ↔ wanted r) →
  (∀ aft, page aft = (p ← parse_request lim off aft;
                      answer_page key (desc_order collation) (below collation) where_ p (Ok rows))) →
  exact_view key rows wanted off fuel page.
Proof.
  intros Hwf Hoff Hfuel Hw Hpage.
  destruct (answer_listing key (desc_order collation) (below collation) ltac:(done)
    (λ '(l, e) k, below_tlt collation l e k) rows where_ lim off fuel Hwf Hoff Hfuel) as (l & Hl & Hfollow).
  exists l. split; [exact (listing_ext _ _ _ _ _ _ Hw Hl)|]. rewrite <- Hfollow. apply follow_ext. intros aft. rewrite Hpage. reflexivity.
Qed.

Definition swaps_after (aft : option string) (q : SwapsQuery) : SwapsQuery := {|
  sw_limit := sw_limit q; sw_offset := sw_offset q; sw_after := aft; sw_sender := sw_sender q;
  sw_sell_token := sw_sell_token q; sw_buy_token := sw_buy_token q |}.

Definition nfts_after (aft : option string) (q : NftsQuery) : NftsQuery := {|
  nf_limit := nf_limit q; nf_offset := nf_offset q; nf_after := aft; nf_kind := nf_kind q;
  nf_from := nf_from q; nf_to := nf_to q; nf_token_id := nf_token_id q |}.

Definition liquidity_after (aft : option string) (q : LiquidityQuery) : LiquidityQuery := {|
  lq_limit := lq_limit q; lq_offset := lq_offset q; lq_after := aft; lq_kind := lq_kind q; lq_provider := lq_provider q |}.

Lemma column_is_wanted q c : unless_null q (column_is c) = true ↔ column_wanted q c.
Proof. rewrite unless_null_true. by setoid_rewrite column_is_true. Qed.

Lemma string_is_wanted q s : unless_null q (String.eqb s) = true ↔ column_wanted q (Some s).
Proof. rewrite unless_null_true. setoid_rewrite String.eqb_eq. unfold column_wanted. naive_solver. Qed.

(** The three views are listed exactly, newest first from the offset; a kind
    that does not exist is refused whatever the table holds. *)
Theorem view_pages_exact contract fuel swaps nfts liquidity sq nq lq :
  is_valid_contract_id contract = true →
  table_wf swap_key swaps → table_wf nft_key nfts → table_wf liquidity_key liquidity →
  (length swaps < fuel)%nat → (length nfts < fuel)%nat → (length liquidity < fuel)%nat →
  sw_offset sq ≤ MAX_OFFSET → nf_offset nq ≤ MAX_OFFSET → lq_offset lq ≤ MAX_OFFSET →
  exact_view swap_key swaps (λ w, w_contract_id w = contract
      ∧ column_wanted (sw_sender sq) (w_sender w) ∧ column_wanted (sw_sell_token sq) (w_sell_token w)
      ∧ column_wanted (sw_buy_token sq) (w_buy_token w)) (sw_offset sq) fuel
    (λ aft, list_swaps collation (Some contract) (swaps_after aft sq) (Ok swaps))
  ∧ (let page aft db := list_nft_events collation (Some contract) (nfts_after aft nq) db in
     (∃ k, nf_kind nq = Some k ∧ k ∉ ["mint"; "transfer"; "burn"]
        ∧ ∀ aft db, page aft db = Err (bad_request "kind must be one of: mint, transfer, burn"))
     ∨ exact_view nft_key nfts (λ f, f_contract_id f = contract
           ∧ column_wanted (nf_kind nq) (Some (f_event_kind f)) ∧ column_wanted (nf_from nq) (f_from_addr f)
           ∧ column_wanted (nf_to nq) (f_to_addr f) ∧ column_wanted (nf_token_id nq) (Some (f_token_id f)))
         (nf_offset nq) fuel (λ aft, page aft (Ok nfts)))
  ∧ (let page aft db := list_liquidity_events collation (Some contract) (liquidity_after aft lq) db in
     (∃ k, lq_kind lq = Some k ∧ k ∉ ["add"; "remove"]
        ∧ ∀ aft db, page aft db = Err (bad_request "kind must be one of: add, remove"))
     ∨ exact_view liquidity_key liquidity (λ r, q_contract_id r = contract
           ∧ column_wanted (lq_kind lq) (Some (q_event_kind r)) ∧ column_wanted (lq_provider lq) (q_provider r))
         (lq_offset lq) fuel (λ aft, page aft (Ok liquidity))).
Proof.
  intros Hc ? ? ? ? ? ? ? ? ?. split; [|split; cbv zeta].
  - eapply (answer_view _ _ (swap_where contract sq) _ (sw_limit sq)); [done..| |].
    + intros w. unfold swap_where. rewrite !andb_true_iff, String.eqb_eq, !column_is_wanted. tauto.
    + intros aft. unfold list_swaps, valid_contract_id. cbn [ok_or mbind result_bind]. rewrite Hc. reflexivity.
  - destruct (unless_null (nf_kind nq) (λ k, bool_decide (k ∈ ["mint"; "transfer"; "burn"]))) eqn:Hk; [right|left].
    + eapply (answer_view _ _ (nft_where contract nq) _ (nf_limit nq)); [done..| |].
      * intros f. unfold nft_where. rewrite !andb_true_iff, String.eqb_eq, !column_is_wanted, !string_is_wanted. tauto.
      * intros aft. unfold list_nft_events, valid_contract_id, kind_allowed. cbn [ok_or mbind result_bind].
        rewrite Hc. cbn [mbind result_bind nfts_after nf_kind]. rewrite Hk. reflexivity.
    + destruct (nf_kind nq) as [k|] eqn:E; [|done]. exists k. split; [done|]. cbn [unless_null] in Hk.
      split; [by apply bool_decide_eq_false in Hk|]. intros aft db. unfold list_nft_events, valid_contract_id, kind_allowed.
      cbn [ok_or mbind result_bind]. rewrite Hc. cbn [mbind result_bind nfts_after nf_kind]. by rewrite E; cbn [unless_null]; rewrite Hk.
  - destruct (unless_null (lq_kind lq) (λ k, bool_decide (k ∈ ["add"; "remove"]))) eqn:Hk; [right|left].
    + eapply (answer_view _ _ (liquidity_where contract lq) _ (lq_limit lq)); [done..| |].
      * intros r. unfold liquidity_where. rewrite !andb_true_iff, String.eqb_eq, column_is_wanted, string_is_wanted. tauto.
      * intros aft. unfold list_liquidity_events, valid_contract_id, kind_allowed. cbn [ok_or mbind result_bind].
        rewrite Hc. cbn [mbind result_bind liquidity_after lq_kind]. rewrite Hk. reflexivity.
    + destruct (lq_kind lq) as [k|] eqn:E; [|done]. exists k. split; [done|]. cbn [unless_null] in Hk.
      split; [by apply bool_decide_eq_false in Hk|]. intros aft db.
      unfold list_liquidity_events, valid_contract_id, kind_allowed.
      cbn [ok_or mbind result_bind]. rewrite Hc. cbn [mbind result_bind liquidity_after lq_kind].
      by rewrite E; cbn [unless_null]; rewrite Hk.
Qed.
End views.

(** ** Samples *)

#[local] Instance sample_stellar_routes : Stellar := sample_stellar.
#[local] Instance sample_base64_routes : Base64 := sample_base64.

#[local] Instance sample_pg : PgLib.
Proof.
  refine {| jsonb_eq v w := match v, w with JStr a, JStr b => String.eqb a b | _, _ => false end;
            bound t := t; parse_from_rfc3339 s := parse_int 64 s;
            json_of_text s := if String.eqb s "[]" then Some (JArr []) else None |}.
  intros v s. destruct v; try done. rewrite String.eqb_eq. naive_solver.
Defined.

Definition sample_id : string := strkey_to_string (SkContract (bytes "0123456789abcdef0123456789abcdef")).

Definition sample_event (l : Z) (topic tx : string) (success : bool) : EventRow := {|
  e_event_id := "e" +:+ show_i l; e_contract_id := sample_id; e_ledger := l / 2; e_ledger_closed_at := l;
  e_event_type := "contract"; e_topics := []; e_decoded_topics := JArr [JStr topic]; e_event_name := Some topic;
  e_value := "AAAA"; e_decoded_value := JNull; e_enriched := Some (mk_obj [("from", JStr "G:A")]); e_tx_hash := tx;
  e_in_successful_call := success; e_paging_token := "p"; e_created_at := l |}.

Definition sample_hash : string := of_bytes (repeat "a"%char 64).

Definition sample_events : list EventRow :=
  [sample_event 1 "mint" "x" true; sample_event 4 "transfer" sample_hash false; sample_event 5 "transfer" sample_hash true;
   sample_event 7 "transfer" "y" true].

Definition any_events : EventsQuery := {|
  ev_limit := 1; ev_offset := 0; ev_after := None; ev_event_name := None; ev_from_ledger := None; ev_to_ledger := None;
  ev_since := None; ev_until := None; ev_topic0 := None; ev_topic1 := None; ev_topic2 := None; ev_topic3 := None;
  ev_param := None; ev_successful_only := None |}.

Definition transfers_of : EventsQuery := {|
  ev_limit := 1; ev_offset := 0; ev_after := None; ev_event_name := None; ev_from_ledger := Some 2; ev_to_ledger := Some 3;
  ev_since := Some "4"; ev_until := None; ev_topic0 := Some "transfer"; ev_topic1 := None; ev_topic2 := None;
  ev_topic3 := None; ev_param := Some "from:G:A"; ev_successful_only := None |}.

Lemma sample_events_wf : table_wf event_key sample_events.
Proof.
  split; [apply (bool_decide_unpack _); by vm_compute|].
  intros r Hr. unfold sample_events in Hr. rewrite !elem_of_cons, elem_of_nil in Hr.
  destruct Hr as [->|[->|[->|[->|[]]]]]; (split; [split; by vm_compute|reflexivity]).
Qed.

Example event_pages :
  match follow 5 (λ aft, list_events string_order (Some sample_id) (with_after aft transfers_of) (Ok sample_events)) None with
  | Ok l => map e_ledger_closed_at l = [7; 5; 4]
  | Err _ => False
  end.
Proof. by vm_compute. Qed.

Lemma event_pages_exact_witness :
  ∃ l, listing event_key (desc_cmp string_order) sample_events (event_wanted sample_id (with_after None transfers_of)) l
  ∧ follow 5 (λ aft, list_events string_order (Some sample_id) (with_after aft transfers_of) (Ok sample_events)) None
    = Ok (drop 0 l).
Proof.
  destruct (parse_events sample_id (with_after None transfers_of)) as [[f p]|] eqn:Hp; [|by vm_compute in Hp].
  apply (event_pages_exact string_order sample_id transfers_of f p sample_events 5).
  - by vm_compute.
  - by vm_compute.
  - exact Hp.
  - assert (casts (f_topics f) (f_param f) = match parse_events sample_id (with_after None transfers_of) with
      Ok (f, _) => casts (f_topics f) (f_param f) | _ => false end) as -> by by rewrite Hp. by vm_compute.
  - exact sample_events_wf.
  - vm_compute. lia.
Defined.

Lemma transaction_pages_exact_witness :
  let raw := of_bytes (repeat "A"%char 64) in
  ∃ l, listing event_key (asc_cmp string_order) sample_events
         (λ e, e_tx_hash e = to_ascii_lowercase raw ∧ ∀ b, None = Some b → e_in_successful_call e = b) l
  ∧ follow 5 (λ aft, as_page <$> transaction_events string_order raw
      {| tx_limit := Some 1; tx_after := aft; tx_successful_only := None |} (Ok sample_events)) None = Ok l.
Proof.
  apply (transaction_pages_exact string_order _ sample_hash (Some 1) None sample_events 5).
  - by vm_compute.
  - exact sample_events_wf.
  - vm_compute. lia.
Defined.

(** *** What the lists do otherwise than they say *)

(** [successful_only=false] hides the successful calls instead of showing all. *)
Example successful_only_false :
  let q := {| ev_limit := 9; ev_offset := 0; ev_after := None; ev_event_name := None; ev_from_ledger := None;
    ev_to_ledger := None; ev_since := None; ev_until := None; ev_topic0 := None; ev_topic1 := None; ev_topic2 := None;
    ev_topic3 := None; ev_param := None; ev_successful_only := Some false |} in
  match list_events string_order (Some sample_id) q (Ok sample_events) with
  | Ok p => map e_in_successful_call (data p) = [false]
  | Err _ => False
  end.
Proof. by vm_compute. Qed.

(** A topic with a zero character is an internal error, not a bad request. *)
Example nul_topic_internal :
  let q := {| ev_limit := 9; ev_offset := 0; ev_after := None; ev_event_name := None; ev_from_ledger := None;
    ev_to_ledger := None; ev_since := None; ev_until := None; ev_topic0 := Some (String "000" ""); ev_topic1 := None;
    ev_topic2 := None; ev_topic3 := None; ev_param := None; ev_successful_only := None |} in
  status (into_response match list_events string_order (Some sample_id) q (Ok sample_events) with
                        | Err e => e | Ok _ => not_found "" end) = 500.
Proof. by vm_compute. Qed.
