(* ===== verification/StatsRoute.v ===== *)
(** * StatsRoute: event counts per bucket ([lumenqraph-api/src/routes/stats.rs])

    The parameters of a request become a granularity and a range; the statement
    counts the contract's events per bucket, and the grouped form is summed up
    again in a map.  A panic is [None]; [now] and [now'] are the two readings of
    the clock.  [chrono]'s arithmetic, Postgres' [date_trunc] and the order a
    [HashMap] is walked in are the class [StatsLib]. *)
From S2P Require Import Prelude Text Containers Values Instances Serde XdrDecode Store Pagination ApiError Models EventRoutes.
From Stdlib Require Import Ascii.

Local Open Scope string_scope.
Local Open Scope Z_scope.

Class StatsLib := {
  (** [Duration::minutes] and its kin, of [num] units of so many seconds, in
      nanoseconds; [None] when out of range, where they panic. *)
  duration_of : Z → Z → option Z;
  duration_spec unit num d : duration_of unit num = Some d → d = num * unit * 10 ^ 9;
  (** [DateTime - Duration], which panics likewise. *)
  time_sub : DateTime → Z → option DateTime;
  time_sub_spec t d t' : time_sub t d = Some t' → t' = t - d;
  (** [date_trunc(unit, t)], and a time as text. *)
  date_trunc : string → DateTime → DateTime;
  time_text : DateTime → string;
  time_text_inj t u : time_text t = time_text u → t = u;
  hash_walk : gmap string (Z * gmap string Z) → list (string * (Z * gmap string Z));
  hash_walk_perm m : hash_walk m ≡ₚ map_to_list m;
}.

Definition MAX_BUCKETS : Z := 2000.

Record StatsQuery := {
  st_bucket : string;
  st_resolution : option string;
  st_window : option string;
  st_group_by : option string;
  st_from : option string;
  st_to : option string;
  st_from_ledger : option Z;
  st_to_ledger : option Z;
}.

Definition default_bucket : string := "day".

Inductive Granularity : Type :=
  | Trunc (unit : string)
  | Ledger.

(** ** Parameters *)

Section params.
Context `{Stellar} `{PgLib} `{StatsLib}.

(** A panic is [None]. *)
Definition parse_window (w : string) : option (result ApiError Z) :=
  let w := trim w in
  if String.eqb w "" then Some (Err (bad_request "Window parameter cannot be empty"))
  else
    let cs := chars w in
    match parse_int 64 (of_chars (removelast cs)) with
    | None => Some (Err (bad_request "Invalid window format. Expected format like '7d', '24h', '30m'"))
    | Some num =>
        if num <=? 0 then Some (Err (bad_request "Window duration must be positive"))
        else
          let unit := of_chars (match last cs with Some c => [c] | None => [] end) in
          let secs := if String.eqb unit "m" then Some 60 else if String.eqb unit "h" then Some 3600
                      else if String.eqb unit "d" then Some 86400 else if String.eqb unit "w" then Some 604800 else None in
          match secs with
          | Some secs => Ok <$> duration_of secs num
          | None => Some (Err (bad_request "Invalid window unit. Supported units: 'm' (minutes), 'h' (hours), 'd' (days), 'w' (weeks)"))
          end
    end.

Definition parse_trunc_alias (value : string) : option string :=
  if String.eqb value "1M" then Some "month"
  else
    let v := to_ascii_lowercase value in
    if bool_decide (v ∈ ["1m"; "minute"; "min"]) then Some "minute"
    else if bool_decide (v ∈ ["1h"; "hour"]) then Some "hour"
    else if bool_decide (v ∈ ["1d"; "day"]) then Some "day"
    else if bool_decide (v ∈ ["1w"; "week"]) then Some "week"
    else if String.eqb v "month" then Some "month"
    else None.

Definition parse_granularity (resolution : option string) (bucket : string) : result ApiError Granularity :=
  let value := default bucket resolution in
  if eq_ignore_ascii_case value "ledger" then Ok Ledger
  else
    match parse_trunc_alias value with
    | Some trunc => Ok (Trunc trunc)
    | None =>
        Err (bad_request (if bool_decide (is_Some resolution)
          then "Invalid resolution parameter: must be '1m', '1h', '1d', '1w', '1M', 'minute', 'hour', 'day', 'week', 'month', or 'ledger'"
          else "Invalid bucket parameter: must be 'minute', 'hour', 'day', 'week', 'month', or 'ledger'"))
    end.

(** The handler's own check, after the extractor's. *)
Definition validate_contract_id (contract_id : string) : result ApiError unit :=
  if negb (String.eqb contract_id "") && (String.length contract_id <=? 128)%nat
     && forallb (λ c, is_ascii_alphanumeric c || (c =? 95) || (c =? 45) || (c =? 58)) (chars contract_id)
  then Ok tt
  else Err (bad_request "Invalid contract_id: must be 1-128 characters of [A-Za-z0-9_-:]").

Definition unit_secs (trunc : string) : Z :=
  if String.eqb trunc "minute" then 60
  else if String.eqb trunc "hour" then 3600
  else if String.eqb trunc "day" then 86400
  else if String.eqb trunc "week" then 604800
  else if String.eqb trunc "month" then 2592000
  else 86400.

Definition trunc_bucket_count (trunc : string) (from to : DateTime) : Z :=
  let secs := Z.max (Z.quot (to - from) (10 ^ 9)) 0 in
  Z.quot secs (unit_secs trunc) + 1.

Definition saturating_sub (a b : Z) : Z := Z.max (- 2 ^ 63) (Z.min (2 ^ 63 - 1) (a - b)).

Definition I64_MAX : Z := 2 ^ 63 - 1.

(** The range of the aggregation query. *)
Record Range := {
  rg_granularity : Granularity;
  rg_from : option DateTime;
  rg_to : option DateTime;
  rg_from_ledger : option Z;
  rg_to_ledger : option Z;
}.

(** The two times, replaced by a window that is given. *)
Definition parse_times (q : StatsQuery) (now : DateTime) : option (result ApiError (option DateTime * option DateTime)) :=
  match (from ← parse_time "from" (st_from q); to ← parse_time "to" (st_to q); Ok (from, to)) with
  | Err e => Some (Err e)
  | Ok (from, to) =>
      match st_window q with
      | None => Some (Ok (from, to))
      | Some window =>
          d ← parse_window window;
          match d with
          | Err e => Some (Err e)
          | Ok dur => let to := default now to in from ← time_sub to dur; Some (Ok (Some from, Some to))
          end
      end
  end.

Definition days (n : Z) : Z := n * 86400 * 10 ^ 9.

(** The default range of a granularity, and the cap on the buckets. *)
Definition clamp_range (g : Granularity) (from to : option DateTime) (from_ledger to_ledger : option Z) (now' : DateTime)
    : result ApiError Range :=
  match g with
  | Trunc trunc =>
      let default_from := now' - days (if String.eqb trunc "hour" then 7 else 90) in
      let from := default default_from from in
      let to := default now' to in
      if MAX_BUCKETS <? trunc_bucket_count trunc from to
      then Err (bad_request ("Requested range exceeds the maximum of " +:+ show_i MAX_BUCKETS +:+
             " buckets; narrow the 'from'/'to' range or use a coarser bucket"))
      else Ok {| rg_granularity := g; rg_from := Some from; rg_to := Some to;
                 rg_from_ledger := from_ledger; rg_to_ledger := to_ledger |}
  | Ledger =>
      let last := default I64_MAX to_ledger in
      let first := match from_ledger with
                   | Some f => f
                   | None => if last =? I64_MAX then 0 else saturating_sub last 10000
                   end in
      if negb (last =? I64_MAX) && (MAX_BUCKETS <? saturating_sub last first)
      then Err (bad_request ("Requested ledger range exceeds the maximum of " +:+ show_i MAX_BUCKETS +:+
             " buckets; narrow the 'from_ledger'/'to_ledger' range"))
      else Ok {| rg_granularity := g; rg_from := from; rg_to := to; rg_from_ledger := Some first;
                 rg_to_ledger := if last =? I64_MAX then None else Some last |}
  end.

Definition parse_stats (contract_id : string) (q : StatsQuery) (now now' : DateTime) : option (result ApiError Range) :=
  match (_ ← validate_contract_id contract_id;
         g ← parse_granularity (st_resolution q) (st_bucket q);
         _ ← (if unless_null (st_group_by q) (String.eqb "event_name") then Ok tt
              else Err (bad_request "Invalid group_by parameter: only 'event_name' is supported"));
         Ok g) with
  | Err e => Some (Err e)
  | Ok g =>
      times ← parse_times q now;
      Some (
        '(from, to) ← times;
        _ ← (if reversed from to then Err (bad_request "'from' must be before 'to'") else Ok tt);
        _ ← (if reversed (st_from_ledger q) (st_to_ledger q)
             then Err (bad_request "'from_ledger' must be <= 'to_ledger'") else Ok tt);
        clamp_range g from to (st_from_ledger q) (st_to_ledger q) now')
  end.
End params.

(** ** Aggregation *)

Definition sum_of {A} (f : A → Z) (l : list A) : Z := foldr (λ a n, f a + n) 0 l.

Definition count_if {A} (f : A → bool) (l : list A) : Z := sum_of (λ a, if f a then 1 else 0) l.

(** [SELECT k, COUNT( * ) .. GROUP BY k ORDER BY ..] over the rows' keys. *)
Definition group_counts {K} `{EqDecision K} (cmp : K → K → comparison) (keys : list K) : list (K * Z) :=
  (λ k, (k, count_if (λ k', bool_decide (k' = k)) keys)) <$> sort_by cmp (remove_dups keys).

Record StatsBucket := { b_bucket : string; b_count : Z; b_breakdown : option (gmap string Z) }.

Record StatsResponse := { sr_data : list StatsBucket; sr_total : Z }.

Section aggregation.
Context `{Stellar} `{PgLib} `{StatsLib} (collation : TotalOrder string).

(** [k DESC]. *)
Definition newest_first (a b : Z) : comparison := Z.compare b a.

(** [k DESC, event_name], a null name last. *)
Definition name_cmp (a b : option string) : comparison :=
  match a, b with
  | None, None => Eq
  | None, Some _ => Gt
  | Some _, None => Lt
  | Some x, Some y => @tcmp string collation x y
  end.

Definition newest_then_name (a b : Z * option string) : comparison :=
  match newest_first a.1 b.1 with Eq => name_cmp a.2 b.2 | c => c end.

(** A count per key, a key shown by [text]. *)
Definition query_plain (key : EventRow → Z) (text : Z → string) (rows : list EventRow) : list StatsBucket :=
  (λ '(k, n), {| b_bucket := text k; b_count := n; b_breakdown := None |})
    <$> group_counts newest_first (key <$> rows).

Local Notation Buckets := (gmap string (Z * gmap string Z)).

(** One row of the grouped statement into the map. *)
Definition add_row (m : Buckets) (row : string * option string * Z) : Buckets :=
  let '(bucket, name, n) := row in
  let '(total, breakdown) := default (0, ∅) (m !! bucket) in
  <[bucket := (total + n,
               match name with
               | Some x => <[x := default 0 (breakdown !! x) + n]> breakdown
               | None => breakdown
               end)]> m.

Definition query_grouped (key : EventRow → Z) (text : Z → string) (rows : list EventRow) : list StatsBucket :=
  let counted := (λ '(k, name, n), (text k, name, n))
                   <$> group_counts newest_then_name ((λ e, (key e, e_event_name e)) <$> rows) in
  (λ '(bucket, (total, breakdown)),
     {| b_bucket := bucket; b_count := total;
        b_breakdown := if bool_decide (breakdown = ∅) then None else Some breakdown |})
    <$> hash_walk (foldl add_row ∅ counted).

Definition time_where (contract_id : string) (from to : option DateTime) (e : EventRow) : bool :=
  String.eqb (e_contract_id e) contract_id && unless_null from (λ t, bound t <=? e_ledger_closed_at e)
  && unless_null to (λ t, e_ledger_closed_at e <=? bound t).

Definition ledger_where (contract_id : string) (from to : option Z) (e : EventRow) : bool :=
  String.eqb (e_contract_id e) contract_id && unless_null from (λ l, l <=? e_ledger e)
  && unless_null to (λ l, e_ledger e <=? l).

(** The rows of a range, their key and its text. *)
Definition in_range (contract_id : string) (r : Range) (e : EventRow) : bool :=
  match rg_granularity r with
  | Trunc _ => time_where contract_id (rg_from r) (rg_to r) e
  | Ledger => ledger_where contract_id (rg_from_ledger r) (rg_to_ledger r) e
  end.

Definition bucket_key (g : Granularity) (e : EventRow) : Z :=
  match g with Trunc trunc => date_trunc trunc (e_ledger_closed_at e) | Ledger => e_ledger e end.

Definition bucket_text (g : Granularity) : Z → string :=
  match g with Trunc _ => time_text | Ledger => show_i end.

Definition query_stats_by_trunc (contract_id trunc : string) (from to : option DateTime) (table : list EventRow)
    : list StatsBucket :=
  query_plain (bucket_key (Trunc trunc)) time_text (base.filter (λ e, time_where contract_id from to e = true) table).

Definition query_stats_by_trunc_grouped (contract_id trunc : string) (from to : option DateTime) (table : list EventRow)
    : list StatsBucket :=
  query_grouped (bucket_key (Trunc trunc)) time_text (base.filter (λ e, time_where contract_id from to e = true) table).

Definition query_stats_by_ledger (contract_id : string) (from to : option Z) (table : list EventRow) : list StatsBucket :=
  query_plain e_ledger show_i (base.filter (λ e, ledger_where contract_id from to e = true) table).

Definition query_stats_by_ledger_grouped (contract_id : string) (from to : option Z) (table : list EventRow)
    : list StatsBucket :=
  query_grouped e_ledger show_i (base.filter (λ e, ledger_where contract_id from to e = true) table).

(** The aggregation query of a range. *)
Definition run_query (contract_id : string) (grouped : bool) (r : Range) (table : list EventRow) : list StatsBucket :=
  match rg_granularity r with
  | Trunc trunc =>
      (if grouped then query_stats_by_trunc_grouped else query_stats_by_trunc) contract_id trunc (rg_from r) (rg_to r) table
  | Ledger =>
      (if grouped then query_stats_by_ledger_grouped else query_stats_by_ledger) contract_id
        (rg_from_ledger r) (rg_to_ledger r) table
  end.

Definition contract_stats (param : option string) (q : StatsQuery) (now now' : DateTime) (db : result string (list EventRow))
    : option (result ApiError StatsResponse) :=
  match valid_contract_id param with
  | Err e => Some (Err e)
  | Ok contract_id =>
      range ← parse_stats contract_id q now now';
      Some (
        range ← range;
        table ← map_err Internal db;
        let buckets := run_query contract_id (bool_decide (st_group_by q = Some "event_name")) range table in
        Ok {| sr_data := buckets; sr_total := sum_of b_count buckets |})
  end.

(** The four queries are one, of a key and its text. *)
Lemma run_query_eq contract_id grouped r table :
  run_query contract_id grouped r table
  = (if grouped then query_grouped else query_plain) (bucket_key (rg_granularity r)) (bucket_text (rg_granularity r))
      (base.filter (λ e, in_range contract_id r e = true) table).
Proof. unfold run_query, in_range. by destruct (rg_granularity r), grouped. Qed.
End aggregation.

(** ** Counting *)

Lemma sum_of_app {A} (f : A → Z) l k : sum_of f (l ++ k) = sum_of f l + sum_of f k.
Proof. induction l as [|a l IH]; [done|]. cbn [app sum_of foldr]. fold (sum_of f (l ++ k)). fold (sum_of f l). lia. Qed.

Lemma sum_of_cons {A} (f : A → Z) a l : sum_of f (a :: l) = f a + sum_of f l.
Proof. done. Qed.

Lemma sum_of_perm {A} (f : A → Z) l k : l ≡ₚ k → sum_of f l = sum_of f k.
Proof. induction 1; rewrite ?sum_of_cons; lia. Qed.

Lemma sum_of_ext {A} (f g : A → Z) l : (∀ a, a ∈ l → f a = g a) → sum_of f l = sum_of g l.
Proof.
  induction l as [|a l IH]; intros Hfg; [done|]. rewrite !sum_of_cons, (Hfg a), IH; [done| |by left].
  intros b Hb. apply Hfg. by right.
Qed.

Lemma sum_of_fmap {A B} (f : B → Z) (g : A → B) l : sum_of f (g <$> l) = sum_of (f ∘ g) l.
Proof. induction l as [|a l IH]; [done|]. by rewrite fmap_cons, !sum_of_cons, IH. Qed.

Lemma sum_of_add {A} (f g : A → Z) l : sum_of (λ a, f a + g a) l = sum_of f l + sum_of g l.
Proof. induction l as [|a l IH]; [done|]. rewrite !sum_of_cons, IH. lia. Qed.

Lemma sum_of_zero {A} (l : list A) : sum_of (λ _, 0) l = 0.
Proof. induction l as [|a l IH]; [done|]. by rewrite sum_of_cons, IH. Qed.

Lemma count_if_fmap {A B} (f : B → bool) (g : A → B) l : count_if f (g <$> l) = count_if (λ a, f (g a)) l.
Proof. apply sum_of_fmap. Qed.

Lemma count_if_nonneg {A} (f : A → bool) l : 0 ≤ count_if f l.
Proof. unfold count_if. induction l as [|a l IH]; [done|]. rewrite sum_of_cons. destruct (f a); lia. Qed.

Lemma count_if_pos {A} (f : A → bool) l : 0 < count_if f l ↔ ∃ a, a ∈ l ∧ f a = true.
Proof.
  induction l as [|a l IH].
  - split; [done|]. by intros (a & Ha%elem_of_nil & _).
  - unfold count_if in *. rewrite sum_of_cons. pose proof (count_if_nonneg f l) as Hnn. unfold count_if in Hnn. split.
    + destruct (f a) eqn:E; [exists a; split; [by left|done]|]. intros Hp.
      assert (∃ a, a ∈ l ∧ f a = true) as (b & Hb & Hf) by (apply IH; lia). exists b. split; [by right|done].
    + intros (b & [->|Hb]%elem_of_cons & Hf); [rewrite Hf; lia|].
      assert (0 < sum_of (λ a, if f a then 1 else 0) l) by (apply IH; eauto). destruct (f a); lia.
Qed.

(** Each key of a list without repetitions picks out one summand. *)
Lemma sum_of_pick {K} `{EqDecision K} (f : K → bool) (x : K) l : NoDup l → x ∈ l →
  sum_of (λ k, if f k then (if bool_decide (x = k) then 1 else 0) else 0) l = if f x then 1 else 0.
Proof.
  induction 1 as [|k l Hk Hnd IH]; [by intros ?%elem_of_nil|]. rewrite sum_of_cons. intros [<-|Hx]%elem_of_cons.
  - rewrite bool_decide_true by done. rewrite (sum_of_ext _ (λ _, 0)).
    + rewrite sum_of_zero. destruct (f x); lia.
    + intros k' Hk'. rewrite bool_decide_false by (intros ->; done). by destruct (f k').
  - rewrite IH by done. rewrite bool_decide_false by (intros ->; done). by destruct (f k).
Qed.

(** Summing the groups that [f] keeps counts the rows it keeps. *)
Lemma sum_groups {K} `{EqDecision K} (f : K → bool) (groups keys : list K) : NoDup groups →
  (∀ k, k ∈ keys → k ∈ groups) →
  sum_of (λ k, if f k then count_if (λ k', bool_decide (k' = k)) keys else 0) groups = count_if f keys.
Proof.
  intros Hnd. induction keys as [|x keys IH]; intros Hin.
  - rewrite (sum_of_ext _ (λ _, 0)); [by rewrite sum_of_zero|]. intros k _. by destruct (f k).
  - unfold count_if at 2. rewrite sum_of_cons. fold (count_if f keys).
    rewrite <- IH by (intros k Hk; apply Hin; by right).
    rewrite <- (sum_of_pick f x groups) by (done || (apply Hin; by left)).
    rewrite <- sum_of_add. apply sum_of_ext. intros k _. unfold count_if. rewrite sum_of_cons. by destruct (f k).
Qed.

Section groups.
Context {K : Type} `{EqDecision K} (cmp : K → K → comparison) (keys : list K).

Lemma group_counts_sum (f : K → bool) :
  sum_of (λ p, if f p.1 then p.2 else 0) (group_counts cmp keys) = count_if f keys.
Proof.
  unfold group_counts. rewrite sum_of_fmap.
  rewrite (sum_of_perm _ _ (remove_dups keys)) by apply sort_by_perm.
  apply (sum_groups f); [apply NoDup_remove_dups|]. intros k. by rewrite elem_of_remove_dups.
Qed.

Lemma group_counts_elem k n :
  (k, n) ∈ group_counts cmp keys ↔ k ∈ keys ∧ n = count_if (λ k', bool_decide (k' = k)) keys.
Proof.
  unfold group_counts. rewrite list_elem_of_fmap. setoid_rewrite sort_by_perm. setoid_rewrite elem_of_remove_dups.
  naive_solver.
Qed.

Lemma group_counts_NoDup : NoDup (group_counts cmp keys).*1.
Proof.
  unfold group_counts. rewrite <- list_fmap_compose. rewrite (list_fmap_ext _ id) by done.
  rewrite list_fmap_id, sort_by_perm. apply NoDup_remove_dups.
Qed.
End groups.

(** ** The map of a grouped answer *)

Definition row_in (b : string) (row : string * option string * Z) : bool := String.eqb row.1.1 b.

Definition row_named (b n : string) (row : string * option string * Z) : bool :=
  String.eqb row.1.1 b && column_is row.1.2 n.

(** The sum of the rows [f] keeps, if it keeps any. *)
Definition sum_rows (f : string * option string * Z → bool) (rows : list (string * option string * Z)) : option Z :=
  if existsb f rows then Some (sum_of (λ r, if f r then r.2 else 0) rows) else None.

Lemma sum_rows_snoc f rows r : sum_rows f (rows ++ [r]) =
  if f r then Some (default 0 (sum_rows f rows) + r.2) else sum_rows f rows.
Proof.
  unfold sum_rows. rewrite existsb_app, sum_of_app, sum_of_cons. cbn [existsb sum_of foldr]. rewrite orb_false_r.
  destruct (f r).
  - rewrite orb_true_r. destruct (existsb f rows) eqn:E; cbn [from_option id]; [do 2 f_equal; lia|].
    rewrite (sum_of_ext _ (λ _, 0)), sum_of_zero; [do 2 f_equal; lia|]. intros a Ha.
    assert (f a = false) as ->; [|done]. destruct (f a) eqn:Hf; [|done].
    assert (existsb f rows = true) as Hc by (apply existsb_exists; exists a; by rewrite <- list_elem_of_In). congruence.
  - rewrite orb_false_r. destruct (existsb f rows); [|done]. f_equal. lia.
Qed.

Lemma fold_rows (rows : list (string * option string * Z)) b :
  match foldl add_row ∅ rows !! b with
  | None => sum_rows (row_in b) rows = None
  | Some (total, breakdown) =>
      sum_rows (row_in b) rows = Some total ∧ ∀ n, breakdown !! n = sum_rows (row_named b n) rows
  end.
Proof.
  induction rows as [|[[b' name] k] rows IH] using rev_ind; [cbn [foldl]; by rewrite lookup_empty|].
  rewrite foldl_snoc. unfold add_row at 1. set (m := foldl add_row ∅ rows) in *.
  destruct (decide (b' = b)) as [->|Hb].
  - destruct (m !! b) as [[total breakdown]|]; cbn [from_option id].
    + destruct IH as [IHt IHn]. rewrite lookup_insert_eq. split.
      * rewrite sum_rows_snoc, IHt. unfold row_in. cbn. by rewrite String.eqb_refl.
      * intros n. rewrite sum_rows_snoc, <- IHn. unfold row_named, column_is. cbn. rewrite String.eqb_refl. cbn.
        destruct name as [x|]; [|done].
        destruct (decide (x = n)) as [->|Hx];
          [rewrite lookup_insert_eq, bool_decide_true by done; done|].
        rewrite lookup_insert_ne, bool_decide_false by congruence. done.
    + rewrite lookup_insert_eq. split.
      * rewrite sum_rows_snoc, IH. unfold row_in. cbn. by rewrite String.eqb_refl.
      * intros n. rewrite sum_rows_snoc.
        assert (sum_rows (row_named b n) rows = None) as ->.
        { revert IH. unfold sum_rows. destruct (existsb (row_named b n) rows) eqn:E; [|done].
          apply existsb_exists in E as (r & Hr & Hf). apply andb_prop in Hf as [Hf _].
          assert (existsb (row_in b) rows = true) as -> by (apply existsb_exists; eauto). done. }
        unfold row_named, column_is. cbn. rewrite String.eqb_refl. cbn. destruct name as [x|]; [|apply lookup_empty].
        destruct (decide (x = n)) as [->|Hx];
          [rewrite lookup_insert_eq, bool_decide_true by done; done|].
        rewrite lookup_insert_ne, bool_decide_false by congruence. done.
  - destruct (default (0, ∅) (m !! b')) as [total' breakdown']. rewrite lookup_insert_ne by done.
    assert (row_in b (b', name, k) = false) as E by (by apply String.eqb_neq).
    destruct (m !! b) as [[total breakdown]|]; rewrite sum_rows_snoc, E; [|exact IH].
    destruct IH as [IHt IHn]. split; [exact IHt|]. intros n. rewrite sum_rows_snoc, IHn.
    unfold row_named at 2. cbn [fst snd]. unfold row_in in E. cbn [fst snd] in E. by rewrite E.
Qed.

(** ** The answer counts the events *)

Definition positive (n : Z) : option Z := if 0 <? n then Some n else None.

(** A bucket counts the rows of its text, and in a grouped answer those of each name. *)
Record bucket_exact (text : EventRow → string) (grouped : bool) (rows : list EventRow) (b : StatsBucket) : Prop := {
  exact_count : b_count b = count_if (λ e, String.eqb (text e) (b_bucket b)) rows;
  exact_some : 0 < b_count b;
  exact_names :
    if grouped
    then ∀ n, default ∅ (b_breakdown b) !! n
              = positive (count_if (λ e, String.eqb (text e) (b_bucket b) && column_is (e_event_name e) n) rows)
    else b_breakdown b = None;
}.

(** The buckets partition the rows. *)
Record buckets_exact (text : EventRow → string) (grouped : bool) (rows : list EventRow) (l : list StatsBucket) : Prop := {
  exact_each : Forall (bucket_exact text grouped rows) l;
  exact_distinct : NoDup (b_bucket <$> l);
  exact_cover : ∀ e, e ∈ rows → text e ∈ b_bucket <$> l;
}.

Lemma exact_total text grouped rows l : buckets_exact text grouped rows l →
  sum_of b_count l = Z.of_nat (length rows).
Proof.
  intros [He Hd Hc].
  pose proof (sum_groups (λ _, true) (b_bucket <$> l) (text <$> rows) Hd) as Hs. cbv beta iota in Hs.
  rewrite sum_of_fmap, count_if_fmap in Hs.
  transitivity (count_if (λ _ : EventRow, true) rows).
  - rewrite <- Hs by (intros k (e & -> & Hin)%list_elem_of_fmap; by apply Hc). apply sum_of_ext. intros b Hb.
    rewrite Forall_forall in He. rewrite (exact_count _ _ _ _ (He b Hb)). cbn. rewrite count_if_fmap.
    apply sum_of_ext. intros e _. destruct (String.eqb_spec (text e) (b_bucket b)); [by rewrite bool_decide_true|].
    by rewrite bool_decide_false.
  - clear. induction rows as [|e rows IH]; [done|]. unfold count_if in *. rewrite sum_of_cons, IH. cbn [length]. lia.
Qed.

Section exact.
Context `{StatsLib} (collation : TotalOrder string).
Context (key : EventRow → Z) (text : Z → string) (text_inj : ∀ a b, text a = text b → a = b).
Context (rows : list EventRow).

Lemma count_key k : count_if (λ k', bool_decide (k' = k)) (key <$> rows) = count_if (λ e, String.eqb (text (key e)) (text k)) rows.
Proof.
  rewrite count_if_fmap. apply sum_of_ext. intros e _. destruct (String.eqb_spec (text (key e)) (text k)) as [E|E].
  - apply text_inj in E. by rewrite bool_decide_true.
  - rewrite bool_decide_false; [done|]. intros ?. by destruct E; f_equal.
Qed.

Lemma plain_exact : buckets_exact (text ∘ key) false rows (query_plain key text rows).
Proof.
  unfold query_plain. split.
  - rewrite Forall_forall. intros b ([k n] & -> & Hin)%list_elem_of_fmap.
    apply group_counts_elem in Hin as [Hk ->]. split; cbn [b_count b_bucket b_breakdown]; [apply count_key| |done].
    apply count_if_pos. exists k. by rewrite bool_decide_true.
  - rewrite <- list_fmap_compose.
    rewrite (list_fmap_ext _ (text ∘ fst)) by (by intros ? [] ?). rewrite list_fmap_compose.
    apply NoDup_fmap_2; [exact text_inj|apply group_counts_NoDup].
  - intros e He. apply list_elem_of_fmap.
    exists {| b_bucket := text (key e); b_count := count_if (λ k', bool_decide (k' = key e)) (key <$> rows); b_breakdown := None |}.
    split; [done|]. apply list_elem_of_fmap. eexists (key e, _). split; [reflexivity|].
    apply group_counts_elem. split; [by apply list_elem_of_fmap_2|done].
Qed.

Lemma sum_grouped (g : string * option string → bool) :
  sum_rows (λ r, g r.1) ((λ '(k, name, n), (text k, name, n)) <$>
    group_counts (newest_then_name collation) ((λ e, (key e, e_event_name e)) <$> rows))
  = positive (count_if (λ e, g (text (key e), e_event_name e)) rows).
Proof.
  set (keys := (λ e, (key e, e_event_name e)) <$> rows). unfold sum_rows, positive.
  rewrite sum_of_fmap.
  rewrite (sum_of_ext _ (λ p, if g (text p.1.1, p.1.2) then p.2 else 0)) by (by intros [[]] ?).
  rewrite (group_counts_sum _ keys (λ k, g (text k.1, k.2))). unfold keys at 2. rewrite count_if_fmap. cbn [fst snd].
  set (c := count_if _ rows). destruct (existsb _ _) eqn:E, (Z.ltb_spec 0 c) as [Hc|Hc]; try done; exfalso.
  - apply existsb_exists in E as (r & Hr & Hg). apply list_elem_of_In, list_elem_of_fmap in Hr as ([[k name] n] & -> & Hin).
    apply group_counts_elem in Hin as [(e & [= -> ->] & He)%list_elem_of_fmap _].
    assert (0 < c); [|lia]. apply count_if_pos. by exists e.
  - apply count_if_pos in Hc as (e & He & Hg). apply not_true_iff_false in E. apply E, existsb_exists.
    exists (text (key e), e_event_name e, count_if (λ k', bool_decide (k' = (key e, e_event_name e))) keys).
    split; [|done]. apply list_elem_of_In, list_elem_of_fmap. eexists (key e, e_event_name e, _). split; [reflexivity|].
    apply group_counts_elem. split; [|done]. by apply (list_elem_of_fmap_2 (λ e, (key e, e_event_name e))).
Qed.

Lemma grouped_exact : buckets_exact (text ∘ key) true rows (query_grouped collation key text rows).
Proof.
  unfold query_grouped. set (counted := (λ '(k, name, n), (text k, name, n)) <$> _).
  assert (∀ b, sum_rows (row_in b) counted = positive (count_if (λ e, String.eqb (text (key e)) b) rows)) as Hin
    by (intros b; apply (sum_grouped (λ p, String.eqb p.1 b))).
  assert (∀ b n, sum_rows (row_named b n) counted
    = positive (count_if (λ e, String.eqb (text (key e)) b && column_is (e_event_name e) n) rows)) as Hnamed
    by (intros b n; apply (sum_grouped (λ p : string * option string, String.eqb p.1 b && column_is p.2 n))).
  split.
  - rewrite Forall_forall. intros bk ([b [total breakdown]] & -> & Hb)%list_elem_of_fmap.
    rewrite hash_walk_perm in Hb. apply elem_of_map_to_list in Hb.
    pose proof (fold_rows counted b) as Hf. rewrite Hb in Hf. destruct Hf as [Ht Hn]. rewrite Hin in Ht.
    unfold positive in Ht. destruct (Z.ltb_spec 0 (count_if (λ e, String.eqb (text (key e)) b) rows)); [|done].
    injection Ht as <-. split; cbn [b_count b_bucket b_breakdown]; [done|done|]. intros n.
    rewrite <- Hnamed, <- Hn. by case_bool_decide; subst.
  - rewrite <- list_fmap_compose. rewrite (list_fmap_ext _ fst) by (by intros ? [? []] ?).
    rewrite hash_walk_perm. apply NoDup_fst_map_to_list.
  - intros e He. pose proof (fold_rows counted (text (key e))) as Hf.
    destruct (foldl add_row ∅ counted !! text (key e)) as [[total breakdown]|] eqn:E.
    + apply list_elem_of_fmap. eexists. split; [|apply list_elem_of_fmap; exists (text (key e), (total, breakdown));
        split; [reflexivity|]]; [done|]. rewrite hash_walk_perm. by apply elem_of_map_to_list.
    + rewrite Hin in Hf. unfold positive in Hf.
      destruct (Z.ltb_spec 0 (count_if (λ e', String.eqb (text (key e')) (text (key e))) rows)) as [|Hle]; [done|].
      assert (0 < count_if (λ e', String.eqb (text (key e')) (text (key e))) rows); [|lia].
      apply count_if_pos. exists e. split; [done|]. apply String.eqb_refl.
Qed.
End exact.

Section stats.
Context `{Stellar} `{PgLib} `{StatsLib} (collation : TotalOrder string).

Lemma bucket_text_inj g a b : bucket_text g a = bucket_text g b → a = b.
Proof. destruct g; [apply time_text_inj|apply show_i_inj]. Qed.

Definition grouped_by_name (q : StatsQuery) : bool := bool_decide (st_group_by q = Some "event_name").

Lemma contract_stats_inv param q now now' db resp :
  contract_stats collation param q now now' db = Some (Ok resp) →
  ∃ contract range table, param = Some contract ∧ db = Ok table ∧ parse_stats contract q now now' = Some (Ok range)
  ∧ buckets_exact (bucket_text (rg_granularity range) ∘ bucket_key (rg_granularity range)) (grouped_by_name q)
      (base.filter (λ e, in_range contract range e = true) table) (sr_data resp)
  ∧ sr_total resp = sum_of b_count (sr_data resp).
Proof.
  unfold contract_stats, valid_contract_id. destruct param as [contract|]; [|done]. cbn [ok_or mbind result_bind].
  destruct (is_valid_contract_id contract); [|done].
  destruct (parse_stats contract q now now') as [[range|]|] eqn:Hr; [|done..]. cbn [mbind option_bind result_bind].
  destruct db as [table|]; [|done]. cbn [map_err]. intros [= <-]. cbn [sr_data sr_total].
  exists contract, range, table. split; [done|]. split; [done|]. split; [done|]. split; [|done].
  unfold grouped_by_name. rewrite run_query_eq. case_bool_decide.
  - exact (grouped_exact collation (bucket_key _) (bucket_text _) _).
  - exact (plain_exact (bucket_key _) (bucket_text _) (bucket_text_inj _) _).
Qed.

(** The granularity, the times and the default range of a request that parses. *)
Lemma parse_stats_inv contract q now now' range : parse_stats contract q now now' = Some (Ok range) →
  ∃ g from to, parse_granularity (st_resolution q) (st_bucket q) = Ok g ∧ parse_times q now = Some (Ok (from, to))
  ∧ clamp_range g from to (st_from_ledger q) (st_to_ledger q) now' = Ok range ∧ rg_granularity range = g.
Proof.
  unfold parse_stats. destruct (validate_contract_id contract) as [[]|]; [|done]. cbn [mbind result_bind].
  destruct (parse_granularity _ _) as [g|] eqn:Hg; [|done]. cbn [mbind result_bind].
  destruct (unless_null _ _); [|done]. cbn [mbind result_bind].
  destruct (parse_times q now) as [times|] eqn:Ht; [|done]. cbn [mbind option_bind]. intros [= Hr].
  apply bind_ok_inv in Hr as ([from to] & -> & Hr). apply bind_ok_inv in Hr as (? & _ & Hr).
  apply bind_ok_inv in Hr as (? & _ & Hr). exists g, from, to. split; [done|]. split; [done|]. split; [done|].
  revert Hr. unfold clamp_range. destruct g; [destruct (MAX_BUCKETS <? _)|destruct (negb _ && _)];
    intros E; try discriminate E; by injection E as <-.
Qed.

(** What the time parameters of a request ask for: [from] and [to] as they are
    given, or a window that ends now. *)
Definition times_asked (q : StatsQuery) (now : DateTime) (from to : option DateTime) : Prop :=
  (st_window q = None → from = st_from q ≫= parse_from_rfc3339 ∧ to = st_to q ≫= parse_from_rfc3339)
  ∧ (∀ w, st_window q = Some w → st_to q = None →
       ∃ length, parse_window w = Some (Ok length) ∧ from = Some (now - length) ∧ to = Some now).

Lemma parse_time_value field raw o : parse_time field raw = Ok o → o = raw ≫= parse_from_rfc3339.
Proof. unfold parse_time. destruct raw as [s|]; [|by intros [= <-]]. destruct (parse_from_rfc3339 s) eqn:E; cbn; rewrite E; [by intros [= <-]|done]. Qed.

Lemma parse_times_asked q now from to : parse_times q now = Some (Ok (from, to)) → times_asked q now from to.
Proof.
  unfold parse_times, times_asked. destruct (parse_time "from" (st_from q)) as [f|] eqn:Hf; [|done].
  destruct (parse_time "to" (st_to q)) as [t|] eqn:Ht; [|done]. apply parse_time_value in Hf, Ht. cbn [mbind result_bind].
  destruct (st_window q) as [w|].
  - destruct (parse_window w) as [[dur|]|] eqn:Hw; cbn [mbind option_bind]; [|done..]. intros Hs. split; [done|].
    intros w' [= <-] Hto. rewrite Hto in Ht. cbn in Ht. subst t. cbn [default] in Hs.
    destruct (time_sub now dur) as [t'|] eqn:Hsub; [|done]. injection Hs as <- <-.
    exists dur. split; [done|]. split; [|done]. f_equal. exact (time_sub_spec _ _ _ Hsub).
  - intros [= <- <-]. split; [done|]. by intros w [=].
Qed.

(** [resp] counts exactly [rows], by the buckets of [g]. *)
Definition counts (g : Granularity) (q : StatsQuery) (rows : list EventRow) (resp : StatsResponse) : Prop :=
  buckets_exact (bucket_text g ∘ bucket_key g) (grouped_by_name q) rows (sr_data resp)
  ∧ sr_total resp = Z.of_nat (length rows).


(** ** Bounds *)

(** Texts of [n] consecutive keys. *)
Lemma buckets_in_interval text grouped rows l (f : Z → string) lo n :
  buckets_exact text grouped rows l → (∀ e, e ∈ rows → ∃ i, lo ≤ i < lo + n ∧ text e = f i) → 0 ≤ n →
  Z.of_nat (length l) ≤ n.
Proof.
  intros [He Hd _] Hi Hn. rewrite <- (length_fmap b_bucket).
  assert (length (b_bucket <$> l) ≤ length (f <$> seqZ lo n))%nat as Hlen.
  { apply submseteq_length, NoDup_submseteq; [done|]. intros s (b & -> & Hb)%list_elem_of_fmap.
    rewrite Forall_forall in He. destruct (He b Hb) as [Hc Hp _]. rewrite Hc in Hp.
    apply count_if_pos in Hp as (e & Hin & Heq%String.eqb_eq). destruct (Hi e Hin) as (i & Hb' & Ht).
    apply list_elem_of_fmap. exists i. split; [congruence|]. apply elem_of_seqZ. lia. }
  rewrite !length_fmap, length_seqZ in Hlen. rewrite length_fmap. lia.
Qed.

(** [date_trunc] of a unit of fixed length rounds down to a multiple of it. *)
Definition aligned (unit : string) : Prop :=
  ∃ a, ∀ t, date_trunc unit t = a + (unit_secs unit * 10 ^ 9) * ((t - a) / (unit_secs unit * 10 ^ 9)).

Lemma unit_secs_pos unit : 60 ≤ unit_secs unit.
Proof. unfold unit_secs. repeat destruct (String.eqb _ _); lia. Qed.

Lemma div_interval U x y t : 0 < U → x ≤ t ≤ y → y - x < 2000 * U + 2000 → 60000 < U →
  x / U ≤ t / U < x / U + 2002.
Proof.
  intros HU Ht Hxy Hbig. split; [apply Z.div_le_mono; lia|].
  apply Z.div_lt_upper_bound; [lia|]. pose proof (Z.mod_pos_bound x U HU). pose proof (Z.div_mod x U). nia.
Qed.

(** What a response may hold: by time, in units of fixed length, at most two
    buckets more than the limit; by ledger, one more, if the range has an end. *)
Theorem stats_bounded param q now now' table resp :
  (∀ t, - 1000 < bound t - t < 1000) →
  contract_stats collation param q now now' (Ok table) = Some (Ok resp) →
  ∃ contract range, parse_stats contract q now now' = Some (Ok range)
  ∧ match rg_granularity range with
    | Trunc unit => aligned unit → Z.of_nat (length (sr_data resp)) ≤ MAX_BUCKETS + 2
    | Ledger => is_Some (rg_to_ledger range) → Z.of_nat (length (sr_data resp)) ≤ MAX_BUCKETS + 1
    end.
Proof.
  intros Hbound (contract & range & ? & -> & [= <-] & Hr & He & Ht)%contract_stats_inv.
  exists contract, range. split; [done|].
  assert (∃ from to from' to', clamp_range (rg_granularity range) from to from' to' now' = Ok range) as (from & to & from' & to' & Hc).
  { apply parse_stats_inv in Hr as (g & from & to & _ & _ & Hc & ->). by exists from, to, (st_from_ledger q), (st_to_ledger q). }
  revert Hc He. unfold clamp_range. destruct (rg_granularity range) as [unit|] eqn:Hg.
  - match goal with |- context [trunc_bucket_count unit ?f0 ?t0] => set (f := f0); set (t := t0) end.
    destruct (Z.ltb_spec MAX_BUCKETS (trunc_bucket_count unit f t)) as [|Hcap]; [done|]. intros [= <-] He [a Ha].
    assert (t - f < 2000 * (unit_secs unit * 10 ^ 9)) as Hspan.
    { unfold trunc_bucket_count, MAX_BUCKETS in Hcap. pose proof (unit_secs_pos unit).
      destruct (Z.le_gt_cases (t - f) 0) as [|Hpos]; [lia|].
      rewrite Z.max_l, !Z.quot_div_nonneg in Hcap by (try apply Z.quot_pos; lia || (apply Z.div_pos; lia)).
      pose proof (Z.mul_succ_div_gt (t - f) (10 ^ 9)). pose proof (Z.mul_succ_div_gt ((t - f) / 10 ^ 9) (unit_secs unit)).
      nia. }
    eapply (buckets_in_interval _ _ _ _ (λ i, time_text (a + (unit_secs unit * 10 ^ 9) * i))
      ((bound f - a) / (unit_secs unit * 10 ^ 9))); [exact He| |unfold MAX_BUCKETS; lia].
    intros e [Hin _]%list_elem_of_filter. unfold in_range in Hin. cbn in Hin.
    unfold time_where in Hin. cbn [unless_null] in Hin. rewrite !andb_true_iff, !Z.leb_le in Hin.
    exists ((e_ledger_closed_at e - a) / (unit_secs unit * 10 ^ 9)). pose proof (unit_secs_pos unit).
    pose proof (Hbound f). pose proof (Hbound t). split; [|cbn; by rewrite Ha].
    apply (div_interval _ (bound f - a) (bound t - a)); unfold MAX_BUCKETS; lia.
  - set (last := default I64_MAX to'). 
    set (first := match from' with Some f => f | None => if last =? I64_MAX then 0 else saturating_sub last 10000 end).
    destruct (Z.eqb_spec last I64_MAX) as [|Hne]; cbn [negb andb]; [intros [= <-]; cbn; by intros _ [? ?]|].
    destruct (Z.ltb_spec MAX_BUCKETS (saturating_sub last first)) as [|Hcap]; [done|]. intros [= <-] He _.
    eapply (buckets_in_interval _ _ _ _ show_i first); [exact He| |unfold MAX_BUCKETS; lia].
    intros e [Hin _]%list_elem_of_filter. unfold in_range in Hin. cbn in Hin.
    unfold ledger_where in Hin. cbn [unless_null] in Hin. rewrite !andb_true_iff, !Z.leb_le in Hin.
    exists (e_ledger e). split; [|done]. unfold saturating_sub, MAX_BUCKETS in *. lia.
Qed.
End stats.

(** ** Samples *)

#[local] Instance sample_stellar_stats : Stellar := sample_stellar.
#[local] Instance sample_pg_stats : PgLib := sample_pg.

(** UTC, and [chrono]'s bounds on a duration. *)
#[local] Instance sample_stats : StatsLib.
Proof.
  refine {| duration_of unit num := if num * unit * 1000 <? 2 ^ 63 then Some (num * unit * 10 ^ 9) else None;
            time_sub t d := Some (t - d);
            date_trunc unit t := (unit_secs unit * 10 ^ 9) * (t / (unit_secs unit * 10 ^ 9));
            time_text := show_i; hash_walk m := map_to_list m |}.
  - intros unit num d. by destruct (_ <? _); intros [= <-].
  - by intros t d t' [= <-].
  - exact show_i_inj.
  - done.
Defined.

Definition stats_query (bucket : string) (group_by window : option string) (from_ledger to_ledger : option Z) : StatsQuery := {|
  st_bucket := bucket; st_resolution := None; st_window := window; st_group_by := group_by; st_from := None;
  st_to := None; st_from_ledger := from_ledger; st_to_ledger := to_ledger |}.

Definition summary (r : option (result ApiError StatsResponse)) : option (list (string * Z * list (string * Z)) * Z) :=
  match r with
  | Some (Ok resp) =>
      Some (map (λ b, (b_bucket b, b_count b, map_to_list (default ∅ (b_breakdown b)))) (sr_data resp), sr_total resp)
  | _ => None
  end.

Example grouped_stats :
  summary (contract_stats string_order (Some sample_id) (stats_query "ledger" (Some "event_name") None None None) 9 9 (Ok sample_events))
  = Some ([("3", 1, [("transfer", 1)]); ("2", 2, [("transfer", 2)]); ("0", 1, [("mint", 1)])], 4).
Proof. by vm_compute. Qed.


Lemma stats_bounded_witness :
  let q := stats_query "day" None None None None in
  ∃ resp, contract_stats string_order (Some sample_id) q 9 9 (Ok sample_events) = Some (Ok resp)
  ∧ ∃ contract range, parse_stats contract q 9 9 = Some (Ok range)
  ∧ match rg_granularity range with
    | Trunc unit => aligned unit → Z.of_nat (length (sr_data resp)) ≤ MAX_BUCKETS + 2
    | Ledger => is_Some (rg_to_ledger range) → Z.of_nat (length (sr_data resp)) ≤ MAX_BUCKETS + 1
    end.
Proof.
  cbv zeta. set (q := stats_query _ _ _ _ _).
  destruct (contract_stats string_order (Some sample_id) q 9 9 (Ok sample_events)) as [[resp|]|] eqn:E;
    [|by vm_compute in E..].
  exists resp. split; [reflexivity|].
  apply (stats_bounded string_order (Some sample_id) q 9 9 sample_events resp); [|exact E].
  intros t. cbn. lia.
Defined.

Lemma days_aligned : aligned "day".
Proof. exists 0. intros t. unfold aligned. cbn [date_trunc sample_stats]. by rewrite Z.sub_0_r, Z.add_0_l. Qed.

(** *** What the statistics do otherwise than they mean to *)

(** A request with [to_ledger] alone is refused: its default range of 10,000
    ledgers is over the cap. *)
Lemma upper_ledger_alone_refused from to last now' :
  - 2 ^ 63 + 10000 ≤ last < I64_MAX → is_ok (clamp_range Ledger from to None (Some last) now') = false.
Proof.
  intros Hl. unfold clamp_range. cbn [from_option id]. unfold I64_MAX, saturating_sub, MAX_BUCKETS in *.
  destruct (Z.eqb_spec last (2 ^ 63 - 1)); [lia|]. cbn [negb andb].
  destruct (Z.ltb_spec 2000 (Z.max (- 2 ^ 63) (Z.min (2 ^ 63 - 1) (last - Z.max (- 2 ^ 63) (Z.min (2 ^ 63 - 1) (last - 10000))))));
    [done|lia].
Qed.

(** So is a request by the minute without a range: 90 days of minutes. *)
Lemma minutes_refused from_ledger to_ledger now' :
  is_ok (clamp_range (Trunc "minute") None None from_ledger to_ledger now') = false.
Proof.
  unfold clamp_range. cbn [from_option String.eqb Ascii.eqb Bool.eqb]. unfold trunc_bucket_count, days.
  replace (now' - (now' - 90 * 86400 * 10 ^ 9)) with (90 * 86400 * 10 ^ 9) by lia. done.
Qed.

(** By ledger without an upper bound nothing is capped: every ledger from the
    lower bound on, or from the first, is a bucket. *)
Lemma ledgers_uncapped from to from_ledger now' :
  clamp_range Ledger from to from_ledger None now'
  = Ok {| rg_granularity := Ledger; rg_from := from; rg_to := to;
          rg_from_ledger := Some (default 0 from_ledger); rg_to_ledger := None |}.
Proof. by destruct from_ledger. Qed.

(** A ledger range does not narrow statistics by time. *)
Example ledger_range_ignored :
  summary (contract_stats string_order (Some sample_id) (stats_query "day" None None (Some 100) (Some 200)) 9 9 (Ok sample_events))
  = Some ([("0", 4, [])], 4).
Proof. by vm_compute. Qed.

(** A long window panics. *)
Example long_window_panics :
  contract_stats string_order (Some sample_id) (stats_query "day" None (Some "9223372036854775807w") None None) 9 9 (Ok []) = None.
Proof. by vm_compute. Qed.
