(* ===== verification/ContractRoutes.v ===== *)
(** * ContractRoutes: contracts, interfaces and state ([lumenqraph-api/src/routes/contracts.rs])

    The lists, the interface with its history and diffs, and the snapshots.
    [stmt n] is what the [n]th statement of a request sees, or the driver's
    error text; [If-None-Match] is a request's header as text.  The hash behind
    an [ETag] and [chrono]'s serialiser are the class [RouteLib].  The refresh
    is in [RefreshRoute]. *)
From S2P Require Import Prelude Text Containers Values Instances Serde XdrDecode Spec Diff Store Pagination ApiError Models EventRoutes Specs.
From Stdlib Require Import Ascii.

Local Open Scope string_scope.
Local Open Scope Z_scope.

Class RouteLib := {
  (** [DefaultHasher] over a text: 64 bits. *)
  source_hash : string → Z;
  rfc3339 : DateTime → string;
}.

(** The tables the routes read. *)
Record ApiDb := {
  contract_summaries : list ContractRow;
  contract_specs : list InterfaceRow;
  contract_spec_versions : list UpgradeRow;
  contract_state : list StateRow;
  contract_data : list KeyRow;
}.

Definition Stmts : Type := nat → result string ApiDb.

Definition read (stmt : Stmts) (n : nat) : result ApiError ApiDb := map_err Internal (stmt n).

(** ** Conditional requests *)

Inductive Reply : Type :=
  | NotModified (etag : string)
  | Answer (etag : option string) (body : Json).

(** [{h:016x}]. *)
Definition hex16 (h : Z) : string := hex_string (map (λ i, byte_of ((h / 2 ^ (8 * i)) mod 256)) [7; 6; 5; 4; 3; 2; 1; 0]).

Section contracts.
Context `{Stellar} `{RouteLib} (collation : TotalOrder string).

Definition quoted (s : string) : string := of_bytes [dquote] +:+ s +:+ of_bytes [dquote].

Definition generate_etag (source : string) : string := "W/" +:+ quoted (hex16 (source_hash source)).

Definition check_if_none_match (if_none_match : option string) (etag : string) : bool :=
  match if_none_match with Some s => String.eqb s etag || String.eqb s "*" | None => false end.

(** A body under its [ETag], or 304 to a client that has it. *)
Definition conditional (if_none_match : option string) (etag : string) (body : Json) : Reply :=
  if check_if_none_match if_none_match etag then NotModified etag else Answer (Some etag) body.

Definition time_value (t : DateTime) : Json := JStr (rfc3339 t).

Definition json_opt {A} (f : A → Json) (o : option A) : Json := match o with Some a => f a | None => JNull end.

(** ** The list of contracts *)

Definition default_contracts_limit : Z := 100.

Record ContractsResponse := {
  cr_data : list ContractRow;
  cr_has_more : bool;
  cr_next_cursor : option string;
}.

(** [ORDER BY event_count DESC, contract_id ASC]. *)
Definition count_cmp (a b : Z * string) : comparison :=
  match Z.compare b.1 a.1 with
  | Eq => @tcmp string collation a.2 b.2
  | c => c
  end.

Definition count_key (r : ContractRow) : Z * string := (c_event_count r, c_contract_id r).

Definition counted_before (a b : ContractRow) : comparison := count_cmp (count_key a) (count_key b).

(** [event_count < $1 OR (event_count = $1 AND contract_id > $2)]. *)
Definition after_contract (cc : Z) (cursor : string) (r : ContractRow) : bool :=
  (c_event_count r <? cc)
  || ((c_event_count r =? cc) && match @tcmp string collation (c_contract_id r) cursor with Gt => true | _ => false end).

(** [limit + 1] rows were asked for: the page and whether more follow. *)
Definition split_page {R} (limit : Z) (rows : list R) : list R * bool :=
  let more := limit <? Z.of_nat (length rows) in
  (if more then take (Z.to_nat limit) rows else rows, more).

Definition list_contracts (limit : Z) (after : option string) (stmt : Stmts) : result ApiError ContractsResponse :=
  let limit := clamp 1 1000 limit in
  contracts ← match after with
              | Some cursor =>
                  db ← read stmt 0;
                  match List.find (λ r, String.eqb (c_contract_id r) cursor) (contract_summaries db) with
                  | Some row =>
                      db ← read stmt 1;
                      Ok (select (λ r, (0 <? c_event_count r) && after_contract (c_event_count row) cursor r)
                            counted_before (limit + 1) (contract_summaries db))
                  | None => Ok []
                  end
              | None =>
                  db ← read stmt 0;
                  Ok (select (λ r, 0 <? c_event_count r) counted_before (limit + 1) (contract_summaries db))
              end;
  let '(rows, more) := split_page limit contracts in
  Ok {| cr_data := rows; cr_has_more := more; cr_next_cursor := if more then c_contract_id <$> last rows else None |}.

(** ** Interfaces *)

Definition interface_at_version (contract_id : string) (version : Z) (if_none_match : option string) (stmt : Stmts)
    : result ApiError Reply :=
  db ← read stmt 0;
  match List.find (λ u, String.eqb (u_contract_id u) contract_id && (u_version u =? version)) (contract_spec_versions db) with
  | Some u =>
      Ok (conditional if_none_match (generate_etag (u_wasm_hash u)) (mk_obj [
        ("contract_id", JStr contract_id); ("version", JInt version); ("wasm_hash", JStr (u_wasm_hash u));
        ("observed_at", time_value (u_observed_at u)); ("interface", u_interface u)]))
  | None => Err (not_found ("no version " +:+ show_i version +:+ " recorded for this contract"))
  end.

Definition contract_interface (param : option string) (version : option Z) (if_none_match : option string) (stmt : Stmts)
    : result ApiError Reply :=
  contract_id ← valid_contract_id param;
  match version with
  | Some version => interface_at_version contract_id version if_none_match stmt
  | None =>
      db ← read stmt 0;
      match List.find (λ r, String.eqb (i_contract_id r) contract_id) (contract_specs db) with
      | Some r =>
          Ok (conditional if_none_match (generate_etag (i_wasm_hash r)) (mk_obj [
            ("contract_id", JStr contract_id); ("has_events", JBool (i_has_events r));
            ("fetched_at", time_value (i_fetched_at r)); ("interface", i_interface r)]))
      | None => Err (not_found "no on-chain interface indexed for this contract yet")
      end
  end.

(** ** The history *)

Definition default_history_limit : Z := 50.

Definition parse_history_cursor (cursor : string) : result ApiError Z :=
  version ← ok_or (bad_request "invalid cursor: expected format `version:<N>`") (strip_prefix "version:" cursor);
  ok_or (bad_request "invalid cursor: version component is not a valid integer") (parse_int 32 version).

Definition versions_of (contract_id : string) (db : ApiDb) : list UpgradeRow :=
  base.filter (λ u, String.eqb (u_contract_id u) contract_id = true) (contract_spec_versions db).

(** [SELECT max(version)]. *)
Definition max_version (contract_id : string) (db : ApiDb) : option Z :=
  foldr (λ u best, Some (match best with Some b => Z.max (u_version u) b | None => u_version u end)) None
    (versions_of contract_id db).

Definition no_interface : ApiError := not_found "no on-chain interface indexed for this contract yet".

Record HistoryResponse := {
  hr_versions : list UpgradeRow;
  hr_has_more : bool;
  hr_next_cursor : option string;
}.

Definition version_json (u : UpgradeRow) : Json := mk_obj [
  ("version", JInt (u_version u)); ("wasm_hash", JStr (u_wasm_hash u));
  ("previous_wasm_hash", json_opt JStr (u_previous_wasm_hash u)); ("diff", json_opt id (u_diff u));
  ("breaking", JBool (u_breaking u)); ("observed_at", time_value (u_observed_at u))].

Definition history_json (contract_id : string) (h : HistoryResponse) : Json := mk_obj [
  ("contract_id", JStr contract_id); ("count", JInt (Z.of_nat (length (hr_versions h))));
  ("has_more", JBool (hr_has_more h)); ("next_cursor", json_opt JStr (hr_next_cursor h));
  ("versions", JArr (version_json <$> hr_versions h))].

(** One page of the history, newest first. *)
Definition history_page (contract_id : string) (limit : Z) (after_version : option Z) (db : ApiDb) : HistoryResponse :=
  let rows := select (λ u, String.eqb (u_contract_id u) contract_id && unless_null after_version (λ v, u_version u <? v))
                (newest_ledger u_version) (limit + 1) (contract_spec_versions db) in
  let '(rows, more) := split_page limit rows in
  {| hr_versions := rows; hr_has_more := more;
     hr_next_cursor := if more then (λ u, "version:" +:+ show_i (u_version u)) <$> last rows else None |}.

(** The handler, before the response is rendered: the [ETag], and the page if
    the client does not have it. *)
Definition interface_history (param : option string) (limit : Z) (after : option string) (if_none_match : option string)
    (stmt : Stmts) : result ApiError (string * string * option HistoryResponse) :=
  contract_id ← valid_contract_id param;
  after_version ← match after with
                  | Some cursor => v ← parse_history_cursor cursor; Ok (Some v)
                  | None => Ok None
                  end;
  let limit := clamp 1 1000 limit in
  db ← read stmt 0;
  latest ← ok_or no_interface (max_version contract_id db);
  let etag := generate_etag (contract_id +:+ ":" +:+ show_i latest) in
  if check_if_none_match if_none_match etag then Ok (contract_id, etag, None)
  else
    db ← read stmt 1;
    Ok (contract_id, etag, Some (history_page contract_id limit after_version db)).

Definition contract_interface_history (param : option string) (limit : Z) (after : option string)
    (if_none_match : option string) (stmt : Stmts) : result ApiError Reply :=
  '(contract_id, etag, page) ← interface_history param limit after if_none_match stmt;
  Ok (match page with
      | None => NotModified etag
      | Some h => Answer (Some etag) (history_json contract_id h)
      end).

(** ** Diffs *)

Definition validate_diff_range (from to : Z) : result ApiError unit :=
  if from <? 1 then Err (bad_request ("`from` (" +:+ show_i from +:+ ") must be >= 1: interface versions start at 1"))
  else if to <? from then
    Err (bad_request ("`from` (" +:+ show_i from +:+ ") must be less than `to` (" +:+ show_i to
      +:+ "); reversing the order would produce a backward diff where added items appear as removed and vice-versa"))
  else if from =? to then Err (bad_request "`from` and `to` are the same version; nothing to diff")
  else Ok tt.

(** [n - 1] on [i32], wrapping. *)
Definition pred_i32 (n : Z) : Z := if n =? - 2 ^ 31 then 2 ^ 31 - 1 else n - 1.

(** The cache is threaded through the two lookups; [reads v] is what the lookup
    of version [v] reads, [others] what other requests do to the cache meanwhile. *)
Context (read_xdr_iter : Z → Z → list ascii → list (result string ScSpecEntry)).

Definition load_spec (reads : SpecReads) (others : SpecCache → SpecCache) (contract_id : string) (version : Z)
    (c : SpecCache) : result ApiError ContractSpec * SpecCache :=
  let '(entry, c) := at_version read_xdr_iter reads others contract_id version c in
  (entry ← entry;
   ok_or (Internal ("stored spec section for version " +:+ show_i version +:+ " could not be parsed")) (parsed entry), c).

(** The two versions of a request. *)
Definition diff_range (from to : option Z) (latest : Z) : result ApiError (Z * Z) :=
  let to := default latest to in
  let first := default (pred_i32 to) from in
  if (first <? 1) && negb (bool_decide (is_Some from)) then
    Err (bad_request ("no version to diff against: this contract has only version " +:+ show_i latest
      +:+ " on record, so there is no earlier interface to compare it to"))
  else
    _ ← validate_diff_range first to;
    Ok (first, to).

Definition contract_interface_diff (param : option string) (from to : option Z) (stmt : Stmts)
    (reads : Z → SpecReads) (others : SpecCache → SpecCache) (c : SpecCache) : result ApiError Json * SpecCache :=
  match (contract_id ← valid_contract_id param;
         _ ← match from, to with Some f, Some t => validate_diff_range f t | _, _ => Ok tt end;
         db ← read stmt 0;
         latest ← ok_or no_interface (max_version contract_id db);
         range ← diff_range from to latest;
         Ok (contract_id, range)) with
  | Err e => (Err e, c)
  | Ok (contract_id, (first, last)) =>
      let '(old, c) := load_spec (reads first) others contract_id first c in
      match old with
      | Err e => (Err e, c)
      | Ok old =>
          let '(new, c) := load_spec (reads last) others contract_id last c in
          (new ← new;
           Ok (mk_obj [("contract_id", JStr contract_id); ("from", JInt first); ("to", JInt last);
                       ("diff", to_json (between old new))]), c)
      end
  end.

(** ** Snapshots *)

(** No rows: nothing is indexed at all, or nothing of this contract. *)
Definition nothing_found {R} (table : list R) (disabled missing : string) : ApiError :=
  match table with [] => feature_disabled disabled | _ => not_found missing end.

Definition snapshot_json (z : StateRow) : Json := mk_obj [
  ("ledger", JInt (z_ledger z)); ("storage", z_storage z); ("captured_at", time_value (z_captured_at z))].

Definition contract_state_route (param : option string) (limit : Z) (if_none_match : option string) (stmt : Stmts)
    : result ApiError Reply :=
  contract_id ← valid_contract_id param;
  let limit := clamp 1 200 limit in
  db ← read stmt 0;
  let rows := select (λ z, String.eqb (z_contract_id z) contract_id) (newest_ledger z_ledger) limit (contract_state db) in
  match rows with
  | [] => db ← read stmt 1;
          Err (nothing_found (contract_state db) "state indexing is disabled" "no state snapshots for this contract")
  | newest :: _ =>
      Ok (conditional if_none_match (generate_etag (contract_id +:+ ":" +:+ show_i (z_ledger newest))) (mk_obj [
        ("contract_id", JStr contract_id); ("count", JInt (Z.of_nat (length rows)));
        ("versions", JArr (snapshot_json <$> rows))]))
  end.

Definition data_json (k : KeyRow) : Json := mk_obj [
  ("key_hash", JStr (k_key_hash k)); ("key", k_key k); ("durability", JStr (k_durability k));
  ("ledger", JInt (k_ledger k)); ("value", k_value k); ("label", json_opt JStr (k_label k));
  ("captured_at", time_value (k_captured_at k))].

(** The rows of an answer. *)
Definition data_rows (contract_id : string) (label : option string) (limit : Z) (db : ApiDb) : list KeyRow :=
  take (Z.to_nat limit) (sort_by (newest_ledger k_ledger) (latest_keys collation contract_id label (contract_data db))).

Definition contract_data_route (param : option string) (label : option string) (limit : Z) (stmt : Stmts)
    : result ApiError Json :=
  contract_id ← valid_contract_id param;
  let limit := clamp 1 1000 limit in
  db ← read stmt 0;
  match data_rows contract_id label limit db with
  | [] => db ← read stmt 1;
          Err (nothing_found (contract_data db) "key indexing is disabled" "no per-key data snapshots for this contract")
  | rows => Ok (mk_obj [("contract_id", JStr contract_id); ("count", JInt (Z.of_nat (length rows)));
                        ("keys", JArr (data_json <$> rows))])
  end.

Definition value_json (k : KeyRow) : Json := mk_obj [
  ("ledger", JInt (k_ledger k)); ("value", k_value k); ("captured_at", time_value (k_captured_at k))].

Definition contract_data_key (param : option string) (key_hash : string) (limit : Z) (stmt : Stmts) : result ApiError Json :=
  contract_id ← valid_contract_id param;
  let limit := clamp 1 500 limit in
  db ← read stmt 0;
  let rows := select (λ k, String.eqb (k_contract_id k) contract_id && String.eqb (k_key_hash k) key_hash)
                (newest_ledger k_ledger) limit (contract_data db) in
  match rows with
  | [] => Err (not_found "no data snapshots for this key")
  | newest :: _ =>
      Ok (mk_obj [
        ("contract_id", JStr contract_id); ("key_hash", JStr key_hash); ("key", k_key newest);
        ("durability", JStr (k_durability newest)); ("label", json_opt JStr (k_label newest));
        ("count", JInt (Z.of_nat (length rows))); ("versions", JArr (value_json <$> rows))])
  end.
End contracts.

(** ** Pages by their last row *)

Lemma strongly_sorted_impl {A} (P Q : A → A → Prop) l :
  (∀ a b, P a b → Q a b) → StronglySorted P l → StronglySorted Q l.
Proof.
  intros HPQ. induction 1 as [|a l Hs IH HF]; constructor; [done|]. eapply Forall_impl; [exact HF|]. auto.
Qed.

(** What follows the [j]th of the kept rows, read again with a cursor. *)
Lemma select_after_row {R K} (key : R → K) (order : TotalOrder K) (keep later : R → bool) rows j t limit :
  NoDup (key <$> base.filter (λ r, keep r = true) rows) →
  in_order key order (base.filter (λ r, keep r = true) rows) !! j = Some t →
  (∀ r, later r = true ↔ @tlt _ order (key t) (key r)) →
  select (λ r, keep r && later r) (λ a b, @tcmp _ order (key a) (key b)) limit rows
  = take (Z.to_nat limit) (drop (S j) (in_order key order (base.filter (λ r, keep r = true) rows))).
Proof.
  intros Hkeys Hj Hlater. unfold select. f_equal.
  rewrite <- (filter_after_drop key order later j t) by (done || by apply in_order_sorted).
  rewrite <- in_order_filter by done. unfold in_order. f_equal.
  rewrite list_filter_filter. apply list_filter_iff. intros r. rewrite andb_true_iff, Is_true_true. tauto.
Qed.

Lemma split_page_rest {R} (all : list R) i n : (1 ≤ n)%nat →
  split_page (Z.of_nat n) (take (S n) (drop i all))
  = (take n (drop i all), bool_decide (i + n < length all)%nat)
  ∧ ((i + n < length all)%nat → last (take n (drop i all)) = all !! (i + n - 1)%nat).
Proof.
  intros Hn. pose proof (page_of_rest all i n Hn) as Hrest. cbv zeta in Hrest. unfold split_page.
  rewrite Nat2Z.id. destruct (_ <? _).
  - destruct Hrest as (Ht & Hlt & Hlast). rewrite Ht in *. by rewrite bool_decide_true.
  - destruct Hrest as [Ht Hle]. rewrite Ht, bool_decide_false by lia. split; [done|lia].
Qed.

Lemma clamp_nat lim max : 1 ≤ max → ∃ n, (1 ≤ n)%nat ∧ clamp 1 max lim = Z.of_nat n.
Proof.
  intros Hmax. exists (Z.to_nat (clamp 1 max lim)).
  unfold clamp. destruct (Z.ltb_spec lim 1), (Z.ltb_spec max lim); lia.
Qed.

Section lists.
Context `{Stellar} `{RouteLib} (collation : TotalOrder string).

Definition count_order : TotalOrder (Z * string) :=
  order_as (lex_order (flip_order Z_asc) collation) (count_cmp collation) (λ _ _, eq_refl).

Lemma after_contract_tlt t r :
  after_contract collation (c_event_count t) (c_contract_id t) r = true ↔ @tlt _ count_order (count_key t) (count_key r).
Proof.
  unfold after_contract, tlt, count_key. cbn [tcmp count_order order_as]. unfold count_cmp. cbn [fst snd].
  rewrite (@tcmp_antisym string collation (c_contract_id r) (c_contract_id t)).
  destruct (Z.compare_spec (c_event_count r) (c_event_count t)) as [E|E|E].
  - destruct (Z.ltb_spec (c_event_count r) (c_event_count t)); [lia|].
    destruct (Z.eqb_spec (c_event_count r) (c_event_count t)); [|lia]. cbn. by destruct (tcmp _ _).
  - destruct (Z.ltb_spec (c_event_count r) (c_event_count t)); [done|lia].
  - destruct (Z.ltb_spec (c_event_count r) (c_event_count t)); [lia|].
    destruct (Z.eqb_spec (c_event_count r) (c_event_count t)); [lia|]. done.
Qed.

Definition contracts_page (r : ContractsResponse) : Page ContractRow :=
  {| data := cr_data r; has_more := cr_has_more r; next_cursor := cr_next_cursor r; offset_deprecated := false |}.

(** While the table does not change, following the cursors lists every contract
    with events once, the busiest first and ties by id, with any limit. *)
Theorem contracts_pages_exact db lim fuel :
  NoDup (c_contract_id <$> contract_summaries db) → (length (contract_summaries db) < fuel)%nat →
  ∃ l, listing count_key (count_cmp collation) (contract_summaries db) (λ r, 0 < c_event_count r) l
  ∧ follow fuel (λ aft, contracts_page <$> list_contracts collation lim aft (λ _, Ok db)) None = Ok l.
Proof.
  intros Hids Hfuel. set (rows := contract_summaries db) in *. set (keep := λ r, 0 <? c_event_count r).
  set (kept := base.filter (λ r, keep r = true) rows). set (all := in_order count_key count_order kept).
  assert (NoDup (count_key <$> kept)) as Hkeys.
  { apply (NoDup_fmap_1 snd). rewrite <- list_fmap_compose.
    eapply sublist_NoDup; [exact Hids|apply fmap_sublist, sublist_filter]. }
  exists all. split.
  { split; [|by apply (in_order_strict count_key count_order)]. intros r. unfold all, kept.
    rewrite in_order_perm, list_elem_of_filter. unfold keep. rewrite Z.ltb_lt. tauto. }
  destruct (clamp_nat lim 1000) as (n & Hn & Hlim); [lia|].
  rewrite <- (drop_0 all) at 1.
  apply (follow_walk _ all n (λ i aft, (i = 0%nat ∧ aft = None)
      ∨ ∃ j t, i = S j ∧ all !! j = Some t ∧ aft = Some (c_contract_id t))); [done| |by left|].
  - intros i aft Hat. unfold list_contracts. rewrite Hlim.
    assert (∃ found, match aft with
        | Some cursor => db0 ← read (λ _, Ok db) 0;
            match List.find (λ r, String.eqb (c_contract_id r) cursor) (contract_summaries db0) with
            | Some row => db1 ← read (λ _, Ok db) 1;
                Ok (select (λ r, (0 <? c_event_count r) && after_contract collation (c_event_count row) cursor r)
                      (counted_before collation) (Z.of_nat n + 1) (contract_summaries db1))
            | None => Ok []
            end
        | None => db0 ← read (λ _, Ok db) 0;
            Ok (select (λ r, 0 <? c_event_count r) (counted_before collation) (Z.of_nat n + 1) (contract_summaries db0))
        end = Ok found ∧ found = take (S n) (drop i all)) as (found & -> & ->).
    { destruct Hat as [[-> ->]|(j & t & -> & Ht & ->)]; cbn [read map_err mbind result_bind]; fold rows.
      - eexists. split; [reflexivity|]. rewrite drop_0. unfold select. f_equal. lia.
      - assert (t ∈ rows) as Hin.
        { assert (t ∈ all) as Hall by by eapply list_elem_of_lookup_2.
          unfold all, kept in Hall. rewrite in_order_perm in Hall. by apply list_elem_of_filter in Hall as [_ ?]. }
        rewrite (find_name c_contract_id rows t) by done. eexists. split; [reflexivity|].
        transitivity (take (Z.to_nat (Z.of_nat n + 1)) (drop (S j) all)); [|f_equal; lia].
        exact (select_after_row count_key count_order keep
          (after_contract collation (c_event_count t) (c_contract_id t)) rows j t (Z.of_nat n + 1) Hkeys Ht (after_contract_tlt t)). }
    cbn [mbind result_bind]. destruct (split_page_rest all i n Hn) as [-> Hlast].
    eexists. split; [reflexivity|]. cbn [contracts_page data next_cursor cr_data cr_next_cursor]. split; [done|].
    case_bool_decide as Hlt; [|lia]. rewrite (Hlast Hlt).
    destruct (lookup_lt_is_Some_2 all (i + n - 1)) as [t Ht]; [lia|]. rewrite Ht. cbn. split; [|done].
    right. exists (i + n - 1)%nat, t. split; [lia|done].
  - unfold all. rewrite in_order_perm. unfold kept. pose proof (length_filter (λ r, keep r = true) rows). lia.
Qed.
End lists.

(** ** The history *)

Section history.
Context `{Stellar} `{RouteLib}.

(** Versions are 32-bit, and unique within a contract. *)
Definition versions_wf (contract_id : string) (db : ApiDb) : Prop :=
  NoDup (u_version <$> versions_of contract_id db)
  ∧ ∀ u, u ∈ versions_of contract_id db → - 2 ^ 31 ≤ u_version u < 2 ^ 31.

Definition history_as_page (r : option HistoryResponse) : Page UpgradeRow :=
  match r with
  | Some h => {| data := hr_versions h; has_more := hr_has_more h; next_cursor := hr_next_cursor h; offset_deprecated := false |}
  | None => {| data := []; has_more := false; next_cursor := None; offset_deprecated := false |}
  end.

Lemma max_version_some contract_id db : versions_of contract_id db ≠ [] → is_Some (max_version contract_id db).
Proof. unfold max_version. destruct (versions_of contract_id db); [done|]. cbn. by eexists. Qed.

Lemma parse_history_cursor_show v : - 2 ^ 31 ≤ v < 2 ^ 31 → parse_history_cursor ("version:" +:+ show_i v) = Ok v.
Proof.
  intros Hv. unfold parse_history_cursor. rewrite strip_prefix_app. cbn [ok_or mbind result_bind].
  by rewrite parse_int_show.
Qed.

(** The history of a contract that has one is listed exactly, newest first; one
    without is not found. *)
Theorem history_pages_exact contract_id db lim fuel :
  is_valid_contract_id contract_id = true → versions_wf contract_id db →
  (length (versions_of contract_id db) < fuel)%nat →
  let page aft := interface_history (Some contract_id) lim aft None (λ _, Ok db) in
  (versions_of contract_id db = [] → page None = Err no_interface)
  ∧ (versions_of contract_id db ≠ [] →
     ∃ l, l ≡ₚ versions_of contract_id db ∧ StronglySorted (λ a b, u_version b < u_version a) l
     ∧ follow fuel (λ aft, history_as_page ∘ snd <$> page aft) None = Ok l).
Proof.
  intros Hid [Hnd Hwf] Hfuel page. split.
  { intros Hnone. unfold page, interface_history, valid_contract_id. cbn [ok_or mbind result_bind]. rewrite Hid.
    cbn [mbind result_bind read map_err]. unfold max_version. by rewrite Hnone. }
  intros Hsome. destruct (max_version_some contract_id db Hsome) as [latest Hlatest].
  set (order := flip_order Z_asc). set (all := in_order u_version order (versions_of contract_id db)).
  exists all. split; [apply in_order_perm|]. split.
  { pose proof (in_order_strict u_version order _ Hnd) as Hs. fold all in Hs.
    eapply strongly_sorted_impl; [|exact Hs]. intros a b. cbn. by rewrite Z.compare_lt_iff. }
  destruct (clamp_nat lim 1000) as (n & Hn & Hlim); [lia|]. rewrite <- (drop_0 all) at 1.
  apply (follow_walk _ all n (λ i aft, (i = 0%nat ∧ aft = None)
      ∨ ∃ j t, i = S j ∧ all !! j = Some t ∧ aft = Some ("version:" +:+ show_i (u_version t)))); [done| |by left|].
  - intros i aft Hat.
    assert (∃ v, match aft with Some c => v ← parse_history_cursor c; Ok (Some v) | None => Ok None end
                 = (Ok v : result ApiError (option Z))
      ∧ history_page contract_id (Z.of_nat n) v db
        = let '(rows, more) := split_page (Z.of_nat n) (take (S n) (drop i all)) in
          {| hr_versions := rows; hr_has_more := more;
             hr_next_cursor := if more then (λ u, "version:" +:+ show_i (u_version u)) <$> last rows else None |})
      as (v & Hv & Hpage).
    { assert (Z.to_nat (Z.of_nat n + 1) = S n) as Hto by lia. unfold history_page. destruct Hat as [[-> ->]|(j & t & -> & Ht & ->)].
      - exists None. split; [done|]. cbn [unless_null]. rewrite drop_0.
        assert (base.filter (λ u, String.eqb (u_contract_id u) contract_id && true = true) (contract_spec_versions db)
          = versions_of contract_id db) as Hfilter
          by (apply list_filter_iff; intros u; by rewrite andb_true_r).
        unfold select. by rewrite Hfilter, Hto.
      - assert (t ∈ versions_of contract_id db) as Hin.
        { assert (t ∈ all) as Hall by by eapply list_elem_of_lookup_2. unfold all in Hall. by rewrite in_order_perm in Hall. }
        exists (Some (u_version t)). rewrite parse_history_cursor_show by by apply Hwf. split; [done|]. cbn [unless_null].
        assert (select (λ u, String.eqb (u_contract_id u) contract_id && (u_version u <? u_version t))
          (newest_ledger u_version) (Z.of_nat n + 1) (contract_spec_versions db) = take (S n) (drop (S j) all)) as ->; [|done].
        rewrite <- Hto. eapply (select_after_row u_version order (λ u, String.eqb (u_contract_id u) contract_id)
          (λ u, u_version u <? u_version t)); [exact Hnd|exact Ht|].
        intros r. unfold tlt, order. cbn. by rewrite Z.compare_lt_iff, Z.ltb_lt. }
    unfold page, interface_history, valid_contract_id. cbn [ok_or mbind result_bind]. rewrite Hid.
    cbn [mbind result_bind]. rewrite Hv. cbn [mbind result_bind read map_err]. rewrite Hlatest.
    cbn [ok_or mbind result_bind check_if_none_match]. rewrite Hlim, Hpage.
    destruct (split_page_rest all i n Hn) as [-> Hlast].
    eexists. split; [reflexivity|]. cbn [compose snd history_as_page data next_cursor hr_versions hr_next_cursor].
    split; [done|]. case_bool_decide as Hlt; [|lia]. rewrite (Hlast Hlt).
    destruct (lookup_lt_is_Some_2 all (i + n - 1)) as [t Ht]; [lia|]. rewrite Ht. cbn. split; [|done].
    right. exists (i + n - 1)%nat, t. split; [lia|done].
  - unfold all. rewrite in_order_perm. lia.
Qed.
End history.

(** ** Diffs *)

Section diffs.
Context `{Stellar} `{RouteLib} (read_xdr_iter : Z → Z → list ascii → list (result string ScSpecEntry)).
(** The recorded versions over time; what other requests do to the cache. *)
Context (history : Z → string → Z → option (string * string)) (history_fixed : Specs.history_fixed history).
Context (others : SpecCache → SpecCache) (now : Z).
Context (others_sound : ∀ c, versions_sound read_xdr_iter history now c → cache_bounded c →
  versions_sound read_xdr_iter history now (others c) ∧ cache_bounded (others c)).

Lemma validate_diff_range_ok from to : validate_diff_range from to = Ok tt ↔ 1 ≤ from < to.
Proof.
  unfold validate_diff_range. destruct (Z.ltb_spec from 1); [split; [done|lia]|].
  destruct (Z.ltb_spec to from); [split; [done|lia]|]. destruct (Z.eqb_spec from to); [split; [done|lia]|].
  split; [lia|done].
Qed.

(** The interface a version was recorded with. *)
Definition recorded_spec (contract_id : string) (version : Z) (s : ContractSpec) : Prop :=
  ∃ t x entry, t ≤ now ∧ history t contract_id version = Some x ∧ parse read_xdr_iter x.2 x.1 = Ok entry
  ∧ parsed entry = Some s.

Lemma load_spec_recorded reads contract_id v c :
  version_read reads = Ok (history now contract_id v) →
  versions_sound read_xdr_iter history now c → cache_bounded c →
  let '(answer, c') := load_spec read_xdr_iter reads others contract_id v c in
  versions_sound read_xdr_iter history now c' ∧ cache_bounded c' ∧ ∀ s, answer = Ok s → recorded_spec contract_id v s.
Proof.
  intros Hread Hc Hb. unfold load_spec.
  pose proof (spec_version_exact read_xdr_iter history now now reads others contract_id v c
    history_fixed ltac:(lia) Hread Hc Hb others_sound) as Hv.
  destruct (at_version _ _ _ _ _ _) as [answer c']. destruct Hv as (Hc' & Hb' & Hparse & Hsome).
  split; [done|]. split; [done|]. intros s Hs. destruct answer as [entry|]; [|done]. cbn [mbind result_bind] in Hs.
  destruct (Hsome entry eq_refl) as (t & x & Ht & Hx). exists t, x, entry. split; [done|]. split; [done|].
  split; [by eapply Hparse|]. by destruct (parsed entry); simplify_eq/=.
Qed.

Lemma diff_range_ok from to latest first last :
  diff_range from to latest = Ok (first, last) →
  1 ≤ first < last ∧ last = default latest to ∧ (∀ f, from = Some f → first = f) ∧ (from = None → first = pred_i32 last).
Proof.
  unfold diff_range. set (t := default latest to). set (f := default (pred_i32 t) from).
  destruct ((f <? 1) && _); [done|]. destruct (validate_diff_range f t) as [[]|] eqn:Hr; [|done].
  apply validate_diff_range_ok in Hr. cbn [mbind result_bind]. intros [= <- <-].
  split; [done|]. split; [done|]. split; [intros f' ->; done|by intros ->].
Qed.

(** A diff that is answered is between the interfaces the two versions were
    recorded with, an older one and a newer; those asked for, or the newest
    version and the one before; whatever is cached meanwhile stays sound. *)
Theorem interface_diff_exact contract_id from to stmt reads c body c' :
  (∀ v, version_read (reads v) = Ok (history now contract_id v)) →
  versions_sound read_xdr_iter history now c → cache_bounded c →
  contract_interface_diff read_xdr_iter (Some contract_id) from to stmt reads others c = (Ok body, c') →
  versions_sound read_xdr_iter history now c' ∧ cache_bounded c'
  ∧ ∃ db latest first last old new, stmt 0%nat = Ok db ∧ max_version contract_id db = Some latest
    ∧ 1 ≤ first < last ∧ last = default latest to ∧ first = default (pred_i32 last) from
    ∧ recorded_spec contract_id first old ∧ recorded_spec contract_id last new
    ∧ body = mk_obj [("contract_id", JStr contract_id); ("from", JInt first); ("to", JInt last);
                     ("diff", to_json (between old new))].
Proof.
  intros Hreads Hc Hb. unfold contract_interface_diff, valid_contract_id. cbn [ok_or mbind result_bind].
  destruct (is_valid_contract_id contract_id); [|done]. cbn [mbind result_bind].
  destruct (match from, to with Some f, Some t => validate_diff_range f t | _, _ => Ok tt end); [|done].
  cbn [mbind result_bind]. unfold read. destruct (stmt 0%nat) as [db|] eqn:Hdb; [|done]. cbn [map_err mbind result_bind].
  destruct (max_version contract_id db) as [latest|] eqn:Hl; [|done]. cbn [ok_or mbind result_bind].
  destruct (diff_range from to latest) as [[first last]|] eqn:Hr; [|done]. cbn [mbind result_bind].
  pose proof (load_spec_recorded (reads first) contract_id first c (Hreads first) Hc Hb) as Hold.
  destruct (load_spec _ _ _ _ first c) as [[old|e] c1]; [|done]. destruct Hold as (Hc1 & Hb1 & Hold).
  pose proof (load_spec_recorded (reads last) contract_id last c1 (Hreads last) Hc1 Hb1) as Hnew.
  destruct (load_spec _ _ _ _ last c1) as [[new|e] c2]; [|done]. destruct Hnew as (Hc2 & Hb2 & Hnew).
  cbn [mbind result_bind]. intros [= <- <-]. split; [done|]. split; [done|].
  apply diff_range_ok in Hr as (Hlt & Hlast & Hf & Hn).
  exists db, latest, first, last, old, new. split; [done|]. split; [done|]. split; [done|]. split; [done|].
  split; [destruct from; [by apply Hf|by apply Hn]|]. split; [by apply Hold|]. split; [by apply Hnew|done].
Qed.
End diffs.

(** ** Snapshots *)

Section snapshots.
Context `{Stellar} `{RouteLib} (collation : TotalOrder string).

(** The per-key answer: one row for each key the label keeps, its newest under
    that label; the most recently changed first, cut at the limit. *)
Theorem data_route_latest contract_id label limit stmt body :
  contract_data_route collation (Some contract_id) label limit stmt = Ok body →
  ∃ db page rest, stmt 0%nat = Ok db
  ∧ body = mk_obj [("contract_id", JStr contract_id); ("count", JInt (Z.of_nat (length page)));
                   ("keys", JArr (data_json <$> page))]
  ∧ page ≠ [] ∧ Z.of_nat (length page) ≤ clamp 1 1000 limit
  ∧ (rest ≠ [] → Z.of_nat (length page) = clamp 1 1000 limit)
  ∧ one_per_key None (base.filter (λ r, String.eqb (k_contract_id r) contract_id && opt_matches label (k_label r) = true)
      (contract_data db)) (page ++ rest)
  ∧ StronglySorted (λ a b, k_ledger b ≤ k_ledger a) (page ++ rest).
Proof.
  unfold contract_data_route, valid_contract_id. cbn [ok_or mbind result_bind].
  destruct (is_valid_contract_id contract_id); [|done]. cbn [mbind result_bind]. unfold read.
  destruct (stmt 0%nat) as [db|] eqn:Hdb; [|done]. cbn [map_err mbind result_bind].
  destruct (clamp_nat limit 1000) as (n & Hn & ->); [lia|].
  destruct (data_rows _ _ _ _ _) as [|r page] eqn:Hpage; [by destruct (stmt 1%nat)|]. intros [= <-].
  set (latest := latest_keys collation contract_id label (contract_data db)) in *.
  set (sorted := sort_by (newest_ledger k_ledger) latest) in *.
  assert (data_rows collation contract_id label (Z.of_nat n) db = take n sorted) as Ht
    by (unfold data_rows; by rewrite Nat2Z.id).
  rewrite Hpage in Ht. exists db, (r :: page), (drop n sorted).
  assert (length (r :: page) ≤ n)%nat as Hlen by (rewrite Ht, length_take; lia).
  split; [done|]. split; [done|]. split; [done|]. split; [lia|]. split; [|split].
  - intros Hrest. rewrite Ht, length_take. destruct (Nat.lt_ge_cases n (length sorted)); [lia|].
    by rewrite drop_ge in Hrest by lia.
  - rewrite Ht, take_drop. eapply one_per_key_perm; [reflexivity|symmetry; apply sort_by_perm|].
    unfold latest, latest_keys. eapply one_per_key_perm; [apply sort_by_perm|reflexivity|].
    apply (distinct_on_spec collation); [|done].
    exact (@sort_by_sorted KeyRow (string * Z) (hash_ledger_order collation) hash_ledger _).
  - rewrite Ht, take_drop. eapply strongly_sorted_impl;
      [|exact (@sort_by_sorted KeyRow Z (flip_order Z_asc) k_ledger latest)].
    intros a b. unfold key_le. cbn. by rewrite Z.compare_le_iff.
Qed.
End snapshots.

(** ** Samples *)

#[local] Instance sample_stellar_contracts : Stellar := sample_stellar.
#[local] Instance sample_route_lib : RouteLib := {| source_hash s := Z.of_nat (String.length s); rfc3339 := show_i |}.

Definition summary_row (id : string) (count : Z) : ContractRow :=
  {| c_contract_id := id; c_event_count := count; c_first_seen_ledger := Some 1; c_last_seen_ledger := Some 9 |}.

Definition version_row (v : Z) (hash : string) : UpgradeRow := {|
  u_contract_id := sample_id; u_version := v; u_wasm_hash := hash; u_previous_wasm_hash := None; u_diff := None;
  u_breaking := false; u_observed_at := v; u_spec_section := ""; u_interface := JNull |}.

Definition sample_key_row (hash : string) (ledger : Z) (label : option string) : KeyRow := {|
  k_contract_id := sample_id; k_key_hash := hash; k_key := JStr hash; k_durability := "persistent"; k_ledger := ledger;
  k_value := JInt ledger; k_label := label; k_captured_at := ledger |}.

Definition sample_routes_db : ApiDb := {|
  contract_summaries := [summary_row "A" 3; summary_row "B" 7; summary_row "C" 0; summary_row "D" 3];
  contract_specs := [];
  contract_spec_versions := [version_row 1 "h1"; version_row 3 "h3"; version_row 2 "h2"];
  contract_state := [];
  contract_data := [sample_key_row "x" 5 (Some "balance"); sample_key_row "y" 4 (Some "balance"); sample_key_row "x" 9 None];
|}.

Lemma contracts_pages_exact_witness :
  ∃ l, listing count_key (count_cmp string_order) (contract_summaries sample_routes_db) (λ r, 0 < c_event_count r) l
  ∧ follow 5 (λ aft, contracts_page <$> list_contracts string_order 1 aft (λ _, Ok sample_routes_db)) None = Ok l.
Proof.
  apply (contracts_pages_exact string_order sample_routes_db 1 5).
  - apply (bool_decide_unpack _). by vm_compute.
  - vm_compute. lia.
Defined.

Example contracts_in_order :
  match follow 5 (λ aft, contracts_page <$> list_contracts string_order 1 aft (λ _, Ok sample_routes_db)) None with
  | Ok l => map c_contract_id l = ["B"; "A"; "D"]
  | Err _ => False
  end.
Proof. by vm_compute. Qed.

Lemma history_pages_exact_witness :
  ∃ l, l ≡ₚ versions_of sample_id sample_routes_db ∧ StronglySorted (λ a b, u_version b < u_version a) l
  ∧ follow 5 (λ aft, history_as_page ∘ snd <$> interface_history (Some sample_id) 2 aft None (λ _, Ok sample_routes_db)) None
    = Ok l.
Proof.
  apply (history_pages_exact sample_id sample_routes_db 2 5).
  - by vm_compute.
  - split; [apply (bool_decide_unpack _); by vm_compute|]. intros u [_ Hu]%list_elem_of_filter.
    unfold sample_routes_db in Hu. cbn [contract_spec_versions] in Hu. rewrite !elem_of_cons, elem_of_nil in Hu.
    destruct Hu as [->|[->|[->|[]]]]; cbn [u_version version_row]; lia.
  - vm_compute. lia.
  - by vm_compute.
Defined.

Lemma data_route_latest_witness :
  ∃ body, contract_data_route string_order (Some sample_id) None 1 (λ _, Ok sample_routes_db) = Ok body
  ∧ ∃ db page rest, (Ok sample_routes_db : result string ApiDb) = Ok db
  ∧ body = mk_obj [("contract_id", JStr sample_id); ("count", JInt (Z.of_nat (length page)));
                   ("keys", JArr (data_json <$> page))]
  ∧ page ≠ [] ∧ Z.of_nat (length page) ≤ clamp 1 1000 1
  ∧ (rest ≠ [] → Z.of_nat (length page) = clamp 1 1000 1)
  ∧ one_per_key None (base.filter (λ r, String.eqb (k_contract_id r) sample_id && opt_matches None (k_label r) = true)
      (contract_data db)) (page ++ rest)
  ∧ StronglySorted (λ a b, k_ledger b ≤ k_ledger a) (page ++ rest).
Proof.
  destruct (contract_data_route string_order (Some sample_id) None 1 (λ _, Ok sample_routes_db)) as [body|] eqn:E;
    [|by vm_compute in E].
  exists body. split; [reflexivity|].
  exact (data_route_latest string_order sample_id None 1 (λ _, Ok sample_routes_db) body E).
Defined.

(** One function whose name is the section's first byte. *)
Definition named_iter (_ _ : Z) (section : list ascii) : list (result string ScSpecEntry) :=
  [Ok (FunctionV0 {| fn_doc := ""; fn_name := of_bytes (take 1 section); fn_inputs := []; fn_outputs := [TU32] |})].

Definition sample_history (t : Z) (id : string) (v : Z) : option (string * string) :=
  if v =? 1 then Some ("h1", "61") else if v =? 2 then Some ("h2", "62") else if v =? 3 then Some ("h3", "63") else None.

Definition sample_reads (v : Z) : SpecReads :=
  {| row_read := Ok None; events_read := Ok false; section_read := Ok None; version_read := Ok (sample_history 0 "" v) |}.

Lemma interface_diff_exact_witness :
  ∃ body c', contract_interface_diff named_iter (Some sample_id) None None (λ _, Ok sample_routes_db) sample_reads id spec_cache_new
    = (Ok body, c')
  ∧ versions_sound named_iter sample_history 9 c' ∧ cache_bounded c'
  ∧ ∃ db latest first last old new, (Ok sample_routes_db : result string ApiDb) = Ok db ∧ max_version sample_id db = Some latest
    ∧ 1 ≤ first < last ∧ last = default latest None ∧ first = default (pred_i32 last) None
    ∧ recorded_spec named_iter sample_history 9 sample_id first old
    ∧ recorded_spec named_iter sample_history 9 sample_id last new
    ∧ body = mk_obj [("contract_id", JStr sample_id); ("from", JInt first); ("to", JInt last);
                     ("diff", to_json (between old new))].
Proof.
  destruct (contract_interface_diff named_iter (Some sample_id) None None (λ _, Ok sample_routes_db) sample_reads id spec_cache_new)
    as [[body|] c'] eqn:E; [|by vm_compute in E].
  exists body, c'. split; [reflexivity|].
  refine (interface_diff_exact named_iter sample_history _ id 9 _ sample_id None None (λ _, Ok sample_routes_db)
    sample_reads spec_cache_new body c' _ _ _ E).
  - intros i v t t' x y Hx Hy. unfold sample_history in *. congruence.
  - intros c Hc Hb. by split.
  - intros v. done.
  - intros i v s Hs. done.
  - split; vm_compute; lia.
Defined.

(** *** What the routes do otherwise than they say *)

(** A key whose newest snapshot has no label is shown, under a label, with an older value. *)
Example label_hides_newer :
  data_rows string_order sample_id (Some "balance") 9 sample_routes_db = [sample_key_row "x" 5 (Some "balance"); sample_key_row "y" 4 (Some "balance")]
  ∧ data_rows string_order sample_id None 9 sample_routes_db = [sample_key_row "x" 9 None; sample_key_row "y" 4 (Some "balance")].
Proof. by vm_compute. Qed.

(** A contract that overtakes the cursor between two pages is in neither. *)
Example contract_overtakes :
  let later := {| contract_summaries := [summary_row "A" 3; summary_row "B" 7; summary_row "C" 0; summary_row "D" 9];
    contract_specs := []; contract_spec_versions := []; contract_state := []; contract_data := [] |} in
  match list_contracts string_order 1 None (λ _, Ok sample_routes_db), list_contracts string_order 9 (Some "B") (λ _, Ok later) with
  | Ok p, Ok p' => map c_contract_id (cr_data p ++ cr_data p') = ["B"; "A"]
  | _, _ => False
  end.
Proof. by vm_compute. Qed.
