(* ===== verification/RefreshRoute.v ===== *)
(** * RefreshRoute: re-reading an interface on demand ([refresh_contract] of [routes/contracts.rs])

    A refresh drops the cached interface and call results of a contract, reads
    its WASM over RPC, stores the interface and appends a version to the
    history.  It mirrors the indexer's load, whose tables and rows ([History])
    it writes.  Between its steps other requests may refill the caches and other
    writers may change the tables ([RefreshEnv]).  A failing history write does
    not fail the refresh. *)
From S2P Require Import Prelude Text Containers Values Instances Lru Serde Wasm Spec Crypto Diff XdrDecode ApiError CallCache Specs History.
From Stdlib Require Import Ascii.

Local Open Scope string_scope.
Local Open Scope Z_scope.

(** When other writers may come in: after the drop, after the upsert, and
    between the read of the newest version and its insert. *)
Inductive Moment : Type := AfterDrop | AfterUpsert | AfterTip.

Section refresh.
Context `{Stellar} `{CryptoLib} `{SerdeJson} `{!LruCache Key (Json * Z)} (rfc3339 : Z → string).
Context (read_xdr_iter : Z → Z → list ascii → list (result string ScSpecEntry)).

(** The two caches of the API. *)
Record Caches := { specs : Specs.SpecCache; calls : CallCache }.

(** What a refresh meets. *)
Record RefreshEnv := {
  (** [get_contract_wasm]: hash, code and the ledger it was modified at. *)
  contract_wasm : result string (option (string * list ascii * Z));
  (** The upsert, and the two statements of the history. *)
  upsert : result string unit;
  read_tip : result string unit;
  insert_row : result string unit;
  (** What other requests do to the caches after the drop, and other writers to
      the tables. *)
  refills : Caches → Caches;
  others : Moment → SpecTables → SpecTables;
  utc_now : Z;
}.

Definition drop_contract (contract_id : string) (c : Caches) : Caches :=
  {| specs := Specs.invalidate contract_id (specs c); calls := invalidate_contract contract_id (calls c) |}.

Definition record_spec_version (env : RefreshEnv) (contract_id : string) (l : Loaded) (ledger : Z) (t : SpecTables)
    : result string unit * SpecTables :=
  match read_tip env with
  | Err e => (Err e, t)
  | Ok tt =>
      match next_version read_xdr_iter contract_id l ledger (tip contract_id (version_table t)) with
      | None => (Ok tt, t)
      | Some r =>
          let t := others env AfterTip t in
          match insert_row env with
          | Err e => (Err e, t)
          | Ok tt => (Ok tt, {| spec_table := spec_table t; version_table := insert_version r (version_table t) |})
          end
      end
  end.

(** The upsert of the current interface. *)
Definition store_current (contract_id : string) (l : Loaded) (t : SpecTables) : SpecTables :=
  {| spec_table := persist contract_id l (spec_table t); version_table := version_table t |}.

Definition refresh_json (contract_id : string) (now : Z) (s : ContractSpec) : Json := mk_obj [
  ("contract_id", JStr contract_id); ("has_events", JBool (has_events s));
  ("fetched_at", JStr (rfc3339 now)); ("interface", to_interface_json s)].

Definition refresh_contract (param : option string) (env : RefreshEnv) (c : Caches) (t : SpecTables)
    : result ApiError Json * Caches * SpecTables :=
  match param with
  | None => (Err invalid_contract_id, c, t)
  | Some contract_id =>
      if negb (is_valid_contract_id contract_id) then (Err invalid_contract_id, c, t)
      else
        let c := refills env (drop_contract contract_id c) in
        let t := others env AfterDrop t in
        match contract_wasm env with
        | Err e => (Err (Internal ("failed to fetch contract WASM from RPC: " +:+ e)), c, t)
        | Ok None => (Err (not_found "no deployed WASM for this contract (it may be a Stellar Asset Contract)"), c, t)
        | Ok (Some (wasm_hash, wasm, ledger)) =>
            match loaded_of read_xdr_iter wasm_hash wasm with
            | None => (Err (bad_request "contract has deployed WASM but no valid contractspecv0 section"), c, t)
            | Some l =>
                match upsert env with
                | Err e => (Err (Internal e), c, t)
                | Ok tt =>
                    let t := others env AfterUpsert (store_current contract_id l t) in
                    let '(_, t) := record_spec_version env contract_id l ledger t in
                    (Ok (refresh_json contract_id (utc_now env) (l_spec l)), c, t)
                end
            end
        end
  end.

(** ** What a refresh leaves behind *)

(** [t'] has the versions of [t], and still is a chain. *)
Definition extends (t t' : SpecTables) : Prop :=
  chained read_xdr_iter (version_table t) →
  chained read_xdr_iter (version_table t') ∧ ∀ r, r ∈ version_table t → r ∈ version_table t'.

#[export] Instance extends_preorder : PreOrder extends.
Proof. split; [by intros t Ht|]. intros a b c Hab Hbc Ha. destruct (Hab Ha) as [Hb ?]. destruct (Hbc Hb). split; auto. Qed.

(** Other writers append to the history only, and keep it a chain; what they do
    to the current interfaces is free. *)
Definition appends (f : SpecTables → SpecTables) : Prop := ∀ t, extends t (f t).

Lemma record_spec_version_chained env contract_id l ledger t :
  appends (others env AfterTip) → section_spec read_xdr_iter (l_section l) = Some (l_spec l) →
  extends t (record_spec_version env contract_id l ledger t).2.
Proof.
  intros Hothers Hl Ht. unfold record_spec_version. destruct (read_tip env) as [[]|]; [|done].
  destruct (next_version read_xdr_iter contract_id l ledger (tip contract_id (version_table t))) as [r|] eqn:Hr; [|done].
  destruct (Hothers t Ht) as [Ho Hkeep]. destruct (insert_row env) as [[]|]; [|done]. cbn [snd version_table]. split.
  - destruct (next_version_follows read_xdr_iter contract_id l ledger _ r Hl Hr) as (_ & _ & Hf).
    pose proof (tip_spec contract_id (version_table t)) as Htip. apply insert_version_chained; [done|].
    destruct (tip contract_id (version_table t)) as [p|]; [right|by left].
    exists p. destruct Htip as (Hp & Hpid & _). split; [by apply Hkeep|by apply Hf].
  - intros x Hx. by apply insert_version_keeps, Hkeep.
Qed.

(** Alone, the API's copy of the write is the indexer's. *)
Lemma record_spec_version_alone env contract_id l ledger t :
  read_tip env = Ok tt → insert_row env = Ok tt → others env AfterTip t = t →
  (record_spec_version env contract_id l ledger t).2
  = {| spec_table := spec_table t; version_table := record_version read_xdr_iter contract_id l ledger (version_table t) |}.
Proof.
  intros Hr Hi Ho. unfold record_spec_version, record_version. rewrite Hr.
  destruct (next_version _ _ _ _ _) as [r|]; [by rewrite Hi, Ho|by destruct t].
Qed.

(** The indexer's load, met by the same answers. *)
Definition load_env_of (env : RefreshEnv) (hash : string) (wasm : list ascii) : LoadEnv := {|
  wasm_answer := Ok (Some (hash, wasm)); persist_ok := true; record_ok := true;
  now_before := utc_now env; now_after := utc_now env |}.

(** What a drop takes from the caches: the contract's current interface and its
    call results, and nothing else. *)
Record dropped (id : string) (c c' : Caches) : Prop := {
  dr_spec : current_specs (specs c') !! id = None;
  dr_calls : ∀ k, key_contract_id k = id → lru_view (inner (calls c')) k = None;
  dr_other_specs : ∀ id', id' ≠ id → current_specs (specs c') !! id' = current_specs (specs c) !! id';
  dr_versions : version_specs (specs c') = version_specs (specs c);
  dr_other_calls : ∀ k, key_contract_id k ≠ id → lru_view (inner (calls c')) k = lru_view (inner (calls c)) k;
}.

Lemma drop_dropped id c : dropped id c (drop_contract id c).
Proof.
  split; cbn [drop_contract specs calls].
  - apply lookup_delete_eq.
  - intros k Hk. rewrite view_invalidate. by case_decide.
  - intros id' Hne. by apply lookup_delete_ne.
  - done.
  - intros k Hk. rewrite view_invalidate. by case_decide.
Qed.

(** C40: A refresh re-reads the contract, and does what the indexer's load does.
    It begins by dropping the contract's current interface and its call results
    from the caches, and nothing else (interfaces of recorded versions, which
    never change, stay); what the caches hold of them afterwards is what other
    requests put there since.  Every recorded version is kept and the history
    stays a chain, writers that come in between included.  On a failure the
    refresh has written nothing to the tables.  A success answers the interface
    just read, which it stored before going on to the history; if no other
    writer came in between, the tables are those the indexer's load would have
    left, and the newest version of the history is the executable just read, a
    successor of the one that was newest unless it is that one. *)
Theorem refresh_correct id env c t :
  is_valid_contract_id id = true → chained read_xdr_iter (version_table t) → (∀ m, appends (others env m)) →
  let '(out, c', t') := refresh_contract (Some id) env c t in
  (∃ c0, dropped id c c0 ∧ c' = refills env c0)
  ∧ (chained read_xdr_iter (version_table t') ∧ ∀ r, r ∈ version_table t → r ∈ version_table t')
  ∧ match out with
    | Err _ => t' = others env AfterDrop t
    | Ok body => ∃ hash wasm ledger l,
        contract_wasm env = Ok (Some (hash, wasm, ledger)) ∧ loaded_of read_xdr_iter hash wasm = Some l
        ∧ body = refresh_json id (utc_now env) (l_spec l)
        ∧ (let stored := store_current id l (others env AfterDrop t) in
           t' = (record_spec_version env id l ledger (others env AfterUpsert stored)).2)
        ∧ (read_tip env = Ok tt → insert_row env = Ok tt → (∀ m t, others env m t = t) →
             t' = (load read_xdr_iter (load_env_of env hash wasm) id ledger t).2
             ∧ ∃ r, tip id (version_table t') = Some r ∧ v_wasm_hash r = hash
                 ∧ match tip id (version_table t) with
                   | Some p => if String.eqb (v_wasm_hash p) hash then r = p else follows read_xdr_iter p r
                   | None => baseline r
                   end)
    end.
Proof.
  intros Hid Ht Ho. unfold refresh_contract. rewrite Hid. cbn [negb]. set (t1 := others env AfterDrop t).
  assert (extends t t1) as Ht1 by apply (Ho AfterDrop).
  assert (∃ c0, dropped id c c0 ∧ refills env (drop_contract id c) = refills env c0) as Hc by eauto using drop_dropped.
  destruct (contract_wasm env) as [[[[hash wasm] ledger]|]|e] eqn:Ew; [|by split; [|split; [apply Ht1|]]..].
  destruct (loaded_of read_xdr_iter hash wasm) as [l|] eqn:El; [|by split; [|split; [apply Ht1|]]].
  destruct (upsert env) as [[]|e]; [|by split; [|split; [apply Ht1|]]].
  pose proof (loaded_section _ _ _ _ El) as Hl. set (t2 := others env AfterUpsert (store_current id l t1)).
  assert (extends t t2) as Ht2 by (transitivity (store_current id l t1); [exact Ht1|apply (Ho AfterUpsert)]).
  pose proof (record_spec_version_chained env id l ledger t2 (Ho AfterTip) Hl) as Hrec.
  pose proof (record_spec_version_alone env id l ledger t2) as Halone.
  destruct (record_spec_version env id l ledger t2) as [? t'] eqn:Et'. cbn [snd] in Hrec, Halone.
  split; [done|]. split; [exact (transitivity Ht2 Hrec Ht)|]. exists hash, wasm, ledger, l. do 3 (split; [done|]).
  split; [cbv zeta; fold t2; by rewrite Et'|].
  intros Hr Hi Hoth. rewrite (Halone Hr Hi (Hoth _ _)). unfold t2, t1. rewrite !Hoth. cbn [spec_table version_table store_current].
  unfold load, load_env_of. cbn [wasm_answer]. rewrite El. split; [done|].
  assert (l_wasm_hash l = hash) as Hh.
  { unfold loaded_of in El. destruct (from_wasm _ wasm); [|done]. by injection El as <-. }
  destruct (record_version_tip read_xdr_iter id l ledger _ Ht Hl) as (_ & _ & Htip). by rewrite Hh in Htip.
Qed.
End refresh.

(** ** A witness: the second version of a contract, read on demand *)

Section witness.
#[local] Instance sample_stellar_refresh : Stellar := sample_stellar.
#[local] Instance sample_crypto_refresh : CryptoLib := sample_crypto.
#[local] Instance sample_serde_refresh : SerdeJson := plain_serde.
#[local] Instance sample_lru_refresh : LruCache Key (Json * Z) := list_lru.

Definition refreshed_id : string := strkey_to_string (SkContract (replicate 32 (byte_of 0))).

Definition first_version : list VersionRecord :=
  record_version sample_entries refreshed_id (sample_loaded "h1" "f") 7 [].

Definition sample_refresh : RefreshEnv := {|
  contract_wasm := Ok (Some ("h2", sample_wasm "g", 9)); upsert := Ok tt; read_tip := Ok tt; insert_row := Ok tt;
  refills := id; others := λ _, id; utc_now := 5 |}.

Lemma refresh_correct_witness :
  let out := refresh_contract (λ _, "now") sample_entries (Some refreshed_id) sample_refresh
    {| specs := Specs.spec_cache_new; calls := CallCache.new 10 60 |}
    {| spec_table := ∅; version_table := first_version |} in
  sp_wasm_hash <$> spec_table out.2 !! refreshed_id = Some "h2"
  ∧ ∃ r, tip refreshed_id (version_table out.2) = Some r ∧ v_wasm_hash r = "h2" ∧ v_version r = 2.
Proof.
  intros out.
  assert ((λ p, (v_wasm_hash p, v_version p)) <$> tip refreshed_id first_version = Some ("h1", 1)) as Hfirst
    by (vm_compute; reflexivity).
  assert (l_wasm_hash <$> loaded_of sample_entries "h2" (sample_wasm "g") = Some "h2") as Hload by (vm_compute; reflexivity).
  pose proof (refresh_correct (λ _, "now") sample_entries refreshed_id sample_refresh
    {| specs := Specs.spec_cache_new; calls := CallCache.new 10 60 |}
    {| spec_table := ∅; version_table := first_version |}) as Hr.
  fold out in Hr. assert (is_ok out.1.1 = true) as Hok by (vm_compute; reflexivity).
  destruct out as [[body c'] t'] eqn:Eout. cbn [fst snd] in Hok |- *.
  destruct Hr as (_ & _ & Hout).
  - vm_compute. reflexivity.
  - split; [apply NoDup_singleton|]. intros r Hr. apply list_elem_of_singleton in Hr as ->. left. by repeat split.
  - intros m t Ht. split; [exact Ht|intros r Hr; exact Hr].
  - destruct body as [body|]; [|discriminate].
    destruct Hout as (hash & wasm & ledger & l & Hw & Hl & _ & _ & Halone).
    injection Hw as <- <- <-. destruct (Halone eq_refl eq_refl (λ _ _, eq_refl)) as (Hload' & r & Htip & Hh & Hf).
    split.
    + rewrite Hload'. unfold load, load_env_of. cbn [wasm_answer]. rewrite Hl. cbn [snd spec_table persist_ok].
      unfold persist. rewrite lookup_insert_eq. rewrite Hl in Hload. injection Hload as Hload. cbn. by rewrite Hload.
    + exists r. split; [exact Htip|]. split; [exact Hh|]. cbn [version_table] in Hf.
      destruct (tip refreshed_id first_version) as [p|]; [|discriminate]. injection Hfirst as Hp1 Hp2.
      rewrite Hp1 in Hf. destruct Hf as (_ & Hv & _). by rewrite Hv, Hp2.
Defined.
End witness.
