(* ===== verification/GraphqlRoute.v ===== *)
(** * GraphqlRoute: the GraphQL schema ([lumenqraph-api/src/graphql.rs])

    The resolvers of [QueryRoot] over the tables of the lists: cursor
    connections with at most 200 edges, and plain lists.  [db] is what the
    statement sees, or the driver's error text. *)
From S2P Require Import Prelude Text Containers Values Instances Store Pagination ApiError Models EventRoutes.
From Stdlib Require Import Ascii.

Local Open Scope string_scope.
Local Open Scope Z_scope.

(** ** Types *)

Record ContractStat := {
  cs_contract_id : string;
  cs_event_count : Z;
  cs_first_seen_ledger : option Z;
  cs_last_seen_ledger : option Z;
}.

Definition contract_stat (c : ContractRow) : ContractStat :=
  {| cs_contract_id := c_contract_id c; cs_event_count := c_event_count c;
     cs_first_seen_ledger := c_first_seen_ledger c; cs_last_seen_ledger := c_last_seen_ledger c |}.

Record GqlEvent := {
  ge_event_id : string;
  ge_contract_id : string;
  ge_ledger : Z;
  ge_ledger_closed_at : DateTime;
  ge_event_type : string;
  ge_event_name : option string;
  ge_decoded_topics : Json;
  ge_decoded_value : Json;
  ge_enriched : option Json;
  ge_tx_hash : string;
  ge_in_successful_call : bool;
}.

Definition event_node (e : EventRow) : GqlEvent :=
  {| ge_event_id := e_event_id e; ge_contract_id := e_contract_id e; ge_ledger := e_ledger e;
     ge_ledger_closed_at := e_ledger_closed_at e; ge_event_type := e_event_type e; ge_event_name := e_event_name e;
     ge_decoded_topics := e_decoded_topics e; ge_decoded_value := e_decoded_value e; ge_enriched := e_enriched e;
     ge_tx_hash := e_tx_hash e; ge_in_successful_call := e_in_successful_call e |}.

Record EnrichedParam := { ep_name : string; ep_type : string; ep_value : Json }.

(** The [params] field of an event. *)
Definition params (e : GqlEvent) : list EnrichedParam :=
  match ge_enriched e ≫= json_get "params" with
  | Some (JObj fields) =>
      (λ '(name, value),
         {| ep_name := name;
            ep_type := match json_get "type" value with Some (JStr s) => s | _ => "unknown" end;
            ep_value := default JNull (json_get "value" value) |}) <$> fields
  | _ => []
  end.

Record TransferNode := {
  tn_event_id : string;
  tn_contract_id : string;
  tn_from_addr : option string;
  tn_to_addr : option string;
  tn_amount : string;
  tn_ledger : Z;
  tn_ledger_closed_at : DateTime;
}.

Definition transfer_node (t : Transfer) : TransferNode :=
  {| tn_event_id := t_event_id t; tn_contract_id := t_contract_id t; tn_from_addr := t_from_addr t;
     tn_to_addr := t_to_addr t; tn_amount := t_amount t; tn_ledger := t_ledger t;
     tn_ledger_closed_at := t_ledger_closed_at t |}.

Record PageInfo := { has_next_page : bool; end_cursor : option string }.

Record Connection (N : Type) := { edges : list (string * N); page_info : PageInfo }.
Arguments edges {N}. Arguments page_info {N}.

Inductive GqlError : Type :=
  | BadCursor
  | DbError (e : string).

(** ** Resolvers *)

Section graphql.
Context `{Base64} (collation : TotalOrder string).

(** [build_event_connection] and its kin: the extra row is cut off. *)
Definition connection {R N} (key : R → Z * string) (node : R → N) (rows : list R) (limit : Z) : Connection N :=
  let more := limit <? Z.of_nat (length rows) in
  let rows := if more then take (Z.to_nat limit) rows else rows in
  {| edges := (λ r, (encode_cursor (key r).1 (key r).2, node r)) <$> rows;
     page_info := {| has_next_page := more;
                     end_cursor := (λ r, encode_cursor (key r).1 (key r).2) <$> last rows |} |}.

Definition build_event_connection (rows : list EventRow) (limit : Z) : Connection GqlEvent :=
  connection event_key event_node rows limit.

Definition build_transfer_connection (rows : list Transfer) (limit : Z) : Connection TransferNode :=
  connection row_key transfer_node rows limit.

Definition page_size (first : option Z) : Z := clamp 1 200 (default 20 first).

Definition gql_cursor (after : option string) : result GqlError (option (Z * string)) :=
  map_err (λ _, BadCursor) (decode_cursor after).

(** [ORDER BY last_seen_ledger DESC, contract_id]: no ledger comes first. *)
Definition seen_cmp (a b : ContractRow) : comparison :=
  match c_last_seen_ledger a, c_last_seen_ledger b with
  | None, None => @tcmp string collation (c_contract_id a) (c_contract_id b)
  | None, Some _ => Lt
  | Some _, None => Gt
  | Some x, Some y => match Z.compare y x with
                      | Eq => @tcmp string collation (c_contract_id a) (c_contract_id b)
                      | c => c
                      end
  end.

(** [(last_seen_ledger, contract_id) < ($1, $2)]. *)
Definition seen_before (cursor : option (Z * string)) (c : ContractRow) : bool :=
  match cursor, c_last_seen_ledger c with
  | None, _ => true
  | Some _, None => false
  | Some (l, id), Some s =>
      (s <? l) || ((s =? l) && match @tcmp string collation (c_contract_id c) id with Lt => true | _ => false end)
  end.

Definition seen_key (c : ContractRow) : Z * string := (default 0 (c_last_seen_ledger c), c_contract_id c).

Definition contracts (first : option Z) (after : option string) (db : result string (list ContractRow))
    : result GqlError (Connection ContractStat) :=
  let limit := page_size first in
  cursor ← gql_cursor after;
  rows ← map_err DbError db;
  Ok (connection seen_key contract_stat
        (select (λ c, (0 <? c_event_count c) && seen_before cursor c) seen_cmp (limit + 1) rows) limit).

Definition CONTRACTS_DEPRECATED_CAP : Z := 200.

Definition contracts_all (db : result string (list ContractRow)) : result GqlError (list ContractStat) :=
  rows ← map_err DbError db;
  Ok (contract_stat <$> select (λ c, 0 <? c_event_count c) seen_cmp CONTRACTS_DEPRECATED_CAP rows).

Definition gql_event_where (contract_id : string) (event_name : option string) (e : EventRow) : bool :=
  String.eqb (e_contract_id e) contract_id && unless_null event_name (column_is (e_event_name e)).

Definition events (contract_id : string) (event_name : option string) (first : option Z) (after : option string)
    (db : result string (list EventRow)) : result GqlError (Connection GqlEvent) :=
  let limit := page_size first in
  cursor ← gql_cursor after;
  rows ← map_err DbError db;
  Ok (build_event_connection
        (keyset_rows event_key (desc_order collation) (λ c r, below collation c (event_key r))
           {| limit := limit; offset := 0; after := cursor |}
           (base.filter (λ e, gql_event_where contract_id event_name e = true) rows)) limit).

Definition gql_transfer_where (contract_id from to : option string) (t : Transfer) : bool :=
  unless_null contract_id (String.eqb (t_contract_id t)) && unless_null from (column_is (t_from_addr t))
  && unless_null to (column_is (t_to_addr t)).

(** The statement does not select [kind], which a row is decoded from: any row
    is an error. *)
Definition transfers (contract_id from to : option string) (first : option Z) (after : option string)
    (db : result string (list Transfer)) : result GqlError (Connection TransferNode) :=
  let limit := page_size first in
  cursor ← gql_cursor after;
  rows ← map_err DbError db;
  match keyset_rows row_key (desc_order collation) (λ c r, below collation c (row_key r))
          {| limit := limit; offset := 0; after := cursor |}
          (base.filter (λ t, gql_transfer_where contract_id from to t = true) rows) with
  | [] => Ok (build_transfer_connection [] limit)
  | _ => Err (DbError "no column found for name: kind")
  end.

Record StateVersion := { sv_ledger : Z; sv_storage : Json; sv_captured_at : DateTime }.

Definition gql_contract_state (contract_id : string) (limit : option Z) (db : result string (list StateRow))
    : result GqlError (list StateVersion) :=
  let limit := clamp 1 200 (default 1 limit) in
  rows ← map_err DbError db;
  Ok ((λ z, {| sv_ledger := z_ledger z; sv_storage := z_storage z; sv_captured_at := z_captured_at z |})
        <$> select (λ z, String.eqb (z_contract_id z) contract_id) (newest_ledger z_ledger) limit rows).

(** A node is the row without its contract. *)
Definition gql_contract_data (contract_id : string) (label : option string) (limit : option Z)
    (db : result string (list KeyRow)) : result GqlError (list KeyRow) :=
  let limit := clamp 1 1000 (default 100 limit) in
  rows ← map_err DbError db;
  Ok (take (Z.to_nat limit) (sort_by (newest_ledger k_ledger) (latest_keys collation contract_id label rows))).

(** ** Following a connection *)

(** A client goes on while [hasNextPage], from [endCursor]. *)
Definition connection_page {N} (c : Connection N) : Page N :=
  {| data := snd <$> edges c; has_more := has_next_page (page_info c);
     next_cursor := if has_next_page (page_info c) then end_cursor (page_info c) else None; offset_deprecated := false |}.

Definition page_map {R N} (f : R → N) (p : Page R) : Page N :=
  {| data := f <$> data p; has_more := has_more p; next_cursor := next_cursor p; offset_deprecated := offset_deprecated p |}.

Lemma follow_map {E R N} (f : R → N) (page : option string → result E (Page R)) fuel : ∀ aft,
  follow fuel (λ c, page_map f <$> page c) aft = (λ l : list R, f <$> l) <$> follow fuel page aft.
Proof.
  induction fuel as [|fuel IH]; intros aft; [done|]. cbn [follow].
  destruct (page aft) as [p|]; [|done]. cbn [mbind result_bind fmap result_fmap page_map next_cursor data].
  destruct (next_cursor p) as [c|]; [|done]. rewrite IH. destruct (follow fuel page (Some c)); [|done].
  cbn. by rewrite fmap_app.
Qed.

Lemma connection_finish {R N} (key : R → Z * string) (node : R → N) rows p : offset p = 0 →
  connection_page (connection key node rows (limit p)) = page_map node (finish p rows key).
Proof.
  intros Ho. unfold connection_page, connection, finish, page_map, uses_offset. cbn. rewrite Ho, <- list_fmap_compose.
  destruct (limit p <? _); cbn; f_equal; by destruct (after p).
Qed.

(** The event connection is exact: a client that follows [endCursor] while there
    is a next page ends after at most one request per row plus one, with the
    contract's events (of the name asked for), each once, newest first; it is
    the same list [GET /contracts/:id/events] pages through. *)
Theorem event_connection_exact contract name first rows fuel :
  table_wf event_key rows → (length rows < fuel)%nat →
  ∃ l, listing event_key (desc_cmp collation) rows
         (λ e, e_contract_id e = contract ∧ ∀ n, name = Some n → e_event_name e = Some n) l
  ∧ follow fuel (λ aft, connection_page <$> events contract name first aft (Ok rows)) None = Ok (event_node <$> l).
Proof.
  intros [Hids Hwf] Hfuel. set (kept := base.filter (λ e, gql_event_where contract name e = true) rows).
  assert (NoDup (event_key <$> kept)) as Hnd.
  { apply (NoDup_fmap_1 snd). rewrite <- list_fmap_compose.
    eapply sublist_NoDup; [exact Hids|apply fmap_sublist, sublist_filter]. }
  exists (in_order event_key (desc_order collation) kept). split.
  - split; [|by apply (in_order_strict event_key (desc_order collation))]. intros e. rewrite in_order_perm. unfold kept, gql_event_where.
    rewrite list_elem_of_filter, andb_true_iff, String.eqb_eq, unless_null_true. setoid_rewrite column_is_true. tauto.
  - rewrite (follow_ext _ (λ aft, map_err (λ _, BadCursor) (page_map event_node <$>
      keyset_page event_key (desc_order collation) (λ c e, below collation c (event_key e)) 200 (default 20 first) 0 kept aft))).
    + rewrite follow_map_err, follow_map, follow_all; [done|lia|done|intros [] ?; apply below_tlt|done| |done|].
      * intros e [_ He]%list_elem_of_filter. by apply Hwf.
      * unfold kept. pose proof (length_filter (λ e, gql_event_where contract name e = true) rows). lia.
    + intros aft. unfold events, keyset_page, parse_page, gql_cursor. cbn [mbind result_bind].
      assert (∀ c, connection_page (build_event_connection (keyset_rows event_key (desc_order collation)
          (λ c e, below collation c (event_key e)) {| limit := page_size first; offset := 0; after := c |} kept) (page_size first))
        = page_map event_node (finish {| limit := page_size first; offset := 0; after := c |} (keyset_rows event_key
            (desc_order collation) (λ c e, below collation c (event_key e)) {| limit := page_size first; offset := 0; after := c |} kept)
            event_key)) as Hpage
        by (intros c; exact (connection_finish event_key event_node _ {| limit := page_size first; offset := 0; after := c |} eq_refl)).
      destruct aft as [raw|]; [|exact (f_equal Ok (Hpage None))].
      cbn [decode ledger_cursor]. destruct (decode_cursor (Some raw)) as [[c|]|] eqn:Ec; [| |done].
      * exact (f_equal Ok (Hpage (Some c))).
      * exfalso. revert Ec. cbn [decode_cursor]. destruct (ok_or _ (decode_payload raw)) as [s|]; [|done]. cbn [mbind result_bind].
        destruct (ok_or _ (split_once "|" s)) as [[l e]|]; [|done]. cbn [mbind result_bind].
        by destruct (ok_or _ (parse_int 64 l)).
Qed.
End graphql.

(** ** What the resolvers get wrong *)

(** [transfers] answers only when there is nothing to answer. *)
Lemma transfers_fail `{Base64} collation contract from to first after rows c :
  transfers collation contract from to first after (Ok rows) = Ok c → edges c = [].
Proof.
  unfold transfers. destruct (gql_cursor after); [|done]. cbn [mbind result_bind map_err].
  destruct (keyset_rows _ _ _ _ _); [|done]. intros [= <-]. unfold build_transfer_connection, connection. cbn [edges].
  destruct (_ <? _); [by rewrite take_nil|done].
Qed.

(** Three contracts last seen in one ledger: the cursor's condition turns the
    ids' order round, and the second page is empty. *)
#[local] Instance sample_base64_graphql : Base64 := sample_base64.

Definition seen_row (id : string) : ContractRow :=
  {| c_contract_id := id; c_event_count := 1; c_first_seen_ledger := Some 7; c_last_seen_ledger := Some 7 |}.

Example same_ledger_skipped :
  match follow 5 (λ aft, connection_page <$> contracts string_order (Some 1) aft (Ok [seen_row "A"; seen_row "B"; seen_row "C"])) None with
  | Ok l => map cs_contract_id l = ["A"]
  | Err _ => False
  end.
Proof. vm_compute. reflexivity. Qed.


Lemma event_connection_exact_witness :
  ∃ l, listing event_key (desc_cmp string_order) sample_events
         (λ e, e_contract_id e = sample_id ∧ ∀ n, Some "transfer" = Some n → e_event_name e = Some n) l
  ∧ follow 5 (λ aft, connection_page <$> events string_order sample_id (Some "transfer") (Some 1) aft (Ok sample_events)) None
    = Ok (event_node <$> l).
Proof. apply (event_connection_exact string_order sample_id (Some "transfer") (Some 1)); [exact sample_events_wf|cbn; lia]. Defined.

Example connection_pages :
  match follow 5 (λ aft, connection_page <$> events string_order sample_id (Some "transfer") (Some 1) aft (Ok sample_events)) None with
  | Ok l => map ge_ledger_closed_at l = [7; 5; 4]
  | Err _ => False
  end.
Proof. by vm_compute. Qed.
