(* ===== verification/ProxyRoute.v ===== *)
(** * ProxyRoute: sibling instances under a path prefix ([routes/proxy.rs])

    A request below [/name] goes to the mount's upstream with the prefix
    stripped.  The exchange with the upstream is an argument: what it answers
    to the request it is sent, chunk by chunk.  The last theorem composes the
    proxy with the middleware before it and the upstream's own [Auth]. *)
From S2P Require Import Prelude Text Lru Values Crypto UrlValidation ApiError Limits KeyCache RateLimit Auth.
From Stdlib Require Import Ascii.

Local Open Scope string_scope.
Local Open Scope Z_scope.

Definition MAX_BODY_BYTES : Z := 10 * 1024 * 1024.

Definition SKIP_HEADERS : list string :=
  ["connection"; "keep-alive"; "proxy-authenticate"; "proxy-authorization"; "te"; "trailers"; "transfer-encoding";
   "upgrade"; "host"; "content-length"].

Definition skip (name : string) : bool := bool_decide (name ∈ SKIP_HEADERS).

(** ** Mounts *)

(** [trim_end_matches('/')]. *)
Definition trim_end_slash (s : string) : string :=
  of_bytes (rev (drop_while (λ a, Ascii.eqb a "/") (rev (bytes s)))).

Definition parse_mount (entry : string) : option (string * string) :=
  '(name, url) ← split_once "=" entry;
  let name := trim name in
  let url := trim_end_slash (trim url) in
  if String.eqb name "" || String.eqb url "" || negb (forallb (λ c, is_ascii_alphanumeric c || (c =? 45)) (chars name))
  then None
  else Some (name, url).

Definition parse_mounts (raw : string) : list (string * string) :=
  omap parse_mount (base.filter (λ s, trim s ≠ "") (split_on "," raw)).

Record Mount := { upstream : string; prefix : string; max_response_bytes : Z }.

(** The mounts behind the routes of [mount_router]. *)
Definition mount_router (mounts : list (string * string)) (max_bytes : Z) : list Mount :=
  (λ '(name, url), {| upstream := url; prefix := "/" +:+ name; max_response_bytes := max_bytes |}) <$> mounts.

(** ** Requests and answers *)

(** A request as the handler finds it: [ClientIp] of the middleware, the peer,
    and the body, [None] if it cannot be read. *)
Record Incoming := {
  in_method : string;
  in_path : string;
  in_query : option string;
  in_headers : HeaderMap;
  in_client_ip : option string;
  in_peer : option IpAddr;
  in_body : option (list ascii);
}.

(** What is sent upstream. *)
Record Sent := { s_method : string; s_url : string; s_headers : HeaderMap; s_body : list ascii }.

(** What comes back: the chunks of the body, and the error that ends them, if
    any ([true] is a timeout). *)
Record Upstream := {
  up_status : Z;
  up_headers : HeaderMap;
  up_length : option Z;
  up_chunks : list (list ascii);
  up_error : option bool;
}.

Inductive Payload : Type :=
  | Raw (b : list ascii)
  | Plain (s : string)
  | JsonBody (j : Json).

Record Relayed := { a_status : Z; a_headers : HeaderMap; a_body : Payload }.

Definition gateway_error (status : Z) (code message : string) : Relayed :=
  {| a_status := status; a_headers := []; a_body := JsonBody (mk_obj [("code", JStr code); ("error", JStr message)]) |}.

Definition upstream_error (is_timeout : bool) (message : string) : Relayed :=
  if is_timeout then gateway_error 504 "gateway_timeout" "mounted instance timed out"
  else gateway_error 502 "bad_gateway" message.

Definition too_large : Relayed := gateway_error 502 "bad_gateway" "mounted instance response too large".

Definition forwarded_for (headers : HeaderMap) (client_ip : option string) : option string :=
  let existing := base.filter (λ v, v ≠ "") (trim <$> omap snd (base.filter (λ h, h.1 = "x-forwarded-for") headers)) in
  let parts := (existing ++ match client_ip with Some ip => [ip] | None => [] end)%list in
  match parts with [] => None | _ => Some (join ", " parts) end.

(** The loop over [resp.chunk()]. *)
Fixpoint read_body (max : Z) (bytes : list ascii) (chunks : list (list ascii)) (error : option bool)
    : Relayed + list ascii :=
  match chunks with
  | [] => match error with
          | None => inr bytes
          | Some is_timeout => inl (upstream_error is_timeout "mounted instance response failed")
          end
  | chunk :: chunks =>
      if max <? Z.of_nat (length bytes) + Z.of_nat (length chunk) then inl too_large
      else read_body max (bytes ++ chunk)%list chunks error
  end.

Section proxy.
Context (ip_to_string : IpAddr → string).

Definition target (mount : Mount) (req : Incoming) : string :=
  let rest := default (in_path req) (strip_prefix (prefix mount) (in_path req)) in
  let rest := if String.eqb rest "" then "/" else rest in
  upstream mount +:+ rest +:+ match in_query req with Some q => "?" +:+ q | None => "" end.

Definition outgoing (req : Incoming) : HeaderMap :=
  let client_ip := match in_client_ip req with Some ip => Some ip | None => ip_to_string <$> in_peer req end in
  (base.filter (λ h, negb (skip h.1) && negb (String.eqb h.1 "x-forwarded-for") = true) (in_headers req)
   ++ match forwarded_for (in_headers req) client_ip with
      | Some xff => [("x-forwarded-for", Some xff)]
      | None => []
      end)%list.

(** The response to what the upstream answers. *)
Definition relay (mount : Mount) (answer : Upstream + bool) : Relayed :=
  match answer with
  | inr is_timeout => upstream_error is_timeout "mounted instance unreachable"
  | inl up =>
      let max := max_response_bytes mount in
      if match up_length up with Some len => max <? len | None => false end then too_large
      else
        match read_body max [] (up_chunks up) (up_error up) with
        | inl r => r
        | inr body =>
            {| a_status := up_status up; a_headers := base.filter (λ h, negb (skip h.1) = true) (up_headers up);
               a_body := Raw body |}
        end
  end.

(** What is sent, and the response. *)
Definition proxy (mount : Mount) (req : Incoming) (answer : Sent → Upstream + bool) : option Sent * Relayed :=
  match in_body req with
  | Some body =>
      if MAX_BODY_BYTES <? Z.of_nat (length body)
      then (None, {| a_status := 413; a_headers := []; a_body := Plain "request body too large" |})
      else
        let sent := {| s_method := in_method req; s_url := target mount req; s_headers := outgoing req; s_body := body |} in
        (Some sent, relay mount (answer sent))
  | None => (None, {| a_status := 413; a_headers := []; a_body := Plain "request body too large" |})
  end.
End proxy.

(** ** The body *)

Definition body_size (chunks : list (list ascii)) : Z := Z.of_nat (length (concat chunks)).

(** Chunk by chunk or at once: the size decides first, then the error. *)
Lemma read_body_spec max error chunks : ∀ bytes, Z.of_nat (length bytes) ≤ max →
  read_body max bytes chunks error
  = if max <? Z.of_nat (length bytes) + body_size chunks then inl too_large
    else match error with
         | None => inr (bytes ++ concat chunks)%list
         | Some is_timeout => inl (upstream_error is_timeout "mounted instance response failed")
         end.
Proof.
  unfold body_size. induction chunks as [|chunk chunks IH]; intros bytes Hb; cbn [read_body concat].
  - rewrite app_nil_r, (proj2 (Z.ltb_ge _ _)) by (cbn; lia). done.
  - rewrite length_app. destruct (Z.ltb_spec max (Z.of_nat (length bytes) + Z.of_nat (length chunk))).
    + by rewrite (proj2 (Z.ltb_lt _ _)) by lia.
    + rewrite IH by (rewrite length_app; lia). rewrite length_app, <- app_assoc.
      replace (Z.of_nat (length bytes + length chunk) + Z.of_nat (length (concat chunks)))
        with (Z.of_nat (length bytes) + Z.of_nat (length chunk + length (concat chunks))) by lia. done.
Qed.

(** ** What goes through *)

Lemma negb_skip name : negb (skip name) = true ↔ name ∉ SKIP_HEADERS.
Proof. unfold skip. case_bool_decide; naive_solver. Qed.

Lemma outgoing_shape f req :
  ∃ xff : option string,
    outgoing f req = (base.filter (λ h, h.1 ∉ SKIP_HEADERS ∧ h.1 ≠ "x-forwarded-for") (in_headers req)
                      ++ match xff with Some x => [("x-forwarded-for", Some x)] | None => [] end)%list.
Proof.
  eexists. unfold outgoing. f_equal. apply list_filter_iff. intros h.
  rewrite andb_true_iff, negb_skip, negb_true_iff, String.eqb_neq. done.
Qed.

(** The proxy is transparent within its limits.  A body that cannot be read or
    is longer than the limit is refused and nothing is sent.  Otherwise the
    method and the body are sent as they came, to the path below the mount with
    the query; the header lines sent are, in order, the request's but for those
    of its own connection, and at most one [X-Forwarded-For].  An answer whose
    body fits is passed on: its status, its header lines but for those of the
    connection, and its whole body, however it was cut into chunks; a longer
    one is a 502, a timeout a 504 and any other failure a 502. *)
Theorem proxy_correct ip_to_string mount req answer :
  0 ≤ max_response_bytes mount →
  let '(sent, response) := proxy ip_to_string mount req answer in
  match sent with
  | None => a_status response = 413 ∧ ∀ b, in_body req = Some b → MAX_BODY_BYTES < Z.of_nat (length b)
  | Some s =>
      in_body req = Some (s_body s) ∧ Z.of_nat (length (s_body s)) ≤ MAX_BODY_BYTES ∧ s_method s = in_method req
      ∧ (∀ rest, in_path req = prefix mount +:+ rest →
           s_url s = upstream mount +:+ (if String.eqb rest "" then "/" else rest)
                     +:+ match in_query req with Some q => "?" +:+ q | None => "" end)
      ∧ (∃ xff : option string,
           s_headers s = (base.filter (λ h, h.1 ∉ SKIP_HEADERS ∧ h.1 ≠ "x-forwarded-for") (in_headers req)
                          ++ match xff with Some x => [("x-forwarded-for", Some x)] | None => [] end)%list)
      ∧ match answer s with
        | inr is_timeout => a_status response = if is_timeout then 504 else 502
        | inl up =>
            if Z.max (body_size (up_chunks up)) (default 0 (up_length up)) <=? max_response_bytes mount
            then match up_error up with
                 | None => response = {| a_status := up_status up;
                                         a_headers := base.filter (λ h, h.1 ∉ SKIP_HEADERS) (up_headers up);
                                         a_body := Raw (concat (up_chunks up)) |}
                 | Some is_timeout => a_status response = if is_timeout then 504 else 502
                 end
            else response = too_large
        end
  end.
Proof.
  intros Hmax. unfold proxy. destruct (in_body req) as [body|] eqn:Eb; [|done].
  destruct (Z.ltb_spec MAX_BODY_BYTES (Z.of_nat (length body))) as [Hlong|Hfits]; [by split; [|intros b [= <-]]|].
  cbn [s_body s_method s_url s_headers]. split; [done|]. split; [done|]. split; [done|]. split.
  { intros rest Hpath. unfold target. by rewrite Hpath, strip_prefix_app. }
  split; [apply outgoing_shape|].
  destruct (answer _) as [up|is_timeout]; cbn [relay]; [|by destruct is_timeout].
  rewrite read_body_spec by (cbn; lia). cbn [length app]. rewrite Z.add_0_l.
  assert (∀ b, a_status (upstream_error b "mounted instance response failed") = if b then 504 else 502) as He by (by intros []).
  set (total := body_size (up_chunks up)). assert (0 ≤ total) by (unfold total, body_size; lia).
  destruct (up_length up) as [len|]; cbn [from_option id].
  - destruct (Z.ltb_spec (max_response_bytes mount) len).
    { by rewrite (proj2 (Z.leb_gt _ _)) by lia. }
    destruct (Z.ltb_spec (max_response_bytes mount) total).
    { by rewrite (proj2 (Z.leb_gt _ _)) by lia. }
    rewrite (proj2 (Z.leb_le _ _)) by lia. destruct (up_error up); [apply He|].
    f_equal. apply list_filter_iff. intros h. apply negb_skip.
  - destruct (Z.ltb_spec (max_response_bytes mount) total).
    { by rewrite (proj2 (Z.leb_gt _ _)) by lia. }
    rewrite (proj2 (Z.leb_le _ _)) by lia. destruct (up_error up); [apply He|].
    f_equal. apply list_filter_iff. intros h. apply negb_skip.
Qed.

(** ** Whom the upstream sees *)

Lemma join_snoc sep l x : l ≠ [] → join sep (l ++ [x])%list = join sep l +:+ sep +:+ x.
Proof.
  induction l as [|y [|z l] IH]; intros Hl; [done|done|].
  change ((y :: z :: l) ++ [x])%list with (y :: (z :: l) ++ [x])%list. cbn [join]. rewrite IH by done.
  change (join sep (y :: z :: l)) with (y +:+ sep +:+ join sep (z :: l)).
  cbn [app]. by rewrite !string_app_assoc.
Qed.

Lemma trim_space s : plain s → trim (String " " s) = s.
Proof.
  intros Hs. assert (ascii_only (String " " s)) as Ha.
  { unfold ascii_only. cbn [bytes]. constructor; [by vm_compute|]. eapply Forall_impl; [exact Hs|]. by intros a (? & _). }
  pose proof (plain_trim s Hs) as Ht. unfold trim, trim_chars in *. rewrite chars_ascii by done.
  rewrite <- Ht at 2. f_equal. rewrite (chars_ascii s); [done|].
  eapply Forall_impl; [exact Hs|]. by intros a (? & _).
Qed.

(** Whatever a client wrote, the last entry sent is the address it was resolved to. *)
Lemma forwarded_for_last headers ip : plain ip →
  ∃ xff, forwarded_for headers (Some ip) = Some xff ∧ last (trim <$> split_on "," xff) = Some ip.
Proof.
  intros Hp. unfold forwarded_for. set (existing := base.filter _ _).
  exists (join ", " (existing ++ [ip])%list). split; [by destruct existing|].
  destruct existing as [|x l].
  - cbn [app join]. rewrite split_on_no_sep by by apply plain_no_comma. cbn. by rewrite plain_trim.
  - rewrite join_snoc by done. change (", " +:+ ip) with (String "," (String " " ip)).
    rewrite split_on_app_any, fmap_app, last_app, split_on_no_sep; [cbn [fmap list_fmap]; by rewrite trim_space|].
    cbn [bytes]. apply not_elem_of_cons. split; [done|by apply plain_no_comma].
Qed.

Section seen.
Context `{!LruCache string Entry} `{Limiter}.

(** C19: The client is who it was: the address this instance limited a proxied
    request by is the address the upstream resolves it to, if the upstream
    trusts one hop, whatever [X-Forwarded-For] lines the client sent ([addr] is
    the address [client] prints). *)
Theorem proxied_client_seen f cfg env req st client code mount fwd peer addr :
  (proxy_rate_limit f cfg env req st).1 = Ok (Handled (Some client) code) →
  in_headers fwd = headers req → in_client_ip fwd = Some client →
  client = f addr → parse_client_addr client = Some addr → plain client →
  client = extract_client_ip f (headers req) (Some (socket_addr req)) (ip_config cfg)
  ∧ ∀ answer sent, (proxy f mount fwd answer).1 = Some sent →
      extract_client_ip f (s_headers sent) (Some peer) {| trusted_proxy_hops := 1; platform_header := None |} = client.
Proof.
  intros Hlimit Hheaders Hip Hshown Hparse Hplain. split.
  - revert Hlimit. unfold proxy_rate_limit, mbind, Auth.api_bind, modify, check_limit.
    match goal with |- context [limiter_check ?a ?b ?c ?d] => destruct (limiter_check a b c d) as [[stat l]|] end; [|done].
    cbn. destruct (negb (allowed stat)); [done|]. cbn.
    by intros [= <-].
  - intros answer sent Hsent. assert (s_headers sent = outgoing f fwd) as ->.
    { revert Hsent. unfold proxy. destruct (in_body fwd); [|done]. destruct (_ <? _); [done|]. by intros [= <-]. }
    destruct (forwarded_for_last (in_headers fwd) client Hplain) as (xff & Hxff & Hlast).
    assert (header_str "x-forwarded-for" (outgoing f fwd) = Some xff) as Hheader.
    { unfold header_str, outgoing. rewrite Hip, Hxff. set (kept := base.filter _ _).
      assert (assoc "x-forwarded-for" kept = None) as Hnone.
      { apply assoc_None. intros ([k v] & Hk & [Hin _]%list_elem_of_filter)%list_elem_of_fmap. cbn in Hk. subst k.
        cbn [fst] in Hin. rewrite String.eqb_refl, andb_false_r in Hin. done. }
      revert Hnone. induction kept as [|[k v] l IH]; [done|]. cbn [assoc app]. case_decide; [done|]. apply IH. }
    unfold extract_client_ip. cbn [platform_header trusted_proxy_hops]. rewrite Hheader. change (0 <? 1)%nat with true. cbv iota.
    rewrite last_lookup in Hlast. pose proof (lookup_lt_Some _ _ _ Hlast). rewrite (proj2 (Nat.leb_le _ _)) by lia.
    replace (length (trim <$> split_on "," xff) - 1)%nat with (pred (length (trim <$> split_on "," xff))) by lia.
    rewrite Hlast. cbn. unfold parse_client_ip. by rewrite Hparse, Hshown.
Qed.
End seen.

(** ** Samples *)

Section witness.
#[local] Instance sample_crypto_proxy : CryptoLib := sample_crypto.
#[local] Instance sample_lru_proxy : LruCache string Entry := list_lru.
#[local] Instance sample_buckets_proxy : LruCache string TokenBucketState := list_lru.
#[local] Instance sample_limiter_proxy : Limiter := memory_limiter (λ _, 0).

(** Entries that are not mounts are left out; two mounts of one name are not. *)
Example mounts_parsed :
  parse_mounts "testnet=http://127.0.0.1:8081/, ,bad entry,a_b=http://x,testnet=http://y"
  = [("testnet", "http://127.0.0.1:8081"); ("testnet", "http://y")].
Proof. vm_compute. reflexivity. Qed.

Definition sample_mount : Mount :=
  {| upstream := "http://127.0.0.1:8081"; prefix := "/testnet"; max_response_bytes := 4 |}.

Definition proxied_req : Request :=
  {| headers := [("te", Some "gzip"); ("x-forwarded-for", Some "6.6.6.6, 9.9.9.9"); ("accept", None);
                 ("x-forwarded-for", Some "7.7.7.7")];
     method := "GET"; uri := "/testnet/contracts?limit=5"; socket_addr := V4 [10; 0; 0; 1] |}.

Definition sample_incoming : Incoming :=
  {| in_method := "GET"; in_path := "/testnet/contracts"; in_query := Some "limit=5"; in_headers := headers proxied_req;
     in_client_ip := Some "9.9.9.9"; in_peer := Some (V4 [10; 0; 0; 1]); in_body := Some [] |}.

Definition sample_answer (s : Sent) : Upstream + bool :=
  inl {| up_status := 200; up_headers := [("connection", Some "close"); ("etag", Some "x")]; up_length := None;
         up_chunks := [bytes "ab"; bytes "cd"]; up_error := None |}.

Lemma proxy_correct_witness :
  ∃ s, proxy sample_ip sample_mount sample_incoming sample_answer
    = (Some s, {| a_status := 200; a_headers := [("etag", Some "x")]; a_body := Raw (bytes "abcd") |})
  ∧ s_url s = "http://127.0.0.1:8081/contracts?limit=5"
  ∧ s_headers s = [("accept", None); ("x-forwarded-for", Some "6.6.6.6, 9.9.9.9, 7.7.7.7, 9.9.9.9")].
Proof.
  pose proof (proxy_correct sample_ip sample_mount sample_incoming sample_answer ltac:(cbn; lia)) as Hp.
  destruct (proxy sample_ip sample_mount sample_incoming sample_answer) as [[s|] r] eqn:E.
  - destruct Hp as (_ & _ & _ & Hurl & _ & Hr). vm_compute in E. injection E as <- <-.
    eexists. split; [reflexivity|]. split; [exact (Hurl "/contracts" eq_refl)|reflexivity].
  - vm_compute in E. discriminate.
Defined.

Lemma proxied_client_seen_witness :
  extract_client_ip sample_ip (outgoing sample_ip sample_incoming) (Some (V4 [172; 0; 0; 9]))
    {| trusted_proxy_hops := 1; platform_header := None |} = "9.9.9.9".
Proof.
  refine (proj2 (proxied_client_seen sample_ip sample_cfg (sample_env 10) proxied_req sample_state "9.9.9.9" 201 sample_mount
    sample_incoming (V4 [172; 0; 0; 9]) (V4 [9; 9; 9; 9]) _ eq_refl eq_refl _ _ _) sample_answer
    {| s_method := "GET"; s_url := target sample_mount sample_incoming; s_headers := outgoing sample_ip sample_incoming;
       s_body := [] |} _).
  - vm_compute. reflexivity.
  - vm_compute. reflexivity.
  - vm_compute. reflexivity.
  - repeat constructor; try (vm_compute; done); by vm_compute.
  - vm_compute. reflexivity.
Defined.
End witness.
