(* ===== verification/Health.v ===== *)
(** * Health: schema check and health pages ([lumenqraph-core/src/schema.rs], [routes/health.rs])

    [check] compares the migrations a database has with those of the binary;
    [health] and [readyz] report on the API and on the indexer's cursor row.
    What each statement answers and the clock are arguments. *)
From S2P Require Import Prelude Text Containers Values Store Pagination ApiError.
From Stdlib Require Import Ascii.

Local Open Scope string_scope.
Local Open Scope Z_scope.

(** ** The schema of a database *)

(** A migration embedded in the binary, and a row of [_sqlx_migrations]. *)
Record Migration := { mg_version : Z; mg_checksum : list ascii; mg_down : bool }.

Record Applied := { ap_version : Z; ap_success : bool; ap_checksum : list ascii }.

Inductive SchemaStatus : Type :=
  | Current
  | Ahead (unknown_versions : list Z).

Inductive SchemaError : Type :=
  | Uninitialized
  | Behind (missing : list Z)
  | Dirty (version : Z)
  | ChecksumMismatch (version : Z)
  | Database (e : string).

Definition applied_as (version : Z) (applied : list Applied) : option Applied :=
  List.find (λ a, ap_version a =? version) applied.

(** The loop over the embedded migrations. *)
Fixpoint missing_migrations (applied : list Applied) (embedded : list Migration) (missing : list Z)
    : result SchemaError (list Z) :=
  match embedded with
  | [] => Ok missing
  | m :: embedded =>
      match applied_as (mg_version m) applied with
      | None => missing_migrations applied embedded (missing ++ [mg_version m])
      | Some a =>
          if bool_decide (ap_checksum a = mg_checksum m) then missing_migrations applied embedded missing
          else Err (ChecksumMismatch (mg_version m))
      end
  end.

Definition by_version (a b : Applied) : comparison := Z.compare (ap_version a) (ap_version b).

Definition embedded_migrations (migrator : list Migration) : list Migration :=
  base.filter (λ m, mg_down m = false) migrator.

Definition check (table_exists : result string bool) (table : result string (list Applied)) (migrator : list Migration)
    : result SchemaError SchemaStatus :=
  exists_ ← map_err Database table_exists;
  if negb exists_ then Err Uninitialized
  else
    rows ← map_err Database table;
    let applied := sort_by by_version rows in
    match List.find (λ a, negb (ap_success a)) applied with
    | Some a => Err (Dirty (ap_version a))
    | None =>
        let embedded := embedded_migrations migrator in
        missing ← missing_migrations applied embedded [];
        match missing with
        | _ :: _ => Err (Behind missing)
        | [] =>
            match base.filter (λ v, v ∉ mg_version <$> embedded) (ap_version <$> applied) with
            | [] => Ok Current
            | unknown => Ok (Ahead unknown)
            end
        end
    end.

(** ** The health pages *)

Record HealthRow := {
  hc_last_processed_ledger : Z;
  hc_chain_tip_ledger : Z;
  hc_events_ingested_total : Z;
  hc_errors_total : Z;
  hc_updated_at : DateTime;
}.

Record HealthConfig := {
  health_max_lag_ledgers : Z;
  health_max_stale_secs : Z;
  readyz_lag_threshold : Z;
  readyz_max_age_secs : Z;
  readyz_require_fresh_index : bool;
  mounts : list (string * string);
  build_version : string;
  build_commit : string;
  build_time : string;
}.

Definition indexer_fresh (lag_ledgers secs_since_update max_lag max_age_secs : Z) : bool :=
  (secs_since_update <=? max_age_secs) && (lag_ledgers <? max_lag).

Definition network_name (passphrase : string) : string :=
  if String.eqb passphrase "Public Global Stellar Network ; September 2015" then "mainnet"
  else if String.eqb passphrase "Test SDF Network ; September 2015" then "testnet"
  else if String.eqb passphrase "Test SDF Future Network ; October 2022" then "futurenet"
  else "custom".

Definition lag_of (c : HealthRow) : Z := Z.max (hc_chain_tip_ledger c - hc_last_processed_ledger c) 0.

(** [num_seconds] truncates. *)
Definition age_of (now : DateTime) (c : HealthRow) : Z := Z.quot (now - hc_updated_at c) (10 ^ 9).

Definition text_json (o : option string) : Json := match o with Some s => JStr s | None => JNull end.

(** A map: of mounts with one name the last is shown. *)
Definition mounts_json (l : list (string * string)) : Json :=
  match l with
  | [] => JNull
  | _ => mk_obj ((λ m, (m.1, JStr ("/" +:+ m.1))) <$> l)
  end.

Definition build_json (cfg : HealthConfig) : list (string * Json) :=
  [("version", JStr (build_version cfg)); ("commit", JStr (build_commit cfg)); ("build_time", JStr (build_time cfg))].

Definition health (cfg : HealthConfig) (passphrase : option string) (status : result string (option HealthRow))
    (unrecovered : result string Z) (now : DateTime) : result ApiError Json :=
  row ← map_err Internal status;
  let network := [("network", text_json (network_name <$> passphrase)); ("network_passphrase", text_json passphrase);
                  ("mounts", mounts_json (mounts cfg))] in
  match row with
  | None => Ok (mk_obj ([("status", JStr "starting")] ++ network ++ [("unrecovered_missed_ranges", JInt 0)] ++ build_json cfg))
  | Some c =>
      let missed := match unrecovered with Ok n => n | Err _ => 0 end in
      let healthy := indexer_fresh (lag_of c) (age_of now c) (health_max_lag_ledgers cfg) (health_max_stale_secs cfg) in
      Ok (mk_obj ([("status", JStr (if healthy then "ok" else "degraded"))] ++ network ++
        [("last_processed_ledger", JInt (hc_last_processed_ledger c)); ("chain_tip_ledger", JInt (hc_chain_tip_ledger c));
         ("lag_ledgers", JInt (lag_of c)); ("seconds_since_cursor_update", JInt (age_of now c));
         ("events_ingested_total", JInt (hc_events_ingested_total c)); ("errors_total", JInt (hc_errors_total c));
         ("unrecovered_missed_ranges", JInt missed)] ++ build_json cfg))
  end.

Definition not_ready (reason : string) : Z * Json :=
  (503, mk_obj [("status", JStr "not_ready"); ("reason", JStr reason)]).

(** [cursor] is read at the clock [now], and only if a fresh index is required. *)
Definition readyz (cfg : HealthConfig) (ping : result string unit) (schema : result SchemaError SchemaStatus)
    (cursor : result string (option HealthRow)) (now : DateTime) : Z * Json :=
  match ping, schema with
  | Err _, _ => not_ready "database unreachable"
  | Ok _, Err _ => not_ready "database schema incompatible with this binary"
  | Ok _, Ok _ =>
      let ready := (200, mk_obj [("status", JStr "ready")]) in
      if readyz_require_fresh_index cfg then
        match cursor with
        | Err _ => not_ready "indexer status unavailable"
        | Ok None => not_ready "indexer has not started"
        | Ok (Some c) =>
            if indexer_fresh (lag_of c) (age_of now c) (readyz_lag_threshold cfg) (readyz_max_age_secs cfg) then ready
            else not_ready "indexer lagging or stale"
        end
      else ready
  end.

(** ** What the schema check decides *)

Section schema.
Context (table : list Applied) (migrator : list Migration).
Context (versions_unique : NoDup (ap_version <$> table)).

Lemma applied_in_order a : a ∈ sort_by by_version table ↔ a ∈ table.
Proof. by rewrite (in_order_perm ap_version Z_asc table). Qed.

Lemma applied_as_spec v :
  match applied_as v (sort_by by_version table) with
  | Some a => a ∈ table ∧ ap_version a = v
  | None => ∀ a, a ∈ table → ap_version a ≠ v
  end.
Proof.
  unfold applied_as. destruct (List.find _ _) as [a|] eqn:E.
  - apply find_some in E as [Hin Hv%Z.eqb_eq]. split; [|done]. apply applied_in_order. by apply list_elem_of_In.
  - intros a Ha%applied_in_order%list_elem_of_In Hv. apply (find_none _ _ E) in Ha. by apply Z.eqb_neq in Ha.
Qed.

Lemma first_dirty a : List.find (λ a, negb (ap_success a)) (sort_by by_version table) = Some a →
  ∃ b, b ∈ table ∧ ap_version b = ap_version a ∧ ap_success b = false
  ∧ ∀ c, c ∈ table → ap_success c = false → ap_version a ≤ ap_version c.
Proof.
  intros Hf. exists a. pose proof (find_some _ _ Hf) as [Hin Hd%negb_true_iff].
  apply list_elem_of_In, applied_in_order in Hin. split; [done|]. split; [done|]. split; [done|].
  intros c Hc%applied_in_order Hcd.
  pose proof (in_order_sorted ap_version Z_asc table versions_unique) as Hs.
  change (in_order ap_version Z_asc table) with (sort_by by_version table) in Hs.
  induction (sort_by by_version table) as [|x l IH]; [by apply elem_of_nil in Hc|]. cbn [List.find] in Hf.
  rewrite fmap_cons in Hs. apply StronglySorted_inv in Hs as [Hs Hx]. destruct (negb (ap_success x)) eqn:Ex.
  - injection Hf as ->. apply elem_of_cons in Hc as [->|Hc]; [done|]. rewrite Forall_fmap, Forall_forall in Hx.
    apply Z.lt_le_incl, Z.compare_lt_iff, (Hx c Hc).
  - apply IH; [done| |done]. apply elem_of_cons in Hc as [->|Hc]; [|done]. by rewrite Hcd in Ex.
Qed.

(** What the database has of an embedded migration. *)
Definition lacks (m : Migration) : Prop := ∀ a, a ∈ table → ap_version a ≠ mg_version m.
Definition agrees (m : Migration) : Prop := ∃ a, a ∈ table ∧ ap_version a = mg_version m ∧ ap_checksum a = mg_checksum m.
Definition differs (m : Migration) : Prop := ∃ a, a ∈ table ∧ ap_version a = mg_version m ∧ ap_checksum a ≠ mg_checksum m.

Lemma missing_migrations_spec embedded : ∀ before,
  match missing_migrations (sort_by by_version table) embedded before with
  | Ok missing => Forall (λ m, lacks m ∨ agrees m) embedded
      ∧ ∃ new, missing = (before ++ new)%list ∧ ∀ v, v ∈ new ↔ ∃ m, m ∈ embedded ∧ mg_version m = v ∧ lacks m
  | Err (ChecksumMismatch v) => ∃ m, m ∈ embedded ∧ mg_version m = v ∧ differs m
  | Err _ => False
  end.
Proof.
  induction embedded as [|m embedded IH]; intros before; cbn [missing_migrations].
  { split; [done|]. exists []. rewrite app_nil_r. split; [done|]. intros v. rewrite elem_of_nil.
    split; [done|]. by intros (m & ?%elem_of_nil & _). }
  pose proof (applied_as_spec (mg_version m)) as Ha. destruct (applied_as _ _) as [a|].
  - destruct Ha as [Hin Hv]. case_bool_decide as Hc.
    + specialize (IH before). assert (agrees m) as Hm by by exists a.
      destruct (missing_migrations _ _ _) as [missing|[| | |v|]]; try done.
      * destruct IH as (Hall & new & -> & Hnew). split; [constructor; auto|]. exists new. split; [done|]. intros v.
        rewrite Hnew. setoid_rewrite elem_of_cons. split; [naive_solver|]. intros (m' & [->|Hm'] & Hv' & Hl); [|by exists m'].
        by destruct (Hl a Hin).
      * destruct IH as (m' & ? & ? & ?). exists m'. split; [by right|done].
    + exists m. split; [left|]. split; [done|]. by exists a.
  - specialize (IH (before ++ [mg_version m])%list). destruct (missing_migrations _ _ _) as [missing|[| | |v|]]; try done.
    + destruct IH as (Hall & new & -> & Hnew). split; [constructor; auto|]. exists (mg_version m :: new).
      rewrite <- app_assoc. split; [done|]. intros v. rewrite elem_of_cons, Hnew. setoid_rewrite elem_of_cons. naive_solver.
    + destruct IH as (m' & ? & ? & ?). exists m'. split; [by right|done].
Qed.

Lemma unknown_sorted (P : Z → Prop) `{∀ v, Decision (P v)} :
  StronglySorted Z.lt (base.filter P (ap_version <$> sort_by by_version table)).
Proof.
  pose proof (in_order_sorted ap_version Z_asc table versions_unique) as Hs.
  change (in_order ap_version Z_asc table) with (sort_by by_version table) in Hs.
  induction Hs as [|v l Hs IH Hl]; [constructor|]. rewrite filter_cons. case_decide; [|done]. constructor; [done|].
  rewrite Forall_forall in *. intros w [_ Hw]%list_elem_of_filter. by apply Z.compare_lt_iff, Hl.
Qed.

(** C39: The check is exact.  It accepts a database just if every row is a success
    and every embedded migration is applied with its contents, and tells a
    database of the same version from a newer one, naming the versions it does
    not know in order.  It refuses one for a failed migration, the first in
    order; else for a migration with other contents; else for the migrations
    that are missing, all of them. *)
Theorem schema_check_exact :
  let embedded := embedded_migrations migrator in
  match check (Ok true) (Ok table) migrator with
  | Ok s =>
      Forall (λ a, ap_success a = true) table ∧ Forall agrees embedded
      ∧ let unknown := match s with Current => [] | Ahead l => l end in
        s ≠ Ahead [] ∧ StronglySorted Z.lt unknown
        ∧ ∀ v, v ∈ unknown ↔ v ∈ ap_version <$> table ∧ v ∉ mg_version <$> embedded
  | Err (Dirty v) =>
      ∃ a, a ∈ table ∧ ap_version a = v ∧ ap_success a = false
      ∧ ∀ b, b ∈ table → ap_success b = false → v ≤ ap_version b
  | Err (ChecksumMismatch v) =>
      Forall (λ a, ap_success a = true) table ∧ ∃ m, m ∈ embedded ∧ mg_version m = v ∧ differs m
  | Err (Behind missing) =>
      Forall (λ a, ap_success a = true) table ∧ missing ≠ [] ∧ Forall (λ m, lacks m ∨ agrees m) embedded
      ∧ ∀ v, v ∈ missing ↔ ∃ m, m ∈ embedded ∧ mg_version m = v ∧ lacks m
  | Err _ => False
  end.
Proof.
  intros embedded. unfold check. cbn [map_err mbind result_bind negb].
  destruct (List.find _ _) as [a|] eqn:Ef.
  - apply first_dirty in Ef. exact Ef.
  - assert (Forall (λ a, ap_success a = true) table) as Hok.
    { apply Forall_forall. intros a Ha%applied_in_order%list_elem_of_In. apply (find_none _ _ Ef) in Ha.
      by destruct (ap_success a). }
    pose proof (missing_migrations_spec embedded []) as Hm. fold embedded.
    destruct (missing_migrations _ _ _) as [missing|[| | |v|]]; cbn [mbind result_bind]; try done.
    destruct Hm as (Hall & new & -> & Hnew). cbn [app] in *. destruct new as [|v new]; [|done].
    assert (Forall agrees embedded) as Hmatch.
    { rewrite Forall_forall in *. intros m Hin. destruct (Hall m Hin) as [Hl|]; [|done].
      exfalso. apply (elem_of_nil (mg_version m)). apply Hnew. by exists m. }
    pose proof (unknown_sorted (λ v, v ∉ mg_version <$> embedded)) as Hs.
    assert (∀ v, v ∈ base.filter (λ v, v ∉ mg_version <$> embedded) (ap_version <$> sort_by by_version table)
              ↔ v ∈ ap_version <$> table ∧ v ∉ mg_version <$> embedded) as Hu.
    { intros v. rewrite list_elem_of_filter, !list_elem_of_fmap. setoid_rewrite applied_in_order. tauto. }
    destruct (base.filter _ _) as [|u l]; (split; [done|]; split; [done|]; split; [done|]; done).
Qed.
End schema.

(** ** Readiness *)

Definition fresh_by (max_lag max_age : Z) (now : DateTime) (c : HealthRow) : Prop := lag_of c < max_lag ∧ age_of now c ≤ max_age.

Lemma indexer_fresh_by max_lag max_age now c :
  indexer_fresh (lag_of c) (age_of now c) max_lag max_age = true ↔ fresh_by max_lag max_age now c.
Proof. unfold indexer_fresh, fresh_by. rewrite andb_true_iff, Z.leb_le, Z.ltb_lt. tauto. Qed.

(** An instance is ready exactly when its database answers, the schema fits and,
    if a fresh index is required, the indexer has a cursor that is recent and
    near the tip; an indexer that stalls takes no instance out otherwise.  Under
    the same limits [/health] calls that indexer ok at the same moment. *)
Lemma readyz_correct cfg ping schema cursor now :
  let out := readyz cfg ping schema cursor now in
  (out.1 = 200 ∨ out.1 = 503)
  ∧ (out.1 = 200 ↔ is_ok ping = true ∧ is_ok schema = true
      ∧ (readyz_require_fresh_index cfg = true →
           ∃ c, cursor = Ok (Some c) ∧ fresh_by (readyz_lag_threshold cfg) (readyz_max_age_secs cfg) now c))
  ∧ ∀ c passphrase missed body, out.1 = 200 → readyz_require_fresh_index cfg = true → cursor = Ok (Some c) →
      health_max_lag_ledgers cfg = readyz_lag_threshold cfg → health_max_stale_secs cfg = readyz_max_age_secs cfg →
      health cfg passphrase cursor missed now = Ok body → json_get "status" body = Some (JStr "ok").
Proof.
  assert (∀ c, indexer_fresh (lag_of c) (age_of now c) (readyz_lag_threshold cfg) (readyz_max_age_secs cfg) = true
    ↔ fresh_by (readyz_lag_threshold cfg) (readyz_max_age_secs cfg) now c) as Hf by (intros; apply indexer_fresh_by).
  unfold readyz. destruct ping as [[]|], schema as [s|]; cbn [is_ok not_ready fst].
  2-4: split; [by right|]; split; [split; [done|intros (? & ? & _); done]|done].
  destruct (readyz_require_fresh_index cfg); [|cbn; split; [by left|]; split; [done|done]].
  destruct cursor as [[c|]|]; cbn [fst].
  - specialize (Hf c). destruct (indexer_fresh _ _ _ _) eqn:Ef; cbn [fst].
    + split; [by left|]. split; [split; [|done]; intros _; split; [done|]; split; [done|]; intros _; exists c; split; [done|by apply Hf]|].
      intros c' p missed body _ _ [= <-] Hl Ha. unfold health. cbn [map_err mbind result_bind]. rewrite Hl, Ha, Ef.
      intros [= <-]. reflexivity.
    + split; [by right|]. split; [|done]. split; [done|]. intros (_ & _ & Hc).
      destruct (Hc eq_refl) as (c' & [= <-] & Hfresh). by apply Hf in Hfresh.
  - split; [by right|]. split; [|done]. split; [done|]. intros (_ & _ & Hc). by destruct (Hc eq_refl) as (c' & ? & _).
  - split; [by right|]. split; [|done]. split; [done|]. intros (_ & _ & Hc). by destruct (Hc eq_refl) as (c' & ? & _).
Qed.

(** ** Samples *)

Definition migration (v : Z) : Migration := {| mg_version := v; mg_checksum := bytes (show_i v); mg_down := false |}.

Definition applied_row (v : Z) : Applied := {| ap_version := v; ap_success := true; ap_checksum := bytes (show_i v) |}.

Example schema_outcomes :
  check (Ok true) (Ok [applied_row 2; applied_row 1]) [migration 1; migration 2] = Ok Current
  ∧ check (Ok true) (Ok [applied_row 2; applied_row 1; applied_row 3]) [migration 1] = Ok (Ahead [2; 3])
  ∧ check (Ok true) (Ok [applied_row 2]) [migration 1; migration 2; migration 3] = Err (Behind [1; 3])
  ∧ check (Ok false) (Ok []) [migration 1] = Err Uninitialized.
Proof. by vm_compute. Qed.

Lemma schema_check_exact_witness :
  check (Ok true) (Ok [applied_row 2; applied_row 1; applied_row 3]) [migration 1] = Ok (Ahead [2; 3])
  ∧ StronglySorted Z.lt [2; 3].
Proof.
  pose proof (schema_check_exact [applied_row 2; applied_row 1; applied_row 3] [migration 1]
    ltac:(apply (bool_decide_unpack _); by vm_compute)) as Hc.
  cbv zeta in Hc. replace (check _ _ _) with (Ok (Ahead [2; 3]) : result SchemaError SchemaStatus) in * by by vm_compute.
  destruct Hc as (_ & _ & _ & Hs & _). split; [reflexivity|exact Hs].
Defined.
