(* ===== verification/Metrics.v ===== *)
(** * Metrics: request metrics ([metrics_middleware.rs], [metrics.rs])

    Counters by route, method and status, latency histograms by route and
    method, and their text exposition.  A [HashMap] is a [gmap]; the order it is
    walked in does not matter to what is shown here. *)
From S2P Require Import Prelude Text Containers Values Serde ApiError.
From Stdlib Require Import Ascii.

Local Open Scope string_scope.
Local Open Scope Z_scope.

Definition LATENCY_BUCKETS_MS : list Z := [1; 5; 10; 50; 100; 500; 1000; 5000; 10000].

(** [u64] arithmetic. *)
Definition wrap_u64 (n : Z) : Z := n mod 2 ^ 64.
Definition saturate_u64 (n : Z) : Z := Z.min n (2 ^ 64 - 1).

Record LatencyHistogram := { buckets : list Z; count : Z; sum_ms : Z }.

Definition default_histogram : LatencyHistogram :=
  {| buckets := replicate (length LATENCY_BUCKETS_MS) 0; count := 0; sum_ms := 0 |}.

Definition observe (h : LatencyHistogram) (elapsed_ms : Z) : LatencyHistogram :=
  {| count := wrap_u64 (count h + 1);
     sum_ms := saturate_u64 (sum_ms h + elapsed_ms);
     buckets := match list_find (λ bound, elapsed_ms ≤ bound) LATENCY_BUCKETS_MS with
                | Some (i, _) => alter (λ n, wrap_u64 (n + 1)) i (buckets h)
                | None => buckets h
                end |}.

Fixpoint scan_sum (running : Z) (l : list (Z * Z)) : list (Z * Z) :=
  match l with
  | [] => []
  | (bound, n) :: l => let running := wrap_u64 (running + n) in (bound, running) :: scan_sum running l
  end.

Definition cumulative (h : LatencyHistogram) : list (Z * Z) := scan_sum 0 (zip LATENCY_BUCKETS_MS (buckets h)).

(** ** Recording *)

Definition UNMATCHED_ROUTE : string := "unmatched".

(** The matched template of a request, if it has one. *)
Definition route_label (matched : option string) : string := default UNMATCHED_ROUTE matched.

Definition backslash : ascii := "\".
Definition newline : ascii := "010".

Definition escape_char (a : ascii) : list ascii :=
  if Ascii.eqb a backslash then [backslash; backslash]
  else if Ascii.eqb a dquote then [backslash; dquote]
  else if Ascii.eqb a newline then [backslash; "n"%char]
  else [a].

(** The three characters are ASCII, so bytes and [chars] agree. *)
Definition escape_label_value (raw : string) : string := of_bytes (flat_map escape_char (bytes raw)).

(** [name="value"]. *)
Definition label (name value : string) : string :=
  name +:+ "=" +:+ of_bytes [dquote] +:+ value +:+ of_bytes [dquote].

Definition counter_key (route method : string) (status : Z) : string :=
  "http_requests{" +:+ label "route" (escape_label_value route) +:+ "," +:+ label "method" (escape_label_value method)
  +:+ "," +:+ label "status" (show_u status) +:+ "}".

Record MetricsCollector := {
  histogram_buckets : gmap (string * string) LatencyHistogram;
  status_counters : gmap string Z;
}.

Definition metrics_new : MetricsCollector := {| histogram_buckets := ∅; status_counters := ∅ |}.

(** A finished request. *)
Record Sample := { sm_route : string; sm_method : string; sm_status : Z; sm_ms : Z }.

Definition record (m : MetricsCollector) (s : Sample) : MetricsCollector :=
  let counter := counter_key (sm_route s) (sm_method s) (sm_status s) in
  let key := (sm_route s, sm_method s) in
  {| status_counters := <[counter := wrap_u64 (default 0 (status_counters m !! counter) + 1)]> (status_counters m);
     histogram_buckets := <[key := observe (default default_histogram (histogram_buckets m !! key)) (sm_ms s)]>
                            (histogram_buckets m) |}.

(** ** Exposition *)

Definition line (s : string) : string := s +:+ of_bytes [newline].

Definition BUCKET : string := "lumenqraph_http_request_duration_ms".

Definition histogram_lines (key : string * string) (hist : LatencyHistogram) : string :=
  let labels := label "route" (escape_label_value key.1) +:+ "," +:+ label "method" (escape_label_value key.2) in
  String.concat "" (map (λ '(bound, n),
      line (BUCKET +:+ "_bucket{" +:+ labels +:+ "," +:+ label "le" (show_u bound) +:+ "} " +:+ show_u n)) (cumulative hist))
  +:+ line (BUCKET +:+ "_bucket{" +:+ labels +:+ "," +:+ label "le" "+Inf" +:+ "} " +:+ show_u (count hist))
  +:+ line (BUCKET +:+ "_sum{" +:+ labels +:+ "} " +:+ show_u (sum_ms hist))
  +:+ line (BUCKET +:+ "_count{" +:+ labels +:+ "} " +:+ show_u (count hist)).

(** ** The page *)

(** The row of [indexer_cursor]. *)
Record IndexerStatus := {
  is_last : Z; is_tip : Z; is_ingested : Z; is_errors : Z; is_enriched : Z; is_not_enriched : Z;
  is_spec_fetch_failures : Z; is_rpc_calls : Z; is_rpc_errors : Z; is_rpc_errors_32001 : Z; is_consecutive_errors : Z;
}.

Definition no_status : IndexerStatus := {|
  is_last := 0; is_tip := 0; is_ingested := 0; is_errors := 0; is_enriched := 0; is_not_enriched := 0;
  is_spec_fetch_failures := 0; is_rpc_calls := 0; is_rpc_errors := 0; is_rpc_errors_32001 := 0; is_consecutive_errors := 0 |}.

(** What the process counts itself. *)
Record Gauges := {
  g_requests : Z; g_audit_dropped : Z; g_rate_limit_backend_errors : Z; g_cache_hits : Z; g_cache_misses : Z;
  g_cache_evictions : Z; g_cache_size : Z; g_sse_active_streams : Z; g_sse_listener_up : bool; g_sse_receivers : Z;
  g_sse_lagged : Z;
}.

Record Family := { f_name : string; f_help : string; f_kind : string; f_value : Z }.

Definition family_lines (f : Family) : string :=
  line ("# HELP " +:+ f_name f +:+ " " +:+ f_help f) +:+ line ("# TYPE " +:+ f_name f +:+ " " +:+ f_kind f)
  +:+ line (f_name f +:+ " " +:+ show_i (f_value f)).

Definition families (s : IndexerStatus) (total_events : Z) (g : Gauges) : list Family :=
  let lag := Z.max (is_tip s - is_last s) 0 in [
  {| f_name := "lumenqraph_indexer_last_processed_ledger"; f_help := "Last ledger the indexer processed"; f_kind := "gauge"; f_value := is_last s |};
  {| f_name := "lumenqraph_indexer_chain_tip_ledger"; f_help := "Latest ledger observed on chain"; f_kind := "gauge"; f_value := is_tip s |};
  {| f_name := "lumenqraph_indexer_lag_ledgers"; f_help := "Ledgers behind the chain tip"; f_kind := "gauge"; f_value := lag |};
  {| f_name := "lumenqraph_indexer_lag_seconds"; f_help := "Estimated time behind the chain tip in seconds"; f_kind := "gauge"; f_value := lag * 5 |};
  {| f_name := "lumenqraph_events_total"; f_help := "Total events stored"; f_kind := "counter"; f_value := total_events |};
  {| f_name := "lumenqraph_indexer_ingested_total"; f_help := "Events ingested by the indexer"; f_kind := "counter"; f_value := is_ingested s |};
  {| f_name := "lumenqraph_indexer_errors_total"; f_help := "Indexer poll-cycle errors"; f_kind := "counter"; f_value := is_errors s |};
  {| f_name := "lumenqraph_rate_limit_backend_errors_total"; f_help := "Redis rate-limit backend errors (each applies the configured fail mode)"; f_kind := "counter"; f_value := g_rate_limit_backend_errors g |};
  {| f_name := "lumenqraph_consecutive_errors"; f_help := "Current number of consecutive poll-cycle failures (circuit breaker gauge; resets to 0 on success)"; f_kind := "gauge"; f_value := is_consecutive_errors s |};
  {| f_name := "lumenqraph_events_enriched_total"; f_help := "Events successfully enriched with spec data"; f_kind := "counter"; f_value := is_enriched s |};
  {| f_name := "lumenqraph_events_not_enriched_total"; f_help := "Events without matching spec (fallback to decoded)"; f_kind := "counter"; f_value := is_not_enriched s |};
  {| f_name := "lumenqraph_spec_fetch_failures_total"; f_help := "Failed attempts to fetch contract specs"; f_kind := "counter"; f_value := is_spec_fetch_failures s |};
  {| f_name := "lumenqraph_rpc_calls_total"; f_help := "Total RPC method calls made"; f_kind := "counter"; f_value := is_rpc_calls s |};
  {| f_name := "lumenqraph_rpc_errors_total"; f_help := "RPC errors encountered"; f_kind := "counter"; f_value := is_rpc_errors s |};
  {| f_name := "lumenqraph_rpc_errors_32001_total"; f_help := "RPC -32001 processing-limit errors"; f_kind := "counter"; f_value := is_rpc_errors_32001 s |};
  {| f_name := "lumenqraph_api_requests_total"; f_help := "API requests served"; f_kind := "counter"; f_value := g_requests g |};
  {| f_name := "lumenqraph_audit_dropped_total"; f_help := "Audit events dropped because the writer queue was full"; f_kind := "counter"; f_value := g_audit_dropped g |};
  {| f_name := "lumenqraph_call_cache_hits_total"; f_help := "Total cache hits for /call results"; f_kind := "counter"; f_value := g_cache_hits g |};
  {| f_name := "lumenqraph_call_cache_misses_total"; f_help := "Total cache misses for /call results"; f_kind := "counter"; f_value := g_cache_misses g |};
  {| f_name := "lumenqraph_call_cache_evictions_total"; f_help := "Total entries evicted from /call cache"; f_kind := "counter"; f_value := g_cache_evictions g |};
  {| f_name := "lumenqraph_call_cache_size"; f_help := "Current number of entries in /call cache"; f_kind := "gauge"; f_value := g_cache_size g |};
  {| f_name := "lumenqraph_sse_active_streams"; f_help := "Currently open SSE streams"; f_kind := "gauge"; f_value := g_sse_active_streams g |};
  {| f_name := "lumenqraph_sse_listener_up"; f_help := "1 while the shared LISTEN connection is connected"; f_kind := "gauge"; f_value := if g_sse_listener_up g then 1 else 0 |};
  {| f_name := "lumenqraph_sse_broadcast_receivers"; f_help := "SSE connections subscribed to the fan-out"; f_kind := "gauge"; f_value := g_sse_receivers g |};
  {| f_name := "lumenqraph_sse_broadcast_lagged_total"; f_help := "Events dropped by SSE subscribers that fell behind"; f_kind := "counter"; f_value := g_sse_lagged g |}].

(** The body of [GET /metrics]; [walk] is the order the histograms are walked in. *)
Definition metrics (status : result string (option IndexerStatus)) (total_events : result string Z) (g : Gauges)
    (walk : list ((string * string) * LatencyHistogram)) : result ApiError string :=
  status ← map_err Internal status;
  total_events ← map_err Internal total_events;
  Ok (String.concat "" (map family_lines (families (default no_status status) total_events g))
      +:+ line ("# HELP " +:+ BUCKET +:+ " Per-route HTTP request latency") +:+ line ("# TYPE " +:+ BUCKET +:+ " histogram")
      +:+ String.concat "" (map (λ '(key, hist), histogram_lines key hist) walk)).

(** ** Counting *)

Definition number {A} (P : A → Prop) `{∀ x, Decision (P x)} (l : list A) : Z := Z.of_nat (length (base.filter P l)).

Lemma number_snoc {A} (P : A → Prop) `{∀ x, Decision (P x)} l x :
  number P (l ++ [x]) = number P l + (if decide (P x) then 1 else 0).
Proof. unfold number. rewrite filter_app, length_app, filter_cons, filter_nil. case_decide; cbn; lia. Qed.

Lemma number_bounds {A} (P : A → Prop) `{∀ x, Decision (P x)} l : 0 ≤ number P l ≤ Z.of_nat (length l).
Proof. unfold number. pose proof (length_filter P l). lia. Qed.

Lemma number_iff {A} (P Q : A → Prop) `{∀ x, Decision (P x)} `{∀ x, Decision (Q x)} l :
  (∀ x, x ∈ l → (P x ↔ Q x)) → number P l = number Q l.
Proof.
  unfold number. induction l as [|x l IH]; intros HPQ; [done|]. rewrite !filter_cons.
  assert (P x ↔ Q x) as Hx by (apply HPQ; left). specialize (IH (λ y Hy, HPQ y (list_elem_of_further _ _ _ Hy))).
  destruct (decide (P x)), (decide (Q x)); [cbn; lia|tauto|tauto|done].
Qed.

Lemma number_none {A} (P : A → Prop) `{∀ x, Decision (P x)} l : (∀ x, x ∈ l → ¬ P x) → number P l = 0.
Proof.
  intros Hno. induction l as [|x l IH] using rev_ind; [done|]. rewrite number_snoc, decide_False, IH; [done| |].
  - intros y Hy. apply Hno, elem_of_app. by left.
  - apply Hno, elem_of_app. right. by left.
Qed.

Lemma wrap_u64_id n : 0 ≤ n < 2 ^ 64 → wrap_u64 n = n.
Proof. apply Z.mod_small. Qed.

(** ** Histograms *)

(** The observations up to a bound, above the one before. *)
Fixpoint bins (lo : Z) (bounds : list Z) (obs : list Z) : list Z :=
  match bounds with
  | [] => []
  | b :: bounds => number (λ ms, lo < ms ≤ b) obs :: bins b bounds obs
  end.

Fixpoint increasing (lo : Z) (bounds : list Z) : Prop :=
  match bounds with [] => True | b :: bounds => lo < b ∧ increasing b bounds end.

Lemma bins_below lo bounds obs ms : increasing lo bounds → ms ≤ lo → bins lo bounds (obs ++ [ms]) = bins lo bounds obs.
Proof.
  revert lo. induction bounds as [|b bounds IH]; intros lo; [done|]. cbn [bins increasing]. intros [Hb Hi] Hms.
  rewrite number_snoc, decide_False, IH by (done || lia). f_equal. lia.
Qed.

Lemma bins_snoc bounds obs ms : ∀ lo, increasing lo bounds → lo < ms → Z.of_nat (length obs) < 2 ^ 64 - 1 →
  bins lo bounds (obs ++ [ms])
  = match list_find (λ bound, ms ≤ bound) bounds with
    | Some (i, _) => alter (λ n, wrap_u64 (n + 1)) i (bins lo bounds obs)
    | None => bins lo bounds obs
    end.
Proof.
  induction bounds as [|b bounds IH]; intros lo Hi Hlo Hlen; [done|]. cbn [bins list_find]. destruct Hi as [Hb Hi].
  rewrite number_snoc. destruct (decide (ms ≤ b)) as [Hle|Hgt].
  - rewrite decide_True by lia. cbn [alter list_alter]. rewrite bins_below by (done || lia).
    pose proof (number_bounds (λ x, lo < x ≤ b) obs). by rewrite wrap_u64_id by lia.
  - rewrite decide_False by lia. rewrite IH by (done || lia). rewrite Z.add_0_r.
    by destruct (list_find _ bounds) as [[i ?]|].
Qed.

Lemma scan_bins bounds obs : ∀ lo, increasing lo bounds → Z.of_nat (length obs) < 2 ^ 64 →
  scan_sum (number (λ ms, ms ≤ lo) obs) (zip bounds (bins lo bounds obs))
  = (λ b, (b, number (λ ms, ms ≤ b) obs)) <$> bounds.
Proof.
  induction bounds as [|b bounds IH]; intros lo Hi Hlen; [done|]. destruct Hi as [Hb Hi].
  cbn [bins zip zip_with scan_sum fmap list_fmap].
  assert (number (λ ms, ms ≤ lo) obs + number (λ ms, lo < ms ≤ b) obs = number (λ ms, ms ≤ b) obs) as ->.
  { clear IH Hlen. induction obs as [|x obs IH] using rev_ind; [done|]. rewrite !number_snoc.
    repeat case_decide; lia. }
  pose proof (number_bounds (λ ms, ms ≤ b) obs). rewrite wrap_u64_id by lia. f_equal. by apply IH.
Qed.

Fixpoint total_of (l : list Z) : Z := match l with [] => 0 | x :: l => x + total_of l end.

Lemma total_snoc l x : total_of (l ++ [x]) = total_of l + x.
Proof. induction l as [|y l IH]; cbn [total_of app]; lia. Qed.

(** What a histogram of observations holds. *)
Record histogram_of (obs : list Z) (h : LatencyHistogram) : Prop := {
  ho_buckets : buckets h = bins (- 1) LATENCY_BUCKETS_MS obs;
  ho_count : count h = Z.of_nat (length obs);
  ho_sum : sum_ms h = saturate_u64 (total_of obs);
}.

Lemma bounds_increasing : increasing (- 1) LATENCY_BUCKETS_MS.
Proof. unfold LATENCY_BUCKETS_MS. cbn. lia. Qed.

Lemma histogram_observe obs h ms : 0 ≤ ms → Forall (Z.le 0) obs → Z.of_nat (length obs) < 2 ^ 64 - 1 →
  histogram_of obs h → histogram_of (obs ++ [ms]) (observe h ms).
Proof.
  intros Hms Hpos Hlen [Hb Hc Hs]. split; cbn [buckets count sum_ms observe].
  - rewrite bins_snoc by (apply bounds_increasing || lia). by rewrite Hb.
  - rewrite Hc, length_app, wrap_u64_id; cbn; lia.
  - rewrite Hs, total_snoc. unfold saturate_u64. lia.
Qed.

Lemma histogram_empty : histogram_of [] default_histogram.
Proof. by split. Qed.

(** ** Labels *)

(** A reader of a quoted label: up to the first quote that is not escaped. *)
Fixpoint read_label (l : list ascii) : option (list ascii * list ascii) :=
  match l with
  | [] => None
  | a :: l =>
      if Ascii.eqb a dquote then Some ([], l)
      else if Ascii.eqb a backslash then
        match l with
        | b :: l => '(v, rest) ← read_label l; Some ((if Ascii.eqb b "n" then newline else b) :: v, rest)
        | [] => None
        end
      else '(v, rest) ← read_label l; Some (a :: v, rest)
  end.

(** What is escaped is read back, whatever follows it. *)
Lemma read_escaped v rest : read_label (flat_map escape_char v ++ dquote :: rest) = Some (v, rest).
Proof.
  induction v as [|a v IH]; [done|]. cbn [flat_map]. unfold escape_char at 1.
  destruct (Ascii.eqb_spec a backslash) as [->|Hb].
  { cbn [app read_label]. cbn. unfold backslash in *. by rewrite IH. }
  destruct (Ascii.eqb_spec a dquote) as [->|Hd].
  { cbn. by rewrite IH. }
  destruct (Ascii.eqb_spec a newline) as [->|Hn].
  { cbn. by rewrite IH. }
  cbn [app read_label]. rewrite (proj2 (Ascii.eqb_neq _ _) Hd), (proj2 (Ascii.eqb_neq _ _) Hb). by rewrite IH.
Qed.

Lemma counter_key_bytes route method status :
  bytes (counter_key route method status)
  = (bytes "http_requests{route=" ++ dquote :: flat_map escape_char (bytes route) ++ dquote ::
     (bytes ",method=" ++ dquote :: flat_map escape_char (bytes method) ++ dquote ::
      (bytes ",status=" ++ dquote :: bytes (show_u status) ++ dquote :: bytes "}")))%list.
Proof.
  unfold counter_key, label, escape_label_value. rewrite !bytes_app, !bytes_of_bytes.
  unfold bytes. cbn [String.list_ascii_of_string app]. rewrite <- !app_assoc. cbn [app]. rewrite <- ?app_assoc. done.
Qed.

(** A counter is of one route, method and status, whatever the labels hold. *)
Lemma counter_key_inj r m s r' m' s' : 0 ≤ s → 0 ≤ s' →
  counter_key r m s = counter_key r' m' s' → r = r' ∧ m = m' ∧ s = s'.
Proof.
  intros Hs Hs' Heq%(f_equal bytes). rewrite !counter_key_bytes in Heq.
  apply app_inv_head in Heq. injection Heq as Heq. apply (f_equal read_label) in Heq. rewrite !read_escaped in Heq.
  injection Heq as Hr Heq. apply (f_equal read_label) in Heq. rewrite !read_escaped in Heq.
  injection Heq as Hm Heq. apply app_inv_tail in Heq.
  split; [by apply bytes_inj|]. split; [by apply bytes_inj|]. apply show_i_inj.
  unfold show_i. rewrite !(proj2 (Z.ltb_ge _ _)) by done. by apply bytes_inj.
Qed.

(** ** What is recorded *)

Definition sample_wf (s : Sample) : Prop := 0 ≤ sm_status s ∧ 0 ≤ sm_ms s.

Definition recorded (l : list Sample) : MetricsCollector := foldl record metrics_new l.

Definition series (route method : string) (l : list Sample) : list Z :=
  sm_ms <$> base.filter (λ s, sm_route s = route ∧ sm_method s = method) l.

Lemma recorded_snoc l s : recorded (l ++ [s]) = record (recorded l) s.
Proof. unfold recorded. by rewrite foldl_app. Qed.

Lemma recorded_counter k l : Z.of_nat (length l) < 2 ^ 64 →
  default 0 (status_counters (recorded l) !! k)
  = number (λ s, counter_key (sm_route s) (sm_method s) (sm_status s) = k) l.
Proof.
  induction l as [|s l IH] using rev_ind; intros Hlen; [done|]. rewrite length_app in Hlen. cbn [length] in Hlen.
  rewrite recorded_snoc, number_snoc. cbn [record status_counters].
  pose proof (number_bounds (λ s, counter_key (sm_route s) (sm_method s) (sm_status s) = k) l).
  destruct (decide (counter_key (sm_route s) (sm_method s) (sm_status s) = k)) as [->|Hne].
  - rewrite lookup_insert_eq, IH by lia. cbn. by rewrite wrap_u64_id by lia.
  - rewrite lookup_insert_ne, IH by (done || lia). lia.
Qed.

Lemma recorded_series route method l : Forall sample_wf l → Z.of_nat (length l) < 2 ^ 64 →
  match histogram_buckets (recorded l) !! (route, method) with
  | Some h => series route method l ≠ [] ∧ histogram_of (series route method l) h
  | None => series route method l = []
  end.
Proof.
  induction l as [|s l IH] using rev_ind; intros Hwf Hlen; [done|].
  apply Forall_app in Hwf as [Hwf [[_ Hms] _]%Forall_cons]. rewrite length_app in Hlen. cbn [length] in Hlen.
  specialize (IH Hwf ltac:(lia)). rewrite recorded_snoc. cbn [record histogram_buckets].
  unfold series in *. rewrite filter_app, fmap_app, filter_cons, filter_nil.
  destruct (decide (sm_route s = route ∧ sm_method s = method)) as [[<- <-]|Hne].
  - rewrite lookup_insert_eq. cbn [fmap list_fmap]. split; [by destruct (_ <$> _)|].
    assert (Forall (Z.le 0) (sm_ms <$> base.filter (λ s', sm_route s' = sm_route s ∧ sm_method s' = sm_method s) l)) as Hpos.
    { apply Forall_fmap. apply Forall_forall. intros x [_ Hx]%list_elem_of_filter. rewrite Forall_forall in Hwf. by apply Hwf. }
    pose proof (length_filter (λ s', sm_route s' = sm_route s ∧ sm_method s' = sm_method s) l) as Hf.
    apply histogram_observe; [done|done|rewrite length_fmap; lia|].
    destruct (histogram_buckets (recorded l) !! _) as [h|]; [by destruct IH|]. rewrite IH. apply histogram_empty.
  - rewrite lookup_insert_ne by (intros [= ? ?]; tauto). cbn [fmap list_fmap]. by rewrite app_nil_r.
Qed.

(** The metrics are exact.  After any number of requests (below 2^64) a counter
    is the number of requests with its route, method and status, whatever text
    these hold; a route and method have a histogram just if they had a request;
    its buckets, cumulated, are for every bound the number of requests that took
    no longer, its count is their number and its sum their time, up to the
    largest [u64]. *)
Theorem metrics_exact l : Forall sample_wf l → Z.of_nat (length l) < 2 ^ 64 →
  (∀ route method status, 0 ≤ status →
     default 0 (status_counters (recorded l) !! counter_key route method status)
     = number (λ s, sm_route s = route ∧ sm_method s = method ∧ sm_status s = status) l)
  ∧ ∀ route method, let obs := series route method l in
    match histogram_buckets (recorded l) !! (route, method) with
    | None => obs = []
    | Some h => obs ≠ [] ∧ count h = Z.of_nat (length obs) ∧ sum_ms h = Z.min (total_of obs) (2 ^ 64 - 1)
        ∧ cumulative h = (λ b, (b, number (λ ms, ms ≤ b) obs)) <$> LATENCY_BUCKETS_MS
    end.
Proof.
  intros Hwf Hlen. split.
  - intros route method status Hs. rewrite recorded_counter by done. apply number_iff. intros s Hin.
    rewrite Forall_forall in Hwf. destruct (Hwf s Hin). split; [|by intros (<- & <- & <-)].
    intros Heq. by apply counter_key_inj in Heq.
  - intros route method obs. pose proof (recorded_series route method l Hwf Hlen) as Hh. fold obs in Hh.
    destruct (histogram_buckets _ !! _) as [h|]; [|done]. destruct Hh as [Hne [Hb Hc Hsum]].
    split; [done|]. split; [done|]. split; [done|]. unfold cumulative. rewrite Hb.
    assert (number (λ ms, ms ≤ - 1) obs = 0) as H0.
    { apply number_none. intros x (s & -> & [_ Hs]%list_elem_of_filter)%list_elem_of_fmap. rewrite Forall_forall in Hwf.
      destruct (Hwf s Hs). lia. }
    rewrite <- H0 at 1. apply scan_bins; [apply bounds_increasing|]. unfold obs, series. rewrite length_fmap.
    pose proof (length_filter (λ s, sm_route s = route ∧ sm_method s = method) l). lia.
Qed.

(** ** Samples *)

Definition sample_requests : list Sample :=
  (λ ms, {| sm_route := "/events"; sm_method := "GET"; sm_status := 200; sm_ms := ms |}) <$> [0; 3; 7; 20000].

Lemma metrics_exact_witness :
  status_counters (recorded sample_requests) !! counter_key "/events" "GET" 200 = Some 4
  ∧ match histogram_buckets (recorded sample_requests) !! ("/events", "GET") with
    | Some h => count h = 4 ∧ sum_ms h = 20010 ∧ take 3 (cumulative h) = [(1, 1); (5, 2); (10, 3)]
    | None => False
    end.
Proof.
  destruct (metrics_exact sample_requests) as [Hc Hh].
  - repeat constructor; cbn; lia.
  - cbn. lia.
  - split.
    + specialize (Hc "/events" "GET" 200 ltac:(lia)). change (number _ _) with 4 in Hc.
      destruct (_ !! _) as [n|]; [cbn in Hc; congruence|discriminate].
    + specialize (Hh "/events" "GET"). cbv zeta in Hh. destruct (histogram_buckets _ !! _) as [h|]; [|discriminate].
      destruct Hh as (_ & -> & -> & ->). repeat split; vm_compute; reflexivity.
Defined.

Example label_kept_apart : escape_label_value (of_bytes ["a"%char; dquote; newline; backslash])
  = of_bytes ["a"%char; backslash; dquote; backslash; "n"%char; backslash; backslash].
Proof. vm_compute. reflexivity. Qed.

(** Every family of the page is named once. *)
Example families_distinct s n g : NoDup (f_name <$> families s n g).
Proof. apply (bool_decide_unpack _). vm_compute. done. Qed.
