(* ===== verification/McpLimiter.v ===== *)
(** * McpLimiter: the RPC budget of the MCP server ([lumenqraph-mcp/src/rpc.rs])

    A sliding window per client under a window for all of them.  Instants are
    nanoseconds of one monotone clock; [duration_since] saturates at zero. *)
From S2P Require Import Prelude.

Local Open Scope Z_scope.

Definition NANOS : Z := 10 ^ 9.
Definition window : Z := 60 * NANOS.

Record RpcRateLimiter := {
  limit_per_min : nat;
  global_limit_per_min : nat;
  per_client : gmap string (list Z);
  global : list Z;
}.

Definition limiter_new (limit : nat) : RpcRateLimiter :=
  let limit := Nat.max limit 1 in
  {| limit_per_min := limit; global_limit_per_min := limit; per_client := ∅; global := [] |}.

Definition with_global_limit (limit : nat) (st : RpcRateLimiter) : RpcRateLimiter :=
  {| limit_per_min := limit_per_min st; global_limit_per_min := Nat.max limit 1;
     per_client := per_client st; global := global st |}.

Definition duration_since (now ts : Z) : Z := Z.max (now - ts) 0.

(** The [retain] of both queues: what is younger than the window. *)
Definition retain (now : Z) (q : list Z) : list Z := base.filter (λ ts, duration_since now ts < window) q.

Definition retry_after (recent : list Z) (now : Z) : Z :=
  match recent with
  | oldest :: _ => Z.max (Z.max (window - duration_since now oldest) 0 / NANOS) 1
  | [] => Z.max (window / NANOS) 1
  end.

Definition try_consume (client_key : string) (now : Z) (st : RpcRateLimiter) : result Z unit * RpcRateLimiter :=
  let g := retain now (global st) in
  if (global_limit_per_min st <=? length g)%nat
  then (Err (retry_after g now),
        {| limit_per_min := limit_per_min st; global_limit_per_min := global_limit_per_min st;
           per_client := per_client st; global := g |})
  else
    let recent := retain now (default [] (per_client st !! client_key)) in
    if (limit_per_min st <=? length recent)%nat
    then (Err (retry_after recent now),
          {| limit_per_min := limit_per_min st; global_limit_per_min := global_limit_per_min st;
             per_client := <[client_key := recent]> (per_client st); global := g ++ [now] |})
    else (Ok tt,
          {| limit_per_min := limit_per_min st; global_limit_per_min := global_limit_per_min st;
             per_client := <[client_key := recent ++ [now]]> (per_client st); global := g ++ [now] |}).

(** Calls one after the other: those admitted, and the limiter after them. *)
Fixpoint consume_all (calls : list (Z * string)) (st : RpcRateLimiter) : list (Z * string) * RpcRateLimiter :=
  match calls with
  | [] => ([], st)
  | (now, k) :: calls' =>
      let '(r, st) := try_consume k now st in
      let '(ok, st) := consume_all calls' st in
      (match r with Ok tt => (now, k) :: ok | Err _ => ok end, st)
  end.

(** ** Windows *)

(** The calls of the sixty seconds up to [t]. *)
Definition in_window (t : Z) (q : list Z) : list Z := base.filter (λ u, t - window < u ≤ t) q.

Lemma length_filter_le {A} (P Q : A → Prop) `{∀ x, Decision (P x)} `{∀ x, Decision (Q x)} (l : list A) :
  (∀ x, x ∈ l → P x → Q x) → (length (base.filter P l) ≤ length (base.filter Q l))%nat.
Proof.
  induction l as [|x l IH]; intros HPQ; [done|]. rewrite !filter_cons.
  assert (length (base.filter P l) ≤ length (base.filter Q l))%nat as Hle.
  { apply IH. intros y Hy. apply HPQ. by apply elem_of_cons; right. }
  pose proof (HPQ x (list_elem_of_here _ _)). destruct (decide (P x)), (decide (Q x)); cbn; naive_solver lia.
Qed.

(** [q] keeps the calls of [log] that still count at [now], and [log] never held
    more than [n] calls in any sixty seconds. *)
Record keeps (n : nat) (now : Z) (log q : list Z) : Prop := {
  keeps_recent : ∀ t, now ≤ t → retain t q = retain t log;
  keeps_past : Forall (λ u, u ≤ now) log;
  keeps_bound : ∀ t, (length (in_window t log) ≤ n)%nat;
}.

Lemma keeps_nil n now : keeps n now [] [].
Proof. split; [done|constructor|]. intros t. cbn. lia. Qed.

Lemma retain_app t a b : retain t (a ++ b) = retain t a ++ retain t b.
Proof. apply filter_app. Qed.

Lemma retain_later now t q : now ≤ t → retain t (retain now q) = retain t q.
Proof.
  intros Ht. unfold retain. rewrite list_filter_filter. apply list_filter_iff. intros u.
  unfold duration_since. cbn. lia.
Qed.

Lemma keeps_later n now t log q : now ≤ t → keeps n now log q → keeps n t log (retain t q).
Proof.
  intros Ht [Hr Hp Hb]. split; [|eapply Forall_impl; [exact Hp|]; cbn; lia|done].
  intros u Hu. rewrite retain_later by done. apply Hr. lia.
Qed.

(** A call is admitted below the bound only. *)
Lemma keeps_push n now log q :
  keeps n now log q → (length (retain now q) < n)%nat → keeps n now (log ++ [now]) (retain now q ++ [now]).
Proof.
  intros [Hr Hp Hb] Hlt. split.
  - intros t Ht. rewrite !retain_app, retain_later, Hr by done. done.
  - apply Forall_app. split; [done|]. by constructor.
  - intros t. unfold in_window. rewrite filter_app, length_app.
    destruct (decide (t - window < now ≤ t)) as [Hin|Hout].
    + rewrite filter_cons_True by done. cbn. rewrite (Hr now (Z.le_refl _)) in Hlt.
      assert (length (in_window t log) ≤ length (retain now log))%nat as Hle; [|unfold in_window in Hle; lia].
      apply length_filter_le. intros u Hu [? ?]. rewrite Forall_forall in Hp. specialize (Hp u Hu).
      unfold duration_since. lia.
    + rewrite filter_cons_False by done. cbn. specialize (Hb t). unfold in_window in Hb. lia.
Qed.

(** ** The limiter over a sequence of calls *)

Definition times_of (k : string) (calls : list (Z * string)) : list Z := (base.filter (λ c, c.2 = k) calls).*1.

(** [passed] are the calls the outer bound let through, [ok] those admitted. *)
Record limiter_inv (now : Z) (passed : list Z) (ok : list (Z * string)) (st : RpcRateLimiter) : Prop := {
  inv_global : keeps (global_limit_per_min st) now passed (global st);
  inv_client : ∀ k, keeps (limit_per_min st) now (times_of k ok) (default [] (per_client st !! k));
  inv_sub : ok.*1 `sublist_of` passed;
}.

Lemma times_of_snoc k ok c : times_of k (ok ++ [c]) = times_of k ok ++ (if decide (c.2 = k) then [c.1] else []).
Proof. unfold times_of. rewrite filter_app, fmap_app, filter_cons. by destruct (decide _). Qed.

Lemma keeps_weaken n now t log q : now ≤ t → keeps n now log q → keeps n t log q.
Proof.
  intros Ht [Hr Hp Hb]. split; [|eapply Forall_impl; [exact Hp|]; cbn; lia|done].
  intros u Hu. apply Hr. lia.
Qed.

Lemma try_consume_inv k now t passed ok st :
  limiter_inv now passed ok st → now ≤ t →
  ∃ passed', limiter_inv t passed' (ok ++ match (try_consume k t st).1 with Ok tt => [(t, k)] | Err _ => [] end)
               (try_consume k t st).2.
Proof.
  intros [Hg Hc Hs] Ht. unfold try_consume.
  destruct (Nat.leb_spec (global_limit_per_min st) (length (retain t (global st)))) as [Hfull|Hroom].
  { exists passed. cbn. rewrite app_nil_r. split; [by eapply keeps_later|intros; by eapply keeps_weaken|done]. }
  pose proof (keeps_push _ _ _ _ (keeps_weaken _ _ _ _ _ Ht Hg) Hroom) as Hg'. exists (passed ++ [t]).
  destruct (Nat.leb_spec (limit_per_min st) (length (retain t (default [] (per_client st !! k))))) as [Hover|Hunder]; cbn.
  - rewrite app_nil_r. split; [done| |by apply sublist_inserts_r].
    intros k'. cbn. destruct (decide (k = k')) as [->|Hne].
    + rewrite lookup_insert_eq. cbn. by eapply keeps_later.
    + rewrite lookup_insert_ne by done. by eapply keeps_weaken.
  - split; [done| |].
    + intros k'. cbn. rewrite times_of_snoc. cbn [fst snd]. destruct (decide (k = k')) as [->|Hne].
      * rewrite lookup_insert_eq. cbn. apply keeps_push; [by eapply keeps_weaken|done].
      * rewrite lookup_insert_ne by done. rewrite app_nil_r. by eapply keeps_weaken.
    + rewrite fmap_app. by apply sublist_app.
Qed.

Lemma try_consume_limits k t st :
  limit_per_min (try_consume k t st).2 = limit_per_min st
  ∧ global_limit_per_min (try_consume k t st).2 = global_limit_per_min st.
Proof. unfold try_consume. by repeat case_match. Qed.

Lemma consume_all_inv calls now passed ok st :
  limiter_inv now passed ok st → StronglySorted Z.le (now :: calls.*1) →
  let '(ok', st') := consume_all calls st in
  limit_per_min st' = limit_per_min st ∧ global_limit_per_min st' = global_limit_per_min st
  ∧ ∃ t passed', t = default now (last calls.*1) ∧ limiter_inv t passed' (ok ++ ok') st'.
Proof.
  revert now passed ok st. induction calls as [|[t k] calls IH]; intros now passed ok st Hinv Hs; cbn [consume_all].
  { rewrite app_nil_r. split; [done|]. split; [done|]. by exists now, passed. }
  change ((t, k) :: calls).*1 with (t :: calls.*1) in *. apply StronglySorted_inv in Hs as [Hs [Ht _]%Forall_cons].
  destruct (try_consume_inv k now t passed ok st Hinv Ht) as (passed1 & Hinv1).
  destruct (try_consume_limits k t st) as [Hl Hg].
  destruct (try_consume k t st) as [r st1]. cbn [fst snd] in *.
  specialize (IH t passed1 _ st1 Hinv1 Hs). destruct (consume_all calls st1) as [ok' st'].
  destruct IH as (Hl' & Hg' & u & passed' & Hu & Hinv'). split; [congruence|]. split; [congruence|].
  exists u, passed'. split.
  - rewrite Hu. destruct calls as [|c calls]; [done|]. cbn [fmap list_fmap].
    change (last (t :: c.1 :: calls.*1)) with (last (c.1 :: calls.*1)).
    by destruct (last (c.1 :: calls.*1)) eqn:E; [|apply last_None in E].
  - destruct r as [[]|]; [|by rewrite app_nil_r in Hinv']. by rewrite <-app_assoc in Hinv'.
Qed.

Lemma limiter_inv_new now l g : limiter_inv now [] [] (with_global_limit g (limiter_new l)).
Proof. split; [apply keeps_nil| |done]. intros k. cbn. rewrite lookup_empty. apply keeps_nil. Qed.

Lemma filter_sublist {A} (P : A → Prop) `{∀ x, Decision (P x)} (l m : list A) :
  l `sublist_of` m → base.filter P l `sublist_of` base.filter P m.
Proof.
  induction 1 as [|x l m _ IH|x l m _ IH]; [done| |].
  - rewrite !filter_cons. destruct (decide (P x)); [by constructor|done].
  - rewrite filter_cons. destruct (decide (P x)); [by constructor|done].
Qed.

(** The state after calls in order, from a fresh limiter. *)
Lemma consume_fresh d l g calls :
  StronglySorted Z.le calls.*1 →
  let '(ok, st) := consume_all calls (with_global_limit g (limiter_new l)) in
  limit_per_min st = Nat.max l 1 ∧ global_limit_per_min st = Nat.max g 1
  ∧ ∃ passed, limiter_inv (default d (last calls.*1)) passed ok st.
Proof.
  intros Hs. set (st := with_global_limit g (limiter_new l)). set (t0 := default d (head calls.*1)).
  assert (StronglySorted Z.le (t0 :: calls.*1)) as Hs0.
  { constructor; [done|]. unfold t0. destruct (calls.*1) as [|u us]; [constructor|]. cbn.
    apply StronglySorted_inv in Hs as [_ Hall]. by constructor. }
  pose proof (consume_all_inv calls t0 [] [] st (limiter_inv_new t0 l g) Hs0) as Hinv.
  destruct (consume_all calls st) as [ok st']. destruct Hinv as (Hl & Hg & u & passed & -> & Hinv).
  split; [done|]. split; [done|]. exists passed. unfold t0 in Hinv.
  destruct (calls.*1) as [|v us]; [done|]. by destruct (last (v :: us)) eqn:E; [|apply last_None in E].
Qed.

(** C38: The budgets hold in every window: whatever clients call and when, no sixty
    seconds see more admitted calls of one client than its limit, nor more of
    all clients than the outer limit. *)
Theorem limiter_bounds l g calls t k :
  StronglySorted Z.le calls.*1 →
  let ok := (consume_all calls (with_global_limit g (limiter_new l))).1 in
  (length (in_window t (times_of k ok)) ≤ Nat.max l 1)%nat ∧ (length (in_window t ok.*1) ≤ Nat.max g 1)%nat.
Proof.
  intros Hs. cbv zeta. pose proof (consume_fresh 0 l g calls Hs) as Hinv.
  destruct (consume_all calls _) as [ok st]. cbn [fst].
  destruct Hinv as (Hl & Hg & passed & [Hglobal Hclient Hsub]). split.
  - destruct (Hclient k) as [_ _ Hb]. rewrite Hl in Hb. apply Hb.
  - destruct Hglobal as [_ _ Hb]. rewrite Hg in Hb. etrans; [|apply (Hb t)].
    by apply sublist_length, filter_sublist.
Qed.

(** A hint to wait is between one second and a minute. *)
Theorem retry_after_range k t st s : (try_consume k t st).1 = Err s → 1 ≤ s ≤ 60.
Proof.
  assert (∀ q, 1 ≤ retry_after q t ≤ 60) as Hr.
  { intros [|u q]; unfold retry_after, window, NANOS, duration_since; [done|].
    assert (Z.max (60 * 10 ^ 9 - Z.max (t - u) 0) 0 / 10 ^ 9 ≤ 60) by (apply Z.div_le_upper_bound; lia). lia. }
  unfold try_consume. repeat case_match; cbn; intros [= <-]; apply Hr.
Qed.

(** As [main] builds it, without an outer limit of its own, the limiter is the
    outer bound: the budget of a client never refuses a call. *)
Theorem client_budget_never_binds l calls k t :
  StronglySorted Z.le (calls.*1 ++ [t]) →
  let st := (consume_all calls (limiter_new l)).2 in
  is_ok (try_consume k t st).1 = (length (retain t (global st)) <? Nat.max l 1)%nat.
Proof.
  intros Hs. cbv zeta. change (limiter_new l) with (with_global_limit l (limiter_new l)).
  assert (StronglySorted Z.le calls.*1 ∧ ∀ u, u ∈ calls.*1 → u ≤ t) as [Hs' Hle].
  { revert Hs. induction (calls.*1) as [|u us IH]; [split; [constructor|by intros ? ?%elem_of_nil]|].
    intros [Hs [Hall [Hu _]%Forall_cons]%Forall_app]%StronglySorted_inv. destruct (IH Hs) as [IH1 IH2].
    split; [by constructor|]. intros v [->|Hv]%elem_of_cons; [done|by apply IH2]. }
  pose proof (consume_fresh t l l calls Hs') as Hinv. destruct (consume_all calls _) as [ok st]. cbn [snd].
  destruct Hinv as (Hl & Hg & passed & [Hglobal Hclient Hsub]). set (now := default _ _) in *.
  assert (now ≤ t) as Hnow.
  { unfold now. destruct (last calls.*1) as [u|] eqn:E; cbn; [by apply Hle, last_Some_elem_of|done]. }
  assert (length (retain t (default [] (per_client st !! k))) ≤ length (retain t (global st)))%nat as Hlen.
  { destruct (Hclient k) as [Hk _ _]. destruct Hglobal as [Hgl _ _]. rewrite Hk, Hgl by done.
    apply sublist_length, filter_sublist. etrans; [|exact Hsub]. unfold times_of.
    apply fmap_sublist, sublist_filter. }
  unfold try_consume. rewrite Hl, Hg.
  destruct (Nat.leb_spec (Nat.max l 1) (length (retain t (global st)))), (Nat.ltb_spec (length (retain t (global st))) (Nat.max l 1));
    try lia; [done|].
  destruct (Nat.leb_spec (Nat.max l 1) (length (retain t (default [] (per_client st !! k))))); [lia|done].
Qed.

(** ** Samples *)

Definition second : Z := NANOS.

Definition sample_calls : list (Z * string) := [(0, "a"); (second, "a"); (2 * second, "b"); (61 * second, "a")].

Example limiter_bounds_witness :
  let ok := (consume_all sample_calls (with_global_limit 3 (limiter_new 2))).1 in
  ok = sample_calls ∧ (length (in_window 60000000000 (times_of "a" ok)) ≤ 2)%nat
  ∧ (length (in_window 60000000000 ok.*1) ≤ 3)%nat.
Proof.
  split; [by vm_compute|]. apply (limiter_bounds 2 3 sample_calls 60000000000 "a").
  cbn. unfold second, NANOS. repeat constructor; lia.
Defined.

Example retry_after_range_witness :
  (try_consume "a" second (consume_all [(0, "a")] (limiter_new 1)).2).1 = Err 59 ∧ 1 ≤ 59 ≤ 60.
Proof.
  split; [by vm_compute|]. apply (retry_after_range "a" second (consume_all [(0, "a")] (limiter_new 1)).2). by vm_compute.
Defined.

Example client_budget_never_binds_witness :
  is_ok (try_consume "b" second (consume_all [(0, "a")] (limiter_new 1)).2).1 = false.
Proof.
  assert (StronglySorted Z.le [0; second]) as Hs by (unfold second, NANOS; repeat constructor; lia).
  rewrite (client_budget_never_binds 1 [(0, "a")] "b" second Hs). by vm_compute.
Defined.

(** A client over its own budget still uses up the outer one: its refused calls
    are counted there, and another client is refused with a third of the outer
    budget spent on admitted calls. *)
Example refused_calls_starve_others :
  let st := with_global_limit 6 (limiter_new 2) in
  let '(ok, st) := consume_all [(0, "a"); (1, "a"); (2, "a"); (3, "a"); (4, "a"); (5, "a")] st in
  ok = [(0, "a"); (1, "a")] ∧ is_ok (try_consume "b" 6 st).1 = false.
Proof. by vm_compute. Qed.

(** The hint rounds down: a caller that waits as told is refused again. *)
Example retry_hint_too_early :
  let st := (consume_all [(0, "a")] (limiter_new 1)).2 in
  let now := second / 2 in
  (try_consume "a" now st).1 = Err 59 ∧ is_ok (try_consume "a" (now + 59 * second) (try_consume "a" now st).2).1 = false.
Proof. by vm_compute. Qed.
