(* ===== verification/McpTools.v ===== *)
(** * McpTools: the tools of the MCP server ([lumenqraph-mcp/src/tools.rs])

    Every tool is a function of the tables its statements read ([stmt n] is what
    the [n]th statement of the call sees, or the driver's error text), of the
    RPC node's answers and of the clock; only the simulating tools change state,
    the RPC budget ([McpLimiter]).  The crates' functions the calls go through
    are the class [McpLib].  [call_contract] passes no client to the limiter, so
    all clients share one key. *)
From S2P Require Import Prelude Text Containers Values Instances Serde Limbs Spec Codegen Enrich Encode XdrDecode Call Diff Sanitize Store Pagination Models Reenrich ReadRoute McpLimiter.
From Stdlib Require Import Ascii Sorting.Sorted.

Local Open Scope string_scope.
Local Open Scope Z_scope.

(** The tables. *)
Record McpDb := {
  contract_summaries : list ContractRow;
  contract_specs : list InterfaceRow;
  contract_spec_versions : list UpgradeRow;
  contract_state : list StateRow;
  contract_data : list KeyRow;
  events_table : list EventRow;
  token_transfers : list Transfer;
  amm_swaps : list AmmSwap;
  nft_events : list NftRow;
  liquidity_events : list LiquidityRow;
}.

(** ** Errors: what [anyhow] carries *)

Inductive ToolError : Type :=
  | UnknownTool (name : string)
  | MissingString (key : string)
  | InvalidId (contract_id : string)
  | Bail (text : string)
  | Upstream (text : string).

(** The crates a call goes through: [stellar_xdr], [chrono]'s serialiser, and
    the texts of [EncodeError] and [hex::FromHexError]. *)
Class McpLib := {
  muxed_from_str : string → result string MuxedAccount;
  key_from_str : string → result string (list ascii);
  addr_error : string → string;
  len_error : string;
  tx_to_base64 : Transaction → result string string;
  diagnostic_of_xdr : Z → Z → string → option DiagnosticEvent;
  from_base64 : string → option (list ascii);
  scval_of_xdr : list ascii → option (ScVal * list ascii);
  spec_entries : Z → Z → list ascii → list (result string ScSpecEntry);
  hash_order : gmap (list string) nat → list (list string * nat);
  encode_error_text : EncodeError → string;
  hex_error : string → string;
  printable : Z → bool;
  rfc3339 : DateTime → string;
}.

Definition error_text `{McpLib} (e : ToolError) : string :=
  match e with
  | UnknownTool name => "unknown tool " +:+ debug_str printable name
  | MissingString key => "missing string argument " +:+ debug_str printable key
  | InvalidId id => "invalid contract id " +:+ debug_str printable id +:+ ": expected a C… strkey"
  | Bail text => text
  | Upstream text => text
  end.

(** ** Arguments *)

(** [limit.unwrap_or(d).clamp(1, max)]. *)
Definition page_limit (d max : Z) (limit : option Z) : Z := clamp 1 max (default d limit).

Definition as_i64 (v : Json) : option Z := match v with JInt z => if in_i 64 z then Some z else None | _ => None end.

Definition int_arg (key : string) (args : Json) : option Z := json_get key args ≫= as_i64.
Definition opt_str_arg (key : string) (args : Json) : option string := json_get key args ≫= as_str.
Definition bool_arg (key : string) (args : Json) : option bool := json_get key args ≫= as_bool.

Definition str_arg (args : Json) (key : string) : result ToolError string :=
  ok_or (MissingString key) (json_get key args ≫= as_str).

Definition jopt {A} (f : A → Json) (o : option A) : Json := match o with Some a => f a | None => JNull end.

(** ** Rows as JSON *)

Section tools.
Context `{Stellar} `{SerdeJson} `{StrkeyCheck} `{McpLib}.
(** The order the database gives to [text]. *)
Context (collation : TotalOrder string).

Definition time_json (t : DateTime) : Json := JStr (rfc3339 t).

Definition contract_json (r : ContractRow) : Json := mk_obj [
  ("contract_id", JStr (c_contract_id r)); ("event_count", JInt (c_event_count r));
  ("first_seen_ledger", jopt JInt (c_first_seen_ledger r)); ("last_seen_ledger", jopt JInt (c_last_seen_ledger r))].

(** [serde_json::to_value] of an [EventRow]. *)
Definition event_row_json (e : EventRow) : Json := mk_obj [
  ("event_id", JStr (e_event_id e)); ("contract_id", JStr (e_contract_id e)); ("ledger", JInt (e_ledger e));
  ("ledger_closed_at", time_json (e_ledger_closed_at e)); ("event_type", JStr (e_event_type e));
  ("topics", JArr (JStr <$> e_topics e)); ("decoded_topics", e_decoded_topics e);
  ("event_name", opt_str (e_event_name e)); ("value", JStr (e_value e)); ("decoded_value", e_decoded_value e);
  ("enriched", jopt id (e_enriched e)); ("tx_hash", JStr (e_tx_hash e));
  ("in_successful_call", JBool (e_in_successful_call e)); ("paging_token", JStr (e_paging_token e));
  ("created_at", time_json (e_created_at e))].

Definition event_output (e : EventRow) (include_raw : bool) : Json :=
  if include_raw then event_row_json e
  else
    let params := default (e_decoded_value e) (e_enriched e) in
    mk_obj [
      ("event_id", JStr (e_event_id e)); ("contract_id", JStr (e_contract_id e)); ("ledger", JInt (e_ledger e));
      ("closed_at", time_json (e_ledger_closed_at e)); ("event_type", JStr (e_event_type e));
      ("name", opt_str (e_event_name e)); ("tx_hash", JStr (e_tx_hash e)); ("params", params);
      ("in_successful_call", JBool (e_in_successful_call e))].

Definition transfer_json (t : Transfer) : Json := mk_obj [
  ("event_id", JStr (t_event_id t)); ("contract_id", JStr (t_contract_id t)); ("from_addr", opt_str (t_from_addr t));
  ("to_addr", opt_str (t_to_addr t)); ("amount", JStr (t_amount t)); ("kind", JStr (t_kind t));
  ("ledger", JInt (t_ledger t)); ("ledger_closed_at", time_json (t_ledger_closed_at t))].

Definition swap_json (w : AmmSwap) : Json := mk_obj [
  ("event_id", JStr (w_event_id w)); ("contract_id", JStr (w_contract_id w)); ("sender", opt_str (w_sender w));
  ("sell_token", opt_str (w_sell_token w)); ("buy_token", opt_str (w_buy_token w));
  ("sell_amount", JStr (w_sell_amount w)); ("buy_amount", JStr (w_buy_amount w));
  ("raw_event_name", opt_str (w_raw_event_name w)); ("ledger", JInt (w_ledger w));
  ("ledger_closed_at", time_json (w_ledger_closed_at w))].

Definition nft_json (f : NftRow) : Json := mk_obj [
  ("event_id", JStr (f_event_id f)); ("contract_id", JStr (f_contract_id f)); ("event_kind", JStr (f_event_kind f));
  ("from_addr", opt_str (f_from_addr f)); ("to_addr", opt_str (f_to_addr f)); ("token_id", JStr (f_token_id f));
  ("ledger", JInt (f_ledger f)); ("ledger_closed_at", time_json (f_ledger_closed_at f))].

Definition liquidity_json (q : LiquidityRow) : Json := mk_obj [
  ("event_id", JStr (q_event_id q)); ("contract_id", JStr (q_contract_id q)); ("event_kind", JStr (q_event_kind q));
  ("provider", opt_str (q_provider q)); ("amount_a", opt_str (q_amount_a q)); ("amount_b", opt_str (q_amount_b q));
  ("shares", opt_str (q_shares q)); ("raw_event_name", opt_str (q_raw_event_name q));
  ("extra_amounts", jopt id (q_extra_amounts q)); ("ledger", JInt (q_ledger q));
  ("ledger_closed_at", time_json (q_ledger_closed_at q))].

Definition upgrade_json (u : UpgradeRow) : Json := mk_obj [
  ("version", JInt (u_version u)); ("wasm_hash", JStr (u_wasm_hash u));
  ("previous_wasm_hash", opt_str (u_previous_wasm_hash u)); ("diff", jopt id (u_diff u));
  ("breaking", JBool (u_breaking u)); ("observed_at", time_json (u_observed_at u))].

Definition state_json (z : StateRow) : Json := mk_obj [
  ("ledger", JInt (z_ledger z)); ("storage", z_storage z); ("captured_at", time_json (z_captured_at z))].

Definition key_json (k : KeyRow) : Json := mk_obj [
  ("key_hash", JStr (k_key_hash k)); ("key", k_key k); ("durability", JStr (k_durability k));
  ("ledger", JInt (k_ledger k)); ("value", k_value k); ("label", opt_str (k_label k))].

(** ** The tools *)

(** What a call meets: its statements, the node and the clock. *)
Record ToolEnv := {
  stmt : nat → result string McpDb;
  clock : Z;
  answer : string → result string RpcEnvelope;
}.

Definition read (env : ToolEnv) (n : nat) : result ToolError McpDb := map_err Upstream (stmt env n).

Definition count_json {A} (l : list A) : Json := JInt (Z.of_nat (length l)).

Definition list_contracts (env : ToolEnv) : result ToolError Json :=
  db ← read env 0;
  let rows := select (λ r, 0 <? c_event_count r) (λ a b, Z.compare (c_event_count b) (c_event_count a)) 200
                (contract_summaries db) in
  Ok (mk_obj [("contracts", JArr (contract_json <$> rows))]).

Definition validate_contract_id (contract_id : string) : result ToolError unit :=
  if is_valid_contract_id contract_id then Ok tt else Err (InvalidId contract_id).

Definition get_interface (env : ToolEnv) (contract_id : string) : result ToolError Json :=
  _ ← validate_contract_id contract_id;
  db ← read env 0;
  match List.find (λ r, String.eqb (i_contract_id r) contract_id) (contract_specs db) with
  | Some r => Ok (mk_obj [("contract_id", JStr contract_id); ("has_events", JBool (i_has_events r));
                          ("interface", i_interface r)])
  | None => Err (Bail ("no interface indexed for " +:+ contract_id +:+ " yet (the indexer fetches it on first sighting; Stellar Asset Contracts have no callable spec)"))
  end.

Definition get_upgrades (env : ToolEnv) (contract_id : string) (limit : option Z) : result ToolError Json :=
  _ ← validate_contract_id contract_id;
  db ← read env 0;
  let rows := select (λ u, String.eqb (u_contract_id u) contract_id) (newest_ledger u_version) (page_limit 20 200 limit)
                (contract_spec_versions db) in
  match rows with
  | [] => Err (Bail ("no interface history for " +:+ contract_id +:+ " yet (the indexer records a version on first sighting; Stellar Asset Contracts have no spec to track)"))
  | _ =>
      db' ← read env 1;
      let upgrades := base.filter (λ u, u_contract_id u = contract_id ∧ 1 < u_version u) (contract_spec_versions db') in
      Ok (mk_obj [("contract_id", JStr contract_id); ("upgrades_observed", count_json upgrades);
                  ("versions", JArr (upgrade_json <$> rows))])
  end.

Definition get_state (env : ToolEnv) (contract_id : string) (limit : option Z) : result ToolError Json :=
  _ ← validate_contract_id contract_id;
  db ← read env 0;
  let rows := select (λ z, String.eqb (z_contract_id z) contract_id) (newest_ledger z_ledger) (page_limit 1 200 limit)
                (contract_state db) in
  match rows with
  | [] => Err (Bail ("no state snapshots for " +:+ contract_id +:+ " (state indexing may be disabled on the indexer)"))
  | _ => Ok (mk_obj [("contract_id", JStr contract_id); ("count", count_json rows); ("versions", JArr (state_json <$> rows))])
  end.

Definition get_data (env : ToolEnv) (contract_id : string) (label : option string) (limit : option Z)
    : result ToolError Json :=
  _ ← validate_contract_id contract_id;
  db ← read env 0;
  let rows := select (λ _, true) (newest_ledger k_ledger) (page_limit 100 1000 limit)
                (latest_keys collation contract_id label (contract_data db)) in
  match rows with
  | [] => Err (Bail ("no per-key data snapshots for " +:+ contract_id +:+ " (key indexing may be disabled on the indexer)"))
  | _ => Ok (mk_obj [("contract_id", JStr contract_id); ("count", count_json rows); ("keys", JArr (key_json <$> rows))])
  end.

Definition newest {R} (key : R → Z * string) (a b : R) : comparison := desc_cmp collation (key a) (key b).

Definition event_key (e : EventRow) : Z * string := (e_ledger e, e_event_id e).

Definition query_events (env : ToolEnv) (contract_id : string) (event_name : option string) (limit : option Z)
    (include_raw : bool) : result ToolError Json :=
  _ ← validate_contract_id contract_id;
  db ← read env 0;
  let rows := select (λ e, String.eqb (e_contract_id e) contract_id && opt_matches event_name (e_event_name e))
                (newest event_key) (page_limit 20 200 limit) (events_table db) in
  Ok (mk_obj [("contract_id", JStr contract_id); ("count", count_json rows);
              ("events", JArr ((λ e, event_output e include_raw) <$> rows))]).

Definition get_event (env : ToolEnv) (event_id : string) (include_raw : bool) : result ToolError Json :=
  db ← read env 0;
  match List.find (λ e, String.eqb (e_event_id e) event_id) (events_table db) with
  | Some e => Ok (mk_obj [("event", event_output e include_raw)])
  | None => Err (Bail ("no event found with id '" +:+ event_id +:+ "'"))
  end.

Definition get_transaction_events (env : ToolEnv) (tx_hash : string) (limit : option Z) (successful_only : option bool)
    (include_raw : bool) : result ToolError Json :=
  db ← read env 0;
  let rows := select (λ e, String.eqb (e_tx_hash e) tx_hash
                           && match successful_only with None => true | Some b => Bool.eqb (e_in_successful_call e) b end)
                (λ a b, asc_cmp collation (event_key a) (event_key b)) (page_limit 100 1000 limit) (events_table db) in
  Ok (mk_obj [("tx_hash", JStr tx_hash); ("count", count_json rows);
              ("events", JArr ((λ e, event_output e include_raw) <$> rows))]).

(** Names in order of first appearance. *)
Fixpoint group_names (names : list string) : list string :=
  match names with
  | [] => []
  | n :: names' => n :: base.filter (λ m, m ≠ n) (group_names names')
  end.

(** [GROUP BY event_name]. *)
Definition count_names (names : list string) : list (string * Z) :=
  (λ n, (n, Z.of_nat (length (base.filter (λ m, m = n) names)))) <$> group_names names.

(** [ORDER BY count DESC, event_name ASC]. *)
Definition count_cmp (a b : string * Z) : comparison :=
  match Z.compare b.2 a.2 with
  | Eq => @tcmp string collation a.1 b.1
  | c => c
  end.

Definition get_contract_stats (env : ToolEnv) (contract_id : string) (limit : option Z) : result ToolError Json :=
  _ ← validate_contract_id contract_id;
  let limit := page_limit 10 50 limit in
  db ← read env 0;
  let total := base.filter (λ e, e_contract_id e = contract_id) (events_table db) in
  db' ← read env 1;
  let named := omap e_event_name (base.filter (λ e, e_contract_id e = contract_id) (events_table db')) in
  let counts := take (Z.to_nat limit) (sort_by count_cmp (count_names named)) in
  Ok (mk_obj [("contract_id", JStr contract_id); ("total_events", count_json total);
              ("counts", JArr ((λ c, mk_obj [("event_name", JStr c.1); ("count", JInt c.2)]) <$> counts))]).

Definition list_contract_functions (env : ToolEnv) (contract_id : string) : result ToolError Json :=
  _ ← validate_contract_id contract_id;
  interface ← get_interface env contract_id;
  let functions :=
    default (JArr []) (i ← json_get "interface" interface; obj ← as_object i; json_get "functions" (JObj obj)) in
  Ok (mk_obj [("contract_id", JStr contract_id);
              ("count", JInt (match as_array functions with Some l => Z.of_nat (length l) | None => 0 end));
              ("functions", functions)]).

Definition query_transfers (env : ToolEnv) (contract_id : string) (from to : option string) (limit : option Z)
    : result ToolError Json :=
  _ ← validate_contract_id contract_id;
  db ← read env 0;
  let rows := select (λ t, String.eqb (t_contract_id t) contract_id && opt_matches from (t_from_addr t)
                           && opt_matches to (t_to_addr t))
                (newest row_key) (page_limit 20 200 limit) (token_transfers db) in
  Ok (mk_obj [("contract_id", JStr contract_id); ("count", count_json rows); ("transfers", JArr (transfer_json <$> rows))]).

Definition swap_key (w : AmmSwap) : Z * string := (w_ledger w, w_event_id w).

Definition query_swaps (env : ToolEnv) (contract_id : string) (sender sell_token buy_token : option string)
    (limit : option Z) : result ToolError Json :=
  _ ← validate_contract_id contract_id;
  db ← read env 0;
  let rows := select (λ w, String.eqb (w_contract_id w) contract_id && opt_matches sender (w_sender w)
                           && opt_matches sell_token (w_sell_token w) && opt_matches buy_token (w_buy_token w))
                (newest swap_key) (page_limit 20 200 limit) (amm_swaps db) in
  Ok (mk_obj [("contract_id", JStr contract_id); ("count", count_json rows); ("swaps", JArr (swap_json <$> rows))]).

(** The [matches!] on an optional kind. *)
Definition check_kind (kinds : list string) (kind : option string) : result ToolError unit :=
  match kind with
  | Some k => if bool_decide (k ∈ kinds) then Ok tt else Err (Bail ("kind must be one of: " +:+ join ", " kinds))
  | None => Ok tt
  end.

Definition nft_key (f : NftRow) : Z * string := (f_ledger f, f_event_id f).

Definition query_nft_events (env : ToolEnv) (contract_id : string) (kind from to token_id : option string)
    (limit : option Z) : result ToolError Json :=
  _ ← validate_contract_id contract_id;
  _ ← check_kind ["mint"; "transfer"; "burn"] kind;
  db ← read env 0;
  let rows := select (λ f, String.eqb (f_contract_id f) contract_id && opt_matches kind (Some (f_event_kind f))
                           && opt_matches from (f_from_addr f) && opt_matches to (f_to_addr f)
                           && opt_matches token_id (Some (f_token_id f)))
                (newest nft_key) (page_limit 20 200 limit) (nft_events db) in
  Ok (mk_obj [("contract_id", JStr contract_id); ("count", count_json rows); ("nft_events", JArr (nft_json <$> rows))]).

Definition liquidity_key (q : LiquidityRow) : Z * string := (q_ledger q, q_event_id q).

Definition query_liquidity_events (env : ToolEnv) (contract_id : string) (kind provider : option string)
    (limit : option Z) : result ToolError Json :=
  _ ← validate_contract_id contract_id;
  _ ← check_kind ["add"; "remove"] kind;
  db ← read env 0;
  let rows := select (λ q, String.eqb (q_contract_id q) contract_id && opt_matches kind (Some (q_event_kind q))
                           && opt_matches provider (q_provider q))
                (newest liquidity_key) (page_limit 20 200 limit) (liquidity_events db) in
  Ok (mk_obj [("contract_id", JStr contract_id); ("count", count_json rows);
              ("liquidity_events", JArr (liquidity_json <$> rows))]).

(** *** Interfaces *)

Definition decode_section (hex_section : string) : result ToolError (list ascii) :=
  ok_or (Upstream (hex_error hex_section)) (hex_decode hex_section).

(** The [n]th statement of the call reads the version. *)
Definition load_spec_at_version (env : ToolEnv) (n : nat) (contract_id : string) (version : Z)
    : result ToolError ContractSpec :=
  db ← read env n;
  row ← ok_or (Bail ("no version " +:+ show_i version +:+ " recorded for this contract"))
          (List.find (λ u, String.eqb (u_contract_id u) contract_id && (u_version u =? version)) (contract_spec_versions db));
  if String.eqb (u_spec_section row) "" then Err (Bail ("spec section for version " +:+ show_i version +:+ " is empty"))
  else
    section ← decode_section (u_spec_section row);
    ok_or (Bail ("spec section for version " +:+ show_i version +:+ " contains invalid XDR or has no entries"))
      (from_spec_xdr_simple spec_entries section).

Definition diff_contract_interface (env : ToolEnv) (contract_id : string) (from to : option Z) : result ToolError Json :=
  _ ← validate_contract_id contract_id;
  from ← ok_or (Bail "missing required argument 'from'") from;
  to ← ok_or (Bail "missing required argument 'to'") to;
  if (from <? 1) || (to <? 1) then Err (Bail "version numbers must be >= 1")
  else if from =? to then Err (Bail "`from` and `to` are the same version; nothing to diff")
  else
    old_spec ← load_spec_at_version env 0 contract_id from;
    new_spec ← load_spec_at_version env 1 contract_id to;
    Ok (mk_obj [("contract_id", JStr contract_id); ("from", JInt from); ("to", JInt to);
                ("diff", to_json (between old_spec new_spec))]).

(** *** Calls *)

(** [RpcClient::simulate] of [rpc.rs] after the exchange. *)
Definition mcp_outcome (env : RpcEnvelope) : result string SimOutcome :=
  match rpc_error env with
  | Some e => Err ("rpc error: " +:+ e)
  | None =>
      r ← ok_or "rpc returned no result" (rpc_result env);
      match sr_error r with
      | Some err => Ok (SimError err)
      | None =>
          match (v ← sr_results r; head v) with
          | Some xdr => Ok (SimOk xdr (sr_events r) (sr_min_resource_fee r) (sr_latest_ledger r))
          | None => Ok (SimError "simulation returned no value")
          end
      end
  end.

Definition mcp_simulate (env : ToolEnv) (tx : string) : result ToolError SimOutcome :=
  map_err Upstream (envelope ← answer env tx; mcp_outcome envelope).

Definition SHARED_CLIENT : string := "".

Definition check_size (function : string) (args : Json) : result ToolError unit :=
  let args_len := len (serde_to_string args) in
  let estimated_body_size := len function + args_len in
  if 256 * 1024 <? estimated_body_size
  then Err (Bail ("MCP RPC request too large: " +:+ show_u estimated_body_size +:+ " bytes (limit: 262144 bytes)"))
  else if 128 * 1024 <? args_len
  then Err (Bail ("MCP RPC args too large: " +:+ show_u args_len +:+ " bytes (limit: 131072 bytes)"))
  else Ok tt.

(** The answer to a simulation. *)
Definition call_answer (contract_id function : string) (preview : bool) (call : EncodedCall) (sp : option ContractSpec)
    (outcome : SimOutcome) : result ToolError Json :=
  match outcome with
  | SimOk result_xdr events min_resource_fee latest_ledger =>
      Ok (mk_obj ([("contract_id", JStr contract_id); ("function", JStr function);
                   ("result", decode_result from_base64 scval_of_xdr result_xdr call sp);
                   ("simulated_at_ledger", JInt latest_ledger)]
                  ++ if preview
                     then [("events", JArr (decode_events diagnostic_of_xdr hash_order events contract_id sp));
                           ("min_resource_fee", opt_str min_resource_fee)]
                     else [])%list)
  | SimError msg => Err (Bail ("simulation failed: " +:+ sanitize_simulation_error msg))
  end.

Definition encode_for_call (section : list ascii) (contract_id function : string) (args : Json)
    (source_account : option string) : result ToolError EncodedCall :=
  map_err (λ e, Bail (encode_error_text e))
    (encode_call muxed_from_str key_from_str addr_error len_error tx_to_base64 spec_entries section contract_id
       function args source_account).

(** The part of [call_contract] after the budget. *)
Definition simulate_function (env : ToolEnv) (contract_id function : string) (args : Json)
    (source_account : option string) (preview : bool) : result ToolError Json :=
  db ← read env 0;
  hex_section ← ok_or (Bail ("no interface indexed for " +:+ contract_id +:+ "; cannot type-check the call"))
    (r ← List.find (λ r, String.eqb (i_contract_id r) contract_id) (contract_specs db);
     if String.eqb (i_spec_section r) "" then None else Some (i_spec_section r));
  section ← decode_section hex_section;
  call ← encode_for_call section contract_id function args source_account;
  outcome ← mcp_simulate env (tx_xdr call);
  call_answer contract_id function preview call (from_spec_xdr_simple spec_entries section) outcome.

Definition call_contract (env : ToolEnv) (contract_id function : string) (args : Json)
    (source_account : option string) (preview : bool) (limiter : RpcRateLimiter)
    : result ToolError Json * RpcRateLimiter :=
  match (_ ← validate_contract_id contract_id; check_size function args) with
  | Err e => (Err e, limiter)
  | Ok tt =>
      let '(admitted, limiter) := try_consume SHARED_CLIENT (clock env) limiter in
      match admitted with
      | Err _ => (Err (Bail "MCP RPC rate limit exceeded: too many simulation calls in the last minute"), limiter)
      | Ok tt => (simulate_function env contract_id function args source_account preview, limiter)
      end
  end.

(** *** Dispatch *)

Definition Handler : Type := RpcRateLimiter → result ToolError Json * RpcRateLimiter.

(** A tool that leaves the budget alone. *)
Definition reads_only (r : result ToolError Json) : Handler := λ limiter, (r, limiter).

Definition include_raw_arg (args : Json) : bool := default false (bool_arg "include_raw" args).

(** The arms of the [match] on the name, in order. *)
Definition arms (env : ToolEnv) (args : Json) : list (string * Handler) := [
  ("list_contracts", reads_only (list_contracts env));
  ("get_contract_interface", reads_only (id ← str_arg args "contract_id"; get_interface env id));
  ("get_contract_upgrades", reads_only (id ← str_arg args "contract_id"; get_upgrades env id (int_arg "limit" args)));
  ("get_contract_state", reads_only (id ← str_arg args "contract_id"; get_state env id (int_arg "limit" args)));
  ("get_contract_data",
     reads_only (id ← str_arg args "contract_id"; get_data env id (opt_str_arg "label" args) (int_arg "limit" args)));
  ("query_events",
     reads_only (id ← str_arg args "contract_id";
                 query_events env id (opt_str_arg "event_name" args) (int_arg "limit" args) (include_raw_arg args)));
  ("get_event", reads_only (id ← str_arg args "event_id"; get_event env id (include_raw_arg args)));
  ("get_transaction_events",
     reads_only (tx ← str_arg args "tx_hash";
                 get_transaction_events env tx (int_arg "limit" args) (bool_arg "successful_only" args) (include_raw_arg args)));
  ("get_contract_stats", reads_only (id ← str_arg args "contract_id"; get_contract_stats env id (int_arg "limit" args)));
  ("list_contract_functions", reads_only (id ← str_arg args "contract_id"; list_contract_functions env id));
  ("call_contract", λ limiter,
     match (id ← str_arg args "contract_id"; f ← str_arg args "function"; Ok (id, f)) with
     | Err e => (Err e, limiter)
     | Ok (id, f) => call_contract env id f (default JNull (json_get "args" args)) None false limiter
     end);
  ("simulate_call", λ limiter,
     match (id ← str_arg args "contract_id"; f ← str_arg args "function"; Ok (id, f)) with
     | Err e => (Err e, limiter)
     | Ok (id, f) =>
         call_contract env id f (default JNull (json_get "args" args)) (opt_str_arg "source_account" args) true limiter
     end);
  ("query_transfers",
     reads_only (id ← str_arg args "contract_id";
                 query_transfers env id (opt_str_arg "from" args) (opt_str_arg "to" args) (int_arg "limit" args)));
  ("diff_contract_interface",
     reads_only (id ← str_arg args "contract_id"; diff_contract_interface env id (int_arg "from" args) (int_arg "to" args)));
  ("query_swaps",
     reads_only (id ← str_arg args "contract_id";
                 query_swaps env id (opt_str_arg "sender" args) (opt_str_arg "sell_token" args) (opt_str_arg "buy_token" args)
                   (int_arg "limit" args)));
  ("query_nft_events",
     reads_only (id ← str_arg args "contract_id";
                 query_nft_events env id (opt_str_arg "kind" args) (opt_str_arg "from" args) (opt_str_arg "to" args)
                   (opt_str_arg "token_id" args) (int_arg "limit" args)));
  ("query_liquidity_events",
     reads_only (id ← str_arg args "contract_id";
                 query_liquidity_events env id (opt_str_arg "kind" args) (opt_str_arg "provider" args) (int_arg "limit" args)))].

Definition tool_call (env : ToolEnv) (name : string) (args : Json) : Handler := λ limiter,
  match List.find (λ arm, String.eqb arm.1 name) (arms env args) with
  | Some arm => arm.2 limiter
  | None => (Err (UnknownTool name), limiter)
  end.
End tools.

(** ** The catalogue *)

Definition base_output : Json := mk_obj [("type", JStr "object"); ("properties", mk_obj []); ("additionalProperties", JBool true)].

Definition compact_event_schema : Json := mk_obj [
  ("type", JStr "object");
  ("properties", mk_obj [
    ("event_id", mk_obj [("type", JStr "string")]);
    ("contract_id", mk_obj [("type", JStr "string")]);
    ("ledger", mk_obj [("type", JStr "integer")]);
    ("closed_at", mk_obj [("type", JStr "string"); ("format", JStr "date-time")]);
    ("event_type", mk_obj [("type", JStr "string"); ("enum", JArr [JStr "contract"; JStr "system"; JStr "diagnostic"])]);
    ("name", mk_obj [("type", JArr [JStr "string"; JStr "null"])]);
    ("tx_hash", mk_obj [("type", JStr "string")]);
    ("params", mk_obj []);
    ("in_successful_call", mk_obj [("type", JStr "boolean")])]);
  ("required", JArr [JStr "event_id"; JStr "contract_id"; JStr "ledger"; JStr "closed_at"; JStr "event_type"; JStr "name"; JStr "tx_hash"; JStr "params"; JStr "in_successful_call"]);
  ("additionalProperties", JBool false)].

Definition full_event_schema : Json := mk_obj [
  ("type", JStr "object");
  ("properties", mk_obj [
    ("event_id", mk_obj [("type", JStr "string")]);
    ("contract_id", mk_obj [("type", JStr "string")]);
    ("ledger", mk_obj [("type", JStr "integer")]);
    ("ledger_closed_at", mk_obj [("type", JStr "string"); ("format", JStr "date-time")]);
    ("event_type", mk_obj [("type", JStr "string"); ("enum", JArr [JStr "contract"; JStr "system"; JStr "diagnostic"])]);
    ("topics", mk_obj [("type", JStr "array"); ("items", mk_obj [("type", JStr "string")])]);
    ("decoded_topics", mk_obj []);
    ("event_name", mk_obj [("type", JArr [JStr "string"; JStr "null"])]);
    ("value", mk_obj [("type", JStr "string")]);
    ("decoded_value", mk_obj []);
    ("enriched", mk_obj []);
    ("tx_hash", mk_obj [("type", JStr "string")]);
    ("in_successful_call", mk_obj [("type", JStr "boolean")]);
    ("paging_token", mk_obj [("type", JStr "string")]);
    ("created_at", mk_obj [("type", JStr "string"); ("format", JStr "date-time")])]);
  ("required", JArr [JStr "event_id"; JStr "contract_id"; JStr "ledger"; JStr "ledger_closed_at"; JStr "event_type"; JStr "topics"; JStr "decoded_topics"; JStr "event_name"; JStr "value"; JStr "decoded_value"; JStr "enriched"; JStr "tx_hash"; JStr "in_successful_call"; JStr "paging_token"; JStr "created_at"]);
  ("additionalProperties", JBool false)].

Definition event_schema : Json := mk_obj [("oneOf", JArr [compact_event_schema; full_event_schema])].

Definition tool_list_contracts : Json := mk_obj [
  ("name", JStr "list_contracts");
  ("description", JStr "List Soroban contracts the indexer has seen events for, with per-contract event counts and ledger ranges.");
  ("inputSchema", mk_obj [("type", JStr "object"); ("properties", mk_obj []); ("additionalProperties", JBool false)]);
  ("outputSchema", base_output)].

Definition tool_get_contract_interface : Json := mk_obj [
  ("name", JStr "get_contract_interface");
  ("description", JStr "Get a contract's decoded on-chain interface (functions with typed inputs/outputs, event schemas, and user-defined types), parsed from its deployed WASM. Use this to discover what a contract can do before calling it.");
  ("inputSchema", mk_obj [
    ("type", JStr "object");
    ("properties", mk_obj [("contract_id", mk_obj [("type", JStr "string"); ("description", JStr "Contract id (C...)")])]);
    ("required", JArr [JStr "contract_id"]);
    ("additionalProperties", JBool false)]);
  ("outputSchema", base_output)].

Definition tool_get_contract_upgrades : Json := mk_obj [
  ("name", JStr "get_contract_upgrades");
  ("description", JStr "Get a contract's interface history: every version of its on-chain interface the indexer has observed, newest first, with a semantic diff against the previous version (functions/events/types added, removed, or changed) and whether that change was breaking. Soroban contracts are upgradable in place, so use this to answer 'has this contract changed?', 'what changed and when?', or 'is it safe to keep calling it?'.");
  ("inputSchema", mk_obj [
    ("type", JStr "object");
    ("properties", mk_obj [
      ("contract_id", mk_obj [("type", JStr "string"); ("description", JStr "Contract id (C...)")]);
      ("limit", mk_obj [
        ("type", JStr "integer");
        ("description", JStr "How many versions, newest first (1-200, default 20)")])]);
    ("required", JArr [JStr "contract_id"]);
    ("additionalProperties", JBool false)]);
  ("outputSchema", base_output)].

Definition tool_get_contract_state : Json := mk_obj [
  ("name", JStr "get_contract_state");
  ("description", JStr "Get a contract's current on-chain state (its decoded instance storage: admin, config, counters, …), and optionally recent historical versions. Requires the indexer's state indexing to be enabled.");
  ("inputSchema", mk_obj [
    ("type", JStr "object");
    ("properties", mk_obj [
      ("contract_id", mk_obj [("type", JStr "string"); ("description", JStr "Contract id (C...)")]);
      ("limit", mk_obj [
        ("type", JStr "integer");
        ("description", JStr "How many versions, newest first (1-200, default 1 = current state)")])]);
    ("required", JArr [JStr "contract_id"]);
    ("additionalProperties", JBool false)]);
  ("outputSchema", base_output)].

Definition tool_get_contract_data : Json := mk_obj [
  ("name", JStr "get_contract_data");
  ("description", JStr "Get a contract's per-key state: the current value of individual storage entries such as token holder balances (Balance(Address)), discovered from the contract's events. Requires the indexer's key indexing to be enabled.");
  ("inputSchema", mk_obj [
    ("type", JStr "object");
    ("properties", mk_obj [
      ("contract_id", mk_obj [("type", JStr "string"); ("description", JStr "Contract id (C...)")]);
      ("label", mk_obj [("type", JStr "string"); ("description", JStr "Optional label filter, e.g. 'balance'")]);
      ("limit", mk_obj [
        ("type", JStr "integer");
        ("description", JStr "Max keys, latest value of each (1-1000, default 100)")])]);
    ("required", JArr [JStr "contract_id"]);
    ("additionalProperties", JBool false)]);
  ("outputSchema", base_output)].

Definition tool_query_events : Json := mk_obj [
  ("name", JStr "query_events");
  ("description", JStr "Query recent indexed events for a contract, newest first. Results use a compact event shape with params set to the enriched record when available, otherwise the decoded value. Set include_raw=true to return the complete event rows, including raw XDR.");
  ("inputSchema", mk_obj [
    ("type", JStr "object");
    ("properties", mk_obj [
      ("contract_id", mk_obj [("type", JStr "string"); ("description", JStr "Contract id (C...)")]);
      ("event_name", mk_obj [("type", JStr "string"); ("description", JStr "Optional event name filter, e.g. 'transfer'")]);
      ("limit", mk_obj [("type", JStr "integer"); ("description", JStr "Max events (1-200, default 20)")]);
      ("include_raw", mk_obj [
        ("type", JStr "boolean");
        ("description", JStr "Return complete event rows including raw XDR (default false)")])]);
    ("required", JArr [JStr "contract_id"]);
    ("additionalProperties", JBool false)]);
  ("outputSchema", mk_obj [
    ("type", JStr "object");
    ("properties", mk_obj [
      ("contract_id", mk_obj [("type", JStr "string")]);
      ("count", mk_obj [("type", JStr "integer")]);
      ("events", mk_obj [("type", JStr "array"); ("items", event_schema)])]);
    ("required", JArr [JStr "contract_id"; JStr "count"; JStr "events"]);
    ("additionalProperties", JBool false)])].

Definition tool_get_event : Json := mk_obj [
  ("name", JStr "get_event");
  ("description", JStr "Fetch a single indexed event by its unique event id. Results use a compact event shape with params set to the enriched record when available, otherwise the decoded value. Set include_raw=true to return the complete row, including raw XDR.");
  ("inputSchema", mk_obj [
    ("type", JStr "object");
    ("properties", mk_obj [
      ("event_id", mk_obj [("type", JStr "string"); ("description", JStr "Unique event id")]);
      ("include_raw", mk_obj [
        ("type", JStr "boolean");
        ("description", JStr "Return the complete event row including raw XDR (default false)")])]);
    ("required", JArr [JStr "event_id"]);
    ("additionalProperties", JBool false)]);
  ("outputSchema", mk_obj [
    ("type", JStr "object");
    ("properties", mk_obj [("event", event_schema)]);
    ("required", JArr [JStr "event"]);
    ("additionalProperties", JBool false)])].

Definition tool_get_transaction_events : Json := mk_obj [
  ("name", JStr "get_transaction_events");
  ("description", JStr "List every indexed event for a transaction in on-chain emission order. Results use a compact event shape with params set to the enriched record when available, otherwise the decoded value. Set include_raw=true to return complete event rows, including raw XDR.");
  ("inputSchema", mk_obj [
    ("type", JStr "object");
    ("properties", mk_obj [
      ("tx_hash", mk_obj [("type", JStr "string"); ("description", JStr "Transaction hash (hex or XDR string)")]);
      ("limit", mk_obj [("type", JStr "integer"); ("description", JStr "Max events to return (1-1000, default 100)")]);
      ("successful_only", mk_obj [("type", JStr "boolean"); ("description", JStr "Only include events from successful calls")]);
      ("include_raw", mk_obj [
        ("type", JStr "boolean");
        ("description", JStr "Return complete event rows including raw XDR (default false)")])]);
    ("required", JArr [JStr "tx_hash"]);
    ("additionalProperties", JBool false)]);
  ("outputSchema", mk_obj [
    ("type", JStr "object");
    ("properties", mk_obj [
      ("tx_hash", mk_obj [("type", JStr "string")]);
      ("count", mk_obj [("type", JStr "integer")]);
      ("events", mk_obj [("type", JStr "array"); ("items", event_schema)])]);
    ("required", JArr [JStr "tx_hash"; JStr "count"; JStr "events"]);
    ("additionalProperties", JBool false)])].

Definition tool_get_contract_stats : Json := mk_obj [
  ("name", JStr "get_contract_stats");
  ("description", JStr "Summarize a contract's event activity by event name and total counts, helping answer 'how active is this contract?'.");
  ("inputSchema", mk_obj [
    ("type", JStr "object");
    ("properties", mk_obj [
      ("contract_id", mk_obj [("type", JStr "string"); ("description", JStr "Contract id (C...)")]);
      ("limit", mk_obj [
        ("type", JStr "integer");
        ("description", JStr "Maximum top event names to return (1-50, default 10)")])]);
    ("required", JArr [JStr "contract_id"]);
    ("additionalProperties", JBool false)]);
  ("outputSchema", base_output)].

Definition tool_list_contract_functions : Json := mk_obj [
  ("name", JStr "list_contract_functions");
  ("description", JStr "List the callable functions for a contract, including typed inputs and outputs, without returning the full interface payload.");
  ("inputSchema", mk_obj [
    ("type", JStr "object");
    ("properties", mk_obj [("contract_id", mk_obj [("type", JStr "string"); ("description", JStr "Contract id (C...)")])]);
    ("required", JArr [JStr "contract_id"]);
    ("additionalProperties", JBool false)]);
  ("outputSchema", base_output)].

Definition tool_call_contract : Json := mk_obj [
  ("name", JStr "call_contract");
  ("description", JStr "Invoke a contract's view function READ-ONLY (via RPC simulation) and return a typed result. Arguments are type-checked against the contract's on-chain spec. Discover callable functions with get_contract_interface first.");
  ("inputSchema", mk_obj [
    ("type", JStr "object");
    ("properties", mk_obj [
      ("contract_id", mk_obj [("type", JStr "string"); ("description", JStr "Contract id (C...)")]);
      ("function", mk_obj [("type", JStr "string"); ("description", JStr "Function name to invoke")]);
      ("args", mk_obj [("description", JStr "Arguments as an object keyed by parameter name, or a positional array")])]);
    ("required", JArr [JStr "contract_id"; JStr "function"]);
    ("additionalProperties", JBool false)]);
  ("outputSchema", base_output)].

Definition tool_simulate_call : Json := mk_obj [
  ("name", JStr "simulate_call");
  ("description", JStr "Dry-run ANY contract call (including state-changing ones like transfer/deposit) WITHOUT submitting it, and preview the typed result, the events it would emit, and its resource cost. Nothing is signed or broadcast to the network by Lumenqraph. Use this to answer 'what would happen if I called X?'. TRUST BOUNDARY: This relies on the Soroban RPC's simulateTransaction endpoint to return without submitting to the network. Lumenqraph does not sign or broadcast anything, but the safety guarantee ultimately depends on the RPC endpoint's simulation semantics.");
  ("inputSchema", mk_obj [
    ("type", JStr "object");
    ("properties", mk_obj [
      ("contract_id", mk_obj [("type", JStr "string"); ("description", JStr "Contract id (C...)")]);
      ("function", mk_obj [("type", JStr "string"); ("description", JStr "Function name to simulate")]);
      ("args", mk_obj [("description", JStr "Arguments as an object keyed by parameter name, or a positional array")]);
      ("source_account", mk_obj [("type", JStr "string"); ("description", JStr "Optional G... source account for the simulation")])]);
    ("required", JArr [JStr "contract_id"; JStr "function"]);
    ("additionalProperties", JBool false)]);
  ("outputSchema", base_output)].

Definition tool_query_transfers : Json := mk_obj [
  ("name", JStr "query_transfers");
  ("description", JStr "Query materialized token transfers for a contract, newest first. Each transfer includes from/to addresses and amount. Optionally filter by sender or recipient address.");
  ("inputSchema", mk_obj [
    ("type", JStr "object");
    ("properties", mk_obj [
      ("contract_id", mk_obj [("type", JStr "string"); ("description", JStr "Contract id (C...)")]);
      ("from", mk_obj [("type", JStr "string"); ("description", JStr "Optional sender address filter")]);
      ("to", mk_obj [("type", JStr "string"); ("description", JStr "Optional recipient address filter")]);
      ("limit", mk_obj [("type", JStr "integer"); ("description", JStr "Max transfers (1-200, default 20)")])]);
    ("required", JArr [JStr "contract_id"]);
    ("additionalProperties", JBool false)]);
  ("outputSchema", base_output)].

Definition tool_diff_contract_interface : Json := mk_obj [
  ("name", JStr "diff_contract_interface");
  ("description", JStr "Compute what changed between any two versions of a contract's interface. Useful for understanding breaking changes between non-consecutive versions without assembling a chain of diffs.");
  ("inputSchema", mk_obj [
    ("type", JStr "object");
    ("properties", mk_obj [
      ("contract_id", mk_obj [("type", JStr "string"); ("description", JStr "Contract id (C...)")]);
      ("from", mk_obj [("type", JStr "integer"); ("description", JStr "Starting version")]);
      ("to", mk_obj [("type", JStr "integer"); ("description", JStr "Ending version")])]);
    ("required", JArr [JStr "contract_id"; JStr "from"; JStr "to"]);
    ("additionalProperties", JBool false)]);
  ("outputSchema", base_output)].

Definition tool_query_swaps : Json := mk_obj [
  ("name", JStr "query_swaps");
  ("description", JStr "Query materialized AMM swap events for a contract, newest first. Each record includes sender, sell/buy token addresses, and sell/buy amounts. Optionally filter by sender, sell token, or buy token.");
  ("inputSchema", mk_obj [
    ("type", JStr "object");
    ("properties", mk_obj [
      ("contract_id", mk_obj [("type", JStr "string"); ("description", JStr "Contract id (C...)")]);
      ("sender", mk_obj [("type", JStr "string"); ("description", JStr "Optional sender address filter")]);
      ("sell_token", mk_obj [("type", JStr "string"); ("description", JStr "Optional sell token address filter")]);
      ("buy_token", mk_obj [("type", JStr "string"); ("description", JStr "Optional buy token address filter")]);
      ("limit", mk_obj [("type", JStr "integer"); ("description", JStr "Max swaps (1-200, default 20)")])]);
    ("required", JArr [JStr "contract_id"]);
    ("additionalProperties", JBool false)]);
  ("outputSchema", base_output)].

Definition tool_query_nft_events : Json := mk_obj [
  ("name", JStr "query_nft_events");
  ("description", JStr "Query materialized NFT events (mint/transfer/burn) for a contract, newest first. Optionally filter by event kind, from/to address, or token id.");
  ("inputSchema", mk_obj [
    ("type", JStr "object");
    ("properties", mk_obj [
      ("contract_id", mk_obj [("type", JStr "string"); ("description", JStr "Contract id (C...)")]);
      ("kind", mk_obj [("type", JStr "string"); ("description", JStr "Optional kind filter: mint | transfer | burn")]);
      ("from", mk_obj [("type", JStr "string"); ("description", JStr "Optional sender address filter")]);
      ("to", mk_obj [("type", JStr "string"); ("description", JStr "Optional recipient address filter")]);
      ("token_id", mk_obj [("type", JStr "string"); ("description", JStr "Optional token id filter")]);
      ("limit", mk_obj [("type", JStr "integer"); ("description", JStr "Max events (1-200, default 20)")])]);
    ("required", JArr [JStr "contract_id"]);
    ("additionalProperties", JBool false)]);
  ("outputSchema", base_output)].

Definition tool_query_liquidity_events : Json := mk_obj [
  ("name", JStr "query_liquidity_events");
  ("description", JStr "Query materialized liquidity events (add/remove) for a contract, newest first. Optionally filter by event kind or provider address.");
  ("inputSchema", mk_obj [
    ("type", JStr "object");
    ("properties", mk_obj [
      ("contract_id", mk_obj [("type", JStr "string"); ("description", JStr "Contract id (C...)")]);
      ("kind", mk_obj [("type", JStr "string"); ("description", JStr "Optional kind filter: add | remove")]);
      ("provider", mk_obj [("type", JStr "string"); ("description", JStr "Optional liquidity provider address filter")]);
      ("limit", mk_obj [("type", JStr "integer"); ("description", JStr "Max events (1-200, default 20)")])]);
    ("required", JArr [JStr "contract_id"]);
    ("additionalProperties", JBool false)]);
  ("outputSchema", base_output)].

(** What [tools/list] returns. *)
Definition definitions : Json := JArr [
  tool_list_contracts; tool_get_contract_interface; tool_get_contract_upgrades;
  tool_get_contract_state; tool_get_contract_data; tool_query_events;
  tool_get_event; tool_get_transaction_events; tool_get_contract_stats;
  tool_list_contract_functions; tool_call_contract; tool_simulate_call;
  tool_query_transfers; tool_diff_contract_interface; tool_query_swaps;
  tool_query_nft_events; tool_query_liquidity_events].

(** What a definition says of a tool. *)
Definition tool_list : list Json := default [] (as_array definitions).
Definition tool_name (t : Json) : string := default "" (json_get "name" t ≫= as_str).
Definition tool_names : list string := tool_name <$> tool_list.

Definition required_of (schema : Json) : list string :=
  match json_get "required" schema ≫= as_array with Some l => omap as_str l | None => [] end.
Definition input_schema (t : Json) : Json := default JNull (json_get "inputSchema" t).

Definition property_type (t : Json) (key : string) : option string :=
  props ← json_get "properties" (input_schema t); p ← json_get key props; ty ← json_get "type" p; as_str ty.

(** The type an argument is read at. *)
Definition arg_present (ty : string) (key : string) (args : Json) : bool :=
  if String.eqb ty "string" then bool_decide (is_Some (opt_str_arg key args))
  else bool_decide (is_Some (int_arg key args)).

(** ** The catalogue and the dispatch agree *)

Section catalogue.
Context `{Stellar} `{SerdeJson} `{StrkeyCheck} `{McpLib} (collation : TotalOrder string).

Lemma arm_names env args : (arms collation env args).*1 = tool_names.
Proof. by vm_compute. Qed.

(** Errors other than those of the dispatch. *)
Definition own_error (e : ToolError) : Prop :=
  match e with UnknownTool _ | MissingString _ => False | _ => True end.

Definition own {A} (r : result ToolError A) : Prop := match r with Ok _ => True | Err e => own_error e end.

Lemma own_bind {A B} (r : result ToolError A) (f : A → result ToolError B) :
  own r → (∀ a, own (f a)) → own (a ← r; f a).
Proof. destruct r; cbn; eauto. Qed.

Lemma own_read env n : own (read env n).
Proof. unfold read. by destruct (stmt env n). Qed.

Lemma own_validate id : own (validate_contract_id id).
Proof. unfold validate_contract_id. by case_match. Qed.

Lemma own_ok_or {A} e (o : option A) : own_error e → own (ok_or e o).
Proof. by destruct o. Qed.

Lemma own_kind kinds kind : own (check_kind kinds kind).
Proof. unfold check_kind. by repeat case_match. Qed.

Lemma own_decode hex : own (decode_section hex).
Proof. by apply own_ok_or. Qed.

Lemma own_size f a : own (check_size f a).
Proof. unfold check_size. by repeat case_match. Qed.

Ltac own_tac :=
  repeat first
    [ apply own_read | apply own_validate | apply own_kind | apply own_decode | apply own_size
    | apply own_bind; [|intros ?] | apply own_ok_or; exact I | exact I | progress case_match ].

Lemma own_simulate env id f a src preview : own (simulate_function env id f a src preview).
Proof.
  unfold simulate_function. own_tac.
  - unfold encode_for_call. by destruct (encode_call _ _ _ _ _ _ _ _ _ _ _).
  - unfold mcp_simulate. by destruct (_ ← _; _).
  - unfold call_answer. by case_match.
Qed.

Lemma own_call env id f a src preview limiter : own (call_contract env id f a src preview limiter).1.
Proof.
  unfold call_contract. pose proof (own_bind (validate_contract_id id) (λ _, check_size f a) (own_validate id)
    (λ _, own_size f a)) as Hown.
  destruct (_ ← _; _) as [[]|e]; [|done]. destruct (try_consume _ _ _) as [[[]|] l]; [|done].
  apply own_simulate.
Qed.

Lemma own_load env n id v : own (load_spec_at_version env n id v).
Proof. unfold load_spec_at_version. own_tac. Qed.

(** A handler reads its string arguments [keys] first and fails for the first it
    misses, without touching the budget; it answers only if the integers [ints]
    are there too. *)
Definition reads_after (keys ints : list string) (args : Json) (h : Handler) : Prop :=
  ∀ limiter,
    match (h limiter).1 with
    | Ok _ => Forall (λ k, is_Some (opt_str_arg k args)) keys ∧ Forall (λ k, is_Some (int_arg k args)) ints
    | Err (UnknownTool _) => False
    | Err (MissingString k) => k ∈ keys ∧ opt_str_arg k args = None ∧ (h limiter).2 = limiter
    | Err _ => Forall (λ k, is_Some (opt_str_arg k args)) keys
    end.

Lemma str_arg_eq args k : str_arg args k = match opt_str_arg k args with Some s => Ok s | None => Err (MissingString k) end.
Proof. unfold str_arg, opt_str_arg. by destruct (_ ≫= _). Qed.

Lemma reads_after_none args r : own r → reads_after [] [] args (reads_only r).
Proof. intros Hr limiter. unfold reads_only. cbn. by destruct r as [|[]]. Qed.

Lemma reads_after_one args k ints f :
  (∀ s, own (f s)) → (∀ s v, f s = Ok v → Forall (λ k, is_Some (int_arg k args)) ints) →
  reads_after [k] ints args (reads_only (s ← str_arg args k; f s)).
Proof.
  intros Hf Hi limiter. unfold reads_only. cbn. rewrite str_arg_eq. destruct (opt_str_arg k args) as [s|] eqn:E; cbn.
  - specialize (Hf s). assert (Forall (λ k, is_Some (opt_str_arg k args)) [k]) as Hall.
    { constructor; [rewrite E; by eexists|constructor]. }
    destruct (f s) as [v|[]] eqn:Ef; try done. split; [done|]. by eapply Hi.
  - split; [apply list_elem_of_here|]. done.
Qed.

Lemma reads_after_str args k f :
  (∀ s, own (f s)) → reads_after [k] [] args (reads_only (s ← str_arg args k; f s)).
Proof. intros Hf. by apply reads_after_one. Qed.

Lemma reads_after_call env args src preview :
  reads_after ["contract_id"; "function"] [] args (λ limiter,
    match (id ← str_arg args "contract_id"; f ← str_arg args "function"; Ok (id, f)) with
    | Err e => (Err e, limiter)
    | Ok (id, f) => call_contract env id f (default JNull (json_get "args" args)) src preview limiter
    end).
Proof.
  intros limiter. rewrite !str_arg_eq. destruct (opt_str_arg "contract_id" args) as [id|] eqn:Ei; cbn [mbind result_bind].
  2: { split; [apply list_elem_of_here|done]. }
  destruct (opt_str_arg "function" args) as [f|] eqn:Ef; cbn [mbind result_bind].
  2: { split; [by apply elem_of_cons; right; apply list_elem_of_here|done]. }
  assert (Forall (λ k, is_Some (opt_str_arg k args)) ["contract_id"; "function"]) as Hall.
  { repeat constructor; [by rewrite Ei|by rewrite Ef]. }
  pose proof (own_call env id f (default JNull (json_get "args" args)) src preview limiter) as Hown.
  by destruct (call_contract _ _ _ _ _ _ _) as [[|[]] l].
Qed.

Lemma diff_ints env args id v :
  diff_contract_interface env id (int_arg "from" args) (int_arg "to" args) = Ok v →
  Forall (λ k, is_Some (int_arg k args)) ["from"; "to"].
Proof.
  unfold diff_contract_interface. destruct (validate_contract_id id); [|done]. cbn [mbind result_bind].
  destruct (int_arg "from" args) eqn:Ef; [|done]. cbn [mbind result_bind ok_or].
  destruct (int_arg "to" args) eqn:Et; [|done]. intros _. repeat constructor; [by rewrite Ef|by rewrite Et].
Qed.

(** The required arguments of a tool's schema that are strings, and the others. *)
Definition required_strings (t : Json) : list string :=
  base.filter (λ k, property_type t k = Some "string") (required_of (input_schema t)).
Definition required_ints (t : Json) : list string :=
  base.filter (λ k, property_type t k = Some "integer") (required_of (input_schema t)).

Definition tool_spec (t : Json) : string * (list string * list string) :=
  (tool_name t, (required_strings t, required_ints t)).

Lemma arms_spec env args :
  Forall2 (λ arm s, arm.1 = s.1 ∧ reads_after s.2.1 s.2.2 args arm.2) (arms collation env args) (tool_spec <$> tool_list).
Proof.
  assert (tool_spec <$> tool_list = [
    ("list_contracts", ([], [])); ("get_contract_interface", (["contract_id"], []));
    ("get_contract_upgrades", (["contract_id"], [])); ("get_contract_state", (["contract_id"], []));
    ("get_contract_data", (["contract_id"], [])); ("query_events", (["contract_id"], []));
    ("get_event", (["event_id"], [])); ("get_transaction_events", (["tx_hash"], []));
    ("get_contract_stats", (["contract_id"], [])); ("list_contract_functions", (["contract_id"], []));
    ("call_contract", (["contract_id"; "function"], [])); ("simulate_call", (["contract_id"; "function"], []));
    ("query_transfers", (["contract_id"], [])); ("diff_contract_interface", (["contract_id"], ["from"; "to"]));
    ("query_swaps", (["contract_id"], [])); ("query_nft_events", (["contract_id"], []));
    ("query_liquidity_events", (["contract_id"], []))]) as -> by by vm_compute.
  unfold arms. repeat (apply Forall2_cons; split; [split; [done|cbn [fst snd]]|]); [..|by apply Forall2_nil].
  all: try apply reads_after_call.
  12: { apply reads_after_one; [|intros s v; apply diff_ints]. intros s. unfold diff_contract_interface.
        own_tac; try exact I; apply own_load. }
  all: first [apply reads_after_none | apply reads_after_str; intros s].
  all: unfold list_contracts, get_upgrades, get_state, get_data, query_events, get_event, get_transaction_events,
    get_contract_stats, list_contract_functions, query_transfers, query_swaps, query_nft_events, query_liquidity_events,
    get_interface; own_tac; try exact I.
Qed.

Lemma Forall2_find {A B} (P : A → B → Prop) (f : A → bool) (g : B → bool) l k :
  Forall2 P l k → (∀ a b, P a b → f a = g b) →
  match List.find f l, List.find g k with
  | Some a, Some b => P a b
  | None, None => True
  | _, _ => False
  end.
Proof.
  intros Hl Hfg. induction Hl as [|a b l k Hab _ IH]; [done|]. cbn. rewrite (Hfg a b Hab). by destruct (g b).
Qed.

Lemma find_fmap {A B} (g : A → B) (f : B → bool) l : List.find f (g <$> l) = g <$> List.find (f ∘ g) l.
Proof. induction l as [|a l IH]; [done|]. cbn. destruct (f (g a)); [done|]. exact IH. Qed.

(** The catalogue and the dispatch agree: a name is dispatched exactly when
    [tools/list] shows it; a listed tool fails with a missing argument only for
    an argument its schema requires, before it uses the budget; and whatever it
    answers or refuses otherwise, it had every string its schema requires, and
    every integer when it answers. *)
Theorem catalogue_matches_dispatch env name args limiter :
  match List.find (λ t, String.eqb (tool_name t) name) tool_list with
  | None => tool_call collation env name args limiter = (Err (UnknownTool name), limiter)
  | Some t =>
      let '(r, limiter') := tool_call collation env name args limiter in
      match r with
      | Ok _ => Forall (λ k, is_Some (opt_str_arg k args)) (required_strings t)
                ∧ Forall (λ k, is_Some (int_arg k args)) (required_ints t)
      | Err (UnknownTool _) => False
      | Err (MissingString k) => k ∈ required_strings t ∧ opt_str_arg k args = None ∧ limiter' = limiter
      | Err _ => Forall (λ k, is_Some (opt_str_arg k args)) (required_strings t)
      end
  end.
Proof.
  pose proof (Forall2_find _ (λ arm, String.eqb arm.1 name) (λ s, String.eqb s.1 name) _ _ (arms_spec env args)) as Hf.
  rewrite find_fmap in Hf. unfold tool_call. specialize (Hf (λ a b Hab, f_equal (λ n, String.eqb n name) (proj1 Hab))).
  change ((λ s : string * (list string * list string), String.eqb s.1 name) ∘ tool_spec)
    with (λ t, String.eqb (tool_name t) name) in Hf.
  destruct (List.find _ (arms collation env args)) as [arm|], (List.find _ tool_list) as [t|]; cbn in Hf; try done.
  destruct Hf as [_ Hr]. specialize (Hr limiter). by destruct (arm.2 limiter).
Qed.
End catalogue.

(** ** What the queries return *)

Section selection.
Context {R K : Type} `{TotalOrder K} (g : R → K).

(** The rows of a [LIMIT]ed query and those it leaves out: together the rows the
    [WHERE] admits, in order, the page full if anything is left out. *)
Lemma select_spec (where_ : R → bool) limit rows :
  let page := select where_ (λ a b, tcmp (g a) (g b)) limit rows in
  ∃ rest, page ++ rest ≡ₚ base.filter (λ r, where_ r = true) rows
    ∧ StronglySorted (key_le g) (page ++ rest)
    ∧ (length page ≤ Z.to_nat limit)%nat ∧ (rest ≠ [] → length page = Z.to_nat limit).
Proof.
  cbv zeta. unfold select. set (l := sort_by _ _). exists (drop (Z.to_nat limit) l).
  rewrite take_drop. split; [apply sort_by_perm|]. split; [apply sort_by_sorted|].
  rewrite length_take. split; [lia|]. intros Hne.
  enough (Z.to_nat limit < length l)%nat by lia. apply Nat.nle_gt. intros Hle. by rewrite drop_ge in Hne.
Qed.
End selection.

Lemma page_limit_range d max limit : 1 ≤ max → 1 ≤ page_limit d max limit ≤ max.
Proof. intros Hm. unfold page_limit, clamp. destruct (Z.ltb_spec (default d limit) 1), (Z.ltb_spec max (default d limit)); lia. Qed.

Lemma page_limit_inside d max n : 1 ≤ n ≤ max → page_limit d max (Some n) = n.
Proof. intros Hn. unfold page_limit, clamp. cbn. destruct (Z.ltb_spec n 1), (Z.ltb_spec max n); lia. Qed.

(** A page of a contract's rows, newest first. *)
Definition newest_page {R} (collation : TotalOrder string) (key : R → Z * string) (admits : R → bool) (limit : Z)
    (rows page : list R) : Prop :=
  ∃ rest, page ++ rest ≡ₚ base.filter (λ r, admits r = true) rows
    ∧ StronglySorted (@key_le _ _ (desc_order collation) key) (page ++ rest)
    ∧ (length page ≤ Z.to_nat limit)%nat ∧ (rest ≠ [] → length page = Z.to_nat limit).

Section queries.
Context `{Stellar} `{SerdeJson} `{StrkeyCheck} `{McpLib} (collation : TotalOrder string).

Lemma select_newest {R} (key : R → Z * string) admits limit rows :
  newest_page collation key admits limit rows (select admits (newest collation key) limit rows).
Proof. exact (@select_spec R (Z * string) (desc_order collation) key admits limit rows). Qed.

Lemma after_validation {A} id (r : result ToolError A) v :
  (_ ← validate_contract_id id; r) = Ok v → is_valid_contract_id id = true ∧ r = Ok v.
Proof. unfold validate_contract_id. by destruct (is_valid_contract_id id). Qed.

Lemma after_read {A} env n (f : McpDb → result ToolError A) v :
  (db ← read env n; f db) = Ok v → ∃ db, stmt env n = Ok db ∧ f db = Ok v.
Proof. unfold read. destruct (stmt env n) as [db|]; [|done]. by exists db. Qed.

(** The answer of a paged tool: the newest rows of one contract that it admits,
    at most 200, under a count and a label. *)
Definition newest_answer {R} (env : ToolEnv) (id : string) (key : R → Z * string) (admits : R → bool)
    (limit : option Z) (table : McpDb → list R) (label : string) (render : R → Json) (v : Json) : Prop :=
  is_valid_contract_id id = true ∧ ∃ db page,
    stmt env 0 = Ok db
    ∧ newest_page collation key admits (page_limit 20 200 limit) (table db) page
    ∧ (length page ≤ 200)%nat
    ∧ v = mk_obj [("contract_id", JStr id); ("count", JInt (Z.of_nat (length page))); (label, JArr (render <$> page))].

Lemma newest_answer_intro {R} env id key admits limit (table : McpDb → list R) label render v :
  (_ ← validate_contract_id id;
   db ← read env 0;
   let rows := select admits (newest collation key) (page_limit 20 200 limit) (table db) in
   Ok (mk_obj [("contract_id", JStr id); ("count", count_json rows); (label, JArr (render <$> rows))])) = Ok v →
  newest_answer env id key admits limit table label render v.
Proof.
  intros [Hid (db & Hdb & Hv)%after_read]%after_validation. injection Hv as <-. split; [done|].
  exists db, (select admits (newest collation key) (page_limit 20 200 limit) (table db)).
  pose proof (select_newest key admits (page_limit 20 200 limit) (table db)) as Hp.
  split; [done|]. split; [exact Hp|]. split; [|done]. destruct Hp as (rest & _ & _ & Hle & _).
  pose proof (page_limit_range 20 200 limit ltac:(lia)). lia.
Qed.

Lemma after_kind {A} kinds kind (r : result ToolError A) v :
  (_ ← check_kind kinds kind; r) = Ok v → r = Ok v.
Proof. unfold check_kind. by repeat case_match. Qed.

Lemma skip_kind id kinds kind (r : result ToolError Json) v :
  (_ ← validate_contract_id id; _ ← check_kind kinds kind; r) = Ok v → (_ ← validate_contract_id id; r) = Ok v.
Proof. destruct (validate_contract_id id); [|done]. cbn [mbind result_bind]. apply after_kind. Qed.

(** The paged tools answer with the newest rows of one contract that pass their
    filters: newest first, nothing newer left out, at most 200, and fewer than
    the limit only when no other row passes. *)
Theorem queries_newest env id limit v :
  (∀ name raw, query_events collation env id name limit raw = Ok v →
     newest_answer env id event_key (λ e, String.eqb (e_contract_id e) id && opt_matches name (e_event_name e)) limit
       events_table "events" (λ e, event_output e raw) v)
  ∧ (∀ from to, query_transfers collation env id from to limit = Ok v →
     newest_answer env id row_key (λ t, String.eqb (t_contract_id t) id && opt_matches from (t_from_addr t)
       && opt_matches to (t_to_addr t)) limit token_transfers "transfers" transfer_json v)
  ∧ (∀ sender sell buy, query_swaps collation env id sender sell buy limit = Ok v →
     newest_answer env id swap_key (λ w, String.eqb (w_contract_id w) id && opt_matches sender (w_sender w)
       && opt_matches sell (w_sell_token w) && opt_matches buy (w_buy_token w)) limit amm_swaps "swaps" swap_json v)
  ∧ (∀ kind from to token, query_nft_events collation env id kind from to token limit = Ok v →
     newest_answer env id nft_key (λ f, String.eqb (f_contract_id f) id && opt_matches kind (Some (f_event_kind f))
       && opt_matches from (f_from_addr f) && opt_matches to (f_to_addr f) && opt_matches token (Some (f_token_id f)))
       limit nft_events "nft_events" nft_json v)
  ∧ (∀ kind provider, query_liquidity_events collation env id kind provider limit = Ok v →
     newest_answer env id liquidity_key (λ q, String.eqb (q_contract_id q) id && opt_matches kind (Some (q_event_kind q))
       && opt_matches provider (q_provider q)) limit liquidity_events "liquidity_events" liquidity_json v).
Proof.
  split; [intros name raw Hq; by apply newest_answer_intro|].
  split; [intros from to Hq; by apply newest_answer_intro|].
  split; [intros sender sell buy Hq; by apply newest_answer_intro|].
  split; [intros kind from to token Hq|intros kind provider Hq]; apply newest_answer_intro; eapply skip_kind, Hq.
Qed.

(** *** The latest value of each key *)

#[local] Instance newest_order : TotalOrder Z := flip_order Z_asc.

(** Per-key state: a contract's keys are answered with one row each, the newest
    of that key under the label, most recently changed first; a key is left out
    only when the page is full. *)
Theorem get_data_latest env id label limit v :
  get_data collation env id label limit = Ok v →
  let admits := λ r, String.eqb (k_contract_id r) id && opt_matches label (k_label r) in
  ∃ db page rest, stmt env 0 = Ok db
    ∧ v = mk_obj [("contract_id", JStr id); ("count", JInt (Z.of_nat (length page))); ("keys", JArr (key_json <$> page))]
    ∧ page ≠ [] ∧ (length page ≤ 1000)%nat ∧ (rest ≠ [] → length page = Z.to_nat (page_limit 100 1000 limit))
    ∧ StronglySorted (λ a b, k_ledger b ≤ k_ledger a) (page ++ rest)
    ∧ one_per_key None (base.filter (λ r, admits r = true) (contract_data db)) (page ++ rest).
Proof.
  cbv zeta. unfold get_data. intros [_ (db & Hdb & Hv)%after_read]%after_validation.
  set (latest := latest_keys collation id label (contract_data db)) in *.
  pose proof (@select_spec KeyRow Z newest_order k_ledger (λ _, true) (page_limit 100 1000 limit) latest) as Hsel.
  cbv zeta in Hsel.
  change (select (λ _ : KeyRow, true) _ (page_limit 100 1000 limit) latest)
    with (select (λ _ : KeyRow, true) (newest_ledger k_ledger) (page_limit 100 1000 limit) latest) in Hsel.
  set (page := select _ _ _ latest) in *. destruct Hsel as (rest & Hperm & Hsort & Hle & Hfull).
  rewrite filter_all in Hperm by by apply Forall_forall.
  pose proof (page_limit_range 100 1000 limit ltac:(lia)) as Hlim.
  exists db, page, rest. split; [done|].
  assert (page ≠ [] ∧ v = mk_obj [("contract_id", JStr id); ("count", count_json page); ("keys", JArr (key_json <$> page))])
    as [Hne ->] by (destruct page; [done|by injection Hv as <-]).
  split; [done|]. split; [done|]. split; [lia|]. split; [done|]. split; [exact Hsort|].
  eapply one_per_key_perm; [apply sort_by_perm|symmetry; exact Hperm|].
  apply (distinct_on_spec collation); [|done]. exact (@sort_by_sorted KeyRow (string * Z) (hash_ledger_order collation) hash_ledger _).
Qed.

(** ** Shapes *)

Definition schema_properties (schema : Json) : list string :=
  match json_get "properties" schema ≫= as_object with Some m => m.*1 | None => [] end.

(** Whether a value fits the [type] a property gives, where it gives one. *)
Definition type_fits (ty : string) (v : Json) : bool :=
  match v with
  | JStr _ => String.eqb ty "string"
  | JInt _ => String.eqb ty "integer"
  | JBool _ => String.eqb ty "boolean"
  | JNull => String.eqb ty "null"
  | JArr _ => String.eqb ty "array"
  | JObj _ => String.eqb ty "object"
  | JFloat _ => String.eqb ty "number"
  end.

Definition property_fits (schema : Json) (key : string) (v : Json) : bool :=
  match (props ← json_get "properties" schema; p ← json_get key props; json_get "type" p) with
  | Some (JStr ty) => type_fits ty v
  | Some (JArr tys) => existsb (λ t, match t with JStr ty => type_fits ty v | _ => false end) tys
  | _ => true
  end.

Lemma forallb_Forall {A} (f : A → bool) l : forallb f l = true → Forall (λ x, f x = true) l.
Proof. intros Hl. apply Forall_forall. intros x Hx. by apply (proj1 (List.forallb_forall f l) Hl), list_elem_of_In. Qed.

(** Both shapes an event is printed in are those the output schemas promise: the
    fields are exactly the declared ones, each of them required, and every value
    has its property's type. *)
Theorem event_output_fits_schema (e : EventRow) (raw : bool) :
  let schema := if raw then full_event_schema else compact_event_schema in
  ∃ fields : list (string * Json), event_output e raw = JObj fields
    ∧ fields.*1 = schema_properties schema
    ∧ fields.*1 ≡ₚ required_of schema
    ∧ Forall (λ f, property_fits schema f.1 f.2 = true) fields.
Proof.
  destruct raw; cbv zeta; unfold event_output, event_row_json; destruct (e_event_name e); eexists;
    (split; [reflexivity|]; split; [by vm_compute|]; split; [apply (bool_decide_unpack _); by vm_compute|]);
    apply forallb_Forall; by vm_compute.
Qed.

(** ** Calls *)

(** Only the simulating tools spend the budget. *)
Lemma only_calls_spend env name args limiter :
  (tool_call collation env name args limiter).2 ≠ limiter → name = "call_contract" ∨ name = "simulate_call".
Proof.
  unfold tool_call. destruct (List.find _ _) as [arm|] eqn:E; [|done]. apply List.find_some in E as [Hin Hn].
  apply String.eqb_eq in Hn. subst name. intros Hne.
  repeat (destruct Hin as [<-|Hin]; [first [by destruct Hne | by left | by right]|]). done.
Qed.

(** A simulated call is answered only for a valid contract id, within the size
    limits and inside the budget, for an interface the index holds and with
    arguments that encode against it; what the node is asked is that encoding. *)
Theorem call_contract_correct env id f args src preview limiter v limiter' :
  call_contract env id f args src preview limiter = (Ok v, limiter') →
  is_valid_contract_id id = true
  ∧ len (serde_to_string args) ≤ 128 * 1024 ∧ len f + len (serde_to_string args) ≤ 256 * 1024
  ∧ try_consume SHARED_CLIENT (clock env) limiter = (Ok tt, limiter')
  ∧ ∃ db row section call envelope, stmt env 0 = Ok db ∧ row ∈ contract_specs db ∧ i_contract_id row = id
    ∧ hex_decode (i_spec_section row) = Some section
    ∧ encode_for_call section id f args src = Ok call
    ∧ answer env (tx_xdr call) = Ok envelope
    ∧ ∃ xdr evs fee ledger, mcp_outcome envelope = Ok (SimOk xdr evs fee ledger)
      ∧ call_answer id f preview call (from_spec_xdr_simple spec_entries section) (SimOk xdr evs fee ledger) = Ok v.
Proof.
  unfold call_contract. destruct (_ ← _; _) as [[]|] eqn:E; [|done].
  apply after_validation in E as [Hid Hsize]. intros Hs. split; [done|].
  assert (len (serde_to_string args) ≤ 128 * 1024 ∧ len f + len (serde_to_string args) ≤ 256 * 1024) as [H1' H2'].
  { unfold check_size in Hsize. destruct (Z.ltb_spec (256 * 1024) (len f + len (serde_to_string args))); [done|].
    destruct (Z.ltb_spec (128 * 1024) (len (serde_to_string args))); [done|]. lia. }
  split; [done|]. split; [done|]. clear Hsize.
  destruct (try_consume _ _ _) as [[[]|] l]; [|done]. injection Hs as Hs <-. split; [done|].
  unfold simulate_function in Hs. apply after_read in Hs as (db & Hdb & Hs).
  destruct (List.find _ _) as [row|] eqn:Er; [|done]. cbn [mbind option_bind] in Hs.
  destruct (String.eqb (i_spec_section row) ""); [done|]. cbn [ok_or mbind result_bind] in Hs.
  apply List.find_some in Er as [Hin Hrow%String.eqb_eq]. unfold decode_section in Hs.
  destruct (hex_decode (i_spec_section row)) as [section|] eqn:Eh; [|done]. cbn [ok_or mbind result_bind] in Hs.
  destruct (encode_for_call section id f args src) as [call|] eqn:Ee; [|done]. cbn [mbind result_bind] in Hs.
  unfold mcp_simulate in Hs. destruct (answer env (tx_xdr call)) as [envelope|] eqn:Ea; [|done]. cbn [mbind result_bind] in Hs.
  destruct (mcp_outcome envelope) as [[xdr evs fee ledger|msg]|] eqn:Eo; [|done|done].
  exists db, row, section, call, envelope. split; [done|]. split; [by apply list_elem_of_In|]. by eauto 12.
Qed.
End queries.

(** ** Samples *)

#[local] Instance sample_stellar_tools : Stellar := sample_stellar.
#[local] Instance sample_serde_tools : SerdeJson := plain_serde.
#[local] Instance sample_check_tools : StrkeyCheck := sample_check.
#[local] Instance sample_lib : McpLib := {|
  muxed_from_str _ := Err "no"; key_from_str _ := Err "no"; addr_error s := s; len_error := "too long";
  tx_to_base64 _ := Ok "AAAA"; diagnostic_of_xdr _ _ _ := None; from_base64 _ := Some [];
  scval_of_xdr l := Some (ScvU32 7, l); spec_entries := sample_iter; hash_order _ := [];
  encode_error_text _ := "encode error"; hex_error _ := "hex error"; printable _ := true; rfc3339 t := show_i t |}.

Definition sample_event_row (l : Z) (name : string) : EventRow := {|
  e_event_id := show_i l; e_contract_id := sample_contract; e_ledger := l; e_ledger_closed_at := l; e_event_type := "contract";
  e_topics := []; e_decoded_topics := JArr []; e_event_name := Some name; e_value := "AAAA"; e_decoded_value := JInt l;
  e_enriched := None; e_tx_hash := "t"; e_in_successful_call := true; e_paging_token := "p"; e_created_at := l |}.

Definition sample_key (hash : string) (l : Z) : KeyRow := {|
  k_contract_id := sample_contract; k_key_hash := hash; k_key := JStr hash; k_durability := "persistent"; k_ledger := l;
  k_value := JInt l; k_label := Some "balance"; k_captured_at := 0 |}.

Definition sample_db : McpDb := {|
  contract_summaries := [];
  contract_specs := [ {| i_contract_id := sample_contract; i_interface := JNull; i_has_events := false; i_spec_section := "00";
     i_wasm_hash := "ab"; i_fetched_at := 0 |} ];
  contract_spec_versions := []; contract_state := [];
  contract_data := [sample_key "b" 4; sample_key "a" 3; sample_key "b" 9; sample_key "a" 1];
  events_table := [sample_event_row 5 "transfer"; sample_event_row 7 "mint"; sample_event_row 6 "transfer"];
  token_transfers := []; amm_swaps := []; nft_events := []; liquidity_events := [] |}.

Definition sample_tool_env : ToolEnv :=
  {| stmt _ := Ok sample_db; clock := 0; answer := sample_answer 10 |}.

(** A listed tool without its argument, and a name that is not listed. *)
Example missing_argument :
  (tool_call string_order sample_tool_env "query_events" (mk_obj [("limit", JInt 5)]) (limiter_new 1)).1
  = Err (MissingString "contract_id").
Proof. by vm_compute. Qed.

Example unlisted_tool :
  (tool_call string_order sample_tool_env "drop_table" JNull (limiter_new 1)).1 = Err (UnknownTool "drop_table").
Proof. by vm_compute. Qed.

Example queries_newest_witness :
  ∃ v, query_events string_order sample_tool_env sample_contract (Some "transfer") (Some 1) false = Ok v
    ∧ newest_answer string_order sample_tool_env sample_contract event_key
        (λ e, String.eqb (e_contract_id e) sample_contract && opt_matches (Some "transfer") (e_event_name e)) (Some 1)
        events_table "events" (λ e, event_output e false) v
    ∧ v = mk_obj [("contract_id", JStr sample_contract); ("count", JInt 1);
                  ("events", JArr [event_output (sample_event_row 6 "transfer") false])].
Proof.
  eexists. split; [by vm_compute|]. split; [|by vm_compute].
  apply (proj1 (queries_newest string_order sample_tool_env sample_contract (Some 1) _)). by vm_compute.
Defined.

Example get_data_latest_witness :
  ∃ db page rest, stmt sample_tool_env 0 = Ok db
    ∧ mk_obj [("contract_id", JStr sample_contract); ("count", JInt 2); ("keys", JArr [key_json (sample_key "b" 9); key_json (sample_key "a" 3)])]
      = mk_obj [("contract_id", JStr sample_contract); ("count", JInt (Z.of_nat (length page))); ("keys", JArr (key_json <$> page))]
    ∧ page ≠ [] ∧ (length page ≤ 1000)%nat ∧ (rest ≠ [] → length page = Z.to_nat (page_limit 100 1000 None))
    ∧ StronglySorted (λ a b, k_ledger b ≤ k_ledger a) (page ++ rest)
    ∧ one_per_key None (base.filter (λ r, (String.eqb (k_contract_id r) sample_contract && opt_matches None (k_label r)) = true)
        (contract_data db)) (page ++ rest).
Proof. apply (get_data_latest string_order sample_tool_env sample_contract None None). by vm_compute. Defined.

Example call_contract_correct_witness :
  let out := call_contract sample_tool_env sample_contract "balance" (JObj []) None false (limiter_new 1) in
  out.1 = Ok (mk_obj [("contract_id", JStr sample_contract); ("function", JStr "balance");
                      ("result", mk_obj [("type", JStr "u32"); ("value", JInt 7)]); ("simulated_at_ledger", JInt 10)])
  ∧ try_consume SHARED_CLIENT 0 (limiter_new 1) = (Ok tt, out.2).
Proof.
  cbv zeta. destruct (call_contract sample_tool_env sample_contract "balance" (JObj []) None false (limiter_new 1)) as [r l] eqn:E.
  pose proof E as E'. vm_compute in E'. injection E' as <- <-. split; [by vm_compute|].
  exact (proj1 (proj2 (proj2 (proj2 (call_contract_correct _ _ _ _ _ _ _ _ _ E))))).
Defined.

(** A failing statement or exchange reaches the agent with the driver's text,
    which for the node's client names the URL; only an error the simulation
    itself reports is sanitised. *)
Example upstream_text_not_sanitised :
  let env := {| stmt _ := Ok sample_db; clock := 0;
                answer _ := Err "error sending request for url (https://rpc.example/KEY)" |} in
  match (call_contract env sample_contract "balance" (JObj []) None false (limiter_new 1)).1 with
  | Err e => error_text e
  | Ok _ => ""
  end = "error sending request for url (https://rpc.example/KEY)".
Proof. by vm_compute. Qed.

(** An interface diff of a version with itself, or of a version before the
    first, is refused before any statement. *)
Example diff_refused :
  diff_contract_interface {| stmt _ := Err "down"; clock := 0; answer _ := Err "down" |} sample_contract (Some 0) (Some 1)
  = Err (Bail "version numbers must be >= 1").
Proof. by vm_compute. Qed.
