(* ===== verification/McpServer.v ===== *)
(** * McpServer: JSON-RPC over stdio and HTTP ([lumenqraph-mcp/src/main.rs])

    A message is dispatched to [initialize], [ping], the catalogue or a tool of
    [McpTools].  Over HTTP a request passes the [Origin] guard, a session and
    the version header first; a panic of the handler is [None].  The state is
    the live sessions and the RPC budget, with the tools run so far as a record
    of what was executed.  [serde_json]'s parser and pretty printer are
    parameters, and a fresh UUID is an input of each request. *)
From S2P Require Import Prelude Text Containers Values Instances Serde Sanitize XdrDecode ReadRoute McpLimiter McpTools.
From Stdlib Require Import Ascii.

Local Open Scope string_scope.
Local Open Scope Z_scope.

(** ** Start-up *)

Definition DEFAULT_PROTOCOL_VERSION : string := "2024-11-05".
Definition SUPPORTED_PROTOCOL_VERSIONS : list string := ["2024-11-05"; "2025-03-26"; "2025-06-18"].

(** [CARGO_PKG_VERSION], of the workspace. *)
Definition PKG_VERSION : string := "0.1.0".

Definition blank (s : string) : bool := String.eqb (trim s) "".

(** An environment variable read as a [T]; the parser gives [FromStr]'s error text. *)
Definition db_setting {T} (parse : string → result string T) (debug : string → string)
    (env : string → option string) (service_key common_key : string) (d : T) : result string T :=
  let key := match env service_key with
             | Some value => if blank value then common_key else service_key
             | None => common_key
             end in
  match env key with
  | Some value =>
      if blank value then Ok d
      else map_err (λ error, "invalid " +:+ key +:+ "=" +:+ debug value +:+ ": " +:+ error) (parse (trim value))
  | None => Ok d
  end.

Definition default_endpoint (passphrase : string) : option string :=
  if String.eqb passphrase "Public Global Stellar Network ; September 2015" then Some "https://mainnet.sorobanrpc.com"
  else if String.eqb passphrase "Test SDF Network ; September 2015" then Some "https://soroban-testnet.stellar.org"
  else if String.eqb passphrase "Test SDF Future Network ; October 2022" then Some "https://rpc-futurenet.stellar.org"
  else None.

(** [filter(|s| !s.trim().is_empty())]. *)
Definition non_blank (o : option string) : option string := s ← o; if blank s then None else Some s.

Definition select_rpc_url (debug : string → string) (configured network_passphrase : option string)
    : result string string :=
  match non_blank configured with
  | Some url => Ok url
  | None =>
      passphrase ← ok_or "RPC_URL is unset and indexer_cursor.network_passphrase is unavailable; set RPC_URL explicitly or start the indexer first"
        (non_blank network_passphrase);
      ok_or ("RPC_URL is unset and no default RPC endpoint is known for indexed network passphrase "
             +:+ debug passphrase +:+ "; set RPC_URL explicitly")
        (default_endpoint (trim passphrase))
  end.

(** [row] is what the table holds for [id = 1], [None] a failing query. *)
Definition resolve_rpc_url (debug : string → string) (row : option (option (option string)))
    (configured : option string) : result string string :=
  match non_blank configured with
  | Some _ => select_rpc_url debug configured None
  | None =>
      match row with
      | None => Err "failed to read indexer_cursor.network_passphrase"
      | Some r => select_rpc_url debug configured (r ≫= id)
      end
  end.

Definition validate_http_auth (auth_token : option string) (allow_anonymous : bool) : result string unit :=
  if bool_decide (is_Some (non_blank auth_token)) || allow_anonymous then Ok tt
  else Err "MCP_HTTP_BIND is set but MCP_AUTH_TOKEN is unset. The HTTP transport is unauthenticated by default — anyone who can reach the port can call tools and read the index. Set MCP_AUTH_TOKEN, or set MCP_HTTP_ALLOW_ANONYMOUS=true to accept this risk and start anyway.".

Record HttpConfig := { allowed_origins : gset string; allow_any_origin : bool }.

Definition flag (v : option string) : bool :=
  match v with Some s => eq_ignore_ascii_case (trim s) "true" | None => false end.

Definition http_config_from_env (env : string → option string) : HttpConfig := {|
  allow_any_origin := flag (env "MCP_ALLOW_ANY_ORIGIN");
  allowed_origins :=
    match env "MCP_ALLOWED_ORIGINS" with
    | Some raw => list_to_set (base.filter (λ s, s ≠ "") (trim <$> split_on "," raw))
    | None => ∅
    end |}.

Definition validate_origin (config : HttpConfig) (origin : option string) : result string unit :=
  if allow_any_origin config then Ok tt
  else
    match origin with
    | None => Ok tt
    | Some o =>
        let o := trim o in
        if String.eqb o "" then Ok tt
        else if bool_decide (o ∈ allowed_origins config) then Ok tt
        else Err ("origin not allowed: " +:+ o)
    end.

Definition normalize_bind (bind : string) : string :=
  let trimmed := trim bind in
  if contains_str ":" trimmed && negb (starts_with ":" trimmed) then trimmed
  else "127.0.0.1:" +:+ of_bytes (drop_while (Ascii.eqb ":") (bytes trimmed)).

(** ** The state *)

(** [ran] records the tools executed, with their arguments. *)
Record State := {
  auth_token : option string;
  sessions : option (gset string);
  rpc_limiter : RpcRateLimiter;
  ran : list (string * Json);
}.

Definition with_sessions (s : option (gset string)) (st : State) : State :=
  {| auth_token := auth_token st; sessions := s; rpc_limiter := rpc_limiter st; ran := ran st |}.

Definition issue_session (uuid : string) (st : State) : option string * State :=
  match sessions st with
  | None => (None, st)
  | Some live => (Some uuid, with_sessions (Some ({[uuid]} ∪ live)) st)
  end.

Definition session_valid (st : State) (id : string) : bool :=
  match sessions st with None => true | Some live => bool_decide (id ∈ live) end.

Definition parse_or {A} (parse : string → option A) (d : A) (v : option string) : A :=
  default d (s ← v; parse (trim s)).

(** [lumenqraph_core::db::DbConfig]. *)
Record DbConfig := {
  max_connections : Z;
  min_connections : Z;
  acquire_timeout_secs : Z;
  idle_timeout_secs : Z;
  connect_retries : Z;
}.

Definition contract_ids_error (debug : string → string) (e : ContractIdsError) : string :=
  match e with
  | InvalidContractId id => "invalid CONTRACT_ID " +:+ debug id +:+ ": expected a C… strkey (Soroban contract address)"
  | TooManyContractIds n =>
      "CONTRACT_IDS contains " +:+ show_u (Z.of_nat n) +:+ " unique entries, but getEvents supports at most "
      +:+ show_u (Z.of_nat MAX_CONTRACT_IDS) +:+ " contract IDs (5 filters × 5 IDs per filter). Remove "
      +:+ show_u (Z.of_nat (n - MAX_CONTRACT_IDS)) +:+ " contract IDs, or run multiple instances each covering a different subset."
  end.

(** [main] up to the transports: the settings it refuses to start with, those of
    the pool, and the state it starts with.  [parse w] is [FromStr] of a [w]-bit
    unsigned integer, with its error text. *)
Definition configure `{Stellar} (parse : Z → string → result string Z) (debug : string → string)
    (env : string → option string) : result string (DbConfig * State) :=
  _ ← ok_or "missing DATABASE_URL" (env "DATABASE_URL");
  let rpc_rate_limit_per_min := parse_or (parse_uint 64) 60 (env "MCP_RPC_RATE_LIMIT_PER_MIN") in
  let token := s ← env "MCP_AUTH_TOKEN"; if String.eqb (trim s) "" then None else Some (trim s) in
  let http_bind := env "MCP_HTTP_BIND" in
  let allow_anon := flag (env "MCP_HTTP_ALLOW_ANONYMOUS") in
  _ ← match http_bind with Some _ => validate_http_auth token allow_anon | None => Ok tt end;
  _ ← map_err (contract_ids_error debug) (parse_contract_ids (default "" (env "CONTRACT_IDS")));
  max ← db_setting (parse 32) debug env "MCP_DATABASE_MAX_CONNECTIONS" "DATABASE_MAX_CONNECTIONS" 5;
  min ← db_setting (parse 32) debug env "MCP_DATABASE_MIN_CONNECTIONS" "DATABASE_MIN_CONNECTIONS" 0;
  acquire ← db_setting (parse 64) debug env "MCP_DATABASE_ACQUIRE_TIMEOUT_SECS" "DATABASE_ACQUIRE_TIMEOUT_SECS" 30;
  idle ← db_setting (parse 64) debug env "MCP_DATABASE_IDLE_TIMEOUT_SECS" "DATABASE_IDLE_TIMEOUT_SECS" 600;
  retries ← db_setting (parse 32) debug env "MCP_DATABASE_CONNECT_RETRIES" "DATABASE_CONNECT_RETRIES" 30;
  Ok ({| max_connections := max; min_connections := min; acquire_timeout_secs := acquire;
         idle_timeout_secs := idle; connect_retries := retries |},
      {| auth_token := token; sessions := (λ _, ∅) <$> http_bind;
         rpc_limiter := limiter_new (Z.to_nat rpc_rate_limit_per_min); ran := [] |}).

(** ** JSON-RPC *)

Definition result_response (id : option Json) (r : Json) : Json :=
  mk_obj [("jsonrpc", JStr "2.0"); ("id", default JNull id); ("result", r)].

Definition error_response (id : Json) (code : Z) (message : string) : Json :=
  mk_obj [("jsonrpc", JStr "2.0"); ("id", id);
          ("error", mk_obj [("code", JInt code); ("message", JStr message)])].

Definition initialize_result (msg : Json) : Json :=
  let requested := default DEFAULT_PROTOCOL_VERSION
                     (p ← json_get "params" msg; v ← json_get "protocolVersion" p; as_str v) in
  let protocol_version :=
    if bool_decide (requested ∈ SUPPORTED_PROTOCOL_VERSIONS) then requested
    else default DEFAULT_PROTOCOL_VERSION (last SUPPORTED_PROTOCOL_VERSIONS) in
  mk_obj [
    ("protocolVersion", JStr protocol_version);
    ("capabilities", mk_obj [("tools", mk_obj [])]);
    ("serverInfo", mk_obj [("name", JStr "lumenqraph-mcp"); ("version", JStr PKG_VERSION)]);
    ("instructions", JStr "Typed, self-describing access to Soroban contracts. Start with list_contracts, then get_contract_interface to discover a contract's functions/events, then query_events or call_contract.")].

Definition strip_bearer (token : string) : string := trim (default token (strip_prefix "Bearer " token)).

(** [a.or_else(b)]. *)
Definition or_else {A} (a b : option A) : option A := match a with Some x => Some x | None => b end.

Definition check_auth (msg : Json) (expected : string) : bool :=
  let candidate :=
    or_else (json_get "authorization" msg)
      (or_else (json_get "Authorization" msg)
         (p ← json_get "params" msg;
          or_else (json_get "authorization" p)
            (or_else (json_get "Authorization" p)
               (or_else (json_get "authToken" p) (json_get "auth_token" p))))) ≫= as_str in
  match candidate with
  | Some token => String.eqb (strip_bearer token) expected
  | None => false
  end.

Definition method_of (msg : Json) : string := default "" (json_get "method" msg ≫= as_str).

(** [msg[key] = v]: a null becomes an object; another value that is not an object panics. *)
Definition index_assign (key : string) (v : Json) (msg : Json) : option Json :=
  match msg with
  | JObj m => Some (JObj (bt_insert key v m))
  | JNull => Some (mk_obj [(key, v)])
  | _ => None
  end.

Section server.
Context `{Stellar} `{SerdeJson} `{StrkeyCheck} `{McpLib} (collation : TotalOrder string).
(** [serde_json::to_string_pretty], and whether [HeaderValue::from_str] takes a text. *)
Context (pretty : Json → string) (header_ok : string → bool).

Definition tool_content (payload : Json) (is_error : bool) : Json :=
  mk_obj ([("content", JArr [mk_obj [("type", JStr "text"); ("text", JStr (pretty payload))]]); ("isError", JBool is_error)]
          ++ (if is_null payload then [] else [("structuredContent", payload)]))%list.

Definition handle_tools_call (env : ToolEnv) (st : State) (id : option Json) (msg : Json) : Json * State :=
  let params := default JNull (json_get "params" msg) in
  let name := default "" (json_get "name" params ≫= as_str) in
  let args := default (mk_obj []) (json_get "arguments" params) in
  let '(outcome, limiter) := tool_call collation env name args (rpc_limiter st) in
  (match outcome with
   | Ok payload => result_response id (tool_content payload false)
   | Err e => result_response id (tool_content (mk_obj [("error", JStr (error_text e))]) true)
   end,
   {| auth_token := auth_token st; sessions := sessions st; rpc_limiter := limiter;
      ran := (ran st ++ [(name, args)])%list |}).

Definition UNAUTHORIZED : Z := -32001.

Definition handle (env : ToolEnv) (st : State) (msg : Json) (authenticated : bool) : option (Json * bool) * State :=
  let id := json_get "id" msg in
  let method := method_of msg in
  let is_request := bool_decide (is_Some id) in
  if String.eqb method "initialize" then
    if match auth_token st with Some expected => negb (check_auth msg expected) | None => false end
    then (Some (error_response (default JNull id) UNAUTHORIZED
                  "Unauthorized: invalid or missing MCP_AUTH_TOKEN in Authorization field", false), st)
    else (Some (result_response id (initialize_result msg), true), st)
  else if starts_with "notifications/" method then (None, st)
  else if negb authenticated then
    (if is_request
     then Some (error_response (default JNull id) UNAUTHORIZED "Unauthorized: authentication required", false)
     else None, st)
  else if String.eqb method "ping" then (Some (result_response id (mk_obj []), false), st)
  else if String.eqb method "tools/list" then (Some (result_response id (mk_obj [("tools", definitions)]), false), st)
  else if String.eqb method "tools/call" then
    let '(response, st) := handle_tools_call env st id msg in (Some (response, false), st)
  else if is_request
  then (Some (error_response (default JNull id) (-32601) ("method not found: " +:+ method), false), st)
  else (None, st).

(** ** Stdio *)

(** [serde_json::from_str]: a value, or the text of its error. *)
Definition serve_line (parse : string → result string Json) (env : ToolEnv) (st : State) (line : string)
    : list Json * State :=
  if blank line then ([], st)
  else
    match parse line with
    | Err e => ([error_response JNull (-32700) ("parse error: " +:+ e)], st)
    | Ok msg =>
        let authenticated := match auth_token st with Some token => check_auth msg token | None => true end in
        let '(reply, st) := handle env st msg authenticated in
        (match reply with Some (response, _) => [response] | None => [] end, st)
    end.

Fixpoint serve_io (parse : string → result string Json) (lines : list (ToolEnv * string)) (st : State)
    : list Json * State :=
  match lines with
  | [] => ([], st)
  | (env, line) :: lines' =>
      let '(out, st) := serve_line parse env st line in
      let '(rest, st) := serve_io parse lines' st in
      ((out ++ rest)%list, st)
  end.
(** ** HTTP *)

Inductive Verb : Type := POST | DELETE | GET.

(** A body that could not be read, is not JSON, or is a value. *)
Inductive BodyIn : Type := Unreadable | NotJson | Parsed (v : Json).

(** The headers a handler looks at, each as [to_str] gives it. *)
Record HttpRequest := {
  verb : Verb;
  h_origin : option string;
  h_authorization : option string;
  h_session : option string;
  h_version : option string;
  h_body : BodyIn;
}.

Inductive Body : Type := NoBody | Text (s : string) | JsonBody (v : Json).

Record HttpReply := { r_status : Z; r_headers : list (string * string); r_body : Body }.

Definition plain (status : Z) (b : Body) : HttpReply := {| r_status := status; r_headers := []; r_body := b |}.

(** An error body without an id. *)
Definition refusal (status code : Z) (message : string) : HttpReply :=
  plain status (JsonBody (mk_obj [("jsonrpc", JStr "2.0");
    ("error", mk_obj [("code", JInt code); ("message", JStr message)])])).

(** A header trimmed, if it is there and not empty then. *)
Definition header_value (h : option string) : option string :=
  s ← h; if String.eqb (trim s) "" then None else Some (trim s).

Definition handle_delete_mcp (req : HttpRequest) (st : State) : HttpReply * State :=
  match sessions st with
  | None => (plain 405 NoBody, st)
  | Some live =>
      match header_value (h_session req) with
      | None => (plain 400 (Text "Mcp-Session-Id header required"), st)
      | Some id =>
          if bool_decide (id ∈ live) then (plain 200 NoBody, with_sessions (Some (live ∖ {[id]})) st)
          else (plain 404 NoBody, st)
      end
  end.

Definition handle_get_mcp : HttpReply :=
  {| r_status := 405; r_headers := [("allow", "POST, DELETE")];
     r_body := Text "GET /mcp is not supported; this server does not serve an SSE stream. Use POST." |}.

Definition http_authenticated (st : State) (msg : Json) : bool :=
  match auth_token st with
  | None => true
  | Some token =>
      match json_get "authorization" msg ≫= as_str with
      | Some value => String.eqb (strip_bearer value) token
      | None => false
      end
  end.

(** The checks on a message that is not [initialize]. *)
Definition check_session (req : HttpRequest) (st : State) : result HttpReply unit :=
  _ ← match sessions st with
      | None => Ok tt
      | Some _ =>
          match header_value (h_session req) with
          | Some id => if session_valid st id then Ok tt
                       else Err (refusal 404 (-32000) "Unknown or expired Mcp-Session-Id")
          | None => Err (refusal 400 (-32000) "Mcp-Session-Id header required")
          end
      end;
  match trim <$> h_version req with
  | Some v =>
      if negb (bool_decide (v ∈ SUPPORTED_PROTOCOL_VERSIONS)) && negb (String.eqb v "")
      then Err (refusal 400 (-32602) ("unsupported MCP-Protocol-Version: " +:+ v))
      else Ok tt
  | None => Ok tt
  end.

(** After a successful [initialize]: the negotiated version and a session. *)
Definition initialized_headers (uuid : string) (resp : Json) (st : State) : list (string * string) * State :=
  let version := r ← json_get "result" resp; v ← json_get "protocolVersion" r; as_str v in
  let version_header := match version with
                        | Some v => if header_ok v then [("mcp-protocol-version", v)] else []
                        | None => []
                        end in
  let '(session, st) := issue_session uuid st in
  ((version_header ++ match session with
                      | Some id => if header_ok id then [("mcp-session-id", id)] else []
                      | None => []
                      end)%list, st).

Definition handle_http_request (env : ToolEnv) (uuid : string) (req : HttpRequest) (st : State)
    : option (HttpReply * State) :=
  match h_body req with
  | Unreadable => Some (plain 400 (Text "invalid JSON-RPC body"), st)
  | NotJson => Some (plain 400 (Text "invalid JSON body"), st)
  | Parsed msg =>
      msg ← match h_authorization req with
            | Some auth => index_assign "authorization" (JStr auth) msg
            | None => Some msg
            end;
      let authenticated := http_authenticated st msg in
      let is_initialize := String.eqb (method_of msg) "initialize" in
      match (if is_initialize then Ok tt else check_session req st) with
      | Err reply => Some (reply, st)
      | Ok tt =>
          let '(reply, st) := handle env st msg authenticated in
          match reply with
          | None => Some (plain 204 NoBody, st)
          | Some (resp, _) =>
              if is_initialize && bool_decide (is_Some (json_get "result" resp)) then
                let '(headers, st) := initialized_headers uuid resp st in
                Some ({| r_status := 200; r_headers := headers; r_body := JsonBody resp |}, st)
              else Some (plain 200 (JsonBody resp), st)
          end
      end
  end.

(** A request to [/mcp]: the guard of the router, then the handler of the verb. *)
Definition mcp_request (config : HttpConfig) (env : ToolEnv) (uuid : string) (req : HttpRequest) (st : State)
    : option (HttpReply * State) :=
  match validate_origin config (h_origin req) with
  | Err _ => Some (refusal 403 (-32000) "Forbidden: Origin not allowed", st)
  | Ok tt =>
      match verb req with
      | POST => handle_http_request env uuid req st
      | DELETE => Some (handle_delete_mcp req st)
      | GET => Some (handle_get_mcp, st)
      end
  end.

(** ** Replies *)

Lemma handle_tools_call_eq env st id msg :
  ∃ name args limiter r, handle_tools_call env st id msg =
    (result_response id r,
     {| auth_token := auth_token st; sessions := sessions st; rpc_limiter := limiter; ran := (ran st ++ [(name, args)])%list |}).
Proof.
  unfold handle_tools_call. destruct (tool_call _ _ _ _ _) as [[payload|e] limiter]; do 4 eexists; reflexivity.
Qed.

(** A state that differs in the budget and in the tools run. *)
Record same_config (st st' : State) : Prop := {
  same_token : auth_token st' = auth_token st;
  same_sessions : sessions st' = sessions st;
}.

Lemma handle_state env st msg authenticated :
  same_config st (handle env st msg authenticated).2
  ∧ (ran (handle env st msg authenticated).2 = ran st
     ∨ method_of msg = "tools/call" ∧ authenticated = true
       ∧ ∃ call, ran (handle env st msg authenticated).2 = (ran st ++ [call])%list).
Proof.
  unfold handle. assert (same_config st st) as Hst by done.
  destruct (String.eqb (method_of msg) "initialize"); [by case_match; auto|].
  destruct (starts_with _ _); [by auto|].
  destruct authenticated; cbn [negb]; [|by auto].
  destruct (String.eqb_spec (method_of msg) "ping"); [by auto|].
  destruct (String.eqb_spec (method_of msg) "tools/list"); [by auto|].
  destruct (String.eqb_spec (method_of msg) "tools/call") as [Hm|].
  - destruct (handle_tools_call_eq env st (json_get "id" msg) msg) as (name & args & limiter & r & ->).
    split; [done|]. right. split; [done|]. split; [done|]. by exists (name, args).
  - by case_match; auto.
Qed.

(** A well-formed reply to an id: a result or an error, not both. *)
Definition reply_to (id : Json) (resp : Json) : Prop :=
  json_get "jsonrpc" resp = Some (JStr "2.0") ∧ json_get "id" resp = Some id
  ∧ ((is_Some (json_get "result" resp) ∧ json_get "error" resp = None)
     ∨ (is_Some (json_get "error" resp) ∧ json_get "result" resp = None)).

Lemma result_response_to id r : reply_to (default JNull id) (result_response id r).
Proof. unfold reply_to, result_response. split; [done|]. split; [done|]. left. by split. Qed.

Lemma error_response_to id code message : reply_to id (error_response id code message).
Proof. unfold reply_to, error_response. split; [done|]. split; [done|]. right. by split. Qed.

(** Every request is answered under its own id: a message with an id gets one
    well-formed reply that carries it, unless its method is a notification's,
    and a message that gets none had no id or is one. *)
Theorem handle_answers env st msg authenticated :
  match (handle env st msg authenticated).1 with
  | Some (resp, _) => reply_to (default JNull (json_get "id" msg)) resp
  | None => starts_with "notifications/" (method_of msg) = true ∨ json_get "id" msg = None
  end.
Proof.
  unfold handle. destruct (String.eqb (method_of msg) "initialize").
  { destruct (match auth_token st with Some _ => _ | None => _ end); [apply error_response_to|apply result_response_to]. }
  destruct (starts_with _ _); [by left|].
  destruct (json_get "id" msg) as [id|] eqn:Hid; cbn [bool_decide decide].
  - destruct authenticated; cbn [negb]; [|apply error_response_to].
    destruct (String.eqb _ "ping"); [apply (result_response_to (Some id))|].
    destruct (String.eqb _ "tools/list"); [apply (result_response_to (Some id))|].
    destruct (String.eqb _ "tools/call"); [|apply error_response_to].
    destruct (handle_tools_call_eq env st (Some id) msg) as (name & args & limiter & r & ->).
    apply (result_response_to (Some id)).
  - destruct authenticated; cbn [negb]; [|by right].
    destruct (String.eqb _ "ping"); [apply (result_response_to None)|].
    destruct (String.eqb _ "tools/list"); [apply (result_response_to None)|].
    destruct (String.eqb _ "tools/call"); [|by right].
    destruct (handle_tools_call_eq env st None msg) as (name & args & limiter & r & ->).
    apply (result_response_to None).
Qed.

(** ** The guards of the HTTP transport *)

(** The message a handler sees: the header, if any, in the [authorization] field. *)
Definition seen_message (req : HttpRequest) (msg : Json) : option Json :=
  match h_authorization req with
  | Some auth => index_assign "authorization" (JStr auth) msg
  | None => Some msg
  end.

Lemma handle_post_eq env uuid req st msg :
  h_body req = Parsed msg →
  handle_http_request env uuid req st =
    (msg' ← seen_message req msg;
     match (if String.eqb (method_of msg') "initialize" then Ok tt else check_session req st) with
     | Err reply => Some (reply, st)
     | Ok tt =>
         let '(reply, st') := handle env st msg' (http_authenticated st msg') in
         match reply with
         | None => Some (plain 204 NoBody, st')
         | Some (resp, _) =>
             if String.eqb (method_of msg') "initialize" && bool_decide (is_Some (json_get "result" resp)) then
               let '(headers, st'') := initialized_headers uuid resp st' in
               Some ({| r_status := 200; r_headers := headers; r_body := JsonBody resp |}, st'')
             else Some (plain 200 (JsonBody resp), st')
         end
     end).
Proof. intros Hb. unfold handle_http_request. by rewrite Hb. Qed.

(** What a request must bring for a tool to run. *)
Record admitted (config : HttpConfig) (req : HttpRequest) (st : State) : Prop := {
  adm_post : verb req = POST;
  adm_origin : validate_origin config (h_origin req) = Ok tt;
  adm_session : ∀ live, sessions st = Some live → ∃ id, header_value (h_session req) = Some id ∧ id ∈ live;
  adm_token : ∀ token, auth_token st = Some token →
    ∃ msg msg' value, h_body req = Parsed msg ∧ seen_message req msg = Some msg'
      ∧ json_get "authorization" msg' = Some (JStr value) ∧ strip_bearer value = token;
}.

Lemma check_session_live req st live :
  check_session req st = Ok tt → sessions st = Some live → ∃ id, header_value (h_session req) = Some id ∧ id ∈ live.
Proof.
  unfold check_session, session_valid. intros Hc Hs. rewrite Hs in Hc.
  destruct (header_value _) as [id|]; [|done]. exists id. split; [done|].
  destruct (bool_decide_reflect (id ∈ live)); [done|]. done.
Qed.

Lemma http_authenticated_token st msg token :
  http_authenticated st msg = true → auth_token st = Some token →
  ∃ value, json_get "authorization" msg = Some (JStr value) ∧ strip_bearer value = token.
Proof.
  unfold http_authenticated. intros Ha Ht. rewrite Ht in Ha.
  destruct (json_get "authorization" msg) as [[]|]; try done. cbn in Ha. eexists. split; [done|]. by apply String.eqb_eq.
Qed.

Lemma initialized_state uuid resp st : ran (initialized_headers uuid resp st).2 = ran st
  ∧ auth_token (initialized_headers uuid resp st).2 = auth_token st
  ∧ rpc_limiter (initialized_headers uuid resp st).2 = rpc_limiter st
  ∧ sessions (initialized_headers uuid resp st).2 = (λ live, {[uuid]} ∪ live) <$> sessions st.
Proof. unfold initialized_headers, issue_session. by destruct (sessions st) eqn:E; cbn; rewrite ?E. Qed.

(** C18: Over HTTP a tool runs only for an admitted request: a POST whose [Origin] is
    allowed, with a session the server issued and has not ended, and with the
    token, when the server has one; each request runs at most one tool. *)
Theorem tools_guarded config env uuid req st reply st' :
  mcp_request config env uuid req st = Some (reply, st') →
  ran st' = ran st ∨ (admitted config req st ∧ ∃ call, ran st' = (ran st ++ [call])%list).
Proof.
  unfold mcp_request. destruct (validate_origin config (h_origin req)) as [[]|] eqn:Ho; [|intros [= _ <-]; by left].
  destruct (verb req) eqn:Hv; [|unfold handle_delete_mcp; intros [= E]; left; by repeat case_match; simplify_eq|intros [= _ <-]; by left].
  destruct (h_body req) as [| |msg] eqn:Hb; [unfold handle_http_request; rewrite Hb; intros [= _ <-]; by left..|].
  rewrite (handle_post_eq _ _ _ _ _ Hb). destruct (seen_message req msg) as [msg'|] eqn:Hm; [|done]. cbn [mbind option_bind].
  destruct (String.eqb_spec (method_of msg') "initialize") as [Hi|Hi].
  - pose proof (handle_state env st msg' (http_authenticated st msg')) as [_ [Hr|(Hm' & _)]]; [|congruence].
    destruct (handle _ _ _ _) as [[[resp b]|] st1]; cbn [snd andb] in *; [|by intros [= _ <-]; left].
    case_match; [|by intros [= _ <-]; left]. pose proof (initialized_state uuid resp st1) as (Hran & _).
    destruct (initialized_headers _ _ _). cbn in Hran. intros [= _ <-]. left. congruence.
  - destruct (check_session req st) as [[]|] eqn:Hc; [|by intros [= _ <-]; left].
    pose proof (handle_state env st msg' (http_authenticated st msg')) as [_ Hr].
    destruct (handle _ _ _ _) as [[[resp b]|] st1]; cbn [snd andb] in *; intros [= _ <-];
      (destruct Hr as [Hr|(_ & Ha & Hr)]; [by left|right; split; [|done]]).
    all: split; [done|done|intros live; by apply check_session_live|].
    all: intros token Ht; destruct (http_authenticated_token _ _ _ Ha Ht) as (value & ? & ?); by eauto 8.
Qed.

(** ** Sessions *)

(** The session a reply issues. *)
Definition issued (reply : HttpReply) : option string :=
  snd <$> List.find (λ h, String.eqb h.1 "mcp-session-id") (r_headers reply).

(** Requests one after another; a panic leaves the state and no reply. *)
Fixpoint run (config : HttpConfig) (reqs : list (ToolEnv * string * HttpRequest)) (st : State)
    : list (HttpRequest * HttpReply) * State :=
  match reqs with
  | [] => ([], st)
  | (env, uuid, req) :: reqs' =>
      match mcp_request config env uuid req st with
      | None => run config reqs' st
      | Some (reply, st) => let '(trace, st) := run config reqs' st in ((req, reply) :: trace, st)
      end
  end.

(** The live sessions a client could compute from the exchanges. *)
Definition observe (live : gset string) (ex : HttpRequest * HttpReply) : gset string :=
  match issued ex.2 with
  | Some id => {[id]} ∪ live
  | None =>
      match verb ex.1, header_value (h_session ex.1) with
      | DELETE, Some id => if r_status ex.2 =? 200 then live ∖ {[id]} else live
      | _, _ => live
      end
  end.

(** An exchange that issues a session: an [initialize] with the token. *)
Definition issued_rightly (config : HttpConfig) (token : option string) (ex : HttpRequest * HttpReply) : Prop :=
  is_Some (issued ex.2) →
  verb ex.1 = POST ∧ validate_origin config (h_origin ex.1) = Ok tt
  ∧ ∃ msg msg', h_body ex.1 = Parsed msg ∧ seen_message ex.1 msg = Some msg' ∧ method_of msg' = "initialize"
    ∧ ∀ expected, token = Some expected → check_auth msg' expected = true.

Lemma handle_initialize env st msg authenticated :
  method_of msg = "initialize" →
  ∃ resp b, handle env st msg authenticated = (Some (resp, b), st)
    ∧ (is_Some (json_get "result" resp) → ∀ expected, auth_token st = Some expected → check_auth msg expected = true).
Proof.
  intros Hm. unfold handle. rewrite Hm. cbn [String.eqb Ascii.eqb Bool.eqb].
  destruct (auth_token st) as [expected|]; [destruct (check_auth msg expected) eqn:Hc; cbn [negb]|];
    do 2 eexists; (split; [reflexivity|]).
  - by intros _ ? [= <-].
  - by intros [? Hr].
  - done.
Qed.

Lemma initialized_issued uuid resp st live reply :
  header_ok uuid = true → sessions st = Some live → r_headers reply = (initialized_headers uuid resp st).1 →
  issued reply = Some uuid.
Proof.
  intros Hu Hs Hh. unfold issued. rewrite Hh. unfold initialized_headers, issue_session. rewrite Hs. cbn [fst].
  rewrite Hu. by repeat case_match.
Qed.

Lemma plain_issued status b : issued (plain status b) = None.
Proof. done. Qed.

(** An exchange changes the sessions as its reply tells. *)
Lemma request_sessions config env uuid req st reply st' live :
  mcp_request config env uuid req st = Some (reply, st') → sessions st = Some live → header_ok uuid = true →
  auth_token st' = auth_token st ∧ sessions st' = Some (observe live (req, reply))
  ∧ issued_rightly config (auth_token st) (req, reply).
Proof.
  intros Hreq Hs Hu.
  assert (∀ rep, issued rep = None → verb req = POST ∨ verb req = GET ∨ (r_status rep =? 200) = false →
    auth_token st = auth_token st ∧ sessions st = Some (observe live (req, rep)) ∧ issued_rightly config (auth_token st) (req, rep))
    as Hstay.
  { intros rep Hrep Hv. split; [done|]. unfold observe, issued_rightly. cbn [fst snd]. rewrite Hrep. split; [|by intros []].
    destruct (verb req); [done| |done]. destruct (header_value _); [|done]. destruct Hv as [?|[?| ->]]; done. }
  unfold mcp_request in Hreq. destruct (validate_origin config (h_origin req)) as [[]|] eqn:Ho.
  2: { injection Hreq as <- <-. apply Hstay; auto. }
  destruct (verb req) eqn:Hv; [|unfold handle_delete_mcp in Hreq; rewrite Hs in Hreq|injection Hreq as <- <-; solve [apply Hstay; auto]].
  2: { destruct (header_value (h_session req)) as [id|] eqn:Hid; [|injection Hreq as <- <-; solve [apply Hstay; auto]].
       destruct (bool_decide_reflect (id ∈ live)); injection Hreq as <- <-; [|solve [apply Hstay; auto]].
       split; [done|]. split; [|by intros []]. unfold observe. cbn. by rewrite Hv, Hid. }
  destruct (h_body req) as [| |msg] eqn:Hb;
    [unfold handle_http_request in Hreq; rewrite Hb in Hreq; injection Hreq as <- <-; solve [apply Hstay; auto]..|].
  rewrite (handle_post_eq _ _ _ _ _ Hb) in Hreq. destruct (seen_message req msg) as [msg'|] eqn:Hm; [|done].
  cbn [mbind option_bind] in Hreq. destruct (String.eqb_spec (method_of msg') "initialize") as [Hi|Hi].
  - destruct (handle_initialize env st msg' (http_authenticated st msg') Hi) as (resp & b & Heq & Hauth).
    rewrite Heq in Hreq. cbn [andb] in Hreq. destruct (bool_decide_reflect (is_Some (json_get "result" resp))) as [Hr|].
    2: { injection Hreq as <- <-. apply Hstay; auto. }
    pose proof (initialized_state uuid resp st) as (_ & Ht & _ & Hss).
    destruct (initialized_headers uuid resp st) as [headers st1] eqn:Eh. cbn [snd] in *.
    injection Hreq as <- <-. split; [done|].
    assert (issued {| r_status := 200; r_headers := headers; r_body := JsonBody resp |} = Some uuid) as Hiss.
    { eapply initialized_issued; [done|exact Hs|]. by rewrite Eh. }
    split; [rewrite Hss, Hs; unfold observe; cbn [fst snd]; by rewrite Hiss|].
    intros _. split; [done|]. split; [done|]. exists msg, msg'. by auto.
  - destruct (check_session req st) as [[]|rep] eqn:Hc.
    + pose proof (handle_state env st msg' (http_authenticated st msg')) as [[Ht Hss] _].
      destruct (handle _ _ _ _) as [[[resp b]|] st1]; cbn [snd andb] in *; injection Hreq as <- <-;
        rewrite Ht, Hss; solve [apply Hstay; auto].
    + injection Hreq as <- <-. apply Hstay; [|by auto]. unfold check_session in Hc. rewrite Hs in Hc.
      destruct (header_value (h_session req)) as [id|]; [destruct (session_valid st id)|];
        cbn in Hc; repeat case_match; by simplify_eq.
Qed.

Lemma run_sessions config reqs st live :
  sessions st = Some live → Forall (λ r, header_ok r.1.2 = true) reqs →
  let '(trace, st') := run config reqs st in
  auth_token st' = auth_token st ∧ sessions st' = Some (foldl observe live trace)
  ∧ Forall (issued_rightly config (auth_token st)) trace.
Proof.
  revert st live. induction reqs as [|[[env uuid] req] reqs IH]; intros st live Hs Hall; cbn [run].
  { split; [done|]. by split. }
  apply Forall_cons in Hall as [Hu Hall]. cbn in Hu.
  destruct (mcp_request config env uuid req st) as [[reply st1]|] eqn:E; [|by apply IH].
  destruct (request_sessions _ _ _ _ _ _ _ _ E Hs Hu) as (Ht & Hs1 & Hr). specialize (IH st1 _ Hs1 Hall).
  destruct (run config reqs st1) as [trace st']. destruct IH as (Ht' & Hs' & Htr). rewrite Ht in Ht', Htr.
  split; [done|]. split; [exact Hs'|]. by constructor.
Qed.

(** C28: The sessions are what the replies told the clients: after any requests, the
    live ones are exactly those a reply issued and no later DELETE answered 200
    has ended, and each was issued to an [initialize] from an allowed origin
    that carried the token, when the server has one. *)
Theorem sessions_as_told config reqs token limiter :
  Forall (λ r, header_ok r.1.2 = true) reqs →
  let '(trace, st) := run config reqs {| auth_token := token; sessions := Some ∅; rpc_limiter := limiter; ran := [] |} in
  sessions st = Some (foldl observe ∅ trace) ∧ Forall (issued_rightly config token) trace.
Proof.
  intros Hall. pose proof (run_sessions config reqs {| auth_token := token; sessions := Some ∅; rpc_limiter := limiter; ran := [] |}
    ∅ eq_refl Hall) as Hrun.
  destruct (run _ _ _) as [trace st]. by destruct Hrun as (_ & ? & ?).
Qed.

(** ** The transports agree *)

Lemma check_auth_field msg value expected :
  json_get "authorization" msg = Some (JStr value) → check_auth msg expected = String.eqb (strip_bearer value) expected.
Proof. intros Hm. unfold check_auth. by rewrite Hm. Qed.

(** The same message gets the same answer over both transports: a POST that
    passes the guards replies with what the stdio loop writes for a line with
    that message, or with an empty body where the loop writes nothing, and
    leaves the same budget and runs the same tool. *)
Theorem transports_agree config parse env uuid req st line msg :
  blank line = false → parse line = Ok msg → h_body req = Parsed msg → h_authorization req = None →
  verb req = POST → validate_origin config (h_origin req) = Ok tt → check_session req st = Ok tt →
  ((∃ value, json_get "authorization" msg = Some (JStr value)) ∨ auth_token st = None) →
  let '(out, st1) := serve_line parse env st line in
  ∃ reply st2, mcp_request config env uuid req st = Some (reply, st2)
    ∧ out = match r_body reply with JsonBody v => [v] | _ => [] end
    ∧ rpc_limiter st2 = rpc_limiter st1 ∧ ran st2 = ran st1.
Proof.
  intros Hl Hp Hb Hh Hv Ho Hc Ha. unfold serve_line. rewrite Hl, Hp.
  assert (http_authenticated st msg = match auth_token st with Some token => check_auth msg token | None => true end) as Hauth.
  { unfold http_authenticated. destruct (auth_token st); [|done]. destruct Ha as [[value Hval]|]; [|done].
    rewrite (check_auth_field _ _ _ Hval). by rewrite Hval. }
  unfold mcp_request. rewrite Ho, Hv, (handle_post_eq _ _ _ _ _ Hb). unfold seen_message. rewrite Hh.
  cbn [mbind option_bind]. rewrite Hc, Hauth.
  assert ((if String.eqb (method_of msg) "initialize" then Ok tt else Ok tt) = (Ok tt : result HttpReply unit)) as -> by (by destruct (String.eqb _ _)).
  destruct (handle _ _ _ _) as [[[resp b]|] st1].
  - destruct (_ && _).
    + pose proof (initialized_state uuid resp st1) as (? & _ & ? & _). destruct (initialized_headers _ _ _) as [headers st2].
      do 2 eexists. by split.
    + do 2 eexists. by split.
  - do 2 eexists. by split.
Qed.

(** ** Start-up *)

Lemma trimmed_token env token :
  (s ← env "MCP_AUTH_TOKEN"; if String.eqb (trim s) "" then None else Some (trim s)) = Some token → token ≠ "".
Proof.
  destruct (env "MCP_AUTH_TOKEN") as [s|]; cbn [mbind option_bind]; [|done].
  destruct (String.eqb_spec (trim s) ""); [done|]. by intros [= <-].
Qed.

(** A server that starts on HTTP has a token that is not empty, or the operator
    accepted anonymous clients; it tracks sessions exactly on HTTP, and the
    pool's settings it cannot read stop it. *)
Theorem starts_guarded parse debug env db st :
  configure parse debug env = Ok (db, st) →
  (is_Some (env "MCP_HTTP_BIND") →
     (∃ token, auth_token st = Some token ∧ token ≠ "") ∨ flag (env "MCP_HTTP_ALLOW_ANONYMOUS") = true)
  ∧ sessions st = (λ _, ∅) <$> env "MCP_HTTP_BIND" ∧ ran st = []
  ∧ (∀ v, env "DATABASE_MAX_CONNECTIONS" = Some v → blank v = false →
       env "MCP_DATABASE_MAX_CONNECTIONS" = None → parse 32 (trim v) = Ok (max_connections db)).
Proof.
  unfold configure. intros Hc. set (token := s ← env "MCP_AUTH_TOKEN"; _) in Hc.
  apply bind_ok_inv in Hc as (? & _ & Hc). cbv zeta in Hc.
  apply bind_ok_inv in Hc as ([] & Hauth & Hc). apply bind_ok_inv in Hc as (? & _ & Hc).
  apply bind_ok_inv in Hc as (mx & Hmx & Hc).
  do 4 (apply bind_ok_inv in Hc as (? & _ & Hc)). injection Hc as <- <-. cbn.
  split; [|split; [done|split; [done|]]].
  - intros [b Hb]. rewrite Hb in Hauth. unfold validate_http_auth in Hauth.
    destruct token as [t|] eqn:Ht; [left; exists t; split; [done|by apply (trimmed_token env)]|right].
    cbn in Hauth. by destruct (flag _).
  - intros v Hv Hblank Hnone. unfold db_setting in Hmx. rewrite Hnone, Hv, Hblank in Hmx. by destruct (parse 32 (trim v)); simplify_eq/=.
Qed.

(** ** Negotiation and panics *)

(** The version a client is told is a supported one, and its own if that is. *)
Theorem negotiated_version msg :
  ∃ v, json_get "protocolVersion" (initialize_result msg) = Some (JStr v) ∧ v ∈ SUPPORTED_PROTOCOL_VERSIONS
    ∧ ∀ p r, json_get "params" msg = Some p → json_get "protocolVersion" p = Some (JStr r) →
        r ∈ SUPPORTED_PROTOCOL_VERSIONS → v = r.
Proof.
  unfold initialize_result. set (requested := default _ _).
  exists (if bool_decide (requested ∈ SUPPORTED_PROTOCOL_VERSIONS) then requested else "2025-06-18"). split; [|split].
  - by destruct (bool_decide _).
  - destruct (bool_decide_reflect (requested ∈ SUPPORTED_PROTOCOL_VERSIONS)); [done|].
    apply (bool_decide_unpack _). by vm_compute.
  - intros p r Hp Hr Hin. assert (requested = r) as ->; [|by rewrite bool_decide_true].
    unfold requested. rewrite Hp. cbn [mbind option_bind]. by rewrite Hr.
Qed.

(** A request makes the handler panic exactly when it is a POST with an
    [Authorization] header whose body is JSON but neither an object nor null;
    the session and the token are not looked at before. *)
Theorem panics_exactly config env uuid req st :
  mcp_request config env uuid req st = None ↔
  validate_origin config (h_origin req) = Ok tt ∧ verb req = POST ∧ is_Some (h_authorization req)
  ∧ ∃ msg, h_body req = Parsed msg ∧ index_assign "authorization" JNull msg = None.
Proof.
  unfold mcp_request. destruct (validate_origin _ _) as [[]|]; [|naive_solver].
  destruct (verb req); [|destruct (handle_delete_mcp _ _); naive_solver|naive_solver].
  destruct (h_body req) as [| |msg] eqn:Hb; [unfold handle_http_request; rewrite Hb; naive_solver..|].
  rewrite (handle_post_eq _ _ _ _ _ Hb). unfold seen_message.
  assert (∀ msg', (match (if String.eqb (method_of msg') "initialize" then Ok tt else check_session req st) with
     | Err reply => Some (reply, st)
     | Ok tt =>
         let '(reply, st') := handle env st msg' (http_authenticated st msg') in
         match reply with
         | None => Some (plain 204 NoBody, st')
         | Some (resp, _) =>
             if String.eqb (method_of msg') "initialize" && bool_decide (is_Some (json_get "result" resp)) then
               let '(headers, st'') := initialized_headers uuid resp st' in
               Some ({| r_status := 200; r_headers := headers; r_body := JsonBody resp |}, st'')
             else Some (plain 200 (JsonBody resp), st')
         end
     end) ≠ None) as Hsome.
  { intros msg'. destruct (if String.eqb _ _ then _ else _) as [[]|]; [|done].
    destruct (handle _ _ _ _) as [[[]|] ?]; [|done]. case_match; [|done]. by destruct (initialized_headers _ _ _). }
  split.
  - intros Hnone. destruct (h_authorization req) as [auth|]; [|by destruct (Hsome msg)].
    split; [done|]. split; [done|]. split; [by eexists|]. exists msg. split; [done|].
    destruct (index_assign "authorization" (JStr auth) msg) as [msg'|] eqn:Hidx; [by destruct (Hsome msg')|].
    by destruct msg.
  - intros (_ & _ & [auth Hauth] & msg0 & [= <-] & Hidx). rewrite Hauth. by destruct msg.
Qed.
End server.

(** ** Samples *)

#[local] Instance sample_stellar_server : Stellar := sample_stellar.
#[local] Instance sample_serde_server : SerdeJson := plain_serde.
#[local] Instance sample_check_server : StrkeyCheck := sample_check.
#[local] Instance sample_lib_server : McpLib := sample_lib.

Definition sample_pretty (v : Json) : string := serde_to_string v.
Definition sample_header_ok (s : string) : bool := negb (String.eqb s "").

Definition sample_config : HttpConfig := {| allowed_origins := {["https://app.example"]}; allow_any_origin := false |}.

Definition sample_server : State :=
  {| auth_token := Some "secret"; sessions := Some ∅; rpc_limiter := limiter_new 5; ran := [] |}.

Definition sample_message (id : option Z) (method : string) (params : list (string * Json)) : Json :=
  mk_obj ([("method", JStr method); ("params", mk_obj params)] ++ match id with Some i => [("id", JInt i)] | None => [] end)%list.

Definition sample_post (session : option string) (auth : option string) (msg : Json) : HttpRequest := {|
  verb := POST; h_origin := None; h_authorization := auth; h_session := session; h_version := None; h_body := Parsed msg |}.

Definition sample_delete (session : string) : HttpRequest := {|
  verb := DELETE; h_origin := None; h_authorization := None; h_session := Some session; h_version := None; h_body := NotJson |}.

Definition sample_call_message : Json :=
  sample_message (Some 2) "tools/call"
    [("name", JStr "get_event"); ("arguments", mk_obj [("event_id", JStr "6")])].

Definition sample_requests : list (ToolEnv * string * HttpRequest) :=
  (λ r, (sample_tool_env, r.1, r.2)) <$> [
    ("u1", sample_post None None (sample_message (Some 1) "initialize" []));
    ("u2", sample_post None (Some "Bearer secret") (sample_message (Some 1) "initialize" []));
    ("u3", sample_post (Some "u2") (Some "Bearer secret") sample_call_message);
    ("u4", sample_post (Some "u2") None sample_call_message);
    ("u5", sample_delete "u2");
    ("u6", sample_post (Some "u2") (Some "Bearer secret") sample_call_message)].

Definition sample_request (config : HttpConfig) (req : HttpRequest) (st : State) : option (HttpReply * State) :=
  mcp_request string_order sample_pretty sample_header_ok config sample_tool_env "u9" req st.

(** A session from [initialize] to [DELETE]: only the third request runs a tool. *)
Example session_flow :
  let '(trace, st) := run string_order sample_pretty sample_header_ok sample_config sample_requests sample_server in
  (λ ex, r_status ex.2) <$> trace = [200; 200; 200; 200; 200; 404]
  ∧ ran st = [("get_event", mk_obj [("event_id", JStr "6")])] ∧ sessions st = Some ∅.
Proof. by vm_compute. Qed.

Example tools_guarded_witness :
  let st := with_sessions (Some {["u2"]}) sample_server in
  let req := sample_post (Some "u2") (Some "Bearer secret") sample_call_message in
  ∃ reply st', sample_request sample_config req st = Some (reply, st')
    ∧ (ran st' = ran st ∨ admitted sample_config req st ∧ ∃ call, ran st' = (ran st ++ [call])%list).
Proof.
  cbv zeta. set (req := sample_post _ _ _). set (st := with_sessions _ _).
  destruct (sample_request sample_config req st) as [[reply st']|] eqn:E; [|by vm_compute in E].
  exists reply, st'. split; [reflexivity|].
  exact (tools_guarded string_order sample_pretty sample_header_ok sample_config sample_tool_env "u9" req st reply st' E).
Defined.

Example sessions_as_told_witness :
  Forall (λ r, sample_header_ok r.1.2 = true) sample_requests
  ∧ let '(trace, st) := run string_order sample_pretty sample_header_ok sample_config sample_requests sample_server in
    sessions st = Some (foldl observe ∅ trace) ∧ Forall (issued_rightly sample_config (Some "secret")) trace.
Proof.
  assert (Forall (λ r, sample_header_ok r.1.2 = true) sample_requests) as Hall by (repeat constructor).
  split; [exact Hall|].
  exact (sessions_as_told string_order sample_pretty sample_header_ok sample_config sample_requests (Some "secret") (limiter_new 5) Hall).
Defined.

Example transports_agree_witness :
  let msg := mk_obj [("id", JInt 1); ("method", JStr "ping"); ("authorization", JStr "secret")] in
  let st := with_sessions (Some {["u2"]}) sample_server in
  let '(out, st1) := serve_line string_order sample_pretty (λ _, Ok msg) sample_tool_env st "x" in
  out = [result_response (Some (JInt 1)) (mk_obj [])]
  ∧ ∃ reply st2, sample_request sample_config (sample_post (Some "u2") None msg) st = Some (reply, st2)
    ∧ out = match r_body reply with JsonBody v => [v] | _ => [] end ∧ rpc_limiter st2 = rpc_limiter st1 ∧ ran st2 = ran st1.
Proof.
  cbv zeta. set (msg := mk_obj _). set (st := with_sessions _ _).
  pose proof (transports_agree string_order sample_pretty sample_header_ok sample_config (λ _, Ok msg) sample_tool_env "u9"
    (sample_post (Some "u2") None msg) st "x" msg eq_refl eq_refl eq_refl eq_refl eq_refl eq_refl eq_refl
    (or_introl (ex_intro _ "secret" eq_refl))) as Ht.
  destruct (serve_line string_order sample_pretty (λ _, Ok msg) sample_tool_env st "x") as [out st1] eqn:E.
  split; [|exact Ht]. assert (out = (serve_line string_order sample_pretty (λ _, Ok msg) sample_tool_env st "x").1) as -> by by rewrite E.
  by vm_compute.
Defined.

Example negotiated_older : json_get "protocolVersion" (initialize_result (sample_message (Some 1) "initialize" [("protocolVersion", JStr "2020-01-01")]))
  = Some (JStr "2025-06-18").
Proof. by vm_compute. Qed.

Example binds :
  normalize_bind ":8090" = "127.0.0.1:8090" ∧ normalize_bind " 8090 " = "127.0.0.1:8090"
  ∧ normalize_bind "0.0.0.0:8090" = "0.0.0.0:8090" ∧ normalize_bind "[::1]:8090" = "[::1]:8090".
Proof. by vm_compute. Qed.

(** *** What the server does otherwise than it says *)

(** A batch with an [Authorization] header panics, before any check. *)
Example batch_panics :
  sample_request sample_config (sample_post None (Some "wrong") (JArr [])) sample_server = None.
Proof. by vm_compute. Qed.

(** A message without an id is answered, under a null id, when its method is
    [initialize], [ping] or a tools method; a request under a notification's
    method is not. *)
Example notification_answered :
  (handle string_order sample_pretty sample_tool_env sample_server (sample_message None "ping" []) true).1
    = Some (result_response None (mk_obj []), false)
  ∧ (handle string_order sample_pretty sample_tool_env sample_server (sample_message (Some 1) "notifications/x" []) true).1 = None.
Proof. by vm_compute. Qed.

(** Over HTTP a token inside [params] opens a session that cannot be used with it. *)
Example params_token_only_initializes :
  let auth := [("authToken", JStr "secret")] in
  let '(trace, _) := run string_order sample_pretty sample_header_ok sample_config
    [(sample_tool_env, "u1", sample_post None None (sample_message (Some 1) "initialize" auth));
     (sample_tool_env, "u2", sample_post (Some "u1") None (sample_message (Some 2) "ping" auth))] sample_server in
  (λ ex, match r_body ex.2 with JsonBody v => bool_decide (is_Some (json_get "result" v)) | _ => false end) <$> trace = [true; false].
Proof. by vm_compute. Qed.
